(* ===== verification/_CoqProject ===== *)
-Q . S2P
Prelude.v
Elf.v
Dwarf.v
CfiElf.v
CfiParse.v
CfiRun.v
EvQueue.v
ProcMem.v
Reloc.v
Shdrs.v
Sha256.v
Modules.v
Image.v
DumpCheck.v
Dex.v
SpanStack.v
Correlate.v
Emit.v
SymElf.v
Probe.v
Caches.v
Registry.v
Procmaps.v
Symbolize.v
ProbeSpec.v
Funcs.v
SysTables.v
Syscalls.v
Json.v
ModEvents.v
Tally.v
Burst.v
Decode.v
FileAccess.v
Exfil.v
Fileless.v
Analyzers.v
Managed.v
Records.v
ArgRecords.v
Trace.v
SymApk.v
SymJit.v
Art.v
Dump.v
Attach.v
ArtBuild.v
