(* ===== verification/Prelude.v ===== *)
(** * Anubee: a verification library (root file)

    Anubee traces Android processes with eBPF: programs in the kernel emit events
    for function calls, system calls and suspicious behaviour; the user side drains
    them, resolves addresses to names, unwinds captured stacks, rebuilds modules out
    of process memory and writes JSON.  This library models the parts of the C code
    (src/ of the repository) that carry its own logic and proves what they promise.
    Definitions follow the source function by function and keep its names.

    ** Conventions

    A C function that may fail, read outside an object or loop is a function into
    [res]: [Ret] a result, [Fail] the error return, [Oob] an access outside its
    object, [NoFuel] a loop that did not end within its fuel.  Memory is a byte list
    per object and every load and copy is bounds-checked ([ld], [memcpy_in],
    [memcpy_out]).  Integers are [Z] with the width written out ([u8] to [u64], [s64])
    wherever the source wraps.  Structures are records, global state is a record that
    is passed on, and concurrent parts are step relations.  What is not source of this
    repository is a parameter: the C library's qsort, fnmatch and regex functions,
    liblzma, libelf's view of a file, allocation outcomes, file and memory reads, the
    clock, the bytes the kernel delivers.  Hypotheses on parameters are named and
    every property with hypotheses has a concrete witness.

    ** Files

    Prelude (this file): integers, bytes, [res] with its bind and weakest
    precondition, bounds-checked loads, first occurrences in a list, the tactic [b2p].

    Unwinding.  Elf: headers and byte layouts.  Dwarf (common/dwarf.c): cursor and
    LEB128.  CfiElf, CfiParse, CfiRun (common/cfi_unwind.c): finding the CFI section
    of an ELF image, building the FDE table, running CFI programs, one unwind step.
    The theorems: readers stay inside their buffer and LEB128 reads back; parsers are
    total on any bytes and their two passes agree; the binary search is a linear one;
    the interpreter computes the rows of the abstract program; a step recovers the
    caller or says why not.

    Names.  SymElf (common/sym_elf.c): symbol tables, mini-debug-info, lookup.  Probe:
    the open-addressing table the caches share, with its probing invariant, growth
    and the refinement of a finite map.  Caches: module index, address cache
    (symbolize.c), descriptor paths (decode.c).  Procmaps (common/sym_procmaps.c):
    map snapshots.  Symbolize (common/symbolize.c): name resolution and
    [cfi_unwind_snapshot], which puts maps, module cache, CFI tables and steps
    together; its theorem is about the composition.  Registry
    (common/target_registry.c): addresses back to probes.  ProbeSpec
    (common/probe_resolve.c): the specification language, parser and printer, and
    resolution.  Dex (common/dex.c): DEX method tables and names.  SymApk
    (common/sym_apk.c): libraries stored in ZIP archives, named by the offset they are
    mapped from.  SymJit (common/sym_jit.c): the runtime's list of JIT-compiled code,
    walked in live memory under its sequence lock; a stable list is published exactly.
    Art (common/art_nterp.c, common/art_shadow.c): interpreted Java frames, from the
    words of a captured stack and from a thread's managed stack, equal to a reference
    definition.  ArtBuild (common/art_buildid.c): the layout of the runtime's
    structures by BuildID, with the override file that reads back.  Managed
    (common/managed_frame.c): chains of Java frames and their cache.

    Tracing.  SpanStack (common/span_stack.bpf.h) and Correlate
    (correlate/correlate.bpf.c): the BPF programs over their maps, refined to a list
    of open spans per thread.  Funcs (funcs/funcs.bpf.c,
    common/stack_snapshot.bpf.h): call and return programs and snapshot capture; the
    records of a tree of calls pair up.  SysTables (common/syscall_index.h,
    common/syscall_argtypes.c, syscalls/scope.h, tables and filter of
    syscalls/syscalls.c): names, argument tables, selections.  Syscalls
    (syscalls/syscalls.bpf.c, attribution.h, lib_seed.h, common/lib_trace.bpf.h,
    common/follow_fork.bpf.h, and arming, scopes and pairing of syscalls/syscalls.c):
    the whole path from the entry of a syscall to its record, for every interleaving
    of the app's threads, the drain thread and the worker.  EvQueue
    (common/evqueue.c): the drain queue between two threads as a step relation, refined
    to a FIFO of records, with liveness.  Attach (attaching in funcs/funcs.c and
    correlate/correlate.c): from specifications and loaded files to probes, each place
    once.

    Detecting.  ModEvents (modules/mod_events.h, mod_emit.c, common/trace_schema.c):
    events and their records.  Tally and Analyzers (the user side of modules/): tables,
    callbacks, summaries.  Burst (massdelete_detect.bpf.c, accessibility_detect.bpf.c),
    Exfil (exfil_detect.bpf.c), Fileless (fileless_detect, screencapture_detect),
    FileAccess (file_access_classify.c, file_access.bpf.c): the detectors; an alert is
    justified by the history of the process, and a history that justifies one is
    reported.

    Writing.  Emit (common/emit.c): the JSON serializer and the output sink.  Json: JSON
    values and a strict reader.  Decode (common/decode.c): argument decoders, whose
    texts read back.  Records, ArgRecords (corr_emit.c, funcs_emit.c, stack_snapshot.c,
    dump_emit.c, lib_trace.c, coverage.c, the records of syscalls.c and symbolize.c):
    one builder per record with the value it writes.  Trace: whole sessions; every
    file a session leaves parses to typed records in the order of the events.

    Dumping.  ProcMem (common/proc_mem.c), Modules (common/maps.c,
    common/pattern_match.c and selection in dump/rebuild.c), Image, Reloc, Shdrs
    (dump/rebuild.c): reading a module out of memory, undoing its relocations,
    closing the gaps between segments, rebuilding section headers.  Sha256
    (common/sha256.c) and DumpCheck: the integrity check.  Dump (dump/dump.c,
    dump/dump_args.c, the path resolver of common/lib_trace.c): the dump engine around
    them; what a run rebuilds or compares is what its trigger promises.

    ** Fuel

    Every fuelled loop gets a bound computed from its input: buffer lengths for
    parsers (each turn consumes a byte), interval length for binary searches, the
    64 doublings of a 64-bit size, the table size for probes (a probe that passed
    every slot once passes them for ever: [Probe.probe_spins]), 256 frames for a walk
    as in the source.  Theorems that a function returns say so with this fuel; where
    a loop can really spin, a theorem says that too.

    ** Not modelled

    Loading and attaching BPF objects through libbpf, command lines parsed by argp (the
    rules of the dump engine apart), console output, process launch and signals, the
    spec-file loader, progress reports and the merging of output files: system calls and
    printing with little logic of their own.  The capture programs of the execve,
    process and property modules and the vDSO name source, which reuse parts that are
    modelled.  vmlinux.h, the generated syscall tables' contents beyond the rows used,
    and the Python analysis server.  Locks are not modelled where one lock covers an
    operation: the operation is then one step.  Target memory is frozen during one
    walk, except in SymJit, where it changes from read to read. *)

From stdpp Require Import base list option numbers.
From Stdlib Require Import ZArith Lia.
From Stdlib Require Export Strings.Byte.
From Stdlib Require Strings.String.
Export String.StringSyntax.
Delimit Scope string_scope with string.

Local Open Scope Z_scope.

(** ** Machine integers *)

Definition u8 (z : Z) : Z := z mod 2 ^ 8.
Definition u16 (z : Z) : Z := z mod 2 ^ 16.
Definition u32 (z : Z) : Z := z mod 2 ^ 32.
Definition u64 (z : Z) : Z := z mod 2 ^ 64.
Definition s16 (z : Z) : Z := (z + 2 ^ 15) mod 2 ^ 16 - 2 ^ 15.
Definition s32 (z : Z) : Z := (z + 2 ^ 31) mod 2 ^ 32 - 2 ^ 31.
Definition s64 (z : Z) : Z := (z + 2 ^ 63) mod 2 ^ 64 - 2 ^ 63.

Definition in_u (w z : Z) : Prop := 0 <= z < 2 ^ w.

Create HintDb words.

Lemma u8_range z : 0 <= u8 z < 2 ^ 8.
Proof. apply Z.mod_pos_bound. lia. Qed.
Lemma u16_range z : 0 <= u16 z < 2 ^ 16.
Proof. apply Z.mod_pos_bound. lia. Qed.
Lemma u32_range z : 0 <= u32 z < 2 ^ 32.
Proof. apply Z.mod_pos_bound. lia. Qed.
Lemma u64_range z : 0 <= u64 z < 2 ^ 64.
Proof. apply Z.mod_pos_bound. lia. Qed.
Lemma u16_small z : 0 <= z < 2 ^ 16 -> u16 z = z.
Proof. intros. apply Z.mod_small. lia. Qed.
Lemma u32_small z : 0 <= z < 2 ^ 32 -> u32 z = z.
Proof. intros. apply Z.mod_small. lia. Qed.
Lemma u64_small z : 0 <= z < 2 ^ 64 -> u64 z = z.
Proof. intros. apply Z.mod_small. lia. Qed.
Lemma s64_small z : - 2 ^ 63 <= z < 2 ^ 63 -> s64 z = z.
Proof. intros. unfold s64. rewrite Z.mod_small; lia. Qed.
Lemma s64_range z : - 2 ^ 63 <= s64 z < 2 ^ 63.
Proof. unfold s64. pose proof (Z.mod_pos_bound (z + 2 ^ 63) (2 ^ 64)). lia. Qed.

#[export] Hint Resolve u8_range u16_range u32_range u64_range s64_range : words.

(** [lor] of a value with bits strictly above it is an addition. *)
Lemma lor_shiftl_add a b k :
  0 <= k -> 0 <= a < 2 ^ k -> Z.lor a (Z.shiftl b k) = a + b * 2 ^ k.
Proof.
  intros Hk Ha. rewrite Z.shiftl_mul_pow2 by lia.
  assert (Hdis : Z.land a (b * 2 ^ k) = 0).
  { apply Z.bits_inj'; intros i Hi. rewrite Z.land_spec, Z.bits_0.
    destruct (Z.ltb_spec i k).
    - rewrite (Z.mul_pow2_bits_low b k i) by lia. apply andb_false_r.
    - destruct (Z.eq_dec a 0) as [->|]; [now rewrite Z.bits_0|].
      rewrite (Z.bits_above_log2 a i); [reflexivity|lia|].
      apply Z.log2_lt_pow2; [lia|].
      apply Z.lt_le_trans with (2 ^ k); [lia|]. apply Z.pow_le_mono_r; lia. }
  rewrite <- Z.lxor_lor, <- Z.add_nocarry_lxor; auto.
Qed.

(** ** Bytes *)

Definition bz (b : byte) : Z := Z.of_N (Byte.to_N b).
Definition zb (z : Z) : byte :=
  match Byte.of_N (Z.to_N (z mod 256)) with Some b => b | None => x00 end.

Lemma bz_range b : 0 <= bz b < 256.
Proof. unfold bz. pose proof (Byte.to_N_bounded b). lia. Qed.

Lemma bz_zb z : bz (zb z) = z mod 256.
Proof.
  unfold bz, zb. pose proof (Z.mod_pos_bound z 256 eq_refl) as Hr.
  destruct (Byte.of_N (Z.to_N (z mod 256))) as [b|] eqn:E.
  - apply Byte.to_of_N in E. rewrite E. lia.
  - apply Byte.of_N_None_iff in E. lia.
Qed.

Lemma bz_zb_small z : 0 <= z < 256 -> bz (zb z) = z.
Proof. intros. rewrite bz_zb. apply Z.mod_small. lia. Qed.

Lemma zb_bz b : zb (bz b) = b.
Proof.
  unfold zb. pose proof (bz_range b). rewrite Z.mod_small by lia.
  unfold bz. rewrite N2Z.id, Byte.of_to_N. reflexivity.
Qed.

#[export] Hint Resolve bz_range : words.

(** A property of all byte values, by evaluation. *)
Lemma check_bytes (P : Z -> bool) :
  forallb P (map Z.of_nat (seq 0 256)) = true -> forall z, 0 <= z < 256 -> P z = true.
Proof.
  rewrite forallb_forall. intros H z Hz. apply H. apply in_map_iff.
  exists (Z.to_nat z). split; [lia|]. apply in_seq. lia.
Qed.

Lemma lor_range a b w :
  0 <= w -> 0 <= a < 2 ^ w -> 0 <= b < 2 ^ w -> 0 <= Z.lor a b < 2 ^ w.
Proof.
  intros Hw Ha Hb. assert (H0 : 0 <= Z.lor a b) by (apply Z.lor_nonneg; lia).
  split; [exact H0|].
  destruct (Z.eq_dec (Z.lor a b) 0) as [->|Hne]; [apply Z.pow_pos_nonneg; lia|].
  apply Z.log2_lt_pow2; [lia|]. rewrite Z.log2_lor by lia.
  destruct (Z.eq_dec a 0) as [->|]; destruct (Z.eq_dec b 0) as [->|];
    try (exfalso; apply Hne; reflexivity); rewrite ?Z.lor_0_l, ?Z.lor_0_r in *;
    apply Z.max_lub_lt; try (apply Z.log2_lt_pow2; lia);
    change (Z.log2 0) with 0; 
    destruct (Z.eq_dec w 0) as [->|]; simpl in *; lia.
Qed.

Lemma land_7f z : Z.land z 0x7f = z mod 128.
Proof. apply (Z.land_ones z 7). lia. Qed.

Lemma land_80 z : 0 <= z < 256 -> (Z.land z 0x80 =? 0) = (z <? 128).
Proof.
  intros Hz. apply eqb_prop. revert z Hz.
  apply (check_bytes (fun z => Bool.eqb (Z.land z 0x80 =? 0) (z <? 128))).
  vm_compute. reflexivity.
Qed.

Lemma land_40 z : 0 <= z < 128 -> (Z.land z 0x40 =? 0) = (z <? 64).
Proof.
  intros Hz. assert (Hb : 0 <= z < 256) by lia.
  pose proof (check_bytes
    (fun z => (128 <=? z) || Bool.eqb (Z.land z 0x40 =? 0) (z <? 64)) eq_refl z Hb) as H.
  apply orb_true_iff in H as [H|H]; [apply Z.leb_le in H; lia|now apply eqb_prop].
Qed.

(** Length of a list as a machine size. *)
Definition zlen {A} (l : list A) : Z := Z.of_nat (length l).

Lemma zlen_nonneg {A} (l : list A) : 0 <= zlen l.
Proof. unfold zlen. lia. Qed.
Lemma zlen_app {A} (l k : list A) : zlen (l ++ k) = zlen l + zlen k.
Proof. unfold zlen. rewrite length_app. lia. Qed.
Lemma zlen_cons {A} (a : A) l : zlen (a :: l) = 1 + zlen l.
Proof. unfold zlen. simpl length. lia. Qed.
#[export] Hint Resolve zlen_nonneg : words.

(** The bytes of a string literal, without its terminator. *)
Definition bytes_of (s : String.string) : list byte := String.list_byte_of_string s.
Arguments bytes_of _%_string.

(** ** First occurrences

    What a list of "already handled" keys lets through: the elements whose key is not in
    [seen] and does not occur earlier. *)
Section Firsts.
Context {A K : Type} `{EqDecision K} (key : A -> K).

Fixpoint firsts_by (seen : list K) (l : list A) : list A :=
  match l with
  | [] => []
  | x :: l => if bool_decide (key x ∈ seen) then firsts_by seen l else x :: firsts_by (seen ++ [key x]) l
  end.

Lemma firsts_by_spec seen l :
  NoDup (map key (firsts_by seen l)) /\ (forall k, k ∈ map key (firsts_by seen l) <-> k ∈ map key l /\ k ∉ seen) /\
  (forall x, x ∈ firsts_by seen l -> x ∈ l).
Proof.
  revert seen. induction l as [|y l IH]; intros seen; cbn [firsts_by].
  { split; [constructor|]. split; [|auto]. intros k. split; [intros H; inversion H|intros [H _]; inversion H]. }
  destruct (bool_decide_reflect (key y ∈ seen)) as [Hy|Hy].
  - destruct (IH seen) as (Hn & Hk & Hx). split; [exact Hn|]. split; [|intros x H; right; auto].
    intros k. rewrite Hk. cbn [map]. rewrite elem_of_cons. split; [tauto|]. intros [[->|H] Hs]; [contradiction|auto].
  - destruct (IH (seen ++ [key y])) as (Hn & Hk & Hx). cbn [map]. split; [|split].
    + constructor; [|exact Hn]. rewrite Hk. intros [_ H]. apply H, elem_of_app. right. now apply list_elem_of_singleton.
    + intros k. rewrite !elem_of_cons, Hk, elem_of_app, list_elem_of_singleton. destruct (decide (k = key y)) as [->|]; tauto.
    + intros x. rewrite !elem_of_cons. intros [->|H]; auto.
Qed.

Lemma firsts_by_app seen l k :
  firsts_by seen (l ++ k) = firsts_by seen l ++ firsts_by (seen ++ map key (firsts_by seen l)) k.
Proof.
  revert seen. induction l as [|y l IH]; intros seen; cbn [firsts_by app map]; [now rewrite app_nil_r|].
  destruct (bool_decide _); [apply IH|]. cbn [app map]. rewrite IH, <- app_assoc. reflexivity.
Qed.
End Firsts.

(** ** Outcomes of a C function

    [Ret a] is a normal return, [Fail] the error return of the source (a
    [return -1] or a [goto fail]), [Oob] an access outside the object that is
    accessed, and [NoFuel] a loop that ran out of the fuel of the model. *)
Inductive res (A : Type) : Type :=
| Ret (a : A)
| Fail
| Oob
| NoFuel.
Arguments Ret {A} _.
Arguments Fail {A}.
Arguments Oob {A}.
Arguments NoFuel {A}.

#[export] Instance res_ret : MRet res := fun A a => Ret a.
#[export] Instance res_bind : MBind res := fun A B f r =>
  match r with
  | Ret a => f a
  | Fail => Fail
  | Oob => Oob
  | NoFuel => NoFuel
  end.

Declare Scope c_scope.
Delimit Scope c_scope with c.
Notation "'fail_if' b ; k" := (if b then Fail else k)
  (at level 20, b at level 100, k at level 200, right associativity) : c_scope.
Open Scope c_scope.

(** [wp r Q]: [r] performs no out-of-bounds access, terminates within its
    fuel, and a normal return satisfies [Q]. *)
Definition wp {A} (r : res A) (Q : A -> Prop) : Prop :=
  match r with
  | Ret a => Q a
  | Fail => True
  | Oob | NoFuel => False
  end.

(** A computation that neither leaves its objects nor diverges. *)
Definition safe {A} (r : res A) : Prop := wp r (fun _ => True).

Lemma wp_bind {A B} (r : res A) (f : A -> res B) Q P :
  wp r P -> (forall a, P a -> wp (f a) Q) -> wp (r ≫= f) Q.
Proof. destruct r; simpl; auto; contradiction. Qed.

Lemma wp_mono {A} (r : res A) (P Q : A -> Prop) :
  wp r P -> (forall a, P a -> Q a) -> wp r Q.
Proof. destruct r; simpl; auto. Qed.

Lemma wp_ret {A} (a : A) (Q : A -> Prop) : Q a -> wp (Ret a) Q.
Proof. auto. Qed.

Lemma wp_if {A} (b : bool) (r s : res A) Q :
  (b = true -> wp r Q) -> (b = false -> wp s Q) -> wp (if b then r else s) Q.
Proof. destruct b; auto. Qed.

Lemma wp_fail_if {A} (b : bool) (s : res A) Q :
  (b = false -> wp s Q) -> wp (if b then Fail else s) Q.
Proof. destruct b; simpl; auto. Qed.

Lemma wp_elim {A} (r : res A) Q :
  wp r Q -> (exists a, r = Ret a /\ Q a) \/ r = Fail.
Proof. destruct r; simpl; intros H; eauto; contradiction. Qed.

Lemma safe_elim {A} (r : res A) : safe r -> (exists a, r = Ret a) \/ r = Fail.
Proof. destruct r; simpl; intros H; eauto; contradiction. Qed.

Lemma ret_bind {A B} (a : A) (f : A -> res B) : Ret a ≫= f = f a.
Proof. reflexivity. Qed.

Lemma bind_ret {A B} (r : res A) (f : A -> res B) b :
  r ≫= f = Ret b -> exists a, r = Ret a /\ f a = Ret b.
Proof. destruct r; simpl; try discriminate; eauto. Qed.

(** Boolean comparisons to linear facts. *)
Ltac b2p :=
  repeat match goal with
  | H : (_ || _) = false |- _ => apply orb_false_iff in H; destruct H
  | H : (_ && _) = true |- _ => apply andb_true_iff in H; destruct H
  | H : negb _ = true |- _ => apply negb_true_iff in H
  | H : negb _ = false |- _ => apply negb_false_iff in H
  | H : (_ <? _) = true |- _ => apply Z.ltb_lt in H
  | H : (_ <? _) = false |- _ => apply Z.ltb_ge in H
  | H : (_ <=? _) = true |- _ => apply Z.leb_le in H
  | H : (_ <=? _) = false |- _ => apply Z.leb_gt in H
  | H : (_ =? _) = true |- _ => apply Z.eqb_eq in H
  | H : (_ =? _) = false |- _ => apply Z.eqb_neq in H
  | H : (_ >? _) = true |- _ => rewrite Z.gtb_ltb in H; apply Z.ltb_lt in H
  | H : (_ >? _) = false |- _ => rewrite Z.gtb_ltb in H; apply Z.ltb_ge in H
  | H : (_ >=? _) = true |- _ => rewrite Z.geb_leb in H; apply Z.leb_le in H
  | H : (_ >=? _) = false |- _ => rewrite Z.geb_leb in H; apply Z.leb_gt in H
  end.

(** ** Loads *)

(** [ld buf i] reads the byte [buf[i]]; outside the object it is [Oob]. *)
Definition ld (buf : list byte) (i : Z) : res Z :=
  if (0 <=? i) && (i <? zlen buf) then
    match buf !! Z.to_nat i with
    | Some b => Ret (bz b)
    | None => Oob
    end
  else Oob.

(** Total byte read, for specifications. *)
Definition byte_at (buf : list byte) (i : Z) : Z :=
  match buf !! Z.to_nat i with Some b => bz b | None => 0 end.

Lemma byte_at_range buf i : 0 <= byte_at buf i < 256.
Proof. unfold byte_at. destruct (buf !! _); [apply bz_range|lia]. Qed.
#[export] Hint Resolve byte_at_range : words.

Lemma ld_in buf i : 0 <= i < zlen buf -> ld buf i = Ret (byte_at buf i).
Proof.
  intros Hi. unfold ld, byte_at.
  replace ((0 <=? i) && (i <? zlen buf)) with true by
    (symmetry; apply andb_true_iff; rewrite Z.leb_le, Z.ltb_lt; lia).
  destruct (lookup_lt_is_Some_2 buf (Z.to_nat i)) as [b ->]; auto.
  unfold zlen in Hi. lia.
Qed.

Lemma ld_inv buf i v : ld buf i = Ret v -> 0 <= i < zlen buf /\ v = byte_at buf i.
Proof.
  unfold ld, byte_at. destruct (_ && _) eqn:E; [|discriminate].
  b2p. destruct (buf !! _); [|discriminate]. intros [= <-]. auto.
Qed.

Lemma byte_at_app_l l k i : 0 <= i < zlen l -> byte_at (l ++ k) i = byte_at l i.
Proof.
  unfold byte_at, zlen. intros H. rewrite lookup_app_l by lia. reflexivity.
Qed.

Lemma byte_at_app_r l k i :
  zlen l <= i -> byte_at (l ++ k) i = byte_at k (i - zlen l).
Proof.
  unfold byte_at, zlen. intros H. rewrite lookup_app_r by lia.
  replace (Z.to_nat i - length l)%nat with (Z.to_nat (i - Z.of_nat (length l))) by lia.
  reflexivity.
Qed.

Lemma byte_at_mid l b k : byte_at (l ++ b :: k) (zlen l) = bz b.
Proof.
  rewrite byte_at_app_r by lia. rewrite Z.sub_diag. reflexivity.
Qed.

(** Little-endian load of [n] bytes: the effect of a [memcpy] of an integer
    field out of a byte image on the little-endian target. *)
Fixpoint ld_le (n : nat) (buf : list byte) (i : Z) : res Z :=
  match n with
  | O => Ret 0
  | S n =>
      b ← ld buf i;
      r ← ld_le n buf (i + 1);
      Ret (b + 256 * r)
  end.

Fixpoint le_at (n : nat) (buf : list byte) (i : Z) : Z :=
  match n with
  | O => 0
  | S n => byte_at buf i + 256 * le_at n buf (i + 1)
  end.

Lemma ld_le_in n buf i :
  0 <= i -> i + Z.of_nat n <= zlen buf -> ld_le n buf i = Ret (le_at n buf i).
Proof.
  revert i. induction n as [|n IH]; intros i H1 H2; simpl; [reflexivity|].
  rewrite ld_in by lia. simpl. rewrite IH by lia. reflexivity.
Qed.

Lemma le_at_range n buf i : 0 <= le_at n buf i < 2 ^ (8 * Z.of_nat n).
Proof.
  revert i. induction n as [|n IH]; intros i; simpl le_at; [simpl; lia|].
  pose proof (byte_at_range buf i). specialize (IH (i + 1)).
  replace (8 * Z.of_nat (S n)) with (8 + 8 * Z.of_nat n) by lia.
  rewrite Z.pow_add_r by lia. change (2 ^ 8) with 256. lia.
Qed.

(** Sub-list [buf[off .. off+n)]. *)
Definition slice (buf : list byte) (off n : Z) : list byte :=
  take (Z.to_nat n) (drop (Z.to_nat off) buf).

Lemma zlen_slice buf off n :
  0 <= off -> 0 <= n -> off + n <= zlen buf -> zlen (slice buf off n) = n.
Proof.
  unfold slice, zlen. intros. rewrite length_take, length_drop. lia.
Qed.

Lemma byte_at_slice buf off n i :
  0 <= off -> 0 <= i < n -> byte_at (slice buf off n) i = byte_at buf (off + i).
Proof.
  intros. unfold byte_at, slice.
  rewrite lookup_take_lt by lia. rewrite lookup_drop.
  replace (Z.to_nat off + Z.to_nat i)%nat with (Z.to_nat (off + i)) by lia.
  reflexivity.
Qed.
