(* ===== verification/Elf.v ===== *)
(** * Elf: ELF64 structures as byte images

    The [<elf.h>] structures the sources copy in and out of byte buffers
    ([Elf64_Ehdr], [Elf64_Shdr], [Elf64_Phdr], [Elf64_Dyn], [Elf64_Rela]), on the
    little-endian target: [memcpy] out of an image is a bounds-checked slice,
    a field is a little-endian load at its offset, a store is a splice. *)

From stdpp Require Import base list option numbers.
From Stdlib Require Import ZArith Lia.
From S2P Require Import Prelude.

Local Open Scope Z_scope.

#[export] Instance byte_eq_dec : EqDecision byte := Byte.byte_eq_dec.

(** ** memcpy and stores *)

(** [memcpy] of [n] bytes out of [buf] at [off]: reads all of them. *)
Definition memcpy_in (buf : list byte) (off n : Z) : res (list byte) :=
  if (0 <=? off) && (0 <=? n) && (off + n <=? zlen buf)
  then Ret (slice buf off n) else Oob.

Lemma memcpy_in_ok buf off n :
  0 <= off -> 0 <= n -> off + n <= zlen buf -> memcpy_in buf off n = Ret (slice buf off n).
Proof.
  intros. unfold memcpy_in.
  rewrite (proj2 (Z.leb_le 0 off)), (proj2 (Z.leb_le 0 n)), (proj2 (Z.leb_le _ _)) by lia.
  reflexivity.
Qed.

Lemma wp_memcpy_in buf off n Q :
  0 <= off -> 0 <= n -> off + n <= zlen buf -> Q (slice buf off n) ->
  wp (memcpy_in buf off n) Q.
Proof. intros. rewrite memcpy_in_ok by auto. auto. Qed.

(** Replace the bytes at [off] by [bs]. *)
Definition splice (buf : list byte) (off : Z) (bs : list byte) : list byte :=
  take (Z.to_nat off) buf ++ bs ++ drop (Z.to_nat (off + zlen bs)) buf.

(** [memcpy] of [bs] into [buf] at [off]. *)
Definition memcpy_out (buf : list byte) (off : Z) (bs : list byte) : res (list byte) :=
  if (0 <=? off) && (off + zlen bs <=? zlen buf)
  then Ret (splice buf off bs) else Oob.

Lemma memcpy_out_ok buf off bs :
  0 <= off -> off + zlen bs <= zlen buf -> memcpy_out buf off bs = Ret (splice buf off bs).
Proof.
  intros. unfold memcpy_out.
  rewrite (proj2 (Z.leb_le 0 off)), (proj2 (Z.leb_le _ _)) by lia. reflexivity.
Qed.

Lemma zlen_splice buf off bs :
  0 <= off -> off + zlen bs <= zlen buf -> zlen (splice buf off bs) = zlen buf.
Proof.
  intros. unfold splice. rewrite !zlen_app. unfold zlen in *.
  rewrite length_take, length_drop. lia.
Qed.

Lemma lookup_splice buf off bs i :
  0 <= off -> off + zlen bs <= zlen buf -> 0 <= i ->
  splice buf off bs !! Z.to_nat i =
  if (off <=? i) && (i <? off + zlen bs) then bs !! Z.to_nat (i - off)
  else buf !! Z.to_nat i.
Proof.
  intros H1 H2 H3. unfold splice, zlen in *.
  destruct (Z.leb_spec off i); simpl.
  - rewrite lookup_app_r by (rewrite length_take; lia).
    rewrite length_take_le by lia.
    replace (Z.to_nat i - Z.to_nat off)%nat with (Z.to_nat (i - off)) by lia.
    destruct (Z.ltb_spec i (off + Z.of_nat (length bs))).
    + rewrite lookup_app_l by lia. reflexivity.
    + rewrite lookup_app_r by lia. rewrite lookup_drop. f_equal. lia.
  - rewrite lookup_app_l by (rewrite length_take; lia).
    rewrite lookup_take_lt by lia. reflexivity.
Qed.

Lemma byte_at_splice_out buf off bs i :
  0 <= off -> off + zlen bs <= zlen buf -> 0 <= i -> i < off \/ off + zlen bs <= i ->
  byte_at (splice buf off bs) i = byte_at buf i.
Proof.
  intros H1 H2 H3 H4. unfold byte_at. rewrite lookup_splice by auto.
  destruct (Z.leb_spec off i), (Z.ltb_spec i (off + zlen bs)); simpl; auto. lia.
Qed.

Lemma byte_at_splice_in buf off bs i :
  0 <= off -> off + zlen bs <= zlen buf -> off <= i < off + zlen bs ->
  byte_at (splice buf off bs) i = byte_at bs (i - off).
Proof.
  intros H1 H2 H3. unfold byte_at. rewrite lookup_splice by lia.
  rewrite (proj2 (Z.leb_le off i)), (proj2 (Z.ltb_lt i _)) by lia. reflexivity.
Qed.

Lemma le_at_ext n b1 b2 i j :
  0 <= i -> (forall k, 0 <= k < Z.of_nat n -> byte_at b1 (i + k) = byte_at b2 (j + k)) ->
  le_at n b1 i = le_at n b2 j.
Proof.
  revert i j. induction n as [|n IH]; intros i j Hi H; simpl; [reflexivity|].
  rewrite (IH (i + 1) (j + 1)); [|lia|].
  - pose proof (H 0 ltac:(lia)) as H0. rewrite !Z.add_0_r in H0. now rewrite H0.
  - intros k Hk. rewrite <- !Z.add_assoc. apply H. lia.
Qed.

Lemma le_at_slice n buf off len i :
  0 <= off -> 0 <= i -> i + Z.of_nat n <= len ->
  le_at n (slice buf off len) i = le_at n buf (off + i).
Proof.
  intros. apply le_at_ext; [lia|]. intros k Hk.
  rewrite byte_at_slice by lia. f_equal. lia.
Qed.

Lemma le_at_splice_out n buf off bs i :
  0 <= off -> off + zlen bs <= zlen buf -> 0 <= i ->
  i + Z.of_nat n <= off \/ off + zlen bs <= i ->
  le_at n (splice buf off bs) i = le_at n buf i.
Proof.
  intros. apply le_at_ext; [lia|]. intros k Hk. apply byte_at_splice_out; lia.
Qed.

Lemma bytes_ext (l k : list byte) :
  zlen l = zlen k -> (forall i, 0 <= i < zlen l -> byte_at l i = byte_at k i) -> l = k.
Proof.
  intros Hl H. apply list_eq. intros i.
  destruct (decide (i < length l)%nat) as [Hi|Hi].
  - assert (Hi' : (i < length k)%nat) by (unfold zlen in *; lia).
    destruct (lookup_lt_is_Some_2 l i Hi) as [a Ha].
    destruct (lookup_lt_is_Some_2 k i Hi') as [b Hb].
    specialize (H (Z.of_nat i)). unfold byte_at in H. rewrite Nat2Z.id, Ha, Hb in H.
    rewrite Ha, Hb. f_equal. rewrite <- (zb_bz a), <- (zb_bz b), H; [reflexivity|].
    unfold zlen. lia.
  - rewrite !(proj2 (lookup_ge_None _ _)); [reflexivity| |]; unfold zlen in *; lia.
Qed.

Lemma le_at_1 b i : le_at 1 b i = byte_at b i.
Proof. cbn [le_at]. lia. Qed.

(** Equal little-endian words have equal bytes. *)
Lemma le_at_inj n b1 b2 i k :
  le_at n b1 i = le_at n b2 i -> 0 <= k < Z.of_nat n -> byte_at b1 (i + k) = byte_at b2 (i + k).
Proof.
  revert i k. induction n as [|n IH]; intros i k H Hk; [lia|]. cbn [le_at] in H.
  pose proof (byte_at_range b1 i). pose proof (byte_at_range b2 i).
  destruct (Z.eq_dec k 0) as [->|]; [rewrite Z.add_0_r; lia|].
  replace (i + k) with (i + 1 + (k - 1)) by lia. apply IH; lia.
Qed.

(** The [n] little-endian bytes of an integer. *)
Fixpoint le_bytes (n : nat) (z : Z) : list byte :=
  match n with
  | O => []
  | S n => zb z :: le_bytes n (z / 256)
  end.

Lemma zlen_le_bytes n z : zlen (le_bytes n z) = Z.of_nat n.
Proof. revert z. induction n as [|n IH]; intros z; [reflexivity|].
  simpl le_bytes. rewrite zlen_cons, IH. lia. Qed.

Lemma le_at_app_r n l k i : zlen l <= i -> le_at n (l ++ k) i = le_at n k (i - zlen l).
Proof.
  intros. pose proof (zlen_nonneg l). apply le_at_ext; [lia|]. intros j Hj.
  rewrite byte_at_app_r by lia. f_equal. lia.
Qed.

Lemma le_at_app_l n l k i :
  0 <= i -> i + Z.of_nat n <= zlen l -> le_at n (l ++ k) i = le_at n l i.
Proof.
  intros. apply le_at_ext; [lia|]. intros j Hj. apply byte_at_app_l. lia.
Qed.

Lemma le_at_le_bytes n z : le_at n (le_bytes n z) 0 = z mod 2 ^ (8 * Z.of_nat n).
Proof.
  revert z. induction n as [|n IH]; intros z; [now rewrite Z.mod_1_r|].
  cbn [le_at le_bytes]. replace (byte_at _ 0) with (bz (zb z)) by reflexivity.
  change (zb z :: le_bytes n (z / 256)) with ([zb z] ++ le_bytes n (z / 256)).
  rewrite le_at_app_r by (unfold zlen; simpl; lia).
  change (0 + 1 - zlen [zb z]) with 0. rewrite IH, bz_zb.
  replace (8 * Z.of_nat (S n)) with (8 + 8 * Z.of_nat n) by lia.
  rewrite Z.pow_add_r by lia. change (2 ^ 8) with 256.
  rewrite Z.rem_mul_r; [ring|lia|]. apply Z.pow_pos_nonneg; lia.
Qed.

(** Load and store of a 64-bit word. *)
Definition ld64 (buf : list byte) (off : Z) : res Z := ld_le 8 buf off.
Definition st64 (buf : list byte) (off v : Z) : res (list byte) :=
  memcpy_out buf off (le_bytes 8 v).

Lemma ld64_ok buf off :
  0 <= off -> off + 8 <= zlen buf -> ld64 buf off = Ret (le_at 8 buf off).
Proof. intros. apply ld_le_in; simpl; lia. Qed.

Lemma st64_ok buf off v :
  0 <= off -> off + 8 <= zlen buf -> st64 buf off v = Ret (splice buf off (le_bytes 8 v)).
Proof. intros. apply memcpy_out_ok; rewrite ?zlen_le_bytes; lia. Qed.

Lemma le_at_splice_in buf off n v :
  0 <= off -> off + Z.of_nat n <= zlen buf ->
  le_at n (splice buf off (le_bytes n v)) off = v mod 2 ^ (8 * Z.of_nat n).
Proof.
  intros. rewrite <- le_at_le_bytes. apply le_at_ext; [lia|]. intros k Hk.
  rewrite byte_at_splice_in by (rewrite ?zlen_le_bytes; lia). f_equal. lia.
Qed.

(** ** The structures *)

Record Elf64_Ehdr := mk_ehdr {
  e_ident : list byte; e_type : Z; e_machine : Z; e_version : Z; e_entry : Z;
  e_phoff : Z; e_shoff : Z; e_flags : Z; e_ehsize : Z; e_phentsize : Z;
  e_phnum : Z; e_shentsize : Z; e_shnum : Z; e_shstrndx : Z
}.

Definition ehdr_of (b : list byte) : Elf64_Ehdr :=
  mk_ehdr (slice b 0 16) (le_at 2 b 16) (le_at 2 b 18) (le_at 4 b 20) (le_at 8 b 24)
    (le_at 8 b 32) (le_at 8 b 40) (le_at 4 b 48) (le_at 2 b 52) (le_at 2 b 54)
    (le_at 2 b 56) (le_at 2 b 58) (le_at 2 b 60) (le_at 2 b 62).

Record Elf64_Shdr := mk_shdr {
  sh_name : Z; sh_type : Z; sh_flags : Z; sh_addr : Z; sh_offset : Z;
  sh_size : Z; sh_link : Z; sh_info : Z; sh_addralign : Z; sh_entsize : Z
}.

Definition shdr_of (b : list byte) : Elf64_Shdr :=
  mk_shdr (le_at 4 b 0) (le_at 4 b 4) (le_at 8 b 8) (le_at 8 b 16) (le_at 8 b 24)
    (le_at 8 b 32) (le_at 4 b 40) (le_at 4 b 44) (le_at 8 b 48) (le_at 8 b 56).

Definition shdr_bytes (s : Elf64_Shdr) : list byte :=
  le_bytes 4 (sh_name s) ++ le_bytes 4 (sh_type s) ++ le_bytes 8 (sh_flags s) ++
  le_bytes 8 (sh_addr s) ++ le_bytes 8 (sh_offset s) ++ le_bytes 8 (sh_size s) ++
  le_bytes 4 (sh_link s) ++ le_bytes 4 (sh_info s) ++ le_bytes 8 (sh_addralign s) ++
  le_bytes 8 (sh_entsize s).

Record Elf64_Phdr := mk_phdr {
  p_type : Z; p_flags : Z; p_offset : Z; p_vaddr : Z; p_paddr : Z;
  p_filesz : Z; p_memsz : Z; p_align : Z
}.

Definition phdr_of (b : list byte) : Elf64_Phdr :=
  mk_phdr (le_at 4 b 0) (le_at 4 b 4) (le_at 8 b 8) (le_at 8 b 16) (le_at 8 b 24)
    (le_at 8 b 32) (le_at 8 b 40) (le_at 8 b 48).

Definition sizeof_Ehdr : Z := 64.
Definition sizeof_Shdr : Z := 64.
Definition sizeof_Phdr : Z := 56.
Definition sizeof_Dyn : Z := 16.
Definition sizeof_Rela : Z := 24.
Definition sizeof_Sym : Z := 24.

Definition ELFMAG : list byte := [x7f; x45; x4c; x46].
Definition ELFCLASS64 : Z := 2.

Definition elf_magic_ok (eh : Elf64_Ehdr) : bool :=
  bool_decide (take 4 (e_ident eh) = ELFMAG).
Definition elf_class (eh : Elf64_Ehdr) : Z := byte_at (e_ident eh) 4.

Lemma ehdr_ranges b :
  0 <= e_shoff (ehdr_of b) < 2 ^ 64 /\ 0 <= e_shnum (ehdr_of b) < 2 ^ 16 /\
  0 <= e_shentsize (ehdr_of b) < 2 ^ 16 /\ 0 <= e_shstrndx (ehdr_of b) < 2 ^ 16 /\
  0 <= e_phoff (ehdr_of b) < 2 ^ 64 /\ 0 <= e_phnum (ehdr_of b) < 2 ^ 16 /\
  0 <= e_phentsize (ehdr_of b) < 2 ^ 16.
Proof.
  simpl. pose proof (le_at_range 8 b 40). pose proof (le_at_range 2 b 60).
  pose proof (le_at_range 2 b 58). pose proof (le_at_range 2 b 62).
  pose proof (le_at_range 8 b 32). pose proof (le_at_range 2 b 56).
  pose proof (le_at_range 2 b 54). simpl in *. lia.
Qed.

Lemma shdr_ranges b :
  0 <= sh_name (shdr_of b) < 2 ^ 32 /\ 0 <= sh_offset (shdr_of b) < 2 ^ 64 /\
  0 <= sh_size (shdr_of b) < 2 ^ 64 /\ 0 <= sh_addr (shdr_of b) < 2 ^ 64.
Proof.
  simpl. pose proof (le_at_range 4 b 0). pose proof (le_at_range 8 b 24).
  pose proof (le_at_range 8 b 32). pose proof (le_at_range 8 b 16). simpl in *. lia.
Qed.
