(* ===== verification/Dwarf.v ===== *)
(** * Dwarf: the overrun-safe little-endian cursor (src/common/dwarf.c)

    [dwarf_cur] is [struct dwarf_cur]; every reader of the source is one
    definition that returns the value and the new cursor in [res].  The
    theorems: no reader ever leaves the buffer, the error flag is sticky, the
    fixed-width readers return the little-endian value, and the two LEB128
    readers invert the DWARF encodings over the whole 64-bit range. *)

From stdpp Require Import base list option numbers.
From Stdlib Require Import ZArith Lia.
From S2P Require Import Prelude Elf.

Local Open Scope Z_scope.

Record dwarf_cur := mk_cur {
  cbuf : list byte;
  clen : Z;
  cpos : Z;
  cerr : bool
}.

Definition set_pos (c : dwarf_cur) (p : Z) : dwarf_cur :=
  mk_cur (cbuf c) (clen c) p (cerr c).
Definition set_err (c : dwarf_cur) : dwarf_cur :=
  mk_cur (cbuf c) (clen c) (cpos c) true.

Definition dwarf_cur_init (buf : list byte) (len : Z) : dwarf_cur :=
  mk_cur buf len 0 false.

Definition avail (c : dwarf_cur) (n : Z) : bool * dwarf_cur :=
  if cerr c || (u64 (cpos c + n) >? clen c) then (false, set_err c) else (true, c).

Definition dwarf_u8 (c : dwarf_cur) : res (Z * dwarf_cur) :=
  let '(ok, c) := avail c 1 in
  if negb ok then Ret (0, c) else
  b ← ld (cbuf c) (cpos c);
  Ret (b, set_pos c (cpos c + 1)).

Definition dwarf_u16 (c : dwarf_cur) : res (Z * dwarf_cur) :=
  let '(ok, c) := avail c 2 in
  if negb ok then Ret (0, c) else
  b0 ← ld (cbuf c) (cpos c);
  b1 ← ld (cbuf c) (cpos c + 1);
  Ret (u16 (Z.lor b0 (Z.shiftl b1 8)), set_pos c (cpos c + 2)).

Definition dwarf_u32 (c : dwarf_cur) : res (Z * dwarf_cur) :=
  let '(ok, c) := avail c 4 in
  if negb ok then Ret (0, c) else
  b0 ← ld (cbuf c) (cpos c);
  b1 ← ld (cbuf c) (cpos c + 1);
  b2 ← ld (cbuf c) (cpos c + 2);
  b3 ← ld (cbuf c) (cpos c + 3);
  Ret (u32 (Z.lor (Z.lor (Z.lor b0 (Z.shiftl b1 8)) (Z.shiftl b2 16)) (Z.shiftl b3 24)),
       set_pos c (cpos c + 4)).

(** The loop [for (i = 0; i < 8; i++) v |= buf[pos + i] << (8 * i)]. *)
Fixpoint u64_loop (k : nat) (buf : list byte) (pos i v : Z) : res Z :=
  match k with
  | O => Ret v
  | S k =>
      b ← ld buf (pos + i);
      u64_loop k buf pos (i + 1) (Z.lor v (u64 (Z.shiftl b (8 * i))))
  end.

Definition dwarf_u64 (c : dwarf_cur) : res (Z * dwarf_cur) :=
  let '(ok, c) := avail c 8 in
  if negb ok then Ret (0, c) else
  v ← u64_loop 8 (cbuf c) (cpos c) 0 0;
  Ret (v, set_pos c (cpos c + 8)).

Fixpoint uleb_loop (fuel : nat) (c : dwarf_cur) (result shift : Z) : res (Z * dwarf_cur) :=
  match fuel with
  | O => NoFuel
  | S fuel =>
      let '(ok, c) := avail c 1 in
      if negb ok then Ret (0, c) else
      b ← ld (cbuf c) (cpos c);
      let c := set_pos c (cpos c + 1) in
      let result := if shift <? 64
                    then Z.lor result (u64 (Z.shiftl (Z.land b 0x7f) shift))
                    else result in
      let shift := shift + 7 in
      if Z.land b 0x80 =? 0 then Ret (result, c) else uleb_loop fuel c result shift
  end.

(** Each iteration consumes a byte, so one more iteration than the buffer has
    bytes always reaches the end. *)
Definition dwarf_uleb (c : dwarf_cur) : res (Z * dwarf_cur) :=
  uleb_loop (S (length (cbuf c))) c 0 0.

Fixpoint sleb_loop (fuel : nat) (c : dwarf_cur) (result shift : Z) : res (Z * dwarf_cur) :=
  match fuel with
  | O => NoFuel
  | S fuel =>
      let '(ok, c) := avail c 1 in
      if negb ok then Ret (0, c) else
      b ← ld (cbuf c) (cpos c);
      let c := set_pos c (cpos c + 1) in
      let result := if shift <? 64
                    then s64 (Z.lor result (s64 (Z.shiftl (Z.land b 0x7f) shift)))
                    else result in
      let shift := shift + 7 in
      if Z.land b 0x80 =? 0 then
        let result := if (shift <? 64) && negb (Z.land b 0x40 =? 0)
                      then s64 (Z.lor result (- Z.shiftl 1 shift))
                      else result in
        Ret (result, c)
      else sleb_loop fuel c result shift
  end.

Definition dwarf_sleb (c : dwarf_cur) : res (Z * dwarf_cur) :=
  sleb_loop (S (length (cbuf c))) c 0 0.

Definition dwarf_skip (c : dwarf_cur) (n : Z) : dwarf_cur :=
  let '(ok, c) := avail c n in
  if negb ok then c else set_pos c (cpos c + n).

(** ** The cursor invariant *)

(** [len] is the length of the buffer, an object of the address space, and the
    position is a size below [2^63]. *)
Record wf_cur (c : dwarf_cur) : Prop := {
  wf_len : clen c = zlen (cbuf c);
  wf_obj : clen c < 2 ^ 63;
  wf_pos : 0 <= cpos c < 2 ^ 63
}.

(** What every reader guarantees: same buffer, invariant kept, the position
    does not move back, a failed read leaves the position where it was. *)
Record step_ok (c c' : dwarf_cur) (n : Z) : Prop := {
  so_wf : wf_cur c';
  so_buf : cbuf c' = cbuf c;
  so_mono : cpos c <= cpos c';
  so_err : cerr c' = false -> cerr c = false /\ cpos c + n <= cpos c' <= clen c
}.

Lemma step_ok_len c c' n : wf_cur c -> step_ok c c' n -> clen c' = clen c.
Proof. intros H []. rewrite (wf_len c'), (wf_len c) by auto. congruence. Qed.

Lemma set_pos_wf c p : wf_cur c -> 0 <= p < 2 ^ 63 -> wf_cur (set_pos c p).
Proof. intros [] ?. constructor; simpl; auto. Qed.

Lemma init_wf buf : zlen buf < 2 ^ 63 -> wf_cur (dwarf_cur_init buf (zlen buf)).
Proof. intros. constructor; simpl; auto. lia. Qed.

Lemma avail_spec c n ok c' :
  wf_cur c -> 0 <= n < 2 ^ 63 -> avail c n = (ok, c') ->
  (ok = true /\ c' = c /\ cerr c = false /\ cpos c + n <= clen c) \/
  (ok = false /\ c' = set_err c /\ (cerr c = true \/ clen c < cpos c + n)).
Proof.
  intros [Hl Ho Hp] Hn. unfold avail.
  rewrite u64_small by lia.
  destruct (cerr c || (cpos c + n >? clen c)) eqn:E; intros [= <- <-].
  - right. repeat split; auto. apply orb_true_iff in E as [E|E]; auto. b2p. auto.
  - left. b2p. repeat split; auto; lia.
Qed.

Lemma set_err_step c n : wf_cur c -> step_ok c (set_err c) n.
Proof.
  intros [Hl Ho Hp]. constructor; simpl; auto; try lia; try discriminate.
  constructor; simpl; auto.
Qed.

Lemma set_pos_step c n :
  wf_cur c -> cerr c = false -> 0 <= n -> cpos c + n <= clen c ->
  step_ok c (set_pos c (cpos c + n)) n.
Proof.
  intros H He Hn Hb. destruct H as [Hl Ho Hp].
  constructor; simpl; auto; try lia.
  - constructor; simpl; auto; lia.
  - intros _. split; auto; lia.
Qed.

(** Splits on the availability test of a reader. *)
Ltac avail_case c n :=
  let ok := fresh "ok" in let c' := fresh "c'" in let E := fresh "Eav" in
  destruct (avail c n) as [ok c'] eqn:E;
  apply avail_spec in E; [|assumption|lia];
  destruct E as [(-> & -> & ? & ?)|(-> & -> & ?)]; simpl negb; cbv iota.

Ltac ld_ok H := rewrite ld_in by (rewrite <- (wf_len _ H); destruct H; lia); simpl.

Lemma dwarf_u8_spec c :
  wf_cur c ->
  wp (dwarf_u8 c) (fun '(v, c') =>
    step_ok c c' 1 /\ 0 <= v < 256 /\
    (cerr c' = false -> v = byte_at (cbuf c) (cpos c) /\ cpos c' = cpos c + 1)).
Proof.
  intros H. unfold dwarf_u8. avail_case c 1.
  - ld_ok H. split; [apply set_pos_step; auto; lia|]. auto with words.
  - split; [now apply set_err_step|]. split; [lia|discriminate].
Qed.

Lemma le2_spec buf p :
  u16 (Z.lor (byte_at buf p) (Z.shiftl (byte_at buf (p + 1)) 8)) = le_at 2 buf p.
Proof.
  pose proof (byte_at_range buf p). pose proof (byte_at_range buf (p + 1)).
  rewrite lor_shiftl_add by lia. simpl le_at. rewrite u16_small; lia.
Qed.

Lemma le4_spec buf p :
  u32 (Z.lor (Z.lor (Z.lor (byte_at buf p) (Z.shiftl (byte_at buf (p + 1)) 8))
         (Z.shiftl (byte_at buf (p + 2)) 16)) (Z.shiftl (byte_at buf (p + 3)) 24))
  = le_at 4 buf p.
Proof.
  pose proof (byte_at_range buf p). pose proof (byte_at_range buf (p + 1)).
  pose proof (byte_at_range buf (p + 2)). pose proof (byte_at_range buf (p + 3)).
  rewrite (lor_shiftl_add _ _ 8), (lor_shiftl_add _ _ 16), (lor_shiftl_add _ _ 24) by lia.
  simpl le_at. replace (p + 1 + 1) with (p + 2) by lia. replace (p + 2 + 1) with (p + 3) by lia.
  rewrite u32_small; lia.
Qed.

Lemma dwarf_u16_spec c :
  wf_cur c ->
  wp (dwarf_u16 c) (fun '(v, c') =>
    step_ok c c' 2 /\ 0 <= v < 2 ^ 16 /\
    (cerr c' = false -> v = le_at 2 (cbuf c) (cpos c) /\ cpos c' = cpos c + 2)).
Proof.
  intros H. unfold dwarf_u16. avail_case c 2.
  - do 2 ld_ok H. rewrite le2_spec. split; [apply set_pos_step; auto; lia|].
    split; [apply (le_at_range 2)|auto].
  - split; [now apply set_err_step|]. split; [lia|discriminate].
Qed.

Lemma dwarf_u32_spec c :
  wf_cur c ->
  wp (dwarf_u32 c) (fun '(v, c') =>
    step_ok c c' 4 /\ 0 <= v < 2 ^ 32 /\
    (cerr c' = false -> v = le_at 4 (cbuf c) (cpos c) /\ cpos c' = cpos c + 4)).
Proof.
  intros H. unfold dwarf_u32. avail_case c 4.
  - do 4 ld_ok H. rewrite le4_spec. split; [apply set_pos_step; auto; lia|].
    split; [apply (le_at_range 4)|auto].
  - split; [now apply set_err_step|]. split; [lia|discriminate].
Qed.

Lemma u64_loop_spec k buf p i v :
  0 <= p + i -> p + i + Z.of_nat k <= zlen buf ->
  0 <= i -> i + Z.of_nat k <= 8 -> 0 <= v < 2 ^ (8 * i) ->
  u64_loop k buf p i v = Ret (v + 2 ^ (8 * i) * le_at k buf (p + i)).
Proof.
  revert i v. induction k as [|k IH]; intros i v H1 H2 H3 H4 Hv; simpl.
  - f_equal. lia.
  - rewrite ld_in by lia. simpl.
    pose proof (byte_at_range buf (p + i)) as Hb.
    assert (Hpow : 2 ^ (8 * (i + 1)) = 256 * 2 ^ (8 * i)).
    { replace (8 * (i + 1)) with (8 + 8 * i) by lia. now rewrite Z.pow_add_r by lia. }
    assert (Hle : 2 ^ (8 * (i + 1)) <= 2 ^ 64) by (apply Z.pow_le_mono_r; lia).
    assert (Hs : u64 (Z.shiftl (byte_at buf (p + i)) (8 * i))
                 = Z.shiftl (byte_at buf (p + i)) (8 * i)).
    { rewrite Z.shiftl_mul_pow2 by lia. apply u64_small. nia. }
    rewrite Hs, lor_shiftl_add by lia.
    rewrite IH by (lia || nia). f_equal. rewrite Hpow.
    replace (p + (i + 1)) with (p + i + 1) by lia. ring.
Qed.

Lemma dwarf_u64_spec c :
  wf_cur c ->
  wp (dwarf_u64 c) (fun '(v, c') =>
    step_ok c c' 8 /\ 0 <= v < 2 ^ 64 /\
    (cerr c' = false -> v = le_at 8 (cbuf c) (cpos c) /\ cpos c' = cpos c + 8)).
Proof.
  intros H. unfold dwarf_u64. avail_case c 8.
  - rewrite u64_loop_spec by
      (try rewrite <- (wf_len _ H); destruct H; simpl; lia).
    replace (cpos c + 0) with (cpos c) by lia. rewrite Z.mul_0_r, Z.pow_0_r, Z.mul_1_l.
    unfold mbind, res_bind. cbn [wp].
    split; [apply set_pos_step; auto; lia|]. split; [apply (le_at_range 8)|auto].
  - split; [now apply set_err_step|]. split; [lia|discriminate].
Qed.

(** Measure of a reading loop: the bytes left in front of the cursor. *)
Definition left_of (c : dwarf_cur) : Z := Z.max 0 (clen c - cpos c).

Lemma left_of_set_pos c n :
  0 < n -> cpos c + n <= clen c -> left_of (set_pos c (cpos c + n)) = left_of c - n.
Proof. unfold left_of. simpl. lia. Qed.

Lemma uleb_loop_spec fuel c result shift :
  wf_cur c -> left_of c < Z.of_nat fuel -> 0 <= result < 2 ^ 64 ->
  wp (uleb_loop fuel c result shift) (fun '(v, c') => step_ok c c' 1 /\ 0 <= v < 2 ^ 64).
Proof.
  revert c result shift. induction fuel as [|fuel IH]; intros c result shift H Hf Hr.
  { unfold left_of in Hf. lia. }
  cbn [uleb_loop]. avail_case c 1.
  2:{ split; [now apply set_err_step|lia]. }
  ld_ok H.
  set (b := byte_at (cbuf c) (cpos c)).
  set (r' := if shift <? 64 then _ else _).
  assert (Hr' : 0 <= r' < 2 ^ 64).
  { unfold r'. destruct (shift <? 64); auto. apply lor_range; auto with words; lia. }
  assert (Hst : step_ok c (set_pos c (cpos c + 1)) 1) by (apply set_pos_step; auto; lia).
  apply wp_if; intros _; [simpl; auto|].
  eapply wp_mono.
  - apply IH; [apply Hst| |exact Hr']. rewrite left_of_set_pos; lia.
  - intros [v c'] [Hs Hv]. split; auto. destruct Hs as [W B M E], Hst as [W1 B1 M1 E1].
    simpl in *. constructor; auto; try congruence; try lia.
    intros He. destruct (E He). split; auto. lia.
Qed.

Lemma dwarf_uleb_spec c :
  wf_cur c ->
  wp (dwarf_uleb c) (fun '(v, c') => step_ok c c' 1 /\ 0 <= v < 2 ^ 64).
Proof.
  intros H. apply uleb_loop_spec; auto; [|lia].
  unfold left_of. destruct H. rewrite wf_len0 in *. unfold zlen in *. lia.
Qed.

Lemma sleb_loop_spec fuel c result shift :
  wf_cur c -> left_of c < Z.of_nat fuel -> - 2 ^ 63 <= result < 2 ^ 63 ->
  wp (sleb_loop fuel c result shift) (fun '(v, c') =>
    step_ok c c' 1 /\ - 2 ^ 63 <= v < 2 ^ 63).
Proof.
  revert c result shift. induction fuel as [|fuel IH]; intros c result shift H Hf Hr.
  { unfold left_of in Hf. lia. }
  cbn [sleb_loop]. avail_case c 1.
  2:{ split; [now apply set_err_step|lia]. }
  ld_ok H.
  set (b := byte_at (cbuf c) (cpos c)).
  set (r' := if shift <? 64 then _ else _).
  assert (Hr' : - 2 ^ 63 <= r' < 2 ^ 63).
  { unfold r'. destruct (shift <? 64); auto with words. }
  assert (Hst : step_ok c (set_pos c (cpos c + 1)) 1) by (apply set_pos_step; auto; lia).
  apply wp_if; intros _.
  { simpl. split; auto. destruct ((shift + 7 <? 64) && _); auto with words. }
  eapply wp_mono.
  - apply IH; [apply Hst| |exact Hr']. rewrite left_of_set_pos; lia.
  - intros [v c'] [Hs Hv]. split; auto. destruct Hs as [W B M E], Hst as [W1 B1 M1 E1].
    simpl in *. constructor; auto; try congruence; try lia.
    intros He. destruct (E He). split; auto. lia.
Qed.

Lemma dwarf_sleb_spec c :
  wf_cur c ->
  wp (dwarf_sleb c) (fun '(v, c') => step_ok c c' 1 /\ - 2 ^ 63 <= v < 2 ^ 63).
Proof.
  intros H. apply sleb_loop_spec; auto; [|lia].
  unfold left_of. destruct H. rewrite wf_len0 in *. unfold zlen in *. lia.
Qed.

Lemma dwarf_skip_spec c n :
  wf_cur c -> 0 <= n < 2 ^ 63 -> step_ok c (dwarf_skip c n) n.
Proof.
  intros H Hn. unfold dwarf_skip. avail_case c n.
  - apply set_pos_step; auto; lia.
  - now apply set_err_step.
Qed.

(** ** LEB128: the encodings and the round trips *)

Fixpoint uleb_enc (k : nat) (n : Z) : list byte :=
  match k with
  | O => [zb n]
  | S k => if n <? 128 then [zb n] else zb (128 + n mod 128) :: uleb_enc k (n / 128)
  end.

Fixpoint sleb_enc (k : nat) (n : Z) : list byte :=
  let b := n mod 128 in
  match k with
  | O => [zb b]
  | S k =>
      if ((n / 128 =? 0) && (b <? 64)) || ((n / 128 =? -1) && (64 <=? b))
      then [zb b]
      else zb (128 + b) :: sleb_enc k (n / 128)
  end.

(** A cursor in front of the bytes [bs], inside a larger buffer. *)
Definition at_bytes (c : dwarf_cur) (bs : list byte) : Prop :=
  wf_cur c /\ cerr c = false /\
  exists pre post, cbuf c = pre ++ bs ++ post /\ cpos c = zlen pre.

Lemma at_bytes_cons c b bs :
  at_bytes c (b :: bs) ->
  byte_at (cbuf c) (cpos c) = bz b /\ cpos c + 1 <= clen c /\
  at_bytes (set_pos c (cpos c + 1)) bs.
Proof.
  intros (W & E & pre & post & Hb & Hp).
  assert (Hl : cpos c + 1 <= clen c).
  { rewrite (wf_len _ W), Hb, Hp. rewrite zlen_app. simpl app. rewrite zlen_cons.
    pose proof (zlen_nonneg (bs ++ post)). lia. }
  split; [rewrite Hb, Hp; apply (byte_at_mid pre b)|]. split; [exact Hl|].
  split; [apply set_pos_step; auto; lia|]. split; [exact E|].
  exists (pre ++ [b]), post. simpl. split.
  - rewrite Hb. now rewrite <- !app_assoc.
  - rewrite zlen_app, Hp. reflexivity.
Qed.

Lemma at_bytes_app c l k :
  at_bytes c (l ++ k) ->
  at_bytes c l /\ at_bytes (set_pos c (cpos c + zlen l)) k.
Proof.
  intros (W & E & pre & post & Hb & Hp).
  assert (Hl : cpos c + zlen l <= clen c).
  { rewrite (wf_len _ W), Hb, Hp, !zlen_app.
    pose proof (zlen_nonneg k). pose proof (zlen_nonneg post). lia. }
  split.
  - split; [exact W|]. split; [exact E|]. exists pre, (k ++ post).
    now rewrite Hb, <- app_assoc.
  - split; [apply set_pos_step; auto with words|]. split; [exact E|].
    exists (pre ++ l), post. simpl. rewrite Hb, zlen_app, Hp, <- !app_assoc. auto.
Qed.

Lemma at_bytes_avail1 c b bs : at_bytes c (b :: bs) -> avail c 1 = (true, c).
Proof.
  intros H. pose proof H as (W & E & _). apply at_bytes_cons in H as (_ & Hl & _).
  unfold avail. rewrite E, u64_small by (destruct W; lia). simpl.
  destruct (cpos c + 1 >? clen c) eqn:G; [b2p; lia|reflexivity].
Qed.

Lemma at_bytes_fuel c bs : at_bytes c bs -> (length bs <= length (cbuf c))%nat.
Proof.
  intros (_ & _ & pre & post & -> & _). rewrite !length_app. lia.
Qed.

Lemma at_bytes_ld c b bs : at_bytes c (b :: bs) -> ld (cbuf c) (cpos c) = Ret (bz b).
Proof.
  intros H. pose proof H as (W & _). apply at_bytes_cons in H as (Hb & Hl & _).
  rewrite ld_in, Hb; [reflexivity|]. rewrite <- (wf_len _ W). destruct W. lia.
Qed.

Lemma pow2_7 s : 0 <= s -> 2 ^ (s + 7) = 128 * 2 ^ s.
Proof. intros. rewrite Z.pow_add_r by lia. lia. Qed.

(** One step of the unsigned loop on a byte in front of the cursor. *)
Lemma uleb_loop_step fuel c b bs r shift :
  at_bytes c (b :: bs) ->
  0 <= shift < 64 -> 0 <= r < 2 ^ shift -> (bz b mod 128) * 2 ^ shift + r < 2 ^ 64 ->
  uleb_loop (S fuel) c r shift =
  (let c' := set_pos c (cpos c + 1) in
   let r' := r + (bz b mod 128) * 2 ^ shift in
   if bz b <? 128 then Ret (r', c') else uleb_loop fuel c' r' (shift + 7)).
Proof.
  intros Hc Hs Hr Hfit. cbn [uleb_loop].
  rewrite (at_bytes_avail1 _ _ _ Hc). simpl negb. cbv iota.
  rewrite (at_bytes_ld _ _ _ Hc). simpl mbind.
  pose proof (bz_range b). pose proof (Z.mod_pos_bound (bz b) 128 eq_refl).
  rewrite land_7f, land_80 by lia.
  rewrite (proj2 (Z.ltb_lt shift 64)) by lia.
  rewrite u64_small by (rewrite Z.shiftl_mul_pow2 by lia; nia).
  rewrite lor_shiftl_add by lia. reflexivity.
Qed.

Lemma uleb_loop_last fuel c n r shift :
  at_bytes c [zb n] -> (1 <= fuel)%nat -> 0 <= n < 128 ->
  0 <= shift < 64 -> 0 <= r < 2 ^ shift -> n * 2 ^ shift + r < 2 ^ 64 ->
  uleb_loop fuel c r shift = Ret (r + n * 2 ^ shift, set_pos c (cpos c + zlen [zb n])).
Proof.
  intros Hc Hf Hn Hs Hr Hfit. destruct fuel as [|fuel]; [lia|].
  assert (Hb : bz (zb n) = n) by (apply bz_zb_small; lia).
  rewrite (uleb_loop_step _ _ _ _ _ _ Hc), Hb by (rewrite ?Hb, ?Z.mod_small by lia; lia).
  rewrite (proj2 (Z.ltb_lt n 128)), Z.mod_small by lia. reflexivity.
Qed.

Lemma uleb_loop_enc k fuel c n r shift :
  at_bytes c (uleb_enc k n) -> (length (uleb_enc k n) <= fuel)%nat ->
  0 <= n < 128 ^ Z.of_nat (S k) ->
  0 <= shift < 64 -> 0 <= r < 2 ^ shift -> n * 2 ^ shift + r < 2 ^ 64 ->
  uleb_loop fuel c r shift =
  Ret (r + n * 2 ^ shift, set_pos c (cpos c + zlen (uleb_enc k n))).
Proof.
  revert fuel c n r shift.
  induction k as [|k IH]; intros fuel c n r shift Hc Hf Hn Hs Hr Hfit;
    simpl uleb_enc in *.
  { apply uleb_loop_last; auto; lia. }
  destruct (n <? 128) eqn:E; b2p; [apply uleb_loop_last; auto; lia|].
  destruct fuel as [|fuel]; [simpl in Hf; lia|].
  assert (Hd : n = 128 * (n / 128) + n mod 128) by (apply Z.div_mod; lia).
  pose proof (Z.mod_pos_bound n 128 eq_refl) as Hm.
  assert (Hb : bz (zb (128 + n mod 128)) = 128 + n mod 128) by (apply bz_zb_small; lia).
  assert (Hbm : bz (zb (128 + n mod 128)) mod 128 = n mod 128).
  { rewrite Hb. replace (128 + n mod 128) with (n mod 128 + 1 * 128) by lia.
    rewrite Z.mod_add by lia. apply Z.mod_small. lia. }
  assert (Hp : 0 < 2 ^ shift) by (apply Z.pow_pos_nonneg; lia).
  assert (Hs64 : shift + 7 < 64).
  { destruct (Z.ltb_spec (shift + 7) 64) as [|Hge]; auto. exfalso.
    assert (2 ^ 64 <= 2 ^ (shift + 7)) by (apply Z.pow_le_mono_r; lia).
    rewrite pow2_7 in * by lia. nia. }
  rewrite (uleb_loop_step _ _ _ _ _ _ Hc) by (rewrite ?Hbm; try lia; nia).
  cbv zeta. rewrite Hbm, Hb, (proj2 (Z.ltb_ge _ 128)) by lia.
  rewrite (IH fuel (set_pos c (cpos c + 1)) (n / 128)).
  - unfold set_pos. simpl. rewrite pow2_7 by lia. do 2 f_equal; [nia|].
    rewrite zlen_cons. f_equal. lia.
  - now apply at_bytes_cons in Hc as (_ & _ & Hc).
  - simpl in Hf. lia.
  - split; [apply Z.div_pos; lia|]. apply Z.div_lt_upper_bound; [lia|].
    replace (Z.of_nat (S (S k))) with (1 + Z.of_nat (S k)) in Hn by lia.
    rewrite Z.pow_add_r in Hn by lia. lia.
  - lia.
  - rewrite pow2_7 by lia. nia.
  - rewrite pow2_7 by lia. nia.
Qed.

Lemma dwarf_uleb_enc c n :
  at_bytes c (uleb_enc 9 n) -> 0 <= n < 2 ^ 64 ->
  dwarf_uleb c = Ret (n, set_pos c (cpos c + zlen (uleb_enc 9 n))).
Proof.
  intros Hc Hn. unfold dwarf_uleb. pose proof (at_bytes_fuel _ _ Hc).
  rewrite (uleb_loop_enc 9 _ c n) by (auto; simpl; lia). f_equal. f_equal. lia.
Qed.

(** Sign extension of a 7-bit group at shift [s]. *)
Definition sext (b : Z) : Z := if b <? 64 then b else b - 128.

(** One byte of the signed loop at the shifts a 64-bit value reaches; [7 * 9]
    is the last one, where only the sign copies [0] and [127] are canonical. *)
Lemma sleb_bits b r i :
  0 <= b < 128 -> 0 <= i <= 9 -> 0 <= r < 2 ^ (7 * i) -> (i = 9 -> b = 0 \/ b = 127) ->
  let r' := s64 (Z.lor r (s64 (Z.shiftl b (7 * i)))) in
  (i <= 8 -> r' = r + b * 2 ^ (7 * i)) /\
  (if (7 * i + 7 <? 64) && negb (Z.land b 0x40 =? 0)
   then s64 (Z.lor r' (- Z.shiftl 1 (7 * i + 7))) else r') = r + sext b * 2 ^ (7 * i).
Proof.
  intros Hb Hi Hr H9. cbv zeta. rewrite land_40 by lia. unfold sext.
  assert (Hc : i = 9 \/ i <= 8) by lia. destruct Hc as [->|Hc].
  - split; [lia|]. change (7 * 9 + 7 <? 64) with false. simpl andb. cbv iota.
    change (2 ^ (7 * 9)) with (2 ^ 63) in *. change (7 * 9) with 63.
    destruct (H9 eq_refl) as [-> | ->].
    + rewrite Z.shiftl_0_l, (s64_small 0), Z.lor_0_r, s64_small by lia.
      simpl. lia.
    + change (s64 (Z.shiftl 127 63)) with (Z.shiftl (-1) 63).
      rewrite lor_shiftl_add by lia. change (127 <? 64) with false. cbv iota.
      rewrite s64_small; lia.
  - assert (Hsh : s64 (Z.shiftl b (7 * i)) = Z.shiftl b (7 * i)).
    { rewrite Z.shiftl_mul_pow2 by lia. apply s64_small.
      assert (2 ^ (7 * i) <= 2 ^ 56) by (apply Z.pow_le_mono_r; lia). nia. }
    rewrite Hsh, lor_shiftl_add by lia.
    assert (Hp : 2 ^ (7 * i) <= 2 ^ 56) by (apply Z.pow_le_mono_r; lia).
    rewrite s64_small by nia. split; [reflexivity|].
    rewrite (proj2 (Z.ltb_lt (7 * i + 7) 64)) by lia. simpl andb.
    destruct (b <? 64) eqn:E; b2p; simpl negb; cbv iota; [lia|].
    rewrite Z.shiftl_mul_pow2, Z.mul_1_l by lia.
    replace (- 2 ^ (7 * i + 7)) with (Z.shiftl (-1) (7 * i + 7))
      by (rewrite Z.shiftl_mul_pow2; lia).
    rewrite lor_shiftl_add by (try rewrite pow2_7 by lia; nia).
    rewrite pow2_7 by lia. rewrite s64_small by nia. lia.
Qed.

Lemma sleb_loop_step fuel c b bs r i :
  at_bytes c (b :: bs) -> 0 <= i <= 9 -> 0 <= r < 2 ^ (7 * i) ->
  (i = 9 -> bz b mod 128 = 0 \/ bz b mod 128 = 127) -> (128 <= bz b -> i <= 8) ->
  sleb_loop (S fuel) c r (7 * i) =
  (let c' := set_pos c (cpos c + 1) in
   if bz b <? 128 then Ret (r + sext (bz b) * 2 ^ (7 * i), c')
   else sleb_loop fuel c' (r + (bz b mod 128) * 2 ^ (7 * i)) (7 * i + 7)).
Proof.
  intros Hc Hi Hr H9 H8. cbn [sleb_loop].
  rewrite (at_bytes_avail1 _ _ _ Hc). simpl negb. cbv iota.
  rewrite (at_bytes_ld _ _ _ Hc). unfold mbind, res_bind. cbv zeta.
  pose proof (bz_range b). pose proof (Z.mod_pos_bound (bz b) 128 eq_refl).
  rewrite (proj2 (Z.ltb_lt (7 * i) 64)), land_7f, land_80 by lia.
  destruct (sleb_bits (bz b mod 128) r i) as [Hm Hl]; auto.
  destruct (bz b <? 128) eqn:E; b2p.
  - rewrite (Z.mod_small (bz b)) in * by lia. now rewrite Hl.
  - rewrite Hm by lia. reflexivity.
Qed.

Lemma sleb_loop_enc k fuel c n r i :
  at_bytes c (sleb_enc k n) -> (length (sleb_enc k n) <= fuel)%nat ->
  0 <= i -> i + Z.of_nat k = 9 -> 0 <= r < 2 ^ (7 * i) ->
  - 2 ^ 63 <= r + n * 2 ^ (7 * i) < 2 ^ 63 ->
  sleb_loop fuel c r (7 * i) =
  Ret (r + n * 2 ^ (7 * i), set_pos c (cpos c + zlen (sleb_enc k n))).
Proof.
  revert fuel c n r i.
  induction k as [|k IH]; intros fuel c n r i Hc Hf Hi Hk Hr Hfit;
    simpl sleb_enc in *; set (b := n mod 128) in *.
  all: assert (Hb : 0 <= b < 128) by (apply Z.mod_pos_bound; lia).
  all: assert (Hd : n = 128 * (n / 128) + b) by (apply Z.div_mod; lia).
  all: destruct fuel as [|fuel];
    [try destruct (_ || _); simpl in Hf; lia|].
  all: assert (Hb1 : bz (zb b) = b) by (apply bz_zb_small; lia).
  - assert (i = 9) as -> by lia. change (2 ^ (7 * 9)) with (2 ^ 63) in *.
    assert (Hn : n = 0 \/ n = -1) by lia.
    assert (Hbv : (n = 0 /\ b = 0) \/ (n = -1 /\ b = 127)).
    { destruct Hn as [-> | ->]; [left|right]; split; reflexivity. }
    rewrite (sleb_loop_step _ _ _ _ _ _ Hc), Hb1
      by (rewrite ?Hb1, ?Z.mod_small by lia; auto; lia).
    rewrite (proj2 (Z.ltb_lt b 128)) by lia. cbv zeta. unfold sext.
    destruct Hbv as [[-> ->] | [-> ->]]; reflexivity.
  - destruct (_ || _) eqn:E.
    + assert (Hsx : sext b = n).
      { unfold sext. apply orb_true_iff in E as [E|E]; b2p.
        - rewrite (proj2 (Z.ltb_lt b 64)); lia.
        - rewrite (proj2 (Z.ltb_ge b 64)); lia. }
      rewrite (sleb_loop_step _ _ _ _ _ _ Hc), Hb1
        by (rewrite ?Hb1, ?Z.mod_small by lia; auto; lia).
      rewrite (proj2 (Z.ltb_lt b 128)), Hsx by lia. reflexivity.
    + assert (Hb2 : bz (zb (128 + b)) = 128 + b) by (apply bz_zb_small; lia).
      assert (Hbm : bz (zb (128 + b)) mod 128 = b).
      { rewrite Hb2. replace (128 + b) with (b + 1 * 128) by lia.
        rewrite Z.mod_add by lia. apply Z.mod_small. lia. }
      rewrite (sleb_loop_step _ _ _ _ _ _ Hc) by (rewrite ?Hbm; auto; lia).
      cbv zeta. rewrite Hbm, Hb2, (proj2 (Z.ltb_ge (128 + b) 128)) by lia.
      replace (7 * i + 7) with (7 * (i + 1)) by lia.
      assert (Hpw : 2 ^ (7 * (i + 1)) = 128 * 2 ^ (7 * i))
        by (replace (7 * (i + 1)) with (7 * i + 7) by lia; apply pow2_7; lia).
      rewrite (IH fuel (set_pos c (cpos c + 1)) (n / 128)).
      * unfold set_pos. simpl cpos. simpl cbuf. rewrite Hpw, zlen_cons.
        do 2 f_equal; [nia|]. simpl. f_equal. lia.
      * now apply at_bytes_cons in Hc as (_ & _ & Hc).
      * simpl in Hf. lia.
      * lia.
      * lia.
      * rewrite Hpw. nia.
      * rewrite Hpw. nia.
Qed.

Lemma dwarf_sleb_enc c n :
  at_bytes c (sleb_enc 9 n) -> - 2 ^ 63 <= n < 2 ^ 63 ->
  dwarf_sleb c = Ret (n, set_pos c (cpos c + zlen (sleb_enc 9 n))).
Proof.
  intros Hc Hn. unfold dwarf_sleb. pose proof (at_bytes_fuel _ _ Hc).
  rewrite (sleb_loop_enc 9 _ c n 0 0) by (auto; simpl; lia).
  f_equal. f_equal. lia.
Qed.

(** ** Reading known bytes *)

Definition adv (c : dwarf_cur) (n : Z) : dwarf_cur := set_pos c (cpos c + n).

Lemma at_next c l k : at_bytes c (l ++ k) -> at_bytes (adv c (zlen l)) k.
Proof. apply at_bytes_app. Qed.

Lemma at_tail c b l : at_bytes c (b :: l) -> at_bytes (adv c 1) l.
Proof. intros H. apply at_bytes_cons in H. apply H. Qed.

Lemma at_prefix c l k : at_bytes c (l ++ k) -> at_bytes c l.
Proof. apply at_bytes_app. Qed.

Lemma at_avail c l : at_bytes c l -> avail c (zlen l) = (true, c).
Proof.
  intros (W & E & pre & post & Hb & Hp). unfold avail.
  assert (Hl : cpos c + zlen l <= clen c).
  { rewrite (wf_len _ W), Hb, Hp, !zlen_app. pose proof (zlen_nonneg post). lia. }
  pose proof (zlen_nonneg l). rewrite E, u64_small by (destruct W; lia). simpl.
  destruct (_ >? _) eqn:G; [b2p; lia|reflexivity].
Qed.

(** The loads a reader performs on bytes that are there. *)
Lemma at_bytes_in c l : at_bytes c l -> 0 <= cpos c /\ cpos c + zlen l <= zlen (cbuf c) /\
  forall i, 0 <= i < zlen l -> byte_at (cbuf c) (cpos c + i) = byte_at l i.
Proof.
  intros (W & E & pre & post & Hb & Hp). rewrite Hb, Hp.
  pose proof (zlen_nonneg pre). pose proof (zlen_nonneg post). pose proof (zlen_nonneg l).
  split; [lia|]. split; [rewrite !zlen_app; lia|]. intros i Hi.
  rewrite byte_at_app_r, byte_at_app_l by lia. f_equal. lia.
Qed.

Lemma at_le c n l : at_bytes c l -> zlen l = Z.of_nat n ->
  le_at n (cbuf c) (cpos c) = le_at n l 0.
Proof.
  intros H Hn. apply at_bytes_in in H as (H1 & H2 & H3). apply le_at_ext; [lia|].
  intros k Hk. rewrite Z.add_0_l. apply H3. lia.
Qed.

Lemma at_u8 c b l : at_bytes c (b :: l) -> dwarf_u8 c = Ret (bz b, adv c 1).
Proof.
  intros H. unfold dwarf_u8. rewrite (at_bytes_avail1 _ _ _ H). simpl.
  rewrite (at_bytes_ld _ _ _ H). reflexivity.
Qed.

Lemma at_u16 c v l : at_bytes c (le_bytes 2 v ++ l) -> dwarf_u16 c = Ret (u16 v, adv c 2).
Proof.
  intros H. apply at_prefix in H. unfold dwarf_u16.
  change 2 with (zlen (le_bytes 2 v)) at 1. rewrite (at_avail _ _ H). simpl negb. cbv iota.
  pose proof (at_bytes_in _ _ H) as (H1 & H2 & _). change (zlen (le_bytes 2 v)) with 2 in H2.
  rewrite !ld_in by lia. unfold mbind, res_bind. rewrite le2_spec.
  rewrite (at_le _ 2 _ H) by reflexivity. now rewrite le_at_le_bytes.
Qed.

Lemma at_u32 c v l : at_bytes c (le_bytes 4 v ++ l) -> dwarf_u32 c = Ret (u32 v, adv c 4).
Proof.
  intros H. apply at_prefix in H. unfold dwarf_u32.
  change 4 with (zlen (le_bytes 4 v)) at 1. rewrite (at_avail _ _ H). simpl negb. cbv iota.
  pose proof (at_bytes_in _ _ H) as (H1 & H2 & _). change (zlen (le_bytes 4 v)) with 4 in H2.
  rewrite !ld_in by lia. unfold mbind, res_bind. rewrite le4_spec.
  rewrite (at_le _ 4 _ H) by reflexivity. now rewrite le_at_le_bytes.
Qed.

Lemma at_u64 c v l : at_bytes c (le_bytes 8 v ++ l) -> dwarf_u64 c = Ret (u64 v, adv c 8).
Proof.
  intros H. apply at_prefix in H. unfold dwarf_u64.
  change 8 with (zlen (le_bytes 8 v)) at 1. rewrite (at_avail _ _ H). simpl negb. cbv iota.
  pose proof (at_bytes_in _ _ H) as (H1 & H2 & _). change (zlen (le_bytes 8 v)) with 8 in H2.
  rewrite u64_loop_spec by (simpl; lia). unfold mbind, res_bind.
  rewrite Z.add_0_r, (at_le _ 8 _ H), le_at_le_bytes by reflexivity.
  rewrite Z.mul_0_r, Z.pow_0_r, Z.mul_1_l, Z.add_0_l. reflexivity.
Qed.

Lemma at_uleb c n l : at_bytes c (uleb_enc 9 n ++ l) -> 0 <= n < 2 ^ 64 ->
  dwarf_uleb c = Ret (n, adv c (zlen (uleb_enc 9 n))).
Proof. intros H Hn. apply dwarf_uleb_enc; [eapply at_prefix, H|exact Hn]. Qed.

Lemma at_sleb c n l : at_bytes c (sleb_enc 9 n ++ l) -> - 2 ^ 63 <= n < 2 ^ 63 ->
  dwarf_sleb c = Ret (n, adv c (zlen (sleb_enc 9 n))).
Proof. intros H Hn. apply dwarf_sleb_enc; [eapply at_prefix, H|exact Hn]. Qed.

Lemma at_err c l : at_bytes c l -> cerr c = false.
Proof. now intros (_ & ? & _). Qed.

(** ** Properties *)

(** Whatever the buffer and the position, no reader of the cursor leaves
    the buffer and none diverges, a normal result keeps the invariant, and the
    value of a read that does not set the error flag is the little-endian word
    (or a 64-bit quantity) at the cursor. *)
Theorem dwarf_readers_in_bounds (c : dwarf_cur) (n : Z) :
  wf_cur c -> 0 <= n < 2 ^ 63 ->
  wp (dwarf_u8 c) (fun '(v, c') => step_ok c c' 1 /\
    (cerr c' = false -> v = le_at 1 (cbuf c) (cpos c))) /\
  wp (dwarf_u16 c) (fun '(v, c') => step_ok c c' 2 /\
    (cerr c' = false -> v = le_at 2 (cbuf c) (cpos c))) /\
  wp (dwarf_u32 c) (fun '(v, c') => step_ok c c' 4 /\
    (cerr c' = false -> v = le_at 4 (cbuf c) (cpos c))) /\
  wp (dwarf_u64 c) (fun '(v, c') => step_ok c c' 8 /\
    (cerr c' = false -> v = le_at 8 (cbuf c) (cpos c))) /\
  wp (dwarf_uleb c) (fun '(v, c') => step_ok c c' 1 /\ 0 <= v < 2 ^ 64) /\
  wp (dwarf_sleb c) (fun '(v, c') => step_ok c c' 1 /\ - 2 ^ 63 <= v < 2 ^ 63) /\
  step_ok c (dwarf_skip c n) n.
Proof.
  intros W Hn. refine (conj _ (conj _ (conj _ (conj _ (conj _ (conj _ _)))))).
  5: now apply dwarf_uleb_spec.
  5: now apply dwarf_sleb_spec.
  5: now apply dwarf_skip_spec.
  1: eapply wp_mono; [now apply dwarf_u8_spec|].
  2: eapply wp_mono; [now apply dwarf_u16_spec|].
  3: eapply wp_mono; [now apply dwarf_u32_spec|].
  4: eapply wp_mono; [now apply dwarf_u64_spec|].
  all: intros [v c'] (Hs & _ & Hv); split; [exact Hs|];
    intros He; destruct (Hv He) as [-> _]; cbn [le_at]; lia.
Qed.

Definition demo_cur : dwarf_cur := dwarf_cur_init [xe5; x8e; x26; x7f] 4.

Lemma demo_cur_wf : wf_cur demo_cur.
Proof. apply (init_wf [xe5; x8e; x26; x7f]). reflexivity. Defined.

Lemma dwarf_readers_in_bounds_witness :
  dwarf_uleb demo_cur = Ret (624485, set_pos demo_cur 3) /\
  dwarf_u64 demo_cur = Ret (0, set_err demo_cur) /\
  step_ok demo_cur (dwarf_skip demo_cur 2) 2.
Proof.
  split; [reflexivity|]. split; [reflexivity|].
  apply (dwarf_readers_in_bounds demo_cur 2 demo_cur_wf). lia.
Defined.

(** The LEB128 readers invert the encodings: an unsigned 64-bit or a
    signed 64-bit value written anywhere in a buffer is read back exactly, and
    the cursor moves just past its encoding. *)
Theorem leb128_roundtrip (pre post : list byte) (n m : Z) :
  0 <= n < 2 ^ 64 -> - 2 ^ 63 <= m < 2 ^ 63 ->
  zlen (pre ++ uleb_enc 9 n ++ sleb_enc 9 m ++ post) < 2 ^ 63 ->
  let buf := pre ++ uleb_enc 9 n ++ sleb_enc 9 m ++ post in
  let c := set_pos (dwarf_cur_init buf (zlen buf)) (zlen pre) in
  let c1 := adv c (zlen (uleb_enc 9 n)) in
  dwarf_uleb c = Ret (n, c1) /\
  dwarf_sleb c1 = Ret (m, adv c1 (zlen (sleb_enc 9 m))).
Proof.
  intros Hn Hm Hl buf c c1.
  assert (Hc : at_bytes c (uleb_enc 9 n ++ sleb_enc 9 m ++ post)).
  { split; [|split; [reflexivity|]].
    - apply set_pos_wf; [now apply init_wf|]. unfold buf in Hl. rewrite zlen_app in Hl.
      pose proof (zlen_nonneg pre). pose proof (zlen_nonneg (uleb_enc 9 n ++ sleb_enc 9 m ++ post)).
      lia.
    - exists pre, []. simpl. unfold buf. rewrite !app_nil_r, <- ?app_assoc. auto. }
  split; [now apply (at_uleb c n _ Hc)|].
  apply at_next in Hc. now apply (at_sleb c1 m post).
Qed.

Lemma leb128_roundtrip_witness :
  let buf := [x00] ++ uleb_enc 9 624485 ++ sleb_enc 9 (-8) ++ [] in
  let c := set_pos (dwarf_cur_init buf (zlen buf)) (zlen [x00]) in
  dwarf_uleb c = Ret (624485, adv c (zlen (uleb_enc 9 624485))).
Proof. apply (leb128_roundtrip [x00] [] 624485 (-8)); vm_compute; auto; split; congruence. Defined.
