(* ===== verification/CfiElf.v ===== *)
(** * CfiElf: locating the CFI sections of an ELF64 image
    (src/common/cfi_unwind.c, [cfi_extract_debug_frame], [cfi_extract_eh_frame])

    Every offset of the image is untrusted.  The two functions of the source are
    the same text up to the section name and the extra [sh_addr] result, so the
    scan is one definition with the name as an argument.  A result is the
    offset, size and address of the section inside the image. *)

From stdpp Require Import base list option numbers.
From Stdlib Require Import ZArith Lia.
From S2P Require Import Prelude Elf.

Local Open Scope Z_scope.

(** The section names, with the terminator the [memcmp] compares too. *)
Definition debug_frame_name : list byte :=
  [x2e; x64; x65; x62; x75; x67; x5f; x66; x72; x61; x6d; x65; x00].
Definition eh_frame_name : list byte :=
  [x2e; x65; x68; x5f; x66; x72; x61; x6d; x65; x00].

Section Scan.
Context (elf target : list byte) (shoff shentsz shstr_off shstr_size : Z).

Fixpoint scan_shdrs (k : nat) (i : Z) : res (Z * Z * Z) :=
  match k with
  | O => Fail
  | S k =>
      let sh_off := u64 (shoff + u64 (i * shentsz)) in
      fail_if u64 (sh_off + sizeof_Shdr) >? zlen elf;
      raw ← memcpy_in elf sh_off sizeof_Shdr;
      let shdr := shdr_of raw in
      if sh_name shdr >=? shstr_size then scan_shdrs k (i + 1) else
      let max_name := shstr_size - sh_name shdr in
      if max_name <? zlen target then scan_shdrs k (i + 1) else
      nm ← memcpy_in elf (shstr_off + sh_name shdr) (zlen target);
      if negb (bool_decide (nm = target)) then scan_shdrs k (i + 1) else
      let sec_off := sh_offset shdr in
      let sec_size := sh_size shdr in
      fail_if (sec_size =? 0) || (sec_off >? zlen elf)
              || (u64 (sec_off + sec_size) >? zlen elf);
      Ret (sec_off, sec_size, sh_addr shdr)
  end.
End Scan.

Definition extract_section (target elf : list byte) : res (Z * Z * Z) :=
  let len := zlen elf in
  fail_if len <? sizeof_Ehdr;
  raw ← memcpy_in elf 0 sizeof_Ehdr;
  let ehdr := ehdr_of raw in
  fail_if negb (elf_magic_ok ehdr);
  fail_if negb (elf_class ehdr =? ELFCLASS64);
  fail_if (e_shnum ehdr =? 0) || (e_shentsize ehdr <? sizeof_Shdr);
  let shoff := e_shoff ehdr in
  let shnum := e_shnum ehdr in
  let shentsz := e_shentsize ehdr in
  fail_if (shoff =? 0) || (shoff >? len);
  fail_if negb (shentsz =? 0) && (shnum >? (len - shoff) / shentsz);
  let shstrndx := e_shstrndx ehdr in
  fail_if shstrndx >=? shnum;
  let shstr_hdr_off := u64 (shoff + u64 (shstrndx * shentsz)) in
  fail_if u64 (shstr_hdr_off + sizeof_Shdr) >? len;
  sraw ← memcpy_in elf shstr_hdr_off sizeof_Shdr;
  let shstr_hdr := shdr_of sraw in
  let shstr_off := sh_offset shstr_hdr in
  let shstr_size := sh_size shstr_hdr in
  fail_if (shstr_size =? 0) || (shstr_off >? len) || (u64 (shstr_off + shstr_size) >? len);
  scan_shdrs elf target shoff shentsz shstr_off shstr_size (Z.to_nat shnum) 0.

Definition cfi_extract_debug_frame (elf : list byte) : res (Z * Z) :=
  '(off, size, _) ← extract_section debug_frame_name elf;
  Ret (off, size).

Definition cfi_extract_eh_frame (elf : list byte) : res (Z * Z * Z) :=
  extract_section eh_frame_name elf.

(** ** Specification *)

(** The [i]-th section header of an image. *)
Definition image_ehdr (elf : list byte) : Elf64_Ehdr := ehdr_of (slice elf 0 64).
Definition image_shdr (elf : list byte) (i : Z) : Elf64_Shdr :=
  shdr_of (slice elf (e_shoff (image_ehdr elf) + i * e_shentsize (image_ehdr elf)) 64).

(** No section header claims an extent that wraps around the address space. *)
Definition no_wrap (elf : list byte) : Prop :=
  forall i, 0 <= i < e_shnum (image_ehdr elf) ->
    sh_offset (image_shdr elf i) + sh_size (image_shdr elf i) < 2 ^ 64.

(** [i] is the header of the section called [name]. *)
Definition is_section (elf name : list byte) (i : Z) : Prop :=
  let str := image_shdr elf (e_shstrndx (image_ehdr elf)) in
  0 <= i < e_shnum (image_ehdr elf) /\
  sh_name (image_shdr elf i) + zlen name <= sh_size str /\
  slice elf (sh_offset str + sh_name (image_shdr elf i)) (zlen name) = name.

Lemma scan_shdrs_spec elf target k i :
  let eh := image_ehdr elf in
  let str := image_shdr elf (e_shstrndx eh) in
  zlen elf < 2 ^ 63 -> no_wrap elf -> 0 <= i -> i + Z.of_nat k = e_shnum eh ->
  e_shoff eh + e_shnum eh * e_shentsize eh <= zlen elf -> 64 <= e_shentsize eh ->
  0 <= e_shoff eh -> sh_offset str + sh_size str <= zlen elf ->
  wp (scan_shdrs elf target (e_shoff eh) (e_shentsize eh) (sh_offset str) (sh_size str) k i)
     (fun '(off, size, addr) =>
        0 <= off /\ 0 < size /\ off + size <= zlen elf /\
        exists j, is_section elf target j /\ off = sh_offset (image_shdr elf j) /\
          size = sh_size (image_shdr elf j) /\ addr = sh_addr (image_shdr elf j)).
Proof.
  intros eh str Hlen Hw. revert i. induction k as [|k IH]; intros i Hi Hk Htab Hent Hoff Hstr.
  { exact I. }
  cbn [scan_shdrs].
  assert (Hin : i < e_shnum eh) by lia.
  assert (Hfit : e_shoff eh + i * e_shentsize eh + 64 <= zlen elf) by nia.
  assert (0 <= i * e_shentsize eh) by nia.
  rewrite (u64_small (i * _)) by lia.
  rewrite (u64_small (e_shoff eh + i * e_shentsize eh)) by lia.
  unfold sizeof_Shdr in *. rewrite u64_small by lia.
  apply wp_fail_if. intros _. rewrite memcpy_in_ok by lia.
  unfold mbind, res_bind. change (shdr_of _) with (image_shdr elf i).
  pose proof (shdr_ranges (slice elf (e_shoff eh + i * e_shentsize eh) 64)) as Hr.
  change (shdr_of _) with (image_shdr elf i) in Hr.
  pose proof (shdr_ranges (slice elf (e_shoff eh + e_shstrndx eh * e_shentsize eh) 64)) as Hrs.
  change (shdr_of _) with str in Hrs.
  apply wp_if; intros Hn; b2p; [apply IH; lia|].
  apply wp_if; intros Hm; b2p; [apply IH; lia|].
  rewrite memcpy_in_ok by (try apply zlen_nonneg; lia).
  apply wp_if; intros Hb; [apply IH; lia|].
  apply wp_fail_if. intros Hs. b2p.
  pose proof (Hw i ltac:(fold eh; lia)).
  rewrite u64_small in * by lia. cbn [wp].
  split; [lia|]. split; [lia|]. split; [lia|].
  exists i. repeat split; fold eh; fold str; try lia.
  now apply bool_decide_eq_true in Hb.
Qed.

Lemma extract_section_spec elf target :
  zlen elf < 2 ^ 63 -> no_wrap elf ->
  wp (extract_section target elf)
     (fun '(off, size, addr) =>
        0 <= off /\ 0 < size /\ off + size <= zlen elf /\
        exists j, is_section elf target j /\ off = sh_offset (image_shdr elf j) /\
          size = sh_size (image_shdr elf j) /\ addr = sh_addr (image_shdr elf j)).
Proof.
  intros Hlen Hw. unfold extract_section, sizeof_Ehdr, sizeof_Shdr.
  apply wp_fail_if. intros H64. b2p. rewrite memcpy_in_ok by lia.
  unfold mbind, res_bind. change (ehdr_of (slice elf 0 64)) with (image_ehdr elf).
  pose proof (ehdr_ranges (slice elf 0 64)) as Hr.
  change (ehdr_of (slice elf 0 64)) with (image_ehdr elf) in Hr.
  do 5 (apply wp_fail_if; intros ?). b2p.
  match goal with H : negb _ && _ = false |- _ => rename H into Htab end.
  assert (Hfit : e_shoff (image_ehdr elf) + e_shnum (image_ehdr elf) * e_shentsize (image_ehdr elf)
                 <= zlen elf).
  { apply andb_false_iff in Htab as [Hz|Hz]; b2p; [lia|].
    pose proof (Z.mul_div_le (zlen elf - e_shoff (image_ehdr elf))
                  (e_shentsize (image_ehdr elf)) ltac:(lia)). nia. }
  apply wp_fail_if; intros Hndx. b2p.
  assert (e_shoff (image_ehdr elf) + e_shstrndx (image_ehdr elf) * e_shentsize (image_ehdr elf)
          + 64 <= zlen elf) by nia.
  assert (0 <= e_shstrndx (image_ehdr elf) * e_shentsize (image_ehdr elf)) by nia.
  rewrite (u64_small (e_shstrndx _ * _)) by lia.
  rewrite (u64_small (e_shoff _ + _)) by lia. rewrite u64_small by lia.
  apply wp_fail_if; intros _. rewrite memcpy_in_ok by lia.
  change (shdr_of _) with (image_shdr elf (e_shstrndx (image_ehdr elf))).
  pose proof (shdr_ranges (slice elf (e_shoff (image_ehdr elf) +
    e_shstrndx (image_ehdr elf) * e_shentsize (image_ehdr elf)) 64)) as Hrs.
  change (shdr_of _) with (image_shdr elf (e_shstrndx (image_ehdr elf))) in Hrs.
  pose proof (Hw (e_shstrndx (image_ehdr elf)) ltac:(lia)).
  apply wp_fail_if; intros Hs. b2p. rewrite u64_small in * by lia.
  apply scan_shdrs_spec; auto; try lia.
Qed.

(** ** Properties *)

(** A well-formed image in the witnesses: a header, a string table and one
    section header that names the section [.eh_frame] and is also the string
    table; its 10 bytes of contents are the name itself. *)
Definition demo_ehdr (shoff : Z) : list byte :=
  ELFMAG ++ [x02; x01; x01; x00] ++ repeat x00 8 ++
  le_bytes 2 3 ++ le_bytes 2 183 ++ le_bytes 4 1 ++ le_bytes 8 0 ++ le_bytes 8 0 ++
  le_bytes 8 shoff ++ le_bytes 4 0 ++ le_bytes 2 64 ++ le_bytes 2 0 ++ le_bytes 2 0 ++
  le_bytes 2 64 ++ le_bytes 2 1 ++ le_bytes 2 0.

Definition demo_elf : list byte :=
  demo_ehdr 80 ++ eh_frame_name ++ repeat x00 6 ++
  shdr_bytes (mk_shdr 0 3 0 4096 64 10 0 0 1 0).

(** The same header with a string table whose extent wraps around: the check
    [shstr_off + shstr_size > len] is computed modulo [2^64]. *)
Definition wrap_elf : list byte :=
  demo_ehdr 64 ++ shdr_bytes (mk_shdr 200 3 0 0 64 (2 ^ 64 - 64) 0 0 1 0).

(** On every image none of whose section headers wraps, both extraction
    functions stay inside the image, and a section they return is non-empty,
    lies inside the image and is the content of a section header with exactly
    the requested name. *)
Theorem cfi_extract_in_bounds (elf : list byte) :
  zlen elf < 2 ^ 63 -> no_wrap elf ->
  wp (cfi_extract_eh_frame elf) (fun '(off, size, addr) =>
    0 <= off /\ 0 < size /\ off + size <= zlen elf /\
    exists j, is_section elf eh_frame_name j /\ off = sh_offset (image_shdr elf j) /\
      size = sh_size (image_shdr elf j) /\ addr = sh_addr (image_shdr elf j)) /\
  wp (cfi_extract_debug_frame elf) (fun '(off, size) =>
    0 <= off /\ 0 < size /\ off + size <= zlen elf /\
    exists j, is_section elf debug_frame_name j /\ off = sh_offset (image_shdr elf j) /\
      size = sh_size (image_shdr elf j)).
Proof.
  intros Hl Hw. split; [now apply extract_section_spec|].
  unfold cfi_extract_debug_frame. eapply wp_bind; [now apply extract_section_spec|].
  intros [[off size] addr] (H1 & H2 & H3 & j & Hj & -> & -> & _).
  simpl. repeat split; eauto.
Qed.

Lemma demo_no_wrap : no_wrap demo_elf.
Proof.
  intros i Hi. change (e_shnum (image_ehdr demo_elf)) with 1 in Hi.
  replace i with 0 by lia. vm_compute. reflexivity.
Defined.

Lemma cfi_extract_in_bounds_witness :
  cfi_extract_eh_frame demo_elf = Ret (64, 10, 4096) /\
  wp (cfi_extract_eh_frame demo_elf) (fun '(off, size, addr) =>
    0 <= off /\ 0 < size /\ off + size <= zlen demo_elf /\
    exists j, is_section demo_elf eh_frame_name j /\
      off = sh_offset (image_shdr demo_elf j) /\
      size = sh_size (image_shdr demo_elf j) /\ addr = sh_addr (image_shdr demo_elf j)).
Proof.
  split; [vm_compute; reflexivity|].
  exact (proj1 (cfi_extract_in_bounds demo_elf ltac:(vm_compute; reflexivity) demo_no_wrap)).
Defined.

(** Without that assumption the functions leave the image.  A string
    table at offset 64 with size [2^64 - 64] passes the bounds check, whose sum
    wraps to 0, and the name comparison then reads past the end of the image. *)
Theorem cfi_extract_wrap_overread :
  zlen wrap_elf = 128 /\
  cfi_extract_eh_frame wrap_elf = Oob /\ cfi_extract_debug_frame wrap_elf = Oob.
Proof. vm_compute. auto. Qed.
