(* ===== verification/CfiParse.v ===== *)
(** * CfiParse: CIE and FDE tables (src/common/cfi_unwind.c)

    [parse_cie], [decode_eh_pe], the two-pass parsers of [.eh_frame] and
    [.debug_frame], the sorted FDE index with its binary search, and
    [cfi_load_elf].  Section bytes are untrusted: the theorems say that no parser
    ever reads outside the section, that every loop ends, what an accepted table
    looks like, and that the binary search agrees with its specification. *)

From stdpp Require Import base list option numbers sorting.
From Stdlib Require Import ZArith Lia.
From S2P Require Import Prelude Elf Dwarf CfiElf.

Local Open Scope Z_scope.

Record cfi_cie := mk_cie {
  cie_version : Z; addr_size : Z; code_align : Z; data_align : Z; ra_reg : Z;
  cie_insn_off : Z; cie_insn_len : Z; fde_enc : Z; has_z : bool
}.

Record cfi_fde := mk_fde {
  pc_lo : Z; pc_hi : Z; cie_off : Z; fde_insn_off : Z; fde_insn_len : Z
}.

(** [data]/[len] is the byte list, [fdes]/[nfde] the list of entries ([NULL] is
    the empty list); [owned] tells whether [data] is a private copy. *)
Record cfi_section := mk_section {
  sdata : list byte; fdes : list cfi_fde; section_vaddr : Z; owned : bool
}.

Definition set_fdes (s : cfi_section) (l : list cfi_fde) : cfi_section :=
  mk_section (sdata s) l (section_vaddr s) (owned s).

(** ** Augmentation data *)

(** The NUL-terminated augmentation string: at most 7 characters are kept. *)
Fixpoint read_aug (fuel : nat) (c : dwarf_cur) (entry_end : Z) (aug : list Z)
  : res (list Z * dwarf_cur) :=
  match fuel with
  | O => NoFuel
  | S fuel =>
      if negb (negb (cerr c) && (cpos c <? entry_end)) then Ret (aug, c) else
      '(b, c) ← dwarf_u8 c;
      fail_if cerr c;
      if b =? 0 then Ret (aug, c) else
      read_aug fuel c entry_end (if zlen aug <? 7 then aug ++ [b] else aug)
  end.

(** Skip a LEB128 inside the augmentation data. *)
Fixpoint scan_leb (fuel : nat) (c : dwarf_cur) (aug_end : Z) : res dwarf_cur :=
  match fuel with
  | O => NoFuel
  | S fuel =>
      if negb ((cpos c <? aug_end) && negb (cerr c)) then Ret c else
      '(b, c) ← dwarf_u8 c;
      fail_if cerr c;
      if Z.land b 0x80 =? 0 then Ret c else scan_leb fuel c aug_end
  end.

Definition scan_fuel (c : dwarf_cur) : nat := S (length (cbuf c)).

(** The personality pointer ['P']: one encoding byte and one pointer. *)
Definition skip_personality (c : dwarf_cur) (aug_end : Z) : res dwarf_cur :=
  '(penc, c) ← dwarf_u8 c;
  fail_if cerr c;
  let fmt := Z.land penc 0x0f in
  let skip psz := (let c := dwarf_skip c psz in fail_if cerr c; Ret c) in
  let leb := (c ← scan_leb (scan_fuel c) c aug_end; fail_if cerr c; Ret c) in
  match fmt with
  | 0x00 => skip 8
  | 0x02 => skip 2
  | 0x03 => skip 4
  | 0x04 => skip 8
  | 0x09 => leb
  | 0x0a => skip 2
  | 0x0b => skip 4
  | 0x0c => skip 8
  | 0x01 => leb
  | _ => Fail
  end.

(** The loop over the letters after ['z']. *)
Fixpoint walk_aug (letters : list Z) (c : dwarf_cur) (aug_end enc : Z)
  : res (Z * dwarf_cur) :=
  match letters with
  | [] => Ret (enc, c)
  | a :: letters =>
      if negb (cpos c <? aug_end) then Ret (enc, c) else
      if a =? 0x52 (* R *) then
        '(e, c) ← dwarf_u8 c;
        fail_if cerr c;
        walk_aug letters c aug_end e
      else if a =? 0x50 (* P *) then
        c ← skip_personality c aug_end;
        walk_aug letters c aug_end enc
      else if a =? 0x4c (* L *) then
        '(_, c) ← dwarf_u8 c;
        fail_if cerr c;
        walk_aug letters c aug_end enc
      else walk_aug letters (set_pos c aug_end) aug_end enc
  end.

(** ** CIE *)

Definition parse_cie (data : list byte) (cie_off : Z) : res cfi_cie :=
  let len := zlen data in
  fail_if u64 (cie_off + 8) >? len;
  let c := set_pos (dwarf_cur_init data len) cie_off in
  '(length, c) ← dwarf_u32 c;
  fail_if cerr c;
  fail_if length =? 0xffffffff;
  fail_if length =? 0;
  let entry_end := u64 (cpos c + length) in
  fail_if entry_end >? len;
  '(id, c) ← dwarf_u32 c;
  fail_if cerr c;
  let is_eh := id =? 0 in
  fail_if negb is_eh && negb (id =? 0xffffffff);
  '(version, c) ← dwarf_u8 c;
  fail_if cerr c;
  '(aug, c) ← read_aug (scan_fuel c) c entry_end [];
  fail_if cerr c;
  let starts_z := match aug with a :: _ => a =? 0x7a | [] => false end in
  fail_if negb is_eh && starts_z;
  '(addr_size, c) ←
     (if negb is_eh && (version =? 4) then
        '(a, c) ← dwarf_u8 c;
        '(_, c) ← dwarf_u8 c;
        fail_if cerr c;
        Ret (a, c)
      else Ret (8, c));
  '(code_align, c) ← dwarf_uleb c;
  '(data_align, c) ← dwarf_sleb c;
  fail_if cerr c;
  '(ra_reg, c) ←
     (if negb is_eh && (version =? 1) then dwarf_u8 c
      else '(r, c) ← dwarf_uleb c; Ret (u32 r, c));
  fail_if cerr c;
  let has_z := is_eh && starts_z in
  '(fde_enc, c) ←
     (if has_z then
        '(aug_len, c) ← dwarf_uleb c;
        fail_if cerr c;
        let aug_end := u64 (cpos c + aug_len) in
        fail_if aug_end >? entry_end;
        '(enc, c) ← walk_aug (tail aug) c aug_end 0xff;
        Ret (enc, if cpos c <? aug_end then set_pos c aug_end else c)
      else Ret (0xff, c));
  fail_if cpos c >? entry_end;
  Ret (mk_cie version addr_size code_align data_align ra_reg
         (u32 (cpos c)) (u32 (entry_end - cpos c)) fde_enc has_z).

Definition cfi_read_cie (s : cfi_section) (off : Z) : res cfi_cie := parse_cie (sdata s) off.

(** ** DW_EH_PE pointers *)

Definition decode_eh_pe (c : dwarf_cur) (enc field_vaddr : Z) (apply_pcrel : bool)
  : res (Z * dwarf_cur) :=
  if enc =? 0xff then Ret (0, c) else
  let fmt := Z.land enc 0x0f in
  let app := Z.land enc 0x70 in
  '(val, c) ←
     match fmt with
     | 0x00 => dwarf_u64 c
     | 0x01 => dwarf_uleb c
     | 0x02 => dwarf_u16 c
     | 0x03 => dwarf_u32 c
     | 0x04 => dwarf_u64 c
     | 0x09 => '(v, c) ← dwarf_sleb c; Ret (u64 v, c)
     | 0x0a => '(raw, c) ← dwarf_u16 c; Ret (u64 (s16 raw), c)
     | 0x0b => '(raw, c) ← dwarf_u32 c; Ret (u64 (s32 raw), c)
     | 0x0c => dwarf_u64 c
     | _ => Fail
     end;
  fail_if cerr c;
  if apply_pcrel then
    if app =? 0 then Ret (val, c)
    else if app =? 0x10 then Ret (u64 (val + field_vaddr), c)
    else Fail
  else Ret (val, c).

(** ** The FDE table *)

(** First pass: count the entries that are not CIEs.  [cie_id] is the id of a
    CIE, [0] in .eh_frame and [0xffffffff] in .debug_frame. *)
Fixpoint count_fdes (fuel : nat) (cie_id : Z) (c : dwarf_cur) (len nfde : Z) : res Z :=
  match fuel with
  | O => NoFuel
  | S fuel =>
      if negb (negb (cerr c) && (cpos c <? len)) then (fail_if cerr c; Ret nfde) else
      '(length, c) ← dwarf_u32 c;
      fail_if cerr c;
      fail_if length =? 0xffffffff;
      if length =? 0 then Ret nfde else
      let entry_end := u64 (cpos c + length) in
      fail_if entry_end >? len;
      '(id, c) ← dwarf_u32 c;
      fail_if cerr c;
      let nfde := if id =? cie_id then nfde else nfde + 1 in
      fail_if (cie_id =? 0xffffffff) && (entry_end <? cpos c);
      count_fdes fuel cie_id (set_pos c entry_end) len nfde
  end.

(** One FDE of .eh_frame, the cursor just after the id field. *)
Definition eh_fde (data : list byte) (vaddr id_field_off id entry_end : Z) (c : dwarf_cur)
  : res cfi_fde :=
  let id_field_off := u32 id_field_off in
  fail_if id_field_off <? id;
  let off := id_field_off - id in
  cie ← parse_cie data off;
  let field_vaddr := u64 (vaddr + cpos c) in
  '(lo, c) ← decode_eh_pe c (fde_enc cie) field_vaddr true;
  '(range, c) ← decode_eh_pe c (fde_enc cie) 0 false;
  fail_if cerr c || (cpos c >? entry_end);
  c ← (if has_z cie then
         '(aug_len, c) ← dwarf_uleb c;
         fail_if cerr c;
         fail_if u64 (cpos c + aug_len) >? entry_end;
         Ret (set_pos c (u64 (cpos c + aug_len)))
       else Ret c);
  Ret (mk_fde lo (u64 (lo + range)) off (u32 (cpos c)) (u32 (entry_end - cpos c))).

(** One FDE of .debug_frame. *)
Definition debug_fde (data : list byte) (id entry_end : Z) (c : dwarf_cur) : res cfi_fde :=
  cie ← parse_cie data id;
  '(lo, range, c) ←
     (if addr_size cie =? 8 then
        '(lo, c) ← dwarf_u64 c; '(r, c) ← dwarf_u64 c; Ret (lo, r, c)
      else if addr_size cie =? 4 then
        '(lo, c) ← dwarf_u32 c; '(r, c) ← dwarf_u32 c; Ret (lo, r, c)
      else Fail);
  fail_if cerr c;
  fail_if cpos c >? entry_end;
  Ret (mk_fde lo (u64 (lo + range)) id (u32 (cpos c)) (u32 (entry_end - cpos c))).

(** Second pass: fill the table of [nfde] slots. *)
Fixpoint fill_fdes (fuel : nat) (cie_id : Z)
  (one : Z -> Z -> Z -> dwarf_cur -> res cfi_fde)
  (c : dwarf_cur) (len nfde : Z) (acc : list cfi_fde) : res (list cfi_fde) :=
  match fuel with
  | O => NoFuel
  | S fuel =>
      if negb (negb (cerr c) && (cpos c <? len)) then (fail_if cerr c; Ret acc) else
      '(length, c) ← dwarf_u32 c;
      fail_if cerr c;
      if (length =? 0xffffffff) || (length =? 0) then Ret acc else
      let entry_end := u64 (cpos c + length) in
      fail_if entry_end >? len;
      let id_field_off := cpos c in
      '(id, c) ← dwarf_u32 c;
      fail_if cerr c;
      if id =? cie_id then
        fill_fdes fuel cie_id one (set_pos c entry_end) len nfde acc
      else
        fail_if zlen acc >=? nfde;
        fde ← one id_field_off id entry_end c;
        fill_fdes fuel cie_id one (set_pos c entry_end) len nfde (acc ++ [fde])
  end.

Definition fde_le (a b : cfi_fde) : Prop := pc_lo a <= pc_lo b.
#[export] Instance fde_le_dec : RelDecision fde_le := fun a b => decide (pc_lo a <= pc_lo b).

(** [qsort] with [fde_cmp]: the entries in ascending [pc_lo] order. *)
Definition sort_fdes (l : list cfi_fde) : list cfi_fde := merge_sort fde_le l.

Section Parsers.
(** Whether an allocation of that many bytes succeeds. *)
Context (malloc_ok : Z -> bool).

Definition sizeof_fde : Z := 32.

Definition parse_frame (cie_id : Z) (one : Z -> Z -> Z -> dwarf_cur -> res cfi_fde)
  (s : cfi_section) : res (Z * cfi_section) :=
  let data := sdata s in
  let len := zlen data in
  let c := dwarf_cur_init data len in
  let fuel := S (length data) in
  match count_fdes fuel cie_id c len 0 with
  | Ret nfde =>
      if nfde =? 0 then Ret (0, s) else
      if negb (malloc_ok (nfde * sizeof_fde)) then Ret (-1, s) else
      match fill_fdes fuel cie_id one c len nfde [] with
      | Ret l => Ret (0, set_fdes s (sort_fdes l))
      | Fail => Ret (-1, s)
      | Oob => Oob
      | NoFuel => NoFuel
      end
  | Fail => Ret (-1, s)
  | Oob => Oob
  | NoFuel => NoFuel
  end.

Definition cfi_parse_eh_frame (data : list byte) (vaddr : Z) : res (Z * cfi_section) :=
  parse_frame 0 (eh_fde data vaddr) (mk_section data [] vaddr false).

Definition cfi_parse_debug_frame (data : list byte) : res (Z * cfi_section) :=
  parse_frame 0xffffffff (fun _ => debug_fde data) (mk_section data [] 0 false).

(** Releases the table and the owned copy. *)
Definition cfi_section_free (s : cfi_section) : cfi_section :=
  mk_section (sdata s) [] (section_vaddr s) false.

Definition cfi_load_elf (elf : list byte) : res cfi_section :=
  '(off, size, vaddr, is_eh) ←
     match cfi_extract_eh_frame elf with
     | Ret (off, size, vaddr) => Ret (off, size, vaddr, true)
     | Fail => '(off, size) ← cfi_extract_debug_frame elf; Ret (off, size, 0, false)
     | Oob => Oob
     | NoFuel => NoFuel
     end;
  fail_if negb (malloc_ok size);
  buf ← memcpy_in elf off size;
  '(r, out) ← (if is_eh : bool then cfi_parse_eh_frame buf vaddr else cfi_parse_debug_frame buf);
  fail_if negb (r =? 0);
  Ret (mk_section (sdata out) (fdes out) (section_vaddr out) true).

End Parsers.

(** ** Lookup *)

(** The loop [while (lo + 1 < hi)]: the candidate is the last entry whose
    [pc_lo] is at most [pc]. *)
Fixpoint bsearch (fuel : nat) (l : list cfi_fde) (pc lo hi : Z) : res Z :=
  match fuel with
  | O => NoFuel
  | S fuel =>
      if negb (lo + 1 <? hi) then Ret lo else
      let mid := lo + (hi - lo) / 2 in
      match l !! Z.to_nat mid with
      | None => Oob
      | Some f => if pc_lo f <=? pc then bsearch fuel l pc mid hi else bsearch fuel l pc lo mid
      end
  end.

(** Each turn halves the interval at least down to its ceiling, so the number
    of entries bounds the turns. *)
Definition cfi_lookup (s : cfi_section) (pc : Z) : res (option cfi_fde) :=
  match fdes s with
  | [] => Ret None
  | _ =>
      lo ← bsearch (S (length (fdes s))) (fdes s) pc 0 (zlen (fdes s));
      match fdes s !! Z.to_nat lo with
      | None => Oob
      | Some f => if (pc_lo f <=? pc) && (pc <? pc_hi f) then Ret (Some f) else Ret None
      end
  end.

(** ** Safety of the readers *)

Lemma scan_fuel_ok c : wf_cur c -> left_of c < Z.of_nat (scan_fuel c).
Proof.
  intros []. unfold left_of, scan_fuel. rewrite wf_len in *. unfold zlen in *. lia.
Qed.

(** A cursor over [data]. *)
Definition cur_of (data : list byte) (c : dwarf_cur) : Prop := wf_cur c /\ cbuf c = data.

Lemma cur_of_len data c : cur_of data c -> clen c = zlen data.
Proof. intros [[] <-]. auto. Qed.

Lemma step_cur data c c' n : cur_of data c -> step_ok c c' n -> cur_of data c'.
Proof. intros [W <-] []. split; auto. Qed.

Lemma set_pos_cur data c p : cur_of data c -> 0 <= p < 2 ^ 63 -> cur_of data (set_pos c p).
Proof. intros [W <-] ?. split; [now apply set_pos_wf|reflexivity]. Qed.

Lemma init_cur data : zlen data < 2 ^ 63 -> cur_of data (dwarf_cur_init data (zlen data)).
Proof. split; [now apply init_wf|reflexivity]. Qed.

#[export] Hint Resolve step_cur : words.

(** Run a reader with its specification. *)
Ltac rd H lem :=
  eapply wp_bind; [apply lem; apply H|];
  let v := fresh "v" in let c := fresh "c" in
  let Hs := fresh "Hstep" in let Hr := fresh "Hrest" in
  intros [v c] [Hs Hr]; cbv beta iota;
  match type of Hs with step_ok ?a _ ?n =>
    pose proof (step_cur _ _ _ n H Hs)
  end.

Lemma read_aug_spec data fuel c e aug :
  cur_of data c -> left_of c < Z.of_nat fuel ->
  wp (read_aug fuel c e aug) (fun '(_, c') => cur_of data c').
Proof.
  revert c aug. induction fuel as [|fuel IH]; intros c aug H Hf.
  { unfold left_of in Hf. lia. }
  cbn [read_aug]. apply wp_if; intros Hc; [exact H|].
  rd H dwarf_u8_spec. apply wp_fail_if; intros He.
  apply wp_if; intros _; [exact H0|].
  apply IH; auto. destruct Hrest as [_ Hv]. destruct (Hv He) as [_ Hp].
  apply so_err in Hstep; [|exact He]. destruct Hstep as [_ Hb].
  unfold left_of in *. rewrite (cur_of_len _ _ H0). rewrite (cur_of_len _ _ H) in *. lia.
Qed.

Lemma scan_leb_spec data fuel c e :
  cur_of data c -> left_of c < Z.of_nat fuel ->
  wp (scan_leb fuel c e) (fun c' => cur_of data c').
Proof.
  revert c. induction fuel as [|fuel IH]; intros c H Hf.
  { unfold left_of in Hf. lia. }
  cbn [scan_leb]. apply wp_if; intros Hc; [exact H|].
  rd H dwarf_u8_spec. apply wp_fail_if; intros He.
  apply wp_if; intros _; [exact H0|].
  apply IH; auto. destruct Hrest as [_ Hv]. destruct (Hv He) as [_ Hp].
  apply so_err in Hstep; [|exact He]. destruct Hstep as [_ Hb].
  unfold left_of in *. rewrite (cur_of_len _ _ H0). rewrite (cur_of_len _ _ H) in *. lia.
Qed.

Lemma skip_personality_spec data c e :
  cur_of data c -> wp (skip_personality c e) (fun c' => cur_of data c').
Proof.
  intros H. unfold skip_personality. rd H dwarf_u8_spec.
  apply wp_fail_if; intros _.
  assert (Hskip : forall p, 0 <= p < 2 ^ 63 ->
    wp (let c := dwarf_skip c0 p in fail_if cerr c; Ret c) (fun c' => cur_of data c')).
  { intros p Hp. cbv zeta. apply wp_fail_if; intros _. simpl.
    eapply step_cur; [exact H0|]. apply dwarf_skip_spec; [apply H0|lia]. }
  assert (Hleb : wp (c ← scan_leb (scan_fuel c0) c0 e; fail_if cerr c; Ret c)
                    (fun c' => cur_of data c')).
  { eapply wp_bind; [apply scan_leb_spec; [exact H0|apply scan_fuel_ok, H0]|].
    intros c1 H1. apply wp_fail_if; auto. }
  cbv zeta in Hskip |- *.
  destruct (Z.land v 15) as [|p|p]; [apply Hskip; lia| |exact I].
  do 4 (try destruct p as [p|p|]); try exact I; try exact Hleb; apply Hskip; lia.
Qed.

Lemma walk_aug_spec data letters c e enc :
  cur_of data c -> 0 <= e < 2 ^ 63 -> 0 <= enc < 256 ->
  wp (walk_aug letters c e enc) (fun '(v, c') => cur_of data c' /\ 0 <= v < 256).
Proof.
  revert c enc. induction letters as [|a l IH]; intros c enc H He Henc; cbn [walk_aug].
  { split; auto. }
  apply wp_if; intros _; [split; auto|].
  apply wp_if; intros _.
  { rd H dwarf_u8_spec. apply wp_fail_if; intros _. apply IH; auto. apply Hrest. }
  apply wp_if; intros _.
  { eapply wp_bind; [apply (skip_personality_spec data); exact H|]. intros c1 H1. now apply IH. }
  apply wp_if; intros _.
  { rd H dwarf_u8_spec. apply wp_fail_if; intros _. now apply IH. }
  apply IH; auto. now apply set_pos_cur.
Qed.

(** ** What an accepted CIE and FDE look like *)

Record cie_ok (data : list byte) (e : cfi_cie) : Prop := {
  ck_code : 0 <= code_align e < 2 ^ 64;
  ck_data : - 2 ^ 63 <= data_align e < 2 ^ 63;
  ck_ra : 0 <= ra_reg e < 2 ^ 32;
  ck_enc : 0 <= fde_enc e < 256;
  ck_off : 0 <= cie_insn_off e < 2 ^ 32;
  ck_len : 0 <= cie_insn_len e < 2 ^ 32;
  ck_in : zlen data < 2 ^ 32 -> cie_insn_off e + cie_insn_len e <= zlen data
}.

Record fde_ok (data : list byte) (f : cfi_fde) : Prop := {
  fk_lo : 0 <= pc_lo f < 2 ^ 64;
  fk_hi : 0 <= pc_hi f < 2 ^ 64;
  fk_cie : 0 <= cie_off f < 2 ^ 32;
  fk_off : 0 <= fde_insn_off f < 2 ^ 32;
  fk_len : 0 <= fde_insn_len f < 2 ^ 32;
  fk_in : zlen data < 2 ^ 32 -> fde_insn_off f + fde_insn_len f <= zlen data
}.

Lemma insn_range (data : list byte) p e :
  0 <= p <= e -> e <= zlen data ->
  0 <= u32 p < 2 ^ 32 /\ 0 <= u32 (e - p) < 2 ^ 32 /\
  (zlen data < 2 ^ 32 -> u32 p + u32 (e - p) <= zlen data).
Proof.
  intros H1 H2. split; [apply u32_range|]. split; [apply u32_range|].
  intros H3. rewrite !u32_small by lia. lia.
Qed.

Lemma parse_cie_spec data off :
  zlen data < 2 ^ 63 -> 0 <= off < 2 ^ 32 -> wp (parse_cie data off) (cie_ok data).
Proof.
  intros Hl Ho. unfold parse_cie. apply wp_fail_if; intros _.
  assert (H : cur_of data (set_pos (dwarf_cur_init data (zlen data)) off))
    by (apply set_pos_cur; [now apply init_cur|lia]).
  rd H dwarf_u32_spec. do 4 (apply wp_fail_if; intros ?). b2p.
  rd H0 dwarf_u32_spec. do 2 (apply wp_fail_if; intros ?).
  rd H5 dwarf_u8_spec. apply wp_fail_if; intros ?.
  eapply wp_bind; [apply read_aug_spec; [exact H8|apply scan_fuel_ok, H8]|].
  intros [aug ca] Ha. cbv beta iota. do 2 (apply wp_fail_if; intros ?).
  eapply (wp_bind _ _ _ (fun '(_, c') => cur_of data c')).
  { apply wp_if; intros _; [|exact Ha].
    rd Ha dwarf_u8_spec. rd H12 dwarf_u8_spec. apply wp_fail_if; auto. }
  intros [asz cb] Hb. cbv beta iota.
  rd Hb dwarf_uleb_spec. rd H12 dwarf_sleb_spec. apply wp_fail_if; intros ?.
  eapply (wp_bind _ _ _ (fun '(r, c') => cur_of data c' /\ 0 <= r < 2 ^ 32)).
  { apply wp_if; intros _.
    - eapply wp_mono; [apply dwarf_u8_spec, H13|]. intros [r cr] (Hs & Hr & _).
      split; [eauto using step_cur|lia].
    - rd H13 dwarf_uleb_spec. split; [assumption|apply u32_range]. }
  intros [ra cc] [Hc Hra]. cbv beta iota. apply wp_fail_if; intros ?.
  set (entry_end := u64 _) in *.
  assert (Hee : 0 <= entry_end) by apply u64_range. clearbody entry_end.
  eapply (wp_bind _ _ _ (fun '(r, c') => cur_of data c' /\ 0 <= r < 256)).
  { apply wp_if; intros _; [|simpl; split; [exact Hc|lia]].
    rd Hc dwarf_uleb_spec. do 2 (apply wp_fail_if; intros ?). b2p.
    set (aug_end := u64 _) in *.
    assert (0 <= aug_end) by apply u64_range.
    eapply wp_bind; [apply walk_aug_spec; [eassumption|lia|lia]|].
    intros [enc cd] [Hd He]. simpl. split; [|lia].
    destruct (cpos cd <? aug_end); [apply set_pos_cur; [assumption|lia]|assumption]. }
  intros [enc ce] [He Henc]. cbv beta iota. apply wp_fail_if; intros ?. b2p.
  destruct He as [[Hwl _ Hwp] _].
  destruct (insn_range data (cpos ce) entry_end) as (I1 & I2 & I3); [lia|lia|].
  simpl. constructor; simpl; auto; lia.
Qed.

Lemma decode_eh_pe_spec data c enc fv pcrel :
  cur_of data c -> wp (decode_eh_pe c enc fv pcrel)
    (fun '(v, c') => cur_of data c' /\ 0 <= v < 2 ^ 64).
Proof.
  intros H. unfold decode_eh_pe. apply wp_if; intros _; [split; [exact H|lia]|].
  eapply (wp_bind _ _ _ (fun '(v, c') => cur_of data c' /\ 0 <= v < 2 ^ 64)).
  - assert (H64 : wp (dwarf_u64 c) (fun '(v, c') => cur_of data c' /\ 0 <= v < 2 ^ 64)).
    { eapply wp_mono; [apply dwarf_u64_spec, H|]. intros [? ?] (Hs & ? & _).
      eauto using step_cur. }
    assert (Hul : wp (dwarf_uleb c) (fun '(v, c') => cur_of data c' /\ 0 <= v < 2 ^ 64)).
    { eapply wp_mono; [apply dwarf_uleb_spec, H|]. intros [? ?] (Hs & ?).
      eauto using step_cur. }
    assert (H16 : wp (dwarf_u16 c) (fun '(v, c') => cur_of data c' /\ 0 <= v < 2 ^ 16)).
    { eapply wp_mono; [apply dwarf_u16_spec, H|]. intros [? ?] (Hs & ? & _).
      eauto using step_cur. }
    assert (H32 : wp (dwarf_u32 c) (fun '(v, c') => cur_of data c' /\ 0 <= v < 2 ^ 32)).
    { eapply wp_mono; [apply dwarf_u32_spec, H|]. intros [? ?] (Hs & ? & _).
      eauto using step_cur. }
    assert (Hsl : wp (dwarf_sleb c) (fun '(v, c') => cur_of data c')).
    { eapply wp_mono; [apply dwarf_sleb_spec, H|]. intros [? ?] (Hs & ?).
      eauto using step_cur. }
    destruct (Z.land enc 15) as [|p|p]; [exact H64| |exact I].
    do 4 (try destruct p as [p|p|]); try exact I; try exact H64; try exact Hul.
    all: first
      [ eapply wp_bind; [first [exact H32|exact Hsl|exact H16]|];
        intros [v c1] Hv; (split; [first [exact Hv|exact (proj1 Hv)]|apply u64_range])
      | eapply wp_mono; [first [exact H32|exact H16]|];
        intros [v c1] [? ?]; split; [auto|lia] ].
  - intros [v c1] [H1 Hv]. cbv beta iota. apply wp_fail_if; intros _.
    apply wp_if; intros _; [|split; auto].
    apply wp_if; intros _; [split; auto|].
    apply wp_if; intros _; [|exact I]. split; [auto|apply u64_range].
Qed.

Lemma eh_fde_spec data vaddr ifo id e c :
  zlen data < 2 ^ 63 -> cur_of data c -> 0 <= id < 2 ^ 32 -> 0 <= e <= zlen data ->
  wp (eh_fde data vaddr ifo id e c) (fde_ok data).
Proof.
  intros Hl H Hid He. unfold eh_fde. apply wp_fail_if; intros Hg. b2p.
  pose proof (u32_range ifo) as Hu.
  eapply wp_bind; [apply parse_cie_spec; lia|]. intros cie _.
  eapply wp_bind; [now apply (decode_eh_pe_spec data)|]. intros [lo c1] [H1 Hlo]. cbv beta iota.
  eapply wp_bind; [now apply (decode_eh_pe_spec data)|]. intros [ra c2] [H2 Hra]. cbv beta iota.
  apply wp_fail_if; intros Hc. b2p.
  eapply (wp_bind _ _ _ (fun c' => cur_of data c' /\ cpos c' <= e)).
  { apply wp_if; intros _; [|simpl; auto].
    rd H2 dwarf_uleb_spec. do 2 (apply wp_fail_if; intros ?). b2p.
    pose proof (u64_range (cpos c0 + v)).
    simpl. split; [apply set_pos_cur; [assumption|lia]|assumption]. }
  intros c3 [[[_ _ Hp] _] Hc3].
  destruct (insn_range data (cpos c3) e) as (I1 & I2 & I3); [lia|lia|].
  simpl. constructor; simpl; auto using u64_range; lia.
Qed.

Lemma debug_fde_spec data id e c :
  zlen data < 2 ^ 63 -> cur_of data c -> 0 <= id < 2 ^ 32 -> 0 <= e <= zlen data ->
  wp (debug_fde data id e c) (fde_ok data).
Proof.
  intros Hl H Hid He. unfold debug_fde.
  eapply wp_bind; [apply parse_cie_spec; lia|]. intros cie _.
  eapply (wp_bind _ _ _ (fun '(lo, _, c') => cur_of data c' /\ 0 <= lo < 2 ^ 64)).
  { apply wp_if; intros _.
    { rd H dwarf_u64_spec. rd H0 dwarf_u64_spec. simpl. split; [auto|]. apply Hrest. }
    apply wp_if; intros _; [|exact I].
    rd H dwarf_u32_spec. rd H0 dwarf_u32_spec. simpl. split; [auto|]. lia. }
  intros [[lo ra] c1] [[[_ _ Hp] _] Hlo]. cbv beta iota.
  do 2 (apply wp_fail_if; intros ?). b2p.
  destruct (insn_range data (cpos c1) e) as (I1 & I2 & I3); [lia|lia|].
  simpl. constructor; simpl; auto using u64_range; lia.
Qed.

(** The shared head of the two passes: one entry header. *)
Lemma entry_step data c c1 c2 len_v :
  cur_of data c -> step_ok c c1 4 -> cpos c1 = cpos c + 4 -> cerr c1 = false ->
  0 <= len_v -> u64 (cpos c1 + len_v) <= zlen data -> len_v < 2 ^ 32 ->
  step_ok c1 c2 4 -> cpos c < zlen data ->
  cur_of data (set_pos c2 (u64 (cpos c1 + len_v))) /\
  left_of (set_pos c2 (u64 (cpos c1 + len_v))) < left_of c.
Proof.
  intros H S1 P1 E1 Hlv Hin H32 S2 Hlt.
  pose proof (step_cur _ _ _ _ H S1) as H1. pose proof (step_cur _ _ _ _ H1 S2) as H2.
  destruct (so_err _ _ _ S1 E1) as [_ Hb].
  assert (Hl : zlen data < 2 ^ 63) by (rewrite <- (cur_of_len _ _ H); apply H).
  rewrite (cur_of_len _ _ H) in Hb.
  assert (0 <= cpos c) by apply H.
  rewrite u64_small in * by lia.
  split; [apply set_pos_cur; [exact H2|lia]|].
  unfold left_of. simpl. rewrite (cur_of_len _ _ H2), (cur_of_len _ _ H). lia.
Qed.

Lemma count_fdes_spec data cie_id fuel c n :
  cur_of data c -> left_of c < Z.of_nat fuel -> 0 <= n ->
  wp (count_fdes fuel cie_id c (zlen data) n) (fun m => n <= m).
Proof.
  revert c n. induction fuel as [|fuel IH]; intros c n H Hf Hn.
  { unfold left_of in Hf. lia. }
  cbn [count_fdes]. apply wp_if; intros Hc; b2p.
  { apply wp_fail_if; intros _. simpl. lia. }
  rd H dwarf_u32_spec. apply wp_fail_if; intros He. apply wp_fail_if; intros _.
  apply wp_if; intros Hz; [simpl; lia|]. apply wp_fail_if; intros Hin. b2p.
  rd H2 dwarf_u32_spec. apply wp_fail_if; intros He2. apply wp_fail_if; intros _.
  destruct Hrest as [Hv Hv2]. destruct (Hv2 He) as [_ Hp].
  destruct (entry_step data c c0 c1 v H Hstep Hp He ltac:(lia) Hin ltac:(lia) Hstep0
              ltac:(lia)) as [Hc' Hm].
  eapply wp_mono; [apply IH; [exact Hc'|lia|destruct (_ =? _); lia]|].
  simpl. intros a Ha. destruct (_ =? _); lia.
Qed.

Lemma fill_fdes_spec data cie_id one fuel c n acc :
  (forall ifo id e c, cur_of data c -> 0 <= id < 2 ^ 32 -> 0 <= e <= zlen data ->
     wp (one ifo id e c) (fde_ok data)) ->
  cur_of data c -> left_of c < Z.of_nat fuel -> zlen acc <= n -> Forall (fde_ok data) acc ->
  wp (fill_fdes fuel cie_id one c (zlen data) n acc)
     (fun l => zlen l <= n /\ Forall (fde_ok data) l).
Proof.
  intros Hone. revert c acc. induction fuel as [|fuel IH]; intros c acc H Hf Hn Hacc.
  { unfold left_of in Hf. lia. }
  cbn [fill_fdes]. apply wp_if; intros Hc; b2p.
  { apply wp_fail_if; intros _. simpl. auto. }
  rd H dwarf_u32_spec. apply wp_fail_if; intros He.
  apply wp_if; intros Hz; [simpl; auto|]. apply wp_fail_if; intros Hin. b2p.
  rd H2 dwarf_u32_spec. apply wp_fail_if; intros He2.
  destruct Hrest as [Hv Hv2]. destruct (Hv2 He) as [_ Hp].
  destruct (entry_step data c c0 c1 v H Hstep Hp He ltac:(lia) Hin ltac:(lia) Hstep0
              ltac:(lia)) as [Hc' Hm].
  pose proof (u64_range (cpos c0 + v)).
  apply wp_if; intros _; [apply IH; auto; lia|].
  apply wp_fail_if; intros Hidx. b2p.
  eapply wp_bind; [apply Hone; [exact H5|apply Hrest0|lia]|].
  intros fde Hfde. apply IH; auto; [lia|rewrite zlen_app; change (zlen [fde]) with 1; lia|].
  apply Forall_app; auto.
Qed.

(** The second pass stores exactly as many entries as the first one counted:
    the test [idx >= nfde] never rejects a section the first pass accepted. *)
Lemma fill_fdes_count cie_id one fuel c len n nfde acc m l :
  count_fdes fuel cie_id c len n = Ret m ->
  fill_fdes fuel cie_id one c len nfde acc = Ret l -> zlen l - zlen acc = m - n.
Proof.
  revert c n acc. induction fuel as [|fuel IH]; intros c n acc Hcnt Hfill; [discriminate|].
  cbn [count_fdes fill_fdes] in *.
  destruct (negb _).
  { destruct (cerr c); [discriminate|]. injection Hcnt as <-. injection Hfill as <-. lia. }
  destruct (dwarf_u32 c) as [[v c1]| | |]; try discriminate.
  unfold mbind, res_bind in *. destruct (cerr c1); [discriminate|].
  destruct (v =? 0xffffffff); [discriminate|]. simpl orb in Hfill.
  destruct (v =? 0).
  { injection Hcnt as <-. injection Hfill as <-. lia. }
  destruct (_ >? len); [discriminate|].
  destruct (dwarf_u32 c1) as [[id c2]| | |]; try discriminate.
  destruct (cerr c2); [discriminate|].
  destruct (_ && _) eqn:Eg; [discriminate|].
  destruct (id =? cie_id); [eapply IH; eauto|].
  destruct (_ >=? _); [discriminate|].
  destruct (one _ _ _ _) as [fde| | |]; try discriminate.
  apply (IH _ _ _ Hcnt) in Hfill. rewrite zlen_app in Hfill.
  change (zlen [fde]) with 1 in Hfill. lia.
Qed.

(** ** The sorted index *)

#[export] Instance fde_le_trans : Transitive fde_le.
Proof. unfold fde_le. intros a b c. lia. Qed.
#[export] Instance fde_le_total : Total fde_le.
Proof. unfold fde_le. intros a b. lia. Qed.

Lemma sort_fdes_perm l : sort_fdes l ≡ₚ l.
Proof. apply merge_sort_Permutation. Qed.

Lemma sort_fdes_sorted l : StronglySorted fde_le (sort_fdes l).
Proof. apply StronglySorted_merge_sort; apply _. Qed.

Lemma sorted_le l i j a b :
  StronglySorted fde_le l -> (i <= j)%nat -> l !! i = Some a -> l !! j = Some b ->
  pc_lo a <= pc_lo b.
Proof.
  intros Hs. revert i j. induction Hs as [|x l Hs IH Hall]; intros i j Hij Hi Hj; [done|].
  destruct i, j; simpl in *; simplify_eq; try lia.
  - rewrite Forall_forall in Hall. apply Hall. apply list_elem_of_lookup. eauto.
  - apply (IH i j); auto. lia.
Qed.

(** ** Binary search *)

(** Index [k] is the last entry with [pc_lo] at most [pc], or the first entry
    when there is none. *)
Definition is_cand (l : list cfi_fde) (pc k : Z) : Prop :=
  0 <= k < zlen l /\
  (forall i f, l !! Z.to_nat i = Some f -> k < i -> pc < pc_lo f) /\
  (k = 0 \/ exists f, l !! Z.to_nat k = Some f /\ pc_lo f <= pc).

Lemma lookup_zlen {A} (l : list A) i : 0 <= i < zlen l -> exists a, l !! Z.to_nat i = Some a.
Proof. intros. apply lookup_lt_is_Some_2. unfold zlen in *. lia. Qed.

Lemma bsearch_spec l pc fuel lo hi :
  StronglySorted fde_le l -> 0 <= lo < hi -> hi <= zlen l -> hi - lo <= Z.of_nat fuel ->
  (forall i f, l !! Z.to_nat i = Some f -> hi <= i -> pc < pc_lo f) ->
  (lo = 0 \/ exists f, l !! Z.to_nat lo = Some f /\ pc_lo f <= pc) ->
  exists k, bsearch fuel l pc lo hi = Ret k /\ is_cand l pc k.
Proof.
  intros Hs. revert lo hi. induction fuel as [|fuel IH]; intros lo hi Hlo Hhi Hf Hup Hdn.
  { lia. }
  cbn [bsearch]. destruct (Z.ltb_spec (lo + 1) hi) as [Hlt|Hge]; simpl negb; cbv iota.
  2:{ exists lo. split; [reflexivity|]. split; [lia|]. split; [|exact Hdn].
      intros i f Hi Hk. apply (Hup i f); auto. lia. }
  set (mid := lo + (hi - lo) / 2).
  assert (Hm : lo < mid < hi).
  { pose proof (Z.mul_div_le (hi - lo) 2). pose proof (Z.mul_succ_div_gt (hi - lo) 2).
    unfold mid. lia. }
  destruct (lookup_zlen l mid) as [f Hfm]; [lia|]. rewrite Hfm.
  destruct (Z.leb_spec (pc_lo f) pc).
  - apply IH; eauto; lia.
  - apply IH; auto; try lia. intros i g Hg Hi.
    pose proof (sorted_le l (Z.to_nat mid) (Z.to_nat i) f g Hs ltac:(lia) Hfm Hg). lia.
Qed.

Lemma cfi_lookup_cand s pc :
  StronglySorted fde_le (fdes s) -> fdes s <> [] ->
  exists k f, is_cand (fdes s) pc k /\ fdes s !! Z.to_nat k = Some f /\
    cfi_lookup s pc =
    Ret (if (pc_lo f <=? pc) && (pc <? pc_hi f) then Some f else None).
Proof.
  intros Hs Hne. unfold cfi_lookup. set (l := fdes s) in *. clearbody l.
  destruct (bsearch_spec l pc (S (length l)) 0 (zlen l)) as (k & Hk & Hc); auto.
  - destruct l as [|f0 l']; [done|]. rewrite zlen_cons. pose proof (zlen_nonneg l'). lia.
  - lia.
  - unfold zlen. lia.
  - intros i f Hi Hge. apply lookup_lt_Some in Hi. unfold zlen in Hge. lia.
  - destruct (lookup_zlen l k) as [f Hf]; [apply Hc|].
    exists k, f. split; [exact Hc|]. split; [exact Hf|]. rewrite Hk.
    destruct l as [|f0 l']; [done|]. unfold mbind, res_bind. rewrite Hf.
    now destruct (_ && _).
Qed.

(** Sections whose index a parser built. *)
Record section_ok (s : cfi_section) : Prop := {
  sk_obj : zlen (sdata s) < 2 ^ 63;
  sk_fdes : Forall (fde_ok (sdata s)) (fdes s);
  sk_sorted : StronglySorted fde_le (fdes s)
}.

Lemma cfi_lookup_safe s pc : section_ok s ->
  exists o, cfi_lookup s pc = Ret o /\
    forall f, o = Some f -> f ∈ fdes s /\ pc_lo f <= pc < pc_hi f.
Proof.
  intros [Ho Hf Hs]. destruct (fdes s) eqn:E.
  - exists None. unfold cfi_lookup. rewrite E. split; [reflexivity|discriminate].
  - destruct (cfi_lookup_cand s pc) as (k & f' & Hc & Hk & ->);
      [now rewrite E|now rewrite E|].
    eexists. split; [reflexivity|]. intros g Hg. destruct (_ && _) eqn:Eb; [|discriminate].
    injection Hg as <-. b2p. split; [|lia]. rewrite <- E. apply list_elem_of_lookup. eauto.
Qed.

Lemma parse_frame_spec malloc_ok cie_id one s :
  section_ok s -> fdes s = [] ->
  (forall ifo id e c, cur_of (sdata s) c -> 0 <= id < 2 ^ 32 -> 0 <= e <= zlen (sdata s) ->
     wp (one ifo id e c) (fde_ok (sdata s))) ->
  exists r s', parse_frame malloc_ok cie_id one s = Ret (r, s') /\ section_ok s' /\
    sdata s' = sdata s /\ (r = 0 \/ (r = -1 /\ fdes s' = [])).
Proof.
  intros Hs He Hone. unfold parse_frame.
  assert (Hi : cur_of (sdata s) (dwarf_cur_init (sdata s) (zlen (sdata s))))
    by (apply init_cur; apply Hs).
  assert (Hf : left_of (dwarf_cur_init (sdata s) (zlen (sdata s)))
               < Z.of_nat (S (length (sdata s)))).
  { unfold left_of, zlen. simpl. lia. }
  destruct (wp_elim _ _ (count_fdes_spec _ cie_id _ _ 0 Hi Hf ltac:(lia)))
    as [(n & -> & Hn) | ->]; [|eauto 10].
  destruct (n =? 0); [eauto 10|]. destruct (negb _); [eauto 10|].
  destruct (wp_elim _ _ (fill_fdes_spec _ cie_id one _ _ n [] Hone Hi Hf Hn (Forall_nil_2 _)))
    as [(l & -> & _ & Hl) | ->]; [|eauto 10].
  exists 0, (set_fdes s (sort_fdes l)). split; [reflexivity|].
  split; [|simpl; auto]. constructor; simpl; [apply Hs| |apply sort_fdes_sorted].
  now rewrite sort_fdes_perm.
Qed.

Lemma empty_section_ok data vaddr own :
  zlen data < 2 ^ 63 -> section_ok (mk_section data [] vaddr own).
Proof. intros. constructor; simpl; auto. constructor. Qed.

Lemma cfi_parse_eh_frame_spec malloc_ok data vaddr :
  zlen data < 2 ^ 63 ->
  exists r s, cfi_parse_eh_frame malloc_ok data vaddr = Ret (r, s) /\ section_ok s /\
    sdata s = data /\ (r = 0 \/ (r = -1 /\ fdes s = [])).
Proof.
  intros H. apply parse_frame_spec; [now apply empty_section_ok|reflexivity|].
  simpl. intros. now apply eh_fde_spec.
Qed.

Lemma cfi_parse_debug_frame_spec malloc_ok data :
  zlen data < 2 ^ 63 ->
  exists r s, cfi_parse_debug_frame malloc_ok data = Ret (r, s) /\ section_ok s /\
    sdata s = data /\ (r = 0 \/ (r = -1 /\ fdes s = [])).
Proof.
  intros H. apply parse_frame_spec; [now apply empty_section_ok|reflexivity|].
  simpl. intros. now apply debug_fde_spec.
Qed.

Lemma cfi_load_elf_spec malloc_ok elf s :
  zlen elf < 2 ^ 63 -> cfi_load_elf malloc_ok elf = Ret s -> section_ok s /\ owned s = true.
Proof.
  intros Hl H. unfold cfi_load_elf in H.
  apply bind_ret in H as ([[[off size] vaddr] is_eh] & _ & H).
  destruct (negb (malloc_ok size)); [discriminate|].
  apply bind_ret in H as (buf & Hb & H).
  assert (Hbuf : zlen buf < 2 ^ 63).
  { unfold memcpy_in in Hb. destruct (_ && _) eqn:E; [|discriminate]. b2p.
    injection Hb as <-. rewrite zlen_slice by lia. lia. }
  apply bind_ret in H as ([r out] & Hp & H). destruct (negb (r =? 0)); [discriminate|].
  injection H as <-.
  assert (Hok : section_ok out).
  { destruct is_eh.
    - destruct (cfi_parse_eh_frame_spec malloc_ok buf vaddr Hbuf) as (r' & s' & E & ? & _).
      rewrite E in Hp. congruence.
    - destruct (cfi_parse_debug_frame_spec malloc_ok buf Hbuf) as (r' & s' & E & ? & _).
      rewrite E in Hp. congruence. }
  split; [|reflexivity]. destruct Hok. constructor; auto.
Qed.

(** ** Properties *)

(** Example sections: a ["zR"] CIE with absolute 4-byte pointers that defines
    the CFA as [sp + 0], and an FDE for [0x1000 .. 0x1040) with augmentation
    length [n] and the given instructions. *)
Definition demo_cie : list byte :=
  le_bytes 4 16 ++ le_bytes 4 0 ++ [x01; x7a; x52; x00] ++ uleb_enc 9 4 ++ sleb_enc 9 (-8) ++
  uleb_enc 9 30 ++ uleb_enc 9 1 ++ [x03] ++ [x0c; x1f; x00].

Definition demo_fde (aug_len : Z) (insns : list byte) : list byte :=
  let body := le_bytes 4 24 ++ le_bytes 4 0x1000 ++ le_bytes 4 0x40 ++
              uleb_enc 9 aug_len ++ insns in
  le_bytes 4 (zlen body) ++ body.

Definition demo_insns : list byte := [x41; x0e; x10; x9e; x01; x9d; x02].
Definition demo_eh : list byte := demo_cie ++ demo_fde 0 demo_insns.

(** C30: on arbitrary section bytes both parsers terminate without leaving the
    section; whatever they report, the table they leave is sorted by start
    address and every entry's instruction range lies inside the section (for
    sections below 4 GiB, the range of its 32-bit offsets); a failed parse
    leaves an empty table. *)
Theorem cfi_parsers_total (malloc_ok : Z -> bool) (data : list byte) (vaddr : Z) :
  zlen data < 2 ^ 32 ->
  let good r s := sdata s = data /\ StronglySorted fde_le (fdes s) /\
    Forall (fun f => 0 <= fde_insn_off f /\ 0 <= fde_insn_len f /\
                     fde_insn_off f + fde_insn_len f <= zlen data) (fdes s) /\
    (r = 0 \/ (r = -1 /\ fdes s = [])) in
  (exists r s, cfi_parse_eh_frame malloc_ok data vaddr = Ret (r, s) /\ good r s) /\
  (exists r s, cfi_parse_debug_frame malloc_ok data = Ret (r, s) /\ good r s).
Proof.
  intros Hl good.
  assert (Hgood : forall r s, section_ok s -> sdata s = data ->
                    (r = 0 \/ (r = -1 /\ fdes s = [])) -> good r s).
  { intros r s [_ Hf Hs] <- Hr. repeat split; auto.
    eapply Forall_impl; [exact Hf|]. intros f []. lia. }
  split.
  - destruct (cfi_parse_eh_frame_spec malloc_ok data vaddr) as (r & s & H & Hs & Hd & Hr); [lia|].
    eauto 10.
  - destruct (cfi_parse_debug_frame_spec malloc_ok data) as (r & s & H & Hs & Hd & Hr); [lia|].
    eauto 10.
Qed.

Lemma cfi_parsers_total_witness :
  exists r s, cfi_parse_eh_frame (fun _ => true) demo_eh 0 = Ret (r, s) /\
    sdata s = demo_eh /\ StronglySorted fde_le (fdes s).
Proof.
  destruct (cfi_parsers_total (fun _ => true) demo_eh 0 ltac:(vm_compute; reflexivity))
    as [(r & s & H1 & H2 & H3 & _) _].
  exists r, s. auto.
Defined.

(** A section the parser accepts has exactly as many table entries as the
    counting pass found, so the second pass never writes past the allocation. *)
Theorem cfi_two_passes_agree (malloc_ok : Z -> bool) (cie_id : Z)
  (one : Z -> Z -> Z -> dwarf_cur -> res cfi_fde) (s s' : cfi_section) :
  fdes s = [] -> parse_frame malloc_ok cie_id one s = Ret (0, s') ->
  count_fdes (S (length (sdata s))) cie_id
    (dwarf_cur_init (sdata s) (zlen (sdata s))) (zlen (sdata s)) 0 = Ret (zlen (fdes s')).
Proof.
  intros He H. unfold parse_frame in H.
  destruct (count_fdes _ _ _ _ _) as [n| | |] eqn:Ec; try discriminate.
  destruct (n =? 0) eqn:En; b2p.
  { injection H as <-. rewrite He. subst n. reflexivity. }
  destruct (negb _); [discriminate|].
  destruct (fill_fdes _ _ _ _ _ _ _) as [l| | |] eqn:Ef; try discriminate.
  injection H as <-. cbn [set_fdes fdes]. unfold zlen.
  rewrite (Permutation_length (sort_fdes_perm l)).
  pose proof (fill_fdes_count _ _ _ _ _ _ _ _ _ _ Ec Ef) as Hn.
  change (zlen (A := cfi_fde) []) with 0 in Hn. unfold zlen in Hn. f_equal. lia.
Qed.

Lemma cfi_two_passes_agree_witness :
  exists s', parse_frame (fun _ => true) 0 (eh_fde demo_eh 0) (mk_section demo_eh [] 0 false)
               = Ret (0, s') /\ zlen (fdes s') = 1 /\
    count_fdes (S (length demo_eh)) 0 (dwarf_cur_init demo_eh (zlen demo_eh))
      (zlen demo_eh) 0 = Ret (zlen (fdes s')).
Proof.
  eexists. split; [vm_compute; reflexivity|]. split; [reflexivity|].
  apply (cfi_two_passes_agree (fun _ => true) 0 (eh_fde demo_eh 0)
           (mk_section demo_eh [] 0 false)); [reflexivity|vm_compute; reflexivity].
Defined.

(** Entry [f] covers [pc]. *)
Definition covers (pc : Z) (f : cfi_fde) : bool := (pc_lo f <=? pc) && (pc <? pc_hi f).

(** No entry starts before an earlier one ends. *)
Definition disjoint_fdes (l : list cfi_fde) : Prop :=
  forall i j a b, (i < j)%nat -> l !! i = Some a -> l !! j = Some b -> pc_hi a <= pc_lo b.

(** On a sorted table without overlaps the binary search is the linear
    search: it returns the entry that covers [pc] when there is one and nothing
    otherwise, and it always terminates inside the table. *)
Theorem cfi_lookup_is_find (s : cfi_section) (pc : Z) :
  StronglySorted fde_le (fdes s) -> disjoint_fdes (fdes s) ->
  cfi_lookup s pc = Ret (find (covers pc) (fdes s)).
Proof.
  intros Hs Hd. destruct (fdes s) as [|f0 l0] eqn:E.
  { unfold cfi_lookup. rewrite E. reflexivity. }
  rewrite <- E in *. assert (Hne : fdes s <> []) by congruence. clear E f0 l0.
  destruct (cfi_lookup_cand s pc Hs Hne) as (k & f & (Hk & Hup & Hdn) & Hf & ->). f_equal.
  assert (Huniq : forall i g, fdes s !! i = Some g -> covers pc g = true -> i = Z.to_nat k).
  { intros i g Hg Hc. unfold covers in Hc. b2p.
    destruct (Nat.lt_trichotomy i (Z.to_nat k)) as [Hlt|[->|Hgt]]; [|reflexivity|].
    - destruct Hdn as [->|(f' & Hf' & Hle)]; [lia|].
      pose proof (Hd _ _ _ _ Hlt Hg Hf'). lia.
    - pose proof (Hup (Z.of_nat i) g). rewrite Nat2Z.id in *. specialize (H1 Hg). lia. }
  fold (covers pc f). destruct (covers pc f) eqn:Ec.
  - destruct (find (covers pc) (fdes s)) as [g|] eqn:Ef.
    + apply find_some in Ef as [Hin Hg]. apply list_elem_of_In, list_elem_of_lookup in Hin as [i Hi].
      rewrite (Huniq i g Hi Hg) in Hi. congruence.
    + apply find_none with (x := f) in Ef; [congruence|].
      apply list_elem_of_In, list_elem_of_lookup. eauto.
  - destruct (find (covers pc) (fdes s)) as [g|] eqn:Ef; [|reflexivity].
    apply find_some in Ef as [Hin Hg]. apply list_elem_of_In, list_elem_of_lookup in Hin as [i Hi].
    rewrite (Huniq i g Hi Hg) in Hi. congruence.
Qed.

Definition demo_table : cfi_section :=
  mk_section [] [mk_fde 0x100 0x140 0 0 0; mk_fde 0x140 0x200 0 0 0; mk_fde 0x300 0x310 0 0 0] 0 false.

Lemma cfi_lookup_is_find_witness :
  cfi_lookup demo_table 0x1ff = Ret (Some (mk_fde 0x140 0x200 0 0 0)) /\
  cfi_lookup demo_table 0x250 = Ret (find (covers 0x250) (fdes demo_table)).
Proof.
  split; [reflexivity|]. apply cfi_lookup_is_find.
  - unfold demo_table; simpl. repeat constructor; unfold fde_le; simpl; lia.
  - intros [|[|[|i]]] [|[|[|j]]] a b Hij Ha Hb; simpl in *; simplify_eq; simpl; lia.
Defined.

(** The augmentation length of an FDE is added modulo [2^64] before it is
    compared with the end of the entry.  The length [2^64 - 46] is accepted,
    although the entry holds no augmentation data at all, and the entry's
    instructions then start at offset 0, the CIE's own header. *)
Theorem cfi_fde_aug_len_wraps :
  exists s, cfi_parse_eh_frame (fun _ => true) (demo_cie ++ demo_fde (2 ^ 64 - 46) []) 0
            = Ret (0, s) /\
    map fde_insn_off (fdes s) = [0] /\
    zlen (demo_fde (2 ^ 64 - 46) []) = 26.
Proof. eexists. vm_compute. auto. Qed.
