(* ===== verification/CfiRun.v ===== *)
(** * CfiRun: the CFI interpreter and the frame step (src/common/cfi_unwind.c)

    [run_program] interprets one CFI instruction program, [cfi_run_program] the
    CIE program followed by the FDE program up to the PC, and [cfi_step] recovers
    the caller frame from the frozen stack window.  The bytes of the section, the
    registers and the stack are untrusted. *)

From stdpp Require Import base list option numbers.
From Stdlib Require Import ZArith Lia.
From S2P Require Import Prelude Elf Dwarf CfiElf CfiParse.

Local Open Scope Z_scope.

(** ** State *)

(** [kind] of a register rule: [CFI_UNDEF], [CFI_SAME], [CFI_AT_CFA]. *)
Inductive rule_kind := CFI_UNDEF | CFI_SAME | CFI_AT_CFA.
#[export] Instance rule_kind_eq_dec : EqDecision rule_kind.
Proof. solve_decision. Defined.

Record cfi_rule := mk_rule { kind : rule_kind; roff : Z }.

Definition CFI_NREG : Z := 31.
Definition CFI_REG_SP : Z := 31.
Definition CFI_REMEMBER_DEPTH : Z := 8.

Record cfi_cfa_state := mk_cfa {
  cfa_reg : Z; cfa_off : Z; cols : list cfi_rule; ra_signed : bool
}.

Definition set_col (st : cfi_cfa_state) (r : Z) (ru : cfi_rule) : cfi_cfa_state :=
  mk_cfa (cfa_reg st) (cfa_off st) (<[Z.to_nat r := ru]> (cols st)) (ra_signed st).
Definition set_cfa (st : cfi_cfa_state) (r o : Z) : cfi_cfa_state :=
  mk_cfa r o (cols st) (ra_signed st).

(** ** The interpreter *)

Section Run.
(** The arguments of [run_program] that do not change during a run; the
    remember stack is a list with its top first, at most
    [CFI_REMEMBER_DEPTH] deep. *)
Context (data_end code_align data_align stop_loc : Z).
Context (initial_cols : option (list cfi_rule)).

(** The outcome of one instruction: return 0 now, or go on. *)
Inductive flow :=
| Stop
| Next (c : dwarf_cur) (loc : Z) (st : cfi_cfa_state) (rs : list cfi_cfa_state).

Definition advance (c : dwarf_cur) (loc d : Z) (st : cfi_cfa_state) (rs : list cfi_cfa_state)
  : flow :=
  let newloc := u64 (loc + u64 (d * code_align)) in
  if newloc >? stop_loc then Stop else Next c newloc st rs.

Definition restore_col (st : cfi_cfa_state) (r : Z) : cfi_cfa_state :=
  match initial_cols with
  | Some ic =>
      if r <? CFI_NREG then
        match ic !! Z.to_nat r with
        | Some ru => set_col st r ru
        | None => st
        end
      else st
  | None => st
  end.

Definition def_col (st : cfi_cfa_state) (r : Z) (ru : cfi_rule) : cfi_cfa_state :=
  if r <? CFI_NREG then set_col st r ru else st.

(** The extended opcodes, [high == 0]. *)
Definition exec_ext (op : Z) (c : dwarf_cur) (loc : Z) (st : cfi_cfa_state)
  (rs : list cfi_cfa_state) : res flow :=
  match op with
  | 0x00 => Ret (Next c loc st rs)
  | 0x02 => '(d, c) ← dwarf_u8 c; fail_if cerr c; Ret (advance c loc d st rs)
  | 0x03 => '(d, c) ← dwarf_u16 c; fail_if cerr c; Ret (advance c loc d st rs)
  | 0x04 => '(d, c) ← dwarf_u32 c; fail_if cerr c; Ret (advance c loc d st rs)
  | 0x05 =>
      '(reg, c) ← dwarf_uleb c;
      '(n, c) ← dwarf_uleb c;
      fail_if cerr c;
      Ret (Next c loc (def_col st reg (mk_rule CFI_AT_CFA (s64 (s64 n * data_align)))) rs)
  | 0x06 =>
      '(reg, c) ← dwarf_uleb c;
      fail_if cerr c;
      Ret (Next c loc (restore_col st reg) rs)
  | 0x07 =>
      '(reg, c) ← dwarf_uleb c;
      fail_if cerr c;
      Ret (Next c loc (def_col st reg (mk_rule CFI_UNDEF 0)) rs)
  | 0x08 =>
      '(reg, c) ← dwarf_uleb c;
      fail_if cerr c;
      Ret (Next c loc (def_col st reg (mk_rule CFI_SAME 0)) rs)
  | 0x09 => Fail
  | 0x0a =>
      fail_if zlen rs >=? CFI_REMEMBER_DEPTH;
      Ret (Next c loc st (st :: rs))
  | 0x0b =>
      match rs with
      | [] => Fail
      | saved :: rs => Ret (Next c loc saved rs)
      end
  | 0x0c =>
      '(reg, c) ← dwarf_uleb c;
      '(off, c) ← dwarf_uleb c;
      fail_if cerr c;
      Ret (Next c loc (set_cfa st (u32 reg) (s64 off)) rs)
  | 0x0d =>
      '(reg, c) ← dwarf_uleb c;
      fail_if cerr c;
      Ret (Next c loc (set_cfa st (u32 reg) (cfa_off st)) rs)
  | 0x0e =>
      '(off, c) ← dwarf_uleb c;
      fail_if cerr c;
      Ret (Next c loc (set_cfa st (cfa_reg st) (s64 off)) rs)
  | 0x2d =>
      Ret (Next c loc (mk_cfa (cfa_reg st) (cfa_off st) (cols st) (negb (ra_signed st))) rs)
  | _ => Fail
  end.

(** One instruction, after its opcode byte. *)
Definition exec_op (op : Z) (c : dwarf_cur) (loc : Z) (st : cfi_cfa_state)
  (rs : list cfi_cfa_state) : res flow :=
  let high := Z.land op 0xc0 in
  let low := Z.land op 0x3f in
  if high =? 0x40 then Ret (advance c loc low st rs)
  else if high =? 0x80 then
    '(n, c) ← dwarf_uleb c;
    fail_if cerr c;
    Ret (Next c loc (def_col st low (mk_rule CFI_AT_CFA (s64 (s64 n * data_align)))) rs)
  else if high =? 0xc0 then Ret (Next c loc (restore_col st low) rs)
  else exec_ext op c loc st rs.

Fixpoint run_loop (fuel : nat) (c : dwarf_cur) (loc : Z) (st : cfi_cfa_state)
  (rs : list cfi_cfa_state) : res (cfi_cfa_state * list cfi_cfa_state) :=
  match fuel with
  | O => NoFuel
  | S fuel =>
      if negb (negb (cerr c) && (cpos c <? data_end)) then (fail_if cerr c; Ret (st, rs)) else
      '(op, c) ← dwarf_u8 c;
      fail_if cerr c;
      f ← exec_op op c loc st rs;
      match f with
      | Stop => Ret (st, rs)
      | Next c loc st rs => run_loop fuel c loc st rs
      end
  end.
End Run.

(** [size_t end = insn_off + insn_len] is a 32-bit sum. *)
Definition run_program (s : cfi_section) (insn_off insn_len code_align data_align
  stop_loc start_loc : Z) (st : cfi_cfa_state) (initial_cols : option (list cfi_rule))
  (rs : list cfi_cfa_state) : res (cfi_cfa_state * list cfi_cfa_state) :=
  let c := set_pos (dwarf_cur_init (sdata s) (zlen (sdata s))) insn_off in
  let data_end := u32 (insn_off + insn_len) in
  run_loop data_end code_align data_align stop_loc initial_cols
    (S (length (sdata s))) c start_loc st rs.

Definition UINT64_MAX : Z := 2 ^ 64 - 1.

(** All columns undefined, except that the return-address register defaults to
    "same value". *)
Definition initial_state (cie : cfi_cie) : cfi_cfa_state :=
  let st := mk_cfa 0 0 (repeat (mk_rule CFI_UNDEF 0) 31) false in
  if ra_reg cie <? CFI_NREG then set_col st (ra_reg cie) (mk_rule CFI_SAME 0) else st.

Definition cfi_run_program (s : cfi_section) (module_pc : Z) : res cfi_cfa_state :=
  o ← cfi_lookup s module_pc;
  match o with
  | None => Fail
  | Some fde =>
      cie ← cfi_read_cie s (cie_off fde);
      '(st, rs) ← run_program s (cie_insn_off cie) (cie_insn_len cie)
                    (code_align cie) (data_align cie) UINT64_MAX 0
                    (initial_state cie) None [];
      '(st, _) ← run_program s (fde_insn_off fde) (fde_insn_len fde)
                   (code_align cie) (data_align cie) module_pc (pc_lo fde)
                   st (Some (cols st)) rs;
      Ret st
  end.

(** ** One unwind step *)

Record frame := mk_frame { xregs : list Z; sp : Z; pc : Z }.

Inductive cfi_stop_reason :=
| CFI_OK | CFI_NO_FDE | CFI_RA_READFAULT | CFI_BAD_CFA_REG
| CFI_RA_UNDEF | CFI_RA_ZERO | CFI_RUN_FAIL.
#[export] Instance cfi_stop_reason_eq_dec : EqDecision cfi_stop_reason.
Proof. solve_decision. Defined.

(** The fields of [struct cfi_step_diag] that [cfi_step] fills. *)
Record cfi_step_diag := mk_diag {
  d_fde : option (Z * Z); d_cfa_reg : Z; d_cfa_off : Z; d_cfa : Z;
  d_ra_kind : rule_kind; d_ra_off : Z; d_ra_slot : Z; d_ra_value : Z;
  d_ra_signed : bool; d_stop : cfi_stop_reason
}.

Definition anubee_pac_strip (ptr : Z) : Z := Z.land ptr 0x0000FFFFFFFFFFFF.

(** The bounds-checked little-endian read from the stack window; [None] is the
    failed bounds check. *)
Definition read64 (stack : list byte) (stack_base addr : Z) : res (option Z) :=
  let stack_len := zlen stack in
  if (addr >=? stack_base) && (stack_len >=? 8) && (addr - stack_base <=? stack_len - 8)
  then
    let i := addr - stack_base in
    b0 ← ld stack i;
    b1 ← ld stack (i + 1);
    b2 ← ld stack (i + 2);
    b3 ← ld stack (i + 3);
    b4 ← ld stack (i + 4);
    b5 ← ld stack (i + 5);
    b6 ← ld stack (i + 6);
    b7 ← ld stack (i + 7);
    Ret (Some (Z.lor (Z.lor (Z.lor (Z.lor (Z.lor (Z.lor (Z.lor b0
      (Z.shiftl b1 8)) (Z.shiftl b2 16)) (Z.shiftl b3 24)) (Z.shiftl b4 32))
      (Z.shiftl b5 40)) (Z.shiftl b6 48)) (Z.shiftl b7 56)))
  else Ret None.

(** The restore loop over the columns, on a copy of the registers. *)
Fixpoint restore_regs (stack : list byte) (stack_base cfa : Z) (cs : list cfi_rule)
  (r : nat) (newx : list Z) : res (list Z) :=
  match cs with
  | [] => Ret newx
  | c :: cs =>
      newx ← match kind c with
             | CFI_AT_CFA =>
                 let slot := u64 (cfa + u64 (roff c)) in
                 v ← read64 stack stack_base slot;
                 match v with
                 | Some v => Ret (<[r := v]> newx)
                 | None => Ret newx
                 end
             | _ => Ret newx
             end;
      restore_regs stack stack_base cfa cs (S r) newx
  end.

(** The end of [cfi_step], from the raw return address [v] on: strip the
    signature, stop on zero, restore the registers and commit. *)
Definition resume (st : cfi_cfa_state) (cfa : Z) (fr : frame) (stack : list byte)
  (stack_base : Z) (diag : Z -> bool -> cfi_stop_reason -> cfi_step_diag) (v : Z)
  : res (bool * frame * cfi_step_diag) :=
  let caller_pc := if ra_signed st then anubee_pac_strip v else v in
  if caller_pc =? 0 then Ret (false, fr, diag 0 (ra_signed st) CFI_RA_ZERO)
  else
    newx ← restore_regs stack stack_base cfa (cols st) 0 (xregs fr);
    Ret (true, mk_frame newx cfa caller_pc, diag caller_pc (ra_signed st) CFI_OK).

(** [cfi_step] with a diagnostic record: the return value ([true] is 1), the
    frame ([x], [*sp], [*pc]) and the record. *)
Definition cfi_step (s : cfi_section) (module_pc : Z) (fr : frame)
  (stack : list byte) (stack_base : Z) : res (bool * frame * cfi_step_diag) :=
  o ← cfi_lookup s module_pc;
  let fde := match o with Some f => Some (pc_lo f, pc_hi f) | None => None end in
  let diag0 := mk_diag fde 0 0 0 CFI_UNDEF 0 0 0 false in
  match cfi_run_program s module_pc with
  | Oob => Oob
  | NoFuel => NoFuel
  | Fail =>
      Ret (false, fr, diag0 (if fde then CFI_RUN_FAIL else CFI_NO_FDE))
  | Ret st =>
      let diag1 := mk_diag fde (cfa_reg st) (cfa_off st) in
      let regval :=
        if cfa_reg st =? CFI_REG_SP then Some (sp fr)
        else if cfa_reg st <? CFI_NREG then xregs fr !! Z.to_nat (cfa_reg st)
        else None in
      match regval with
      | None =>
          if cfa_reg st <? CFI_NREG then Oob
          else Ret (false, fr, diag1 0 CFI_UNDEF 0 0 0 (ra_signed st) CFI_BAD_CFA_REG)
      | Some v =>
          let cfa := u64 (v + u64 (cfa_off st)) in
          match cols st !! 30%nat with
          | None => Oob
          | Some ra_rule =>
              let diag2 := diag1 cfa (kind ra_rule) (roff ra_rule) in
              let slot := u64 (cfa + u64 (roff ra_rule)) in
              ra ← match kind ra_rule with
                   | CFI_AT_CFA =>
                       v ← read64 stack stack_base slot;
                       match v with
                       | Some v => Ret (inl (v, slot))
                       | None => Ret (inr (slot, CFI_RA_READFAULT))
                       end
                   | CFI_SAME =>
                       match xregs fr !! 30%nat with
                       | Some v => Ret (inl (v, 0))
                       | None => Oob
                       end
                   | CFI_UNDEF => Ret (inr (0, CFI_RA_UNDEF))
                   end;
              match ra with
              | inr (slot, why) => Ret (false, fr, diag2 slot 0 (ra_signed st) why)
              | inl (v, slot) => resume st cfa fr stack stack_base (diag2 slot) v
              end
          end
      end
  end.

(** ** Safety of the interpreter *)

(** Thirty-one columns, a 32-bit CFA register and a 64-bit offset. *)
Record state_ok (st : cfi_cfa_state) : Prop := {
  st_cols : length (cols st) = 31%nat;
  st_reg : 0 <= cfa_reg st < 2 ^ 32;
  st_off : - 2 ^ 63 <= cfa_off st < 2 ^ 63
}.

Definition stack_ok (rs : list cfi_cfa_state) : Prop :=
  Forall state_ok rs /\ zlen rs <= CFI_REMEMBER_DEPTH.

Lemma set_col_ok st r ru : state_ok st -> state_ok (set_col st r ru).
Proof. intros []. constructor; simpl; auto. now rewrite length_insert. Qed.

Lemma def_col_ok st r ru : state_ok st -> state_ok (def_col st r ru).
Proof. intros. unfold def_col. destruct (_ <? _); auto using set_col_ok. Qed.

Lemma restore_col_ok ic st r : state_ok st -> state_ok (restore_col ic st r).
Proof.
  intros. unfold restore_col. destruct ic; auto. destruct (_ <? _); auto.
  destruct (_ !! _); auto using set_col_ok.
Qed.

Lemma set_cfa_ok st r o :
  state_ok st -> 0 <= r < 2 ^ 32 -> - 2 ^ 63 <= o < 2 ^ 63 -> state_ok (set_cfa st r o).
Proof. intros []. constructor; auto. Qed.

#[export] Hint Resolve set_col_ok def_col_ok restore_col_ok : cfi.

(** What an instruction leaves: the invariant, and a cursor not moved back. *)
Definition flow_ok (data : list byte) (c : dwarf_cur) (f : flow) : Prop :=
  match f with
  | Stop => True
  | Next c' _ st rs => cur_of data c' /\ cpos c <= cpos c' /\ state_ok st /\ stack_ok rs
  end.

Lemma advance_ok data c0 c ca stop loc d st rs :
  cur_of data c -> cpos c0 <= cpos c -> state_ok st -> stack_ok rs ->
  flow_ok data c0 (advance ca stop c loc d st rs).
Proof. intros. unfold advance. destruct (_ >? _); simpl; auto. Qed.

(** The three shapes of an extended instruction. *)
Section Shapes.
Context (data : list byte) (c : dwarf_cur) (loc : Z) (st : cfi_cfa_state)
        (rs : list cfi_cfa_state).
Context (H : cur_of data c) (Hst : state_ok st) (Hrs : stack_ok rs).

Lemma adv_shape ca stop w (rdr : dwarf_cur -> res (Z * dwarf_cur)) (P : Z -> dwarf_cur -> Prop) :
  wp (rdr c) (fun '(v, c') => step_ok c c' w /\ P v c') ->
  wp ('(d, c) ← rdr c; fail_if cerr c; Ret (advance ca stop c loc d st rs)) (flow_ok data c).
Proof.
  intros Hw. eapply wp_bind; [exact Hw|]. intros [d c1] [Hs _]. cbv beta iota.
  apply wp_fail_if; intros _. apply advance_ok; auto; [eauto using step_cur|apply Hs].
Qed.

Lemma uleb_shape g :
  (forall v, 0 <= v < 2 ^ 64 -> state_ok (g v)) ->
  wp ('(v, c) ← dwarf_uleb c; fail_if cerr c; Ret (Next c loc (g v) rs)) (flow_ok data c).
Proof.
  intros Hg. rd H dwarf_uleb_spec. apply wp_fail_if; intros _.
  split; [assumption|]. split; [apply Hstep|]. auto.
Qed.

Lemma uleb2_shape g :
  (forall v w, 0 <= v < 2 ^ 64 -> state_ok (g v w)) ->
  wp ('(v, c) ← dwarf_uleb c; '(w, c) ← dwarf_uleb c; fail_if cerr c;
      Ret (Next c loc (g v w) rs)) (flow_ok data c).
Proof.
  intros Hg. rd H dwarf_uleb_spec. rd H0 dwarf_uleb_spec. apply wp_fail_if; intros _.
  pose proof (so_mono _ _ _ Hstep). pose proof (so_mono _ _ _ Hstep0).
  split; [assumption|]. split; [lia|]. auto.
Qed.
End Shapes.

Lemma set_cfa_ok' st r o : state_ok st -> state_ok (set_cfa st (u32 r) (s64 o)).
Proof. intros. apply set_cfa_ok; auto using u32_range, s64_range. Qed.
Lemma set_cfa_reg_ok st r : state_ok st -> state_ok (set_cfa st (u32 r) (cfa_off st)).
Proof. intros H. apply set_cfa_ok; auto using u32_range. apply H. Qed.
Lemma set_cfa_off_ok st o : state_ok st -> state_ok (set_cfa st (cfa_reg st) (s64 o)).
Proof. intros H. apply set_cfa_ok; auto using s64_range. apply H. Qed.
#[export] Hint Resolve set_cfa_ok' set_cfa_reg_ok set_cfa_off_ok : cfi.

Lemma exec_ext_spec data da ca stop ic op c loc st rs :
  cur_of data c -> state_ok st -> stack_ok rs ->
  wp (exec_ext ca da stop ic op c loc st rs) (flow_ok data c).
Proof.
  intros H Hst Hrs.
  assert (Hsame : forall st' rs', state_ok st' -> stack_ok rs' ->
    wp (Ret (Next c loc st' rs')) (flow_ok data c)) by (simpl; auto using Z.le_refl).
  unfold exec_ext. destruct op as [|p|p]; [now apply Hsame| |exact I].
  do 6 (try destruct p as [p|p|]); try exact I.
  all: try (eapply adv_shape; [exact H|exact Hst|exact Hrs|];
            first [apply dwarf_u8_spec, H|apply dwarf_u16_spec, H|apply dwarf_u32_spec, H]).
  all: try (apply uleb_shape; auto; intros; auto with cfi; fail).
  all: try (apply uleb2_shape; auto; intros; auto with cfi; fail).
  - destruct rs as [|sv rs]; [exact I|]. destruct Hrs as [Hall Hn].
    apply Forall_cons_1 in Hall as [Hsv Hall]. rewrite zlen_cons in Hn.
    apply Hsame; [exact Hsv|]. split; [exact Hall|lia].
  - apply Hsame; [|exact Hrs]. destruct Hst. constructor; auto.
  - apply wp_fail_if; intros Hd. b2p. apply Hsame; [exact Hst|].
    destruct Hrs as [Hall Hn]. split; [now constructor|]. rewrite zlen_cons. lia.
Qed.

Lemma exec_op_spec data da ca stop ic op c loc st rs :
  cur_of data c -> state_ok st -> stack_ok rs ->
  wp (exec_op ca da stop ic op c loc st rs) (flow_ok data c).
Proof.
  intros H Hst Hrs. unfold exec_op.
  apply wp_if; intros _; [apply advance_ok; auto; lia|].
  apply wp_if; intros _; [apply uleb_shape; auto; intros; auto with cfi|].
  apply wp_if; intros _; [simpl; auto using Z.le_refl with cfi|].
  now apply exec_ext_spec.
Qed.

Lemma run_loop_spec data e da ca stop ic fuel c loc st rs :
  cur_of data c -> left_of c < Z.of_nat fuel -> state_ok st -> stack_ok rs ->
  wp (run_loop e ca da stop ic fuel c loc st rs)
     (fun '(st', rs') => state_ok st' /\ stack_ok rs').
Proof.
  revert c loc st rs. induction fuel as [|fuel IH]; intros c loc st rs H Hf Hst Hrs.
  { unfold left_of in Hf. lia. }
  cbn [run_loop]. apply wp_if; intros Hc.
  { apply wp_fail_if; intros _. split; auto. }
  rd H dwarf_u8_spec. apply wp_fail_if; intros He.
  destruct Hrest as [_ Hv]. destruct (Hv He) as [_ Hp].
  apply so_err in Hstep; [|exact He]. destruct Hstep as [_ Hb].
  eapply wp_bind; [apply exec_op_spec; eassumption|].
  intros [|c2 loc2 st2 rs2]; [simpl; auto|]. intros (H2 & Hm & Hst2 & Hrs2).
  apply IH; auto. unfold left_of in *.
  rewrite (cur_of_len _ _ H2). rewrite (cur_of_len _ _ H) in *. lia.
Qed.

Lemma run_program_spec s off len ca da stop start st ic rs :
  zlen (sdata s) < 2 ^ 63 -> 0 <= off < 2 ^ 32 -> state_ok st -> stack_ok rs ->
  wp (run_program s off len ca da stop start st ic rs)
     (fun '(st', rs') => state_ok st' /\ stack_ok rs').
Proof.
  intros Hl Ho Hst Hrs. apply (run_loop_spec (sdata s)); auto.
  - apply set_pos_cur; [now apply init_cur|lia].
  - unfold left_of, zlen. simpl. lia.
Qed.

Lemma initial_state_ok cie : state_ok (initial_state cie).
Proof.
  unfold initial_state. destruct (_ <? _); [apply set_col_ok|]; constructor; simpl; lia.
Qed.

Lemma cfi_run_program_spec s pc : section_ok s -> wp (cfi_run_program s pc) state_ok.
Proof.
  intros Hs. unfold cfi_run_program.
  destruct (cfi_lookup_safe s pc Hs) as (o & -> & Ho). unfold mbind at 1, res_bind at 1.
  destruct o as [fde|]; [|exact I]. destruct (Ho fde eq_refl) as [Hin _].
  assert (Hf : fde_ok (sdata s) fde).
  { pose proof (sk_fdes _ Hs) as Hall. rewrite Forall_forall in Hall.
    apply Hall. now apply list_elem_of_In. }
  pose proof (sk_obj _ Hs) as Hl.
  eapply wp_bind; [apply parse_cie_spec; [exact Hl|apply Hf]|]. intros cie Hcie.
  eapply wp_bind.
  { apply run_program_spec; [exact Hl|apply Hcie|apply initial_state_ok|].
    split; [constructor|unfold zlen, CFI_REMEMBER_DEPTH; simpl; lia]. }
  intros [st rs] [Hst Hrs]. cbv beta iota.
  eapply wp_bind; [apply run_program_spec; [exact Hl|apply Hf|exact Hst|exact Hrs]|].
  intros [st' rs'] [Hst' _]. exact Hst'.
Qed.

(** ** Safety of the step *)

Lemma read64_spec stack base addr :
  read64 stack base addr =
  Ret (if (addr >=? base) && (zlen stack >=? 8) && (addr - base <=? zlen stack - 8)
       then Some (le_at 8 stack (addr - base)) else None).
Proof.
  unfold read64. destruct (_ && _) eqn:E; [|reflexivity]. b2p.
  rewrite !ld_in by lia. unfold mbind, res_bind. do 2 f_equal.
  set (i := addr - base).
  pose proof (byte_at_range stack i). pose proof (byte_at_range stack (i + 1)).
  pose proof (byte_at_range stack (i + 2)). pose proof (byte_at_range stack (i + 3)).
  pose proof (byte_at_range stack (i + 4)). pose proof (byte_at_range stack (i + 5)).
  pose proof (byte_at_range stack (i + 6)). pose proof (byte_at_range stack (i + 7)).
  rewrite (lor_shiftl_add _ _ 8), (lor_shiftl_add _ _ 16), (lor_shiftl_add _ _ 24),
    (lor_shiftl_add _ _ 32), (lor_shiftl_add _ _ 40), (lor_shiftl_add _ _ 48),
    (lor_shiftl_add _ _ 56) by lia.
  cbn [le_at]. replace (i + 1 + 1) with (i + 2) by lia.
  replace (i + 2 + 1) with (i + 3) by lia. replace (i + 3 + 1) with (i + 4) by lia.
  replace (i + 4 + 1) with (i + 5) by lia. replace (i + 5 + 1) with (i + 6) by lia.
  replace (i + 6 + 1) with (i + 7) by lia. lia.
Qed.

(** The stack slot a rule names, and the value found there. *)
Definition slot_of (cfa : Z) (c : cfi_rule) : Z := u64 (cfa + u64 (roff c)).
Definition in_window (stack : list byte) (base addr : Z) : Prop :=
  base <= addr /\ addr + 8 <= base + zlen stack.

(** What the caller's register [r] is, by its column. *)
Definition caller_reg (stack : list byte) (base cfa : Z) (c : cfi_rule) (old : Z) : Z :=
  match kind c with
  | CFI_AT_CFA =>
      let a := slot_of cfa c in
      if (base <=? a) && (a + 8 <=? base + zlen stack) then le_at 8 stack (a - base) else old
  | _ => old
  end.

Lemma read64_window stack base addr :
  read64 stack base addr =
  Ret (if (base <=? addr) && (addr + 8 <=? base + zlen stack)
       then Some (le_at 8 stack (addr - base)) else None).
Proof.
  rewrite read64_spec. pose proof (zlen_nonneg stack). f_equal.
  rewrite !Z.geb_leb.
  destruct (Z.leb_spec base addr), (Z.leb_spec 8 (zlen stack)),
    (Z.leb_spec (addr - base) (zlen stack - 8)),
    (Z.leb_spec (addr + 8) (base + zlen stack)); simpl; auto; lia.
Qed.

Lemma restore_regs_spec stack base cfa cs r x :
  (r + length cs = length x)%nat ->
  exists y, restore_regs stack base cfa cs r x = Ret y /\ length y = length x /\
    forall i, y !! i =
      match (if decide (r <= i)%nat then cs !! (i - r)%nat else None) with
      | Some c => caller_reg stack base cfa c <$> x !! i
      | None => x !! i
      end.
Proof.
  revert r x. induction cs as [|c cs IH]; intros r x Hlen; simpl.
  - exists x. split; [reflexivity|]. split; [reflexivity|]. intros i.
    destruct (decide _); reflexivity.
  - simpl in Hlen.
    destruct (lookup_lt_is_Some_2 x r) as [v Hv]; [lia|].
    set (x' := <[r := caller_reg stack base cfa c v]> x).
    assert (Hx : (newx ← match kind c with
             | CFI_AT_CFA =>
                 v ← read64 stack base (u64 (cfa + u64 (roff c)));
                 match v with Some v => Ret (<[r := v]> x) | None => Ret x end
             | _ => Ret x end;
             restore_regs stack base cfa cs (S r) newx) =
             restore_regs stack base cfa cs (S r) x').
    { unfold x', caller_reg. destruct (kind c); simpl; try now rewrite list_insert_id.
      rewrite read64_window. fold (slot_of cfa c). simpl.
      destruct (_ && _); simpl; [reflexivity|]. now rewrite list_insert_id. }
    rewrite Hx. destruct (IH (S r) x') as (y & Hy & Hl & Hi).
    { unfold x'. rewrite length_insert. lia. }
    exists y. split; [exact Hy|]. unfold x' in *. rewrite length_insert in Hl.
    split; [exact Hl|]. intros i. rewrite Hi.
    destruct (decide (S r <= i)%nat), (decide (r <= i)%nat); try lia.
    + replace (i - r)%nat with (S (i - S r)) by lia. simpl.
      rewrite list_lookup_insert_ne by lia. reflexivity.
    + replace (i - r)%nat with 0%nat by lia. simpl.
      replace i with r by lia. rewrite list_lookup_insert_eq by lia. now rewrite Hv.
    + rewrite list_lookup_insert_ne by lia. reflexivity.
Qed.

(** ** The step, functionally *)

(** The canonical frame address of a row in a frame. *)
Definition cfa_value (st : cfi_cfa_state) (fr : frame) : option Z :=
  if cfa_reg st =? CFI_REG_SP then Some (u64 (sp fr + u64 (cfa_off st)))
  else (fun v => u64 (v + u64 (cfa_off st))) <$> xregs fr !! Z.to_nat (cfa_reg st).

(** The return address of a row before the zero test: the LR column, stripped
    of its pointer-authentication bits when the row marks it signed. *)
Definition return_address (st : cfi_cfa_state) (fr : frame) (stack : list byte)
  (base cfa : Z) : option Z :=
  ra ← cols st !! 30%nat;
  v ← match kind ra with
      | CFI_AT_CFA =>
          let a := slot_of cfa ra in
          if (base <=? a) && (a + 8 <=? base + zlen stack)
          then Some (le_at 8 stack (a - base)) else None
      | CFI_SAME => xregs fr !! 30%nat
      | CFI_UNDEF => None
      end;
  Some (if ra_signed st then v mod 2 ^ 48 else v).

Lemma pac_strip_mod v : anubee_pac_strip v = v mod 2 ^ 48.
Proof. unfold anubee_pac_strip. apply (Z.land_ones v 48). lia. Qed.

(** A successful step relates the two frames as the row prescribes. *)
Record stepped (s : cfi_section) (mpc : Z) (fr fr' : frame) (stack : list byte) (base : Z)
  (d : cfi_step_diag) : Prop := {
  sd_row : exists st, cfi_run_program s mpc = Ret st /\
    cfa_value st fr = Some (sp fr') /\
    return_address st fr stack base (sp fr') = Some (pc fr') /\
    (forall i, xregs fr' !! i =
       match cols st !! i with
       | Some c => caller_reg stack base (sp fr') c <$> xregs fr !! i
       | None => xregs fr !! i
       end);
  sd_pc : pc fr' <> 0;
  sd_len : length (xregs fr') = 31%nat;
  sd_diag : d_stop d = CFI_OK /\ d_cfa d = sp fr' /\ d_ra_value d = pc fr'
}.

(** What each stop reason of the diagnostic means. *)
Definition stop_because (s : cfi_section) (mpc : Z) (fr : frame) (stack : list byte) (base : Z)
  (why : cfi_stop_reason) : Prop :=
  match why with
  | CFI_OK => False
  | CFI_NO_FDE => cfi_lookup s mpc = Ret None
  | CFI_RUN_FAIL =>
      (exists f, cfi_lookup s mpc = Ret (Some f)) /\ cfi_run_program s mpc = Fail
  | CFI_BAD_CFA_REG =>
      exists st, cfi_run_program s mpc = Ret st /\ cfa_value st fr = None
  | CFI_RA_UNDEF =>
      exists st ra, cfi_run_program s mpc = Ret st /\ cols st !! 30%nat = Some ra /\
        kind ra = CFI_UNDEF
  | CFI_RA_READFAULT =>
      exists st ra cfa, cfi_run_program s mpc = Ret st /\ cols st !! 30%nat = Some ra /\
        kind ra = CFI_AT_CFA /\ cfa_value st fr = Some cfa /\
        ~ in_window stack base (slot_of cfa ra)
  | CFI_RA_ZERO =>
      exists st cfa, cfi_run_program s mpc = Ret st /\ cfa_value st fr = Some cfa /\
        return_address st fr stack base cfa = Some 0
  end.

(** What a finished step returns: a committed caller frame, or the frame as it
    was and the reason. *)
Definition step_result (s : cfi_section) (mpc : Z) (fr : frame) (stack : list byte) (base : Z)
  (r : res (bool * frame * cfi_step_diag)) : Prop :=
  exists b fr' d, r = Ret (b, fr', d) /\
    (if b : bool then stepped s mpc fr fr' stack base d
     else fr' = fr /\ stop_because s mpc fr stack base (d_stop d)).

Lemma stop_result s mpc fr stack base d :
  stop_because s mpc fr stack base (d_stop d) -> step_result s mpc fr stack base (Ret (false, fr, d)).
Proof. intros. exists false, fr, d. auto. Qed.

Lemma resume_result s mpc fr stack base st cfa v fde slot k o :
  cfi_run_program s mpc = Ret st -> state_ok st -> length (xregs fr) = 31%nat ->
  cfa_value st fr = Some cfa ->
  return_address st fr stack base cfa = Some (if ra_signed st then v mod 2 ^ 48 else v) ->
  step_result s mpc fr stack base
    (resume st cfa fr stack base (mk_diag fde (cfa_reg st) (cfa_off st) cfa k o slot) v).
Proof.
  intros Hrun Hst Hx Hcfa Hra. unfold resume. cbv zeta. rewrite pac_strip_mod.
  destruct (_ =? 0) eqn:Ez; b2p.
  { apply stop_result. exists st, cfa. rewrite Hra, Ez. auto. }
  destruct (restore_regs_spec stack base cfa (cols st) 0 (xregs fr)) as (y & -> & Hl & Hy).
  { rewrite (st_cols _ Hst), Hx. lia. }
  do 3 eexists. split; [reflexivity|]. constructor; simpl; auto; [|lia].
  exists st. repeat split; auto. intros i. rewrite Hy, decide_True, Nat.sub_0_r by lia.
  reflexivity.
Qed.

Lemma cfa_value_some st fr v :
  (if cfa_reg st =? CFI_REG_SP then Some (sp fr)
   else if cfa_reg st <? CFI_NREG then xregs fr !! Z.to_nat (cfa_reg st) else None) = Some v ->
  cfa_value st fr = Some (u64 (v + u64 (cfa_off st))).
Proof.
  unfold cfa_value. destruct (_ =? _); [now intros [= ->]|].
  destruct (_ <? _); [|discriminate]. now intros ->.
Qed.

Lemma cfa_value_none st fr :
  state_ok st -> length (xregs fr) = 31%nat ->
  (if cfa_reg st =? CFI_REG_SP then Some (sp fr)
   else if cfa_reg st <? CFI_NREG then xregs fr !! Z.to_nat (cfa_reg st) else None) = None ->
  (cfa_reg st <? CFI_NREG) = false /\ cfa_value st fr = None.
Proof.
  intros Hst Hx. unfold cfa_value. pose proof (st_reg _ Hst). unfold CFI_NREG, CFI_REG_SP in *.
  destruct (_ =? 31); [discriminate|]. destruct (cfa_reg st <? 31) eqn:El; b2p; intros He.
  - apply lookup_ge_None in He. lia.
  - split; [reflexivity|]. rewrite (proj2 (lookup_ge_None _ _)); [reflexivity|lia].
Qed.

Lemma cfi_step_total s mpc fr stack base :
  section_ok s -> length (xregs fr) = 31%nat ->
  step_result s mpc fr stack base (cfi_step s mpc fr stack base).
Proof.
  intros Hs Hx. unfold cfi_step.
  destruct (cfi_lookup_safe s mpc Hs) as (o & Ho & _). rewrite Ho.
  unfold mbind at 1, res_bind at 1.
  set (fde := match o with Some f => _ | None => None end).
  destruct (wp_elim _ _ (cfi_run_program_spec s mpc Hs)) as [(st & Hrun & Hst) | Hrun];
    rewrite Hrun.
  2:{ apply stop_result. unfold fde. destruct o; simpl; eauto. }
  destruct (if cfa_reg st =? CFI_REG_SP then _ else _) as [v|] eqn:Ereg.
  2:{ destruct (cfa_value_none st fr Hst Hx Ereg) as [-> Hn].
      apply stop_result. simpl. eauto. }
  apply cfa_value_some in Ereg. set (cfa := u64 (v + u64 (cfa_off st))) in *.
  destruct (lookup_lt_is_Some_2 (cols st) 30) as [ra Hra]; [rewrite (st_cols _ Hst); lia|].
  destruct (lookup_lt_is_Some_2 (xregs fr) 30) as [lr Hlr]; [rewrite Hx; lia|].
  rewrite Hra. cbv zeta.
  destruct (kind ra) eqn:Ek.
  - apply stop_result. simpl. eauto 10.
  - rewrite Hlr. apply resume_result; auto.
    unfold return_address. rewrite Hra. simpl. now rewrite Ek, Hlr.
  - rewrite read64_window. fold (slot_of cfa ra).
    destruct (_ && _) eqn:Ew.
    + apply resume_result; auto.
      unfold return_address. rewrite Hra. simpl. now rewrite Ek, Ew.
    + apply stop_result. exists st, ra, cfa. repeat split; auto. intros [H1 H2].
      apply andb_false_iff in Ew as [Ew|Ew]; b2p; lia.
Qed.

(** ** Instruction programs

    The abstract view of a CFI program: a list of instructions with a
    structural semantics on rows, against which the byte-level interpreter is
    proved. *)

Inductive adv_form := A6 | A1 | A2 | A4.

Inductive insn :=
| I_nop
| I_advance (f : adv_form) (d : Z)
| I_offset (r n : Z)
| I_offset_extended (r n : Z)
| I_restore (r : Z)
| I_restore_extended (r : Z)
| I_undefined (r : Z)
| I_same_value (r : Z)
| I_remember_state
| I_restore_state
| I_def_cfa (r o : Z)
| I_def_cfa_register (r : Z)
| I_def_cfa_offset (o : Z)
| I_negate_ra_state.

Definition op_byte (i : insn) : byte :=
  match i with
  | I_nop => x00
  | I_advance A6 d => zb (0x40 + d)
  | I_advance A1 _ => x02
  | I_advance A2 _ => x03
  | I_advance A4 _ => x04
  | I_offset r _ => zb (0x80 + r)
  | I_offset_extended _ _ => x05
  | I_restore r => zb (0xc0 + r)
  | I_restore_extended _ => x06
  | I_undefined _ => x07
  | I_same_value _ => x08
  | I_remember_state => x0a
  | I_restore_state => x0b
  | I_def_cfa _ _ => x0c
  | I_def_cfa_register _ => x0d
  | I_def_cfa_offset _ => x0e
  | I_negate_ra_state => x2d
  end.

Definition operands (i : insn) : list byte :=
  match i with
  | I_advance A1 d => [zb d]
  | I_advance A2 d => le_bytes 2 d
  | I_advance A4 d => le_bytes 4 d
  | I_offset _ n => uleb_enc 9 n
  | I_offset_extended r n | I_def_cfa r n => uleb_enc 9 r ++ uleb_enc 9 n
  | I_restore_extended r | I_undefined r | I_same_value r
  | I_def_cfa_register r | I_def_cfa_offset r => uleb_enc 9 r
  | _ => []
  end.

Definition enc_insn (i : insn) : list byte := op_byte i :: operands i.

Definition enc_prog (p : list insn) : list byte := concat (map enc_insn p).

Definition adv_bound (f : adv_form) : Z :=
  match f with A6 => 64 | A1 => 2 ^ 8 | A2 => 2 ^ 16 | A4 => 2 ^ 32 end.

(** Operands in the ranges of their encodings. *)
Definition insn_ok (i : insn) : Prop :=
  match i with
  | I_advance f d => 0 <= d < adv_bound f
  | I_offset r n => 0 <= r < 64 /\ in_u 64 n
  | I_offset_extended r n | I_def_cfa r n => in_u 64 r /\ in_u 64 n
  | I_restore r => 0 <= r < 64
  | I_restore_extended r | I_undefined r | I_same_value r
  | I_def_cfa_register r | I_def_cfa_offset r => in_u 64 r
  | _ => True
  end.

Section Rows.
Context (code_align data_align stop_loc : Z) (initial_cols : option (list cfi_rule)).

(** A row of the unwind table under construction: the current location, the
    rules, and the remembered rules. *)
Record row := mk_row { r_loc : Z; r_st : cfi_cfa_state; r_saved : list cfi_cfa_state }.

Inductive row_out := Row_done | Row_bad | Row_next (r : row).

Definition with_col (r : row) (reg : Z) (ru : cfi_rule) : row :=
  let st := r_st r in
  mk_row (r_loc r)
    (if reg <? 31 then
       mk_cfa (cfa_reg st) (cfa_off st) (<[Z.to_nat reg := ru]> (cols st)) (ra_signed st)
     else st)
    (r_saved r).

Definition with_cfa (r : row) (reg off : Z) : row :=
  let st := r_st r in mk_row (r_loc r) (mk_cfa reg off (cols st) (ra_signed st)) (r_saved r).

Definition initial_rule (reg : Z) : option cfi_rule :=
  ic ← initial_cols; ic !! Z.to_nat reg.

Definition row_step (i : insn) (r : row) : row_out :=
  let st := r_st r in
  match i with
  | I_nop => Row_next r
  | I_advance _ d =>
      let loc := (r_loc r + (d * code_align) mod 2 ^ 64) mod 2 ^ 64 in
      if stop_loc <? loc then Row_done else Row_next (mk_row loc st (r_saved r))
  | I_offset reg n | I_offset_extended reg n =>
      Row_next (with_col r reg (mk_rule CFI_AT_CFA (s64 (s64 n * data_align))))
  | I_restore reg | I_restore_extended reg =>
      Row_next (match initial_rule reg with Some ru => with_col r reg ru | None => r end)
  | I_undefined reg => Row_next (with_col r reg (mk_rule CFI_UNDEF 0))
  | I_same_value reg => Row_next (with_col r reg (mk_rule CFI_SAME 0))
  | I_remember_state =>
      if 8 <=? zlen (r_saved r) then Row_bad
      else Row_next (mk_row (r_loc r) st (st :: r_saved r))
  | I_restore_state =>
      match r_saved r with
      | [] => Row_bad
      | saved :: rest => Row_next (mk_row (r_loc r) saved rest)
      end
  | I_def_cfa reg off => Row_next (with_cfa r (reg mod 2 ^ 32) (s64 off))
  | I_def_cfa_register reg => Row_next (with_cfa r (reg mod 2 ^ 32) (cfa_off st))
  | I_def_cfa_offset off => Row_next (with_cfa r (cfa_reg st) (s64 off))
  | I_negate_ra_state =>
      Row_next (mk_row (r_loc r)
        (mk_cfa (cfa_reg st) (cfa_off st) (cols st) (negb (ra_signed st))) (r_saved r))
  end.

(** The row in force at [stop_loc]. *)
Fixpoint row_run (p : list insn) (r : row) : option row :=
  match p with
  | [] => Some r
  | i :: p =>
      match row_step i r with
      | Row_done => Some r
      | Row_bad => None
      | Row_next r => row_run p r
      end
  end.
End Rows.

(** ** The interpreter implements the row semantics *)

Lemma op_split k d :
  0 <= d < 64 -> k = 0x40 \/ k = 0x80 \/ k = 0xc0 ->
  Z.land (bz (zb (k + d))) 0xc0 = k /\ Z.land (bz (zb (k + d))) 0x3f = d.
Proof.
  intros Hd Hk. rewrite bz_zb_small by lia.
  pose proof (check_bytes (fun d => (64 <=? d) ||
    forallb (fun k => (Z.land (k + d) 0xc0 =? k) && (Z.land (k + d) 0x3f =? d))
      [0x40; 0x80; 0xc0]) eq_refl d ltac:(lia)) as H. cbv beta in H.
  rewrite (proj2 (Z.leb_gt 64 d)) in H by lia. simpl in H. b2p.
  destruct Hk as [-> | [-> | ->]]; auto.
Qed.

Definition flow_of (c : dwarf_cur) (o : row_out) : res flow :=
  match o with
  | Row_done => Ret Stop
  | Row_bad => Fail
  | Row_next r => Ret (Next c (r_loc r) (r_st r) (r_saved r))
  end.

Lemma def_col_with r reg ru :
  def_col (r_st r) reg ru = r_st (with_col r reg ru).
Proof. unfold def_col, with_col, set_col, CFI_NREG. simpl. now destruct (_ <? _). Qed.

Lemma adv_adv c a b : adv (adv c a) b = adv c (a + b).
Proof. unfold adv, set_pos. simpl. f_equal. lia. Qed.

Lemma restore_col_with ic r reg :
  restore_col ic (r_st r) reg =
  r_st (match initial_rule ic reg with Some ru => with_col r reg ru | None => r end).
Proof.
  unfold restore_col, initial_rule. destruct ic as [ic|]; [simpl|reflexivity].
  destruct (ic !! Z.to_nat reg) as [ru|] eqn:E; [|now destruct (_ <? _)].
  unfold with_col, set_col, CFI_NREG. simpl. now destruct (_ <? _).
Qed.

Lemma exec_op_ext ca da stop ic op c loc st rs :
  Z.land op 0xc0 = 0 -> exec_op ca da stop ic op c loc st rs = exec_ext ca da stop ic op c loc st rs.
Proof. intros H. unfold exec_op. now rewrite H. Qed.

(** Evaluate the dispatch on a known extended opcode. *)
Ltac dispatch :=
  rewrite exec_op_ext by reflexivity;
  match goal with
  | |- exec_ext _ _ _ _ ?op _ _ _ _ = _ =>
      let v := eval vm_compute in op in change op with v
  end;
  unfold exec_ext; cbv iota.

Lemma adv_nil c : adv c (zlen (A := byte) []) = c.
Proof. destruct c. unfold adv, set_pos, zlen. simpl. f_equal. lia. Qed.

Lemma advance_row ca da stop ic c loc f d st rs :
  Ret (advance ca stop c loc d st rs) =
  flow_of c (row_step ca da stop ic (I_advance f d) (mk_row loc st rs)).
Proof.
  unfold advance, row_step, u64. cbn [r_loc r_st r_saved]. rewrite Z.gtb_ltb.
  now destruct (_ <? _).
Qed.

Lemma run_uleb c v rest loc rs (g : Z -> cfi_cfa_state) :
  at_bytes c (uleb_enc 9 v ++ rest) -> in_u 64 v ->
  ('(v, c) ← dwarf_uleb c; fail_if cerr c; Ret (Next c loc (g v) rs)) =
  Ret (Next (adv c (zlen (uleb_enc 9 v))) loc (g v) rs).
Proof.
  intros Hc Hv. rewrite (at_uleb _ _ _ Hc Hv). apply at_next in Hc.
  unfold mbind, res_bind. now rewrite (at_err _ _ Hc).
Qed.

Lemma run_uleb2 c v w rest loc rs (g : Z -> Z -> cfi_cfa_state) :
  at_bytes c ((uleb_enc 9 v ++ uleb_enc 9 w) ++ rest) -> in_u 64 v /\ in_u 64 w ->
  ('(v, c) ← dwarf_uleb c; '(w, c) ← dwarf_uleb c; fail_if cerr c;
   Ret (Next c loc (g v w) rs)) =
  Ret (Next (adv c (zlen (uleb_enc 9 v ++ uleb_enc 9 w))) loc (g v w) rs).
Proof.
  rewrite <- app_assoc. intros Hc [Hv Hw]. rewrite (at_uleb _ _ _ Hc Hv). apply at_next in Hc.
  unfold mbind at 1, res_bind at 1. rewrite (run_uleb _ _ _ _ _ (g v) Hc Hw).
  now rewrite adv_adv, zlen_app.
Qed.

Lemma exec_insn ca da stop ic i c loc st rs rest :
  insn_ok i -> at_bytes c (enc_insn i ++ rest) ->
  exists op,
    dwarf_u8 c = Ret (op, adv c 1) /\
    exec_op ca da stop ic op (adv c 1) loc st rs =
    flow_of (adv c (zlen (enc_insn i))) (row_step ca da stop ic i (mk_row loc st rs)).
Proof.
  intros Hi Hc. exists (bz (op_byte i)). unfold enc_insn in *.
  change ((op_byte i :: operands i) ++ rest) with (op_byte i :: operands i ++ rest) in Hc.
  split; [eapply at_u8, Hc|]. apply at_tail in Hc as Hc1.
  rewrite zlen_cons, <- (adv_adv c 1).
  destruct i as [|[] d|r n|r n|r|r|r|r| | |r o|r|o|];
    cbn [op_byte operands insn_ok adv_bound] in *.
  all: rewrite ?adv_nil; try (dispatch; reflexivity).
  - destruct (op_split 0x40 d) as [Hh Hl]; auto. unfold exec_op. rewrite Hh, Hl.
    apply advance_row.
  - dispatch. rewrite (at_u8 _ _ _ Hc1). apply at_tail in Hc1.
    unfold mbind, res_bind. rewrite (at_err _ _ Hc1), bz_zb_small by (simpl in Hi; lia).
    apply advance_row.
  - dispatch. rewrite (at_u16 _ _ _ Hc1). apply at_next in Hc1. change (zlen _) with 2 in Hc1.
    unfold mbind, res_bind. rewrite (at_err _ _ Hc1), u16_small by (simpl in Hi; lia).
    apply advance_row.
  - dispatch. rewrite (at_u32 _ _ _ Hc1). apply at_next in Hc1. change (zlen _) with 4 in Hc1.
    unfold mbind, res_bind. rewrite (at_err _ _ Hc1), u32_small by (simpl in Hi; lia).
    apply advance_row.
  - destruct Hi as [Hr Hn]. destruct (op_split 0x80 r) as [Hh Hl]; auto.
    unfold exec_op. rewrite Hh, Hl. cbn [Z.eqb Pos.eqb].
    rewrite (run_uleb _ n rest _ _ (fun n => def_col st r _) Hc1 Hn).
    now rewrite (def_col_with (mk_row loc st rs)).
  - dispatch. rewrite (run_uleb2 _ r n rest _ _ (fun r n => def_col st r _) Hc1 Hi).
    now rewrite (def_col_with (mk_row loc st rs)).
  - destruct (op_split 0xc0 r) as [Hh Hl]; auto.
    unfold exec_op. rewrite Hh, Hl. cbn [Z.eqb Pos.eqb].
    rewrite (restore_col_with ic (mk_row loc st rs)). cbn [row_step flow_of].
    now destruct (initial_rule _ _).
  - dispatch. rewrite (run_uleb _ r rest _ _ (fun r => restore_col ic st r) Hc1 Hi).
    rewrite (restore_col_with ic (mk_row loc st rs)). cbn [row_step flow_of].
    now destruct (initial_rule _ _).
  - dispatch. rewrite (run_uleb _ r rest _ _ (fun r => def_col st r _) Hc1 Hi).
    now rewrite (def_col_with (mk_row loc st rs)).
  - dispatch. rewrite (run_uleb _ r rest _ _ (fun r => def_col st r _) Hc1 Hi).
    now rewrite (def_col_with (mk_row loc st rs)).
  - dispatch. unfold row_step, CFI_REMEMBER_DEPTH. simpl. rewrite Z.geb_leb.
    now destruct (_ <=? _).
  - dispatch. unfold row_step. simpl. now destruct rs.
  - dispatch. now rewrite (run_uleb2 _ r o rest _ _ (fun r o => set_cfa st _ _) Hc1 Hi).
  - dispatch. now rewrite (run_uleb _ r rest _ _ (fun r => set_cfa st _ _) Hc1 Hi).
  - dispatch. now rewrite (run_uleb _ o rest _ _ (fun o => set_cfa st _ _) Hc1 Hi).
Qed.

Lemma run_loop_prog e ca da stop ic p fuel c r rest :
  Forall insn_ok p -> at_bytes c (enc_prog p ++ rest) -> e = cpos c + zlen (enc_prog p) ->
  (length p < fuel)%nat ->
  run_loop e ca da stop ic fuel c (r_loc r) (r_st r) (r_saved r) =
  match row_run ca da stop ic p r with
  | Some r => Ret (r_st r, r_saved r)
  | None => Fail
  end.
Proof.
  revert fuel c r. induction p as [|i p IH]; intros fuel c r Hok Hc He Hf;
    (destruct fuel as [|fuel]; [simpl in Hf; lia|]); cbn [run_loop].
  - change (zlen (enc_prog [])) with 0 in He. rewrite (at_err _ _ Hc).
    rewrite (proj2 (Z.ltb_ge (cpos c) e)) by lia. reflexivity.
  - apply Forall_cons_1 in Hok as [Hi Hok].
    change (enc_prog (i :: p)) with (enc_insn i ++ enc_prog p) in *.
    rewrite <- app_assoc in Hc. rewrite zlen_app in He.
    assert (Hpos : 0 < zlen (enc_insn i)).
    { unfold enc_insn. rewrite zlen_cons. pose proof (zlen_nonneg (operands i)). lia. }
    pose proof (zlen_nonneg (enc_prog p)).
    rewrite (at_err _ _ Hc), (proj2 (Z.ltb_lt (cpos c) e)) by lia. simpl negb. cbv iota.
    destruct (exec_insn ca da stop ic i c (r_loc r) (r_st r) (r_saved r) _ Hi Hc)
      as (op & Hop & Hex).
    rewrite Hop. unfold mbind, res_bind.
    replace (cerr (adv c 1)) with false by (symmetry; exact (at_err _ _ Hc)).
    rewrite Hex. destruct r as [loc st rs]. cbn [row_run r_loc r_st r_saved].
    destruct (row_step _ _ _ _ i _) as [| |r']; simpl flow_of; cbv iota; auto.
    apply IH; auto; [now apply at_next|simpl; lia|simpl in Hf; lia].
Qed.

(** ** Properties *)

(** C2: the byte-level interpreter implements the row semantics.  For every
    program of instructions with operands in range, wherever it sits in a
    section below 4 GiB, [run_program] over its encoding returns exactly the
    rules (and remembered rules) of the row in force at [stop_loc], and fails
    exactly when the program is malformed (a restore without a remember, or a
    ninth nested remember). *)
Theorem run_program_refines_rows (pre post : list byte) (p : list insn)
  (fd : list cfi_fde) (va : Z) (ow : bool) (ca da stop : Z)
  (ic : option (list cfi_rule)) (r : row) :
  Forall insn_ok p -> zlen (pre ++ enc_prog p ++ post) < 2 ^ 32 ->
  run_program (mk_section (pre ++ enc_prog p ++ post) fd va ow)
    (zlen pre) (zlen (enc_prog p)) ca da stop (r_loc r) (r_st r) ic (r_saved r) =
  match row_run ca da stop ic p r with
  | Some r' => Ret (r_st r', r_saved r')
  | None => Fail
  end.
Proof.
  intros Hok Hl. unfold run_program. cbn [sdata]. set (data := pre ++ enc_prog p ++ post) in *.
  assert (Hc : at_bytes (set_pos (dwarf_cur_init data (zlen data)) (zlen pre)) (enc_prog p ++ post)).
  { assert (zlen pre <= zlen data).
    { unfold data. rewrite zlen_app. pose proof (zlen_nonneg (enc_prog p ++ post)). lia. }
    pose proof (zlen_nonneg pre).
    split; [apply set_pos_wf; [apply init_wf|]; lia|]. split; [reflexivity|].
    exists pre, []. rewrite app_nil_r. auto. }
  apply run_loop_prog with (rest := post); auto.
  - simpl. apply u32_small. unfold data in Hl. rewrite !zlen_app in Hl.
    pose proof (zlen_nonneg pre). pose proof (zlen_nonneg (enc_prog p)).
    pose proof (zlen_nonneg post). lia.
  - apply at_bytes_fuel in Hc. simpl in Hc. rewrite length_app in Hc.
    assert (length p <= length (enc_prog p))%nat; [|lia]. clear. induction p as [|i p IH]; [simpl; lia|].
    change (enc_prog (i :: p)) with (enc_insn i ++ enc_prog p). rewrite length_app. simpl. lia.
Qed.

Definition demo_row : row :=
  mk_row 0x1000 (mk_cfa 31 0 (repeat (mk_rule CFI_UNDEF 0) 31) false) [].

Lemma run_program_refines_rows_witness :
  let p := [I_advance A6 1; I_def_cfa_offset 16; I_offset 30 1; I_offset 29 2] in
  run_program (mk_section ([x00] ++ enc_prog p ++ []) [] 0 false) (zlen [x00]) (zlen (enc_prog p))
    4 (-8) 0x1004 (r_loc demo_row) (r_st demo_row) None (r_saved demo_row) =
  Ret (mk_cfa 31 16 (<[29%nat := mk_rule CFI_AT_CFA (-16)]>
         (<[30%nat := mk_rule CFI_AT_CFA (-8)]> (repeat (mk_rule CFI_UNDEF 0) 31))) false, []).
Proof.
  intros p. rewrite (run_program_refines_rows [x00] [] p [] 0 false 4 (-8) 0x1004 None demo_row).
  - reflexivity.
  - unfold p, insn_ok, in_u, adv_bound. repeat constructor; lia.
  - vm_compute. reflexivity.
Defined.

(** C1: a step over a parsed section never reads outside the stack window and
    always terminates, for any registers and any stack.  When it returns 1 the
    new frame is the caller the CFI row describes: the CFA becomes the stack
    pointer, each column saved at an offset of the CFA that is inside the window
    is reloaded and every other register is kept, and the return address, with
    its signature stripped when the row says it is signed, is non-zero.  When it
    returns 0 the frame is unchanged and the stop reason of the diagnostic is the
    condition that holds. *)
Theorem cfi_step_recovers_caller (malloc_ok : Z -> bool) (elf : list byte) (s : cfi_section)
  (mpc : Z) (fr : frame) (stack : list byte) (base : Z) :
  zlen elf < 2 ^ 63 -> cfi_load_elf malloc_ok elf = Ret s -> length (xregs fr) = 31%nat ->
  exists b fr' d, cfi_step s mpc fr stack base = Ret (b, fr', d) /\
    (if b : bool then stepped s mpc fr fr' stack base d
     else fr' = fr /\ stop_because s mpc fr stack base (d_stop d)).
Proof.
  intros Hl Hload Hx. apply cfi_load_elf_spec in Hload as [Hs _]; [|exact Hl].
  exact (cfi_step_total s mpc fr stack base Hs Hx).
Qed.

(** An image with two section headers: the string table and an [.eh_frame]
    whose bytes are [demo_eh]. *)
Definition demo_image : list byte :=
  (take 60 (demo_ehdr 118) ++ le_bytes 2 2 ++ le_bytes 2 0) ++ eh_frame_name ++ demo_eh ++
  shdr_bytes (mk_shdr 10 3 0 0 64 10 0 0 1 0) ++
  shdr_bytes (mk_shdr 0 1 0 0 74 44 0 0 8 0).

Definition demo_frame : frame := mk_frame (repeat 7 31) 0x7000 0x1004.
Definition demo_stack : list byte := le_bytes 8 0x11 ++ le_bytes 8 0x2000.

Definition demo_section : cfi_section :=
  mk_section demo_eh [mk_fde 0x1000 0x1040 0 37 7] 0 true.

Lemma cfi_step_recovers_caller_witness :
  cfi_load_elf (fun _ => true) demo_image = Ret demo_section /\
  (exists d, cfi_step demo_section 0x1004 demo_frame demo_stack 0x7000 =
     Ret (true, mk_frame (repeat 7 29 ++ [0x11; 0x2000]) 0x7010 0x2000, d)) /\
  exists b fr' d, cfi_step demo_section 0x1004 demo_frame demo_stack 0x7000 = Ret (b, fr', d) /\
    (if b : bool then stepped demo_section 0x1004 demo_frame fr' demo_stack 0x7000 d
     else fr' = demo_frame /\
       stop_because demo_section 0x1004 demo_frame demo_stack 0x7000 (d_stop d)).
Proof.
  split; [vm_compute; reflexivity|]. split; [eexists; vm_compute; reflexivity|].
  apply (cfi_step_recovers_caller (fun _ => true) demo_image); vm_compute; reflexivity.
Defined.

