(* ===== verification/EvQueue.v ===== *)
(** * EvQueue: the drain queue (src/common/evqueue.c)

    [struct anubee_evq] is a byte ring with [4-byte length][payload] framing
    between the ring-buffer callback (producer) and the worker thread
    (consumer).  Every operation runs under the queue's mutex, so an execution is
    an interleaving of whole operations; waiting on the condition variable is the
    outcome [Blocked], after which the consumer runs again from the same state.

    The ring refines a FIFO of bytes, the framed ring a FIFO of records, and an
    execution from [anubee_evq_init] delivers the accepted records in order. *)

From stdpp Require Import base list option numbers.
From Stdlib Require Import ZArith Lia.
From S2P Require Import Prelude Elf.

Local Open Scope Z_scope.

Record evq := mk_evq {
  qbuf : list byte; cap : Z; head : Z; tail : Z; used : Z;
  done : bool; dropped : Z; pushed : Z; popped : Z
}.

Definition q_in (q : evq) (src : list byte) : res evq :=
  let n := zlen src in
  let f := u64 (cap q - head q) in
  let f := if f >? n then n else f in
  b ← memcpy_out (qbuf q) (head q) (take (Z.to_nat f) src);
  b ← (if n >? f then memcpy_out b 0 (drop (Z.to_nat f) src) else Ret b);
  if cap q =? 0 then Oob else
  Ret (mk_evq b (cap q) (u64 (head q + n) mod cap q) (tail q) (u64 (used q + n))
         (done q) (dropped q) (pushed q) (popped q)).

Definition q_out (q : evq) (n : Z) : res (list byte * evq) :=
  let f := u64 (cap q - tail q) in
  let f := if f >? n then n else f in
  d1 ← memcpy_in (qbuf q) (tail q) f;
  d2 ← (if n >? f then memcpy_in (qbuf q) 0 (n - f) else Ret []);
  if cap q =? 0 then Oob else
  Ret (d1 ++ d2,
       mk_evq (qbuf q) (cap q) (head q) (u64 (tail q + n) mod cap q) (u64 (used q - n))
         (done q) (dropped q) (pushed q) (popped q)).

(** [mem] is the fresh block of [malloc(cap)]; [None] is a failed allocation. *)
Definition anubee_evq_init (mem : option (list byte)) (cap : Z) : Z * option evq :=
  match mem with
  | None => (-1, None)
  | Some buf => (0, Some (mk_evq buf cap 0 0 0 false 0 0 0))
  end.

Definition anubee_evq_push (q : evq) (rec : list byte) : res (Z * evq) :=
  let len := zlen rec in
  let s := u32 len in
  let total := u64 (4 + len) in
  if u64 (cap q - used q) <? total then
    Ret (-1, mk_evq (qbuf q) (cap q) (head q) (tail q) (used q) (done q)
               (u64 (dropped q + 1)) (pushed q) (popped q))
  else
    q ← q_in q (le_bytes 4 s);
    q ← q_in q rec;
    Ret (0, mk_evq (qbuf q) (cap q) (head q) (tail q) (used q) (done q)
              (dropped q) (u64 (pushed q + 1)) (popped q)).

Inductive pop_out :=
| Popped (rec : list byte)
| Exhausted
| Blocked.

Fixpoint pop_loop (fuel : nat) (q : evq) (outcap : Z) : res (pop_out * evq) :=
  match fuel with
  | O => NoFuel
  | S fuel =>
      if (used q =? 0) && negb (done q) then Ret (Blocked, q) else
      if (used q =? 0) && done q then Ret (Exhausted, q) else
      '(hdr, q) ← q_out q 4;
      let sz := le_at 4 hdr 0 in
      if sz <=? outcap then
        '(out, q) ← q_out q sz;
        Ret (Popped out, mk_evq (qbuf q) (cap q) (head q) (tail q) (used q) (done q)
                           (dropped q) (pushed q) (u64 (popped q + 1)))
      else
        if cap q =? 0 then Oob else
        pop_loop fuel
          (mk_evq (qbuf q) (cap q) (head q) (u64 (tail q + sz) mod cap q)
             (u64 (used q - sz)) (done q) (u64 (dropped q + 1)) (pushed q) (popped q))
          outcap
  end.

(** Every turn that does not return takes at least the four length bytes. *)
Definition anubee_evq_pop (q : evq) (outcap : Z) : res (pop_out * evq) :=
  pop_loop (S (Z.to_nat (used q))) q outcap.

(** The engines' teardown: [done = 1] and a signal, under the mutex. *)
Definition evq_set_done (q : evq) : evq :=
  mk_evq (qbuf q) (cap q) (head q) (tail q) (used q) true (dropped q) (pushed q) (popped q).

(** ** The ring is a FIFO of bytes *)

Record ring (q : evq) (bs : list byte) : Prop := {
  rg_cap : 0 < cap q < 2 ^ 63;
  rg_buf : zlen (qbuf q) = cap q;
  rg_head : head q = (tail q + used q) mod cap q;
  rg_tail : 0 <= tail q < cap q;
  rg_used : used q = zlen bs;
  rg_fit : zlen bs <= cap q;
  rg_data : forall i, 0 <= i < zlen bs ->
    byte_at (qbuf q) ((tail q + i) mod cap q) = byte_at bs i
}.

Lemma mod_wrap a c : 0 <= a < 2 * c -> a mod c = if a <? c then a else a - c.
Proof.
  intros H. destruct (Z.ltb_spec a c); [apply Z.mod_small; lia|].
  symmetry. apply (Z.mod_unique a c 1); lia.
Qed.

Lemma zlen_take (l : list byte) n : 0 <= n <= zlen l -> zlen (take (Z.to_nat n) l) = n.
Proof. unfold zlen. intros. rewrite length_take. lia. Qed.
Lemma zlen_drop (l : list byte) n : 0 <= n <= zlen l -> zlen (drop (Z.to_nat n) l) = zlen l - n.
Proof. unfold zlen. intros. rewrite length_drop. lia. Qed.
Lemma byte_at_take l n i : 0 <= i < n -> byte_at (take (Z.to_nat n) l) i = byte_at l i.
Proof. intros. unfold byte_at. rewrite lookup_take_lt by lia. reflexivity. Qed.
Lemma byte_at_drop l n i : 0 <= n -> 0 <= i -> byte_at (drop (Z.to_nat n) l) i = byte_at l (n + i).
Proof.
  intros. unfold byte_at. rewrite lookup_drop.
  replace (Z.to_nat n + Z.to_nat i)%nat with (Z.to_nat (n + i)) by lia. reflexivity.
Qed.

(** The two copies of [q_in]: position [p] holds the new byte at distance
    [(p - head) mod cap], when that is one of the copied ones. *)
Lemma ring_write buf c h src :
  zlen buf = c -> 0 <= h < c -> zlen src <= c ->
  let n := zlen src in
  let f := if c - h >? n then n else c - h in
  exists b1 b2,
    memcpy_out buf h (take (Z.to_nat f) src) = Ret b1 /\
    (if n >? f then memcpy_out b1 0 (drop (Z.to_nat f) src) else Ret b1) = Ret b2 /\
    zlen b2 = c /\
    forall p, 0 <= p < c ->
      byte_at b2 p =
      if (p - h) mod c <? n then byte_at src ((p - h) mod c) else byte_at buf p.
Proof.
  intros Hb Hh Hn n f. pose proof (zlen_nonneg src) as H0. fold n in H0, Hn.
  assert (Hf : 0 <= f <= n /\ f <= c - h /\ (f < n -> f = c - h)).
  { unfold f. destruct (c - h >? n) eqn:E; b2p; lia. }
  assert (Ht : zlen (take (Z.to_nat f) src) = f) by (apply zlen_take; fold n; lia).
  assert (Hd : zlen (drop (Z.to_nat f) src) = n - f) by (apply zlen_drop; fold n; lia).
  assert (Hdist : forall p, 0 <= p < c -> (p - h) mod c = if h <=? p then p - h else p - h + c).
  { intros p Hp. destruct (Z.leb_spec h p); [apply Z.mod_small; lia|].
    symmetry. apply (Z.mod_unique (p - h) c (-1)); lia. }
  rewrite memcpy_out_ok by lia.
  exists (splice buf h (take (Z.to_nat f) src)). destruct (n >? f) eqn:E; b2p.
  - rewrite memcpy_out_ok by (rewrite ?zlen_splice; lia).
    eexists. split; [reflexivity|]. split; [reflexivity|].
    split; [rewrite !zlen_splice by (rewrite ?zlen_splice; lia); lia|].
    intros p Hp. rewrite Hdist by lia.
    destruct (Z.ltb_spec p (n - f)).
    + rewrite byte_at_splice_in by (rewrite ?zlen_splice; lia).
      rewrite byte_at_drop by lia. destruct (Z.leb_spec h p); [lia|].
      rewrite (proj2 (Z.ltb_lt _ n)) by lia. f_equal. lia.
    + rewrite byte_at_splice_out by (rewrite ?zlen_splice; lia).
      destruct (Z.leb_spec h p).
      * rewrite byte_at_splice_in by lia. rewrite byte_at_take by lia.
        rewrite (proj2 (Z.ltb_lt _ n)) by lia. reflexivity.
      * rewrite byte_at_splice_out by lia. rewrite (proj2 (Z.ltb_ge _ n)) by lia. reflexivity.
  - eexists. split; [reflexivity|]. split; [reflexivity|].
    split; [rewrite zlen_splice by lia; lia|].
    intros p Hp. rewrite Hdist by lia. assert (f = n) by lia.
    destruct (Z.leb_spec h p).
    + destruct (Z.ltb_spec (p - h) n).
      * rewrite byte_at_splice_in by lia. now rewrite byte_at_take by lia.
      * now rewrite byte_at_splice_out by lia.
    + rewrite byte_at_splice_out by lia. rewrite (proj2 (Z.ltb_ge _ n)) by lia. reflexivity.
Qed.

(** Everything but the ring fields is as it was. *)
Definition same_rest (q q' : evq) : Prop :=
  cap q' = cap q /\ done q' = done q /\ dropped q' = dropped q /\
  pushed q' = pushed q /\ popped q' = popped q.

Lemma q_in_spec q bs src :
  ring q bs -> zlen bs + zlen src <= cap q ->
  exists q', q_in q src = Ret q' /\ ring q' (bs ++ src) /\ same_rest q q'.
Proof.
  intros [Hc Hb Hh Ht Hu Hf Hd] Hfit. pose proof (zlen_nonneg src). pose proof (zlen_nonneg bs).
  assert (Hhr : 0 <= head q < cap q) by (rewrite Hh; apply Z.mod_pos_bound; lia).
  destruct (ring_write (qbuf q) (cap q) (head q) src Hb Hhr ltac:(lia))
    as (b1 & b2 & E1 & E2 & Hl & Hdata).
  unfold q_in. rewrite (u64_small (cap q - head q)), E1 by lia. unfold mbind at 1, res_bind at 1. rewrite E2.
  unfold mbind, res_bind. rewrite (proj2 (Z.eqb_neq (cap q) 0)) by lia.
  eexists. split; [reflexivity|]. split; [|repeat split].
  rewrite !u64_small by lia.
  constructor; cbn [qbuf cap head tail used]; rewrite ?zlen_app; auto; try lia.
  - rewrite Hh. rewrite Z.add_mod_idemp_l by lia. f_equal. lia.
  - intros i Hi. rewrite Hdata by (apply Z.mod_pos_bound; lia).
    assert (Hdist : ((tail q + i) mod cap q - head q) mod cap q = (i - used q) mod cap q).
    { rewrite Zminus_mod_idemp_l, Hh, Zminus_mod_idemp_r. f_equal. lia. }
    rewrite Hdist. destruct (Z.ltb_spec i (used q)).
    + assert (Hm : (i - used q) mod cap q = i - used q + cap q).
      { symmetry. apply (Z.mod_unique (i - used q) (cap q) (-1)); lia. }
      rewrite Hm, (proj2 (Z.ltb_ge _ _)) by lia.
      rewrite Hd, byte_at_app_l by lia. reflexivity.
    + rewrite (Z.mod_small (i - used q)) by lia.
      rewrite (proj2 (Z.ltb_lt _ _)), byte_at_app_r by lia. f_equal. lia.
Qed.

(** The two copies of [q_out] put the front of the ring together. *)
Lemma ring_read q l bs :
  ring q (l ++ bs) ->
  let f := if cap q - tail q >? zlen l then zlen l else cap q - tail q in
  memcpy_in (qbuf q) (tail q) f = Ret (slice (qbuf q) (tail q) f) /\
  exists d2, (if zlen l >? f then memcpy_in (qbuf q) 0 (zlen l - f) else Ret []) = Ret d2 /\
    slice (qbuf q) (tail q) f ++ d2 = l.
Proof.
  intros [Hc Hb Hh Ht Hu Hf Hd] f. rewrite zlen_app in *.
  pose proof (zlen_nonneg l). pose proof (zlen_nonneg bs).
  assert (Hff : 0 <= f <= zlen l /\ f <= cap q - tail q /\ (f < zlen l -> f = cap q - tail q)).
  { unfold f. destruct (cap q - tail q >? zlen l) eqn:E; b2p; lia. }
  clearbody f. split; [apply memcpy_in_ok; lia|].
  assert (Hlow : forall i, 0 <= i < f -> byte_at (qbuf q) (tail q + i) = byte_at l i).
  { intros i Hi. rewrite <- (byte_at_app_l l bs) by lia. rewrite <- Hd by lia.
    now rewrite Z.mod_small by lia. }
  destruct (zlen l >? f) eqn:E; b2p.
  - rewrite memcpy_in_ok by lia. eexists. split; [reflexivity|].
    apply bytes_ext; rewrite ?zlen_app, !zlen_slice by lia; [lia|]. intros i Hi.
    destruct (Z.ltb_spec i f).
    + rewrite byte_at_app_l by (rewrite zlen_slice; lia).
      rewrite byte_at_slice by lia. apply Hlow. lia.
    + rewrite byte_at_app_r by (rewrite zlen_slice; lia). rewrite zlen_slice by lia.
      rewrite byte_at_slice by lia. rewrite <- (byte_at_app_l l bs) by lia.
      rewrite <- Hd by lia. f_equal. rewrite mod_wrap by lia.
      rewrite (proj2 (Z.ltb_ge _ _)) by lia. lia.
  - eexists. split; [reflexivity|]. rewrite app_nil_r.
    apply bytes_ext; rewrite zlen_slice by lia; [lia|]. intros i Hi.
    rewrite byte_at_slice by lia. apply Hlow. lia.
Qed.

Lemma q_out_spec q l bs :
  ring q (l ++ bs) ->
  exists q', q_out q (zlen l) = Ret (l, q') /\ ring q' bs /\ same_rest q q'.
Proof.
  intros H. pose proof (ring_read q l bs H) as (H1 & d2 & H2 & Hl).
  destruct H as [Hc Hb Hh Ht Hu Hf Hd]. rewrite zlen_app in *.
  pose proof (zlen_nonneg l). pose proof (zlen_nonneg bs).
  unfold q_out. rewrite (u64_small (cap q - tail q)), H1 by lia. unfold mbind at 1, res_bind at 1. rewrite H2.
  unfold mbind, res_bind. rewrite (proj2 (Z.eqb_neq (cap q) 0)), Hl by lia.
  eexists. split; [reflexivity|]. split; [|repeat split].
  rewrite !u64_small by lia.
  constructor; cbn [qbuf cap head tail used]; auto; try lia.
  - rewrite Hh, Z.add_mod_idemp_l by lia. f_equal. lia.
  - apply Z.mod_pos_bound. lia.
  - intros i Hi. rewrite Z.add_mod_idemp_l by lia.
    replace (tail q + zlen l + i) with (tail q + (zlen l + i)) by lia.
    rewrite Hd, byte_at_app_r by lia. f_equal. lia.
Qed.

(** Skipping [n] bytes is reading them and forgetting the copy. *)
Lemma ring_skip q l bs :
  ring q (l ++ bs) ->
  ring (mk_evq (qbuf q) (cap q) (head q) (u64 (tail q + zlen l) mod cap q)
          (u64 (used q - zlen l)) (done q) (u64 (dropped q + 1)) (pushed q) (popped q)) bs.
Proof.
  intros H. destruct (q_out_spec q l bs H) as (q' & E & [] & _).
  unfold q_out in E. apply bind_ret in E as (d1 & _ & E). apply bind_ret in E as (d2 & _ & E).
  destruct (cap q =? 0); [discriminate|]. injection E as _ <-. simpl in *.
  constructor; auto.
Qed.

(** ** The framed ring is a FIFO of records *)

Definition framed (r : list byte) : list byte := le_bytes 4 (zlen r) ++ r.
Definition content (rs : list (list byte)) : list byte := concat (map framed rs).

Lemma content_app a b : content (a ++ b) = content a ++ content b.
Proof. unfold content. now rewrite map_app, concat_app. Qed.
Lemma content_cons r rs : content (r :: rs) = framed r ++ content rs.
Proof. reflexivity. Qed.
Lemma content_one r : content [r] = framed r.
Proof. unfold content. cbn [map concat]. apply app_nil_r. Qed.
Lemma zlen_framed r : zlen (framed r) = 4 + zlen r.
Proof. unfold framed. rewrite zlen_app, zlen_le_bytes. reflexivity. Qed.

(** A record the length word can carry. *)
Definition small (r : list byte) : Prop := zlen r < 2 ^ 32.

(** The abstract queue. *)
Record aqueue := mk_aq {
  items : list (list byte); a_done : bool; a_dropped : Z; a_pushed : Z; a_popped : Z
}.

(** A record is accepted when its frame fits in the free bytes. *)
Definition aq_push (c : Z) (r : list byte) (a : aqueue) : Z * aqueue :=
  if 4 + zlen r <=? c - zlen (content (items a)) then
    (0, mk_aq (items a ++ [r]) (a_done a) (a_dropped a) (u64 (a_pushed a + 1)) (a_popped a))
  else (-1, mk_aq (items a) (a_done a) (u64 (a_dropped a + 1)) (a_pushed a) (a_popped a)).

(** The first record that fits the caller's buffer; those before it are lost
    and counted. *)
Fixpoint aq_take (outcap : Z) (l : list (list byte)) (dropped : Z)
  : option (list byte) * list (list byte) * Z :=
  match l with
  | [] => (None, [], dropped)
  | r :: l => if zlen r <=? outcap then (Some r, l, dropped)
              else aq_take outcap l (u64 (dropped + 1))
  end.

Definition aq_pop (outcap : Z) (a : aqueue) : pop_out * aqueue :=
  let '(o, l, d) := aq_take outcap (items a) (a_dropped a) in
  match o with
  | Some r => (Popped r, mk_aq l (a_done a) d (a_pushed a) (u64 (a_popped a + 1)))
  | None => (if a_done a then Exhausted else Blocked,
             mk_aq l (a_done a) d (a_pushed a) (a_popped a))
  end.

(** The simulation relation. *)
Record implements (q : evq) (a : aqueue) : Prop := {
  im_ring : ring q (content (items a));
  im_small : Forall small (items a);
  im_rest : done q = a_done a /\ dropped q = a_dropped a /\
            pushed q = a_pushed a /\ popped q = a_popped a
}.

Lemma push_implements q a r :
  implements q a -> small r ->
  exists q', anubee_evq_push q r = Ret (fst (aq_push (cap q) r a), q') /\
    implements q' (snd (aq_push (cap q) r a)) /\ cap q' = cap q.
Proof.
  intros [Hr Hs (Hd & Hdr & Hpu & Hpo)] Hsm. unfold small in Hsm.
  pose proof (zlen_nonneg r). pose proof (rg_cap _ _ Hr). pose proof (rg_fit _ _ Hr).
  pose proof (zlen_nonneg (content (items a))). unfold anubee_evq_push, aq_push.
  rewrite (rg_used _ _ Hr), (u64_small (4 + _)), (u64_small (cap q - _)), u32_small by lia.
  destruct (Z.leb_spec (4 + zlen r) (cap q - zlen (content (items a)))) as [Hle|Hgt].
  - rewrite (proj2 (Z.ltb_ge _ _)) by lia.
    destruct (q_in_spec q _ (le_bytes 4 (zlen r)) Hr) as (q1 & E1 & R1 & C1 & C2 & C3 & C4 & C5).
    { rewrite zlen_le_bytes. lia. }
    destruct (q_in_spec q1 _ r R1) as (q2 & E2 & R2 & D1 & D2 & D3 & D4 & D5).
    { rewrite zlen_app, zlen_le_bytes, C1. lia. }
    rewrite E1. unfold mbind, res_bind. rewrite E2. eexists. split; [reflexivity|].
    split; [|simpl; congruence]. constructor; cbn [snd items a_done a_dropped a_pushed a_popped].
    + rewrite content_app, content_one. unfold framed. rewrite app_assoc.
      destruct R2. constructor; auto.
    + apply Forall_app. auto.
    + simpl. repeat split; congruence.
  - rewrite (proj2 (Z.ltb_lt _ _)) by lia. eexists. split; [reflexivity|].
    split; [|reflexivity]. constructor; simpl; auto; [|repeat split; congruence].
    destruct Hr. constructor; simpl; auto; congruence.
Qed.

Lemma pop_loop_implements outcap fuel q a :
  implements q a -> (length (items a) < fuel)%nat ->
  exists q', pop_loop fuel q outcap = Ret (fst (aq_pop outcap a), q') /\
    implements q' (snd (aq_pop outcap a)) /\ cap q' = cap q.
Proof.
  revert q a. induction fuel as [|fuel IH]; intros q a H Hf; [lia|].
  cbn [pop_loop]. pose proof H as [Hr Hs (Hd & Hdr & Hpu & Hpo)].
  destruct a as [its dn dr pu po]. cbn [items a_done a_dropped a_pushed a_popped] in *.
  destruct its as [|r rest].
  - rewrite (rg_used _ _ Hr), Hd. change (zlen (content []) =? 0) with true.
    unfold aq_pop. simpl aq_take. cbv iota beta.
    destruct dn; simpl; (eexists; split; [reflexivity|]; auto).
  - rewrite content_cons in Hr. unfold framed in Hr. rewrite <- app_assoc in Hr.
    apply Forall_cons_1 in Hs as [Hsm Hs]. unfold small in Hsm.
    pose proof (zlen_nonneg r). pose proof (zlen_nonneg (content rest)).
    assert (Hu : (used q =? 0) = false).
    { apply Z.eqb_neq. rewrite (rg_used _ _ Hr), !zlen_app, zlen_le_bytes. lia. }
    rewrite Hu. simpl andb. cbv iota.
    destruct (q_out_spec q _ _ Hr) as (q1 & E1 & R1 & C1 & C2 & C3 & C4 & C5).
    rewrite zlen_le_bytes in E1. change (Z.of_nat 4) with 4 in E1.
    rewrite E1. unfold mbind at 1, res_bind at 1.
    rewrite le_at_le_bytes. change (8 * Z.of_nat 4) with 32. rewrite Z.mod_small by lia.
    unfold aq_pop. cbn [items a_done a_dropped a_pushed a_popped aq_take].
    destruct (zlen r <=? outcap).
    + destruct (q_out_spec q1 _ _ R1) as (q2 & E2 & R2 & D1 & D2 & D3 & D4 & D5).
      rewrite E2. unfold mbind, res_bind. eexists. split; [reflexivity|].
      split; [|simpl; congruence]. constructor; simpl; auto; [|repeat split; congruence].
      destruct R2. constructor; auto.
    + pose proof (rg_cap _ _ R1). rewrite (proj2 (Z.eqb_neq (cap q1) 0)) by lia.
      destruct (IH (mk_evq (qbuf q1) (cap q1) (head q1) (u64 (tail q1 + zlen r) mod cap q1)
                  (u64 (used q1 - zlen r)) (done q1) (u64 (dropped q1 + 1)) (pushed q1) (popped q1))
                  (mk_aq rest dn (u64 (dr + 1)) pu po)) as (q' & E & R & Hc).
      * constructor; simpl; auto; [now apply ring_skip|]. repeat split; congruence.
      * simpl in *. lia.
      * exists q'. split; [exact E|]. split; [exact R|]. simpl in Hc. congruence.
Qed.

Lemma content_length l : Z.of_nat (length l) <= zlen (content l).
Proof.
  induction l as [|r l IH]; [unfold content, zlen; simpl; lia|]. rewrite content_cons, zlen_app, zlen_framed.
  pose proof (zlen_nonneg r). simpl length. lia.
Qed.

Lemma pop_implements outcap q a :
  implements q a ->
  exists q', anubee_evq_pop q outcap = Ret (fst (aq_pop outcap a), q') /\
    implements q' (snd (aq_pop outcap a)) /\ cap q' = cap q.
Proof.
  intros H. apply pop_loop_implements; [exact H|].
  pose proof (content_length (items a)). rewrite (rg_used _ _ (im_ring _ _ H)). lia.
Qed.

Lemma done_implements q a :
  implements q a ->
  implements (evq_set_done q)
    (mk_aq (items a) true (a_dropped a) (a_pushed a) (a_popped a)).
Proof.
  intros [Hr Hs (Hd & Hdr & Hpu & Hpo)]. constructor; simpl; auto. destruct Hr. constructor; auto.
Qed.

Lemma init_implements buf c :
  zlen buf = c -> 0 < c < 2 ^ 63 ->
  implements (mk_evq buf c 0 0 0 false 0 0 0) (mk_aq [] false 0 0 0).
Proof.
  intros Hb Hc. constructor; simpl; auto. constructor; simpl; auto; unfold zlen, content; simpl; lia.
Qed.

(** ** Executions *)

Inductive event :=
| Epush (r : list byte) (rc : Z)
| Epop (o : pop_out)
| Edone.

(** One operation, under the mutex. *)
Inductive qstep (outcap : Z) (q : evq) : event -> evq -> Prop :=
| step_push r rc q' : anubee_evq_push q r = Ret (rc, q') -> qstep outcap q (Epush r rc) q'
| step_pop o q' : anubee_evq_pop q outcap = Ret (o, q') -> qstep outcap q (Epop o) q'
| step_done : qstep outcap q Edone (evq_set_done q).

Inductive qrun (outcap : Z) : evq -> list event -> evq -> Prop :=
| run_nil q : qrun outcap q [] q
| run_snoc q0 q q' tr e :
    qrun outcap q0 tr q -> qstep outcap q e q' -> qrun outcap q0 (tr ++ [e]) q'.

Definition ev_small (e : event) : Prop := match e with Epush r _ => small r | _ => True end.

(** Records accepted, delivered and rejected, in order. *)
Definition accepted (tr : list event) : list (list byte) :=
  flat_map (fun e => match e with Epush r rc => if rc =? 0 then [r] else [] | _ => [] end) tr.
Definition delivered (tr : list event) : list (list byte) :=
  flat_map (fun e => match e with Epop (Popped r) => [r] | _ => [] end) tr.
Definition rejected (tr : list event) : list (list byte) :=
  flat_map (fun e => match e with Epush r rc => if rc =? 0 then [] else [r] | _ => [] end) tr.

(** The records a consumer with a buffer of [outcap] bytes can take. *)
Definition fitting (outcap : Z) (l : list (list byte)) : list (list byte) :=
  List.filter (fun r => zlen r <=? outcap) l.

(** The history invariant: what was accepted is what was delivered, then what
    is pending, with the oversized records left out; the counters count. *)
Record history (outcap : Z) (tr : list event) (a : aqueue) : Prop := {
  hi_fifo : fitting outcap (accepted tr) = delivered tr ++ fitting outcap (items a);
  hi_pushed : a_pushed a = u64 (zlen (accepted tr));
  hi_popped : a_popped a = u64 (zlen (delivered tr));
  hi_dropped : a_dropped a =
    u64 (zlen (rejected tr) + (zlen (accepted tr) - zlen (delivered tr) - zlen (items a)))
}.

Lemma u64_succ x y : u64 (u64 x + y) = u64 (x + y).
Proof. unfold u64. now rewrite Zplus_mod_idemp_l. Qed.

Lemma u64_idem x : u64 (u64 x) = u64 x.
Proof. apply u64_small, u64_range. Qed.

Lemma fitting_app c a b : fitting c (a ++ b) = fitting c a ++ fitting c b.
Proof. apply List.filter_app. Qed.

(** What a pop takes: an oversized prefix, then the record it delivers. *)
Lemma aq_take_spec outcap l d :
  exists skipped, let '(o, l', d') := aq_take outcap l (u64 d) in
    l = skipped ++ option_list o ++ l' /\ fitting outcap skipped = [] /\
    fitting outcap (option_list o) = option_list o /\
    d' = u64 (d + zlen skipped) /\ (o = None -> l' = []).
Proof.
  revert d. induction l as [|r l IH]; intros d; simpl.
  - exists []. rewrite Z.add_0_r. auto.
  - destruct (zlen r <=? outcap) eqn:E.
    + exists []. unfold zlen at 1. simpl. rewrite E, Z.add_0_r. repeat split; auto. discriminate.
    + destruct (IH (d + 1)) as [sk Hsk]. exists (r :: sk). rewrite u64_succ.
      destruct (aq_take outcap l (u64 (d + 1))) as [[o l'] d'].
      destruct Hsk as (-> & Hf & Ho & -> & Hn). simpl. rewrite E, zlen_cons.
      repeat split; auto. f_equal. lia.
Qed.

Definition out_list (o : pop_out) : list (list byte) :=
  match o with Popped r => [r] | _ => [] end.

Lemma aq_pop_spec outcap a d :
  a_dropped a = u64 d ->
  exists skipped, let '(o, a') := aq_pop outcap a in
    items a = skipped ++ out_list o ++ items a' /\ fitting outcap skipped = [] /\
    fitting outcap (out_list o) = out_list o /\
    a_dropped a' = u64 (d + zlen skipped) /\ a_pushed a' = a_pushed a /\
    a_popped a' = (if out_list o then a_popped a else u64 (a_popped a + 1)) /\
    (o = Exhausted -> items a' = [] /\ a_done a = true).
Proof.
  intros Hd. destruct (aq_take_spec outcap (items a) d) as [sk H]. exists sk.
  unfold aq_pop. rewrite Hd. destruct (aq_take _ _ _) as [[o l'] d'].
  destruct H as (H1 & H2 & H3 & H4 & H5).
  destruct o as [r|]; simpl; [repeat split; auto; discriminate|].
  destruct (a_done a); simpl in *; repeat split; auto; discriminate.
Qed.

Lemma zlen_out_cases o (a : Z) :
  (if out_list o then u64 a else u64 (u64 a + 1)) = u64 (a + zlen (out_list o)).
Proof. destruct o; simpl; rewrite ?u64_succ; f_equal; unfold zlen; simpl; lia. Qed.

Lemma history_push outcap tr a r c :
  history outcap tr a ->
  history outcap (tr ++ [Epush r (fst (aq_push c r a))]) (snd (aq_push c r a)).
Proof.
  intros [Hf Hpu Hpo Hd]. unfold aq_push.
  destruct (_ <=? _); simpl; constructor; unfold accepted, delivered, rejected in *;
    cbn [items a_pushed a_popped a_dropped]; rewrite ?flat_map_app; simpl flat_map;
    rewrite ?app_nil_r, ?fitting_app, ?app_assoc, ?Hf, ?Hpu, ?Hpo, ?Hd; auto;
    rewrite ?u64_succ, ?zlen_app; f_equal; unfold zlen; simpl length; lia.
Qed.

Lemma history_pop outcap tr a :
  history outcap tr a ->
  history outcap (tr ++ [Epop (fst (aq_pop outcap a))]) (snd (aq_pop outcap a)).
Proof.
  intros [Hf Hpu Hpo Hd]. destruct (aq_pop_spec outcap a _ Hd) as [sk H].
  destruct (aq_pop outcap a) as [o a']. destruct H as (Hi & Hs & Ho & Hd' & Hpu' & Hpo' & _).
  assert (Hdel : delivered (tr ++ [Epop o]) = delivered tr ++ out_list o).
  { unfold delivered. rewrite flat_map_app. simpl. now rewrite app_nil_r; destruct o. }
  assert (Hacc : accepted (tr ++ [Epop o]) = accepted tr).
  { unfold accepted. rewrite flat_map_app. apply app_nil_r. }
  assert (Hrej : rejected (tr ++ [Epop o]) = rejected tr).
  { unfold rejected. rewrite flat_map_app. apply app_nil_r. }
  simpl. constructor; rewrite ?Hdel, ?Hacc, ?Hrej.
  - rewrite Hf, Hi, !fitting_app, Hs, Ho. simpl. now rewrite app_assoc.
  - congruence.
  - rewrite Hpo', Hpo, zlen_out_cases, zlen_app. reflexivity.
  - rewrite Hd'. f_equal. rewrite Hi, !zlen_app. lia.
Qed.

Lemma history_done outcap tr a :
  history outcap tr a ->
  history outcap (tr ++ [Edone]) (mk_aq (items a) true (a_dropped a) (a_pushed a) (a_popped a)).
Proof.
  intros [Hf Hpu Hpo Hd]. constructor; unfold accepted, delivered, rejected in *; simpl;
    rewrite !flat_map_app; simpl; rewrite !app_nil_r; auto.
Qed.

(** Every execution is tracked by an abstract queue with that history. *)
Lemma qrun_history outcap q0 tr q :
  qrun outcap q0 tr q -> implements q0 (mk_aq [] false 0 0 0) -> Forall ev_small tr ->
  exists a, implements q a /\ history outcap tr a /\ cap q = cap q0 /\
    (a_done a = true <-> Edone ∈ tr).
Proof.
  induction 1 as [q|q0 q q' tr e Hrun IH Hstep]; intros H0 Hsm.
  - exists (mk_aq [] false 0 0 0). split; [exact H0|]. split; [constructor; reflexivity|].
    split; [reflexivity|]. simpl. split; [discriminate|]. intros H. inversion H.
  - apply Forall_app in Hsm as [Hsm He]. apply Forall_cons_1 in He as [He _].
    destruct (IH H0 Hsm) as (a & Hi & Hh & Hc & Hd).
    assert (Hin : forall e', e' <> Edone -> Edone ∈ tr ++ [e'] <-> Edone ∈ tr).
    { intros e' Hne. rewrite elem_of_app, list_elem_of_singleton.
      split; [intros [?|?]; [assumption|congruence]|auto]. }
    inversion Hstep as [r rc ? E|o ? E|]; subst.
    + destruct (push_implements q a r Hi He) as (q2 & E2 & Hi2 & Hc2).
      rewrite E in E2. injection E2 as -> ->. eexists. split; [exact Hi2|].
      split; [now apply history_push|]. split; [congruence|].
      rewrite Hin by discriminate. rewrite <- Hd. unfold aq_push. destruct (_ <=? _); reflexivity.
    + destruct (pop_implements outcap q a Hi) as (q2 & E2 & Hi2 & Hc2).
      rewrite E in E2. injection E2 as -> ->. eexists. split; [exact Hi2|].
      split; [now apply history_pop|]. split; [congruence|].
      rewrite Hin by discriminate. rewrite <- Hd. unfold aq_pop.
      destruct (aq_take _ _ _) as [[[r|] ?] ?]; reflexivity.
    + exists (mk_aq (items a) true (a_dropped a) (a_pushed a) (a_popped a)).
      split; [apply done_implements; exact Hi|]. split; [apply history_done; exact Hh|].
      split; [exact Hc|]. simpl. rewrite elem_of_app, list_elem_of_singleton. tauto.
Qed.

(** ** Properties *)

(** The byte ring implements the queue of whole records.  In every state
    that represents a queue, a push (of a record below 4 GiB) and a pop stay in
    the buffer, terminate, answer as the abstract queue does - a push is refused
    exactly when length word and payload do not fit in the free bytes, a pop
    delivers the oldest record that fits the caller's buffer, draining larger
    ones whole - and leave a state that represents the abstract successor. *)
Theorem evq_refines_record_fifo q a outcap r :
  implements q a -> small r ->
  (exists q', anubee_evq_push q r = Ret (fst (aq_push (cap q) r a), q') /\
     implements q' (snd (aq_push (cap q) r a))) /\
  (exists q', anubee_evq_pop q outcap = Ret (fst (aq_pop outcap a), q') /\
     implements q' (snd (aq_pop outcap a))) /\
  implements (evq_set_done q) (mk_aq (items a) true (a_dropped a) (a_pushed a) (a_popped a)).
Proof.
  intros H Hr. split; [|split; [|now apply done_implements]].
  - destruct (push_implements q a r H Hr) as (q' & ? & ? & _). eauto.
  - destruct (pop_implements outcap q a H) as (q' & ? & ? & _). eauto.
Qed.

Definition demo_q : evq := mk_evq (repeat x00 8) 8 0 0 0 false 0 0 0.

Lemma demo_q_implements : implements demo_q (mk_aq [] false 0 0 0).
Proof. apply init_implements; vm_compute; auto. Qed.

Lemma evq_refines_record_fifo_witness :
  exists q', anubee_evq_push demo_q [x07] = Ret (0, q') /\
    implements q' (mk_aq [[x07]] false 0 1 0).
Proof.
  refine (proj1 (evq_refines_record_fifo demo_q (mk_aq [] false 0 0 0) 4 [x07]
                   demo_q_implements _)).
  vm_compute. reflexivity.
Defined.

(** C25: in every interleaving of pushes, pops and teardown that starts from a
    freshly initialised queue, the records delivered to the worker are exactly
    the accepted ones in order (those too large for its buffer left out), the
    bytes in use are the frames of the pending records, no operation can be
    stuck or out of bounds, and the counters agree with the history modulo
    2^64: [dropped] counts the refused and the oversized records. *)
Theorem evq_fifo_history buf c outcap q0 tr q :
  anubee_evq_init (Some buf) c = (0, Some q0) -> zlen buf = c -> 0 < c < 2 ^ 63 ->
  qrun outcap q0 tr q -> Forall ev_small tr ->
  exists pending,
    fitting outcap (accepted tr) = delivered tr ++ fitting outcap pending /\
    used q = zlen (content pending) /\ used q <= c /\
    pushed q = u64 (zlen (accepted tr)) /\ popped q = u64 (zlen (delivered tr)) /\
    dropped q = u64 (zlen (rejected tr) +
                     (zlen (accepted tr) - zlen (delivered tr) - zlen pending)) /\
    forall r, small r -> exists rc o q1 q2,
      qstep outcap q (Epush r rc) q1 /\ qstep outcap q (Epop o) q2.
Proof.
  intros Hi Hb Hc Hrun Hsm. injection Hi as <-.
  destruct (qrun_history _ _ _ _ Hrun (init_implements buf c Hb Hc) Hsm)
    as (a & Him & [Hf Hpu Hpo Hd] & Hcap & _).
  pose proof Him as [Hr _ (? & ? & ? & ?)]. exists (items a). simpl in Hcap.
  pose proof (rg_used _ _ Hr). pose proof (rg_fit _ _ Hr).
  repeat split; try congruence. intros r Hsr.
  destruct (push_implements q a r Him Hsr) as (q1 & E1 & _).
  destruct (pop_implements outcap q a Him) as (q2 & E2 & _).
  do 4 eexists. split; [exact (step_push _ _ _ _ _ E1)|exact (step_pop _ _ _ _ E2)].
Qed.

(** One push, one pop. *)
Definition demo_run : list event := [Epush [x07] 0; Epop (Popped [x07])].

Lemma demo_qrun : exists q, qrun 4 demo_q demo_run q.
Proof.
  eexists. change demo_run with (([] ++ [Epush [x07] 0]) ++ [Epop (Popped [x07])]).
  eapply run_snoc; [eapply run_snoc; [apply run_nil|]|].
  - apply step_push. vm_compute. reflexivity.
  - apply step_pop. vm_compute. reflexivity.
Qed.

Lemma evq_fifo_history_witness :
  exists q, qrun 4 demo_q demo_run q /\ pushed q = 1 /\ popped q = 1.
Proof.
  destruct demo_qrun as [q Hq]. exists q. split; [exact Hq|].
  destruct (evq_fifo_history (repeat x00 8) 8 4 demo_q demo_run q) as (p & H);
    [reflexivity|reflexivity|lia|exact Hq|repeat constructor|].
  destruct H as (_ & _ & _ & -> & -> & _). split; reflexivity.
Defined.

(** C36: no accepted record is lost at teardown: when a pop tells the worker
    that the queue is exhausted, teardown has been requested, and the worker has
    been given every accepted record that fits its buffer. *)
Theorem evq_drains_before_exit buf c outcap q0 tr q q' :
  anubee_evq_init (Some buf) c = (0, Some q0) -> zlen buf = c -> 0 < c < 2 ^ 63 ->
  qrun outcap q0 tr q -> Forall ev_small tr ->
  anubee_evq_pop q outcap = Ret (Exhausted, q') ->
  Edone ∈ tr /\ delivered tr = fitting outcap (accepted tr).
Proof.
  intros Hi Hb Hc Hrun Hsm Hpop. injection Hi as <-.
  destruct (qrun_history _ _ _ _ Hrun (init_implements buf c Hb Hc) Hsm)
    as (a & Him & [Hf _ _ Hd] & _ & Hdone).
  destruct (pop_implements outcap q a Him) as (q2 & E & _).
  destruct (aq_pop_spec outcap a _ Hd) as [sk H].
  rewrite Hpop in E. destruct (aq_pop outcap a) as [o a'].
  injection E as <- <-. destruct H as (Hits & Hs & _ & _ & _ & _ & He).
  destruct (He eq_refl) as [Ha' Hdn]. split; [now apply Hdone|].
  rewrite Hf, Hits, Ha'. simpl. now rewrite app_nil_r, Hs, app_nil_r.
Qed.

Lemma evq_drains_before_exit_witness :
  Edone ∈ [Edone] /\ delivered [Edone] = fitting 4 (accepted [Edone]).
Proof.
  refine (evq_drains_before_exit (repeat x00 8) 8 4 demo_q [Edone] (evq_set_done demo_q)
            (evq_set_done demo_q) _ _ _ _ _ _);
    [reflexivity|reflexivity|lia| |repeat constructor|reflexivity].
  apply (run_snoc 4 demo_q demo_q _ [] Edone); [apply run_nil|apply step_done].
Defined.
