(* ===== verification/ProcMem.v ===== *)
(** * ProcMem: reading another process's memory (src/common/proc_mem.c)

    [proc_mem_read] fills a buffer page by page through [pread] on
    /proc/<pid>/mem, skipping what cannot be read.  [pread] is a parameter: the
    bytes it delivered, the empty list for a failed call. *)

From Stdlib Require Import ZArith Lia.
From stdpp Require Import base list option numbers.
From S2P Require Import Prelude Elf.

Local Open Scope Z_scope.

Definition PROC_MEM_PAGE := 0x1000.

Section Read.
Context (pread : Z -> Z -> list byte).

Fixpoint read_loop (fuel : nat) (va : Z) (dst : list byte) (len off got : Z)
  : res (Z * list byte) :=
  match fuel with
  | O => NoFuel
  | S fuel =>
      if negb (off <? len) then Ret (got, dst) else
      let chunk := PROC_MEM_PAGE - Z.land (u64 (va + off)) (PROC_MEM_PAGE - 1) in
      let chunk := if chunk >? len - off then len - off else chunk in
      let r := pread (u64 (va + off)) chunk in
      if zlen r =? 0 then read_loop fuel va dst len (off + chunk) got
      else
        dst ← memcpy_out dst off r;
        read_loop fuel va dst len (off + zlen r) (got + zlen r)
  end.

Definition proc_mem_read (va : Z) (dst : list byte) (len : Z) : res (Z * list byte) :=
  read_loop (S (Z.to_nat len)) va dst len 0 0.
End Read.

(** ** What a read delivers *)

(** What [pread] on the memory of a process does, at page granularity: a call
    inside a page fails only when nothing of the range is readable, and otherwise
    delivers some bytes from the start of the range. *)
Class PreadOf (pread : Z -> Z -> list byte) (mem : Z -> option byte) : Prop := {
  pread_hole : forall a n k, 0 < n -> a mod PROC_MEM_PAGE + n <= PROC_MEM_PAGE ->
    pread a n = [] -> 0 <= k < n -> mem (a + k) = None;
  pread_some : forall a n, 0 < n -> a mod PROC_MEM_PAGE + n <= PROC_MEM_PAGE ->
    zlen (pread a n) <= n /\
    forall k b, pread a n !! k = Some b -> mem (a + Z.of_nat k) = Some b
}.

(** Readable bytes among the first [n] from [a]. *)
Fixpoint readable (mem : Z -> option byte) (a : Z) (n : nat) : Z :=
  match n with
  | O => 0
  | S n => readable mem a n + (if mem (a + Z.of_nat n) then 1 else 0)
  end.

(** The buffer after the first [off] bytes have been dealt with. *)
Record filled (mem : Z -> option byte) (va : Z) (dst0 dst : list byte) (off : Z) : Prop := {
  fi_len : zlen dst = zlen dst0;
  fi_done : forall i, 0 <= i < off ->
    byte_at dst i = match mem (va + i) with Some b => bz b | None => byte_at dst0 i end;
  fi_rest : forall i, off <= i -> byte_at dst i = byte_at dst0 i
}.

Lemma readable_range mem a n : 0 <= readable mem a n <= Z.of_nat n.
Proof. induction n as [|n IH]; simpl; [lia|]. destruct (mem _); lia. Qed.

Lemma readable_add mem a n m :
  readable mem a (n + m) = readable mem a n + readable mem (a + Z.of_nat n) m.
Proof.
  induction m as [|m IH]; [rewrite Nat.add_0_r; simpl; lia|].
  rewrite Nat.add_succ_r. simpl. rewrite IH.
  replace (a + Z.of_nat (n + m)) with (a + Z.of_nat n + Z.of_nat m) by lia. lia.
Qed.

Lemma readable_none mem a n :
  (forall k, 0 <= k < Z.of_nat n -> mem (a + k) = None) -> readable mem a n = 0.
Proof.
  induction n as [|n IH]; intros H; simpl; [reflexivity|].
  rewrite IH, H by (try intros; try apply H; lia). reflexivity.
Qed.
Lemma readable_some mem a n :
  (forall k, 0 <= k < Z.of_nat n -> is_Some (mem (a + k))) -> readable mem a n = Z.of_nat n.
Proof.
  induction n as [|n IH]; intros H; [reflexivity|]. cbn [readable].
  rewrite IH by (intros; apply H; lia). destruct (H (Z.of_nat n) ltac:(lia)) as [b ->]. lia.
Qed.
Lemma readable_full mem a n :
  readable mem a n = Z.of_nat n -> forall k, 0 <= k < Z.of_nat n -> is_Some (mem (a + k)).
Proof.
  induction n as [|n IH]; intros H k Hk; [lia|]. cbn [readable] in H.
  pose proof (readable_range mem a n). destruct (mem (a + Z.of_nat n)) eqn:E; [|lia].
  destruct (Z.eq_dec k (Z.of_nat n)) as [->|]; [eauto|]. apply IH; lia.
Qed.

Section ReadSpec.
Context (pread : Z -> Z -> list byte) (mem : Z -> option byte).
Context `{!PreadOf pread mem}.

Lemma chunk_fits va off len :
  0 <= va -> 0 <= off < len -> va + len <= 2 ^ 64 ->
  let c0 := PROC_MEM_PAGE - Z.land (u64 (va + off)) (PROC_MEM_PAGE - 1) in
  let chunk := if c0 >? len - off then len - off else c0 in
  0 < chunk <= len - off /\ u64 (va + off) = va + off /\
  (va + off) mod PROC_MEM_PAGE + chunk <= PROC_MEM_PAGE.
Proof.
  intros Hv Ho Hl c0 chunk.
  assert (E : Z.land (u64 (va + off)) (PROC_MEM_PAGE - 1) = (va + off) mod PROC_MEM_PAGE).
  { rewrite u64_small by lia. apply (Z.land_ones _ 12). lia. }
  unfold chunk, c0. rewrite E, u64_small by lia.
  pose proof (Z.mod_pos_bound (va + off) PROC_MEM_PAGE eq_refl) as H.
  clear chunk c0 E. revert H. generalize ((va + off) mod PROC_MEM_PAGE). intros x H.
  destruct (_ >? _) eqn:G; b2p; lia.
Qed.

Lemma read_loop_spec fuel va dst0 dst len off got :
  0 <= va -> va + len <= 2 ^ 64 -> len <= zlen dst0 -> 0 <= off <= len ->
  (Z.to_nat (len - off) < fuel)%nat -> filled mem va dst0 dst off ->
  got = readable mem va (Z.to_nat off) ->
  exists dst', read_loop pread fuel va dst len off got =
    Ret (readable mem va (Z.to_nat len), dst') /\ filled mem va dst0 dst' len.
Proof.
  revert dst off got. induction fuel as [|fuel IH]; intros dst off got Hv Hw Hl Ho Hf Hfi Hg; [lia|].
  cbn [read_loop]. destruct (Z.ltb_spec off len) as [Hlt|]; simpl negb; cbv iota.
  2: { replace off with len in * by lia. subst. eauto. }
  destruct (chunk_fits va off len Hv ltac:(lia) Hw) as (Hc & Hu & Hp). cbv zeta.
  set (chunk := if _ >? _ then _ else _) in *. rewrite Hu. clearbody chunk.
  destruct Hfi as [Hfl Hfd Hfr].
  destruct (pread (va + off) chunk) as [|b bs] eqn:Er.
  - simpl. apply IH; try lia.
    + constructor; auto; [|intros; apply Hfr; lia]. intros i Hi.
      destruct (Z.ltb_spec i off); [apply Hfd; lia|]. rewrite Hfr by lia.
      replace (va + i) with (va + off + (i - off)) by lia.
      now rewrite (pread_hole (va + off) chunk) by (auto; lia).
    + subst got. rewrite Z2Nat.inj_add, readable_add by lia.
      rewrite (readable_none mem (va + _)); [lia|]. intros k Hk.
      rewrite Z2Nat.id by lia. apply (pread_hole (va + off) chunk); auto; lia.
  - destruct (pread_some (va + off) chunk ltac:(lia) Hp) as [Hle Hb]. rewrite Er in Hle, Hb.
    set (r := b :: bs) in *. assert (Hr : 0 < zlen r) by (unfold r; rewrite zlen_cons; pose proof (zlen_nonneg bs); lia).
    rewrite (proj2 (Z.eqb_neq (zlen r) 0)) by lia. rewrite memcpy_out_ok, ret_bind by lia.
    assert (Hbyte : forall k, 0 <= k < zlen r -> mem (va + off + k) = Some (zb (byte_at r k))).
    { intros k Hk. unfold byte_at. destruct (lookup_lt_is_Some_2 r (Z.to_nat k)) as [x Hx];
        [unfold zlen in Hk; lia|]. rewrite Hx, zb_bz. rewrite <- (Hb _ _ Hx). f_equal. lia. }
    apply IH; try lia.
    + constructor; [rewrite zlen_splice; lia| |].
      * intros i Hi. destruct (Z.ltb_spec i off).
        -- rewrite byte_at_splice_out by lia. apply Hfd. lia.
        -- rewrite byte_at_splice_in by lia.
           replace (va + i) with (va + off + (i - off)) by lia. rewrite Hbyte by lia.
           rewrite bz_zb_small; [reflexivity|apply byte_at_range].
      * intros i Hi. rewrite byte_at_splice_out by lia. apply Hfr. lia.
    + subst got. rewrite Z2Nat.inj_add, readable_add by lia.
      rewrite (readable_some mem (va + _)); [lia|]. intros k Hk.
      rewrite !Z2Nat.id in * by lia. rewrite Hbyte by lia. eauto.
Qed.

Lemma proc_mem_read_spec va dst len :
  0 <= va -> 0 <= len -> va + len <= 2 ^ 64 -> len <= zlen dst ->
  exists dst', proc_mem_read pread va dst len = Ret (readable mem va (Z.to_nat len), dst') /\
    filled mem va dst dst' len.
Proof.
  intros. apply read_loop_spec; try lia; try reflexivity.
  constructor; auto. intros. lia.
Qed.
End ReadSpec.

(** ** Properties *)

(** For any process memory that is readable or not page by page, and any
    [pread] that serves it (short reads included), [proc_mem_read] terminates,
    stays in the buffer, puts every readable byte of the range at its place,
    leaves the buffer as it was over the holes, and returns the number of readable
    bytes; so a return value of [len] means that the whole range was read. *)
Theorem proc_mem_read_fills pread mem {P : PreadOf pread mem} va dst len :
  0 <= va -> 0 <= len -> va + len <= 2 ^ 64 -> len <= zlen dst ->
  exists got dst', proc_mem_read pread va dst len = Ret (got, dst') /\
    got = readable mem va (Z.to_nat len) /\ zlen dst' = zlen dst /\
    (forall i, 0 <= i < len ->
       byte_at dst' i = match mem (va + i) with Some b => bz b | None => byte_at dst i end) /\
    (forall i, len <= i -> byte_at dst' i = byte_at dst i) /\
    (got = len -> forall i, 0 <= i < len -> is_Some (mem (va + i))).
Proof.
  intros Hv Hl Hw Hd.
  destruct (proc_mem_read_spec pread mem va dst len Hv Hl Hw Hd) as (dst' & E & [H1 H2 H3]).
  do 2 eexists. split; [exact E|]. repeat split; auto. intros Hg i Hi.
  apply (readable_full mem va (Z.to_nat len)); lia.
Qed.

(** A memory whose second page is a hole, and a [pread] that serves it. *)
Definition demo_mem (a : Z) : option byte :=
  if (a / PROC_MEM_PAGE =? 1) then None else Some (zb a).
Definition demo_pread (a n : Z) : list byte :=
  if (a / PROC_MEM_PAGE =? 1) then []
  else map (fun k => zb (a + Z.of_nat k)) (seq 0 (Z.to_nat n)).

Lemma demo_same_page a k :
  0 <= k -> a mod PROC_MEM_PAGE + k < PROC_MEM_PAGE -> (a + k) / PROC_MEM_PAGE = a / PROC_MEM_PAGE.
Proof.
  intros H1 H2. symmetry. apply (Z.div_unique _ _ _ (a mod PROC_MEM_PAGE + k)).
  - pose proof (Z.mod_pos_bound a PROC_MEM_PAGE eq_refl). lia.
  - pose proof (Z.div_mod a PROC_MEM_PAGE). unfold PROC_MEM_PAGE in *. lia.
Qed.

#[export] Instance demo_pread_of : PreadOf demo_pread demo_mem.
Proof.
  constructor.
  - intros a n k Hn Hp He Hk. unfold demo_pread in He. unfold demo_mem.
    rewrite demo_same_page by lia. destruct (_ =? 1); [reflexivity|].
    apply map_eq_nil in He. assert (Hs : length (seq 0 (Z.to_nat n)) = 0%nat) by now rewrite He.
    rewrite length_seq in Hs. lia.
  - intros a n Hn Hp. unfold demo_pread. destruct (a / PROC_MEM_PAGE =? 1) eqn:E.
    + split; [unfold zlen; simpl; lia|]. intros k b Hk. rewrite lookup_nil in Hk. discriminate.
    + split; [unfold zlen; rewrite length_map, length_seq; lia|]. intros k b Hk.
      apply list_lookup_fmap_Some in Hk as (j & Hb & Hj). apply lookup_seq in Hj as [-> Hj]. subst b.
      unfold demo_mem. rewrite demo_same_page by lia. now rewrite E.
Qed.

Lemma proc_mem_read_fills_witness :
  exists got dst', proc_mem_read demo_pread 0xffe (repeat xff 4) 4 = Ret (got, dst') /\ got = 2.
Proof.
  destruct (proc_mem_read_fills demo_pread demo_mem 0xffe (repeat xff 4) 4)
    as (got & dst' & E & Hg & _); [lia..|vm_compute; discriminate|].
  exists got, dst'. split; [exact E|]. rewrite Hg. vm_compute. reflexivity.
Defined.
