(* ===== verification/Reloc.v ===== *)
(** * Reloc: the dynamic section and relative relocations (src/dump/rebuild.c)

    [parse_dynamic] de-rebases the pointer entries of a dumped [.dynamic] and
    gathers a [struct soinfo]; [unapply_relocs] takes the load base back out of
    the slots the DT_RELA and DT_RELR tables name.  The image is the heap block
    [img] of [image_sz] bytes; every load and store is bounds-checked, and the
    64-bit sums of the source's own checks wrap.

    Both functions are related to a list of word updates ([run_ops]) at pairwise
    disjoint slots; un-applying inverts what the dynamic linker did. *)

From Stdlib Require Import ZArith Lia.
From stdpp Require Import base list option numbers.
From S2P Require Import Prelude Elf.

Local Open Scope Z_scope.

Definition DT_NULL := 0.
Definition DT_PLTRELSZ := 2.
Definition DT_PLTGOT := 3.
Definition DT_HASH := 4.
Definition DT_STRTAB := 5.
Definition DT_SYMTAB := 6.
Definition DT_RELA := 7.
Definition DT_RELASZ := 8.
Definition DT_RELAENT := 9.
Definition DT_STRSZ := 10.
Definition DT_INIT := 12.
Definition DT_FINI := 13.
Definition DT_REL := 17.
Definition DT_PLTREL := 20.
Definition DT_DEBUG := 21.
Definition DT_JMPREL := 23.
Definition DT_INIT_ARRAY := 25.
Definition DT_FINI_ARRAY := 26.
Definition DT_INIT_ARRAYSZ := 27.
Definition DT_FINI_ARRAYSZ := 28.
Definition DT_PREINIT_ARRAY := 32.
Definition DT_RELRSZ := 0x23.
Definition DT_RELR := 0x24.
Definition DT_GNU_HASH := 0x6ffffef6.
Definition DT_VERSYM := 0x6ffffff0.
Definition DT_VERDEF := 0x6ffffffc.
Definition DT_VERNEED := 0x6ffffffe.
Definition R_AARCH64_RELATIVE := 1027.

Record soinfo := mk_soinfo {
  symtab : Z; strtab : Z; strsz : Z;
  hash : Z; nbucket : Z; nchain : Z;
  gnu_hash : Z;
  rela : Z; relasz : Z; relaent : Z;
  jmprel : Z; pltrelsz : Z; plt_is_rela : bool;
  relr : Z; relrsz : Z;
  init_array : Z; init_arraysz : Z;
  fini_array : Z; fini_arraysz : Z;
  dynamic_off : Z; dynamic_count : Z
}.

Definition soinfo0 (dyn_off : Z) : soinfo :=
  mk_soinfo 0 0 0 0 0 0 0 0 0 0 0 0 false 0 0 0 0 0 0 dyn_off 0.

Definition dyn_tag_is_ptr (tag : Z) : bool :=
  existsb (Z.eqb tag)
    [DT_PLTGOT; DT_HASH; DT_STRTAB; DT_SYMTAB; DT_RELA; DT_INIT; DT_FINI; DT_REL;
     DT_JMPREL; DT_INIT_ARRAY; DT_FINI_ARRAY; DT_PREINIT_ARRAY; DT_GNU_HASH; DT_VERSYM;
     DT_VERDEF; DT_VERNEED; DT_RELR].

(** The [switch] that records one entry. *)
Definition record_tag (si : soinfo) (tag v : Z) : soinfo :=
  let '(mk_soinfo sy st ss h nb nc g r rs re j pl ip rr rrs ia ias fa fas d c) := si in
  if tag =? DT_SYMTAB then mk_soinfo v st ss h nb nc g r rs re j pl ip rr rrs ia ias fa fas d c
  else if tag =? DT_STRTAB then mk_soinfo sy v ss h nb nc g r rs re j pl ip rr rrs ia ias fa fas d c
  else if tag =? DT_STRSZ then mk_soinfo sy st v h nb nc g r rs re j pl ip rr rrs ia ias fa fas d c
  else if tag =? DT_HASH then mk_soinfo sy st ss v nb nc g r rs re j pl ip rr rrs ia ias fa fas d c
  else if tag =? DT_GNU_HASH then mk_soinfo sy st ss h nb nc v r rs re j pl ip rr rrs ia ias fa fas d c
  else if tag =? DT_RELA then mk_soinfo sy st ss h nb nc g v rs re j pl ip rr rrs ia ias fa fas d c
  else if tag =? DT_RELASZ then mk_soinfo sy st ss h nb nc g r v re j pl ip rr rrs ia ias fa fas d c
  else if tag =? DT_RELAENT then mk_soinfo sy st ss h nb nc g r rs v j pl ip rr rrs ia ias fa fas d c
  else if tag =? DT_JMPREL then mk_soinfo sy st ss h nb nc g r rs re v pl ip rr rrs ia ias fa fas d c
  else if tag =? DT_PLTRELSZ then mk_soinfo sy st ss h nb nc g r rs re j v ip rr rrs ia ias fa fas d c
  else if tag =? DT_PLTREL then mk_soinfo sy st ss h nb nc g r rs re j pl (v =? DT_RELA) rr rrs ia ias fa fas d c
  else if tag =? DT_RELR then mk_soinfo sy st ss h nb nc g r rs re j pl ip v rrs ia ias fa fas d c
  else if tag =? DT_RELRSZ then mk_soinfo sy st ss h nb nc g r rs re j pl ip rr v ia ias fa fas d c
  else if tag =? DT_INIT_ARRAY then mk_soinfo sy st ss h nb nc g r rs re j pl ip rr rrs v ias fa fas d c
  else if tag =? DT_INIT_ARRAYSZ then mk_soinfo sy st ss h nb nc g r rs re j pl ip rr rrs ia v fa fas d c
  else if tag =? DT_FINI_ARRAY then mk_soinfo sy st ss h nb nc g r rs re j pl ip rr rrs ia ias v fas d c
  else if tag =? DT_FINI_ARRAYSZ then mk_soinfo sy st ss h nb nc g r rs re j pl ip rr rrs ia ias fa v d c
  else si.

Definition set_count (si : soinfo) (n : Z) : soinfo :=
  let '(mk_soinfo sy st ss h nb nc g r rs re j pl ip rr rrs ia ias fa fas d c) := si in
  mk_soinfo sy st ss h nb nc g r rs re j pl ip rr rrs ia ias fa fas d n.

Definition set_hash_counts (si : soinfo) (nb nc : Z) : soinfo :=
  let '(mk_soinfo sy st ss h _ _ g r rs re j pl ip rr rrs ia ias fa fas d c) := si in
  mk_soinfo sy st ss h nb nc g r rs re j pl ip rr rrs ia ias fa fas d c.

(** Absolute runtime pointer to file-relative offset. *)
Definition derebase (base image_sz v : Z) : Z :=
  if (v >=? base) && (v <? u64 (base + image_sz)) then v - base else v.

(** The entry loop; [off] is relative to [dyn_off]. *)
Fixpoint dyn_loop (fuel : nat) (img : list byte) (image_sz base dyn_off avail off count : Z)
    (si : soinfo) : res (list byte * soinfo * Z) :=
  match fuel with
  | O => NoFuel
  | S fuel =>
      if negb (u64 (off + sizeof_Dyn) <=? avail) then Ret (img, si, count) else
      let count := u64 (count + 1) in
      let next := u64 (off + sizeof_Dyn) in
      t ← ld64 img (dyn_off + off);
      let tag := s64 t in
      if tag =? DT_NULL then Ret (img, si, count) else
      if tag =? DT_DEBUG then
        img ← st64 img (dyn_off + off + 8) 0;
        dyn_loop fuel img image_sz base dyn_off avail next count si
      else
      img ← (if dyn_tag_is_ptr tag then
               v ← ld64 img (dyn_off + off + 8);
               if (v >=? base) && (v <? u64 (base + image_sz))
               then st64 img (dyn_off + off + 8) (v - base) else Ret img
             else Ret img);
      v ← ld64 img (dyn_off + off + 8);
      dyn_loop fuel img image_sz base dyn_off avail next count (record_tag si tag v)
  end.

Definition parse_dynamic (img : list byte) (image_sz base dyn_off dyn_size : Z)
  : res (list byte * soinfo) :=
  let si := soinfo0 dyn_off in
  if dyn_off >=? image_sz then Ret (img, si) else
  let avail := image_sz - dyn_off in
  let avail := if negb (dyn_size =? 0) && (dyn_size <? avail) then dyn_size else avail in
  '(img, si, count) ← dyn_loop (S (Z.to_nat (avail / 16))) img image_sz base dyn_off avail 0 0 si;
  let si := set_count si (u32 count) in
  if negb (hash si =? 0) && (u64 (hash si + 8) <=? image_sz) then
    nb ← ld_le 4 img (hash si);
    nc ← ld_le 4 img (hash si + 4);
    Ret (img, set_hash_counts si nb nc)
  else Ret (img, si).

(** DT_RELA. *)
Fixpoint rela_loop (fuel : nat) (img : list byte) (image_sz o last : Z) : res (list byte) :=
  match fuel with
  | O => NoFuel
  | S fuel =>
      if negb (u64 (o + sizeof_Rela) <=? last) then Ret img else
      let next := u64 (o + sizeof_Rela) in
      r_info ← ld64 img (o + 8);
      if negb (Z.land r_info 0xffffffff =? R_AARCH64_RELATIVE) then
        rela_loop fuel img image_sz next last
      else
      r_offset ← ld64 img o;
      img ← (if u64 (r_offset + 8) <=? image_sz then
               r_addend ← ld64 img (o + 16);
               st64 img r_offset r_addend
             else Ret img);
      rela_loop fuel img image_sz next last
  end.

(** The bitmap of one odd DT_RELR entry. *)
Fixpoint relr_bits (fuel : nat) (img : list byte) (image_sz base bits w : Z) : res (list byte) :=
  match fuel with
  | O => NoFuel
  | S fuel =>
      if bits =? 0 then Ret img else
      img ← (if negb (Z.land bits 1 =? 0) && (u64 (w + 8) <=? image_sz) then
               v ← ld64 img w;
               st64 img w (u64 (v - base))
             else Ret img);
      relr_bits fuel img image_sz base (Z.shiftr bits 1) (u64 (w + 8))
  end.

Fixpoint relr_loop (fuel : nat) (img : list byte) (image_sz base o last where_ : Z)
  : res (list byte) :=
  match fuel with
  | O => NoFuel
  | S fuel =>
      if negb (u64 (o + 8) <=? last) then Ret img else
      let next := u64 (o + 8) in
      entry ← ld64 img o;
      if Z.land entry 1 =? 0 then
        img ← (if u64 (entry + 8) <=? image_sz then
                 v ← ld64 img entry;
                 st64 img entry (u64 (v - base))
               else Ret img);
        relr_loop fuel img image_sz base next last (u64 (entry + 8))
      else
        img ← relr_bits 64 img image_sz base (Z.shiftr entry 1) where_;
        relr_loop fuel img image_sz base next last (u64 (where_ + 63 * 8))
  end.

Definition unapply_relocs (img : list byte) (image_sz base : Z) (si : soinfo) : res (list byte) :=
  img ← (if negb (rela si =? 0) && negb (relasz si =? 0) then
           let last := u64 (rela si + relasz si) in
           let last := if last >? image_sz then image_sz else last in
           rela_loop (S (Z.to_nat (image_sz / 24))) img image_sz (rela si) last
         else Ret img);
  if negb (relr si =? 0) && negb (relrsz si =? 0) then
    let last := u64 (relr si + relrsz si) in
    let last := if last >? image_sz then image_sz else last in
    relr_loop (S (Z.to_nat (image_sz / 8))) img image_sz base (relr si) last 0
  else Ret img.

(** ** Word updates at disjoint slots *)

#[local] Arguments le_at : simpl never.
#[local] Arguments le_bytes : simpl never.

(** An update of the 64-bit word at an offset by a function of its value. *)
Notation op := (Z * (Z -> Z))%type.

Definition do_op (m : list byte) (o : op) : list byte :=
  splice m (fst o) (le_bytes 8 (snd o (le_at 8 m (fst o)))).
Definition run_ops (m : list byte) (ops : list op) : list byte := fold_left do_op ops m.

Definition slot_in (sz : Z) (o : op) : Prop := 0 <= fst o /\ fst o + 8 <= sz.
(** The slot does not touch [lo, hi). *)
Definition off_range (lo hi : Z) (o : op) : Prop := fst o + 8 <= lo \/ hi <= fst o.
Definition apart (a b : op) : Prop := fst a + 8 <= fst b \/ fst b + 8 <= fst a.

#[global] Instance slot_has_dec i o : Decision (fst (o : op) <= i < fst o + 8).
Proof. apply _. Defined.

Lemma zlen_do_op m o : slot_in (zlen m) o -> zlen (do_op m o) = zlen m.
Proof. intros [? ?]. apply zlen_splice; rewrite ?zlen_le_bytes; simpl; lia. Qed.

Lemma run_ops_cons m o ops : run_ops m (o :: ops) = run_ops (do_op m o) ops.
Proof. reflexivity. Qed.
Lemma run_ops_app m a b : run_ops m (a ++ b) = run_ops (run_ops m a) b.
Proof. apply fold_left_app. Qed.

Lemma zlen_run_ops m ops : Forall (slot_in (zlen m)) ops -> zlen (run_ops m ops) = zlen m.
Proof.
  revert m. induction ops as [|o ops IH]; intros m H; [reflexivity|].
  apply Forall_cons_1 in H as [Ho H]. rewrite run_ops_cons, IH; rewrite zlen_do_op; auto.
Qed.

Lemma do_op_out n m o i :
  slot_in (zlen m) o -> 0 <= i -> off_range i (i + Z.of_nat n) o ->
  le_at n (do_op m o) i = le_at n m i.
Proof.
  unfold off_range. intros [? ?] ? ?.
  apply le_at_splice_out; rewrite ?zlen_le_bytes; simpl; lia.
Qed.

Lemma do_op_in m o :
  slot_in (zlen m) o -> le_at 8 (do_op m o) (fst o) = u64 (snd o (le_at 8 m (fst o))).
Proof. intros [? ?]. unfold do_op. now rewrite le_at_splice_in by (simpl; lia). Qed.

Lemma run_ops_out n m ops i :
  Forall (slot_in (zlen m)) ops -> 0 <= i -> Forall (off_range i (i + Z.of_nat n)) ops ->
  le_at n (run_ops m ops) i = le_at n m i.
Proof.
  revert m. induction ops as [|o ops IH]; intros m Hs Hi Ho; [reflexivity|].
  apply Forall_cons_1 in Hs as [Hs1 Hs]. apply Forall_cons_1 in Ho as [Ho1 Ho].
  rewrite run_ops_cons, IH by (rewrite ?zlen_do_op; auto). now apply do_op_out.
Qed.

Lemma run_ops_in m ops o :
  Forall (slot_in (zlen m)) ops -> List.ForallOrdPairs apart ops -> o ∈ ops ->
  le_at 8 (run_ops m ops) (fst o) = u64 (snd o (le_at 8 m (fst o))).
Proof.
  revert m. induction ops as [|a ops IH]; intros m Hs Hp Hin; [inversion Hin|].
  apply Forall_cons_1 in Hs as [Hs1 Hs]. inversion Hp as [|? ? Ha Hp']; subst.
  pose proof (zlen_do_op m a Hs1) as Hl. rewrite run_ops_cons.
  apply elem_of_cons in Hin as [->|Hin].
  - rewrite run_ops_out; rewrite ?Hl; auto; [now apply do_op_in|apply Hs1|].
    revert Ha. apply List.Forall_impl. intros b Hb. unfold off_range, apart in *. simpl. lia.
  - rewrite IH; rewrite ?Hl; auto. f_equal. f_equal.
    pose proof (proj1 (list.Forall_forall _ _) Ha _ Hin) as Ha'.
    pose proof (proj1 (list.Forall_forall _ _) Hs _ Hin) as Hs'.
    destruct Hs'. apply do_op_out; [auto..|]. unfold off_range, apart in *. simpl. lia.
Qed.

(** An update that does not change its word changes nothing. *)
Lemma do_op_id m o :
  slot_in (zlen m) o -> u64 (snd o (le_at 8 m (fst o))) = le_at 8 m (fst o) -> do_op m o = m.
Proof.
  intros Hs Hid. pose proof Hs as [? ?]. apply bytes_ext; [now apply zlen_do_op|].
  rewrite zlen_do_op by auto. intros i Hi.
  destruct (decide (fst o <= i < fst o + 8)) as [Hin|Hout].
  - replace i with (fst o + (i - fst o)) by lia. apply (le_at_inj 8); [|lia].
    now rewrite do_op_in.
  - apply byte_at_splice_out; rewrite ?zlen_le_bytes; simpl; lia.
Qed.

(** Two update lists over the same disjoint slots compose slot by slot. *)
Section Compose.
Context {A : Type} (f g h : A -> op).
Hypothesis same_slot : forall a, fst (g a) = fst (f a) /\ fst (h a) = fst (f a).

Lemma Forall_same_slot (P : op -> Prop) (k : A -> op) l :
  (forall o o', fst o' = fst o -> P o -> P o') -> (forall a, fst (k a) = fst (f a)) ->
  Forall P (map f l) -> Forall P (map k l).
Proof.
  intros HP Hk. induction l as [|a l IH]; simpl; intros H; [constructor|].
  apply Forall_cons_1 in H as [Ha H]. constructor; [|now apply IH]. now apply (HP (f a)).
Qed.

Lemma apart_same_slot (k : A -> op) l :
  (forall a, fst (k a) = fst (f a)) ->
  List.ForallOrdPairs apart (map f l) -> List.ForallOrdPairs apart (map k l).
Proof.
  intros Hk. induction l as [|a l IH]; intros H; [constructor|].
  inversion H as [|? ? Ha Hp]; subst. constructor; [|now apply IH].
  apply (Forall_same_slot _ k); auto.
  - unfold apart. intros o o' Ho. now rewrite Ho.
  - revert Ha. apply List.Forall_impl. unfold apart. now rewrite Hk.
Qed.

Lemma run_ops_compose m l :
  Forall (slot_in (zlen m)) (map f l) -> List.ForallOrdPairs apart (map f l) ->
  (forall a, a ∈ l -> let v := le_at 8 m (fst (f a)) in
     u64 (snd (g a) (u64 (snd (f a) v))) = u64 (snd (h a) v)) ->
  run_ops (run_ops m (map f l)) (map g l) = run_ops m (map h l).
Proof.
  intros Hs Hp Hval. pose proof (zlen_run_ops m _ Hs) as Hl.
  assert (Hg : forall a, fst (g a) = fst (f a)) by (intros; apply same_slot).
  assert (Hh : forall a, fst (h a) = fst (f a)) by (intros; apply same_slot).
  assert (Hin : forall k, (forall a, fst (k a) = fst (f a)) ->
    Forall (slot_in (zlen m)) (map k l)).
  { intros k Hk. apply Forall_same_slot; auto. unfold slot_in. intros ? ? ->. auto. }
  pose proof (apart_same_slot g l Hg Hp) as Hpg. pose proof (apart_same_slot h l Hh Hp) as Hph.
  assert (Hsg : Forall (slot_in (zlen (run_ops m (map f l)))) (map g l)) by (rewrite Hl; auto).
  apply bytes_ext; rewrite ?zlen_run_ops, ?Hl; auto. intros i Hi.
  destruct (decide (Exists (fun o : op => fst o <= i < fst o + 8) (map f l))) as [He|Hn].
  - apply list.Exists_exists in He as (o & Ho & Hio).
    apply list_elem_of_fmap in Ho as (a & -> & Ha).
    replace i with (fst (f a) + (i - fst (f a))) by lia. apply (le_at_inj 8); [|lia].
    rewrite <- (Hg a) at 1. rewrite run_ops_in, Hg by (auto; now apply list_elem_of_fmap_2).
    rewrite run_ops_in by (auto; now apply list_elem_of_fmap_2).
    rewrite <- (Hh a) at 2. rewrite run_ops_in, Hh by (auto; now apply list_elem_of_fmap_2).
    now apply Hval.
  - assert (Ho : forall k, (forall a, fst (k a) = fst (f a)) ->
      Forall (off_range i (i + Z.of_nat 1)) (map k l)).
    { intros k Hk. apply Forall_same_slot; auto; [unfold off_range; intros ? ? ->; auto|].
      apply list.Forall_forall. intros o Hin'. unfold off_range.
      destruct (decide (fst o <= i < fst o + 8)); [|lia].
      exfalso. apply Hn. apply list.Exists_exists. eauto. }
    rewrite <- !le_at_1. rewrite !run_ops_out; auto; lia.
Qed.
End Compose.

(** ** The tables as data *)

Definition rela_relative (m : list byte) (o : Z) : bool :=
  Z.land (le_at 8 m (o + 8)) 0xffffffff =? R_AARCH64_RELATIVE.

(** Offset and addend of the relative entries of a table of [n] entries. *)
Fixpoint rela_table (n : nat) (m : list byte) (o : Z) : list (Z * Z) :=
  match n with
  | O => []
  | S n =>
      (if rela_relative m o then [(le_at 8 m o, le_at 8 m (o + 16))] else []) ++
      rela_table n m (o + sizeof_Rela)
  end.

(** The words of a table of [n] words. *)
Fixpoint words (n : nat) (m : list byte) (o : Z) : list Z :=
  match n with O => [] | S n => le_at 8 m o :: words n m (o + 8) end.

(** The slots a DT_RELR entry list names: an even entry is a slot; bit [k + 1] of
    an odd entry stands for the [k]-th word after the position reached. *)
Definition relr_bitmap (where_ entry : Z) : list Z :=
  map (fun k => where_ + 8 * Z.of_nat k)
    (List.filter (fun k => Z.testbit entry (Z.of_nat k + 1)) (seq 0 63)).
Definition bit_slots (n : nat) (bits w : Z) : list Z :=
  map (fun k => w + 8 * Z.of_nat k)
    (List.filter (fun k => Z.testbit bits (Z.of_nat k)) (seq 0 n)).
Fixpoint relr_slots (where_ : Z) (es : list Z) : list Z :=
  match es with
  | [] => []
  | e :: es =>
      if Z.even e then e :: relr_slots (e + 8) es
      else relr_bitmap where_ e ++ relr_slots (where_ + 504) es
  end.

Definition put_op (e : Z * Z) : op := (fst e, fun _ => snd e).
Definition sub_op (base t : Z) : op := (t, fun v => v - base).

Lemma relr_bitmap_bits w e : relr_bitmap w e = bit_slots 63 (Z.shiftr e 1) w.
Proof.
  unfold relr_bitmap, bit_slots. f_equal. apply List.filter_ext. intros k.
  now rewrite Z.shiftr_spec by lia.
Qed.

Lemma bit_slots_S n bits w :
  bit_slots (S n) bits w =
  (if Z.odd bits then [w] else []) ++ bit_slots n (Z.shiftr bits 1) (w + 8).
Proof.
  unfold bit_slots. change (seq 0 (S n)) with (0%nat :: seq 1 n). rewrite <- seq_shift.
  cbn [List.filter]. change (Z.testbit bits (Z.of_nat 0)) with (Z.testbit bits 0).
  rewrite Z.bit0_odd.
  assert (H : map (fun k => w + 8 * Z.of_nat k)
                (List.filter (fun k => Z.testbit bits (Z.of_nat k)) (map S (seq 0 n))) =
              map (fun k => w + 8 + 8 * Z.of_nat k)
                (List.filter (fun k => Z.testbit (Z.shiftr bits 1) (Z.of_nat k)) (seq 0 n))).
  { induction (seq 0 n) as [|k l IH]; [reflexivity|]. cbn [map List.filter].
    rewrite Z.shiftr_spec by lia. replace (Z.of_nat k + 1) with (Z.of_nat (S k)) by lia.
    destruct (Z.testbit bits (Z.of_nat (S k))); cbn [map]; rewrite IH; [f_equal; lia|reflexivity]. }
  rewrite <- H. destruct (Z.odd bits); [|reflexivity]. simpl. f_equal. lia.
Qed.

Lemma bit_slots_0 n w : bit_slots n 0 w = [].
Proof.
  unfold bit_slots. erewrite List.filter_ext; [|intros k; apply Z.bits_0].
  induction (seq 0 n); simpl; auto.
Qed.

Lemma land_1 z : (Z.land z 1 =? 0) = negb (Z.odd z).
Proof.
  change 1 with (Z.ones 1). rewrite Z.land_ones by lia. change (2 ^ 1) with 2.
  rewrite Zmod_odd. now destruct (Z.odd z).
Qed.

Lemma rela_table_ext n m m' o :
  0 <= o -> (forall i, o <= i -> i + 8 <= o + 24 * Z.of_nat n -> le_at 8 m' i = le_at 8 m i) ->
  rela_table n m' o = rela_table n m o.
Proof.
  revert o. induction n as [|n IH]; intros o Ho H; [reflexivity|]. cbn [rela_table].
  unfold rela_relative, sizeof_Rela. rewrite !H by lia. f_equal. apply IH; [lia|].
  intros i Hi Hi'. apply H; lia.
Qed.

Lemma words_ext n m m' o :
  0 <= o -> (forall i, o <= i -> i + 8 <= o + 8 * Z.of_nat n -> le_at 8 m' i = le_at 8 m i) ->
  words n m' o = words n m o.
Proof.
  revert o. induction n as [|n IH]; intros o Ho H; [reflexivity|]. cbn [words].
  rewrite H by lia. f_equal. apply IH; [lia|]. intros i Hi Hi'. apply H; lia.
Qed.

Lemma off_range_shrink lo hi lo' hi' o :
  off_range lo hi o -> lo <= lo' -> hi' <= hi -> off_range lo' hi' o.
Proof. unfold off_range. lia. Qed.

Section Loops.
Context (image_sz : Z) (Hsz : 0 <= image_sz < 2 ^ 62).

(** Storing to a slot of the image is the update. *)
Lemma st64_put m o v :
  zlen m = image_sz -> slot_in image_sz (o, fun _ => v) ->
  st64 m o v = Ret (do_op m (o, fun _ => v)).
Proof. intros Hm [? ?]. apply st64_ok; simpl in *; lia. Qed.

Lemma rela_loop_spec n fuel m o last :
  zlen m = image_sz -> 0 <= o -> last <= image_sz -> (n < fuel)%nat ->
  o + 24 * Z.of_nat n <= last < o + 24 * Z.of_nat n + 24 ->
  Forall (slot_in image_sz) (map put_op (rela_table n m o)) ->
  Forall (off_range o last) (map put_op (rela_table n m o)) ->
  rela_loop fuel m image_sz o last = Ret (run_ops m (map put_op (rela_table n m o))).
Proof.
  revert fuel m o. induction n as [|n IH]; intros [|fuel] m o Hm Ho Hl Hf Hr Hs Hd;
    try lia; cbn [rela_loop]; unfold sizeof_Rela; rewrite u64_small by lia.
  - rewrite (proj2 (Z.leb_gt _ _)) by lia. reflexivity.
  - rewrite (proj2 (Z.leb_le _ _)) by lia. simpl negb. cbv iota.
    rewrite (ld64_ok m (o + 8)), ret_bind by lia. cbn [rela_table] in *.
    change (Z.land _ _ =? _) with (rela_relative m o).
    destruct (rela_relative m o) eqn:Er; simpl negb; cbv iota.
    + simpl in Hs, Hd. apply Forall_cons_1 in Hs as [Hs1 Hs]. apply Forall_cons_1 in Hd as [Hd1 Hd].
      rewrite (ld64_ok m o), ret_bind by lia.
      pose proof (le_at_range 8 m o) as Hx. destruct Hs1 as [? Hs1]. simpl in Hx, Hs1.
      rewrite u64_small, (proj2 (Z.leb_le _ _)), ld64_ok, ret_bind by lia.
      rewrite st64_put, ret_bind by (auto; split; simpl; lia).
      change (le_at 8 m o, fun _ => le_at 8 m (o + 16)) with (put_op (le_at 8 m o, le_at 8 m (o + 16))).
      cbn beta.
      set (e := (le_at 8 m o, le_at 8 m (o + 16))) in *.
      assert (Hin : slot_in (zlen m) (put_op e)) by (split; simpl; lia).
      assert (Hext : rela_table n (do_op m (put_op e)) (o + 24) = rela_table n m (o + 24)).
      { apply rela_table_ext; [lia|]. intros i Hi Hi'. apply do_op_out; auto; [lia|].
        apply (off_range_shrink o last); simpl; auto; lia. }
      simpl. rewrite IH; rewrite ?zlen_do_op, ?Hext; auto; try lia.
      revert Hd. apply List.Forall_impl. intros a Ha. apply (off_range_shrink o last); auto; lia.
    + simpl app in *. unfold sizeof_Rela in *. apply IH; auto; try lia.
      revert Hd. apply List.Forall_impl. intros a Ha. apply (off_range_shrink o last); auto; lia.
Qed.

Context (base : Z).

Lemma sub_step m w :
  zlen m = image_sz -> slot_in image_sz (sub_op base w) ->
  (v ← ld64 m w; st64 m w (u64 (v - base))) = Ret (do_op m (sub_op base w)).
Proof.
  intros Hm [? ?]. simpl in *. rewrite ld64_ok by lia. unfold mbind, res_bind.
  rewrite st64_ok by lia. unfold do_op, sub_op. simpl fst. simpl snd. do 2 f_equal.
  apply bytes_ext; [now rewrite !zlen_le_bytes|]. rewrite zlen_le_bytes. intros i Hi.
  apply (le_at_inj 8 _ _ 0 i); [|lia]. rewrite !le_at_le_bytes. apply u64_small.
  apply u64_range.
Qed.

(** The shifting loop visits the set bits in order. *)
Lemma relr_bits_spec n fuel m bits w :
  zlen m = image_sz -> 0 <= w -> 0 <= bits < 2 ^ Z.of_nat n -> (n < fuel)%nat ->
  Forall (slot_in image_sz) (map (sub_op base) (bit_slots n bits w)) ->
  relr_bits fuel m image_sz base bits (u64 w) =
  Ret (run_ops m (map (sub_op base) (bit_slots n bits w))).
Proof.
  revert fuel m bits w. induction n as [|n IH]; intros [|fuel] m bits w Hm Hw Hb Hf Hs;
    try lia; cbn [relr_bits].
  - replace bits with 0 by (simpl in Hb; lia). reflexivity.
  - destruct (Z.eqb_spec bits 0) as [->|Hne]; [now rewrite bit_slots_0|].
    rewrite bit_slots_S in *. rewrite land_1, negb_involutive.
    assert (Hb' : 0 <= Z.shiftr bits 1 < 2 ^ Z.of_nat n).
    { rewrite Z.shiftr_div_pow2 by lia. change (2 ^ 1) with 2.
      rewrite Nat2Z.inj_succ, Z.pow_succ_r in Hb by lia.
      split; [apply Z.div_pos; lia|apply Z.div_lt_upper_bound; lia]. }
    assert (Hnext : u64 (u64 w + 8) = u64 (w + 8)) by (unfold u64; now rewrite Zplus_mod_idemp_l).
    rewrite Hnext. destruct (Z.odd bits); simpl app in *; simpl andb.
    + apply Forall_cons_1 in Hs as [Hs1 Hs]. pose proof Hs1 as [_ Hle]. simpl in Hle.
      rewrite (u64_small w), (u64_small (w + 8)) by lia.
      rewrite (proj2 (Z.leb_le _ _)) by lia.
      rewrite sub_step, ret_bind by auto. rewrite <- (u64_small (w + 8)) at 1 by lia.
      assert (slot_in (zlen m) (sub_op base w)) by now rewrite Hm.
      cbn [map]. rewrite run_ops_cons. apply IH; rewrite ?zlen_do_op; auto; lia.
    + cbn [andb]; rewrite ret_bind. apply IH; auto; lia.
Qed.

Lemma relr_loop_spec n fuel m o last w :
  zlen m = image_sz -> 0 <= o -> last <= image_sz -> (n < fuel)%nat -> 0 <= w ->
  o + 8 * Z.of_nat n <= last < o + 8 * Z.of_nat n + 8 ->
  let ops := map (sub_op base) (relr_slots w (words n m o)) in
  Forall (slot_in image_sz) ops -> Forall (off_range o last) ops ->
  relr_loop fuel m image_sz base o last (u64 w) = Ret (run_ops m ops).
Proof.
  revert fuel m o w. induction n as [|n IH]; intros [|fuel] m o w Hm Ho Hl Hf Hw Hr ops Hs Hd;
    try lia; cbn [relr_loop]; rewrite u64_small by lia.
  - rewrite (proj2 (Z.leb_gt _ _)) by lia. reflexivity.
  - rewrite (proj2 (Z.leb_le _ _)) by lia. simpl negb. cbv iota.
    rewrite (ld64_ok m o), ret_bind by lia. unfold ops in *. clear ops.
    cbn [words relr_slots] in *. rewrite land_1, <- Z.negb_even, negb_involutive.
    pose proof (le_at_range 8 m o) as Hx. change (2 ^ (8 * Z.of_nat 8)) with (2 ^ 64) in Hx.
    set (e := le_at 8 m o) in *.
    assert (Hgo : forall first w', 0 <= w' ->
      Forall (slot_in image_sz) first -> Forall (off_range o last) first ->
      Forall (slot_in image_sz) (map (sub_op base) (relr_slots w' (words n m (o + 8)))) ->
      Forall (off_range o last) (map (sub_op base) (relr_slots w' (words n m (o + 8)))) ->
      relr_loop fuel (run_ops m first) image_sz base (o + 8) last (u64 w') =
      Ret (run_ops m (first ++ map (sub_op base) (relr_slots w' (words n m (o + 8)))))).
    { intros first w' Hw' Hs1 Hd1 Hs2 Hd2. rewrite run_ops_app.
      assert (Hs1' : Forall (slot_in (zlen m)) first) by now rewrite Hm.
      assert (Hext : words n (run_ops m first) (o + 8) = words n m (o + 8)).
      { apply words_ext; [lia|]. intros i Hi Hi'. apply run_ops_out; auto; [lia|].
        revert Hd1. apply List.Forall_impl. intros a Ha.
        apply (off_range_shrink o last); simpl; auto; lia. }
      rewrite <- Hext. apply IH; rewrite ?zlen_run_ops, ?Hext; auto; try lia.
      revert Hd2. apply List.Forall_impl. intros a Ha.
      apply (off_range_shrink o last); simpl; auto; lia. }
    destruct (Z.even e).
    + cbn [map] in *. apply Forall_cons_1 in Hs as [Hs1 Hs]. apply Forall_cons_1 in Hd as [Hd1 Hd].
      pose proof Hs1 as [_ Hle]. simpl in Hle.
      rewrite (u64_small (e + 8)) by lia. rewrite (proj2 (Z.leb_le (e + 8) _)) by lia.
      rewrite sub_step, ret_bind by auto. rewrite <- (u64_small (e + 8)) at 1 by lia.
      apply (Hgo [sub_op base e] (e + 8)); auto; lia.
    + rewrite map_app in *. apply Forall_app in Hs as [Hs1 Hs]. apply Forall_app in Hd as [Hd1 Hd].
      rewrite relr_bitmap_bits in *.
      rewrite (relr_bits_spec 63), ret_bind; auto; [|split].
      * replace (u64 (u64 w + 63 * 8)) with (u64 (w + 504)).
        -- apply Hgo; auto; lia.
        -- unfold u64. now rewrite Zplus_mod_idemp_l.
      * apply Z.shiftr_nonneg. lia.
      * rewrite Z.shiftr_div_pow2 by lia. apply Z.div_lt_upper_bound; simpl; lia.
Qed.
End Loops.

(** ** Un-applying inverts the loader *)

(** A relative relocation: a DT_RELA entry with its addend, a DT_RELR slot. *)
Inductive slot :=
| RelaSlot (off addend : Z)
| RelrSlot (off : Z).

Definition rela_slots (m : list byte) (si : soinfo) : list slot :=
  if negb (rela si =? 0) && negb (relasz si =? 0)
  then map (fun e => RelaSlot (fst e) (snd e)) (rela_table (Z.to_nat (relasz si / 24)) m (rela si))
  else [].
Definition relr_list (m : list byte) (si : soinfo) : list slot :=
  if negb (relr si =? 0) && negb (relrsz si =? 0)
  then map RelrSlot (relr_slots 0 (words (Z.to_nat (relrsz si / 8)) m (relr si)))
  else [].
Definition slots (m : list byte) (si : soinfo) : list slot := rela_slots m si ++ relr_list m si.

(** What the dynamic linker does to a slot at load base [base]. *)
Definition load_op (base : Z) (s : slot) : op :=
  match s with
  | RelaSlot o a => (o, fun _ => a + base)
  | RelrSlot o => (o, fun v => v + base)
  end.
Definition unapply_op (base : Z) (s : slot) : op :=
  match s with
  | RelaSlot o a => (o, fun _ => a)
  | RelrSlot o => (o, fun v => v - base)
  end.
(** The addend written where a RELA entry points, nothing else. *)
Definition fill_op (s : slot) : op :=
  match s with
  | RelaSlot o a => (o, fun _ => a)
  | RelrSlot o => (o, fun v => v)
  end.

Definition load_image (base : Z) (m : list byte) (si : soinfo) : list byte :=
  run_ops m (map (load_op base) (slots m si)).
Definition fill_addends (m : list byte) (si : soinfo) : list byte :=
  run_ops m (map fill_op (slots m si)).

(** Both tables lie in the image, the slots they name lie in the image, outside
    the tables, and do not overlap. *)
Record reloc_wf (m : list byte) (si : soinfo) : Prop := {
  wf_rela : 0 <= rela si /\ 0 <= relasz si /\ rela si + relasz si <= zlen m;
  wf_relr : 0 <= relr si /\ 0 <= relrsz si /\ relr si + relrsz si <= zlen m;
  wf_in : Forall (slot_in (zlen m)) (map fill_op (slots m si));
  wf_off_rela : Forall (off_range (rela si) (rela si + relasz si)) (map fill_op (slots m si));
  wf_off_relr : Forall (off_range (relr si) (relr si + relrsz si)) (map fill_op (slots m si));
  wf_apart : List.ForallOrdPairs apart (map fill_op (slots m si))
}.

Lemma slot_ops_same base s :
  fst (load_op base s) = fst (fill_op s) /\ fst (unapply_op base s) = fst (fill_op s).
Proof. destruct s; auto. Qed.

(** Updates outside the tables do not change what the tables say. *)
Lemma slots_stable m si ops :
  reloc_wf m si -> Forall (slot_in (zlen m)) ops ->
  Forall (off_range (rela si) (rela si + relasz si)) ops ->
  Forall (off_range (relr si) (relr si + relrsz si)) ops ->
  rela_slots (run_ops m ops) si = rela_slots m si /\
  relr_list (run_ops m ops) si = relr_list m si.
Proof.
  intros [(Ha1 & Ha2 & Ha3) (Hr1 & Hr2 & Hr3) _ _ _ _] Hin Hoa Hor.
  assert (Hout : forall lo hi i, 0 <= lo -> Forall (off_range lo hi) ops ->
    lo <= i -> i + 8 <= hi -> le_at 8 (run_ops m ops) i = le_at 8 m i).
  { intros lo hi i Hlo Ho H1 H2. apply run_ops_out; auto; [lia|].
    revert Ho. apply List.Forall_impl. intros a Ha. apply (off_range_shrink lo hi); simpl; auto; lia. }
  pose proof (Z.mul_div_le (relasz si) 24). pose proof (Z.mul_div_le (relrsz si) 8).
  pose proof (Z.div_pos (relasz si) 24). pose proof (Z.div_pos (relrsz si) 8).
  split; [unfold rela_slots|unfold relr_list];
    (destruct (negb _ && negb _); [|reflexivity]).
  - f_equal. apply rela_table_ext; [lia|]. intros.
    apply (Hout (rela si) (rela si + relasz si)); auto; lia.
  - do 2 f_equal. apply words_ext; [lia|]. intros.
    apply (Hout (relr si) (relr si + relrsz si)); auto; lia.
Qed.

Lemma fill_slots (P : op -> Prop) k l :
  (forall o o', fst o' = fst o -> P o -> P o') -> (forall s, fst (k s) = fst (fill_op s)) ->
  Forall P (map fill_op l) -> Forall P (map k l).
Proof. intros HP Hk. now apply Forall_same_slot. Qed.

Lemma slot_in_same sz (o o' : op) : fst o' = fst o -> slot_in sz o -> slot_in sz o'.
Proof. unfold slot_in. intros ->. auto. Qed.
Lemma off_range_same lo hi (o o' : op) : fst o' = fst o -> off_range lo hi o -> off_range lo hi o'.
Proof. unfold off_range. intros ->. auto. Qed.

Lemma rela_part m base si :
  zlen m < 2 ^ 62 -> 0 <= rela si -> 0 <= relasz si -> rela si + relasz si <= zlen m ->
  Forall (slot_in (zlen m)) (map (unapply_op base) (rela_slots m si)) ->
  Forall (off_range (rela si) (rela si + relasz si)) (map (unapply_op base) (rela_slots m si)) ->
  (if negb (rela si =? 0) && negb (relasz si =? 0) then
     let last := u64 (rela si + relasz si) in
     let last := if last >? zlen m then zlen m else last in
     rela_loop (S (Z.to_nat (zlen m / 24))) m (zlen m) (rela si) last
   else Ret m) = Ret (run_ops m (map (unapply_op base) (rela_slots m si))).
Proof.
  intros Hsz H1 H2 H3 Hin Hoff. pose proof (zlen_nonneg m). unfold rela_slots in *.
  destruct (negb _ && negb _); [|reflexivity]. rewrite map_map in *.
  change (fun x => unapply_op base (RelaSlot (fst x) (snd x))) with put_op in *.
  cbv zeta. rewrite u64_small, (Z.gtb_ltb _ (zlen m)), (proj2 (Z.ltb_ge _ _)) by lia.
  pose proof (Z.div_mod (relasz si) 24). pose proof (Z.mod_pos_bound (relasz si) 24).
  pose proof (Z.div_pos (relasz si) 24).
  pose proof (Z.div_le_mono (relasz si) (zlen m) 24).
  apply rela_loop_spec; auto; try lia.
Qed.

Lemma relr_part m base si :
  zlen m < 2 ^ 62 -> 0 <= relr si -> 0 <= relrsz si -> relr si + relrsz si <= zlen m ->
  Forall (slot_in (zlen m)) (map (unapply_op base) (relr_list m si)) ->
  Forall (off_range (relr si) (relr si + relrsz si)) (map (unapply_op base) (relr_list m si)) ->
  (if negb (relr si =? 0) && negb (relrsz si =? 0) then
     let last := u64 (relr si + relrsz si) in
     let last := if last >? zlen m then zlen m else last in
     relr_loop (S (Z.to_nat (zlen m / 8))) m (zlen m) base (relr si) last 0
   else Ret m) = Ret (run_ops m (map (unapply_op base) (relr_list m si))).
Proof.
  intros Hsz H1 H2 H3 Hin Hoff. pose proof (zlen_nonneg m). unfold relr_list in *.
  destruct (negb _ && negb _); [|reflexivity]. rewrite map_map in *.
  change (fun x => unapply_op base (RelrSlot x)) with (sub_op base) in *.
  cbv zeta. rewrite u64_small, (Z.gtb_ltb _ (zlen m)), (proj2 (Z.ltb_ge _ _)) by lia.
  pose proof (Z.div_mod (relrsz si) 8). pose proof (Z.mod_pos_bound (relrsz si) 8).
  pose proof (Z.div_pos (relrsz si) 8).
  pose proof (Z.div_le_mono (relrsz si) (zlen m) 8).
  pose proof (relr_loop_spec (zlen m) ltac:(lia) base (Z.to_nat (relrsz si / 8))
    (S (Z.to_nat (zlen m / 8))) m (relr si) (relr si + relrsz si) 0) as Hgo.
  change (u64 0) with 0 in Hgo. apply Hgo; auto; lia.
Qed.

Lemma unapply_relocs_spec m base si :
  zlen m < 2 ^ 62 -> reloc_wf m si ->
  unapply_relocs m (zlen m) base si = Ret (run_ops m (map (unapply_op base) (slots m si))).
Proof.
  intros Hsz Hwf. pose proof Hwf as [(Ha1 & Ha2 & Ha3) (Hr1 & Hr2 & Hr3) Hin Hoa Hor _].
  assert (Hk : forall s, fst (unapply_op base s) = fst (fill_op s)) by (intros; apply slot_ops_same).
  apply (fill_slots _ (unapply_op base)) in Hin; [|apply slot_in_same|exact Hk].
  apply (fill_slots _ (unapply_op base)) in Hoa; [|apply off_range_same|exact Hk].
  apply (fill_slots _ (unapply_op base)) in Hor; [|apply off_range_same|exact Hk].
  unfold unapply_relocs, slots in *. rewrite map_app, run_ops_app in *.
  apply Forall_app in Hin as [Hin1 Hin2]. apply Forall_app in Hoa as [Hoa1 Hoa2].
  apply Forall_app in Hor as [Hor1 Hor2].
  pose proof (rela_part m base si Hsz Ha1 Ha2 Ha3 Hin1 Hoa1) as Ea. cbv zeta in Ea |- *.
  rewrite Ea, ret_bind. clear Ea.
  set (m1 := run_ops m (map (unapply_op base) (rela_slots m si))).
  destruct (slots_stable m si (map (unapply_op base) (rela_slots m si)) Hwf Hin1 Hoa1 Hor1) as [_ E].
  fold m1 in E. assert (Hl : zlen m1 = zlen m) by now apply zlen_run_ops.
  rewrite <- E, <- Hl. apply relr_part; rewrite ?E, ?Hl; auto.
Qed.

(** Relocating, un-relocating or filling in the addends keeps the tables. *)
Lemma slots_kept m si k :
  reloc_wf m si -> (forall s, fst (k s) = fst (fill_op s)) ->
  let m' := run_ops m (map k (slots m si)) in
  zlen m' = zlen m /\ slots m' si = slots m si /\ reloc_wf m' si.
Proof.
  intros Hwf Hk m'. pose proof Hwf as [Ha Hr Hin Hoa Hor Hap].
  pose proof (fill_slots _ k _ (slot_in_same _) Hk Hin) as Hin'.
  destruct (slots_stable m si (map k (slots m si))) as [E1 E2];
    eauto using fill_slots, slot_in_same, off_range_same.
  assert (Hl : zlen m' = zlen m) by now apply zlen_run_ops.
  assert (Hs : slots m' si = slots m si) by (unfold slots, m'; now rewrite E1, E2).
  split; [exact Hl|]. split; [exact Hs|]. constructor; rewrite ?Hs, ?Hl; auto.
Qed.

Lemma ops_cancel m si f g h :
  reloc_wf m si ->
  (forall s, fst (f s) = fst (fill_op s) /\ fst (g s) = fst (fill_op s) /\ fst (h s) = fst (fill_op s)) ->
  (forall s v, u64 (snd (g s) (u64 (snd (f s) v))) = u64 (snd (h s) v)) ->
  run_ops (run_ops m (map f (slots m si))) (map g (slots m si)) = run_ops m (map h (slots m si)).
Proof.
  intros Hwf Hk Hv. pose proof Hwf as [Ha Hr Hin Hoa Hor Hap].
  apply run_ops_compose.
  - intros s. destruct (Hk s) as (E1 & E2 & E3). split; congruence.
  - apply fill_slots; auto; [apply slot_in_same|intros; apply Hk].
  - apply (apart_same_slot fill_op); auto. intros; apply Hk.
  - intros; apply Hv.
Qed.

(** ** The dynamic array *)

(** The entries of the array, up to and including DT_NULL. *)
Fixpoint dyn_entries (n : nat) (m : list byte) (o : Z) : list (Z * Z) :=
  match n with
  | O => []
  | S n =>
      let e := (s64 (le_at 8 m o), le_at 8 m (o + 8)) in
      if fst e =? DT_NULL then [e] else e :: dyn_entries n m (o + sizeof_Dyn)
  end.

(** What becomes of an entry's value. *)
Definition fix_val (base image_sz tag v : Z) : Z :=
  if tag =? DT_DEBUG then 0
  else if dyn_tag_is_ptr tag then derebase base image_sz v else v.
Definition fix_entry (base image_sz : Z) (e : Z * Z) : Z * Z :=
  (fst e, fix_val base image_sz (fst e) (snd e)).

Fixpoint dyn_ops (base image_sz o : Z) (es : list (Z * Z)) : list op :=
  match es with
  | [] => []
  | e :: es => (o + 8, fix_val base image_sz (fst e)) :: dyn_ops base image_sz (o + sizeof_Dyn) es
  end.

Definition record_entries (si : soinfo) (es : list (Z * Z)) : soinfo :=
  fold_left (fun si e => record_tag si (fst e) (snd e)) es si.

Lemma fix_val_range base image_sz tag v :
  0 <= base -> 0 <= v < 2 ^ 64 -> 0 <= fix_val base image_sz tag v < 2 ^ 64.
Proof.
  intros Hb Hv. unfold fix_val, derebase. destruct (tag =? DT_DEBUG); [lia|].
  destruct (dyn_tag_is_ptr tag); [|lia].
  destruct (_ && _) eqn:E; [|lia]. b2p. lia.
Qed.

Lemma dyn_entries_ext n m m' o :
  0 <= o -> (forall i, o <= i -> i + 8 <= o + 16 * Z.of_nat n -> le_at 8 m' i = le_at 8 m i) ->
  dyn_entries n m' o = dyn_entries n m o.
Proof.
  revert o. induction n as [|n IH]; intros o Ho H; [reflexivity|]. cbn [dyn_entries]. cbv zeta.
  unfold sizeof_Dyn. rewrite !H by lia. destruct (_ =? _); [reflexivity|]. f_equal.
  apply IH; [lia|]. intros i Hi Hi'. apply H; lia.
Qed.

Lemma dyn_ops_in base image_sz (m : list byte) n o :
  0 <= o -> o + 16 * Z.of_nat n <= zlen m -> forall es, (length es <= n)%nat ->
  Forall (slot_in (zlen m)) (dyn_ops base image_sz o es) /\
  Forall (off_range 0 (o + 8)) (dyn_ops base image_sz o es) /\
  Forall (fun p => off_range (o + 16 * zlen es) (zlen m) p) (dyn_ops base image_sz o es).
Proof.
  revert o. induction n as [|n IH]; intros o Ho Hn [|e es] Hes; simpl in *; try lia;
    try (repeat split; constructor; fail).
  destruct (IH (o + 16) ltac:(lia) ltac:(lia) es ltac:(lia)) as (H1 & H2 & H3).
  unfold sizeof_Dyn. rewrite zlen_cons. pose proof (zlen_nonneg es).
  repeat split; constructor; unfold slot_in, off_range in *; simpl; auto; try lia.
  - revert H2. apply List.Forall_impl. intros a. lia.
  - revert H3. apply List.Forall_impl. intros a. lia.
Qed.

Lemma dyn_entries_length n m o : (length (dyn_entries n m o) <= n)%nat.
Proof.
  revert o. induction n as [|n IH]; intros o; [simpl; lia|]. cbn [dyn_entries]. cbv zeta.
  destruct (_ =? _); simpl; [lia|]. specialize (IH (o + sizeof_Dyn)). lia.
Qed.

(** The entry at the head is fixed without disturbing those behind it. *)
Lemma dyn_head base image_sz m o n tag :
  0 <= base -> 0 <= o -> o + 16 * Z.of_nat (S n) <= zlen m ->
  let m1 := do_op m (o + 8, fix_val base image_sz tag) in
  zlen m1 = zlen m /\ le_at 8 m1 o = le_at 8 m o /\
  le_at 8 m1 (o + 8) = fix_val base image_sz tag (le_at 8 m (o + 8)) /\
  dyn_entries n m1 (o + 16) = dyn_entries n m (o + 16).
Proof.
  intros Hb Ho Hn m1. set (p := (o + 8, fix_val base image_sz tag)) in *.
  assert (Hs : slot_in (zlen m) p) by (split; simpl; lia).
  pose proof (le_at_range 8 m (o + 8)) as Hx. split; [now apply zlen_do_op|].
  split; [apply do_op_out; auto; unfold off_range; simpl; lia|]. split.
  - unfold m1. pose proof (do_op_in m p Hs) as E. simpl fst in E. rewrite E. simpl snd.
    apply u64_small, fix_val_range; simpl in Hx; lia.
  - apply dyn_entries_ext; [lia|]. intros i Hi Hi'.
    apply do_op_out; auto; [lia|]. unfold off_range. simpl. lia.
Qed.

Lemma dyn_loop_spec base dyn_off avail n fuel m off count si :
  zlen m < 2 ^ 62 -> 0 <= base -> 0 <= dyn_off -> 0 <= off -> (n < fuel)%nat ->
  dyn_off + avail <= zlen m -> 0 <= count -> count + Z.of_nat n < 2 ^ 64 ->
  off + 16 * Z.of_nat n <= avail < off + 16 * Z.of_nat n + 16 ->
  let es := dyn_entries n m (dyn_off + off) in
  dyn_loop fuel m (zlen m) base dyn_off avail off count si =
  Ret (run_ops m (dyn_ops base (zlen m) (dyn_off + off) es),
       record_entries si (map (fix_entry base (zlen m)) es), count + zlen es).
Proof.
  revert fuel m off count si.
  induction n as [|n IH]; intros [|fuel] m off count si Hsz Hb Hd Ho Hf Ha Hc0 Hc Hr es;
    try lia; cbn [dyn_loop]; unfold sizeof_Dyn; rewrite (u64_small (off + 16)) by lia.
  - rewrite (proj2 (Z.leb_gt _ _)) by lia. simpl. unfold es. simpl. rewrite Z.add_0_r. reflexivity.
  - rewrite (proj2 (Z.leb_le _ _)) by lia. simpl negb. cbv iota zeta.
    rewrite (u64_small (count + 1)) by lia.
    rewrite (ld64_ok m (dyn_off + off)), ret_bind by lia.
    unfold es. clear es. cbn [dyn_entries]. cbv zeta. simpl fst. simpl snd.
    set (o := dyn_off + off) in *. set (tag := s64 (le_at 8 m o)).
    destruct (dyn_head base (zlen m) m o n tag Hb ltac:(lia) ltac:(lia)) as (Hl & Hh & Hv & He).
    set (m1 := do_op m (o + 8, fix_val base (zlen m) tag)) in *.
    assert (Hs : slot_in (zlen m) (o + 8, fix_val base (zlen m) tag)) by (split; simpl; lia).
    pose proof (le_at_range 8 m (o + 8)) as Hx. simpl in Hx.
    assert (Hid : fix_val base (zlen m) tag (le_at 8 m (o + 8)) = le_at 8 m (o + 8) -> m1 = m).
    { intros E. apply do_op_id; auto. simpl. rewrite E. apply u64_small. lia. }
    assert (Hst : forall x, x = fix_val base (zlen m) tag (le_at 8 m (o + 8)) ->
      st64 m (o + 8) x = Ret m1).
    { intros x ->. rewrite st64_ok by lia. reflexivity. }
    destruct (Z.eqb_spec tag DT_NULL) as [Ht|Ht].
    + cbn [dyn_ops map fst snd]. rewrite run_ops_cons. fold m1. rewrite Hid by now rewrite Ht.
      unfold record_entries, fix_entry. simpl. rewrite Ht. now destruct si.
    + cbn [dyn_ops map fst snd]. rewrite run_ops_cons, zlen_cons. fold m1.
      unfold sizeof_Dyn. rewrite <- He.
      assert (Hnext : forall si', 
        dyn_loop fuel m1 (zlen m) base dyn_off avail (off + 16) (count + 1) si' =
        Ret (run_ops m1 (dyn_ops base (zlen m) (o + 16) (dyn_entries n m1 (o + 16))),
             record_entries si' (map (fix_entry base (zlen m)) (dyn_entries n m1 (o + 16))),
             count + (1 + zlen (dyn_entries n m1 (o + 16))))).
      { intros si'. rewrite <- Hl. rewrite IH by (rewrite ?Hl; auto; lia).
        unfold o. rewrite !Z.add_assoc. reflexivity. }
      unfold record_entries. cbn [fold_left]. fold (record_entries).
      destruct (Z.eqb_spec tag DT_DEBUG) as [Hdb|Hdb].
      * rewrite Hst, ret_bind by now rewrite Hdb. rewrite Hnext. do 2 f_equal.
        unfold record_entries. do 2 f_equal. unfold fix_entry. simpl. rewrite Hdb. now destruct si.
      * assert (Himg : (if dyn_tag_is_ptr tag then
               v ← ld64 m (o + 8);
               if (v >=? base) && (v <? u64 (base + zlen m))
               then st64 m (o + 8) (v - base) else Ret m
             else Ret m) = Ret m1).
        { unfold fix_val, derebase in Hst, Hid. rewrite (proj2 (Z.eqb_neq _ _) Hdb) in Hst, Hid.
          destruct (dyn_tag_is_ptr tag); [|now rewrite Hid].
          rewrite ld64_ok, ret_bind by lia.
          destruct (_ && _); [now rewrite Hst|now rewrite Hid]. }
        rewrite Himg, ret_bind, ld64_ok, ret_bind, Hv, Hnext by lia. reflexivity.
Qed.

Lemma fix_null base image_sz v : fix_entry base image_sz (DT_NULL, v) = (DT_NULL, v).
Proof. reflexivity. Qed.

(** The array read back from the fixed image. *)
Lemma dyn_entries_fixed base n m o :
  0 <= base -> 0 <= o -> o + 16 * Z.of_nat n <= zlen m ->
  let es := dyn_entries n m o in
  dyn_entries n (run_ops m (dyn_ops base (zlen m) o es)) o = map (fix_entry base (zlen m)) es.
Proof.
  intros Hb. revert m o. induction n as [|n IH]; intros m o Ho Hn es; [reflexivity|].
  unfold es. clear es. cbn [dyn_entries]. cbv zeta. simpl fst.
  set (tag := s64 (le_at 8 m o)).
  destruct (dyn_head base (zlen m) m o n tag Hb Ho Hn) as (Hl & Hh & Hv & He).
  destruct (Z.eqb_spec tag DT_NULL) as [Ht|Ht];
    cbn [dyn_ops map fst snd]; rewrite run_ops_cons;
    set (m1 := do_op m (o + 8, fix_val base (zlen m) tag)) in *.
  - simpl run_ops. rewrite Hh. fold tag. rewrite Ht at 1. simpl. rewrite Hv. now rewrite Ht.
  - unfold sizeof_Dyn in *. rewrite <- He, <- Hl.
    set (es := dyn_entries n m1 (o + 16)).
    destruct (dyn_ops_in base (zlen m1) m1 n (o + 16) ltac:(lia) ltac:(rewrite Hl; lia) es
                (dyn_entries_length n m1 (o + 16))) as (H1 & H2 & _).
    assert (Hout : forall i, o <= i <= o + 8 ->
      le_at 8 (run_ops m1 (dyn_ops base (zlen m1) (o + 16) es)) i = le_at 8 m1 i).
    { intros i Hi. apply run_ops_out; auto; [lia|]. revert H2. apply List.Forall_impl.
      intros a. unfold off_range. simpl. lia. }
    rewrite !Hout by lia. rewrite Hh. fold tag. rewrite (proj2 (Z.eqb_neq _ _) Ht).
    unfold fix_entry at 1. simpl fst. simpl snd. rewrite Hv, Hl. f_equal. rewrite <- Hl.
    unfold es. apply IH; rewrite ?Hl; lia.
Qed.

(** The number of array entries the bounds allow. *)
Definition dyn_room (image_sz dyn_off dyn_size : Z) : Z :=
  let avail := image_sz - dyn_off in
  if negb (dyn_size =? 0) && (dyn_size <? avail) then dyn_size else avail.

(** ** Properties *)

(** [parse_dynamic] is in bounds and total on every image below 2^62 bytes
    (as long as the recorded DT_HASH address plus 8 does not wrap), and it does
    exactly this: every entry up to DT_NULL keeps its tag, pointer tags whose
    value lies in [base, base + image) become file-relative, DT_DEBUG is zeroed,
    all other values and every byte outside the array are unchanged; the
    [soinfo] records the fixed values, last entry winning, the entry count and
    the SysV hash header. *)
Theorem parse_dynamic_derebases m base dyn_off dyn_size :
  zlen m < 2 ^ 62 -> 0 <= base -> 0 <= dyn_size -> 0 <= dyn_off < zlen m ->
  let n := Z.to_nat (dyn_room (zlen m) dyn_off dyn_size / 16) in
  let es := dyn_entries n m dyn_off in
  let fixed := map (fix_entry base (zlen m)) es in
  let si := set_count (record_entries (soinfo0 dyn_off) fixed) (u32 (zlen es)) in
  0 <= hash si < 2 ^ 64 - 8 ->
  exists m', zlen m' = zlen m /\
    dyn_entries n m' dyn_off = fixed /\
    (forall i, 0 <= i < dyn_off \/ dyn_off + 16 * zlen es <= i < zlen m ->
       byte_at m' i = byte_at m i) /\
    parse_dynamic m (zlen m) base dyn_off dyn_size =
    Ret (m', if negb (hash si =? 0) && (hash si + 8 <=? zlen m)
             then set_hash_counts si (le_at 4 m' (hash si)) (le_at 4 m' (hash si + 4)) else si).
Proof.
  intros Hsz Hb Hds Hd n es fixed si Hh.
  assert (Hroom : 0 <= dyn_room (zlen m) dyn_off dyn_size <= zlen m - dyn_off).
  { unfold dyn_room. destruct (_ && _) eqn:E; b2p; lia. }
  set (avail := dyn_room (zlen m) dyn_off dyn_size) in *.
  pose proof (Z.div_mod avail 16). pose proof (Z.mod_pos_bound avail 16).
  assert (Hn : Z.of_nat n = avail / 16) by (unfold n; pose proof (Z.div_pos avail 16); lia).
  destruct (dyn_ops_in base (zlen m) m n dyn_off ltac:(lia) ltac:(lia) es
              (dyn_entries_length n m dyn_off)) as (H1 & H2 & H3).
  exists (run_ops m (dyn_ops base (zlen m) dyn_off es)).
  pose proof (zlen_run_ops _ _ H1) as Hl. split; [exact Hl|].
  split; [apply dyn_entries_fixed; lia|]. split.
  - intros i Hi. rewrite <- !le_at_1. apply run_ops_out; auto; [pose proof (zlen_nonneg es); lia|].
    destruct Hi; [revert H2|revert H3]; apply List.Forall_impl; intros a; unfold off_range; simpl; lia.
  - unfold parse_dynamic. rewrite Z.geb_leb, (proj2 (Z.leb_gt _ _)) by lia. cbv zeta.
    fold (dyn_room (zlen m) dyn_off dyn_size). fold avail.
    pose proof (dyn_loop_spec base dyn_off avail n (S (Z.to_nat (avail / 16))) m 0 0
      (soinfo0 dyn_off) Hsz Hb ltac:(lia) ltac:(lia) ltac:(lia) ltac:(lia) ltac:(lia)
      ltac:(lia) ltac:(lia)) as E.
    cbv zeta in E. rewrite Z.add_0_r in E. fold es in E. fold fixed in E.
    rewrite E, ret_bind. change (0 + zlen es) with (zlen es). fold si.
    rewrite (u64_small (hash si + 8)) by lia.
    destruct (_ && _) eqn:Ec; [|reflexivity]. b2p.
    rewrite !(ld_le_in 4) by (rewrite ?Hl; simpl; lia). rewrite !ret_bind.
    reflexivity.
Qed.


(** C26: rebuilding inverts loading.  Take any image whose relative relocation
    tables are well formed and let the dynamic linker relocate it at [base]
    (DT_RELA slots become base + addend, DT_RELR slots gain the base).
    [unapply_relocs] run on that memory stays in bounds, terminates, and gives
    back the image with the addends in the RELA slots; loading that file at the
    same base gives the memory again; and an image that already carries its
    addends is recovered byte for byte. *)
Theorem unapply_relocs_inverts_load file base si :
  zlen file < 2 ^ 62 -> reloc_wf file si ->
  unapply_relocs (load_image base file si) (zlen file) base si = Ret (fill_addends file si) /\
  load_image base (fill_addends file si) si = load_image base file si /\
  (Forall (fun s => match s with
                    | RelaSlot o a => le_at 8 file o = a
                    | RelrSlot _ => True end) (slots file si) ->
   fill_addends file si = file).
Proof.
  intros Hsz Hwf.
  assert (Hlk : forall s, fst (load_op base s) = fst (fill_op s)) by (intros; apply slot_ops_same).
  destruct (slots_kept file si _ Hwf Hlk) as (Hll & Hls & Hlw).
  destruct (slots_kept file si fill_op Hwf ltac:(auto)) as (Hfl & Hfs & Hfw).
  split; [|split].
  - unfold load_image in *. rewrite <- Hll, unapply_relocs_spec; rewrite ?Hll; auto.
    f_equal. rewrite Hls. apply ops_cancel; [exact Hwf|intros []; repeat split|].
    intros [o a|o] v; simpl; [reflexivity|]. unfold u64.
      rewrite Zminus_mod_idemp_l. f_equal. lia.
  - unfold load_image, fill_addends. rewrite Hfs. apply ops_cancel; [exact Hwf|intros []; repeat split|].
    intros [o a|o] v; simpl; [reflexivity|]. unfold u64. now rewrite Zplus_mod_idemp_l.
  - unfold fill_addends. pose proof (wf_in _ _ Hwf) as Hin. revert Hin.
    generalize (slots file si). intros l. induction l as [|s l IH]; intros Hin Hadd; [reflexivity|].
    cbn [map] in *. apply Forall_cons_1 in Hadd as [Hs Hadd]. apply Forall_cons_1 in Hin as [Hi Hin].
    rewrite run_ops_cons, do_op_id by
      (auto; destruct s as [o a|o]; simpl in *; rewrite ?Hs; apply u64_small;
       rewrite <- ?Hs; apply (le_at_range 8)).
    auto.
Qed.

(** A one-entry RELA table and a two-entry RELR table. *)
Definition demo_img : list byte :=
  le_bytes 8 0 ++ le_bytes 8 64 ++ le_bytes 8 1027 ++ le_bytes 8 0x30 ++
  le_bytes 8 72 ++ le_bytes 8 5 ++ repeat x00 16 ++ le_bytes 8 0x30 ++ le_bytes 8 0x11 ++
  repeat x00 8 ++ le_bytes 8 0x22.
Definition demo_si : soinfo :=
  mk_soinfo 0 0 0 0 0 0 0 8 24 24 0 0 false 32 16 0 0 0 0 0 0.

Lemma demo_slots : slots demo_img demo_si = [RelaSlot 64 0x30; RelrSlot 72; RelrSlot 88].
Proof. vm_compute. reflexivity. Qed.

Lemma demo_wf : reloc_wf demo_img demo_si.
Proof.
  assert (Hl : zlen demo_img = 96) by reflexivity.
  constructor; rewrite ?demo_slots, ?Hl; simpl; try lia.
  all: repeat constructor; unfold slot_in, off_range, apart; simpl; lia.
Qed.

Lemma unapply_relocs_inverts_load_witness :
  unapply_relocs (load_image 0x7000 demo_img demo_si) 96 0x7000 demo_si = Ret demo_img /\
  le_at 8 (load_image 0x7000 demo_img demo_si) 88 = 0x7022.
Proof.
  split; [|vm_compute; reflexivity].
  destruct (unapply_relocs_inverts_load demo_img 0x7000 demo_si) as (H1 & _ & H3);
    [reflexivity|exact demo_wf|].
  rewrite H3 in H1; [exact H1|]. rewrite demo_slots.
  repeat first [apply List.Forall_nil | apply List.Forall_cons; [vm_compute; exact I || reflexivity|]].
Defined.

(** Two entries of a dynamic array: DT_STRTAB with an absolute address, DT_NULL. *)
Definition demo_dyn : list byte := le_bytes 8 DT_STRTAB ++ le_bytes 8 0x7008 ++ repeat x00 16.

Lemma parse_dynamic_derebases_witness :
  exists m', dyn_entries 2 m' 0 = [(DT_STRTAB, 8); (DT_NULL, 0)] /\
    exists si, parse_dynamic demo_dyn 32 0x7000 0 0 = Ret (m', si).
Proof.
  destruct (parse_dynamic_derebases demo_dyn 0x7000 0 0) as (m' & _ & E & _ & P);
    [reflexivity|lia|lia|change (zlen demo_dyn) with 32; lia|vm_compute; split; [discriminate|reflexivity]|].
  assert (Hn : Z.to_nat (dyn_room (zlen demo_dyn) 0 0 / 16) = 2%nat) by (vm_compute; reflexivity).
  rewrite Hn in E. exists m'. split; [rewrite E; vm_compute; reflexivity|]. eexists. exact P.
Defined.

(** The check [r->r_offset + 8 <= image_sz] wraps.  A relative RELA entry whose
    offset is in the last 8 bytes of the address space passes it for every image,
    and the store goes to [img + r_offset], in front of the heap block: whatever
    the image, its size (below 2^62) and the position of the table, a table that
    starts with such an entry makes [unapply_relocs] write out of bounds. *)
Theorem unapply_relocs_offset_wraps m base si :
  zlen m < 2 ^ 62 -> 0 < rela si -> 24 <= relasz si -> rela si + relasz si <= zlen m ->
  rela_relative m (rela si) = true -> 2 ^ 64 - 8 <= le_at 8 m (rela si) ->
  unapply_relocs m (zlen m) base si = Oob.
Proof.
  intros Hsz H1 H2 H3 Hrel Hoff. pose proof (zlen_nonneg m). unfold unapply_relocs.
  rewrite (proj2 (Z.eqb_neq (rela si) 0)), (proj2 (Z.eqb_neq (relasz si) 0)) by lia.
  simpl negb. cbn [andb]. cbv zeta.
  rewrite (u64_small (rela si + relasz si)), (Z.gtb_ltb (rela si + relasz si)),
    (proj2 (Z.ltb_ge (zlen m) (rela si + relasz si))) by lia.
  cbn [rela_loop]. unfold sizeof_Rela. rewrite (u64_small (rela si + 24)) by lia.
  rewrite (proj2 (Z.leb_le _ _)) by lia. simpl negb. cbv iota.
  rewrite (ld64_ok m (rela si + 8)), ret_bind by lia.
  change (Z.land _ _ =? _) with (rela_relative m (rela si)). rewrite Hrel. simpl negb. cbv iota.
  rewrite (ld64_ok m (rela si)), ret_bind by lia.
  pose proof (le_at_range 8 m (rela si)) as Hr. simpl in Hr.
  assert (Hw : u64 (le_at 8 m (rela si) + 8) = le_at 8 m (rela si) + 8 - 2 ^ 64).
  { symmetry. apply (Z.mod_unique _ _ 1); lia. }
  rewrite Hw, (proj2 (Z.leb_le _ _)), ld64_ok, ret_bind by lia.
  unfold st64, memcpy_out. rewrite zlen_le_bytes.
  rewrite (proj2 (Z.leb_le 0 _)), (proj2 (Z.leb_gt _ (zlen m))) by (simpl; lia). reflexivity.
Qed.

Lemma unapply_relocs_offset_wraps_witness :
  let m := repeat x00 8 ++ le_bytes 8 (2 ^ 64 - 8) ++ le_bytes 8 1027 ++ le_bytes 8 1 in
  unapply_relocs m 32 0x7000 (mk_soinfo 0 0 0 0 0 0 0 8 24 24 0 0 false 0 0 0 0 0 0 0 0) = Oob.
Proof.
  intros m.
  refine (unapply_relocs_offset_wraps m 0x7000
    (mk_soinfo 0 0 0 0 0 0 0 8 24 24 0 0 false 0 0 0 0 0 0 0 0) _ _ _ _ _ _);
    vm_compute; try reflexivity; discriminate.
Defined.
