(* ===== verification/Shdrs.v ===== *)
(** * Shdrs: section-header reconstruction (src/dump/rebuild.c)

    [build_shdrs] lays a section-header table out from the dynamic information:
    the metadata sections DT_* entries name, two synthetic catch-alls and
    [.shstrtab], sorted by address, sized by the gaps, clamped and linked.

    [struct shbuild] holds the headers with their [gap] flag in one list and the
    filled part of the name table; the table's capacity of 1024 bytes and the 32
    header slots are checked as in the source. *)

From Stdlib Require Import ZArith Lia.
From Stdlib Require Import Permutation Sorted.
From stdpp Require Import base list option numbers.
From S2P Require Import Prelude Elf Reloc.

Local Open Scope Z_scope.

Definition SHT_NULL := 0.
Definition SHT_PROGBITS := 1.
Definition SHT_STRTAB := 3.
Definition SHT_RELA := 4.
Definition SHT_HASH := 5.
Definition SHT_DYNAMIC := 6.
Definition SHT_DYNSYM := 11.
Definition SHT_INIT_ARRAY := 14.
Definition SHT_FINI_ARRAY := 15.
Definition SHT_RELR := 19.
Definition SHT_GNU_HASH := 0x6ffffff6.
Definition SHF_WRITE := 1.
Definition SHF_ALLOC := 2.
Definition SHF_EXECINSTR := 4.
Definition SHF_INFO_LINK := 0x40.
Definition DUMP_MAX_SHDRS := 32.

(** A header and its [gap] flag. *)
Record sect := mk_sect { hdr : Elf64_Shdr; gap : bool }.

Record shbuild := mk_shbuild { sh : list sect; sstrtab : list byte }.

(** [sh_name]: append the NUL-terminated name when it fits; its offset. *)
Definition sh_name_add (b : shbuild) (name : list byte) : Z * shbuild :=
  let off := u32 (zlen (sstrtab b)) in
  let len := zlen name + 1 in
  if zlen (sstrtab b) + len <=? 1024
  then (off, mk_shbuild (sh b) (sstrtab b ++ name ++ [x00]))
  else (off, b).

(** [sh_add], and the assignments its callers make to a non-NULL result: address
    and offset, size, alignment, entry size and the gap flag. *)
Definition sh_add (b : shbuild) (name : list byte) (type flags addr size align entsize : Z)
    (g : bool) : shbuild :=
  if DUMP_MAX_SHDRS <=? zlen (sh b) then b else
  let '(off, b) := sh_name_add b name in
  mk_shbuild (sh b ++ [mk_sect (mk_shdr off type flags addr addr size 0 0 align entsize) g])
    (sstrtab b).

Definition add_if (v : Z) (f : shbuild -> shbuild) (b : shbuild) : shbuild :=
  if v =? 0 then b else f b.

Definition alloc (s : sect) : bool := negb (Z.land (sh_flags (hdr s)) SHF_ALLOC =? 0).
Definition writable (s : sect) : bool := negb (Z.land (sh_flags (hdr s)) SHF_WRITE =? 0).

(** The metadata sections, in source order. *)
Definition add_metadata (si : soinfo) (b : shbuild) : shbuild :=
  let ro := SHF_ALLOC in
  let rw := Z.lor SHF_ALLOC SHF_WRITE in
  let b := add_if (symtab si) (fun b =>
    sh_add b (bytes_of ".dynsym") SHT_DYNSYM ro (symtab si)
      (if nchain si =? 0 then 0 else u64 (nchain si * sizeof_Sym)) 8 sizeof_Sym
      (nchain si =? 0)) b in
  let b := add_if (strtab si) (fun b =>
    sh_add b (bytes_of ".dynstr") SHT_STRTAB ro (strtab si) (strsz si) 1 0 false) b in
  let b := add_if (hash si) (fun b =>
    sh_add b (bytes_of ".hash") SHT_HASH ro (hash si)
      (u64 ((nbucket si + nchain si + 2) * 4)) 4 4 false) b in
  let b := add_if (gnu_hash si) (fun b =>
    sh_add b (bytes_of ".gnu.hash") SHT_GNU_HASH ro (gnu_hash si) 0 8 0 true) b in
  let b := add_if (rela si) (fun b =>
    sh_add b (bytes_of ".rela.dyn") SHT_RELA ro (rela si) (relasz si) 8 sizeof_Rela false) b in
  let b := add_if (relr si) (fun b =>
    sh_add b (bytes_of ".relr.dyn") SHT_RELR ro (relr si) (relrsz si) 8 8 false) b in
  let b := add_if (jmprel si) (fun b =>
    sh_add b (bytes_of ".rela.plt") SHT_RELA (Z.lor ro SHF_INFO_LINK) (jmprel si)
      (pltrelsz si) 8 sizeof_Rela false) b in
  let b := add_if (init_array si) (fun b =>
    sh_add b (bytes_of ".init_array") SHT_INIT_ARRAY rw (init_array si) (init_arraysz si)
      8 0 false) b in
  let b := add_if (fini_array si) (fun b =>
    sh_add b (bytes_of ".fini_array") SHT_FINI_ARRAY rw (fini_array si) (fini_arraysz si)
      8 0 false) b in
  add_if (dynamic_off si) (fun b =>
    sh_add b (bytes_of ".dynamic") SHT_DYNAMIC rw (dynamic_off si)
      (u64 (dynamic_count si * sizeof_Dyn)) 8 sizeof_Dyn false) b.

(** Ends of the read-only and of the writable metadata. *)
Definition ends (l : list sect) : Z * Z :=
  fold_left (fun '(ro_end, wr_end) s =>
    let e := u64 (sh_addr (hdr s) + sh_size (hdr s)) in
    if writable s then (ro_end, if e >? wr_end then e else wr_end)
    else if alloc s then ((if e >? ro_end then e else ro_end), wr_end)
    else (ro_end, wr_end)) l (0, 0).

Definition add_synthetic (image_sz : Z) (b : shbuild) : shbuild :=
  let '(ro_end, wr_end) := ends (tail (sh b)) in
  let b := sh_add b (bytes_of ".text") SHT_PROGBITS (Z.lor SHF_ALLOC SHF_EXECINSTR)
             ro_end 0 16 0 true in
  let b := sh_add b (bytes_of ".data") SHT_PROGBITS (Z.lor SHF_ALLOC SHF_WRITE)
             (if wr_end =? 0 then ro_end else wr_end) 0 8 0 true in
  sh_add b (bytes_of ".shstrtab") SHT_STRTAB 0 image_sz 0 1 0 false.

(** The exchange sort: the inner loop carries the entry at [i] through the
    entries behind it, swapping with every smaller address. *)
Fixpoint sift (x : sect) (l : list sect) : sect * list sect :=
  match l with
  | [] => (x, [])
  | y :: l =>
      if sh_addr (hdr x) >? sh_addr (hdr y)
      then let '(m, l) := sift y l in (m, x :: l)
      else let '(m, l) := sift x l in (m, y :: l)
  end.
Fixpoint exchange_sort (n : nat) (l : list sect) : list sect :=
  match n, l with
  | S n, x :: l => let '(m, l) := sift x l in m :: exchange_sort n l
  | _, _ => l
  end.

Definition set_size (s : sect) (z : Z) : sect :=
  let '(mk_shdr n t f a o _ l i al e) := hdr s in
  mk_sect (mk_shdr n t f a o z l i al e) (gap s).
Definition set_link (s : sect) (z : Z) : sect :=
  let '(mk_shdr n t f a o sz _ i al e) := hdr s in
  mk_sect (mk_shdr n t f a o sz z i al e) (gap s).

(** Gap sizing: up to the next section, or to the end of the image. *)
Definition gap_next (image_sz : Z) (s : sect) (l : list sect) : Z :=
  let next := match l with t :: _ => sh_addr (hdr t) | [] => image_sz end in
  if (next =? 0) || (next <? sh_addr (hdr s)) then image_sz else next.
Fixpoint gap_size (image_sz : Z) (l : list sect) : list sect :=
  match l with
  | [] => []
  | s :: l =>
      (if gap s then set_size s (u64 (gap_next image_sz s l - sh_addr (hdr s))) else s)
      :: gap_size image_sz l
  end.

(** Clamp: no allocated section runs into the next allocated one. *)
Fixpoint clamp (image_sz : Z) (l : list sect) : list sect :=
  match l with
  | [] => []
  | s :: l =>
      (if alloc s then
         let lim := match l with
                    | t :: _ => if alloc t then sh_offset (hdr t) else image_sz
                    | [] => image_sz end in
         if (u64 (sh_offset (hdr s) + sh_size (hdr s)) >? lim) && (lim >=? sh_offset (hdr s))
         then set_size s (lim - sh_offset (hdr s)) else s
       else s) :: clamp image_sz l
  end.

(** Indices of .dynsym and .dynstr ([i] is the index of the head). *)
Fixpoint link_targets (i dynsym dynstr : Z) (l : list sect) : Z * Z :=
  match l with
  | [] => (dynsym, dynstr)
  | s :: l =>
      if sh_type (hdr s) =? SHT_DYNSYM then link_targets (i + 1) i dynstr l
      else if (sh_type (hdr s) =? SHT_STRTAB) && alloc s then link_targets (i + 1) dynsym i l
      else link_targets (i + 1) dynsym dynstr l
  end.
Definition link1 (dynsym dynstr : Z) (s : sect) : sect :=
  let t := sh_type (hdr s) in
  if t =? SHT_DYNSYM then set_link s dynstr
  else if (t =? SHT_HASH) || (t =? SHT_GNU_HASH) || (t =? SHT_RELA) || (t =? SHT_RELR)
  then set_link s dynsym
  else if t =? SHT_DYNAMIC then set_link s dynstr
  else s.

(** The passes over the entries behind the null section. *)
Definition layout (image_sz : Z) (l : list sect) : list sect :=
  let l := exchange_sort (length l) l in
  let l := gap_size image_sz l in
  let l := clamp image_sz l in
  let '(dynsym, dynstr) := link_targets 1 0 0 l in
  map (link1 dynsym dynstr) l.

Definition build_shdrs (si : soinfo) (image_sz : Z) : shbuild :=
  let b := mk_shbuild [] [x00] in
  let b := sh_add b [] SHT_NULL 0 0 0 0 0 false in
  let b := add_metadata si b in
  let b := add_synthetic image_sz b in
  match sh b with
  | null :: l => mk_shbuild (null :: layout image_sz l) (sstrtab b)
  | [] => b
  end.

(** ** Adding sections *)

(** The C string at an offset of the name table. *)
Fixpoint until_nul (l : list byte) : list byte :=
  match l with
  | [] => []
  | b :: l => if bool_decide (b = x00) then [] else b :: until_nul l
  end.
Definition cstr_at (l : list byte) (off : Z) : list byte := until_nul (drop (Z.to_nat off) l).

(** Name, type, flags and address of a header. *)
Notation key := (list byte * Z * Z * Z)%type.
Definition key_of (tab : list byte) (s : sect) : key :=
  (cstr_at tab (sh_name (hdr s)), sh_type (hdr s), sh_flags (hdr s), sh_addr (hdr s)).

(** The header's name is a terminated string inside the table. *)
Definition named (tab : list byte) (s : sect) : Prop :=
  exists pre name post, tab = pre ++ name ++ x00 :: post /\ x00 ∉ name /\
    sh_name (hdr s) = zlen pre.

Lemma until_nul_app name post : x00 ∉ name -> until_nul (name ++ x00 :: post) = name.
Proof.
  induction name as [|b name IH]; intros H; simpl; [reflexivity|].
  rewrite not_elem_of_cons in H. destruct H as [Hb H].
  rewrite bool_decide_eq_false_2 by congruence. now rewrite IH.
Qed.

Lemma cstr_at_app pre name post :
  x00 ∉ name -> cstr_at (pre ++ name ++ x00 :: post) (zlen pre) = name.
Proof.
  intros H. unfold cstr_at, zlen. rewrite Nat2Z.id, drop_app_length. now apply until_nul_app.
Qed.

Lemma named_stable tab more s :
  named tab s -> named (tab ++ more) s /\ key_of (tab ++ more) s = key_of tab s.
Proof.
  intros (pre & name & post & -> & Hn & Ho).
  replace ((pre ++ name ++ x00 :: post) ++ more) with (pre ++ name ++ x00 :: (post ++ more))
    by (now rewrite <- !app_assoc).
  split; [exists pre, name, (post ++ more); auto|].
  unfold key_of. rewrite Ho. now rewrite !cstr_at_app.
Qed.

(** The state between two additions: the keys so far, at most [n] headers, at most
    [k] name bytes, and every header satisfies [P]. *)
Record building (P : sect -> Prop) (b : shbuild) (keys : list key) (n k : Z) : Prop := {
  bu_keys : map (key_of (sstrtab b)) (sh b) = keys;
  bu_named : Forall (named (sstrtab b)) (sh b);
  bu_all : Forall P (sh b);
  bu_n : zlen (sh b) <= n;
  bu_k : 0 < zlen (sstrtab b) <= k
}.

Section Adding.
Context (P : sect -> Prop).

Lemma sh_add_building b keys n k name type flags addr size align entsize g :
  building P b keys n k -> n < DUMP_MAX_SHDRS -> k + zlen name + 1 <= 1024 -> x00 ∉ name ->
  (forall off, P (mk_sect (mk_shdr off type flags addr addr size 0 0 align entsize) g)) ->
  building P (sh_add b name type flags addr size align entsize g)
    (keys ++ [(name, type, flags, addr)]) (n + 1) (k + zlen name + 1).
Proof.
  intros [Hk Hn Hall Hln Hlk] Hmax Hcap Hnul HP. pose proof (zlen_nonneg name).
  unfold sh_add, sh_name_add. rewrite (proj2 (Z.leb_gt _ _)) by lia.
  rewrite (proj2 (Z.leb_le _ _)), u32_small by lia.
  set (tab := sstrtab b) in *. set (s := mk_sect _ g).
  assert (Hs : named (tab ++ name ++ [x00]) s) by (exists tab, name, []; auto).
  constructor; simpl.
  - rewrite map_app. simpl. f_equal.
    + rewrite <- Hk. apply List.map_ext_in. intros a Ha.
      apply named_stable. rewrite List.Forall_forall in Hn. auto.
    + unfold key_of. simpl. now rewrite cstr_at_app.
  - apply Forall_app. split; [|repeat constructor; exact Hs].
    revert Hn. apply List.Forall_impl. intros a Ha. now apply named_stable.
  - apply Forall_app. split; [exact Hall|]. repeat constructor. apply HP.
  - rewrite zlen_app. unfold zlen at 2. simpl. lia.
  - rewrite !zlen_app. unfold zlen at 3. unfold zlen at 5. simpl. lia.
Qed.

Lemma add_if_building v b keys n k name type flags addr size align entsize g :
  building P b keys n k -> n < DUMP_MAX_SHDRS -> k + zlen name + 1 <= 1024 -> x00 ∉ name ->
  (v <> 0 -> forall off, P (mk_sect (mk_shdr off type flags addr addr size 0 0 align entsize) g)) ->
  building P (add_if v (fun b => sh_add b name type flags addr size align entsize g) b)
    (keys ++ (if v =? 0 then [] else [(name, type, flags, addr)])) (n + 1) (k + zlen name + 1).
Proof.
  intros Hb Hmax Hcap Hnul HP. unfold add_if. destruct (Z.eqb_spec v 0).
  - pose proof (zlen_nonneg name). destruct Hb. rewrite app_nil_r. constructor; auto; lia.
  - apply sh_add_building; auto.
Qed.
End Adding.

(** The sections a [soinfo] calls for. *)
Definition opt (v : Z) (k : key) : list key := if v =? 0 then [] else [k].
Definition metadata_keys (si : soinfo) : list key :=
  opt (symtab si) (bytes_of ".dynsym", SHT_DYNSYM, SHF_ALLOC, symtab si) ++
  opt (strtab si) (bytes_of ".dynstr", SHT_STRTAB, SHF_ALLOC, strtab si) ++
  opt (hash si) (bytes_of ".hash", SHT_HASH, SHF_ALLOC, hash si) ++
  opt (gnu_hash si) (bytes_of ".gnu.hash", SHT_GNU_HASH, SHF_ALLOC, gnu_hash si) ++
  opt (rela si) (bytes_of ".rela.dyn", SHT_RELA, SHF_ALLOC, rela si) ++
  opt (relr si) (bytes_of ".relr.dyn", SHT_RELR, SHF_ALLOC, relr si) ++
  opt (jmprel si) (bytes_of ".rela.plt", SHT_RELA, Z.lor SHF_ALLOC SHF_INFO_LINK, jmprel si) ++
  opt (init_array si) (bytes_of ".init_array", SHT_INIT_ARRAY, Z.lor SHF_ALLOC SHF_WRITE, init_array si) ++
  opt (fini_array si) (bytes_of ".fini_array", SHT_FINI_ARRAY, Z.lor SHF_ALLOC SHF_WRITE, fini_array si) ++
  opt (dynamic_off si) (bytes_of ".dynamic", SHT_DYNAMIC, Z.lor SHF_ALLOC SHF_WRITE, dynamic_off si).

(** Address and size of every metadata section, and that they lie in the image. *)
Definition si_ranges (si : soinfo) : list (Z * Z) :=
  [(symtab si, nchain si * sizeof_Sym); (strtab si, strsz si);
   (hash si, (nbucket si + nchain si + 2) * 4); (gnu_hash si, 0); (rela si, relasz si);
   (relr si, relrsz si); (jmprel si, pltrelsz si); (init_array si, init_arraysz si);
   (fini_array si, fini_arraysz si); (dynamic_off si, dynamic_count si * sizeof_Dyn)].
Definition si_in_image (image_sz : Z) (si : soinfo) : Prop :=
  Forall (fun '(a, z) => a <> 0 -> 0 <= a /\ 0 <= z /\ a + z <= image_sz) (si_ranges si).

(** A header as the passes expect it. *)
Definition placed (image_sz : Z) (s : sect) : Prop :=
  sh_offset (hdr s) = sh_addr (hdr s) /\ 0 <= sh_addr (hdr s) /\ 0 <= sh_size (hdr s) /\
  sh_addr (hdr s) + sh_size (hdr s) <= image_sz /\
  (alloc s = false -> sh_addr (hdr s) = image_sz).

Ltac no_nul := apply (bool_decide_eq_false_1 (x00 ∈ _)); vm_compute; reflexivity.

Definition typed_placed (image_sz : Z) (s : sect) : Prop :=
  sh_type (hdr s) <> SHT_NULL -> placed image_sz s.

Lemma null_building image_sz :
  building (typed_placed image_sz)
    (sh_add (mk_shbuild [] [x00]) [] SHT_NULL 0 0 0 0 0 false) [([], SHT_NULL, 0, 0)] 1 2.
Proof.
  apply (sh_add_building _ _ [] 0 1); try (vm_compute; congruence).
  - constructor; simpl; try constructor; vm_compute; congruence.
  - no_nul.
Qed.

Lemma building_le P b keys n k n' k' :
  building P b keys n k -> n <= n' -> k <= k' -> building P b keys n' k'.
Proof. intros [] ? ?. constructor; auto; lia. Qed.

Ltac chain H lem := first [exact H | eapply lem; [chain H lem| | | |]].

(** The closed side conditions of a chain of additions. *)
Ltac bounds :=
  match goal with
  | |- (_ < _)%Z => vm_compute; reflexivity
  | |- (_ <= _)%Z => vm_compute; discriminate
  | |- _ ∉ _ => no_nul
  | |- _ => idtac
  end.

Lemma metadata_building image_sz si b keys :
  image_sz < 2 ^ 63 -> si_in_image image_sz si ->
  building (typed_placed image_sz) b keys 1 2 ->
  building (typed_placed image_sz) (add_metadata si b) (keys ++ metadata_keys si) 11 102.
Proof.
  intros Hsz Hin Hb. unfold si_in_image, si_ranges in Hin.
  repeat match goal with
  | H : Forall _ (_ :: _) |- _ => apply Forall_cons_1 in H as [? H]
  end. clear Hin.
  unfold metadata_keys, opt. rewrite !app_assoc. unfold add_metadata. cbv zeta.
  eapply building_le; [chain Hb add_if_building| |]; bounds.
  all: intros Hne off _; unfold placed, alloc; simpl.
  all: repeat match goal with H : ?x <> 0 -> _, Hne : ?x <> 0 |- _ => specialize (H Hne) end.
  all: try destruct (nchain si =? 0).
  all: unfold sizeof_Sym, sizeof_Dyn in *; rewrite ?u64_small by lia.
  all: repeat split; try lia; discriminate.
Qed.

Lemma ends_bound image_sz l :
  0 <= image_sz < 2 ^ 63 -> Forall (placed image_sz) l ->
  0 <= fst (ends l) <= image_sz /\ 0 <= snd (ends l) <= image_sz.
Proof.
  intros Hsz H. unfold ends.
  assert (Hgen : forall a, 0 <= fst a <= image_sz -> 0 <= snd a <= image_sz ->
    let r := fold_left (fun '(ro_end, wr_end) s =>
      let e := u64 (sh_addr (hdr s) + sh_size (hdr s)) in
      if writable s then (ro_end, if e >? wr_end then e else wr_end)
      else if alloc s then ((if e >? ro_end then e else ro_end), wr_end)
      else (ro_end, wr_end)) l a in
    0 <= fst r <= image_sz /\ 0 <= snd r <= image_sz).
  { induction H as [|s l (_ & H1 & H2 & H3 & _) H IH]; intros [a c] Ha Hc; simpl in *; [auto|].
    rewrite u64_small by lia. apply IH; clear IH;
      destruct (writable s), (alloc s); simpl; try lia;
      match goal with |- context [if ?b then _ else _] => destruct b end; lia. }
  apply (Hgen (0, 0)); simpl; lia.
Qed.

Definition key_type (k : key) : Z := snd (fst (fst k)).

Lemma building_tail image_sz b ks n k :
  building (typed_placed image_sz) b (([], SHT_NULL, 0, 0) :: ks) n k ->
  Forall (fun k => key_type k <> SHT_NULL) ks ->
  exists null l, sh b = null :: l /\ Forall (placed image_sz) l /\
    map (key_of (sstrtab b)) l = ks.
Proof.
  intros [Hk _ Hall _ _] Hty. destruct (sh b) as [|null l]; [discriminate|].
  injection Hk as _ _ _ _ Hk. apply Forall_cons_1 in Hall as [_ Hall].
  exists null, l. split; [reflexivity|]. split; [|exact Hk].
  subst ks. clear -Hall Hty. induction l as [|s l IH]; [constructor|].
  simpl in Hty. apply Forall_cons_1 in Hall as [Hs Hall]. apply Forall_cons_1 in Hty as [Ht Hty].
  constructor; [|now apply IH]. apply Hs, Ht.
Qed.

Lemma metadata_types si : Forall (fun k => key_type k <> SHT_NULL) (metadata_keys si).
Proof.
  unfold metadata_keys. repeat (apply Forall_app; split);
    (unfold opt; destruct (_ =? 0); repeat constructor; vm_compute; discriminate).
Qed.

Definition synthetic_keys (image_sz text data : Z) : list key :=
  [(bytes_of ".text", SHT_PROGBITS, Z.lor SHF_ALLOC SHF_EXECINSTR, text);
   (bytes_of ".data", SHT_PROGBITS, Z.lor SHF_ALLOC SHF_WRITE, data);
   (bytes_of ".shstrtab", SHT_STRTAB, 0, image_sz)].

Lemma synthetic_building image_sz si b :
  0 <= image_sz < 2 ^ 63 ->
  building (typed_placed image_sz) b (([], SHT_NULL, 0, 0) :: metadata_keys si) 11 102 ->
  exists text data, 0 <= text <= image_sz /\ 0 <= data <= image_sz /\
    building (typed_placed image_sz) (add_synthetic image_sz b)
      ((([], SHT_NULL, 0, 0) :: metadata_keys si) ++ synthetic_keys image_sz text data) 14 124.
Proof.
  intros Hsz Hb. destruct (building_tail _ _ _ _ _ Hb (metadata_types si)) as (null & l & E & Hp & _).
  pose proof (ends_bound image_sz l Hsz Hp) as [H1 H2].
  unfold add_synthetic. rewrite E. simpl tail. destruct (ends l) as [ro wr]. simpl in H1, H2.
  exists ro, (if wr =? 0 then ro else wr). assert (0 <= (if wr =? 0 then ro else wr) <= image_sz).
  { destruct (wr =? 0); lia. }
  split; [lia|]. split; [lia|]. unfold synthetic_keys.
  match goal with |- building _ _ (?k ++ [?a; ?b; ?c]) _ _ =>
    change (k ++ [a; b; c]) with (k ++ [a] ++ [b] ++ [c]) end. rewrite !app_assoc.
  eapply building_le; [chain Hb sh_add_building| |]; bounds.
  all: intros off _; unfold placed, alloc; simpl; repeat split; try lia; discriminate.
Qed.

(** ** The layout passes *)

Definition addr (s : sect) : Z := sh_addr (hdr s).
Definition send (s : sect) : Z := sh_offset (hdr s) + sh_size (hdr s).

Lemma sift_spec x l :
  let '(m, l') := sift x l in
  Permutation (x :: l) (m :: l') /\ addr m <= addr x /\ Forall (fun y => addr m <= addr y) l'.
Proof.
  revert x. induction l as [|y l IH]; intros x; simpl; [auto with zarith|].
  unfold addr in *. destruct (_ >? _) eqn:E; b2p.
  - specialize (IH y). destruct (sift y l) as [m l']. destruct IH as (Hp & Hm & Hf).
    split; [|split; [lia|constructor; [lia|exact Hf]]].
    etransitivity; [apply perm_skip, Hp|apply perm_swap].
  - specialize (IH x). destruct (sift x l) as [m l']. destruct IH as (Hp & Hm & Hf).
    split; [|split; [lia|constructor; [lia|exact Hf]]].
    etransitivity; [apply perm_swap|]. etransitivity; [apply perm_skip, Hp|apply perm_swap].
Qed.

Lemma exchange_sort_spec n l :
  (length l <= n)%nat ->
  Permutation l (exchange_sort n l) /\ StronglySorted Z.le (map addr (exchange_sort n l)).
Proof.
  revert l. induction n as [|n IH]; intros [|x l] Hn; simpl in *; try lia;
    try (split; constructor; fail).
  pose proof (sift_spec x l) as H. destruct (sift x l) as [m l']. destruct H as (Hp & Hm & Hf).
  pose proof (Permutation_length Hp) as Hl. simpl in Hl.
  destruct (IH l' ltac:(lia)) as [Hp' Hs]. split.
  - etransitivity; [exact Hp|]. now apply perm_skip.
  - simpl. constructor; [exact Hs|]. apply List.Forall_map.
    apply (Permutation_Forall Hp'). exact Hf.
Qed.

Lemma set_size_key tab s z : key_of tab (set_size s z) = key_of tab s.
Proof. destruct s as [[]]. reflexivity. Qed.
Lemma set_size_fields s z :
  addr (set_size s z) = addr s /\ sh_offset (hdr (set_size s z)) = sh_offset (hdr s) /\
  sh_size (hdr (set_size s z)) = z /\ alloc (set_size s z) = alloc s.
Proof. destruct s as [[]]. auto. Qed.
Lemma set_size_placed image_sz s z :
  placed image_sz s -> 0 <= z -> addr s + z <= image_sz -> placed image_sz (set_size s z).
Proof. destruct s as [[]]. unfold placed, addr. simpl. tauto. Qed.

Lemma gap_size_keys image_sz tab l : map (key_of tab) (gap_size image_sz l) = map (key_of tab) l.
Proof.
  induction l as [|s l IH]; [reflexivity|]. simpl. rewrite IH. f_equal.
  destruct (gap s); [apply set_size_key|reflexivity].
Qed.
Lemma clamp_keys image_sz tab l : map (key_of tab) (clamp image_sz l) = map (key_of tab) l.
Proof.
  induction l as [|s l IH]; [reflexivity|]. simpl. rewrite IH. f_equal.
  destruct (alloc s); [|reflexivity]. destruct (_ && _); [apply set_size_key|reflexivity].
Qed.

(** Addresses are the last component of the keys. *)
Lemma addr_keys tab l : map addr l = map snd (map (key_of tab) l).
Proof. rewrite map_map. reflexivity. Qed.

Lemma sorted_head s t (l : list sect) :
  StronglySorted Z.le (map addr (s :: l)) -> t ∈ l -> addr s <= addr t.
Proof.
  intros H Ht. inversion H as [|? ? _ Hf]; subst. rewrite List.Forall_map in Hf.
  rewrite list.Forall_forall in Hf. exact (Hf t Ht).
Qed.

Lemma gap_size_placed image_sz l :
  image_sz < 2 ^ 63 -> StronglySorted Z.le (map addr l) -> Forall (placed image_sz) l ->
  Forall (placed image_sz) (gap_size image_sz l).
Proof.
  intros Hsz. induction l as [|s l IH]; intros Hs Hp; [constructor|].
  pose proof Hp as Hp'. apply Forall_cons_1 in Hp' as [Hps Hpl]. inversion Hs; subst.
  simpl. constructor; [|now apply IH]. destruct (gap s); [|exact Hps].
  assert (Hn : sh_addr (hdr s) <= gap_next image_sz s l <= image_sz).
  { unfold gap_next. destruct Hps as (_ & H0 & H0' & H0'' & _).
    destruct l as [|t l]; cbv zeta; destruct (_ || _) eqn:E; try lia.
    b2p. apply Forall_cons_1 in Hpl as [(_ & ? & ? & ? & _) _]. lia. }
  destruct Hps as (? & ? & ? & ? & ?).
  rewrite u64_small by lia. apply set_size_placed; unfold placed, addr; repeat split; auto; lia.
Qed.

Lemma clamp_elem image_sz l t' :
  t' ∈ clamp image_sz l -> exists t, t ∈ l /\ addr t' = addr t /\ alloc t' = alloc t.
Proof.
  induction l as [|s l IH]; simpl; intros H; [inversion H|].
  apply elem_of_cons in H as [->|H].
  - exists s. split; [left|]. destruct (alloc s) eqn:E; [|auto].
    destruct (_ && _); [|auto]. destruct (set_size_fields s
      (match l with t :: _ => if alloc t then sh_offset (hdr t) else image_sz | [] => image_sz end
       - sh_offset (hdr s))) as (-> & _ & _ & ->). auto.
  - destruct (IH H) as (t & Ht & ?). exists t. split; [now right|auto].
Qed.

(** One clamped section ends before every later allocated one. *)
Lemma clamp_one image_sz s l :
  image_sz < 2 ^ 63 -> StronglySorted Z.le (map addr (s :: l)) -> Forall (placed image_sz) (s :: l) ->
  alloc s = true ->
  let lim := match l with
             | t :: _ => if alloc t then sh_offset (hdr t) else image_sz
             | [] => image_sz end in
  let s' := if (u64 (sh_offset (hdr s) + sh_size (hdr s)) >? lim) && (lim >=? sh_offset (hdr s))
            then set_size s (lim - sh_offset (hdr s)) else s in
  placed image_sz s' /\ forall t, t ∈ l -> send s' <= addr t.
Proof.
  intros Hsz Hs Hp Hal lim s'. apply Forall_cons_1 in Hp as [Hps Hpl].
  assert (Hlim : addr s <= lim <= image_sz /\ forall t, t ∈ l -> lim <= addr t).
  { pose proof Hps as (? & Ha0 & Ha1 & Ha2 & _). unfold lim.
    destruct l as [|t0 l]; [split; [unfold addr; lia|intros t Ht; inversion Ht]|].
    apply Forall_cons_1 in Hpl as [(H1 & H2 & H3 & H4 & H5) _].
    assert (Hlater : forall t, t ∈ t0 :: l -> addr t0 <= addr t).
    { intros t Ht. apply elem_of_cons in Ht as [->|Ht]; [lia|].
      apply (sorted_head t0 t l); [inversion Hs; auto|exact Ht]. }
    pose proof (sorted_head s t0 (t0 :: l) Hs ltac:(left)). unfold addr in *.
    destruct (alloc t0); [|rewrite <- (H5 eq_refl); split; [lia|auto]].
    rewrite H1. split; [lia|auto]. }
  destruct Hlim as [Hl Hlater]. pose proof Hps as (Hoff & H0 & H1 & H2 & _).
  subst s'. unfold addr in *. rewrite u64_small by lia.
  destruct (_ && _) eqn:E; b2p.
  - destruct (set_size_fields s (lim - sh_offset (hdr s))) as (_ & E1 & E2 & _).
    split; [apply set_size_placed; unfold addr; auto; lia|].
    intros t Ht. unfold send. rewrite E1, E2. specialize (Hlater t Ht). unfold addr in *. lia.
  - split; [exact Hps|]. intros t Ht. specialize (Hlater t Ht). unfold send, addr in *.
    apply andb_false_iff in E as [E|E]; b2p; lia.
Qed.

(** After clamping nothing allocated overlaps. *)
Lemma clamp_spec image_sz l :
  image_sz < 2 ^ 63 -> StronglySorted Z.le (map addr l) -> Forall (placed image_sz) l ->
  Forall (placed image_sz) (clamp image_sz l) /\
  List.ForallOrdPairs (fun s t => alloc s = true -> alloc t = true -> send s <= addr t)
    (clamp image_sz l).
Proof.
  intros Hsz. induction l as [|s l IH]; intros Hs Hp; [split; constructor|].
  pose proof Hp as Hp'. apply Forall_cons_1 in Hp' as [Hps Hpl].
  assert (Hsl : StronglySorted Z.le (map addr l)) by (inversion Hs; auto).
  destruct (IH Hsl Hpl) as [Hc Ho]. simpl.
  destruct (alloc s) eqn:Ea.
  - destruct (clamp_one image_sz s l Hsz Hs Hp Ea) as [Hps' Hle].
    split; constructor; auto. apply list.Forall_forall. intros t' Ht' _ _.
    destruct (clamp_elem _ _ _ Ht') as (t & Ht & -> & _). now apply Hle.
  - split; constructor; auto. apply list.Forall_forall. intros t' _ H. congruence.
Qed.

Lemma link1_key tab ds dt s : key_of tab (link1 ds dt s) = key_of tab s.
Proof. destruct s as [[]]. unfold link1. simpl. repeat destruct (_ =? _); reflexivity. Qed.
Lemma link1_fields ds dt s :
  addr (link1 ds dt s) = addr s /\ send (link1 ds dt s) = send s /\
  alloc (link1 ds dt s) = alloc s /\ sh_type (hdr (link1 ds dt s)) = sh_type (hdr s) /\
  sh_offset (hdr (link1 ds dt s)) = sh_offset (hdr s) /\
  sh_size (hdr (link1 ds dt s)) = sh_size (hdr s).
Proof. destruct s as [[]]. unfold link1. simpl. repeat destruct (_ =? _); repeat split. Qed.

(** The whole layout. *)
Lemma layout_spec image_sz tab l :
  image_sz < 2 ^ 63 -> Forall (placed image_sz) l ->
  let l' := layout image_sz l in
  Permutation (map (key_of tab) l') (map (key_of tab) l) /\
  StronglySorted Z.le (map addr l') /\ Forall (placed image_sz) l' /\
  List.ForallOrdPairs (fun s t => alloc s = true -> alloc t = true -> send s <= addr t) l'.
Proof.
  intros Hsz Hp. unfold layout.
  destruct (exchange_sort_spec (length l) l ltac:(lia)) as [Hperm Hsort].
  set (l1 := exchange_sort (length l) l) in *.
  assert (Hp1 : Forall (placed image_sz) l1) by now apply (Permutation_Forall Hperm).
  pose proof (gap_size_placed image_sz l1 Hsz Hsort Hp1) as Hp2.
  assert (Hs2 : StronglySorted Z.le (map addr (gap_size image_sz l1)))
    by (rewrite (addr_keys tab), gap_size_keys, <- addr_keys; exact Hsort).
  destruct (clamp_spec image_sz _ Hsz Hs2 Hp2) as [Hp3 Ho3].
  set (l3 := clamp image_sz (gap_size image_sz l1)) in *.
  assert (Hk3 : map (key_of tab) l3 = map (key_of tab) l1)
    by (unfold l3; now rewrite clamp_keys, gap_size_keys).
  destruct (link_targets 1 0 0 l3) as [ds dt].
  assert (Hk4 : map (key_of tab) (map (link1 ds dt) l3) = map (key_of tab) l1).
  { rewrite <- Hk3, map_map. apply map_ext. intros; apply link1_key. }
  split; [rewrite Hk4; symmetry; now apply Permutation_map|].
  split; [rewrite (addr_keys tab), Hk4, <- addr_keys; exact Hsort|]. split.
  - apply List.Forall_map. revert Hp3. apply List.Forall_impl. intros s.
    destruct (link1_fields ds dt s) as (E1 & E2 & E3 & E4 & E5 & E6).
    unfold placed, addr in *. rewrite E1, E3, E5, E6. auto.
  - clear -Ho3. induction Ho3 as [|s l0 Hs H IH]; simpl; constructor; auto.
    apply List.Forall_map. revert Hs. apply List.Forall_impl. intros t.
    destruct (link1_fields ds dt s) as (E1 & E2 & E3 & _).
    destruct (link1_fields ds dt t) as (F1 & F2 & F3 & _). now rewrite E2, E3, F1, F3.
Qed.

(** The index pass remembers the last section of each kind. *)
Definition is_dynstr (s : sect) : bool := (sh_type (hdr s) =? SHT_STRTAB) && alloc s.

Lemma link_targets_spec i ds dt l :
  let '(ds', dt') := link_targets i ds dt l in
  (ds' = ds /\ Forall (fun s => sh_type (hdr s) <> SHT_DYNSYM) l \/
   exists k s, l !! k = Some s /\ sh_type (hdr s) = SHT_DYNSYM /\ ds' = i + Z.of_nat k) /\
  (dt' = dt /\ Forall (fun s => is_dynstr s = false) l \/
   exists k s, l !! k = Some s /\ is_dynstr s = true /\ dt' = i + Z.of_nat k).
Proof.
  revert i ds dt. induction l as [|s l IH]; intros i ds dt; simpl;
    [split; left; split; auto; constructor|].
  fold (is_dynstr s).
  destruct (Z.eqb_spec (sh_type (hdr s)) SHT_DYNSYM) as [Et|Et];
    [|destruct (is_dynstr s) eqn:Ed].
  all: match goal with |- context [link_targets ?a ?b ?c ?m] =>
         specialize (IH a b c); destruct (link_targets a b c m) as [ds' dt'] end.
  all: destruct IH as [[[-> H1]|(k & t & H1 & H2 & H3)] [[-> H4]|(k' & t' & H4 & H5 & H6)]].
  all: split.
  all: try (right; exists (S k), t; repeat split; auto; lia).
  all: try (right; exists (S k'), t'; repeat split; auto; lia).
  all: try (right; exists 0%nat, s; repeat split; auto; lia).
  all: left; split; auto; constructor; auto.
  all: unfold is_dynstr; rewrite Et; reflexivity.
Qed.

(** Which section the [sh_link] of a header names. *)
Definition wants_dynstr (s : sect) : bool :=
  (sh_type (hdr s) =? SHT_DYNSYM) || (sh_type (hdr s) =? SHT_DYNAMIC).
Definition wants_dynsym (s : sect) : bool :=
  existsb (Z.eqb (sh_type (hdr s))) [SHT_HASH; SHT_GNU_HASH; SHT_RELA; SHT_RELR].

Lemma link1_link ds dt s :
  (wants_dynstr s = true -> sh_link (hdr (link1 ds dt s)) = dt) /\
  (wants_dynsym s = true -> sh_link (hdr (link1 ds dt s)) = ds).
Proof.
  destruct s as [[n t f a o z l i al e] g]. unfold wants_dynstr, wants_dynsym, link1. simpl.
  destruct (Z.eqb_spec t SHT_DYNSYM) as [->|]; [split; [reflexivity|discriminate]|].
  destruct (Z.eqb_spec t SHT_DYNAMIC) as [->|]; [split; [reflexivity|discriminate]|].
  split; [discriminate|]. rewrite orb_false_r, !orb_assoc. intros ->. reflexivity.
Qed.

(** The header at an index of the table, where one satisfies [p]. *)
Definition names_section (table : list sect) (p : sect -> bool) (i : Z) : Prop :=
  (exists t, table !! Z.to_nat i = Some t /\ p t = true /\ 0 < i) \/
  (i = 0 /\ Forall (fun t => p t = false) (drop 1 table)).

Definition is_dynsym (s : sect) : bool := sh_type (hdr s) =? SHT_DYNSYM.

Lemma layout_links image_sz null l :
  let table := null :: layout image_sz l in
  Forall (fun s => (wants_dynstr s = true -> names_section table is_dynstr (sh_link (hdr s))) /\
                   (wants_dynsym s = true -> names_section table is_dynsym (sh_link (hdr s))))
    (layout image_sz l).
Proof.
  intros table. unfold table, layout. clear table.
  set (l3 := clamp _ _). pose proof (link_targets_spec 1 0 0 l3) as H.
  destruct (link_targets 1 0 0 l3) as [ds dt]. destruct H as [Hs Ht].
  assert (Hkind : forall s, is_dynstr (link1 ds dt s) = is_dynstr s /\
    is_dynsym (link1 ds dt s) = is_dynsym s /\
    wants_dynstr (link1 ds dt s) = wants_dynstr s /\
    wants_dynsym (link1 ds dt s) = wants_dynsym s).
  { intros s. unfold is_dynstr, is_dynsym, wants_dynstr, wants_dynsym.
    destruct (link1_fields ds dt s) as (_ & _ & -> & -> & _). auto. }
  assert (Hto : forall p v, (forall s, p (link1 ds dt s) = p s) ->
    (v = 0 /\ Forall (fun s => p s = false) l3 \/
     exists k s, l3 !! k = Some s /\ p s = true /\ v = 1 + Z.of_nat k) ->
    names_section (null :: map (link1 ds dt) l3) p v).
  { intros p v Hp [[-> Hn]|(k & s & Hk & Hps & ->)].
    - right. split; [reflexivity|]. simpl. apply List.Forall_map. revert Hn.
      apply List.Forall_impl. intros s. now rewrite Hp.
    - left. exists (link1 ds dt s). replace (Z.to_nat (1 + Z.of_nat k)) with (S k) by lia.
      simpl. rewrite list_lookup_fmap, Hk, Hp. split; [reflexivity|]. split; [exact Hps|lia]. }
  apply List.Forall_map. apply List.Forall_forall. intros s _.
  destruct (Hkind s) as (_ & _ & -> & ->). destruct (link1_link ds dt s) as [L1 L2].
  split; intros Hw; [rewrite (L1 Hw)|rewrite (L2 Hw)]; apply Hto; try (intros; apply Hkind); auto.
  destruct Hs as [[-> Hs]|(k & t & H1 & H2 & ->)].
  - left. split; [reflexivity|]. revert Hs. apply List.Forall_impl. intros t.
    unfold is_dynsym. apply Z.eqb_neq.
  - right. exists k, t. unfold is_dynsym. rewrite H2. auto.
Qed.

(** ** Properties *)

(** C27: the rebuilt section table.  For dynamic information whose tables lie in
    the image, the table is the null header followed by exactly the sections the
    information calls for - each under its own name in the name table, with its
    type, flags and address - plus .text, .data and .shstrtab; it is sorted by
    address, every allocated section ends inside the image, and no allocated
    section runs into a later one. *)
Theorem build_shdrs_table si image_sz :
  0 <= image_sz < 2 ^ 63 -> si_in_image image_sz si ->
  let b := build_shdrs si image_sz in
  exists null table text data, sh b = null :: table /\
    Permutation (map (key_of (sstrtab b)) table)
      (metadata_keys si ++ synthetic_keys image_sz text data) /\
    StronglySorted Z.le (map addr table) /\
    Forall (fun s => sh_offset (hdr s) = addr s /\ send s <= image_sz) table /\
    List.ForallOrdPairs (fun s t => alloc s = true -> alloc t = true -> send s <= addr t) table.
Proof.
  intros Hsz Hin b.
  pose proof (metadata_building image_sz si _ _ ltac:(lia) Hin (null_building image_sz)) as H1.
  destruct (synthetic_building image_sz si _ Hsz H1) as (text & data & _ & _ & H2).
  simpl app in H2. apply building_tail in H2 as (null & l & E & Hp & Hk).
  - unfold b, build_shdrs. rewrite E. simpl sh. simpl sstrtab.
    match type of Hk with map (key_of ?tab) _ = _ =>
      destruct (layout_spec image_sz tab l ltac:(lia) Hp) as (L1 & L2 & L3 & L4) end.
    exists null, (layout image_sz l), text, data. rewrite Hk in L1. repeat split; auto.
    revert L3. apply List.Forall_impl. intros s (E1 & _ & _ & E2 & _).
    unfold send, addr. rewrite E1. auto.
  - apply Forall_app. split; [apply metadata_types|]. repeat constructor; vm_compute; discriminate.
Qed.

(** The links.  In every rebuilt table the [sh_link] of .dynsym and .dynamic is
    the index of the allocated string table, that of the hash and relocation
    sections is the index of .dynsym, and it is 0 exactly when the table has no
    such section. *)
Theorem build_shdrs_links si image_sz null table :
  sh (build_shdrs si image_sz) = null :: table ->
  Forall (fun s =>
    (wants_dynstr s = true -> names_section (null :: table) is_dynstr (sh_link (hdr s))) /\
    (wants_dynsym s = true -> names_section (null :: table) is_dynsym (sh_link (hdr s)))) table.
Proof.
  unfold build_shdrs. destruct (sh (add_synthetic _ _)) as [|n l] eqn:E0;
    [rewrite E0; discriminate|].
  intros E. simpl in E. injection E as <- <-. apply layout_links.
Qed.

(** A library with a symbol, a string and a relocation table. *)
Definition demo_lib : soinfo :=
  mk_soinfo 0x200 0x300 0x40 0 0 0 0 0x400 48 24 0 0 false 0 0 0 0 0 0 0x800 10.

Lemma build_shdrs_table_witness :
  si_in_image 0x2000 demo_lib /\
  StronglySorted Z.le (map addr (drop 1 (sh (build_shdrs demo_lib 0x2000)))).
Proof.
  assert (Hin : si_in_image 0x2000 demo_lib).
  { unfold si_in_image, si_ranges. simpl. repeat constructor; unfold sizeof_Sym, sizeof_Dyn; lia. }
  split; [exact Hin|].
  destruct (build_shdrs_table demo_lib 0x2000 ltac:(lia) Hin) as (n & t & te & da & E & _ & H & _).
  rewrite E. exact H.
Defined.

Lemma build_shdrs_links_witness :
  exists null s rest, sh (build_shdrs demo_lib 0x2000) = null :: s :: rest /\
    wants_dynstr s = true /\ names_section (null :: s :: rest) is_dynstr (sh_link (hdr s)).
Proof.
  destruct (sh (build_shdrs demo_lib 0x2000)) as [|null [|s rest]] eqn:E;
    [vm_compute in E; discriminate..|].
  exists null, s, rest. split; [reflexivity|].
  assert (Hw : wants_dynstr s = true) by (vm_compute in E; injection E as _ <- _; reflexivity).
  split; [exact Hw|].
  pose proof (build_shdrs_links demo_lib 0x2000 null (s :: rest) E) as H.
  apply Forall_cons_1 in H as [[H _] _]. exact (H Hw).
Defined.

(** The clamp's test [sh_offset + sh_size > lim] wraps.  A .dynstr whose
    DT_STRSZ makes the sum reach 2^64 is left at its full size, so the section
    runs far past the image although the pass is there to prevent it. *)
Theorem build_shdrs_clamp_wraps image_sz s l :
  0 <= image_sz -> alloc s = true -> 0 < sh_offset (hdr s) < 2 ^ 64 ->
  sh_size (hdr s) = 2 ^ 64 - sh_offset (hdr s) ->
  Forall (fun t => 0 <= sh_offset (hdr t)) l ->
  head (clamp image_sz (s :: l)) = Some s.
Proof.
  intros Hi Ha Ho Hz Hl. simpl. rewrite Ha, Hz.
  replace (sh_offset (hdr s) + (2 ^ 64 - sh_offset (hdr s))) with (2 ^ 64) by lia.
  change (u64 (2 ^ 64)) with 0.
  assert (Hlim : 0 <= match l with
                      | t :: _ => if alloc t then sh_offset (hdr t) else image_sz
                      | [] => image_sz end).
  { destruct Hl as [|t l Ht]; [lia|]. destruct (alloc t); lia. }
  rewrite Z.gtb_ltb, (proj2 (Z.ltb_ge _ _)) by exact Hlim. reflexivity.
Qed.

Lemma build_shdrs_clamp_wraps_witness :
  let s := mk_sect (mk_shdr 1 SHT_STRTAB SHF_ALLOC 0x300 0x300 (2 ^ 64 - 0x300) 0 0 1 0) false in
  head (clamp 0x2000 [s]) = Some s.
Proof.
  intros s. apply (build_shdrs_clamp_wraps 0x2000 s []); try reflexivity; try constructor;
    vm_compute; try reflexivity; discriminate.
Defined.
