(* ===== verification/Sha256.v ===== *)
(** * Sha256: the streaming digest (src/common/sha256.c)

    The compression function on 32-bit words, the buffered [sha256_update] and
    the padding of [sha256_final_hex], related to the one-shot definition of
    FIPS 180-4: pad the whole message, cut it into 64-byte blocks, fold. *)

From Stdlib Require Import ZArith Lia.
From stdpp Require Import base list option numbers.
From S2P Require Import Prelude Elf.

Local Open Scope Z_scope.

(** The round constants, four to a row. *)
Definition K : list Z := concat [
  [0x428a2f98; 0x71374491; 0xb5c0fbcf; 0xe9b5dba5];
  [0x3956c25b; 0x59f111f1; 0x923f82a4; 0xab1c5ed5];
  [0xd807aa98; 0x12835b01; 0x243185be; 0x550c7dc3];
  [0x72be5d74; 0x80deb1fe; 0x9bdc06a7; 0xc19bf174];
  [0xe49b69c1; 0xefbe4786; 0x0fc19dc6; 0x240ca1cc];
  [0x2de92c6f; 0x4a7484aa; 0x5cb0a9dc; 0x76f988da];
  [0x983e5152; 0xa831c66d; 0xb00327c8; 0xbf597fc7];
  [0xc6e00bf3; 0xd5a79147; 0x06ca6351; 0x14292967];
  [0x27b70a85; 0x2e1b2138; 0x4d2c6dfc; 0x53380d13];
  [0x650a7354; 0x766a0abb; 0x81c2c92e; 0x92722c85];
  [0xa2bfe8a1; 0xa81a664b; 0xc24b8b70; 0xc76c51a3];
  [0xd192e819; 0xd6990624; 0xf40e3585; 0x106aa070];
  [0x19a4c116; 0x1e376c08; 0x2748774c; 0x34b0bcb5];
  [0x391c0cb3; 0x4ed8aa4a; 0x5b9cca4f; 0x682e6ff3];
  [0x748f82ee; 0x78a5636f; 0x84c87814; 0x8cc70208];
  [0x90befffa; 0xa4506ceb; 0xbef9a3f7; 0xc67178f2]].

Definition ROR (x n : Z) : Z := Z.lor (Z.shiftr x n) (u32 (Z.shiftl x (32 - n))).
Definition S0 (x : Z) : Z := Z.lxor (Z.lxor (ROR x 2) (ROR x 13)) (ROR x 22).
Definition S1 (x : Z) : Z := Z.lxor (Z.lxor (ROR x 6) (ROR x 11)) (ROR x 25).
Definition s0 (x : Z) : Z := Z.lxor (Z.lxor (ROR x 7) (ROR x 18)) (Z.shiftr x 3).
Definition s1 (x : Z) : Z := Z.lxor (Z.lxor (ROR x 17) (ROR x 19)) (Z.shiftr x 10).
Definition not32 (x : Z) : Z := Z.lxor x 0xffffffff.

(** The eight words [a .. h]. *)
Record hstate := mk_h { ha : Z; hb : Z; hc : Z; hd : Z; he : Z; hf : Z; hg : Z; hh : Z }.

Definition be32 (p : list byte) (i : nat) : Z :=
  let at_ k := byte_at p (Z.of_nat (i * 4 + k)) in
  Z.lor (Z.lor (Z.lor (Z.shiftl (at_ 0%nat) 24) (Z.shiftl (at_ 1%nat) 16))
           (Z.shiftl (at_ 2%nat) 8)) (at_ 3%nat).

(** The message schedule, latest word first. *)
Fixpoint extend (n : nat) (w : list Z) : list Z :=
  match n with
  | O => w
  | S n =>
      extend n (u32 (s1 (nth 1 w 0) + nth 6 w 0 + s0 (nth 14 w 0) + nth 15 w 0) :: w)
  end.
Definition schedule (p : list byte) : list Z :=
  reverse (extend 48 (reverse (map (be32 p) (seq 0 16)))).

Definition round (v : hstate) (kw : Z * Z) : hstate :=
  let '(mk_h a b c d e f g h) := v in
  let t1 := u32 (h + S1 e + Z.lxor (Z.land e f) (Z.land (not32 e) g) + fst kw + snd kw) in
  let t2 := u32 (S0 a + Z.lxor (Z.lxor (Z.land a b) (Z.land a c)) (Z.land b c)) in
  mk_h (u32 (t1 + t2)) a b c (u32 (d + t1)) e f g.

Definition sha256_block (st : hstate) (p : list byte) : hstate :=
  let '(mk_h a b c d e f g h) := fold_left round (combine K (schedule p)) st in
  mk_h (u32 (ha st + a)) (u32 (hb st + b)) (u32 (hc st + c)) (u32 (hd st + d))
    (u32 (he st + e)) (u32 (hf st + f)) (u32 (hg st + g)) (u32 (hh st + h)).

Record sha256_ctx := mk_ctx { cstate : hstate; bitlen : Z; cbuf : list byte; buflen : Z }.

Definition H0 : hstate :=
  mk_h 0x6a09e667 0xbb67ae85 0x3c6ef372 0xa54ff53a 0x510e527f 0x9b05688c 0x1f83d9ab 0x5be0cd19.

(** [buf] is whatever the uninitialised context holds. *)
Definition sha256_init (buf : list byte) : sha256_ctx := mk_ctx H0 0 buf 0.

Fixpoint update_loop (fuel : nat) (c : sha256_ctx) (p : list byte) : res sha256_ctx :=
  match fuel with
  | O => NoFuel
  | S fuel =>
      if zlen p =? 0 then Ret c else
      let want := u64 (64 - buflen c) in
      let take_ := if zlen p <? want then zlen p else want in
      b ← memcpy_out (cbuf c) (buflen c) (take (Z.to_nat take_) p);
      let n := buflen c + take_ in
      let rest := drop (Z.to_nat take_) p in
      if n =? 64 then update_loop fuel (mk_ctx (sha256_block (cstate c) b) (bitlen c) b 0) rest
      else update_loop fuel (mk_ctx (cstate c) (bitlen c) b n) rest
  end.

Definition sha256_update (c : sha256_ctx) (data : list byte) : res sha256_ctx :=
  update_loop (S (length data))
    (mk_ctx (cstate c) (u64 (bitlen c + u64 (zlen data * 8))) (cbuf c) (buflen c)) data.

Definition zeros (n : Z) : list byte := repeat x00 (Z.to_nat n).

(** The eight length bytes, most significant first. *)
Definition be64 (bits : Z) : list byte :=
  map (fun i => zb (Z.shiftr bits (56 - Z.of_nat i * 8))) (seq 0 8).

Definition hx (v : Z) : byte := nth (Z.to_nat v) (bytes_of "0123456789abcdef") x00.
Definition hex_word (w : Z) : list byte :=
  flat_map (fun sft => let b := u8 (Z.shiftr w sft) in [hx (Z.shiftr b 4); hx (Z.land b 0xf)])
    [24; 16; 8; 0].
Definition hex_digest (v : hstate) : list byte :=
  flat_map hex_word [ha v; hb v; hc v; hd v; he v; hf v; hg v; hh v].

(** The 64 hexadecimal characters, without the terminator. *)
Definition sha256_final_hex (c : sha256_ctx) : res (list byte) :=
  let bits := bitlen c in
  b ← memcpy_out (cbuf c) (buflen c) [x80];
  let n := buflen c + 1 in
  '(st, b, n) ← (if 56 <? n then
                   b ← memcpy_out b n (zeros (64 - n));
                   Ret (sha256_block (cstate c) b, b, 0)
                 else Ret (cstate c, b, n));
  b ← memcpy_out b n (zeros (56 - n));
  b ← memcpy_out b 56 (be64 bits);
  Ret (hex_digest (sha256_block st b)).

(** ** The one-shot definition *)

(** FIPS 180-4 padding: 0x80, zeros to 56 modulo 64, the bit length. *)
Definition padded (m : list byte) : list byte :=
  m ++ x80 :: zeros ((55 - zlen m) mod 64) ++ be64 (u64 (8 * zlen m)).

Fixpoint digest_blocks (n : nat) (st : hstate) (m : list byte) : hstate :=
  match n with
  | O => st
  | S n => digest_blocks n (sha256_block st (take 64 m)) (drop 64 m)
  end.

Definition sha256 (m : list byte) : list byte :=
  let p := padded m in hex_digest (digest_blocks (length p / 64) H0 p).

Example sha256_abc :
  sha256 (bytes_of "abc") =
  bytes_of "ba7816bf8f01cfea414140de5dae2223b00361a396177a9cb410ff61f20015ad".
Proof. vm_compute. reflexivity. Qed.

Example sha256_two_blocks :
  sha256 (bytes_of "abcdbcdecdefdefgefghfghighijhijkijkljklmklmnlmnomnopnopq") =
  bytes_of "248d6a61d20638b8e5c026930c3e6039a33ce45964ff2167f6ecedd419db06c1".
Proof. vm_compute. reflexivity. Qed.

(** ** Streaming *)

Lemma digest_blocks_app k j st a b :
  length a = (64 * k)%nat ->
  digest_blocks (k + j) st (a ++ b) = digest_blocks j (digest_blocks k st a) b.
Proof.
  revert st a. induction k as [|k IH]; intros st a Ha.
  - destruct a; [reflexivity|simpl in Ha; lia].
  - cbn [digest_blocks Nat.add]. rewrite take_app_le, drop_app_le by lia. apply IH.
    rewrite length_drop. lia.
Qed.

Lemma digest_one st b : length b = 64%nat -> digest_blocks 1 st b = sha256_block st b.
Proof. intros H. cbn [digest_blocks]. now rewrite take_ge by lia. Qed.

(** The context has digested [k] whole blocks and holds [rest]. *)
Record holds (c : sha256_ctx) (k : nat) (done rest : list byte) : Prop := {
  ho_done : length done = (64 * k)%nat;
  ho_state : cstate c = digest_blocks k H0 done;
  ho_len : buflen c = zlen rest;
  ho_lt : zlen rest < 64;
  ho_buf : zlen (cbuf c) = 64;
  ho_rest : take (length rest) (cbuf c) = rest
}.

(** Writing behind a known prefix extends it. *)
Lemma splice_prefix buf rest bs :
  take (length rest) buf = rest ->
  splice buf (zlen rest) bs = rest ++ bs ++ drop (length rest + length bs) buf.
Proof.
  intros H. unfold splice, zlen. rewrite Nat2Z.id, H.
  now replace (Z.to_nat (Z.of_nat (length rest) + Z.of_nat (length bs)))
    with (length rest + length bs)%nat by lia.
Qed.

Lemma update_loop_holds fuel p : forall c k done rest,
  holds c k done rest -> (length p < fuel)%nat ->
  exists c' k' done' rest', update_loop fuel c p = Ret c' /\ holds c' k' done' rest' /\
    done' ++ rest' = done ++ rest ++ p /\ bitlen c' = bitlen c.
Proof.
  revert p. induction fuel as [|fuel IH]; intros p c k done rest H Hf; [lia|].
  pose proof H as [Hd Hs Hl Hlt Hb Hr]. cbn [update_loop].
  destruct (Z.eqb_spec (zlen p) 0) as [E|E].
  { exists c, k, done, rest. destruct p; [|unfold zlen in E; simpl in E; lia].
    rewrite app_nil_r. auto. }
  rewrite u64_small by (unfold zlen in *; lia). rewrite Hl.
  set (t := if zlen p <? 64 - zlen rest then zlen p else 64 - zlen rest).
  assert (Ht : 0 < t <= zlen p /\ t <= 64 - zlen rest /\ (t < 64 - zlen rest -> t = zlen p)).
  { unfold t. pose proof (zlen_nonneg p). destruct (Z.ltb_spec (zlen p) (64 - zlen rest)); lia. }
  clearbody t. assert (Hlt' : length (take (Z.to_nat t) p) = Z.to_nat t)
    by (rewrite length_take; unfold zlen in Ht; lia).
  assert (Hzt : zlen (take (Z.to_nat t) p) = t) by (unfold zlen; lia).
  rewrite memcpy_out_ok, ret_bind by (unfold zlen in *; lia).
  rewrite (splice_prefix _ _ _ Hr).
  assert (Hp : p = take (Z.to_nat t) p ++ drop (Z.to_nat t) p) by now rewrite take_drop.
  assert (Hfd : (length (drop (Z.to_nat t) p) < fuel)%nat)
    by (rewrite length_drop; unfold zlen in Ht; lia).
  cbv zeta. destruct (Z.eqb_spec (zlen rest + t) 64) as [E64|E64].
  - rewrite drop_ge, app_nil_r by (unfold zlen in *; lia).
    set (blk := rest ++ take (Z.to_nat t) p).
    assert (Hblk : length blk = 64%nat) by (unfold blk; rewrite length_app; unfold zlen in *; lia).
    destruct (IH (drop (Z.to_nat t) p)
      (mk_ctx (sha256_block (cstate c) blk) (bitlen c) blk 0) (k + 1)%nat (done ++ blk) [])
      as (c' & k' & d' & r' & E1 & H1 & E2 & E3).
    + constructor; simpl; auto; try (unfold zlen; simpl; lia).
      * rewrite length_app. lia.
      * rewrite digest_blocks_app, digest_one, Hs by lia. reflexivity.
    + exact Hfd.
    + exists c', k', d', r'. repeat split; auto; try apply H1.
      rewrite E2. simpl. rewrite Hp at 2. unfold blk. now rewrite <- !app_assoc.
  - destruct (IH (drop (Z.to_nat t) p)
      (mk_ctx (cstate c) (bitlen c)
         (rest ++ take (Z.to_nat t) p ++ drop (length rest + length (take (Z.to_nat t) p)) (cbuf c))
         (zlen rest + t)) k done (rest ++ take (Z.to_nat t) p))
      as (c' & k' & d' & r' & E1 & H1 & E2 & E3).
    + constructor; simpl; auto.
      * rewrite zlen_app. lia.
      * rewrite zlen_app. lia.
      * rewrite !zlen_app. unfold zlen in *. rewrite length_drop. lia.
      * rewrite app_assoc, take_app_length. reflexivity.
    + exact Hfd.
    + exists c', k', d', r'. repeat split; auto; try apply H1.
      rewrite E2. rewrite Hp at 3. now rewrite <- !app_assoc.
Qed.

(** [c] has absorbed the message [m]. *)
Definition absorbed (c : sha256_ctx) (m : list byte) : Prop :=
  (exists k done rest, holds c k done rest /\ done ++ rest = m) /\
  bitlen c = u64 (8 * zlen m).

Lemma init_absorbed buf : zlen buf = 64 -> absorbed (sha256_init buf) [].
Proof.
  intros Hb. split; [|reflexivity]. exists 0%nat, [], []. split; [|reflexivity].
  constructor; auto. unfold zlen. simpl. lia.
Qed.

Lemma update_absorbed c m data :
  absorbed c m -> exists c', sha256_update c data = Ret c' /\ absorbed c' (m ++ data).
Proof.
  intros [(k & done & rest & H & Hm) Hb].
  destruct (update_loop_holds (S (length data)) data
    (mk_ctx (cstate c) (u64 (bitlen c + u64 (zlen data * 8))) (cbuf c) (buflen c)) k done rest)
    as (c' & k' & d' & r' & E1 & H1 & E2 & E3).
  { destruct H. constructor; auto. }
  { lia. }
  exists c'. split; [exact E1|]. split.
  - exists k', d', r'. split; [exact H1|]. rewrite E2, app_assoc. now rewrite Hm.
  - rewrite E3. simpl. rewrite Hb. unfold u64.
    rewrite <- Zplus_mod, zlen_app. f_equal. lia.
Qed.

Lemma zlen_zeros n : 0 <= n -> zlen (zeros n) = n.
Proof. intros. unfold zeros, zlen. rewrite repeat_length. lia. Qed.
Lemma zeros_app a b : 0 <= a -> 0 <= b -> zeros a ++ zeros b = zeros (a + b).
Proof. intros. unfold zeros. rewrite Z2Nat.inj_add, repeat_app by lia. reflexivity. Qed.
Lemma zlen_be64 v : zlen (be64 v) = 8.
Proof. reflexivity. Qed.

(** The block buffer with a known prefix. *)
Definition prefix64 (buf pre : list byte) : Prop :=
  zlen buf = 64 /\ take (length pre) buf = pre.

Lemma write_prefix buf pre bs off :
  prefix64 buf pre -> off = zlen pre -> zlen pre + zlen bs <= 64 ->
  exists b', memcpy_out buf off bs = Ret b' /\ prefix64 b' (pre ++ bs).
Proof.
  intros [Hb Hp] -> Hle. pose proof (zlen_nonneg pre). rewrite memcpy_out_ok by lia.
  eexists. split; [reflexivity|]. split; [rewrite zlen_splice; lia|].
  rewrite (splice_prefix _ _ _ Hp), app_assoc. apply take_app_length.
Qed.

Lemma full_prefix buf pre : prefix64 buf pre -> zlen pre = 64 -> buf = pre.
Proof. unfold zlen. intros [Hb Hp] H. rewrite take_ge in Hp by (unfold zlen in Hb; lia). auto. Qed.

(** Number of blocks of a message of whole blocks. *)
Lemma whole_blocks (p : list byte) k : length p = (64 * k)%nat -> (length p / 64)%nat = k.
Proof. intros ->. rewrite Nat.mul_comm. now apply Nat.div_mul. Qed.

Lemma sha256_last m k done rest tail_ n :
  m = done ++ rest -> length done = (64 * k)%nat ->
  tail_ = rest ++ x80 :: zeros ((55 - zlen m) mod 64) ++ be64 (u64 (8 * zlen m)) ->
  length tail_ = (64 * n)%nat ->
  sha256 m = hex_digest (digest_blocks n (digest_blocks k H0 done) tail_).
Proof.
  intros -> Hd Ht Hn. unfold sha256, padded. cbv zeta. rewrite <- app_assoc, <- Ht.
  rewrite (whole_blocks _ (k + n)) by (rewrite length_app; lia).
  now rewrite digest_blocks_app.
Qed.

(** The last block: zeros up to the length field, then the length. *)
Lemma final_block st b pre bits :
  prefix64 b pre -> zlen pre <= 56 ->
  (b ← memcpy_out b (zlen pre) (zeros (56 - zlen pre));
   b ← memcpy_out b 56 (be64 bits);
   Ret (hex_digest (sha256_block st b))) =
  Ret (hex_digest (sha256_block st (pre ++ zeros (56 - zlen pre) ++ be64 bits))).
Proof.
  intros P1 Hle. pose proof (zlen_nonneg pre).
  destruct (write_prefix b pre (zeros (56 - zlen pre)) (zlen pre) P1) as (b2 & E2 & P2);
    [auto|rewrite zlen_zeros; lia|].
  assert (H56 : zlen (pre ++ zeros (56 - zlen pre)) = 56) by (rewrite zlen_app, zlen_zeros; lia).
  destruct (write_prefix b2 _ (be64 bits) 56 P2) as (b3 & E3 & P3); [auto|rewrite zlen_be64; lia|].
  rewrite E2, ret_bind, E3, ret_bind.
  apply full_prefix in P3; [|rewrite zlen_app, zlen_be64; lia]. now rewrite P3, <- app_assoc.
Qed.

Lemma length_zlen {A} (l : list A) n : zlen l = Z.of_nat n -> length l = n.
Proof. unfold zlen. lia. Qed.

Lemma final_absorbed c m : absorbed c m -> sha256_final_hex c = Ret (sha256 m).
Proof.
  intros [(k & done & rest & [Hd Hs Hl Hlt Hb Hr] & Hm) Hbits]. unfold sha256_final_hex.
  pose proof (zlen_nonneg rest). cbv zeta.
  destruct (write_prefix (cbuf c) rest [x80] (buflen c)) as (b1 & E1 & P1);
    [split; auto|auto|unfold zlen in *; simpl; lia|].
  rewrite E1, ret_bind, Hl, Hs.
  assert (Hz1 : zlen (rest ++ [x80]) = zlen rest + 1) by (rewrite zlen_app; reflexivity).
  assert (Hmod : (55 - zlen m) mod 64 = (55 - zlen rest) mod 64).
  { rewrite <- Hm, zlen_app. unfold zlen at 1. rewrite Hd.
    replace (55 - (Z.of_nat (64 * k) + zlen rest)) with (55 - zlen rest + (- Z.of_nat k) * 64) by lia.
    apply Z.mod_add. lia. }
  set (st := digest_blocks k H0 done). rewrite <- Hz1.
  destruct (Z.ltb_spec 56 (zlen (rest ++ [x80]))) as [Hbig|Hsmall].
  - assert (Hz : (55 - zlen m) mod 64 = 64 - (zlen rest + 1) + 56).
    { rewrite Hmod. symmetry. apply (Z.mod_unique _ _ (-1)); lia. }
    destruct (write_prefix b1 _ (zeros (64 - zlen (rest ++ [x80]))) _ P1 eq_refl) as (b2 & E2 & P2);
      [rewrite zlen_zeros; lia|].
    rewrite E2, !ret_bind.
    apply full_prefix in P2; [|rewrite zlen_app, zlen_zeros; lia].
    assert (Hb2 : zlen b2 = 64) by (rewrite P2, zlen_app, zlen_zeros; lia).
    pose proof (final_block (sha256_block st b2) b2 [] (bitlen c) ltac:(split; auto)
      ltac:(vm_compute; discriminate)) as Hf.
    change (zlen (@nil byte)) with 0 in Hf. rewrite Hf. f_equal. symmetry.
    erewrite (sha256_last m k done rest (b2 ++ zeros 56 ++ be64 (bitlen c)) 2); eauto.
    + fold st. change 2%nat with (1 + 1)%nat.
      rewrite digest_blocks_app, !digest_one by (reflexivity || (apply length_zlen; exact Hb2)).
      reflexivity.
    + rewrite Hz, <- zeros_app by lia. rewrite P2, Hbits, Hz1. now rewrite <- !app_assoc.
    + apply length_zlen. rewrite zlen_app, Hb2. reflexivity.
  - assert (Hz : (55 - zlen m) mod 64 = 56 - (zlen rest + 1)) by (rewrite Hmod, Z.mod_small; lia).
    rewrite ret_bind, final_block by (auto; lia). f_equal. symmetry.
    erewrite (sha256_last m k done rest
      ((rest ++ [x80]) ++ zeros (56 - zlen (rest ++ [x80])) ++ be64 (bitlen c)) 1); eauto.
    + fold st. rewrite digest_one; [reflexivity|].
      apply length_zlen. rewrite !zlen_app, zlen_zeros, zlen_be64; rewrite <- ?zlen_app; simpl; lia.
    + rewrite Hz, Hz1, Hbits. now rewrite <- !app_assoc.
    + apply length_zlen. rewrite !zlen_app, zlen_zeros, zlen_be64; rewrite <- ?zlen_app; simpl; lia.
Qed.

(** A sequence of updates. *)
Fixpoint update_all (c : sha256_ctx) (chunks : list (list byte)) : res sha256_ctx :=
  match chunks with
  | [] => Ret c
  | d :: chunks => c ← sha256_update c d; update_all c chunks
  end.

Lemma update_all_absorbed chunks : forall c m,
  absorbed c m -> exists c', update_all c chunks = Ret c' /\ absorbed c' (m ++ concat chunks).
Proof.
  induction chunks as [|d chunks IH]; intros c m H; simpl.
  - exists c. rewrite app_nil_r. auto.
  - destruct (update_absorbed c m d H) as (c1 & E & H1). rewrite E, ret_bind, app_assoc.
    now apply IH.
Qed.

(** ** Properties *)

(** C37: the streaming digest is the one-shot one.  However the message is cut into
    [sha256_update] calls, and whatever the uninitialised block buffer holds, the
    calls stay inside the 64-byte buffer and terminate, and [sha256_final_hex]
    prints the FIPS 180-4 digest of the concatenation: padded with 0x80, zeros
    and the 64-bit length (modulo 2^64 bits), and folded block by block. *)
Theorem sha256_streaming buf chunks :
  zlen buf = 64 ->
  (c ← update_all (sha256_init buf) chunks; sha256_final_hex c) = Ret (sha256 (concat chunks)).
Proof.
  intros Hb. destruct (update_all_absorbed chunks _ _ (init_absorbed buf Hb)) as (c & E & H).
  rewrite E, ret_bind. now apply final_absorbed.
Qed.

Lemma sha256_streaming_witness :
  (c ← update_all (sha256_init (zeros 64)) [bytes_of "a"; []; bytes_of "bc"];
   sha256_final_hex c) = Ret (sha256 (bytes_of "abc")).
Proof. apply (sha256_streaming (zeros 64) [bytes_of "a"; []; bytes_of "bc"]). reflexivity. Defined.
