(* ===== verification/Modules.v ===== *)
(** * Modules: selecting and walking a process's modules

    - src/common/maps.c: [anubee_module_base_idx], the walk from a segment back to
      its module's load base;
    - src/common/pattern_match.c: glob, substring and /regex/ matching;
    - src/dump/rebuild.c: the name and base selectors and
      [dump_walk_pid_modules], which calls back once per module.

    C strings are byte lists without their terminator.  [fnmatch], [regcomp] and
    [regexec] are the C library's and are parameters; the callback and its
    context are the caller's. *)

From Stdlib Require Import ZArith Lia.
From stdpp Require Import base list option numbers relations.
From S2P Require Import Prelude Elf.

Local Open Scope Z_scope.

(** ** C strings *)

Fixpoint is_prefix (p s : list byte) : bool :=
  match p, s with
  | [], _ => true
  | a :: p, b :: s => bool_decide (a = b) && is_prefix p s
  | _ :: _, [] => false
  end.

(** [strstr]: the text before the first occurrence, when there is one. *)
Fixpoint strstr (text pat : list byte) : option (list byte) :=
  if is_prefix pat text then Some [] else
  match text with
  | [] => None
  | c :: text => (fun r => c :: r) <$> strstr text pat
  end.

Definition strchr_any (accept s : list byte) : bool :=
  existsb (fun c => existsb (fun a => bool_decide (a = c)) accept) s.

(** What follows the last '/'. *)
Fixpoint basename_of (p : list byte) : list byte :=
  match p with
  | [] => []
  | c :: r => if strchr_any [x2f] (c :: r)
              then (if bool_decide (c = x2f) && negb (strchr_any [x2f] r) then r else basename_of r)
              else c :: r
  end.

Definition deleted_suffix : list byte := bytes_of " (deleted)".
Definition strip_deleted (bn : list byte) : list byte :=
  default bn (strstr bn deleted_suffix).

(** ** Patterns *)

Section Patterns.
Context (fnmatch : list byte -> list byte -> bool).
Context (regcomp : list byte -> bool) (regexec : list byte -> list byte -> bool).

Definition pm_is_glob (pattern : list byte) : bool :=
  strchr_any (bytes_of "*?[") pattern.

Definition pm_is_regex (pattern : list byte) : bool :=
  (2 <=? zlen pattern) && bool_decide (head pattern = Some x2f) &&
  bool_decide (last pattern = Some x2f).

Definition pm_match (pattern text : list byte) (exact : bool) : bool :=
  if pm_is_glob pattern then fnmatch pattern text
  else if exact then bool_decide (text = pattern)
  else bool_decide (is_Some (strstr text pattern)).

(** The source handed to [regcomp]; [None] when the pattern is refused. *)
Definition regex_source (pattern : list byte) : option (list byte) :=
  if pm_is_regex pattern then
    let inner := zlen pattern - 2 in
    if inner =? 0 then None
    else if 256 <=? inner then None
    else Some (slice pattern 1 inner)
  else Some pattern.

Definition pm_regex (pattern text : list byte) : bool :=
  match regex_source pattern with
  | None => false
  | Some re => if regcomp re then regexec re text else false
  end.

Definition pm_regex_valid (pattern : list byte) : bool :=
  match regex_source pattern with
  | None => false
  | Some re => regcomp re
  end.

(** ** Selectors *)

Definition dump_name_matches (pattern path : list byte) : bool :=
  if pm_is_glob pattern then
    let bn := take 255 (basename_of path) in
    pm_match pattern (strip_deleted bn) false
  else pm_match pattern path false.

(** [hit] is the tracker array, when there is one. *)
Fixpoint dump_name_matches_any_track (pats : list (list byte)) (path : list byte)
    (hit : list bool) : bool * list bool :=
  match pats, hit with
  | [], _ => (false, hit)
  | p :: pats, h :: hit =>
      let '(m, hit) := dump_name_matches_any_track pats path hit in
      let m0 := dump_name_matches p path in
      (m0 || m, (m0 || h) :: hit)
  | p :: pats, [] =>
      let '(m, _) := dump_name_matches_any_track pats path [] in
      (dump_name_matches p path || m, [])
  end.

Record dump_sel := mk_sel { pats : list (list byte); bases : list Z }.

Definition dump_sel_matches (sel : dump_sel) (path : list byte) (base : Z) (hit : list bool)
  : bool * list bool :=
  if existsb (fun b => b =? base) (bases sel) then (true, hit)
  else if 0 <? zlen (pats sel) then dump_name_matches_any_track (pats sel) path hit
  else (false, hit).

Definition dump_sel_matches_seg (sel : dump_sel) (path : list byte) (seg_start seg_end : Z)
    (hit : list bool) : bool * list bool :=
  if existsb (fun b => (b >=? seg_start) && (b <? seg_end)) (bases sel) then (true, hit)
  else if 0 <? zlen (pats sel) then dump_name_matches_any_track (pats sel) path hit
  else (false, hit).

(** ** Maps *)

Record anubee_map_line := mk_line {
  start : Z; end_ : Z; off : Z; exec : bool; path : list byte
}.

Definition anubee_is_filler_map (m : anubee_map_line) : bool :=
  match path m with [] => true | c :: _ => bool_decide (c = x5b) end.

(** The inner loop: down to the next non-filler entry, or to 0. *)
Fixpoint skip_filler (m : list anubee_map_line) (j : nat) : res nat :=
  match j with
  | O => Ret O
  | S j' => match m !! j with
            | None => Oob
            | Some l => if anubee_is_filler_map l then skip_filler m j' else Ret j
            end
  end.

Fixpoint base_loop (fuel : nat) (m : list anubee_map_line) (i : nat) : res nat :=
  match fuel with
  | O => NoFuel
  | S fuel =>
      match i with
      | O => Ret O
      | S i' =>
          j ← skip_filler m i';
          match m !! j, m !! i with
          | Some a, Some b =>
              if bool_decide (path a = path b) && (off a <? off b)
              then base_loop fuel m j else Ret i
          | _, _ => Oob
          end
      end
  end.

Definition anubee_module_base_idx (m : list anubee_map_line) (hit : nat) : res nat :=
  base_loop (S hit) m hit.

Definition load_base_of (m : list anubee_map_line) (hit : nat) : res Z :=
  i ← anubee_module_base_idx m hit;
  match m !! i with Some l => Ret (start l) | None => Oob end.
Definition load_off_of (m : list anubee_map_line) (hit : nat) : res Z :=
  i ← anubee_module_base_idx m hit;
  match m !! i with Some l => Ret (off l) | None => Oob end.

(** ** The walk *)

Context {C : Type}.
(** The callback: base, path, file offset and context to return code, covered
    end (0 when left alone) and context. *)
Context (fn : Z -> list byte -> Z -> C -> Z * Z * C).

Record walk := mk_walk {
  done_bases : list Z; cov : list (Z * Z); ok : Z; whit : list bool; ctx : C
}.

Definition walk_skip (w : walk) (base : Z) : bool :=
  existsb (fun b => b =? base) (done_bases w) ||
  existsb (fun c => (base >=? fst c) && (base <? snd c)) (cov w).

Definition walk_step (m : list anubee_map_line) (sel : dump_sel) (w : walk) (i : nat) : res walk :=
  match m !! i with
  | None => Oob
  | Some l =>
      match path l with
      | [] => Ret w
      | _ =>
          base ← load_base_of m i;
          foff ← load_off_of m i;
          let '(sel_ok, hit) := dump_sel_matches_seg sel (path l) (start l) (end_ l) (whit w) in
          if negb sel_ok then Ret (mk_walk (done_bases w) (cov w) (ok w) hit (ctx w)) else
          if walk_skip w base then Ret (mk_walk (done_bases w) (cov w) (ok w) hit (ctx w)) else
          let done := if zlen (done_bases w) <? 64 then done_bases w ++ [base]
                      else done_bases w in
          let '(rc, fin, c) := fn base (path l) foff (ctx w) in
          if rc =? 0 then
            let cov_ := if (fin >? base) && (zlen (cov w) <? 64)
                        then cov w ++ [(base, fin)] else cov w in
            Ret (mk_walk done cov_ (ok w + 1) hit c)
          else Ret (mk_walk done (cov w) (ok w) hit c)
      end
  end.

Fixpoint walk_from (m : list anubee_map_line) (sel : dump_sel) (n i : nat) (w : walk) : res walk :=
  match n with
  | O => Ret w
  | S n => w ← walk_step m sel w i; walk_from m sel n (S i) w
  end.

(** [maps] and [memfd] are the outcomes of reading the maps and of opening the
    memory file. *)
Definition dump_walk_pid_modules (maps : option (list anubee_map_line)) (memfd : bool)
    (sel : dump_sel) (hit : list bool) (c : C) : res (Z * walk) :=
  match maps with
  | None => Ret (-1, mk_walk [] [] 0 hit c)
  | Some m =>
      if negb memfd then Ret (-1, mk_walk [] [] 0 hit c) else
      w ← walk_from m sel (length m) 0 (mk_walk [] [] 0 hit c);
      Ret (ok w, w)
  end.
End Patterns.

(** ** The load base *)

Definition filler_at (m : list anubee_map_line) (k : nat) : Prop :=
  exists l, m !! k = Some l /\ anubee_is_filler_map l = true.

(** [j] is the segment before segment [i] of the same module: only fillers lie
    between them, and the same file continues at a higher offset. *)
Definition prev_seg (m : list anubee_map_line) (i j : nat) : Prop :=
  (j < i)%nat /\ (forall k, (j < k < i)%nat -> filler_at m k) /\
  (j = 0%nat \/ ~ filler_at m j) /\
  exists a b, m !! j = Some a /\ m !! i = Some b /\ path a = path b /\ off a < off b.

Lemma skip_filler_spec m j :
  (j < length m)%nat ->
  exists r, skip_filler m j = Ret r /\ (r <= j)%nat /\
    (forall k, (r < k <= j)%nat -> filler_at m k) /\ (r = 0%nat \/ ~ filler_at m r).
Proof.
  induction j as [|j IH]; intros Hj.
  - exists 0%nat. repeat split; auto. lia.
  - cbn [skip_filler]. destruct (lookup_lt_is_Some_2 m (S j) Hj) as [l Hl]. rewrite Hl.
    destruct (anubee_is_filler_map l) eqn:Ef.
    + destruct (IH ltac:(lia)) as (r & E & Hr & Hf & Hz). exists r. repeat split; auto.
      intros k Hk. destruct (decide (k = S j)) as [->|]; [exists l; auto|]. apply Hf. lia.
    + exists (S j). repeat split; auto; [lia|]. right. intros (l' & Hl' & Hf'). congruence.
Qed.

(** The nearest non-filler entry is unique. *)
Lemma nearest_unique m i j j' :
  (j < i)%nat -> (j' < i)%nat ->
  (forall k, (j < k < i)%nat -> filler_at m k) -> (j = 0%nat \/ ~ filler_at m j) ->
  (forall k, (j' < k < i)%nat -> filler_at m k) -> (j' = 0%nat \/ ~ filler_at m j') -> j = j'.
Proof.
  intros H1 H2 F1 Z1 F2 Z2. destruct (Nat.lt_trichotomy j j') as [H|[H|H]]; [|exact H|].
  - destruct Z2 as [->|Z2]; [lia|]. elim Z2. apply F1. lia.
  - destruct Z1 as [->|Z1]; [lia|]. elim Z1. apply F2. lia.
Qed.

Lemma prev_seg_unique m i j j' : prev_seg m i j -> prev_seg m i j' -> j = j'.
Proof. intros (H1 & F1 & Z1 & _) (H2 & F2 & Z2 & _). eapply nearest_unique; eauto. Qed.

Lemma base_loop_spec fuel m i :
  (i < fuel)%nat -> (i < length m)%nat ->
  exists r, base_loop fuel m i = Ret r /\ rtc (prev_seg m) i r /\
    (forall j, ~ prev_seg m r j) /\ (r < length m)%nat.
Proof.
  revert i. induction fuel as [|fuel IH]; intros i Hf Hi; [lia|]. cbn [base_loop].
  destruct i as [|i].
  { exists 0%nat. repeat split; auto; [apply rtc_refl|]. intros j (H & _). lia. }
  destruct (skip_filler_spec m i ltac:(lia)) as (j & Ej & Hj & Hfill & Hz).
  rewrite Ej, ret_bind.
  destruct (lookup_lt_is_Some_2 m j ltac:(lia)) as [a Ha].
  destruct (lookup_lt_is_Some_2 m (S i) Hi) as [b Hb]. rewrite Ha, Hb.
  destruct (bool_decide (path a = path b) && (off a <? off b)) eqn:E.
  - apply andb_true_iff in E as [Ep Eo]. apply bool_decide_eq_true in Ep. b2p.
    destruct (IH j ltac:(lia) ltac:(lia)) as (r & Er & Hr & Hn & Hl).
    exists r. split; [exact Er|]. split; [|auto]. eapply rtc_l; [|exact Hr].
    split; [lia|]. split; [intros k Hk; apply Hfill; lia|]. split; [exact Hz|]. eauto 10.
  - exists (S i). split; [reflexivity|]. split; [apply rtc_refl|]. split; [|exact Hi].
    intros j' Hp. assert (j' = j) as ->.
    { destruct Hp as (? & ? & ? & _). apply (nearest_unique m (S i)); auto; try lia.
      intros k Hk. apply Hfill. lia. }
    destruct Hp as (_ & _ & _ & a' & b' & Ha' & Hb' & Hpath & Hoff).
    rewrite Ha in Ha'. rewrite Hb in Hb'. injection Ha' as <-. injection Hb' as <-.
    rewrite bool_decide_eq_true_2 in E by exact Hpath. simpl in E. b2p. lia.
Qed.

(** A chain of segments has one end. *)
Lemma chain_end_unique m i r r' :
  rtc (prev_seg m) i r -> rtc (prev_seg m) i r' ->
  (forall j, ~ prev_seg m r j) -> (forall j, ~ prev_seg m r' j) -> r = r'.
Proof.
  intros H. revert r'. induction H as [x|x y z Hxy Hyz IH]; intros r' H' Hr Hr'.
  - destruct H' as [|? y ? Hxy _]; [reflexivity|]. now elim (Hr y).
  - destruct H' as [x|x y' r' Hxy' Hyr']; [now elim (Hr' y)|].
    rewrite (prev_seg_unique _ _ _ _ Hxy Hxy') in *. now apply IH.
Qed.

(** ** The walk *)

Section Walk.
Context (fnmatch : list byte -> list byte -> bool).
Context {C : Type} (fn : Z -> list byte -> Z -> C -> Z * Z * C).
Context (m : list anubee_map_line) (sel : dump_sel).

(** The callback with the list of the bases it was called for. *)
Definition traced (base : Z) (p : list byte) (foff : Z) (c : C * list Z) : Z * Z * (C * list Z) :=
  let '(rc, fin, c') := fn base p foff (fst c) in (rc, fin, (c', snd c ++ [base])).

(** Is the segment selected?  The tracker does not influence the verdict. *)
Definition selected (l : anubee_map_line) : bool :=
  existsb (fun b => (b >=? start l) && (b <? end_ l)) (bases sel) ||
  existsb (fun p => dump_name_matches fnmatch p (path l)) (pats sel).

Lemma track_verdict ps p hit :
  fst (dump_name_matches_any_track fnmatch ps p hit) =
  existsb (fun q => dump_name_matches fnmatch q p) ps.
Proof.
  revert hit. induction ps as [|q ps IH]; intros hit; [reflexivity|].
  destruct hit as [|h hit]; simpl.
  - specialize (IH []). destruct (dump_name_matches_any_track fnmatch ps p []). simpl in *.
    now rewrite IH.
  - specialize (IH hit). destruct (dump_name_matches_any_track fnmatch ps p hit). simpl in *.
    now rewrite IH.
Qed.

Lemma sel_verdict l hit :
  fst (dump_sel_matches_seg fnmatch sel (path l) (start l) (end_ l) hit) = selected l.
Proof.
  unfold dump_sel_matches_seg, selected. destruct (existsb _ (bases sel)); [reflexivity|].
  destruct (pats sel) as [|p ps] eqn:E; [reflexivity|].
  replace (0 <? zlen (p :: ps)) with true by (symmetry; apply Z.ltb_lt; unfold zlen; simpl; lia).
  apply track_verdict.
Qed.

(** A range reported as covered contains the address. *)
Definition in_cov (cv : list (Z * Z)) (b : Z) : Prop :=
  exists c, c ∈ cv /\ fst c <= b < snd c.

(** After the segments below [i]. *)
Record walk_inv (i : nat) (w : @walk (C * list Z)) : Prop := {
  wi_done : done_bases w = take 64 (snd (ctx w));
  wi_nodup : NoDup (take 64 (snd (ctx w)));
  wi_ok : 0 <= ok w <= zlen (snd (ctx w));
  wi_origin : Forall (fun b => exists k l, (k < i)%nat /\ m !! k = Some l /\
                path l <> [] /\ selected l = true /\ load_base_of m k = Ret b) (snd (ctx w));
  wi_all : forall k l b, (k < i)%nat -> m !! k = Some l -> path l <> [] -> selected l = true ->
           load_base_of m k = Ret b -> b ∈ snd (ctx w) \/ in_cov (cov w) b
}.

Lemma load_base_total i : (i < length m)%nat ->
  (exists b, load_base_of m i = Ret b) /\ exists o, load_off_of m i = Ret o.
Proof.
  intros Hi. unfold load_base_of, load_off_of, anubee_module_base_idx.
  destruct (base_loop_spec (S i) m i ltac:(lia) Hi) as (r & -> & _ & _ & Hr).
  rewrite !ret_bind. destruct (lookup_lt_is_Some_2 m r Hr) as [l ->]. eauto.
Qed.

Lemma skip_true w b : walk_skip (C := C * list Z) w b = true -> b ∈ done_bases w \/ in_cov (cov w) b.
Proof.
  unfold walk_skip. intros H. apply orb_true_iff in H as [H|H]; apply existsb_exists in H as (x & Hx & H).
  - left. apply list_elem_of_In. b2p. now subst.
  - right. exists x. split; [now apply list_elem_of_In|]. b2p. lia.
Qed.
Lemma skip_false w b : walk_skip (C := C * list Z) w b = false -> b ∉ done_bases w.
Proof.
  unfold walk_skip. intros H Hin. apply orb_false_iff in H as [H _].
  assert (Ht : existsb (fun x => x =? b) (done_bases w) = true); [|congruence].
  apply existsb_exists. exists b. rewrite Z.eqb_refl. split; [now apply list_elem_of_In|reflexivity].
Qed.

Lemma inv_keep i w w' :
  walk_inv i w -> done_bases w' = done_bases w -> cov w' = cov w -> ok w' = ok w ->
  ctx w' = ctx w ->
  (forall l b, m !! i = Some l -> path l <> [] -> selected l = true -> load_base_of m i = Ret b ->
     b ∈ snd (ctx w) \/ in_cov (cov w) b) ->
  walk_inv (S i) w'.
Proof.
  intros [Hd Hn Ho Hor Ha] E1 E2 E3 E4 Hi. constructor; rewrite ?E1, ?E2, ?E3, ?E4; auto.
  - revert Hor. apply List.Forall_impl. intros b (k & l & Hk & H). exists k, l. split; [lia|exact H].
  - intros k l b Hk Hl Hp Hs Hb. destruct (decide (k = i)) as [->|]; [eauto|].
    apply (Ha k l); auto. lia.
Qed.

Lemma take_snoc (tr : list Z) b :
  take 64 (tr ++ [b]) = if (zlen tr <? 64) then tr ++ [b] else take 64 tr.
Proof.
  destruct (Z.ltb_spec (zlen tr) 64) as [H|H]; unfold zlen in H.
  - apply take_ge. rewrite length_app. simpl. lia.
  - apply take_app_le. lia.
Qed.

Lemma inv_call i w w' l b c cv k :
  walk_inv i w -> m !! i = Some l -> path l <> [] -> selected l = true ->
  load_base_of m i = Ret b -> walk_skip w b = false ->
  w' = mk_walk (if zlen (done_bases w) <? 64 then done_bases w ++ [b] else done_bases w)
         cv k (whit w') (c, snd (ctx w) ++ [b]) ->
  (forall x, in_cov (cov w) x -> in_cov cv x) -> ok w <= k <= ok w + 1 ->
  walk_inv (S i) w'.
Proof.
  intros [Hd Hn Ho Hor Ha] Hl Hp Hs Hb Hsk -> Hcv Hk. apply skip_false in Hsk.
  assert (Hlen : (zlen (done_bases w) <? 64) = (zlen (snd (ctx w)) <? 64)).
  { rewrite Hd. unfold zlen. rewrite length_take.
    destruct (Z.ltb_spec (Z.of_nat (length (snd (ctx w)))) 64);
      [apply Z.ltb_lt|apply Z.ltb_ge]; lia. }
  constructor; simpl.
  - rewrite Hlen, take_snoc. destruct (Z.ltb_spec (zlen (snd (ctx w))) 64) as [Hs64|]; [|exact Hd].
    rewrite Hd, take_ge; [reflexivity|]. unfold zlen in Hs64. lia.
  - rewrite take_snoc. destruct (Z.ltb_spec (zlen (snd (ctx w))) 64) as [Hs64|]; [|exact Hn].
    assert (E : take 64 (snd (ctx w)) = snd (ctx w)) by (apply take_ge; unfold zlen in Hs64; lia).
    rewrite Hd, E in *. apply NoDup_app. split; [exact Hn|].
    split; [intros x Hx Hx'; apply list_elem_of_singleton in Hx'; congruence|apply NoDup_singleton].
  - rewrite zlen_app. change (zlen [b]) with 1. lia.
  - apply Forall_app. split.
    + revert Hor. apply List.Forall_impl. intros x (j & l' & Hj & H). exists j, l'. split; [lia|exact H].
    + repeat constructor. exists i, l. auto.
  - intros j l' x Hj Hl' Hp' Hs' Hx. destruct (decide (j = i)) as [->|].
    + left. rewrite Hb in Hx. injection Hx as <-. apply elem_of_app. right. now left.
    + destruct (Ha j l' x ltac:(lia) Hl' Hp' Hs' Hx) as [Hin|Hin]; [left|right; auto].
      apply elem_of_app. now left.
Qed.

Lemma walk_step_inv i w :
  (i < length m)%nat -> walk_inv i w ->
  exists w', walk_step fnmatch traced m sel w i = Ret w' /\ walk_inv (S i) w'.
Proof.
  intros Hi Hw. unfold walk_step. destruct (lookup_lt_is_Some_2 m i Hi) as [l Hl]. rewrite Hl.
  destruct (path l) as [|c p] eqn:Ep.
  { exists w. split; [reflexivity|]. apply (inv_keep i w); auto. intros l' b Hl'. congruence. }
  assert (Hp : path l <> []) by congruence. rewrite <- Ep. clear c p Ep.
  destruct (load_base_total i Hi) as [[b Hb] [o Ho]]. rewrite Hb, Ho, !ret_bind.
  pose proof (sel_verdict l (whit w)) as Hv.
  destruct (dump_sel_matches_seg fnmatch sel (path l) (start l) (end_ l) (whit w)) as [v hit].
  simpl in Hv. subst v. destruct (selected l) eqn:Es; simpl negb; cbv iota.
  2: { eexists. split; [reflexivity|]. apply (inv_keep i w); auto. intros l' b'. congruence. }
  destruct (walk_skip w b) eqn:Ek.
  { eexists. split; [reflexivity|]. apply (inv_keep i w); auto. intros l' b' Hl' _ _ Hb'.
    rewrite Hb in Hb'. injection Hb' as <-.
    destruct (skip_true w b Ek) as [Hin|Hin]; [left|now right].
    rewrite (wi_done _ _ Hw) in Hin. rewrite <- (take_drop 64 (snd (ctx w))).
    apply elem_of_app. now left. }
  unfold traced. destruct (fn b (path l) o (fst (ctx w))) as [[rc fin] c].
  destruct (rc =? 0).
  - eexists. split; [reflexivity|]. eapply (inv_call i w _ l b);
      [exact Hw|exact Hl|exact Hp|exact Es|exact Hb|exact Ek|reflexivity| |lia].
    intros x (cc & Hin & Hx). destruct (_ && _); [|exists cc; auto].
    exists cc. split; [|exact Hx]. apply elem_of_app. now left.
  - eexists. split; [reflexivity|]. eapply (inv_call i w _ l b);
      [exact Hw|exact Hl|exact Hp|exact Es|exact Hb|exact Ek|reflexivity|auto|lia].
Qed.

Lemma walk_from_inv n i w :
  (i + n <= length m)%nat -> walk_inv i w ->
  exists w', walk_from fnmatch traced m sel n i w = Ret w' /\ walk_inv (i + n) w'.
Proof.
  revert i w. induction n as [|n IH]; intros i w Hi Hw; simpl.
  - exists w. rewrite Nat.add_0_r. auto.
  - destruct (walk_step_inv i w ltac:(lia) Hw) as (w' & E & Hw'). rewrite E, ret_bind.
    replace (i + S n)%nat with (S i + n)%nat by lia. apply IH; [lia|exact Hw'].
Qed.

Lemma walk_inv_init hit c : walk_inv 0 (mk_walk [] [] 0 hit (c, [])).
Proof.
  constructor; simpl; [reflexivity|constructor|unfold zlen; simpl; lia|constructor|lia].
Qed.
End Walk.

(** ** Names *)

Lemma strchr_any_app a s t : strchr_any a (s ++ t) = strchr_any a s || strchr_any a t.
Proof. unfold strchr_any. apply existsb_app. Qed.

Lemma basename_of_app dir name :
  strchr_any [x2f] name = false -> basename_of (dir ++ x2f :: name) = name.
Proof.
  intros Hn. induction dir as [|c dir IH].
  - simpl app. cbn [basename_of]. rewrite Hn.
    replace (strchr_any [x2f] (x2f :: name)) with true by reflexivity. reflexivity.
  - cbn [app basename_of]. change (c :: dir ++ x2f :: name) with ((c :: dir) ++ x2f :: name).
    rewrite strchr_any_app.
    replace (strchr_any [x2f] (x2f :: name)) with true by reflexivity. rewrite orb_true_r.
    rewrite strchr_any_app.
    replace (strchr_any [x2f] (x2f :: name)) with true by reflexivity.
    rewrite orb_true_r, andb_false_r. exact IH.
Qed.

Lemma strip_deleted_app name :
  x20 ∉ name -> strip_deleted (name ++ deleted_suffix) = name /\ strip_deleted name = name.
Proof.
  intros Hn. unfold strip_deleted.
  assert (H : strstr (name ++ deleted_suffix) deleted_suffix = Some name /\
              strstr name deleted_suffix = None); [|destruct H as [-> ->]; auto].
  induction name as [|c name IH]; [vm_compute; auto|].
  apply not_elem_of_cons in Hn as [Hc Hn]. destruct (IH Hn) as [E1 E2].
  assert (Hp : forall l, is_prefix deleted_suffix (c :: l) = false).
  { intros l. change deleted_suffix with (x20 :: bytes_of "(deleted)"). cbn [is_prefix].
    now rewrite bool_decide_eq_false_2. }
  cbn [app strstr]. rewrite !Hp, E1, E2. auto.
Qed.

(** ** Properties *)

(** [anubee_module_base_idx] is total and in bounds, and returns the end of the
    segment chain of the entry it is given: following, as long as there is one,
    the nearest non-filler entry below that maps the same file at a smaller
    offset.  That end is unique, so every segment of a chain has the same load
    base. *)
Theorem module_base_idx_is_chain_end m hit :
  (hit < length m)%nat ->
  exists r, anubee_module_base_idx m hit = Ret r /\ (r < length m)%nat /\
    rtc (prev_seg m) hit r /\ (forall j, ~ prev_seg m r j) /\
    forall i, rtc (prev_seg m) hit i -> anubee_module_base_idx m i = Ret r.
Proof.
  intros Hh. destruct (base_loop_spec (S hit) m hit ltac:(lia) Hh) as (r & E & Hr & Hn & Hl).
  exists r. repeat split; auto. intros i Hi.
  assert (Hi' : (i <= hit)%nat).
  { clear -Hi. induction Hi as [|? ? ? (H & _) _ IH]; lia. }
  destruct (base_loop_spec (S i) m i ltac:(lia) ltac:(lia)) as (r' & E' & Hr' & Hn' & _).
  unfold anubee_module_base_idx. rewrite E'. f_equal.
  apply (chain_end_unique m hit); auto. etransitivity; [exact Hi|exact Hr'].
Qed.

(** A library of two segments around a guard mapping. *)
Definition demo_maps : list anubee_map_line :=
  [mk_line 0x1000 0x2000 0 false (bytes_of "/lib/a.so");
   mk_line 0x2000 0x3000 0 false (bytes_of "[page size compat]");
   mk_line 0x3000 0x4000 0x1000 true (bytes_of "/lib/a.so")].

Lemma module_base_idx_is_chain_end_witness :
  exists r, anubee_module_base_idx demo_maps 2 = Ret r /\ r = 0%nat.
Proof.
  destruct (module_base_idx_is_chain_end demo_maps 2) as (r & E & _); [simpl; lia|].
  exists r. split; [exact E|]. vm_compute in E. congruence.
Defined.

(** The module walk.  For any maps, selector, callback and context it returns;
    the first 64 calls are for pairwise different load bases - so a walk that makes
    at most 64 calls calls back once per module -; every call is for the load base
    of a selected named segment; and the load base of every selected named segment
    is either called for or lies in a range an earlier call reported as covered. *)
Theorem walk_visits_modules_once {C} fnmatch (fn : Z -> list byte -> Z -> C -> Z * Z * C)
    m sel hit (c : C) :
  exists n w, dump_walk_pid_modules fnmatch (traced fn) (Some m) true sel hit (c, []) = Ret (n, w) /\
    let calls := snd (ctx w) in
    0 <= n <= zlen calls /\
    NoDup (take 64 calls) /\ (zlen calls <= 64 -> NoDup calls) /\
    (forall b, b ∈ calls -> exists k l, m !! k = Some l /\ path l <> [] /\
       selected fnmatch sel l = true /\ load_base_of m k = Ret b) /\
    (forall k l b, m !! k = Some l -> path l <> [] -> selected fnmatch sel l = true ->
       load_base_of m k = Ret b -> b ∈ calls \/ in_cov (cov w) b).
Proof.
  destruct (walk_from_inv fnmatch fn m sel (length m) 0 (mk_walk [] [] 0 hit (c, [])) ltac:(lia)
              (walk_inv_init fnmatch m sel hit c)) as (w & E & [Hd Hn Ho Hor Ha]).
  exists (ok w), w. unfold dump_walk_pid_modules. simpl negb. cbv iota. rewrite E, ret_bind.
  split; [reflexivity|]. simpl. split; [exact Ho|]. split; [exact Hn|]. split.
  - intros H64. rewrite take_ge in Hn by (unfold zlen in H64; lia). exact Hn.
  - split.
    + intros b Hb. rewrite list.Forall_forall in Hor. destruct (Hor b Hb) as (k & l & _ & H). eauto.
    + intros k l b Hl. apply Ha; auto. apply lookup_lt_Some in Hl. lia.
Qed.

(** [n] libraries of two segments each, 1 MiB apart. *)
Definition many_maps (n : nat) : list anubee_map_line :=
  flat_map (fun k => let a := Z.of_nat k * 0x100000 in let p := [x2f; zb (Z.of_nat k + 0x30)] in
    [mk_line a (a + 0x1000) 0 false p; mk_line (a + 0x1000) (a + 0x2000) 0x1000 true p]) (seq 1 n).

(** The table of attempted bases holds 64 entries, and the walk goes on when it
    is full: with 65 selected modules of two segments each and a callback that
    reports no range (as [dump_check_cb]), the last module is visited twice and
    the returned count is 66, although the contract is one call per distinct
    module. *)
Theorem walk_repeats_past_64_modules :
  let r := dump_walk_pid_modules (fun _ _ => false) (traced (fun _ _ _ c => (0, 0, c)))
             (Some (many_maps 65)) true (mk_sel [[x2f]] []) [] (tt, []) in
  exists w, r = Ret (66, w) /\ drop 64 (snd (ctx w)) = [65 * 0x100000; 65 * 0x100000].
Proof.
  intros r. destruct r as [[n w]| | |] eqn:E; vm_compute in E; try discriminate.
  injection E as <- <-. eexists. split; [reflexivity|]. vm_compute. reflexivity.
Qed.

(** A glob selector sees neither the directory nor a deletion.  For any
    matcher, a glob pattern gives the same verdict on a module mapped from
    any directory and on the same module once its file is unlinked (names without
    '/' and blanks, up to the 255 bytes of the buffer). *)
Theorem glob_ignores_directory_and_deletion fnmatch pattern dir name :
  pm_is_glob pattern = true -> strchr_any [x2f] name = false -> x20 ∉ name ->
  zlen name <= 245 ->
  dump_name_matches fnmatch pattern (dir ++ x2f :: name) = fnmatch pattern name /\
  dump_name_matches fnmatch pattern (dir ++ x2f :: name ++ deleted_suffix) = fnmatch pattern name.
Proof.
  intros Hg Hs Hb Hl. unfold dump_name_matches, pm_match. rewrite Hg.
  destruct (strip_deleted_app name Hb) as [E1 E2]. unfold zlen in Hl. split.
  - rewrite basename_of_app, take_ge, E2 by (auto; lia). reflexivity.
  - rewrite basename_of_app by (rewrite strchr_any_app, Hs; reflexivity).
    rewrite take_ge, E1; [reflexivity|]. rewrite length_app. change (length deleted_suffix) with 10%nat. lia.
Qed.

Lemma glob_ignores_directory_and_deletion_witness :
  dump_name_matches (fun _ t => bool_decide (head t = Some x65)) (bytes_of "e_*")
    (bytes_of "/data/e_1 (deleted)") = true.
Proof.
  exact (proj2 (glob_ignores_directory_and_deletion (fun _ t => bool_decide (head t = Some x65))
    (bytes_of "e_*") (bytes_of "/data") (bytes_of "e_1") eq_refl eq_refl
    ltac:(apply (bool_decide_eq_false_1 (x20 ∈ _)); vm_compute; reflexivity)
    ltac:(vm_compute; discriminate))).
Defined.

(** Regular expressions fail closed.  Whatever the regex library accepts and
    matches, a pattern matches only if [pm_regex_valid] accepts it, and then the
    source compiled is exactly the text between the slashes - never empty, never
    truncated - or the whole pattern when it is not written between slashes. *)
Theorem regex_fails_closed regcomp regexec pattern text :
  pm_regex regcomp regexec pattern text = true ->
  pm_regex_valid regcomp pattern = true /\
  exists src, regcomp src = true /\ regexec src text = true /\
    if pm_is_regex pattern then pattern = x2f :: src ++ [x2f] /\ src <> [] /\ zlen src <= 255
    else src = pattern.
Proof.
  unfold pm_regex, pm_regex_valid, regex_source. destruct (pm_is_regex pattern) eqn:E.
  - unfold pm_is_regex in E. apply andb_true_iff in E as [E E3]. apply andb_true_iff in E as [E1 E2].
    apply bool_decide_eq_true in E2, E3. b2p.
    destruct pattern as [|c p]; [discriminate|]. injection E2 as ->.
    destruct p as [|c' p'] using rev_ind; [unfold zlen in E1; simpl in E1; lia|]. clear IHp'.
    rewrite app_comm_cons, last_snoc in E3. injection E3 as ->.
    replace (zlen (x2f :: p' ++ [x2f]) - 2) with (zlen p')
      by (rewrite zlen_cons, zlen_app; change (zlen [x2f]) with 1; lia).
    destruct (Z.eqb_spec (zlen p') 0) as [|H0]; [discriminate|].
    destruct (Z.leb_spec 256 (zlen p')) as [|H1]; [discriminate|].
    assert (Hs : slice (x2f :: p' ++ [x2f]) 1 (zlen p') = p').
    { unfold slice, zlen. rewrite Nat2Z.id. simpl. apply take_app_length. }
    rewrite Hs. destruct (regcomp p') eqn:Ec; [|discriminate]. intros H. split; [reflexivity|].
    exists p'. repeat split; auto; [intros ->; apply H0; reflexivity|lia].
  - destruct (regcomp pattern) eqn:Ec; [|discriminate]. intros H. split; [reflexivity|]. eauto.
Qed.

Lemma regex_fails_closed_witness :
  pm_regex (fun _ => true) (fun r t => bool_decide (r = t)) (bytes_of "/ab/") (bytes_of "ab") = true /\
  pm_regex_valid (fun _ => true) (bytes_of "/ab/") = true.
Proof.
  split; [reflexivity|].
  exact (proj1 (regex_fails_closed (fun _ => true) (fun r t => bool_decide (r = t))
                  (bytes_of "/ab/") (bytes_of "ab") eq_refl)).
Defined.
