(* ===== verification/Image.v ===== *)
(** * Image: rebuilding one module (src/dump/rebuild.c, [dump_one])

    From the live memory of a process ([pread], a parameter) to the bytes of the
    rebuilt file: header and program headers are read and checked, the image is
    captured, the program headers are rewritten so that the file mirrors memory,
    the dynamic section is de-rebased, relocations are un-applied, and the section
    headers are appended.  Allocation succeeds; messages, the output path and the
    write itself are not modelled: the result is the buffer handed to
    [write_file]. *)

From Stdlib Require Import ZArith Lia.
From stdpp Require Import base list option numbers.
From S2P Require Import Prelude Elf ProcMem Reloc Shdrs.

Local Open Scope Z_scope.

Definition PT_LOAD := 1.
Definition PT_DYNAMIC := 2.
Definition ET_DYN := 3.
Definition DUMP_MAX_IMAGE := Z.shiftl 512 20.
Definition DUMP_PAGE := 0x1000.

Definition zfill (n : Z) : list byte := repeat x00 (Z.to_nat n).

(** Program header [i] of the table [ph] with entries of [es] bytes. *)
Definition phdr_at (ph : list byte) (es i : Z) : res Elf64_Phdr :=
  b ← memcpy_in ph (i * es) sizeof_Phdr;
  Ret (phdr_of b).

(** Loaded size, and offset and size of the dynamic section. *)
Fixpoint scan_phdrs (n : nat) (ph : list byte) (es i : Z) (acc : Z * Z * Z) : res (Z * Z * Z) :=
  match n with
  | O => Ret acc
  | S n =>
      p ← phdr_at ph es i;
      let '(image_sz, dyn_off, dyn_size) := acc in
      scan_phdrs n ph es (i + 1)
        (if p_type p =? PT_LOAD then
           let last := u64 (p_vaddr p + p_memsz p) in
           ((if last >? image_sz then last else image_sz), dyn_off, dyn_size)
         else if p_type p =? PT_DYNAMIC then (image_sz, p_vaddr p, p_memsz p)
         else acc)
  end.

(** The next PT_LOAD address above [va], or the image size. *)
Fixpoint next_load (n : nat) (ph : list byte) (es j va next : Z) : res Z :=
  match n with
  | O => Ret next
  | S n =>
      q ← phdr_at ph es j;
      next_load n ph es (j + 1) va
        (if (p_type q =? PT_LOAD) && (p_vaddr q >? va) && (p_vaddr q <? next)
         then p_vaddr q else next)
  end.

(** The rewriting loop over the program headers, in place; [total] is e_phnum. *)
Fixpoint fix_phdrs (n total : nat) (ph : list byte) (es image_sz i : Z) : res (list byte) :=
  match n with
  | O => Ret ph
  | S n =>
      p ← phdr_at ph es i;
      ph ← (if p_type p =? PT_LOAD then
              next ← next_load total ph es 0 (p_vaddr p) image_sz;
              st64 ph (i * es + 40) (u64 (next - p_vaddr p))
            else Ret ph);
      p ← phdr_at ph es i;
      ph ← st64 ph (i * es + 32) (p_memsz p);
      ph ← st64 ph (i * es + 24) (p_vaddr p);
      ph ← st64 ph (i * es + 8) (p_vaddr p);
      fix_phdrs n total ph es image_sz (i + 1)
  end.

(** The .shstrtab header gets its place; its index. *)
Fixpoint place_shstrtab (i shstr_off strn : Z) (l : list Elf64_Shdr) (ndx : Z)
  : list Elf64_Shdr * Z :=
  match l with
  | [] => ([], ndx)
  | s :: l =>
      if (sh_type s =? SHT_STRTAB) && (sh_flags s =? 0) then
        let '(l', ndx) := place_shstrtab (i + 1) shstr_off strn l (u16 i) in
        (mk_shdr (sh_name s) (sh_type s) (sh_flags s) (sh_addr s) shstr_off strn (sh_link s)
           (sh_info s) (sh_addralign s) (sh_entsize s) :: l', ndx)
      else
        let '(l', ndx) := place_shstrtab (i + 1) shstr_off strn l ndx in (s :: l', ndx)
  end.

Definition st16 (buf : list byte) (off v : Z) : res (list byte) :=
  memcpy_out buf off (le_bytes 2 v).

(** Lay the file out: image, name table, section headers, patched ELF header.
    [ehb] are the bytes of the header, [hdrs] empty in raw mode. *)
Definition assemble (img ehb : list byte) (image_sz : Z) (hdrs : list Elf64_Shdr)
    (strtab : list byte) : res (list byte) :=
  let n := zlen hdrs in
  let strn := zlen strtab in
  let shstr_off := image_sz in
  let shdr_off := if n =? 0 then 0 else Z.land (shstr_off + strn + 7) (2 ^ 64 - 8) in
  let total := if n =? 0 then image_sz else shdr_off + n * sizeof_Shdr in
  out ← memcpy_out (zfill total) 0 img;
  out ← memcpy_out out 0 ehb;
  out ← st16 out 16 ET_DYN;
  if n =? 0 then
    out ← st64 out 40 0;
    out ← st16 out 60 0;
    st16 out 62 0
  else
    let '(hdrs, ndx) := place_shstrtab 0 shstr_off strn hdrs (le_at 2 out 62) in
    out ← st16 out 62 ndx;
    out ← memcpy_out out shstr_off strtab;
    out ← memcpy_out out shdr_off (flat_map shdr_bytes hdrs);
    out ← st64 out 40 shdr_off;
    out ← st16 out 60 n;
    st16 out 58 sizeof_Shdr.

Section DumpOne.
Context (pread : Z -> Z -> list byte).
Context (g_raw : bool).

(** The captured image with its program headers rewritten, its size, and where
    its dynamic section is. *)
Definition capture (base : Z) : res (list byte * list byte * Z * (Z * Z)) :=
  '(got, ehb) ← proc_mem_read pread base (zfill sizeof_Ehdr) sizeof_Ehdr;
  fail_if negb (got =? sizeof_Ehdr);
  let eh := ehdr_of ehb in
  fail_if negb (elf_magic_ok eh) || negb (elf_class eh =? ELFCLASS64);
  fail_if (e_phoff eh =? 0) || (e_phnum eh =? 0) || (e_phentsize eh <? sizeof_Phdr);
  let phsz := e_phnum eh * e_phentsize eh in
  '(got, ph) ← proc_mem_read pread (u64 (base + e_phoff eh)) (zfill phsz) phsz;
  fail_if negb (got =? phsz);
  let phnum := Z.to_nat (e_phnum eh) in
  '(image_sz, dyn_off, dyn_size) ← scan_phdrs phnum ph (e_phentsize eh) 0 (0, 0, 0);
  let image_sz := Z.land (u64 (image_sz + DUMP_PAGE - 1)) (2 ^ 64 - DUMP_PAGE) in
  fail_if (image_sz =? 0) || (image_sz >? DUMP_MAX_IMAGE);
  '(_, img) ← proc_mem_read pread base (zfill image_sz) image_sz;
  ph ← fix_phdrs phnum phnum ph (e_phentsize eh) image_sz 0;
  img ← (if u64 (e_phoff eh + phsz) <=? image_sz
         then memcpy_out img (e_phoff eh) ph else Ret img);
  Ret (img, ehb, image_sz, (dyn_off, dyn_size)).

(** The file, and the end of the range the module owns. *)
Definition dump_one (base : Z) : res (list byte * Z) :=
  '(img, ehb, image_sz, dyn) ← capture base;
  let covered_end := u64 (base + image_sz) in
  if g_raw then
    out ← assemble img ehb image_sz [] [];
    Ret (out, covered_end)
  else
    '(img, si) ← parse_dynamic img image_sz base (fst dyn) (snd dyn);
    img ← unapply_relocs img image_sz base si;
    let b := build_shdrs si image_sz in
    out ← assemble img ehb image_sz (map hdr (sh b)) (sstrtab b);
    Ret (out, covered_end).
End DumpOne.

(** ** Rewriting the program headers *)

#[local] Arguments le_at : simpl never.
#[local] Arguments le_bytes : simpl never.

(** The header fields read in place. *)
Definition ph_type (ph : list byte) (o : Z) : Z := le_at 4 ph o.
Definition ph_vaddr (ph : list byte) (o : Z) : Z := le_at 8 ph (o + 16).

Lemma phdr_at_ok ph es i :
  0 <= i -> 0 <= es -> i * es + 56 <= zlen ph ->
  phdr_at ph es i = Ret (phdr_of (slice ph (i * es) 56)).
Proof. intros. unfold phdr_at. rewrite memcpy_in_ok by (unfold sizeof_Phdr; nia). reflexivity. Qed.

Lemma phdr_of_slice ph o :
  0 <= o -> phdr_of (slice ph o 56) =
  mk_phdr (le_at 4 ph o) (le_at 4 ph (o + 4)) (le_at 8 ph (o + 8)) (le_at 8 ph (o + 16))
    (le_at 8 ph (o + 24)) (le_at 8 ph (o + 32)) (le_at 8 ph (o + 40)) (le_at 8 ph (o + 48)).
Proof. intros. unfold phdr_of. rewrite !le_at_slice by (simpl; lia). now rewrite Z.add_0_r. Qed.

(** Addresses of the PT_LOAD headers among the [n] from [j] on. *)
Fixpoint loads (n : nat) (ph : list byte) (es j : Z) : list Z :=
  match n with
  | O => []
  | S n => (if ph_type ph (j * es) =? PT_LOAD then [ph_vaddr ph (j * es)] else []) ++
           loads n ph es (j + 1)
  end.

(** The least element above [va] and below [lim], or [lim]. *)
Definition next_above (vs : list Z) (va lim : Z) : Z :=
  fold_left (fun next v => if (v >? va) && (v <? next) then v else next) vs lim.

Lemma next_above_spec vs va lim :
  let r := next_above vs va lim in
  r <= lim /\ (r = lim \/ r ∈ vs /\ va < r) /\ forall v, v ∈ vs -> va < v -> r <= v.
Proof.
  unfold next_above. revert lim. induction vs as [|a vs IH]; intros lim; simpl.
  - repeat split; auto; [lia|]. intros v Hv. inversion Hv.
  - set (lim' := if _ && _ then a else lim). specialize (IH lim'). cbv zeta in IH.
    destruct IH as (H1 & H2 & H3).
    assert (Hl : lim' <= lim /\ (lim' = lim \/ lim' = a /\ va < a) /\ (va < a -> lim' <= a)).
    { unfold lim'. destruct (_ && _) eqn:E; b2p; [lia|].
      apply andb_false_iff in E as [E|E]; b2p; lia. }
    destruct Hl as (L1 & L2 & L3). split; [lia|]. split.
    + destruct H2 as [H2|[H2 H2']]; [|right; split; [now right|auto]].
      rewrite H2. destruct L2 as [->|[-> ?]]; [now left|right; split; [now left|auto]].
    + intros v Hv Hva. apply elem_of_cons in Hv as [->|Hv]; [lia|]. now apply H3.
Qed.

Lemma next_load_spec n ph es j va lim :
  0 <= j -> 0 <= es -> 56 <= es -> (j + Z.of_nat n) * es <= zlen ph ->
  next_load n ph es j va lim = Ret (next_above (loads n ph es j) va lim).
Proof.
  revert j lim. induction n as [|n IH]; intros j lim Hj H0 Hes Hl; [reflexivity|].
  cbn [next_load loads]. rewrite phdr_at_ok, ret_bind by nia. rewrite phdr_of_slice by nia.
  simpl p_type. simpl p_vaddr. rewrite IH by nia. unfold next_above. rewrite fold_left_app.
  unfold ph_type, ph_vaddr. destruct (_ =? PT_LOAD); reflexivity.
Qed.

(** The rewritten header at offset [o]. *)
Definition fixed_phdr (vs : list Z) (image_sz : Z) (p : Elf64_Phdr) : Elf64_Phdr :=
  let memsz := if p_type p =? PT_LOAD
               then u64 (next_above vs (p_vaddr p) image_sz - p_vaddr p) else p_memsz p in
  mk_phdr (p_type p) (p_flags p) (p_vaddr p) (p_vaddr p) (p_vaddr p) memsz memsz (p_align p).

Lemma le_at8_idem m o : u64 (le_at 8 m o) = le_at 8 m o.
Proof. apply u64_small. apply (le_at_range 8). Qed.

(** Headers away from a rewritten word. *)
Definition word (o v : Z) : op := (o, fun _ => v).

Lemma st64_word ph o v :
  0 <= o -> o + 8 <= zlen ph -> st64 ph o v = Ret (do_op ph (word o v)).
Proof. intros. rewrite st64_ok by lia. reflexivity. Qed.

(** One turn of the loop, as updates of four words. *)
Definition fix_ops (ph : list byte) (o : Z) (vs : list Z) (image_sz : Z) : list op :=
  let p := fixed_phdr vs image_sz (phdr_of (slice ph o 56)) in
  [word (o + 40) (p_memsz p); word (o + 32) (p_memsz p); word (o + 24) (p_vaddr p);
   word (o + 8) (p_vaddr p)].

Lemma fix_ops_in ph o vs image_sz :
  0 <= o -> o + 56 <= zlen ph ->
  Forall (slot_in (zlen ph)) (fix_ops ph o vs image_sz) /\
  List.ForallOrdPairs apart (fix_ops ph o vs image_sz) /\
  Forall (fun a => o + 8 <= fst a /\ fst a + 8 <= o + 48 /\ off_range (o + 16) (o + 24) a)
    (fix_ops ph o vs image_sz).
Proof.
  intros. unfold fix_ops, word.
  repeat split; repeat constructor; unfold slot_in, apart, off_range; simpl; lia.
Qed.

Lemma fix_ops_header ph o vs image_sz :
  0 <= o -> o + 56 <= zlen ph ->
  phdr_of (slice (run_ops ph (fix_ops ph o vs image_sz)) o 56) =
  fixed_phdr vs image_sz (phdr_of (slice ph o 56)).
Proof.
  intros Ho Hl. destruct (fix_ops_in ph o vs image_sz Ho Hl) as (Hin & Hap & Hloc).
  set (R := run_ops ph (fix_ops ph o vs image_sz)).
  assert (Hkeep : forall n i, 0 <= i ->
    i + Z.of_nat n <= o + 8 \/ o + 48 <= i \/ (o + 16 <= i /\ i + Z.of_nat n <= o + 24) ->
    le_at n R i = le_at n ph i).
  { intros n i Hi Hd. apply run_ops_out; auto. revert Hloc. apply List.Forall_impl.
    intros a. unfold off_range. lia. }
  assert (Hset : forall d v, word (o + d) v ∈ fix_ops ph o vs image_sz -> le_at 8 R (o + d) = u64 v).
  { intros d v Hw. apply (run_ops_in ph _ (word (o + d) v)); auto. }
  clearbody R. unfold fix_ops in Hset. rewrite !phdr_of_slice in * by lia.
  unfold fixed_phdr in *. simpl in Hset |- *.
  rewrite (Hkeep 4%nat o), (Hkeep 4%nat (o + 4)), (Hkeep 8%nat (o + 16)), (Hkeep 8%nat (o + 48)) by lia.
  erewrite (Hset 8), (Hset 24), (Hset 32), (Hset 40) by (rewrite !elem_of_cons; eauto 8).
  rewrite !le_at8_idem.
  assert (Hu : forall x, u64 (u64 x) = u64 x) by (intros; apply u64_small, u64_range).
  destruct (_ =? PT_LOAD); rewrite ?Hu, ?le_at8_idem; reflexivity.
Qed.

Lemma fix_ops_elsewhere ph o vs image_sz n i :
  0 <= o -> o + 56 <= zlen ph -> 0 <= i -> i + Z.of_nat n <= o + 8 \/ o + 48 <= i ->
  le_at n (run_ops ph (fix_ops ph o vs image_sz)) i = le_at n ph i.
Proof.
  intros Ho Hl Hi Hd. destruct (fix_ops_in ph o vs image_sz Ho Hl) as (Hin & _ & Hloc).
  apply run_ops_out; auto. revert Hloc. apply List.Forall_impl. intros a. unfold off_range. lia.
Qed.

Lemma header_elsewhere ph o vs image_sz o' :
  0 <= o -> o + 56 <= zlen ph -> 0 <= o' -> o' + 56 <= o \/ o + 56 <= o' ->
  phdr_of (slice (run_ops ph (fix_ops ph o vs image_sz)) o' 56) = phdr_of (slice ph o' 56).
Proof.
  intros. rewrite !phdr_of_slice by lia. rewrite !fix_ops_elsewhere by (simpl; lia). reflexivity.
Qed.

Lemma loads_ext n ph ph' es j :
  (forall k, j <= k < j + Z.of_nat n ->
     ph_type ph' (k * es) = ph_type ph (k * es) /\ ph_vaddr ph' (k * es) = ph_vaddr ph (k * es)) ->
  loads n ph' es j = loads n ph es j.
Proof.
  revert j. induction n as [|n IH]; intros j H; [reflexivity|]. cbn [loads].
  destruct (H j ltac:(lia)) as [-> ->]. f_equal. apply IH. intros k Hk. apply H. lia.
Qed.

(** The word updates of one turn. *)
Lemma fix_turn ph es i total image_sz rest :
  0 <= i -> 56 <= es -> (i + 1) * es <= zlen ph -> Z.of_nat total * es <= zlen ph ->
  let vs := loads total ph es 0 in
  (p ← phdr_at ph es i;
   ph ← (if p_type p =? PT_LOAD then
           next ← next_load total ph es 0 (p_vaddr p) image_sz;
           st64 ph (i * es + 40) (u64 (next - p_vaddr p))
         else Ret ph);
   p ← phdr_at ph es i;
   ph ← st64 ph (i * es + 32) (p_memsz p);
   ph ← st64 ph (i * es + 24) (p_vaddr p);
   ph ← st64 ph (i * es + 8) (p_vaddr p);
   rest ph) = (rest (run_ops ph (fix_ops ph (i * es) vs image_sz)) : res (list byte)).
Proof.
  intros Hi Hes Hl Ht vs. set (o := i * es) in *. assert (Ho : 0 <= o /\ o + 56 <= zlen ph) by nia.
  assert (Hat : forall m, zlen m = zlen ph -> phdr_at m es i = Ret (phdr_of (slice m o 56)))
    by (intros m Hm; apply phdr_at_ok; nia).
  rewrite Hat, ret_bind by reflexivity. set (p := phdr_of (slice ph o 56)).
  set (q := fixed_phdr vs image_sz p).
  set (ph1 := do_op ph (word (o + 40) (p_memsz q))).
  assert (Hin : slot_in (zlen ph) (word (o + 40) (p_memsz q))) by (split; simpl; lia).
  assert (Hl1 : zlen ph1 = zlen ph) by now apply zlen_do_op.
  assert (E1 : (if p_type p =? PT_LOAD then
           next ← next_load total ph es 0 (p_vaddr p) image_sz;
           st64 ph (o + 40) (u64 (next - p_vaddr p)) else Ret ph) = Ret ph1).
  { unfold ph1, q, fixed_phdr. cbn [p_memsz]. destruct (p_type p =? PT_LOAD) eqn:Et.
    - rewrite next_load_spec, ret_bind by lia. apply st64_word; lia.
    - symmetry. f_equal. apply do_op_id; [split; simpl; lia|]. unfold word. cbn [fst snd].
      unfold p. rewrite phdr_of_slice by lia. cbn [p_memsz]. apply le_at8_idem. }
  rewrite E1, ret_bind, Hat, ret_bind by exact Hl1.
  assert (Hp1 : p_memsz (phdr_of (slice ph1 o 56)) = p_memsz q /\
                p_vaddr (phdr_of (slice ph1 o 56)) = p_vaddr q).
  { rewrite phdr_of_slice by lia. cbn [p_memsz p_vaddr]. unfold ph1. split.
    - refine (eq_trans (do_op_in ph _ Hin) _). unfold word. cbn [fst snd].
      unfold q, fixed_phdr. cbn [p_memsz].
      destruct (p_type p =? PT_LOAD); [apply u64_small, u64_range|].
      unfold p. rewrite phdr_of_slice by lia. apply le_at8_idem.
    - rewrite do_op_out; [unfold q, p; rewrite phdr_of_slice by lia; reflexivity|auto|lia|].
      unfold off_range. simpl. lia. }
  destruct Hp1 as [-> ->].
  assert (Hstep : forall m d v, zlen m = zlen ph -> 0 <= d <= 48 ->
    st64 m (o + d) v = Ret (do_op m (word (o + d) v)) /\ zlen (do_op m (word (o + d) v)) = zlen ph).
  { intros m d v Hm Hd. split; [apply st64_word; lia|]. rewrite <- Hm. apply zlen_do_op. split; simpl; lia. }
  destruct (Hstep ph1 32 (p_memsz q) Hl1 ltac:(lia)) as [-> Hl2]. rewrite ret_bind.
  destruct (Hstep _ 24 (p_vaddr q) Hl2 ltac:(lia)) as [-> Hl3]. rewrite ret_bind.
  destruct (Hstep _ 8 (p_vaddr q) Hl3 ltac:(lia)) as [-> Hl4]. rewrite ret_bind. reflexivity.
Qed.

Lemma fix_phdrs_spec n total ph es image_sz i :
  0 <= i -> i + Z.of_nat n = Z.of_nat total -> 56 <= es -> Z.of_nat total * es <= zlen ph ->
  let vs := loads total ph es 0 in
  exists ph', fix_phdrs n total ph es image_sz i = Ret ph' /\ zlen ph' = zlen ph /\
    forall j, 0 <= j < Z.of_nat total ->
      phdr_of (slice ph' (j * es) 56) =
      (if j <? i then phdr_of (slice ph (j * es) 56)
       else fixed_phdr vs image_sz (phdr_of (slice ph (j * es) 56))).
Proof.
  revert ph i. induction n as [|n IH]; intros ph i Hi Hn Hes Ht vs.
  { exists ph. split; [reflexivity|]. split; [reflexivity|]. intros j Hj.
    rewrite (proj2 (Z.ltb_lt _ _)) by lia. reflexivity. }
  cbn [fix_phdrs]. rewrite (fix_turn ph es i total image_sz (fun ph => fix_phdrs n total ph es image_sz (i + 1)))
    by nia. fold vs.
  assert (Ho : 0 <= i * es /\ i * es + 56 <= zlen ph) by nia.
  set (ph1 := run_ops ph (fix_ops ph (i * es) vs image_sz)).
  destruct (fix_ops_in ph (i * es) vs image_sz ltac:(lia) ltac:(lia)) as (Hin & _ & _).
  assert (Hl1 : zlen ph1 = zlen ph) by now apply zlen_run_ops.
  assert (Hother : forall j, 0 <= j < Z.of_nat total -> j <> i ->
    phdr_of (slice ph1 (j * es) 56) = phdr_of (slice ph (j * es) 56))
    by (intros j Hj Hne; apply header_elsewhere; nia).
  assert (Hself : phdr_of (slice ph1 (i * es) 56) = fixed_phdr vs image_sz (phdr_of (slice ph (i * es) 56)))
    by (apply fix_ops_header; lia).
  assert (Hvs : loads total ph1 es 0 = vs).
  { apply loads_ext. intros k Hk. assert (0 <= k * es) by nia.
    assert (E : p_type (phdr_of (slice ph1 (k * es) 56)) = p_type (phdr_of (slice ph (k * es) 56)) /\
                p_vaddr (phdr_of (slice ph1 (k * es) 56)) = p_vaddr (phdr_of (slice ph (k * es) 56))).
    { destruct (Z.eq_dec k i) as [->|]; [rewrite Hself; auto|rewrite Hother by lia; auto]. }
    rewrite !phdr_of_slice in E by lia. exact E. }
  destruct (IH ph1 (i + 1) ltac:(lia) ltac:(lia) Hes ltac:(lia)) as (ph' & E & Hl & Hj).
  exists ph'. split; [exact E|]. split; [lia|]. intros j Hjr. rewrite (Hj j Hjr), Hvs.
  destruct (Z.ltb_spec j (i + 1)), (Z.ltb_spec j i); try lia.
  - now rewrite Hother by lia.
  - replace j with i by lia. exact Hself.
  - now rewrite Hother by lia.
Qed.

Lemma elem_of_loads n ph es j v :
  0 <= j -> 0 <= es ->
  (v ∈ loads n ph es j <->
   exists k, j <= k < j + Z.of_nat n /\ p_type (phdr_of (slice ph (k * es) 56)) = PT_LOAD /\
             p_vaddr (phdr_of (slice ph (k * es) 56)) = v).
Proof.
  intros Hj Hes. revert j Hj. induction n as [|n IH]; intros j Hj; cbn [loads].
  - split; [intros H; inversion H|intros (k & ? & _); lia].
  - rewrite elem_of_app, IH by lia. split.
    + intros [H|(k & Hk & H)]; [|exists k; split; [lia|exact H]].
      destruct (Z.eqb_spec (ph_type ph (j * es)) PT_LOAD) as [E|]; [|inversion H].
      apply list_elem_of_singleton in H. exists j. split; [lia|].
      rewrite phdr_of_slice by nia. auto.
    + intros (k & Hk & H1 & H2). destruct (Z.eq_dec k j) as [->|]; [left|right].
      * rewrite phdr_of_slice in H1, H2 by nia. cbn [p_type p_vaddr] in H1, H2.
        unfold ph_type, ph_vaddr. rewrite H1, H2. now left.
      * exists k. split; [lia|auto].
Qed.

(** The largest element at or below [x]. *)
Lemma last_below (vs : list Z) x :
  (exists v, v ∈ vs /\ v <= x) -> exists v, v ∈ vs /\ v <= x /\ forall w, w ∈ vs -> w <= x -> w <= v.
Proof.
  induction vs as [|a vs IH]; intros (v & Hv & Hx); [inversion Hv|].
  destruct (decide (Exists (fun w => w <= x) vs)) as [He|Hn].
  - apply list.Exists_exists in He. destruct (IH He) as (u & Hu & Hux & Hmax).
    destruct (decide (a <= x /\ u <= a)) as [Ha|Ha].
    + exists a. split; [now left|]. split; [lia|]. intros w Hw Hwx.
      apply elem_of_cons in Hw as [->|Hw]; [lia|]. specialize (Hmax w Hw Hwx). lia.
    + exists u. split; [now right|]. split; [lia|]. intros w Hw Hwx.
      apply elem_of_cons in Hw as [->|Hw]; [lia|]. now apply Hmax.
  - apply elem_of_cons in Hv as [->|Hv].
    + exists a. split; [now left|]. split; [lia|]. intros w Hw Hwx.
      apply elem_of_cons in Hw as [->|Hw]; [lia|]. exfalso. apply Hn, list.Exists_exists. eauto.
    + exfalso. apply Hn, list.Exists_exists. eauto.
Qed.

(** ** Laying the file out *)

(** A sequence of block writes. *)
Definition put (m : list byte) (w : Z * list byte) : list byte := splice m (fst w) (snd w).
Definition puts (m : list byte) (ws : list (Z * list byte)) : list byte := fold_left put ws m.
Definition w_in (sz : Z) (w : Z * list byte) : Prop := 0 <= fst w /\ fst w + zlen (snd w) <= sz.
(** The write does not touch [lo, hi). *)
Definition w_off (lo hi : Z) (w : Z * list byte) : Prop :=
  fst w + zlen (snd w) <= lo \/ hi <= fst w.

Lemma zlen_puts m ws : Forall (w_in (zlen m)) ws -> zlen (puts m ws) = zlen m.
Proof.
  revert m. induction ws as [|w ws IH]; intros m H; [reflexivity|].
  apply Forall_cons_1 in H as [[Hw0 Hw1] H]. simpl. unfold put.
  rewrite IH; rewrite zlen_splice by lia; auto.
Qed.

Lemma puts_out n m ws i :
  Forall (w_in (zlen m)) ws -> 0 <= i -> Forall (w_off i (i + Z.of_nat n)) ws ->
  le_at n (puts m ws) i = le_at n m i.
Proof.
  revert m. induction ws as [|w ws IH]; intros m H Hi Ho; [reflexivity|].
  apply Forall_cons_1 in H as [[Hw0 Hw1] H]. apply Forall_cons_1 in Ho as [Ho1 Ho].
  simpl. unfold put. rewrite IH; rewrite ?zlen_splice by lia; auto.
  unfold w_off in Ho1. apply le_at_splice_out; auto; lia.
Qed.

(** What a write put there stays, when no later write touches it. *)
Lemma puts_in n m ws1 w ws2 k :
  Forall (w_in (zlen m)) (ws1 ++ w :: ws2) -> 0 <= k -> k + Z.of_nat n <= zlen (snd w) ->
  Forall (w_off (fst w + k) (fst w + k + Z.of_nat n)) ws2 ->
  le_at n (puts m (ws1 ++ w :: ws2)) (fst w + k) = le_at n (snd w) k.
Proof.
  intros H Hk Hn Ho. apply Forall_app in H as [H1 H]. apply Forall_cons_1 in H as [Hw H2].
  unfold puts. rewrite fold_left_app. fold (puts m ws1). simpl. fold (puts (put (puts m ws1) w) ws2).
  pose proof (zlen_puts m ws1 H1) as Hl. destruct Hw as [Hw1 Hw2].
  assert (Hl' : zlen (put (puts m ws1) w) = zlen m) by (unfold put; rewrite zlen_splice; lia).
  rewrite puts_out; rewrite ?Hl'; auto; [|lia].
  apply le_at_ext; [lia|]. intros j Hj. unfold put. rewrite byte_at_splice_in by lia. f_equal. lia.
Qed.

Lemma land_align x : 0 <= x < 2 ^ 64 -> Z.land x (2 ^ 64 - 8) = x - x mod 8.
Proof.
  intros Hx. change (2 ^ 64 - 8) with (Z.shiftl (Z.ones 61) 3).
  replace (x - x mod 8) with (Z.shiftl (Z.shiftr x 3) 3).
  - apply Z.bits_inj'. intros i Hi. rewrite Z.land_spec, !Z.shiftl_spec by lia.
    destruct (Z.ltb_spec i 3).
    + rewrite !(Z.testbit_neg_r _ (i - 3)) by lia. apply andb_false_r.
    + rewrite Z.shiftr_spec by lia. replace (i - 3 + 3) with i by lia.
      rewrite Z.testbit_ones by lia. destruct (Z.ltb_spec (i - 3) 61).
      * rewrite (proj2 (Z.leb_le 0 _)) by lia. apply andb_true_r.
      * rewrite andb_false_r. destruct (Z.eq_dec x 0) as [->|]; [rewrite Z.bits_0; apply andb_false_r|].
        rewrite (Z.bits_above_log2 x i); [reflexivity|lia|].
        apply Z.log2_lt_pow2; [lia|]. apply Z.lt_le_trans with (2 ^ 64); [lia|]. apply Z.pow_le_mono_r; lia.
  - rewrite Z.shiftl_mul_pow2, Z.shiftr_div_pow2 by lia. change (2 ^ 3) with 8.
    pose proof (Z.div_mod x 8). lia.
Qed.

Definition shdr_off_of (image_sz strn : Z) : Z :=
  image_sz + strn + 7 - (image_sz + strn + 7) mod 8.

Lemma zlen_shdr_bytes s : zlen (shdr_bytes s) = 64.
Proof. unfold shdr_bytes. rewrite !zlen_app, !zlen_le_bytes. reflexivity. Qed.
Lemma zlen_shdrs l : zlen (flat_map shdr_bytes l) = zlen l * 64.
Proof.
  induction l as [|s l IH]; [reflexivity|]. cbn [flat_map].
  rewrite zlen_app, zlen_shdr_bytes, IH, zlen_cons. lia.
Qed.
Lemma zlen_zfill n : 0 <= n -> zlen (zfill n) = n.
Proof. intros. unfold zfill, zlen. rewrite repeat_length. lia. Qed.

Lemma place_length i a b l ndx : zlen (fst (place_shstrtab i a b l ndx)) = zlen l.
Proof.
  revert i ndx. induction l as [|s l IH]; intros i ndx; [reflexivity|]. simpl.
  destruct (_ && _).
  - specialize (IH (i + 1) (u16 i)). destruct (place_shstrtab _ _ _ _ _). simpl in *.
    rewrite !zlen_cons. lia.
  - specialize (IH (i + 1) ndx). destruct (place_shstrtab _ _ _ _ _). simpl in *.
    rewrite !zlen_cons. lia.
Qed.

(** The nine writes of a rebuilt file. *)
Definition file_writes (img ehb : list byte) (image_sz : Z) (hdrs : list Elf64_Shdr) (ndx : Z)
    (strtab : list byte) : list (Z * list byte) :=
  let off := shdr_off_of image_sz (zlen strtab) in
  [(0, img); (0, ehb); (16, le_bytes 2 ET_DYN); (62, le_bytes 2 ndx); (image_sz, strtab);
   (off, flat_map shdr_bytes hdrs); (40, le_bytes 8 off); (60, le_bytes 2 (zlen hdrs));
   (58, le_bytes 2 sizeof_Shdr)].

Lemma assemble_puts img ehb image_sz hdrs strtab :
  zlen img = image_sz -> zlen ehb = 64 -> 64 <= image_sz < 2 ^ 62 -> zlen strtab < 2 ^ 20 ->
  0 < zlen hdrs < 2 ^ 16 ->
  let placed := place_shstrtab 0 image_sz (zlen strtab) hdrs (le_at 2 ehb 62) in
  let total := shdr_off_of image_sz (zlen strtab) + zlen hdrs * 64 in
  let ws := file_writes img ehb image_sz (fst placed) (snd placed) strtab in
  Forall (w_in total) ws /\
  assemble img ehb image_sz hdrs strtab = Ret (puts (zfill total) ws).
Proof.
  intros Hi He Hsz Hst Hn placed total ws. pose proof (zlen_nonneg strtab).
  assert (Hoff : image_sz + zlen strtab <= shdr_off_of image_sz (zlen strtab) <=
                 image_sz + zlen strtab + 7).
  { unfold shdr_off_of. pose proof (Z.mod_pos_bound (image_sz + zlen strtab + 7) 8). lia. }
  assert (Hpl : zlen (fst placed) = zlen hdrs) by apply place_length.
  assert (Hin : Forall (w_in total) ws).
  { unfold ws, file_writes, total. repeat constructor; unfold w_in; cbn [fst snd];
      rewrite ?zlen_le_bytes, ?zlen_shdrs, ?Hpl; simpl; try lia. }
  split; [exact Hin|]. unfold assemble. cbv zeta.
  rewrite (proj2 (Z.eqb_neq (zlen hdrs) 0)) by lia. rewrite land_align by lia.
  fold (shdr_off_of image_sz (zlen strtab)). change (zlen hdrs * sizeof_Shdr) with (zlen hdrs * 64).
  fold total.
  assert (Htot : zlen (zfill total) = total) by (apply zlen_zfill; lia).
  assert (Hstep : forall m w, zlen m = total -> w_in total w ->
    memcpy_out m (fst w) (snd w) = Ret (put m w) /\ zlen (put m w) = total).
  { intros m w Hm [? ?]. split; [apply memcpy_out_ok; lia|]. unfold put. rewrite zlen_splice; lia. }
  unfold ws, file_writes in Hin.
  repeat match type of Hin with Forall _ (_ :: _) =>
    let H := fresh "W" in apply Forall_cons_1 in Hin as [H Hin] end.
  destruct (Hstep _ _ Htot W) as [E0 L0]. cbn [fst snd] in E0. rewrite E0, ret_bind.
  destruct (Hstep _ _ L0 W0) as [E1 L1]. cbn [fst snd] in E1. rewrite E1, ret_bind.
  unfold st16, st64.
  destruct (Hstep _ _ L1 W1) as [E2 L2]. cbn [fst snd] in E2. rewrite E2, ret_bind.
  match goal with |- context [le_at 2 ?m 62] => assert (Endx : le_at 2 m 62 = le_at 2 ehb 62) end.
  { unfold put at 1. cbn [fst snd]. rewrite le_at_splice_out by (rewrite ?zlen_le_bytes; simpl; lia).
    unfold put at 1. cbn [fst snd]. apply le_at_ext; [lia|]. intros k Hk.
    rewrite byte_at_splice_in by lia. f_equal. lia. }
  rewrite Endx. fold placed. destruct placed as [hs ndx]. cbn [fst snd] in *.
  destruct (Hstep _ _ L2 W2) as [E3 L3]. cbn [fst snd] in E3. rewrite E3, ret_bind.
  destruct (Hstep _ _ L3 W3) as [E4 L4]. cbn [fst snd] in E4. rewrite E4, ret_bind.
  destruct (Hstep _ _ L4 W4) as [E5 L5]. cbn [fst snd] in E5. rewrite E5, ret_bind.
  destruct (Hstep _ _ L5 W5) as [E6 L6]. cbn [fst snd] in E6. rewrite E6, ret_bind.
  rewrite <- Hpl. destruct (Hstep _ _ L6 W6) as [E7 L7]. cbn [fst snd] in E7. rewrite E7, ret_bind.
  destruct (Hstep _ _ L7 W7) as [E8 L8]. cbn [fst snd] in E8. rewrite E8. reflexivity.
Qed.

(** Reading a header back. *)
Definition shdr_ok (s : Elf64_Shdr) : Prop :=
  in_u 32 (sh_name s) /\ in_u 32 (sh_type s) /\ in_u 64 (sh_flags s) /\ in_u 64 (sh_addr s) /\
  in_u 64 (sh_offset s) /\ in_u 64 (sh_size s) /\ in_u 32 (sh_link s) /\ in_u 32 (sh_info s) /\
  in_u 64 (sh_addralign s) /\ in_u 64 (sh_entsize s).

Lemma le_skip n m a l k : 0 <= k -> le_at n (le_bytes m a ++ l) (Z.of_nat m + k) = le_at n l k.
Proof.
  intros. rewrite le_at_app_r by (rewrite zlen_le_bytes; lia). rewrite zlen_le_bytes. f_equal. lia.
Qed.
Lemma le_here n a l : in_u (8 * Z.of_nat n) a -> le_at n (le_bytes n a ++ l) 0 = a.
Proof.
  intros H. rewrite le_at_app_l by (rewrite ?zlen_le_bytes; lia). rewrite le_at_le_bytes.
  now apply Z.mod_small.
Qed.
Lemma le_last n a : in_u (8 * Z.of_nat n) a -> le_at n (le_bytes n a) 0 = a.
Proof. intros H. rewrite le_at_le_bytes. now apply Z.mod_small. Qed.

Lemma shdr_roundtrip s : shdr_ok s -> shdr_of (shdr_bytes s) = s.
Proof.
  intros (H1 & H2 & H3 & H4 & H5 & H6 & H7 & H8 & H9 & H10). unfold shdr_of, shdr_bytes.
  change 56 with (Z.of_nat 4 + (Z.of_nat 4 + (Z.of_nat 8 + (Z.of_nat 8 + (Z.of_nat 8 + (Z.of_nat 8 +
    (Z.of_nat 4 + (Z.of_nat 4 + (Z.of_nat 8 + 0))))))))).
  change 48 with (Z.of_nat 4 + (Z.of_nat 4 + (Z.of_nat 8 + (Z.of_nat 8 + (Z.of_nat 8 + (Z.of_nat 8 +
    (Z.of_nat 4 + (Z.of_nat 4 + 0)))))))).
  change 44 with (Z.of_nat 4 + (Z.of_nat 4 + (Z.of_nat 8 + (Z.of_nat 8 + (Z.of_nat 8 + (Z.of_nat 8 +
    (Z.of_nat 4 + 0))))))).
  change 40 with (Z.of_nat 4 + (Z.of_nat 4 + (Z.of_nat 8 + (Z.of_nat 8 + (Z.of_nat 8 + (Z.of_nat 8 + 0)))))).
  change 32 with (Z.of_nat 4 + (Z.of_nat 4 + (Z.of_nat 8 + (Z.of_nat 8 + (Z.of_nat 8 + 0))))).
  change 24 with (Z.of_nat 4 + (Z.of_nat 4 + (Z.of_nat 8 + (Z.of_nat 8 + 0)))).
  change 16 with (Z.of_nat 4 + (Z.of_nat 4 + (Z.of_nat 8 + 0))).
  change (le_at 8 ?m 8) with (le_at 8 m (Z.of_nat 4 + (Z.of_nat 4 + 0))).
  change (le_at 4 ?m 4) with (le_at 4 m (Z.of_nat 4 + 0)).
  rewrite !le_skip by lia. rewrite !le_here, le_last by assumption. now destruct s.
Qed.

Lemma puts_slice m ws1 w ws2 k n :
  Forall (w_in (zlen m)) (ws1 ++ w :: ws2) -> 0 <= k -> 0 <= n -> k + n <= zlen (snd w) ->
  Forall (w_off (fst w + k) (fst w + k + n)) ws2 ->
  slice (puts m (ws1 ++ w :: ws2)) (fst w + k) n = slice (snd w) k n.
Proof.
  intros H Hk Hn Hle Ho. pose proof (zlen_puts m _ H) as Hl. pose proof H as H'.
  apply Forall_app in H' as [_ H']. apply Forall_cons_1 in H' as [[Hw0 Hw1] _].
  apply bytes_ext; rewrite !zlen_slice by lia; [reflexivity|]. intros i Hi.
  rewrite !byte_at_slice by lia. rewrite <- !le_at_1, <- Z.add_assoc. apply puts_in; auto; [lia|simpl; lia|].
  revert Ho. apply List.Forall_impl. intros a. unfold w_off. simpl. lia.
Qed.

(** The same, by the index of the write. *)
Lemma puts_nth n m ws j w i k :
  Forall (w_in (zlen m)) ws -> ws !! j = Some w -> i = fst w + k -> 0 <= k ->
  k + Z.of_nat n <= zlen (snd w) -> Forall (w_off i (i + Z.of_nat n)) (drop (S j) ws) ->
  le_at n (puts m ws) i = le_at n (snd w) k.
Proof.
  intros H Hj -> Hk Hn Ho. rewrite <- (take_drop_middle ws j w Hj) in H |- *. now apply puts_in.
Qed.
Lemma puts_nth_slice m ws j w i k n :
  Forall (w_in (zlen m)) ws -> ws !! j = Some w -> i = fst w + k -> 0 <= k -> 0 <= n ->
  k + n <= zlen (snd w) -> Forall (w_off i (i + n)) (drop (S j) ws) ->
  slice (puts m ws) i n = slice (snd w) k n.
Proof.
  intros H Hj -> Hk Hn Hle Ho. rewrite <- (take_drop_middle ws j w Hj) in H |- *. now apply puts_slice.
Qed.

(** Later writes of a file stay clear of a field. *)
Ltac clear_of :=
  repeat constructor; unfold w_off; cbn [fst snd]; rewrite ?zlen_le_bytes, ?zlen_shdrs;
  unfold shdr_off_of in *; simpl; lia.

Lemma flat_map_slice l i s :
  l !! i = Some s -> slice (flat_map shdr_bytes l) (64 * Z.of_nat i) 64 = shdr_bytes s.
Proof.
  revert i. induction l as [|a l IH]; intros i H; [rewrite lookup_nil in H; discriminate|].
  pose proof (zlen_shdr_bytes a) as Ha. unfold zlen in Ha. cbn [flat_map]. unfold slice in *.
  destruct i as [|i]; simpl in H.
  - injection H as ->. change (Z.to_nat (64 * Z.of_nat 0)) with 0%nat. rewrite drop_0.
    rewrite take_app_le by lia. apply take_ge. lia.
  - rewrite drop_app_ge by lia. rewrite <- (IH i H). do 2 f_equal. lia.
Qed.

(** ** Properties *)

(** The program-header fixup.  For a table of [total] headers whose loadable
    segments start inside the image, the loop stays in the table and terminates;
    every header keeps type, flags, address and alignment and gets offset and
    physical address equal to its address and file size equal to memory size;
    and the loadable segments then cover the image without gaps - every address
    from the lowest segment up to the image size is inside one - and without
    overlap between segments that start at different addresses. *)
Theorem phdr_fixup_closes_gaps ph es total image_sz :
  56 <= es -> Z.of_nat total * es <= zlen ph -> image_sz < 2 ^ 63 ->
  Forall (fun v => 0 <= v <= image_sz) (loads total ph es 0) ->
  exists ph', fix_phdrs total total ph es image_sz 0 = Ret ph' /\ zlen ph' = zlen ph /\
    let old j := phdr_of (slice ph (j * es) 56) in
    let new j := phdr_of (slice ph' (j * es) 56) in
    (forall j, 0 <= j < Z.of_nat total ->
       p_type (new j) = p_type (old j) /\ p_flags (new j) = p_flags (old j) /\
       p_vaddr (new j) = p_vaddr (old j) /\ p_align (new j) = p_align (old j) /\
       p_offset (new j) = p_vaddr (old j) /\ p_paddr (new j) = p_vaddr (old j) /\
       p_filesz (new j) = p_memsz (new j) /\
       (p_type (old j) <> PT_LOAD -> p_memsz (new j) = p_memsz (old j))) /\
    (forall x, (exists v, v ∈ loads total ph es 0 /\ v <= x) -> x < image_sz ->
       exists j, 0 <= j < Z.of_nat total /\ p_type (new j) = PT_LOAD /\
         p_vaddr (new j) <= x < p_vaddr (new j) + p_memsz (new j)) /\
    (forall j k, 0 <= j < Z.of_nat total -> 0 <= k < Z.of_nat total ->
       p_type (new j) = PT_LOAD -> p_type (new k) = PT_LOAD -> p_vaddr (new j) < p_vaddr (new k) ->
       p_vaddr (new j) + p_memsz (new j) <= p_vaddr (new k)).
Proof.
  intros Hes Ht Hsz Hld.
  destruct (fix_phdrs_spec total total ph es image_sz 0 ltac:(lia) ltac:(lia) Hes Ht) as (ph' & E & Hl & Hj).
  exists ph'. split; [exact E|]. split; [exact Hl|]. cbv zeta.
  assert (Hnew : forall j, 0 <= j < Z.of_nat total ->
    phdr_of (slice ph' (j * es) 56) =
    fixed_phdr (loads total ph es 0) image_sz (phdr_of (slice ph (j * es) 56))).
  { intros j Hjr. rewrite Hj, (proj2 (Z.ltb_ge _ _)) by lia. reflexivity. }
  set (vs := loads total ph es 0) in *.
  assert (Hload : forall j, 0 <= j < Z.of_nat total ->
    p_type (phdr_of (slice ph (j * es) 56)) = PT_LOAD ->
    let va := p_vaddr (phdr_of (slice ph (j * es) 56)) in
    va ∈ vs /\ va + u64 (next_above vs va image_sz - va) = next_above vs va image_sz).
  { intros j Hjr Hty va. assert (Hin : va ∈ vs) by (apply elem_of_loads; [lia..|]; exists j; repeat split; auto; lia).
    split; [exact Hin|]. rewrite list.Forall_forall in Hld. pose proof (Hld va Hin).
    destruct (next_above_spec vs va image_sz) as (H1 & H2 & _). cbv zeta in *.
    assert (va <= next_above vs va image_sz) by (destruct H2 as [->|[_ H2]]; lia).
    rewrite u64_small by lia. lia. }
  split; [|split].
  - intros j Hjr. rewrite (Hnew j Hjr). unfold fixed_phdr.
    cbn [p_type p_flags p_vaddr p_align p_offset p_paddr p_filesz p_memsz].
    repeat split. intros Hne. now rewrite (proj2 (Z.eqb_neq _ _) Hne).
  - intros x Hx Hlim. destruct (last_below vs x Hx) as (v & Hv & Hvx & Hmax).
    pose proof Hv as Hv'. apply elem_of_loads in Hv' as (j & Hjr & Hty & Hva); [|lia..].
    exists j. split; [lia|]. rewrite Hnew by lia. unfold fixed_phdr.
    cbn [p_type p_vaddr p_memsz]. rewrite Hty. split; [reflexivity|].
    destruct (Hload j ltac:(lia) Hty) as [_ Hn]. cbv zeta in Hn. rewrite Z.eqb_refl, Hn, Hva.
    split; [exact Hvx|]. destruct (next_above_spec vs v image_sz) as (_ & [->|[Hn1 Hn2]] & _); [lia|].
    cbv zeta in *. destruct (Z.le_gt_cases (next_above vs v image_sz) x) as [Hle|]; [|lia].
    specialize (Hmax _ Hn1 Hle). lia.
  - intros j k Hjr Hkr. rewrite !Hnew by lia. unfold fixed_phdr. cbn [p_type p_vaddr p_memsz].
    intros Hty Htk Hlt. destruct (Hload j Hjr Hty) as [_ Hn]. destruct (Hload k Hkr Htk) as [Hk _].
    cbv zeta in *. rewrite Hty, Z.eqb_refl, Hn.
    now apply (next_above_spec vs _ image_sz).
Qed.

(** Two loadable segments at 0 and 0x3000, of 0x800 bytes each. *)
Definition demo_ph : list byte :=
  le_bytes 4 PT_LOAD ++ le_bytes 4 5 ++ le_bytes 8 0 ++ le_bytes 8 0 ++ le_bytes 8 0 ++
  le_bytes 8 0x800 ++ le_bytes 8 0x800 ++ le_bytes 8 0x1000 ++
  le_bytes 4 PT_LOAD ++ le_bytes 4 6 ++ le_bytes 8 0x2000 ++ le_bytes 8 0x3000 ++
  le_bytes 8 0x3000 ++ le_bytes 8 0x800 ++ le_bytes 8 0x800 ++ le_bytes 8 0x1000.

Lemma phdr_fixup_closes_gaps_witness :
  exists ph', fix_phdrs 2 2 demo_ph 56 0x4000 0 = Ret ph' /\
    exists j, 0 <= j < 2 /\ p_vaddr (phdr_of (slice ph' (j * 56) 56)) <= 0x2fff.
Proof.
  assert (Hv : loads 2 demo_ph 56 0 = [0; 0x3000]) by (vm_compute; reflexivity).
  destruct (phdr_fixup_closes_gaps demo_ph 56 2 0x4000) as (ph' & E & _ & _ & Hc & _);
    [lia|vm_compute; discriminate|lia|rewrite Hv; repeat constructor; lia|].
  exists ph'. split; [exact E|].
  destruct (Hc 0x2fff) as (j & Hj & _ & Hx); [|lia|exists j; split; [exact Hj|apply Hx]].
  exists 0. rewrite Hv. split; [now left|lia].
Defined.

(** Where the section table starts. *)
Lemma shdr_off_bounds image_sz n : image_sz + n <= shdr_off_of image_sz n <= image_sz + n + 7.
Proof. unfold shdr_off_of. pose proof (Z.mod_pos_bound (image_sz + n + 7) 8). lia. Qed.

(** A field of [n] bytes at [i] of the file, which write [j] put there at [k]; [H] says
    that later writes leave it alone. *)
Ltac read_field H n j i k :=
  erewrite (H n j _ i k); [|reflexivity|reflexivity|lia|first [reflexivity|simpl; lia]|clear_of].


Definition demo_hdrs : list Elf64_Shdr :=
  [mk_shdr 0 0 0 0 0 0 0 0 0 0; mk_shdr 1 SHT_STRTAB 0 64 64 0 0 0 1 0].


(** A module whose ELF header says that the program headers lie 56 bytes before it:
    one loadable segment of a page. *)
Definition wrap_blob : list byte :=
  (le_bytes 4 PT_LOAD ++ le_bytes 4 5 ++ zfill 32 ++ le_bytes 8 0x1000 ++ zfill 8) ++
  (ELFMAG ++ [x02] ++ zfill 11 ++ zfill 16 ++ le_bytes 8 (2 ^ 64 - 56) ++ zfill 14 ++
   le_bytes 2 56 ++ le_bytes 2 1 ++ zfill 6) ++ zfill 0xfc0.
Definition wrap_pread (a n : Z) : list byte := slice wrap_blob (a - 0xffc8) n.

(** The check [e_phoff + phsz <= image_sz] wraps.  A module in memory whose
    header has an [e_phoff] just below 2^64 makes the tool read its program
    headers from just below the load base, pass the check, and copy them to
    [img + e_phoff], in front of the captured image: a write outside the heap
    block that the inspected process controls. *)
Theorem dump_one_phoff_wraps : dump_one wrap_pread true 0x10000 = Oob.
Proof. vm_compute. reflexivity. Qed.
