(* ===== verification/DumpCheck.v ===== *)
(** * DumpCheck: is a module's code what its file says? (src/dump/rebuild.c)

    [hash_exec_segments] digests the executable segments of an image,
    [dump_check_image] compares two images and [dump_check_cb] decides the verdict
    for a module of a live process.  The backing file (or archive member) is the
    argument [file]: reading it is I/O. *)

From Stdlib Require Import ZArith Lia.
From stdpp Require Import base list option numbers.
From S2P Require Import Prelude Elf ProcMem Sha256 Modules Image.

Local Open Scope Z_scope.

Definition PF_X := 1.

(** The loop over the program headers: the context and the number of executable
    segments. *)
Fixpoint hash_loop (n : nat) (img : list byte) (phoff es i : Z) (c : sha256_ctx) (nexec : Z)
  : res (sha256_ctx * Z) :=
  match n with
  | O => Ret (c, nexec)
  | S n =>
      b ← memcpy_in img (phoff + i * es) sizeof_Phdr;
      let p := phdr_of b in
      if negb (p_type p =? PT_LOAD) || (Z.land (p_flags p) PF_X =? 0)
      then hash_loop n img phoff es (i + 1) c nexec
      else
      fail_if (p_offset p >? zlen img) || (p_filesz p >? zlen img - p_offset p);
      d ← memcpy_in img (p_offset p) (p_filesz p);
      c ← sha256_update c d;
      hash_loop n img phoff es (i + 1) c (nexec + 1)
  end.

(** [buf] is the uninitialised block buffer of the context. *)
Definition hash_exec_segments (buf img : list byte) : res (list byte) :=
  fail_if zlen img <? sizeof_Ehdr;
  b ← memcpy_in img 0 sizeof_Ehdr;
  let eh := ehdr_of b in
  fail_if negb (elf_magic_ok eh) || negb (elf_class eh =? ELFCLASS64);
  fail_if (e_phoff eh =? 0) || (e_phnum eh =? 0) || (e_phentsize eh <? sizeof_Phdr);
  fail_if (e_phoff eh >? zlen img) || (e_phnum eh * e_phentsize eh >? zlen img - e_phoff eh);
  '(c, nexec) ← hash_loop (Z.to_nat (e_phnum eh)) img (e_phoff eh) (e_phentsize eh) 0
                  (sha256_init buf) 0;
  fail_if nexec =? 0;
  sha256_final_hex c.

Inductive verdict := Vmatch | Vdiffer | Vunreadable | Vnofile | Vapk.

(** Verdict and the two digests. *)
Definition dump_check_image (buf mem file : list byte) : res (verdict * list byte * list byte) :=
  match hash_exec_segments buf mem with
  | Oob => Oob
  | NoFuel => NoFuel
  | Fail => Ret (Vunreadable, [], [])
  | Ret mem_hex =>
      match hash_exec_segments buf file with
      | Oob => Oob
      | NoFuel => NoFuel
      | Fail => Ret (Vunreadable, mem_hex, [])
      | Ret file_hex =>
          Ret (if bool_decide (mem_hex = file_hex) then Vmatch else Vdiffer, mem_hex, file_hex)
      end
  end.

(** The module at [base] mapped from [path]; [member] and [whole] are the outcomes of
    [dump_read_apk_member] and [read_whole_file]. *)
Definition dump_check_cb (pread : Z -> Z -> list byte) (buf : list byte) (base : Z) (path : list byte)
    (member whole : option (list byte)) : res (verdict * list byte * list byte) :=
  let bn := take 255 (basename_of path) in
  let del := strstr bn deleted_suffix in
  let compare file :=
    '(got, mem) ← proc_mem_read pread base (zfill (zlen file)) (zlen file);
    if negb (got =? zlen file) then Ret (Vunreadable, [], [])
    else dump_check_image buf mem file in
  if negb (bool_decide (head path = Some x2f)) || bool_decide (is_Some del) then Ret (Vnofile, [], [])
  else if (4 <=? zlen path) &&
          bool_decide (drop (length path - 4) path = bytes_of ".apk") then
    match member with None => Ret (Vapk, [], []) | Some f => compare f end
  else match whole with None => Ret (Vnofile, [], []) | Some f => compare f end.

(** ** What is compared *)

(** The bytes of the executable segments, in header order; [None] when a segment is
    not inside the image. *)
Fixpoint exec_bytes (n : nat) (img : list byte) (phoff es i : Z) : option (list (list byte)) :=
  match n with
  | O => Some []
  | S n =>
      let p := phdr_of (slice img (phoff + i * es) sizeof_Phdr) in
      if negb (p_type p =? PT_LOAD) || (Z.land (p_flags p) PF_X =? 0)
      then exec_bytes n img phoff es (i + 1)
      else if p_offset p + p_filesz p <=? zlen img then
        (fun r => slice img (p_offset p) (p_filesz p) :: r) <$> exec_bytes n img phoff es (i + 1)
      else None
  end.

(** The executable content of an image; [None] when it has none to compare. *)
Definition exec_content (img : list byte) : option (list byte) :=
  let eh := ehdr_of (slice img 0 sizeof_Ehdr) in
  if (64 <=? zlen img) && elf_magic_ok eh && (elf_class eh =? ELFCLASS64) &&
     negb (e_phoff eh =? 0) && negb (e_phnum eh =? 0) && (56 <=? e_phentsize eh) &&
     (e_phoff eh + e_phnum eh * e_phentsize eh <=? zlen img)
  then match exec_bytes (Z.to_nat (e_phnum eh)) img (e_phoff eh) (e_phentsize eh) 0 with
       | Some (s :: segs) => Some (concat (s :: segs))
       | _ => None
       end
  else None.

Lemma phdr_ranges b :
  0 <= p_offset (phdr_of b) < 2 ^ 64 /\ 0 <= p_filesz (phdr_of b) < 2 ^ 64.
Proof.
  simpl. pose proof (le_at_range 8 b 8). pose proof (le_at_range 8 b 32). simpl in *. lia.
Qed.

Lemma hash_loop_spec n img phoff es i c m nexec :
  0 <= phoff -> 0 <= i -> 56 <= es -> phoff + (i + Z.of_nat n) * es <= zlen img -> absorbed c m ->
  match exec_bytes n img phoff es i with
  | None => hash_loop n img phoff es i c nexec = Fail
  | Some segs => exists c', hash_loop n img phoff es i c nexec = Ret (c', nexec + zlen segs) /\
                   absorbed c' (m ++ concat segs)
  end.
Proof.
  revert i c m nexec. induction n as [|n IH]; intros i c m nexec Hp Hi Hes Hl Ha.
  { exists c. simpl. rewrite app_nil_r. unfold zlen. simpl. rewrite Z.add_0_r. auto. }
  assert (Hin : 0 <= i * es /\ phoff + i * es + 56 <= zlen img /\
                phoff + (i + 1 + Z.of_nat n) * es <= zlen img).
  { assert (0 <= i * es) by (apply Z.mul_nonneg_nonneg; lia).
    assert (0 <= Z.of_nat n * es) by (apply Z.mul_nonneg_nonneg; lia).
    rewrite Nat2Z.inj_succ in Hl. replace ((i + Z.succ (Z.of_nat n)) * es)
      with (i * es + es + Z.of_nat n * es) in Hl by ring.
    replace ((i + 1 + Z.of_nat n) * es) with (i * es + es + Z.of_nat n * es) by ring. lia. }
  destruct Hin as (Hi1 & Hi2 & Hi3).
  cbn [exec_bytes hash_loop]. rewrite memcpy_in_ok, ret_bind by (unfold sizeof_Phdr; lia).
  set (p := phdr_of _). cbv zeta.
  destruct (negb (p_type p =? PT_LOAD) || (Z.land (p_flags p) PF_X =? 0)); [apply IH; auto; lia|].
  pose proof (phdr_ranges (slice img (phoff + i * es) sizeof_Phdr)) as [Ho Hf]. fold p in Ho, Hf.
  destruct (Z.leb_spec (p_offset p + p_filesz p) (zlen img)) as [Hle|Hgt].
  - rewrite !Z.gtb_ltb, (proj2 (Z.ltb_ge (zlen img) _)), (proj2 (Z.ltb_ge (zlen img - _) _)) by lia.
    cbn [orb]. rewrite memcpy_in_ok, ret_bind by lia.
    destruct (update_absorbed c m (slice img (p_offset p) (p_filesz p)) Ha) as (c1 & E & H1).
    rewrite E, ret_bind. specialize (IH (i + 1) c1 _ (nexec + 1) Hp ltac:(lia) Hes Hi3 H1).
    destruct (exec_bytes n img phoff es (i + 1)) as [segs|]; simpl; [|exact IH].
    destruct IH as (c' & E' & H'). exists c'. rewrite E', zlen_cons, app_assoc. split; [|exact H'].
    do 2 f_equal. lia.
  - replace ((p_offset p >? zlen img) || (p_filesz p >? zlen img - p_offset p)) with true; [reflexivity|].
    symmetry. apply orb_true_iff. rewrite !Z.gtb_lt. lia.
Qed.

Lemma hash_exec_spec buf img :
  zlen buf = 64 ->
  hash_exec_segments buf img =
  match exec_content img with Some m => Ret (sha256 m) | None => Fail end.
Proof.
  intros Hb. unfold hash_exec_segments, exec_content, sizeof_Ehdr, sizeof_Phdr.
  destruct (Z.ltb_spec (zlen img) 64) as [|Hl];
    [rewrite (proj2 (Z.leb_gt 64 (zlen img))) by lia; reflexivity|].
  rewrite (proj2 (Z.leb_le 64 (zlen img))), memcpy_in_ok, ret_bind by lia.
  set (eh := ehdr_of (slice img 0 64)). pose proof (ehdr_ranges (slice img 0 64)) as Hr. fold eh in Hr.
  clearbody eh.
  cbv zeta. destruct (elf_magic_ok eh); [|reflexivity].
  destruct (elf_class eh =? ELFCLASS64); [|reflexivity].
  destruct (e_phoff eh =? 0); [reflexivity|]. destruct (e_phnum eh =? 0); [reflexivity|].
  rewrite (Z.ltb_antisym 56). destruct (Z.leb_spec 56 (e_phentsize eh)) as [Hes|]; [|reflexivity].
  cbn [negb orb andb].
  assert (Hpos : 0 <= e_phnum eh * e_phentsize eh) by (apply Z.mul_nonneg_nonneg; lia).
  destruct (Z.leb_spec (e_phoff eh + e_phnum eh * e_phentsize eh) (zlen img)) as [Hle|Hgt].
  - rewrite !Z.gtb_ltb. rewrite (proj2 (Z.ltb_ge (zlen img) (e_phoff eh))) by lia.
    rewrite (proj2 (Z.ltb_ge (zlen img - e_phoff eh) (e_phnum eh * e_phentsize eh))) by lia.
    cbn [orb].
    pose proof (hash_loop_spec (Z.to_nat (e_phnum eh)) img (e_phoff eh) (e_phentsize eh) 0
      (sha256_init buf) [] 0 ltac:(lia) ltac:(lia) Hes
      ltac:(rewrite Z2Nat.id by lia; rewrite Z.add_0_l; lia) (init_absorbed buf Hb)) as H.
    destruct (exec_bytes _ img _ _ 0) as [segs|]; [|now rewrite H].
    destruct H as (c' & E & Hc). rewrite E, ret_bind. destruct segs as [|s segs]; [reflexivity|].
    rewrite zlen_cons. pose proof (zlen_nonneg segs).
    rewrite (proj2 (Z.eqb_neq (0 + _) 0)) by lia. now apply final_absorbed.
  - replace ((e_phoff eh >? zlen img) || (e_phnum eh * e_phentsize eh >? zlen img - e_phoff eh))
      with true; [reflexivity|]. symmetry. apply orb_true_iff. rewrite !Z.gtb_lt. lia.
Qed.

Lemma check_image_spec buf mem file :
  zlen buf = 64 ->
  dump_check_image buf mem file =
  Ret match exec_content mem, exec_content file with
      | Some a, Some b => (if bool_decide (sha256 a = sha256 b) then Vmatch else Vdiffer,
                           sha256 a, sha256 b)
      | Some a, None => (Vunreadable, sha256 a, [])
      | None, _ => (Vunreadable, [], [])
      end.
Proof.
  intros Hb. unfold dump_check_image. rewrite !hash_exec_spec by auto.
  destruct (exec_content mem); [|reflexivity]. now destruct (exec_content file).
Qed.

(** ** Properties *)

(** The verdict on two images is total, in bounds whatever the bytes are, and
    honest: "differ" and "match" are given only when both images have usable
    headers and contain all their executable segments, "differ" only when those
    bytes really differ, and images with the same executable bytes always
    "match"; everything else is "unreadable". *)
Theorem dump_check_image_honest buf mem file :
  zlen buf = 64 ->
  exists v h1 h2, dump_check_image buf mem file = Ret (v, h1, h2) /\
    (v = Vdiffer -> exists a b, exec_content mem = Some a /\ exec_content file = Some b /\ a <> b) /\
    (v = Vmatch -> exists a b, exec_content mem = Some a /\ exec_content file = Some b /\
                     sha256 a = sha256 b) /\
    (v = Vunreadable <-> exec_content mem = None \/ exec_content file = None) /\
    (forall a, exec_content mem = Some a -> exec_content file = Some a -> v = Vmatch).
Proof.
  intros Hb. rewrite check_image_spec by auto.
  destruct (exec_content mem) as [a|], (exec_content file) as [b|]; do 3 eexists;
    (split; [reflexivity|]); repeat split; intros; try discriminate; auto; try congruence.
  - case_bool_decide; [discriminate|]. exists a, b. repeat split. congruence.
  - case_bool_decide; [|discriminate]. eauto.
  - case_bool_decide; discriminate.
  - destruct H; discriminate.
  - rewrite bool_decide_eq_true_2; congruence.
Qed.

(** One executable segment of four bytes at offset 120. *)
Definition demo_elf (code : list byte) : list byte :=
  (ELFMAG ++ [x02] ++ zfill 11 ++ zfill 16 ++ le_bytes 8 64 ++ zfill 14 ++
   le_bytes 2 56 ++ le_bytes 2 1 ++ zfill 6) ++
  (le_bytes 4 PT_LOAD ++ le_bytes 4 5 ++ le_bytes 8 120 ++ le_bytes 8 120 ++ le_bytes 8 120 ++
   le_bytes 8 4 ++ le_bytes 8 4 ++ le_bytes 8 0x1000) ++ code.

Lemma dump_check_image_honest_witness :
  exists v h1 h2, dump_check_image (zfill 64) (demo_elf [x01; x02; x03; x04]) (demo_elf [x01; x02; x03; x05])
                  = Ret (v, h1, h2) /\ v <> Vunreadable.
Proof.
  destruct (dump_check_image_honest (zfill 64) (demo_elf [x01; x02; x03; x04])
              (demo_elf [x01; x02; x03; x05]) eq_refl) as (v & h1 & h2 & E & _ & _ & Hu & _).
  exists v, h1, h2. split; [exact E|]. intros Hv. apply Hu in Hv as [Hv|Hv]; vm_compute in Hv; discriminate.
Defined.

(** A partial read never turns into "differ".  For any process memory and any
    [pread] serving it, the check of a module is total, and whenever it answers
    "match" or "differ" the whole range of the baseline's length at the load base was
    readable, and the verdict is the comparison of the baseline with exactly those
    bytes; a bracketed or deleted path always gives "nofile". *)
Theorem dump_check_cb_honest pread pmem {P : PreadOf pread pmem} buf base path member whole :
  zlen buf = 64 -> 0 <= base ->
  (forall f, member = Some f \/ whole = Some f -> base + zlen f <= 2 ^ 64) ->
  exists v h1 h2, dump_check_cb pread buf base path member whole = Ret (v, h1, h2) /\
    (v = Vmatch \/ v = Vdiffer -> exists f mem,
       (member = Some f \/ whole = Some f) /\ zlen mem = zlen f /\
       (forall i, 0 <= i < zlen f -> exists b, pmem (base + i) = Some b /\ byte_at mem i = bz b) /\
       dump_check_image buf mem f = Ret (v, h1, h2)) /\
    (head path <> Some x2f \/ is_Some (strstr (take 255 (basename_of path)) deleted_suffix) ->
     v = Vnofile).
Proof.
  intros Hb Hbase Hlen. unfold dump_check_cb.
  assert (Hcmp : forall f, member = Some f \/ whole = Some f -> exists v h1 h2,
    ('(got, mem) ← proc_mem_read pread base (zfill (zlen f)) (zlen f);
     if negb (got =? zlen f) then Ret (Vunreadable, [], []) else dump_check_image buf mem f) =
    Ret (v, h1, h2) /\
    (v = Vmatch \/ v = Vdiffer -> exists f mem,
       (member = Some f \/ whole = Some f) /\ zlen mem = zlen f /\
       (forall i, 0 <= i < zlen f -> exists b, pmem (base + i) = Some b /\ byte_at mem i = bz b) /\
       dump_check_image buf mem f = Ret (v, h1, h2))).
  { intros f Hf. pose proof (zlen_nonneg f) as H0. specialize (Hlen f Hf).
    destruct (proc_mem_read_spec pread pmem base (zfill (zlen f)) (zlen f) Hbase H0 Hlen
                ltac:(rewrite zlen_zfill; lia)) as (mem & E & [H1 H2 H3]).
    rewrite E, ret_bind. destruct (Z.eqb_spec (readable pmem base (Z.to_nat (zlen f))) (zlen f)) as [Hr|];
      simpl negb; cbv iota; [|do 3 eexists; split; [reflexivity|intros [|]; discriminate]].
    destruct (check_image_spec buf mem f Hb). rewrite check_image_spec by auto.
    match goal with |- context [Ret ?r] => destruct r as [[v h1] h2] eqn:Er end.
    exists v, h1, h2. split; [reflexivity|]. intros _. exists f, mem. split; [exact Hf|].
    split; [rewrite H1; apply zlen_zfill; lia|]. split; [|now rewrite check_image_spec, Er].
    intros i Hi. rewrite H2 by lia.
    destruct (readable_full pmem base (Z.to_nat (zlen f)) ltac:(lia) i ltac:(lia)) as [b Hbi].
    exists b. rewrite Hbi. auto. }
  destruct (negb (bool_decide (head path = Some x2f)) || bool_decide _) eqn:Eno.
  { do 3 eexists. split; [reflexivity|]. split; [intros [|]; discriminate|auto]. }
  apply orb_false_iff in Eno as [E1 E2]. apply negb_false_iff, bool_decide_eq_true in E1.
  apply bool_decide_eq_false in E2.
  assert (Hno : forall v : verdict, head path <> Some x2f \/
    is_Some (strstr (take 255 (basename_of path)) deleted_suffix) -> v = Vnofile) by tauto.
  destruct (_ && _); [destruct member as [f|]|destruct whole as [f|]];
    try (do 3 eexists; split; [reflexivity|split; [intros [|]; discriminate|apply Hno]]).
  all: destruct (Hcmp f) as (v & h1 & h2 & E & H); [auto|]; exists v, h1, h2; auto.
Qed.

Lemma dump_check_cb_honest_witness :
  exists v h1 h2, dump_check_cb demo_pread (zfill 64) 0 (bytes_of "[vdso]") None None = Ret (v, h1, h2) /\
    v = Vnofile.
Proof.
  destruct (dump_check_cb_honest demo_pread demo_mem (zfill 64) 0 (bytes_of "[vdso]") None None)
    as (v & h1 & h2 & E & _ & H); [reflexivity|lia|intros f [|]; discriminate|].
  exists v, h1, h2. split; [exact E|]. apply H. left. discriminate.
Defined.

(** The bytes a page-granular mapping puts at offset [i] of a module: those of the
    last segment whose pages contain it. *)
Definition page_down (x : Z) : Z := x - x mod 0x1000.
Definition mapped_byte (file : list byte) (segs : list (Z * Z * Z)) (i : Z) : byte :=
  fold_left (fun acc '(off, va, sz) =>
    if (page_down va <=? i) && (i <? page_down (va + sz + 0xfff)) then
      match file !! Z.to_nat (off + (i - va)) with Some b => b | None => x00 end
    else acc) segs x00.
Definition mapped_image (file : list byte) (segs : list (Z * Z * Z)) : list byte :=
  map (fun i => mapped_byte file segs (Z.of_nat i)) (seq 0 (length file)).

(** A library laid out as lld does: headers and read-only data in [0, 0x1fe0), code
    at file offset 0x1fe0 and address 0x2fe0. *)
Definition lld_lib : list byte :=
  let hdr := (ELFMAG ++ [x02] ++ zfill 11 ++ zfill 16 ++ le_bytes 8 64 ++ zfill 14 ++
              le_bytes 2 56 ++ le_bytes 2 2 ++ zfill 6) ++
             (le_bytes 4 PT_LOAD ++ le_bytes 4 4 ++ le_bytes 8 0 ++ le_bytes 8 0 ++ le_bytes 8 0 ++
              le_bytes 8 0x1fe0 ++ le_bytes 8 0x1fe0 ++ le_bytes 8 0x1000) ++
             (le_bytes 4 PT_LOAD ++ le_bytes 4 5 ++ le_bytes 8 0x1fe0 ++ le_bytes 8 0x2fe0 ++
              le_bytes 8 0x2fe0 ++ le_bytes 8 0x40 ++ le_bytes 8 0x40 ++ le_bytes 8 0x1000) in
  hdr ++ repeat x11 (Z.to_nat 0x1fe0 - length hdr) ++ repeat x22 32 ++ repeat x33 32.

(** Both images are indexed by [p_offset], which is right for the file only.  A
    clean library whose code segment has a [p_vaddr] other than its [p_offset] -
    the layout of every lld-linked Android library - is reported as "differ" from
    its own file once it is mapped into memory. *)
Theorem check_differs_on_clean_library :
  exists h1 h2,
    dump_check_image (zfill 64) (mapped_image lld_lib [(0, 0, 0x1fe0); (0x1fe0, 0x2fe0, 0x40)])
      lld_lib = Ret (Vdiffer, h1, h2).
Proof. do 2 eexists. vm_compute. reflexivity. Qed.
