(* ===== verification/Dex.v ===== *)
(** * Dex: the DEX offset-to-method resolver (src/common/dex.c)

    [dex_map_build] parses an untrusted DEX image into a sorted table of method
    ranges; the lookups search it and format method names.  Reads of the image are
    bounds-checked loads; the outcome of allocations is a parameter, and [qsort]
    is any function that returns a sorted permutation. *)

From Stdlib Require Import ZArith Lia.
From Stdlib Require Import Sorted Permutation.
From stdpp Require Import base list option numbers sorting.
From S2P Require Import Prelude Elf Dwarf.

Local Open Scope Z_scope.

Definition DEX_HEADER_SIZE := 112.
Definition OFF_STRING_IDS_SIZE := 56.
Definition OFF_STRING_IDS_OFF := 60.
Definition OFF_TYPE_IDS_SIZE := 64.
Definition OFF_TYPE_IDS_OFF := 68.
Definition OFF_METHOD_IDS_SIZE := 88.
Definition OFF_METHOD_IDS_OFF := 92.
Definition OFF_CLASS_DEFS_SIZE := 96.
Definition OFF_CLASS_DEFS_OFF := 100.
Definition STRING_ID_STRIDE := 4.
Definition TYPE_ID_STRIDE := 4.
Definition METHOD_ID_STRIDE := 8.
Definition CLASS_DEF_STRIDE := 32.
Definition CODE_ITEM_HEADER := 16.

Record method_range := mk_range { mr_start : Z; mr_end : Z; mr_idx : Z }.

Record dex_method_map := mk_dex {
  dimg : list byte; dlen : Z;
  string_ids_off : Z; string_ids_size : Z;
  type_ids_off : Z; type_ids_size : Z;
  method_ids_off : Z; method_ids_size : Z;
  ranges : list method_range
}.

Definition rd_u16 (img : list byte) (off : Z) : res Z := ld_le 2 img off.
Definition rd_u32 (img : list byte) (off : Z) : res Z := ld_le 4 img off.

Definition region_ok (len off count stride : Z) : bool :=
  if off >? len then false else u64 (count * stride) <=? len - off.

(** Value and position after the last byte read; no value when the encoding runs
    past the end or over five bytes. *)
Fixpoint uleb_go (n : nat) (img : list byte) (len pos shift result : Z) : res (option Z * Z) :=
  match n with
  | O => Ret (None, pos)
  | S n =>
      if pos >=? len then Ret (None, pos) else
      b ← ld img pos;
      let result := Z.lor result (u32 (Z.shiftl (Z.land b 0x7f) shift)) in
      if Z.land b 0x80 =? 0 then Ret (Some result, pos + 1)
      else uleb_go n img len (pos + 1) (shift + 7) result
  end.
Definition uleb128 (img : list byte) (len pos : Z) : res (option Z * Z) :=
  uleb_go 5 img len pos 0 0.

Definition cmp_range (a b : method_range) : Prop := mr_start a <= mr_start b.

Section Build.
Context (alloc_ok : Z -> bool) (qsort : list method_range -> list method_range).

(** The table and its capacity. *)
Definition push_range (rs : list method_range) (cap : Z) (r : method_range)
  : option (list method_range * Z) :=
  if zlen rs =? cap then
    let ncap := if cap =? 0 then 64 else cap * 2 in
    if alloc_ok (ncap * 12) then Some (rs ++ [r], ncap) else None
  else Some (rs ++ [r], cap).

(** Return code 1, 0 (truncated) or -1 (out of memory), the table and the position. *)
Fixpoint parse_method_group (fuel : nat) (img : list byte) (len msize : Z)
    (rs : list method_range) (cap pos k count method_idx : Z)
  : res (Z * list method_range * Z * Z) :=
  match fuel with
  | O => NoFuel
  | S fuel =>
      if negb (k <? count) then Ret (1, rs, cap, pos) else
      '(idx_diff, pos) ← uleb128 img len pos;
      match idx_diff with
      | None => Ret (0, rs, cap, pos)
      | Some idx_diff =>
      '(access_flags, pos) ← uleb128 img len pos;
      match access_flags with
      | None => Ret (0, rs, cap, pos)
      | Some _ =>
      '(code_off, pos) ← uleb128 img len pos;
      match code_off with
      | None => Ret (0, rs, cap, pos)
      | Some code_off =>
      let method_idx := u32 (method_idx + idx_diff) in
      let next rs cap := parse_method_group fuel img len msize rs cap pos (k + 1) count method_idx in
      if code_off =? 0 then next rs cap else
      if (code_off >? len) || (len - code_off <? CODE_ITEM_HEADER) then next rs cap else
      insns_size ← rd_u32 img (code_off + 12);
      let start := u32 (code_off + CODE_ITEM_HEADER) in
      let insns_bytes := insns_size * 2 in
      if insns_bytes >? len - start then next rs cap else
      if method_idx >=? msize then next rs cap else
      match push_range rs cap (mk_range start (u32 (start + u32 insns_bytes)) method_idx) with
      | None => Ret (-1, rs, cap, pos)
      | Some (rs, cap) => next rs cap
      end
      end end end
  end.

(** Skip [fields] encoded fields; false when the data ends. *)
Fixpoint skip_fields (fuel : nat) (img : list byte) (len pos f fields : Z) : res (bool * Z) :=
  match fuel with
  | O => NoFuel
  | S fuel =>
      if negb (f <? fields) then Ret (true, pos) else
      '(a, pos) ← uleb128 img len pos;
      match a with
      | None => Ret (false, pos)
      | Some _ =>
          '(b, pos) ← uleb128 img len pos;
          match b with
          | None => Ret (false, pos)
          | Some _ => skip_fields fuel img len pos (f + 1) fields
          end
      end
  end.

(** Four numbers in a row. *)
Definition uleb4 (img : list byte) (len pos : Z) : res (option (Z * Z * Z * Z) * Z) :=
  '(a, pos) ← uleb128 img len pos;
  match a with None => Ret (None, pos) | Some a =>
  '(b, pos) ← uleb128 img len pos;
  match b with None => Ret (None, pos) | Some b =>
  '(c, pos) ← uleb128 img len pos;
  match c with None => Ret (None, pos) | Some c =>
  '(d, pos) ← uleb128 img len pos;
  match d with None => Ret (None, pos) | Some d => Ret (Some (a, b, c, d), pos) end end end end.

(** The methods of one class definition; [Fail] is running out of memory. *)
Definition parse_class (img : list byte) (len msize cd : Z) (rs : list method_range) (cap : Z)
  : res (list method_range * Z) :=
  class_data_off ← rd_u32 img (cd + 24);
  if (class_data_off =? 0) || (class_data_off >=? len) then Ret (rs, cap) else
  '(hdr, pos) ← uleb4 img len class_data_off;
  match hdr with
  | None => Ret (rs, cap)
  | Some (static_fields, instance_fields, direct_methods, virtual_methods) =>
      '(whole, pos) ← skip_fields (S (Z.to_nat len)) img len pos 0 (static_fields + instance_fields);
      if negb whole then Ret (rs, cap) else
      '(dr, rs, cap, pos) ← parse_method_group (S (Z.to_nat len)) img len msize rs cap pos 0
                              direct_methods 0;
      fail_if dr <? 0;
      if dr =? 0 then Ret (rs, cap) else
      '(vr, rs, cap, pos) ← parse_method_group (S (Z.to_nat len)) img len msize rs cap pos 0
                              virtual_methods 0;
      fail_if vr <? 0;
      Ret (rs, cap)
  end.

Fixpoint parse_classes (n : nat) (img : list byte) (len msize defs i : Z)
    (rs : list method_range) (cap : Z) : res (list method_range) :=
  match n with
  | O => Ret rs
  | S n =>
      '(rs, cap) ← parse_class img len msize (defs + i * CLASS_DEF_STRIDE) rs cap;
      parse_classes n img len msize defs (i + 1) rs cap
  end.

(** Drop every range that starts before the end of the last one kept. *)
Fixpoint keep_disjoint (last : method_range) (l : list method_range) : list method_range :=
  match l with
  | [] => []
  | r :: l => if mr_start r >=? mr_end last then r :: keep_disjoint r l else keep_disjoint last l
  end.
Definition dedup_ranges (rs : list method_range) : list method_range :=
  if zlen rs >? 1 then
    match qsort rs with
    | [] => []
    | r :: l => r :: keep_disjoint r l
    end
  else rs.

(** [Fail] is a NULL result. *)
Definition dex_map_build (img : list byte) : res dex_method_map :=
  let len := zlen img in
  fail_if len <? DEX_HEADER_SIZE;
  magic ← memcpy_in img 0 4;
  fail_if negb (bool_decide (magic = [x64; x65; x78; x0a]));
  b7 ← ld img 7;
  fail_if negb (b7 =? 0);
  b4 ← ld img 4;
  b5 ← ld img 5;
  b6 ← ld img 6;
  fail_if negb (b4 =? 0x30) || negb (b5 =? 0x33) || (b6 <? 0x35) || (b6 >? 0x39);
  fail_if negb (alloc_ok 64);
  ss ← rd_u32 img OFF_STRING_IDS_SIZE;
  so ← rd_u32 img OFF_STRING_IDS_OFF;
  ts ← rd_u32 img OFF_TYPE_IDS_SIZE;
  to ← rd_u32 img OFF_TYPE_IDS_OFF;
  ms ← rd_u32 img OFF_METHOD_IDS_SIZE;
  mo ← rd_u32 img OFF_METHOD_IDS_OFF;
  cs ← rd_u32 img OFF_CLASS_DEFS_SIZE;
  co ← rd_u32 img OFF_CLASS_DEFS_OFF;
  fail_if negb (region_ok len so ss STRING_ID_STRIDE) || negb (region_ok len to ts TYPE_ID_STRIDE)
       || negb (region_ok len mo ms METHOD_ID_STRIDE) || negb (region_ok len co cs CLASS_DEF_STRIDE);
  fail_if negb (alloc_ok len);
  rs ← parse_classes (Z.to_nat cs) img len ms co 0 [] 0;
  Ret (mk_dex img len so ss to ts mo ms (dedup_ranges rs)).
End Build.

(** ** Lookups *)

(** Bytes up to the terminator or the end; [None] when they exceed the buffer. *)
Fixpoint copy_string (n : nat) (img : list byte) (len pos outsz : Z) (out : list byte)
  : res (option (list byte)) :=
  match n with
  | O => NoFuel
  | S n =>
      if negb (pos <? len) then Ret (Some out) else
      c ← ld img pos;
      if c =? 0 then Ret (Some out) else
      if zlen out + 1 >=? outsz then Ret None else
      copy_string n img len (pos + 1) outsz (out ++ [zb c])
  end.

Definition dex_string (m : dex_method_map) (idx outsz : Z) : res (option (list byte)) :=
  if idx >=? string_ids_size m then Ret None else
  data_off ← rd_u32 (dimg m) (string_ids_off m + idx * STRING_ID_STRIDE);
  if data_off >=? dlen m then Ret None else
  '(utf16_len, pos) ← uleb128 (dimg m) (dlen m) data_off;
  match utf16_len with
  | None => Ret None
  | Some _ => copy_string (S (Z.to_nat (dlen m))) (dimg m) (dlen m) pos outsz []
  end.

(** Append with the buffer check of the copy loops. *)
Fixpoint append_checked (out : list byte) (outsz : Z) (s : list byte) : option (list byte) :=
  match s with
  | [] => Some out
  | c :: s => if zlen out + 1 >=? outsz then None else append_checked (out ++ [c]) outsz s
  end.

Definition dot (c : byte) : byte := if bool_decide (c = x2f) then x2e else c.

Definition method_idx_to_name (m : dex_method_map) (method_idx outsz : Z) : res (option (list byte)) :=
  if method_idx >=? method_ids_size m then Ret None else
  let ent := method_ids_off m + method_idx * METHOD_ID_STRIDE in
  class_idx ← rd_u16 (dimg m) ent;
  name_idx ← rd_u32 (dimg m) (ent + 4);
  name ← dex_string m name_idx 256;
  match name with None => Ret None | Some name =>
  if class_idx >=? type_ids_size m then Ret None else
  desc_idx ← rd_u32 (dimg m) (type_ids_off m + class_idx * TYPE_ID_STRIDE);
  desc ← dex_string m desc_idx 256;
  match desc with None => Ret None | Some desc =>
  let dl := zlen desc in
  if (dl <? 2) || negb (bool_decide (head desc = Some x4c)) || negb (bool_decide (head (reverse desc) = Some x3b))
  then Ret None else
  match append_checked [] outsz (map dot (slice desc 1 (dl - 2))) with
  | None => Ret None
  | Some out => Ret (append_checked out outsz (x2e :: name))
  end end end.

Fixpoint range_bsearch (fuel : nat) (rs : list method_range) (off : Z) (lo hi : nat)
  : res (option method_range) :=
  match fuel with
  | O => NoFuel
  | S fuel =>
      if negb (Nat.ltb lo hi) then Ret None else
      let mid := (lo + (hi - lo) / 2)%nat in
      match rs !! mid with
      | None => Oob
      | Some r =>
          if off <? mr_start r then range_bsearch fuel rs off lo mid
          else if off >=? mr_end r then range_bsearch fuel rs off (S mid) hi
          else Ret (Some r)
      end
  end.

Definition find_range (m : dex_method_map) (off : Z) : res (option method_range) :=
  range_bsearch (S (length (ranges m))) (ranges m) off 0 (length (ranges m)).

Definition dex_map_lookup (m : dex_method_map) (off outsz : Z) : res (option (list byte)) :=
  if outsz =? 0 then Ret None else
  hit ← find_range m off;
  match hit with
  | None => Ret None
  | Some r => method_idx_to_name m (mr_idx r) outsz
  end.

Definition dex_lookup_range (m : dex_method_map) (off : Z) : res (option (Z * Z)) :=
  hit ← find_range m off;
  Ret (option_map (fun r => (mr_idx r, mr_start r)) hit).

Definition dex_name_by_index (m : dex_method_map) (method_idx outsz : Z) : res (option (list byte)) :=
  if outsz =? 0 then Ret None else method_idx_to_name m method_idx outsz.

(** ** Safety of the parser *)

Lemma u32_lor a b : 0 <= a < 2 ^ 32 -> 0 <= b < 2 ^ 32 -> 0 <= Z.lor a b < 2 ^ 32.
Proof. apply lor_range. lia. Qed.

(** A number read at [pos]: the position advances inside the image. *)
Definition read_at (len pos : Z) (r : option Z * Z) : Prop :=
  pos <= snd r <= len /\ (forall v, fst r = Some v -> pos < snd r /\ 0 <= v < 2 ^ 32).

Lemma uleb_go_spec n img pos shift result :
  0 <= pos <= zlen img -> 0 <= result < 2 ^ 32 ->
  wp (uleb_go n img (zlen img) pos shift result) (read_at (zlen img) pos).
Proof.
  revert pos shift result. induction n as [|n IH]; intros pos shift result Hp Hr; simpl.
  { split; simpl; [lia|discriminate]. }
  destruct (pos >=? zlen img) eqn:E; b2p; [split; simpl; [lia|discriminate]|].
  rewrite ld_in, ret_bind by lia. cbv zeta.
  assert (Hres : 0 <= Z.lor result (u32 (Z.shiftl (Z.land (byte_at img pos) 0x7f) shift)) < 2 ^ 32)
    by (apply u32_lor; auto; apply u32_range).
  destruct (_ =? 0); [split; simpl; [lia|intros v [= <-]; lia]|].
  eapply wp_mono; [apply IH; [lia|exact Hres]|]. intros r [H1 H2].
  split; [lia|]. intros v Hv. destruct (H2 v Hv). lia.
Qed.

Lemma uleb128_spec img pos :
  0 <= pos <= zlen img -> wp (uleb128 img (zlen img) pos) (read_at (zlen img) pos).
Proof. intros. apply uleb_go_spec; lia. Qed.

(** Read a number and go on. *)
Lemma wp_uleb {B} img pos (f : option Z * Z -> res B) Q :
  0 <= pos <= zlen img ->
  (forall p, pos <= p <= zlen img -> wp (f (None, p)) Q) ->
  (forall v p, pos < p <= zlen img -> 0 <= v < 2 ^ 32 -> wp (f (Some v, p)) Q) ->
  wp (uleb128 img (zlen img) pos ≫= f) Q.
Proof.
  intros Hp HN HS. eapply wp_bind; [now apply uleb128_spec|]. intros [[v|] p] [H1 H2]; simpl in *.
  - destruct (H2 v eq_refl). apply HS; lia.
  - apply HN. lia.
Qed.

Lemma rd_u32_in img off :
  0 <= off -> off + 4 <= zlen img -> rd_u32 img off = Ret (le_at 4 img off).
Proof. intros. apply ld_le_in; simpl; lia. Qed.

(** A range of the table: an index of the method table and, in an image below
    4 GiB, bytes of the image. *)
Definition range_ok (len msize : Z) (r : method_range) : Prop :=
  0 <= mr_idx r < msize /\ (len < 2 ^ 32 -> 0 <= mr_start r <= mr_end r /\ mr_end r <= len).

Section BuildSpec.
Context (alloc_ok : Z -> bool) (qsort : list method_range -> list method_range).
Context (img : list byte) (msize : Z).
Hypothesis Himg : zlen img < 2 ^ 62.

(** The table grows at its end only, by ranges that are in order. *)
Definition table_post (rs0 rs : list method_range) : Prop :=
  Forall (range_ok (zlen img) msize) rs /\ rs0 `prefix_of` rs.
Definition group_post (pos : Z) (rs0 : list method_range) (r : Z * list method_range * Z * Z) : Prop :=
  let '(rc, rs, cap, p) := r in pos <= p <= zlen img /\ table_post rs0 rs.

Lemma table_post_refl rs : Forall (range_ok (zlen img) msize) rs -> table_post rs rs.
Proof. now split. Qed.
Lemma table_post_trans a b c : table_post a b -> table_post b c -> table_post a c.
Proof. intros [_ H] [? ?]. split; [auto|]. now transitivity b. Qed.
Hint Resolve table_post_refl : core.

Lemma push_range_spec rs cap r rs' cap' :
  push_range alloc_ok rs cap r = Some (rs', cap') -> rs' = rs ++ [r].
Proof.
  unfold push_range. destruct (_ =? _); [destruct (alloc_ok _); [|discriminate]|]; congruence.
Qed.

Lemma code_range_ok code_off size idx :
  0 < code_off <= zlen img - 16 -> 0 <= size < 2 ^ 32 ->
  size * 2 <= zlen img - u32 (code_off + 16) -> 0 <= idx < msize ->
  range_ok (zlen img) msize
    (mk_range (u32 (code_off + 16)) (u32 (u32 (code_off + 16) + u32 (size * 2))) idx).
Proof.
  intros Hc Hs Hb Hi. split; [exact Hi|]. simpl. intros Hl.
  rewrite (u32_small (code_off + 16)) in * by lia. rewrite (u32_small (size * 2)) by lia.
  rewrite u32_small by lia. lia.
Qed.

Lemma parse_method_group_spec fuel rs cap pos k count idx :
  0 <= pos <= zlen img -> (Z.to_nat (zlen img - pos) < fuel)%nat ->
  Forall (range_ok (zlen img) msize) rs ->
  wp (parse_method_group alloc_ok fuel img (zlen img) msize rs cap pos k count idx) (group_post pos rs).
Proof.
  revert rs cap pos k idx. induction fuel as [|fuel IH]; intros rs cap pos k idx Hp Hf Hrs; [lia|].
  cbn [parse_method_group]. destruct (k <? count); simpl negb; cbv iota; [|simpl; split; [lia|auto]].
  apply wp_uleb; [lia|intros p Hp1; simpl; split; [lia|auto]|]. intros idx_diff p1 Hp1 _.
  apply wp_uleb; [lia|intros p Hp2; simpl; split; [lia|auto]|]. intros fl p2 Hp2 _.
  apply wp_uleb; [lia|intros p Hp3; simpl; split; [lia|auto]|]. intros code_off p3 Hp3 Hco.
  cbv zeta.
  assert (Hnext : forall rs' cap, table_post rs rs' ->
    wp (parse_method_group alloc_ok fuel img (zlen img) msize rs' cap p3 (k + 1) count (u32 (idx + idx_diff)))
      (group_post pos rs)).
  { intros rs' cap' Hrs'. eapply wp_mono; [apply IH; [lia|lia|apply Hrs']|].
    intros [[[rc l] c] p] [? ?]. simpl. split; [lia|eapply table_post_trans; eauto]. }
  destruct (Z.eqb_spec code_off 0); [now apply Hnext, table_post_refl|].
  destruct ((code_off >? zlen img) || (zlen img - code_off <? CODE_ITEM_HEADER)) eqn:E;
    [now apply Hnext, table_post_refl|]. unfold CODE_ITEM_HEADER in *. b2p.
  rewrite rd_u32_in, ret_bind by lia.
  pose proof (le_at_range 4 img (code_off + 12)) as Hsz.
  change (2 ^ (8 * Z.of_nat 4)) with (2 ^ 32) in Hsz.
  destruct (_ >? _) eqn:E1; [now apply Hnext, table_post_refl|].
  destruct (_ >=? msize) eqn:E2; [now apply Hnext, table_post_refl|]. b2p.
  destruct (push_range alloc_ok rs cap _) as [[rs' cap']|] eqn:E3; [|simpl; split; [lia|auto]].
  apply push_range_spec in E3 as ->. apply Hnext. split; [|now exists [mk_range (u32 (code_off + 16)) (u32 (u32 (code_off + 16) +
    u32 (le_at 4 img (code_off + 12) * 2))) (u32 (idx + idx_diff))]].
  apply Forall_app. split; [exact Hrs|].
  apply List.Forall_cons; [|apply List.Forall_nil].
  apply code_range_ok; try lia; pose proof (u32_range (idx + idx_diff)); lia.
Qed.

Lemma skip_fields_spec fuel pos f fields :
  0 <= pos <= zlen img -> (Z.to_nat (zlen img - pos) < fuel)%nat ->
  wp (skip_fields fuel img (zlen img) pos f fields) (fun r => pos <= snd r <= zlen img).
Proof.
  revert pos f. induction fuel as [|fuel IH]; intros pos f Hp Hf; [lia|].
  cbn [skip_fields]. destruct (f <? fields); simpl negb; cbv iota; [|simpl; lia].
  apply wp_uleb; [lia|intros p Hp1; simpl; lia|]. intros a p1 Hp1 _.
  apply wp_uleb; [lia|intros p Hp2; simpl; lia|]. intros b p2 Hp2 _.
  eapply wp_mono; [apply IH; lia|]. intros [w p]. simpl. lia.
Qed.

Lemma uleb4_spec pos :
  0 <= pos <= zlen img -> wp (uleb4 img (zlen img) pos) (fun r => pos <= snd r <= zlen img).
Proof.
  intros Hp. unfold uleb4.
  apply wp_uleb; [lia|intros; simpl; lia|]. intros a p1 Hp1 _.
  apply wp_uleb; [lia|intros; simpl; lia|]. intros b p2 Hp2 _.
  apply wp_uleb; [lia|intros; simpl; lia|]. intros c p3 Hp3 _.
  apply wp_uleb; [lia|intros; simpl; lia|]. intros d p4 Hp4 _. simpl. lia.
Qed.

Lemma parse_class_spec cd rs cap :
  0 <= cd -> cd + 32 <= zlen img -> Forall (range_ok (zlen img) msize) rs ->
  wp (parse_class alloc_ok img (zlen img) msize cd rs cap)
    (fun r => table_post rs (fst r)).
Proof.
  intros H0 H1 Hrs. unfold parse_class. rewrite rd_u32_in, ret_bind by lia.
  pose proof (le_at_range 4 img (cd + 24)) as Ho.
  change (2 ^ (8 * Z.of_nat 4)) with (2 ^ 32) in Ho. set (o := le_at 4 img (cd + 24)) in *.
  destruct ((o =? 0) || (o >=? zlen img)) eqn:E; [now apply table_post_refl|]. b2p.
  eapply wp_bind; [apply uleb4_spec; lia|]. intros [[[[[sf inf] dm] vm]|] p] Hp; simpl in Hp; [|now apply table_post_refl].
  eapply wp_bind; [apply skip_fields_spec; lia|]. intros [w p1] Hp1. simpl in Hp1.
  destruct w; simpl negb; cbv iota; [|now apply table_post_refl].
  eapply wp_bind; [apply (parse_method_group_spec _ rs); auto; lia|].
  intros [[[dr rs1] cap1] p2] [Hp2 Hrs1]. apply wp_fail_if. intros _.
  destruct (dr =? 0); [exact Hrs1|].
  eapply wp_bind; [apply (parse_method_group_spec _ rs1); [lia|lia|apply Hrs1]|].
  intros [[[vr rs2] cap2] p3] [Hp3 Hrs2]. apply wp_fail_if. intros _.
  eapply table_post_trans; eauto.
Qed.

Lemma parse_classes_spec n defs i rs cap :
  0 <= defs -> 0 <= i -> defs + (i + Z.of_nat n) * 32 <= zlen img ->
  Forall (range_ok (zlen img) msize) rs ->
  wp (parse_classes alloc_ok n img (zlen img) msize defs i rs cap)
    (table_post rs).
Proof.
  revert i rs cap. induction n as [|n IH]; intros i rs cap Hd Hi Hl Hrs; [now apply table_post_refl|].
  cbn [parse_classes]. unfold CLASS_DEF_STRIDE.
  eapply wp_bind; [apply parse_class_spec; auto; lia|]. intros [rs1 cap1] H1. simpl in H1.
  eapply wp_mono; [apply IH; [lia|lia|lia|apply H1]|]. intros rs' H2. eapply table_post_trans; eauto.
Qed.
End BuildSpec.

(** ** The table that a build returns *)

Lemma region_ok_spec len off count stride :
  0 <= off -> 0 <= count < 2 ^ 32 -> 0 < stride <= 32 -> region_ok len off count stride = true ->
  off + count * stride <= len.
Proof.
  intros Ho Hc Hs. unfold region_ok. destruct (off >? len) eqn:E; [discriminate|].
  assert (0 <= count * stride <= 2 ^ 32 * 32)
    by (split; [apply Z.mul_nonneg_nonneg; lia|apply Z.mul_le_mono_nonneg; lia]).
  rewrite u64_small by lia. intros. b2p. lia.
Qed.

(** [a] ends before [b] starts. *)
Definition before (a b : method_range) : Prop := mr_end a <= mr_start b.
Definition proper (r : method_range) : Prop := mr_start r <= mr_end r.

Lemma keep_disjoint_sub last l r : In r (keep_disjoint last l) -> In r l.
Proof.
  revert last. induction l as [|a l IH]; intros last; simpl; [auto|].
  destruct (_ >=? _); [intros [->|]; eauto|eauto].
Qed.

Lemma keep_disjoint_after last l b :
  mr_end b <= mr_end last -> Forall proper l -> Forall (before b) (keep_disjoint last l).
Proof.
  revert last. induction l as [|a l IH]; intros last Hb Hp; simpl; [constructor|].
  inversion Hp as [|? ? Ha Hl]; subst. unfold before, proper in *.
  destruct (_ >=? _) eqn:E; [|auto]. b2p. constructor; [lia|]. apply IH; [lia|auto].
Qed.

Lemma keep_disjoint_sorted last l :
  Forall proper l -> StronglySorted before (last :: keep_disjoint last l).
Proof.
  revert last. induction l as [|a l IH]; intros last Hp; simpl; [repeat constructor|].
  inversion Hp as [|? ? Ha Hl]; subst. destruct (_ >=? _) eqn:E; [|auto]. b2p.
  constructor; [auto|]. unfold before, proper in *. constructor; [lia|].
  apply keep_disjoint_after; auto. lia.
Qed.

(** A range is dropped only when it starts inside one that is kept. *)
Lemma keep_disjoint_cover last l r :
  StronglySorted cmp_range (last :: l) -> Forall proper (last :: l) -> In r (last :: l) ->
  exists k, In k (last :: keep_disjoint last l) /\
            (k = r \/ mr_start k <= mr_start r < mr_end k).
Proof.
  revert last. induction l as [|a l IH]; intros last Hs Hp Hin; simpl in *.
  { destruct Hin as [->|[]]. eauto. }
  inversion Hs as [|? ? Hs' Hle]; subst. inversion Hle as [|? ? Hla Hle']; subst.
  inversion Hp as [|? ? Hpl Hp']; subst. inversion Hp' as [|? ? Hpa Hp'']; subst.
  inversion Hs' as [|? ? Hs'' Hal]; subst.
  destruct (_ >=? _) eqn:E; b2p.
  - destruct Hin as [->|Hin]; [exists r; simpl; auto|].
    destruct (IH a Hs' Hp' Hin) as (k & Hk & H). exists k. simpl in *. tauto.
  - destruct Hin as [->|[->|Hin]].
    + exists r. simpl. auto.
    + exists last. split; [now left|]. right. unfold cmp_range in Hla. lia.
    + destruct (IH last) as (k & Hk & H); [constructor; auto|constructor; auto|now right|].
      exists k. auto.
Qed.

Section DedupSpec.
Context (qsort : list method_range -> list method_range).
Hypothesis qsort_perm : forall l, Permutation l (qsort l).
Hypothesis qsort_sorted : forall l, StronglySorted cmp_range (qsort l).

Lemma dedup_sub rs r : In r (dedup_ranges qsort rs) -> In r rs.
Proof.
  unfold dedup_ranges. destruct (zlen rs >? 1); [|auto].
  pose proof (qsort_perm rs) as HP. destruct (qsort rs) as [|a l]; [intros []|].
  intros H. apply (Permutation_in r (Permutation_sym HP)).
  destruct H as [->|H]; [now left|right]. eapply keep_disjoint_sub; eauto.
Qed.

Lemma dedup_sorted rs : Forall proper rs -> StronglySorted before (dedup_ranges qsort rs).
Proof.
  intros Hp. unfold dedup_ranges. destruct (zlen rs >? 1) eqn:E.
  - pose proof (qsort_perm rs) as HP. destruct (qsort rs) as [|a l]; [constructor|].
    apply keep_disjoint_sorted. rewrite HP in Hp. now inversion Hp.
  - destruct rs as [|a [|b l]]; [constructor|repeat constructor|].
    rewrite !zlen_cons in E. pose proof (zlen_nonneg l). b2p. lia.
Qed.

Lemma dedup_cover rs r :
  Forall proper rs -> In r rs ->
  exists k, In k (dedup_ranges qsort rs) /\ (k = r \/ mr_start k <= mr_start r < mr_end k).
Proof.
  intros Hp Hin. unfold dedup_ranges. destruct (zlen rs >? 1); [|eauto].
  pose proof (qsort_perm rs) as HP. pose proof (qsort_sorted rs) as HS.
  pose proof (Permutation_in r HP Hin) as Hin'. rewrite HP in Hp.
  destruct (qsort rs) as [|a l]; [destruct Hin'|]. now apply keep_disjoint_cover.
Qed.
End DedupSpec.

(** What the lookups rely on. *)
Record dex_wf (m : dex_method_map) : Prop := {
  dw_len : dlen m = zlen (dimg m);
  dw_small : zlen (dimg m) < 2 ^ 62;
  dw_str : 0 <= string_ids_off m /\ string_ids_off m + string_ids_size m * 4 <= dlen m;
  dw_typ : 0 <= type_ids_off m /\ type_ids_off m + type_ids_size m * 4 <= dlen m;
  dw_mth : 0 <= method_ids_off m /\ method_ids_off m + method_ids_size m * 8 <= dlen m;
  dw_rng : Forall (range_ok (dlen m) (method_ids_size m)) (ranges m);
  dw_srt : dlen m < 2 ^ 32 -> StronglySorted before (ranges m)
}.

Lemma range_ok_proper len msize rs :
  len < 2 ^ 32 -> Forall (range_ok len msize) rs -> Forall proper rs.
Proof. intros Hl. apply List.Forall_impl. intros r [_ H]. unfold proper. specialize (H Hl). lia. Qed.

Lemma wp_rd_u32 {B} img off (f : Z -> res B) Q :
  0 <= off -> off + 4 <= zlen img ->
  (forall v, 0 <= v < 2 ^ 32 -> wp (f v) Q) -> wp (rd_u32 img off ≫= f) Q.
Proof. intros H0 H1 H. rewrite rd_u32_in, ret_bind by auto. apply H. apply (le_at_range 4). Qed.

Lemma wp_ld {B} img off (f : Z -> res B) Q :
  0 <= off < zlen img -> (forall v, 0 <= v < 256 -> wp (f v) Q) -> wp (ld img off ≫= f) Q.
Proof. intros H0 H. rewrite ld_in, ret_bind by auto. apply H. apply byte_at_range. Qed.

Lemma dex_map_build_wf alloc_ok qsort img :
  (forall l, Permutation l (qsort l)) -> zlen img < 2 ^ 62 ->
  wp (dex_map_build alloc_ok qsort img) (fun m => dex_wf m /\ dimg m = img).
Proof.
  intros Hq Hs. unfold dex_map_build. cbv zeta. unfold DEX_HEADER_SIZE.
  apply wp_fail_if. intros Hlen. b2p.
  eapply wp_bind with (P := fun _ => True); [apply wp_memcpy_in; auto; lia|]. intros mg _.
  apply wp_fail_if. intros _.
  apply wp_ld; [lia|]. intros b7 _. apply wp_fail_if. intros _.
  do 3 (apply wp_ld; [lia|]; intros ? _). do 2 (apply wp_fail_if; intros _).
  unfold OFF_STRING_IDS_SIZE, OFF_STRING_IDS_OFF, OFF_TYPE_IDS_SIZE, OFF_TYPE_IDS_OFF,
    OFF_METHOD_IDS_SIZE, OFF_METHOD_IDS_OFF, OFF_CLASS_DEFS_SIZE, OFF_CLASS_DEFS_OFF.
  do 8 (apply wp_rd_u32; [lia|lia|]; intros ? ?).
  apply wp_fail_if. intros HR. b2p.
  unfold STRING_ID_STRIDE, TYPE_ID_STRIDE, METHOD_ID_STRIDE, CLASS_DEF_STRIDE in *.
  repeat match goal with
  | H : region_ok _ _ _ _ = true |- _ => apply region_ok_spec in H; [|tauto|tauto|lia]
  end.
  apply wp_fail_if. intros _.
  eapply wp_bind; [apply parse_classes_spec; auto; try lia|].
  intros rs [Hrs _]. split; [|reflexivity].
  constructor; cbn [dimg dlen string_ids_off string_ids_size type_ids_off type_ids_size
    method_ids_off method_ids_size ranges]; auto; try lia.
  - apply List.Forall_forall. intros r Hr. rewrite List.Forall_forall in Hrs. apply Hrs.
    eapply dedup_sub; eauto.
  - intros Hl. apply dedup_sorted; auto. eapply range_ok_proper; eauto.
Qed.

(** ** Lookups *)

(** A C string of a buffer of [outsz] bytes: no terminator inside, room for one. *)
Definition c_string (outsz : Z) (o : option (list byte)) : Prop :=
  match o with Some s => zlen s < outsz /\ ~ In x00 s | None => True end.

Lemma zb_nonzero c : 0 <= c < 256 -> c <> 0 -> zb c <> x00.
Proof. intros Hc Hn H. apply Hn. rewrite <- (bz_zb_small c Hc), H. reflexivity. Qed.

Lemma not_in_app (l : list byte) c : ~ In x00 l -> c <> x00 -> ~ In x00 (l ++ [c]).
Proof. rewrite in_app_iff. simpl. intuition congruence. Qed.

Lemma copy_string_spec n img pos outsz out :
  0 <= pos <= zlen img -> (Z.to_nat (zlen img - pos) < n)%nat ->
  zlen out < outsz -> ~ In x00 out -> wp (copy_string n img (zlen img) pos outsz out) (c_string outsz).
Proof.
  revert pos out. induction n as [|n IH]; intros pos out Hp Hn Ho Hz; [lia|].
  cbn [copy_string]. destruct (pos <? zlen img) eqn:E; b2p; simpl negb; cbv iota; [|now split].
  apply wp_ld; [lia|]. intros c Hc. destruct (c =? 0) eqn:E0; b2p; [now split|].
  destruct (_ >=? _) eqn:E1; b2p; [exact I|].
  apply IH; try lia; [rewrite zlen_app, zlen_cons; unfold zlen; simpl; unfold zlen in *; lia|].
  apply not_in_app; auto. now apply zb_nonzero.
Qed.

Lemma table_slot base i size stride len :
  0 <= base -> 0 < stride -> base + size * stride <= len -> 0 <= i < size ->
  0 <= base + i * stride /\ base + i * stride + stride <= len.
Proof.
  intros Hb Hs Hl Hi. split; [apply Z.add_nonneg_nonneg; [lia|apply Z.mul_nonneg_nonneg; lia]|].
  assert ((i + 1) * stride <= size * stride) by (apply Z.mul_le_mono_nonneg_r; lia). lia.
Qed.

Lemma dex_string_spec m idx outsz :
  dex_wf m -> 0 <= idx -> 0 < outsz -> wp (dex_string m idx outsz) (c_string outsz).
Proof.
  intros Hw Hi Ho. unfold dex_string, STRING_ID_STRIDE. destruct (_ >=? _) eqn:E; b2p; [exact I|].
  destruct (dw_str _ Hw) as [Hs0 Hs1]. pose proof (dw_len _ Hw) as HL.
  destruct (table_slot _ idx _ 4 _ Hs0 ltac:(lia) Hs1 ltac:(lia)).
  apply wp_rd_u32; [lia|lia|]. intros off Hoff. destruct (off >=? _) eqn:E1; b2p; [exact I|].
  rewrite HL in *. apply wp_uleb; [lia|intros; exact I|]. intros v p Hp _.
  apply copy_string_spec; [lia|lia|exact Ho|intros []].
Qed.

Lemma append_checked_spec s out outsz :
  zlen out < outsz -> ~ In x00 out -> ~ In x00 s -> c_string outsz (append_checked out outsz s).
Proof.
  revert out. induction s as [|c s IH]; intros out Ho Hz Hs; simpl; [now split|].
  destruct (_ >=? _) eqn:E; b2p; [exact I|]. simpl in Hs.
  apply IH; [rewrite zlen_app, zlen_cons; unfold zlen at 2; simpl; lia|apply not_in_app; auto|tauto].
Qed.

Lemma append_checked_eq s out outsz r :
  append_checked out outsz s = Some r -> r = out ++ s.
Proof.
  revert out. induction s as [|c s IH]; intros out; simpl.
  - rewrite app_nil_r. congruence.
  - destruct (_ >=? _); [discriminate|]. intros ->%IH. now rewrite <- app_assoc.
Qed.

Lemma dot_nul c : dot c = x00 -> c = x00.
Proof. unfold dot. case_bool_decide; congruence. Qed.

Lemma map_dot_nul l : ~ In x00 l -> ~ In x00 (map dot l).
Proof.
  intros H Hin. apply in_map_iff in Hin as (c & Hc & Hl). apply dot_nul in Hc. subst. auto.
Qed.

Lemma slice_in l a n (c : byte) : In c (slice l a n) -> In c l.
Proof.
  unfold slice. intros H. rewrite <- (take_drop (Z.to_nat a) l). apply in_app_iff. right.
  rewrite <- (take_drop (Z.to_nat n) (drop (Z.to_nat a) l)). apply in_app_iff. now left.
Qed.

Lemma method_idx_to_name_spec m idx outsz :
  dex_wf m -> 0 <= idx -> 0 < outsz -> wp (method_idx_to_name m idx outsz) (c_string outsz).
Proof.
  intros Hw Hi Ho. unfold method_idx_to_name, METHOD_ID_STRIDE, TYPE_ID_STRIDE.
  destruct (_ >=? _) eqn:E; b2p; [exact I|]. pose proof (dw_len _ Hw) as HL. cbv zeta.
  destruct (dw_mth _ Hw) as [Hm0 Hm1], (dw_typ _ Hw) as [Ht0 Ht1].
  destruct (table_slot _ idx _ 8 _ Hm0 ltac:(lia) Hm1 ltac:(lia)).
  unfold rd_u16. rewrite ld_le_in, ret_bind by lia.
  pose proof (le_at_range 2 (dimg m) (method_ids_off m + idx * 8)) as Hc.
  set (ci := le_at 2 _ _) in *.
  apply wp_rd_u32; [lia|lia|]. intros ni Hni.
  eapply wp_bind; [apply dex_string_spec; auto; lia|]. intros [name|] Hname; [|exact I].
  destruct (ci >=? _) eqn:E1; b2p; [exact I|].
  destruct (table_slot _ ci _ 4 _ Ht0 ltac:(lia) Ht1 ltac:(lia)).
  apply wp_rd_u32; [lia|lia|]. intros di Hdi.
  eapply wp_bind; [apply dex_string_spec; auto; lia|]. intros [desc|] Hdesc; [|exact I].
  destruct (_ || _); [exact I|]. destruct Hname as [_ Hname], Hdesc as [_ Hdesc].
  pose proof (append_checked_spec (map dot (slice desc 1 (zlen desc - 2))) [] outsz) as Ha.
  destruct (append_checked [] _ _) as [o|]; [|exact I].
  destruct Ha as [Ha1 Ha2]; [exact Ho|intros []|apply map_dot_nul; intros Hin%slice_in; auto|].
  apply append_checked_spec; auto. intros [Hx|Hx]; [discriminate|auto].
Qed.

Definition in_range (off : Z) (r : method_range) : bool :=
  (mr_start r <=? off) && (off <? mr_end r).

Lemma ssorted_lookup {A} (R : A -> A -> Prop) l i j a b :
  StronglySorted R l -> (i < j)%nat -> l !! i = Some a -> l !! j = Some b -> R a b.
Proof.
  intros Hs. revert i j. induction Hs as [|x l Hs IH Hall]; intros i j Hij Hi Hj; [done|].
  destruct i, j; simpl in *; simplify_eq; try lia.
  - rewrite list.Forall_forall in Hall. apply Hall. apply list_elem_of_lookup. eauto.
  - eapply (IH i j); eauto. lia.
Qed.

(** What a search of [rs] for [off] returns. *)
Definition search_result (rs : list method_range) (off : Z) (o : option method_range) : Prop :=
  match o with
  | Some r => In r rs /\ in_range off r = true
  | None => Forall (fun r => in_range off r = false) rs
  end.

Lemma in_range_spec off r : in_range off r = true <-> mr_start r <= off < mr_end r.
Proof. unfold in_range. rewrite andb_true_iff, Z.leb_le, Z.ltb_lt. lia. Qed.
Lemma in_range_out off r : off < mr_start r \/ mr_end r <= off -> in_range off r = false.
Proof. intros H. apply not_true_is_false. rewrite in_range_spec. lia. Qed.

(** Everything left of [lo] ends before [off], everything from [hi] starts after it. *)
Lemma range_bsearch_spec fuel rs off lo hi :
  StronglySorted before rs -> Forall proper rs -> (lo <= hi <= length rs)%nat -> (hi - lo < fuel)%nat ->
  (forall i r, rs !! i = Some r -> (i < lo)%nat -> mr_end r <= off) ->
  (forall i r, rs !! i = Some r -> (hi <= i)%nat -> off < mr_start r) ->
  exists o, range_bsearch fuel rs off lo hi = Ret o /\ search_result rs off o.
Proof.
  intros Hs Hp. revert lo hi. induction fuel as [|fuel IH]; intros lo hi Hb Hf Hl Hh; [lia|].
  cbn [range_bsearch]. destruct (Nat.ltb_spec lo hi); simpl negb; cbv iota.
  2:{ exists None. split; [reflexivity|]. apply list.Forall_forall. intros r (i & Hi)%list_elem_of_lookup.
      apply in_range_out. destruct (decide (i < lo)%nat); [right|left]; [eapply Hl|eapply Hh]; eauto; lia. }
  set (mid := (lo + (hi - lo) / 2)%nat).
  assert (Hm : (lo <= mid < hi)%nat) by (pose proof (Nat.div_lt (hi - lo) 2); lia).
  destruct (lookup_lt_is_Some_2 rs mid) as [r Hr]; [lia|]. cbv zeta. rewrite Hr.
  assert (Hpr : proper r) by (rewrite list.Forall_forall in Hp; apply Hp; apply list_elem_of_lookup; eauto).
  unfold proper in Hpr.
  destruct (off <? mr_start r) eqn:E1; b2p; [|destruct (off >=? mr_end r) eqn:E2; b2p].
  - apply IH; auto; [lia|lia|]. intros i q Hq Hi. destruct (decide (i = mid)) as [->|]; [congruence|].
    pose proof (ssorted_lookup before rs mid i r q Hs ltac:(lia) Hr Hq) as Hbq.
    unfold before in Hbq. lia.
  - apply IH; auto; [lia|lia|]. intros i q Hq Hi. destruct (decide (i = mid)) as [->|]; [congruence|].
    pose proof (ssorted_lookup before rs i mid q r Hs ltac:(lia) Hq Hr) as Hbq.
    unfold before in Hbq. lia.
  - exists (Some r). split; [reflexivity|]. split; [apply list_elem_of_In, list_elem_of_lookup; eauto|].
    apply in_range_spec. lia.
Qed.

(** Ranges of a sorted table that hold the same offset are the same. *)
Lemma in_range_unique rs off a b :
  StronglySorted before rs -> In a rs -> In b rs ->
  in_range off a = true -> in_range off b = true -> a = b.
Proof.
  intros Hs (i & Hi)%list_elem_of_In%list_elem_of_lookup (j & Hj)%list_elem_of_In%list_elem_of_lookup.
  rewrite !in_range_spec. intros Ha Hb.
  destruct (Nat.lt_trichotomy i j) as [Hij|[->|Hij]]; [| congruence |].
  - pose proof (ssorted_lookup before rs i j a b Hs Hij Hi Hj) as H. unfold before in H. lia.
  - pose proof (ssorted_lookup before rs j i b a Hs Hij Hj Hi) as H. unfold before in H. lia.
Qed.

Lemma search_result_find rs off o :
  StronglySorted before rs -> search_result rs off o -> o = List.find (in_range off) rs.
Proof.
  intros Hs Ho. destruct (List.find _ rs) as [b|] eqn:E.
  - apply List.find_some in E as [Hb1 Hb2]. destruct o as [a|].
    + destruct Ho. f_equal. eapply in_range_unique; eauto.
    + simpl in Ho. rewrite List.Forall_forall in Ho. specialize (Ho b Hb1). congruence.
  - destruct o as [a|]; [|reflexivity]. destruct Ho as [Ha1 Ha2].
    pose proof (List.find_none _ _ E a Ha1). congruence.
Qed.

Lemma find_range_find m off :
  dex_wf m -> dlen m < 2 ^ 32 -> find_range m off = Ret (List.find (in_range off) (ranges m)).
Proof.
  intros Hw Hl. pose proof (dw_srt _ Hw Hl) as Hs.
  destruct (range_bsearch_spec (S (length (ranges m))) (ranges m) off 0 (length (ranges m)))
    as (o & Ho & Hr); auto; try lia.
  - eapply range_ok_proper; [exact Hl|apply (dw_rng _ Hw)].
  - intros i r Hi Hge. apply lookup_lt_Some in Hi. lia.
  - unfold find_range. rewrite Ho. f_equal. now apply search_result_find.
Qed.

(** In any image, also one too large for the 32-bit ranges, the search stays inside the table. *)
Lemma range_bsearch_safe fuel rs off lo hi :
  (lo <= hi <= length rs)%nat -> (hi - lo < fuel)%nat ->
  wp (range_bsearch fuel rs off lo hi) (fun o => forall r, o = Some r -> In r rs).
Proof.
  revert lo hi. induction fuel as [|fuel IH]; intros lo hi Hb Hf; [lia|].
  cbn [range_bsearch]. destruct (Nat.ltb_spec lo hi); simpl negb; cbv iota; [|intros r; discriminate].
  set (mid := (lo + (hi - lo) / 2)%nat).
  assert (Hm : (lo <= mid < hi)%nat) by (pose proof (Nat.div_lt (hi - lo) 2); lia).
  destruct (lookup_lt_is_Some_2 rs mid) as [r Hr]; [lia|]. cbv zeta. rewrite Hr.
  destruct (off <? mr_start r); [apply IH; lia|]. destruct (off >=? mr_end r); [apply IH; lia|].
  intros q [= <-]. apply list_elem_of_In, list_elem_of_lookup. eauto.
Qed.

Lemma dex_map_lookup_spec m off outsz :
  dex_wf m -> 0 <= outsz -> wp (dex_map_lookup m off outsz) (c_string outsz).
Proof.
  intros Hw Ho. unfold dex_map_lookup. destruct (outsz =? 0) eqn:E; b2p; [exact I|].
  eapply wp_bind; [apply range_bsearch_safe; lia|]. intros [r|] Hr; [|exact I].
  pose proof (dw_rng _ Hw) as HR. rewrite List.Forall_forall in HR.
  destruct (HR r (Hr r eq_refl)) as [Hi _]. apply method_idx_to_name_spec; auto; lia.
Qed.

(** ** Encoded classes *)

(** [bs] is in the image at [pos]. *)
Fixpoint bytes_at (img : list byte) (pos : Z) (bs : list byte) : Prop :=
  match bs with
  | [] => 0 <= pos <= zlen img
  | b :: bs => 0 <= pos < zlen img /\ byte_at img pos = bz b /\ bytes_at img (pos + 1) bs
  end.

Lemma bytes_at_app img pos a b :
  bytes_at img pos (a ++ b) -> bytes_at img pos a /\ bytes_at img (pos + zlen a) b.
Proof.
  revert pos. induction a as [|c a IH]; intros pos H.
  - change (zlen (@nil byte)) with 0. rewrite Z.add_0_r. split; [|exact H].
    destruct b; simpl in H; simpl; lia.
  - destruct H as (H1 & H2 & H3). apply IH in H3 as [H3 H4]. rewrite zlen_cons.
    replace (pos + (1 + zlen a)) with (pos + 1 + zlen a) by lia. simpl. auto.
Qed.

Lemma bytes_at_bound img pos bs : bytes_at img pos bs -> 0 <= pos /\ pos + zlen bs <= zlen img.
Proof.
  revert pos. induction bs as [|b bs IH]; intros pos H; simpl in H.
  - unfold zlen at 1. simpl. lia.
  - destruct H as (H1 & _ & H3%IH). rewrite zlen_cons. lia.
Qed.

(** A 32-bit value takes at most five bytes. *)
Definition uenc (n : Z) : list byte := uleb_enc 4 n.
Definition is_u32 (n : Z) : Prop := 0 <= n < 2 ^ 32.

Lemma uleb_go_last k img n pos shift r :
  bytes_at img pos [zb n] -> 0 <= n < 128 -> 0 <= shift -> 0 <= r < 2 ^ shift ->
  n * 2 ^ shift + r < 2 ^ 32 ->
  uleb_go (S k) img (zlen img) pos shift r = Ret (Some (r + n * 2 ^ shift), pos + 1).
Proof.
  intros (Hp & Hb & _) Hn Hs Hr Hf. cbn [uleb_go]. rewrite bz_zb_small in Hb by lia.
  rewrite Z.geb_leb, (proj2 (Z.leb_gt (zlen img) pos)), ld_in, ret_bind, Hb by lia. cbv zeta.
  rewrite land_80, (proj2 (Z.ltb_lt n 128)), land_7f, Z.mod_small by lia.
  rewrite u32_small by (rewrite Z.shiftl_mul_pow2 by lia; nia).
  rewrite lor_shiftl_add by lia. reflexivity.
Qed.

Lemma uleb_go_enc k img n pos shift r :
  bytes_at img pos (uleb_enc k n) -> 0 <= n < 128 ^ Z.of_nat (S k) ->
  0 <= shift -> 0 <= r < 2 ^ shift -> n * 2 ^ shift + r < 2 ^ 32 ->
  uleb_go (S k) img (zlen img) pos shift r = Ret (Some (r + n * 2 ^ shift), pos + zlen (uleb_enc k n)).
Proof.
  revert n pos shift r. induction k as [|k IH]; intros n pos shift r Hb Hn Hs Hr Hf; simpl uleb_enc in *.
  { apply uleb_go_last; auto. }
  destruct (n <? 128) eqn:E; b2p; [apply uleb_go_last; auto; lia|].
  assert (Hd : n = 128 * (n / 128) + n mod 128) by (apply Z.div_mod; lia).
  pose proof (Z.mod_pos_bound n 128 eq_refl) as Hm.
  assert (Hp : 0 < 2 ^ shift) by (apply Z.pow_pos_nonneg; lia).
  destruct Hb as (H1 & H2 & H3). rewrite bz_zb_small in H2 by lia.
  assert (Hbm : (128 + n mod 128) mod 128 = n mod 128).
  { replace (128 + n mod 128) with (n mod 128 + 1 * 128) by lia.
    rewrite Z.mod_add by lia. apply Z.mod_small. lia. }
  remember (S k) as k'. cbn [uleb_go]. subst k'.
  rewrite Z.geb_leb, (proj2 (Z.leb_gt (zlen img) pos)), ld_in, ret_bind, H2 by lia. cbv zeta.
  rewrite land_80, (proj2 (Z.ltb_ge (128 + n mod 128) 128)), land_7f, Hbm by lia.
  rewrite u32_small by (rewrite Z.shiftl_mul_pow2 by lia; nia).
  rewrite lor_shiftl_add by lia. rewrite (IH (n / 128)); rewrite ?pow2_7 by lia; auto; try lia.
  - rewrite zlen_cons. f_equal. f_equal; [f_equal; nia|lia].
  - split; [apply Z.div_pos; lia|]. apply Z.div_lt_upper_bound; [lia|].
    replace (Z.of_nat (S (S k))) with (1 + Z.of_nat (S k)) in Hn by lia.
    rewrite Z.pow_add_r in Hn by lia. lia.
  - nia.
Qed.

Lemma uleb128_enc img n pos :
  bytes_at img pos (uenc n) -> is_u32 n ->
  uleb128 img (zlen img) pos = Ret (Some n, pos + zlen (uenc n)).
Proof.
  intros Hb Hn. unfold is_u32 in Hn. unfold uleb128. rewrite (uleb_go_enc 4 img n) by (auto; simpl; lia).
  f_equal. f_equal. f_equal. lia.
Qed.

(** The data of a class as a DEX writer lays it out. *)
Record enc_method := mk_enc { em_diff : Z; em_flags : Z; em_code : Z }.
Record enc_class := mk_class {
  static_fields : list (Z * Z); instance_fields : list (Z * Z);
  direct_methods : list enc_method; virtual_methods : list enc_method
}.

Definition enc_field (f : Z * Z) : list byte := uenc (fst f) ++ uenc (snd f).
Definition enc_one (e : enc_method) : list byte :=
  uenc (em_diff e) ++ uenc (em_flags e) ++ uenc (em_code e).
Definition class_bytes (c : enc_class) : list byte :=
  uenc (zlen (static_fields c)) ++ uenc (zlen (instance_fields c)) ++
  uenc (zlen (direct_methods c)) ++ uenc (zlen (virtual_methods c)) ++
  flat_map enc_field (static_fields c ++ instance_fields c) ++
  flat_map enc_one (direct_methods c) ++ flat_map enc_one (virtual_methods c).

Definition field_u32 (f : Z * Z) : Prop := is_u32 (fst f) /\ is_u32 (snd f).
Definition method_u32 (e : enc_method) : Prop :=
  is_u32 (em_diff e) /\ is_u32 (em_flags e) /\ is_u32 (em_code e).
Definition class_u32 (c : enc_class) : Prop :=
  is_u32 (zlen (static_fields c)) /\ is_u32 (zlen (instance_fields c)) /\
  is_u32 (zlen (direct_methods c)) /\ is_u32 (zlen (virtual_methods c)) /\
  Forall field_u32 (static_fields c ++ instance_fields c) /\
  Forall method_u32 (direct_methods c) /\ Forall method_u32 (virtual_methods c).

(** The code of a method: the instructions after the sixteen-byte header, when the
    method has a body inside the image. *)
Definition code_ranges (img : list byte) (msize idx code : Z) : list method_range :=
  let stop := code + 16 + 2 * le_at 4 img (code + 12) in
  if (0 <? code) && (code + 16 <=? zlen img) && (stop <=? zlen img) && (idx <? msize)
  then [mk_range (code + 16) stop idx] else [].

(** Indexes are running sums of the differences. *)
Fixpoint group_ranges (img : list byte) (msize idx : Z) (l : list enc_method) : list method_range :=
  match l with
  | [] => []
  | e :: l => let idx := u32 (idx + em_diff e) in
              code_ranges img msize idx (em_code e) ++ group_ranges img msize idx l
  end.
Definition class_ranges (img : list byte) (msize : Z) (c : enc_class) : list method_range :=
  group_ranges img msize 0 (direct_methods c) ++ group_ranges img msize 0 (virtual_methods c).

Section Encoded.
Context (alloc_ok : Z -> bool) (img : list byte) (msize : Z).
Hypothesis Himg : zlen img < 2 ^ 32.

(** Read the encoded number in front, [Hb] saying what is in the image. *)
Ltac read_enc Hb Hu :=
  let Ha := fresh in
  apply bytes_at_app in Hb as [Ha Hb]; rewrite (uleb128_enc _ _ _ Ha Hu), ret_bind;
  cbn beta iota; clear Ha.

Lemma skip_fields_enc l fuel f pos bs :
  bytes_at img pos (flat_map enc_field l ++ bs) -> Forall field_u32 l -> (length l < fuel)%nat ->
  skip_fields fuel img (zlen img) pos f (f + zlen l) = Ret (true, pos + zlen (flat_map enc_field l)).
Proof.
  revert fuel f pos. induction l as [|e l IH]; intros [|fuel] f pos Hb Hl Hf; try (simpl in Hf; lia);
    cbn [skip_fields].
  - rewrite (proj2 (Z.ltb_ge _ _)) by (unfold zlen; simpl; lia).
    simpl. do 2 f_equal. unfold zlen. simpl. lia.
  - rewrite zlen_cons. pose proof (zlen_nonneg l).
    rewrite (proj2 (Z.ltb_lt _ _)) by lia. simpl negb. cbv iota.
    inversion Hl as [|? ? [H1 H2] Hl']; subst. cbn [flat_map] in *. unfold enc_field in Hb at 1.
    rewrite <- !app_assoc in Hb. read_enc Hb H1. read_enc Hb H2.
    replace (f + (1 + zlen l)) with (f + 1 + zlen l) by lia. rewrite IH by (auto; simpl in Hf; lia).
    unfold enc_field at 2. rewrite !zlen_app. do 2 f_equal. lia.
Qed.

(** The test of the source on a code offset, against [code_ranges]. *)
Lemma code_branch {B} (next : list method_range -> Z -> res B) oom rs cap idx code :
  is_u32 code -> 0 <= idx ->
  (if code =? 0 then next rs cap else
   if (code >? zlen img) || (zlen img - code <? CODE_ITEM_HEADER) then next rs cap else
   insns_size ← rd_u32 img (code + 12);
   if insns_size * 2 >? zlen img - u32 (code + CODE_ITEM_HEADER) then next rs cap else
   if idx >=? msize then next rs cap else
   match push_range alloc_ok rs cap (mk_range (u32 (code + CODE_ITEM_HEADER))
           (u32 (u32 (code + CODE_ITEM_HEADER) + u32 (insns_size * 2))) idx) with
   | None => oom
   | Some (rs, cap) => next rs cap
   end) =
  match code_ranges img msize idx code with
  | [] => next rs cap
  | r :: _ => match push_range alloc_ok rs cap r with
              | None => oom
              | Some (rs, cap) => next rs cap
              end
  end.
Proof.
  intros Hc Hi. unfold is_u32 in Hc. unfold code_ranges, CODE_ITEM_HEADER. cbv zeta.
  destruct (Z.eqb_spec code 0) as [->|]; [reflexivity|].
  rewrite (proj2 (Z.ltb_lt 0 code)) by lia. rewrite ?andb_true_l.
  destruct ((code >? zlen img) || (zlen img - code <? 16)) eqn:E.
  { rewrite (proj2 (Z.leb_gt _ _)); [reflexivity|].
    apply orb_true_iff in E as [E|E]; b2p; lia. }
  b2p. rewrite (proj2 (Z.leb_le (code + 16) (zlen img))), rd_u32_in, ret_bind by lia. rewrite ?andb_true_l.
  pose proof (le_at_range 4 img (code + 12)) as Hs. change (2 ^ (8 * Z.of_nat 4)) with (2 ^ 32) in Hs.
  rewrite (u32_small (code + 16)) by lia. set (sz := le_at 4 img (code + 12)) in *.
  destruct (sz * 2 >? _) eqn:E2; b2p.
  { rewrite (proj2 (Z.leb_gt _ _)) by lia. reflexivity. }
  rewrite (proj2 (Z.leb_le _ _)) by lia. rewrite ?andb_true_l. rewrite Z.geb_leb, Z.ltb_antisym.
  destruct (msize <=? idx); simpl; [reflexivity|].
  rewrite (u32_small (sz * 2)), u32_small by lia. rewrite (Z.mul_comm sz 2). reflexivity.
Qed.

Lemma code_ranges_cases idx code :
  code_ranges img msize idx code = [] \/ exists r, code_ranges img msize idx code = [r].
Proof. unfold code_ranges. cbv zeta. destruct (_ && _); eauto. Qed.

(** Either every range of the group is appended or memory ran out. *)
Definition group_done (rs new : list method_range) (p : Z) (r : res (Z * list method_range * Z * Z)) :=
  (exists cap, r = Ret (1, rs ++ new, cap, p)) \/ (exists rs' cap p', r = Ret (-1, rs', cap, p')).

Lemma parse_method_group_enc l fuel rs cap k idx pos bs :
  bytes_at img pos (flat_map enc_one l ++ bs) -> Forall method_u32 l -> (length l < fuel)%nat ->
  group_done rs (group_ranges img msize idx l) (pos + zlen (flat_map enc_one l))
    (parse_method_group alloc_ok fuel img (zlen img) msize rs cap pos k (k + zlen l) idx).
Proof.
  revert fuel rs cap k idx pos.
  induction l as [|e l IH]; intros [|fuel] rs cap k idx pos Hb Hl Hf; try (simpl in Hf; lia);
    cbn [parse_method_group].
  - rewrite (proj2 (Z.ltb_ge _ _)) by (unfold zlen; simpl; lia).
    left. exists cap. simpl. rewrite app_nil_r. do 2 f_equal. unfold zlen. simpl. lia.
  - rewrite zlen_cons. pose proof (zlen_nonneg l).
    rewrite (proj2 (Z.ltb_lt _ _)) by lia. simpl negb. cbv iota.
    inversion Hl as [|? ? (H1 & H2 & H3) Hl']; subst. cbn [flat_map] in *. unfold enc_one in Hb at 1.
    rewrite <- !app_assoc in Hb. read_enc Hb H1. read_enc Hb H2. read_enc Hb H3. cbv zeta.
    replace (k + (1 + zlen l)) with (k + 1 + zlen l) by lia. cbn [group_ranges]. cbv zeta.
    rewrite (code_branch (fun rs cap => parse_method_group alloc_ok fuel img (zlen img) msize rs cap _
      (k + 1) (k + 1 + zlen l) (u32 (idx + em_diff e)))) by (auto; apply u32_range).
    unfold enc_one at 1. rewrite !zlen_app.
    replace (pos + _) with (pos + zlen (uenc (em_diff e)) + zlen (uenc (em_flags e)) +
      zlen (uenc (em_code e)) + zlen (flat_map enc_one l)) by lia.
    destruct (code_ranges_cases (u32 (idx + em_diff e)) (em_code e)) as [->|[r ->]].
    + apply (IH fuel rs cap (k + 1) _ _ Hb Hl'). simpl in Hf. lia.
    + destruct (push_range alloc_ok rs cap r) as [[rs' cap']|] eqn:E; [|right; eauto].
      apply push_range_spec in E as ->. unfold group_done. rewrite app_assoc.
      apply (IH fuel (rs ++ [r]) cap' (k + 1) _ _ Hb Hl'). simpl in Hf. lia.
Qed.

Lemma enc_length {A} (f : A -> list byte) l :
  (forall a, 0 < zlen (f a)) -> zlen l <= zlen (flat_map f l).
Proof.
  intros Hf. induction l as [|a l IH]; [reflexivity|]. cbn [flat_map].
  rewrite zlen_cons, zlen_app. specialize (Hf a). lia.
Qed.
Lemma uenc_pos n : 0 < zlen (uenc n).
Proof. unfold uenc. cbn [uleb_enc]. destruct (n <? 128); rewrite zlen_cons; auto with words; unfold zlen; lia. Qed.
Lemma enc_field_pos f : 0 < zlen (enc_field f).
Proof. unfold enc_field. rewrite zlen_app. pose proof (uenc_pos (fst f)). pose proof (uenc_pos (snd f)). lia. Qed.
Lemma enc_one_pos e : 0 < zlen (enc_one e).
Proof.
  unfold enc_one. rewrite !zlen_app. pose proof (uenc_pos (em_diff e)).
  pose proof (zlen_nonneg (uenc (em_flags e))). pose proof (zlen_nonneg (uenc (em_code e))). lia.
Qed.

(** The bytes of [l] in the image bound its length by the fuel. *)
Lemma enc_fuel {A} (f : A -> list byte) l pos bs :
  (forall a, 0 < zlen (f a)) -> bytes_at img pos (flat_map f l ++ bs) ->
  (length l < S (Z.to_nat (zlen img)))%nat.
Proof.
  intros Hf [[H0 Hb]%bytes_at_bound _]%bytes_at_app. pose proof (enc_length f l Hf).
  unfold zlen in *. lia.
Qed.

Lemma parse_class_enc c cd rs cap :
  0 <= cd -> cd + 32 <= zlen img -> 0 < le_at 4 img (cd + 24) ->
  bytes_at img (le_at 4 img (cd + 24)) (class_bytes c) -> class_u32 c ->
  (exists cap', parse_class alloc_ok img (zlen img) msize cd rs cap
                = Ret (rs ++ class_ranges img msize c, cap')) \/
  parse_class alloc_ok img (zlen img) msize cd rs cap = Fail.
Proof.
  intros H0 H1 Ho Hb (U1 & U2 & U3 & U4 & U5 & U6 & U7). unfold parse_class.
  rewrite rd_u32_in, ret_bind by lia. set (o := le_at 4 img (cd + 24)) in *.
  pose proof (bytes_at_bound _ _ _ Hb) as [_ Hend]. unfold class_bytes in *. rewrite !zlen_app in Hend.
  pose proof (uenc_pos (zlen (static_fields c))).
  destruct ((o =? 0) || (o >=? zlen img)) eqn:E.
  { exfalso. apply orb_true_iff in E as [E|E]; b2p; [lia|].
    repeat match type of Hend with context [zlen ?l] => match l with img => fail 1 | _ =>
      pose proof (zlen_nonneg l); generalize dependent (zlen l); intros end end. lia. }
  unfold uleb4. read_enc Hb U1. read_enc Hb U2. read_enc Hb U3. read_enc Hb U4.
  rewrite ret_bind. cbn beta iota.
  replace (zlen (static_fields c) + zlen (instance_fields c))
    with (0 + zlen (static_fields c ++ instance_fields c)) by (rewrite zlen_app; lia).
  rewrite (skip_fields_enc _ _ 0 _ _ Hb U5 (enc_fuel _ _ _ _ enc_field_pos Hb)), ret_bind.
  simpl negb. cbn beta iota. apply bytes_at_app in Hb as [_ Hb].
  pose proof (parse_method_group_enc _ _ rs cap 0 0 _ _ Hb U6 (enc_fuel _ _ _ _ enc_one_pos Hb)) as HG.
  rewrite Z.add_0_l in HG. destruct HG as [(cap1 & ->)|(rs' & cap1 & p' & ->)];
    rewrite ret_bind; cbn beta iota; [|now right].
  apply bytes_at_app in Hb as [_ Hb]. change (1 <? 0) with false. change (1 =? 0) with false. cbv iota.
  rewrite <- (app_nil_r (flat_map enc_one (virtual_methods c))) in Hb.
  pose proof (parse_method_group_enc _ _ (rs ++ group_ranges img msize 0 (direct_methods c)) cap1 0 0 _ _
    Hb U7 (enc_fuel _ _ _ _ enc_one_pos Hb)) as HG.
  rewrite Z.add_0_l in HG. destruct HG as [(cap2 & ->)|(rs' & cap2 & p' & ->)];
    rewrite ret_bind; cbn beta iota; [|now right].
  left. exists cap2. unfold class_ranges. rewrite app_assoc. reflexivity.
Qed.

(** A class among the class definitions adds its ranges to the table. *)
Lemma parse_classes_enc n defs i j c rs cap rs' :
  0 <= defs -> 0 <= i -> defs + (i + Z.of_nat n) * 32 <= zlen img ->
  Forall (range_ok (zlen img) msize) rs -> i <= j < i + Z.of_nat n ->
  0 < le_at 4 img (defs + j * 32 + 24) ->
  bytes_at img (le_at 4 img (defs + j * 32 + 24)) (class_bytes c) -> class_u32 c ->
  parse_classes alloc_ok n img (zlen img) msize defs i rs cap = Ret rs' ->
  forall r, In r (class_ranges img msize c) -> In r rs'.
Proof.
  revert i rs cap. induction n as [|n IH]; intros i rs cap Hd Hi Hl Hrs Hj Ho Hb Hu E r Hr; [lia|].
  cbn [parse_classes] in E. unfold CLASS_DEF_STRIDE in E. apply bind_ret in E as ([rs1 cap1] & E1 & E2).
  assert (Hi0 : 0 <= defs + i * 32) by lia.
  assert (Hi1 : defs + i * 32 + 32 <= zlen img) by lia.
  pose proof (parse_class_spec alloc_ok img msize _ rs cap Hi0 Hi1 Hrs) as H1.
  rewrite E1 in H1. cbn in H1.
  destruct (Z.eq_dec i j) as [->|]; [|apply (IH (i + 1) rs1 cap1); auto; try lia; apply H1].
  destruct (parse_class_enc c _ rs cap Hi0 Hi1 Ho Hb Hu) as [[cap2 E3]|E3]; rewrite E3 in E1;
    [|discriminate]. injection E1 as <- <-.
  pose proof (parse_classes_spec alloc_ok img msize n defs (j + 1)
    (rs ++ class_ranges img msize c) cap2 Hd ltac:(lia) ltac:(lia) (proj1 H1)) as H2.
  rewrite E2 in H2. destruct H2 as [_ [tl ->]]. rewrite !in_app_iff. auto.
Qed.
End Encoded.

Lemma bind_fail_if {A} (b : bool) (r : res A) v : (if b then Fail else r) = Ret v -> b = false /\ r = Ret v.
Proof. destruct b; [discriminate|auto]. Qed.

Lemma rd_u32_bind {B} img off (f : Z -> res B) v :
  rd_u32 img off ≫= f = Ret v -> f (le_at 4 img off) = Ret v.
Proof.
  intros (b & Hb & Hf)%bind_ret. enough (b = le_at 4 img off) as <- by exact Hf.
  unfold rd_u32 in Hb. revert off b Hb Hf. generalize 4%nat as n. intros n off b Hb _. revert off b Hb.
  induction n as [|n IH]; intros off b Hb; cbn [ld_le] in Hb; [now injection Hb|].
  apply bind_ret in Hb as (x & [_ ->]%ld_inv & (y & Hy%IH & [= <-])%bind_ret). subst. reflexivity.
Qed.

(** What a build that succeeded has done. *)
Lemma dex_map_build_inv alloc_ok qsort img m :
  dex_map_build alloc_ok qsort img = Ret m ->
  exists rs,
    parse_classes alloc_ok (Z.to_nat (le_at 4 img OFF_CLASS_DEFS_SIZE)) img (zlen img)
      (method_ids_size m) (le_at 4 img OFF_CLASS_DEFS_OFF) 0 [] 0 = Ret rs /\
    ranges m = dedup_ranges qsort rs /\
    le_at 4 img OFF_CLASS_DEFS_OFF + le_at 4 img OFF_CLASS_DEFS_SIZE * 32 <= zlen img.
Proof.
  unfold dex_map_build. cbv zeta. intros E.
  apply bind_fail_if in E as [_ E]. apply bind_ret in E as (mg & _ & E).
  apply bind_fail_if in E as [_ E]. apply bind_ret in E as (b7 & _ & E).
  apply bind_fail_if in E as [_ E]. do 3 (apply bind_ret in E as (? & _ & E)).
  do 2 (apply bind_fail_if in E as [_ E]). do 8 (apply rd_u32_bind in E).
  apply bind_fail_if in E as [HR E]. apply bind_fail_if in E as [_ E].
  apply bind_ret in E as (rs & Hrs & E). injection E as <-. exists rs.
  cbn [method_ids_size ranges]. split; [exact Hrs|]. split; [reflexivity|].
  b2p. unfold CLASS_DEF_STRIDE in *.
  apply region_ok_spec; [apply (le_at_range 4)|apply (le_at_range 4)|lia|assumption].
Qed.

(** ** Properties *)

(** Whatever bytes the DEX image of a target holds, and whatever allocations
    fail, [dex_map_build] reads only bytes of the image and terminates; the map it
    returns keeps every table inside the image; and every lookup in that map, at
    any offset or method index and for any buffer size, again reads only the image
    and the table, terminates, and yields a string that fits the buffer with its
    terminator. *)
Theorem dex_never_reads_outside (alloc_ok : Z -> bool) (qsort : list method_range -> list method_range)
    (img : list byte) (off idx outsz : Z)
    (Hq : forall l, Permutation l (qsort l))
    (Hlen : zlen img < 2 ^ 62) (Hidx : 0 <= idx) (Hout : 0 <= outsz) :
  wp (dex_map_build alloc_ok qsort img) (fun m =>
    dex_wf m /\
    wp (dex_map_lookup m off outsz) (c_string outsz) /\
    wp (dex_name_by_index m idx outsz) (c_string outsz) /\
    safe (dex_lookup_range m off)).
Proof.
  eapply wp_mono; [now apply dex_map_build_wf|]. intros m [Hw _]. split; [exact Hw|].
  split; [now apply dex_map_lookup_spec|]. split.
  - unfold dex_name_by_index. destruct (outsz =? 0) eqn:E; b2p; [exact I|].
    apply method_idx_to_name_spec; auto; lia.
  - unfold safe, dex_lookup_range. eapply wp_bind; [apply range_bsearch_safe; lia|]. intros; exact I.
Qed.

(** The table of a map built from an image below 4 GiB is sorted, its ranges
    are disjoint, lie inside the image and name a method of the method table; and
    the binary search finds, for every offset, exactly the range of the table that
    holds it, or nothing when none does. *)
Theorem dex_lookup_exact (alloc_ok : Z -> bool) (qsort : list method_range -> list method_range)
    (img : list byte) (off : Z)
    (Hq : forall l, Permutation l (qsort l)) (Hlen : zlen img < 2 ^ 32) :
  wp (dex_map_build alloc_ok qsort img) (fun m =>
    StronglySorted before (ranges m) /\
    Forall (fun r => 0 <= mr_start r <= mr_end r /\ mr_end r <= zlen img /\
                     0 <= mr_idx r < method_ids_size m) (ranges m) /\
    dex_lookup_range m off =
      Ret (option_map (fun r => (mr_idx r, mr_start r)) (List.find (in_range off) (ranges m)))).
Proof.
  eapply wp_mono; [apply dex_map_build_wf; auto; lia|]. intros m [Hw Hi].
  assert (Hl : dlen m = zlen img) by (rewrite <- Hi; apply dw_len, Hw).
  split; [apply dw_srt; [exact Hw|lia]|]. split.
  - pose proof (dw_rng _ Hw) as HR. revert HR. apply List.Forall_impl. intros r [H1 H2].
    rewrite Hl in H2. specialize (H2 Hlen). lia.
  - unfold dex_lookup_range. rewrite find_range_find by (auto; lia). reflexivity.
Qed.

(** C21: no method is lost.  When a class definition of the image points at the
    encoding of a class, every method of that class whose code lies inside the
    image is in the table of the map that is built, unless its code starts inside
    the code of a method that is kept (which only a malformed file has); and every
    offset of a kept range resolves to that range's method. *)
Theorem dex_methods_found (alloc_ok : Z -> bool) (qsort : list method_range -> list method_range)
    (img : list byte) (m : dex_method_map) (j : Z) (c : enc_class) (r : method_range)
    (Hq : forall l, Permutation l (qsort l)) (Hs : forall l, StronglySorted cmp_range (qsort l))
    (Hlen : zlen img < 2 ^ 32) (Hm : dex_map_build alloc_ok qsort img = Ret m)
    (Hj : 0 <= j < le_at 4 img OFF_CLASS_DEFS_SIZE)
    (Ho : 0 < le_at 4 img (le_at 4 img OFF_CLASS_DEFS_OFF + j * 32 + 24))
    (Hb : bytes_at img (le_at 4 img (le_at 4 img OFF_CLASS_DEFS_OFF + j * 32 + 24)) (class_bytes c))
    (Hu : class_u32 c) (Hr : In r (class_ranges img (method_ids_size m) c)) :
  exists k, In k (ranges m) /\ (k = r \/ mr_start k <= mr_start r < mr_end k) /\
    forall off, in_range off k = true -> dex_lookup_range m off = Ret (Some (mr_idx k, mr_start k)).
Proof.
  destruct (dex_map_build_inv _ _ _ _ Hm) as (rs & Hrs & Hm1 & Hd).
  pose proof (dex_map_build_wf alloc_ok qsort img Hq ltac:(lia)) as Hw. rewrite Hm in Hw.
  destruct Hw as [Hw Hi]. assert (Hl : dlen m = zlen img) by (rewrite <- Hi; apply dw_len, Hw).
  pose proof (le_at_range 4 img OFF_CLASS_DEFS_OFF) as H0.
  assert (Hin : In r rs).
  { eapply parse_classes_enc; eauto; try lia. }
  assert (Hok : Forall (range_ok (zlen img) (method_ids_size m)) rs).
  { pose proof (parse_classes_spec alloc_ok img (method_ids_size m) (Z.to_nat (le_at 4 img OFF_CLASS_DEFS_SIZE))
      (le_at 4 img OFF_CLASS_DEFS_OFF) 0 [] 0 ltac:(lia) ltac:(lia) ltac:(lia) ltac:(constructor)) as H.
    rewrite Hrs in H. apply H. }
  destruct (dedup_cover qsort Hq Hs rs r (range_ok_proper _ _ _ Hlen Hok) Hin) as (k & Hk & Hkr).
  rewrite <- Hm1 in Hk. exists k. split; [exact Hk|]. split; [exact Hkr|]. intros off Hoff.
  unfold dex_lookup_range. rewrite find_range_find by (auto; lia). rewrite ret_bind.
  rewrite <- (search_result_find _ off (Some k)); [reflexivity|apply dw_srt; [exact Hw|lia]|now split].
Qed.

(** A DEX file of one class [a.B] with one method [m] of two code units. *)
Definition demo_dex : list byte :=
  [x64; x65; x78; x0a; x30; x33; x35; x00] ++ repeat x00 48 ++
  le_bytes 4 2 ++ le_bytes 4 112 ++ le_bytes 4 1 ++ le_bytes 4 120 ++ repeat x00 16 ++
  le_bytes 4 1 ++ le_bytes 4 124 ++ le_bytes 4 1 ++ le_bytes 4 132 ++ repeat x00 8 ++
  le_bytes 4 196 ++ le_bytes 4 199 ++ le_bytes 4 1 ++ repeat x00 8 ++
  repeat x00 24 ++ le_bytes 4 164 ++ repeat x00 4 ++
  [x00; x00; x01; x00; x00; x01; xb0; x01] ++ repeat x00 4 ++
  repeat x00 12 ++ le_bytes 4 2 ++ repeat x00 4 ++
  [x01; x6d; x00] ++ [x05; x4c; x61; x2f; x42; x3b; x00].
Definition demo_class : enc_class := mk_class [] [] [mk_enc 0 1 176] [].
Definition demo_map : dex_method_map := mk_dex demo_dex 206 112 2 120 1 124 1 [mk_range 192 196 0].

#[local] Instance cmp_range_dec : RelDecision cmp_range.
Proof. intros a b. unfold cmp_range. apply _. Defined.
#[local] Instance cmp_range_total : Total cmp_range.
Proof. intros a b. unfold cmp_range. lia. Qed.
#[local] Instance cmp_range_trans : Transitive cmp_range.
Proof. intros a b c. unfold cmp_range. lia. Qed.

Definition sort_ranges : list method_range -> list method_range := merge_sort cmp_range.
Lemma sort_ranges_perm l : Permutation l (sort_ranges l).
Proof. symmetry. apply merge_sort_Permutation. Qed.
Lemma sort_ranges_sorted l : StronglySorted cmp_range (sort_ranges l).
Proof. apply StronglySorted_merge_sort; apply _. Qed.

Example demo_name :
  dex_map_build (fun _ => true) sort_ranges demo_dex = Ret demo_map /\
  dex_map_lookup demo_map 194 16 = Ret (Some (bytes_of "a.B.m")) /\
  dex_map_lookup demo_map 194 5 = Ret None.
Proof. vm_compute. auto. Qed.

Lemma dex_never_reads_outside_witness :
  wp (dex_map_build (fun _ => true) sort_ranges demo_dex) (fun m =>
    dex_wf m /\ wp (dex_map_lookup m 194 16) (c_string 16) /\
    wp (dex_name_by_index m 7 16) (c_string 16) /\ safe (dex_lookup_range m 194)).
Proof.
  apply (dex_never_reads_outside (fun _ => true) sort_ranges demo_dex 194 7 16 sort_ranges_perm);
    [vm_compute; reflexivity|lia|lia].
Defined.

Lemma dex_lookup_exact_witness :
  dex_lookup_range demo_map 194 = Ret (Some (0, 192)) /\
  wp (dex_map_build (fun _ => true) sort_ranges demo_dex) (fun m =>
    StronglySorted before (ranges m) /\
    Forall (fun r => 0 <= mr_start r <= mr_end r /\ mr_end r <= zlen demo_dex /\
                     0 <= mr_idx r < method_ids_size m) (ranges m) /\
    dex_lookup_range m 194 =
      Ret (option_map (fun r => (mr_idx r, mr_start r)) (List.find (in_range 194) (ranges m)))).
Proof.
  split; [reflexivity|].
  apply (dex_lookup_exact (fun _ => true) sort_ranges demo_dex 194 sort_ranges_perm).
  vm_compute. reflexivity.
Defined.

Lemma dex_methods_found_witness :
  exists k, In k (ranges demo_map) /\
    (k = mk_range 192 196 0 \/ mr_start k <= 192 < mr_end k) /\
    forall off, in_range off k = true -> dex_lookup_range demo_map off = Ret (Some (mr_idx k, mr_start k)).
Proof.
  apply (dex_methods_found (fun _ => true) sort_ranges demo_dex demo_map 0 demo_class (mk_range 192 196 0)
           sort_ranges_perm sort_ranges_sorted).
  - vm_compute. reflexivity.
  - vm_compute. reflexivity.
  - split; [lia|vm_compute; reflexivity].
  - vm_compute. reflexivity.
  - replace (le_at 4 demo_dex _) with 164 by (vm_compute; reflexivity).
    replace (class_bytes demo_class) with [x00; x00; x01; x00; x00; x01; xb0; x01] by (vm_compute; reflexivity).
    cbn [bytes_at]. replace (zlen demo_dex) with 206 by (vm_compute; reflexivity).
    repeat split; lia || (vm_compute; reflexivity).
  - unfold class_u32, method_u32, is_u32, demo_class, zlen. simpl. repeat split; try lia; repeat constructor; simpl; lia.
  - left. vm_compute. reflexivity.
Defined.
