(* ===== verification/SpanStack.v ===== *)
(** * SpanStack: the per-thread span stack (src/common/span_stack.bpf.h)

    Two BPF hash maps hold, for every thread, the depth of its stack of open spans
    and the frames by slot; [span_seq] is the source of span ids.  Map updates
    respect the capacity of the map (an update of a new key in a full map fails,
    and the source ignores the result).  The abstract view of a thread is the list
    of its open frames, innermost first. *)

From Stdlib Require Import ZArith Lia.
From stdpp Require Import base list option numbers gmap fin_maps.
From S2P Require Import Prelude.

Local Open Scope Z_scope.

Definition MAX_SPAN_DEPTH : nat := 32.

Record span_frame := mk_frame {
  entry_addr : Z; entry_sp : Z; timestamp : Z; span_id : Z; parent_span : Z; fargs : list Z
}.

(** The maps of one BPF object; the key of a frame is its thread and slot. *)
Record maps := mk_maps {
  span_depth : gmap Z Z;
  span_frames : gmap (Z * Z) span_frame;
  span_seq : Z;
  coverage_stats : list Z
}.

Definition set_depth (m : maps) d := mk_maps d (span_frames m) (span_seq m) (coverage_stats m).
Definition set_frames (m : maps) f := mk_maps (span_depth m) f (span_seq m) (coverage_stats m).

(** [bpf_map_update_elem] with BPF_ANY on a map of [cap] entries. *)
Definition map_update {K V} `{Countable K} (cap : nat) (k : K) (v : V) (m : gmap K V) : gmap K V :=
  if bool_decide (is_Some (m !! k)) || (size m <? cap)%nat then <[k := v]> m else m.

Definition DEPTH_CAP : nat := 1024.
Definition FRAMES_CAP : nat := 1024 * MAX_SPAN_DEPTH.

Definition COV_TRUNC : nat := 0.
Definition COV_DEPTH_CAP : nat := 1.
Definition COV_SPAN_OPEN : nat := 3.
Definition COV_URET_FIRED : nat := 4.

Definition cov_bump (slot : nat) (m : maps) : maps :=
  mk_maps (span_depth m) (span_frames m) (span_seq m)
    (alter (fun c => u64 (c + 1)) slot (coverage_stats m)).

(** The array map has its one element, so the lookup succeeds. *)
Definition span_next_id (m : maps) : Z * maps :=
  let id := u64 (span_seq m + 1) in
  (id, mk_maps (span_depth m) (span_frames m) id (coverage_stats m)).

Definition span_depth_set (tid depth : Z) (m : maps) : maps :=
  if depth =? 0 then set_depth m (delete tid (span_depth m))
  else set_depth m (map_update DEPTH_CAP tid depth (span_depth m)).

(** The loop of [span_stack_reconcile], [n] turns left. *)
Fixpoint reconcile_loop (n : nat) (tid cur_sp : Z) (m : maps) : maps :=
  match n with
  | O => m
  | S n =>
      match span_depth m !! tid with
      | None => m
      | Some d =>
          if d =? 0 then m else
          let top := u32 (d - 1) in
          match span_frames m !! (tid, top) with
          | None => m
          | Some f =>
              if cur_sp <=? entry_sp f then m else
              let m := set_frames m (delete (tid, top) (span_frames m)) in
              reconcile_loop n tid cur_sp (span_depth_set tid top m)
          end
      end
  end.
Definition span_stack_reconcile (tid cur_sp : Z) (m : maps) : maps :=
  reconcile_loop MAX_SPAN_DEPTH tid cur_sp m.

Definition span_stack_push (tid addr sp ts : Z) (raw : list Z) (m : maps) : Z * maps :=
  let d := default 0 (span_depth m !! tid) in
  if d >=? Z.of_nat MAX_SPAN_DEPTH then (0, cov_bump COV_DEPTH_CAP m) else
  let parent :=
    if d >? 0 then
      match span_frames m !! (tid, u32 (d - 1)) with Some pf => span_id pf | None => 0 end
    else 0 in
  let '(id, m) := span_next_id m in
  let f := mk_frame addr sp ts id parent raw in
  let m := set_frames m (map_update FRAMES_CAP (tid, d) f (span_frames m)) in
  let m := set_depth m (map_update DEPTH_CAP tid (u32 (d + 1)) (span_depth m)) in
  (id, cov_bump COV_SPAN_OPEN m).

Definition span_stack_pop (tid : Z) (m : maps) : maps :=
  match span_depth m !! tid with
  | None => m
  | Some d =>
      if d =? 0 then m else
      let top := u32 (d - 1) in
      span_depth_set tid top (set_frames m (delete (tid, top) (span_frames m)))
  end.

Fixpoint clear_loop (n : nat) (tid s : Z) (fr : gmap (Z * Z) span_frame) : gmap (Z * Z) span_frame :=
  match n with
  | O => fr
  | S n => clear_loop n tid (s + 1) (delete (tid, s) fr)
  end.
Definition span_stack_clear (tid : Z) (m : maps) : maps :=
  let m := set_frames m (clear_loop MAX_SPAN_DEPTH tid 0 (span_frames m)) in
  set_depth m (delete tid (span_depth m)).

Definition span_stack_top_id (tid cur_sp : Z) (m : maps) : Z * maps :=
  let m := span_stack_reconcile tid cur_sp m in
  match span_depth m !! tid with
  | None => (0, m)
  | Some d =>
      if d =? 0 then (0, m) else
      match span_frames m !! (tid, u32 (d - 1)) with
      | Some f => (span_id f, m)
      | None => (0, m)
      end
  end.

(** ** The abstract view *)

(** The frames of the slots below [n], innermost first. *)
Fixpoint frames_below (fr : gmap (Z * Z) span_frame) (tid : Z) (n : nat) : list span_frame :=
  match n with
  | O => []
  | S n => match fr !! (tid, Z.of_nat n) with
           | Some f => f :: frames_below fr tid n
           | None => frames_below fr tid n
           end
  end.
Definition depth_of (m : maps) (tid : Z) : Z := default 0 (span_depth m !! tid).
Definition stack_of (m : maps) (tid : Z) : list span_frame :=
  frames_below (span_frames m) tid (Z.to_nat (depth_of m tid)).

(** The slots below the depth hold frames and no other slot does; only threads
    with an open span have a depth, at most [MAX_SPAN_DEPTH]. *)
Record span_inv (m : maps) : Prop := {
  si_depth : forall tid d, span_depth m !! tid = Some d -> 1 <= d <= Z.of_nat MAX_SPAN_DEPTH;
  si_slots : forall tid s, is_Some (span_frames m !! (tid, s)) <-> 0 <= s < depth_of m tid
}.

(** A thread's depth can be stored. *)
Definition has_room (m : maps) (tid : Z) : Prop :=
  is_Some (span_depth m !! tid) \/ (size (span_depth m) < DEPTH_CAP)%nat.

(** The specification of the operations on a list of frames. *)
Fixpoint drop_returned (cur_sp : Z) (l : list span_frame) : list span_frame :=
  match l with
  | [] => []
  | f :: l' => if cur_sp <=? entry_sp f then l else drop_returned cur_sp l'
  end.
Definition top_span (l : list span_frame) : Z := match l with [] => 0 | f :: _ => span_id f end.

(** ** Lemmas *)

Lemma map_update_in {K V} `{Countable K} cap (k : K) (v : V) (m : gmap K V) :
  is_Some (m !! k) \/ (size m < cap)%nat -> map_update cap k v m = <[k := v]> m.
Proof.
  intros Hk. unfold map_update. destruct Hk as [Hk|Hk].
  - now rewrite bool_decide_true.
  - apply Nat.ltb_lt in Hk. rewrite Hk, orb_true_r. reflexivity.
Qed.

Lemma frames_below_ext fr fr' tid n :
  (forall s, 0 <= s < Z.of_nat n -> fr !! (tid, s) = fr' !! (tid, s)) ->
  frames_below fr tid n = frames_below fr' tid n.
Proof.
  induction n as [|n IH]; intros H; simpl; [reflexivity|].
  rewrite H, IH by (intros; apply H || idtac; lia). reflexivity.
Qed.

Lemma depth_range m tid : span_inv m -> 0 <= depth_of m tid <= 32.
Proof.
  intros Hi. unfold depth_of. destruct (span_depth m !! tid) as [d|] eqn:E; simpl; [|lia].
  pose proof (si_depth _ Hi _ _ E). unfold MAX_SPAN_DEPTH in *. lia.
Qed.

Lemma stack_empty m tid : depth_of m tid = 0 -> stack_of m tid = [].
Proof. unfold stack_of. now intros ->. Qed.

Lemma length_stack m tid : span_inv m -> zlen (stack_of m tid) = depth_of m tid.
Proof.
  intros Hi. pose proof (depth_range m tid Hi) as Hd. unfold stack_of, zlen.
  assert (Hs : forall s, 0 <= s < depth_of m tid -> is_Some (span_frames m !! (tid, s)))
    by (intros; now apply si_slots).
  rewrite <- (Z2Nat.id (depth_of m tid)) at 2 by lia.
  rewrite <- (Z2Nat.id (depth_of m tid)) in Hs by lia. f_equal. clear Hd.
  induction (Z.to_nat (depth_of m tid)) as [|n IH]; simpl; [reflexivity|].
  destruct (Hs (Z.of_nat n)) as [f ->]; [lia|]. simpl. rewrite IH; [reflexivity|].
  intros s Hs'. apply Hs. lia.
Qed.

(** The stack of a thread that has one. *)
Lemma depth_some m tid d :
  span_inv m -> span_depth m !! tid = Some d -> depth_of m tid = d /\ 1 <= d <= 32 /\ u32 (d - 1) = d - 1.
Proof.
  intros Hi E. pose proof (si_depth _ Hi _ _ E) as Hd. unfold MAX_SPAN_DEPTH in Hd.
  unfold depth_of. rewrite E. split; [reflexivity|]. split; [lia|]. apply u32_small. lia.
Qed.

Lemma stack_cons m tid d :
  span_inv m -> span_depth m !! tid = Some d ->
  exists f, span_frames m !! (tid, d - 1) = Some f /\
            stack_of m tid = f :: frames_below (span_frames m) tid (Z.to_nat (d - 1)).
Proof.
  intros Hi E. destruct (depth_some _ _ _ Hi E) as (Hd & Hr & _).
  destruct (proj2 (si_slots _ Hi tid (d - 1))) as [f Hf]; [lia|]. exists f. split; [exact Hf|].
  unfold stack_of. rewrite Hd. replace (Z.to_nat d) with (S (Z.to_nat (d - 1))) by lia.
  simpl frames_below. rewrite Z2Nat.id by lia. now rewrite Hf.
Qed.

(** A thread without a depth has no frames. *)
Lemma depth_none m tid : span_depth m !! tid = None -> depth_of m tid = 0 /\ stack_of m tid = [].
Proof. intros E. unfold stack_of, depth_of. now rewrite E. Qed.

(** Two states agree on a thread. *)
Definition same_stack (m m' : maps) (tid : Z) : Prop :=
  depth_of m' tid = depth_of m tid /\ stack_of m' tid = stack_of m tid.

Lemma depth_of_set tid d m t :
  span_inv m -> is_Some (span_depth m !! tid) \/ (size (span_depth m) < DEPTH_CAP)%nat ->
  depth_of (span_depth_set tid d m) t = if decide (t = tid) then d else depth_of m t.
Proof.
  intros Hi Hr. unfold depth_of, span_depth_set. destruct (Z.eqb_spec d 0) as [->|]; simpl.
  - destruct (decide (t = tid)) as [->|]; [now rewrite lookup_delete_eq|now rewrite lookup_delete_ne].
  - rewrite map_update_in by auto.
    destruct (decide (t = tid)) as [->|]; [now rewrite lookup_insert_eq|now rewrite lookup_insert_ne].
Qed.

(** [m'] is [m] with the stack of [tid] replaced by [l]. *)
Record restacked (m m' : maps) (tid : Z) (l : list span_frame) : Prop := {
  rs_inv : span_inv m';
  rs_stack : stack_of m' tid = l;
  rs_other : forall t, t <> tid -> stack_of m' t = stack_of m t;
  rs_dom : dom (span_depth m') ⊆ dom (span_depth m) ∪ {[tid]}
}.

Lemma restacked_refl m tid : span_inv m -> restacked m m tid (stack_of m tid).
Proof. intros Hi. constructor; auto. set_solver. Qed.

Lemma restacked_trans m1 m2 m3 tid l1 l2 :
  restacked m1 m2 tid l1 -> restacked m2 m3 tid l2 -> restacked m1 m3 tid l2.
Proof.
  intros H1 H2. constructor; [apply H2|apply H2| |].
  - intros t Ht. rewrite (rs_other _ _ _ _ H2 t Ht). now apply (rs_other _ _ _ _ H1).
  - intros x [Hx| ->%elem_of_singleton]%(rs_dom _ _ _ _ H2)%elem_of_union;
      [now apply (rs_dom _ _ _ _ H1)|apply elem_of_union_r; now apply elem_of_singleton].
Qed.

(** Counters and ids do not touch the stacks. *)
Lemma restacked_maps m m' m'' tid l :
  restacked m m' tid l -> span_depth m'' = span_depth m' -> span_frames m'' = span_frames m' ->
  restacked m m'' tid l.
Proof.
  intros [Hi Hs Ho Hd] Ed Ef. assert (Es : forall t, stack_of m'' t = stack_of m' t).
  { intros t. unfold stack_of, depth_of. now rewrite Ed, Ef. }
  constructor; [|now rewrite Es|intros; rewrite Es; auto|now rewrite Ed].
  destruct Hi as [H1 H2]. constructor; unfold depth_of in *; rewrite ?Ed, ?Ef; auto.
Qed.

Lemma frames_below_insert_ge fr tid s f t n :
  t <> tid \/ Z.of_nat n <= s -> frames_below (<[(tid, s) := f]> fr) t n = frames_below fr t n.
Proof.
  intros H. apply frames_below_ext. intros s' Hs'. apply lookup_insert_ne. intros [= -> ->]. lia.
Qed.
Lemma frames_below_delete_ge fr tid s t n :
  t <> tid \/ Z.of_nat n <= s -> frames_below (delete (tid, s) fr) t n = frames_below fr t n.
Proof.
  intros H. apply frames_below_ext. intros s' Hs'. apply lookup_delete_ne. intros [= -> ->]. lia.
Qed.

(** Taking the top frame away. *)
Lemma drop_top_spec m tid d :
  span_inv m -> span_depth m !! tid = Some d ->
  restacked m (span_depth_set tid (d - 1) (set_frames m (delete (tid, d - 1) (span_frames m)))) tid
    (frames_below (span_frames m) tid (Z.to_nat (d - 1))).
Proof.
  intros Hi E. destruct (depth_some _ _ _ Hi E) as (Hd & Hr & _).
  set (m1 := set_frames m _). set (m' := span_depth_set tid (d - 1) m1).
  assert (Hdep : forall t, depth_of m' t = if decide (t = tid) then d - 1 else depth_of m t).
  { intros t. unfold depth_of, m', span_depth_set. destruct (Z.eqb_spec (d - 1) 0) as [->|]; simpl.
    - destruct (decide (t = tid)) as [->|]; [now rewrite lookup_delete_eq|now rewrite lookup_delete_ne].
    - rewrite map_update_in by (left; simpl; eauto).
      destruct (decide (t = tid)) as [->|]; [now rewrite lookup_insert_eq|now rewrite lookup_insert_ne]. }
  assert (Hfr : span_frames m' = delete (tid, d - 1) (span_frames m)).
  { unfold m', span_depth_set. destruct (_ =? 0); reflexivity. }
  constructor.
  - constructor.
    + intros t dt. unfold m', span_depth_set, MAX_SPAN_DEPTH. destruct (Z.eqb_spec (d - 1) 0); simpl.
      * intros [_ H]%lookup_delete_Some. apply (si_depth _ Hi _ _ H).
      * rewrite map_update_in by (left; simpl; eauto).
        intros [[<- <-]|[_ H]]%lookup_insert_Some; [lia|apply (si_depth _ Hi _ _ H)].
    + intros t s. rewrite Hdep, Hfr. destruct (decide (t = tid)) as [->|Hne].
      * destruct (decide (s = d - 1)) as [->|].
        -- rewrite lookup_delete_eq. split; [intros [? ?]; discriminate|lia].
        -- rewrite lookup_delete_ne by congruence. rewrite (si_slots _ Hi), Hd. lia.
      * rewrite lookup_delete_ne by congruence. apply (si_slots _ Hi).
  - unfold stack_of. rewrite Hdep, decide_True, Hfr by auto. apply frames_below_delete_ge. lia.
  - intros t Ht. unfold stack_of. rewrite Hdep, decide_False, Hfr by auto.
    apply frames_below_delete_ge. auto.
  - unfold m', span_depth_set. destruct (_ =? 0); simpl; [set_solver|].
    rewrite map_update_in by (left; simpl; eauto). simpl. set_solver.
Qed.

Lemma span_stack_pop_spec m tid :
  span_inv m -> restacked m (span_stack_pop tid m) tid (tail (stack_of m tid)).
Proof.
  intros Hi. unfold span_stack_pop. destruct (span_depth m !! tid) as [d|] eqn:E.
  - destruct (depth_some _ _ _ Hi E) as (Hd & Hr & Hu).
    destruct (stack_cons _ _ _ Hi E) as (f & _ & ->). simpl tail.
    destruct (Z.eqb_spec d 0); [lia|]. cbv zeta. rewrite Hu. now apply drop_top_spec.
  - destruct (depth_none _ _ E) as [_ Hs]. rewrite Hs. simpl. rewrite <- Hs at 1. now apply restacked_refl.
Qed.

Lemma reconcile_loop_spec n m tid sp :
  span_inv m -> (length (stack_of m tid) <= n)%nat ->
  restacked m (reconcile_loop n tid sp m) tid (drop_returned sp (stack_of m tid)).
Proof.
  revert m. induction n as [|n IH]; intros m Hi Hn; simpl.
  { destruct (stack_of m tid) eqn:E; [|simpl in Hn; lia]. simpl. rewrite <- E. now apply restacked_refl. }
  destruct (span_depth m !! tid) as [d|] eqn:E.
  2:{ destruct (depth_none _ _ E) as [_ Hs]. rewrite Hs. simpl. rewrite <- Hs at 1. now apply restacked_refl. }
  destruct (depth_some _ _ _ Hi E) as (Hd & Hr & Hu).
  destruct (stack_cons _ _ _ Hi E) as (f & Hf & Hs). rewrite Hs in *.
  destruct (Z.eqb_spec d 0); [lia|]. rewrite Hu, Hf. simpl drop_returned.
  destruct (sp <=? entry_sp f).
  - rewrite <- Hs. now apply restacked_refl.
  - pose proof (drop_top_spec m tid d Hi E) as Ht. eapply restacked_trans; [exact Ht|].
    rewrite <- (rs_stack _ _ _ _ Ht). apply IH; [apply Ht|].
    rewrite (rs_stack _ _ _ _ Ht). simpl in Hn. lia.
Qed.

Lemma span_stack_reconcile_spec m tid sp :
  span_inv m -> restacked m (span_stack_reconcile tid sp m) tid (drop_returned sp (stack_of m tid)).
Proof.
  intros Hi. apply reconcile_loop_spec; [exact Hi|]. pose proof (length_stack m tid Hi).
  pose proof (depth_range m tid Hi). unfold MAX_SPAN_DEPTH, zlen in *. lia.
Qed.

(** The frames of [k] threads fit [k * MAX_SPAN_DEPTH] slots. *)
Definition slots (T : gset Z) : list (Z * Z) :=
  t ← elements T; s ← seq 0 MAX_SPAN_DEPTH; [(t, Z.of_nat s)].

Lemma length_slots T : length (slots T) = (size T * MAX_SPAN_DEPTH)%nat.
Proof.
  unfold slots, size, set_size. simpl. induction (elements T) as [|t l IH]; [reflexivity|].
  cbn [mbind list_bind]. rewrite length_app, IH. reflexivity.
Qed.

Lemma elem_of_slots T t s : t ∈ T -> 0 <= s < Z.of_nat MAX_SPAN_DEPTH -> (t, s) ∈ slots T.
Proof.
  intros Ht Hs. unfold slots. apply list_elem_of_bind. exists t. split; [|now apply elem_of_elements].
  apply list_elem_of_bind. exists (Z.to_nat s). split; [|apply elem_of_seq; lia].
  rewrite Z2Nat.id by lia. now apply list_elem_of_singleton.
Qed.

Lemma size_slots (X : gset (Z * Z)) (T : gset Z) :
  (forall t s, (t, s) ∈ X -> t ∈ T /\ 0 <= s < Z.of_nat MAX_SPAN_DEPTH) ->
  (size X <= size T * MAX_SPAN_DEPTH)%nat.
Proof.
  intros H. rewrite <- length_slots. unfold size, set_size. simpl.
  apply submseteq_length, NoDup_submseteq; [apply NoDup_elements|].
  intros [t s] Hx%elem_of_elements. destruct (H t s Hx). now apply elem_of_slots.
Qed.

(** The frame map has room whenever the depth map has. *)
Lemma frames_room m tid :
  span_inv m -> has_room m tid -> (size (span_depth m) <= DEPTH_CAP)%nat -> depth_of m tid < 32 ->
  (size (span_frames m) < FRAMES_CAP)%nat.
Proof.
  intros Hi Hr Hc Hd. pose proof (depth_range m tid Hi) as H0.
  set (T := dom (span_depth m) ∪ {[tid]}). set (X := dom (span_frames m) ∪ {[(tid, depth_of m tid)]}).
  assert (HT : (size T <= DEPTH_CAP)%nat).
  { unfold T. destruct Hr as [Hr|Hr].
    - replace (dom (span_depth m) ∪ {[tid]}) with (dom (span_depth m)); [now rewrite size_dom|].
      apply elem_of_dom in Hr. set_solver.
    - pose proof (size_union_alt (dom (span_depth m)) ({[tid]} : gset Z)) as HU.
      pose proof (subseteq_size (({[tid]} : gset Z) ∖ dom (span_depth m)) {[tid]} ltac:(set_solver)) as HS.
      rewrite size_singleton in HS. rewrite size_dom in HU. lia. }
  assert (HX : size X = S (size (span_frames m))).
  { unfold X. rewrite size_union, size_singleton, size_dom; [lia|].
    apply disjoint_singleton_r. intros Hin%elem_of_dom. apply (si_slots _ Hi) in Hin. lia. }
  pose proof (size_slots X T) as HS. unfold FRAMES_CAP, MAX_SPAN_DEPTH, DEPTH_CAP in *.
  enough (size X <= size T * 32)%nat by lia. apply HS. intros t s Hin.
  apply elem_of_union in Hin as [Hin|Hin].
  - apply elem_of_dom, (si_slots _ Hi) in Hin. pose proof (depth_range m t Hi). split; [|lia].
    apply elem_of_union_l, elem_of_dom. unfold depth_of in Hin.
    destruct (span_depth m !! t); [eauto|simpl in Hin; lia].
  - apply elem_of_singleton in Hin as [= -> ->]. split; [|lia]. set_solver.
Qed.

Definition new_frame (m : maps) (tid addr sp ts : Z) (raw : list Z) : span_frame :=
  mk_frame addr sp ts (u64 (span_seq m + 1)) (top_span (stack_of m tid)) raw.

Lemma push_parent m tid :
  span_inv m ->
  (if depth_of m tid >? 0
   then match span_frames m !! (tid, u32 (depth_of m tid - 1)) with
        | Some pf => span_id pf | None => 0 end
   else 0) = top_span (stack_of m tid).
Proof.
  intros Hi. destruct (span_depth m !! tid) as [d|] eqn:E.
  - destruct (depth_some _ _ _ Hi E) as (-> & Hr & ->). destruct (stack_cons _ _ _ Hi E) as (f & -> & ->).
    rewrite Z.gtb_ltb, (proj2 (Z.ltb_lt 0 d)) by lia. reflexivity.
  - destruct (depth_none _ _ E) as [-> ->]. reflexivity.
Qed.

(** Pushing below the cap. *)
Lemma span_stack_push_spec m tid addr sp ts raw :
  span_inv m -> has_room m tid -> (size (span_depth m) <= DEPTH_CAP)%nat -> depth_of m tid < 32 ->
  let '(id, m') := span_stack_push tid addr sp ts raw m in
  id = u64 (span_seq m + 1) /\ span_seq m' = id /\
  coverage_stats m' = alter (fun c => u64 (c + 1)) COV_SPAN_OPEN (coverage_stats m) /\
  restacked m m' tid (new_frame m tid addr sp ts raw :: stack_of m tid).
Proof.
  intros Hi Hroom Hc Hd. pose proof (depth_range m tid Hi) as H0.
  unfold span_stack_push. fold (depth_of m tid). cbv zeta.
  rewrite Z.geb_leb, (proj2 (Z.leb_gt _ _)) by (unfold MAX_SPAN_DEPTH; lia).
  rewrite (push_parent m tid Hi). unfold span_next_id.
  split; [reflexivity|]. split; [reflexivity|]. split; [reflexivity|].
  set (d := depth_of m tid) in *. fold (new_frame m tid addr sp ts raw).
  cbn [set_frames set_depth span_frames span_depth span_seq coverage_stats cov_bump].
  rewrite (map_update_in FRAMES_CAP) by (right; eapply frames_room; eauto).
  rewrite map_update_in by exact Hroom. rewrite u32_small by lia.
  set (m' := cov_bump _ _).
  assert (Hdep : forall t, depth_of m' t = if decide (t = tid) then d + 1 else depth_of m t).
  { intros t. unfold depth_of, m'. simpl.
    destruct (decide (t = tid)) as [->|]; [now rewrite lookup_insert_eq|now rewrite lookup_insert_ne]. }
  constructor.
  - constructor.
    + intros t dt. simpl. intros [[<- <-]|[_ H]]%lookup_insert_Some; [unfold MAX_SPAN_DEPTH; lia|].
      apply (si_depth _ Hi _ _ H).
    + intros t s. rewrite Hdep. simpl. destruct (decide ((tid, d) = (t, s))) as [[= <- <-]|Hne].
      * rewrite lookup_insert_eq, decide_True by auto. split; [lia|eauto].
      * rewrite lookup_insert_ne by auto. rewrite (si_slots _ Hi).
        destruct (decide (t = tid)) as [->|]; [fold d; assert (s <> d) by congruence; lia|reflexivity].
  - unfold stack_of at 1. rewrite Hdep, decide_True by auto.
    replace (Z.to_nat (d + 1)) with (S (Z.to_nat d)) by lia. simpl frames_below.
    rewrite Z2Nat.id, lookup_insert_eq by lia. f_equal. apply frames_below_insert_ge. lia.
  - intros t Ht. unfold stack_of at 1. rewrite Hdep, decide_False by auto.
    apply frames_below_insert_ge. auto.
  - simpl. rewrite dom_insert_L. set_solver.
Qed.

(** At the cap nothing is pushed. *)
Lemma span_stack_push_full m tid addr sp ts raw :
  span_inv m -> depth_of m tid = 32 ->
  span_stack_push tid addr sp ts raw m = (0, cov_bump COV_DEPTH_CAP m) /\
  restacked m (cov_bump COV_DEPTH_CAP m) tid (stack_of m tid).
Proof.
  intros Hi Hd. unfold span_stack_push. fold (depth_of m tid). rewrite Hd. split; [reflexivity|].
  eapply restacked_maps; [now apply restacked_refl|reflexivity|reflexivity].
Qed.

Lemma clear_loop_lookup n tid s fr t x :
  clear_loop n tid s fr !! (t, x) =
  if decide (t = tid /\ s <= x < s + Z.of_nat n) then None else fr !! (t, x).
Proof.
  revert s fr. induction n as [|n IH]; intros s fr; cbn [clear_loop].
  { rewrite decide_False by lia. reflexivity. }
  rewrite IH. destruct (decide (t = tid /\ s + 1 <= x < s + 1 + Z.of_nat n)).
  - rewrite decide_True by lia. reflexivity.
  - destruct (decide (t = tid /\ x = s)) as [[-> ->]|].
    + rewrite lookup_delete_eq, decide_True by lia. reflexivity.
    + rewrite lookup_delete_ne, decide_False by (try intros [= <- <-]; lia). reflexivity.
Qed.

#[local] Arguments clear_loop : simpl never.

Lemma span_stack_clear_spec m tid : span_inv m -> restacked m (span_stack_clear tid m) tid [].
Proof.
  intros Hi. unfold span_stack_clear. cbv zeta. set (m' := set_depth _ _).
  assert (Hdep : forall t, depth_of m' t = if decide (t = tid) then 0 else depth_of m t).
  { intros t. unfold depth_of, m'. simpl.
    destruct (decide (t = tid)) as [->|]; [now rewrite lookup_delete_eq|now rewrite lookup_delete_ne]. }
  assert (Hfr : forall t x, span_frames m' !! (t, x) = if decide (t = tid) then None else span_frames m !! (t, x)).
  { intros t x. change (span_frames m') with (clear_loop MAX_SPAN_DEPTH tid 0 (span_frames m)).
    rewrite clear_loop_lookup.
    destruct (decide (t = tid)) as [->|]; [|rewrite decide_False by tauto; reflexivity].
    destruct (decide (tid = tid /\ _)) as [|Hn]; [reflexivity|].
    apply eq_None_not_Some. intros Hs. apply (si_slots _ Hi) in Hs. pose proof (depth_range m tid Hi).
    apply Hn. unfold MAX_SPAN_DEPTH. lia. }
  constructor.
  - constructor.
    + intros t d. simpl. intros [_ H]%lookup_delete_Some. apply (si_depth _ Hi _ _ H).
    + intros t s. rewrite Hdep, Hfr. destruct (decide (t = tid)); [|apply (si_slots _ Hi)].
      split; [intros [? ?]; discriminate|lia].
  - unfold stack_of. rewrite Hdep, decide_True by auto. reflexivity.
  - intros t Ht. unfold stack_of. rewrite Hdep, decide_False by auto. apply frames_below_ext.
    intros s _. rewrite Hfr, decide_False by auto. reflexivity.
  - simpl. rewrite dom_delete_L. intros x Hx%elem_of_difference. apply elem_of_union_l, Hx.
Qed.

(** The innermost open span after a look at a thread. *)
Lemma top_of_stack m tid :
  span_inv m ->
  match span_depth m !! tid with
  | None => 0
  | Some d => if d =? 0 then 0 else
      match span_frames m !! (tid, u32 (d - 1)) with Some f => span_id f | None => 0 end
  end = top_span (stack_of m tid).
Proof.
  intros Hi. destruct (span_depth m !! tid) as [d|] eqn:E.
  - destruct (depth_some _ _ _ Hi E) as (_ & Hr & ->). destruct (stack_cons _ _ _ Hi E) as (f & -> & ->).
    destruct (Z.eqb_spec d 0); [lia|reflexivity].
  - now destruct (depth_none _ _ E) as [_ ->].
Qed.

Lemma span_stack_top_id_spec m tid sp :
  span_inv m ->
  let '(id, m') := span_stack_top_id tid sp m in
  m' = span_stack_reconcile tid sp m /\ id = top_span (drop_returned sp (stack_of m tid)).
Proof.
  intros Hi. pose proof (span_stack_reconcile_spec m tid sp Hi) as Hr.
  unfold span_stack_top_id. cbv zeta. set (m' := span_stack_reconcile tid sp m) in *.
  rewrite <- (rs_stack _ _ _ _ Hr), <- (top_of_stack m' tid (rs_inv _ _ _ _ Hr)).
  destruct (span_depth m' !! tid); [|auto]. destruct (_ =? 0); [auto|].
  destruct (span_frames m' !! _); auto.
Qed.

(** The ids and counters that the loops leave alone. *)
Lemma span_depth_set_seq tid d m :
  span_seq (span_depth_set tid d m) = span_seq m /\
  coverage_stats (span_depth_set tid d m) = coverage_stats m.
Proof. unfold span_depth_set. destruct (_ =? 0); auto. Qed.

Lemma reconcile_seq tid sp m :
  span_seq (span_stack_reconcile tid sp m) = span_seq m /\
  coverage_stats (span_stack_reconcile tid sp m) = coverage_stats m.
Proof.
  unfold span_stack_reconcile. generalize MAX_SPAN_DEPTH as n. intros n. revert m.
  induction n as [|n IH]; intros m; simpl; [auto|].
  destruct (span_depth m !! tid); [|auto]. destruct (_ =? 0); [auto|].
  destruct (span_frames m !! _); [|auto]. destruct (_ <=? _); [auto|].
  set (m1 := set_frames m (delete (tid, u32 (z - 1)) (span_frames m))).
  destruct (IH (span_depth_set tid (u32 (z - 1)) m1)) as [-> ->].
  destruct (span_depth_set_seq tid (u32 (z - 1)) m1) as [-> ->]. auto.
Qed.

(** ** Properties *)

(** C31: the two BPF hash maps implement a stack of frames per thread.  In every
    state where the slots below each depth, and no others, hold frames, the
    operations keep that so and act on the thread's own list of open frames:
    reconciling drops the innermost frames whose entry SP is below the current SP,
    popping drops the top, clearing empties the list, and pushing adds a frame
    with a fresh id whose parent is the previous top, or, at the cap of 32, adds
    nothing and returns 0.  The stacks of all other threads are untouched, and the
    frame map is never full as long as the depth map can take the thread. *)
Theorem span_stack_refines_list (m : maps) (tid addr sp ts : Z) (raw : list Z)
    (Hinv : span_inv m) (Hroom : has_room m tid) (Hcap : (size (span_depth m) <= DEPTH_CAP)%nat) :
  restacked m (span_stack_reconcile tid sp m) tid (drop_returned sp (stack_of m tid)) /\
  restacked m (span_stack_pop tid m) tid (tail (stack_of m tid)) /\
  restacked m (span_stack_clear tid m) tid [] /\
  fst (span_stack_top_id tid sp m) = top_span (drop_returned sp (stack_of m tid)) /\
  let '(id, m') := span_stack_push tid addr sp ts raw m in
  if zlen (stack_of m tid) <? 32 then
    id = u64 (span_seq m + 1) /\
    restacked m m' tid (mk_frame addr sp ts id (top_span (stack_of m tid)) raw :: stack_of m tid)
  else id = 0 /\ restacked m m' tid (stack_of m tid).
Proof.
  split; [now apply span_stack_reconcile_spec|]. split; [now apply span_stack_pop_spec|].
  split; [now apply span_stack_clear_spec|]. split.
  { pose proof (span_stack_top_id_spec m tid sp Hinv) as H. destruct (span_stack_top_id tid sp m). apply H. }
  rewrite length_stack by auto. pose proof (depth_range m tid Hinv). destruct (depth_of m tid <? 32) eqn:E; b2p.
  - pose proof (span_stack_push_spec m tid addr sp ts raw Hinv Hroom Hcap E) as H1.
    destruct (span_stack_push tid addr sp ts raw m) as [id m']. destruct H1 as (-> & _ & _ & H1). auto.
  - destruct (span_stack_push_full m tid addr sp ts raw Hinv ltac:(lia)) as [-> H1]. auto.
Qed.

Definition maps_empty : maps := mk_maps ∅ ∅ 0 [0; 0; 0; 0; 0].
Lemma maps_empty_inv : span_inv maps_empty.
Proof.
  constructor; simpl.
  - intros tid d H. rewrite lookup_empty in H. discriminate.
  - intros tid s. rewrite lookup_empty. unfold depth_of. simpl. rewrite lookup_empty. simpl.
    split; [intros [? ?]; discriminate|lia].
Qed.

(** Thread 7 inside two nested probed functions. *)
Definition demo_maps : maps :=
  snd (span_stack_push 7 0x4100 0x7f00 20 [] (snd (span_stack_push 7 0x4000 0x7f40 10 [] maps_empty))).

Lemma demo_maps_inv : span_inv demo_maps.
Proof.
  assert (Hr : forall m, (size (span_depth m) < 2)%nat -> has_room m 7) by (right; unfold DEPTH_CAP; lia).
  pose proof (span_stack_push_spec maps_empty 7 0x4000 0x7f40 10 [] maps_empty_inv) as H1.
  unfold demo_maps. destruct (span_stack_push 7 0x4000 0x7f40 10 [] maps_empty) as [id1 m1] eqn:E1.
  destruct H1 as (_ & _ & _ & H1);
    [apply Hr; vm_compute; lia|vm_compute; lia|vm_compute; reflexivity|].
  injection E1 as _ Em. simpl snd.
  pose proof (span_stack_push_spec m1 7 0x4100 0x7f00 20 [] (rs_inv _ _ _ _ H1)) as H2.
  destruct (span_stack_push 7 0x4100 0x7f00 20 [] m1) as [id2 m2].
  destruct H2 as (_ & _ & _ & H2); [apply Hr|..|apply H2]; rewrite <- Em; vm_compute; try lia; reflexivity.
Qed.

Lemma span_stack_refines_list_witness :
  map span_id (stack_of demo_maps 7) = [2; 1] /\
  stack_of (span_stack_reconcile 7 0x7f20 demo_maps) 7 = [mk_frame 0x4000 0x7f40 10 1 0 []] /\
  restacked demo_maps (span_stack_pop 7 demo_maps) 7 (tail (stack_of demo_maps 7)).
Proof.
  split; [vm_compute; reflexivity|]. split; [vm_compute; reflexivity|].
  apply (span_stack_refines_list demo_maps 7 0 0 0 [] demo_maps_inv);
    [left; vm_compute; eauto|vm_compute; lia].
Defined.
