(* ===== verification/Correlate.v ===== *)
(** * Correlate: the span-gated event handlers (src/correlate/correlate.bpf.c)

    The three BPF programs of [anubee correlate] as functions on the span maps,
    the ring buffer and the drop counter: function entry opens a span, a syscall
    is tagged with the innermost open span of its thread, function return closes
    it.  What a program reads of the machine (registers, clock, user memory,
    whether the ring buffer has room) is the context it is invoked with. *)

From Stdlib Require Import ZArith Lia.
From Stdlib Require Import Sorted.
From stdpp Require Import base list option numbers gmap fin_maps.
From S2P Require Import Prelude SpanStack.

Local Open Scope Z_scope.

Definition CORR_NUM_ARGS : nat := 8.
Definition CORR_SYS_ARGS : nat := 6.
Definition CORR_STR_SLOTS : nat := 4.
Definition CORR_STR_MAX : nat := 256.
Definition CORR_SOCK_MAX := 64.
Definition ARG_TYPES_MAX := 512.

Record corr_func_event := mk_func_event {
  fe_pid : Z; fe_tid : Z; fe_span : Z; fe_parent : Z; fe_addr : Z; fe_ktime : Z; fe_args : list Z
}.
(** [se_str] holds [None] for a slot the handler does not write. *)
Record corr_syscall_event := mk_syscall_event {
  se_pid : Z; se_tid : Z; se_span : Z; se_nr : Z; se_ktime : Z; se_args : list Z;
  se_str_present : Z; se_str : list (option (list byte)); se_sock_len : Z; se_sock : list byte
}.
Record corr_return_event := mk_return_event {
  re_pid : Z; re_tid : Z; re_span : Z; re_addr : Z; re_retval : Z; re_elapsed : Z; re_ktime : Z
}.
Inductive corr_event :=
| EvFunc (e : corr_func_event)
| EvSyscall (e : corr_syscall_event)
| EvReturn (e : corr_return_event).

(** What one invocation sees.  [c_str] and [c_mem] are the user-memory reads:
    [c_str p] the string at [p] when the read returns a positive length, [c_mem p n]
    the [n] bytes at [p] when they can be read. *)
Record ctx := mk_ctx {
  c_uid : Z; c_id : Z; c_pc : Z; c_sp : Z; c_regs : list Z; c_now : Z; c_reserve : bool;
  c_str : Z -> option (list byte); c_mem : Z -> Z -> option (list byte)
}.
Definition reg (c : ctx) (i : nat) : Z := nth i (c_regs c) 0.
Definition c_tid (c : ctx) : Z := u32 (c_id c).
Definition c_pid (c : ctx) : Z := u32 (Z.shiftr (c_id c) 32).

Record corr := mk_corr { cm : maps; events : list corr_event; dropped : Z }.

Definition submit (m : maps) (e : corr_event) (s : corr) : corr := mk_corr m (events s ++ [e]) (dropped s).
Definition bump_dropped (m : maps) (s : corr) : corr := mk_corr m (events s) (u64 (dropped s + 1)).
Definition quiet (m : maps) (s : corr) : corr := mk_corr m (events s) (dropped s).

Section Handlers.
Context (target_uids target_pids : gset Z) (arg_types sock_args : list Z).

Definition uid_matches (c : ctx) : bool := bool_decide (u32 (c_uid c) ∈ target_uids).
Definition pid_matches (c : ctx) : bool := bool_decide (c_pid c ∈ target_pids).

(** The programs' gate: neither a traced uid nor a traced process. *)
Definition gate (c : ctx) : bool := negb (uid_matches c) && negb (pid_matches c).

(** The entry program after the reconciliation that left [m]. *)
Definition entry_open (c : ctx) (m : maps) (s : corr) : corr :=
  let tid := c_tid c in
  let raw := map (reg c) (seq 0 CORR_NUM_ARGS) in
  let '(sid, m) := span_stack_push tid (c_pc c) (c_sp c) (c_now c) raw m in
  if sid =? 0 then quiet m s else
  let parent :=
    match span_depth m !! tid with
    | Some d => if d >=? 1 then
                  match span_frames m !! (tid, u32 (d - 1)) with Some tf => parent_span tf | None => 0 end
                else 0
    | None => 0
    end in
  if negb (c_reserve c) then bump_dropped m s
  else submit m (EvFunc (mk_func_event (c_pid c) tid sid parent (c_pc c) (c_now c) raw)) s.

Definition corr_uprobe_entry (c : ctx) (s : corr) : corr :=
  if gate c then s else
  entry_open c (span_stack_reconcile (c_tid c) (c_sp c) (cm s)) s.

(** String arguments: the slots written and the mask of those that hold a string. *)
Fixpoint read_strings (c : ctx) (mask : Z) (args : list Z) (i : nat) (n : nat) (present : Z)
  : Z * list (option (list byte)) :=
  match n with
  | O => (present, [])
  | S n =>
      if negb (Z.testbit mask (Z.of_nat i)) then
        let '(p, l) := read_strings c mask args (S i) n present in (p, None :: l)
      else
        match c_str c (nth i args 0) with
        | Some str =>
            let '(p, l) := read_strings c mask args (S i) n (Z.lor present (Z.shiftl 1 (Z.of_nat i))) in
            (p, Some (take (CORR_STR_MAX - 1) str) :: l)
        | None =>
            let '(p, l) := read_strings c mask args (S i) n present in (p, Some [] :: l)
        end
  end.

(** The socket address argument of index [sidx - 1] and its length. *)
Definition read_sock (c : ctx) (sidx : Z) (args : list Z) : Z * list byte :=
  if sidx =? 0 then (0, []) else
  let '(ptr, alen) :=
    if sidx <? Z.of_nat CORR_SYS_ARGS
    then (nth (Z.to_nat (sidx - 1)) args 0, nth (Z.to_nat sidx) args 0) else (0, 0) in
  if (ptr =? 0) || (alen =? 0) then (0, []) else
  let cnt := Z.land (u32 alen) (CORR_SOCK_MAX - 1) in
  if cnt =? 0 then (0, []) else
  match c_mem c ptr cnt with Some b => (cnt, b) | None => (0, []) end.

Definition table_at (t : list Z) (nr : Z) : Z :=
  if nr <? ARG_TYPES_MAX then nth (Z.to_nat nr) t 0 else 0.

Definition syscall_event (c : ctx) (span : Z) : corr_event :=
  let args := map (reg c) (seq 0 CORR_SYS_ARGS) in
  let nr32 := u32 (reg c 8) in
  let mask := table_at arg_types nr32 in
  let '(present, strs) :=
    if mask =? 0 then (0, replicate CORR_STR_SLOTS None) else read_strings c mask args 0 CORR_STR_SLOTS 0 in
  let '(sock_len, sock) := read_sock c (table_at sock_args nr32) args in
  EvSyscall (mk_syscall_event (c_pid c) (c_tid c) span (reg c 8) (c_now c) args present strs sock_len sock).

Definition corr_on_svc (c : ctx) (s : corr) : corr :=
  if gate c then s else
  let '(span, m) := span_stack_top_id (c_tid c) (c_sp c) (cm s) in
  if span =? 0 then quiet m s else
  if negb (c_reserve c) then bump_dropped m s
  else submit m (syscall_event c span) s.

Definition corr_uretprobe_ret (c : ctx) (s : corr) : corr :=
  if gate c then s else
  let tid := c_tid c in
  let now := c_now c in
  let m := cm s in
  match span_depth m !! tid with
  | None => s
  | Some d =>
      if d =? 0 then s else
      let top := u32 (d - 1) in
      match span_frames m !! (tid, top) with
      | None => quiet (span_depth_set tid top m) s
      | Some saved =>
          let popped m := span_depth_set tid top (set_frames m (delete (tid, top) (span_frames m))) in
          if negb (c_reserve c) then bump_dropped (popped m) s
          else
            submit (popped (cov_bump COV_URET_FIRED m))
              (EvReturn (mk_return_event (c_pid c) tid (span_id saved) (entry_addr saved) (reg c 0)
                           (u64 (now - timestamp saved)) now)) s
      end
  end.

(** The programs run in some order, each on one thread. *)
Inductive call := Entry (c : ctx) | Svc (c : ctx) | Uret (c : ctx).
Definition call_ctx (k : call) : ctx := match k with Entry c | Svc c | Uret c => c end.
Definition corr_step (s : corr) (k : call) : corr :=
  match k with
  | Entry c => corr_uprobe_entry c s
  | Svc c => corr_on_svc c s
  | Uret c => corr_uretprobe_ret c s
  end.
Definition corr_run (s : corr) (ks : list call) : corr := fold_left corr_step ks s.

(** ** The specification: a stack of open spans per thread *)

Record spec := mk_spec { stk : Z -> list span_frame; ids : Z; out : list corr_event; lost : Z }.
Definition upd (f : Z -> list span_frame) (t : Z) (l : list span_frame) : Z -> list span_frame :=
  fun t' => if decide (t' = t) then l else f t'.

Definition gated (c : ctx) : bool := uid_matches c || pid_matches c.
Definition report (c : ctx) (e : corr_event) (a : spec) : spec :=
  if c_reserve c then mk_spec (stk a) (ids a) (out a ++ [e]) (lost a)
  else mk_spec (stk a) (ids a) (out a) (u64 (lost a + 1)).

Definition spec_entry (c : ctx) (a : spec) : spec :=
  let l := drop_returned (c_sp c) (stk a (c_tid c)) in
  let raw := map (reg c) (seq 0 CORR_NUM_ARGS) in
  if zlen l <? 32 then
    let id := ids a + 1 in
    report c (EvFunc (mk_func_event (c_pid c) (c_tid c) id (top_span l) (c_pc c) (c_now c) raw))
      (mk_spec (upd (stk a) (c_tid c) (mk_frame (c_pc c) (c_sp c) (c_now c) id (top_span l) raw :: l))
         id (out a) (lost a))
  else mk_spec (upd (stk a) (c_tid c) l) (ids a) (out a) (lost a).

Definition spec_svc (c : ctx) (a : spec) : spec :=
  let l := drop_returned (c_sp c) (stk a (c_tid c)) in
  let a := mk_spec (upd (stk a) (c_tid c) l) (ids a) (out a) (lost a) in
  match l with
  | [] => a
  | f :: _ => report c (syscall_event c (span_id f)) a
  end.

Definition spec_ret (c : ctx) (a : spec) : spec :=
  match stk a (c_tid c) with
  | [] => a
  | f :: l =>
      report c (EvReturn (mk_return_event (c_pid c) (c_tid c) (span_id f) (entry_addr f) (reg c 0)
                            (u64 (c_now c - timestamp f)) (c_now c)))
        (mk_spec (upd (stk a) (c_tid c) l) (ids a) (out a) (lost a))
  end.

Definition spec_step (a : spec) (k : call) : spec :=
  if gated (call_ctx k) then
    match k with Entry c => spec_entry c a | Svc c => spec_svc c a | Uret c => spec_ret c a end
  else a.
Definition spec_run (a : spec) (ks : list call) : spec := fold_left spec_step ks a.
End Handlers.

(** ** Spans nest *)

#[local] Opaque span_stack_reconcile span_stack_push span_stack_top_id.

(** Each frame's parent is the frame below it, and ids grow towards the top. *)
Fixpoint nested (l : list span_frame) : Prop :=
  match l with
  | [] => True
  | f :: l => parent_span f = top_span l /\ top_span l < span_id f /\ nested l
  end.

Record spec_ok (a : spec) : Prop := {
  so_ids : 0 <= ids a;
  so_nested : forall t, nested (stk a t);
  so_range : forall t, Forall (fun f => 1 <= span_id f <= ids a) (stk a t);
  so_len : forall t, zlen (stk a t) <= 32;
  so_unique : forall t t' f g, t <> t' -> f ∈ stk a t -> g ∈ stk a t' -> span_id f <> span_id g
}.

Lemma upd_eq f t l : upd f t l t = l.
Proof. unfold upd. now rewrite decide_True. Qed.
Lemma upd_ne f t l t' : t' <> t -> upd f t l t' = f t'.
Proof. intros. unfold upd. now rewrite decide_False. Qed.

Lemma drop_returned_suffix sp l : exists k, l = k ++ drop_returned sp l.
Proof.
  induction l as [|f l [k IH]]; [now exists []|]. simpl. destruct (_ <=? _); [now exists []|].
  exists (f :: k). simpl. now rewrite <- IH.
Qed.

Lemma nested_app k l : nested (k ++ l) -> nested l.
Proof. induction k as [|f k IH]; simpl; [auto|]. intros (_ & _ & H). auto. Qed.

(** Replacing a thread's stack by a suffix of it. *)
Lemma spec_ok_suffix a t k l o n :
  spec_ok a -> stk a t = k ++ l -> spec_ok (mk_spec (upd (stk a) t l) (ids a) o n).
Proof.
  intros [H0 H1 H2 H3 H4] Hk. constructor; cbn [stk ids]; [exact H0| | | |].
  - intros t'. destruct (decide (t' = t)) as [->|]; [rewrite upd_eq|now rewrite upd_ne].
    apply (nested_app k). rewrite <- Hk. apply H1.
  - intros t'. destruct (decide (t' = t)) as [->|]; [rewrite upd_eq|now rewrite upd_ne].
    specialize (H2 t). rewrite Hk in H2. now apply Forall_app in H2.
  - intros t'. destruct (decide (t' = t)) as [->|]; [rewrite upd_eq|now rewrite upd_ne].
    specialize (H3 t). rewrite Hk, zlen_app in H3. pose proof (zlen_nonneg k). lia.
  - assert (Hin : forall t' f, f ∈ upd (stk a) t l t' -> f ∈ stk a t').
    { intros t' f. destruct (decide (t' = t)) as [->|]; [rewrite upd_eq, Hk|now rewrite upd_ne].
      intros Hf. apply elem_of_app. auto. }
    intros. eapply H4; eauto.
Qed.

(** Opening a span. *)
Lemma spec_ok_push a t f o n :
  spec_ok a -> zlen (stk a t) < 32 -> span_id f = ids a + 1 -> parent_span f = top_span (stk a t) ->
  spec_ok (mk_spec (upd (stk a) t (f :: stk a t)) (ids a + 1) o n).
Proof.
  intros [H0 H1 H2 H3 H4] Hl Hf Hp. constructor; cbn [stk ids]; [lia| | | |].
  - intros t'. destruct (decide (t' = t)) as [->|]; [rewrite upd_eq|now rewrite upd_ne].
    simpl. split; [exact Hp|]. split; [|apply H1]. rewrite Hf. specialize (H2 t).
    destruct (stk a t) as [|g l]; simpl; [lia|]. inversion H2; subst. lia.
  - assert (Hm : forall l, Forall (fun f => 1 <= span_id f <= ids a) l ->
                           Forall (fun f => 1 <= span_id f <= ids a + 1) l)
      by (intros l; apply List.Forall_impl; intros; lia).
    intros t'. destruct (decide (t' = t)) as [->|]; [rewrite upd_eq|rewrite upd_ne; auto].
    apply List.Forall_cons; [lia|auto].
  - intros t'. destruct (decide (t' = t)) as [->|]; [rewrite upd_eq, zlen_cons; lia|rewrite upd_ne; auto].
  - assert (Hr : forall t' g, g ∈ stk a t' -> span_id g <= ids a).
    { intros t' g Hg. specialize (H2 t'). rewrite list.Forall_forall in H2. apply H2 in Hg. lia. }
    intros t1 t2 x y Hne. destruct (decide (t1 = t)) as [->|]; destruct (decide (t2 = t)) as [->|];
      rewrite ?upd_eq, ?upd_ne by auto; try congruence; rewrite ?elem_of_cons.
    + intros [->|Hx] Hy; [apply Hr in Hy; lia|eauto].
    + intros Hx [->|Hy]; [apply Hr in Hx; lia|eauto].
    + eauto.
Qed.

Lemma spec_ok_ext a a' : spec_ok a -> (forall t, stk a' t = stk a t) -> ids a' = ids a -> spec_ok a'.
Proof.
  intros [H0 H1 H2 H3 H4] E1 E2. constructor; [now rewrite E2|..]; intros t; rewrite ?E1, ?E2; auto.
  intros t'. rewrite E1. apply H4.
Qed.
Lemma upd_upd f t l l' t' : upd (upd f t l') t l t' = upd f t l t'.
Proof. unfold upd. now destruct (decide _). Qed.

Lemma report_ok c e a : spec_ok a -> spec_ok (report c e a).
Proof. intros H. eapply spec_ok_ext; [exact H|intros t|]; unfold report; now destruct (c_reserve c). Qed.
Lemma stk_report c e a : stk (report c e a) = stk a.
Proof. unfold report. now destruct (c_reserve c). Qed.
Lemma ids_report c e a : ids (report c e a) = ids a.
Proof. unfold report. now destruct (c_reserve c). Qed.

Lemma spec_ok_drop a c o n :
  spec_ok a -> spec_ok (mk_spec (upd (stk a) (c_tid c) (drop_returned (c_sp c) (stk a (c_tid c)))) (ids a) o n).
Proof. intros H. destruct (drop_returned_suffix (c_sp c) (stk a (c_tid c))) as [k Hk]. eapply spec_ok_suffix; eauto. Qed.

Section Refinement.
Context (target_uids target_pids : gset Z) (arg_types sock_args : list Z).

Notation spec_step := (spec_step target_uids target_pids arg_types sock_args).
Notation corr_step := (corr_step target_uids target_pids arg_types sock_args).

Lemma spec_step_ok a k : spec_ok a -> spec_ok (spec_step a k).
Proof.
  intros H. unfold Correlate.spec_step. destruct (gated _ _ _); [|exact H]. destruct k as [c|c|c].
  - unfold spec_entry. cbv zeta. destruct (zlen _ <? 32) eqn:E; b2p; [|now apply spec_ok_drop].
    apply report_ok. pose proof (spec_ok_drop a c (out a) (lost a) H) as Hd.
    pose proof (spec_ok_push _ (c_tid c) (mk_frame (c_pc c) (c_sp c) (c_now c) (ids a + 1)
      (top_span (drop_returned (c_sp c) (stk a (c_tid c)))) (map (reg c) (seq 0 CORR_NUM_ARGS)))
      (out a) (lost a) Hd) as Hp. cbn [stk ids] in Hp. rewrite upd_eq in Hp.
    eapply spec_ok_ext; [exact (Hp E eq_refl eq_refl)|intros t; cbn [stk]; now rewrite upd_upd|reflexivity].
  - unfold spec_svc. cbv zeta. pose proof (spec_ok_drop a c (out a) (lost a) H) as Hd.
    destruct (drop_returned _ _); [exact Hd|now apply report_ok].
  - unfold spec_ret. destruct (stk a (c_tid c)) as [|f l] eqn:E; [exact H|].
    apply report_ok, (spec_ok_suffix a (c_tid c) [f] l); auto.
Qed.

Lemma ids_step a k : ids a <= ids (spec_step a k) <= ids a + 1.
Proof.
  unfold Correlate.spec_step. destruct (gated _ _ _); [|lia]. destruct k as [c|c|c].
  - unfold spec_entry. cbv zeta. destruct (_ <? 32); rewrite ?ids_report; simpl; lia.
  - unfold spec_svc. cbv zeta. destruct (drop_returned _ _); rewrite ?ids_report; simpl; lia.
  - unfold spec_ret. destruct (stk a _); rewrite ?ids_report; simpl; lia.
Qed.

(** The programs' state and the specification's. *)
Record sim (T : gset Z) (s : corr) (a : spec) : Prop := {
  sm_inv : span_inv (cm s);
  sm_stk : forall t, stack_of (cm s) t = stk a t;
  sm_ids : span_seq (cm s) = ids a;
  sm_out : events s = out a;
  sm_lost : dropped s = lost a;
  sm_dom : dom (span_depth (cm s)) ⊆ T
}.

Lemma room_of (T : gset Z) m tid :
  dom (span_depth m) ⊆ T -> (size T <= DEPTH_CAP)%nat -> tid ∈ T ->
  has_room m tid /\ (size (span_depth m) <= DEPTH_CAP)%nat.
Proof.
  intros Hd HT Ht. pose proof (subseteq_size _ _ Hd) as Hs. rewrite size_dom in Hs.
  split; [|lia]. unfold has_room. destruct (span_depth m !! tid) as [d|] eqn:E; [eauto|right].
  apply not_elem_of_dom in E. pose proof (subset_size (dom (span_depth m)) T) as Hlt.
  rewrite size_dom in Hlt. enough (size (span_depth m) < size T)%nat by lia. apply Hlt.
  split; [exact Hd|]. intros HTd. apply E, HTd, Ht.
Qed.

(** A map state that is [m] with one stack replaced simulates the update. *)
Lemma sim_upd T s a m' tid l i o n e d :
  sim T s a -> tid ∈ T -> restacked (cm s) m' tid l -> span_seq m' = i -> e = o -> d = n ->
  sim T (mk_corr m' e d) (mk_spec (upd (stk a) tid l) i o n).
Proof.
  intros [_ H2 _ _ _ H6] Ht [R1 R2 R3 R4] Hi -> ->. constructor; cbn [cm events dropped stk ids out lost]; auto.
  - intros t. destruct (decide (t = tid)) as [->|Hne]; [now rewrite upd_eq|].
    rewrite upd_ne, <- H2 by auto. now apply R3.
  - intros x [Hx| ->%elem_of_singleton]%R4%elem_of_union; auto.
Qed.

(** The parent that the entry program reads back is the one just pushed. *)
Lemma read_back m tid f l :
  span_inv m -> stack_of m tid = f :: l ->
  match span_depth m !! tid with
  | Some d => if d >=? 1 then
                match span_frames m !! (tid, u32 (d - 1)) with Some tf => parent_span tf | None => 0 end
              else 0
  | None => 0
  end = parent_span f.
Proof.
  intros Hi Hs. destruct (span_depth m !! tid) as [d|] eqn:E.
  - destruct (depth_some _ _ _ Hi E) as (_ & Hr & ->). destruct (stack_cons _ _ _ Hi E) as (g & Hg & Hs').
    rewrite Hg, Z.geb_leb, (proj2 (Z.leb_le 1 d)) by lia. congruence.
  - destruct (depth_none _ _ E). congruence.
Qed.

Lemma gate_open c : gated target_uids target_pids c = true -> gate target_uids target_pids c = false.
Proof. unfold gated, gate. intros H. now rewrite <- negb_orb, H. Qed.
Lemma gate_closed c : gated target_uids target_pids c = false -> gate target_uids target_pids c = true.
Proof. unfold gated, gate. intros H. now rewrite <- negb_orb, H. Qed.

(** From a state where [tid] holds the live frames [l]. *)
Lemma entry_open_sim T s a c m l :
  sim T s a -> (size T <= DEPTH_CAP)%nat -> c_tid c ∈ T -> 0 <= ids a < 2 ^ 64 - 1 ->
  restacked (cm s) m (c_tid c) l -> span_seq m = ids a -> l = drop_returned (c_sp c) (stk a (c_tid c)) ->
  sim T (entry_open c m s) (spec_entry c a).
Proof.
  intros Hsim HT Ht Hids Hr Hseq Hl. unfold entry_open, spec_entry. cbv zeta.
  rewrite <- Hl. set (tid := c_tid c) in *. set (raw := map (reg c) (seq 0 CORR_NUM_ARGS)).
  assert (Hd1 : dom (span_depth m) ⊆ T).
  { intros x [Hx| ->%elem_of_singleton]%(rs_dom _ _ _ _ Hr)%elem_of_union; auto. now apply (sm_dom _ _ _ Hsim). }
  destruct (room_of T m tid Hd1 HT Ht) as [Hroom Hcap].
  pose proof (rs_inv _ _ _ _ Hr) as Hi1. pose proof (rs_stack _ _ _ _ Hr) as Hs1.
  pose proof (length_stack m tid Hi1) as HL. rewrite Hs1 in HL. pose proof (depth_range m tid Hi1) as HD.
  destruct (zlen l <? 32) eqn:E; b2p.
  - pose proof (span_stack_push_spec m tid (c_pc c) (c_sp c) (c_now c) raw Hi1 Hroom Hcap ltac:(lia)) as Hp.
    destruct (span_stack_push tid (c_pc c) (c_sp c) (c_now c) raw m) as [id m2].
    destruct Hp as (Hid & Hseq2 & _ & Hp). unfold new_frame in Hp. rewrite Hs1, <- Hid in Hp.
    assert (Hid2 : id = ids a + 1) by (rewrite Hid, Hseq; apply u64_small; lia).
    rewrite (proj2 (Z.eqb_neq id 0)) by lia.
    rewrite (read_back m2 tid _ _ (rs_inv _ _ _ _ Hp) (rs_stack _ _ _ _ Hp)). cbn [parent_span].
    rewrite <- Hid2. pose proof (restacked_trans _ _ _ _ _ _ Hr Hp) as Hrp.
    unfold report, submit, bump_dropped. rewrite <- (sm_out _ _ _ Hsim), <- (sm_lost _ _ _ Hsim).
    destruct (c_reserve c); cbn [negb stk ids out lost];
      (eapply sim_upd; [exact Hsim|exact Ht|exact Hrp|exact Hseq2|reflexivity|reflexivity]).
  - destruct (span_stack_push_full m tid (c_pc c) (c_sp c) (c_now c) raw Hi1 ltac:(lia)) as [-> Hf].
    rewrite Z.eqb_refl. rewrite Hs1 in Hf. unfold quiet.
    eapply sim_upd; [exact Hsim|exact Ht|exact (restacked_trans _ _ _ _ _ _ Hr Hf)|exact Hseq|..]; apply Hsim.
Qed.

Lemma entry_sim T s a c :
  sim T s a -> (size T <= DEPTH_CAP)%nat -> c_tid c ∈ T -> 0 <= ids a < 2 ^ 64 - 1 ->
  gated target_uids target_pids c = true ->
  sim T (corr_uprobe_entry target_uids target_pids c s) (spec_entry c a).
Proof.
  intros Hsim HT Ht Hids Hg%gate_open. unfold corr_uprobe_entry. rewrite Hg.
  pose proof (span_stack_reconcile_spec (cm s) (c_tid c) (c_sp c) (sm_inv _ _ _ Hsim)) as Hr.
  destruct (reconcile_seq (c_tid c) (c_sp c) (cm s)) as [Hseq _].
  eapply entry_open_sim; eauto; [now rewrite Hseq; apply Hsim|]. now rewrite (sm_stk _ _ _ Hsim).
Qed.

Lemma svc_sim T s a c :
  sim T s a -> c_tid c ∈ T -> spec_ok a -> gated target_uids target_pids c = true ->
  sim T (corr_on_svc target_uids target_pids arg_types sock_args c s) (spec_svc arg_types sock_args c a).
Proof.
  intros Hsim Ht Hok Hg%gate_open. unfold corr_on_svc. rewrite Hg.
  set (tid := c_tid c) in *.
  pose proof (span_stack_reconcile_spec (cm s) tid (c_sp c) (sm_inv _ _ _ Hsim)) as Hr.
  destruct (reconcile_seq tid (c_sp c) (cm s)) as [Hseq _]. rewrite (sm_ids _ _ _ Hsim) in Hseq.
  pose proof (span_stack_top_id_spec (cm s) tid (c_sp c) (sm_inv _ _ _ Hsim)) as Htop.
  destruct (span_stack_top_id tid (c_sp c) (cm s)) as [span m]. destruct Htop as [-> ->].
  revert Hr Hseq. generalize (span_stack_reconcile tid (c_sp c) (cm s)) as m. intros m Hr Hseq.
  rewrite (sm_stk _ _ _ Hsim) in *. unfold spec_svc. cbv zeta. fold tid.
  pose proof (so_range _ (spec_ok_drop a c (out a) (lost a) Hok) tid) as Hrange. fold tid in Hrange.
  cbn [stk ids] in Hrange. rewrite upd_eq in Hrange.
  set (l := drop_returned (c_sp c) (stk a tid)) in *.
  destruct l as [|f l']; cbn [top_span].
  - rewrite Z.eqb_refl. unfold quiet. eapply sim_upd; eauto; apply Hsim.
  - inversion Hrange; subst. rewrite (proj2 (Z.eqb_neq (span_id f) 0)) by lia.
    unfold report, submit, bump_dropped. rewrite <- (sm_out _ _ _ Hsim), <- (sm_lost _ _ _ Hsim).
    destruct (c_reserve c); cbn [negb stk ids out lost]; eapply sim_upd; eauto.
Qed.

Lemma ret_sim T s a c :
  sim T s a -> c_tid c ∈ T -> gated target_uids target_pids c = true ->
  sim T (corr_uretprobe_ret target_uids target_pids c s) (spec_ret c a).
Proof.
  intros Hsim Ht Hg%gate_open. unfold corr_uretprobe_ret. rewrite Hg.
  cbv zeta. set (tid := c_tid c) in *. pose proof (sm_inv _ _ _ Hsim) as Hi.
  unfold spec_ret. fold tid. destruct (span_depth (cm s) !! tid) as [d|] eqn:E.
  2:{ destruct (depth_none _ _ E) as [_ Hs]. rewrite (sm_stk _ _ _ Hsim) in Hs. now rewrite Hs. }
  destruct (depth_some _ _ _ Hi E) as (_ & Hr & ->). destruct (stack_cons _ _ _ Hi E) as (f & -> & Hs).
  rewrite (sm_stk _ _ _ Hsim) in Hs. rewrite Hs. destruct (Z.eqb_spec d 0); [lia|].
  pose proof (drop_top_spec (cm s) tid d Hi E) as Hp.
  unfold report, submit, bump_dropped. rewrite <- (sm_out _ _ _ Hsim), <- (sm_lost _ _ _ Hsim).
  destruct (c_reserve c); cbn [negb stk ids out lost]; (eapply sim_upd; [exact Hsim|exact Ht| | |reflexivity|reflexivity]).
  - eapply restacked_maps; [exact Hp|..]; unfold span_depth_set; simpl; destruct (_ =? 0); reflexivity.
  - destruct (span_depth_set_seq tid (d - 1) (set_frames (cov_bump COV_URET_FIRED (cm s))
      (delete (tid, d - 1) (span_frames (cov_bump COV_URET_FIRED (cm s)))))) as [-> _]. apply Hsim.
  - exact Hp.
  - destruct (span_depth_set_seq tid (d - 1) (set_frames (cm s) (delete (tid, d - 1) (span_frames (cm s)))))
      as [-> _]. apply Hsim.
Qed.

Lemma step_sim T s a k :
  sim T s a -> (size T <= DEPTH_CAP)%nat -> c_tid (call_ctx k) ∈ T -> spec_ok a -> ids a < 2 ^ 64 - 1 ->
  sim T (corr_step s k) (spec_step a k).
Proof.
  intros Hsim HT Ht Hok Hids. unfold Correlate.spec_step.
  destruct (gated target_uids target_pids (call_ctx k)) eqn:Hg.
  - pose proof (so_ids _ Hok). destruct k as [c|c|c]; simpl in *;
      [apply entry_sim|apply svc_sim|apply ret_sim]; auto; lia.
  - apply gate_closed in Hg. replace (corr_step s k) with s; [exact Hsim|].
    destruct k as [c|c|c]; cbn [Correlate.corr_step call_ctx] in *; symmetry;
      [unfold corr_uprobe_entry|unfold corr_on_svc|unfold corr_uretprobe_ret]; now rewrite Hg.
Qed.

Lemma run_sim T ks s a :
  sim T s a -> (size T <= DEPTH_CAP)%nat -> Forall (fun k => c_tid (call_ctx k) ∈ T) ks -> spec_ok a ->
  ids a + zlen ks < 2 ^ 64 ->
  sim T (fold_left corr_step ks s) (fold_left spec_step ks a) /\ spec_ok (fold_left spec_step ks a).
Proof.
  intros Hsim HT Hks. revert s a Hsim. induction Hks as [|k ks Hk Hks IH]; intros s a Hsim Hok Hids; [auto|].
  rewrite zlen_cons in Hids. pose proof (zlen_nonneg ks). pose proof (ids_step a k). cbn [fold_left].
  apply IH; [apply step_sim; auto; lia|now apply spec_step_ok|lia].
Qed.
End Refinement.

(** ** The event log *)

Definition func_spans (l : list corr_event) : list Z :=
  omap (fun e => match e with EvFunc e => Some (fe_span e) | _ => None end) l.
Definition ret_spans (l : list corr_event) : list Z :=
  omap (fun e => match e with EvReturn e => Some (re_span e) | _ => None end) l.

(** Spans open in order, close at most once, and are not open once closed. *)
Record log_ok (a : spec) : Prop := {
  lo_spec : spec_ok a;
  lo_sorted : StronglySorted Z.lt (func_spans (out a));
  lo_func : Forall (fun i => i <= ids a) (func_spans (out a));
  lo_ret : Forall (fun i => i <= ids a) (ret_spans (out a));
  lo_once : NoDup (ret_spans (out a));
  lo_closed : forall t f, f ∈ stk a t -> span_id f ∉ ret_spans (out a)
}.

Lemma func_spans_app l k : func_spans (l ++ k) = func_spans l ++ func_spans k.
Proof. apply omap_app. Qed.
Lemma ret_spans_app l k : ret_spans (l ++ k) = ret_spans l ++ ret_spans k.
Proof. apply omap_app. Qed.

Lemma sorted_snoc l x : StronglySorted Z.lt l -> Forall (fun i => i < x) l -> StronglySorted Z.lt (l ++ [x]).
Proof.
  induction 1 as [|a l Hs IH Ha]; intros Hx; [repeat constructor|]. inversion Hx; subst. simpl.
  constructor; [auto|]. apply Forall_app. split; [exact Ha|]. constructor; [lia|constructor].
Qed.

(** Frames of one thread below the top have smaller ids. *)
Lemma nested_below f l g : nested (f :: l) -> g ∈ l -> span_id g < span_id f.
Proof.
  revert f. induction l as [|h l IH]; intros f (Hp & Hlt & Hn) Hg; [now apply not_elem_of_nil in Hg|].
  simpl in Hlt. apply elem_of_cons in Hg as [->|Hg]; [exact Hlt|]. pose proof (IH h Hn Hg). lia.
Qed.

(** An event that neither opens nor closes a span. *)
Lemma log_ok_neutral a stk' c e :
  log_ok a -> spec_ok (mk_spec stk' (ids a) (out a) (lost a)) ->
  (forall t f, f ∈ stk' t -> f ∈ stk a t) -> func_spans [e] = [] -> ret_spans [e] = [] ->
  log_ok (report c e (mk_spec stk' (ids a) (out a) (lost a))).
Proof.
  intros [H1 H2 H3 H4 H5 H6] Hs Hin Hf Hr. pose proof (report_ok c e _ Hs) as Hok. revert Hok.
  unfold report. destruct (c_reserve c); intros Hok; constructor; cbn [out ids stk] in *; auto;
    rewrite ?func_spans_app, ?ret_spans_app, ?Hf, ?Hr, ?app_nil_r; eauto.
Qed.

Lemma log_ok_drop a stk' :
  log_ok a -> spec_ok (mk_spec stk' (ids a) (out a) (lost a)) ->
  (forall t f, f ∈ stk' t -> f ∈ stk a t) -> log_ok (mk_spec stk' (ids a) (out a) (lost a)).
Proof. intros [H1 H2 H3 H4 H5 H6] Hs Hin. constructor; cbn [out ids stk]; eauto. Qed.

Lemma upd_in (f : Z -> list span_frame) t l t' g :
  (forall g, g ∈ l -> g ∈ f t) -> g ∈ upd f t l t' -> g ∈ f t'.
Proof. intros H. destruct (decide (t' = t)) as [->|]; [rewrite upd_eq; auto|now rewrite upd_ne]. Qed.

Lemma drop_returned_in sp l g : g ∈ drop_returned sp l -> g ∈ l.
Proof. destruct (drop_returned_suffix sp l) as [k Hk]. intros H. rewrite Hk. apply elem_of_app. auto. Qed.

Section Log.
Context (target_uids target_pids : gset Z) (arg_types sock_args : list Z).
Notation spec_step := (spec_step target_uids target_pids arg_types sock_args).

Lemma entry_log a c :
  log_ok a -> spec_ok (spec_entry c a) -> log_ok (spec_entry c a).
Proof.
  intros Hl Hs. unfold spec_entry in *. cbv zeta in *.
  assert (Hin := fun t' g => upd_in (stk a) (c_tid c) _ t' g (drop_returned_in (c_sp c) (stk a (c_tid c)))).
  destruct (zlen _ <? 32); [|now apply log_ok_drop]. destruct Hl as [H1 H2 H3 H4 H5 H6].
  assert (Hle : forall l, Forall (fun i => i <= ids a) l -> Forall (fun i => i <= ids a + 1) l)
    by (intros l; apply List.Forall_impl; intros; lia).
  assert (Hnew : ids a + 1 ∉ ret_spans (out a)).
  { intros Hx. rewrite list.Forall_forall in H4. apply H4 in Hx. lia. }
  assert (Hcl : forall t f, f ∈ upd (stk a) (c_tid c)
      (mk_frame (c_pc c) (c_sp c) (c_now c) (ids a + 1)
         (top_span (drop_returned (c_sp c) (stk a (c_tid c)))) (map (reg c) (seq 0 CORR_NUM_ARGS))
       :: drop_returned (c_sp c) (stk a (c_tid c))) t -> span_id f ∉ ret_spans (out a)).
  { intros t f. destruct (decide (t = c_tid c)) as [->|]; [rewrite upd_eq|rewrite upd_ne; eauto].
    intros [->|Hf]%elem_of_cons; [exact Hnew|]. eapply H6, drop_returned_in, Hf. }
  revert Hs. unfold report. destruct (c_reserve c); intros Hs; constructor; cbn [out ids stk] in *; auto;
    rewrite ?func_spans_app, ?ret_spans_app; cbn [func_spans ret_spans omap list_omap fe_span]; rewrite ?app_nil_r; auto.
  - apply sorted_snoc; [exact H2|]. revert H3. apply List.Forall_impl. intros; lia.
  - apply Forall_app. split; [auto|]. constructor; [lia|constructor].
Qed.

Lemma spec_step_log a k : log_ok a -> log_ok (spec_step a k).
Proof.
  intros Hl. pose proof (spec_step_ok target_uids target_pids arg_types sock_args a k (lo_spec _ Hl)) as Hs.
  unfold Correlate.spec_step in *. destruct (gated _ _ _); [|exact Hl]. destruct k as [c|c|c].
  - now apply entry_log.
  - clear Hs. unfold spec_svc. cbv zeta.
    pose proof (spec_ok_drop a c (out a) (lost a) (lo_spec _ Hl)) as Hd.
    assert (Hin := fun t' g => upd_in (stk a) (c_tid c) _ t' g (drop_returned_in (c_sp c) (stk a (c_tid c)))).
    destruct (drop_returned _ _) as [|f l] eqn:E; [now apply log_ok_drop|].
    apply log_ok_neutral; auto; unfold syscall_event; cbv zeta;
      destruct (if _ =? 0 then _ else _), (read_sock _ _ _); reflexivity.
  - unfold spec_ret in *. destruct (stk a (c_tid c)) as [|f l] eqn:E; [exact Hl|].
    assert (Hin : forall t g, g ∈ upd (stk a) (c_tid c) l t -> g ∈ stk a t)
      by (intros t g; apply upd_in; intros g'; rewrite E; apply list_elem_of_further).
    assert (Hne : forall t g, g ∈ upd (stk a) (c_tid c) l t -> span_id g <> span_id f).
    { intros t g. destruct (decide (t = c_tid c)) as [->|Ht].
      - rewrite upd_eq. intros Hg. pose proof (so_nested _ (lo_spec _ Hl) (c_tid c)) as Hn. rewrite E in Hn.
        pose proof (nested_below _ _ _ Hn Hg). lia.
      - rewrite upd_ne by auto. intros Hg. eapply (so_unique _ (lo_spec _ Hl) t (c_tid c)); eauto.
        rewrite E. apply list_elem_of_here. }
    assert (Hf : f ∈ stk a (c_tid c)) by (rewrite E; apply list_elem_of_here).
    destruct Hl as [H1 H2 H3 H4 H5 H6]. revert Hs.
    unfold report. destruct (c_reserve c); intros Hs; constructor; cbn [out ids stk] in *; eauto;
      rewrite ?func_spans_app, ?ret_spans_app; cbn [func_spans ret_spans omap list_omap re_span]; rewrite ?app_nil_r; auto.
    + apply Forall_app. split; [auto|]. constructor; [|constructor].
      pose proof (so_range _ H1 (c_tid c)) as Hr. rewrite list.Forall_forall in Hr. apply Hr in Hf. lia.
    + apply NoDup_app. split; [exact H5|]. split; [|apply NoDup_singleton].
      intros x Hx ->%list_elem_of_singleton. exact (H6 _ _ Hf Hx).
    + intros t g Hg. rewrite not_elem_of_app, list_elem_of_singleton. split; [eauto|]. now apply (Hne t g).
Qed.
End Log.

Definition corr_init : corr := mk_corr maps_empty [] 0.
Definition spec_init : spec := mk_spec (fun _ => []) 0 [] 0.

Lemma spec_init_log : log_ok spec_init.
Proof.
  constructor; simpl; try constructor; simpl; auto; try lia; intros; try (now constructor);
    try (unfold zlen; simpl; lia); exfalso; eapply not_elem_of_nil; eauto.
Qed.

Lemma init_sim T : sim T corr_init spec_init.
Proof.
  constructor; simpl; auto; [apply maps_empty_inv|].
  intros x Hx. apply elem_of_dom in Hx as [? Hx]. rewrite lookup_empty in Hx. discriminate.
Qed.

(** The threads a run touches. *)
Definition threads (ks : list call) : gset Z := list_to_set (map (fun k => c_tid (call_ctx k)) ks).

Lemma threads_in ks : Forall (fun k => c_tid (call_ctx k) ∈ threads ks) ks.
Proof.
  apply list.Forall_forall. intros k Hk. unfold threads. apply elem_of_list_to_set.
  apply (list_elem_of_fmap_2 (fun k => c_tid (call_ctx k))). exact Hk.
Qed.

Section Runs.
Context (target_uids target_pids : gset Z) (arg_types sock_args : list Z).
Notation corr_run := (corr_run target_uids target_pids arg_types sock_args).
Notation spec_run := (spec_run target_uids target_pids arg_types sock_args).

Lemma runs_sim ks :
  (size (threads ks) <= DEPTH_CAP)%nat -> zlen ks < 2 ^ 64 ->
  sim (threads ks) (corr_run corr_init ks) (spec_run spec_init ks).
Proof.
  intros HT HL. apply run_sim; auto using init_sim, threads_in. apply spec_init_log.
Qed.

Lemma spec_run_log ks a : log_ok a -> log_ok (spec_run a ks).
Proof. revert a. induction ks as [|k ks IH]; intros a H; [exact H|]. apply IH. now apply spec_step_log. Qed.
End Runs.

(** ** Properties *)

(** C3: the correlate programs implement the abstract machine in which every thread
    has a list of open spans.  For any sequence of function entries, syscalls and
    function returns on at most 1024 threads, in any interleaving, with the ring
    buffer full at any points, the programs put exactly the events of the abstract
    machine into the ring buffer, in the same order, count the same lost events,
    and leave the same open spans on every thread. *)
Theorem corr_refines_spans (target_uids target_pids : gset Z) (arg_types sock_args : list Z)
    (ks : list call) (Hthreads : (size (threads ks) <= DEPTH_CAP)%nat) (Hlen : zlen ks < 2 ^ 64) :
  let s := corr_run target_uids target_pids arg_types sock_args corr_init ks in
  let a := spec_run target_uids target_pids arg_types sock_args spec_init ks in
  events s = out a /\ dropped s = lost a /\ span_seq (cm s) = ids a /\
  (forall t, stack_of (cm s) t = stk a t) /\ span_inv (cm s).
Proof.
  cbv zeta. destruct (runs_sim target_uids target_pids arg_types sock_args ks Hthreads Hlen) as [H1 H2 H3 H4 H5 _].
  auto 6.
Qed.

(** Spans nest and close once.  After any run of the correlate programs on at
    most 1024 threads: on every thread each open frame's parent span is the frame
    below it; no two open frames share a span id; the FUNC events of the log carry
    strictly increasing span ids; no span has two RETURN events; and a span that
    has one is no longer open on any thread. *)
Theorem corr_spans_nest_and_close_once (target_uids target_pids : gset Z) (arg_types sock_args : list Z)
    (ks : list call) (Hthreads : (size (threads ks) <= DEPTH_CAP)%nat) (Hlen : zlen ks < 2 ^ 64) :
  let s := corr_run target_uids target_pids arg_types sock_args corr_init ks in
  (forall t, nested (stack_of (cm s) t)) /\
  (forall t t' f g, t <> t' -> f ∈ stack_of (cm s) t -> g ∈ stack_of (cm s) t' -> span_id f <> span_id g) /\
  StronglySorted Z.lt (func_spans (events s)) /\
  NoDup (ret_spans (events s)) /\
  (forall t f, f ∈ stack_of (cm s) t -> span_id f ∉ ret_spans (events s)).
Proof.
  cbv zeta. destruct (runs_sim target_uids target_pids arg_types sock_args ks Hthreads Hlen) as [_ H2 _ H4 _ _].
  pose proof (spec_run_log target_uids target_pids arg_types sock_args ks _ spec_init_log) as [[S0 S1 S2 S3 S4] L1 _ _ L2 L3].
  rewrite H4. split; [intros t; rewrite H2; apply S1|].
  split; [intros t t' f g; rewrite !H2; apply S4|]. split; [exact L1|]. split; [exact L2|].
  intros t f. rewrite H2. apply L3.
Qed.

(** A traced thread 7 of process 5 with stack pointer [sp] at time [now]. *)
Definition demo_ctx (sp now : Z) : ctx :=
  mk_ctx 10001 (Z.shiftl 5 32 + 7) 0x4000 sp (repeat 1 31) now true (fun _ => None) (fun _ _ => None).
Definition demo_run : list call :=
  [Entry (demo_ctx 0x7f40 10); Entry (demo_ctx 0x7f00 20); Svc (demo_ctx 0x7ee0 25);
   Uret (demo_ctx 0x7f00 30); Svc (demo_ctx 0x7f20 35); Uret (demo_ctx 0x7f40 50)].

(** The span every event of a log carries. *)
Definition event_span (e : corr_event) : Z :=
  match e with EvFunc e => fe_span e | EvSyscall e => se_span e | EvReturn e => re_span e end.

Lemma corr_refines_spans_witness :
  map event_span (events (corr_run {[10001]} ∅ [] [] corr_init demo_run)) = [1; 2; 2; 2; 1; 1] /\
  events (corr_run {[10001]} ∅ [] [] corr_init demo_run) =
  out (spec_run {[10001]} ∅ [] [] spec_init demo_run).
Proof.
  split; [vm_compute; reflexivity|].
  apply (corr_refines_spans {[10001]} ∅ [] [] demo_run); vm_compute; [lia|reflexivity].
Defined.

Lemma corr_spans_nest_and_close_once_witness :
  ret_spans (events (corr_run {[10001]} ∅ [] [] corr_init demo_run)) = [2; 1] /\
  NoDup (ret_spans (events (corr_run {[10001]} ∅ [] [] corr_init demo_run))).
Proof.
  split; [vm_compute; reflexivity|].
  apply (corr_spans_nest_and_close_once {[10001]} ∅ [] [] demo_run); vm_compute; [lia|reflexivity].
Defined.

(** A call leaves SP where it was, so a second call out of the same caller frame
    has the entry SP of the first.  When the first span was not closed by a return
    probe (the default mode has none), it is still on the stack: the second call
    becomes its child, and a syscall of the caller is tagged with it. *)
Theorem equal_sp_is_not_reconciled (m : maps) (tid sp : Z) (f : span_frame) (l : list span_frame) :
  span_inv m -> stack_of m tid = f :: l -> entry_sp f = sp ->
  stack_of (span_stack_reconcile tid sp m) tid = f :: l /\ fst (span_stack_top_id tid sp m) = span_id f.
Proof.
  intros Hi Hs Hsp. pose proof (span_stack_top_id_spec m tid sp Hi) as Ht.
  rewrite (rs_stack _ _ _ _ (span_stack_reconcile_spec m tid sp Hi)), Hs in *. simpl in *.
  rewrite Hsp, Z.leb_refl in *. split; [reflexivity|]. destruct (span_stack_top_id tid sp m). now destruct Ht.
Qed.

(** Forty calls of a probed function in a loop, without a return probe: each is
    reported as a child of the one before, and after 32 none is reported. *)
Theorem sequential_calls_hit_the_cap :
  let s := corr_run {[10001]} ∅ [] [] corr_init (repeat (Entry (demo_ctx 0x7f40 10)) 40) in
  func_spans (events s) = map Z.of_nat (seq 1 32) /\
  map (fun e => match e with EvFunc e => fe_parent e | _ => -1 end) (events s) = map Z.of_nat (seq 0 32) /\
  depth_of (cm s) 7 = 32.
Proof. vm_compute. auto. Qed.
