(* ===== verification/Emit.v ===== *)
(** * Emit: the JSON serializer and the output sink (src/common/emit.c)

    [jbuf] is the growable record buffer with its out-of-memory latch; the [jb_*]
    functions append to it.  [sink] frames the records into a JSON array or JSON
    lines.  Whether an allocation succeeds is decided by an oracle on the number of
    the attempt and its size; what stdio reports is an input of the sink's steps. *)

From Stdlib Require Import ZArith Lia.
From stdpp Require Import base list option numbers.
From S2P Require Import Prelude.

Local Open Scope Z_scope.

(** [j_b] is the filled part of the buffer ([None] for a NULL pointer), so [len] is
    its length; [j_try] counts the calls of [realloc]. *)
Record jbuf := mk_jbuf { j_b : option (list byte); j_cap : Z; j_err : bool; j_try : nat }.
Definition jbytes (j : jbuf) : list byte := default [] (j_b j).
Definition jlen (j : jbuf) : Z := zlen (jbytes j).

(** [nc] is doubled until the request fits; none when the size leaves 64 bits. *)
Fixpoint grow (fuel : nat) (nc want : Z) : option Z :=
  match fuel with
  | O => None
  | S fuel => if nc <? want then grow fuel (u64 (nc * 2)) want else Some nc
  end.

Section Buffer.
Context (realloc_ok : nat -> Z -> bool).

Definition jb_need (n : Z) (j : jbuf) : res jbuf :=
  if j_err j then Ret j else
  if jlen j + n <=? j_cap j then Ret j else
  match grow 64 (if j_cap j =? 0 then 8192 else u64 (j_cap j * 2)) (jlen j + n) with
  | None => NoFuel
  | Some nc =>
      if realloc_ok (j_try j) nc then Ret (mk_jbuf (Some (jbytes j)) nc (j_err j) (S (j_try j)))
      else Ret (mk_jbuf (j_b j) (j_cap j) true (S (j_try j)))
  end.

(** Store [s] behind the filled part, which must stay inside the buffer. *)
Definition jb_store (s : list byte) (j : jbuf) : res jbuf :=
  if jlen j + zlen s <=? j_cap j
  then Ret (mk_jbuf (Some (jbytes j ++ s)) (j_cap j) (j_err j) (j_try j)) else Oob.

Definition jb_put (s : list byte) (j : jbuf) : res jbuf :=
  match j_b j with
  | Some _ => if j_err j then Ret j else jb_store s j
  | None => Ret j
  end.

Definition jb_raw (s : list byte) (j : jbuf) : res jbuf := j ← jb_need (zlen s) j; jb_put s j.
Definition jb_s (s : list byte) (j : jbuf) : res jbuf := jb_raw s j.
Definition jb_c (c : byte) (j : jbuf) : res jbuf := j ← jb_need 1 j; jb_put [c] j.

Fixpoint jb_cs (s : list byte) (j : jbuf) : res jbuf :=
  match s with [] => Ret j | c :: s => j ← jb_c c j; jb_cs s j end.

(** The digits of [v] in base [b], last one first, in an array of [n] slots. *)
Fixpoint digits (n : nat) (b : Z) (v : Z) : res (list Z) :=
  match n with
  | O => Oob
  | S n => if v / b =? 0 then Ret [v mod b] else r ← digits n b (v / b); Ret (v mod b :: r)
  end.

Definition dec_digit (d : Z) : byte := zb (0x30 + d).
Definition hex_digit (d : Z) : byte := zb (if d <? 10 then 0x30 + d else 0x61 + d - 10).

Definition jb_u64 (v : Z) (j : jbuf) : res jbuf :=
  t ← digits 24 10 v;
  j ← jb_need (zlen t) j;
  jb_cs (reverse (map dec_digit t)) j.

(** [snprintf] of a signed 64-bit number into 24 characters. *)
Definition dec_text (v : Z) : res (list byte) :=
  t ← digits 20 10 (Z.abs v);
  let s := (if v <? 0 then [x2d] else []) ++ reverse (map dec_digit t) in
  Ret (take 23 s).
(** [%llx] of an unsigned number, and [snprintf(buf, n, "%s", s)]: what is left of [s]. *)
Definition hex_text (v : Z) : res (list byte) := t ← digits 16 16 v; Ret (reverse (map hex_digit t)).
Definition snprintf_s (n : Z) (s : list byte) : list byte := take (Z.to_nat (n - 1)) s.

Definition jb_i64 (v : Z) (j : jbuf) : res jbuf := t ← dec_text v; jb_raw t j.

Definition jb_hex (v : Z) (j : jbuf) : res jbuf :=
  t ← digits 16 16 v;
  j ← jb_s [x30; x78] j;
  j ← jb_need (zlen t) j;
  jb_cs (reverse (map hex_digit t)) j.

(** Characters that need no escape, [c] as an unsigned byte. *)
Definition safe_char (c : byte) : bool :=
  (bz c >=? 0x20) && negb (bz c =? 0x22) && negb (bz c =? 0x5c).
Fixpoint safe_run (s : list byte) : list byte * list byte :=
  match s with
  | c :: s' => if safe_char c then let '(run, rest) := safe_run s' in (c :: run, rest) else ([], s)
  | [] => ([], [])
  end.
Definition esc_char (c : byte) : list byte :=
  if bz c =? 0x22 then [x5c; x22]
  else if bz c =? 0x5c then [x5c; x5c]
  else if bz c =? 0x0a then [x5c; x6e]
  else if bz c =? 0x0d then [x5c; x72]
  else if bz c =? 0x09 then [x5c; x74]
  else [x5c; x75; x30; x30; hex_digit (bz c / 16); hex_digit (bz c mod 16)].

(** [s] is the C string without its terminator. *)
Fixpoint esc_loop (fuel : nat) (s : list byte) (j : jbuf) : res jbuf :=
  match fuel with
  | O => NoFuel
  | S fuel =>
      match s with
      | [] => Ret j
      | _ =>
          let '(run, rest) := safe_run s in
          j ← (match run with [] => Ret j | _ => jb_raw run j end);
          match rest with
          | [] => Ret j
          | c :: rest => j ← jb_s (esc_char c) j; esc_loop fuel rest j
          end
      end
  end.
Definition jb_esc (s : list byte) (j : jbuf) : res jbuf := esc_loop (S (length s)) s j.

(** The base64 alphabet. *)
Definition e64 (v : Z) : byte :=
  zb (if v <? 26 then 0x41 + v else if v <? 52 then 0x61 + v - 26
      else if v <? 62 then 0x30 + v - 52 else if v =? 62 then 0x2b else 0x2f).
Definition sextet (v k : Z) : byte := e64 (Z.land (Z.shiftr v k) 63).

Fixpoint b64_loop (p : list byte) (j : jbuf) : res jbuf :=
  match p with
  | a :: b :: c :: p =>
      let v := Z.lor (Z.lor (Z.shiftl (bz a) 16) (Z.shiftl (bz b) 8)) (bz c) in
      j ← jb_c (sextet v 18) j; j ← jb_c (sextet v 12) j;
      j ← jb_c (sextet v 6) j; j ← jb_c (sextet v 0) j;
      b64_loop p j
  | [a] =>
      let v := Z.shiftl (bz a) 16 in
      j ← jb_c (sextet v 18) j; j ← jb_c (sextet v 12) j; jb_s [x3d; x3d] j
  | [a; b] =>
      let v := Z.lor (Z.shiftl (bz a) 16) (Z.shiftl (bz b) 8) in
      j ← jb_c (sextet v 18) j; j ← jb_c (sextet v 12) j; j ← jb_c (sextet v 6) j; jb_c x3d j
  | [] => Ret j
  end.
Definition jb_b64 (p : list byte) (j : jbuf) : res jbuf :=
  j ← jb_need ((zlen p + 2) / 3 * 4) j; b64_loop p j.
End Buffer.

(** ** The sink *)

(** [sk_file] is what was handed to stdio since the file was opened, [None] for a
    NULL stream; the stdio buffer is transparent. *)
Record sink := mk_sink {
  sk_file : option (list byte); sk_jb : jbuf; sk_count : Z; sk_jsonl : bool;
  sk_since : Z; sk_werr : Z
}.
Definition EIO := 5.
Definition SINK_FLUSH_DEFAULT := 8192.

(** The first error is kept; [e] is [None] for success, else the value of errno. *)
Definition latch (werr : Z) (e : option Z) : Z :=
  match e with
  | Some errno => if werr =? 0 then (if errno =? 0 then EIO else errno) else werr
  | None => werr
  end.

(** [opened] says whether [fopen] succeeds; the record buffer and the error latch
    are those the caller's structure has. *)
Definition anubee_sink_open (opened jsonl : bool) (s : sink) : Z * sink :=
  if negb opened then (-1, mk_sink None (sk_jb s) (sk_count s) (sk_jsonl s) (sk_since s) (sk_werr s)) else
  (0, mk_sink (Some (if jsonl then [] else [x5b])) (sk_jb s) 0 jsonl 0 (sk_werr s)).

Definition jb_reset (j : jbuf) : jbuf := mk_jbuf (option_map (fun _ => []) (j_b j)) (j_cap j) false (j_try j).

(** [wr] and [fl] are what [ferror] and [fflush] report. *)
Definition anubee_sink_emit (wr fl : option Z) (s : sink) : sink :=
  match sk_file s, j_b (sk_jb s) with
  | Some f, Some b =>
      if zlen b =? 0 then s else
      if j_err (sk_jb s) then
        mk_sink (sk_file s) (jb_reset (sk_jb s)) (sk_count s) (sk_jsonl s) (sk_since s) (sk_werr s)
      else
        let f := f ++ (if sk_jsonl s then b ++ [x0a]
                       else (if sk_count s =? 0 then [x0a; x20; x20] else [x2c; x0a; x20; x20]) ++ b) in
        let werr := latch (sk_werr s) wr in
        let since := sk_since s + 1 in
        if since >=? SINK_FLUSH_DEFAULT
        then mk_sink (Some f) (jb_reset (sk_jb s)) (u64 (sk_count s + 1)) (sk_jsonl s) 0 (latch werr fl)
        else mk_sink (Some f) (jb_reset (sk_jb s)) (u64 (sk_count s + 1)) (sk_jsonl s) since werr
  | _, _ => s
  end.

Definition anubee_sink_flush (fl : option Z) (s : sink) : sink :=
  match sk_file s with
  | Some _ => mk_sink (sk_file s) (sk_jb s) (sk_count s) (sk_jsonl s) (sk_since s) (latch (sk_werr s) fl)
  | None => s
  end.

(** Returns the finished file beside the closed sink. *)
Definition anubee_sink_close (fl cl : option Z) (s : sink) : option (list byte) * sink :=
  match sk_file s with
  | None => (None, s)
  | Some f =>
      (Some (if sk_jsonl s then f else f ++ [x0a; x5d; x0a]),
       mk_sink None (mk_jbuf None 0 (j_err (sk_jb s)) (j_try (sk_jb s))) (sk_count s) (sk_jsonl s)
         (sk_since s) (latch (latch (sk_werr s) fl) cl))
  end.

(** ** The buffer stays inside its allocation *)

(** Sizes in use stay far below the point where doubling wraps. *)
Definition LIM := 2 ^ 61.

Record jb_ok (j : jbuf) : Prop := {
  jo_null : j_b j = None -> j_cap j = 0;
  jo_len : jlen j <= j_cap j;
  jo_cap : j_cap j < 2 ^ 62
}.

Section Spec.
Context (realloc_ok : nat -> Z -> bool).

(** [j'] is [j] with [t] appended, or a prefix of it when memory ran out. *)
Definition appended (j j' : jbuf) (t : list byte) : Prop :=
  jb_ok j' /\
  if j_err j then j' = j
  else if j_err j' then exists k, k `prefix_of` t /\ jbytes j' = jbytes j ++ k
  else jbytes j' = jbytes j ++ t.

(** The latch is set by a failed allocation only. *)
Definition blamed (j j' : jbuf) : Prop :=
  j_err j' = true -> j_err j = true \/ exists n z, realloc_ok n z = false.

Lemma appended_refl j : jb_ok j -> appended j j [].
Proof.
  intros H. split; [exact H|]. destruct (j_err j) eqn:E; [reflexivity|]. now rewrite app_nil_r.
Qed.

Lemma appended_len j j' t : jb_ok j -> appended j j' t -> jlen j' <= jlen j + zlen t.
Proof.
  intros Hj [_ H]. pose proof (zlen_nonneg t). unfold jlen. destruct (j_err j); [subst; lia|].
  destruct (j_err j').
  - destruct H as (k & [r ->] & ->). rewrite !zlen_app. pose proof (zlen_nonneg r). lia.
  - rewrite H, zlen_app. lia.
Qed.

Lemma appended_trans a b c t u : appended a b t -> appended b c u -> appended a c (t ++ u).
Proof.
  intros [H1 H2] [H3 H4]. split; [exact H3|]. destruct (j_err a) eqn:Ea.
  - subst b. now rewrite Ea in H4.
  - destruct (j_err b) eqn:Eb.
    + subst c. rewrite Eb. destruct H2 as (k & Hk & ->). exists k. split; [|reflexivity].
      now apply prefix_app_r.
    + rewrite H2 in H4. destruct (j_err c).
      * destruct H4 as (k & Hk & ->). exists (t ++ k). split; [now apply prefix_app|]. now rewrite app_assoc.
      * now rewrite H4, app_assoc.
Qed.

(** [op] appends the text [t] to every buffer with room below the limit. *)
Definition emits (op : jbuf -> res jbuf) (t : list byte) : Prop :=
  forall j, jb_ok j -> jlen j + zlen t <= LIM -> exists j', op j = Ret j' /\ appended j j' t /\ blamed j j'.

Lemma emits_nil : emits (fun j => Ret j) [].
Proof. intros j Hj _. exists j. split; [reflexivity|]. split; [now apply appended_refl|now left]. Qed.

Lemma emits_bind f g t u : emits f t -> emits g u -> emits (fun j => j ← f j; g j) (t ++ u).
Proof.
  intros Hf Hg j Hj HL. rewrite zlen_app in HL. pose proof (zlen_nonneg u). pose proof (zlen_nonneg t).
  destruct (Hf j Hj) as (j1 & E1 & H1 & B1); [lia|]. pose proof (appended_len _ _ _ Hj H1) as Hl.
  destruct (Hg j1 (proj1 H1)) as (j2 & E2 & H2 & B2); [lia|]. exists j2. rewrite E1, ret_bind. split; [exact E2|].
  split; [eapply appended_trans; eauto|]. intros B. destruct (B2 B); auto.
Qed.

Lemma emits_ext f g t : (forall j, f j = g j) -> emits f t -> emits g t.
Proof. intros H Hf j Hj HL. rewrite <- H. auto. Qed.

Lemma grow_spec fuel nc want :
  0 < nc < 2 ^ 62 -> want <= LIM -> want <= nc * 2 ^ (Z.of_nat fuel - 1) -> (0 < fuel)%nat ->
  exists nc', grow fuel nc want = Some nc' /\ want <= nc' < 2 ^ 62 /\ 0 < nc'.
Proof.
  unfold LIM. revert nc. induction fuel as [|fuel IH]; intros nc Hnc Hw Hf H0; [lia|]. simpl grow.
  destruct (nc <? want) eqn:E; b2p; [|exists nc; split; [reflexivity|lia]].
  rewrite u64_small by lia. apply IH; [lia|exact Hw| |].
  - replace (Z.of_nat (S fuel) - 1) with (1 + (Z.of_nat fuel - 1)) in Hf by lia.
    destruct (Z.eq_dec (Z.of_nat fuel) 0) as [E0|]; [rewrite E0 in *; simpl in Hf; lia|].
    rewrite Z.pow_add_r in Hf by lia. lia.
  - destruct fuel; [|lia]. simpl in Hf. lia.
Qed.

(** After a request without the latch set, the bytes fit. *)
Lemma jb_need_spec j n :
  jb_ok j -> 0 <= n -> jlen j + n <= LIM ->
  exists j', jb_need realloc_ok n j = Ret j' /\ appended j j' [] /\ blamed j j' /\
             (j_err j' = false -> jlen j' + n <= j_cap j').
Proof.
  intros Hj Hn HL. unfold jb_need. destruct (j_err j) eqn:Ee.
  { exists j. split; [reflexivity|]. split; [now apply appended_refl|]. split; [now left|congruence]. }
  destruct (jlen j + n <=? j_cap j) eqn:Ec; b2p.
  { exists j. split; [reflexivity|]. split; [now apply appended_refl|]. split; [now left|auto]. }
  pose proof (zlen_nonneg (jbytes j)) as H0. fold (jlen j) in H0. destruct Hj as [J1 J2 J3].
  destruct (grow_spec 64 (if j_cap j =? 0 then 8192 else u64 (j_cap j * 2)) (jlen j + n))
    as (nc & -> & Hnc & Hp); try lia.
  { destruct (Z.eqb_spec (j_cap j) 0); [lia|]. unfold LIM in *. rewrite u64_small; lia. }
  { unfold LIM in *. destruct (Z.eqb_spec (j_cap j) 0); [lia|]. rewrite u64_small by lia.
    assert (2 ^ 63 <= j_cap j * 2 * 2 ^ (Z.of_nat 64 - 1)) by (simpl; lia). lia. }
  destruct (realloc_ok (j_try j) nc) eqn:Er.
  - eexists. split; [reflexivity|]. split; [|split; [discriminate|unfold jlen, jbytes in *; simpl; intros _; lia]].
    split; [constructor; unfold jlen, jbytes in *; simpl; [discriminate|lia|lia]|].
    rewrite Ee. simpl. unfold jbytes. simpl. now rewrite app_nil_r.
  - eexists. split; [reflexivity|]. split; [|split; [right; eauto|discriminate]].
    split; [constructor; auto|]. rewrite Ee. simpl. exists []. split; [reflexivity|].
    unfold jbytes. simpl. now rewrite app_nil_r.
Qed.

Lemma jb_put_spec j s :
  jb_ok j -> (j_err j = false -> jlen j + zlen s <= j_cap j) ->
  exists j', jb_put s j = Ret j' /\ appended j j' s /\ j_err j' = j_err j.
Proof.
  intros Hj Hc. pose proof Hj as [J1 J2 J3]. unfold jb_put. destruct (j_b j) as [b|] eqn:Eb.
  - destruct (j_err j) eqn:Ee; [exists j; split; [reflexivity|]; split; [|congruence]; split; [exact Hj|now rewrite Ee]|].
    specialize (Hc eq_refl). unfold jb_store. rewrite (proj2 (Z.leb_le _ _)) by lia.
    eexists. split; [reflexivity|]. split; [split|exact Ee].
    + constructor; unfold jlen, jbytes in *; simpl; [discriminate|rewrite zlen_app; lia|lia].
    + rewrite Ee. simpl. reflexivity.
  - exists j. split; [reflexivity|]. split; [|reflexivity]. split; [exact Hj|]. destruct (j_err j) eqn:Ee; [reflexivity|].
    specialize (Hc eq_refl). rewrite (J1 eq_refl) in Hc. pose proof (zlen_nonneg (jbytes j)).
    unfold jlen in Hc. destruct s; [now rewrite app_nil_r|rewrite zlen_cons in Hc; pose proof (zlen_nonneg s); lia].
Qed.

Lemma emits_need n g t :
  0 <= n <= zlen t -> emits g t -> emits (fun j => j ← jb_need realloc_ok n j; g j) t.
Proof.
  intros Hn Hg j Hj HL. destruct (jb_need_spec j n Hj) as (j1 & E1 & H1 & B1 & _); [lia|lia|].
  pose proof (appended_len _ _ _ Hj H1) as Hl. change (zlen (@nil byte)) with 0 in Hl.
  destruct (Hg j1 (proj1 H1)) as (j2 & E2 & H2 & B2); [lia|]. exists j2. rewrite E1, ret_bind. split; [exact E2|].
  split; [apply (appended_trans _ _ _ [] t H1 H2)|]. intros B. destruct (B2 B); auto.
Qed.

Lemma emits_raw s : emits (jb_raw realloc_ok s) s.
Proof.
  intros j Hj HL. unfold jb_raw. pose proof (zlen_nonneg s).
  destruct (jb_need_spec j (zlen s) Hj) as (j1 & E1 & H1 & B1 & Hc); [lia|lia|]. rewrite E1, ret_bind.
  destruct (jb_put_spec j1 s (proj1 H1) Hc) as (j2 & E2 & H2 & B2). exists j2. split; [exact E2|].
  split; [apply (appended_trans _ _ _ [] s H1 H2)|]. unfold blamed. now rewrite B2.
Qed.

Lemma emits_c c : emits (jb_c realloc_ok c) [c].
Proof. exact (emits_raw [c]). Qed.

Lemma emits_cs s : emits (jb_cs realloc_ok s) s.
Proof.
  induction s as [|c s IH]; [apply emits_nil|]. cbn [jb_cs]. exact (emits_bind _ _ [c] s (emits_c c) IH).
Qed.

End Spec.

(** ** The texts, and reading them back *)

(** A text that fits its buffer is written whole. *)
Lemma snprintf_whole n s : zlen s < n -> snprintf_s n s = s.
Proof. unfold snprintf_s, zlen. intros H. apply take_ge. lia. Qed.

(** The value of digits, last one first. *)
Fixpoint undigits (b : Z) (l : list Z) : Z := match l with [] => 0 | d :: l => d + b * undigits b l end.

Lemma digits_spec n b v :
  1 < b -> 0 <= v < b ^ Z.of_nat n -> (0 < n)%nat ->
  exists l, digits n b v = Ret l /\ undigits b l = v /\ Forall (fun d => 0 <= d < b) l /\
            (0 < length l <= n)%nat.
Proof.
  intros Hb. revert v. induction n as [|n IH]; intros v Hv Hn; [lia|]. simpl digits.
  pose proof (Z.div_mod v b) as Hd. pose proof (Z.mod_pos_bound v b) as Hm.
  destruct (Z.eqb_spec (v / b) 0) as [E|E].
  - exists [v mod b]. split; [reflexivity|]. simpl. split; [lia|]. split; [|lia].
    repeat constructor; lia.
  - assert (Hp : 0 <= v / b) by (apply Z.div_pos; lia).
    assert (Hlt : v / b < b ^ Z.of_nat n).
    { apply Z.div_lt_upper_bound; [lia|]. rewrite Nat2Z.inj_succ, Z.pow_succ_r in Hv by lia. lia. }
    destruct n as [|n].
    { simpl in Hlt. lia. }
    destruct (IH (v / b)) as (l & E1 & E2 & E3 & E4); [lia|lia|]. rewrite E1, ret_bind.
    exists (v mod b :: l). split; [reflexivity|]. simpl. rewrite E2. split; [lia|]. split; [|simpl; lia].
    apply List.Forall_cons; [lia|exact E3].
Qed.

(** Reading a number: the digits from the left, [None] on another character. *)
Definition dec_val (c : byte) : option Z :=
  if (0x30 <=? bz c) && (bz c <=? 0x39) then Some (bz c - 0x30) else None.
Definition hex_val (c : byte) : option Z :=
  if (0x30 <=? bz c) && (bz c <=? 0x39) then Some (bz c - 0x30)
  else if (0x61 <=? bz c) && (bz c <=? 0x66) then Some (bz c - 0x61 + 10) else None.
Fixpoint read_num (b : Z) (val : byte -> option Z) (acc : Z) (l : list byte) : option Z :=
  match l with
  | [] => Some acc
  | c :: l => match val c with Some d => read_num b val (acc * b + d) l | None => None end
  end.
Definition read_dec (l : list byte) : option Z :=
  match l with [] => None | _ => read_num 10 dec_val 0 l end.
Definition read_int (l : list byte) : option Z :=
  match l with
  | x2d :: l => option_map Z.opp (read_dec l)
  | _ => read_dec l
  end.
Definition read_hex (l : list byte) : option Z :=
  match l with
  | x30 :: x78 :: c :: l => read_num 16 hex_val 0 (c :: l)
  | _ => None
  end.

Lemma dec_val_digit d : 0 <= d < 10 -> dec_val (dec_digit d) = Some d.
Proof.
  intros Hd. unfold dec_val, dec_digit. rewrite bz_zb_small by lia.
  rewrite (proj2 (Z.leb_le _ _)), (proj2 (Z.leb_le _ _)) by lia. simpl. f_equal. lia.
Qed.
Lemma hex_val_digit d : 0 <= d < 16 -> hex_val (hex_digit d) = Some d.
Proof.
  intros Hd. unfold hex_val, hex_digit. destruct (d <? 10) eqn:E; b2p; rewrite bz_zb_small by lia.
  - rewrite (proj2 (Z.leb_le _ _)), (proj2 (Z.leb_le _ _)) by lia. simpl. f_equal. lia.
  - rewrite (proj2 (Z.leb_gt (_ + _ - _) 0x39)), andb_false_r by lia.
    rewrite !(proj2 (Z.leb_le _ _)) by lia. simpl. f_equal. lia.
Qed.

Lemma read_num_app b val acc l k :
  read_num b val acc (l ++ k) = match read_num b val acc l with Some a => read_num b val a k | None => None end.
Proof. revert acc. induction l as [|c l IH]; intros acc; simpl; [reflexivity|]. destruct (val c); auto. Qed.

Lemma read_num_digits b val enc l :
  (forall d, 0 <= d < b -> val (enc d) = Some d) -> Forall (fun d => 0 <= d < b) l ->
  read_num b val 0 (reverse (map enc l)) = Some (undigits b l).
Proof.
  intros Hv. induction 1 as [|d l Hd Hl IH]; [reflexivity|]. simpl map. rewrite reverse_cons, read_num_app, IH.
  simpl. rewrite Hv by auto. f_equal. lia.
Qed.

(** JSON strings: the body up to the closing quote and what follows it. *)
Fixpoint read_str (fuel : nat) (l : list byte) : option (list byte * list byte) :=
  match fuel with
  | O => None
  | S fuel =>
      match l with
      | [] => None
      | c :: l =>
          if bz c =? 0x22 then Some ([], l) else
          if bz c <? 0x20 then None else
          if negb (bz c =? 0x5c) then
            match read_str fuel l with Some (s, r) => Some (c :: s, r) | None => None end
          else
            match l with
            | x22 :: l => match read_str fuel l with Some (s, r) => Some (x22 :: s, r) | None => None end
            | x5c :: l => match read_str fuel l with Some (s, r) => Some (x5c :: s, r) | None => None end
            | x6e :: l => match read_str fuel l with Some (s, r) => Some (x0a :: s, r) | None => None end
            | x72 :: l => match read_str fuel l with Some (s, r) => Some (x0d :: s, r) | None => None end
            | x74 :: l => match read_str fuel l with Some (s, r) => Some (x09 :: s, r) | None => None end
            | x75 :: a :: b :: c :: d :: l =>
                match read_num 16 hex_val 0 [a; b; c; d] with
                | Some v => if v <? 128 then
                              match read_str fuel l with Some (s, r) => Some (zb v :: s, r) | None => None end
                            else None
                | None => None
                end
            | _ => None
            end
      end
  end.

(** The escaped form of a string. *)
Definition esc (s : list byte) : list byte := flat_map (fun c => if safe_char c then [c] else esc_char c) s.

(** Base64: the value of a character, and the decoder. *)
Definition d64 (c : byte) : option Z :=
  let v := bz c in
  if (0x41 <=? v) && (v <=? 0x5a) then Some (v - 0x41)
  else if (0x61 <=? v) && (v <=? 0x7a) then Some (v - 0x61 + 26)
  else if (0x30 <=? v) && (v <=? 0x39) then Some (v - 0x30 + 52)
  else if v =? 0x2b then Some 62 else if v =? 0x2f then Some 63 else None.
Fixpoint unb64 (l : list byte) : option (list byte) :=
  match l with
  | [] => Some []
  | a :: b :: c :: d :: l =>
      match d64 a, d64 b, d64 c, d64 d with
      | Some a, Some b, Some c, Some d =>
          let v := a * 2 ^ 18 + b * 2 ^ 12 + c * 2 ^ 6 + d in
          option_map (fun r => zb (v / 2 ^ 16) :: zb (v / 2 ^ 8) :: zb v :: r) (unb64 l)
      | Some a, Some b, Some c, None =>
          let v := a * 2 ^ 18 + b * 2 ^ 12 + c * 2 ^ 6 in
          match d, l with x3d, [] => Some [zb (v / 2 ^ 16); zb (v / 2 ^ 8)] | _, _ => None end
      | Some a, Some b, None, _ =>
          let v := a * 2 ^ 18 + b * 2 ^ 12 in
          match c, d, l with x3d, x3d, [] => Some [zb (v / 2 ^ 16)] | _, _, _ => None end
      | _, _, _, _ => None
      end
  | _ => None
  end.

(** The text of base64. *)
Fixpoint b64 (p : list byte) : list byte :=
  match p with
  | a :: b :: c :: p =>
      let v := Z.lor (Z.lor (Z.shiftl (bz a) 16) (Z.shiftl (bz b) 8)) (bz c) in
      [sextet v 18; sextet v 12; sextet v 6; sextet v 0] ++ b64 p
  | [a] => let v := Z.shiftl (bz a) 16 in [sextet v 18; sextet v 12; x3d; x3d]
  | [a; b] => let v := Z.lor (Z.shiftl (bz a) 16) (Z.shiftl (bz b) 8) in
              [sextet v 18; sextet v 12; sextet v 6; x3d]
  | [] => []
  end.

Lemma d64_e64 v : 0 <= v < 64 -> d64 (e64 v) = Some v.
Proof.
  intros Hv. assert (Hb : 0 <= v < 256) by lia.
  pose (P := fun v => (64 <=? v) || match d64 (e64 v) with Some w => w =? v | None => false end).
  assert (HP : forallb P (map Z.of_nat (seq 0 256)) = true) by (vm_compute; reflexivity).
  pose proof (check_bytes P HP v Hb) as H. unfold P in H.
  apply orb_true_iff in H as [H|H]; b2p; [lia|]. destruct (d64 (e64 v)); [|discriminate]. b2p. now subst.
Qed.

Lemma zb_mod z : zb (z mod 256) = zb z.
Proof. unfold zb. now rewrite Z.mod_mod. Qed.
Lemma zb_eq z b : z mod 256 = bz b -> zb z = b.
Proof. intros H. rewrite <- zb_mod, H. apply zb_bz. Qed.

Lemma d64_sextet v k : 0 <= v -> 0 <= k -> d64 (sextet v k) = Some (v / 2 ^ k mod 64).
Proof.
  intros Hv Hk. unfold sextet. rewrite Z.shiftr_div_pow2 by lia.
  change 63 with (Z.ones 6). rewrite Z.land_ones by lia. apply d64_e64. apply Z.mod_pos_bound. lia.
Qed.

Lemma lor3 a b c : 0 <= b < 256 -> 0 <= c < 256 -> 0 <= a ->
  Z.lor (Z.lor (Z.shiftl a 16) (Z.shiftl b 8)) c = a * 2 ^ 16 + b * 2 ^ 8 + c.
Proof.
  intros Hb Hc Ha. rewrite Z.lor_comm.
  replace (Z.shiftl a 16) with (Z.shiftl (Z.shiftl a 8) 8) by (rewrite Z.shiftl_shiftl; f_equal; lia).
  rewrite <- Z.shiftl_lor, lor_shiftl_add by lia. rewrite (Z.lor_comm _ b), lor_shiftl_add by lia. lia.
Qed.

(** The sextets of a number of three, two or one bytes add up to it, and its bytes
    are the bytes it was made of. *)
Lemma sextets3 v : 0 <= v < 2 ^ 24 ->
  v / 2 ^ 18 mod 64 * 2 ^ 18 + v / 2 ^ 12 mod 64 * 2 ^ 12 + v / 2 ^ 6 mod 64 * 2 ^ 6 + v / 2 ^ 0 mod 64 = v.
Proof. intros Hv. Z.to_euclidean_division_equations. lia. Qed.
Lemma sextets2 a b : 0 <= a < 256 -> 0 <= b < 256 -> let v := a * 2 ^ 16 + b * 2 ^ 8 in
  v / 2 ^ 18 mod 64 * 2 ^ 18 + v / 2 ^ 12 mod 64 * 2 ^ 12 + v / 2 ^ 6 mod 64 * 2 ^ 6 = v.
Proof. intros Ha Hb v. unfold v. Z.to_euclidean_division_equations. lia. Qed.
Lemma sextets1 a : 0 <= a < 256 -> let v := a * 2 ^ 16 in
  v / 2 ^ 18 mod 64 * 2 ^ 18 + v / 2 ^ 12 mod 64 * 2 ^ 12 = v.
Proof. intros Ha v. unfold v. Z.to_euclidean_division_equations. lia. Qed.
Lemma bytes_of_24 a b c :
  0 <= a < 256 -> 0 <= b < 256 -> 0 <= c < 256 ->
  let v := a * 2 ^ 16 + b * 2 ^ 8 + c in
  0 <= v < 2 ^ 24 /\ v / 2 ^ 16 mod 256 = a /\ v / 2 ^ 8 mod 256 = b /\ v mod 256 = c.
Proof. intros Ha Hb Hc v. unfold v. Z.to_euclidean_division_equations. lia. Qed.

Lemma unb64_b64 p : unb64 (b64 p) = Some p.
Proof.
  enough (H : forall n p, (length p <= n)%nat -> unb64 (b64 p) = Some p) by (eapply H; reflexivity).
  clear p. induction n as [|n IH]; intros [|a [|b [|c p]]] Hn; simpl in Hn; try lia; try reflexivity.
  - pose proof (bz_range a) as Ha. destruct (bytes_of_24 (bz a) 0 0 Ha) as (Hv & H1 & _); [lia|lia|].
    cbn [b64]. rewrite Z.shiftl_mul_pow2 by lia. cbn [unb64]. rewrite !d64_sextet by lia.
    change (d64 x3d) with (@None Z). cbn iota. rewrite sextets1 by exact Ha. f_equal. f_equal.
    apply zb_eq. rewrite <- H1 at 2. do 2 f_equal. lia.
  - pose proof (bz_range a) as Ha. pose proof (bz_range b) as Hb.
    destruct (bytes_of_24 (bz a) (bz b) 0 Ha Hb) as (Hv & H1 & H2 & _); [lia|]. cbn [b64].
    replace (Z.lor (Z.shiftl (bz a) 16) (Z.shiftl (bz b) 8)) with (bz a * 2 ^ 16 + bz b * 2 ^ 8)
      by (rewrite <- (Z.add_0_r (_ + _)), <- (lor3 (bz a) (bz b) 0) by lia; apply Z.lor_0_r).
    rewrite Z.add_0_r in *. cbn [unb64]. rewrite !d64_sextet by lia.
    change (d64 x3d) with (@None Z). cbn iota. rewrite sextets2 by auto.
    f_equal. f_equal; [|f_equal]; now apply zb_eq.
  - pose proof (bz_range a) as Ha. pose proof (bz_range b) as Hb. pose proof (bz_range c) as Hc.
    destruct (bytes_of_24 (bz a) (bz b) (bz c) Ha Hb Hc) as (Hv & H1 & H2 & H3). cbn [b64].
    rewrite lor3 by lia. cbn [app unb64]. rewrite !d64_sextet by lia. cbn iota.
    rewrite sextets3 by exact Hv. rewrite IH by lia. simpl option_map. f_equal.
    f_equal; [|f_equal; [|f_equal]]; now apply zb_eq.
Qed.

(** One character, escaped or not, reads back as itself. *)
Lemma read_str_char fuel c l :
  read_str (S fuel) ((if safe_char c then [c] else esc_char c) ++ l) =
  match read_str fuel l with Some (s, r) => Some (c :: s, r) | None => None end.
Proof. destruct c; reflexivity. Qed.

Lemma read_str_esc s fuel rest :
  (length s < fuel)%nat -> read_str fuel (esc s ++ x22 :: rest) = Some (s, rest).
Proof.
  revert fuel. induction s as [|c s IH]; intros [|fuel] Hf; simpl in Hf; try lia; [reflexivity|].
  cbn [esc flat_map]. rewrite <- app_assoc, read_str_char. fold (esc s). now rewrite IH by lia.
Qed.

(** The escaped text has no bare quote and no control character: it cannot end the
    string it is in, nor the line. *)
Lemma esc_no_control s c : In c (esc s) -> bz c >= 0x20.
Proof.
  unfold esc. rewrite in_flat_map. intros (x & _ & Hc). destruct x; simpl in Hc;
    repeat (destruct Hc as [<-|Hc]; [vm_compute; discriminate|]); destruct Hc.
Qed.

Lemma safe_run_spec s run rest :
  safe_run s = (run, rest) ->
  s = run ++ rest /\ esc run = run /\ match rest with c :: _ => safe_char c = false | [] => True end.
Proof.
  revert run. induction s as [|c s IH]; intros run; simpl; [intros [= <- <-]; auto|].
  destruct (safe_char c) eqn:E; [|intros [= <- <-]; auto].
  destruct (safe_run s) as [r k]. intros [= <- <-]. destruct (IH r eq_refl) as (-> & H2 & H3).
  split; [reflexivity|]. split; [|exact H3]. cbn [esc flat_map]. fold (esc r). now rewrite E, H2.
Qed.

Lemma esc_app a b : esc (a ++ b) = esc a ++ esc b.
Proof. apply flat_map_app. Qed.

(** A record is built by a sequence of appends. *)
Inductive jop :=
| OpS (s : list byte) | OpC (c : byte) | OpU64 (v : Z) | OpI64 (v : Z) | OpHex (v : Z)
| OpEsc (s : list byte) | OpB64 (p : list byte).

Definition jop_ok (o : jop) : Prop :=
  match o with
  | OpU64 v | OpHex v => 0 <= v < 2 ^ 64
  | OpI64 v => - 2 ^ 63 <= v < 2 ^ 63
  | _ => True
  end.

(** The text of an append, when the numbers are in range. *)
Definition num_text (r : res (list Z)) (enc : Z -> byte) : list byte :=
  match r with Ret l => reverse (map enc l) | _ => [] end.
Definition jop_text (o : jop) : list byte :=
  match o with
  | OpS s => s
  | OpC c => [c]
  | OpU64 v => num_text (digits 24 10 v) dec_digit
  | OpI64 v => (if v <? 0 then [x2d] else []) ++ num_text (digits 20 10 (Z.abs v)) dec_digit
  | OpHex v => [x30; x78] ++ num_text (digits 16 16 v) hex_digit
  | OpEsc s => esc s
  | OpB64 p => b64 p
  end.

Lemma zlen_b64 p : zlen (b64 p) = (zlen p + 2) / 3 * 4.
Proof.
  enough (H : forall n p, (length p <= n)%nat -> zlen (b64 p) = (zlen p + 2) / 3 * 4) by (eapply H; reflexivity).
  clear p. induction n as [|n IH]; intros [|a [|b [|c p]]] Hn; simpl in Hn; try lia; try reflexivity.
  cbn [b64]. cbv zeta. rewrite zlen_app, IH, !zlen_cons by lia.
  replace (1 + (1 + (1 + zlen p)) + 2) with (zlen p + 2 + 1 * 3) by lia. rewrite Z.div_add by lia.
  unfold zlen. simpl. lia.
Qed.

Section Texts.
Context (realloc_ok : nat -> Z -> bool).
Notation emits := (emits realloc_ok).

Lemma emits_esc_loop fuel s : (length s < fuel)%nat -> emits (esc_loop realloc_ok fuel s) (esc s).
Proof.
  revert s. induction fuel as [|fuel IH]; intros s Hf; [lia|]. destruct s as [|c0 s0]; [apply emits_nil|].
  cbn [esc_loop]. destruct (safe_run (c0 :: s0)) as [run rest] eqn:E.
  destruct (safe_run_spec _ _ _ E) as (Hs & Hr & Hu). rewrite Hs, esc_app, Hr.
  apply emits_bind; [destruct run; [apply emits_nil|apply emits_raw]|].
  destruct rest as [|c rest]; [apply emits_nil|].
  cbn [esc flat_map]. rewrite Hu. fold (esc rest). apply emits_bind; [apply emits_raw|]. apply IH.
  apply (f_equal length) in Hs. rewrite length_app in Hs. simpl in *. lia.
Qed.

Lemma emits_esc s : emits (jb_esc realloc_ok s) (esc s).
Proof. apply emits_esc_loop. lia. Qed.

Lemma emits_b64_loop p : emits (b64_loop realloc_ok p) (b64 p).
Proof.
  enough (H : forall n p, (length p <= n)%nat -> emits (b64_loop realloc_ok p) (b64 p)) by (eapply H; reflexivity).
  clear p. induction n as [|n IH]; intros [|a [|b [|c p]]] Hn; simpl in Hn; try lia; try apply emits_nil;
    cbn [b64_loop b64]; cbv zeta.
  - do 2 (apply (emits_bind _ _ _ [_]); [apply emits_c|]). apply emits_raw.
  - do 3 (apply (emits_bind _ _ _ [_]); [apply emits_c|]). apply emits_c.
  - do 4 (apply (emits_bind _ _ _ [_]); [apply emits_c|]). apply IH. lia.
Qed.

Lemma emits_b64 p : emits (jb_b64 realloc_ok p) (b64 p).
Proof.
  apply emits_need; [|apply emits_b64_loop]. rewrite zlen_b64. pose proof (zlen_nonneg p).
  split; [apply Z.mul_nonneg_nonneg; [apply Z.div_pos; lia|lia]|lia].
Qed.

(** A printed number: digits of the base, read back by the reader. *)
Lemma emits_digits n b val enc v :
  1 < b -> (0 < n)%nat -> 0 <= v < b ^ Z.of_nat n -> (forall d, 0 <= d < b -> val (enc d) = Some d) ->
  exists l, digits n b v = Ret l /\ (0 < length l <= n)%nat /\
    read_num b val 0 (reverse (map enc l)) = Some v.
Proof.
  intros Hb Hn Hv He. destruct (digits_spec n b v Hb Hv Hn) as (l & E & Hu & Hd & Hl).
  exists l. split; [exact E|]. split; [exact Hl|]. now rewrite (read_num_digits b val enc), Hu.
Qed.

Lemma zlen_digits (enc : Z -> byte) l : zlen (reverse (map enc l)) = zlen l.
Proof. unfold zlen. now rewrite length_reverse, length_map. Qed.

Lemma rev_map_nonempty (enc : Z -> byte) l : (0 < length l)%nat -> exists c r, reverse (map enc l) = c :: r.
Proof.
  intros H. destruct (reverse (map enc l)) eqn:E; [|eauto]. apply (f_equal length) in E.
  rewrite length_reverse, length_map in E. simpl in E. lia.
Qed.

Lemma emits_u64 v : 0 <= v < 2 ^ 64 -> 
  emits (jb_u64 realloc_ok v) (jop_text (OpU64 v)) /\ read_dec (jop_text (OpU64 v)) = Some v.
Proof.
  intros Hv. destruct (emits_digits 24 10 dec_val dec_digit v) as (l & E & Hl & Hr); [lia|lia|simpl; lia|apply dec_val_digit|].
  cbn [jop_text]. rewrite E. cbn [num_text]. split.
  - unfold jb_u64. rewrite E. cbn [mbind res_bind].
    apply emits_need; [|apply emits_cs]. rewrite zlen_digits. pose proof (zlen_nonneg l). lia.
  - destruct (rev_map_nonempty dec_digit l) as (c & r & Ec); [lia|]. unfold read_dec. now rewrite Ec in *.
Qed.

Lemma emits_hex v : 0 <= v < 2 ^ 64 -> 
  emits (jb_hex realloc_ok v) (jop_text (OpHex v)) /\ read_hex (jop_text (OpHex v)) = Some v.
Proof.
  intros Hv. destruct (emits_digits 16 16 hex_val hex_digit v) as (l & E & Hl & Hr); [lia|lia|simpl; lia|apply hex_val_digit|].
  cbn [jop_text]. rewrite E. cbn [num_text]. split.
  - unfold jb_hex. rewrite E. cbn [mbind res_bind].
    apply emits_bind; [apply emits_raw|]. apply emits_need; [|apply emits_cs].
    rewrite zlen_digits. pose proof (zlen_nonneg l). lia.
  - destruct (rev_map_nonempty hex_digit l) as (c & r & Ec); [lia|]. rewrite Ec in *. exact Hr.
Qed.

Lemma dec_digit_not_minus l c r :
  Forall (fun d => 0 <= d < 10) l -> reverse (map dec_digit l) = c :: r -> c <> x2d.
Proof.
  intros Hl E ->. assert (Hin : In x2d (reverse (map dec_digit l))) by (rewrite E; now left).
  apply list_elem_of_In, elem_of_reverse, list_elem_of_In, in_map_iff in Hin as (d & Hd & Hi).
  rewrite List.Forall_forall in Hl. specialize (Hl d Hi). apply (f_equal bz) in Hd. unfold dec_digit in Hd.
  rewrite bz_zb_small in Hd by lia. change (bz x2d) with 45 in Hd. lia.
Qed.

Lemma read_int_pos c r : c <> x2d -> read_int (c :: r) = read_dec (c :: r).
Proof. intros H. destruct c; try reflexivity. congruence. Qed.

Lemma emits_i64 v : - 2 ^ 63 <= v < 2 ^ 63 -> 
  emits (jb_i64 realloc_ok v) (jop_text (OpI64 v)) /\ read_int (jop_text (OpI64 v)) = Some v.
Proof.
  intros Hv. destruct (digits_spec 20 10 (Z.abs v)) as (l & E & Hu & Hd & Hl); [lia|simpl; lia|lia|].
  set (t := (if v <? 0 then [x2d] else []) ++ reverse (map dec_digit l)).
  assert (Ht : take 23 t = t).
  { apply take_ge. unfold t. rewrite length_app, length_reverse, length_map. destruct (v <? 0); simpl; lia. }
  cbn [jop_text]. rewrite E. cbn [num_text]. fold t. split.
  - unfold jb_i64, dec_text. rewrite E. cbn [mbind res_bind]. fold t. rewrite Ht. apply emits_raw.
  - destruct (rev_map_nonempty dec_digit l) as (c & r & Ec); [lia|].
    pose proof (read_num_digits 10 dec_val dec_digit l dec_val_digit Hd) as Hr. rewrite Ec, Hu in Hr.
    unfold t. rewrite Ec. destruct (v <? 0) eqn:Es; b2p; cbn [app].
    + cbn [read_int]. unfold read_dec. rewrite Hr. simpl. f_equal. lia.
    + rewrite read_int_pos by (eapply dec_digit_not_minus; eauto). unfold read_dec. rewrite Hr. f_equal. lia.
Qed.

(** ** Records *)

Definition jop_run (realloc_ok : nat -> Z -> bool) (o : jop) (j : jbuf) : res jbuf :=
  match o with
  | OpS s => jb_s realloc_ok s j
  | OpC c => jb_c realloc_ok c j
  | OpU64 v => jb_u64 realloc_ok v j
  | OpI64 v => jb_i64 realloc_ok v j
  | OpHex v => jb_hex realloc_ok v j
  | OpEsc s => jb_esc realloc_ok s j
  | OpB64 p => jb_b64 realloc_ok p j
  end.

Fixpoint build (realloc_ok : nat -> Z -> bool) (os : list jop) (j : jbuf) : res jbuf :=
  match os with [] => Ret j | o :: os => j ← jop_run realloc_ok o j; build realloc_ok os j end.
Definition text (os : list jop) : list byte := flat_map jop_text os.

(** Build a record and hand it to the sink. *)
Definition put_record (realloc_ok : nat -> Z -> bool) (io : option Z * option Z) (os : list jop) (s : sink)
  : res sink :=
  j ← build realloc_ok os (sk_jb s);
  Ret (anubee_sink_emit (fst io) (snd io)
         (mk_sink (sk_file s) j (sk_count s) (sk_jsonl s) (sk_since s) (sk_werr s))).
Fixpoint put_records (realloc_ok : nat -> Z -> bool) (l : list (option Z * option Z * list jop)) (s : sink)
  : res sink :=
  match l with
  | [] => Ret s
  | (io, os) :: l => s ← put_record realloc_ok io os s; put_records realloc_ok l s
  end.

Lemma emits_jop o : jop_ok o -> emits (jop_run realloc_ok o) (jop_text o).
Proof.
  destruct o; intros Ho; [apply emits_raw|apply emits_c|now apply emits_u64|now apply emits_i64
    |now apply emits_hex|apply emits_esc|apply emits_b64].
Qed.

Lemma emits_build os : Forall jop_ok os -> emits (build realloc_ok os) (text os).
Proof.
  induction 1 as [|o os Ho Hos IH]; [apply emits_nil|]. cbn [build text flat_map].
  apply emits_bind; [now apply emits_jop|exact IH].
Qed.
End Texts.

(** ** Framing *)

(** The bytes of a file that holds the records [l], before and after closing. *)
Fixpoint frame_from (jsonl first : bool) (l : list (list byte)) : list byte :=
  match l with
  | [] => []
  | r :: l => (if jsonl then r ++ [x0a]
               else (if first then [x0a; x20; x20] else [x2c; x0a; x20; x20]) ++ r)
              ++ frame_from jsonl false l
  end.
Definition sink_text (jsonl : bool) (l : list (list byte)) : list byte :=
  (if jsonl then [] else [x5b]) ++ frame_from jsonl true l ++ (if jsonl then [] else [x0a; x5d; x0a]).

Lemma frame_from_snoc jsonl first l r :
  frame_from jsonl first (l ++ [r]) =
  frame_from jsonl first l ++
  (if jsonl then r ++ [x0a]
   else (if first && bool_decide (l = []) then [x0a; x20; x20] else [x2c; x0a; x20; x20]) ++ r).
Proof.
  revert first. induction l as [|a l IH]; intros first; [simpl|cbn [frame_from app]].
  - rewrite app_nil_r. destruct jsonl, first; reflexivity.
  - rewrite IH, (bool_decide_false (a :: l = [])), andb_false_r by discriminate. now rewrite app_assoc.
Qed.

(** The sink holds the records [kept] and an empty buffer. *)
Record sink_at (s : sink) (jsonl : bool) (kept : list (list byte)) : Prop := {
  sa_file : sk_file s = Some ((if jsonl then [] else [x5b]) ++ frame_from jsonl true kept);
  sa_mode : sk_jsonl s = jsonl;
  sa_count : sk_count s = zlen kept;
  sa_jb : jb_ok (sk_jb s);
  sa_empty : jbytes (sk_jb s) = []
}.

Lemma zlen_zero {A} (l : list A) : zlen l = 0 -> l = [].
Proof. destruct l; [reflexivity|]. rewrite zlen_cons. pose proof (zlen_nonneg l). lia. Qed.

Lemma jb_reset_ok j : jb_ok j -> jb_ok (jb_reset j) /\ jbytes (jb_reset j) = [].
Proof.
  intros [H1 H2 H3]. unfold jb_reset, jlen, jbytes in *. destruct (j_b j) as [b|]; simpl in *.
  - split; [|reflexivity]. constructor; unfold jlen, jbytes; simpl; [discriminate| |lia].
    pose proof (zlen_nonneg b). change (zlen (@nil byte)) with 0. lia.
  - split; [|reflexivity]. constructor; unfold jlen, jbytes; simpl; auto.
Qed.

(** Emitting a buffer without the latch. *)
Lemma sink_emit_spec wr fl s (jsonl : bool) kept b :
  sk_file s = Some ((if jsonl then [] else [x5b]) ++ frame_from jsonl true kept) -> sk_jsonl s = jsonl ->
  sk_count s = zlen kept -> zlen kept < 2 ^ 64 - 1 -> jb_ok (sk_jb s) -> j_b (sk_jb s) = Some b ->
  j_err (sk_jb s) = false -> b <> [] ->
  sink_at (anubee_sink_emit wr fl s) jsonl (kept ++ [b]) /\ j_err (sk_jb (anubee_sink_emit wr fl s)) = false.
Proof.
  intros Hf Hm Hc HK Hj Hb He Hne. unfold anubee_sink_emit. rewrite Hf, Hb.
  rewrite (proj2 (Z.eqb_neq (zlen b) 0)) by (intros H; now apply Hne, zlen_zero).
  rewrite He. cbv zeta. pose proof (jb_reset_ok _ Hj) as [R1 R2]. pose proof (zlen_nonneg kept) as HK0.
  assert (Hcount : u64 (sk_count s + 1) = zlen (kept ++ [b]))
    by (rewrite zlen_app, zlen_cons, Hc; change (zlen (@nil (list byte))) with 0; rewrite u64_small; lia).
  assert (Hfile : ((if jsonl then [] else [x5b]) ++ frame_from jsonl true kept) ++
      (if sk_jsonl s then b ++ [x0a]
       else (if sk_count s =? 0 then [x0a; x20; x20] else [x2c; x0a; x20; x20]) ++ b) =
      (if jsonl then [] else [x5b]) ++ frame_from jsonl true (kept ++ [b])).
  { rewrite frame_from_snoc, app_assoc, Hm, Hc, andb_true_l. f_equal. f_equal.
    destruct (bool_decide (kept = [])) eqn:E.
    - apply bool_decide_eq_true in E as ->. reflexivity.
    - apply bool_decide_eq_false in E. rewrite (proj2 (Z.eqb_neq _ _)); [reflexivity|].
      intros H. now apply E, zlen_zero. }
  destruct (_ >=? _); (split; [constructor; cbn [sk_file sk_jsonl sk_count sk_jb]; auto; now rewrite Hfile|reflexivity]).
Qed.

(** One record: kept whole or dropped, and dropped only when memory ran out. *)
Lemma put_record_spec realloc_ok io os s jsonl kept :
  sink_at s jsonl kept -> Forall jop_ok os -> zlen (text os) <= LIM -> text os <> [] ->
  zlen kept < 2 ^ 64 - 1 ->
  exists s', put_record realloc_ok io os s = Ret s' /\
    (sink_at s' jsonl (kept ++ [text os]) /\ j_err (sk_jb s') = false \/
     sink_at s' jsonl kept /\ (j_err (sk_jb s) = true \/ exists n z, realloc_ok n z = false)).
Proof.
  intros [Hf Hm Hc Hj He] Hos HL Hne HK. unfold put_record.
  destruct (emits_build realloc_ok os Hos (sk_jb s) Hj) as (j & -> & [Hj' Ha] & Hb).
  { unfold jlen. rewrite He. change (zlen (@nil byte)) with 0. lia. }
  rewrite ret_bind. eexists. split; [reflexivity|]. rewrite He in Ha.
  set (s1 := mk_sink _ j _ _ _ _). destruct (j_err j) eqn:Ej.
  - right. split; [|apply Hb, Ej]. unfold anubee_sink_emit, s1. cbn [sk_file sk_jb]. rewrite Hf.
    destruct (j_b j) as [b|] eqn:Eb.
    + destruct (Z.eqb_spec (zlen b) 0) as [E0|].
      * apply zlen_zero in E0 as ->. constructor; auto. unfold jbytes. simpl. now rewrite Eb.
      * rewrite Ej. destruct (jb_reset_ok j Hj'). constructor; auto.
    + constructor; auto. unfold jbytes. simpl. now rewrite Eb.
  - left. destruct (j_err (sk_jb s)) eqn:Es; [congruence|]. simpl in Ha.
    destruct (j_b j) as [b|] eqn:Eb; [|unfold jbytes in Ha; rewrite Eb in Ha; symmetry in Ha; contradiction].
    assert (Hbt : b = text os) by (unfold jbytes in Ha; now rewrite Eb in Ha).
    rewrite <- Hbt in *. apply sink_emit_spec; auto.
Qed.

Lemma put_records_spec realloc_ok l s jsonl kept :
  sink_at s jsonl kept -> Forall (fun r => Forall jop_ok (snd r) /\ zlen (text (snd r)) <= LIM /\ text (snd r) <> []) l ->
  zlen kept + zlen l < 2 ^ 64 ->
  exists s' k, put_records realloc_ok l s = Ret s' /\ sink_at s' jsonl (kept ++ k) /\
    k `sublist_of` map (fun r => text (snd r)) l /\
    (j_err (sk_jb s) = false -> (forall n z, realloc_ok n z = true) -> k = map (fun r => text (snd r)) l).
Proof.
  intros Hs Hl. revert s kept Hs. induction Hl as [|[io os] l (H1 & H2 & H3) Hl IH]; intros s kept Hs HK; simpl.
  { exists s, []. rewrite app_nil_r. split; [reflexivity|]. auto. }
  rewrite zlen_cons in HK. pose proof (zlen_nonneg l).
  destruct (put_record_spec realloc_ok io os s jsonl kept Hs H1 H2 H3) as (s1 & -> & Hc); [lia|]. rewrite ret_bind.
  destruct Hc as [[Hs1 He1]|[Hs1 Hwhy]].
  - destruct (IH s1 (kept ++ [text os]) Hs1) as (s' & k & E & Hs' & Hk & Hall).
    { rewrite zlen_app, zlen_cons. change (zlen (@nil (list byte))) with 0. lia. }
    exists s', (text os :: k). rewrite <- app_assoc in Hs'. split; [exact E|]. split; [exact Hs'|].
    split; [now constructor|]. intros _ Hok. f_equal. now apply Hall.
  - destruct (IH s1 kept Hs1) as (s' & k & E & Hs' & Hk & _); [lia|]. exists s', k.
    split; [exact E|]. split; [exact Hs'|]. split; [now apply sublist_cons|].
    intros He Hok. exfalso. destruct Hwhy as [?|(n & z & Hn)]; [congruence|]. rewrite Hok in Hn. discriminate.
Qed.

(** ** Properties *)

(** C28: what the serializer writes reads back.  For every buffer with room below the
    limit and every outcome of the allocations, each append either writes its whole
    text or sets the latch; the escaped form of any string, followed by a quote,
    reads back as a JSON string to exactly that string with the quote as its end
    and holds no control character; decimal, signed and hexadecimal numbers over
    their whole 64-bit range, and base64 of any bytes, read back to what was
    printed. *)
Theorem emitted_values_read_back (realloc_ok : nat -> Z -> bool) (s p rest : list byte) (v w : Z)
    (Hv : 0 <= v < 2 ^ 64) (Hw : - 2 ^ 63 <= w < 2 ^ 63) :
  emits realloc_ok (jb_esc realloc_ok s) (esc s) /\
  read_str (S (length s)) (esc s ++ x22 :: rest) = Some (s, rest) /\
  Forall (fun c => bz c >= 0x20) (esc s) /\
  emits realloc_ok (jb_u64 realloc_ok v) (jop_text (OpU64 v)) /\ read_dec (jop_text (OpU64 v)) = Some v /\
  emits realloc_ok (jb_i64 realloc_ok w) (jop_text (OpI64 w)) /\ read_int (jop_text (OpI64 w)) = Some w /\
  emits realloc_ok (jb_hex realloc_ok v) (jop_text (OpHex v)) /\ read_hex (jop_text (OpHex v)) = Some v /\
  emits realloc_ok (jb_b64 realloc_ok p) (b64 p) /\ unb64 (b64 p) = Some p.
Proof.
  split; [apply emits_esc|]. split; [apply read_str_esc; lia|].
  split; [apply List.Forall_forall; exact (esc_no_control s)|].
  destruct (emits_u64 realloc_ok v Hv), (emits_i64 realloc_ok w Hw), (emits_hex realloc_ok v Hv).
  split; [assumption|]. split; [assumption|]. split; [assumption|]. split; [assumption|].
  split; [assumption|]. split; [assumption|]. split; [apply emits_b64|apply unb64_b64].
Qed.

Lemma emitted_values_read_back_witness :
  jop_text (OpI64 (-42)) = bytes_of "-42" /\ b64 (bytes_of "any") = bytes_of "YW55" /\
  read_str 4 (esc [x61; x22; x0a] ++ [x22; x2c]) = Some ([x61; x22; x0a], [x2c]) /\
  read_hex (jop_text (OpHex 0xbeef)) = Some 0xbeef.
Proof.
  split; [vm_compute; reflexivity|]. split; [vm_compute; reflexivity|].
  destruct (emitted_values_read_back (fun _ _ => true) [x61; x22; x0a] [] [x2c] 0xbeef 0) as (_ & H1 & _ & _ & _ & _ & _ & _ & H2 & _);
    [lia|lia|]. split; [exact H1|exact H2].
Defined.


Definition demo_sink : sink := mk_sink None (mk_jbuf None 0 false 0) 0 false 0 0.
Definition demo_records : list (option Z * option Z * list jop) :=
  [(None, None, [OpS (bytes_of "{a:"); OpU64 7; OpC x7d]); (Some 28, None, [OpEsc [x22]])].


(** When the very first growth of the buffer fails, the latch is never reset: the
    emit that should drop the record returns early because nothing was written, and
    every later record is lost although memory is available again. *)
Theorem first_failure_loses_all_records :
  let ro := fun n _ => negb (n =? 0)%nat in
  exists s', put_records ro (repeat (None, None, [OpC x61]) 3) (snd (anubee_sink_open true true demo_sink)) = Ret s' /\
             sk_count s' = 0 /\ fst (anubee_sink_close None None s') = Some [] /\ j_err (sk_jb s') = true.
Proof. eexists. vm_compute. auto. Qed.
