(* ===== verification/SymElf.v ===== *)
(** * SymElf: ELF symbol tables (src/common/sym_elf.c)

    Symbols of an untrusted ELF are copied into a per-module array with a string
    arena, sorted and de-duplicated, and looked up by address.  A symbol or string
    table is a range of a byte object; every load is bounds-checked.  Allocation
    outcomes and [qsort] are parameters. *)

From Stdlib Require Import ZArith Lia.
From Stdlib Require Import Sorted Permutation.
From stdpp Require Import base list option numbers sorting.
From S2P Require Import Prelude Elf Emit.

Local Open Scope Z_scope.

Record sym := mk_sym { value : Z; size : Z; name_off : Z }.
(** [ds_str] is the filled part of the arena, [None] before its first allocation. *)
Record dynsym := mk_dynsym { ds_str : option (list byte); ds_strcap : Z; ds_s : list sym; ds_ok : bool }.
Definition dynsym0 : dynsym := mk_dynsym None 0 [] false.
Definition arena (ds : dynsym) : list byte := default [] (ds_str ds).

Record Elf64_Sym := mk_esym {
  st_name : Z; st_info : Z; st_shndx : Z; st_value : Z; st_size : Z
}.
Definition sym_of (b : list byte) : Elf64_Sym :=
  mk_esym (le_at 4 b 0) (byte_at b 4) (le_at 2 b 6) (le_at 8 b 8) (le_at 8 b 16).

Definition STT_OBJECT := 1.
Definition STT_SECTION := 3.
Definition STT_FILE := 4.
Definition STT_TLS := 6.

(** A symbol that names code: [false] for the entries the loop skips. *)
Definition is_code_sym (es : Elf64_Sym) : bool :=
  negb ((st_value es =? 0) || (st_shndx es =? 0) || (st_name es =? 0)) &&
  (let t := Z.land (st_info es) 0xf in
   negb ((t =? STT_OBJECT) || (t =? STT_SECTION) || (t =? STT_FILE) || (t =? STT_TLS))).

(** [memchr] for the terminator in [n] bytes at [p]; the bytes before it. *)
Fixpoint find_nul (n : nat) (buf : list byte) (p : Z) : res (option (list byte)) :=
  match n with
  | O => Ret None
  | S n =>
      b ← ld buf p;
      if b =? 0 then Ret (Some []) else
      r ← find_nul n buf (p + 1);
      Ret (option_map (cons (zb b)) r)
  end.

Definition sym_cmp (a b : sym) : Prop := value a <= value b.

(** Keep the first entry of every run of equal addresses. *)
Fixpoint keep_first (prev : option Z) (l : list sym) : list sym :=
  match l with
  | [] => []
  | s :: l => if bool_decide (prev = Some (value s)) then keep_first prev l
              else s :: keep_first (Some (value s)) l
  end.

Definition dynsym_finalize (qsort : list sym -> list sym) (ds : dynsym) : dynsym :=
  match ds_s ds with
  | [] => ds
  | _ => mk_dynsym (ds_str ds) (ds_strcap ds) (keep_first None (qsort (ds_s ds))) (ds_ok ds)
  end.

Section Symbols.
Context (alloc_ok : Z -> bool).

(** Returns the offset of the copied name, 0 when an allocation failed. *)
Definition arena_add (ds : dynsym) (name : list byte) : res (Z * dynsym) :=
  match (match ds_str ds with
         | Some s => Some (s, ds_strcap ds)
         | None => if alloc_ok 4096 then Some ([x00], 4096) else None
         end) with
  | None => Ret (0, mk_dynsym None 0 (ds_s ds) (ds_ok ds))
  | Some (str, cap) =>
      let len := zlen name + 1 in
      match (if zlen str + len >? cap then
               match grow 64 (u64 (cap * 2)) (zlen str + len) with
               | None => NoFuel
               | Some nc => if alloc_ok nc then Ret nc else Fail
               end
             else Ret cap) with
      | Ret cap =>
          if zlen str + len <=? cap then
            Ret (u32 (zlen str), mk_dynsym (Some (str ++ name ++ [x00])) cap (ds_s ds) (ds_ok ds))
          else Oob
      | Fail => Ret (0, mk_dynsym (Some str) cap (ds_s ds) (ds_ok ds))
      | Oob => Oob
      | NoFuel => NoFuel
      end
  end.

(** Entries [i ..] of a table at [symoff] of [symbuf], with strings at [stroff] of [strbuf]. *)
Fixpoint add_loop (n : nat) (symbuf : list byte) (symoff entsize : Z) (strbuf : list byte) (stroff strn : Z)
    (i : Z) (ds : dynsym) : res dynsym :=
  match n with
  | O => Ret ds
  | S n =>
      b ← memcpy_in symbuf (symoff + i * entsize) sizeof_Sym;
      let es := sym_of b in
      let next := add_loop n symbuf symoff entsize strbuf stroff strn (i + 1) in
      if negb (is_code_sym es) then next ds else
      if st_name es >=? strn then next ds else
      name ← find_nul (Z.to_nat (strn - st_name es)) strbuf (stroff + st_name es);
      match name with
      | None => next ds
      | Some name =>
          '(off, ds) ← arena_add ds name;
          if off =? 0 then next ds else
          next (mk_dynsym (ds_str ds) (ds_strcap ds)
                  (ds_s ds ++ [mk_sym (st_value es) (st_size es) off]) (ds_ok ds))
      end
  end.

Definition add_symbols (ds : dynsym) (symbuf : list byte) (symoff symbytes entsize : Z)
    (strbuf : list byte) (stroff strn : Z) : res dynsym :=
  let entsize := if entsize =? 0 then sizeof_Sym else entsize in
  let count := symbytes / entsize in
  if count =? 0 then Ret ds else
  if negb (alloc_ok (u64 ((zlen (ds_s ds) + count) * 24))) then Ret ds else
  add_loop (Z.to_nat count) symbuf symoff entsize strbuf stroff strn 0 ds.

Definition elf_shtab_in_bounds (e_shoff e_shnum e_shentsize len : Z) : bool :=
  if e_shoff >? len then false
  else if e_shnum >? (len - e_shoff) / e_shentsize then false
  else true.

Definition SHT_SYMTAB := 2.

Fixpoint embedded_loop (n : nat) (buf : list byte) (eh : Elf64_Ehdr) (i : Z) (ds : dynsym) : res dynsym :=
  match n with
  | O => Ret ds
  | S n =>
      b ← memcpy_in buf (e_shoff eh + i * e_shentsize eh) sizeof_Shdr;
      let sec := shdr_of b in
      let next := embedded_loop n buf eh (i + 1) in
      if negb (sh_type sec =? SHT_SYMTAB) || (sh_link sec >=? e_shnum eh) then next ds else
      b ← memcpy_in buf (e_shoff eh + sh_link sec * e_shentsize eh) sizeof_Shdr;
      let str := shdr_of b in
      if (u64 (sh_offset sec + sh_size sec) >? zlen buf) || (u64 (sh_offset str + sh_size str) >? zlen buf)
      then next ds else
      ds ← add_symbols ds buf (sh_offset sec) (sh_size sec) (sh_entsize sec) buf (sh_offset str) (sh_size str);
      next ds
  end.

Definition ingest_embedded (ds : dynsym) (buf : list byte) : res dynsym :=
  let len := zlen buf in
  if len <? sizeof_Ehdr then Ret ds else
  b ← memcpy_in buf 0 sizeof_Ehdr;
  let eh := ehdr_of b in
  if negb (elf_magic_ok eh) || negb (elf_class eh =? ELFCLASS64) then Ret ds else
  if (e_shoff eh =? 0) || (e_shnum eh =? 0) || (e_shentsize eh <? sizeof_Shdr) then Ret ds else
  if negb (elf_shtab_in_bounds (e_shoff eh) (e_shnum eh) (e_shentsize eh) len) then Ret ds else
  embedded_loop (Z.to_nat (e_shnum eh)) buf eh 0 ds.

(** ** Files *)

(** [pread n off]: the bytes delivered, none for end of file or an error. *)
Context (pread : Z -> Z -> list byte).

(** [Fail] is a return of -1. *)
Fixpoint pread_all (fuel : nat) (n off : Z) : res (list byte) :=
  match fuel with
  | O => NoFuel
  | S fuel =>
      if n =? 0 then Ret [] else
      let r := pread n off in
      fail_if zlen r =? 0;
      rest ← pread_all fuel (n - zlen r) (off + zlen r);
      Ret (r ++ rest)
  end.

(** A heap block of [n] bytes filled from the file: nothing when either step fails. *)
Definition read_block (n off : Z) : res (option (list byte)) :=
  if negb (alloc_ok (Z.max 1 n)) then Ret None else
  match pread_all (S (Z.to_nat n)) n (s64 off) with
  | Ret b => Ret (Some b)
  | Fail => Ret None
  | Oob => Oob
  | NoFuel => NoFuel
  end.

Definition ingest_fd_section (ds : dynsym) (elf_off : Z) (symsec strsec : Elf64_Shdr) : res dynsym :=
  if sh_size symsec =? 0 then Ret ds else
  strbuf ← read_block (sh_size strsec) (elf_off + sh_offset strsec);
  match strbuf with
  | None => Ret ds
  | Some strbuf =>
      symbuf ← read_block (sh_size symsec) (elf_off + sh_offset symsec);
      match symbuf with
      | None => Ret ds
      | Some symbuf =>
          add_symbols ds symbuf 0 (sh_size symsec) (sh_entsize symsec) strbuf 0 (sh_size strsec)
      end
  end.

(** [lzma_stream_buffer_decode] into [cap] bytes. *)
Inductive lzma_ret := LZMA_OK (out : list byte) | LZMA_BUF_ERROR | LZMA_OTHER.
Context (lzma_decode : list byte -> Z -> lzma_ret).

Fixpoint decompress_loop (tries : nat) (inp : list byte) (cap : Z) : option (list byte) :=
  match tries with
  | O => None
  | S tries =>
      if negb (alloc_ok cap) then None else
      match lzma_decode inp cap with
      | LZMA_OK out => Some out
      | LZMA_BUF_ERROR => decompress_loop tries inp (u64 (cap * 2))
      | LZMA_OTHER => None
      end
  end.

Definition decompress_xz (inp : list byte) : option (list byte) :=
  decompress_loop 8 inp (u64 (zlen inp * 5 + 4096)).

Definition SHT_DYNSYM := 11.
Definition SECTION_MAX := 64 * 2 ^ 20.

(** [strcmp] against [s] (with its terminator) of the string at [p]: stops at the
    first difference. *)
Fixpoint strcmp_at (buf : list byte) (p : Z) (s : list byte) : res bool :=
  match s with
  | [] => Ret true
  | c :: s => b ← ld buf p; if b =? bz c then strcmp_at buf (p + 1) s else Ret false
  end.

Definition GNU_DEBUGDATA : list byte := bytes_of ".gnu_debugdata" ++ [x00].

(** The mini-debug-info of one section, when it can be read and unpacked. *)
Definition ingest_debugdata (ds : dynsym) (elf_off : Z) (sec : Elf64_Shdr) : res dynsym :=
  cz ← read_block (sh_size sec) (elf_off + sh_offset sec);
  match cz with
  | None => Ret ds
  | Some cz => match decompress_xz cz with Some raw => ingest_embedded ds raw | None => Ret ds end
  end.

Fixpoint sections_loop (n : nat) (sh : list byte) (shnum elf_off : Z) (shstr : option (list byte)) (i : Z) (ds : dynsym)
  : res dynsym :=
  match n with
  | O => Ret ds
  | S n =>
      b ← memcpy_in sh (i * sizeof_Shdr) sizeof_Shdr;
      let sec := shdr_of b in
      let next := sections_loop n sh shnum elf_off shstr (i + 1) in
      if (sh_type sec =? SHT_DYNSYM) || (sh_type sec =? SHT_SYMTAB) then
        if sh_link sec <? shnum then
          b ← memcpy_in sh (sh_link sec * sizeof_Shdr) sizeof_Shdr;
          ds ← ingest_fd_section ds elf_off sec (shdr_of b); next ds
        else next ds
      else
        match shstr with
        | None => next ds
        | Some str =>
            if negb (sh_name sec <? zlen str) then next ds else
            same ← strcmp_at str (sh_name sec) GNU_DEBUGDATA;
            if same && negb (sh_size sec =? 0) && (sh_size sec <? SECTION_MAX) then
              ds ← ingest_debugdata ds elf_off sec; next ds
            else next ds
        end
  end.

(** The section-name table, when there is a readable one of a sane size. *)
Definition read_shstr (sh : list byte) (eh : Elf64_Ehdr) (elf_off : Z) : res (option (list byte)) :=
  if negb (e_shstrndx eh <? e_shnum eh) then Ret None else
  b ← memcpy_in sh (e_shstrndx eh * sizeof_Shdr) sizeof_Shdr;
  let s := shdr_of b in
  if (sh_size s =? 0) || negb (sh_size s <? SECTION_MAX) then Ret None else
  read_block (sh_size s) (elf_off + sh_offset s).

Definition set_ok (ok : bool) (ds : dynsym) : dynsym := mk_dynsym (ds_str ds) (ds_strcap ds) (ds_s ds) ok.

(** [opened]: [open_module_file] returned a descriptor. *)
Definition parse_symbols (qsort : list sym -> list sym) (path : list byte) (opened : bool) (elf_off : Z) (ds : dynsym)
  : res dynsym :=
  let ds := set_ok false ds in
  if (byte_at path 0 =? 0) || (byte_at path 0 =? 0x5b) || negb opened then Ret ds else
  match pread_all (S (Z.to_nat sizeof_Ehdr)) sizeof_Ehdr (s64 elf_off) with
  | Fail => Ret ds
  | Oob => Oob
  | NoFuel => NoFuel
  | Ret b =>
      let eh := ehdr_of b in
      if negb (elf_magic_ok eh) || negb (elf_class eh =? ELFCLASS64) then Ret ds else
      if (e_shoff eh =? 0) || (e_shnum eh =? 0) || negb (e_shentsize eh =? sizeof_Shdr) then Ret ds else
      sh ← read_block (e_shnum eh * e_shentsize eh) (elf_off + e_shoff eh);
      match sh with
      | None => Ret ds
      | Some sh =>
          shstr ← read_shstr sh eh elf_off;
          ds ← sections_loop (Z.to_nat (e_shnum eh)) sh (e_shnum eh) elf_off shstr 0 ds;
          Ret (set_ok true (dynsym_finalize qsort ds))
      end
  end.
End Symbols.

(** The search for the first entry above [vaddr]. *)
Fixpoint upper (fuel : nat) (l : list sym) (vaddr : Z) (lo hi : nat) : res nat :=
  match fuel with
  | O => NoFuel
  | S fuel =>
      if negb (Nat.ltb lo hi) then Ret lo else
      let mid := ((lo + hi) / 2)%nat in
      match l !! mid with
      | None => Oob
      | Some s => if value s <=? vaddr then upper fuel l vaddr (S mid) hi else upper fuel l vaddr lo mid
      end
  end.

(** The symbol that covers [vaddr] and the distance into it; its name is the C
    string of the arena at [name_off]. *)
Definition sym_lookup (ds : dynsym) (vaddr : Z) : res (option (sym * Z)) :=
  if negb (ds_ok ds) then Ret None else
  match ds_s ds with
  | [] => Ret None
  | _ =>
      lo ← upper (S (length (ds_s ds))) (ds_s ds) vaddr 0 (length (ds_s ds));
      match lo with
      | O => Ret None
      | S k =>
          match ds_s ds !! k with
          | None => Oob
          | Some s =>
              let d := u64 (vaddr - value s) in
              if negb (size s =? 0) then (if d >=? size s then Ret None else Ret (Some (s, d)))
              else if d >? 0x1000 then Ret None else Ret (Some (s, d))
          end
      end
  end.

Fixpoint debugdata_loop (n : nat) (buf : list byte) (eh : Elf64_Ehdr) (stroff shstrn i : Z) : res (Z * Z) :=
  match n with
  | O => Fail
  | S n =>
      b ← memcpy_in buf (e_shoff eh + i * e_shentsize eh) sizeof_Shdr;
      let sh := shdr_of b in
      let next := debugdata_loop n buf eh stroff shstrn (i + 1) in
      if (sh_name sh =? 0) || (sh_name sh >=? shstrn) then next else
      same ← strcmp_at buf (stroff + sh_name sh) GNU_DEBUGDATA;
      if negb same then next else
      fail_if sh_size sh =? 0;
      fail_if (sh_offset sh >? zlen buf) || (sh_size sh >? zlen buf - sh_offset sh);
      Ret (sh_offset sh, sh_size sh)
  end.

(** [Fail] is a return of -1. *)
Definition find_gnu_debugdata (buf : list byte) : res (Z * Z) :=
  let len := zlen buf in
  fail_if len <? sizeof_Ehdr;
  b ← memcpy_in buf 0 sizeof_Ehdr;
  let eh := ehdr_of b in
  fail_if negb (elf_magic_ok eh) || negb (elf_class eh =? ELFCLASS64);
  fail_if (e_shoff eh =? 0) || (e_shnum eh =? 0) || (e_shentsize eh <? sizeof_Shdr);
  fail_if negb (elf_shtab_in_bounds (e_shoff eh) (e_shnum eh) (e_shentsize eh) len);
  fail_if (e_shstrndx eh =? 0) || (e_shstrndx eh >=? e_shnum eh);
  b ← memcpy_in buf (e_shoff eh + e_shstrndx eh * e_shentsize eh) sizeof_Shdr;
  let sh := shdr_of b in
  fail_if (sh_size sh =? 0) || (sh_offset sh >? len) || (sh_size sh >? len - sh_offset sh);
  debugdata_loop (Z.to_nat (e_shnum eh)) buf eh (sh_offset sh) (sh_size sh) 0.

(** ** Names *)

(** The C string at the start of [l], when it is terminated. *)
Fixpoint cname (l : list byte) : option (list byte) :=
  match l with
  | [] => None
  | b :: l => if bz b =? 0 then Some [] else option_map (cons b) (cname l)
  end.

Lemma slice_cons buf p n :
  0 <= p < zlen buf -> 0 <= n -> exists b, byte_at buf p = bz b /\ slice buf p (n + 1) = b :: slice buf (p + 1) n.
Proof.
  intros Hp Hn. destruct (lookup_lt_is_Some_2 buf (Z.to_nat p)) as [b Hb]; [unfold zlen in Hp; lia|].
  exists b. unfold byte_at, slice. rewrite Hb. split; [reflexivity|].
  rewrite (drop_S _ _ _ Hb). replace (Z.to_nat (n + 1)) with (S (Z.to_nat n)) by lia.
  replace (Z.to_nat (p + 1)) with (S (Z.to_nat p)) by lia. reflexivity.
Qed.

Lemma find_nul_spec n buf p :
  0 <= p -> p + Z.of_nat n <= zlen buf -> find_nul n buf p = Ret (cname (slice buf p (Z.of_nat n))).
Proof.
  revert p. induction n as [|n IH]; intros p Hp Hl; cbn [find_nul].
  { reflexivity. }
  rewrite ld_in, ret_bind by lia.
  destruct (slice_cons buf p (Z.of_nat n)) as (b & Eb & Es); [lia|lia|].
  replace (Z.of_nat (S n)) with (Z.of_nat n + 1) by lia. rewrite Es, Eb. cbn [cname].
  destruct (bz b =? 0); [reflexivity|]. rewrite IH, ret_bind, zb_bz by lia. reflexivity.
Qed.

Lemma cname_app l k s : cname l = Some s -> cname (l ++ k) = Some s.
Proof.
  revert s. induction l as [|b l IH]; intros s; simpl; [discriminate|]. destruct (bz b =? 0); [auto|].
  destruct (cname l) as [r|]; [|discriminate]. intros [= <-]. now rewrite (IH r eq_refl).
Qed.

Lemma cname_nonul l s : cname l = Some s -> ~ In x00 s /\ zlen s < zlen l.
Proof.
  revert s. induction l as [|b l IH]; intros s; simpl; [discriminate|].
  rewrite zlen_cons. pose proof (zlen_nonneg l). destruct (bz b =? 0) eqn:E; b2p.
  - intros [= <-]. split; [intros []|unfold zlen at 1; simpl; lia].
  - destruct (cname l) as [r|]; [|discriminate]. intros [= <-]. destruct (IH r eq_refl) as [H1 H2].
    rewrite zlen_cons. split; [|lia]. intros [->|]; [now apply E|auto].
Qed.

Lemma cname_self s k : ~ In x00 s -> cname (s ++ x00 :: k) = Some s.
Proof.
  induction s as [|b s IH]; intros H; [reflexivity|]. simpl in *.
  destruct (bz b =? 0) eqn:E; b2p.
  - exfalso. apply H. left. rewrite <- (zb_bz b), E. reflexivity.
  - rewrite IH by tauto. reflexivity.
Qed.

Section AddSpec.
Context (alloc_ok : Z -> bool).

(** A symbol as a reader sees it: address, size, name. *)
Definition view (ds : dynsym) (s : sym) : Z * Z * option (list byte) :=
  (value s, size s, cname (drop (Z.to_nat (name_off s)) (arena ds))).

Record arena_ok (ds : dynsym) : Prop := {
  ao_none : ds_str ds = None -> ds_s ds = [];
  ao_some : forall s, ds_str ds = Some s -> 0 < zlen s <= ds_strcap ds;
  ao_cap : ds_strcap ds < 2 ^ 62;
  ao_names : Forall (fun s => is_Some (cname (drop (Z.to_nat (name_off s)) (arena ds)))) (ds_s ds)
}.

(** The symbols of a table that name code and have a terminated name. *)
Fixpoint wanted (n : nat) (symbuf : list byte) (symoff entsize : Z) (strbuf : list byte) (stroff strn : Z) (i : Z)
  : list (Z * Z * option (list byte)) :=
  match n with
  | O => []
  | S n =>
      let es := sym_of (slice symbuf (symoff + i * entsize) sizeof_Sym) in
      let rest := wanted n symbuf symoff entsize strbuf stroff strn (i + 1) in
      if is_code_sym es && (st_name es <? strn) then
        match cname (slice strbuf (stroff + st_name es) (strn - st_name es)) with
        | Some name => (st_value es, st_size es, Some name) :: rest
        | None => rest
        end
      else rest
  end.

(** Appending to the arena keeps the names in it. *)
Lemma view_mono ds ds' k s :
  arena ds' = arena ds ++ k -> is_Some (cname (drop (Z.to_nat (name_off s)) (arena ds))) ->
  view ds' s = view ds s.
Proof.
  intros Ha [r Hr]. unfold view. rewrite Ha, Hr. f_equal.
  destruct (decide (Z.to_nat (name_off s) <= length (arena ds))%nat).
  - rewrite drop_app_le by lia. now apply cname_app.
  - rewrite drop_ge in Hr by lia. discriminate.
Qed.

Lemma views_mono ds ds' k l :
  arena ds' = arena ds ++ k -> Forall (fun s => is_Some (cname (drop (Z.to_nat (name_off s)) (arena ds)))) l ->
  map (view ds') l = map (view ds) l.
Proof. intros Ha. induction 1 as [|s l Hs Hl IH]; simpl; [reflexivity|]. rewrite IH, (view_mono ds ds' k); auto. Qed.

Definition arena_start (ds : dynsym) : option (list byte * Z) :=
  match ds_str ds with
  | Some s => Some (s, ds_strcap ds)
  | None => if alloc_ok 4096 then Some ([x00], 4096) else None
  end.

Lemma arena_start_spec ds :
  arena_ok ds ->
  match arena_start ds with
  | Some (str, cap) => 0 < zlen str <= cap /\ cap < 2 ^ 62 /\ exists k, str = arena ds ++ k /\ zlen k <= 1
  | None => ds_str ds = None /\ alloc_ok 4096 = false
  end.
Proof.
  intros [A1 A2 A3 A4]. unfold arena_start, arena. destruct (ds_str ds) as [s|].
  - split; [auto|]. split; [exact A3|]. exists []. rewrite app_nil_r. split; [reflexivity|]. unfold zlen. simpl. lia.
  - destruct (alloc_ok 4096); [|auto]. split; [unfold zlen; simpl; lia|]. split; [lia|].
    exists [x00]. split; [reflexivity|]. unfold zlen. simpl. lia.
Qed.

(** What one call leaves: the same symbols, the arena extended. *)
Definition arena_post (ds : dynsym) (name : list byte) (r : Z * dynsym) : Prop :=
  let '(off, ds') := r in
  ds_s ds' = ds_s ds /\ ds_ok ds' = ds_ok ds /\
  (exists k, arena ds' = arena ds ++ k /\ zlen k <= zlen name + 2) /\ arena_ok ds' /\
  (off <> 0 -> cname (drop (Z.to_nat off) (arena ds')) = Some name) /\
  ((forall z, alloc_ok z = true) -> off <> 0).

Lemma names_mono ds str k cap :
  str = arena ds ++ k -> arena_ok ds ->
  Forall (fun s => is_Some (cname (drop (Z.to_nat (name_off s)) (arena (mk_dynsym (Some str) cap (ds_s ds) (ds_ok ds))))))
    (ds_s ds).
Proof.
  intros Hk [_ _ _ A4]. revert A4. apply List.Forall_impl. intros s Hs.
  pose proof (view_mono ds (mk_dynsym (Some str) cap (ds_s ds) (ds_ok ds)) k s Hk Hs) as Hv.
  injection Hv as Hv. now rewrite Hv.
Qed.

(** One name: copied behind the arena with its terminator, or not at all. *)
Lemma arena_add_spec ds name :
  arena_ok ds -> zlen (arena ds) + zlen name + 2 < 2 ^ 32 -> ~ In x00 name ->
  exists r, arena_add alloc_ok ds name = Ret r /\ arena_post ds name r.
Proof.
  intros Hok Hl Hn. unfold arena_add. pose proof (zlen_nonneg name) as Hn0. fold (arena_start ds).
  pose proof (arena_start_spec ds Hok) as Hs. destruct (arena_start ds) as [[str cap]|].
  2:{ destruct Hs as [E0 Ea]. eexists. split; [reflexivity|]. destruct Hok as [A1 A2 A3 A4].
      unfold arena_post, arena in *. rewrite E0 in *. simpl. split; [reflexivity|]. split; [reflexivity|].
      split; [exists []; split; [reflexivity|unfold zlen; simpl; lia]|].
      split; [constructor; simpl; auto; [discriminate|lia]|]. split; [congruence|]. intros H. congruence. }
  destruct Hs as (Hc & Hcap & k & Hk & Hk1). cbv zeta.
  assert (Hstr : zlen str = zlen (arena ds) + zlen k) by (rewrite Hk; apply zlen_app).
  assert (Hdone : forall cap', zlen str + (zlen name + 1) <= cap' -> cap' < 2 ^ 62 ->
    arena_post ds name (u32 (zlen str), mk_dynsym (Some (str ++ name ++ [x00])) cap' (ds_s ds) (ds_ok ds))).
  { intros cap' H1 H2. pose proof (zlen_nonneg k). rewrite u32_small by lia. unfold arena_post.
    split; [reflexivity|]. split; [reflexivity|].
    assert (Happ : str ++ name ++ [x00] = arena ds ++ (k ++ name ++ [x00])) by (rewrite Hk; now rewrite <- !app_assoc).
    assert (Hz : zlen [x00] = 1) by reflexivity.
    split; [exists (k ++ name ++ [x00]); split; [exact Happ|rewrite !zlen_app; lia]|].
    split; [constructor; cbn [ds_str ds_strcap ds_s]; [discriminate| |lia|eapply names_mono; eauto]|].
    { intros s [= <-]. rewrite !zlen_app. lia. }
    split; [|lia]. intros _. unfold arena. simpl. unfold zlen. rewrite Nat2Z.id, drop_app_length. now apply cname_self. }
  destruct (zlen str + (zlen name + 1) >? cap) eqn:Eg; b2p.
  - destruct (grow_spec 64 (u64 (cap * 2)) (zlen str + (zlen name + 1))) as (nc & -> & Hnc & Hp).
    { rewrite u64_small by lia. lia. }
    { unfold LIM. lia. }
    { rewrite u64_small by lia. assert (2 ^ 62 <= cap * 2 * 2 ^ (Z.of_nat 64 - 1)) by (simpl; lia). lia. }
    { lia. }
    destruct (alloc_ok nc) eqn:Ea.
    + rewrite (proj2 (Z.leb_le _ _)) by lia. eexists. split; [reflexivity|]. apply Hdone; lia.
    + eexists. split; [reflexivity|]. unfold arena_post. split; [reflexivity|]. split; [reflexivity|].
      split; [exists k; split; [exact Hk|lia]|].
      split; [constructor; cbn [ds_str ds_strcap ds_s]; [discriminate| |lia|eapply names_mono; eauto]|].
      { intros s [= <-]. lia. }
      split; [congruence|]. intros H. congruence.
  - rewrite (proj2 (Z.leb_le _ _)) by lia. eexists. split; [reflexivity|]. apply Hdone; lia.
Qed.

(** [ds'] is [ds] with the symbols [new] added, at most [room] bytes of names. *)
Record added (ds ds' : dynsym) (new : list (Z * Z * option (list byte))) (room : Z) : Prop := {
  ad_ok : arena_ok ds';
  ad_flag : ds_ok ds' = ds_ok ds;
  ad_views : map (view ds') (ds_s ds') = map (view ds) (ds_s ds) ++ new;
  ad_len : zlen (arena ds') <= zlen (arena ds) + room
}.

Lemma added_refl ds room : arena_ok ds -> 0 <= room -> added ds ds [] room.
Proof. intros H Hr. constructor; auto; [now rewrite app_nil_r|lia]. Qed.

Lemma added_trans a b c l k r1 r2 : added a b l r1 -> added b c k r2 -> added a c (l ++ k) (r1 + r2).
Proof.
  intros [? ? V1 ?] [? ? V2 ?]. constructor; auto; [congruence| |lia]. now rewrite V2, V1, app_assoc.
Qed.

Lemma added_weaken a b l r1 r2 : added a b l r1 -> r1 <= r2 -> added a b l r2.
Proof. intros [? ? ? ?] H. constructor; auto. lia. Qed.

(** Store one named symbol. *)
Lemma store_symbol ds name v z :
  arena_ok ds -> zlen (arena ds) + zlen name + 2 < 2 ^ 32 -> ~ In x00 name ->
  exists off ds1, arena_add alloc_ok ds name = Ret (off, ds1) /\
    if off =? 0 then added ds ds1 [] (zlen name + 2) /\ ~ (forall z, alloc_ok z = true)
    else added ds (mk_dynsym (ds_str ds1) (ds_strcap ds1) (ds_s ds1 ++ [mk_sym v z off]) (ds_ok ds1))
           [(v, z, Some name)] (zlen name + 2).
Proof.
  intros Hok Hl Hn. destruct (arena_add_spec ds name Hok Hl Hn) as ([off ds1] & E & (P1 & P2 & (k & Hk & Hkl) & P4 & P5 & P6)).
  exists off, ds1. split; [exact E|].
  assert (Hviews : map (view ds1) (ds_s ds1) = map (view ds) (ds_s ds))
    by (rewrite P1; eapply views_mono; [exact Hk|apply Hok]).
  assert (Hlen : zlen (arena ds1) <= zlen (arena ds) + (zlen name + 2)) by (rewrite Hk, zlen_app; lia).
  destruct (Z.eqb_spec off 0) as [->|Hne].
  - split; [|intros H; now apply (P6 H)]. constructor; auto. now rewrite app_nil_r.
  - destruct P4 as [A1 A2 A3 A4]. constructor; cbn [ds_ok ds_s]; auto.
    + constructor; cbn [ds_str ds_strcap ds_s]; auto.
      * intros H. specialize (P5 Hne). unfold arena in P5. rewrite H in P5. simpl in P5. rewrite drop_nil in P5. discriminate.
      * apply Forall_app. split; [exact A4|]. apply List.Forall_cons; [|apply List.Forall_nil].
        cbn [name_off]. unfold arena. simpl. fold (arena ds1). rewrite (P5 Hne). eauto.
    + rewrite map_app. f_equal; [exact Hviews|]. simpl. unfold view, arena. simpl. fold (arena ds1). now rewrite (P5 Hne).
Qed.

Lemma add_loop_spec n symbuf symoff entsize strbuf stroff strn i ds :
  arena_ok ds -> 0 <= symoff -> 0 <= i -> 24 <= entsize ->
  symoff + (i + Z.of_nat n) * entsize <= zlen symbuf -> 0 <= stroff -> 0 <= strn ->
  stroff + strn <= zlen strbuf -> zlen (arena ds) + Z.of_nat n * (strn + 2) < 2 ^ 32 ->
  exists ds' new, add_loop alloc_ok n symbuf symoff entsize strbuf stroff strn i ds = Ret ds' /\
    added ds ds' new (Z.of_nat n * (strn + 2)) /\
    new `sublist_of` wanted n symbuf symoff entsize strbuf stroff strn i /\
    ((forall z, alloc_ok z = true) -> new = wanted n symbuf symoff entsize strbuf stroff strn i).
Proof.
  intros Hok Hs0 Hi0 He Hs1 Ht0 Hn0 Ht1. revert i ds Hok Hi0 Hs1.
  induction n as [|n IH]; intros i ds Hok Hi0 Hs1 HL; cbn [add_loop wanted].
  { exists ds, []. split; [reflexivity|]. split; [now apply added_refl|]. auto. }
  unfold sizeof_Sym. assert (Hi1 : (i + 1) * entsize <= (i + Z.of_nat (S n)) * entsize) by (apply Z.mul_le_mono_nonneg_r; lia).
  assert (Hi2 : 0 <= i * entsize) by (apply Z.mul_nonneg_nonneg; lia).
  rewrite memcpy_in_ok, ret_bind by lia. cbv zeta. set (es := sym_of _).
  assert (Hname : 0 <= st_name es) by apply (le_at_range 4).
  assert (Hnext : forall ds1 l r, added ds ds1 l r -> 0 <= r <= strn + 2 ->
    exists ds' new, add_loop alloc_ok n symbuf symoff entsize strbuf stroff strn (i + 1) ds1 = Ret ds' /\
      added ds ds' (l ++ new) (Z.of_nat (S n) * (strn + 2)) /\
      new `sublist_of` wanted n symbuf symoff entsize strbuf stroff strn (i + 1) /\
      ((forall z, alloc_ok z = true) -> new = wanted n symbuf symoff entsize strbuf stroff strn (i + 1))).
  { intros ds1 l r Had Hr. pose proof (ad_len _ _ _ _ Had).
    destruct (IH (i + 1) ds1) as (ds' & new & E & H1 & H2 & H3); [apply Had|lia|lia|lia|].
    exists ds', new. split; [exact E|]. split; [|auto].
    eapply added_weaken; [eapply added_trans; eauto|]. lia. }
  destruct (is_code_sym es) eqn:Ec; cbn [negb andb].
  2:{ destruct (Hnext ds [] 0) as (ds' & new & H); [now apply added_refl|lia|]. exists ds', new. exact H. }
  rewrite Z.geb_leb, Z.ltb_antisym. destruct (strn <=? st_name es) eqn:En; b2p; cbn [negb].
  { destruct (Hnext ds [] 0) as (ds' & new & H); [now apply added_refl|lia|]. exists ds', new. exact H. }
  rewrite find_nul_spec, ret_bind by lia. rewrite Z2Nat.id by lia.
  destruct (cname (slice strbuf (stroff + st_name es) (strn - st_name es))) as [name|] eqn:Enm.
  2:{ destruct (Hnext ds [] 0) as (ds' & new & H); [now apply added_refl|lia|]. exists ds', new. exact H. }
  destruct (cname_nonul _ _ Enm) as [Hnul Hlen]. rewrite zlen_slice in Hlen by lia. pose proof (zlen_nonneg name).
  destruct (store_symbol ds name (st_value es) (st_size es) Hok) as (off & ds1 & -> & Hst); [lia|exact Hnul|].
  rewrite ret_bind. cbn beta iota. destruct (off =? 0).
  - destruct Hst as [Hst Hno]. destruct (Hnext _ _ _ Hst) as (ds' & new & E & H1 & H2 & H3); [lia|].
    exists ds', new. split; [exact E|]. split; [exact H1|]. split; [now apply sublist_cons|]. intros H4. contradiction.
  - destruct (Hnext _ _ _ Hst) as (ds' & new & E & H1 & H2 & H3); [lia|].
    exists ds', ((st_value es, st_size es, Some name) :: new). split; [exact E|]. split; [exact H1|].
    split; [now apply sublist_skip|]. intros H4. f_equal. auto.
Qed.
End AddSpec.

(** ** Whole tables *)

(** Reading a symbol table.  For entries of 0 (the default) or at least
    [sizeof(Elf64_Sym)] bytes and ranges inside their buffers, [add_symbols] reads
    nothing outside them, keeps every stored name intact, and adds symbols of the
    table that name code, with their address, size and name, in table order; all of
    them when no allocation fails. *)
Theorem add_symbols_reads_table (alloc_ok : Z -> bool) ds symbuf symoff symbytes entsize strbuf stroff strn :
  arena_ok ds -> 0 <= symoff -> 0 <= symbytes -> symoff + symbytes <= zlen symbuf ->
  entsize = 0 \/ 24 <= entsize -> 0 <= stroff -> 0 <= strn -> stroff + strn <= zlen strbuf ->
  zlen (arena ds) + (symbytes / 24) * (strn + 2) < 2 ^ 32 ->
  let es := if entsize =? 0 then 24 else entsize in
  let all := wanted (Z.to_nat (symbytes / es)) symbuf symoff es strbuf stroff strn 0 in
  exists ds' new, add_symbols alloc_ok ds symbuf symoff symbytes entsize strbuf stroff strn = Ret ds' /\
    arena_ok ds' /\ map (view ds') (ds_s ds') = map (view ds) (ds_s ds) ++ new /\
    new `sublist_of` all /\ ((forall z, alloc_ok z = true) -> new = all).
Proof.
  intros Hok Hs0 Hb0 Hs1 He Ht0 Hn0 Ht1 HL. cbv zeta. unfold add_symbols, sizeof_Sym.
  set (es := if entsize =? 0 then 24 else entsize).
  assert (Hes : 24 <= es) by (unfold es; destruct (Z.eqb_spec entsize 0); lia).
  assert (Hcount : 0 <= symbytes / es) by (apply Z.div_pos; lia).
  assert (Hcount1 : symbytes / es <= symbytes / 24) by (apply Z.div_le_compat_l; lia).
  assert (Hmul : symbytes / es * es <= symbytes) by (rewrite Z.mul_comm; apply Z.mul_div_le; lia).
  clearbody es. cbv zeta. destruct (Z.eqb_spec (symbytes / es) 0) as [->|Hne].
  { exists ds, []. rewrite app_nil_r. simpl. auto. }
  destruct (alloc_ok _) eqn:Ea; cbn [negb].
  2:{ exists ds, []. rewrite app_nil_r. split; [reflexivity|]. split; [exact Hok|]. split; [reflexivity|].
      split; [apply sublist_nil_l|]. intros H. congruence. }
  assert (Hroom : symbytes / es * (strn + 2) <= symbytes / 24 * (strn + 2)) by (apply Z.mul_le_mono_nonneg_r; lia).
  destruct (add_loop_spec alloc_ok (Z.to_nat (symbytes / es)) symbuf symoff es strbuf stroff strn 0 ds)
    as (ds' & new & E & [A1 A2 A3 A4] & Hsub & Hall); rewrite ?Z2Nat.id by lia; try lia; [exact Hok|].
  exists ds', new. auto.
Qed.

(** The test of [ingest_embedded] and [find_gnu_debugdata] is exact: the section
    table is inside the image. *)
Lemma elf_shtab_in_bounds_iff e_shoff e_shnum e_shentsize len :
  0 <= e_shoff -> 0 < e_shentsize ->
  elf_shtab_in_bounds e_shoff e_shnum e_shentsize len = true <->
  e_shoff <= len /\ e_shoff + e_shnum * e_shentsize <= len.
Proof.
  intros H0 He. unfold elf_shtab_in_bounds.
  destruct (e_shoff >? len) eqn:E1; b2p; [split; [discriminate|lia]|].
  destruct (e_shnum >? (len - e_shoff) / e_shentsize) eqn:E2; b2p.
  - split; [discriminate|]. intros [_ H]. assert (e_shnum <= (len - e_shoff) / e_shentsize); [|lia].
    apply Z.div_le_lower_bound; lia.
  - split; [intros _|reflexivity]. split; [lia|]. pose proof (Z.mul_div_le (len - e_shoff) e_shentsize He).
    assert (e_shnum * e_shentsize <= (len - e_shoff) / e_shentsize * e_shentsize); [|lia].
    apply Z.mul_le_mono_nonneg_r; lia.
Qed.

(** ** Sorting and lookup *)

Definition sym_lt (a b : sym) : Prop := value a < value b.

Lemma keep_first_sub prev l s : In s (keep_first prev l) -> In s l.
Proof.
  revert prev. induction l as [|a l IH]; intros prev; simpl; [auto|].
  case_bool_decide; simpl; intros; [eauto|]. destruct H0; eauto.
Qed.

Lemma keep_first_covers prev l s :
  In s l -> prev = Some (value s) \/ exists k, In k (keep_first prev l) /\ value k = value s.
Proof.
  revert prev. induction l as [|a l IH]; intros prev; [intros []|]. cbn [keep_first].
  intros [->|Hin].
  - case_bool_decide; [auto|]. right. exists s. simpl. auto.
  - case_bool_decide as E; [auto|]. right. destruct (IH (Some (value a)) Hin) as [[= Ha]|(k & Hk & Ev)].
    + exists a. simpl. auto.
    + exists k. simpl. auto.
Qed.

Lemma keep_first_sorted prev l :
  StronglySorted sym_cmp l -> Forall (fun s => forall p, prev = Some p -> p <= value s) l ->
  StronglySorted sym_lt (keep_first prev l) /\ Forall (fun s => forall p, prev = Some p -> p < value s) (keep_first prev l).
Proof.
  revert prev. induction l as [|a l IH]; intros prev Hs Hp; [split; constructor|].
  apply StronglySorted_inv in Hs as [Hs Ha]. apply list.Forall_cons in Hp as [Hpa Hp]. cbn [keep_first].
  case_bool_decide as E; [auto|].
  destruct (IH (Some (value a)) Hs) as [I1 I2].
  { revert Ha. apply List.Forall_impl. intros s Hle p [= <-]. exact Hle. }
  split.
  - constructor; [exact I1|]. revert I2. apply List.Forall_impl. intros s H. now apply H.
  - constructor.
    + intros p ->. specialize (Hpa p eq_refl). assert (p <> value a) by congruence. lia.
    + revert I2. apply List.Forall_impl. intros s H p ->. specialize (H _ eq_refl). specialize (Hpa p eq_refl). lia.
Qed.

(** The binary search returns the number of entries at or below [vaddr]. *)
Lemma upper_spec fuel l vaddr lo hi :
  StronglySorted sym_lt l -> (lo <= hi <= length l)%nat -> (hi - lo < fuel)%nat ->
  (forall i s, l !! i = Some s -> (i < lo)%nat -> value s <= vaddr) ->
  (forall i s, l !! i = Some s -> (hi <= i)%nat -> vaddr < value s) ->
  exists k, upper fuel l vaddr lo hi = Ret k /\ (k <= length l)%nat /\
    (forall i s, l !! i = Some s -> (i < k)%nat -> value s <= vaddr) /\
    (forall i s, l !! i = Some s -> (k <= i)%nat -> vaddr < value s).
Proof.
  intros Hs. revert lo hi. induction fuel as [|fuel IH]; intros lo hi Hb Hf Hlo Hhi; [lia|]. cbn [upper].
  destruct (Nat.ltb_spec lo hi) as [Hlt|Hge]; cbn [negb].
  2:{ exists lo. assert (lo = hi) by lia. subst. split; [reflexivity|]. split; [lia|]. auto. }
  set (mid := ((lo + hi) / 2)%nat). assert (Hm : (lo <= mid < hi)%nat).
  { pose proof (Nat.div_mod_eq (lo + hi) 2). pose proof (Nat.mod_upper_bound (lo + hi) 2). subst mid. lia. }
  clearbody mid. destruct (lookup_lt_is_Some_2 l mid) as [m Em]; [lia|]. rewrite Em.
  assert (Hord : forall i j a b, l !! i = Some a -> l !! j = Some b -> (i < j)%nat -> value a < value b).
  { clear -Hs. induction Hs as [|x l Hs IH Hx]; intros i j a b; [now rewrite lookup_nil|].
    destruct i, j; cbn; intros Ha Hb0 Hij; try lia; [|eapply IH; eauto; lia].
    injection Ha as <-. rewrite list.Forall_forall in Hx. apply Hx. eapply list_elem_of_lookup_2; eauto. }
  destruct (value m <=? vaddr) eqn:E; b2p; apply IH; try lia; auto.
  - intros i s Hi Hle. destruct (decide (i = mid)) as [->|]; [congruence|].
    specialize (Hord i mid s m Hi Em). lia.
  - intros i s Hi Hle. destruct (decide (i = mid)) as [->|]; [congruence|].
    specialize (Hord mid i m s Em Hi). lia.
Qed.

(** [s] has the greatest address at or below [v] in [l]. *)
Definition nearest (l : list sym) (v : Z) (s : sym) : Prop :=
  In s l /\ value s <= v /\ forall s', In s' l -> value s' <= v -> value s' <= value s.

(** The extent a symbol answers for: its size, or a page when it has none. *)
Definition extent (s : sym) : Z := if size s =? 0 then 0x1001 else size s.

Lemma nth_nearest l v k s :
  l !! k = Some s -> (forall i s, l !! i = Some s -> (i < S k)%nat -> value s <= v) ->
  (forall i s, l !! i = Some s -> (S k <= i)%nat -> v < value s) -> StronglySorted sym_lt l -> nearest l v s.
Proof.
  intros Hk Hlo Hhi Hs. split; [apply list_elem_of_In; eapply list_elem_of_lookup_2; eauto|].
  split; [eapply Hlo; eauto; lia|]. intros s' Hin Hle. apply list_elem_of_In, list_elem_of_lookup in Hin as [i Hi].
  destruct (decide (i = k)) as [->|Hne]; [assert (s' = s) by congruence; subst; lia|].
  destruct (decide (S k <= i)%nat); [specialize (Hhi i s' Hi); lia|].
  revert Hi Hk Hne. clear -n Hs. revert i k n. induction Hs as [|x l Hs IH Hx]; intros i k n; [now rewrite lookup_nil|].
  destruct i, k; cbn; intros Ha Hb Hne; try lia; [|apply (IH i k); [lia|auto|auto|lia]].
  injection Ha as <-. rewrite list.Forall_forall in Hx. pose proof (Hx s (list_elem_of_lookup_2 _ _ _ Hb)) as H. unfold sym_lt in H. lia.
Qed.

(** The array [sym_lookup] searches: sorted by address without repetition, of
    symbols of the set, an entry for every address of it. *)
Lemma finalize_spec (qsort : list sym -> list sym) ds :
  (forall l, Permutation l (qsort l) /\ StronglySorted sym_cmp (qsort l)) ->
  let l := ds_s (dynsym_finalize qsort ds) in
  StronglySorted sym_lt l /\ (forall s, In s l -> In s (ds_s ds)) /\
  (forall s, In s (ds_s ds) -> exists k, In k l /\ value k = value s).
Proof.
  intros Hq. cbv zeta. unfold dynsym_finalize. destruct (ds_s ds) as [|a r] eqn:E.
  { rewrite E. split; [constructor|]. split; [auto|]. intros s []. }
  cbn [ds_s]. destruct (Hq (a :: r)) as [Hp Hs]. split; [|split].
  - apply keep_first_sorted; [exact Hs|]. apply list.Forall_forall. intros s _ p. discriminate.
  - intros s Hin. apply keep_first_sub in Hin. eapply Permutation_in; [symmetry; exact Hp|exact Hin].
  - intros s Hin. destruct (keep_first_covers None (qsort (a :: r)) s) as [H|H]; [|discriminate|exact H].
    eapply Permutation_in; eauto.
Qed.

(** A lookup after sorting and de-duplication answers from the whole set: with
    the symbol of greatest address at or below [vaddr] (one of the set), the
    distance into it, when [vaddr] is inside its extent; and with nothing when no
    symbol is at or below [vaddr] or the nearest one ends before it. *)
Theorem sym_lookup_nearest (qsort : list sym -> list sym) ds v :
  (forall l, Permutation l (qsort l) /\ StronglySorted sym_cmp (qsort l)) ->
  Forall (fun s => 0 <= value s /\ 0 <= size s) (ds_s ds) -> ds_ok ds = true -> 0 <= v < 2 ^ 64 ->
  exists r, sym_lookup (dynsym_finalize qsort ds) v = Ret r /\
    match r with
    | Some (s, d) => nearest (ds_s ds) v s /\ d = v - value s /\ d < extent s
    | None => (forall s, In s (ds_s ds) -> v < value s) \/ exists s, nearest (ds_s ds) v s /\ extent s <= v - value s
    end.
Proof.
  intros Hq Hpos Hok Hv. destruct (finalize_spec qsort ds Hq) as (Hs & Hsub & Hcov).
  assert (Hok' : ds_ok (dynsym_finalize qsort ds) = true) by (unfold dynsym_finalize; destruct (ds_s ds); auto).
  unfold sym_lookup. rewrite Hok'. cbn [negb]. set (l := ds_s (dynsym_finalize qsort ds)) in *.
  destruct (upper_spec (S (length l)) l v 0 (length l) Hs) as (k & Ek & Hk & Hlo & Hhi); try lia.
  { intros i s Hi Hge. apply lookup_lt_Some in Hi. lia. }
  assert (Hnone : k = O -> forall s, In s (ds_s ds) -> v < value s).
  { intros -> s Hin. destruct (Hcov s Hin) as (k' & Hin' & <-). apply list_elem_of_In, list_elem_of_lookup in Hin' as [i Hi].
    eapply Hhi; eauto. lia. }
  clearbody l. destruct l as [|a r0].
  { eexists. split; [reflexivity|]. left. intros s Hin. destruct (Hcov s Hin) as (? & [] & _). }
  rewrite Ek, ret_bind. destruct k as [|k]; [eexists; split; [reflexivity|left; now apply Hnone]|].
  destruct (lookup_lt_is_Some_2 (a :: r0) k) as [s Es]; [lia|]. rewrite Es.
  destruct (nth_nearest _ v k s Es Hlo Hhi Hs) as (N1 & N2 & N3).
  assert (Hn : nearest (ds_s ds) v s).
  { split; [auto|]. split; [exact N2|]. intros s' Hin Hle. destruct (Hcov s' Hin) as (k' & Hin' & Ev). rewrite <- Ev in *. auto. }
  rewrite List.Forall_forall in Hpos. destruct (Hpos s (Hsub s N1)) as [P1 P2]. cbv zeta. rewrite u64_small by lia.
  unfold extent. destruct (Z.eqb_spec (size s) 0) as [E0|E0]; cbn [negb].
  - destruct (v - value s >? 0x1000) eqn:Ed; b2p; eexists; (split; [reflexivity|]); [right; exists s; split; [exact Hn|]|];
      rewrite ?E0; cbn; auto with lia.
    split; [exact Hn|]. split; [reflexivity|]. rewrite E0. cbn. lia.
  - rewrite Z.geb_leb. destruct (size s <=? v - value s) eqn:Ed; b2p; eexists; (split; [reflexivity|]).
    + right. exists s. split; [exact Hn|]. rewrite (proj2 (Z.eqb_neq _ _)) by lia. lia.
    + split; [exact Hn|]. split; [reflexivity|]. rewrite (proj2 (Z.eqb_neq _ _)) by lia. lia.
Qed.

(** ** Reading files *)

(** [pread] on a regular file: a non-empty prefix of what is left of the range. *)
Class PreadFile (pread : Z -> Z -> list byte) (file : list byte) : Prop := {
  pf_prefix : forall n off, 0 < n -> 0 <= off -> exists k,
    0 <= k <= n /\ pread n off = slice file off k /\ (off + k <= zlen file \/ k = 0) /\ (k = 0 -> zlen file <= off)
}.

Lemma slice_app file off a b :
  0 <= a -> 0 <= b -> 0 <= off -> slice file off a ++ slice file (off + a) b = slice file off (a + b).
Proof. intros. unfold slice. rewrite !Z2Nat.inj_add by lia. rewrite <- drop_drop. apply take_take_drop. Qed.

(** [pread_all] returns exactly the range, or fails when the file ends inside it,
    however short the single reads are. *)
Lemma pread_all_spec pread file fuel n off :
  PreadFile pread file -> 0 <= n < Z.of_nat fuel -> 0 <= off ->
  pread_all pread fuel n off = if (n =? 0) || (off + n <=? zlen file) then Ret (slice file off n) else Fail.
Proof.
  intros Hp. revert n off. induction fuel as [|fuel IH]; intros n off Hn Ho; [lia|]. cbn [pread_all].
  destruct (Z.eqb_spec n 0) as [->|Hne]; [reflexivity|]. cbn [orb].
  destruct (pf_prefix n off) as (k & Hk & -> & Hin & Hz); [lia|lia|].
  destruct (decide (k = 0)) as [->|Hk0].
  { specialize (Hz eq_refl). rewrite (proj2 (Z.leb_gt _ _)) by lia. reflexivity. }
  assert (Hl : zlen (slice file off k) = k) by (rewrite zlen_slice; lia). cbv zeta. rewrite Hl.
  rewrite (proj2 (Z.eqb_neq k 0)) by lia. rewrite IH by lia.
  replace (off + k + (n - k)) with (off + n) by lia.
  destruct (Z.eqb_spec (n - k) 0) as [E|E]; cbn [orb].
  - rewrite (proj2 (Z.leb_le _ _)) by lia. rewrite ret_bind, slice_app by lia. do 2 f_equal. lia.
  - destruct (off + n <=? zlen file); [|reflexivity]. rewrite ret_bind, slice_app by lia. do 2 f_equal. lia.
Qed.

(** A parsed module is ready for [sym_lookup]: an array sorted by address, one
    entry per address; a module that could not be parsed answers nothing. *)
Lemma parse_symbols_sorted alloc_ok pread lzma qsort path opened elf_off ds ds' :
  (forall l, Permutation l (qsort l) /\ StronglySorted sym_cmp (qsort l)) ->
  parse_symbols alloc_ok pread lzma qsort path opened elf_off ds = Ret ds' ->
  ds_ok ds' = true -> StronglySorted sym_lt (ds_s ds').
Proof.
  intros Hq. unfold parse_symbols. cbv zeta. destruct (_ || _); [intros [= <-]; discriminate|].
  destruct (pread_all _ _ _ _) as [b| | |]; [|intros [= <-]; discriminate|discriminate|discriminate].
  destruct (_ || _); [intros [= <-]; discriminate|]. destruct (_ || _); [intros [= <-]; discriminate|].
  intros H. apply bind_ret in H as ([sh|] & _ & H); [|injection H as <-; discriminate].
  apply bind_ret in H as (shstr & _ & H). apply bind_ret in H as (ds1 & _ & [= <-]). intros _.
  apply (finalize_spec qsort ds1 Hq).
Qed.

(** ** Tables the checks let through *)

Definition esym_bytes (name info shndx value size : Z) : list byte :=
  le_bytes 4 name ++ le_bytes 1 info ++ le_bytes 1 0 ++ le_bytes 2 shndx ++ le_bytes 8 value ++ le_bytes 8 size.

(** An entry size of 1 to 23 is not rejected: the last entries are read past the
    end of the table, here a block of one symbol. *)
Theorem small_entsize_overreads :
  add_symbols (fun _ => true) dynsym0 (esym_bytes 1 0x12 1 0x1000 16) 0 24 8 (bytes_of "xmain" ++ [x00]) 0 6 = Oob.
Proof. reflexivity. Qed.

Definition sec_bytes (name type offset size link entsize : Z) : list byte :=
  shdr_bytes (mk_shdr name type 0 0 offset size link 0 0 entsize).

Definition ehdr_bytes (shoff shnum shstrndx : Z) : list byte :=
  [x7f; x45; x4c; x46; x02; x01; x01] ++ le_bytes 9 0 ++ le_bytes 2 3 ++ le_bytes 2 183 ++ le_bytes 4 1 ++ le_bytes 8 0 ++
  le_bytes 8 0 ++ le_bytes 8 shoff ++ le_bytes 4 0 ++ le_bytes 2 64 ++ le_bytes 2 56 ++ le_bytes 2 0 ++ le_bytes 2 64 ++
  le_bytes 2 shnum ++ le_bytes 2 shstrndx.

(** The range test of [ingest_embedded] adds in 64 bits: a section whose offset
    plus size wraps passes it, and its entries are read outside the image. *)
Theorem embedded_range_wraps :
  ingest_embedded (fun _ => true) dynsym0 (ehdr_bytes 64 1 0 ++ sec_bytes 0 2 (2 ^ 64 - 64) 96 0 24) = Oob.
Proof. vm_compute. reflexivity. Qed.

(** A section-name table without a terminator at the end of the image lets the
    name comparison run past it. *)
Theorem unterminated_shstrtab_overreads :
  find_gnu_debugdata (ehdr_bytes 64 2 1 ++ sec_bytes 1 1 0 0 0 0 ++ sec_bytes 0 3 192 5 0 0 ++ bytes_of "x.gnu") = Oob.
Proof. vm_compute. reflexivity. Qed.

(** ** Witnesses *)

Definition ex_syms : list byte := esym_bytes 0 0 0 0 0 ++ esym_bytes 1 0x12 1 0x2000 0x40 ++ esym_bytes 6 0x11 1 0x9000 8 ++
  esym_bytes 10 0x12 1 0x1000 0.
Definition ex_strs : list byte := [x00] ++ bytes_of "main" ++ [x00] ++ bytes_of "obj" ++ [x00] ++ bytes_of "f" ++ [x00].

Lemma add_symbols_reads_table_witness :
  exists ds', add_symbols (fun _ => true) dynsym0 ex_syms 0 96 0 ex_strs 0 12 = Ret ds' /\
    map (view ds') (ds_s ds') = [(0x2000, 0x40, Some (bytes_of "main")); (0x1000, 0, Some (bytes_of "f"))].
Proof.
  destruct (add_symbols_reads_table (fun _ => true) dynsym0 ex_syms 0 96 0 ex_strs 0 12)
    as (ds' & new & E & _ & Hv & _ & Hall); try (vm_compute; congruence); [|auto|].
  { constructor; simpl; [auto|discriminate|lia|constructor]. }
  exists ds'. split; [exact E|]. rewrite Hv, Hall by auto. reflexivity.
Defined.

Definition ex_ds : dynsym := mk_dynsym None 0 [mk_sym 0x2000 0x40 1; mk_sym 0x1000 0 6; mk_sym 0x2000 0x80 9] true.

Global Instance sym_cmp_dec : RelDecision sym_cmp.
Proof. intros a b. unfold sym_cmp. apply _. Defined.

Lemma sym_lookup_nearest_witness :
  exists s, sym_lookup (dynsym_finalize (merge_sort sym_cmp) ex_ds) 0x2010 = Ret (Some (s, 0x10)) /\ nearest (ds_s ex_ds) 0x2010 s.
Proof.
  destruct (sym_lookup_nearest (merge_sort sym_cmp) ex_ds 0x2010) as (r & E & H); [|repeat (apply List.Forall_cons; [simpl; lia|]); apply List.Forall_nil|reflexivity|lia|].
  - intros l. split; [symmetry; apply merge_sort_Permutation|].
    apply StronglySorted_merge_sort; [intros x y z; unfold sym_cmp; lia|intros x y; unfold sym_cmp; lia].
  - vm_compute in E. injection E as <-. eexists. split; [vm_compute; reflexivity|]. apply H.
Defined.
