(* ===== verification/Probe.v ===== *)
(** * Probe: open addressing with linear probing

    The address, symbol-file, descriptor and probe-target caches of src/common all
    use the same hash table: a power-of-two array, a probe that walks forward from
    the hash, growth by rehashing at 75% load.  The loops are written once here,
    over any key type with a hash, and instantiated in the files of the caches.
    An unused slot is an absent index of a finite map. *)

From Stdlib Require Import ZArith Lia.
From stdpp Require Import base list option numbers gmap fin_maps.
From S2P Require Import Prelude.

Local Open Scope Z_scope.

(** What a table is keyed by. *)
Class HashKey (K : Type) := hash : K -> Z.

Section Probe.
Context {K V : Type} `{EqDecision K, HashKey K}.

Record htab := mk_htab { h_cap : Z; h_slots : gmap Z (K * V); h_used : Z }.

(** A table not yet allocated, and a zeroed one. *)
Definition no_htab : htab := mk_htab 0 ∅ 0.
Definition calloc_htab (cap : Z) : htab := mk_htab cap ∅ 0.

Definition home (mask : Z) (k : K) : Z := Z.land (hash k) mask.

(** Walk at most [n] slots from [i]: stops at an unused slot or at one whose key
    satisfies [hit]. *)
Fixpoint probe (n : nat) (s : gmap Z (K * V)) (mask : Z) (hit : K -> bool) (i : Z) : option (Z * option (K * V)) :=
  match n with
  | O => None
  | S n =>
      match s !! i with
      | None => Some (i, None)
      | Some e => if hit e.1 then Some (i, Some e) else probe n s mask hit (Z.land (i + 1) mask)
      end
  end.

Definition key_is (k k' : K) : bool := bool_decide (k' = k).

(** Every slot of a table seen once, from the hash of [k]. *)
Definition probe_key (t : htab) (hit : K -> bool) (k : K) : option (Z * option (K * V)) :=
  probe (Z.to_nat (h_cap t)) (h_slots t) (h_cap t - 1) hit (home (h_cap t - 1) k).

(** Slots [i ..] of [s] copied into the table [ns] of [ncap] slots. *)
Fixpoint rehash (n : nat) (i : Z) (s ns : gmap Z (K * V)) (ncap : Z) : res (gmap Z (K * V)) :=
  match n with
  | O => Ret ns
  | S n =>
      match s !! i with
      | None => rehash n (i + 1) s ns ncap
      | Some e =>
          match probe (Z.to_nat ncap) ns (ncap - 1) (fun _ => false) (home (ncap - 1) e.1) with
          | Some (j, _) => rehash n (i + 1) s (<[j := e]> ns) ncap
          | None => NoFuel
          end
      end
  end.

Definition loaded (t : htab) : bool := (h_used t + 1) * 4 >=? h_cap t * 3.

Definition grow_htab (calloc_ok : Z -> bool) (t : htab) : res htab :=
  if calloc_ok (h_cap t * 2) then
    ns ← rehash (Z.to_nat (h_cap t)) 0 (h_slots t) ∅ (h_cap t * 2);
    Ret (mk_htab (h_cap t * 2) ns (h_used t))
  else Ret t.

(** Store into a slot a probe returned. *)
Definition store (t : htab) (i : Z) (fresh : bool) (k : K) (v : V) : htab :=
  mk_htab (h_cap t) (<[i := (k, v)]> (h_slots t)) (if fresh then h_used t + 1 else h_used t).

(** ** The probing invariant *)

Definition has (s : gmap Z (K * V)) (k : K) (v : V) : Prop := exists i, s !! i = Some (k, v).

Definition uniq (s : gmap Z (K * V)) : Prop :=
  forall i j k v w, s !! i = Some (k, v) -> s !! j = Some (k, w) -> i = j.

(** Every entry is reached from its hash over used slots only. *)
Record chained (cap : Z) (s : gmap Z (K * V)) : Prop := {
  ch_cap : exists w, 0 <= w /\ cap = 2 ^ w;
  ch_range : forall i e, s !! i = Some e -> 0 <= i < cap;
  ch_path : forall i e, s !! i = Some e ->
    forall d, 0 <= d < (i - hash e.1) mod cap -> is_Some (s !! ((hash e.1 + d) mod cap))
}.

Record htab_ok (t : htab) : Prop := {
  ho_chain : chained (h_cap t) (h_slots t);
  ho_used : h_used t = Z.of_nat (size (h_slots t))
}.
End Probe.
Arguments htab : clear implicits.

Lemma mask_mod cap x : (exists w, 0 <= w /\ cap = 2 ^ w) -> Z.land x (cap - 1) = x mod cap.
Proof.
  intros (w & Hw & ->). rewrite <- Z.land_ones by exact Hw. f_equal. rewrite Z.ones_equiv. lia.
Qed.

Lemma cap_pos cap : (exists w, 0 <= w /\ cap = 2 ^ w) -> 0 < cap.
Proof. intros (w & Hw & ->). apply Z.pow_pos_nonneg; lia. Qed.

Section Laws.
Context {K V : Type} `{EqDecision K, HashKey K}.
Implicit Types (s : gmap Z (K * V)) (t : htab K V).

(** The slots before the [d]-th of a probe from [i] are used by other keys. *)
Definition passed s (cap : Z) (hit : K -> bool) (i d : Z) : Prop :=
  forall d', 0 <= d' < d -> exists e, s !! ((i + d') mod cap) = Some e /\ hit e.1 = false.

Lemma probe_spec n s cap hit i :
  (exists w, 0 <= w /\ cap = 2 ^ w) -> 0 <= i < cap ->
  match probe n s (cap - 1) hit i with
  | None => passed s cap hit i (Z.of_nat n)
  | Some (j, r) => exists d, 0 <= d < Z.of_nat n /\ j = (i + d) mod cap /\ s !! j = r /\ passed s cap hit i d /\
      match r with Some e => hit e.1 = true | None => True end
  end.
Proof.
  intros Hc. pose proof (cap_pos _ Hc) as Hpos. revert i. induction n as [|n IH]; intros i Hi; cbn [probe].
  { intros d' Hd. lia. }
  assert (H0 : (i + 0) mod cap = i) by (rewrite Z.add_0_r; apply Z.mod_small; lia).
  destruct (s !! i) as [e|] eqn:Ei.
  2:{ exists 0. rewrite H0. split; [lia|]. split; [reflexivity|]. split; [exact Ei|]. split; [|exact I]. intros d' Hd. lia. }
  destruct (hit e.1) eqn:Eh.
  { exists 0. rewrite H0. split; [lia|]. split; [reflexivity|]. split; [exact Ei|]. split; [|exact Eh]. intros d' Hd. lia. }
  rewrite mask_mod by exact Hc. specialize (IH ((i + 1) mod cap) (Z.mod_pos_bound _ _ Hpos)).
  assert (Hstep : forall d, ((i + 1) mod cap + d) mod cap = (i + (d + 1)) mod cap).
  { intros d. rewrite Z.add_mod_idemp_l by lia. f_equal. lia. }
  assert (Hpass : forall d, passed s cap hit ((i + 1) mod cap) d -> passed s cap hit i (d + 1)).
  { intros d Hp d' Hd. destruct (decide (d' = 0)) as [->|]; [exists e; rewrite H0; auto|].
    destruct (Hp (d' - 1)) as (e' & He & Hh); [lia|]. rewrite Hstep in He. replace (d' - 1 + 1) with d' in He by lia. eauto. }
  destruct (probe n s (cap - 1) hit ((i + 1) mod cap)) as [[j r]|].
  - destruct IH as (d & Hd & Hj & Hr & Hp & Hm). exists (d + 1). rewrite Hstep in Hj. split; [lia|]. auto.
  - replace (Z.of_nat (S n)) with (Z.of_nat n + 1) by lia. auto.
Qed.

Lemma home_mod cap (k : K) : (exists w, 0 <= w /\ cap = 2 ^ w) -> home (cap - 1) k = hash k mod cap.
Proof. intros Hc. unfold home. now apply mask_mod. Qed.

Lemma home_range cap (k : K) : (exists w, 0 <= w /\ cap = 2 ^ w) -> 0 <= home (cap - 1) k < cap.
Proof. intros Hc. rewrite home_mod by exact Hc. apply Z.mod_pos_bound. now apply cap_pos. Qed.

(** A table that is not full has an unused slot on every walk round it. *)
Lemma not_full s cap hit i :
  0 < cap -> (forall j e, s !! j = Some e -> 0 <= j < cap) -> Z.of_nat (size s) < cap -> ~ passed s cap hit i cap.
Proof.
  intros Hc Hr Hs Hp. assert (Hsub : (list_to_set (seqZ 0 cap) : gset Z) ⊆ dom s).
  { intros j Hj. apply elem_of_list_to_set, elem_of_seqZ in Hj. apply elem_of_dom.
    destruct (Hp ((j - i) mod cap)) as (e & He & _); [apply Z.mod_pos_bound; lia|].
    rewrite Zplus_mod_idemp_r in He. replace (i + (j - i)) with j in He by lia.
    rewrite Z.mod_small in He by lia. eauto. }
  apply subseteq_size in Hsub. rewrite size_dom in Hsub.
  rewrite size_list_to_set in Hsub by apply NoDup_seqZ. rewrite length_seqZ in Hsub. lia.
Qed.

(** A full walk that finds neither the key nor an unused slot never does. *)
Lemma probe_spins n s cap hit i :
  (exists w, 0 <= w /\ cap = 2 ^ w) -> 0 <= i < cap ->
  probe (Z.to_nat cap) s (cap - 1) hit i = None -> probe n s (cap - 1) hit i = None.
Proof.
  intros Hc Hi Hn. pose proof (cap_pos _ Hc) as Hpos. pose proof (probe_spec (Z.to_nat cap) s cap hit i Hc Hi) as Ha.
  rewrite Hn in Ha. rewrite Z2Nat.id in Ha by lia. pose proof (probe_spec n s cap hit i Hc Hi) as Hb.
  destruct (probe n s (cap - 1) hit i) as [[j r]|]; [|reflexivity].
  destruct Hb as (d & Hd & -> & Hr & _ & Hm). destruct (Ha (d mod cap)) as (e & He & Hh); [apply Z.mod_pos_bound; lia|].
  rewrite Zplus_mod_idemp_r in He. rewrite He in Hr. subst r. congruence.
Qed.

(** The walk to an entry of the table. *)
Lemma path_to cap s i (e : K * V) :
  chained cap s -> s !! i = Some e ->
  exists D, 0 <= D < cap /\ (hash e.1 mod cap + D) mod cap = i /\
    forall d, 0 <= d < D -> is_Some (s !! ((hash e.1 mod cap + d) mod cap)).
Proof.
  intros [Hc Hr Hp] Hi. pose proof (cap_pos _ Hc) as Hpos. exists ((i - hash e.1) mod cap).
  split; [apply Z.mod_pos_bound; lia|]. split.
  - rewrite Z.add_mod_idemp_l, Zplus_mod_idemp_r by lia. replace (hash e.1 + (i - hash e.1)) with i by lia.
    apply Z.mod_small. eauto.
  - intros d Hd. rewrite Z.add_mod_idemp_l by lia. eapply Hp; eauto.
Qed.

(** A walk that ends at an unused slot, or goes round, has passed every place the
    key could be. *)
Lemma no_entry cap s (k : K) d v :
  chained cap s -> 0 <= d -> passed s cap (key_is k) (hash k mod cap) d ->
  d = cap \/ s !! ((hash k mod cap + d) mod cap) = None -> ~ has s k v.
Proof.
  intros Hch Hd0 Hp Hend (i & Hi). destruct (path_to _ _ _ _ Hch Hi) as (D & HD & Hpos & Hpath). cbn [fst] in *.
  destruct (Z.lt_trichotomy d D) as [Hlt|[->|Hgt]].
  - destruct Hend as [->|Hn]; [lia|]. destruct (Hpath d ltac:(lia)) as [e He]. congruence.
  - destruct Hend as [->|Hn]; [lia|]. congruence.
  - destruct (Hp D ltac:(lia)) as (e & He & Hh). rewrite Hpos, Hi in He. injection He as <-.
    unfold key_is in Hh. cbn [fst] in Hh. rewrite bool_decide_true in Hh by reflexivity. discriminate.
Qed.

Lemma probe_key_spec t hit (k : K) :
  chained (h_cap t) (h_slots t) ->
  match probe_key t hit k with
  | None => passed (h_slots t) (h_cap t) hit (hash k mod h_cap t) (h_cap t)
  | Some (j, r) => exists d, 0 <= d < h_cap t /\ j = (hash k mod h_cap t + d) mod h_cap t /\ h_slots t !! j = r /\
      passed (h_slots t) (h_cap t) hit (hash k mod h_cap t) d /\ match r with Some e => hit e.1 = true | None => True end
  end.
Proof.
  intros Hch. pose proof (ch_cap _ _ Hch) as Hc. pose proof (cap_pos _ Hc) as Hpos. unfold probe_key.
  pose proof (probe_spec (Z.to_nat (h_cap t)) (h_slots t) (h_cap t) hit _ Hc (home_range _ k Hc)) as Hs.
  rewrite (home_mod _ k Hc), Z2Nat.id in * by lia. exact Hs.
Qed.

(** A probe for a key finds an entry with it exactly when the table has one. *)
Lemma probe_finds t (k : K) :
  chained (h_cap t) (h_slots t) ->
  match probe_key t (key_is k) k with
  | Some (i, Some e) => h_slots t !! i = Some e /\ e.1 = k
  | _ => forall v, ~ has (h_slots t) k v
  end.
Proof.
  intros Hch. pose proof (probe_key_spec t (key_is k) k Hch) as Hs.
  pose proof (cap_pos _ (ch_cap _ _ Hch)) as Hpos.
  destruct (probe_key t (key_is k) k) as [[j [e|]]|].
  - destruct Hs as (d & _ & _ & He & _ & Hh). split; [exact He|]. unfold key_is in Hh. now apply bool_decide_eq_true in Hh.
  - destruct Hs as (d & Hd & -> & He & Hp & _). intros v. eapply no_entry; eauto. lia.
  - intros v. eapply no_entry; eauto. lia.
Qed.

(** A probe of a table that is not full ends. *)
Lemma probe_ends t hit (k : K) :
  chained (h_cap t) (h_slots t) -> Z.of_nat (size (h_slots t)) < h_cap t -> probe_key t hit k <> None.
Proof.
  intros Hch Hs E. pose proof (probe_key_spec t hit k Hch) as Hp. rewrite E in Hp.
  eapply not_full; [| |exact Hs|exact Hp]; [apply cap_pos|]; apply Hch.
Qed.

(** A probe of a full table ends at no unused slot. *)
Lemma full_no_unused t hit (k : K) j :
  chained (h_cap t) (h_slots t) -> Z.of_nat (size (h_slots t)) = h_cap t -> probe_key t hit k <> Some (j, None).
Proof.
  intros Hch Hfull E. pose proof (cap_pos _ (ch_cap _ _ Hch)). pose proof (probe_key_spec t hit k Hch) as Hs. rewrite E in Hs.
  destruct Hs as (d & Hd & Hj & Hn & _).
  assert (Hj0 : 0 <= j < h_cap t) by (rewrite Hj; apply Z.mod_pos_bound; lia).
  assert (Heq : dom (h_slots t) = (list_to_set (seqZ 0 (h_cap t)) : gset Z)).
  { apply set_subseteq_size_eq.
    - intros i Hi. apply elem_of_dom in Hi as [e He]. apply elem_of_list_to_set, elem_of_seqZ. apply (ch_range _ _ Hch) in He. lia.
    - rewrite size_list_to_set, length_seqZ, size_dom by apply NoDup_seqZ. lia. }
  assert (Hin : j ∈ dom (h_slots t)) by (rewrite Heq; apply elem_of_list_to_set, elem_of_seqZ; lia).
  apply elem_of_dom in Hin as [e He]. congruence.
Qed.

Lemma full_probe_none t (k : K) :
  chained (h_cap t) (h_slots t) -> Z.of_nat (size (h_slots t)) = h_cap t -> probe_key t (fun _ => false) k = None.
Proof.
  intros Hch Hfull. pose proof (full_no_unused t (fun _ => false) k) as Hno. pose proof (probe_key_spec t (fun _ => false) k Hch) as Hs.
  destruct (probe_key t (fun _ => false) k) as [[j [e|]]|]; [|now destruct (Hno j)|reflexivity].
  destruct Hs as (d & _ & _ & _ & _ & ?). discriminate.
Qed.

(** ** Stores keep the invariant *)

Lemma store_chained cap s hit (k : K) v d j :
  chained cap s -> 0 <= d < cap -> j = (hash k mod cap + d) mod cap ->
  passed s cap hit (hash k mod cap) d -> (s !! j = None \/ exists w, s !! j = Some (k, w)) ->
  chained cap (<[j := (k, v)]> s).
Proof.
  intros [Hc Hr Hpath] Hd Hj Hp Hslot. pose proof (cap_pos _ Hc) as Hpos.
  assert (Hmono : forall i, is_Some (s !! i) -> is_Some (<[j := (k, v)]> s !! i)).
  { intros i [e He]. destruct (decide (i = j)) as [->|]; [rewrite lookup_insert_eq|rewrite lookup_insert_ne by auto]; eauto. }
  constructor; [exact Hc| |].
  - intros i e. destruct (decide (i = j)) as [->|]; [intros _; subst j; now apply Z.mod_pos_bound|].
    rewrite lookup_insert_ne by auto. apply Hr.
  - intros i e Hi d' Hd'. apply Hmono. destruct (decide (i = j)) as [->|]; [|rewrite lookup_insert_ne in Hi by auto; eauto].
    rewrite lookup_insert_eq in Hi. injection Hi as <-. cbn [fst] in *.
    assert (Hdist : (j - hash k) mod cap = d).
    { rewrite Hj, Z.add_mod_idemp_l, Zminus_mod_idemp_l by lia. replace (hash k + d - hash k) with d by lia. apply Z.mod_small; lia. }
    rewrite Hdist in Hd'. destruct (Hp d' Hd') as (e & He & _). rewrite Z.add_mod_idemp_l in He by lia. eauto.
Qed.

Lemma has_insert_fresh s j (k : K) v k' v' :
  s !! j = None -> has (<[j := (k, v)]> s) k' v' <-> (k' = k /\ v' = v) \/ has s k' v'.
Proof.
  intros Hn. split.
  - intros (i & Hi). destruct (decide (i = j)) as [->|]; [rewrite lookup_insert_eq in Hi; left; split; congruence|].
    rewrite lookup_insert_ne in Hi by auto. right. now exists i.
  - intros [[-> ->]|(i & Hi)]; [exists j; apply lookup_insert_eq|]. exists i. rewrite lookup_insert_ne by congruence. exact Hi.
Qed.

Lemma uniq_insert_fresh s j (k : K) v :
  uniq s -> s !! j = None -> (forall w, ~ has s k w) -> uniq (<[j := (k, v)]> s).
Proof.
  intros Hu Hn Hno a b k' x y Ha Hb. destruct (decide (a = j)) as [->|Hna], (decide (b = j)) as [->|Hnb]; [reflexivity| | |].
  - rewrite lookup_insert_eq in Ha. rewrite lookup_insert_ne in Hb by auto. injection Ha as -> ->. destruct (Hno y). now exists b.
  - rewrite lookup_insert_eq in Hb. rewrite lookup_insert_ne in Ha by auto. injection Hb as -> ->. destruct (Hno x). now exists a.
  - rewrite lookup_insert_ne in Ha, Hb by auto. eauto.
Qed.

Lemma store_same s j (k : K) v w k' v' :
  uniq s -> s !! j = Some (k, w) ->
  uniq (<[j := (k, v)]> s) /\ (has (<[j := (k, v)]> s) k' v' <-> if decide (k' = k) then v' = v else has s k' v').
Proof.
  intros Hu Hj. split.
  - intros a b k0 x y Ha Hb. destruct (decide (a = j)) as [->|Hna], (decide (b = j)) as [->|Hnb]; [reflexivity| | |];
      rewrite ?lookup_insert_eq, ?lookup_insert_ne in * by auto; simplify_eq; eauto.
  - split.
    + intros (i & Hi). destruct (decide (i = j)) as [->|Hn].
      * rewrite lookup_insert_eq in Hi. injection Hi as -> ->. now rewrite decide_True by reflexivity.
      * rewrite lookup_insert_ne in Hi by auto. destruct (decide (k' = k)) as [->|]; [destruct Hn; eauto|]. now exists i.
    + destruct (decide (k' = k)) as [->|Hk]; [intros ->; exists j; apply lookup_insert_eq|].
      intros (i & Hi). exists i. rewrite lookup_insert_ne by congruence. exact Hi.
Qed.
End Laws.

(** ** Growth *)

Section Growth.
Context {K V : Type} `{EqDecision K, HashKey K}.
Implicit Types (s : gmap Z (K * V)) (t : htab K V).

(** The entries of [s] in slots below [i]. *)
Definition below (i : Z) s : gmap Z (K * V) := filter (fun p => p.1 < i) s.

Lemma below_lookup i s j e : below i s !! j = Some e <-> s !! j = Some e /\ j < i.
Proof. unfold below. rewrite map_lookup_filter_Some. reflexivity. Qed.

Lemma below_step i s :
  below (i + 1) s = match s !! i with Some e => <[i := e]> (below i s) | None => below i s end.
Proof.
  apply map_eq. intros j. apply option_eq. intros e. rewrite below_lookup. destruct (s !! i) as [e0|] eqn:Ei.
  - destruct (decide (j = i)) as [->|Hne].
    + rewrite lookup_insert_eq. split; [intros [? _]; congruence|intros [= <-]; split; [exact Ei|lia]].
    + rewrite lookup_insert_ne, below_lookup by auto. split; intros [? ?]; (split; [assumption|lia]).
  - rewrite below_lookup. split; intros [Hs ?]; (split; [assumption|]); [|lia].
    assert (j <> i) by congruence. lia.
Qed.

Lemma below_all i s : (forall j e, s !! j = Some e -> j < i) -> below i s = s.
Proof.
  intros H0. apply map_eq. intros j. apply option_eq. intros e. rewrite below_lookup.
  split; [tauto|]. intros Hj. split; [exact Hj|eauto].
Qed.

Lemma below_has i s (k : K) v : has (below i s) k v -> has s k v.
Proof. intros (j & Hj). apply below_lookup in Hj as [Hj _]. now exists j. Qed.

(** [ns] holds what [s0] holds. *)
Record same_entries (s0 ns : gmap Z (K * V)) : Prop := {
  se_has : forall k v, has ns k v <-> has s0 k v;
  se_uniq : uniq s0 -> uniq ns;
  se_size : size ns = size s0
}.

(** One entry placed in the new table. *)
Lemma place_entry cap s0 ns i (e : K * V) :
  chained cap ns -> same_entries s0 ns -> s0 !! i = None -> Z.of_nat (size ns) < cap ->
  exists j, probe (Z.to_nat cap) ns (cap - 1) (fun _ => false) (home (cap - 1) e.1) = Some (j, None) /\
    chained cap (<[j := e]> ns) /\ same_entries (<[i := e]> s0) (<[j := e]> ns).
Proof.
  intros Hch [Hh Hu Hsz] Hi Hs. destruct e as [k v]. set (t := mk_htab cap ns 0 : htab K V).
  pose proof (probe_key_spec t (fun _ => false) k Hch) as Hp. pose proof (probe_ends t (fun _ => false) k Hch Hs) as Hend.
  unfold probe_key in Hp, Hend. subst t. cbn [h_cap h_slots fst] in *.
  destruct (probe _ _ _ _ _) as [[j r]|]; [|congruence]. destruct Hp as (d & Hd & Hj & Hr & Hpass & Hm).
  destruct r as [e|]; [discriminate|]. exists j. split; [reflexivity|]. split.
  { eapply store_chained; eauto. }
  constructor.
  - intros k' v'. rewrite !has_insert_fresh by assumption. now rewrite Hh.
  - intros Hu0 a b k0 x y Ha Hb.
    assert (Hu1 : uniq s0).
    { intros a' b' k1 x' y' Ha' Hb'. apply (Hu0 a' b' k1 x' y'); rewrite lookup_insert_ne; congruence. }
    assert (Hno : forall w, ~ has ns k w).
    { intros w Hw. apply Hh in Hw as (c & Hc). assert (i <> c) by congruence.
      assert (i = c); [|congruence]. eapply (Hu0 i c k v w); [apply lookup_insert_eq|rewrite lookup_insert_ne by auto; exact Hc]. }
    eapply (uniq_insert_fresh ns j k v (Hu Hu1) Hr Hno); eauto.
  - rewrite !map_size_insert_None by assumption. now rewrite Hsz.
Qed.

Lemma rehash_spec n i s ns cap :
  chained cap ns -> same_entries (below i s) ns -> 0 <= i -> i + Z.of_nat n < cap -> Z.of_nat (size ns) <= i ->
  exists ns', rehash n i s ns cap = Ret ns' /\ chained cap ns' /\ same_entries (below (i + Z.of_nat n) s) ns'.
Proof.
  revert i ns. induction n as [|n IH]; intros i ns Hch Hse Hi Hn Hsz; cbn [rehash].
  { exists ns. rewrite Z.add_0_r. auto. }
  pose proof (below_step i s) as Hb. destruct (s !! i) as [e|] eqn:Ei.
  - assert (Hbi : below i s !! i = None).
    { apply eq_None_not_Some. intros [x Hx]. apply below_lookup in Hx. lia. }
    destruct (place_entry cap (below i s) ns i e Hch Hse Hbi) as (j & -> & Hch' & Hse'); [lia|].
    rewrite <- Hb in Hse'. destruct (IH (i + 1) (<[j := e]> ns)) as (ns' & E & H1 & H2); auto; try lia.
    + pose proof (se_size _ _ Hse') as Hz. pose proof (se_size _ _ Hse) as Hz0. rewrite Hz, Hb, map_size_insert_None by exact Hbi. lia.
    + exists ns'. replace (i + Z.of_nat (S n)) with (i + 1 + Z.of_nat n) by lia. auto.
  - rewrite <- Hb in Hse. destruct (IH (i + 1) ns) as (ns' & E & H1 & H2); auto; try lia.
    exists ns'. replace (i + Z.of_nat (S n)) with (i + 1 + Z.of_nat n) by lia. auto.
Qed.

Lemma empty_chained cap : (exists w, 0 <= w /\ cap = 2 ^ w) -> chained (K := K) (V := V) cap ∅.
Proof. intros Hc. constructor; [exact Hc| |]; intros i e Hi; now rewrite lookup_empty in Hi. Qed.

Lemma below_empty s : (forall j e, s !! j = Some e -> 0 <= j) -> below 0 s = ∅.
Proof.
  intros H0. apply map_eq. intros j. apply option_eq. intros e. rewrite below_lookup, lookup_empty.
  split; [|discriminate]. intros [Hj Hl]. specialize (H0 _ _ Hj). lia.
Qed.

(** Growth keeps the entries and doubles the table, or leaves it as it is. *)
Lemma grow_spec_htab calloc_ok t :
  htab_ok t -> exists t', grow_htab calloc_ok t = Ret t' /\ htab_ok t' /\ same_entries (h_slots t) (h_slots t') /\
    h_used t' = h_used t /\ h_cap t' = if calloc_ok (h_cap t * 2) then h_cap t * 2 else h_cap t.
Proof.
  intros [Hch Hus]. unfold grow_htab. destruct (calloc_ok (h_cap t * 2)).
  2:{ exists t. split; [reflexivity|]. split; [now constructor|]. repeat split; auto. }
  pose proof (cap_pos _ (ch_cap _ _ Hch)) as Hpos.
  assert (Hc2 : exists w, 0 <= w /\ h_cap t * 2 = 2 ^ w).
  { destruct (ch_cap _ _ Hch) as (w & Hw & ->). exists (w + 1). split; [lia|]. rewrite Z.pow_add_r by lia. reflexivity. }
  destruct (rehash_spec (Z.to_nat (h_cap t)) 0 (h_slots t) ∅ (h_cap t * 2)) as (ns & E & H1 & H2).
  { now apply empty_chained. }
  { rewrite below_empty; [|intros j e Hj; apply (ch_range _ _ Hch) in Hj; lia]. constructor; auto. }
  { lia. } { lia. } { rewrite map_size_empty. lia. }
  rewrite Z2Nat.id in H2 by lia. rewrite below_all in H2 by (intros j e Hj; apply (ch_range _ _ Hch) in Hj; lia).
  rewrite E, ret_bind. eexists. split; [reflexivity|]. cbn [h_slots h_cap h_used].
  split; [constructor; cbn [h_slots h_cap h_used]; [exact H1|]|]; [rewrite Hus; pose proof (se_size _ _ H2); lia|]. auto.
Qed.
End Growth.

(** ** The table as a finite map *)

Section Map.
Context {K V : Type} `{EqDecision K, !Countable K, HashKey K}.
Implicit Types (t : htab K V) (m : gmap K V).

Record represents t m : Prop := {
  rp_ok : htab_ok t;
  rp_uniq : uniq (h_slots t);
  rp_map : forall k v, m !! k = Some v <-> has (h_slots t) k v
}.

Lemma represents_empty cap : (exists w, 0 <= w /\ cap = 2 ^ w) -> represents (calloc_htab cap) ∅.
Proof.
  intros Hc. constructor; [constructor; [now apply empty_chained|reflexivity]| |].
  - intros i j k v w Hi. cbn in Hi. now rewrite lookup_empty in Hi.
  - intros k v. rewrite lookup_empty. split; [discriminate|]. intros (i & Hi). cbn in Hi. now rewrite lookup_empty in Hi.
Qed.

Lemma represents_get t m k :
  represents t m ->
  match probe_key t (key_is k) k with
  | Some (_, Some e) => m !! k = Some e.2 /\ e.1 = k
  | _ => m !! k = None
  end.
Proof.
  intros [[Hch _] Hu Hm]. pose proof (probe_finds t k Hch) as Hp.
  destruct (probe_key t (key_is k) k) as [[i [[k' v]|]]|].
  - destruct Hp as [Hi Hk]. cbn [fst snd] in *. subst k'. split; [|reflexivity]. apply Hm. now exists i.
  - apply eq_None_not_Some. intros [v Hv]. apply Hm in Hv. now apply (Hp v).
  - apply eq_None_not_Some. intros [v Hv]. apply Hm in Hv. now apply (Hp v).
Qed.

Lemma represents_grow calloc_ok t m :
  represents t m -> exists t', grow_htab calloc_ok t = Ret t' /\ represents t' m /\ h_used t' = h_used t /\
    h_cap t' = if calloc_ok (h_cap t * 2) then h_cap t * 2 else h_cap t.
Proof.
  intros [Hok Hu Hm]. destruct (grow_spec_htab calloc_ok t Hok) as (t' & E & H1 & [Hh Hu' _] & H3 & H4).
  exists t'. split; [exact E|]. split; [constructor; auto|auto]. intros k v. now rewrite Hm, Hh.
Qed.

(** A store where the probe for the key ended is an insertion. *)
Lemma represents_store t m k v i r :
  represents t m -> probe_key t (key_is k) k = Some (i, r) ->
  represents (store t i (bool_decide (r = None)) k v) (<[k := v]> m).
Proof.
  intros [[Hch Hus] Hu Hm] E. pose proof (probe_finds t k Hch) as Hf. pose proof (probe_key_spec t (key_is k) k Hch) as Hs.
  rewrite E in Hf, Hs. destruct Hs as (d & Hd & Hj & Hr & Hpass & _). destruct r as [[k' w]|].
  - destruct Hf as [Hi Hk]. cbn [fst] in Hk. subst k'.
    assert (Hss := fun k' v' => store_same (h_slots t) i k v w k' v' Hu Hi).
    constructor; [constructor| |]; cbn [store h_cap h_slots h_used].
    + eapply store_chained; eauto.
    + rewrite bool_decide_false by congruence. rewrite map_size_insert_Some by eauto. exact Hus.
    + apply (Hss k v).
    + intros k' v'. rewrite (proj2 (Hss k' v')). destruct (decide (k' = k)) as [->|Hne].
      * rewrite lookup_insert_eq. split; congruence.
      * rewrite lookup_insert_ne by congruence. apply Hm.
  - assert (Hno : forall w, ~ has (h_slots t) k w) by exact Hf.
    constructor; [constructor| |]; cbn [store h_cap h_slots h_used].
    + eapply store_chained; eauto.
    + rewrite bool_decide_true by reflexivity. rewrite map_size_insert_None by exact Hr. lia.
    + now apply uniq_insert_fresh.
    + intros k' v'. rewrite has_insert_fresh by exact Hr. destruct (decide (k' = k)) as [->|Hne].
      * rewrite lookup_insert_eq. split; [intros [= ->]; auto|]. intros [[_ ->]|Hw]; [reflexivity|]. now destruct (Hno v').
      * rewrite lookup_insert_ne by congruence. rewrite Hm. split; [auto|]. intros [[? _]|]; [congruence|assumption].
Qed.

(** A full table has no room: the probe for a key it does not hold goes round for ever. *)
Lemma represents_full t m k n :
  represents t m -> Z.of_nat (size (h_slots t)) = h_cap t -> m !! k = None ->
  probe n (h_slots t) (h_cap t - 1) (key_is k) (home (h_cap t - 1) k) = None.
Proof.
  intros Hrep Hfull Hk. pose proof (rp_ok _ _ Hrep) as [Hch _]. pose proof (ch_cap _ _ Hch) as Hc.
  apply probe_spins; [exact Hc|now apply home_range|]. fold (probe_key t (key_is k) k).
  pose proof (represents_get t m k Hrep) as Hg. pose proof (fun j => full_no_unused t (key_is k) k j Hch Hfull) as Hs.
  destruct (probe_key t (key_is k) k) as [[j [e|]]|]; [destruct Hg; congruence|now destruct (Hs j)|reflexivity].
Qed.
End Map.

(** ** Termination of insertion *)

Section Load.
Context {K V : Type} `{EqDecision K, HashKey K}.
Implicit Types t : htab K V.

(** At most three quarters of the slots used. *)
Definition light t : Prop := h_used t * 4 < h_cap t * 3.

Lemma light_not_full t : htab_ok t -> light t -> Z.of_nat (size (h_slots t)) < h_cap t.
Proof. intros [_ Hu] Hl. unfold light in Hl. lia. Qed.

(** Growth at three quarters leaves room for one more entry. *)
Lemma grow_leaves_room calloc_ok t :
  htab_ok t -> light t -> 2 <= h_cap t -> (forall n, calloc_ok n = true) ->
  exists t', (if loaded t then grow_htab calloc_ok t else Ret t) = Ret t' /\ htab_ok t' /\
    same_entries (h_slots t) (h_slots t') /\ h_used t' = h_used t /\ h_cap t <= h_cap t' /\ (h_used t' + 1) * 4 < h_cap t' * 3.
Proof.
  intros Hok Hl Hc Hall. unfold loaded, light in *. destruct (_ >=? _) eqn:E; b2p.
  - destruct (grow_spec_htab calloc_ok t Hok) as (t' & -> & H1 & H2 & H3 & H4). rewrite Hall in H4.
    exists t'. split; [reflexivity|]. split; [exact H1|]. split; [exact H2|]. lia.
  - exists t. split; [reflexivity|]. split; [exact Hok|]. split; [constructor; auto|]. lia.
Qed.

Lemma store_fresh_ok t hit k v i d :
  htab_ok t -> 0 <= d < h_cap t -> i = (hash k mod h_cap t + d) mod h_cap t ->
  passed (h_slots t) (h_cap t) hit (hash k mod h_cap t) d -> h_slots t !! i = None ->
  htab_ok (store t i true k v) /\ h_used (store t i true k v) = h_used t + 1.
Proof.
  intros [Hch Hu] Hd Hi Hp Hn. split; [|reflexivity]. constructor; cbn [store h_cap h_slots h_used].
  - eapply store_chained; eauto.
  - rewrite map_size_insert_None by exact Hn. lia.
Qed.

(** Insertion without a search for the key: always a new entry. *)
Lemma append_spec t k v :
  htab_ok t -> Z.of_nat (size (h_slots t)) < h_cap t ->
  exists i, probe_key t (fun _ => false) k = Some (i, None) /\ htab_ok (store t i true k v) /\
    forall k' v', has (h_slots (store t i true k v)) k' v' <-> (k' = k /\ v' = v) \/ has (h_slots t) k' v'.
Proof.
  intros Hok Hs. pose proof (ho_chain _ Hok) as Hch. pose proof (probe_key_spec t (fun _ => false) k Hch) as Hp.
  pose proof (probe_ends t (fun _ => false) k Hch Hs) as He. destruct (probe_key t _ k) as [[i r]|]; [|congruence].
  destruct Hp as (d & Hd & Hi & Hr & Hpass & Hm). destruct r as [e|]; [discriminate|].
  exists i. split; [reflexivity|]. split; [eapply store_fresh_ok; eauto|].
  intros k' v'. now apply has_insert_fresh.
Qed.
End Load.
