(* ===== verification/Caches.v ===== *)
(** * Caches: the symbolizer's and decoder's hash tables

    - [elfidx_get], [elfidx_put] (src/common/sym_elf.c): (file, ELF offset) to the
      index of a parsed module, append-only;
    - [sc_get], [sc_put], [sc_clear] (src/common/symbolize.c): (pid, address) to
      the resolved text, cleared at a ceiling;
    - [fdc_slot], [fdc_put], [fdc_drop], [render_fd] (src/common/decode.c): (pid,
      descriptor) to a path, with deletion.
    All three are instances of the table of Probe; [calloc] and [readlink]
    outcomes are arguments. *)

From Stdlib Require Import ZArith Lia.
From stdpp Require Import base list option numbers gmap fin_maps.
From S2P Require Import Prelude Emit Probe.

Local Open Scope Z_scope.

(** ** Module index *)

Record elf_key := mk_elf_key { ek_off : Z; ek_hash : Z }.
#[export] Instance elf_key_eq : EqDecision elf_key. Proof. solve_decision. Defined.
#[export] Instance elf_key_hash : HashKey elf_key := ek_hash.

Fixpoint fnv1a (h : Z) (path : list byte) : Z :=
  match path with
  | [] => h
  | c :: path => fnv1a (u32 (Z.lxor h (bz c) * 16777619)) path
  end.

Definition elf_path_hash (path : list byte) (elf_off : Z) : Z :=
  Z.lxor (fnv1a 2166136261 path) (u32 (Z.lxor elf_off (Z.shiftr elf_off 32))).

Definition elf_key_of (path : list byte) (elf_off : Z) : elf_key := mk_elf_key elf_off (elf_path_hash path elf_off).

Definition elfidx_get (t : htab elf_key Z) (path : list byte) (elf_off : Z) : option Z :=
  if h_cap t =? 0 then None else
  match probe_key t (key_is (elf_key_of path elf_off)) (elf_key_of path elf_off) with
  | Some (_, Some e) => Some e.2
  | _ => None
  end.

Section Alloc.
Context (calloc_ok : Z -> bool).

Definition elfidx_put (t : htab elf_key Z) (path : list byte) (elf_off idx : Z) : res (htab elf_key Z) :=
  match (if h_cap t =? 0 then (if calloc_ok 256 then Some (calloc_htab 256) else None) else Some t) with
  | None => Ret no_htab
  | Some t =>
      t ← (if loaded t then grow_htab calloc_ok t else Ret t);
      match probe_key t (fun _ => false) (elf_key_of path elf_off) with
      | Some (i, _) => Ret (store t i true (elf_key_of path elf_off) idx)
      | None => NoFuel
      end
  end.

(** ** Resolved addresses *)

Record sc_key := mk_sc_key { sk_pid : Z; sk_addr : Z }.

Definition sc_hash (k : sc_key) : Z :=
  let h := Z.lxor (sk_addr k) (u64 (u32 (sk_pid k) * 0x9e3779b97f4a7c15)) in
  let h := u64 (h * 0xbf58476d1ce4e5b9) in
  Z.lxor h (Z.shiftr h 31).

#[export] Instance sc_key_eq : EqDecision sc_key. Proof. solve_decision. Defined.
#[export] Instance sc_key_countable : Countable sc_key.
Proof. apply (inj_countable' (fun k => (sk_pid k, sk_addr k)) (fun p => mk_sc_key p.1 p.2)). now intros []. Defined.
#[export] Instance sc_key_hash : HashKey sc_key := sc_hash.

Definition SC_STR := 120.
Definition SC_MAX_CAP := 2 ^ 18.

Definition sc_clear (t : htab sc_key (list byte)) : htab sc_key (list byte) := mk_htab (h_cap t) ∅ 0.

Definition sc_get (t : htab sc_key (list byte)) (pid addr outsz : Z) : option (list byte) :=
  if h_cap t =? 0 then None else
  match probe_key t (key_is (mk_sc_key pid addr)) (mk_sc_key pid addr) with
  | Some (_, Some e) => Some (snprintf_s outsz e.2)
  | _ => None
  end.

Definition sc_room (t : htab sc_key (list byte)) : res (htab sc_key (list byte)) :=
  if loaded t then (if h_cap t >=? SC_MAX_CAP then Ret (sc_clear t) else grow_htab calloc_ok t) else Ret t.

Definition sc_put (t : htab sc_key (list byte)) (pid addr : Z) (sym : list byte) : res (htab sc_key (list byte)) :=
  match (if h_cap t =? 0 then (if calloc_ok (2 ^ 16) then Some (calloc_htab (2 ^ 16)) else None) else Some t) with
  | None => Ret no_htab
  | Some t =>
      t ← sc_room t;
      match probe_key t (key_is (mk_sc_key pid addr)) (mk_sc_key pid addr) with
      | Some (i, r) => Ret (store t i (bool_decide (r = None)) (mk_sc_key pid addr) (snprintf_s SC_STR sym))
      | None => NoFuel
      end
  end.

(** ** Descriptor paths *)

Record fdc_key := mk_fdc_key { fk_pid : Z; fk_fd : Z }.

Definition fdc_hash (k : fdc_key) : Z :=
  Z.lxor (u64 (u32 (fk_pid k) * 2654435761)) (u64 (u32 (fk_fd k) * 40503)).

#[export] Instance fdc_key_eq : EqDecision fdc_key. Proof. solve_decision. Defined.
#[export] Instance fdc_key_countable : Countable fdc_key.
Proof. apply (inj_countable' (fun k => (fk_pid k, fk_fd k)) (fun p => mk_fdc_key p.1 p.2)). now intros []. Defined.
#[export] Instance fdc_key_hash : HashKey fdc_key := fdc_hash.

(** The slot for a descriptor: unused, or its own. *)
Definition fdc_slot (t : htab fdc_key (list byte)) (pid fd : Z) : option (Z * option (fdc_key * list byte)) :=
  if h_cap t =? 0 then None else probe_key t (key_is (mk_fdc_key pid fd)) (mk_fdc_key pid fd).

Definition fdc_put (t : htab fdc_key (list byte)) (pid fd : Z) (path : list byte) : res (htab fdc_key (list byte)) :=
  match (if h_cap t =? 0 then (if calloc_ok (2 ^ 12) then Some (calloc_htab (2 ^ 12)) else None) else Some t) with
  | None => Ret no_htab
  | Some t =>
      t ← (if loaded t then grow_htab calloc_ok t else Ret t);
      match fdc_slot t pid fd with
      | Some (i, r) => Ret (store t i (bool_decide (r = None)) (mk_fdc_key pid fd) (snprintf_s 256 path))
      | None => Ret t
      end
  end.

Definition fdc_drop (t : htab fdc_key (list byte)) (pid fd : Z) : htab fdc_key (list byte) :=
  match fdc_slot t pid fd with
  | Some (i, Some _) => mk_htab (h_cap t) (delete i (h_slots t)) (h_used t - 1)
  | _ => t
  end.

Definition s32 (z : Z) : Z := if u32 z <? 2 ^ 31 then u32 z else u32 z - 2 ^ 32.

Definition fd_text (fd : Z) (path : option (list byte)) : res (list byte) :=
  d ← dec_text fd;
  Ret (bytes_of "fd=" ++ d ++ match path with Some p => bytes_of " <" ++ p ++ bytes_of ">" | None => [] end).

(** [readlink]: the link's text, at most 255 bytes; nothing on failure. *)
Definition render_fd (readlink : Z -> Z -> list byte) (t : htab fdc_key (list byte)) (pid val outsz : Z)
  : res (list byte * htab fdc_key (list byte)) :=
  let fd := s32 val in
  if fd =? -100 then Ret (snprintf_s outsz (bytes_of "AT_FDCWD"), t) else
  if fd <? 0 then (d ← dec_text fd; Ret (snprintf_s outsz d, t)) else
  match fdc_slot t pid fd with
  | Some (_, Some e) => s ← fd_text fd (Some e.2); Ret (snprintf_s outsz s, t)
  | _ =>
      let tgt := readlink pid fd in
      if zlen tgt =? 0 then (s ← fd_text fd None; Ret (snprintf_s outsz s, t)) else
      t ← fdc_put t pid fd tgt;
      s ← fd_text fd (Some tgt);
      Ret (snprintf_s outsz s, t)
  end.
End Alloc.

(** ** The module index *)

(** A table with room, or none yet. *)
Definition idx_ok (t : htab elf_key Z) : Prop := h_cap t = 0 /\ t = no_htab \/ 256 <= h_cap t /\ htab_ok t /\ light t.

Definition idx_has (t : htab elf_key Z) (path : list byte) (elf_off idx : Z) : Prop :=
  has (h_slots t) (elf_key_of path elf_off) idx.

Lemma calloc_htab_ok {K V} `{EqDecision K, HashKey K} w : 0 <= w -> htab_ok (calloc_htab (K := K) (V := V) (2 ^ w)).
Proof. intros Hw. constructor; [apply empty_chained; eauto|reflexivity]. Qed.

Lemma elfidx_put_spec calloc_ok t path off idx :
  (forall n, calloc_ok n = true) -> idx_ok t ->
  exists t', elfidx_put calloc_ok t path off idx = Ret t' /\ idx_ok t' /\ 256 <= h_cap t' /\
    forall k v, has (h_slots t') k v <-> (k = elf_key_of path off /\ v = idx) \/ has (h_slots t) k v.
Proof.
  intros Hall Hok. unfold elfidx_put. set (k := elf_key_of path off).
  assert (H0 : exists t0, (if h_cap t =? 0 then (if calloc_ok 256 then Some (calloc_htab 256) else None) else Some t) = Some t0 /\
    256 <= h_cap t0 /\ htab_ok t0 /\ light t0 /\ h_slots t0 = h_slots t).
  { destruct Hok as [[E ->]|(Hc & H1 & H2)]; [rewrite Hall; simpl|].
    - eexists. split; [reflexivity|]. split; [simpl; lia|]. split; [apply (calloc_htab_ok 8); lia|]. split; [unfold light; simpl; lia|reflexivity].
    - rewrite (proj2 (Z.eqb_neq _ _)) by lia. eauto 6. }
  destruct H0 as (t0 & -> & Hc & H1 & H2 & Es).
  destruct (grow_leaves_room calloc_ok t0 H1 H2) as (t1 & -> & Hok1 & Hse & Hus & Hcap & Hroom); [lia|exact Hall|].
  rewrite ret_bind. destruct (append_spec t1 k idx Hok1) as (i & -> & Hok2 & Hhas).
  { apply light_not_full; [exact Hok1|]. unfold light. lia. }
  eexists. split; [reflexivity|]. split; [|split; [simpl; lia|]].
  - right. split; [simpl; lia|]. split; [exact Hok2|]. unfold light. simpl. lia.
  - intros k' v'. rewrite Hhas, (se_has _ _ Hse). now rewrite Es.
Qed.

(** A history of insertions: file, ELF offset, index. *)
Fixpoint elfidx_puts (calloc_ok : Z -> bool) (l : list (list byte * Z * Z)) (t : htab elf_key Z) : res (htab elf_key Z) :=
  match l with
  | [] => Ret t
  | (path, off, idx) :: l => t ← elfidx_put calloc_ok t path off idx; elfidx_puts calloc_ok l t
  end.

Lemma elfidx_puts_spec calloc_ok l t :
  (forall n, calloc_ok n = true) -> idx_ok t ->
  exists t', elfidx_puts calloc_ok l t = Ret t' /\ idx_ok t' /\
    forall k v, has (h_slots t') k v <->
      has (h_slots t) k v \/ exists path off, In (path, off, v) l /\ k = elf_key_of path off.
Proof.
  intros Hall. revert t. induction l as [|[[path off] idx] l IH]; intros t Hok; cbn [elfidx_puts].
  { exists t. split; [reflexivity|]. split; [exact Hok|]. intros k v. split; [auto|]. intros [|(? & ? & [] & _)]. assumption. }
  destruct (elfidx_put_spec calloc_ok t path off idx Hall Hok) as (t1 & -> & Hok1 & _ & H1). rewrite ret_bind.
  destruct (IH t1 Hok1) as (t' & E & Hok' & H2). exists t'. split; [exact E|]. split; [exact Hok'|].
  intros k v. rewrite H2, H1. split.
  - intros [[[-> ->]|]|(p & o & Hin & ->)]; [right; exists path, off; simpl; auto|auto|right; exists p, o; simpl; auto].
  - intros [|(p & o & [Heq|Hin] & ->)]; [auto|injection Heq as <- <- <-; auto|right; eauto].
Qed.

(** C38: every insertion into the module index ends, whatever the number of
    modules, when growth succeeds; a lookup then answers with the index of a module
    inserted under the same ELF offset and path hash, and misses only when there is
    none. *)
Theorem elfidx_terminates_and_finds calloc_ok l path off :
  (forall n, calloc_ok n = true) ->
  exists t, elfidx_puts calloc_ok l no_htab = Ret t /\
    match elfidx_get t path off with
    | Some idx => exists path' off', In (path', off', idx) l /\ elf_key_of path' off' = elf_key_of path off
    | None => forall path' off' idx, In (path', off', idx) l -> elf_key_of path' off' <> elf_key_of path off
    end.
Proof.
  intros Hall. destruct (elfidx_puts_spec calloc_ok l no_htab Hall) as (t & E & Hok & Hh); [left; auto|].
  exists t. split; [exact E|].
  assert (Hno : forall k v, ~ has (h_slots (no_htab : htab elf_key Z)) k v) by (intros k v (i & Hi); simpl in Hi; now rewrite lookup_empty in Hi).
  assert (Hall' : forall k v, has (h_slots t) k v <-> exists path off, In (path, off, v) l /\ k = elf_key_of path off).
  { intros k v. rewrite Hh. split; [intros [Hf|]; [now apply Hno in Hf|assumption]|auto]. }
  assert (Hmiss : (forall v, ~ has (h_slots t) (elf_key_of path off) v) ->
    forall path' off' idx, In (path', off', idx) l -> elf_key_of path' off' <> elf_key_of path off).
  { intros Hn p o idx Hin Heq. apply (Hn idx), Hall'. eauto. }
  unfold elfidx_get. destruct Hok as [[-> Et]|(Hc & Hok & _)].
  { refine (Hmiss _). intros v (i & Hi). rewrite Et in Hi. simpl in Hi. now rewrite lookup_empty in Hi. }
  rewrite (proj2 (Z.eqb_neq _ _)) by lia. pose proof (probe_finds t (elf_key_of path off) (ho_chain _ Hok)) as Hp.
  destruct (probe_key t _ _) as [[i [[k v]|]]|]; [|now apply Hmiss|now apply Hmiss].
  destruct Hp as [Hi Hk]. simpl in *. subst k. destruct (proj1 (Hall' (elf_key_of path off) v)) as (p & o & Hin & Heq); [now exists i|]. eauto.
Qed.

(** When growth fails the load is not limited: a full index makes the next
    insertion walk round for ever. *)
Theorem full_index_insertion_spins t path off idx n :
  htab_ok t -> Z.of_nat (size (h_slots t)) = h_cap t ->
  elfidx_put (fun _ => false) t path off idx = NoFuel /\
  probe n (h_slots t) (h_cap t - 1) (fun _ => false) (home (h_cap t - 1) (elf_key_of path off)) = None.
Proof.
  intros Hok Hfull. pose proof (ho_chain _ Hok) as Hch. pose proof (cap_pos _ (ch_cap _ _ Hch)) as Hpos.
  assert (Hn : probe_key t (fun _ => false) (elf_key_of path off) = None) by now apply full_probe_none.
  split.
  - unfold elfidx_put. rewrite (proj2 (Z.eqb_neq _ _)) by lia. destruct (loaded t); [unfold grow_htab|]; rewrite ret_bind, Hn; reflexivity.
  - apply probe_spins; [apply Hch|apply home_range; apply Hch|exact Hn].
Qed.

(** ** The address cache *)

Definition sc_ok (t : htab sc_key (list byte)) : Prop := t = no_htab \/ 2 ^ 16 <= h_cap t /\ light t.

(** The table holds part of [m]; the last insertion is in it. *)
Definition sc_holds (t : htab sc_key (list byte)) (m : gmap sc_key (list byte)) : Prop :=
  t = no_htab /\ m = ∅ \/ 2 ^ 16 <= h_cap t /\ light t /\ represents t m.

Lemma sc_clear_holds t m : sc_holds t m -> sc_holds (sc_clear t) ∅.
Proof.
  intros [[-> ->]|(Hc & Hl & Hr)]; [left; auto|]. right. unfold sc_clear, light. simpl. split; [exact Hc|]. split; [lia|].
  change (represents (calloc_htab (h_cap t)) (∅ : gmap sc_key (list byte))). apply represents_empty. apply (rp_ok _ _ Hr).
Qed.

(** Making room keeps the entries or forgets them all. *)
Lemma sc_room_spec calloc_ok t m :
  (forall n, calloc_ok n = true) -> 2 ^ 16 <= h_cap t -> light t -> represents t m ->
  exists t' m', sc_room calloc_ok t = Ret t' /\ 2 ^ 16 <= h_cap t' /\ (h_used t' + 1) * 4 < h_cap t' * 3 /\
    represents t' m' /\ (m' = m \/ m' = ∅).
Proof.
  intros Hall Hc Hl Hr. unfold sc_room. destruct (loaded t) eqn:El.
  - destruct (h_cap t >=? SC_MAX_CAP) eqn:Em.
    + exists (sc_clear t), ∅. split; [reflexivity|]. split; [exact Hc|]. split; [simpl; lia|].
      split; [apply represents_empty; apply (rp_ok _ _ Hr)|auto].
    + destruct (represents_grow calloc_ok t m Hr) as (t' & E & Hr' & Hu & Hcap). rewrite Hall in Hcap. unfold light in Hl.
      exists t', m. split; [exact E|]. split; [lia|]. split; [lia|]. auto.
  - exists t, m. unfold loaded in El. b2p. split; [reflexivity|]. split; [exact Hc|]. split; [lia|]. auto.
Qed.

Lemma sc_put_spec calloc_ok t m pid addr sym :
  (forall n, calloc_ok n = true) -> sc_holds t m ->
  exists t' m', sc_put calloc_ok t pid addr sym = Ret t' /\
    sc_holds t' (<[mk_sc_key pid addr := snprintf_s SC_STR sym]> m') /\ (m' = m \/ m' = ∅).
Proof.
  intros Hall Hh. unfold sc_put. set (k := mk_sc_key pid addr).
  assert (H0 : exists t0, (if h_cap t =? 0 then (if calloc_ok (2 ^ 16) then Some (calloc_htab (2 ^ 16)) else None) else Some t) = Some t0 /\
    2 ^ 16 <= h_cap t0 /\ light t0 /\ represents t0 m).
  { destruct Hh as [[-> ->]|(Hc & Hl & Hr)].
    - rewrite Hall. eexists. split; [reflexivity|]. split; [simpl; lia|]. split; [unfold light; simpl; lia|].
      apply represents_empty. exists 16. lia.
    - rewrite (proj2 (Z.eqb_neq _ _)) by lia. eauto. }
  destruct H0 as (t0 & -> & Hc & Hl & Hr). destruct (sc_room_spec calloc_ok t0 m Hall Hc Hl Hr) as (t1 & m1 & -> & Hc1 & Hl1 & Hr1 & Hm1).
  rewrite ret_bind. pose proof (rp_ok _ _ Hr1) as Hok1.
  assert (Hne : probe_key t1 (key_is k) k <> None).
  { apply probe_ends; [apply Hok1|]. apply light_not_full; [exact Hok1|]. unfold light. lia. }
  destruct (probe_key t1 (key_is k) k) as [[i r]|] eqn:Ep; [|congruence].
  eexists _, m1. split; [reflexivity|]. split; [|exact Hm1]. right. split; [exact Hc1|]. split.
  - unfold light. cbn [store h_used h_cap]. case_bool_decide; lia.
  - now apply represents_store.
Qed.

Lemma sc_get_spec t m pid addr outsz :
  sc_holds t m -> sc_get t pid addr outsz = snprintf_s outsz <$> m !! mk_sc_key pid addr.
Proof.
  intros [[-> ->]|(Hc & Hl & Hr)]; [now rewrite lookup_empty|]. unfold sc_get. rewrite (proj2 (Z.eqb_neq _ _)) by lia.
  pose proof (represents_get t m (mk_sc_key pid addr) Hr) as Hg.
  destruct (probe_key t _ _) as [[i [e|]]|]; [destruct Hg as [-> _]|rewrite Hg|rewrite Hg]; reflexivity.
Qed.

Inductive sc_op := ScPut (pid addr : Z) (sym : list byte) | ScClear.

Definition sc_step (calloc_ok : Z -> bool) (t : htab sc_key (list byte)) (o : sc_op) : res (htab sc_key (list byte)) :=
  match o with ScPut pid addr sym => sc_put calloc_ok t pid addr sym | ScClear => Ret (sc_clear t) end.

Fixpoint sc_run (calloc_ok : Z -> bool) (t : htab sc_key (list byte)) (l : list sc_op) : res (htab sc_key (list byte)) :=
  match l with [] => Ret t | o :: l => t ← sc_step calloc_ok t o; sc_run calloc_ok t l end.

(** What an unbounded cache would hold. *)
Definition written (m : gmap sc_key (list byte)) (o : sc_op) : gmap sc_key (list byte) :=
  match o with ScPut pid addr sym => <[mk_sc_key pid addr := snprintf_s SC_STR sym]> m | ScClear => ∅ end.

Lemma sc_step_spec calloc_ok t m w o :
  (forall n, calloc_ok n = true) -> sc_holds t m -> m ⊆ w ->
  exists t' m', sc_step calloc_ok t o = Ret t' /\ sc_holds t' m' /\ m' ⊆ written w o /\
    match o with ScPut pid addr sym => m' !! mk_sc_key pid addr = Some (snprintf_s SC_STR sym) | ScClear => m' = ∅ end.
Proof.
  intros Hall Hh Hsub. destruct o as [pid addr sym|]; cbn [sc_step written].
  - destruct (sc_put_spec calloc_ok t m pid addr sym Hall Hh) as (t' & m' & E & Hh' & Hm').
    eexists t', _. split; [exact E|]. split; [exact Hh'|]. split; [|apply lookup_insert_eq].
    apply insert_mono. destruct Hm' as [->| ->]; [exact Hsub|apply map_empty_subseteq].
  - exists (sc_clear t), ∅. split; [reflexivity|]. split; [now apply (sc_clear_holds t m)|].
    split; [apply map_empty_subseteq|reflexivity].
Qed.

Lemma sc_run_spec calloc_ok l t m w :
  (forall n, calloc_ok n = true) -> sc_holds t m -> m ⊆ w ->
  exists t' m', sc_run calloc_ok t l = Ret t' /\ sc_holds t' m' /\ m' ⊆ foldl written w l.
Proof.
  intros Hall. revert t m w. induction l as [|o l IH]; intros t m w Hh Hsub; cbn [sc_run foldl]; [eauto|].
  destruct (sc_step_spec calloc_ok t m w o Hall Hh Hsub) as (t1 & m1 & -> & Hh1 & Hsub1 & Hlast). rewrite ret_bind. eauto.
Qed.


(** ** The descriptor cache *)

(** Without deletions the descriptor cache is a map; an insertion never spins, since
    its probe is bounded. *)
Lemma fdc_put_spec calloc_ok t m pid fd path :
  represents t m -> 2 <= h_cap t ->
  exists t', fdc_put calloc_ok t pid fd path = Ret t' /\
    (represents t' (<[mk_fdc_key pid fd := snprintf_s 256 path]> m) \/ represents t' m).
Proof.
  intros Hr Hc. unfold fdc_put. rewrite (proj2 (Z.eqb_neq _ _)) by lia.
  assert (Hg : exists t1, (if loaded t then grow_htab calloc_ok t else Ret t) = Ret t1 /\ represents t1 m /\ 2 <= h_cap t1).
  { destruct (loaded t); [|eauto]. destruct (represents_grow calloc_ok t m Hr) as (t1 & E & H1 & _ & H2).
    exists t1. split; [exact E|]. split; [exact H1|]. destruct (calloc_ok _); lia. }
  destruct Hg as (t1 & -> & Hr1 & Hc1). rewrite ret_bind. unfold fdc_slot. rewrite (proj2 (Z.eqb_neq _ _)) by lia.
  destruct (probe_key t1 _ _) as [[i r]|] eqn:E; [|eauto]. eexists. split; [reflexivity|]. left. now apply represents_store.
Qed.

Definition ex_links (old : bool) (pid fd : Z) : list byte :=
  if fd =? 3 then bytes_of "/a" else if old then bytes_of "/old" else bytes_of "/new".

(** Open 3 and 4099 (one probe chain), close 3, look 4099 up again, close it, open
    3, and look 4099 up after it was opened on another file. *)
Definition stale_history : res (list byte) :=
  let all := fun _ : Z => true in
  '(_, t) ← render_fd all (ex_links true) no_htab 100 3 64;
  '(_, t) ← render_fd all (ex_links true) t 100 4099 64;
  let t := fdc_drop t 100 3 in
  '(_, t) ← render_fd all (ex_links true) t 100 4099 64;
  let t := fdc_drop t 100 4099 in
  '(_, t) ← render_fd all (ex_links false) t 100 3 64;
  '(s, _) ← render_fd all (ex_links false) t 100 4099 64;
  Ret s.

(** Deletion without tombstones breaks the probe chain: the old path of a
    descriptor that was closed and reopened is rendered for the new file. *)
Theorem dropped_fd_path_is_stale : stale_history = Ret (bytes_of "fd=4099 </old>").
Proof. vm_compute. reflexivity. Qed.

(** ** Witnesses *)

Lemma elfidx_terminates_and_finds_witness :
  exists t, elfidx_puts (fun _ => true) [(bytes_of "/a.so", 0, 0); (bytes_of "/b.so", 4096, 1)] no_htab = Ret t /\
    elfidx_get t (bytes_of "/b.so") 4096 = Some 1 /\ elfidx_get t (bytes_of "/b.so") 0 = None.
Proof.
  destruct (elfidx_terminates_and_finds (fun _ => true) [(bytes_of "/a.so", 0, 0); (bytes_of "/b.so", 4096, 1)] (bytes_of "/b.so") 4096)
    as (t & E & _); [reflexivity|].
  exists t. split; [exact E|]. vm_compute in E. injection E as <-. split; vm_compute; reflexivity.
Defined.

