(* ===== verification/Registry.v ===== *)
(** * Registry: from runtime addresses to probe targets (src/common/target_registry.c)

    Attached probes are registered as (module, file offset); the entry address of an
    event is mapped back through an address cache, then the process's maps, then the
    low twelve bits, which a page-aligned load base leaves alone.  The lines of
    /proc/<pid>/maps that parse are an argument.  A pointer to a target is its index,
    with the array it is in. *)

From Stdlib Require Import ZArith Lia.
From stdpp Require Import base list option numbers gmap fin_maps.
From S2P Require Import Prelude Elf Modules Probe.

Local Open Scope Z_scope.

Record probe_target_t := mk_target { mod_path : list byte; func_name : list byte; offset : Z; runtime_entry_addr : Z }.

Definition TARGET_REGISTRY_CAP := 4096.
Definition PT_HASH_CAP := 2 ^ 14.

(** Which array, which index. *)
Inductive target_ref := Active (i : nat) | Retired (i : nat).
#[export] Instance target_ref_eq : EqDecision target_ref. Proof. solve_decision. Defined.

Record addr_key := mk_addr { ak_addr : Z }.
#[export] Instance addr_key_eq : EqDecision addr_key. Proof. solve_decision. Defined.
#[export] Instance addr_key_countable : Countable addr_key.
Proof. apply (inj_countable' ak_addr mk_addr). now intros []. Defined.

Definition pt_hash_fn (k : addr_key) : Z :=
  let h := ak_addr k in
  let h := Z.lxor h (Z.shiftr h 33) in
  let h := u64 (h * 0xff51afd7ed558ccd) in
  Z.lxor h (Z.shiftr h 33).
#[export] Instance addr_key_hash : HashKey addr_key := pt_hash_fn.

(** [pt_hash] has no entry count; that of the table is kept for the proofs. *)
Record registry := mk_reg {
  target_registry : list probe_target_t; retired_targets : list probe_target_t; pt_hash : htab addr_key target_ref
}.
Definition registry0 : registry := mk_reg [] [] (calloc_htab PT_HASH_CAP).

Definition pt_hash_get (t : htab addr_key target_ref) (addr : Z) : option target_ref :=
  match probe_key t (key_is (mk_addr addr)) (mk_addr addr) with
  | Some (_, Some e) => Some e.2
  | _ => None
  end.

Definition pt_hash_put (t : htab addr_key target_ref) (addr : Z) (r : target_ref) : res (htab addr_key target_ref) :=
  match probe_key t (key_is (mk_addr addr)) (mk_addr addr) with
  | Some (i, e) => Ret (store t i (bool_decide (e = None)) (mk_addr addr) r)
  | None => NoFuel
  end.

Definition target_registry_add (g : registry) (tgt : probe_target_t) : bool * registry :=
  if zlen (target_registry g) <? TARGET_REGISTRY_CAP then
    (true, mk_reg (target_registry g ++ [tgt]) (retired_targets g) (pt_hash g))
  else (false, g).

(** The first registered target at [file_offset] of [path]. *)
Definition match_target (file_offset : Z) (path : list byte) (l : list probe_target_t) : option nat :=
  fst <$> list_find (fun t => offset t = file_offset /\ mod_path t = path) l.

(** The walk over the maps: a line that holds the address, executable and named. *)
Fixpoint maps_walk (maps : list anubee_map_line) (entry_addr : Z) (l : list probe_target_t) : option nat :=
  match maps with
  | [] => None
  | ml :: maps =>
      if (entry_addr <? start ml) || (entry_addr >=? end_ ml) then maps_walk maps entry_addr l else
      if negb (exec ml) || negb (bool_decide (head (path ml) = Some x2f)) then maps_walk maps entry_addr l else
      match match_target (u64 (u64 (entry_addr - start ml) + off ml)) (path ml) l with
      | Some i => Some i
      | None => maps_walk maps entry_addr l
      end
  end.

(** Set a target's runtime address and remember the address. *)
Definition set_addr (a : Z) (t : probe_target_t) : probe_target_t := mk_target (mod_path t) (func_name t) (offset t) a.
Definition learn (g : registry) (entry_addr : Z) (r : target_ref) : res registry :=
  h ← pt_hash_put (pt_hash g) entry_addr r;
  Ret (match r with
       | Active i => mk_reg (alter (set_addr entry_addr) i (target_registry g)) (retired_targets g) h
       | Retired i => mk_reg (target_registry g) (alter (set_addr entry_addr) i (retired_targets g)) h
       end).

(** The fallback: the only (offset, module) with these low twelve bits; the flag is
    [ambiguous]. *)
Fixpoint low12_walk (l : list (target_ref * probe_target_t)) (low12 : Z) (cand : option (target_ref * probe_target_t)) : option target_ref * bool :=
  match l with
  | [] => (fst <$> cand, false)
  | (r, t) :: l =>
      if negb (Z.land (offset t) 0xFFF =? low12) then low12_walk l low12 cand else
      match cand with
      | None => low12_walk l low12 (Some (r, t))
      | Some (r0, t0) =>
          if negb (offset t =? offset t0) || negb (bool_decide (mod_path t = mod_path t0)) then (Some r0, true)
          else low12_walk l low12 cand
      end
  end.

(** Both arrays in the order of the two passes. *)
Definition all_targets (g : registry) : list (target_ref * probe_target_t) :=
  imap (fun i t => (Active i, t)) (target_registry g) ++ imap (fun i t => (Retired i, t)) (retired_targets g).

(** Result, whether the fallback was used, and the registry after; [maps] is [None]
    when the process's maps cannot be opened. *)
Definition find_target_by_entry_addr (g : registry) (entry_addr : Z) (maps : option (list anubee_map_line))
  : res (option target_ref * bool * registry) :=
  match pt_hash_get (pt_hash g) entry_addr with
  | Some r => Ret (Some r, false, g)
  | None =>
      match maps_walk (default [] maps) entry_addr (target_registry g) with
      | Some i => g ← learn g entry_addr (Active i); Ret (Some (Active i), false, g)
      | None =>
          match low12_walk (all_targets g) (Z.land entry_addr 0xFFF) None with
          | (Some r, false) => g ← learn g entry_addr r; Ret (Some r, true, g)
          | _ => Ret (None, false, g)
          end
      end
  end.

(** ** The fallback *)

Definition low12 (t : probe_target_t) : Z := Z.land (offset t) 0xFFF.
(** The same place of the same file. *)
Definition same_place (a b : probe_target_t) : Prop := offset a = offset b /\ mod_path a = mod_path b.

(** The targets of [l] with the given low bits. *)
Definition at_low (low : Z) (l : list (target_ref * probe_target_t)) (p : target_ref * probe_target_t) : Prop :=
  In p l /\ low12 p.2 = low.

Lemma low12_walk_spec l low cand :
  (forall p, cand = Some p -> low12 p.2 = low) ->
  let all := option_list cand ++ l in
  match low12_walk l low cand with
  | (Some r, false) => exists t, at_low low all (r, t) /\ forall p, at_low low all p -> same_place p.2 t
  | (None, false) => forall p, ~ at_low low all p
  | (_, true) => exists p q, at_low low all p /\ at_low low all q /\ ~ same_place p.2 q.2
  end.
Proof.
  cbv zeta. revert cand. induction l as [|[r t] l IH]; intros cand Hc; cbn [low12_walk].
  { destruct cand as [[r t]|]; cbn.
    - exists t. split; [split; [simpl; auto|now apply (Hc (r, t))]|]. intros p [[<-|[]] _]. split; reflexivity.
    - intros p [[] _]. }
  fold (low12 t). destruct (Z.eqb_spec (low12 t) low) as [El|El]; cbn [negb].
  - destruct cand as [[r0 t0]|].
    + specialize (IH (Some (r0, t0)) Hc). destruct (_ || _) eqn:Ed.
      * exists (r, t), (r0, t0). split; [split; [simpl; auto|exact El]|]. split; [split; [simpl; auto|now apply (Hc (r0, t0))]|].
        intros [H1 H2]. cbn in H1, H2. apply orb_true_iff in Ed as [Ed|Ed]; apply negb_true_iff in Ed; b2p; [congruence|].
        apply bool_decide_eq_false in Ed. congruence.
      * apply orb_false_iff in Ed as [E1 E2]. apply negb_false_iff in E1, E2. b2p. apply bool_decide_eq_true in E2.
        cbn [option_list app] in *.
        assert (Hmore : forall p, at_low low ((r0, t0) :: l) p -> at_low low ((r0, t0) :: (r, t) :: l) p)
          by (intros p [[<-|Hin] Hp]; (split; [simpl; auto|exact Hp])).
        destruct (low12_walk l low (Some (r0, t0))) as [[r1|] [|]].
        -- destruct IH as (p & q & ? & ? & ?). exists p, q. auto.
        -- destruct IH as (t1 & Ha & Hall). exists t1. split; [auto|]. intros p [[<-|[<-|Hin]] Hp].
           ++ apply Hall. split; [simpl; auto|exact Hp].
           ++ cbn. destruct (Hall (r0, t0)) as [? ?]; [split; [simpl; auto|now apply (Hc (r0, t0))]|]. cbn in *. split; congruence.
           ++ apply Hall. split; [simpl; auto|exact Hp].
        -- destruct IH as (p & q & ? & ? & ?). exists p, q. auto.
        -- intros p Hp. apply (IH (r0, t0)). split; [simpl; auto|now apply (Hc (r0, t0))].
    + apply (IH (Some (r, t))). now intros p [= <-].
  - specialize (IH cand Hc).
    assert (Hsame : forall p, at_low low (option_list cand ++ l) p <-> at_low low (option_list cand ++ (r, t) :: l) p).
    { intros p. unfold at_low. rewrite !in_app_iff. simpl. split; [tauto|]. intros [[|[<-|]] Hp]; [tauto|easy|tauto]. }
    destruct (low12_walk l low cand) as [[r1|] [|]]; setoid_rewrite <- Hsame; exact IH.
Qed.

(** ** Resolution *)

Definition target_at (g : registry) (r : target_ref) : option probe_target_t :=
  match r with Active i => target_registry g !! i | Retired i => retired_targets g !! i end.

Lemma in_imap_pair {A B} (f : nat -> B) (Hf : forall i j, f i = f j -> i = j) (l : list A) i a :
  In (f i, a) (imap (fun i x => (f i, x)) l) <-> l !! i = Some a.
Proof.
  rewrite <- list_elem_of_In, list_elem_of_lookup. setoid_rewrite list_lookup_imap_Some. split.
  - intros (j & x & Hj & [= H1 ->]). apply Hf in H1. now subst.
  - intros H. exists i, a. auto.
Qed.

Lemma in_all_targets g r t : In (r, t) (all_targets g) <-> target_at g r = Some t.
Proof.
  unfold all_targets. rewrite in_app_iff.
  assert (Hno : forall (f h : nat -> target_ref) l i, (forall a b, f a <> h b) -> ~ In (f i, t) (imap (fun i x => (h i, x)) l)).
  { intros f h l i Hd Hin. apply list_elem_of_In, list_elem_of_lookup in Hin as [j Hj].
    apply list_lookup_imap_Some in Hj as (x & _ & [= H1 _]). now apply (Hd i j). }
  destruct r as [i|i]; simpl.
  - rewrite (in_imap_pair Active) by (intros ? ? [= ->]; reflexivity). split; [|auto].
    intros [|Hf]; [assumption|]. now apply (Hno Active Retired) in Hf.
  - rewrite (in_imap_pair Retired) by (intros ? ? [= ->]; reflexivity). split; [|auto].
    intros [Hf|]; [|assumption]. now apply (Hno Retired Active) in Hf.
Qed.

(** The address is inside an executable mapping of the target's module, at its offset. *)
Definition mapped_at (maps : list anubee_map_line) (addr : Z) (t : probe_target_t) : Prop :=
  exists ml, In ml maps /\ start ml <= addr < end_ ml /\ exec ml = true /\
    mod_path t = path ml /\ offset t = u64 (u64 (addr - start ml) + off ml).

Lemma maps_walk_spec maps addr l i :
  maps_walk maps addr l = Some i -> exists t, l !! i = Some t /\ mapped_at maps addr t.
Proof.
  induction maps as [|ml maps IH]; cbn [maps_walk]; [discriminate|].
  assert (Hrest : maps_walk maps addr l = Some i -> exists t, l !! i = Some t /\ mapped_at (ml :: maps) addr t).
  { intros H. destruct (IH H) as (t & Ht & ml' & Hin & Hm). exists t. split; [exact Ht|]. exists ml'. simpl. auto. }
  destruct ((addr <? start ml) || _) eqn:E1; [exact Hrest|].
  destruct (negb (exec ml) || _) eqn:E2; [exact Hrest|]. unfold match_target.
  destruct (list_find _ l) as [[j t]|] eqn:Ef; simpl; [|exact Hrest]. intros [= <-].
  apply list_find_Some in Ef as (Hj & [Ho Hp] & _). exists t. split; [exact Hj|]. exists ml. split; [simpl; auto|].
  apply orb_false_iff in E1 as [E1 E1'], E2 as [E2 _]. b2p. split; [lia|auto].
Qed.

Record reg_ok (g : registry) (m : gmap addr_key target_ref) : Prop := {
  rg_map : represents (pt_hash g) m;
  rg_cap : h_cap (pt_hash g) = PT_HASH_CAP
}.

Lemma pt_hash_get_spec t m addr : represents t m -> pt_hash_get t addr = m !! mk_addr addr.
Proof.
  intros Hr. pose proof (represents_get t m (mk_addr addr) Hr) as Hg. unfold pt_hash_get.
  destruct (probe_key t _ _) as [[i [e|]]|]; [destruct Hg as [-> _]; reflexivity|auto|auto].
Qed.

(** Remembering an address. *)
Lemma learn_spec g m addr r :
  reg_ok g m -> Z.of_nat (size (h_slots (pt_hash g))) < PT_HASH_CAP ->
  exists g', learn g addr r = Ret g' /\ reg_ok g' (<[mk_addr addr := r]> m) /\
    (m !! mk_addr addr = None -> size (h_slots (pt_hash g')) = S (size (h_slots (pt_hash g)))).
Proof.
  intros [Hr Hc] Hs. unfold learn, pt_hash_put. pose proof (rp_ok _ _ Hr) as Hok.
  assert (Hne : probe_key (pt_hash g) (key_is (mk_addr addr)) (mk_addr addr) <> None)
    by (apply probe_ends; [apply Hok|rewrite Hc; exact Hs]).
  pose proof (represents_get _ m (mk_addr addr) Hr) as Hg. pose proof (probe_key_spec (pt_hash g) (key_is (mk_addr addr)) (mk_addr addr) (ho_chain _ Hok)) as Hk.
  destruct (probe_key _ _ _) as [[i e]|] eqn:E; [|congruence]. rewrite ret_bind.
  assert (Hg' : forall a b, reg_ok (mk_reg a b (store (pt_hash g) i (bool_decide (e = None)) (mk_addr addr) r)) (<[mk_addr addr := r]> m))
    by (intros a b; constructor; [now apply represents_store|exact Hc]).
  assert (Hsz : m !! mk_addr addr = None -> size (h_slots (store (pt_hash g) i (bool_decide (e = None)) (mk_addr addr) r)) = S (size (h_slots (pt_hash g)))).
  { intros Hm. destruct e as [e|]; [destruct Hg; congruence|]. destruct Hk as (d & _ & _ & Hn & _). simpl. now apply map_size_insert_None. }
  destruct r; (eexists; split; [reflexivity|]; split; [apply Hg'|exact Hsz]).
Qed.


(** A page-aligned load base leaves the low bits of an offset alone. *)
Lemma aslr_keeps_low12 base o : base mod 4096 = 0 -> Z.land (u64 (base + o)) 0xFFF = Z.land o 0xFFF.
Proof.
  intros Hb. change 0xFFF with (Z.ones 12). rewrite !Z.land_ones by lia. unfold u64.
  change (2 ^ 12) with 4096. rewrite (Z.mod_mod_divide _ (2 ^ 64)) by (exists (2 ^ 52); reflexivity).
  rewrite Z.add_mod, Hb, Z.add_0_l by lia. apply Z.mod_mod. lia.
Qed.

(** ** The address cache *)

Definition ex_target (p : list byte) (o : Z) : probe_target_t := mk_target p (bytes_of "f") o 0.
Definition ex_line (a : Z) (p : list byte) : anubee_map_line := mk_line a (a + 0x10000) 0 true p.
Definition ex_reg : registry := mk_reg [ex_target (bytes_of "/a.so") 0x1010; ex_target (bytes_of "/b.so") 0x2010] [] (calloc_htab PT_HASH_CAP).

(** The cache is keyed by the address alone: after one process resolved an address
    in its /a.so, another that maps /b.so there is answered with /a.so's target. *)
Theorem cache_ignores_the_process :
  (r ← find_target_by_entry_addr ex_reg 0x7000002010 (Some [ex_line 0x7000001000 (bytes_of "/a.so")]);
   let '(x, _, g) := r in
   r ← find_target_by_entry_addr g 0x7000002010 (Some [ex_line 0x7000000000 (bytes_of "/b.so")]);
   let '(y, _, _) := r in
   r ← find_target_by_entry_addr ex_reg 0x7000002010 (Some [ex_line 0x7000000000 (bytes_of "/b.so")]);
   let '(z, _, _) := r in Ret (x, y, z)) = Ret (Some (Active 0), Some (Active 0), Some (Active 1)).
Proof. vm_compute. reflexivity. Qed.

(** Addresses resolved one after the other, in processes whose maps cannot be read. *)
Fixpoint find_all (g : registry) (l : list Z) : res registry :=
  match l with
  | [] => Ret g
  | a :: l => '(_, _, g) ← find_target_by_entry_addr g a None; find_all g l
  end.

(** One registered target, [n] addresses cached. *)
Record one_target (g : registry) (m : gmap addr_key target_ref) (low : Z) (n : nat) : Prop := {
  ot_ok : reg_ok g m;
  ot_reg : exists t, target_registry g = [t] /\ low12 t = low;
  ot_ret : retired_targets g = [];
  ot_size : size (h_slots (pt_hash g)) = n
}.

Lemma one_target_miss g m low n a :
  one_target g m low n -> m !! mk_addr a = None -> Z.land a 0xFFF = low ->
  find_target_by_entry_addr g a None = (g' ← learn g a (Active 0); Ret (Some (Active 0), true, g')).
Proof.
  intros [Hok (t & Et & El) Er _] Hm Ha. unfold find_target_by_entry_addr. rewrite (pt_hash_get_spec _ m), Hm by apply Hok.
  cbn [default maps_walk]. unfold all_targets. rewrite Et, Er. cbn. fold (low12 t). rewrite El, Ha, Z.eqb_refl. reflexivity.
Qed.

Lemma one_target_step g m low n a :
  one_target g m low n -> m !! mk_addr a = None -> Z.land a 0xFFF = low -> Z.of_nat n < PT_HASH_CAP ->
  exists g' x fb, find_target_by_entry_addr g a None = Ret (x, fb, g') /\ one_target g' (<[mk_addr a := Active 0]> m) low (S n).
Proof.
  intros Hot Hm Ha Hn. rewrite (one_target_miss g m low n a Hot Hm Ha). destruct Hot as [Hok (t & Et & El) Er Hsz].
  destruct (learn_spec g m a (Active 0) Hok) as (g' & E & Hok' & Hs); [rewrite Hsz; exact Hn|]. rewrite E, ret_bind.
  exists g', (Some (Active 0)), true. split; [reflexivity|]. unfold learn in E. apply bind_ret in E as (h & _ & [= <-]).
  constructor; [exact Hok'| |exact Er|rewrite Hs by exact Hm; now rewrite Hsz].
  exists (set_addr a t). simpl. rewrite Et. split; [reflexivity|exact El].
Qed.

Lemma find_all_fills l g m low n :
  one_target g m low n -> NoDup l -> Forall (fun a => Z.land a 0xFFF = low /\ m !! mk_addr a = None) l ->
  Z.of_nat (n + length l) <= PT_HASH_CAP ->
  exists g' m', find_all g l = Ret g' /\ one_target g' m' low (n + length l) /\
    forall b, b ∉ l -> m !! mk_addr b = None -> m' !! mk_addr b = None.
Proof.
  revert g m n. induction l as [|a l IH]; intros g m n Hot Hnd Hl Hn; cbn [find_all length].
  { exists g, m. rewrite Nat.add_0_r. auto. }
  apply NoDup_cons in Hnd as [Hna Hnd]. apply list.Forall_cons in Hl as [[Ha Hma] Hl]. simpl in Hn.
  destruct (one_target_step g m low n a Hot Hma Ha) as (g1 & x & fb & -> & Hot1); [lia|]. rewrite ret_bind. cbn.
  destruct (IH g1 (<[mk_addr a := Active 0]> m) (S n) Hot1 Hnd) as (g' & m' & E & Hot' & Hb).
  { rewrite list.Forall_forall in *. intros b Hin. destruct (Hl b Hin) as [H1 H2]. split; [exact H1|].
    rewrite lookup_insert_ne; [exact H2|]. intros [= ->]. contradiction. }
  { lia. }
  exists g', m'. split; [exact E|]. replace (n + S (length l))%nat with (S n + length l)%nat by lia. split; [exact Hot'|].
  intros b Hb1 Hb2. apply not_elem_of_cons in Hb1 as [Hne Hb1]. apply Hb; [exact Hb1|]. rewrite lookup_insert_ne; [exact Hb2|congruence].
Qed.

(** The table is sized for the number of targets, but holds an entry per address: one
    registered target met at 16384 addresses (one per process, say) fills it, and
    the next address is searched for ever, with the lock held. *)
Theorem address_cache_fills_and_spins t l a :
  NoDup (a :: l) -> Forall (fun x => Z.land x 0xFFF = low12 t) (a :: l) -> Z.of_nat (length l) = PT_HASH_CAP ->
  exists g, find_all (snd (target_registry_add registry0 t)) l = Ret g /\
    find_target_by_entry_addr g a None = NoFuel /\
    forall n, probe n (h_slots (pt_hash g)) (PT_HASH_CAP - 1) (key_is (mk_addr a)) (home (PT_HASH_CAP - 1) (mk_addr a)) = None.
Proof.
  intros Hnd Hl Hlen. apply NoDup_cons in Hnd as [Hna Hnd]. apply list.Forall_cons in Hl as [Ha Hl].
  destruct (find_all_fills l (snd (target_registry_add registry0 t)) ∅ (low12 t) 0) as (g & m & E & Hot & Hm).
  { constructor; simpl; [|eauto|reflexivity|reflexivity]. constructor; [|reflexivity]. apply represents_empty. exists 14. split; [lia|reflexivity]. }
  { exact Hnd. }
  { revert Hl. apply List.Forall_impl. intros x Hx. split; [exact Hx|apply lookup_empty]. }
  { simpl. lia. }
  exists g. split; [exact E|]. specialize (Hm a Hna (lookup_empty _)).
  destruct (ot_ok _ _ _ _ Hot) as [Hr Hc]. assert (Hfull : Z.of_nat (size (h_slots (pt_hash g))) = h_cap (pt_hash g)).
  { rewrite (ot_size _ _ _ _ Hot), Hc. simpl. exact Hlen. }
  pose proof (fun n => represents_full (pt_hash g) m (mk_addr a) n Hr Hfull Hm) as Hspin. split; [|now rewrite Hc in Hspin].
  rewrite (one_target_miss g m (low12 t) _ a Hot Hm Ha). unfold learn, pt_hash_put, probe_key. now rewrite Hspin.
Qed.

(** ** Witnesses *)

