(* ===== verification/Procmaps.v ===== *)
(** * Procmaps: per-process map snapshots (src/common/sym_procmaps.c)

    The symbolizer keeps the parsed /proc/<pid>/maps of up to 128 processes and
    rereads one, at most every 250 ms, when an address is not found.  The clock and
    the maps file at each reading are arguments, indexed by a counter; so are
    allocation outcomes. *)

From Stdlib Require Import ZArith Lia.
From Stdlib Require Import Sorted.
From stdpp Require Import base list option numbers.
From S2P Require Import Prelude Elf Modules.

Local Open Scope Z_scope.

Definition PM_MAX_PIDS := 128.
Definition REFRESH_MS := 250.

(** [pm_m] holds the first [n] entries, [pm_cap] the allocated number. *)
Record procmaps := mk_pm {
  pm_pid : Z; pm_m : list anubee_map_line; pm_cap : Z; last_read_ms : Z; last_used_ms : Z; gone : bool
}.

(** Opening the maps file: refused, with or without ENOENT, or its parseable lines. *)
Inductive maps_read := MapsErr (enoent : bool) | MapsLines (l : list anubee_map_line).

Record pm_state := mk_pms { g_pm : list procmaps; tick : nat }.

Section Procmaps.
Context (alloc_ok : Z -> bool) (clk : nat -> Z) (proc_maps : nat -> Z -> maps_read).

Definition sizeof_map_line := 288.

(** The reading loop: stops at the first line that finds no room. *)
Fixpoint read_lines (l : list anubee_map_line) (m : list anubee_map_line) (cap : Z) : list anubee_map_line * Z :=
  match l with
  | [] => (m, cap)
  | ml :: l =>
      if zlen m =? cap then
        let nc := if cap =? 0 then 256 else cap * 2 in
        if alloc_ok (nc * sizeof_map_line) then read_lines l (m ++ [ml]) nc else (m, cap)
      else read_lines l (m ++ [ml]) cap
  end.

Definition read_proc_maps (t : nat) (pm : procmaps) : procmaps :=
  let now := clk t in
  match proc_maps t (pm_pid pm) with
  | MapsErr enoent => mk_pm (pm_pid pm) [] (pm_cap pm) now (last_used_ms pm) enoent
  | MapsLines l =>
      let '(m, cap) := read_lines l [] (pm_cap pm) in
      mk_pm (pm_pid pm) m cap now (last_used_ms pm) false
  end.

(** The slot least recently used, the first of equals. *)
Fixpoint lru_slot (l : list procmaps) (i slot : nat) (used : Z) : nat :=
  match l with
  | [] => slot
  | p :: l => if last_used_ms p <? used then lru_slot l (S i) i (last_used_ms p) else lru_slot l (S i) slot used
  end.

Definition touch (now : Z) (p : procmaps) : procmaps :=
  mk_pm (pm_pid p) (pm_m p) (pm_cap p) (last_read_ms p) now (gone p).

(** The slot of a process, [None] when it could not be allocated; the process whose
    slot was taken, which [pm_evict_pid] is called with; the state after. *)
Definition pm_get (st : pm_state) (pid : Z) : option nat * option Z * pm_state :=
  let now := clk (tick st) in
  let st := mk_pms (g_pm st) (S (tick st)) in
  match list_find (fun p => pm_pid p = pid) (g_pm st) with
  | Some (i, _) => (Some i, None, mk_pms (alter (touch now) i (g_pm st)) (tick st))
  | None =>
      if zlen (g_pm st) <? PM_MAX_PIDS then
        if negb (alloc_ok ((zlen (g_pm st) + 1) * 56)) then (None, None, st) else
        let pm := read_proc_maps (tick st) (mk_pm pid [] 0 0 now false) in
        (Some (length (g_pm st)), None, mk_pms (g_pm st ++ [pm]) (S (tick st)))
      else
        match g_pm st with
        | [] => (None, None, st)
        | p0 :: l =>
            let slot := lru_slot l 1 0 (last_used_ms p0) in
            let old := default p0 (g_pm st !! slot) in
            let pm := read_proc_maps (tick st) (mk_pm pid [] (pm_cap old) (last_read_ms old) now (gone old)) in
            (Some slot, Some (pm_pid old), mk_pms (<[slot := pm]> (g_pm st)) (S (tick st)))
        end
  end.

Fixpoint map_bsearch (fuel : nat) (m : list anubee_map_line) (addr : Z) (lo hi : nat) : res (option nat) :=
  match fuel with
  | O => NoFuel
  | S fuel =>
      if negb (Nat.ltb lo hi) then Ret None else
      let mid := ((lo + hi) / 2)%nat in
      match m !! mid with
      | None => Oob
      | Some l =>
          if addr <? start l then map_bsearch fuel m addr lo mid
          else if addr >=? end_ l then map_bsearch fuel m addr (S mid) hi
          else Ret (Some mid)
      end
  end.

Definition find_mapping (pm : procmaps) (addr : Z) : res (option nat) :=
  map_bsearch (S (length (pm_m pm))) (pm_m pm) addr 0 (length (pm_m pm)).

(** On a miss, the maps are read again unless they were within the last 250 ms. *)
Definition find_mapping_refresh (t : nat) (pm : procmaps) (addr : Z) : res (option nat * procmaps * nat) :=
  hit ← find_mapping pm addr;
  match hit with
  | Some i => Ret (Some i, pm, t)
  | None =>
      if clk t - last_read_ms pm >? REFRESH_MS then
        let pm := read_proc_maps (S t) pm in
        hit ← find_mapping pm addr;
        Ret (hit, pm, S (S t))
      else Ret (None, pm, S t)
  end.

Definition pm_reset_pid (l : list procmaps) (pid : Z) : list procmaps :=
  map (fun p => if pm_pid p =? pid
                then mk_pm (pm_pid p) [] (pm_cap p) (last_read_ms p) (last_used_ms p) false else p) l.

(** Load base, file offset and end of the module's first mapping. *)
Definition module_base (pm : procmaps) (hit : nat) : res (Z * Z * Z) :=
  i ← anubee_module_base_idx (pm_m pm) hit;
  match pm_m pm !! i with
  | Some l => Ret (start l, off l, end_ l)
  | None => Oob
  end.
End Procmaps.

(** ** Lookup *)

(** Address-sorted and disjoint, as the kernel prints them. *)
Definition before (a b : anubee_map_line) : Prop := start a <= end_ a /\ end_ a <= start b.
Definition maps_sorted (m : list anubee_map_line) : Prop := StronglySorted before m /\ Forall (fun l => start l <= end_ l) m.

Lemma sorted_lookup m i j a b :
  StronglySorted before m -> m !! i = Some a -> m !! j = Some b -> (i < j)%nat -> before a b.
Proof.
  intros Hs. revert i j. induction Hs as [|x l Hs IH Hx]; intros i j; [now rewrite lookup_nil|].
  destruct i, j; cbn; intros Ha Hb Hij; try lia; [|apply (IH i j); auto; lia].
  injection Ha as <-. rewrite list.Forall_forall in Hx. apply Hx. eapply list_elem_of_lookup_2; eauto.
Qed.

Definition covers (addr : Z) (l : anubee_map_line) : Prop := start l <= addr < end_ l.

(** The binary search finds the mapping that covers an address exactly when one does. *)
Lemma map_bsearch_spec fuel m addr lo hi :
  maps_sorted m -> (lo <= hi <= length m)%nat -> (hi - lo < fuel)%nat ->
  (forall i l, m !! i = Some l -> (i < lo \/ hi <= i)%nat -> ~ covers addr l) ->
  exists r, map_bsearch fuel m addr lo hi = Ret r /\
    match r with
    | Some i => exists l, m !! i = Some l /\ covers addr l
    | None => Forall (fun l => ~ covers addr l) m
    end.
Proof.
  intros [Hs Hw]. revert lo hi. induction fuel as [|fuel IH]; intros lo hi Hb Hf Hout; [lia|]. cbn [map_bsearch].
  destruct (Nat.ltb_spec lo hi) as [Hlt|Hge]; cbn [negb].
  2:{ exists None. split; [reflexivity|]. apply list.Forall_forall. intros l Hl. apply list_elem_of_lookup in Hl as [i Hi].
      apply (Hout i l Hi). lia. }
  set (mid := ((lo + hi) / 2)%nat). assert (Hm : (lo <= mid < hi)%nat).
  { pose proof (Nat.div_mod_eq (lo + hi) 2). pose proof (Nat.mod_upper_bound (lo + hi) 2). subst mid. lia. }
  clearbody mid. destruct (lookup_lt_is_Some_2 m mid) as [x Ex]; [lia|]. rewrite Ex.
  assert (Hx : start x <= end_ x) by (rewrite list.Forall_forall in Hw; apply Hw; eapply list_elem_of_lookup_2; eauto).
  destruct (addr <? start x) eqn:E1; b2p.
  - apply IH; try lia. intros i l Hi Hor Hc. destruct (decide (i < lo \/ hi <= i)%nat); [now apply (Hout i l)|].
    destruct (decide (i = mid)) as [->|]; [assert (l = x) by congruence; subst; unfold covers in Hc; lia|].
    pose proof (sorted_lookup m mid i x l Hs Ex Hi ltac:(lia)) as [? ?]. unfold covers in Hc. lia.
  - rewrite Z.geb_leb. destruct (end_ x <=? addr) eqn:E2; b2p.
    + apply IH; try lia. intros i l Hi Hor Hc. destruct (decide (i < lo \/ hi <= i)%nat); [now apply (Hout i l)|].
      destruct (decide (i = mid)) as [->|]; [assert (l = x) by congruence; subst; unfold covers in Hc; lia|].
      pose proof (sorted_lookup m i mid l x Hs Hi Ex ltac:(lia)) as [? ?]. unfold covers in Hc. lia.
    + exists (Some mid). split; [reflexivity|]. exists x. split; [exact Ex|]. unfold covers. lia.
Qed.

Lemma find_mapping_spec pm addr :
  maps_sorted (pm_m pm) ->
  exists r, find_mapping pm addr = Ret r /\
    match r with
    | Some i => exists l, pm_m pm !! i = Some l /\ covers addr l
    | None => Forall (fun l => ~ covers addr l) (pm_m pm)
    end.
Proof.
  intros Hs. apply map_bsearch_spec; [exact Hs|lia|lia|]. intros i l Hi Hor. apply lookup_lt_Some in Hi. lia.
Qed.

(** The search is total and what it returns covers the address, sorted or not. *)
Lemma map_bsearch_total fuel m addr lo hi :
  (lo <= hi <= length m)%nat -> (hi - lo < fuel)%nat ->
  exists r, map_bsearch fuel m addr lo hi = Ret r /\ forall i, r = Some i -> exists l, m !! i = Some l /\ covers addr l.
Proof.
  revert lo hi. induction fuel as [|fuel IH]; intros lo hi Hb Hf; [lia|]. cbn [map_bsearch].
  destruct (Nat.ltb_spec lo hi) as [Hlt|Hge]; cbn [negb]; [|exists None; split; [reflexivity|discriminate]].
  set (mid := ((lo + hi) / 2)%nat). assert (Hm : (lo <= mid < hi)%nat).
  { pose proof (Nat.div_mod_eq (lo + hi) 2). pose proof (Nat.mod_upper_bound (lo + hi) 2). subst mid. lia. }
  clearbody mid. destruct (lookup_lt_is_Some_2 m mid) as [x Ex]; [lia|]. rewrite Ex.
  destruct (addr <? start x) eqn:E1; b2p; [apply IH; lia|]. rewrite Z.geb_leb.
  destruct (end_ x <=? addr) eqn:E2; b2p; [apply IH; lia|].
  exists (Some mid). split; [reflexivity|]. intros i [= <-]. exists x. split; [exact Ex|]. unfold covers. lia.
Qed.

Lemma find_mapping_total pm addr :
  exists r, find_mapping pm addr = Ret r /\ forall i, r = Some i -> exists l, pm_m pm !! i = Some l /\ covers addr l.
Proof. apply map_bsearch_total; lia. Qed.

Lemma find_mapping_refresh_total alloc_ok clk pmaps t pm addr :
  exists r pm' t', find_mapping_refresh alloc_ok clk pmaps t pm addr = Ret (r, pm', t') /\ pm_pid pm' = pm_pid pm /\
    forall i, r = Some i -> exists l, pm_m pm' !! i = Some l /\ covers addr l.
Proof.
  unfold find_mapping_refresh. destruct (find_mapping_total pm addr) as (r & -> & Hr). rewrite ret_bind.
  destruct r as [i|]; [exists (Some i), pm, t; auto|].
  destruct (_ >? _); [|exists None, pm, (S t); auto].
  set (pm1 := read_proc_maps _ _ _ _ _). destruct (find_mapping_total pm1 addr) as (r & -> & Hr1). rewrite ret_bind.
  exists r, pm1, (S (S t)). split; [reflexivity|]. split; [|exact Hr1]. unfold pm1, read_proc_maps.
  destruct (pmaps _ _); [reflexivity|]. now destruct (read_lines _ _ _ _).
Qed.

Lemma module_base_total pm hit l :
  pm_m pm !! hit = Some l -> exists b o e, module_base pm hit = Ret (b, o, e).
Proof.
  intros Hh. unfold module_base, anubee_module_base_idx. apply lookup_lt_Some in Hh.
  destruct (base_loop_spec (S hit) (pm_m pm) hit ltac:(lia) Hh) as (r & -> & _ & _ & Hl). rewrite ret_bind.
  destruct (lookup_lt_is_Some_2 _ _ Hl) as [x ->]. eauto.
Qed.

(** ** The slots *)

(** One slot per process, at most 128. *)
Definition pms_ok (l : list procmaps) : Prop := NoDup (map pm_pid l) /\ zlen l <= PM_MAX_PIDS.

Lemma lru_slot_range l i slot used : (slot < i)%nat -> (lru_slot l i slot used < i + length l)%nat.
Proof.
  revert i slot used. induction l as [|p l IH]; intros i slot used H; simpl; [lia|].
  destruct (_ <? _); [specialize (IH (S i) i (last_used_ms p))|specialize (IH (S i) slot used)]; lia.
Qed.

Lemma read_proc_maps_pid alloc_ok clk pmaps t pm : pm_pid (read_proc_maps alloc_ok clk pmaps t pm) = pm_pid pm.
Proof. unfold read_proc_maps. destruct (pmaps _ _); [reflexivity|]. now destruct (read_lines _ _ _ _). Qed.

Lemma map_pid_insert l i pm : map pm_pid (<[i := pm]> l) = <[i := pm_pid pm]> (map pm_pid l).
Proof. apply (list_fmap_insert pm_pid). Qed.

Lemma map_pid_touch now l i : map pm_pid (alter (touch now) i l) = map pm_pid l.
Proof. revert i. induction l as [|p l IH]; intros [|i]; simpl; [reflexivity..|]. f_equal. apply IH. Qed.

Lemma NoDup_insert_fresh {A} (l : list A) i x : NoDup l -> x ∉ l -> NoDup (<[i := x]> l).
Proof.
  rewrite !NoDup_alt. intros Hnd Hx a b y Ha Hb. apply list_lookup_insert_Some in Ha, Hb.
  destruct Ha as [(-> & -> & _)|[Hna Ha]], Hb as [(-> & Hy & _)|[Hnb Hb]]; try subst; eauto;
    exfalso; apply Hx; eapply list_elem_of_lookup_2; eauto.
Qed.

(** Every process keeps one slot, and the one returned is its own. *)
Lemma pm_get_spec alloc_ok clk pmaps st pid :
  pms_ok (g_pm st) ->
  let '(r, _, st') := pm_get alloc_ok clk pmaps st pid in
  pms_ok (g_pm st') /\ forall i, r = Some i -> exists pm, g_pm st' !! i = Some pm /\ pm_pid pm = pid.
Proof.
  intros [Hnd Hlen]. unfold pm_get. cbn [g_pm tick].
  destruct (list_find _ (g_pm st)) as [[i p]|] eqn:Ef.
  { apply list_find_Some in Ef as (Hi & Hp & _). cbn. split.
    - split; [|unfold zlen; now rewrite length_alter]. now rewrite map_pid_touch.
    - intros j [= <-]. rewrite list_lookup_alter_eq, Hi. simpl. eauto. }
  apply list_find_None in Ef. assert (Hnew : pid ∉ map pm_pid (g_pm st)).
  { intros Hin. apply list_elem_of_fmap in Hin as (p & Hp & Hin). rewrite list.Forall_forall in Ef. now apply (Ef p). }
  destruct (zlen (g_pm st) <? PM_MAX_PIDS) eqn:El; b2p.
  - destruct (negb _); [split; [split; [exact Hnd|exact Hlen]|discriminate]|]. cbn. split.
    + split; [|rewrite zlen_app; unfold zlen at 2; simpl; lia]. rewrite map_app. simpl. rewrite read_proc_maps_pid.
      apply list.NoDup_app. split; [exact Hnd|]. split; [intros x Hx Hx1; apply list_elem_of_singleton in Hx1 as ->; contradiction|apply NoDup_singleton].
    + intros i [= <-]. rewrite lookup_app_r, Nat.sub_diag by lia. eexists. split; [reflexivity|]. apply read_proc_maps_pid.
  - destruct (g_pm st) as [|p0 l] eqn:Eg; [split; [split; [exact Hnd|exact Hlen]|discriminate]|].
    set (slot := lru_slot l 1 0 _). assert (Hslot : (slot < length (p0 :: l))%nat) by (simpl; apply lru_slot_range; lia).
    cbn [g_pm]. clearbody slot. split.
    + split; [|unfold zlen; now rewrite length_insert]. rewrite map_pid_insert, read_proc_maps_pid. cbn [pm_pid].
      apply NoDup_insert_fresh; assumption.
    + intros i [= <-]. rewrite list_lookup_insert_eq by exact Hslot. eexists. split; [reflexivity|]. apply read_proc_maps_pid.
Qed.

(** A reset empties the snapshot but leaves its reading time: until 250 ms have
    passed since the last reading nothing is reread, and every address of the
    process misses. *)
Theorem reset_is_throttled alloc_ok clk pmaps t l pid p addr :
  In p (pm_reset_pid l pid) -> pm_pid p = pid -> clk t - last_read_ms p <= REFRESH_MS ->
  find_mapping_refresh alloc_ok clk pmaps t p addr = Ret (None, p, S t).
Proof.
  intros Hin Hp Ht. unfold pm_reset_pid in Hin. apply in_map_iff in Hin as (q & Hq & _).
  destruct (Z.eqb_spec (pm_pid q) pid) as [E|E]; [|subst q; contradiction].
  assert (Hm : pm_m p = []) by (subst p; reflexivity).
  assert (Hf : find_mapping p addr = Ret None) by (unfold find_mapping; now rewrite Hm).
  unfold find_mapping_refresh. rewrite Hf, ret_bind. destruct (_ >? _) eqn:Eg; b2p; [lia|reflexivity].
Qed.
