(* ===== verification/Symbolize.v ===== *)
(** * Symbolize: addresses to names, and the unwind of a stack snapshot

    The parts of the symbolizer put together (src/common/symbolize.c, with
    [dynsym_get] and [cfi_get] of sym_elf.c): process maps (Procmaps), module index
    and address cache (Caches), symbol tables (SymElf), CFI sections (CfiParse) and
    steps (CfiRun).  The JIT, vDSO and APK name sources are parameters with a state
    of their own (SymJit and SymApk model two of them); so are files, clock, allocation, [qsort] and liblzma.  All
    operations run under one lock, so the state is passed from call to call. *)

From Stdlib Require Import ZArith Lia.
From stdpp Require Import base list option numbers gmap.
From S2P Require Import Prelude Elf CfiParse CfiRun Modules Emit SymElf Probe Caches Procmaps.

Local Open Scope Z_scope.

Definition MAX_PATH_LEN := 256.
Definition CFI_MAX_MODULE_BYTES := 256 * 2 ^ 20.

(** An open module file: its size when [fstat] succeeds, and [pread]. *)
Record modfile := mk_file { f_size : option Z; f_pread : Z -> Z -> list byte }.

(** An entry of [g_ds] and of [g_cfi]; [None] is [ok = 0]. *)
Record ds_ent := mk_ds { d_path : list byte; d_off : Z; d_sym : dynsym }.
Record cfimod := mk_cfimod { m_path : list byte; m_off : Z; m_base : Z; m_sec : option cfi_section }.

Record sym_state (H : Type) := mk_st {
  s_pm : pm_state; s_sc : htab sc_key (list byte);
  s_ds : list ds_ent; s_ds_idx : htab elf_key Z;
  s_cfi : list cfimod; s_cfi_idx : htab elf_key Z;
  s_hooks : H
}.
Arguments mk_st {H}. Arguments s_pm {H}. Arguments s_sc {H}. Arguments s_ds {H}. Arguments s_ds_idx {H}.
Arguments s_cfi {H}. Arguments s_cfi_idx {H}. Arguments s_hooks {H}.

Definition set_pm {H} (st : sym_state H) (p : pm_state) := mk_st p (s_sc st) (s_ds st) (s_ds_idx st) (s_cfi st) (s_cfi_idx st) (s_hooks st).
Definition set_sc {H} (st : sym_state H) t := mk_st (s_pm st) t (s_ds st) (s_ds_idx st) (s_cfi st) (s_cfi_idx st) (s_hooks st).
Definition set_ds {H} (st : sym_state H) l t := mk_st (s_pm st) (s_sc st) l t (s_cfi st) (s_cfi_idx st) (s_hooks st).
Definition set_cfi {H} (st : sym_state H) l t := mk_st (s_pm st) (s_sc st) (s_ds st) (s_ds_idx st) l t (s_hooks st).
Definition set_hooks {H} (st : sym_state H) (h : H) := mk_st (s_pm st) (s_sc st) (s_ds st) (s_ds_idx st) (s_cfi st) (s_cfi_idx st) h.

Definition hex0x (v : Z) : res (list byte) := t ← hex_text v; Ret (bytes_of "0x" ++ t).

Definition display_name (path : list byte) (n : Z) : list byte := strip_deleted (snprintf_s n (basename_of path)).

Section Symbolizer.
Context (alloc_ok : Z -> bool) (clk : nat -> Z) (proc_maps : nat -> Z -> maps_read).
Context (open_module : list byte -> Z -> Z -> Z -> option modfile).
Context (lzma_decode : list byte -> Z -> lzma_ret) (qsort : list sym -> list sym).
Context {H : Type} (jit_reset vdso_reset : Z -> H -> H).
Context (jit_resolve : Z -> Z -> H -> option (list byte) * H).
Context (vdso_resolve : Z -> Z -> Z -> Z -> H -> option (list byte) * H).
Context (apk_so_name : list byte -> Z -> option (list byte)).

Notation state := (sym_state H).

(** ** Module caches *)

(** The entry of [g_ds] for a module, parsed on first sight. *)
Definition dynsym_get (st : state) (path : list byte) (elf_off pid vstart vend : Z) : res (option nat * state) :=
  let miss :=
    if negb (alloc_ok ((zlen (s_ds st) + 1) * 320)) then Ret (None, st) else
    let p := snprintf_s MAX_PATH_LEN path in
    let file := open_module p pid vstart vend in
    ds ← parse_symbols alloc_ok (default (fun _ _ => []) (f_pread <$> file)) lzma_decode qsort p
           (bool_decide (is_Some file)) elf_off dynsym0;
    idx ← elfidx_put alloc_ok (s_ds_idx st) path elf_off (zlen (s_ds st));
    Ret (Some (length (s_ds st)), set_ds st (s_ds st ++ [mk_ds p elf_off ds]) idx) in
  match elfidx_get (s_ds_idx st) path elf_off with
  | None => miss
  | Some hit =>
      match s_ds st !! Z.to_nat hit with
      | None => Oob
      | Some e => if bool_decide (d_path e = path) then Ret (Some (Z.to_nat hit), st) else miss
      end
  end.

(** The CFI of a module image: of the image itself, or of its mini-debug-info. *)
Definition load_cfi (buf : list byte) : res (option cfi_section) :=
  match cfi_load_elf alloc_ok buf with
  | Ret s => Ret (Some s)
  | Oob => Oob
  | NoFuel => NoFuel
  | Fail =>
      match find_gnu_debugdata buf with
      | Oob => Oob
      | NoFuel => NoFuel
      | Fail => Ret None
      | Ret (off, size) =>
          match decompress_xz alloc_ok lzma_decode (slice buf off size) with
          | None => Ret None
          | Some inner =>
              match cfi_load_elf alloc_ok inner with
              | Ret s => Ret (Some s)
              | Fail => Ret None
              | Oob => Oob
              | NoFuel => NoFuel
              end
          end
      end
  end.

(** The file from [elf_off] to its end, when it can be read and is not too large. *)
Definition read_module (path : list byte) (elf_off pid vstart vend : Z) : res (option (list byte)) :=
  if (byte_at path 0 =? 0) || (byte_at path 0 =? 0x5b) then Ret None else
  match open_module path pid vstart vend with
  | None => Ret None
  | Some f =>
      match f_size f with
      | None => Ret None
      | Some size =>
          if u64 size <=? elf_off then Ret None else
          let len := u64 size - elf_off in
          if len >? CFI_MAX_MODULE_BYTES then Ret None else
          read_block alloc_ok (f_pread f) len elf_off
      end
  end.

Definition cfi_get (st : state) (path : list byte) (elf_off load_base pid vstart vend : Z)
  : res (option cfi_section * state) :=
  let miss :=
    if negb (alloc_ok ((zlen (s_cfi st) + 1) * 336)) then Ret (None, st) else
    idx ← elfidx_put alloc_ok (s_cfi_idx st) path elf_off (zlen (s_cfi st));
    buf ← read_module path elf_off pid vstart vend;
    sec ← match buf with None => Ret None | Some buf => load_cfi buf end;
    Ret (sec, set_cfi st (s_cfi st ++ [mk_cfimod (snprintf_s MAX_PATH_LEN path) elf_off load_base sec]) idx) in
  match elfidx_get (s_cfi_idx st) path elf_off with
  | None => miss
  | Some hit =>
      match s_cfi st !! Z.to_nat hit with
      | None => Oob
      | Some m => if bool_decide (m_path m = path) then Ret (m_sec m, st) else miss
      end
  end.

(** ** Names *)

(** Called by [pm_get] when a process loses its slot. *)
Definition pm_evict_pid (st : state) (pid : Z) : state :=
  set_sc (set_hooks st (vdso_reset pid (jit_reset pid (s_hooks st)))) (sc_clear (s_sc st)).

Definition pm_slot (st : state) (pid : Z) : option nat * state :=
  let '(r, ev, p) := pm_get alloc_ok clk proc_maps (s_pm st) pid in
  let st := match ev with Some old => pm_evict_pid st old | None => st end in
  (r, set_pm st p).

(** [find_mapping_refresh] on a slot of [g_pm]: the hit and the slot after it. *)
Definition slot_find (st : state) (i : nat) (addr : Z) : res (option nat * procmaps * state) :=
  match g_pm (s_pm st) !! i with
  | None => Oob
  | Some pm =>
      '(hit, pm, t) ← find_mapping_refresh alloc_ok clk proc_maps (tick (s_pm st)) pm addr;
      Ret (hit, pm, set_pm st (mk_pms (<[i := pm]> (g_pm (s_pm st))) t))
  end.

Definition plus_off (base : list byte) (o : Z) : res (list byte) := h ← hex_text o; Ret (base ++ bytes_of "+0x" ++ h).

(** A named mapping that is no file: the vDSO, the JIT's regions, others. *)
Definition resolve_special (st : state) (pid addr : Z) (hit : anubee_map_line) (base : list byte) (load_base base_end : Z)
  : res (list byte * bool * state) :=
  let vaddr := u64 (addr - load_base) in
  if bool_decide (base = bytes_of "[vdso]") then
    let '(r, h) := vdso_resolve pid addr load_base base_end (s_hooks st) in
    match r with
    | Some s => Ret (s, true, set_hooks st h)
    | None => s ← plus_off base vaddr; Ret (s, true, set_hooks st h)
    end
  else if exec hit then
    let '(r, h) := jit_resolve pid addr (s_hooks st) in
    match r with
    | Some s => Ret (s, true, set_hooks st h)
    | None => s ← plus_off base vaddr; Ret (s, false, set_hooks st h)
    end
  else s ← plus_off base vaddr; Ret (s, true, st).

(** The C string at [name_off] of the arena. *)
Definition sym_name (ds : dynsym) (s : sym) : res (list byte) :=
  match cname (drop (Z.to_nat (name_off s)) (arena ds)) with Some n => Ret n | None => Oob end.

(** A file mapping: the symbol that covers the address, or its offset. *)
Definition resolve_file (st : state) (pid addr : Z) (hit : anubee_map_line) (base : list byte) (load_base elf_off base_end : Z)
  : res (list byte * bool * state) :=
  let vaddr := u64 (addr - load_base) in
  let base := match apk_so_name (path hit) elf_off with
              | Some inner => snprintf_s MAX_PATH_LEN (take 125 base ++ bytes_of " -> " ++ take 125 inner)
              | None => base
              end in
  '(i, st) ← dynsym_get st (path hit) elf_off pid load_base base_end;
  found ← match i with
          | None => Ret None
          | Some i => match s_ds st !! i with
                      | None => Oob
                      | Some e =>
                          r ← sym_lookup (d_sym e) vaddr;
                          match r with None => Ret None | Some (s, d) => n ← sym_name (d_sym e) s; Ret (Some (n, d)) end
                      end
          end;
  match found with
  | Some (n, d) =>
      if d =? 0 then Ret (base ++ bytes_of "!" ++ n, true, st)
      else s ← plus_off (base ++ bytes_of "!" ++ n) d; Ret (s, true, st)
  | None => s ← plus_off base vaddr; Ret (s, true, st)
  end.

Definition resolve_anon (st : state) (pid addr : Z) (hit : anubee_map_line) : res (list byte * bool * state) :=
  s ← plus_off (bytes_of "[anon]") (u64 (addr - start hit));
  if exec hit then
    let '(r, h) := jit_resolve pid addr (s_hooks st) in
    match r with
    | Some n => Ret (n, true, set_hooks st h)
    | None => Ret (s, false, set_hooks st h)
    end
  else Ret (s, true, st).

(** The text before it is cut to the caller's buffer, and whether it may be cached. *)
Definition resolve_text (st : state) (pid addr : Z) : res (list byte * bool * state) :=
  let '(slot, st) := pm_slot st pid in
  match slot with
  | None => s ← hex0x addr; Ret (s, false, st)
  | Some i =>
      '(hit, pm, st) ← slot_find st i addr;
      match hit with
      | None =>
          s ← hex0x addr;
          if gone pm then d ← dec_text pid; Ret (s ++ bytes_of " [pid " ++ d ++ bytes_of " gone]", false, st)
          else Ret (s ++ bytes_of " [unmapped]", false, st)
      | Some k =>
          match pm_m pm !! k with
          | None => Oob
          | Some ml =>
              '(load_base, elf_off, base_end) ← module_base pm k;
              match path ml with
              | [] => resolve_anon st pid addr ml
              | c :: _ =>
                  let base := display_name (path ml) MAX_PATH_LEN in
                  if bool_decide (c = x5b) then resolve_special st pid addr ml base load_base base_end
                  else resolve_file st pid addr ml base load_base elf_off base_end
              end
          end
      end
  end.

Definition sym_resolve_uncached (st : state) (pid addr outsz : Z) : res (list byte * bool * state) :=
  '(s, c, st) ← resolve_text st pid addr; Ret (snprintf_s outsz s, c, st).

Definition sym_resolve (st : state) (pid addr outsz : Z) : res (list byte * state) :=
  match sc_get (s_sc st) pid addr outsz with
  | Some s => Ret (s, st)
  | None =>
      '(s, cacheable, st) ← sym_resolve_uncached st pid addr outsz;
      if cacheable : bool then t ← sc_put alloc_ok (s_sc st) pid addr s; Ret (s, set_sc st t) else Ret (s, st)
  end.

Definition sym_flush_pid (st : state) (pid : Z) : state :=
  let st := set_pm st (mk_pms (pm_reset_pid (g_pm (s_pm st)) pid) (tick (s_pm st))) in
  pm_evict_pid st pid.

(** ** Unwinding a snapshot *)

Record anubee_stack_snapshot := mk_snap { sn_regs : list Z; sn_pc : Z; sn_sp : Z; sn_stack : list byte }.

Definition unwind_regs_from_snapshot (s : anubee_stack_snapshot) : frame := mk_frame (sn_regs s) (sn_sp s) (sn_pc s).

(** What a frame's diagnostic says; [DUnset] is the caller's zeroed record. *)
Inductive frame_diag :=
| DUnset
| DPcZero
| DNoMapping
| DCfiGetNull (module_pc load_base elf_off : Z) (path : list byte)
| DStep (module_pc load_base elf_off : Z) (path : list byte) (d : cfi_step_diag).

(** The mapping of a pc: one throttled refresh, then one forced reread per unwind. *)
Definition unwind_find (st : state) (i : nat) (pc : Z) (forced : bool) : res (option nat * procmaps * bool * state) :=
  '(hit, pm, st) ← slot_find st i pc;
  match hit with
  | Some k => Ret (Some k, pm, forced, st)
  | None =>
      if forced then Ret (None, pm, forced, st) else
      let pm := read_proc_maps alloc_ok clk proc_maps (tick (s_pm st)) pm in
      hit ← find_mapping pm pc;
      Ret (hit, pm, true, set_pm st (mk_pms (<[i := pm]> (g_pm (s_pm st))) (S (tick (s_pm st)))))
  end.

(** One turn after the frame was recorded: its diagnostic, and the caller's frame
    when the walk goes on. *)
Definition unwind_one (st : state) (snap : anubee_stack_snapshot) (pid : Z) (slot : option nat) (fr : frame) (forced : bool)
  : res (frame_diag * option frame * bool * state) :=
  if pc fr =? 0 then Ret (DPcZero, None, forced, st) else
  match slot with
  | None => Ret (DNoMapping, None, forced, st)
  | Some i =>
      '(hit, pm, forced, st) ← unwind_find st i (pc fr) forced;
      match hit with
      | None => Ret (DNoMapping, None, forced, st)
      | Some k =>
          match pm_m pm !! k with
          | None => Oob
          | Some ml =>
              '(load_base, elf_off, _) ← module_base pm k;
              '(sec, st) ← cfi_get st (path ml) elf_off load_base pid (start ml) (end_ ml);
              let mpc := u64 (pc fr - load_base) in
              match sec with
              | None => Ret (DCfiGetNull mpc load_base elf_off (path ml), None, forced, st)
              | Some sec =>
                  '(go, fr', d) ← cfi_step sec mpc fr (sn_stack snap) (sn_sp snap);
                  Ret (DStep mpc load_base elf_off (path ml) d, if go : bool then Some fr' else None, forced, st)
              end
          end
      end
  end.

(** [n] turns left of the loop, [room] entries left in the arrays: the pcs, sps and
    diagnostics recorded. *)
Fixpoint unwind_loop (n room : nat) (st : state) (snap : anubee_stack_snapshot) (pid : Z) (slot : option nat) (fr : frame) (forced : bool)
  : res (list (Z * Z * frame_diag) * state) :=
  match n, room with
  | O, _ => Ret ([], st)
  | S _, O => Oob
  | S n, S room =>
      match room with
      | O => Ret ([(pc fr, sp fr, DUnset)], st)
      | _ =>
          '(d, next, forced, st) ← unwind_one st snap pid slot fr forced;
          match next with
          | None => Ret ([(pc fr, sp fr, d)], st)
          | Some fr' =>
              '(l, st) ← unwind_loop n room st snap pid slot fr' forced;
              Ret ((pc fr, sp fr, d) :: l, st)
          end
      end
  end.

Definition cfi_unwind_snapshot (st : state) (pid : Z) (snap : anubee_stack_snapshot) (max : nat)
  : res (list (Z * Z * frame_diag) * state) :=
  let '(slot, st) := pm_slot st pid in
  unwind_loop (Nat.min max 256) max st snap pid slot (unwind_regs_from_snapshot snap) false.
End Symbolizer.

(** ** The invariant *)

Lemma elfidx_get_has t path off v :
  idx_ok t -> elfidx_get t path off = Some v -> has (h_slots t) (elf_key_of path off) v.
Proof.
  intros Hok. unfold elfidx_get. destruct Hok as [[-> _]|(Hc & Hok & _)]; [discriminate|].
  rewrite (proj2 (Z.eqb_neq _ _)) by lia. pose proof (probe_finds t (elf_key_of path off) (ho_chain _ Hok)) as Hp.
  destruct (probe_key t _ _) as [[i [[k w]|]]|]; [|discriminate|discriminate].
  intros [= <-]. destruct Hp as [Hi Hk]. cbn in Hk. subst k. now exists i.
Qed.

Section Unwind.
Context (alloc_ok : Z -> bool) (clk : nat -> Z) (proc_maps : nat -> Z -> maps_read).
Context (open_module : list byte -> Z -> Z -> Z -> option modfile) (lzma_decode : list byte -> Z -> lzma_ret).
Context {H : Type} (jit_reset vdso_reset : Z -> H -> H).
Hypothesis alloc_all : forall n, alloc_ok n = true.
Hypothesis lzma_len : forall b cap out, lzma_decode b cap = LZMA_OK out -> zlen out < 2 ^ 63.

(** Every file met reads and loads without leaving its buffer. *)
Definition modules_load : Prop := forall path off pid a b,
  exists r, read_module alloc_ok open_module path off pid a b = Ret r /\
    forall buf, r = Some buf -> zlen buf < 2 ^ 63 /\ exists s, load_cfi alloc_ok lzma_decode buf = Ret s.
Hypothesis Hload : modules_load.

Record sym_ok (st : sym_state H) : Prop := {
  so_pm : pms_ok (g_pm (s_pm st));
  so_idx : idx_ok (s_cfi_idx st);
  so_ref : forall k v, has (h_slots (s_cfi_idx st)) k v -> 0 <= v < zlen (s_cfi st);
  so_sec : Forall (fun m => forall s, m_sec m = Some s -> section_ok s) (s_cfi st)
}.

Lemma decompress_len tries b cap out :
  decompress_loop alloc_ok lzma_decode tries b cap = Some out -> zlen out < 2 ^ 63.
Proof.
  revert cap. induction tries as [|n IH]; intros cap; cbn [decompress_loop]; [discriminate|].
  destruct (negb _); [discriminate|]. destruct (lzma_decode b cap) eqn:E; [|apply IH|discriminate].
  intros [= <-]. eapply lzma_len; eauto.
Qed.

Lemma load_cfi_ok buf s : zlen buf < 2 ^ 63 -> load_cfi alloc_ok lzma_decode buf = Ret (Some s) -> section_ok s.
Proof.
  intros Hl. unfold load_cfi. destruct (cfi_load_elf alloc_ok buf) as [s'| | |] eqn:E; try discriminate.
  { intros [= <-]. now apply cfi_load_elf_spec in E as [? _]. }
  destruct (find_gnu_debugdata buf) as [[off size]| | |]; try discriminate.
  destruct (decompress_xz _ _ _) as [inner|] eqn:Ed; [|discriminate]. apply decompress_len in Ed.
  destruct (cfi_load_elf alloc_ok inner) as [s'| | |] eqn:E2; try discriminate.
  intros [= <-]. now apply cfi_load_elf_spec in E2 as [? _].
Qed.

(** [cfi_get] answers with a parsed section or none, from the cache or the file. *)
Lemma cfi_get_spec st path off base pid a b :
  sym_ok st ->
  exists sec st', cfi_get alloc_ok open_module lzma_decode st path off base pid a b = Ret (sec, st') /\
    sym_ok st' /\ s_pm st' = s_pm st /\ forall s, sec = Some s -> section_ok s.
Proof.
  intros [Hpm Hidx Href Hsec]. unfold cfi_get. cbv zeta.
  assert (Hmiss : exists sec st',
    (if negb (alloc_ok ((zlen (s_cfi st) + 1) * 336)) then Ret (None, st) else
     idx ← elfidx_put alloc_ok (s_cfi_idx st) path off (zlen (s_cfi st));
     buf ← read_module alloc_ok open_module path off pid a b;
     sec ← match buf with None => Ret None | Some buf => load_cfi alloc_ok lzma_decode buf end;
     Ret (sec, set_cfi st (s_cfi st ++ [mk_cfimod (snprintf_s MAX_PATH_LEN path) off base sec]) idx)) = Ret (sec, st') /\
    sym_ok st' /\ s_pm st' = s_pm st /\ forall s, sec = Some s -> section_ok s).
  { rewrite alloc_all. cbn [negb].
    destruct (elfidx_put_spec alloc_ok (s_cfi_idx st) path off (zlen (s_cfi st)) alloc_all Hidx) as (idx & -> & Hidx' & _ & Hh).
    rewrite ret_bind. destruct (Hload path off pid a b) as (r & -> & Hr). rewrite ret_bind.
    assert (Hs : exists sec, match r with None => Ret None | Some buf => load_cfi alloc_ok lzma_decode buf end = Ret sec /\
      forall s, sec = Some s -> section_ok s).
    { destruct r as [buf|]; [|exists None; split; [reflexivity|discriminate]].
      destruct (Hr buf eq_refl) as (Hl & s & Es). exists s. split; [exact Es|]. intros s' ->. eapply load_cfi_ok; eauto. }
    destruct Hs as (sec & -> & Hsok). rewrite ret_bind. eexists sec, _. split; [reflexivity|].
    split; [|split; [reflexivity|exact Hsok]]. constructor; cbn [s_pm s_cfi_idx s_cfi set_cfi]; [exact Hpm|exact Hidx'| |].
    - intros k v Hk. rewrite zlen_app. change (zlen [_]) with 1. pose proof (zlen_nonneg (s_cfi st)).
      apply Hh in Hk as [[_ ->]|Hk]; [lia|]. apply Href in Hk. lia.
    - apply Forall_app. split; [exact Hsec|]. apply List.Forall_cons; [exact Hsok|apply List.Forall_nil]. }
  destruct (elfidx_get (s_cfi_idx st) path off) as [hit|] eqn:E; [|exact Hmiss].
  apply elfidx_get_has in E; [|exact Hidx]. apply Href in E. unfold zlen in E.
  destruct (lookup_lt_is_Some_2 (s_cfi st) (Z.to_nat hit)) as [m Em]; [lia|]. rewrite Em.
  case_bool_decide; [|exact Hmiss]. exists (m_sec m), st. split; [reflexivity|]. split; [now constructor|].
  split; [reflexivity|]. rewrite list.Forall_forall in Hsec. apply Hsec. eapply list_elem_of_lookup_2; eauto.
Qed.

(** ** Mappings *)

Lemma set_slot_ok l i pm pm' : pms_ok l -> l !! i = Some pm -> pm_pid pm' = pm_pid pm -> pms_ok (<[i := pm']> l).
Proof.
  intros [Hnd Hl] Hi Hp. split; [|unfold zlen; now rewrite length_insert]. rewrite map_pid_insert, Hp.
  rewrite list_insert_id; [exact Hnd|]. change (map pm_pid l) with (pm_pid <$> l). now rewrite list_lookup_fmap, Hi.
Qed.

Lemma set_pm_ok st p : sym_ok st -> pms_ok (g_pm p) -> sym_ok (set_pm st p).
Proof. intros [? ? ? ?] Hp. constructor; assumption. Qed.

Lemma set_slot_sym_ok st i pm pm' t :
  sym_ok st -> g_pm (s_pm st) !! i = Some pm -> pm_pid pm' = pm_pid pm ->
  sym_ok (set_pm st (mk_pms (<[i := pm']> (g_pm (s_pm st))) t)) /\
  g_pm (s_pm (set_pm st (mk_pms (<[i := pm']> (g_pm (s_pm st))) t))) !! i = Some pm'.
Proof.
  intros Hok Hi Hp. split; [apply set_pm_ok; [exact Hok|]; simpl; eapply set_slot_ok; eauto; apply Hok|].
  simpl. apply list_lookup_insert_eq. now apply lookup_lt_Some in Hi.
Qed.

Lemma slot_find_spec st i pm addr :
  sym_ok st -> g_pm (s_pm st) !! i = Some pm ->
  exists hit pm' st', slot_find alloc_ok clk proc_maps st i addr = Ret (hit, pm', st') /\ sym_ok st' /\
    g_pm (s_pm st') !! i = Some pm' /\ forall k, hit = Some k -> exists l, pm_m pm' !! k = Some l /\ covers addr l.
Proof.
  intros Hok Hi. unfold slot_find. rewrite Hi.
  destruct (find_mapping_refresh_total alloc_ok clk proc_maps (tick (s_pm st)) pm addr) as (r & pm' & t & -> & Hp & Hr).
  rewrite ret_bind. cbn. destruct (set_slot_sym_ok st i pm pm' t Hok Hi Hp) as [H1 H2]. eauto 10.
Qed.

Lemma unwind_find_spec st i pm addr forced :
  sym_ok st -> g_pm (s_pm st) !! i = Some pm ->
  exists hit pm' forced' st', unwind_find alloc_ok clk proc_maps st i addr forced = Ret (hit, pm', forced', st') /\ sym_ok st' /\
    g_pm (s_pm st') !! i = Some pm' /\ forall k, hit = Some k -> exists l, pm_m pm' !! k = Some l /\ covers addr l.
Proof.
  intros Hok Hi. unfold unwind_find.
  destruct (slot_find_spec st i pm addr Hok Hi) as (hit & pm1 & st1 & -> & Hok1 & Hi1 & Hr). rewrite ret_bind. cbv beta iota.
  destruct hit as [k|]; [eauto 10|]. destruct forced; [eauto 10|].
  cbv zeta. set (pm2 := read_proc_maps _ _ _ _ _). destruct (find_mapping_total pm2 addr) as (r & -> & Hr2). rewrite ret_bind.
  destruct (set_slot_sym_ok st1 i pm1 pm2 (S (tick (s_pm st1))) Hok1 Hi1 (read_proc_maps_pid _ _ _ _ _)) as [H1 H2]. eauto 10.
Qed.

(** ** The walk *)

(** A section of the module mapped at the frame's pc, as the maps were at that time. *)
Definition module_at (fr : frame) (mpc load_base elf_off : Z) (p : list byte) : Prop :=
  exists pm k ml e, pm_m pm !! k = Some ml /\ covers (pc fr) ml /\ path ml = p /\
    module_base pm k = Ret (load_base, elf_off, e) /\ mpc = u64 (pc fr - load_base).

(** Why the walk ended at a frame. *)
Definition ended (snap : anubee_stack_snapshot) (fr : frame) (d : frame_diag) : Prop :=
  match d with
  | DUnset => False
  | DPcZero => pc fr = 0
  | DNoMapping => pc fr <> 0
  | DCfiGetNull mpc lb eo p => module_at fr mpc lb eo p
  | DStep mpc lb eo p d => module_at fr mpc lb eo p /\
      exists sec, section_ok sec /\ cfi_step sec mpc fr (sn_stack snap) (sn_sp snap) = Ret (false, fr, d)
  end.

(** The frames recorded from [fr] on, with [n] turns and [room] array entries left. *)
Inductive walked (snap : anubee_stack_snapshot) : nat -> nat -> frame -> list (Z * Z * frame_diag) -> Prop :=
| walked_bound room fr : walked snap 0 room fr []
| walked_full n fr : walked snap (S n) 1 fr [(pc fr, sp fr, DUnset)]
| walked_end n room fr d : ended snap fr d -> walked snap (S n) (S (S room)) fr [(pc fr, sp fr, d)]
| walked_step n room fr fr' sec mpc lb eo p d l :
    pc fr <> 0 -> module_at fr mpc lb eo p -> section_ok sec ->
    stepped sec mpc fr fr' (sn_stack snap) (sn_sp snap) d -> walked snap n (S room) fr' l ->
    walked snap (S n) (S (S room)) fr ((pc fr, sp fr, DStep mpc lb eo p d) :: l).

Notation unwind_one := (unwind_one alloc_ok clk proc_maps open_module lzma_decode).
Notation unwind_loop := (unwind_loop alloc_ok clk proc_maps open_module lzma_decode).

Lemma unwind_one_spec st snap pid slot fr forced :
  sym_ok st -> length (xregs fr) = 31%nat -> (forall i, slot = Some i -> exists pm, g_pm (s_pm st) !! i = Some pm) ->
  exists d next forced' st', unwind_one st snap pid slot fr forced = Ret (d, next, forced', st') /\ sym_ok st' /\
    (forall i, slot = Some i -> exists pm, g_pm (s_pm st') !! i = Some pm) /\
    match next with
    | None => ended snap fr d
    | Some fr' => pc fr <> 0 /\ exists sec mpc lb eo p cd, d = DStep mpc lb eo p cd /\ module_at fr mpc lb eo p /\
        section_ok sec /\ stepped sec mpc fr fr' (sn_stack snap) (sn_sp snap) cd
    end.
Proof.
  intros Hok Hx Hslot. unfold Symbolize.unwind_one. destruct (Z.eqb_spec (pc fr) 0) as [E0|E0].
  { exists DPcZero, None, forced, st. auto. }
  destruct slot as [i|]; [|exists DNoMapping, None, forced, st; auto].
  destruct (Hslot i eq_refl) as [pm Hi].
  destruct (unwind_find_spec st i pm (pc fr) forced Hok Hi) as (hit & pm1 & f1 & st1 & -> & Hok1 & Hi1 & Hr).
  rewrite ret_bind. cbv beta iota.
  assert (Hslot1 : forall st2 : sym_state H, s_pm st2 = s_pm st1 -> forall j, Some i = Some j -> exists pm, g_pm (s_pm st2) !! j = Some pm)
    by (intros st2 -> j [= <-]; eauto).
  destruct hit as [k|].
  2:{ exists DNoMapping, None, f1, st1. split; [reflexivity|]. split; [exact Hok1|]. split; [now apply Hslot1|exact E0]. }
  destruct (Hr k eq_refl) as (ml & Hk & Hc). rewrite Hk.
  destruct (module_base_total pm1 k ml Hk) as (lb & eo & e & Hb). rewrite Hb, ret_bind. cbv beta iota.
  assert (Hat : module_at fr (u64 (pc fr - lb)) lb eo (path ml)) by (exists pm1, k, ml, e; auto).
  destruct (cfi_get_spec st1 (path ml) eo lb pid (start ml) (end_ ml) Hok1) as (sec & st2 & -> & Hok2 & Hpm2 & Hsec).
  rewrite ret_bind. cbv beta iota zeta. destruct sec as [sec|].
  2:{ eexists _, None, f1, st2. split; [reflexivity|]. split; [exact Hok2|]. split; [now apply Hslot1|exact Hat]. }
  specialize (Hsec sec eq_refl). set (mpc := u64 (pc fr - lb)) in *.
  destruct (cfi_step_total sec mpc fr (sn_stack snap) (sn_sp snap) Hsec Hx) as (b & fr' & cd & Est & Hb').
  rewrite Est, ret_bind. cbv beta iota. eexists _, _, f1, st2. split; [reflexivity|]. split; [exact Hok2|]. split; [now apply Hslot1|].
  destruct b; [split; [exact E0|exists sec, mpc, lb, eo, (path ml), cd; auto]|].
  destruct Hb' as [-> _]. split; [exact Hat|]. exists sec. auto.
Qed.

Lemma unwind_loop_spec n room st snap pid slot fr forced :
  (n <= room)%nat -> sym_ok st -> length (xregs fr) = 31%nat ->
  (forall i, slot = Some i -> exists pm, g_pm (s_pm st) !! i = Some pm) ->
  exists l st', unwind_loop n room st snap pid slot fr forced = Ret (l, st') /\ sym_ok st' /\ walked snap n room fr l.
Proof.
  revert room st fr forced. induction n as [|n IH]; intros room st fr forced Hn Hok Hx Hslot; cbn [Symbolize.unwind_loop].
  { destruct room; exists [], st; (split; [reflexivity|]; split; [exact Hok|constructor]). }
  destruct room as [|[|room]]; [lia|eexists _, st; split; [reflexivity|]; split; [exact Hok|constructor]|].
  destruct (unwind_one_spec st snap pid slot fr forced Hok Hx Hslot) as (d & next & f' & st1 & -> & Hok1 & Hslot1 & Hnext).
  rewrite ret_bind. cbv beta iota. destruct next as [fr'|].
  2:{ eexists _, st1. split; [reflexivity|]. split; [exact Hok1|now constructor]. }
  destruct Hnext as (H0 & sec & mpc & lb & eo & p & cd & -> & Hat & Hsec & Hst).
  destruct (IH (S room) st1 fr' f') as (l & st2 & -> & Hok2 & Hw); [lia|exact Hok1|apply Hst|exact Hslot1|].
  rewrite ret_bind. cbv beta iota. eexists _, st2. split; [reflexivity|]. split; [exact Hok2|]. eapply walked_step; eauto.
Qed.

Lemma pm_slot_spec st pid :
  sym_ok st -> let '(slot, st') := pm_slot alloc_ok clk proc_maps jit_reset vdso_reset st pid in
  sym_ok st' /\ forall i, slot = Some i -> exists pm, g_pm (s_pm st') !! i = Some pm.
Proof.
  intros Hok. unfold pm_slot. pose proof (pm_get_spec alloc_ok clk proc_maps (s_pm st) pid (so_pm _ Hok)) as Hp.
  destruct (pm_get alloc_ok clk proc_maps (s_pm st) pid) as [[r ev] p]. destruct Hp as [Hp1 Hp2].
  split; [|intros i Hi; destruct (Hp2 i Hi) as (pm & Hpm & _); exists pm; exact Hpm].
  apply set_pm_ok; [|exact Hp1]. destruct ev; [|exact Hok]. destruct Hok. now constructor.
Qed.
End Unwind.

Lemma walked_length snap n room fr l : walked snap n room fr l -> (n <= room)%nat -> (length l <= n)%nat.
Proof. induction 1; intros Hn; simpl; [lia|lia|lia|]. assert (n <= S room)%nat by lia. specialize (IHwalked H4). lia. Qed.


(** A text served from the cache is the text of the first resolution cut to the 119
    characters a slot holds, however large the caller's buffer is. *)
Theorem cached_text_is_cut alloc_ok clk proc_maps open_module lzma qsort {H : Type} (jr vr : Z -> H -> H) jit vdso apk
    (st st1 : sym_state H) m pid addr outsz s :
  (forall n, alloc_ok n = true) -> sc_get (s_sc st) pid addr outsz = None ->
  sym_resolve_uncached alloc_ok clk proc_maps open_module lzma qsort jr vr jit vdso apk st pid addr outsz = Ret (s, true, st1) ->
  sc_holds (s_sc st1) m ->
  exists st2, sym_resolve alloc_ok clk proc_maps open_module lzma qsort jr vr jit vdso apk st pid addr outsz = Ret (s, st2) /\
    sym_resolve alloc_ok clk proc_maps open_module lzma qsort jr vr jit vdso apk st2 pid addr outsz = Ret (snprintf_s outsz (snprintf_s SC_STR s), st2).
Proof.
  intros Hall Hmiss Hun Hh. destruct (sc_put_spec alloc_ok (s_sc st1) m pid addr s Hall Hh) as (t & m' & Hput & Hh' & _).
  exists (set_sc st1 t). unfold sym_resolve. rewrite Hmiss, Hun, ret_bind. cbv beta iota. rewrite Hput, ret_bind.
  split; [reflexivity|]. cbn [s_sc set_sc]. rewrite (sc_get_spec t _ pid addr outsz Hh'), lookup_insert_eq. reflexivity.
Qed.

(** ** Witness *)

(** A file that delivers the image in one read. *)
Definition ex_file : modfile :=
  mk_file (Some (zlen demo_image)) (fun n off => if (n =? zlen demo_image) && (off =? 0) then demo_image else []).
Definition ex_open (p : list byte) (pid a b : Z) : option modfile := Some ex_file.
Definition ex_lzma (b : list byte) (cap : Z) : lzma_ret := LZMA_OTHER.
Definition ex_st : sym_state unit := mk_st (mk_pms [] 0) no_htab [] no_htab [] no_htab tt.
Definition ex_maps (t : nat) (pid : Z) : maps_read := MapsLines [mk_line 0x100000 0x102000 0 true (bytes_of "/lib.so")].
Definition ex_snap : anubee_stack_snapshot := mk_snap (repeat 7 31) 0x101004 0x7000 demo_stack.

Lemma ex_modules_load : modules_load (fun _ => true) ex_open ex_lzma.
Proof.
  intros path off pid a b. unfold read_module. destruct (_ || _); [exists None; split; [reflexivity|discriminate]|].
  cbn [ex_open ex_file f_size f_pread]. change (u64 (zlen demo_image)) with (zlen demo_image).
  destruct (_ <=? off) eqn:E1; [exists None; split; [reflexivity|discriminate]|]. b2p.
  destruct (_ >? _); [exists None; split; [reflexivity|discriminate]|].
  unfold read_block. cbn [negb pread_all]. rewrite (proj2 (Z.eqb_neq _ 0)) by lia. cbv zeta.
  destruct ((zlen demo_image - off =? zlen demo_image) && (s64 off =? 0)) eqn:E2.
  - apply andb_true_iff in E2 as [E2 _]. b2p. assert (off = 0) by lia. subst off.
    exists (Some demo_image). split; [vm_compute; reflexivity|]. intros buf [= <-]. split; [vm_compute; reflexivity|].
    eexists. vm_compute. reflexivity.
  - exists None. split; [reflexivity|discriminate].
Qed.

