(* ===== verification/ProbeSpec.v ===== *)
(** * ProbeSpec: the probe specification language (src/common/probe_resolve.c)

    [parse_custom_probe_spec_ex] reads "KIND:" specs and the
    MODULE!FUNC@OFFSET(ARGS)>RET grammar, [spec_describe] prints a spec, and the
    resolver turns one into probe targets.  C strings are byte lists without their
    terminator; libelf's view of a file (symbol tables and segments), [fnmatch],
    [regcomp] and [regexec] are parameters.  A [None] is the return of -1. *)

From Stdlib Require Import ZArith Lia.
From stdpp Require Import base list option numbers.
From S2P Require Import Prelude Elf Modules Emit.

Local Open Scope Z_scope.

Inductive spec_kind_t := SPEC_KIND_FUNCS | SPEC_KIND_SYSCALL | SPEC_KIND_LIB | SPEC_KIND_MOD.
#[export] Instance spec_kind_eq : EqDecision spec_kind_t. Proof. solve_decision. Defined.

Inductive arg_t := ARG_STR | ARG_VAL | ARG_NONE | ARG_FD | ARG_SOCKADDR.
#[export] Instance arg_eq : EqDecision arg_t. Proof. solve_decision. Defined.

(** [sp_args] is [None] for [arg_count] -1, else the first [arg_count] types. *)
Record custom_probe_spec_t := mk_spec {
  sp_kind : spec_kind_t; sp_deny : bool; sp_mod : list byte; sp_func : list byte; sp_offset : Z;
  sp_args : option (list arg_t); sp_ret : arg_t; sp_ret_only : bool
}.

Definition copy_str (src : list byte) (dstsz : Z) : list byte := take (Z.to_nat (dstsz - 1)) src.

(** ** C library *)

(** [strchr] as a cut: the text before the first [c] and the text after it. *)
Fixpoint cut (c : byte) (s : list byte) : option (list byte * list byte) :=
  match s with
  | [] => None
  | x :: s => if bool_decide (x = c) then Some ([], s) else (fun p => (x :: p.1, p.2)) <$> cut c s
  end.

Definition has_char (c : byte) (s : list byte) : bool := existsb (fun x => bool_decide (x = c)) s.

Fixpoint skip_spaces (s : list byte) : list byte :=
  match s with
  | x20 :: s => skip_spaces s
  | _ => s
  end.

(** [strtok_r] with ",": the non-empty pieces. *)
Fixpoint tokens (s cur : list byte) : list (list byte) :=
  match s with
  | [] => match cur with [] => [] | _ => [cur] end
  | c :: s => if bool_decide (c = x2c) then (match cur with [] => [] | _ => [cur] end) ++ tokens s [] else tokens s (cur ++ [c])
  end.

Definition ULONG_MAX := 2 ^ 64 - 1.
Definition is_space (c : byte) : bool := (bz c =? 0x20) || ((0x09 <=? bz c) && (bz c <=? 0x0d)).
Definition digit_val (c : byte) : Z :=
  let v := bz c in
  if (0x30 <=? v) && (v <=? 0x39) then v - 0x30
  else if (0x61 <=? v) && (v <=? 0x7a) then v - 0x61 + 10
  else if (0x41 <=? v) && (v <=? 0x5a) then v - 0x41 + 10
  else 99.

Fixpoint read_digits (base acc : Z) (s : list byte) : Z :=
  match s with
  | [] => acc
  | c :: s => if digit_val c <? base then read_digits base (acc * base + digit_val c) s else acc
  end.

Definition strtoul_body (s : list byte) : Z :=
  match s with
  | x30 :: x78 :: c :: r | x30 :: x58 :: c :: r => if digit_val c <? 16 then read_digits 16 0 (c :: r) else 0
  | x30 :: r => read_digits 8 0 r
  | _ => read_digits 10 0 s
  end.

Fixpoint skip_space_class (s : list byte) : list byte :=
  match s with
  | c :: r => if is_space c then skip_space_class r else s
  | [] => []
  end.

(** [strtoul(s, NULL, 0)]: space, sign, base prefix, digits; saturating. *)
Definition strtoul (s : list byte) : Z :=
  match skip_space_class s with
  | x2d :: r => let v := strtoul_body r in if v >? ULONG_MAX then ULONG_MAX else u64 (- v)
  | x2b :: r => Z.min ULONG_MAX (strtoul_body r)
  | r => Z.min ULONG_MAX (strtoul_body r)
  end.

(** ** The parser *)

Section Parser.
Context (regcomp : list byte -> bool).

Definition KINDS : list (list byte * spec_kind_t) :=
  [(bytes_of "funcs:", SPEC_KIND_FUNCS); (bytes_of "syscall:", SPEC_KIND_SYSCALL);
   (bytes_of "lib:", SPEC_KIND_LIB); (bytes_of "mod:", SPEC_KIND_MOD)].

(** The first prefix of the table that matches, and the text behind it. *)
Fixpoint match_kind (l : list (list byte * spec_kind_t)) (buf : list byte) : option (spec_kind_t * list byte) :=
  match l with
  | [] => None
  | (p, k) :: l => if is_prefix p buf then Some (k, drop (length p) buf) else match_kind l buf
  end.

Definition ident_char (c : byte) : bool :=
  ((0x61 <=? bz c) && (bz c <=? 0x7a)) || ((0x30 <=? bz c) && (bz c <=? 0x39)) || (bz c =? 0x5f).

Fixpoint skip_ident (s : list byte) : list byte :=
  match s with
  | c :: r => if ident_char c then skip_ident r else s
  | [] => []
  end.

(** An identifier followed by ':' that is no known kind. *)
Definition unknown_kind (buf : list byte) : bool :=
  negb (bool_decide (head buf = Some x2f)) &&
  (length (skip_ident buf) <? length buf)%nat && bool_decide (head (skip_ident buf) = Some x3a).

Definition funcs_shaped (buf : list byte) : bool :=
  let scan := match buf with x21 :: r => r | _ => buf end in
  has_char x21 scan || has_char x40 scan.

(** The text before a '>' outside parentheses, and the text behind it. *)
Fixpoint cut_ret (in_paren : bool) (s : list byte) : list byte * option (list byte) :=
  match s with
  | [] => ([], None)
  | c :: s =>
      if bool_decide (c = x28) then let '(a, r) := cut_ret true s in (c :: a, r)
      else if bool_decide (c = x29) then let '(a, r) := cut_ret false s in (c :: a, r)
      else if bool_decide (c = x3e) && negb in_paren then ([], Some s)
      else let '(a, r) := cut_ret in_paren s in (c :: a, r)
  end.

Definition ret_of (s : list byte) : option arg_t :=
  match skip_spaces s with
  | x53 :: _ | x73 :: _ => Some ARG_STR
  | x56 :: _ | x76 :: _ => Some ARG_VAL
  | _ => None
  end.

Definition arg_of (tok : list byte) : option arg_t :=
  match skip_spaces tok with
  | x53 :: _ | x73 :: _ => Some ARG_STR
  | x56 :: _ | x76 :: _ => Some ARG_VAL
  | x46 :: _ | x66 :: _ => Some ARG_FD
  | x41 :: _ | x61 :: _ => Some ARG_SOCKADDR
  | _ => None
  end.

(** At most the first eight; the rest is only warned about. *)
Definition args_of (s : list byte) : option (list arg_t) := mapM arg_of (take 8 (tokens s [])).

(** Module, function and offset of the text before the arguments. *)
Definition split_target (buf : list byte) : option (list byte * list byte * Z) :=
  match cut x21 buf with
  | Some (m, rest) =>
      match cut x40 rest with
      | Some (f, o) => Some (copy_str m 256, copy_str f 256, strtoul o)
      | None => Some (copy_str m 256, copy_str rest 256, 0)
      end
  | None =>
      match cut x40 buf with
      | Some (m, o) => Some (copy_str m 256, [], strtoul o)
      | None => None
      end
  end.

Definition bad_regex (p : list byte) : bool := pm_is_regex p && negb (pm_regex_valid regcomp p).

Definition parse_pattern (kind : spec_kind_t) (buf : list byte) : option custom_probe_spec_t :=
  let '(deny, p) := match buf with x21 :: r => (true, r) | _ => (false, buf) end in
  if has_char x28 p || has_char x3e p then None else
  match p with
  | [] => None
  | _ => Some (mk_spec kind deny (copy_str p 256) [] 0 None ARG_NONE false)
  end.

Definition parse_mod (buf : list byte) : option custom_probe_spec_t :=
  match buf with
  | [] => None
  | _ => Some (mk_spec SPEC_KIND_MOD false (copy_str buf 256) [] 0 None ARG_NONE false)
  end.

Definition parse_funcs (buf : list byte) : option custom_probe_spec_t :=
  let '(buf, ret) := cut_ret false buf in
  ret ← match ret with None => Some ARG_NONE | Some r => ret_of r end;
  '(buf, args) ← match cut x28 buf with
                 | None => Some (buf, None)
                 | Some (b, rest) =>
                     match cut x29 rest with
                     | None => None
                     | Some (a, _) => args ← args_of a; Some (b, Some args)
                     end
                 end;
  '(m, f, o) ← split_target buf;
  match m with
  | [] => None
  | _ =>
      if bool_decide (f = []) && (o =? 0) then None else
      if bad_regex m || (negb (bool_decide (f = [])) && bad_regex f) then None else
      Some (mk_spec SPEC_KIND_FUNCS false m f o args ret (negb (bool_decide (ret = ARG_NONE)) && bool_decide (args = None)))
  end.

(** The spec and whether the default kind was used. *)
Definition parse_custom_probe_spec_ex (input : list byte) (default_kind : spec_kind_t) : option (custom_probe_spec_t * bool) :=
  let buf := copy_str input 512 in
  let matched := match_kind KINDS buf in
  if bool_decide (matched = None) && unknown_kind buf then None else
  let '(kind, buf, used) :=
    match matched with
    | Some (k, rest) => (k, rest, false)
    | None => if negb (bool_decide (default_kind = SPEC_KIND_FUNCS)) && negb (funcs_shaped buf)
              then (default_kind, buf, true) else (SPEC_KIND_FUNCS, buf, false)
    end in
  s ← match kind with
      | SPEC_KIND_SYSCALL | SPEC_KIND_LIB => parse_pattern kind buf
      | SPEC_KIND_MOD => parse_mod buf
      | SPEC_KIND_FUNCS => parse_funcs buf
      end;
  Some (s, used).

Definition parse_custom_probe_spec (input : list byte) : option custom_probe_spec_t :=
  fst <$> parse_custom_probe_spec_ex input SPEC_KIND_FUNCS.
End Parser.

Definition kind_prefix (k : spec_kind_t) : list byte :=
  match k with
  | SPEC_KIND_SYSCALL => bytes_of "syscall:"
  | SPEC_KIND_LIB => bytes_of "lib:"
  | SPEC_KIND_MOD => bytes_of "mod:"
  | SPEC_KIND_FUNCS => []
  end.

Definition offset_text (o : Z) : res (list byte) := h ← hex_text o; Ret (bytes_of "@0x" ++ h).

Definition spec_describe (s : custom_probe_spec_t) (len : Z) : res (list byte) :=
  let lead := kind_prefix (sp_kind s) ++ (if sp_deny s then [x21] else []) ++ sp_mod s in
  f ← match sp_func s with
      | [] => Ret []
      | f => Ret (x21 :: f)
      end;
  o ← (if sp_offset s =? 0 then Ret [] else offset_text (sp_offset s));
  Ret (snprintf_s len (lead ++ f ++ o)).

(** ** Resolution *)

Record load_seg := mk_seg { sg_vaddr : Z; sg_offset : Z; sg_filesz : Z }.
Definition SEG_VADDR_BAD := 2 ^ 64 - 1.

Fixpoint seg_vaddr_to_off (segs : list load_seg) (vaddr : Z) : Z :=
  match segs with
  | [] => SEG_VADDR_BAD
  | s :: segs =>
      if (sg_vaddr s <=? vaddr) && (vaddr <? u64 (sg_vaddr s + sg_filesz s))
      then u64 (vaddr - sg_vaddr s + sg_offset s) else seg_vaddr_to_off segs vaddr
  end.

Definition PT_LOAD := 1.
(** The program headers libelf returns (a header it cannot read is left out). *)
Definition vaddr_to_file_off (phdrs : option (list (Z * load_seg))) (vaddr : Z) : Z :=
  match phdrs with
  | None => SEG_VADDR_BAD
  | Some l => seg_vaddr_to_off (take 32 (map snd (filter (fun p => p.1 = PT_LOAD) l))) vaddr
  end.

(** A target of a module: what [probe_target_t] holds besides the process. *)
Record target := mk_tgt {
  t_path : list byte; t_func : list byte; t_off : Z; t_args : option (list arg_t); t_ret : arg_t; t_ret_only : bool
}.

Definition is_duplicate (targets : list target) (mod_path : list byte) (offset : Z) : bool :=
  existsb (fun t => (t_off t =? offset) && bool_decide (t_path t = mod_path)) targets.

(** The function symbols of a file in section and table order: address and name. *)
Record elf_view := mk_view { v_phdrs : option (list (Z * load_seg)); v_funcs : list (Z * option (list byte)) }.

Definition target_of (spec : custom_probe_spec_t) (path name : list byte) (off : Z) : target :=
  mk_tgt (copy_str path 256) (copy_str name 256) off (sp_args spec) (sp_ret spec) (sp_ret_only spec).

Fixpoint first_match (v : elf_view) (l : list (Z * option (list byte))) (func : list byte) : option Z :=
  match l with
  | [] => None
  | (value, name) :: l =>
      if negb (value =? 0) && bool_decide (name = Some func) &&
         negb (vaddr_to_file_off (v_phdrs v) value =? SEG_VADDR_BAD)
      then Some (vaddr_to_file_off (v_phdrs v) value) else first_match v l func
  end.

(** [None] when the file cannot be opened as an ELF. *)
Definition resolve_custom_spec_for_path (elf : option elf_view) (path : list byte) (spec : custom_probe_spec_t) : option target :=
  if 0 <? sp_offset spec then Some (target_of spec path (sp_func spec) (sp_offset spec)) else
  v ← elf;
  off ← first_match v (v_funcs v) (sp_func spec);
  Some (target_of spec path (sp_func spec) off).

Section Matching.
Context (fnmatch : list byte -> list byte -> bool) (regcomp : list byte -> bool) (regexec : list byte -> list byte -> bool).

Definition custom_spec_matches_path (spec : custom_probe_spec_t) (path : list byte) : bool :=
  if has_char x2f (sp_mod spec) && negb (pm_is_regex (sp_mod spec)) then bool_decide (is_Some (strstr path (sp_mod spec))) else
  let bname := basename_of path in
  if pm_is_regex (sp_mod spec) then pm_regex regcomp regexec (sp_mod spec) bname
  else pm_match fnmatch (sp_mod spec) bname true.

(** Every symbol whose name matches the pattern, at most [max_out]. *)
Definition wanted_sym (spec : custom_probe_spec_t) (v : elf_view) (s : Z * option (list byte)) : bool :=
  negb (s.1 =? 0) &&
  match s.2 with
  | None | Some [] => false
  | Some n => pm_regex regcomp regexec (sp_func spec) n
  end && negb (vaddr_to_file_off (v_phdrs v) s.1 =? SEG_VADDR_BAD).

Definition resolve_custom_spec_matches_for_path (elf : option elf_view) (path : list byte) (spec : custom_probe_spec_t) (max_out : nat)
  : option (list target) :=
  v ← elf;
  Some (map (fun s => target_of spec path (default [] s.2) (vaddr_to_file_off (v_phdrs v) s.1))
          (take max_out (List.filter (wanted_sym spec v) (v_funcs v)))).
End Matching.

(** ** Cuts *)

Lemma cut_app c a s : c ∉ a -> cut c (a ++ c :: s) = Some (a, s).
Proof.
  induction a as [|x a IH]; intros Hn; simpl; [now rewrite bool_decide_true|].
  apply not_elem_of_cons in Hn as [Hx Hn]. rewrite bool_decide_false by congruence. now rewrite IH.
Qed.

Lemma cut_none c s : c ∉ s -> cut c s = None.
Proof.
  induction s as [|x s IH]; intros Hn; simpl; [reflexivity|].
  apply not_elem_of_cons in Hn as [Hx Hn]. rewrite bool_decide_false by congruence. now rewrite IH.
Qed.

Lemma cut_ret_app a s :
  x28 ∉ a -> x3e ∉ a -> cut_ret false (a ++ s) = let '(b, r) := cut_ret false s in (a ++ b, r).
Proof.
  induction a as [|x a IH]; intros H1 H2; simpl; [now destruct (cut_ret false s)|].
  apply not_elem_of_cons in H1 as [H1 H1']. apply not_elem_of_cons in H2 as [H2 H2'].
  rewrite bool_decide_false by congruence. rewrite IH by assumption. destruct (cut_ret false s) as [b r].
  destruct (bool_decide (x = x29)); [reflexivity|]. now rewrite bool_decide_false by congruence.
Qed.

(** Inside parentheses everything up to the closing one is kept. *)
Lemma cut_ret_paren a s :
  x28 ∉ a -> x29 ∉ a -> cut_ret true (a ++ x29 :: s) = let '(b, r) := cut_ret false s in (a ++ x29 :: b, r).
Proof.
  induction a as [|x a IH]; intros H1 H2; simpl; [reflexivity|].
  apply not_elem_of_cons in H1 as [H1 H1']. apply not_elem_of_cons in H2 as [H2 H2'].
  rewrite !bool_decide_false by congruence. rewrite andb_false_r, IH by assumption. now destruct (cut_ret false s).
Qed.

(** A kind prefix ends in ':' and holds neither '!' nor '@', so it cannot match a
    module name without ':'. *)
Lemma no_kind_prefix q m c r :
  x3a ∉ m -> c ∉ q -> c <> x3a -> is_prefix (q ++ [x3a]) (m ++ c :: r) = false.
Proof.
  revert q. induction m as [|x m IH]; intros q Hm Hq Hc; destruct q as [|y q]; simpl.
  - rewrite bool_decide_false by congruence. reflexivity.
  - apply not_elem_of_cons in Hq as [Hy _]. rewrite bool_decide_false by congruence. reflexivity.
  - apply not_elem_of_cons in Hm as [Hx _]. rewrite bool_decide_false by congruence. reflexivity.
  - apply not_elem_of_cons in Hm as [_ Hm]. apply not_elem_of_cons in Hq as [_ Hq].
    rewrite IH by assumption. apply andb_false_r.
Qed.

Lemma skip_ident_head m c r : x3a ∉ m -> c <> x3a -> ident_char c = false -> head (skip_ident (m ++ c :: r)) <> Some x3a.
Proof.
  induction m as [|x m IH]; intros Hm Hc Hi; simpl; [rewrite Hi; simpl; congruence|].
  apply not_elem_of_cons in Hm as [Hx Hm]. destruct (ident_char x); [auto|]. simpl. congruence.
Qed.

(** ** Arguments *)

Definition arg_letter (a : arg_t) : byte :=
  match a with ARG_STR => x53 | ARG_VAL => x56 | ARG_FD => x46 | ARG_SOCKADDR => x41 | ARG_NONE => x00 end.

Fixpoint args_text (l : list arg_t) : list byte :=
  match l with
  | [] => []
  | [a] => [arg_letter a]
  | a :: l => arg_letter a :: x2c :: args_text l
  end.

Lemma tokens_args l : Forall (fun a => a <> ARG_NONE) l -> tokens (args_text l) [] = map (fun a => [arg_letter a]) l.
Proof.
  induction l as [|a l IH]; intros Hl; [reflexivity|]. apply list.Forall_cons in Hl as [Ha Hl]. specialize (IH Hl).
  destruct l as [|b l]; [destruct a; reflexivity|].
  change (args_text (a :: b :: l)) with (arg_letter a :: x2c :: args_text (b :: l)).
  assert (Hstep : forall s, tokens (arg_letter a :: x2c :: s) [] = [arg_letter a] :: tokens s []) by (intros s; destruct a; reflexivity).
  rewrite Hstep, IH. reflexivity.
Qed.

Lemma args_text_chars l c : c <> x00 -> In c (args_text l) -> c = x2c \/ exists a, a <> ARG_NONE /\ c = arg_letter a.
Proof.
  intros Hc. induction l as [|a l IH]; [intros []|]. destruct l as [|b l].
  - intros [<-|[]]. right. exists a. split; [now intros ->|reflexivity].
  - change (args_text (a :: b :: l)) with (arg_letter a :: x2c :: args_text (b :: l)).
    intros [<-|[<-|Hin]]; [right; exists a; split; [now intros ->|reflexivity]|auto|auto].
Qed.

Lemma args_text_plain l : x28 ∉ args_text l /\ x29 ∉ args_text l.
Proof.
  split; intros Hin; apply list_elem_of_In in Hin; apply args_text_chars in Hin as [Hc|(a & Ha & Hc)]; try discriminate; destruct a; discriminate.
Qed.

Lemma args_of_text l : Forall (fun a => a <> ARG_NONE) l -> (length l <= 8)%nat -> args_of (args_text l) = Some l.
Proof.
  intros Hl Hn. unfold args_of. rewrite tokens_args by exact Hl. rewrite take_ge by (rewrite length_map; exact Hn).
  induction Hl as [|a l Ha Hl IH]; [reflexivity|]. simpl in *. rewrite IH by lia.
  destruct a; try reflexivity. contradiction.
Qed.

(** ** Numbers *)

Lemma hex_val_digit_val c d : hex_val c = Some d -> digit_val c = d /\ 0 <= d < 16.
Proof.
  unfold hex_val, digit_val. destruct (_ && _) eqn:E1.
  - intros [= <-]. apply andb_true_iff in E1 as [? ?]. b2p. lia.
  - destruct ((0x61 <=? bz c) && (bz c <=? 0x66)) eqn:E2; [|discriminate]. intros [= <-]. apply andb_true_iff in E2 as [? ?]. b2p.
    rewrite !(proj2 (Z.leb_le _ _)) by lia. simpl. lia.
Qed.

Lemma read_digits_num acc l v : read_num 16 hex_val acc l = Some v -> read_digits 16 acc l = v.
Proof.
  revert acc. induction l as [|c l IH]; intros acc; simpl; [congruence|].
  destruct (hex_val c) as [d|] eqn:E; [|discriminate]. apply hex_val_digit_val in E as [-> Hd].
  rewrite (proj2 (Z.ltb_lt _ _)) by lia. apply IH.
Qed.

Lemma read_num_chars b val acc l v c : read_num b val acc l = Some v -> c ∈ l -> is_Some (val c).
Proof.
  revert acc. induction l as [|x l IH]; intros acc Hr Hin; [now apply not_elem_of_nil in Hin|]. simpl in Hr.
  destruct (val x) as [d|] eqn:Ex; [|discriminate]. apply elem_of_cons in Hin as [->|Hin]; eauto.
Qed.

(** Printed digits are no special characters. *)
Lemma hex_plain acc l v c : read_num 16 hex_val acc l = Some v -> bz c < 0x30 \/ bz c = 0x3e -> c ∉ l.
Proof.
  intros Hr Hc Hin. destruct (read_num_chars _ _ _ _ _ _ Hr Hin) as [d Hd]. unfold hex_val in Hd.
  destruct ((0x30 <=? bz c) && (bz c <=? 0x39)) eqn:E1; [apply andb_true_iff in E1 as [? ?]; b2p; lia|].
  destruct ((0x61 <=? bz c) && (bz c <=? 0x66)) eqn:E2; [apply andb_true_iff in E2 as [? ?]; b2p; lia|discriminate].
Qed.

(** An offset is printed so that it reads back, in hexadecimal without special characters. *)
Lemma offset_text_spec o :
  0 <= o < 2 ^ 64 -> exists h, offset_text o = Ret (x40 :: h) /\ strtoul h = o /\ x28 ∉ h /\ x3e ∉ h /\ x21 ∉ h /\ (length h <= 18)%nat.
Proof.
  intros Ho. destruct (emits_digits 16 16 hex_val hex_digit o) as (l & E & Hl & Hr); [lia|lia|simpl; lia|apply hex_val_digit|].
  unfold offset_text, hex_text. rewrite E, !ret_bind. destruct (rev_map_nonempty hex_digit l) as (c & r & Er); [lia|].
  rewrite Er in *. exists (x30 :: x78 :: c :: r). split; [reflexivity|].
  assert (Hc : digit_val c <? 16 = true).
  { simpl in Hr. destruct (hex_val c) as [d|] eqn:Ec; [|discriminate]. apply hex_val_digit_val in Ec as [-> ?]. apply Z.ltb_lt. lia. }
  assert (Hplain : forall b, bz b < 0x30 \/ bz b = 0x3e -> b <> x78 -> b <> x30 -> b ∉ x30 :: x78 :: c :: r).
  { intros b Hb H1 H2. apply not_elem_of_cons. split; [exact H2|]. apply not_elem_of_cons. split; [exact H1|]. eapply hex_plain; eauto. }
  assert (Hlen : (length (c :: r) <= 16)%nat) by (rewrite <- Er, length_reverse, length_map; lia).
  split; [|split; [|split; [|split]]; [apply Hplain; try discriminate; vm_compute; auto..|simpl in *; lia]].
  unfold strtoul. cbn [skip_space_class]. change (is_space x30) with false. cbn iota.
  unfold strtoul_body. rewrite Hc. rewrite (read_digits_num 0 (c :: r) o Hr). unfold ULONG_MAX. lia.
Qed.

(** A number in hexadecimal: the prefix and digits that read back. *)
Lemma hex_shape v : 0 <= v < 2 ^ 64 ->
  exists c r, jop_text (OpHex v) = x30 :: x78 :: c :: r /\ Forall (fun x => digit_val x <? 16 = true) (c :: r) /\
    read_digits 16 0 (c :: r) = v /\ zlen (c :: r) <= 16.
Proof.
  intros Hv. destruct (emits_digits 16 16 hex_val hex_digit v) as (l & E & Hl & Hr); [lia|lia|simpl; lia|apply hex_val_digit|].
  cbn [jop_text]. rewrite E. cbn [num_text]. destruct (rev_map_nonempty hex_digit l) as (c & r & Er); [lia|]. rewrite Er in *.
  exists c, r. split; [reflexivity|]. split; [|split].
  - clear - Hr. revert Hr. generalize 0 at 1. generalize (c :: r). intros s. induction s as [|x s IH]; intros acc Hr; [constructor|]. cbn in Hr.
    destruct (hex_val x) as [d|] eqn:Ex; [|discriminate]. constructor; [|eauto]. apply hex_val_digit_val in Ex as [-> ?]. apply Z.ltb_lt. lia.
  - exact (read_digits_num 0 (c :: r) v Hr).
  - unfold zlen. rewrite <- Er, length_reverse, length_map. lia.
Qed.

(** ** The round trip *)

Definition ret_text (r : arg_t) : list byte :=
  match r with ARG_STR => [x3e; x53] | ARG_VAL => [x3e; x56] | _ => [] end.
(** Arguments and return type as the grammar writes them. *)
Definition sig_text (s : custom_probe_spec_t) : list byte :=
  match sp_args s with Some l => x28 :: args_text l ++ [x29] | None => [] end ++ ret_text (sp_ret s).

(** Specs the language can write. *)
Record funcs_ok (regcomp : list byte -> bool) (s : custom_probe_spec_t) : Prop := {
  fk_mod : sp_mod s <> [] /\ (length (sp_mod s) <= 255)%nat;
  fk_mod_chars : Forall (fun c => c ∉ sp_mod s) [x21; x40; x28; x3e; x3a];
  fk_func : (length (sp_func s) <= 255)%nat;
  fk_func_chars : Forall (fun c => c ∉ sp_func s) [x40; x28; x3e];
  fk_off : 0 <= sp_offset s < 2 ^ 64;
  fk_some : sp_func s <> [] \/ sp_offset s <> 0;
  fk_deny : sp_deny s = false;
  fk_args : forall l, sp_args s = Some l -> Forall (fun a => a <> ARG_NONE) l /\ (length l <= 8)%nat;
  fk_ret : sp_ret s = ARG_NONE \/ sp_ret s = ARG_STR \/ sp_ret s = ARG_VAL;
  fk_ret_only : sp_ret_only s = negb (bool_decide (sp_ret s = ARG_NONE)) && bool_decide (sp_args s = None);
  fk_regex : bad_regex regcomp (sp_mod s) = false /\ (sp_func s <> [] -> bad_regex regcomp (sp_func s) = false)
}.

Definition spec_ok (regcomp : list byte -> bool) (s : custom_probe_spec_t) : Prop :=
  match sp_kind s with
  | SPEC_KIND_FUNCS => funcs_ok regcomp s
  | k => sp_mod s <> [] /\ (length (sp_mod s) <= 255)%nat /\ sp_func s = [] /\ sp_offset s = 0 /\ sp_args s = None /\
         sp_ret s = ARG_NONE /\ sp_ret_only s = false /\
         match k with
         | SPEC_KIND_MOD => sp_deny s = false
         | _ => x28 ∉ sp_mod s /\ x3e ∉ sp_mod s /\ (sp_deny s = false -> head (sp_mod s) <> Some x21)
         end
  end.

Lemma copy_str_id s n : (length s < Z.to_nat n)%nat -> copy_str s n = s.
Proof. intros Hl. unfold copy_str. apply take_ge. lia. Qed.

Lemma ret_text_spec r :
  r = ARG_NONE \/ r = ARG_STR \/ r = ARG_VAL ->
  exists o, cut_ret false (ret_text r) = ([], o) /\ match o with None => Some ARG_NONE | Some t => ret_of t end = Some r.
Proof. intros [->|[->| ->]]; eexists; split; reflexivity. Qed.

(** The parts the parser takes off the end. *)
Lemma sig_split regcomp s a :
  funcs_ok regcomp s -> x28 ∉ a -> x3e ∉ a ->
  exists b o, cut_ret false (a ++ sig_text s) = (b, o) /\
    match o with None => Some ARG_NONE | Some t => ret_of t end = Some (sp_ret s) /\
    match cut x28 b with
    | None => Some (b, None)
    | Some (x, rest) => match cut x29 rest with None => None | Some (y, _) => args ← args_of y; Some (x, Some args) end
    end = Some (a, sp_args s).
Proof.
  intros Hok Ha1 Ha2. rewrite cut_ret_app by assumption. unfold sig_text.
  destruct (ret_text_spec (sp_ret s) (fk_ret _ _ Hok)) as (o & Er & Ho).
  destruct (sp_args s) as [l|] eqn:El.
  - destruct (fk_args _ _ Hok l El) as [Hl Hn]. destruct (args_text_plain l) as [P1 P2].
    cbn [app cut_ret]. rewrite bool_decide_true by reflexivity. rewrite <- app_assoc. cbn [app].
    rewrite cut_ret_paren, Er by assumption. eexists _, o. split; [reflexivity|]. split; [exact Ho|].
    rewrite cut_app by exact Ha1. rewrite cut_app by exact P2. rewrite args_of_text by assumption. reflexivity.
  - cbn [app]. rewrite Er. eexists _, o. split; [reflexivity|]. split; [exact Ho|]. rewrite app_nil_r, cut_none by exact Ha1. reflexivity.
Qed.

(** What [spec_describe] writes of a function spec, and how the parser splits it. *)
Lemma funcs_text regcomp s :
  funcs_ok regcomp s ->
  exists F O, (match sp_func s with [] => Ret [] | f => Ret (x21 :: f) end) = Ret F /\
    (if sp_offset s =? 0 then Ret [] else offset_text (sp_offset s)) = Ret O /\
    let a := sp_mod s ++ F ++ O in
    split_target a = Some (sp_mod s, sp_func s, sp_offset s) /\ x28 ∉ a /\ x3e ∉ a /\ (length a <= 600)%nat /\
    exists c r, F ++ O = c :: r /\ (c = x21 \/ c = x40).
Proof.
  intros [[M1 M2] MC F2 FC O1 S1 D1 _ _ _ _]. rewrite !list.Forall_cons in MC. rewrite !list.Forall_cons in FC.
  destruct MC as (m1 & m2 & m3 & m4 & m5 & _). destruct FC as (f1 & f2 & f3 & _).
  assert (HO : exists O, (if sp_offset s =? 0 then Ret [] else offset_text (sp_offset s)) = Ret O /\
    (sp_offset s = 0 /\ O = [] \/ exists h, O = x40 :: h /\ strtoul h = sp_offset s /\ x21 ∉ h) /\ x28 ∉ O /\ x3e ∉ O /\ (length O <= 19)%nat).
  { destruct (Z.eqb_spec (sp_offset s) 0) as [E|E].
    - exists []. split; [reflexivity|]. split; [auto|]. split; [apply not_elem_of_nil|]. split; [apply not_elem_of_nil|simpl; lia].
    - destruct (offset_text_spec (sp_offset s) O1) as (h & -> & H1 & H2 & H3 & H4 & H5). exists (x40 :: h). split; [reflexivity|].
      split; [right; eauto|]. rewrite !not_elem_of_cons. simpl. split; [split; [discriminate|exact H2]|]. split; [split; [discriminate|exact H3]|lia]. }
  destruct HO as (O & -> & HO & O28 & O3e & Olen).
  assert (Hm : copy_str (sp_mod s) 256 = sp_mod s) by (apply copy_str_id; lia).
  assert (Hf : copy_str (sp_func s) 256 = sp_func s) by (apply copy_str_id; lia).
  destruct (sp_func s) as [|f0 f] eqn:Ef.
  - exists [], O. split; [reflexivity|]. split; [reflexivity|]. cbn [app]. rewrite !not_elem_of_app, length_app.
    destruct HO as [[E _]|(h & -> & Hh & H21)]; [destruct S1; congruence|].
    split; [|split; [auto|split; [auto|split; [lia|exists x40, h; auto]]]].
    unfold split_target. rewrite cut_none by (rewrite not_elem_of_app, not_elem_of_cons; repeat split; auto; discriminate).
    rewrite cut_app by exact m2. now rewrite Hm, Hh.
  - exists (x21 :: f0 :: f), O. split; [reflexivity|]. split; [reflexivity|]. rewrite <- Ef in *. change ((x21 :: sp_func s) ++ O) with (x21 :: sp_func s ++ O).
    cbv zeta. rewrite !not_elem_of_app, !not_elem_of_cons, !not_elem_of_app, length_app. simpl length. rewrite length_app.
    split; [|split; [repeat split; auto; discriminate|split; [repeat split; auto; discriminate|split; [lia|exists x21; eauto]]]].
    unfold split_target. rewrite cut_app by exact m1. rewrite Hm.
    destruct HO as [[E ->]|(h & -> & Hh & H21)]; [rewrite app_nil_r, cut_none by exact f1; now rewrite Hf, E|].
    rewrite cut_app by exact f1. now rewrite Hf, Hh.
Qed.

Lemma kind_of_funcs m c r :
  x3a ∉ m -> c = x21 \/ c = x40 ->
  match_kind KINDS (m ++ c :: r) = None /\ unknown_kind (m ++ c :: r) = false.
Proof.
  intros Hm Hc. assert (Hn : c <> x3a /\ ident_char c = false) by (destruct Hc as [->| ->]; split; [discriminate|reflexivity..|discriminate|reflexivity]).
  destruct Hn as [Hn Hi]. split.
  - unfold KINDS, match_kind.
    change (bytes_of "funcs:") with (bytes_of "funcs" ++ [x3a]). change (bytes_of "syscall:") with (bytes_of "syscall" ++ [x3a]).
    change (bytes_of "lib:") with (bytes_of "lib" ++ [x3a]). change (bytes_of "mod:") with (bytes_of "mod" ++ [x3a]).
    assert (Hq : forall w, forallb (fun x => negb (bool_decide (x = x21)) && negb (bool_decide (x = x40))) w = true -> c ∉ w).
    { intros w Hw Hin. apply list_elem_of_In in Hin. rewrite forallb_forall in Hw. specialize (Hw c Hin).
      destruct Hc as [->| ->]; discriminate. }
    rewrite !no_kind_prefix by (auto; apply Hq; reflexivity). reflexivity.
  - unfold unknown_kind. rewrite (bool_decide_false (head (skip_ident _) = _)); [apply andb_false_r|]. now apply skip_ident_head.
Qed.

Lemma parse_funcs_text regcomp s a :
  funcs_ok regcomp s -> split_target a = Some (sp_mod s, sp_func s, sp_offset s) -> x28 ∉ a -> x3e ∉ a ->
  parse_funcs regcomp (a ++ sig_text s) =
    Some (mk_spec SPEC_KIND_FUNCS false (sp_mod s) (sp_func s) (sp_offset s) (sp_args s) (sp_ret s) (sp_ret_only s)).
Proof.
  intros Hok Hsp H1 H2. destruct (sig_split regcomp s a Hok H1 H2) as (b & o & E & Hret & Hargs). unfold parse_funcs. rewrite E.
  rewrite Hret. cbn [mbind option_bind]. rewrite Hargs. cbn [mbind option_bind]. rewrite Hsp. cbn [mbind option_bind].
  destruct Hok as [[M1 _] _ _ _ _ S1 _ _ _ RO [R1 R2]]. destruct (sp_mod s) as [|m0 m] eqn:Em; [congruence|]. rewrite R1. cbn [orb].
  destruct (decide (sp_func s = [])) as [Ef|Ef].
  - rewrite (bool_decide_true (sp_func s = [])) by exact Ef. destruct S1 as [S1|S1]; [congruence|].
    rewrite (proj2 (Z.eqb_neq _ _)) by exact S1. simpl. now rewrite RO.
  - rewrite (bool_decide_false (sp_func s = [])) by exact Ef. rewrite R2 by exact Ef. simpl. now rewrite RO.
Qed.

Lemma has_char_false c s : c ∉ s -> has_char c s = false.
Proof.
  intros Hn. unfold has_char. apply not_true_is_false. intros Hx. apply existsb_exists in Hx as (y & Hin & Hy).
  apply bool_decide_eq_true in Hy. subst y. apply Hn. now apply list_elem_of_In.
Qed.

Lemma parse_pattern_text kind (deny : bool) m :
  m <> [] -> (length m <= 255)%nat -> x28 ∉ m -> x3e ∉ m -> (deny = false -> head m <> Some x21) ->
  parse_pattern kind ((if deny then [x21] else []) ++ m) = Some (mk_spec kind deny m [] 0 None ARG_NONE false).
Proof.
  intros M1 M2 N1 N2 N3. unfold parse_pattern.
  assert (E : match (if deny then [x21] else []) ++ m with x21 :: r => (true, r) | _ => (false, (if deny then [x21] else []) ++ m) end = (deny, m)).
  { destruct deny; [reflexivity|]. specialize (N3 eq_refl). destruct m as [|c m]; [reflexivity|]. simpl in N3 |- *. destruct c; try reflexivity. congruence. }
  rewrite E, !has_char_false by assumption. destruct m as [|c m]; [congruence|]. rewrite copy_str_id by lia. reflexivity.
Qed.

(** A printed syscall or library spec is read back. *)
Lemma pattern_parses regcomp kind deny m len :
  kind = SPEC_KIND_SYSCALL \/ kind = SPEC_KIND_LIB ->
  m <> [] -> (length m <= 255)%nat -> x28 ∉ m -> x3e ∉ m -> (deny = false -> head m <> Some x21) -> 1024 <= len ->
  let s := mk_spec kind deny m [] 0 None ARG_NONE false in
  exists t, spec_describe s len = Ret t /\
    ((length (t ++ sig_text s) <= 511)%nat -> parse_custom_probe_spec regcomp (t ++ sig_text s) = Some s).
Proof.
  intros Hk M1 M2 N1 N2 N3 Hlen. cbv zeta. unfold spec_describe, snprintf_s. cbn [sp_kind sp_deny sp_mod sp_func sp_offset].
  rewrite ret_bind. cbn [Z.eqb]. rewrite !ret_bind, !app_nil_r. rewrite take_ge.
  2:{ rewrite !length_app. assert (length (kind_prefix kind) <= 8)%nat by (destruct Hk as [->| ->]; vm_compute; lia). destruct deny; simpl; lia. }
  eexists. split; [reflexivity|]. cbn [sig_text sp_args sp_ret ret_text app]. rewrite app_nil_r. intros Hfit.
  unfold parse_custom_probe_spec, parse_custom_probe_spec_ex. rewrite copy_str_id by lia.
  pose proof (parse_pattern_text kind deny m M1 M2 N1 N2 N3) as Hp. set (rest := _ ++ m) in *.
  assert (Ek : match_kind KINDS (kind_prefix kind ++ rest) = Some (kind, rest)) by (destruct Hk as [->| ->]; reflexivity).
  rewrite Ek. cbn [andb bool_decide]. rewrite bool_decide_false by discriminate. cbn [andb].
  destruct Hk as [->| ->]; rewrite Hp; reflexivity.
Qed.


(** Regular expressions with a group are cut at the parenthesis, and those with '>',
    '!' or '@' at these: the delimiters are looked for inside /regex/ sides too. *)
Theorem regex_group_is_refused :
  parse_custom_probe_spec (fun _ => true) (bytes_of "libc.so!/^(open|read)$/") = None /\
  parse_custom_probe_spec (fun _ => true) (bytes_of "libc.so!/^open$/") =
    Some (mk_spec SPEC_KIND_FUNCS false (bytes_of "libc.so") (bytes_of "/^open$/") 0 None ARG_NONE false).
Proof. split; vm_compute; reflexivity. Qed.

(** ** Segments *)

(** An address converts through the segment that holds it, when segments do not
    wrap; one outside every segment is refused. *)
Lemma seg_vaddr_to_off_spec segs v :
  Forall (fun s => 0 <= sg_vaddr s /\ 0 <= sg_filesz s /\ sg_vaddr s + sg_filesz s < 2 ^ 64 /\ 0 <= sg_offset s /\ sg_offset s + sg_filesz s < SEG_VADDR_BAD) segs ->
  match list_find (fun s => sg_vaddr s <= v < sg_vaddr s + sg_filesz s) segs with
  | Some (_, s) => seg_vaddr_to_off segs v = sg_offset s + (v - sg_vaddr s) /\ seg_vaddr_to_off segs v <> SEG_VADDR_BAD
  | None => seg_vaddr_to_off segs v = SEG_VADDR_BAD
  end.
Proof.
  induction 1 as [|s segs (H1 & H2 & H3 & H4 & H5) Hs IH]; [reflexivity|]. cbn [seg_vaddr_to_off list_find].
  rewrite u64_small by lia. unfold SEG_VADDR_BAD in *. destruct (decide _) as [[Hlo Hhi]|Hno].
  - rewrite (proj2 (Z.leb_le _ _)), (proj2 (Z.ltb_lt _ _)) by lia. cbn [andb]. rewrite u64_small by lia. lia.
  - destruct (_ && _) eqn:E; [apply andb_true_iff in E as [? ?]; b2p; lia|].
    destruct (list_find _ segs) as [[i t]|]; simpl; exact IH.
Qed.

(** A resolved target has the name and the place of a function symbol of the file. *)
Lemma resolve_finds_symbol v path spec t :
  sp_offset spec = 0 -> resolve_custom_spec_for_path (Some v) path spec = Some t ->
  exists value, In (value, Some (sp_func spec)) (v_funcs v) /\ value <> 0 /\
    t_off t = vaddr_to_file_off (v_phdrs v) value /\ t_off t <> SEG_VADDR_BAD.
Proof.
  intros H0. unfold resolve_custom_spec_for_path. rewrite H0. cbn [Z.ltb Z.compare mbind option_bind].
  destruct (first_match v (v_funcs v) (sp_func spec)) as [off|] eqn:E; [|discriminate]. intros [= <-].
  revert E. generalize (v_funcs v). induction l as [|[value name] l IH]; cbn [first_match]; [discriminate|].
  destruct (_ && _) eqn:Eb.
  - intros [= <-]. apply andb_true_iff in Eb as [Eb E3]. apply andb_true_iff in Eb as [E1 E2]. apply negb_true_iff in E1, E3. b2p.
    apply bool_decide_eq_true in E2. subst name. exists value. simpl. auto.
  - intros E. destruct (IH E) as (w & Hin & Hrest). exists w. simpl. auto.
Qed.

(** ** Witness *)

Definition ex_spec : custom_probe_spec_t :=
  mk_spec SPEC_KIND_FUNCS false (bytes_of "libc.so") (bytes_of "fgets") 0x1f0 (Some [ARG_STR; ARG_VAL; ARG_FD]) ARG_VAL false.

