(* ===== verification/Funcs.v ===== *)
(** * Funcs: the function-call programs (src/funcs/funcs.bpf.c)

    Entry, return-only entry and return programs of [anubee funcs] over the span
    stack, with the stack snapshots of src/common/stack_snapshot.bpf.h.  The machine
    state a program sees is its context, that of Correlate with the call stack, the
    name, the return register and the room for the snapshot record added.  A field
    of an event that the program does not write is [None].  Events are listed in the
    order of their reservation, which is the order the consumer sees. *)

From Stdlib Require Import ZArith Lia.
From stdpp Require Import base list option numbers gmap fin_maps.
From S2P Require Import Prelude SpanStack Correlate.

Local Open Scope Z_scope.

Definition NUM_ARGS : nat := 8.
Definition MAX_STR_LEN : nat := 128.
Definition SOCK_ADDR_MAX := 28.
Definition STACK_DEPTH : nat := 16.
Definition ANUBEE_SNAP_MAX := 32768.
Definition ANUBEE_SNAP_CHUNK := 4096.
Definition ANUBEE_SNAP_NREG : nat := 31.

Record fctx := mk_fctx {
  f_c : ctx; f_snap_room : bool; f_stack : list Z; f_comm : list byte; f_ppid : Z; f_rc : Z; f_tls : Z
}.

Record event := mk_event {
  e_pid : Z; e_tid : Z; e_entry : Z; e_caller : Z; e_elapsed : option Z; e_ktime : Z; e_retval : option Z;
  e_ppid : Z; e_exit : bool; e_comm : list byte; e_args : list Z; e_strs : list (bool * option (list byte));
  e_sock : list (option (list byte)); e_stack : list Z; e_stack_id : option Z; e_span : Z
}.

Record stack_record := mk_stack_record {
  k_pid : Z; k_tid : Z; k_sid : Z; k_pc : Z; k_sp : Z; k_fp : Z; k_lr : Z; k_regs : list Z; k_tls : Z;
  k_snap : list byte; k_truncated : bool
}.

Inductive fev := FCall (e : event) | FReturn (e : event) | FStack (k : stack_record).

Record funcs := mk_funcs { f_maps : maps; f_seen : gset Z; f_events : list fev; f_dropped : Z }.

Definition set_maps (s : funcs) (m : maps) : funcs := mk_funcs m (f_seen s) (f_events s) (f_dropped s).
Definition emit (s : funcs) (e : fev) : funcs := mk_funcs (f_maps s) (f_seen s) (f_events s ++ [e]) (f_dropped s).
Definition bump (s : funcs) : funcs := mk_funcs (f_maps s) (f_seen s) (f_events s) (u64 (f_dropped s + 1)).

Definition untag (v : Z) : Z := Z.land v 0x00FFFFFFFFFFFFFF.
Definition is_user_ptr (v : Z) : bool := (untag v >? 0x10000) && (untag v <? 0x800000000000).

(** ** Stack snapshots *)

Fixpoint fnv_stack (h : Z) (l : list Z) : Z :=
  match l with
  | [] => h
  | a :: l => fnv_stack (u64 (Z.lxor h a * 0x100000001b3)) l
  end.

Definition anubee_hash_stack (stack : list Z) (tgid : Z) (cap : nat) : Z :=
  let h := fnv_stack (Z.lxor 0xcbf29ce484222325 (Z.shiftl tgid 32)) (take cap stack) in
  if h =? 0 then 1 else h.

(** [n] chunks left to read, the next at [sp + i * 4096]: stops at the first fault. *)
Fixpoint capture_chunks (n : nat) (mem : Z -> Z -> option (list byte)) (sp i : Z) : list byte :=
  match n with
  | O => []
  | S n =>
      if sp =? 0 then [] else
      match mem (u64 (sp + i * ANUBEE_SNAP_CHUNK)) ANUBEE_SNAP_CHUNK with
      | Some b => b ++ capture_chunks n mem sp (i + 1)
      | None => []
      end
  end.

Definition snapshot_record (c : fctx) (sid : Z) : stack_record :=
  let snap := capture_chunks (Z.to_nat (ANUBEE_SNAP_MAX / ANUBEE_SNAP_CHUNK)) (c_mem (f_c c)) (c_sp (f_c c)) 0 in
  mk_stack_record (c_pid (f_c c)) (c_tid (f_c c)) sid (c_pc (f_c c)) (c_sp (f_c c)) (reg (f_c c) 29) (reg (f_c c) 30)
    (map (reg (f_c c)) (seq 0 ANUBEE_SNAP_NREG)) (f_tls c) snap (zlen snap =? ANUBEE_SNAP_MAX).

Definition anubee_emit_stack_snapshot (c : fctx) (sid : Z) (s : funcs) : funcs :=
  if negb (f_snap_room c) then bump s else
  let k := snapshot_record c sid in
  let s := if k_truncated k then set_maps s (cov_bump COV_TRUNC (f_maps s)) else s in
  emit s (FStack k).

Section Programs.
Context (target_uids target_pids : gset Z) (snapshot_enabled sockaddr_capture : bool).
(** What the LRU set of seen stacks keeps when a key is added. *)
Context (evict : gset Z -> gset Z).

Notation gated c := (gate target_uids target_pids (f_c c)).

(** Strings of user pointers: the flag and what was copied. *)
Definition read_arg (c : fctx) (v : Z) : bool * option (list byte) :=
  if is_user_ptr v then
    match c_str (f_c c) (untag v) with
    | Some str => let str := take (MAX_STR_LEN - 1) str in (0 <? zlen str, Some str)
    | None => (false, None)
    end
  else (false, None).

Definition read_sockaddr (c : fctx) (v : Z) : option (list byte) :=
  if is_user_ptr v && sockaddr_capture then c_mem (f_c c) (untag v) SOCK_ADDR_MAX else None.

Definition user_stack (c : fctx) : list Z := take STACK_DEPTH (f_stack c).

(** The id of the call stack, 0 when there is none to report. *)
Definition stack_sid (c : fctx) : Z :=
  if snapshot_enabled && negb (length (user_stack c) =? 0)%nat
  then anubee_hash_stack (user_stack c) (c_pid (f_c c)) STACK_DEPTH else 0.

(** On first sight of a stack: its record, behind the event already reserved. *)
Definition snapshot_once (c : fctx) (s : funcs) : funcs :=
  let sid := stack_sid c in
  if (sid =? 0) || bool_decide (sid ∈ f_seen s) then s
  else anubee_emit_stack_snapshot c sid (mk_funcs (f_maps s) ({[sid]} ∪ evict (f_seen s)) (f_events s) (f_dropped s)).

Definition raw_args (c : fctx) : list Z := map (reg (f_c c)) (seq 0 NUM_ARGS).

Definition call_event (c : fctx) (span : Z) : event :=
  mk_event (c_pid (f_c c)) (c_tid (f_c c)) (c_pc (f_c c)) (reg (f_c c) 30) None (c_now (f_c c)) None (f_ppid c) false (f_comm c)
    (raw_args c) (map (read_arg c) (raw_args c)) (map (read_sockaddr c) (raw_args c)) (user_stack c) (Some (stack_sid c)) span.

(** The entry programs after the reconciliation that left [m]. *)
Definition open_at (c : fctx) (m : maps) (s : funcs) : funcs :=
  let tid := c_tid (f_c c) in
  let '(span, m) := span_stack_push tid (c_pc (f_c c)) (c_sp (f_c c)) (c_now (f_c c)) (raw_args c) m in
  if negb (c_reserve (f_c c)) then bump (set_maps s (span_stack_pop tid m)) else
  snapshot_once c (emit (set_maps s m) (FCall (call_event c span))).

Definition uprobe_open (c : fctx) (s : funcs) : funcs :=
  if gated c then s else open_at c (span_stack_reconcile (c_tid (f_c c)) (c_sp (f_c c)) (f_maps s)) s.

Definition save_at (c : fctx) (m : maps) (s : funcs) : funcs :=
  set_maps s (snd (span_stack_push (c_tid (f_c c)) (c_pc (f_c c)) (c_sp (f_c c)) (c_now (f_c c)) (raw_args c) m)).

Definition uprobe_save_only (c : fctx) (s : funcs) : funcs :=
  if gated c then s else save_at c (span_stack_reconcile (c_tid (f_c c)) (c_sp (f_c c)) (f_maps s)) s.

Definition return_event (c : fctx) (saved : span_frame) : event :=
  let args := take (NUM_ARGS - 1) (fargs saved) in
  mk_event (c_pid (f_c c)) (c_tid (f_c c)) (entry_addr saved) 0 (Some (u64 (c_now (f_c c) - timestamp saved))) (c_now (f_c c))
    (Some (f_rc c)) 0 true (f_comm c) (0 :: args) (map (read_arg c) (f_rc c :: args)) (replicate NUM_ARGS None)
    (user_stack c) None (span_id saved).

Definition uretprobe_open (c : fctx) (s : funcs) : funcs :=
  if gated c then s else
  let tid := c_tid (f_c c) in
  let m := f_maps s in
  match span_depth m !! tid with
  | None => s
  | Some d =>
      if d =? 0 then s else
      let top := u32 (d - 1) in
      match span_frames m !! (tid, top) with
      | None => set_maps s (span_depth_set tid top m)
      | Some saved =>
          let popped := span_depth_set tid top (set_frames m (delete (tid, top) (span_frames m))) in
          if negb (c_reserve (f_c c)) then bump (set_maps s popped)
          else set_maps (emit s (FReturn (return_event c saved))) popped
      end
  end.
End Programs.

(** ** Snapshots *)

(** What is captured is memory from the stack pointer up, without a gap. *)
Lemma capture_chunks_spec n mem sp i :
  (forall a b, mem a ANUBEE_SNAP_CHUNK = Some b -> zlen b = ANUBEE_SNAP_CHUNK) ->
  zlen (capture_chunks n mem sp i) <= Z.of_nat n * ANUBEE_SNAP_CHUNK /\
  exists k, zlen (capture_chunks n mem sp i) = Z.of_nat k * ANUBEE_SNAP_CHUNK /\
  forall j, (j < k)%nat -> mem (u64 (sp + (i + Z.of_nat j) * ANUBEE_SNAP_CHUNK)) ANUBEE_SNAP_CHUNK =
    Some (slice (capture_chunks n mem sp i) (Z.of_nat j * ANUBEE_SNAP_CHUNK) ANUBEE_SNAP_CHUNK).
Proof.
  intros Hm. unfold ANUBEE_SNAP_CHUNK in *. revert i. induction n as [|n IH]; intros i; cbn [capture_chunks]; change ANUBEE_SNAP_CHUNK with 4096.
  { split; [change (zlen []) with 0; lia|]. exists 0%nat. split; [reflexivity|]. intros j Hj. lia. }
  destruct (sp =? 0). { split; [change (zlen []) with 0; lia|]. exists 0%nat. split; [reflexivity|]. intros j Hj. lia. }
  destruct (mem (u64 (sp + i * 4096)) 4096) as [b|] eqn:E.
  2:{ split; [change (zlen []) with 0; lia|]. exists 0%nat. split; [reflexivity|]. intros j Hj. lia. }
  destruct (IH (i + 1)) as (Hl & k & Hk & Hj). pose proof (Hm _ _ E) as Hb. rewrite !zlen_app. split; [lia|].
  exists (S k). split; [lia|]. intros [|j] Hjk.
  - rewrite Z.add_0_r, E. f_equal. unfold slice. replace (Z.to_nat (Z.of_nat 0 * 4096)) with 0%nat by lia. rewrite drop_0, take_app_le by (unfold zlen in Hb; lia).
    rewrite take_ge by (unfold zlen in Hb; lia). reflexivity.
  - replace (i + Z.of_nat (S j)) with (i + 1 + Z.of_nat j) by lia. rewrite Hj by lia. f_equal. unfold slice.
    rewrite drop_app_ge by (unfold zlen in Hb; lia). f_equal. f_equal. unfold zlen in Hb. lia.
Qed.

(** ** Call trees *)

(** A probed call: entry and return contexts, whether only the return is reported,
    and the probed calls inside it. *)
Inductive call := Call (ret_only : bool) (cin cout : fctx) (body : list call).

Section Trees.
Context (target_uids target_pids : gset Z) (snapshot_enabled sockaddr_capture : bool) (evict : gset Z -> gset Z).

Notation uprobe_open := (uprobe_open target_uids target_pids snapshot_enabled sockaddr_capture evict).
Notation uprobe_save_only := (uprobe_save_only target_uids target_pids).
Notation uretprobe_open := (uretprobe_open target_uids target_pids).

Definition enter (ret_only : bool) (c : fctx) (s : funcs) : funcs :=
  if ret_only then uprobe_save_only c s else uprobe_open c s.

(** The programs as the thread runs through the call. *)
Fixpoint run_call (t : call) (s : funcs) : funcs :=
  match t with
  | Call ro cin cout body =>
      uretprobe_open cout
        ((fix go (l : list call) (s : funcs) := match l with [] => s | t :: l => go l (run_call t s) end) body (enter ro cin s))
  end.

(** What pairs the records: return or call, span, function, and the time at entry or
    the time spent. *)
Definition key (e : fev) : option (bool * Z * Z * Z) :=
  match e with
  | FCall e => Some (false, e_span e, e_entry e, e_ktime e)
  | FReturn e => Some (true, e_span e, e_entry e, default 0 (e_elapsed e))
  | FStack _ => None
  end.
Definition keys (s : funcs) : list (bool * Z * Z * Z) := omap key (f_events s).

(** The records a call should leave when [n] spans were opened before, and the spans
    opened after it. *)
Fixpoint trace (t : call) (n : Z) : list (bool * Z * Z * Z) * Z :=
  match t with
  | Call ro cin cout body =>
      let id := u64 (n + 1) in
      let '(inner, n') :=
        (fix go (l : list call) (n : Z) :=
           match l with
           | [] => ([], n)
           | t :: l => let '(a, n) := trace t n in let '(b, n) := go l n in (a ++ b, n)
           end) body id in
      ((if ro then [] else [(false, id, c_pc (f_c cin), c_now (f_c cin))]) ++ inner ++
       [(true, id, c_pc (f_c cin), u64 (c_now (f_c cout) - c_now (f_c cin)))], n')
  end.

Fixpoint height (t : call) : nat :=
  match t with
  | Call _ _ _ body => S ((fix go (l : list call) := match l with [] => 0%nat | t :: l => Nat.max (height t) (go l) end) body)
  end.

(** All contexts are of thread [tid], traced, with room in the ring buffer, and the
    stack grows downwards. *)
Fixpoint proper (tid sp : Z) (t : call) : Prop :=
  match t with
  | Call ro cin cout body =>
      c_tid (f_c cin) = tid /\ c_tid (f_c cout) = tid /\
      gate target_uids target_pids (f_c cin) = false /\ gate target_uids target_pids (f_c cout) = false /\
      c_reserve (f_c cin) = true /\ c_reserve (f_c cout) = true /\ c_sp (f_c cin) <= sp /\
      (fix go (l : list call) : Prop := match l with [] => True | t :: l => proper tid (c_sp (f_c cin)) t /\ go l end) body
  end.

Lemma call_rect' (P : call -> Prop) (Hc : forall ro a b l, Forall P l -> P (Call ro a b l)) : forall t, P t.
Proof.
  fix IH 1. intros [ro a b l]. apply Hc. induction l as [|t l IHl]; [apply List.Forall_nil|]. apply List.Forall_cons; [apply IH|exact IHl].
Qed.

(** The state of one thread that the argument needs: its open frames, the threads
    with frames (at most as many as the depth map holds), the spans opened. *)
Record thread_ok (T : gset Z) (s : funcs) (tid : Z) (l : list span_frame) (n : Z) : Prop := {
  th_inv : span_inv (f_maps s);
  th_stack : stack_of (f_maps s) tid = l;
  th_dom : dom (span_depth (f_maps s)) ⊆ T;
  th_seq : span_seq (f_maps s) = n
}.

(** Nothing is reconciled while every open frame is above. *)
Lemma drop_returned_none sp l : Forall (fun f => sp <= entry_sp f) l -> drop_returned sp l = l.
Proof. intros Hl. destruct Hl as [|f l Hf Hl]; [reflexivity|]. cbn. now rewrite (proj2 (Z.leb_le _ _)) by exact Hf. Qed.

Lemma keys_emit s e : keys (emit s e) = keys s ++ option_list (key e).
Proof. unfold keys, emit. cbn [f_events]. rewrite omap_app. cbn. now destruct (key e). Qed.

(** A snapshot changes neither the frames nor the paired records. *)
Lemma snapshot_once_spec T c s tid l n :
  thread_ok T s tid l n ->
  thread_ok T (snapshot_once snapshot_enabled evict c s) tid l n /\ keys (snapshot_once snapshot_enabled evict c s) = keys s.
Proof.
  intros [H1 H2 H3 H4]. unfold snapshot_once. destruct (_ || _); [split; [now constructor|reflexivity]|].
  unfold anubee_emit_stack_snapshot. destruct (negb _); [split; [constructor; assumption|reflexivity]|].
  rewrite keys_emit, app_nil_r. split; [|destruct (k_truncated _); reflexivity].
  destruct (k_truncated _); constructor; cbn; auto.
  - eapply (rs_inv (f_maps s) _ tid l). eapply (restacked_maps (f_maps s) (f_maps s)); [|reflexivity|reflexivity].
    rewrite <- H2. now apply restacked_refl.
Qed.

(** The part of [thread_ok] about maps alone. *)
Record maps_ok (T : gset Z) (m : maps) (tid : Z) (l : list span_frame) (n : Z) : Prop := {
  mo_inv : span_inv m; mo_stack : stack_of m tid = l; mo_dom : dom (span_depth m) ⊆ T; mo_seq : span_seq m = n
}.

Lemma reconcile_same T m tid l n sp :
  maps_ok T m tid l n -> Forall (fun f => sp <= entry_sp f) l -> tid ∈ T -> maps_ok T (span_stack_reconcile tid sp m) tid l n.
Proof.
  intros [H1 H2 H3 H4] Hl Ht. pose proof (span_stack_reconcile_spec m tid sp H1) as Hr.
  pose proof (proj1 (reconcile_seq tid sp m)) as Hq. revert Hr Hq. generalize (span_stack_reconcile tid sp m). intros m' Hr Hq.
  rewrite H2, drop_returned_none in Hr by exact Hl. constructor; [apply Hr|apply Hr| |congruence].
  pose proof (rs_dom _ _ _ _ Hr). set_solver.
Qed.

(** The frame an entry opens. *)
Definition frame_of (c : fctx) (id parent : Z) : span_frame :=
  mk_frame (c_pc (f_c c)) (c_sp (f_c c)) (c_now (f_c c)) id parent (raw_args c).

Lemma push_ok T m c tid l n :
  maps_ok T m tid l n -> (size T <= DEPTH_CAP)%nat -> tid ∈ T -> zlen l < 32 ->
  exists m', span_stack_push tid (c_pc (f_c c)) (c_sp (f_c c)) (c_now (f_c c)) (raw_args c) m = (u64 (n + 1), m') /\
    maps_ok T m' tid (frame_of c (u64 (n + 1)) (top_span l) :: l) (u64 (n + 1)).
Proof.
  intros [R1 R2 R3 R4] HT Ht Hlen. destruct (room_of T m tid R3 HT Ht) as [Hroom Hcap].
  assert (Hd : depth_of m tid < 32) by (rewrite <- (length_stack m tid R1), R2; exact Hlen).
  pose proof (span_stack_push_spec m tid (c_pc (f_c c)) (c_sp (f_c c)) (c_now (f_c c)) (raw_args c) R1 Hroom Hcap Hd) as Hp.
  destruct (span_stack_push tid _ _ _ _ m) as [id m']. destruct Hp as (-> & Hs & _ & Hr). rewrite R4 in *.
  exists m'. split; [reflexivity|]. constructor; [apply Hr| | |exact Hs].
  - rewrite (rs_stack _ _ _ _ Hr). unfold new_frame, frame_of. now rewrite R2, R4.
  - pose proof (rs_dom _ _ _ _ Hr). set_solver.
Qed.

Lemma maps_thread T s m tid l n : maps_ok T m tid l n -> thread_ok T (set_maps s m) tid l n.
Proof. intros [? ? ? ?]. now constructor. Qed.

Lemma open_at_spec T c m s tid l n :
  maps_ok T m tid l n -> (size T <= DEPTH_CAP)%nat -> tid ∈ T -> c_tid (f_c c) = tid -> c_reserve (f_c c) = true -> zlen l < 32 ->
  thread_ok T (open_at snapshot_enabled sockaddr_capture evict c m s) tid (frame_of c (u64 (n + 1)) (top_span l) :: l) (u64 (n + 1)) /\
  keys (open_at snapshot_enabled sockaddr_capture evict c m s) = keys s ++ [(false, u64 (n + 1), c_pc (f_c c), c_now (f_c c))].
Proof.
  intros Hm HT Ht Hc Hres Hlen. unfold open_at. rewrite Hc, Hres. destruct (push_ok T m c tid l n Hm HT Ht Hlen) as (m' & -> & Hm').
  cbn [negb]. pose proof (maps_thread T s m' tid _ _ Hm') as [A1 A2 A3 A4].
  destruct (snapshot_once_spec T c (emit (set_maps s m') (FCall (call_event snapshot_enabled sockaddr_capture c (u64 (n + 1))))) tid
    (frame_of c (u64 (n + 1)) (top_span l) :: l) (u64 (n + 1))) as [S1 S2]; [now constructor|].
  split; [exact S1|]. rewrite S2, keys_emit. cbn [key option_list e_span e_entry e_ktime call_event]. reflexivity.
Qed.

Lemma save_at_spec T c m s tid l n :
  maps_ok T m tid l n -> (size T <= DEPTH_CAP)%nat -> tid ∈ T -> c_tid (f_c c) = tid -> zlen l < 32 ->
  thread_ok T (save_at c m s) tid (frame_of c (u64 (n + 1)) (top_span l) :: l) (u64 (n + 1)) /\ keys (save_at c m s) = keys s.
Proof.
  intros Hm HT Ht Hc Hlen. unfold save_at. rewrite Hc. destruct (push_ok T m c tid l n Hm HT Ht Hlen) as (m' & -> & Hm').
  cbn [snd]. split; [now apply maps_thread|reflexivity].
Qed.

Lemma enter_spec T ro c s tid l n :
  thread_ok T s tid l n -> (size T <= DEPTH_CAP)%nat -> tid ∈ T -> c_tid (f_c c) = tid ->
  gate target_uids target_pids (f_c c) = false -> c_reserve (f_c c) = true ->
  Forall (fun f => c_sp (f_c c) <= entry_sp f) l -> zlen l < 32 ->
  let id := u64 (n + 1) in
  thread_ok T (enter ro c s) tid (frame_of c id (top_span l) :: l) id /\
  keys (enter ro c s) = keys s ++ (if ro then [] else [(false, id, c_pc (f_c c), c_now (f_c c))]).
Proof.
  intros [K1 K2 K3 K4] HT Ht Hc Hg Hres Hl Hlen. cbv zeta.
  pose proof (reconcile_same T (f_maps s) tid l n (c_sp (f_c c)) ltac:(now constructor) Hl Ht) as Hm.
  unfold enter, Funcs.uprobe_save_only, Funcs.uprobe_open. rewrite Hg, Hc. revert Hm.
  generalize (span_stack_reconcile tid (c_sp (f_c c)) (f_maps s)). intros m Hm.
  destruct ro; [rewrite app_nil_r; now apply save_at_spec|now apply open_at_spec].
Qed.

Lemma leave_spec T c s tid f l n :
  thread_ok T s tid (f :: l) n -> tid ∈ T -> c_tid (f_c c) = tid ->
  gate target_uids target_pids (f_c c) = false -> c_reserve (f_c c) = true ->
  thread_ok T (uretprobe_open c s) tid l n /\
  keys (uretprobe_open c s) = keys s ++ [(true, span_id f, entry_addr f, u64 (c_now (f_c c) - timestamp f))].
Proof.
  intros [H1 H2 H3 H4] Ht Hc Hg Hres. unfold Funcs.uretprobe_open. rewrite Hg, Hc. cbv zeta.
  destruct (span_depth (f_maps s) !! tid) as [d|] eqn:E.
  2:{ destruct (depth_none _ _ E) as [_ Hs]. congruence. }
  destruct (depth_some _ _ _ H1 E) as (_ & Hr & Hu). destruct (stack_cons _ _ _ H1 E) as (f' & Hf & Hs).
  rewrite H2 in Hs. injection Hs as <- Hl. destruct (Z.eqb_spec d 0); [lia|]. rewrite Hu, Hf, Hres. cbn [negb].
  pose proof (drop_top_spec (f_maps s) tid d H1 E) as Hd. rewrite <- Hl in Hd. split.
  - constructor; cbn [f_maps set_maps emit]; [apply Hd|apply Hd| |].
    + pose proof (rs_dom _ _ _ _ Hd). set_solver.
    + now rewrite (proj1 (span_depth_set_seq _ _ _)).
  - change (keys (set_maps (emit s (FReturn (return_event c f))) _)) with (keys (emit s (FReturn (return_event c f)))).
    rewrite keys_emit. reflexivity.
Qed.

(** The records of the calls in a body, and the body's run. *)
Fixpoint run_calls (l : list call) (s : funcs) : funcs := match l with [] => s | t :: l => run_calls l (run_call t s) end.
Fixpoint traces (l : list call) (n : Z) : list (bool * Z * Z * Z) * Z :=
  match l with
  | [] => ([], n)
  | t :: l => let '(a, n) := trace t n in let '(b, n) := traces l n in (a ++ b, n)
  end.
Fixpoint heights (l : list call) : nat := match l with [] => 0%nat | t :: l => Nat.max (height t) (heights l) end.
Definition propers (tid sp : Z) : list call -> Prop :=
  fix go l := match l with [] => True | t :: l => proper tid sp t /\ go l end.

Definition tree_ok (T : gset Z) (tid : Z) (t : call) : Prop :=
  forall s l n sp, thread_ok T s tid l n -> proper tid sp t -> Forall (fun f => sp <= entry_sp f) l ->
    zlen l + Z.of_nat (height t) <= 32 ->
    thread_ok T (run_call t s) tid l (snd (trace t n)) /\ keys (run_call t s) = keys s ++ fst (trace t n).

Lemma body_ok T tid body :
  Forall (tree_ok T tid) body -> forall s l n sp, thread_ok T s tid l n -> propers tid sp body ->
    Forall (fun f => sp <= entry_sp f) l -> zlen l + Z.of_nat (heights body) <= 32 ->
    thread_ok T (run_calls body s) tid l (snd (traces body n)) /\ keys (run_calls body s) = keys s ++ fst (traces body n).
Proof.
  induction 1 as [|t body Ht Hb IH]; intros s l n sp Hok Hp Hl Hh; cbn [run_calls traces].
  { rewrite app_nil_r. auto. }
  destruct Hp as [Hp Hps]. cbn [heights] in Hh. destruct (Ht s l n sp Hok Hp Hl ltac:(lia)) as [H1 H2].
  destruct (trace t n) as [a n1]. cbn [fst snd] in *. destruct (IH _ l n1 sp H1 Hps Hl ltac:(lia)) as [H3 H4].
  destruct (traces body n1) as [b n2]. cbn [fst snd] in *. split; [exact H3|]. now rewrite H4, H2, app_assoc.
Qed.

Lemma every_tree_ok T tid t : (size T <= DEPTH_CAP)%nat -> tid ∈ T -> tree_ok T tid t.
Proof.
  intros HT Ht. induction t as [ro cin cout body IHb] using call_rect'. intros s l n sp Hok Hp Hl Hh.
  cbn [run_call trace proper height] in *.
  change (fix go (l : list call) (s : funcs) : funcs := match l with [] => s | t :: l0 => go l0 (run_call t s) end) with run_calls.
  fold traces. fold heights in Hh. fold (propers tid (c_sp (f_c cin))) in Hp.
  destruct Hp as (P1 & P2 & P3 & P4 & P5 & P6 & P7 & P8).
  assert (Hl' : Forall (fun f => c_sp (f_c cin) <= entry_sp f) l) by (revert Hl; apply List.Forall_impl; intros f Hf; lia).
  destruct (enter_spec T ro cin s tid l n Hok HT Ht P1 P3 P5 Hl' ltac:(lia)) as [E1 E2]. cbv zeta in E1, E2.
  set (id := u64 (n + 1)) in *.
  destruct (body_ok T tid body IHb _ _ id (c_sp (f_c cin)) E1 P8) as [B1 B2].
  { apply List.Forall_cons; [simpl; lia|exact Hl']. }
  { rewrite zlen_cons. lia. }
  destruct (traces body id) as [inner n'] eqn:Et. cbn [fst snd] in *.
  destruct (leave_spec T cout _ tid _ l n' B1 Ht P2 P4 P6) as [L1 L2]. split; [exact L1|].
  rewrite L2, B2, E2. cbn [span_id entry_addr timestamp frame_of]. now rewrite <- !app_assoc.
Qed.
End Trees.

(** C14: calls and returns pair.  For every tree of probed calls of a thread, at most
    32 deep together with what is open, with room in the ring buffer, the programs
    leave exactly the paired records of the tree: each call's record and its return
    carry the same fresh span id and function, nested as the calls are, the return
    with the time spent; the thread's open frames are as before. *)
Theorem call_tree_pairs target_uids target_pids snapshot_enabled sockaddr_capture evict T tid t s l sp :
  (size T <= DEPTH_CAP)%nat -> tid ∈ T -> thread_ok T s tid l (span_seq (f_maps s)) ->
  proper target_uids target_pids tid sp t -> Forall (fun f => sp <= entry_sp f) l -> zlen l + Z.of_nat (height t) <= 32 ->
  let s' := run_call target_uids target_pids snapshot_enabled sockaddr_capture evict t s in
  keys s' = keys s ++ fst (trace t (span_seq (f_maps s))) /\ stack_of (f_maps s') tid = l.
Proof.
  intros HT Ht Hok Hp Hl Hh. cbv zeta.
  destruct (every_tree_ok target_uids target_pids snapshot_enabled sockaddr_capture evict T tid t HT Ht s l _ sp Hok Hp Hl Hh) as [H1 H2].
  split; [exact H2|apply H1].
Qed.

(** ** Lost and capped calls *)

Definition ex_ctx (pc sp now : Z) (room : bool) : fctx :=
  mk_fctx (mk_ctx 10001 (Z.lor (Z.shiftl 100 32) 7) pc sp (repeat 0 31) now room (fun _ => None) (fun _ _ => None))
    true [pc] [] 1 0 0.
Definition ex_s : funcs := mk_funcs maps_empty ∅ [] 0.
Definition ex_uids : gset Z := {[10001]}.
Definition ex_open := uprobe_open ex_uids ∅ false false (fun s => s).
Definition ex_ret := uretprobe_open ex_uids ∅.

(** A call whose record finds no room takes its frame off again, but its return
    program still runs: it reports the enclosing function as returned, with the time
    of the inner return, and the enclosing function's own return is lost. *)
Theorem lost_call_closes_its_caller :
  keys (ex_ret (ex_ctx 0 0x7f40 90 true) (ex_ret (ex_ctx 0 0x7f00 30 true)
    (ex_open (ex_ctx 0x5000 0x7f00 20 false) (ex_open (ex_ctx 0x4000 0x7f40 10 true) ex_s)))) =
  [(false, 1, 0x4000, 10); (true, 1, 0x4000, 20)].
Proof. vm_compute. reflexivity. Qed.

(** [n] nested calls of functions at 0x4000, 0x4001, ... *)
Fixpoint nested (n : nat) (k : Z) (s : funcs) : funcs :=
  match n with
  | O => s
  | S n => nested n (k + 1) (ex_open (ex_ctx (0x4000 + k) (0x8000 - k) (10 + k) true) s)
  end.

(** Beyond 32 nested calls the call record carries id 0, but its return takes the
    frame of the 32nd: that call is reported as returned while it is still running. *)
Theorem capped_call_closes_its_caller :
  drop 32 (keys (ex_ret (ex_ctx 0 0x7000 100 true) (nested 33 0 ex_s))) =
  [(false, 0, 0x4000 + 32, 42); (true, 32, 0x4000 + 31, 59)].
Proof. vm_compute. reflexivity. Qed.

(** ** Witness *)

Definition ex_tree : call :=
  Call false (ex_ctx 0x4000 0x7f40 10 true) (ex_ctx 0 0x7f40 90 true)
    [Call true (ex_ctx 0x5000 0x7f00 20 true) (ex_ctx 0 0x7f00 30 true) [];
     Call false (ex_ctx 0x6000 0x7f00 40 true) (ex_ctx 0 0x7f00 55 true) []].

Lemma call_tree_pairs_witness :
  keys (run_call ex_uids ∅ true false (fun s => s) ex_tree ex_s) =
    [(false, 1, 0x4000, 10); (true, 2, 0x5000, 10); (false, 3, 0x6000, 40); (true, 3, 0x6000, 15); (true, 1, 0x4000, 80)].
Proof.
  destruct (call_tree_pairs ex_uids ∅ true false (fun s => s) {[7]} 7 ex_tree ex_s [] 0x8000) as [E _].
  - rewrite size_singleton. unfold DEPTH_CAP. lia.
  - set_solver.
  - constructor; [apply maps_empty_inv|reflexivity|simpl; set_solver|reflexivity].
  - cbn. repeat split; try reflexivity; discriminate.
  - apply List.Forall_nil.
  - vm_compute. discriminate.
  - rewrite E. vm_compute. reflexivity.
Defined.
