(* ===== verification/SysTables.v ===== *)
(** * SysTables: syscall names, argument tables and the syscall filter

    - the dense name index of common/syscall_index.h and [sysname], [sysnr] of
      syscalls/syscalls.c;
    - the sparse argument tables of common/syscall_argtypes.c, their dense copies in
      syscalls.c and their installation in the BPF arrays;
    - the comma-separated selections: [install_syscall_filter] (syscalls.c),
      [sysc_list_contains], [sysc_scope_split] (scope.h) and the test of the BPF
      program, [syscall_wanted] (syscalls.bpf.c).

    The name table is generated from the headers of the target; it is an argument. *)

From Stdlib Require Import ZArith Lia.
From Stdlib.Strings Require Import Byte String.
From stdpp Require Import base list option numbers.
From S2P Require Import Prelude Elf Emit Correlate ProbeSpec.

Local Open Scope Z_scope.
Local Open Scope list_scope.

Definition ANUBEE_SYS_NR_CAP : nat := 512.
Definition ARG_TBL_CAP : nat := 512.
Definition SYSC_SYSCALL_NARGS := 6.

Definition s8 (z : Z) : Z := (z + 2 ^ 7) mod 2 ^ 8 - 2 ^ 7.

(** ** Dense tables *)

(** A table of [cap] entries, [d] where the rows say nothing; later rows win. *)
Definition scatter {V} (cap : nat) (d : V) (rows : list (Z * V)) : list V :=
  fold_left (fun t r => if (0 <=? fst r) && (fst r <? Z.of_nat cap) then <[Z.to_nat (fst r) := snd r]> t else t)
    rows (replicate cap d).

(** The first row of a number, compared as unsigned 64-bit values. *)
Definition row_of {V} (rows : list (Z * V)) (nr : Z) : option V :=
  snd <$> find (fun r => u64 (fst r) =? nr) rows.

Record anubee_sysindex := mk_sysindex { by_nr : list (option (list byte)); ix_table : list (Z * list byte) }.

Definition anubee_sysindex_build (table : list (Z * list byte)) : anubee_sysindex :=
  mk_sysindex (scatter ANUBEE_SYS_NR_CAP None (map (fun r => (fst r, Some (snd r))) table)) table.

Definition anubee_sysindex_name (ix : anubee_sysindex) (nr : Z) : option (list byte) :=
  let hot := if (0 <=? nr) && (nr <? Z.of_nat ANUBEE_SYS_NR_CAP) then nth (Z.to_nat nr) (by_nr ix) None else None in
  match hot with
  | Some n => Some n
  | None => snd <$> find (fun r => fst r =? nr) (ix_table ix)
  end.

Definition dec (nr : Z) : list byte := match dec_text nr with Ret t => t | _ => [] end.

Definition sysname (ix : anubee_sysindex) (nr : Z) (compat : bool) : list byte :=
  if compat then snprintf_s 32 (bytes_of "compat_syscall_" ++ dec nr) else
  match anubee_sysindex_name ix (s64 nr) with
  | Some n => n
  | None => snprintf_s 32 (bytes_of "sys_" ++ dec nr)
  end.

(** Number of a name, -1 when there is none. *)
Definition sysnr (table : list (Z * list byte)) (name : list byte) : Z :=
  match find (fun r => bool_decide (snd r = name)) table with Some r => fst r | None => -1 end.

(** ** Argument tables *)

Definition arg_count (rows : list (Z * Z)) (nr : Z) : Z := default 6 (row_of rows nr).
Definition arg_fd_mask (rows : list (Z * Z)) (nr : Z) : Z := default 0 (row_of rows nr).
Definition arg_sock_index (rows : list (Z * Z)) (nr : Z) : Z := default (-1) (row_of rows nr).

Record arg_tables := mk_arg_tables { g_argc_by_nr : list Z; g_fdmask_by_nr : list Z; g_sockidx_by_nr : list Z }.

Definition build_arg_tables (counts fds socks : list (Z * Z)) : arg_tables :=
  mk_arg_tables (scatter ARG_TBL_CAP SYSC_SYSCALL_NARGS counts) (scatter ARG_TBL_CAP 0 fds)
    (scatter ARG_TBL_CAP (-1) (map (fun r => (fst r, s8 (snd r))) socks)).

Definition arg_count_cached (t : arg_tables) (counts : list (Z * Z)) (nr : Z) : Z :=
  if nr <? Z.of_nat ARG_TBL_CAP then nth (Z.to_nat nr) (g_argc_by_nr t) 0 else arg_count counts nr.
Definition arg_fd_mask_cached (t : arg_tables) (fds : list (Z * Z)) (nr : Z) : Z :=
  if nr <? Z.of_nat ARG_TBL_CAP then nth (Z.to_nat nr) (g_fdmask_by_nr t) 0 else default 0 (row_of fds nr).
Definition arg_sock_index_cached (t : arg_tables) (socks : list (Z * Z)) (nr : Z) : Z :=
  if nr <? Z.of_nat ARG_TBL_CAP then nth (Z.to_nat nr) (g_sockidx_by_nr t) 0 else default (-1) (row_of socks nr).

(** One update of a BPF array of 512 bytes. *)
Definition array_set (a : list Z) (k v : Z) : list Z := if k <? 512 then <[Z.to_nat k := v]> a else a.

Definition install_arg_types (rows : list (Z * Z)) (a : list Z) : list Z :=
  fold_left (fun a r => array_set a (u32 (fst r)) (snd r)) rows a.
Definition install_sock_args (rows : list (Z * Z)) (a : list Z) : list Z :=
  fold_left (fun a r => array_set a (u32 (fst r)) (u8 (snd r + 1))) rows a.

(** ** The syscall filter *)

(** The entries of a selection: its text is cut at 1023 bytes. *)
Definition list_tokens (l : list byte) : list (list byte) := map skip_spaces (tokens (snprintf_s 1024 l) []).

Section Filter.
Context (table : list (Z * list byte)).

(** The loop over the entries: count of newly flagged syscalls, and the map. *)
Fixpoint install_loop (toks : list (list byte)) (count : Z) (filter : list Z) : Z * list Z :=
  match toks with
  | [] => (count, filter)
  | t :: toks =>
      if bool_decide (t = []) then install_loop toks count filter else
      let nr := sysnr table t in
      if (nr <? 0) || (512 <=? nr) then install_loop toks count filter else
      let already_set := negb (nth (Z.to_nat nr) filter 0 =? 0) in
      install_loop toks (if already_set then count else count + 1) (<[Z.to_nat nr := 1]> filter)
  end.

Definition install_syscall_filter (l : list byte) (filter : list Z) : Z * list Z := install_loop (list_tokens l) 0 filter.
End Filter.

Definition sysc_list_contains (l : list byte) (name : list byte) : bool :=
  existsb (fun t => bool_decide (t = name)) (list_tokens l).

Definition syscall_wanted (mode : Z) (filter : list Z) (nr : Z) : bool :=
  if mode =? 0 then true else
  let k := u32 nr in
  if k >=? ARG_TYPES_MAX then mode =? 2 else
  let flagged := negb (nth (Z.to_nat k) filter 0 =? 0) in
  if mode =? 1 then flagged else negb flagged.

(** Text before the first '!', and what follows it. *)
Fixpoint cut_bang (s : list byte) : option (list byte * list byte) :=
  match s with
  | [] => None
  | c :: s => if bool_decide (c = x21) then Some ([], s) else (fun p => (c :: fst p, snd p)) <$> cut_bang s
  end.

Inductive split_result := Unscoped | Malformed | Scoped (libpat name : list byte).

Definition sysc_scope_split (mod_ : list byte) (libpat_sz name_sz : Z) : split_result :=
  match cut_bang mod_ with
  | None => Unscoped
  | Some (lp, nm) =>
      if (zlen lp =? 0) || (libpat_sz <=? zlen lp) || (zlen nm =? 0) || (name_sz <=? zlen nm) then Malformed
      else Scoped lp nm
  end.

(** ** Dense and sparse tables agree *)

(** Rows of distinct syscall numbers. *)
Definition rows_ok {V} (rows : list (Z * V)) : Prop := NoDup (map fst rows) /\ Forall (fun r => 0 <= fst r < 2 ^ 31) rows.

Lemma find_none_fst {V} (rows : list (Z * V)) n : n ∉ map fst rows -> find (fun r => fst r =? n) rows = None.
Proof.
  induction rows as [|r rows IH]; intros Hn; [reflexivity|]. cbn in *. apply not_elem_of_cons in Hn as [H1 H2].
  rewrite (proj2 (Z.eqb_neq _ _)) by auto. auto.
Qed.

(** One pass of updates, whatever the guard on the index. *)
Lemma updates_row {V W} (g : W -> V) (ok : Z -> bool) (rows : list (Z * W)) n x (t : list V) :
  NoDup (map fst rows) -> Forall (fun r => 0 <= fst r) rows -> 0 <= n < zlen t -> ok n = true ->
  nth (Z.to_nat n) (fold_left (fun t r => if ok (fst r) then <[Z.to_nat (fst r) := g (snd r)]> t else t) rows t) x =
  default (nth (Z.to_nat n) t x) (g ∘ snd <$> find (fun r => fst r =? n) rows).
Proof.
  revert t. induction rows as [|[m v] rows IH]; intros t Hd Hp Hn Hok; [reflexivity|]. cbn [fold_left fst snd].
  cbn in Hd. apply list.NoDup_cons in Hd as [Hm Hd]. apply list.Forall_cons in Hp as [Hm0 Hp]. cbn in Hm0.
  assert (Hl : zlen (if ok m then <[Z.to_nat m := g v]> t else t) = zlen t) by (destruct (ok m); unfold zlen; now rewrite ?length_insert).
  rewrite IH by (rewrite ?Hl; auto). cbn [find fst]. destruct (Z.eqb_spec m n) as [->|Hne].
  - rewrite find_none_fst by exact Hm. rewrite Hok. cbn. rewrite nth_lookup, list_lookup_insert_eq by (unfold zlen in Hn; lia). reflexivity.
  - f_equal. destruct (ok m); [|reflexivity]. rewrite !nth_lookup, list_lookup_insert_ne by lia. reflexivity.
Qed.

Lemma find_map_fst {V W} (g : V -> W) (rows : list (Z * V)) n :
  find (fun r => fst r =? n) (map (fun r => (fst r, g (snd r))) rows) = (fun r => (fst r, g (snd r))) <$> find (fun r => fst r =? n) rows.
Proof. induction rows as [|r rows IH]; [reflexivity|]. cbn. destruct (fst r =? n); [reflexivity|exact IH]. Qed.

Lemma row_of_fst {V} (rows : list (Z * V)) n :
  Forall (fun r => 0 <= fst r < 2 ^ 31) rows -> row_of rows n = snd <$> find (fun r => fst r =? n) rows.
Proof.
  unfold row_of. induction 1 as [|r rows Hr _ IH]; [reflexivity|]. cbn [find]. rewrite u64_small by lia.
  destruct (fst r =? n); [reflexivity|exact IH].
Qed.

Lemma nonneg_rows {V} (rows : list (Z * V)) : Forall (fun r => 0 <= fst r < 2 ^ 31) rows -> Forall (fun r => 0 <= fst r) rows.
Proof. apply List.Forall_impl. intros. lia. Qed.

Lemma scatter_row {V} cap (d : V) rows n x :
  rows_ok rows -> 0 <= n < Z.of_nat cap -> nth (Z.to_nat n) (scatter cap d rows) x = default d (row_of rows n).
Proof.
  intros [Hd Hb] Hn. unfold scatter. rewrite (updates_row (fun v => v) (fun m => (0 <=? m) && (m <? Z.of_nat cap))).
  - rewrite row_of_fst by exact Hb. rewrite nth_lookup, lookup_replicate_2 by lia. now destruct (find _ rows).
  - exact Hd.
  - now apply nonneg_rows.
  - unfold zlen. rewrite length_replicate. exact Hn.
  - apply andb_true_iff. split; [apply Z.leb_le|apply Z.ltb_lt]; lia.
Qed.

Lemma rows_ok_map {V W} (g : V -> W) rows : rows_ok rows -> rows_ok (map (fun r => (fst r, g (snd r))) rows).
Proof.
  intros [Hd Hb]. split; [rewrite map_map; exact Hd|]. apply List.Forall_map. exact Hb.
Qed.

Lemma install_row (g : Z -> Z) rows n :
  rows_ok rows -> 0 <= n < 512 ->
  nth (Z.to_nat n) (fold_left (fun a r => array_set a (u32 (fst r)) (g (snd r))) rows (replicate 512 0)) 0 =
  default 0 (g <$> row_of rows n).
Proof.
  intros [Hd Hb] Hn.
  assert (E : forall a, fold_left (fun a r => array_set a (u32 (fst r)) (g (snd r))) rows a =
                        fold_left (fun a r => if fst r <? 512 then <[Z.to_nat (fst r) := g (snd r)]> a else a) rows a).
  { clear Hd. induction Hb as [|r rows Hr Hb IH]; intros a; [reflexivity|]. cbn [fold_left]. rewrite IH. unfold array_set.
    now rewrite u32_small by lia. }
  rewrite E, (updates_row g (fun m => m <? 512)); [|exact Hd|now apply nonneg_rows|unfold zlen; rewrite length_replicate; lia|apply Z.ltb_lt; lia].
  rewrite row_of_fst by exact Hb. rewrite nth_lookup, lookup_replicate_2 by lia. now destruct (find _ rows).
Qed.

Lemma s8_small z : - 2 ^ 7 <= z < 2 ^ 7 -> s8 z = z.
Proof. intros. unfold s8. rewrite Z.mod_small; lia. Qed.

Lemma row_of_map {V W} (g : V -> W) rows n : row_of (map (fun r => (fst r, g (snd r))) rows) n = g <$> row_of rows n.
Proof. unfold row_of. induction rows as [|r rows IH]; [reflexivity|]. cbn. destruct (_ =? n); [reflexivity|exact IH]. Qed.

Lemma row_of_in {V} (rows : list (Z * V)) n v : row_of rows n = Some v -> exists r, r ∈ rows /\ snd r = v.
Proof.
  unfold row_of. intros H. destruct (find _ rows) as [r|] eqn:E; [|discriminate]. injection H as <-. apply find_some in E as [E _].
  exists r. now rewrite list_elem_of_In.
Qed.

(** The name index answers as a search of the name table does. *)
Lemma sysindex_search table nr :
  rows_ok table -> 0 <= nr < 2 ^ 64 -> anubee_sysindex_name (anubee_sysindex_build table) (s64 nr) = row_of table nr.
Proof.
  intros Ht Hn. unfold anubee_sysindex_name, anubee_sysindex_build. cbn [by_nr ix_table].
  destruct (Z_lt_le_dec nr (2 ^ 63)) as [Hs|Hs].
  - rewrite s64_small by lia. rewrite <- row_of_fst by apply Ht. change (Z.of_nat ANUBEE_SYS_NR_CAP) with 512.
    destruct (0 <=? nr) eqn:E0, (nr <? 512) eqn:E1; b2p; try reflexivity; cbn [andb].
    rewrite (scatter_row ANUBEE_SYS_NR_CAP None _ nr None); [|now apply rows_ok_map|change (Z.of_nat ANUBEE_SYS_NR_CAP) with 512; lia].
    rewrite row_of_map. now destruct (row_of table nr).
  - assert (Hneg : s64 nr < 0).
    { unfold s64. rewrite (Z.mod_eq (nr + 2 ^ 63)) by lia. assert ((nr + 2 ^ 63) / 2 ^ 64 = 1) by (symmetry; apply (Z.div_unique _ _ _ (nr - 2 ^ 63)); lia). lia. }
    rewrite (proj2 (Z.leb_gt 0 _)) by exact Hneg. cbn [andb]. rewrite <- row_of_fst by apply Ht.
    rewrite !row_of_fst by apply Ht. rewrite !find_none_fst; [reflexivity| |].
    + intros Hi. apply list_elem_of_fmap in Hi as (r & -> & Hr). destruct Ht as [_ Hb]. rewrite list.Forall_forall in Hb. apply Hb in Hr. lia.
    + intros Hi. apply list_elem_of_fmap in Hi as (r & E & Hr). destruct Ht as [_ Hb]. rewrite list.Forall_forall in Hb. apply Hb in Hr. lia.
Qed.

(** The dense tables are faithful.  For tables with one row per syscall number,
    the cached argument count, descriptor mask and address index of every 64-bit
    number, and the name index, are what a search of the table gives; and the arrays
    of the BPF program hold the string mask and, shifted by one, the address index of
    the same tables. *)
Theorem dense_tables_agree counts strs fds socks table nr :
  rows_ok counts -> rows_ok strs -> rows_ok fds -> rows_ok socks -> rows_ok table ->
  Forall (fun r => 0 <= snd r < 6) socks -> 0 <= nr < 2 ^ 64 ->
  let t := build_arg_tables counts fds socks in
  arg_count_cached t counts nr = arg_count counts nr /\
  arg_fd_mask_cached t fds nr = arg_fd_mask fds nr /\
  arg_sock_index_cached t socks nr = arg_sock_index socks nr /\
  anubee_sysindex_name (anubee_sysindex_build table) (s64 nr) = row_of table nr /\
  table_at (install_arg_types strs (replicate 512 0)) nr = (if nr <? 512 then default 0 (row_of strs nr) else 0) /\
  table_at (install_sock_args socks (replicate 512 0)) nr = (if nr <? 512 then arg_sock_index socks nr + 1 else 0).
Proof.
  intros Hc Hs Hf Hk Ht Ha Hn. cbv zeta. unfold arg_count_cached, arg_fd_mask_cached, arg_sock_index_cached.
  change (Z.of_nat ARG_TBL_CAP) with 512. cbn [g_argc_by_nr g_fdmask_by_nr g_sockidx_by_nr build_arg_tables].
  assert (Hsock : forall a, row_of socks nr = Some a -> 0 <= a < 6).
  { intros a E. apply row_of_in in E as (r & Hr & <-). rewrite list.Forall_forall in Ha. now apply Ha. }
  split_and!.
  - destruct (nr <? 512) eqn:E; b2p; [|reflexivity]. now rewrite (scatter_row ARG_TBL_CAP) by (auto; change (Z.of_nat ARG_TBL_CAP) with 512; lia).
  - destruct (nr <? 512) eqn:E; b2p; [|reflexivity]. now rewrite (scatter_row ARG_TBL_CAP) by (auto; change (Z.of_nat ARG_TBL_CAP) with 512; lia).
  - destruct (nr <? 512) eqn:E; b2p; [|reflexivity].
    rewrite (scatter_row ARG_TBL_CAP) by (try apply rows_ok_map; auto; change (Z.of_nat ARG_TBL_CAP) with 512; lia).
    rewrite row_of_map. unfold arg_sock_index. destruct (row_of socks nr) as [a|]; [|reflexivity]. specialize (Hsock a eq_refl).
    cbn. apply s8_small. lia.
  - now apply sysindex_search.
  - unfold table_at, install_arg_types. change ARG_TYPES_MAX with 512. destruct (nr <? 512) eqn:E; b2p; [|reflexivity].
    rewrite (install_row (fun v => v)) by (auto; lia). now destruct (row_of strs nr).
  - unfold table_at, install_sock_args. change ARG_TYPES_MAX with 512. destruct (nr <? 512) eqn:E; b2p; [|reflexivity].
    rewrite (install_row (fun v => u8 (v + 1))) by (auto; lia). unfold arg_sock_index.
    destruct (row_of socks nr) as [a|]; [|reflexivity]. specialize (Hsock a eq_refl). cbn. unfold u8. rewrite Z.mod_small; lia.
Qed.

Lemma dense_tables_agree_witness :
  arg_count_cached (build_arg_tables [(56, 4); (203, 3)] [(57, 1)] [(203, 1); (206, 4)]) [(56, 4); (203, 3)] 203 = 3.
Proof.
  destruct (dense_tables_agree [(56, 4); (203, 3)] [(56, 2)] [(57, 1)] [(203, 1); (206, 4)] [(56, bytes_of "openat")] 203) as [E _].
  1-5: split; [cbn; repeat (apply list.NoDup_cons; split; [rewrite ?elem_of_cons, elem_of_nil; lia|]); apply NoDup_nil_2|repeat constructor; cbn; lia].
  - repeat constructor; cbn; lia.
  - lia.
  - rewrite E. reflexivity.
Defined.

(** ** The filter selects what is listed *)

Lemma find_name_in (table : list (Z * list byte)) nr name :
  NoDup (map snd table) -> (nr, name) ∈ table -> sysnr table name = nr.
Proof.
  unfold sysnr. induction table as [|[m x] table IH]; intros Hd Hi; [now apply not_elem_of_nil in Hi|]. cbn in *.
  apply list.NoDup_cons in Hd as [Hx Hd]. apply elem_of_cons in Hi as [E|Hi].
  - injection E as -> ->. now rewrite bool_decide_true.
  - rewrite bool_decide_false; [now apply IH|]. intros ->. apply Hx, list_elem_of_fmap. now exists (nr, name).
Qed.

Lemma sysnr_in (table : list (Z * list byte)) t nr : sysnr table t = nr -> 0 <= nr -> (nr, t) ∈ table.
Proof.
  unfold sysnr. destruct (find _ table) as [[m x]|] eqn:E; intros <- H0; [|cbn in H0; lia].
  apply find_some in E as [Hi Hx]. apply bool_decide_eq_true in Hx. cbn in *. subst. now apply list_elem_of_In.
Qed.

(** Flags: a listed name's entry is 1, any other is as it was; the count is that of
    the entries that became set. *)
Definition fits (nr : Z) : bool := (0 <=? nr) && (nr <? 512).
Definition set_flags (l : list Z) : nat := length (filter (fun v => v <> 0) l).

Lemma set_flags_insert l i v :
  l !! i = Some v -> (set_flags (<[i := 1%Z]> l) = set_flags l + if (v =? 0)%Z then 1 else 0)%nat.
Proof.
  unfold set_flags. revert i. induction l as [|x l IH]; intros [|i] E; [discriminate|discriminate| |].
  - change (<[0%nat := 1%Z]> (x :: l)) with (1%Z :: l). rewrite filter_cons_True by lia. cbn in E. assert (v = x) as -> by congruence. destruct (Z.eqb_spec x 0) as [->|].
    + rewrite filter_cons_False by lia. cbn [length]. lia.
    + rewrite filter_cons_True by lia. cbn [length]. lia.
  - specialize (IH i E). change (<[S i := 1%Z]> (x :: l)) with (x :: <[i := 1%Z]> l).
    destruct (decide (x = 0)); [rewrite !filter_cons_False by lia|rewrite !filter_cons_True by lia; cbn [length]]; lia.
Qed.

Lemma install_loop_spec table toks count f :
  length f = 512%nat ->
  let r := install_loop table toks count f in
  length (snd r) = 512%nat /\
  (forall n, 0 <= n < 512 -> nth (Z.to_nat n) (snd r) 0 =
     if existsb (fun t => negb (bool_decide (t = [])) && (sysnr table t =? n)) toks then 1 else nth (Z.to_nat n) f 0) /\
  fst r - count = Z.of_nat (set_flags (snd r)) - Z.of_nat (set_flags f).
Proof.
  cbv zeta. revert count f. induction toks as [|t toks IH]; intros count f Hl; cbn [install_loop existsb].
  { split; [exact Hl|]. split; [reflexivity|]. cbn [fst snd]. lia. }
  case_bool_decide as Et; [cbn [negb andb orb]; now apply IH|]. cbn [negb andb]. cbv zeta.
  destruct ((sysnr table t <? 0) || (512 <=? sysnr table t)) eqn:Er.
  { destruct (IH count f Hl) as (H1 & H2 & H3). split; [exact H1|]. split; [|exact H3]. intros n Hn. rewrite H2 by exact Hn.
    replace (sysnr table t =? n) with false; [reflexivity|]. symmetry. apply Z.eqb_neq. b2p. lia. }
  apply orb_false_iff in Er as [E1 E2]. b2p. set (m := sysnr table t) in *.
  destruct (lookup_lt_is_Some_2 f (Z.to_nat m) ltac:(lia)) as [v Hv].
  set (f' := <[Z.to_nat m := 1]> f). assert (Hl' : length f' = 512%nat) by (unfold f'; now rewrite length_insert).
  destruct (IH (if negb (nth (Z.to_nat m) f 0 =? 0) then count else count + 1) f' Hl') as (H1 & H2 & H3). split; [exact H1|]. split.
  - intros n Hn. rewrite H2 by exact Hn. destruct (Z.eqb_spec m n) as [->|Hne]; cbn [orb].
    + destruct (existsb _ toks); [reflexivity|]. unfold f'. rewrite nth_lookup, list_lookup_insert_eq by lia. reflexivity.
    + destruct (existsb _ toks); [reflexivity|]. unfold f'. rewrite !nth_lookup, list_lookup_insert_ne by lia. reflexivity.
  - assert (Ev : nth (Z.to_nat m) f 0 = v) by (rewrite nth_lookup, Hv; reflexivity).
    pose proof (set_flags_insert f (Z.to_nat m) v Hv) as Hi. fold f' in Hi. rewrite Ev in *. destruct (v =? 0); cbn [negb] in *; lia.
Qed.

Lemma existsb_same {A} (f g : A -> bool) l : (forall x, f x = g x) -> existsb f l = existsb g l.
Proof. intros H. induction l as [|x l IH]; cbn; [reflexivity|]. now rewrite H, IH. Qed.

(** The filter selects what is listed.  For a table of distinct names and numbers
    below 512 and any selection text, every syscall of the table passes the allowlist of
    the BPF program iff the scoping check finds it in the text, and the denylist iff it
    does not; a number the table does not have passes only the denylist; the count
    reported is that of the syscalls flagged, so an allowlist of count 0 passes nothing. *)
Theorem filter_selects_listed table l :
  NoDup (map snd table) -> NoDup (map fst table) -> Forall (fun r => 0 <= fst r < 512 /\ snd r <> []) table ->
  let r := install_syscall_filter table l (replicate 512 0) in
  (forall nr name, (nr, name) ∈ table ->
     syscall_wanted 1 (snd r) nr = sysc_list_contains l name /\ syscall_wanted 2 (snd r) nr = negb (sysc_list_contains l name)) /\
  (forall nr, 0 <= nr < 2 ^ 32 -> nr ∉ map fst table -> syscall_wanted 1 (snd r) nr = false /\ syscall_wanted 2 (snd r) nr = true) /\
  fst r = zlen (filter (fun v => v <> 0) (snd r)).
Proof.
  intros Hs Hf Hb. cbv zeta. unfold install_syscall_filter.
  destruct (install_loop_spec table (list_tokens l) 0 (replicate 512 0)) as (H1 & H2 & H3); [now rewrite length_replicate|].
  set (r := install_loop _ _ _ _) in *. assert (H0 : set_flags (replicate 512 0) = 0%nat) by reflexivity. rewrite list.Forall_forall in Hb.
  assert (Hflag : forall n, 0 <= n < 512 -> forall mode, mode = 1 \/ mode = 2 -> syscall_wanted mode (snd r) n =
    (if mode =? 1 then id else negb) (existsb (fun t => negb (bool_decide (t = [])) && (sysnr table t =? n)) (list_tokens l))).
  { intros n Hn mode Hm. unfold syscall_wanted. rewrite u32_small by lia. rewrite Z.geb_leb, (proj2 (Z.leb_gt ARG_TYPES_MAX n)) by (unfold ARG_TYPES_MAX; lia).
    rewrite H2 by exact Hn. rewrite nth_lookup, lookup_replicate_2 by lia. cbn [default].
    destruct Hm as [-> | ->]; cbn [Z.eqb Pos.eqb id]; destruct (existsb _ _); reflexivity. }
  split_and!.
  - intros nr name Hi. pose proof (Hb _ Hi) as [Hr Hne]. cbn in Hr, Hne. rewrite !Hflag by auto. cbn [Z.eqb Pos.eqb id].
    replace (existsb _ (list_tokens l)) with (sysc_list_contains l name); [auto|]. unfold sysc_list_contains.
    apply existsb_same. intros t. apply eq_true_iff_eq. rewrite andb_true_iff, negb_true_iff, bool_decide_eq_true, bool_decide_eq_false, Z.eqb_eq. split.
    + intros ->. split; [exact Hne|]. now apply find_name_in.
    + intros [_ E]. apply sysnr_in in E; [|lia]. clear -E Hi Hf. induction table as [|[m x] table IH]; [now apply not_elem_of_nil in Hi|].
      cbn in Hf. apply list.NoDup_cons in Hf as [Hm Hf]. apply elem_of_cons in Hi as [Ei|Hi]; apply elem_of_cons in E as [Ee|E].
      * congruence.
      * injection Ei as <- <-. destruct Hm. apply list_elem_of_fmap. now exists (nr, t).
      * injection Ee as <- <-. destruct Hm. apply list_elem_of_fmap. now exists (nr, name).
      * now apply IH.
  - intros nr Hr Hni. destruct (Z_lt_le_dec nr 512) as [Hs5|Hs5].
    + rewrite !Hflag by (auto; lia). cbn [Z.eqb Pos.eqb id]. replace (existsb _ (list_tokens l)) with false; [auto|]. symmetry.
      apply not_true_iff_false. intros E. apply existsb_exists in E as (t & _ & E). apply andb_true_iff in E as [_ E]. apply Z.eqb_eq in E.
      apply sysnr_in in E; [|lia]. apply Hni, list_elem_of_fmap. now exists (nr, t).
    + unfold syscall_wanted. rewrite u32_small by lia. rewrite Z.geb_leb, (proj2 (Z.leb_le ARG_TYPES_MAX nr)) by exact Hs5. auto.
  - unfold set_flags in *. unfold zlen. lia.
Qed.

Definition ex_table : list (Z * list byte) := [(56, bytes_of "openat"); (57, bytes_of "close"); (63, bytes_of "read")].

Lemma filter_selects_listed_witness :
  let r := install_syscall_filter ex_table (bytes_of "read, openat,,opnat,read") (replicate 512 0) in
  syscall_wanted 1 (snd r) 56 = true /\ syscall_wanted 1 (snd r) 57 = false /\ fst r = 2.
Proof.
  cbv zeta. destruct (filter_selects_listed ex_table (bytes_of "read, openat,,opnat,read")) as (H1 & _ & H3).
  - cbn; repeat (apply list.NoDup_cons; split; [rewrite ?elem_of_cons, elem_of_nil; intuition discriminate|]); apply NoDup_nil_2.
  - cbn; repeat (apply list.NoDup_cons; split; [rewrite ?elem_of_cons, elem_of_nil; lia|]); apply NoDup_nil_2.
  - repeat constructor; cbn; try lia; discriminate.
  - destruct (H1 56 (bytes_of "openat")) as [-> _]; [apply elem_of_cons; auto|].
    destruct (H1 57 (bytes_of "close")) as [-> _]; [apply elem_of_cons; right; apply elem_of_cons; auto|].
    rewrite H3. vm_compute. auto.
Defined.

(** ** Scoped selections *)

(** A scoped selection splits into the pattern and the name it was made of, when both
    are there and fit; the first '!' separates them. *)
Theorem scope_split_inverts libpat name libpat_sz name_sz :
  x21 ∉ libpat -> 0 < zlen libpat < libpat_sz -> 0 < zlen name < name_sz ->
  sysc_scope_split (libpat ++ x21 :: name) libpat_sz name_sz = Scoped libpat name.
Proof.
  intros Hb Hl Hn. unfold sysc_scope_split.
  assert (E : cut_bang (libpat ++ x21 :: name) = Some (libpat, name)).
  { clear Hl. induction libpat as [|c l IH]; [reflexivity|]. apply not_elem_of_cons in Hb as [H1 H2]. cbn [cut_bang app].
    rewrite bool_decide_false by auto. now rewrite (IH H2). }
  rewrite E. repeat rewrite (proj2 (Z.eqb_neq _ _)) by lia. now rewrite !(proj2 (Z.leb_gt _ _)) by lia.
Qed.
