(* ===== verification/Syscalls.v ===== *)
(** * Syscalls: the syscall engine (src/syscalls/)

    - [on_svc_enter], [on_svc_enter_compat], [on_sys_exit] (syscalls.bpf.c) with the
      shared probes [on_uprobe_mmap], [on_uprobe_munmap] (common/lib_trace.bpf.h) and
      [anubee_follow_fork] (common/follow_fork.bpf.h);
    - [sysc_issuer_hit] (attribution.h), the selectors of lib_seed.h;
    - the user side of syscalls.c: arming of library ranges, per-syscall scopes, the
      drain thread, the tally, and the table that pairs entries with returns.

    A state [sys] holds the BPF maps, the ring buffer, the queue between the drain
    thread and the worker (a list: EvQueue shows that the byte ring is one) and the
    worker's tables.  The threads of the traced app, the drain thread and the worker
    act in any order.  A record of the output is the event with its id and its return
    value; its text, the console lines, and the caches behind them (symbols, descriptor
    paths, which [handle_return] also clears on close) are those of Emit, Symbolize and
    Caches and are not part of the state here. *)

From Stdlib Require Import ZArith Lia.
From Stdlib.Strings Require Import Byte.
From stdpp Require Import base list option numbers gmap fin_maps.
From S2P Require Import Prelude Elf SpanStack Correlate Funcs Modules SysTables.

Local Open Scope Z_scope.

Definition SYSC_MAX_STACK_DEPTH : nat := 32.
Definition SYSC_MAX_RANGES : nat := 8.
Definition SYSC_STAT_MAX : nat := 256.
Definition PENDING_CAP : nat := 4096.
Definition LIB_RANGES_CAP : nat := 64.
Definition TARGET_PIDS_CAP : nat := 64.
Definition LIBTRACE_VM_EXEC := 4.
Definition LIBTRACE_MAX_NAME : nat := 128.
Definition COV_PREARM : nat := 2.

(** ** Events *)

Record syscalls_syscall_event := mk_svc_event {
  sv_pid : Z; sv_tid : Z; sv_nr : Z; sv_ktime : Z; sv_compat : bool; sv_args : list Z; sv_stack_id : Z;
  sv_stack : list Z; sv_str_present : Z; sv_str : list (option (list byte)); sv_sock_len : Z; sv_sock : list byte
}.
Record syscalls_return_event := mk_ret_event { rv_pid : Z; rv_tid : Z; rv_retval : Z }.
Record lib_map_event := mk_map_event {
  lm_pid : Z; lm_tid : Z; lm_start : Z; lm_end : Z; lm_pgoff : Z; lm_flags : Z; lm_inode : Z; lm_dev : Z;
  lm_ppid : Z; lm_name : list byte
}.
Record lib_unmap_event := mk_unmap_event { lu_pid : Z; lu_tid : Z; lu_start : Z; lu_end : Z }.

Inductive sev :=
| SSyscall (e : syscalls_syscall_event)
| SMap (e : lib_map_event)
| SUnmap (e : lib_unmap_event)
| SReturn (e : syscalls_return_event)
| SStack (k : stack_record).

(** The first [count] entries of a range set. *)
Definition syscalls_lib_ranges := list (Z * Z).

(** ** Attribution and selectors *)

Definition sysc_issuer_hit (lr : syscalls_lib_ranges) (stack : list Z) : bool :=
  existsb (fun ip => existsb (fun r => (fst r <=? ip) && (ip <? snd r)) (take SYSC_MAX_RANGES lr)) (take 2 stack).

Section Selectors.
Context (fnmatch : list byte -> list byte -> bool).

Definition lib_selector_matches_name (base sel : list byte) : bool :=
  match sel with [] => false | _ => pm_match fnmatch sel base false end.

Definition lib_selector_matches_any (base : list byte) (sels : list (list byte)) : bool :=
  existsb (lib_selector_matches_name base) sels.

Definition lib_seed_line_arms (ml : anubee_map_line) (sel : list byte) : bool :=
  if negb (exec ml) || bool_decide (path ml = []) then false
  else lib_selector_matches_name (basename_of (path ml)) sel.

Definition lib_seed_line_arms_any (ml : anubee_map_line) (sels : list (list byte)) : bool :=
  existsb (lib_seed_line_arms ml) sels.
End Selectors.

(** ** The BPF programs *)

Record kern := mk_kern {
  k_pids : gset Z; k_pending : gmap Z Z; k_stacks : gset Z; k_cov : list Z; k_ring : list sev; k_dropped : Z
}.

Definition set_pending (k : kern) (p : gmap Z Z) : kern :=
  mk_kern (k_pids k) p (k_stacks k) (k_cov k) (k_ring k) (k_dropped k).
Definition kemit (k : kern) (e : sev) : kern :=
  mk_kern (k_pids k) (k_pending k) (k_stacks k) (k_cov k) (k_ring k ++ [e]) (k_dropped k).
Definition kbump (k : kern) : kern :=
  mk_kern (k_pids k) (k_pending k) (k_stacks k) (k_cov k) (k_ring k) (u64 (k_dropped k + 1)).
Definition kcov (slot : nat) (k : kern) : kern :=
  mk_kern (k_pids k) (k_pending k) (k_stacks k) (alter (fun c => u64 (c + 1)) slot (k_cov k)) (k_ring k) (k_dropped k).

(** What the mapping probes read of the area: the mapped file with its inode and its
    device, and its name. *)
Record vfile := mk_vfile { vf_inode : option (Z * Z); vf_name : option (list byte) }.
Record vma := mk_vma { vm_file : option vfile; vm_flags : Z; vm_start : Z; vm_end : Z; vm_pgoff : Z }.

Section Programs.
Context (target_uids : gset Z) (capture_all snapshot_enabled : bool) (syscall_filter_mode : Z).
Context (syscall_filter arg_types sock_args : list Z).
(** What the LRU set of seen stacks keeps when a key is added. *)
Context (evict : gset Z -> gset Z).

Definition untraced (c : fctx) (k : kern) : bool := gate target_uids (k_pids k) (f_c c).

Definition svc_stack (c : fctx) : list Z := take SYSC_MAX_STACK_DEPTH (f_stack c).

Definition svc_stack_id (c : fctx) : Z :=
  if snapshot_enabled && negb (length (svc_stack c) =? 0)%nat
  then anubee_hash_stack (svc_stack c) (c_pid (f_c c)) SYSC_MAX_STACK_DEPTH else 0.

(** On first sight of a stack: its record. *)
Definition svc_snapshot (c : fctx) (k : kern) : kern :=
  let sid := svc_stack_id c in
  if (sid =? 0) || bool_decide (sid ∈ k_stacks k) then k else
  let k := mk_kern (k_pids k) (k_pending k) ({[sid]} ∪ evict (k_stacks k)) (k_cov k) (k_ring k) (k_dropped k) in
  if negb (f_snap_room c) then kbump k else
  let r := snapshot_record c sid in
  kemit (if k_truncated r then kcov COV_TRUNC k else k) (SStack r).

Definition svc_args (c : fctx) : list Z := map (reg (f_c c)) (seq 0 CORR_SYS_ARGS).

Definition svc_event (c : fctx) : syscalls_syscall_event :=
  let args := svc_args c in
  let nr := reg (f_c c) 8 in
  let mask := table_at arg_types (u32 nr) in
  let '(present, strs) :=
    if mask =? 0 then (0, replicate CORR_STR_SLOTS None) else read_strings (f_c c) mask args 0 CORR_STR_SLOTS 0 in
  let '(sock_len, sock) := read_sock (f_c c) (table_at sock_args (u32 nr)) args in
  mk_svc_event (c_pid (f_c c)) (c_tid (f_c c)) nr (c_now (f_c c)) false args (svc_stack_id c) (svc_stack c)
    present strs sock_len sock.

Definition compat_event (c : fctx) : syscalls_syscall_event :=
  mk_svc_event (c_pid (f_c c)) (c_tid (f_c c)) (reg (f_c c) 7) (c_now (f_c c)) true (svc_args c) (svc_stack_id c)
    (svc_stack c) 0 (replicate CORR_STR_SLOTS None) 0 [].

(** The common part of the entry programs: gates on the armed ranges and on the
    issuer, snapshot, reservation; whether there is an event to submit. *)
Definition svc_gates (lr : gmap Z syscalls_lib_ranges) (c : fctx) (k : kern) : bool * kern :=
  let armed := default [] (lr !! c_pid (f_c c)) in
  if negb capture_all && (length armed =? 0)%nat then (false, kcov COV_PREARM k) else
  let stack := svc_stack c in
  let k := if (SYSC_MAX_STACK_DEPTH <=? length stack)%nat then kcov COV_DEPTH_CAP k else k in
  if negb capture_all && ((length stack =? 0)%nat || negb (sysc_issuer_hit armed stack)) then (false, k) else
  let k := svc_snapshot c k in
  if negb (c_reserve (f_c c)) then (false, kbump k) else (true, k).

Definition on_svc_enter (lr : gmap Z syscalls_lib_ranges) (c : fctx) (k : kern) : kern :=
  if untraced c k then k else
  if negb (syscall_wanted syscall_filter_mode syscall_filter (reg (f_c c) 8)) then k else
  let '(go, k) := svc_gates lr c k in
  if negb go then k else
  let k := kemit k (SSyscall (svc_event c)) in
  set_pending k (map_update PENDING_CAP (c_tid (f_c c)) (reg (f_c c) 8) (k_pending k)).

Definition on_svc_enter_compat (lr : gmap Z syscalls_lib_ranges) (c : fctx) (k : kern) : kern :=
  if untraced c k then k else
  let '(go, k) := svc_gates lr c k in
  if negb go then k else kemit k (SSyscall (compat_event c)).

Definition on_sys_exit (c : fctx) (ret : Z) (k : kern) : kern :=
  let tid := c_tid (f_c c) in
  match k_pending k !! tid with
  | None => k
  | Some _ =>
      let k := set_pending k (delete tid (k_pending k)) in
      if negb (c_reserve (f_c c)) then kbump k else kemit k (SReturn (mk_ret_event (c_pid (f_c c)) tid ret))
  end.

Definition on_uprobe_mmap (c : fctx) (v : vma) (k : kern) : kern :=
  if untraced c k then k else
  match vm_file v with
  | None => k
  | Some f =>
      if Z.land (vm_flags v) LIBTRACE_VM_EXEC =? 0 then k else
      if negb (c_reserve (f_c c)) then kbump k else
      let '(inode, dev) := default (0, 0) (vf_inode f) in
      kemit k (SMap (mk_map_event (c_pid (f_c c)) (c_tid (f_c c)) (vm_start v) (vm_end v) (vm_pgoff v) (vm_flags v)
                       inode dev (f_ppid c) (take (LIBTRACE_MAX_NAME - 1) (default [] (vf_name f)))))
  end.

Definition on_uprobe_munmap (c : fctx) (v : vma) (s e : Z) (k : kern) : kern :=
  if untraced c k then k else
  match vm_file v with
  | None => k
  | Some _ =>
      if Z.land (vm_flags v) LIBTRACE_VM_EXEC =? 0 then k else
      if negb (c_reserve (f_c c)) then kbump k else
      kemit k (SUnmap (mk_unmap_event (c_pid (f_c c)) (c_tid (f_c c)) s e))
  end.

Definition anubee_follow_fork (c : fctx) (child : Z) (k : kern) : kern :=
  if bool_decide (c_pid (f_c c) ∈ k_pids k) then
    let pids :=
      if bool_decide (u32 child ∈ k_pids k) || (size (k_pids k) <? TARGET_PIDS_CAP)%nat
      then {[u32 child]} ∪ k_pids k else k_pids k in
    mk_kern pids (k_pending k) (k_stacks k) (k_cov k) (k_ring k) (k_dropped k)
  else k.
End Programs.

(** ** Arming the library filter *)

(** A range set with one more range, when it is new and there is room for it. *)
Definition push_scope_range (lr : syscalls_lib_ranges) (s e : Z) : syscalls_lib_ranges :=
  if existsb (fun r => (fst r =? s) && (snd r =? e)) (take SYSC_MAX_RANGES lr) then lr
  else if (SYSC_MAX_RANGES <=? length lr)%nat then lr else lr ++ [(s, e)].

Definition push_lib_range (m : gmap Z syscalls_lib_ranges) (tgid s e : Z) : gmap Z syscalls_lib_ranges :=
  let lr := default [] (m !! tgid) in
  if existsb (fun r => (fst r =? s) && (snd r =? e)) (take SYSC_MAX_RANGES lr) then m
  else if (SYSC_MAX_RANGES <=? length lr)%nat then m
  else map_update LIB_RANGES_CAP tgid (lr ++ [(s, e)]) m.

Record sysc_scope := mk_scope { sc_nr : Z; sc_pats : list (list byte); sc_ranges : syscalls_lib_ranges }.

Definition find_scope (scopes : list sysc_scope) (nr : Z) : option sysc_scope := find (fun s => sc_nr s =? nr) scopes.

Definition scope_push (sc : sysc_scope) (s e : Z) : sysc_scope :=
  mk_scope (sc_nr sc) (sc_pats sc) (push_scope_range (sc_ranges sc) s e).

Section Arming.
Context (fnmatch : list byte -> list byte -> bool) (libs : list (list byte)).

Definition lib_name_matches (name : list byte) : bool := lib_selector_matches_any fnmatch name libs.

(** The maps file of the process as parsed lines. *)
Definition seed_lib_ranges_from_maps (tgid : Z) (lines : list anubee_map_line) (m : gmap Z syscalls_lib_ranges)
  : gmap Z syscalls_lib_ranges :=
  if (length libs =? 0)%nat then m else
  fold_left (fun m ml => if lib_seed_line_arms_any fnmatch ml libs then push_lib_range m tgid (start ml) (end_ ml) else m) lines m.

Definition seed_scope_ranges_from_maps (lines : list anubee_map_line) (sc : sysc_scope) : sysc_scope :=
  fold_left (fun sc ml => if lib_seed_line_arms_any fnmatch ml (sc_pats sc) then scope_push sc (start ml) (end_ ml) else sc) lines sc.

Definition arm_all_scopes_from_maps (lines : list anubee_map_line) (scopes : list sysc_scope) : list sysc_scope :=
  map (seed_scope_ranges_from_maps lines) scopes.

(** What the drain thread does with an event before it queues it. *)
Definition arm_event (e : sev) (m : gmap Z syscalls_lib_ranges) (scopes : list sysc_scope)
  : gmap Z syscalls_lib_ranges * list sysc_scope :=
  match e with
  | SMap ev =>
      (if lib_name_matches (lm_name ev) then push_lib_range m (lm_pid ev) (lm_start ev) (lm_end ev) else m,
       map (fun sc => if lib_selector_matches_any fnmatch (lm_name ev) (sc_pats sc)
                      then scope_push sc (lm_start ev) (lm_end ev) else sc) scopes)
  | _ => (m, scopes)
  end.
End Arming.

(** ** The worker *)

Record pend_entry := mk_pend { p_used : bool; p_tid : Z; p_id : Z; p_ev : syscalls_syscall_event }.
Record record := mk_record { r_id : Z; r_ev : syscalls_syscall_event; r_ret : option Z }.

Record user := mk_user {
  g_next_id : Z; g_sysc_stats : list (list byte * Z); g_pend : list pend_entry; g_pend_cap : Z; g_json : list record
}.

Definition set_pend (u : user) (l : list pend_entry) : user :=
  mk_user (g_next_id u) (g_sysc_stats u) l (g_pend_cap u) (g_json u).

Definition holds (tid : Z) (p : pend_entry) : bool := p_used p && (p_tid p =? tid).

(** Slot of the thread's entry. *)
Definition pend_find (tid : Z) (l : list pend_entry) : option nat := fst <$> list_find (holds tid) l.
Definition free_slot (l : list pend_entry) : option nat := fst <$> list_find (fun p => negb (p_used p)) l.

Section Worker.
Context (ix : anubee_sysindex) (sink : bool).
(** Whether the table can be grown to so many entries. *)
Context (realloc_ok : Z -> bool).

Definition json_emit (e : syscalls_syscall_event) (id : Z) (ret : option Z) (u : user) : user :=
  if sink then mk_user (g_next_id u) (g_sysc_stats u) (g_pend u) (g_pend_cap u) (g_json u ++ [mk_record id e ret]) else u.

Fixpoint sysc_stat_add (name : list byte) (stats : list (list byte * Z)) (n : nat) : list (list byte * Z) :=
  match stats with
  | (s, c) :: stats => if bool_decide (s = name) then (s, u64 (c + 1)) :: stats else (s, c) :: sysc_stat_add name stats n
  | [] => if (SYSC_STAT_MAX <=? n)%nat then [] else [(take 63 name, 1)]
  end.

Definition pend_store (e : syscalls_syscall_event) (id : Z) (u : user) : user :=
  let new := mk_pend true (sv_tid e) id e in
  match pend_find (sv_tid e) (g_pend u) with
  | Some i =>
      let u := match g_pend u !! i with Some p => json_emit (p_ev p) (p_id p) None u | None => u end in
      set_pend u (<[i := new]> (g_pend u))
  | None =>
      match free_slot (g_pend u) with
      | Some i => set_pend u (<[i := new]> (g_pend u))
      | None =>
          if zlen (g_pend u) =? g_pend_cap u then
            let nc := if g_pend_cap u =? 0 then 64 else g_pend_cap u * 2 in
            if realloc_ok nc
            then mk_user (g_next_id u) (g_sysc_stats u) (g_pend u ++ [new]) nc (g_json u) else u
          else set_pend u (g_pend u ++ [new])
      end
  end.

(** Entries of [l] from slot [i] on. *)
Fixpoint pend_flush (l : list pend_entry) (u : user) : user :=
  match l with
  | [] => u
  | p :: l => pend_flush l (if p_used p then json_emit (p_ev p) (p_id p) None u else u)
  end.
Definition release (p : pend_entry) : pend_entry := mk_pend false (p_tid p) (p_id p) (p_ev p).
Definition pend_flush_all (u : user) : user := set_pend (pend_flush (g_pend u) u) (map release (g_pend u)).

(** Does the scope of the syscall, if it has one, let the event pass? *)
Definition scope_admits (scopes : list sysc_scope) (e : syscalls_syscall_event) : bool :=
  match find_scope scopes (sv_nr e) with
  | Some sc => sysc_issuer_hit (sc_ranges sc) (sv_stack e)
  | None => true
  end.

Definition handle_syscall (scopes : list sysc_scope) (e : syscalls_syscall_event) (u : user) : user :=
  if negb (scope_admits scopes e) then u else
  let id := g_next_id u in
  let stats := sysc_stat_add (sysname ix (sv_nr e) (sv_compat e)) (g_sysc_stats u) (length (g_sysc_stats u)) in
  pend_store e id (mk_user (u64 (id + 1)) stats (g_pend u) (g_pend_cap u) (g_json u)).

Definition handle_return (r : syscalls_return_event) (u : user) : user :=
  match pend_find (rv_tid r) (g_pend u) with
  | None => u
  | Some i =>
      match g_pend u !! i with
      | Some p => set_pend (json_emit (p_ev p) (p_id p) (Some (rv_retval r)) u) (<[i := release p]> (g_pend u))
      | None => u
      end
  end.

Definition process_event (scopes : list sysc_scope) (e : sev) (u : user) : user :=
  match e with
  | SSyscall e => handle_syscall scopes e u
  | SReturn r => handle_return r u
  | SMap _ | SUnmap _ | SStack _ => u
  end.
End Worker.

(** ** The engine at work *)

(** What happens: a thread of the app enters a 64-bit or a 32-bit syscall, leaves
    syscall [nr], maps or unmaps an area, forks; the maps of a process are read; the
    drain thread takes an event from the ring buffer, the worker one from the queue. *)
Inductive action :=
| Enter (c : fctx) | Enter32 (c : fctx) | Leave (c : fctx) (nr ret : Z)
| Mmap (c : fctx) (v : vma) | Munmap (c : fctx) (v : vma) (s e : Z) | Fork (c : fctx) (child : Z)
| Seed (tgid : Z) (lines : list anubee_map_line)
| Drain | Work.

(** [y_done] records the events the worker has taken, and whether the scopes of that
    moment admit them. *)
Record sys := mk_sys {
  y_k : kern; y_ranges : gmap Z syscalls_lib_ranges; y_scopes : list sysc_scope; y_queue : list sev; y_u : user;
  y_done : list (bool * sev)
}.

Definition set_k (y : sys) (k : kern) : sys := mk_sys k (y_ranges y) (y_scopes y) (y_queue y) (y_u y) (y_done y).
Definition set_ring (k : kern) (r : list sev) : kern := mk_kern (k_pids k) (k_pending k) (k_stacks k) (k_cov k) r (k_dropped k).

Definition admitted (scopes : list sysc_scope) (e : sev) : bool :=
  match e with SSyscall e => scope_admits scopes e | _ => true end.

Record config := mk_config {
  target_uids : gset Z; capture_all : bool; snapshot_enabled : bool; syscall_filter_mode : Z; syscall_filter : list Z;
  arg_types : list Z; sock_args : list Z; evict : gset Z -> gset Z; fnmatch : list byte -> list byte -> bool;
  libs : list (list byte); names : anubee_sysindex; has_sink : bool; realloc_ok : Z -> bool; probed : Z -> bool
}.

Section System.
Context (g : config).

Notation enter := (on_svc_enter (target_uids g) (capture_all g) (snapshot_enabled g) (syscall_filter_mode g)
  (syscall_filter g) (arg_types g) (sock_args g) (evict g)).
Notation enter32 := (on_svc_enter_compat (target_uids g) (capture_all g) (snapshot_enabled g) (evict g)).

(** The ring buffer callback: arms, then queues. *)
Definition enqueue_event (y : sys) : sys :=
  match k_ring (y_k y) with
  | [] => y
  | e :: ring =>
      let '(m, scopes) := arm_event (fnmatch g) (libs g) e (y_ranges y) (y_scopes y) in
      mk_sys (set_ring (y_k y) ring) m scopes (y_queue y ++ [e]) (y_u y) (y_done y)
  end.

Definition worker_main (y : sys) : sys :=
  match y_queue y with
  | [] => y
  | e :: q =>
      mk_sys (y_k y) (y_ranges y) (y_scopes y) q
        (process_event (names g) (has_sink g) (realloc_ok g) (y_scopes y) e (y_u y))
        (y_done y ++ [(admitted (y_scopes y) e, e)])
  end.

Definition sys_step (y : sys) (a : action) : sys :=
  match a with
  | Enter c => set_k y (enter (y_ranges y) c (y_k y))
  | Enter32 c => set_k y (enter32 (y_ranges y) c (y_k y))
  | Leave c nr ret => if probed g nr then set_k y (on_sys_exit c ret (y_k y)) else y
  | Mmap c v => set_k y (on_uprobe_mmap (target_uids g) c v (y_k y))
  | Munmap c v s e => set_k y (on_uprobe_munmap (target_uids g) c v s e (y_k y))
  | Fork c child => set_k y (anubee_follow_fork c child (y_k y))
  | Seed tgid lines =>
      mk_sys (y_k y) (seed_lib_ranges_from_maps (fnmatch g) (libs g) tgid lines (y_ranges y))
        (arm_all_scopes_from_maps (fnmatch g) lines (y_scopes y)) (y_queue y) (y_u y) (y_done y)
  | Drain => enqueue_event y
  | Work => worker_main y
  end.
Definition sys_run (y : sys) (l : list action) : sys := fold_left sys_step l y.
End System.

Definition kern_init (pids : gset Z) : kern := mk_kern pids ∅ ∅ (replicate 5 0) [] 0.
Definition user_init : user := mk_user 1 [] [] 0 [].
Definition sys_init (pids : gset Z) (scopes : list sysc_scope) : sys := mk_sys (kern_init pids) ∅ scopes [] user_init [].

(** ** What should be recorded *)

Definition a_tid (c : fctx) : Z := c_tid (f_c c).
Definition a_nr (c : fctx) : Z := reg (f_c c) 8.
Definition room (c : fctx) : bool := c_reserve (f_c c).

(** The threads' side of a run: a thread enters a syscall when it is in none, and
    leaves the one it is in.  [busy] holds the threads in a syscall. *)
Fixpoint well_timed (busy : gmap Z Z) (l : list action) : Prop :=
  match l with
  | [] => True
  | Enter c :: l => busy !! a_tid c = None /\ well_timed (<[a_tid c := a_nr c]> busy) l
  | Leave c nr _ :: l => busy !! a_tid c = Some nr /\ well_timed (delete (a_tid c) busy) l
  | Enter32 c :: l => busy !! a_tid c = None /\ well_timed busy l
  | _ :: l => well_timed busy l
  end.

(** The value with which the thread leaves its syscall, unless the event is lost. *)
Fixpoint next_leave (tid : Z) (l : list action) : option Z :=
  match l with
  | [] => None
  | Leave c _ ret :: l => if a_tid c =? tid then (if room c then Some ret else None) else next_leave tid l
  | Enter c :: l => if a_tid c =? tid then None else next_leave tid l
  | _ :: l => next_leave tid l
  end.

Section Spec.
Context (g : config).

(** The syscall is of a traced process, issued by an armed library unless all are
    wanted, and there is room for its event. *)
Definition issued (y : sys) (c : fctx) : bool :=
  negb (gate (target_uids g) (k_pids (y_k y)) (f_c c)) &&
  (capture_all g || sysc_issuer_hit (default [] (y_ranges y !! c_pid (f_c c))) (svc_stack c)) && room c.
Definition selected (y : sys) (c : fctx) : bool :=
  issued y c && syscall_wanted (syscall_filter_mode g) (syscall_filter g) (a_nr c).

Notation event := (svc_event (snapshot_enabled g) (arg_types g) (sock_args g)).
Notation event32 := (compat_event (snapshot_enabled g)).

(** The syscalls of a run that are to be recorded, each with the value it returns. *)
Fixpoint syscalls_made (y : sys) (l : list action) : list (syscalls_syscall_event * option Z) :=
  match l with
  | [] => []
  | a :: l =>
      match a with
      | Enter c => if selected y c then [(event c, next_leave (a_tid c) l)] else []
      | Enter32 c => if issued y c then [(event32 c, None)] else []
      | _ => []
      end ++ syscalls_made (sys_step g y a) l
  end.
End Spec.

(** ** The kernel's log *)

(** First event of the thread: the value, when it is a return. *)
Fixpoint next_return (tid : Z) (l : list sev) : option Z :=
  match l with
  | [] => None
  | SSyscall e :: l => if sv_tid e =? tid then None else next_return tid l
  | SReturn r :: l => if rv_tid r =? tid then Some (rv_retval r) else next_return tid l
  | _ :: l => next_return tid l
  end.

Fixpoint logged (l : list sev) : list (syscalls_syscall_event * option Z) :=
  match l with
  | [] => []
  | SSyscall e :: l => (e, next_return (sv_tid e) l) :: logged l
  | _ :: l => logged l
  end.

Definition log (y : sys) : list sev := map snd (y_done y) ++ y_queue y ++ k_ring (y_k y).

(** Events that are not about a syscall; those of a mapping satisfy [M]. *)
Definition other (M : lib_map_event -> Prop) (e : sev) : Prop :=
  match e with SSyscall _ | SReturn _ => False | SMap m => M m | _ => True end.

(** The event an action gives rise to when it maps a file for execution. *)
Definition maps_of (a : action) (m : lib_map_event) : Prop :=
  match a with
  | Mmap c v => exists f, vm_file v = Some f /\ Z.land (vm_flags v) LIBTRACE_VM_EXEC <> 0 /\ lm_pid m = c_pid (f_c c) /\
      lm_start m = vm_start v /\ lm_end m = vm_end v /\ lm_name m = take (LIBTRACE_MAX_NAME - 1) (default [] (vf_name f))
  | _ => False
  end.

Lemma next_return_other M tid l l' : Forall (other M) l -> next_return tid (l ++ l') = next_return tid l'.
Proof. induction 1 as [|e l He _ IH]; [reflexivity|]. destruct e; try (now destruct He); exact IH. Qed.
Lemma logged_other M l l' : Forall (other M) l -> logged (l ++ l') = logged l'.
Proof. induction 1 as [|e l He _ IH]; [reflexivity|]. destruct e; try (now destruct He); exact IH. Qed.

(** A program that leaves marks and traced processes alone and emits [l]. *)
Record emits (k k' : kern) (p : gmap Z Z) (l : list sev) : Prop := {
  em_pending : k_pending k' = p; em_ring : k_ring k' = k_ring k ++ l
}.

Lemma svc_snapshot_emits snap ev c k :
  exists l, emits k (svc_snapshot snap ev c k) (k_pending k) l /\ Forall (other (fun _ => False)) l.
Proof.
  unfold svc_snapshot. destruct (_ || _); [exists []; split; [constructor; now rewrite ?app_nil_r|constructor]|].
  destruct (negb _); [exists []; split; [constructor; cbn; now rewrite ?app_nil_r|constructor]|].
  exists [SStack (snapshot_record c (svc_stack_id snap c))]. split; [destruct (k_truncated _); now constructor|now repeat constructor].
Qed.

Lemma hit_nil stack : sysc_issuer_hit [] stack = false.
Proof. unfold sysc_issuer_hit. now destruct stack as [|a [|b l]]. Qed.

(** The gates of the entry programs, declaratively. *)
Lemma svc_gates_spec all snap ev lr c k :
  let go := (all || sysc_issuer_hit (default [] (lr !! c_pid (f_c c))) (svc_stack c)) && room c in
  exists k' l, svc_gates all snap ev lr c k = (go, k') /\ emits k k' (k_pending k) l /\ Forall (other (fun _ => False)) l.
Proof.
  cbv zeta. unfold svc_gates. set (armed := default [] _).
  assert (Hno : forall k', k_pending k' = k_pending k -> k_ring k' = k_ring k -> emits k k' (k_pending k) [] /\ Forall (other (fun _ => False)) []).
  { intros k' H1 H2. split; [constructor; [exact H1|now rewrite app_nil_r]|constructor]. }
  destruct all; cbn [negb andb orb].
  - set (k1 := if (SYSC_MAX_STACK_DEPTH <=? _)%nat then _ else _).
    destruct (svc_snapshot_emits snap ev c k1) as (l & [H1 H2] & H3).
    assert (E1 : k_pending k1 = k_pending k /\ k_ring k1 = k_ring k) by (unfold k1; now destruct (_ <=? _)%nat). destruct E1 as [E1 E2].
    unfold room. destruct (c_reserve (f_c c)); cbn [negb]; eexists _, l; (split; [reflexivity|]); (split; [|exact H3]);
      constructor; cbn; congruence.
  - destruct (length armed =? 0)%nat eqn:El.
    { apply Nat.eqb_eq, length_zero_iff_nil in El. rewrite El, hit_nil. eexists _, []. split; [reflexivity|]. now apply Hno. }
    set (k1 := if (SYSC_MAX_STACK_DEPTH <=? _)%nat then _ else _).
    assert (E1 : k_pending k1 = k_pending k /\ k_ring k1 = k_ring k) by (unfold k1; now destruct (_ <=? _)%nat). destruct E1 as [E1 E2].
    destruct (sysc_issuer_hit armed (svc_stack c)) eqn:Eh; cbn [negb orb].
    2:{ rewrite orb_true_r. eexists _, []. split; [reflexivity|]. now apply Hno. }
    destruct (length (svc_stack c) =? 0)%nat eqn:Es.
    { apply Nat.eqb_eq, length_zero_iff_nil in Es. rewrite Es in Eh. discriminate. }
    cbn [orb andb]. destruct (svc_snapshot_emits snap ev c k1) as (l & [H1 H2] & H3).
    unfold room. destruct (c_reserve (f_c c)); cbn [negb]; eexists _, l; (split; [reflexivity|]); (split; [|exact H3]);
      constructor; cbn; congruence.
Qed.

Lemma svc_event_tid snap ats sas c : sv_tid (svc_event snap ats sas c) = a_tid c.
Proof. unfold svc_event. destruct (if _ =? 0 then _ else _) as [p l]. now destruct (read_sock _ _ _). Qed.

Section Log.
Context (g : config).

Notation event := (svc_event (snapshot_enabled g) (arg_types g) (sock_args g)).
Notation event32 := (compat_event (snapshot_enabled g)).
Notation pending y := (k_pending (y_k y)).

(** The syscall events of a step, and the marks after it. *)
Definition step_events (y : sys) (a : action) : list sev :=
  match a with
  | Enter c => if selected g y c then [SSyscall (event c)] else []
  | Enter32 c => if issued g y c then [SSyscall (event32 c)] else []
  | Leave c nr ret =>
      if probed g nr && bool_decide (is_Some (pending y !! a_tid c)) && room c
      then [SReturn (mk_ret_event (c_pid (f_c c)) (a_tid c) ret)] else []
  | _ => []
  end.
Definition step_pending (y : sys) (a : action) : gmap Z Z :=
  match a with
  | Enter c => if selected g y c then map_update PENDING_CAP (a_tid c) (a_nr c) (pending y) else pending y
  | Leave c nr _ => if probed g nr then delete (a_tid c) (pending y) else pending y
  | _ => pending y
  end.

Lemma log_set_k y k : log (set_k y k) = map snd (y_done y) ++ y_queue y ++ k_ring k.
Proof. reflexivity. Qed.

Lemma mmap_emits uids c v k : exists l, Forall (other (maps_of (Mmap c v))) l /\ emits k (on_uprobe_mmap uids c v k) (k_pending k) l.
Proof.
  assert (H0 : exists l, Forall (other (maps_of (Mmap c v))) l /\ emits k k (k_pending k) l) by (exists []; split; constructor; now rewrite ?app_nil_r).
  unfold on_uprobe_mmap. destruct (untraced _ _ _); [exact H0|]. destruct (vm_file v) as [f|] eqn:Ef; [|exact H0]. destruct (_ =? 0) eqn:Ex; [exact H0|].
  destruct (negb _); [exists []; split; constructor; cbn; now rewrite ?app_nil_r|]. destruct (default (0, 0) _) as [i d].
  eexists [SMap _]. split; [|now constructor]. apply List.Forall_cons; [|apply List.Forall_nil]. apply Z.eqb_neq in Ex. exists f. auto 7.
Qed.

Lemma munmap_emits uids c v a b k : exists l, Forall (other (fun _ => False)) l /\ emits k (on_uprobe_munmap uids c v a b k) (k_pending k) l.
Proof.
  assert (H0 : exists l, Forall (other (fun _ => False)) l /\ emits k k (k_pending k) l) by (exists []; split; constructor; now rewrite ?app_nil_r).
  unfold on_uprobe_munmap. destruct (untraced _ _ _); [exact H0|]. destruct (vm_file v) as [f|]; [|exact H0]. destruct (_ =? 0); [exact H0|].
  destruct (negb _); [exists []; split; constructor; cbn; now rewrite ?app_nil_r|].
  eexists [SUnmap _]. split; [now repeat constructor|now constructor].
Qed.

Lemma mapping_log M y k :
  (exists l, Forall (other M) l /\ emits (y_k y) k (pending y) l) ->
  exists l, Forall (other M) l /\ log (set_k y k) = log y ++ l ++ [] /\ pending (set_k y k) = pending y.
Proof.
  intros (l & Ho & [H1 H2]). exists l. split; [exact Ho|]. split; [|exact H1]. rewrite log_set_k, H2, app_nil_r. unfold log. now rewrite <- !app_assoc.
Qed.

(** A step that shows nothing. *)
Local Ltac silent := exists []; split; [apply List.Forall_nil|]; unfold log, set_k; cbn; now rewrite !app_nil_r.

Lemma step_log y a :
  exists l, Forall (other (maps_of a)) l /\ log (sys_step g y a) = log y ++ l ++ step_events y a /\ pending (sys_step g y a) = step_pending y a.
Proof.
  destruct a as [c|c|c nr ret|c v|c v s e|c child|tgid lines| |]; cbn [sys_step step_events step_pending].
  - unfold on_svc_enter, selected, issued, untraced. fold (a_nr c).
    destruct (gate _ _ _); cbn [negb andb]; [silent|].
    destruct (syscall_wanted _ _ _); cbn [negb]; rewrite ?andb_true_r, ?andb_false_r; [|silent].
    destruct (svc_gates_spec (capture_all g) (snapshot_enabled g) (evict g) (y_ranges y) c (y_k y)) as (k' & l & -> & [H1 H2] & H3).
    exists l. split; [exact H3|]. destruct (_ && room c); cbn [negb].
    + split; [|cbn; now rewrite H1]. rewrite log_set_k. cbn. rewrite H2. unfold log. now rewrite <- !app_assoc.
    + split; [|exact H1]. rewrite log_set_k, H2. unfold log. now rewrite <- !app_assoc, app_nil_r.
  - unfold on_svc_enter_compat, issued, untraced.
    destruct (gate _ _ _); cbn [negb andb]; [silent|].
    destruct (svc_gates_spec (capture_all g) (snapshot_enabled g) (evict g) (y_ranges y) c (y_k y)) as (k' & l & -> & [H1 H2] & H3).
    exists l. split; [exact H3|]. destruct (_ && room c); cbn [negb].
    + split; [|exact H1]. rewrite log_set_k. cbn. rewrite H2. unfold log. now rewrite <- !app_assoc.
    + split; [|exact H1]. rewrite log_set_k, H2. unfold log. now rewrite <- !app_assoc, app_nil_r.
  - exists []. split; [apply List.Forall_nil|]. destruct (probed g nr); cbn [andb]; [|now rewrite !app_nil_r].
    unfold on_sys_exit. fold (a_tid c) (room c). destruct (pending y !! a_tid c) as [m|] eqn:E.
    + rewrite bool_decide_true by eauto. cbn [andb app]. destruct (room c); cbn [negb]; (split; [|reflexivity]); unfold log, set_k; cbn; now rewrite ?app_nil_r, ?app_assoc.
    + rewrite bool_decide_false by (intros [? ?]; congruence). cbn [andb app]. rewrite delete_id by exact E. now rewrite app_nil_r.
  - apply mapping_log. apply mmap_emits.
  - apply mapping_log. apply munmap_emits.
  - exists []. split; [apply List.Forall_nil|]. unfold anubee_follow_fork. destruct (bool_decide _); unfold log, set_k; cbn; now rewrite !app_nil_r.
  - exists []. split; [apply List.Forall_nil|]. unfold log. cbn. now rewrite app_nil_r.
  - exists []. split; [apply List.Forall_nil|]. unfold enqueue_event. destruct (k_ring (y_k y)) as [|e r] eqn:E; [now rewrite app_nil_r|].
    destruct (arm_event _ _ _ _ _) as [m sc]. unfold log. cbn. rewrite E, app_nil_r. split; [now rewrite <- app_assoc|reflexivity].
  - exists []. split; [apply List.Forall_nil|]. unfold worker_main. destruct (y_queue y) as [|e q] eqn:E; [now rewrite app_nil_r|].
    unfold log. cbn. rewrite E, app_nil_r, map_app. split; [now rewrite <- app_assoc|reflexivity].
Qed.
(** Marks are of threads in a syscall whose return is probed. *)
Record marks_ok (T : gset Z) (busy p : gmap Z Z) : Prop := {
  mk_busy : forall tid nr, p !! tid = Some nr -> busy !! tid = Some nr /\ probed g nr = true;
  mk_dom : dom p ⊆ T
}.

(** Entries come when no return of the thread is outstanding. *)
Fixpoint alternating (o : gset Z) (l : list sev) : Prop :=
  match l with
  | [] => True
  | SSyscall e :: l => sv_tid e ∉ o /\ alternating ({[sv_tid e]} ∪ o) l
  | SReturn r :: l => alternating (o ∖ {[rv_tid r]}) l
  | _ :: l => alternating o l
  end.

(** Runs in which no return event is lost and no 32-bit code runs. *)
Definition calm (a : action) : Prop :=
  match a with Leave c _ _ => room c = true | Enter32 _ => False | _ => True end.

(** Actions of the threads of [T] with a return probe on every selected syscall. *)
Definition covered (T : gset Z) (a : action) : Prop :=
  match a with
  | Enter c =>
      a_tid c ∈ T /\ (syscall_wanted (syscall_filter_mode g) (syscall_filter g) (a_nr c) = true -> probed g (a_nr c) = true)
  | _ => True
  end.

Definition busy_after (a : action) (busy : gmap Z Z) : gmap Z Z :=
  match a with Enter c => <[a_tid c := a_nr c]> busy | Leave c _ _ => delete (a_tid c) busy | _ => busy end.

Lemma well_timed_cons busy a l : well_timed busy (a :: l) -> well_timed (busy_after a busy) l.
Proof. destruct a; cbn; tauto. Qed.

Lemma marks_step T y a l busy :
  (size T <= PENDING_CAP)%nat -> covered T a -> well_timed busy (a :: l) -> marks_ok T busy (pending y) ->
  marks_ok T (busy_after a busy) (step_pending y a) /\
  forall c, a = Enter c -> selected g y c = true -> step_pending y a = <[a_tid c := a_nr c]> (pending y).
Proof.
  intros HT Hc Hw [H1 H2]. destruct a as [c|c|c nr ret|c v|c v s e|c child|tgid lines| |]; cbn in *; try (split; [now constructor|discriminate]).
  - destruct Hc as [Ht Hp]. destruct Hw as [Hb _]. destruct (selected g y c) eqn:Es.
    + rewrite map_update_in.
      2:{ destruct (pending y !! a_tid c) eqn:E; [left; eauto|right]. assert (Hs : dom (pending y) ⊆ T ∖ {[a_tid c]}).
          { apply not_elem_of_dom in E. set_solver. }
          apply subseteq_size in Hs. rewrite size_difference, size_singleton, size_dom in Hs by set_solver.
          pose proof (subseteq_size {[a_tid c]} T ltac:(set_solver)) as Hs'. rewrite size_singleton in Hs'. lia. }
      split; [|intros c' [= <-]; reflexivity]. constructor; [|rewrite dom_insert; set_solver].
      intros tid nr. destruct (decide (tid = a_tid c)) as [->|Hne].
      * rewrite !lookup_insert_eq. intros [= <-]. split; [reflexivity|]. apply Hp. unfold selected in Es. now apply andb_true_iff in Es.
      * rewrite !lookup_insert_ne by auto. apply H1.
    + split; [|intros c' [= <-]; congruence]. constructor; [|exact H2]. intros tid nr E. destruct (H1 _ _ E) as [E1 E2]. split; [|exact E2].
      rewrite lookup_insert_ne; [exact E1|]. intros <-. congruence.
  - split; [|discriminate]. destruct Hw as [Hb _]. destruct (probed g nr) eqn:Ep.
    + constructor; [|rewrite dom_delete; set_solver]. intros tid m E. apply lookup_delete_Some in E as [Hne E]. rewrite lookup_delete_ne by auto. auto.
    + constructor; [|exact H2]. intros tid m E. destruct (H1 _ _ E) as [E1 E2]. rewrite lookup_delete_ne; [auto|]. intros <-. congruence.
Qed.

(** What the log of the rest of a run says. *)
Record log_ok (y : sys) (acts : list action) (L : list sev) : Prop := {
  lo_logged : logged L = syscalls_made g y acts;
  lo_idle : forall tid, pending y !! tid = None -> next_return tid L = None;
  lo_busy : forall tid, is_Some (pending y !! tid) -> next_return tid L = next_leave tid acts;
  lo_calm : Forall calm acts -> alternating (dom (pending y)) L
}.

Lemma alternating_other M o l l' : Forall (other M) l -> alternating o (l ++ l') <-> alternating o l'.
Proof. induction 1 as [|e l He _ IH]; [reflexivity|]. destruct e; try (now destruct He); exact IH. Qed.

Section Step.
Context (T : gset Z) (y : sys) (a : action) (acts : list action) (busy : gmap Z Z) (l L : list sev).
Hypothesis HT : (size T <= PENDING_CAP)%nat.
Hypothesis Hc : covered T a.
Hypothesis Hw : well_timed busy (a :: acts).
Hypothesis Hm : marks_ok T busy (pending y).
Hypothesis Hp : pending (sys_step g y a) = step_pending y a.
Hypothesis Ho : Forall (other (maps_of a)) l.
Hypothesis HL : log_ok (sys_step g y a) acts L.

Local Ltac setup :=
  destruct HL as [L1 L2 L3 L4]; destruct (marks_step T y a acts busy HT Hc Hw Hm) as [_ Hins]; destruct Hm as [M1 M2]; rewrite Hp in *;
  clear HL HT Hm Hp.

Lemma cons_logged : logged (l ++ step_events y a ++ L) = syscalls_made g y (a :: acts).
Proof.
  setup. rewrite (logged_other _ _ _ Ho). cbn [syscalls_made]. rewrite <- L1. destruct a; try reflexivity; cbn [step_events] in *.
  + destruct (selected g y c) eqn:E; [|reflexivity]. cbn [app logged]. f_equal. f_equal.
    change (sv_tid (svc_event _ _ _ _)) with (sv_tid (svc_event (snapshot_enabled g) (arg_types g) (sock_args g) c)).
    rewrite svc_event_tid. apply L3. rewrite (Hins c eq_refl E), lookup_insert_eq. eauto.
  + destruct (issued g y c); [|reflexivity]. cbn [app logged]. f_equal. f_equal. cbn [sv_tid compat_event]. apply L2. cbn [step_pending].
    destruct (pending y !! c_tid (f_c c)) eqn:E; [|reflexivity]. apply M1 in E as [E _]. cbn in Hw. unfold a_tid in Hw. destruct Hw. congruence.
  + destruct (_ && room c); reflexivity.
Qed.

Lemma cons_idle : forall tid, pending y !! tid = None -> next_return tid (l ++ step_events y a ++ L) = None.
Proof.
  setup. intros tid Ht. rewrite (next_return_other _ _ _ _ Ho). destruct a as [c|c|c nr ret|c v|c v s e|c child|tgid lines| |];
    cbn [step_events step_pending app] in *; try (apply L2; exact Ht).
  + destruct (selected g y c) eqn:E; cbn [app next_return]; [|now apply L2]. rewrite svc_event_tid. destruct (Z.eqb_spec (a_tid c) tid) as [|Hne]; [reflexivity|].
    apply L2. rewrite (Hins c eq_refl E). now rewrite lookup_insert_ne.
  + destruct (issued g y c); cbn [app next_return]; [|now apply L2]. destruct (_ =? tid); [reflexivity|now apply L2].
  + destruct (probed g nr); cbn [andb]; [|now apply L2]. destruct (bool_decide _) eqn:E; cbn [andb].
    * destruct (room c); cbn [app next_return rv_tid]; [|apply L2; apply lookup_delete_None; auto].
      destruct (Z.eqb_spec (a_tid c) tid) as [<-|]; [apply bool_decide_eq_true in E as [? E]; congruence|]. apply L2, lookup_delete_None. auto.
    * apply L2, lookup_delete_None. auto.
Qed.

Lemma cons_busy : forall tid, is_Some (pending y !! tid) -> next_return tid (l ++ step_events y a ++ L) = next_leave tid (a :: acts).
Proof.
  setup. intros tid [nr0 Ht]. destruct (M1 _ _ Ht) as [Hb Hpr]. rewrite (next_return_other _ _ _ _ Ho). destruct a as [c|c|c nr ret|c v|c v s e|c child|tgid lines| |];
    cbn [step_events step_pending app next_leave] in *; try (apply L3; eauto).
  + destruct Hw as [Hb0 _]. assert (Hne : a_tid c <> tid) by congruence. rewrite (proj2 (Z.eqb_neq _ _)) by exact Hne.
    destruct (selected g y c) eqn:E; cbn [app next_return]; [|apply L3; eauto]. rewrite svc_event_tid, (proj2 (Z.eqb_neq _ _)) by exact Hne.
    apply L3. rewrite (Hins c eq_refl E), lookup_insert_ne by auto. eauto.
  + destruct Hw as [Hb0 _]. assert (Hne : a_tid c <> tid) by congruence. destruct (issued g y c); cbn [app next_return]; [|apply L3; eauto].
    change (sv_tid (compat_event _ c)) with (a_tid c). rewrite (proj2 (Z.eqb_neq _ _)) by exact Hne. apply L3; eauto.
  + destruct Hw as [Hb0 _]. destruct (Z.eqb_spec (a_tid c) tid) as [<-|Hne].
    * assert (nr = nr0) as -> by congruence. rewrite Hpr, bool_decide_true by eauto. rewrite Hpr in L2. cbn [andb]. destruct (room c); cbn [app next_return rv_tid rv_retval].
      -- now rewrite Z.eqb_refl.
      -- apply L2, lookup_delete_None. auto.
    * assert (Hr : next_return tid L = next_leave tid acts) by (apply L3; destruct (probed g nr); [rewrite lookup_delete_ne by auto|]; eauto).
      destruct (_ && room c); [|exact Hr]. cbn [app next_return rv_tid]. now rewrite (proj2 (Z.eqb_neq _ _)) by exact Hne.
Qed.

Lemma cons_calm : Forall calm (a :: acts) -> alternating (dom (pending y)) (l ++ step_events y a ++ L).
Proof.
  setup. intros Hcalm. apply list.Forall_cons in Hcalm as [Ha Hcalm]. rewrite (alternating_other _ _ _ _ Ho). specialize (L4 Hcalm).
  destruct a as [c|c|c nr ret|c v|c v s e|c child|tgid lines| |]; cbn [step_events step_pending app calm] in *; try exact L4; [|destruct Ha|].
  + destruct (selected g y c) eqn:E; [|exact L4]. cbn [app alternating]. rewrite svc_event_tid. destruct Hw as [Hb0 _]. split.
    * intros Hi. apply elem_of_dom in Hi as [m Hi]. apply M1 in Hi as [Hi _]. congruence.
    * rewrite (Hins c eq_refl E), dom_insert_L in L4. exact L4.
  + rewrite Ha, andb_true_r. destruct (probed g nr) eqn:Ep; [|exact L4]. cbn [andb]. rewrite dom_delete_L in L4. case_bool_decide as E; [exact L4|].
    cbn [app]. replace (dom (pending y) ∖ {[a_tid c]}) with (dom (pending y)) in L4; [exact L4|]. 
    apply set_eq. intros x. rewrite elem_of_difference, elem_of_singleton. split; [|tauto]. intros Hx. split; [exact Hx|]. intros ->. apply E. now apply elem_of_dom.
Qed.

Lemma log_ok_cons : log_ok y (a :: acts) (l ++ step_events y a ++ L).
Proof. exact (Build_log_ok _ _ _ cons_logged cons_idle cons_busy cons_calm). Qed.
End Step.

Lemma run_log T acts : (size T <= PENDING_CAP)%nat -> Forall (covered T) acts -> forall y busy,
  well_timed busy acts -> marks_ok T busy (pending y) -> exists L, log (sys_run g y acts) = log y ++ L /\ log_ok y acts L.
Proof.
  intros HT Hc. induction Hc as [|a acts Ha Hc IH]; intros y busy Hw Hm.
  { exists []. split; [now rewrite app_nil_r|]. now constructor. }
  destruct (step_log y a) as (l & Ho & Hl & Hp). destruct (marks_step T y a acts busy HT Ha Hw Hm) as [Hm' _].
  rewrite <- Hp in Hm'. destruct (IH _ _ (well_timed_cons _ _ _ Hw) Hm') as (L & HL & Hok).
  exists (l ++ step_events y a ++ L). split; [|now apply (log_ok_cons T y a acts busy)].
  change (sys_run g y (a :: acts)) with (sys_run g (sys_step g y a) acts). rewrite HL, Hl. now rewrite <- !app_assoc.
Qed.
End Log.

(** ** The worker's table *)

Definition strip (r : record) : syscalls_syscall_event * option Z := (r_ev r, r_ret r).

(** Events held in the table. *)
Definition open_of (p : pend_entry) : option syscalls_syscall_event := if p_used p then Some (p_ev p) else None.
Definition opens (l : list pend_entry) : list syscalls_syscall_event := omap open_of l.

Record table_ok (l : list pend_entry) : Prop := {
  to_tid : Forall (fun p => p_used p = true -> p_tid p = sv_tid (p_ev p)) l;
  to_nodup : NoDup (map sv_tid (opens l))
}.

Lemma opens_split l i p :
  l !! i = Some p -> opens l ≡ₚ option_list (open_of p) ++ opens (take i l) ++ opens (drop (S i) l) /\
  forall q, opens (<[i := q]> l) ≡ₚ option_list (open_of q) ++ opens (take i l) ++ opens (drop (S i) l).
Proof.
  intros E. split; [|intros q].
  - rewrite <- (take_drop_middle l i p E) at 1. unfold opens. rewrite omap_app. cbn. destruct (open_of p); [|reflexivity]. 
    cbn. now rewrite <- Permutation_middle.
  - rewrite insert_take_drop by (eapply lookup_lt_Some; exact E). unfold opens. rewrite omap_app. cbn. destruct (open_of q); [|reflexivity].
    cbn. now rewrite <- Permutation_middle.
Qed.

(** The thread's event, and the others. *)
Lemma pend_find_spec l tid :
  table_ok l ->
  match pend_find tid l with
  | Some i => exists p rest, l !! i = Some p /\ p_used p = true /\ sv_tid (p_ev p) = tid /\ opens l ≡ₚ p_ev p :: rest /\
      tid ∉ map sv_tid rest /\ forall q, opens (<[i := q]> l) ≡ₚ option_list (open_of q) ++ rest
  | None => tid ∉ map sv_tid (opens l)
  end.
Proof.
  intros [H1 H2]. unfold pend_find. destruct (list_find (holds tid) l) as [[i p]|] eqn:E; cbn [fmap option_fmap option_map fst].
  - apply list_find_Some in E as (Hi & Hp & _). unfold holds in Hp. apply Is_true_eq_true, andb_true_iff in Hp as [Hu Ht]. apply Z.eqb_eq in Ht.
    destruct (opens_split l i p Hi) as [Ho Hq]. exists p, (opens (take i l) ++ opens (drop (S i) l)).
    assert (Et : p_tid p = sv_tid (p_ev p)) by exact (Forall_lookup_1 _ _ _ _ H1 Hi Hu).
    unfold open_of in Ho at 1. rewrite Hu in Ho. cbn in Ho. split_and!; auto; [congruence|].
    rewrite Ho in H2. cbn in H2. apply list.NoDup_cons in H2 as [H2 _]. congruence.
  - apply list_find_None in E. intros Hi. apply list_elem_of_fmap in Hi as (e & -> & He). apply list_elem_of_omap in He as (p & Hp & He).
    unfold open_of in He. destruct (p_used p) eqn:Hu; [|discriminate]. injection He as <-.
    rewrite list.Forall_forall in E, H1. apply (E p Hp). unfold holds. rewrite Hu, (H1 p Hp Hu), Z.eqb_refl. exact I.
Qed.

Section Table.
Context (g : config).
Hypothesis Hsink : has_sink g = true.
Hypothesis Hgrow : forall n, realloc_ok g n = true.

Notation pend_store := (pend_store (has_sink g) (realloc_ok g)).
Notation handle_return := (handle_return (has_sink g)).
Notation json_emit := (json_emit (has_sink g)).

(** The thread's entry [old], if it had one, has left the table for the output with
    value [ret]; the table now holds [new] and [rest]. *)
Record moved (u u' : user) (tid : Z) (ret : option Z) (new : option syscalls_syscall_event)
  (old : option syscalls_syscall_event) (rest : list syscalls_syscall_event) : Prop := {
  mv_ok : table_ok (g_pend u');
  mv_before : opens (g_pend u) ≡ₚ option_list old ++ rest;
  mv_after : opens (g_pend u') ≡ₚ option_list new ++ rest;
  mv_old : forall e, old = Some e -> sv_tid e = tid;
  mv_rest : tid ∉ map sv_tid rest;
  mv_json : map strip (g_json u') = map strip (g_json u) ++ map (fun e => (e, ret)) (option_list old)
}.

Lemma table_ok_of l rest new :
  Forall (fun p => p_used p = true -> p_tid p = sv_tid (p_ev p)) l -> opens l ≡ₚ option_list new ++ rest ->
  NoDup (map sv_tid rest) -> (forall e, new = Some e -> sv_tid e ∉ map sv_tid rest) -> table_ok l.
Proof.
  intros H1 H2 H3 H4. constructor; [exact H1|]. rewrite H2. destruct new as [e|]; [|exact H3]. cbn. apply list.NoDup_cons. auto.
Qed.

Lemma Forall_update (P : pend_entry -> Prop) l i q : Forall P l -> P q -> Forall P (<[i := q]> l).
Proof. intros. now apply Forall_insert. Qed.

Lemma pend_store_moved e id u :
  table_ok (g_pend u) -> exists old rest, moved u (pend_store e id u) (sv_tid e) None (Some e) old rest.
Proof.
  intros Hok. pose proof (pend_find_spec (g_pend u) (sv_tid e) Hok) as Hf. unfold Syscalls.pend_store. destruct Hok as [H1 H2].
  set (new := mk_pend true (sv_tid e) id e).
  assert (Hadd : forall l, opens l ≡ₚ e :: opens (g_pend u) -> Forall (fun p => p_used p = true -> p_tid p = sv_tid (p_ev p)) l ->
    sv_tid e ∉ map sv_tid (opens (g_pend u)) -> forall u', g_pend u' = l -> g_json u' = g_json u ->
    moved u u' (sv_tid e) None (Some e) None (opens (g_pend u))).
  { intros l Hl Hall Hni u' Hu Hj. constructor; rewrite ?Hu; auto; [|discriminate|now rewrite Hj, app_nil_r].
    apply (table_ok_of l (opens (g_pend u)) (Some e)); auto. now intros ? [= <-]. }
  destruct (pend_find (sv_tid e) (g_pend u)) as [i|].
  - destruct Hf as (p & rest & Hi & Hu & Ht & Ho & Hni & Hq). rewrite Hi. exists (Some (p_ev p)), rest. unfold Syscalls.json_emit. rewrite Hsink.
    specialize (Hq new). constructor; cbn [g_pend g_json set_pend]; auto.
    + apply (table_ok_of _ rest (Some e)); [apply Forall_update; auto|exact Hq| |now intros ? [= <-]].
      rewrite Ho in H2. cbn in H2. now apply list.NoDup_cons in H2.
    + now intros ? [= <-].
    + rewrite map_app. reflexivity.
  - exists None, (opens (g_pend u)). destruct (free_slot (g_pend u)) as [i|] eqn:Ef.
    + unfold free_slot in Ef. destruct (list_find _ _) as [[i' p]|] eqn:E; [|discriminate]. injection Ef as ->.
      apply list_find_Some in E as (Hi & Hp & _). apply Is_true_eq_true, negb_true_iff in Hp. destruct (opens_split _ _ _ Hi) as [Ho Hq].
      unfold open_of in Ho at 1. rewrite Hp in Ho. cbn in Ho. apply (Hadd (<[i := new]> (g_pend u))); auto; [|now apply Forall_update].
      rewrite (Hq new). cbn. now rewrite Ho.
    + assert (Happ : opens (g_pend u ++ [new]) ≡ₚ e :: opens (g_pend u)) by (unfold opens; rewrite omap_app; cbn; now rewrite Permutation_app_comm).
      assert (Hall : Forall (fun p => p_used p = true -> p_tid p = sv_tid (p_ev p)) (g_pend u ++ [new])).
      { apply Forall_app. split; [exact H1|]. now repeat constructor. }
      rewrite Hgrow. destruct (_ =? _); now apply (Hadd (g_pend u ++ [new])).
Qed.

Lemma handle_return_moved r u :
  table_ok (g_pend u) -> exists old rest, moved u (handle_return r u) (rv_tid r) (Some (rv_retval r)) None old rest.
Proof.
  intros Hok. pose proof (pend_find_spec (g_pend u) (rv_tid r) Hok) as Hf. unfold Syscalls.handle_return. destruct (pend_find _ _) as [i|].
  - destruct Hok as [H1 H2]. destruct Hf as (p & rest & Hi & Hu & Ht & Ho & Hni & Hq). rewrite Hi. exists (Some (p_ev p)), rest.
    unfold Syscalls.json_emit. rewrite Hsink. specialize (Hq (release p)). constructor; cbn [g_pend g_json set_pend]; auto.
    + apply (table_ok_of _ rest None); [apply Forall_update; [auto|discriminate]|exact Hq| |discriminate].
      rewrite Ho in H2. cbn in H2. now apply list.NoDup_cons in H2.
    + now intros ? [= <-].
    + rewrite map_app. reflexivity.
  - exists None, (opens (g_pend u)). constructor; auto; [discriminate|now rewrite app_nil_r].
Qed.

(** The worker on an event whose scope verdict is [v]. *)
Definition take_event (u : user) (ve : bool * sev) : user :=
  match snd ve with
  | SSyscall e => if fst ve then handle_syscall (names g) (has_sink g) (realloc_ok g) [] e u else u
  | SReturn r => handle_return r u
  | _ => u
  end.

Lemma process_verdict scopes e u :
  process_event (names g) (has_sink g) (realloc_ok g) scopes e u = take_event u (admitted scopes e, e).
Proof. destruct e as [e| | | |]; try reflexivity. cbn. unfold handle_syscall. cbn [scope_admits find_scope find]. now destruct (scope_admits scopes e). Qed.

(** The records that the events call for. *)
Fixpoint expected (w : list (bool * sev)) : list (syscalls_syscall_event * option Z) :=
  match w with
  | [] => []
  | (true, SSyscall e) :: w => (e, next_return (sv_tid e) (map snd w)) :: expected w
  | _ :: w => expected w
  end.

(** No entry is turned away while an earlier one of its thread waits for its return. *)
Fixpoint clean (o : gset Z) (w : list (bool * sev)) : Prop :=
  match w with
  | [] => True
  | (true, SSyscall e) :: w => clean ({[sv_tid e]} ∪ o) w
  | (false, SSyscall e) :: w => sv_tid e ∉ o /\ clean o w
  | (_, SReturn r) :: w => clean (o ∖ {[rv_tid r]}) w
  | _ :: w => clean o w
  end.

(** What the open entries will be recorded with. *)
Definition due (w : list (bool * sev)) (l : list syscalls_syscall_event) : list (syscalls_syscall_event * option Z) :=
  map (fun e => (e, next_return (sv_tid e) (map snd w))) l.

#[local] Instance due_perm w : Proper ((≡ₚ) ==> (≡ₚ)) (due w).
Proof. intros l l' H. unfold due. now rewrite H. Qed.
Lemma due_app w l l' : due w (l ++ l') = due w l ++ due w l'.
Proof. apply map_app. Qed.

Lemma due_skip tid ve w l :
  (forall t, t <> tid -> next_return t (map snd (ve :: w)) = next_return t (map snd w)) ->
  tid ∉ map sv_tid l -> due (ve :: w) l = due w l.
Proof.
  intros H Hl. unfold due. apply map_ext_in. intros e He. f_equal. apply H. intros <-. apply Hl, list_elem_of_fmap. exists e.
  split; [reflexivity|now apply list_elem_of_In].
Qed.

Lemma due_all (ret : option Z) w l : Forall (fun e => next_return (sv_tid e) (map snd w) = ret) l -> due w l = map (fun e => (e, ret)) l.
Proof. intros H. unfold due. apply map_ext_in. intros e He. f_equal. rewrite List.Forall_forall in H. now apply H. Qed.

(** An event [ve] of thread [tid] whose effect on the table is a move with the value
    the event gives. *)
Lemma due_moved u u' tid ret new old rest ve w :
  moved u u' tid ret new old rest ->
  (forall t, next_return t (map snd (ve :: w)) = if t =? tid then ret else next_return t (map snd w)) ->
  map strip (g_json u') ++ due w (opens (g_pend u')) ≡ₚ
  map strip (g_json u) ++ due (ve :: w) (opens (g_pend u)) ++ due w (option_list new).
Proof.
  intros [_ Hb Ha Ho Hr Hj] Hn. rewrite Hj, Hb, Ha, !due_app.
  rewrite (due_all ret (ve :: w) (option_list old)).
  2:{ destruct old as [e|]; repeat constructor. rewrite Hn, (Ho e eq_refl), Z.eqb_refl. reflexivity. }
  rewrite (due_skip tid ve w rest); [|intros t Ht; rewrite Hn; now rewrite (proj2 (Z.eqb_neq _ _))|exact Hr].
  rewrite <- !app_assoc. do 2 apply Permutation_app_head. apply Permutation_app_comm.
Qed.

Lemma flush_json l u : map strip (g_json (pend_flush (has_sink g) l u)) = map strip (g_json u) ++ map (fun e => (e, None)) (opens l).
Proof.
  revert u. induction l as [|p l IH]; intros u; cbn [pend_flush opens omap list_omap]; [now rewrite app_nil_r|]. rewrite IH. unfold open_of.
  destruct (p_used p); [|reflexivity]. unfold Syscalls.json_emit. rewrite Hsink. cbn [g_json]. rewrite map_app, <- app_assoc. reflexivity.
Qed.

(** The worker records what the events call for. *)
Lemma worker_records w : forall u o,
  table_ok (g_pend u) -> clean o w -> (forall t, t ∈ map sv_tid (opens (g_pend u)) -> t ∈ o) ->
  map strip (g_json (pend_flush_all (has_sink g) (fold_left take_event w u))) ≡ₚ
  map strip (g_json u) ++ due w (opens (g_pend u)) ++ expected w.
Proof.
  induction w as [|[v e] w IH]; intros u o Hok Hc Ho.
  { unfold pend_flush_all. cbn [fold_left g_json set_pend expected]. rewrite flush_json, app_nil_r. unfold due. reflexivity. }
  assert (Hskip : clean o w -> due ((v, e) :: w) (opens (g_pend u)) = due w (opens (g_pend u)) ->
    map strip (g_json (pend_flush_all (has_sink g) (fold_left take_event w u))) ≡ₚ
    map strip (g_json u) ++ due ((v, e) :: w) (opens (g_pend u)) ++ expected w) by (intros Hw ->; now apply (IH u o)).
  destruct e as [e|e|e|r|k]; cbn [fold_left expected clean] in *; try (destruct v; (apply Hskip; [exact Hc|reflexivity])).
  - destruct v.
    + unfold take_event at 2. cbn [fst snd]. unfold handle_syscall. cbn [scope_admits find_scope find negb]. set (u0 := mk_user _ _ (g_pend u) _ (g_json u)).
      destruct (pend_store_moved e (g_next_id u) u0 Hok) as (old & rest & Hm). rewrite (IH _ _ (mv_ok _ _ _ _ _ _ _ Hm) Hc).
      * rewrite app_assoc, (due_moved _ _ _ _ _ _ _ (true, SSyscall e) w Hm).
        -- cbn [option_list due map app]. now rewrite <- !app_assoc.
        -- intros t. cbn. rewrite Z.eqb_sym. reflexivity.
      * intros t. rewrite (mv_after _ _ _ _ _ _ _ Hm). cbn. rewrite elem_of_cons. intros [->|Ht]; [set_solver|].
        apply elem_of_union_r, Ho. change (g_pend u) with (g_pend u0). rewrite (mv_before _ _ _ _ _ _ _ Hm), map_app. set_solver.
    + destruct Hc as [Hn Hc]. apply Hskip; [exact Hc|]. apply (due_skip (sv_tid e)); [|intros Hi; now apply Hn, Ho].
      intros t Ht. cbn. now rewrite (proj2 (Z.eqb_neq _ _)) by auto.
  - assert (Hc' : clean (o ∖ {[rv_tid r]}) w) by (destruct v; exact Hc). replace (if v then expected w else expected w) with (expected w) by (now destruct v).
    destruct (handle_return_moved r u Hok) as (old & rest & Hm). unfold take_event at 2. cbn [fst snd]. rewrite (IH _ _ (mv_ok _ _ _ _ _ _ _ Hm) Hc').
    + rewrite app_assoc, (due_moved _ _ _ _ _ _ _ (v, SReturn r) w Hm); [cbn [option_list due map app]; now rewrite app_nil_r, <- app_assoc|].
      intros t. cbn. rewrite Z.eqb_sym. reflexivity.
    + intros t. rewrite (mv_after _ _ _ _ _ _ _ Hm). cbn [option_list app]. intros Ht. apply elem_of_difference. split.
      * apply Ho. rewrite (mv_before _ _ _ _ _ _ _ Hm), map_app. set_solver.
      * rewrite elem_of_singleton. intros ->. exact (mv_rest _ _ _ _ _ _ _ Hm Ht).
Qed.
End Table.

(** ** Entries, returns and records *)

(** Verdicts on the syscalls among the events, in order. *)
Definition verdicts (w : list (bool * sev)) : list bool :=
  omap (fun ve => match snd ve with SSyscall _ => Some (fst ve) | _ => None end) w.
Definition pick {A} (vs : list bool) (l : list A) : list A := omap (fun p => if fst p : bool then Some (snd p) else None) (zip vs l).

Lemma expected_pick w : expected w = pick (verdicts w) (logged (map snd w)).
Proof.
  induction w as [|[v e] w IH]; [reflexivity|]. destruct e; try (destruct v; exact IH). unfold pick in *. destruct v; cbn; now rewrite IH.
Qed.

Lemma clean_all_true w : Forall (fun ve => fst ve = true) w -> forall o, clean o w.
Proof. induction 1 as [|[v e] w Hv _ IH]; intros o; [exact I|]. cbn in Hv. subst v. destruct e; cbn; apply IH. Qed.

Lemma clean_alternating w : forall o o', alternating o (map snd w) -> o' ⊆ o -> clean o' w.
Proof.
  induction w as [|[v e] w IH]; intros o o' Ha Hs; [exact I|]. destruct e as [e|e|e|r|k]; cbn in Ha.
  - destruct Ha as [Hn Ha]. destruct v; cbn; [|split; [set_solver|]]; apply (IH ({[sv_tid e]} ∪ o)); auto; set_solver.
  - destruct v; now apply (IH o).
  - destruct v; now apply (IH o).
  - destruct v; apply (IH (o ∖ {[rv_tid r]})); auto; set_solver.
  - destruct v; now apply (IH o).
Qed.

Section Compose.
Context (g : config).

Lemma step_worker y a u0 : y_u y = fold_left (take_event g) (y_done y) u0 -> y_u (sys_step g y a) = fold_left (take_event g) (y_done (sys_step g y a)) u0.
Proof.
  intros H. destruct a; try exact H; cbn [sys_step].
  - destruct (probed g nr); exact H.
  - unfold enqueue_event. destruct (k_ring _); [exact H|]. destruct (arm_event _ _ _ _ _). exact H.
  - unfold worker_main. destruct (y_queue y) as [|e q]; [exact H|]. cbn [y_u y_done]. rewrite fold_left_app, <- H. cbn [fold_left]. apply process_verdict.
Qed.

Lemma step_unscoped y a :
  y_scopes y = [] /\ Forall (fun ve => fst ve = true) (y_done y) ->
  y_scopes (sys_step g y a) = [] /\ Forall (fun ve => fst ve = true) (y_done (sys_step g y a)).
Proof.
  intros [H1 H2]. destruct a; try (split; [exact H1|exact H2]); cbn [sys_step].
  - destruct (probed g nr); auto.
  - cbn [y_scopes y_done]. rewrite H1. auto.
  - unfold enqueue_event. destruct (k_ring _) as [|e r]; [auto|]. destruct e; cbn; rewrite ?H1; auto.
  - unfold worker_main. destruct (y_queue y) as [|e q]; [auto|]. cbn [y_scopes y_done]. split; [exact H1|]. apply Forall_app. split; [exact H2|].
    constructor; [|constructor]. rewrite H1. now destruct e.
Qed.

Lemma run_induct (P : sys -> Prop) y acts : (forall y a, P y -> P (sys_step g y a)) -> P y -> P (sys_run g y acts).
Proof. intros Hs. revert y. induction acts as [|a acts IH]; intros y H; [exact H|]. apply IH. now apply Hs. Qed.
End Compose.


(** ** Reported syscalls are issued by the library *)

Section Attribution.
Context (g : config).

(** Process [pid] mapped [r] for execution from a file that a selector names, or its
    maps file listed such a mapping. *)
Definition armed_by (acts : list action) (pid : Z) (r : Z * Z) : Prop :=
  (exists c v f, Mmap c v ∈ acts /\ c_pid (f_c c) = pid /\ vm_file v = Some f /\ Z.land (vm_flags v) LIBTRACE_VM_EXEC <> 0 /\
     lib_name_matches (fnmatch g) (libs g) (take (LIBTRACE_MAX_NAME - 1) (default [] (vf_name f))) = true /\ r = (vm_start v, vm_end v)) \/
  (exists lines ml, Seed pid lines ∈ acts /\ ml ∈ lines /\ lib_seed_line_arms_any (fnmatch g) ml (libs g) = true /\ r = (start ml, end_ ml)).

Definition in_range (r : Z * Z) (ip : Z) : Prop := fst r <= ip < snd r.

(** Where an event came from. *)
Definition event_ok (acts : list action) (e : sev) : Prop :=
  match e with
  | SMap m => lib_name_matches (fnmatch g) (libs g) (lm_name m) = true -> armed_by acts (lm_pid m) (lm_start m, lm_end m)
  | SSyscall e => capture_all g = false -> exists ip r, ip ∈ take 2 (sv_stack e) /\ armed_by acts (sv_pid e) r /\ in_range r ip
  | _ => True
  end.

Record attribution_ok (acts : list action) (y : sys) : Prop := {
  at_ranges : forall pid r, r ∈ default [] (y_ranges y !! pid) -> armed_by acts pid r;
  at_log : Forall (event_ok acts) (log y)
}.

Lemma armed_mono acts acts' pid r : acts ⊆ acts' -> armed_by acts pid r -> armed_by acts' pid r.
Proof.
  intros Hs [(c & v & f & H & H')|(lines & ml & H & H')]; [left; exists c, v, f|right; exists lines, ml]; split; auto.
Qed.

Lemma event_mono acts acts' e : acts ⊆ acts' -> event_ok acts e -> event_ok acts' e.
Proof.
  intros Hs. destruct e as [e|m| | |]; cbn; try tauto.
  - intros H Hc. destruct (H Hc) as (ip & r & H1 & H2 & H3). exists ip, r. split; [exact H1|]. split; [now apply (armed_mono acts)|exact H3].
  - intros H Hm. now apply (armed_mono acts), H.
Qed.

Lemma push_lib_range_in m tgid a b pid r :
  r ∈ default [] (push_lib_range m tgid a b !! pid) -> r ∈ default [] (m !! pid) \/ (pid = tgid /\ r = (a, b)).
Proof.
  unfold push_lib_range. destruct (existsb _ _); [auto|]. destruct (_ <=? _)%nat; [auto|]. unfold map_update. destruct (_ || _); [|auto].
  destruct (decide (pid = tgid)) as [->|]; [|rewrite lookup_insert_ne by auto; auto]. rewrite lookup_insert_eq. cbn [from_option id].
  intros Hr. apply elem_of_app in Hr as [Hr|Hr]; [auto|]. apply list_elem_of_singleton in Hr. auto.
Qed.

Lemma seed_in acts tgid lines m :
  Seed tgid lines ∈ acts -> (forall pid r, r ∈ default [] (m !! pid) -> armed_by acts pid r) ->
  forall pid r, r ∈ default [] (seed_lib_ranges_from_maps (fnmatch g) (libs g) tgid lines m !! pid) -> armed_by acts pid r.
Proof.
  intros Hi Hm. unfold seed_lib_ranges_from_maps. destruct (_ =? 0)%nat; [exact Hm|].
  assert (Hsub : forall ml, ml ∈ lines -> ml ∈ lines) by auto. revert Hsub. generalize lines at 1 3. intros ls. revert m Hm.
  induction ls as [|ml ls IH]; intros m Hm Hsub; [exact Hm|]. cbn [fold_left]. apply IH; [|intros x Hx; apply Hsub; now apply elem_of_cons; right].
  intros pid r. destruct (lib_seed_line_arms_any _ ml _) eqn:E; [|apply Hm]. intros Hr. apply push_lib_range_in in Hr as [Hr|[-> ->]]; [now apply Hm|].
  right. exists lines, ml. split_and!; auto. apply Hsub, elem_of_cons. auto.
Qed.

Lemma hit_exists armed stack :
  sysc_issuer_hit armed stack = true -> exists ip r, ip ∈ take 2 stack /\ r ∈ armed /\ in_range r ip.
Proof.
  unfold sysc_issuer_hit. intros H. apply existsb_exists in H as (ip & Hip & H). apply existsb_exists in H as (r & Hr & H).
  apply andb_true_iff in H as [H1 H2]. b2p. exists ip, r. split; [now apply list_elem_of_In|]. split; [|split; auto].
  apply list_elem_of_In in Hr. apply (subseteq_take _ _ _ Hr).
Qed.

Lemma issued_armed acts y c :
  attribution_ok acts y -> issued g y c = true -> capture_all g = false ->
  exists ip r, ip ∈ take 2 (svc_stack c) /\ armed_by acts (c_pid (f_c c)) r /\ in_range r ip.
Proof.
  intros [Hr _] Hi Hc. unfold issued in Hi. rewrite Hc in Hi. apply andb_true_iff in Hi as [Hi _]. apply andb_true_iff in Hi as [_ Hi].
  apply hit_exists in Hi as (ip & r & H1 & H2 & H3). exists ip, r. split; [exact H1|]. split; [now apply Hr|exact H3].
Qed.

Lemma svc_event_stack snap ats sas c : sv_stack (svc_event snap ats sas c) = svc_stack c /\ sv_pid (svc_event snap ats sas c) = c_pid (f_c c).
Proof. unfold svc_event. destruct (if _ =? 0 then _ else _) as [p l]. now destruct (read_sock _ _ _). Qed.

Lemma log_step_ok acts y a : attribution_ok acts y -> Forall (event_ok (acts ++ [a])) (log (sys_step g y a)).
Proof.
  intros Hok. destruct (step_log g y a) as (l & Ho & -> & _). pose proof Hok as [_ Hl].
  assert (Hs : acts ⊆ acts ++ [a]) by set_solver. assert (Ha : a ∈ acts ++ [a]) by set_solver. rewrite !Forall_app. split_and!.
  - revert Hl. apply List.Forall_impl. intros e. now apply event_mono.
  - revert Ho. apply List.Forall_impl. intros [e|m| | |] He; cbn in *; auto; [destruct He|]. intros Hm. destruct a as [| | |c v| | | | |]; try destruct He.
    destruct H as (Hf & Hx & Hp & Hst & He & Hn). left. exists c, v, x. rewrite Hn in Hm. rewrite Hst, He. auto 8.
  - destruct a as [c|c|c nr ret| | | | | |]; cbn [step_events]; try apply List.Forall_nil.
    + destruct (selected g y c) eqn:E; [|apply List.Forall_nil]. apply List.Forall_cons; [|apply List.Forall_nil]. intros Hc.
      destruct (svc_event_stack (snapshot_enabled g) (arg_types g) (sock_args g) c) as [-> ->]. unfold selected in E. apply andb_true_iff in E as [E _].
      destruct (issued_armed acts y c Hok E Hc) as (ip & r & H1 & H2 & H3). exists ip, r. split; [exact H1|]. split; [now apply (armed_mono acts)|exact H3].
    + destruct (issued g y c) eqn:E; [|apply List.Forall_nil]. apply List.Forall_cons; [|apply List.Forall_nil]. intros Hc. cbn.
      destruct (issued_armed acts y c Hok E Hc) as (ip & r & H1 & H2 & H3). exists ip, r. split; [exact H1|]. split; [now apply (armed_mono acts)|exact H3].
    + destruct (_ && room c); repeat constructor.
Qed.

Lemma ranges_step_ok acts y a pid r :
  attribution_ok acts y -> r ∈ default [] (y_ranges (sys_step g y a) !! pid) -> armed_by (acts ++ [a]) pid r.
Proof.
  intros [Hr Hl] Hi. assert (Hs : acts ⊆ acts ++ [a]) by set_solver.
  assert (Hold : r ∈ default [] (y_ranges y !! pid) -> armed_by (acts ++ [a]) pid r) by (intros H; now apply (armed_mono acts), Hr).
  destruct a as [c|c|c nr ret|c v|c v s e|c child|tgid lines| |]; cbn [sys_step] in Hi; try exact (Hold Hi).
  - destruct (probed g nr); exact (Hold Hi).
  - cbn [y_ranges] in Hi. revert Hi. apply seed_in; [set_solver|]. intros pid' r' H. now apply (armed_mono acts), Hr.
  - unfold enqueue_event in Hi. destruct (k_ring (y_k y)) as [|e ring] eqn:E; [exact (Hold Hi)|]. destruct e as [e|m|e|e|e]; try exact (Hold Hi).
    cbn [arm_event y_ranges] in Hi. destruct (lib_name_matches _ _ (lm_name m)) eqn:Em; [|exact (Hold Hi)].
    apply push_lib_range_in in Hi as [Hi|[-> ->]]; [exact (Hold Hi)|]. apply (armed_mono acts); [exact Hs|].
    rewrite list.Forall_forall in Hl. apply (Hl (SMap m)); [|exact Em]. unfold log. rewrite E. set_solver.
  - unfold worker_main in Hi. destruct (y_queue y); exact (Hold Hi).
Qed.

Lemma attribution_run acts : forall acts0 y, attribution_ok acts0 y -> attribution_ok (acts0 ++ acts) (sys_run g y acts).
Proof.
  induction acts as [|a acts IH]; intros acts0 y H; [now rewrite app_nil_r|]. change (a :: acts) with ([a] ++ acts). rewrite app_assoc. apply IH.
  constructor; [intros pid r; now apply ranges_step_ok|now apply log_step_ok].
Qed.
End Attribution.

(** C13: the library filter is sound.  In every run without capture-all, each syscall
    event, taken by the worker or still on its way, has among its first two frames an
    address inside a range that the same process mapped for execution from a file whose
    name a selector matches, or that its maps file listed as such. *)
Theorem reported_syscalls_are_issued g pids scopes acts e :
  capture_all g = false -> SSyscall e ∈ log (sys_run g (sys_init pids scopes) acts) ->
  exists ip r, ip ∈ take 2 (sv_stack e) /\ armed_by g acts (sv_pid e) r /\ in_range r ip.
Proof.
  intros Hc He. assert (H0 : attribution_ok g [] (sys_init pids scopes)).
  { constructor; [|constructor]. intros pid r. cbn. rewrite lookup_empty. intros H. now apply not_elem_of_nil in H. }
  destruct (attribution_run g acts [] _ H0) as [_ Hl]. rewrite list.Forall_forall in Hl. exact (Hl _ He Hc).
Qed.

(** ** Where entries, returns and ranges go wrong *)

Definition ex_ctx (pid tid nr : Z) (stack : list Z) (room : bool) : fctx :=
  mk_fctx (mk_ctx 10001 (Z.lor (Z.shiftl pid 32) tid) 0 0 ([1; 2; 3; 4; 5; 6; 0; nr; nr] ++ replicate 22 0) 7 room (fun _ => None) (fun _ _ => None))
    true stack [] 1 0 0.
Definition ex_vma (name : list byte) (a b : Z) : vma := mk_vma (Some (mk_vfile (Some (1, 2)) (Some name))) 5 a b 0.
Definition libx : list byte := bytes_of "libx.so".
Definition liby : list byte := bytes_of "liby.so".
Definition ex_config (mode : Z) (filter : list Z) : config :=
  mk_config {[10001]} false false mode filter [] [] (fun s => s) (fun _ _ => false) [libx; liby] (anubee_sysindex_build [])
    true (fun _ => true) (fun nr => negb (nr =? 98)).
Definition ex_run (g : config) (scopes : list sysc_scope) (acts : list action) : sys := sys_run g (sys_init ∅ scopes) acts.
Definition seen (y : sys) : list (Z * option Z) :=
  map (fun r => (sv_nr (r_ev r), r_ret r)) (g_json (pend_flush_all true (y_u y))).
Definition settle (n : nat) : list action := replicate n Drain ++ replicate n Work.

(** A selected syscall without a return probe (futex, 98) leaves its mark; the return
    of the thread's next syscall (openat, 56), which is not selected, takes the mark,
    and the record of the first gets the second's value. *)
Theorem stale_mark_takes_next_return :
  let g := ex_config 1 (replicate 98 0 ++ [1] ++ replicate 413 0) in
  seen (ex_run g [] ([Mmap (ex_ctx 100 7 0 [] true) (ex_vma libx 0x7000 0x8000)] ++ settle 1 ++
    [Enter (ex_ctx 100 7 98 [0x7010] true); Leave (ex_ctx 100 7 98 [] true) 98 0;
     Enter (ex_ctx 100 7 56 [0x7010] true); Leave (ex_ctx 100 7 56 [] true) 56 33] ++ settle 2)) = [(98, Some 33)].
Proof. vm_compute. reflexivity. Qed.

(** A return event was lost (read, 63); the thread's next syscall is turned away by
    its scope, but its return is not, and completes the record of the first. *)
Theorem scoped_out_return_is_misattributed :
  let g := ex_config 0 [] in
  seen (ex_run g [mk_scope 56 [liby] []] ([Mmap (ex_ctx 100 7 0 [] true) (ex_vma libx 0x7000 0x8000)] ++ settle 1 ++
    [Enter (ex_ctx 100 7 63 [0x7010] true); Leave (ex_ctx 100 7 63 [] false) 63 4;
     Enter (ex_ctx 100 7 56 [0x7010] true); Leave (ex_ctx 100 7 56 [] true) 56 33] ++ settle 3)) = [(63, Some 33)].
Proof. vm_compute. reflexivity. Qed.

(** The scope of 64-bit syscall 63 (read) also turns away 32-bit syscall 63 (dup2). *)
Theorem scope_drops_compat_number :
  let g := ex_config 0 [] in
  let acts := [Mmap (ex_ctx 100 7 0 [] true) (ex_vma libx 0x7000 0x8000)] ++ settle 1 ++ [Enter32 (ex_ctx 100 7 63 [0x7010] true)] ++ settle 1 in
  seen (ex_run g [] acts) = [(63, None)] /\ seen (ex_run g [mk_scope 63 [liby] []] acts) = [].
Proof. vm_compute. auto. Qed.

(** Scope ranges are not kept per process: a range of [liby] in process 100 admits the
    syscalls of [libx] at the same addresses in process 200. *)
Theorem scope_ranges_cross_processes :
  let g := ex_config 0 [] in
  seen (ex_run g [mk_scope 56 [liby] []]
    ([Mmap (ex_ctx 100 7 0 [] true) (ex_vma liby 0x7000 0x8000); Mmap (ex_ctx 200 8 0 [] true) (ex_vma libx 0x7000 0x8000)] ++ settle 2 ++
     [Enter (ex_ctx 200 8 56 [0x7010] true); Leave (ex_ctx 200 8 56 [] true) 56 33] ++ settle 2)) = [(56, Some 33)].
Proof. vm_compute. reflexivity. Qed.

(** A range stays armed when the library is unmapped: another library mapped there has
    its syscalls reported. *)
Theorem unmapped_range_stays_armed :
  let g := ex_config 0 [] in
  seen (ex_run g [] ([Mmap (ex_ctx 100 7 0 [] true) (ex_vma libx 0x7000 0x8000);
     Munmap (ex_ctx 100 7 0 [] true) (ex_vma libx 0x7000 0x8000) 0x7000 0x8000;
     Mmap (ex_ctx 100 7 0 [] true) (ex_vma (bytes_of "libother.so") 0x7000 0x8000)] ++ settle 3 ++
     [Enter (ex_ctx 100 7 56 [0x7010] true); Leave (ex_ctx 100 7 56 [] true) 56 33] ++ settle 2)) = [(56, Some 33)].
Proof. vm_compute. reflexivity. Qed.

(** The ninth place a library is mapped at is not armed: its syscalls are not seen,
    though the library is at none of the other eight any more. *)
Theorem ninth_mapping_is_not_armed :
  let g := ex_config 0 [] in
  let visit i := [Mmap (ex_ctx 100 7 0 [] true) (ex_vma libx (0x1000 * i) (0x1000 * (i + 1))); Drain;
                  Enter (ex_ctx 100 7 56 [0x1000 * i + 16] true); Leave (ex_ctx 100 7 56 [] true) 56 i;
                  Munmap (ex_ctx 100 7 0 [] true) (ex_vma libx (0x1000 * i) (0x1000 * (i + 1))) (0x1000 * i) (0x1000 * (i + 1))] in
  seen (ex_run g [] (concat (map (fun i => visit i ++ settle 4) [1; 2; 3; 4; 5; 6; 7; 8; 9]))) =
  map (fun i => (56, Some i)) [1; 2; 3; 4; 5; 6; 7; 8].
Proof. vm_compute. reflexivity. Qed.

(** An address length that is a multiple of 64, such as the 128 bytes of a
    [sockaddr_storage], is masked to 0: nothing of the address is captured. *)
Theorem whole_blocks_are_not_captured c sidx args :
  0 <= nth (Z.to_nat sidx) args 0 -> nth (Z.to_nat sidx) args 0 mod 64 = 0 -> read_sock c sidx args = (0, []).
Proof.
  intros H0 Hm. unfold read_sock. destruct (sidx =? 0); [reflexivity|]. destruct (sidx <? _); [|reflexivity]. destruct (_ || _); [reflexivity|].
  replace (Z.land (u32 (nth (Z.to_nat sidx) args 0)) (CORR_SOCK_MAX - 1)) with 0; [reflexivity|].
  change (CORR_SOCK_MAX - 1) with (Z.ones 6). rewrite Z.land_ones by lia. unfold u32. change (2 ^ 32) with (2 ^ 6 * 2 ^ 26). change (2 ^ 6) with 64.
  rewrite Z.rem_mul_r by lia. now rewrite Z.mul_comm, Z.mod_add, Z.mod_mod, Hm by lia.
Qed.

(** ** Witnesses *)

Definition ex_acts : list action :=
  [Mmap (ex_ctx 100 7 0 [] true) (ex_vma libx 0x7000 0x8000); Drain; Work;
   Enter (ex_ctx 100 7 63 [0x7010; 0x9000] true); Enter (ex_ctx 100 8 56 [0x9000; 0x7020] true); Enter (ex_ctx 100 9 57 [0x9000; 0x9001; 0x7020] true);
   Drain; Work; Leave (ex_ctx 100 8 56 [] true) 56 33; Leave (ex_ctx 100 9 57 [] true) 57 0;
   Enter (ex_ctx 100 8 63 [0x7010] true); Drain; Drain; Drain; Work; Work; Work].


Lemma reported_syscalls_are_issued_witness :
  exists ip r, ip ∈ take 2 [0x9000; 0x7020] /\ armed_by (ex_config 0 []) ex_acts 100 r /\ in_range r ip.
Proof.
  apply (reported_syscalls_are_issued (ex_config 0 []) ∅ [] ex_acts (svc_event false [] [] (ex_ctx 100 8 56 [0x9000; 0x7020] true))).
  - reflexivity.
  - apply (list_elem_of_lookup_2 _ 2). vm_compute. reflexivity.
Defined.
