(* ===== verification/Json.v ===== *)
(** * Json: the values the records stand for, and a strict reader

    The engines' builders append text piece by piece.  This file has the JSON values
    such a text denotes, their canonical text, a reader of JSON texts (no leading
    zeros, no bare control characters, white space allowed between tokens) and the
    proof that it reads the canonical text, and a whole framed output file, back. *)

From Stdlib Require Import ZArith Lia.
From stdpp Require Import base list option numbers.
From S2P Require Import Prelude Emit.

Local Open Scope Z_scope.

(** [JNum neg n] is the number with the magnitude [n]. *)
Inductive json :=
| JNull | JBool (b : bool) | JNum (neg : bool) (n : Z) | JStr (s : list byte)
| JArr (l : list json) | JObj (l : list (list byte * json)).

Definition jnat (v : Z) : json := JNum false v.
Definition jint (v : Z) : json := JNum (v <? 0) (Z.abs v).
Definition jstr (s : String.string) : json := JStr (bytes_of s).
Arguments jstr s%_string_scope.
Definition jhex (v : Z) : json := JStr (jop_text (OpHex v)).

Section Induction.
Context (P : json -> Prop) (H0 : P JNull) (H1 : forall b, P (JBool b)) (H2 : forall g n, P (JNum g n))
  (H3 : forall s, P (JStr s)) (H4 : forall l, Forall P l -> P (JArr l))
  (H5 : forall l, Forall (fun m => P (snd m)) l -> P (JObj l)).

Fixpoint json_induction (v : json) : P v :=
  match v with
  | JNull => H0
  | JBool b => H1 b
  | JNum g n => H2 g n
  | JStr s => H3 s
  | JArr l => H4 l ((fix go l : Forall P l :=
      match l with [] => @List.Forall_nil _ _ | v :: l => @List.Forall_cons _ _ _ _ (json_induction v) (go l) end) l)
  | JObj l => H5 l ((fix go l : Forall (fun m => P (snd m)) l :=
      match l with [] => @List.Forall_nil _ _ | m :: l => @List.Forall_cons _ _ _ _ (json_induction (snd m)) (go l) end) l)
  end.
End Induction.

(** ** The canonical text, in front of [k] *)

Definition jnum (neg : bool) (n : Z) : list byte :=
  (if neg then [x2d] else []) ++ num_text (digits 24 10 n) dec_digit.
Definition jkey (s k : list byte) : list byte := x22 :: esc s ++ x22 :: k.

Fixpoint jput (v : json) (k : list byte) : list byte :=
  match v with
  | JNull => x6e :: x75 :: x6c :: x6c :: k
  | JBool true => x74 :: x72 :: x75 :: x65 :: k
  | JBool false => x66 :: x61 :: x6c :: x73 :: x65 :: k
  | JNum g n => jnum g n ++ k
  | JStr s => jkey s k
  | JArr l =>
      x5b :: match l with
             | [] => x5d :: k
             | v :: l => jput v ((fix go l := match l with
                                              | [] => x5d :: k
                                              | v :: l => x2c :: jput v (go l)
                                              end) l)
             end
  | JObj l =>
      x7b :: match l with
             | [] => x7d :: k
             | (s, v) :: l => jkey s (x3a :: jput v ((fix go l := match l with
                                              | [] => x7d :: k
                                              | (s, v) :: l => x2c :: jkey s (x3a :: jput v (go l))
                                              end) l))
             end
  end.

Fixpoint jrest (l : list json) (k : list byte) : list byte :=
  match l with [] => x5d :: k | v :: l => x2c :: jput v (jrest l k) end.
Fixpoint jmore (l : list (list byte * json)) (k : list byte) : list byte :=
  match l with [] => x7d :: k | m :: l => x2c :: jkey (fst m) (x3a :: jput (snd m) (jmore l k)) end.

Lemma jput_arr v l k : jput (JArr (v :: l)) k = x5b :: jput v (jrest l k).
Proof. cbn [jput]. do 2 f_equal. induction l as [|w l IH]; [reflexivity|]. cbn [jrest]. do 2 f_equal. exact IH. Qed.
Lemma jput_obj m l k : jput (JObj (m :: l)) k = x7b :: jkey (fst m) (x3a :: jput (snd m) (jmore l k)).
Proof.
  destruct m as [s v]. cbn [jput fst snd]. do 4 f_equal.
  induction l as [|[s' w] l IH]; [reflexivity|]. cbn [jmore fst snd]. do 4 f_equal. exact IH.
Qed.

(** ** The reader *)

Definition is_ws (c : byte) : bool := (bz c =? 0x20) || (bz c =? 0x0a) || (bz c =? 0x0d) || (bz c =? 0x09).
Fixpoint skip_ws (l : list byte) : list byte :=
  match l with c :: l' => if is_ws c then skip_ws l' else l | [] => [] end.
Definition is_digit (c : byte) : bool := (0x30 <=? bz c) && (bz c <=? 0x39).
Fixpoint digit_run (l : list byte) : list byte * list byte :=
  match l with
  | c :: l' => if is_digit c then let '(d, r) := digit_run l' in (c :: d, r) else ([], l)
  | [] => ([], [])
  end.
(** A magnitude: "0", or digits that do not start with a zero. *)
Definition read_mag (l : list byte) : option (Z * list byte) :=
  let '(d, r) := digit_run l in
  match d with
  | [] => None
  | x30 :: _ :: _ => None
  | _ => match read_dec d with Some n => Some (n, r) | None => None end
  end.
Definition read_string (l : list byte) : option (list byte * list byte) := read_str (S (length l)) l.

Fixpoint jvalue (fuel : nat) (l : list byte) {struct fuel} : option (json * list byte) :=
  match fuel with
  | O => None
  | S fuel =>
      match skip_ws l with
      | x6e :: x75 :: x6c :: x6c :: r => Some (JNull, r)
      | x74 :: x72 :: x75 :: x65 :: r => Some (JBool true, r)
      | x66 :: x61 :: x6c :: x73 :: x65 :: r => Some (JBool false, r)
      | x22 :: r => match read_string r with Some (s, r) => Some (JStr s, r) | None => None end
      | x2d :: r => match read_mag r with Some (n, r) => Some (JNum true n, r) | None => None end
      | x5b :: r =>
          match skip_ws r with
          | x5d :: r => Some (JArr [], r)
          | _ => match jelems fuel r with Some (l, r) => Some (JArr l, r) | None => None end
          end
      | x7b :: r =>
          match skip_ws r with
          | x7d :: r => Some (JObj [], r)
          | _ => match jmembers fuel r with Some (l, r) => Some (JObj l, r) | None => None end
          end
      | r => match read_mag r with Some (n, r) => Some (JNum false n, r) | None => None end
      end
  end
with jelems (fuel : nat) (l : list byte) {struct fuel} : option (list json * list byte) :=
  match fuel with
  | O => None
  | S fuel =>
      match jvalue fuel l with
      | Some (v, r) =>
          match skip_ws r with
          | x2c :: r => match jelems fuel r with Some (l, r) => Some (v :: l, r) | None => None end
          | x5d :: r => Some ([v], r)
          | _ => None
          end
      | None => None
      end
  end
with jmembers (fuel : nat) (l : list byte) {struct fuel} : option (list (list byte * json) * list byte) :=
  match fuel with
  | O => None
  | S fuel =>
      match skip_ws l with
      | x22 :: r =>
          match read_string r with
          | Some (s, r) =>
              match skip_ws r with
              | x3a :: r =>
                  match jvalue fuel r with
                  | Some (v, r) =>
                      match skip_ws r with
                      | x2c :: r => match jmembers fuel r with Some (l, r) => Some ((s, v) :: l, r) | None => None end
                      | x7d :: r => Some ([(s, v)], r)
                      | _ => None
                      end
                  | None => None
                  end
              | _ => None
              end
          | None => None
          end
      | _ => None
      end
  end.

(** A whole text: one value with white space around it. *)
Definition jparse (l : list byte) : option json :=
  match jvalue (S (length l)) l with
  | Some (v, r) => match skip_ws r with [] => Some v | _ => None end
  | None => None
  end.

(** ** Reading the canonical text back *)

Fixpoint jok (v : json) : Prop :=
  match v with
  | JNum _ n => 0 <= n < 2 ^ 64
  | JArr l => foldr (fun v P => jok v /\ P) True l
  | JObj l => foldr (fun m P => jok (snd m) /\ P) True l
  | _ => True
  end.
Fixpoint jsize (v : json) : nat :=
  match v with
  | JArr l => S (foldr (fun v n => S (jsize v + n)) O l)
  | JObj l => S (foldr (fun m n => S (jsize (snd m) + n)) O l)
  | _ => 1%nat
  end.

(** What may follow a number. *)
Definition stops (k : list byte) : Prop := match k with c :: _ => is_digit c = false | [] => True end.

Lemma digits_no_zero n b v l :
  1 < b -> 0 < v -> digits n b v = Ret l -> exists d l', reverse l = d :: l' /\ d <> 0.
Proof.
  intros Hb. revert v l. induction n as [|n IH]; intros v l Hv; [discriminate|]. simpl digits.
  destruct (Z.eqb_spec (v / b) 0) as [E|E].
  - intros [= <-]. exists (v mod b), []. split; [reflexivity|]. apply Z.div_small_iff in E; [|lia].
    rewrite Z.mod_small; lia.
  - destruct (digits n b (v / b)) as [k| | |] eqn:Ek; try discriminate. intros [= <-].
    destruct (IH (v / b) k) as (d & k' & Hr & Hd); [|exact Ek|].
    + assert (0 <= v / b) by (apply Z.div_pos; lia). lia.
    + exists d, (k' ++ [v mod b]). rewrite reverse_cons, Hr. auto.
Qed.

Lemma digit_run_app d r : Forall (fun c => is_digit c = true) d -> stops r -> digit_run (d ++ r) = (d, r).
Proof.
  intros Hd Hr. induction Hd as [|c d Hc Hd IH]; simpl.
  - destruct r as [|c r]; [reflexivity|]. simpl in *. now rewrite Hr.
  - now rewrite Hc, IH.
Qed.

Lemma is_digit_dec d : 0 <= d < 10 -> is_digit (dec_digit d) = true.
Proof.
  intros Hd. unfold is_digit, dec_digit. rewrite bz_zb_small by lia.
  now rewrite !(proj2 (Z.leb_le _ _)) by lia.
Qed.

Lemma dec_digit_zero d : 0 <= d < 10 -> dec_digit d = x30 -> d = 0.
Proof. intros Hd H. apply (f_equal bz) in H. unfold dec_digit in H. rewrite bz_zb_small in H by lia. change (bz x30) with 48 in H. lia. Qed.

(** The text of a magnitude: its digits, and how it is read. *)
Lemma read_mag_text n r : 0 <= n < 2 ^ 64 -> stops r ->
  exists c t, num_text (digits 24 10 n) dec_digit = c :: t /\ is_digit c = true /\
              read_mag (c :: t ++ r) = Some (n, r).
Proof.
  intros Hn Hr. destruct (digits_spec 24 10 n) as (l & E & Hu & Hd & Hl); [lia|simpl; lia|lia|].
  pose proof (read_num_digits 10 dec_val dec_digit l dec_val_digit Hd) as Hv. rewrite Hu in Hv.
  rewrite E. cbn [num_text].
  assert (Hdig : Forall (fun c => is_digit c = true) (reverse (map dec_digit l))).
  { rewrite Forall_reverse. apply List.Forall_map. eapply List.Forall_impl; [|exact Hd]. intros; now apply is_digit_dec. }
  destruct (rev_map_nonempty dec_digit l) as (c & t & Ec); [lia|]. rewrite Ec in *. exists c, t.
  split; [reflexivity|]. inversion Hdig as [|? ? Hc Ht]; subst. split; [exact Hc|]. unfold read_mag.
  change (c :: t ++ r) with ((c :: t) ++ r). rewrite digit_run_app by auto.
  assert (Hz : c = x30 -> t = []).
  { intros ->. destruct (Z.eq_dec (undigits 10 l) 0) as [E0|Hnz].
    - rewrite E0 in E. cbv in E. injection E as <-. cbv in Ec. now injection Ec.
    - destruct (digits_no_zero 24 10 (undigits 10 l) l) as (d & l' & Hrev & Hd0); [lia|lia|exact E|].
      assert (Hin : 0 <= d < 10).
      { apply Forall_reverse in Hd. rewrite Hrev in Hd. now inversion Hd. }
      rewrite <- (fmap_reverse (A:=Z) dec_digit l : dec_digit <$> reverse l = reverse (map dec_digit l)), Hrev in Ec. simpl in Ec. injection Ec as Ed _.
      apply dec_digit_zero in Ed; [contradiction|exact Hin]. }
  unfold read_dec. rewrite Hv. destruct c, t; try reflexivity; now specialize (Hz eq_refl).
Qed.

Lemma read_string_key s k : read_string (esc s ++ x22 :: k) = Some (s, k).
Proof.
  apply read_str_esc. rewrite length_app. simpl.
  assert (length s <= length (esc s))%nat; [|lia]. induction s as [|c s IH]; [reflexivity|].
  cbn [esc flat_map]. fold (esc s). rewrite length_app. assert (1 <= length (if safe_char c then [c] else esc_char c))%nat; [|simpl; lia].
  destruct c; vm_compute; lia.
Qed.
Lemma skip_ws_digit c l : is_digit c = true -> skip_ws (c :: l) = c :: l.
Proof. now destruct c. Qed.
Lemma jvalue_digit fuel c l : is_digit c = true ->
  jvalue (S fuel) (c :: l) = match read_mag (c :: l) with Some (n, r) => Some (JNum false n, r) | None => None end.
Proof. intros H. cbn [jvalue]. rewrite skip_ws_digit by exact H. destruct c; try discriminate; reflexivity. Qed.

(** The first character of a value is not white space and no closing bracket. *)
Lemma jput_head v k : jok v -> stops k -> exists c t, jput v k = c :: t /\ is_ws c = false /\ c <> x5d /\ c <> x7d.
Proof.
  intros Hv Hk. destruct v as [|[]|[] n|s|[|]|[|[]]]; cbn [jput jnum jkey app];
    try (eexists _, _; split; [reflexivity|]; repeat split; discriminate).
  destruct (read_mag_text n k Hv Hk) as (c & t & E & Hc & _). rewrite E. exists c, (t ++ k).
  split; [reflexivity|]. destruct c; try discriminate; repeat split; discriminate.
Qed.

Definition reads_back (v : json) : Prop :=
  forall fuel k, jok v -> stops k -> (jsize v < fuel)%nat -> jvalue fuel (jput v k) = Some (v, k).

Lemma stops_rest l k : stops (jrest l k).
Proof. now destruct l. Qed.
Lemma stops_more l k : stops (jmore l k).
Proof. now destruct l. Qed.
#[local] Hint Resolve stops_rest stops_more : core.

Lemma jelems_reads v l fuel k :
  Forall reads_back (v :: l) -> jok (JArr (v :: l)) -> (jsize (JArr (v :: l)) <= fuel)%nat ->
  jelems fuel (jput v (jrest l k)) = Some (v :: l, k).
Proof.
  intros H. revert v H fuel. induction l as [|w l IH]; intros v H [|fuel] Hok Hf;
    cbn [jok jsize foldr] in *; try lia; inversion H as [|? ? Hv Hl]; subst; cbn [jelems];
    rewrite Hv by (auto; try tauto; lia).
  - reflexivity.
  - cbn [jrest]. change (skip_ws (x2c :: ?l)) with (x2c :: l). cbn iota.
    rewrite IH; [reflexivity|exact Hl|tauto|simpl in *; lia].
Qed.

Lemma jmembers_reads m l fuel k :
  Forall (fun m => reads_back (snd m)) (m :: l) -> jok (JObj (m :: l)) -> (jsize (JObj (m :: l)) <= fuel)%nat ->
  jmembers fuel (jkey (fst m) (x3a :: jput (snd m) (jmore l k))) = Some (m :: l, k).
Proof.
  intros H. revert m H fuel. induction l as [|w l IH]; intros [s v] H [|fuel] Hok Hf;
    cbn [jok jsize foldr fst snd] in *; try lia; inversion H as [|? ? Hv Hl]; subst; cbn [snd] in Hv;
    cbn [jmembers]; unfold jkey at 1; change (skip_ws (x22 :: ?l)) with (x22 :: l); cbn iota;
    rewrite read_string_key; change (skip_ws (x3a :: ?l)) with (x3a :: l); cbn iota;
    rewrite Hv by (auto; try tauto; lia).
  - reflexivity.
  - cbn [jmore]. change (skip_ws (x2c :: ?l)) with (x2c :: l). cbn iota.
    rewrite IH; [reflexivity|exact Hl|cbn [jok foldr]; tauto|simpl in *; lia].
Qed.

Lemma jvalue_array fuel l c t : skip_ws l = c :: t -> c <> x5d ->
  jvalue (S fuel) (x5b :: l) = match jelems fuel l with Some (l, r) => Some (JArr l, r) | None => None end.
Proof.
  intros E Hc. cbn [jvalue]. change (skip_ws (x5b :: ?l)) with (x5b :: l). cbn iota. rewrite E.
  destruct c; try reflexivity; congruence.
Qed.
Lemma skip_ws_head l c t : l = c :: t -> is_ws c = false -> skip_ws l = c :: t.
Proof. intros -> H. simpl. now rewrite H. Qed.

Lemma jvalue_reads v : reads_back v.
Proof.
  induction v as [|b|g n|s|l IH|l IH] using json_induction; intros [|fuel] k Hok Hk Hf; try (simpl in Hf; lia).
  - reflexivity.
  - now destruct b.
  - destruct (read_mag_text n k Hok Hk) as (c & t & E & Hc & Hr). cbn [jput]. unfold jnum. rewrite E.
    destruct g; cbn [app]; [|now rewrite jvalue_digit, Hr].
    cbn [jvalue]. change (skip_ws (x2d :: ?l)) with (x2d :: l). cbn iota. now rewrite Hr.
  - cbn [jput jvalue]. unfold jkey. change (skip_ws (x22 :: ?l)) with (x22 :: l). cbn iota. now rewrite read_string_key.
  - destruct l as [|v l]; [reflexivity|]. rewrite jput_arr.
    destruct (jput_head v (jrest l k)) as (c & t & E & Hw & Hc & _); [apply Hok|auto|].
    rewrite (jvalue_array _ _ c t) by eauto using skip_ws_head. rewrite jelems_reads; auto. lia.
  - destruct l as [|m l]; [reflexivity|]. rewrite jput_obj. cbn [jvalue].
    change (skip_ws (x7b :: ?l)) with (x7b :: l). cbn iota.
    unfold jkey at 1. change (skip_ws (x22 :: ?l)) with (x22 :: l). cbn iota. fold (jkey (fst m) (x3a :: jput (snd m) (jmore l k))).
    rewrite jmembers_reads; auto. lia.
Qed.

Lemma jput_app v k : jput v k = jput v [] ++ k.
Proof.
  revert k. induction v as [|b|g n|s|l IH|l IH] using json_induction; intros k; try reflexivity.
  - now destruct b.
  - cbn [jput]. now rewrite app_nil_r.
  - cbn [jput]. unfold jkey. simpl. now rewrite <- app_assoc.
  - destruct l as [|v l]; [reflexivity|]. rewrite !jput_arr. simpl. f_equal.
    assert (Hr : forall k, jrest l k = jrest l [] ++ k).
    { apply list.Forall_cons in IH as [_ IH]. clear v. induction IH as [|w l Hw _ IH2]; intros k'; [reflexivity|].
      cbn [jrest]. simpl. f_equal. rewrite Hw, (Hw (jrest l [])), IH2. now rewrite app_assoc. }
    apply list.Forall_cons in IH as [Hv _]. now rewrite Hv, (Hv (jrest l [])), Hr, app_assoc.
  - destruct l as [|m l]; [reflexivity|]. rewrite !jput_obj. unfold jkey. simpl. f_equal. f_equal.
    rewrite <- app_assoc. simpl. do 3 f_equal.
    assert (Hr : forall k, jmore l k = jmore l [] ++ k).
    { apply list.Forall_cons in IH as [_ IH]. clear m. induction IH as [|w l Hw _ IH2]; intros k'; [reflexivity|].
      cbn [jmore]. unfold jkey. simpl. do 2 f_equal. rewrite <- app_assoc. simpl. do 3 f_equal.
      rewrite Hw, (Hw (jmore l [])), IH2. now rewrite app_assoc. }
    apply list.Forall_cons in IH as [Hv _]. now rewrite Hv, (Hv (jmore l [])), Hr, app_assoc.
Qed.

Lemma jsize_len v k : jok v -> (jsize v + length k <= length (jput v k))%nat.
Proof.
  intros Hok. rewrite jput_app, length_app. enough (jsize v <= length (jput v []))%nat by lia. revert Hok.
  induction v as [|b|g n|s|l IH|l IH] using json_induction; intros Hok; try (simpl; lia).
  - destruct b; simpl; lia.
  - destruct (read_mag_text n [] Hok I) as (c & t & E & _). cbn [jput jsize]. unfold jnum. rewrite E.
    rewrite !length_app. simpl. lia.
  - destruct l as [|v l]; [simpl; lia|]. rewrite jput_arr, jput_app. cbn [length]. rewrite length_app.
    apply list.Forall_cons in IH as [Hv Hl]. destruct Hok as [Ok Okl]. specialize (Hv Ok). cbn [jsize foldr].
    enough (1 + foldr (fun v n => S (jsize v + n)) O l <= length (jrest l []))%nat by lia. clear Hv Ok v.
    induction Hl as [|w l Hw _ IH]; [simpl; lia|]. cbn [jrest foldr] in *. rewrite jput_app. simpl. rewrite length_app.
    destruct Okl as [Ow Ol]. specialize (Hw Ow). specialize (IH Ol). lia.
  - destruct l as [|m l]; [simpl; lia|]. rewrite jput_obj, jput_app. unfold jkey. cbn [length].
    rewrite !length_app. cbn [length]. rewrite length_app.
    apply list.Forall_cons in IH as [Hv Hl]. destruct Hok as [Ok Okl]. specialize (Hv Ok). cbn [jsize foldr].
    enough (1 + foldr (fun m n => S (jsize (snd m) + n)) O l <= length (jmore l []))%nat by lia. clear Hv Ok m.
    induction Hl as [|w l Hw _ IH]; [simpl; lia|]. cbn [jmore foldr] in *. unfold jkey. rewrite jput_app. simpl.
    rewrite length_app. simpl. rewrite length_app. destruct Okl as [Ow Ol]. specialize (Hw Ow). specialize (IH Ol). lia.
Qed.

Definition blank (l : list byte) : Prop := Forall (fun c => is_ws c = true) l.
Lemma skip_ws_blank l k : blank l -> skip_ws (l ++ k) = skip_ws k.
Proof. induction 1 as [|c l Hc _ IH]; [reflexivity|]. simpl. now rewrite Hc. Qed.
Lemma stops_blank l : blank l -> stops l.
Proof. intros H. destruct l as [|c l]; [exact I|]. inversion H as [|? ? Hc]; subst. now destruct c. Qed.
Lemma skip_ws_all l : blank l -> skip_ws l = [].
Proof. intros H. now rewrite <- (app_nil_r l), skip_ws_blank. Qed.

(** A value with white space behind it reads back. *)
Lemma jparse_put v e : jok v -> blank e -> jparse (jput v e) = Some v.
Proof.
  intros Hv He. unfold jparse. pose proof (jsize_len v e Hv).
  rewrite jvalue_reads; [now rewrite skip_ws_all|exact Hv|now apply stops_blank|lia].
Qed.

Lemma jvalue_skip fuel l l' : skip_ws l = skip_ws l' -> jvalue fuel l = jvalue fuel l'.
Proof. intros H. destruct fuel; [reflexivity|]. cbn [jvalue]. now rewrite H. Qed.

(** ** The output file *)

(** A record's text: a value and the white space the builder ends it with. *)
Definition rec_text (r : json * list byte) : list byte := jput (fst r) (snd r).
Definition rec_good (r : json * list byte) : Prop := jok (fst r) /\ blank (snd r).

Lemma jput_glue v e k : jput v e ++ k = jput v (e ++ k).
Proof. now rewrite jput_app, (jput_app v (e ++ k)), app_assoc. Qed.

(** The rest of the array behind a record. *)
Definition array_tail (l : list (json * list byte)) : list byte :=
  frame_from false false (map rec_text l) ++ [x0a; x5d; x0a].

Lemma array_tail_head l : exists t, skip_ws (array_tail l) = match l with [] => x5d :: t | _ => x2c :: t end.
Proof. destruct l as [|r l]; [now exists [x0a]|]. eexists. reflexivity. Qed.

Lemma stops_then e k : blank e -> stops k -> stops (e ++ k).
Proof. intros He Hk. destruct e as [|c e]; [exact Hk|]. exact (stops_blank _ He). Qed.

Lemma jelems_file r l fuel :
  Forall rec_good (r :: l) -> (foldr (fun r n => S (jsize (fst r)) + n) 1 (r :: l) <= fuel)%nat ->
  jelems fuel ([x0a; x20; x20] ++ rec_text r ++ array_tail l) = Some (map fst (r :: l), [x0a]).
Proof.
  revert r fuel. induction l as [|q l IH]; intros r [|fuel] H Hf; simpl in Hf; try lia;
    apply list.Forall_cons in H as [[Hok Hb] Hl]; cbn [jelems];
    rewrite (jvalue_skip _ _ (rec_text r ++ array_tail _)) by reflexivity; unfold rec_text at 1;
    (rewrite jput_glue, jvalue_reads; [|exact Hok|apply stops_then; [exact Hb|reflexivity]|simpl; lia]);
    rewrite skip_ws_blank by exact Hb.
  - reflexivity.
  - unfold array_tail. cbn [map frame_from]. rewrite <- !app_assoc.
    change (skip_ws ([x2c; x0a; x20; x20] ++ ?x)) with (x2c :: [x0a; x20; x20] ++ x). cbn iota.
    fold (array_tail l). rewrite IH by (auto; simpl; lia). reflexivity.
Qed.

Lemma file_sizes l :
  Forall rec_good l -> (foldr (fun r n => S (jsize (fst r)) + n) 1 l <= length (frame_from false true (map rec_text l)) + 1)%nat.
Proof.
  intros H. assert (Hg : forall first, (foldr (fun r n => S (jsize (fst r)) + n) 1 l <= length (frame_from false first (map rec_text l)) + 1)%nat); [|apply Hg].
  induction H as [|r l [Hok _] _ IH]; intros first; [simpl; lia|]. cbn [map frame_from foldr]. rewrite !length_app.
  pose proof (jsize_len (fst r) (snd r) Hok). unfold rec_text at 1. specialize (IH false). destruct first; cbn [length]; lia.
Qed.

Definition read_file (f : list byte) : option (list json) :=
  match jparse f with Some (JArr l) => Some l | _ => None end.

Lemma read_file_text l : Forall rec_good l -> read_file (sink_text false (map rec_text l)) = Some (map fst l).
Proof.
  intros H. unfold read_file, jparse, sink_text. destruct l as [|r l]; [reflexivity|].
  pose proof (file_sizes _ H) as Hs. cbn [map frame_from] in *. rewrite <- !app_assoc. fold (array_tail l).
  destruct (jput_head (fst r) (snd r)) as (c & t & E & Hw & Hc & _);
    [apply list.Forall_cons in H as [[] _]; auto using stops_blank..|].
  change ([x5b] ++ ?l) with (x5b :: l). rewrite (jvalue_array _ _ c (t ++ array_tail l)).
  - rewrite jelems_file; [reflexivity|exact H|]. etransitivity; [exact Hs|].
    unfold array_tail. simpl. rewrite !length_app. simpl. lia.
  - unfold rec_text at 1. rewrite E. cbn [app skip_ws]. change (is_ws x0a) with true. change (is_ws x20) with true.
    cbn iota. now rewrite Hw.
  - exact Hc.
Qed.

(** JSON lines: one value per line that is not empty. *)
Fixpoint lines (l : list byte) : list (list byte) :=
  match l with
  | [] => [[]]
  | c :: l => if bz c =? 0x0a then [] :: lines l
              else match lines l with h :: t => (c :: h) :: t | [] => [[c]] end
  end.
Definition read_lines (f : list byte) : list (option json) :=
  map jparse (filter (fun l => l <> []) (lines f)).

Definition printable (l : list byte) : Prop := Forall (fun c => bz c >= 0x20) l.

Lemma lines_app l k : printable l -> lines (l ++ x0a :: k) = l :: lines k.
Proof.
  induction 1 as [|c l Hc _ IH]; [reflexivity|]. simpl. rewrite IH. destruct (Z.eqb_spec (bz c) 10); [lia|reflexivity].
Qed.

Lemma printable_num n : 0 <= n < 2 ^ 64 -> printable (num_text (digits 24 10 n) dec_digit).
Proof.
  intros Hn. destruct (digits_spec 24 10 n) as (l & -> & _ & Hd & _); [lia|simpl; lia|lia|]. cbn [num_text].
  apply Forall_reverse, List.Forall_map. eapply List.Forall_impl; [|exact Hd]. intros d Hr. cbv beta in *. unfold dec_digit.
  rewrite bz_zb_small; lia.
Qed.
Lemma printable_esc s : printable (esc s).
Proof. apply List.Forall_forall. exact (esc_no_control s). Qed.
Lemma printable_key s k : printable k -> printable (jkey s k).
Proof.
  intros Hk. unfold jkey, printable in *. apply list.Forall_cons. split; [vm_compute; discriminate|].
  apply Forall_app. split; [apply printable_esc|]. apply list.Forall_cons. split; [vm_compute; discriminate|exact Hk].
Qed.

Lemma printable_jput v k : jok v -> printable k -> printable (jput v k).
Proof.
  revert k. induction v as [|b|g n|s|l IH|l IH] using json_induction; intros k Hok Hk;
    try (destruct b); try (repeat (apply list.Forall_cons; split; [vm_compute; discriminate|]); exact Hk).
  - apply Forall_app. split; [|exact Hk]. apply Forall_app. split; [|now apply printable_num].
    destruct g; repeat constructor. vm_compute; discriminate.
  - now apply printable_key.
  - destruct l as [|v l]; [repeat (apply list.Forall_cons; split; [vm_compute; discriminate|]); exact Hk|].
    rewrite jput_arr. apply list.Forall_cons. split; [vm_compute; discriminate|].
    apply list.Forall_cons in IH as [Hv Hl]. destruct Hok as [Ok Okl]. apply Hv; [exact Ok|]. clear Hv Ok v.
    induction Hl as [|w l Hw _ IH]; cbn [jrest]; (apply list.Forall_cons; split; [vm_compute; discriminate|]); [exact Hk|].
    destruct Okl as [Ow Ol]. apply Hw; [exact Ow|]. apply IH, Ol.
  - destruct l as [|m l]; [repeat (apply list.Forall_cons; split; [vm_compute; discriminate|]); exact Hk|].
    rewrite jput_obj. apply list.Forall_cons. split; [vm_compute; discriminate|]. apply printable_key.
    apply list.Forall_cons. split; [vm_compute; discriminate|].
    apply list.Forall_cons in IH as [Hv Hl]. destruct Hok as [Ok Okl]. apply Hv; [exact Ok|]. clear Hv Ok m.
    induction Hl as [|w l Hw _ IH]; cbn [jmore]; (apply list.Forall_cons; split; [vm_compute; discriminate|]); [exact Hk|].
    destruct Okl as [Ow Ol]. apply printable_key. apply list.Forall_cons. split; [vm_compute; discriminate|].
    apply Hw; [exact Ow|]. apply IH, Ol.
Qed.

(** The builders end a record with nothing or with a newline. *)
Definition line_end (e : list byte) : Prop := e = [] \/ e = [x0a].
Lemma line_end_blank e : line_end e -> blank e.
Proof. intros [-> | ->]; repeat constructor. Qed.

Lemma read_lines_text l :
  Forall (fun r => jok (fst r) /\ line_end (snd r)) l ->
  read_lines (sink_text true (map rec_text l)) = map (fun r => Some (fst r)) l.
Proof.
  intros H. unfold sink_text. simpl. rewrite app_nil_r. unfold read_lines. generalize true at 2.
  induction H as [|r l [Hok He] _ IH]; intros first; [reflexivity|]. cbn [map frame_from].
  assert (Hne : jput (fst r) [] <> []).
  { pose proof (jsize_len (fst r) [] Hok) as Hl. intros E. rewrite E in Hl. destruct (fst r); simpl in Hl; lia. }
  assert (Hp : printable (jput (fst r) [])) by (apply printable_jput; [exact Hok|constructor]).
  unfold rec_text at 1. rewrite jput_app, <- !app_assoc. simpl app.
  assert (Hlines : lines (jput (fst r) [] ++ snd r ++ x0a :: frame_from true false (map rec_text l)) =
    jput (fst r) [] :: (if bool_decide (snd r = []) then [] else [[]]) ++ lines (frame_from true false (map rec_text l))).
  { destruct He as [-> | ->]; simpl; rewrite lines_app by exact Hp; reflexivity. }
  rewrite Hlines, filter_cons_True by exact Hne. cbn [map]. rewrite jparse_put by (auto; constructor). f_equal.
  destruct He as [-> | ->]; simpl; apply IH.
Qed.

(** ** Builders as lists of appends *)

(** JSON text with single quotes for the double ones. *)
Definition js (s : String.string) : list byte := map (fun c => if bz c =? 0x27 then x22 else c) (bytes_of s).
Definition opS (s : String.string) : jop := OpS (js s).
Arguments js s%_string_scope.
Arguments opS s%_string_scope.
Definition opQ : jop := OpC x22.

(** The separator loop: a comma in front of every item but the first. *)
Definition commas (items : list (list jop)) : list jop :=
  match items with [] => [] | x :: r => x ++ flat_map (fun y => OpC x2c :: y) r end.

Definition tput (ops : list jop) (k : list byte) : list byte := foldr (fun o k => jop_text o ++ k) k ops.
Lemma text_tput ops : text ops = tput ops [].
Proof. induction ops as [|o ops IH]; [reflexivity|]. change (text (o :: ops)) with (jop_text o ++ text ops). now rewrite IH. Qed.
Lemma tput_app a b k : tput (a ++ b) k = tput a (tput b k).
Proof. apply foldr_app. Qed.
Lemma tput_cons o a k : tput (o :: a) k = jop_text o ++ tput a k.
Proof. reflexivity. Qed.

(** A loop of items is an array, a loop of members an object. *)
Definition jarr_body (l : list json) (k : list byte) : list byte :=
  match l with [] => x5d :: k | v :: l => jput v (jrest l k) end.
Definition jobj_body (l : list (list byte * json)) (k : list byte) : list byte :=
  match l with [] => x7d :: k | m :: l => jkey (fst m) (x3a :: jput (snd m) (jmore l k)) end.
Lemma jput_JArr l k : jput (JArr l) k = x5b :: jarr_body l k.
Proof. destruct l; [reflexivity|apply jput_arr]. Qed.
Lemma jput_JObj l k : jput (JObj l) k = x7b :: jobj_body l k.
Proof. destruct l; [reflexivity|apply jput_obj]. Qed.

Lemma tput_items {A} (f : A -> list jop) (v : A -> json) l k k' :
  (forall a k, a ∈ l -> tput (f a) k = jput (v a) k) -> k = x5d :: k' ->
  tput (commas (map f l)) k = jarr_body (map v l) k'.
Proof.
  intros H ->. destruct l as [|a l]; [reflexivity|]. cbn [map commas jarr_body]. rewrite tput_app.
  rewrite H by (left; auto). f_equal.
  assert (H' : forall a k, a ∈ l -> tput (f a) k = jput (v a) k) by (intros; apply H; now right).
  clear H. induction l as [|b l IH]; [reflexivity|]. cbn [map flat_map jrest]. rewrite <- app_comm_cons, tput_cons, tput_app.
  simpl. f_equal. rewrite H' by (left; auto). f_equal. apply IH. intros; apply H'; now right.
Qed.
Lemma tput_members {A} (f : A -> list jop) (m : A -> list byte * json) l k k' :
  (forall a k, a ∈ l -> tput (f a) k = jkey (fst (m a)) (x3a :: jput (snd (m a)) k)) -> k = x7d :: k' ->
  tput (commas (map f l)) k = jobj_body (map m l) k'.
Proof.
  intros H ->. destruct l as [|a l]; [reflexivity|]. cbn [map commas jobj_body]. rewrite tput_app.
  rewrite H by (left; auto). f_equal. f_equal. f_equal.
  assert (H' : forall a k, a ∈ l -> tput (f a) k = jkey (fst (m a)) (x3a :: jput (snd (m a)) k)) by (intros; apply H; now right).
  clear H. induction l as [|b l IH]; [reflexivity|]. cbn [map flat_map jmore]. rewrite <- app_comm_cons, tput_cons, tput_app.
  simpl. f_equal. rewrite H' by (left; auto). do 3 f_equal. apply IH. intros; apply H'; now right.
Qed.

Lemma commas_ok {A} (f : A -> list jop) l :
  (forall a, a ∈ l -> Forall jop_ok (f a)) -> Forall jop_ok (commas (map f l)).
Proof.
  destruct l as [|a l]; intros H; [constructor|]. cbn [map commas]. apply Forall_app.
  split; [apply H; now left|]. assert (H' : forall a, a ∈ l -> Forall jop_ok (f a)) by (intros; apply H; now right).
  clear H. induction l as [|b l IH]; [constructor|]. cbn [map flat_map]. apply list.Forall_cons. split; [exact I|].
  apply Forall_app. split; [apply H'; now left|]. apply IH. intros; apply H'; now right.
Qed.
Lemma jok_arr {A} (v : A -> json) l : (forall a, a ∈ l -> jok (v a)) -> jok (JArr (map v l)).
Proof.
  intros H. induction l as [|a l IH]; [exact I|]. split; [apply H; now left|]. apply IH. intros; apply H; now right.
Qed.
Lemma jok_obj {A} (m : A -> list byte * json) l : (forall a, a ∈ l -> jok (snd (m a))) -> jok (JObj (map m l)).
Proof.
  intros H. induction l as [|a l IH]; [exact I|]. split; [apply H; now left|]. apply IH. intros; apply H; now right.
Qed.

Lemma digits_more n m b v l : digits n b v = Ret l -> digits (n + m) b v = Ret l.
Proof.
  revert v l. induction n as [|n IH]; intros v l; [discriminate|]. simpl. destruct (_ =? 0); [auto|].
  destruct (digits n b (v / b)) as [k| | |] eqn:E; try discriminate. now rewrite (IH _ _ E).
Qed.
Lemma i64_text v k : - 2 ^ 63 <= v < 2 ^ 63 -> jop_text (OpI64 v) ++ k = jput (jint v) k.
Proof.
  intros Hv. destruct (digits_spec 20 10 (Z.abs v)) as (l & E & _); [lia|simpl; lia|lia|].
  cbn [jop_text jint jput]. unfold jnum. change 24%nat with (20 + 4)%nat. now rewrite (digits_more 20 4 _ _ _ E), E.
Qed.

(** Text that is printed without escaping must not need it. *)
Definition plain (s : list byte) : Prop := Forall (fun c => safe_char c = true) s.
Lemma esc_plain s : plain s -> esc s = s.
Proof. induction 1 as [|c s Hc _ IH]; [reflexivity|]. cbn [esc flat_map]. rewrite Hc. simpl. f_equal. exact IH. Qed.
Lemma plain_hex v : 0 <= v < 2 ^ 64 -> plain (jop_text (OpHex v)).
Proof.
  intros Hv. destruct (digits_spec 16 16 v) as (l & E & _ & Hd & _); [lia|simpl; lia|lia|].
  cbn [jop_text]. rewrite E. cbn [num_text]. unfold plain. do 2 (apply list.Forall_cons; split; [reflexivity|]).
  apply Forall_reverse, List.Forall_map. eapply List.Forall_impl; [|exact Hd]. intros d Hr. cbv beta in *.
  assert (Hb : 0 <= d < 256) by lia.
  pose (P := fun v => (16 <=? v) || safe_char (hex_digit v)).
  assert (HP : forallb P (map Z.of_nat (seq 0 256)) = true) by (vm_compute; reflexivity).
  pose proof (check_bytes P HP d Hb) as H. unfold P in H. destruct (Z.leb_spec 16 d); [lia|exact H].
Qed.
Lemma plain_dec v : 0 <= v < 2 ^ 64 -> plain (jop_text (OpU64 v)).
Proof.
  intros Hv. destruct (digits_spec 24 10 v) as (l & E & _ & Hd & _); [lia|simpl; lia|lia|].
  cbn [jop_text]. rewrite E. cbn [num_text]. unfold plain.
  apply Forall_reverse, List.Forall_map. eapply List.Forall_impl; [|exact Hd]. intros d Hr. cbv beta in *.
  assert (Hb : 0 <= d < 256) by lia.
  pose (P := fun v => (10 <=? v) || safe_char (dec_digit v)).
  assert (HP : forallb P (map Z.of_nat (seq 0 256)) = true) by (vm_compute; reflexivity).
  pose proof (check_bytes P HP d Hb) as H. unfold P in H. destruct (Z.leb_spec 10 d); [lia|exact H].
Qed.

(** A quoted hexadecimal number is a string value. *)
Lemma esc_hex v : 0 <= v < 2 ^ 64 -> esc (jop_text (OpHex v)) = jop_text (OpHex v).
Proof. intros H. now apply esc_plain, plain_hex. Qed.
Lemma esc_dec v : 0 <= v < 2 ^ 64 -> esc (jop_text (OpU64 v)) = jop_text (OpU64 v).
Proof. intros H. now apply esc_plain, plain_dec. Qed.

(** What a builder promises: its text is a value of the record, its numbers are in
    range, and the white space it adds is the end of a line. *)
Record builds (ops : list jop) (v : json) (e : list byte) : Prop := {
  bu_text : text ops = jput v e;
  bu_ops : Forall jop_ok ops;
  bu_ok : jok v;
  bu_end : line_end e
}.

Lemma builds_reads ops v e : builds ops v e -> jparse (text ops) = Some v.
Proof. intros [-> _ H He]. apply jparse_put; [exact H|now apply line_end_blank]. Qed.

Lemma jput_hex v k : in_u 64 v -> jput (jhex v) k = x22 :: jop_text (OpHex v) ++ x22 :: k.
Proof. intros H. cbn [jhex jput]. unfold jkey. now rewrite esc_hex. Qed.

(** A record: an object that starts with its type. *)
Definition fld (k : String.string) (v : json) : list byte * json := (bytes_of k, v).
Arguments fld k%_string_scope.
Definition tagged (t : list byte) (l : list (list byte * json)) : json := JObj (fld "type" (JStr t) :: l).

(** The proof of a builder: its loops become arrays and objects, hexadecimal texts
    need no escape, and the rest is computation. *)
Ltac range := unfold in_u in *; try (simpl; lia); auto.
Ltac ops_ok := repeat first [progress intros | apply Forall_app; split | apply commas_ok
  | (apply list.Forall_cons; split) | apply List.Forall_nil | progress case_match
  | (cbn [jop_ok]; first [exact I | solve [range]])].
Ltac value_ok := cbn [jok foldr map app snd tagged fld]; repeat split; try exact I; try (apply jok_arr; intros); range.
Ltac items := erewrite tput_items; [|intros; cbn beta|reflexivity].
Ltac members := erewrite tput_members; [|intros; cbn beta|reflexivity].
Ltac value_text := unfold tagged; cbn [app]; rewrite ?jput_obj; cbn [jmore app fst snd fld]; rewrite ?jput_JArr, ?jput_JObj;
  rewrite ?jput_hex by range; reflexivity.
