(* ===== verification/ModEvents.v ===== *)
(** * ModEvents: the records of the detection modules (src/modules/mod_emit.c)

    The event structures of src/modules/mod_events.h, the type vocabulary of
    src/common/trace_schema.c and one builder per event.  A builder is the list of the
    appends it makes; [Emit.build] runs them on the record buffer.  Character arrays
    are the C strings in them.  Beside each builder stands the JSON value the schema
    declares for the event and the proof that the builder writes exactly that value. *)

From Stdlib Require Import ZArith Lia.
From stdpp Require Import base list option numbers.
From S2P Require Import Prelude Emit Json.

Local Open Scope Z_scope.
#[local] Opaque digits.

(** ** The type vocabulary *)

Inductive trace_event_type :=
| TRACE_CALL | TRACE_RETURN | TRACE_SYSCALL | TRACE_LIB | TRACE_UNLIB | TRACE_SPAWN | TRACE_PROC_EXIT
| TRACE_EXECVE | TRACE_PROP | TRACE_STACK | TRACE_FUNC | TRACE_FILE_ACCESS | TRACE_MASSDELETE_DETECT
| TRACE_DUMP | TRACE_EXFIL_DETECT | TRACE_ACCESSIBILITY_DETECT | TRACE_FILELESS_DETECT
| TRACE_SCREENCAPTURE_DETECT | TRACE_MODCMP.

(** The enumeration counts from one in this order. *)
Definition trace_types : list trace_event_type :=
  [TRACE_CALL; TRACE_RETURN; TRACE_SYSCALL; TRACE_LIB; TRACE_UNLIB; TRACE_SPAWN; TRACE_PROC_EXIT;
   TRACE_EXECVE; TRACE_PROP; TRACE_STACK; TRACE_FUNC; TRACE_FILE_ACCESS; TRACE_MASSDELETE_DETECT;
   TRACE_DUMP; TRACE_EXFIL_DETECT; TRACE_ACCESSIBILITY_DETECT; TRACE_FILELESS_DETECT;
   TRACE_SCREENCAPTURE_DETECT; TRACE_MODCMP].

Definition type_name (t : trace_event_type) : list byte := bytes_of
  match t with
  | TRACE_CALL => "call" | TRACE_RETURN => "return" | TRACE_SYSCALL => "syscall" | TRACE_LIB => "lib"
  | TRACE_UNLIB => "unlib" | TRACE_SPAWN => "spawn" | TRACE_PROC_EXIT => "proc_exit"
  | TRACE_EXECVE => "execve" | TRACE_PROP => "prop" | TRACE_STACK => "stack" | TRACE_FUNC => "func"
  | TRACE_FILE_ACCESS => "file_access" | TRACE_MASSDELETE_DETECT => "massdelete_detect"
  | TRACE_DUMP => "dump" | TRACE_EXFIL_DETECT => "exfil_detect"
  | TRACE_ACCESSIBILITY_DETECT => "accessibility_detect" | TRACE_FILELESS_DETECT => "fileless_detect"
  | TRACE_SCREENCAPTURE_DETECT => "screencapture_detect" | TRACE_MODCMP => "modcmp"
  end.
Definition trace_type_name (type : Z) : list byte :=
  if (1 <=? type) && (type <=? 19)
  then match trace_types !! Z.to_nat (type - 1) with Some t => type_name t | None => bytes_of "unknown" end
  else bytes_of "unknown".

(** ** The events *)

Record trace_event_header := mk_hdr { h_type : Z; h_pid : Z; h_tid : Z }.
Definition hdr_ok (h : trace_event_header) : Prop := in_u 32 (h_pid h) /\ in_u 32 (h_tid h).

Definition MOD_EV_SPAWN := 1.
Definition MOD_EV_PROC_EXIT := 2.
Definition MOD_EV_EXECVE := 3.
Definition MOD_EV_PROP_GET := 4.
Definition MOD_EV_PROP_FIND := 5.
Definition MOD_EV_PROP_SCAN := 6.
Definition MOD_EV_PROP_READ := 7.
Definition MOD_EV_FILE_ACCESS := 8.
Definition MOD_EV_MASSDELETE_DETECT := 9.
Definition MOD_EV_EXFIL_DETECT := 10.
Definition MOD_EV_ACCESSIBILITY_DETECT := 11.
Definition MOD_EV_FILELESS_DETECT := 12.
Definition MOD_EV_SCREENCAPTURE_DETECT := 13.

Definition TASK_COMM_LEN := 32.
Definition MAX_ARGV_ENTRIES := 8.
Definition STACK_DEPTH := 16.
Definition MASSDELETE_DETECT_RING_LEN := 32.
Definition MASSDELETE_DETECT_THRESHOLD := 20.
Definition EXFIL_DETECT_RING_LEN := 32.
Definition ACCESSIBILITY_DETECT_CODE_RING_LEN := 64.
Definition ACCESSIBILITY_DETECT_THRESHOLD := 50.

Record spawn_event := mk_spawn { sp_h : trace_event_header; sp_ts_ns : Z; sp_child_pid : Z; sp_comm : list byte }.
Record proc_exit_event := mk_exit { pe_h : trace_event_header; pe_ts_ns : Z; pe_comm : list byte; pe_exit_code : Z }.
Record execve_event := mk_execve {
  ex_h : trace_event_header; ex_ts_ns : Z; ex_argc : Z; ex_stack_depth : Z; ex_comm : list byte;
  ex_filename : list byte; ex_argv : list (list byte); ex_call_stack : list Z
}.
Record prop_event := mk_prop {
  pr_h : trace_event_header; pr_ts_ns : Z; pr_comm : list byte; pr_name : list byte; pr_value : list byte;
  pr_is_ret : Z; pr_found : Z
}.
Record file_access_event := mk_file_access {
  fa_h : trace_event_header; fa_ts_ns : Z; fa_comm : list byte; fa_path : list byte; fa_flags : Z
}.
Record massdelete_detect_event := mk_massdelete {
  md_h : trace_event_header; md_ts_ns : Z; md_comm : list byte; md_touch_count : Z; md_window_ms : Z;
  md_paths : list (list byte); md_sample_path : list byte
}.
Record exfil_detect_event := mk_exfil {
  xf_h : trace_event_header; xf_ts_ns : Z; xf_comm : list byte; xf_bytes_sent : Z; xf_window_ms : Z;
  xf_sample_path : list byte; xf_sensitive_paths : list (list byte); xf_sensitive_path_count : Z;
  xf_paths_truncated : bool; xf_dest : list byte; xf_dest_len : Z
}.
Record accessibility_detect_event := mk_a11y {
  ac_h : trace_event_header; ac_ts_ns : Z; ac_comm : list byte; ac_touch_count : Z; ac_window_ms : Z;
  ac_code_samples : list Z
}.
Record fileless_detect_event := mk_fileless {
  fl_h : trace_event_header; fl_ts_ns : Z; fl_comm : list byte; fl_start : Z; fl_size : Z; fl_anon_name : list byte
}.
Record screencapture_detect_event := mk_screencapture {
  sc_h : trace_event_header; sc_ts_ns : Z; sc_comm : list byte; sc_binder_calls_context : Z
}.

(** ** The builders *)

(** [{"type":"<t>"] *)
Definition head (t : trace_event_type) : list jop := [OpC x7b; opS "'type':'"; OpS (type_name t); opQ].
Definition true_false (b : bool) : jop := if b then opS "true" else opS "false".
(** A C string in quotes. *)
Definition quoted (s : list byte) : list jop := [opQ; OpEsc s; opQ].
(** A tri-state setting: negative is unknown. *)
Definition tristate (v : Z) : jop := if v <? 0 then opS "null" else true_false (negb (v =? 0)).

Definition mod_emit_spawn (e : spawn_event) : list jop :=
  head TRACE_SPAWN ++
  [opS ",'pid':"; OpU64 (h_pid (sp_h e)); opS ",'tid':"; OpU64 (h_tid (sp_h e));
   opS ",'ts_ns':"; OpU64 (sp_ts_ns e); opS ",'child_pid':"; OpU64 (sp_child_pid e);
   opS ",'comm':'"; OpEsc (sp_comm e); opQ; OpC x7d].

Definition exit_sig (code : Z) : Z := Z.land code 0x7f.
Definition exit_status (code : Z) : Z := Z.land (Z.shiftr code 8) 0xff.
Definition mod_emit_proc_exit (e : proc_exit_event) : list jop :=
  let sig := exit_sig (pe_exit_code e) in
  let status := exit_status (pe_exit_code e) in
  head TRACE_PROC_EXIT ++
  [opS ",'pid':"; OpU64 (h_pid (pe_h e)); opS ",'tid':"; OpU64 (h_tid (pe_h e));
   opS ",'ts_ns':"; OpU64 (pe_ts_ns e); opS ",'comm':'"; OpEsc (pe_comm e); opQ] ++
  (if negb (sig =? 0) then [opS ",'signal':"; OpU64 sig] else [opS ",'exit_status':"; OpU64 status]) ++
  [OpC x7d].

(** The captured frames up to the first zero, with their indices. *)
Fixpoint live_frames (i : Z) (l : list Z) : list (Z * Z) :=
  match l with
  | [] => []
  | a :: l => if a =? 0 then [] else (i, a) :: live_frames (i + 1) l
  end.
Definition frames_of (depth : Z) (stack : list Z) : list (Z * Z) :=
  live_frames 0 (take (Z.to_nat (Z.min (s32 depth) STACK_DEPTH)) stack).
(** [syms]: the resolved name of each frame, none for a NULL or empty one. *)
Definition sym_at (syms : list (list byte)) (i : Z) : list byte := nth (Z.to_nat i) syms [].
Definition frame_ops (syms : list (list byte)) (f : Z * Z) : list jop :=
  [opS "{'frame':"; OpU64 (fst f); opS ",'addr':'"; OpHex (snd f); opQ] ++
  (match sym_at syms (fst f) with [] => [] | s => [opS ",'symbol':'"; OpEsc s; opQ] end) ++ [OpC x7d].

Definition mod_emit_execve (e : execve_event) (syms : list (list byte)) : list jop :=
  head TRACE_EXECVE ++
  [opS ",'pid':"; OpU64 (h_pid (ex_h e)); opS ",'tid':"; OpU64 (h_tid (ex_h e));
   opS ",'ts_ns':"; OpU64 (ex_ts_ns e); opS ",'comm':'"; OpEsc (ex_comm e); opQ;
   opS ",'filename':'"; OpEsc (ex_filename e); opQ; opS ",'argc':"; OpU64 (ex_argc e); opS ",'argv':["] ++
  commas (map quoted (take (Z.to_nat (Z.min (s32 (ex_argc e)) MAX_ARGV_ENTRIES)) (ex_argv e))) ++
  [OpC x5d; opS ",'backtrace':["] ++
  commas (map (frame_ops syms) (frames_of (ex_stack_depth e) (ex_call_stack e))) ++
  [OpC x5d; OpC x7d].

Definition prop_op (type : Z) : list byte := bytes_of
  (if type =? MOD_EV_PROP_GET then "get" else if type =? MOD_EV_PROP_FIND then "find"
   else if type =? MOD_EV_PROP_SCAN then "scan" else if type =? MOD_EV_PROP_READ then "read" else "unknown").
Definition mod_emit_prop (e : prop_event) : list jop :=
  head TRACE_PROP ++
  [opS ",'op':'"; OpS (prop_op (h_type (pr_h e))); opQ;
   opS ",'pid':"; OpU64 (h_pid (pr_h e)); opS ",'tid':"; OpU64 (h_tid (pr_h e));
   opS ",'ts_ns':"; OpU64 (pr_ts_ns e); opS ",'comm':'"; OpEsc (pr_comm e); opQ] ++
  (if negb (h_type (pr_h e) =? MOD_EV_PROP_SCAN) then
     [opS ",'name':'"; OpEsc (pr_name e); opQ; opS ",'value':'"; OpEsc (pr_value e); opQ;
      opS ",'is_ret':"; OpU64 (pr_is_ret e); opS ",'found':"; OpU64 (pr_found e)]
   else []) ++ [OpC x7d].

Definition FA_EXTERNAL_STORAGE := 1.
Definition FA_MEDIA_SUBDIR := 2.
Definition FA_CREDENTIAL_PATTERN := 4.
Definition FA_FOREIGN_APP_DIR := 8.
Definition FA_UNKNOWN_SELF := 16.
Definition fa_tags : list (Z * list byte) :=
  [(FA_EXTERNAL_STORAGE, bytes_of "external_storage"); (FA_MEDIA_SUBDIR, bytes_of "media_subdir");
   (FA_CREDENTIAL_PATTERN, bytes_of "credential_pattern"); (FA_FOREIGN_APP_DIR, bytes_of "foreign_app_dir");
   (FA_UNKNOWN_SELF, bytes_of "unknown_self")].
(** The names of the set bits, in the order of the table. *)
Definition category_names (categories : Z) : list (list byte) :=
  map snd (List.filter (fun t => negb (Z.land categories (fst t) =? 0)) fa_tags).
(** Printed as they are, without escaping. *)
Definition bare (s : list byte) : list jop := [opQ; OpS s; opQ].

Definition mod_emit_file_access (e : file_access_event) (categories : Z) (flag_strs : list (list byte)) : list jop :=
  head TRACE_FILE_ACCESS ++
  [opS ",'pid':"; OpU64 (h_pid (fa_h e)); opS ",'tid':"; OpU64 (h_tid (fa_h e));
   opS ",'ts_ns':"; OpU64 (fa_ts_ns e); opS ",'comm':'"; OpEsc (fa_comm e); opQ;
   opS ",'path':'"; OpEsc (fa_path e); opQ; opS ",'flags':["] ++
  commas (map bare flag_strs) ++ [OpC x5d; opS ",'categories':["] ++
  commas (map bare (category_names categories)) ++ [OpC x5d; OpC x7d].

Definition mod_emit_massdelete_detect (e : massdelete_detect_event) (distinct manage : Z) (verbose : bool) : list jop :=
  head TRACE_MASSDELETE_DETECT ++
  [opS ",'pid':"; OpU64 (h_pid (md_h e)); opS ",'ts_ns':"; OpU64 (md_ts_ns e);
   opS ",'comm':'"; OpEsc (md_comm e); opQ; opS ",'touch_count':"; OpU64 (md_touch_count e);
   opS ",'distinct_estimate':"; OpU64 (u64 distinct); opS ",'window_ms':"; OpU64 (md_window_ms e);
   opS ",'sample_path':'"; OpEsc (md_sample_path e); opQ;
   opS ",'manage_external_storage':"; tristate manage] ++
  (if verbose then
     [opS ",'paths':["] ++
     commas (map quoted (take (Z.to_nat (Z.min (s32 (md_touch_count e)) MASSDELETE_DETECT_RING_LEN)) (md_paths e))) ++
     [OpC x5d]
   else []) ++ [OpC x7d].

Definition nonempty (s : list byte) : bool := match s with [] => false | _ => true end.
Definition mod_emit_exfil_detect (e : exfil_detect_event) (dest : option (list byte)) (verbose : bool) : list jop :=
  head TRACE_EXFIL_DETECT ++
  [opS ",'pid':"; OpU64 (h_pid (xf_h e)); opS ",'ts_ns':"; OpU64 (xf_ts_ns e);
   opS ",'comm':'"; OpEsc (xf_comm e); opQ; opS ",'bytes_sent':"; OpU64 (xf_bytes_sent e);
   opS ",'window_ms':"; OpU64 (xf_window_ms e); opS ",'sample_path':'"; OpEsc (xf_sample_path e); opQ;
   opS ",'dest':"] ++
  (match dest with Some (c :: s) => quoted (c :: s) | _ => [opS "null"] end) ++
  (if verbose then
     [opS ",'sensitive_paths':["] ++ commas (map quoted (List.filter nonempty (xf_sensitive_paths e))) ++
     [OpC x5d; opS ",'sensitive_path_count':"; OpU64 (xf_sensitive_path_count e);
      opS ",'paths_truncated':"; true_false (xf_paths_truncated e)]
   else []) ++ [OpC x7d].

Definition mod_emit_accessibility_detect (e : accessibility_detect_event) (granted : Z) : list jop :=
  head TRACE_ACCESSIBILITY_DETECT ++
  [opS ",'pid':"; OpU64 (h_pid (ac_h e)); opS ",'ts_ns':"; OpU64 (ac_ts_ns e);
   opS ",'comm':'"; OpEsc (ac_comm e); opQ; opS ",'touch_count':"; OpU64 (ac_touch_count e);
   opS ",'window_ms':"; OpU64 (ac_window_ms e); opS ",'granted':"; tristate granted; OpC x7d].

Definition mod_emit_fileless_detect (e : fileless_detect_event) : list jop :=
  head TRACE_FILELESS_DETECT ++
  [opS ",'pid':"; OpU64 (h_pid (fl_h e)); opS ",'ts_ns':"; OpU64 (fl_ts_ns e);
   opS ",'comm':'"; OpEsc (fl_comm e); opQ; opS ",'start':'"; OpHex (fl_start e); opQ;
   opS ",'size':"; OpU64 (fl_size e); opS ",'anon_name':'"; OpEsc (fl_anon_name e); opQ; OpC x7d].

Definition mod_emit_screencapture_detect (e : screencapture_detect_event) : list jop :=
  head TRACE_SCREENCAPTURE_DETECT ++
  [opS ",'pid':"; OpU64 (h_pid (sc_h e)); opS ",'ts_ns':"; OpU64 (sc_ts_ns e);
   opS ",'comm':'"; OpEsc (sc_comm e); opQ; opS ",'binder_calls_context':"; OpU64 (sc_binder_calls_context e);
   OpC x7d].

(** ** The declared values *)

Notation obj t l := (tagged (type_name t) l).
Definition jtri (v : Z) : json := if v <? 0 then JNull else JBool (negb (v =? 0)).

Definition spawn_value (e : spawn_event) : json :=
  obj TRACE_SPAWN [fld "pid" (jnat (h_pid (sp_h e))); fld "tid" (jnat (h_tid (sp_h e)));
    fld "ts_ns" (jnat (sp_ts_ns e)); fld "child_pid" (jnat (sp_child_pid e)); fld "comm" (JStr (sp_comm e))].
Definition proc_exit_value (e : proc_exit_event) : json :=
  obj TRACE_PROC_EXIT ([fld "pid" (jnat (h_pid (pe_h e))); fld "tid" (jnat (h_tid (pe_h e)));
    fld "ts_ns" (jnat (pe_ts_ns e)); fld "comm" (JStr (pe_comm e))] ++
    [if exit_sig (pe_exit_code e) =? 0 then fld "exit_status" (jnat (exit_status (pe_exit_code e)))
     else fld "signal" (jnat (exit_sig (pe_exit_code e)))]).
Definition frame_value (syms : list (list byte)) (f : Z * Z) : json :=
  JObj ([fld "frame" (jnat (fst f)); fld "addr" (jhex (snd f))] ++
        match sym_at syms (fst f) with [] => [] | s => [fld "symbol" (JStr s)] end).
Definition execve_value (e : execve_event) (syms : list (list byte)) : json :=
  obj TRACE_EXECVE [fld "pid" (jnat (h_pid (ex_h e))); fld "tid" (jnat (h_tid (ex_h e)));
    fld "ts_ns" (jnat (ex_ts_ns e)); fld "comm" (JStr (ex_comm e)); fld "filename" (JStr (ex_filename e));
    fld "argc" (jnat (ex_argc e));
    fld "argv" (JArr (map JStr (take (Z.to_nat (Z.min (s32 (ex_argc e)) MAX_ARGV_ENTRIES)) (ex_argv e))));
    fld "backtrace" (JArr (map (frame_value syms) (frames_of (ex_stack_depth e) (ex_call_stack e))))].
Definition prop_value (e : prop_event) : json :=
  obj TRACE_PROP ([fld "op" (JStr (prop_op (h_type (pr_h e)))); fld "pid" (jnat (h_pid (pr_h e)));
    fld "tid" (jnat (h_tid (pr_h e))); fld "ts_ns" (jnat (pr_ts_ns e)); fld "comm" (JStr (pr_comm e))] ++
    if h_type (pr_h e) =? MOD_EV_PROP_SCAN then []
    else [fld "name" (JStr (pr_name e)); fld "value" (JStr (pr_value e));
          fld "is_ret" (jnat (pr_is_ret e)); fld "found" (jnat (pr_found e))]).
Definition file_access_value (e : file_access_event) (categories : Z) (flag_strs : list (list byte)) : json :=
  obj TRACE_FILE_ACCESS [fld "pid" (jnat (h_pid (fa_h e))); fld "tid" (jnat (h_tid (fa_h e)));
    fld "ts_ns" (jnat (fa_ts_ns e)); fld "comm" (JStr (fa_comm e)); fld "path" (JStr (fa_path e));
    fld "flags" (JArr (map JStr flag_strs)); fld "categories" (JArr (map JStr (category_names categories)))].
Definition massdelete_value (e : massdelete_detect_event) (distinct manage : Z) (verbose : bool) : json :=
  obj TRACE_MASSDELETE_DETECT ([fld "pid" (jnat (h_pid (md_h e))); fld "ts_ns" (jnat (md_ts_ns e));
    fld "comm" (JStr (md_comm e)); fld "touch_count" (jnat (md_touch_count e));
    fld "distinct_estimate" (jnat (u64 distinct)); fld "window_ms" (jnat (md_window_ms e));
    fld "sample_path" (JStr (md_sample_path e)); fld "manage_external_storage" (jtri manage)] ++
    if verbose then [fld "paths" (JArr (map JStr
      (take (Z.to_nat (Z.min (s32 (md_touch_count e)) MASSDELETE_DETECT_RING_LEN)) (md_paths e))))] else []).
Definition exfil_value (e : exfil_detect_event) (dest : option (list byte)) (verbose : bool) : json :=
  obj TRACE_EXFIL_DETECT ([fld "pid" (jnat (h_pid (xf_h e))); fld "ts_ns" (jnat (xf_ts_ns e));
    fld "comm" (JStr (xf_comm e)); fld "bytes_sent" (jnat (xf_bytes_sent e)); fld "window_ms" (jnat (xf_window_ms e));
    fld "sample_path" (JStr (xf_sample_path e));
    fld "dest" (match dest with Some (c :: s) => JStr (c :: s) | _ => JNull end)] ++
    if verbose then [fld "sensitive_paths" (JArr (map JStr (List.filter nonempty (xf_sensitive_paths e))));
      fld "sensitive_path_count" (jnat (xf_sensitive_path_count e));
      fld "paths_truncated" (JBool (xf_paths_truncated e))] else []).
Definition accessibility_value (e : accessibility_detect_event) (granted : Z) : json :=
  obj TRACE_ACCESSIBILITY_DETECT [fld "pid" (jnat (h_pid (ac_h e))); fld "ts_ns" (jnat (ac_ts_ns e));
    fld "comm" (JStr (ac_comm e)); fld "touch_count" (jnat (ac_touch_count e));
    fld "window_ms" (jnat (ac_window_ms e)); fld "granted" (jtri granted)].
Definition fileless_value (e : fileless_detect_event) : json :=
  obj TRACE_FILELESS_DETECT [fld "pid" (jnat (h_pid (fl_h e))); fld "ts_ns" (jnat (fl_ts_ns e));
    fld "comm" (JStr (fl_comm e)); fld "start" (jhex (fl_start e)); fld "size" (jnat (fl_size e));
    fld "anon_name" (JStr (fl_anon_name e))].
Definition screencapture_value (e : screencapture_detect_event) : json :=
  obj TRACE_SCREENCAPTURE_DETECT [fld "pid" (jnat (h_pid (sc_h e))); fld "ts_ns" (jnat (sc_ts_ns e));
    fld "comm" (JStr (sc_comm e)); fld "binder_calls_context" (jnat (sc_binder_calls_context e))].

(** The fields have the width of their C types; names printed bare need no escape. *)
Definition spawn_ok (e : spawn_event) : Prop := hdr_ok (sp_h e) /\ in_u 64 (sp_ts_ns e) /\ in_u 32 (sp_child_pid e).
Definition proc_exit_ok (e : proc_exit_event) : Prop := hdr_ok (pe_h e) /\ in_u 64 (pe_ts_ns e).
Definition execve_ok (e : execve_event) : Prop :=
  hdr_ok (ex_h e) /\ in_u 64 (ex_ts_ns e) /\ in_u 32 (ex_argc e) /\ Forall (in_u 64) (ex_call_stack e).
Definition prop_ok (e : prop_event) : Prop :=
  hdr_ok (pr_h e) /\ in_u 64 (pr_ts_ns e) /\ in_u 8 (pr_is_ret e) /\ in_u 8 (pr_found e).
Definition file_access_ok (e : file_access_event) (flag_strs : list (list byte)) : Prop :=
  hdr_ok (fa_h e) /\ in_u 64 (fa_ts_ns e) /\ Forall plain flag_strs.
Definition massdelete_ok (e : massdelete_detect_event) : Prop :=
  hdr_ok (md_h e) /\ in_u 64 (md_ts_ns e) /\ in_u 32 (md_touch_count e) /\ in_u 32 (md_window_ms e).
Definition exfil_ok (e : exfil_detect_event) : Prop :=
  hdr_ok (xf_h e) /\ in_u 64 (xf_ts_ns e) /\ in_u 64 (xf_bytes_sent e) /\ in_u 32 (xf_window_ms e) /\
  in_u 32 (xf_sensitive_path_count e).
Definition accessibility_ok (e : accessibility_detect_event) : Prop :=
  hdr_ok (ac_h e) /\ in_u 64 (ac_ts_ns e) /\ in_u 32 (ac_touch_count e) /\ in_u 32 (ac_window_ms e).
Definition fileless_ok (e : fileless_detect_event) : Prop :=
  hdr_ok (fl_h e) /\ in_u 64 (fl_ts_ns e) /\ in_u 64 (fl_start e) /\ in_u 64 (fl_size e).
Definition screencapture_ok (e : screencapture_detect_event) : Prop :=
  hdr_ok (sc_h e) /\ in_u 64 (sc_ts_ns e) /\ in_u 64 (sc_binder_calls_context e).

(** ** The builders write the declared values *)

Lemma exit_sig_range c : in_u 64 (exit_sig c).
Proof. unfold exit_sig. rewrite land_7f. pose proof (Z.mod_pos_bound c 128). range. Qed.
Lemma exit_status_range c : in_u 64 (exit_status c).
Proof.
  unfold exit_status. change 0xff with (Z.ones 8). rewrite Z.land_ones by lia.
  pose proof (Z.mod_pos_bound (Z.shiftr c 8) (2 ^ 8)). range.
Qed.
#[local] Hint Resolve exit_sig_range exit_status_range u64_range : core.

Lemma builds_spawn e : spawn_ok e -> builds (mod_emit_spawn e) (spawn_value e) [].
Proof.
  intros ((H1 & H2) & H3 & H4). constructor; [rewrite text_tput; value_text|ops_ok|value_ok|now left].
Qed.
Lemma builds_proc_exit e : proc_exit_ok e -> builds (mod_emit_proc_exit e) (proc_exit_value e) [].
Proof.
  intros ((H1 & H2) & H3). unfold mod_emit_proc_exit, proc_exit_value. cbv zeta.
  pose proof (exit_sig_range (pe_exit_code e)). pose proof (exit_status_range (pe_exit_code e)).
  destruct (exit_sig (pe_exit_code e) =? 0);
    (constructor; [rewrite text_tput; value_text|ops_ok|value_ok|now left]).
Qed.

Lemma live_frames_in i l f :
  0 <= i -> f ∈ live_frames i l -> i <= fst f < i + zlen l /\ In (snd f) l /\ snd f <> 0.
Proof.
  revert i. induction l as [|a l IH]; intros i Hi; simpl; [intros H; now apply not_elem_of_nil in H|].
  rewrite zlen_cons. pose proof (zlen_nonneg l). destruct (Z.eqb_spec a 0); [intros Hf; now apply not_elem_of_nil in Hf|].
  intros [-> |Hf]%elem_of_cons; [simpl; repeat split; auto; lia|].
  destruct (IH (i + 1)) as (H1 & H2 & H3); [lia|exact Hf|]. repeat split; auto; lia.
Qed.
Lemma frames_of_in depth stack f :
  Forall (in_u 64) stack -> f ∈ frames_of depth stack -> in_u 64 (fst f) /\ in_u 64 (snd f).
Proof.
  intros Hs [H1 [H2 _]]%live_frames_in; [|lia]. split.
  - unfold zlen in H1. rewrite length_take in H1. unfold STACK_DEPTH in H1. range.
  - rewrite List.Forall_forall in Hs. apply Hs. rewrite <- (take_drop (Z.to_nat (Z.min (s32 depth) STACK_DEPTH)) stack).
    apply in_or_app. now left.
Qed.
Lemma frame_text syms f k : in_u 64 (snd f) -> tput (frame_ops syms f) k = jput (frame_value syms f) k.
Proof.
  intros H. unfold frame_ops, frame_value. destruct (sym_at syms (fst f)) as [|c s] eqn:E;
    value_text.
Qed.
Lemma frame_jok syms f : in_u 64 (fst f) -> jok (frame_value syms f).
Proof. intros H. unfold frame_value. destruct (sym_at _ _); value_ok. Qed.

Lemma builds_execve e syms : execve_ok e -> builds (mod_emit_execve e syms) (execve_value e syms) [].
Proof.
  intros ((H1 & H2) & H3 & H4 & H5). unfold mod_emit_execve, execve_value. constructor; [|ops_ok|value_ok|now left].
  - rewrite text_tput, !tput_app. erewrite (tput_items quoted JStr); [|reflexivity|reflexivity].
    erewrite (tput_items (frame_ops syms) (frame_value syms)); [value_text| |reflexivity].
    intros f k Hf. apply frame_text. eapply frames_of_in; eauto.
  - destruct (frames_of_in _ _ _ H5 H). range.
  - destruct (frames_of_in _ _ _ H5 H). range.
  - apply frame_jok. eapply frames_of_in; eauto.
Qed.

Lemma builds_prop e : prop_ok e -> builds (mod_emit_prop e) (prop_value e) [].
Proof.
  intros ((H1 & H2) & H3 & H4 & H5). unfold mod_emit_prop, prop_value, prop_op.
  generalize (h_type (pr_h e)). intros t. destruct (Z.eqb_spec t MOD_EV_PROP_SCAN) as [->|_]; cbn [negb];
    [|destruct (t =? MOD_EV_PROP_GET), (t =? MOD_EV_PROP_FIND), (t =? MOD_EV_PROP_READ)];
    (constructor; [rewrite text_tput; value_text|ops_ok|value_ok|now left]).
Qed.

Lemma bare_text s k : plain s -> tput (bare s) k = jput (JStr s) k.
Proof. intros H. cbn [jput]. unfold jkey. now rewrite esc_plain. Qed.
Lemma plain_category c s : s ∈ category_names c -> plain s.
Proof.
  intros Hs. apply list_elem_of_In in Hs. unfold category_names in Hs.
  apply in_map_iff in Hs as ([b n] & <- & [Hin _]%filter_In).
  repeat (destruct Hin as [[= <- <-]|Hin]; [repeat constructor|]). destruct Hin.
Qed.

Lemma builds_file_access e c fs : file_access_ok e fs -> builds (mod_emit_file_access e c fs) (file_access_value e c fs) [].
Proof.
  intros ((H1 & H2) & H3 & H4). unfold mod_emit_file_access, file_access_value. constructor; [|ops_ok|value_ok|now left].
  rewrite text_tput, !tput_app. erewrite (tput_items bare JStr); [| |reflexivity].
  - erewrite (tput_items bare JStr); [value_text| |reflexivity]. intros s k Hs. eapply bare_text, plain_category, Hs.
  - intros s k Hs. apply bare_text. rewrite list.Forall_forall in H4. exact (H4 s Hs).
Qed.

Lemma builds_massdelete e d m v : massdelete_ok e -> builds (mod_emit_massdelete_detect e d m v) (massdelete_value e d m v) [].
Proof.
  intros ((H1 & H2) & H3 & H4 & H5). pose proof (u64_range d).
  unfold mod_emit_massdelete_detect, massdelete_value, tristate, jtri, true_false.
  destruct v, (m <? 0), (negb (m =? 0)); (constructor; [|ops_ok|value_ok|now left]);
    rewrite text_tput, ?tput_app; try (erewrite (tput_items quoted JStr); [|reflexivity|reflexivity]); value_text.
Qed.

Lemma builds_exfil e d v : exfil_ok e -> builds (mod_emit_exfil_detect e d v) (exfil_value e d v) [].
Proof.
  intros ((H1 & H2) & H3 & H4 & H5 & H6). unfold mod_emit_exfil_detect, exfil_value, true_false.
  destruct d as [[|c s]|], v, (xf_paths_truncated e); (constructor; [|ops_ok|value_ok|now left]);
    rewrite text_tput, ?tput_app; try (erewrite (tput_items quoted JStr); [|reflexivity|reflexivity]); value_text.
Qed.

Lemma builds_accessibility e g : accessibility_ok e -> builds (mod_emit_accessibility_detect e g) (accessibility_value e g) [].
Proof.
  intros ((H1 & H2) & H3 & H4 & H5). unfold mod_emit_accessibility_detect, accessibility_value, tristate, jtri, true_false.
  destruct (g <? 0), (negb (g =? 0)); (constructor; [rewrite text_tput; value_text|ops_ok|value_ok|now left]).
Qed.
Lemma builds_fileless e : fileless_ok e -> builds (mod_emit_fileless_detect e) (fileless_value e) [].
Proof.
  intros ((H1 & H2) & H3 & H4 & H5). constructor; [rewrite text_tput|ops_ok|value_ok|now left].
  unfold fileless_value. value_text.
Qed.
Lemma builds_screencapture e : screencapture_ok e -> builds (mod_emit_screencapture_detect e) (screencapture_value e) [].
Proof.
  intros ((H1 & H2) & H3 & H4). constructor; [rewrite text_tput; value_text|ops_ok|value_ok|now left].
Qed.
