(* ===== verification/Tally.v ===== *)
(** * Tally: the modules' per-key statistics, event handlers and summary records

    Every analyzer of src/modules (and the function and system-call engines) counts
    its events in a fixed table that is searched linearly: [*_stat_add].  The tables
    differ in their key and in what a row keeps; [stat_add] is the routine they share,
    each table is an instance of it.  The ring-buffer callbacks [*_handle_event] add to
    the table and build the event's record; the [*_emit_summary] functions build the
    closing record out of the table.  What the callbacks print on the console is left out. *)

From Stdlib Require Import ZArith Lia.
From stdpp Require Import base list option numbers.
From S2P Require Import Prelude Elf Emit Modules Json ModEvents.

Local Open Scope Z_scope.
#[local] Opaque digits.

(** ** The shared routine *)

Section Table.
Context {K : Type} `{EqDecision K} {S E : Type}.
Context (skey : S -> K) (ekey : E -> K) (fresh : E -> S) (hit : E -> S -> S) (cap : Z).

(** The first row with the key of [e], updated; none when there is no such row. *)
Fixpoint bump (e : E) (t : list S) : option (list S) :=
  match t with
  | [] => None
  | r :: t => if decide (skey r = ekey e) then Some (hit e r :: t) else option_map (cons r) (bump e t)
  end.
Definition stat_add (e : E) (t : list S) : list S :=
  match bump e t with
  | Some t => t
  | None => if zlen t >=? cap then t else t ++ [fresh e]
  end.

(** ** What it computes: grouping by key *)

(** The keys in the order of their first event. *)
Definition first_seen (es : list E) : list K :=
  foldl (fun ks e => if decide (ekey e ∈ ks) then ks else ks ++ [ekey e]) [] es.
(** The row of one key: made by its first event, updated by the others. *)
Definition row (k : K) (es : list E) : option S :=
  foldl (fun r e => if decide (ekey e = k) then Some (match r with None => fresh e | Some r => hit e r end) else r) None es.

Context (Hfresh : forall e, skey (fresh e) = ekey e) (Hhit : forall e r, skey (hit e r) = skey r).

Lemma bump_spec e t :
  NoDup (map skey t) ->
  bump e t = if decide (ekey e ∈ map skey t)
             then Some (map (fun r => if decide (skey r = ekey e) then hit e r else r) t) else None.
Proof.
  induction t as [|r t IH]; intros Hnd; [now rewrite decide_False by apply not_elem_of_nil|]. cbn [map] in *.
  apply list.NoDup_cons in Hnd as [Hr Hnd]. cbn [bump]. destruct (decide (skey r = ekey e)) as [E0|E0].
  - rewrite decide_True by (rewrite E0; left; reflexivity). do 2 f_equal. rewrite <- (map_id t) at 1. apply map_ext_in.
    intros q Hq. rewrite decide_False; [reflexivity|]. intros E1. apply Hr. rewrite E0, <- E1.
    apply list_elem_of_In, in_map. exact Hq.
  - rewrite IH by exact Hnd. destruct (decide (ekey e ∈ map skey t)) as [Hin|Hout].
    + rewrite decide_True by (right; exact Hin). reflexivity.
    + rewrite decide_False; [reflexivity|]. intros [H|H]%elem_of_cons; [now apply E0|contradiction].
Qed.

Lemma first_seen_snoc es e :
  first_seen (es ++ [e]) = if decide (ekey e ∈ first_seen es) then first_seen es else first_seen es ++ [ekey e].
Proof. unfold first_seen at 1. now rewrite foldl_app. Qed.
Lemma row_snoc k es e :
  row k (es ++ [e]) = if decide (ekey e = k) then Some (match row k es with None => fresh e | Some r => hit e r end) else row k es.
Proof. unfold row at 1. now rewrite foldl_app. Qed.

Lemma first_seen_nodup es : NoDup (first_seen es).
Proof.
  induction es as [|e es IH] using rev_ind; [constructor|]. rewrite first_seen_snoc. case_decide; [exact IH|].
  apply list.NoDup_app. split; [exact IH|]. split; [|apply NoDup_singleton].
  intros x Hx ->%list_elem_of_singleton. contradiction.
Qed.

Lemma row_none k es : k ∉ first_seen es -> row k es = None.
Proof.
  induction es as [|e es IH] using rev_ind; [reflexivity|]. rewrite first_seen_snoc, row_snoc. intros H.
  case_decide as E1; case_decide as E2; subst.
  - contradiction.
  - now apply IH.
  - exfalso. apply H. apply elem_of_app. right. now left.
  - apply IH. intros Hk. apply H, elem_of_app. now left.
Qed.

(** The invariant of the table after the events [es]. *)
Record tallied (es : list E) (t : list S) : Prop := {
  ta_keys : map skey t = take (Z.to_nat cap) (first_seen es);
  ta_rows : map Some t = map (fun k => row k es) (take (Z.to_nat cap) (first_seen es))
}.

Lemma take_snoc_old {A} n (l : list A) x : (n <= length l)%nat -> take n (l ++ [x]) = take n l.
Proof. intros H. apply take_app_le. exact H. Qed.

Lemma rows_outside es e ks :
  ekey e ∉ ks -> map (fun k => row k (es ++ [e])) ks = map (fun k => row k es) ks.
Proof.
  intros H. apply map_ext_in. intros k Hk. rewrite row_snoc, decide_False; [reflexivity|].
  intros <-. apply H. now apply list_elem_of_In.
Qed.

Lemma stat_add_tallied es t e : 0 <= cap -> tallied es t -> tallied (es ++ [e]) (stat_add e t).
Proof.
  intros Hcap [Hk Hr]. pose proof (first_seen_nodup es) as Hnd. unfold stat_add.
  assert (Hndt : NoDup (map skey t)) by (rewrite Hk; eapply sublist_NoDup; [exact Hnd|apply sublist_take]).
  rewrite bump_spec, Hk by exact Hndt. set (ks := first_seen es) in *. set (n := Z.to_nat cap) in *.
  assert (Hlen : length t = length (take n ks)) by (rewrite <- Hk; now rewrite length_map).
  rewrite length_take in Hlen. destruct (decide (ekey e ∈ take n ks)) as [Hin|Hout].
  - assert (Hfs : first_seen (es ++ [e]) = ks).
    { rewrite first_seen_snoc. apply decide_True. eapply elem_of_submseteq; [exact Hin|]. apply sublist_submseteq, sublist_take. }
    constructor; rewrite Hfs; fold n.
    + rewrite <- Hk, map_map. apply map_ext. intros r. case_decide; [apply Hhit|reflexivity].
    + rewrite map_map. rewrite <- Hk in Hr |- *. rewrite map_map in Hr |- *. apply map_ext_in. intros r Hi.
      pose proof (ext_in_map Hr r Hi) as Er. cbv beta in Er. rewrite row_snoc, <- Er.
      destruct (decide (skey r = ekey e)) as [E0|E0]; [now rewrite decide_True|rewrite decide_False; congruence].
  - destruct (zlen t >=? cap) eqn:Ec; b2p; unfold zlen in Ec.
    + assert (Hn : (n <= length ks)%nat) by lia.
      assert (Hfs : take n (first_seen (es ++ [e])) = take n ks).
      { rewrite first_seen_snoc. case_decide; [reflexivity|]. now apply take_snoc_old. }
      constructor; fold n; rewrite Hfs; [exact Hk|]. rewrite Hr. symmetry. now apply rows_outside.
    + assert (Hn : (length ks < n)%nat) by lia. rewrite take_ge in Hk, Hr, Hout by lia.
      assert (Hfs : first_seen (es ++ [e]) = ks ++ [ekey e]) by (rewrite first_seen_snoc; now apply decide_False).
      constructor; fold n; rewrite Hfs, take_ge by (rewrite length_app; simpl; lia).
      * rewrite map_app, Hk. simpl. now rewrite Hfresh.
      * rewrite !map_app, Hr, rows_outside by exact Hout. simpl. do 2 f_equal. rewrite row_snoc, decide_True by reflexivity.
        now rewrite row_none.
Qed.

(** Starting empty, the table is the first [cap] groups. *)
Lemma stats_are_groups es : 0 <= cap -> tallied es (foldl (fun t e => stat_add e t) [] es).
Proof.
  intros Hcap. induction es as [|e es IH] using rev_ind; [constructor; change (first_seen []) with (@nil K); now rewrite take_nil|].
  rewrite foldl_app. simpl. now apply stat_add_tallied.
Qed.
End Table.

(** ** The tables *)

Definition u32_inc (c : Z) : Z := u32 (c + 1).
Definition C_TASK_COMM (s : list byte) : list byte := snprintf_s TASK_COMM_LEN s.

(** Executed binaries. *)
Definition EXEC_STAT_MAX := 256.
Record exec_stat_t := mk_exec_stat { es_path : list byte; es_count : Z }.
Definition exec_stat_add : list byte -> list exec_stat_t -> list exec_stat_t :=
  stat_add es_path id (fun p => mk_exec_stat (snprintf_s 128 p) 1)
    (fun _ r => mk_exec_stat (es_path r) (u32_inc (es_count r))) EXEC_STAT_MAX.

(** Read properties. *)
Definition PROP_STAT_MAX := 512.
Definition PROP_NAME_LEN := 128.
Record prop_stat_t := mk_prop_stat { ps_name : list byte; ps_count : Z }.
Definition prop_stat_add : list byte -> list prop_stat_t -> list prop_stat_t :=
  stat_add ps_name id (fun n => mk_prop_stat (take (Z.to_nat (PROP_NAME_LEN - 1)) n) 1)
    (fun _ r => mk_prop_stat (ps_name r) (u32_inc (ps_count r))) PROP_STAT_MAX.

(** Opened files. *)
Definition FA_STAT_MAX := 512.
Definition FILE_PATH_LEN := 256.
Record fa_stat_t := mk_fa_stat { fs_path : list byte; fs_count : Z; fs_categories : Z }.
Definition fa_stat_add : list byte * Z -> list fa_stat_t -> list fa_stat_t :=
  stat_add fs_path fst (fun e => mk_fa_stat (snprintf_s FILE_PATH_LEN (fst e)) 1 (snd e))
    (fun _ r => mk_fa_stat (fs_path r) (u32_inc (fs_count r)) (fs_categories r)) FA_STAT_MAX.

(** Processes with delete bursts. *)
Definition RB_STAT_MAX := 64.
Record rb_stat_t := mk_rb_stat {
  rs_pid : Z; rs_comm : list byte; rs_burst_count : Z; rs_max_touch_count : Z; rs_max_distinct : Z
}.
Record rb_arg := mk_rb_arg { ra_pid : Z; ra_comm : list byte; ra_touch : Z; ra_distinct : Z }.
Definition rb_stat_add : rb_arg -> list rb_stat_t -> list rb_stat_t :=
  stat_add rs_pid ra_pid
    (fun a => mk_rb_stat (ra_pid a) (C_TASK_COMM (ra_comm a)) 1 (u32 (ra_touch a)) (ra_distinct a))
    (fun a r => mk_rb_stat (rs_pid r) (rs_comm r) (u32_inc (rs_burst_count r))
       (if u32 (ra_touch a) >? rs_max_touch_count r then u32 (ra_touch a) else rs_max_touch_count r)
       (if ra_distinct a >? rs_max_distinct r then ra_distinct a else rs_max_distinct r)) RB_STAT_MAX.

(** Processes that sent what they read. *)
Definition EB_STAT_MAX := 64.
Record eb_stat_t := mk_eb_stat { eb_pid : Z; eb_comm : list byte; eb_burst_count : Z; eb_max_bytes_sent : Z }.
Definition eb_stat_add : Z * list byte * Z -> list eb_stat_t -> list eb_stat_t :=
  stat_add eb_pid (fun a => fst (fst a))
    (fun a => mk_eb_stat (fst (fst a)) (C_TASK_COMM (snd (fst a))) 1 (snd a))
    (fun a r => mk_eb_stat (eb_pid r) (eb_comm r) (u32_inc (eb_burst_count r))
       (if snd a >? eb_max_bytes_sent r then snd a else eb_max_bytes_sent r)) EB_STAT_MAX.

(** Processes with bursts of calls to the system server. *)
Definition A11Y_STAT_MAX := 64.
Record a11y_stat_t := mk_a11y_stat { as_pid : Z; as_comm : list byte; as_burst_count : Z; as_max_touch_count : Z }.
Definition a11y_stat_add : Z * list byte * Z -> list a11y_stat_t -> list a11y_stat_t :=
  stat_add as_pid (fun a => fst (fst a))
    (fun a => mk_a11y_stat (fst (fst a)) (C_TASK_COMM (snd (fst a))) 1 (u32 (snd a)))
    (fun a r => mk_a11y_stat (as_pid r) (as_comm r) (u32_inc (as_burst_count r))
       (if u32 (snd a) >? as_max_touch_count r then u32 (snd a) else as_max_touch_count r)) A11Y_STAT_MAX.

(** Processes with anonymous executable mappings. *)
Definition FILELESS_STAT_MAX := 64.
Record fileless_stat_t := mk_fileless_stat { ls_pid : Z; ls_comm : list byte; ls_count : Z }.
Definition fileless_stat_add : Z * list byte -> list fileless_stat_t -> list fileless_stat_t :=
  stat_add ls_pid fst (fun a => mk_fileless_stat (fst a) (C_TASK_COMM (snd a)) 1)
    (fun _ r => mk_fileless_stat (ls_pid r) (ls_comm r) (u32_inc (ls_count r))) FILELESS_STAT_MAX.

(** Processes with screen capture sessions. *)
Definition MEDIAPROJ_STAT_MAX := 64.
Record mediaproj_stat_t := mk_mediaproj_stat { ms_pid : Z; ms_comm : list byte; ms_sessions : Z; ms_total_binder_calls : Z }.
Definition mediaproj_stat_add : Z * list byte * Z -> list mediaproj_stat_t -> list mediaproj_stat_t :=
  stat_add ms_pid (fun a => fst (fst a))
    (fun a => mk_mediaproj_stat (fst (fst a)) (C_TASK_COMM (snd (fst a))) 1 (snd a))
    (fun a r => mk_mediaproj_stat (ms_pid r) (ms_comm r) (u32_inc (ms_sessions r))
       (u64 (ms_total_binder_calls r + snd a))) MEDIAPROJ_STAT_MAX.

(** Called functions (src/funcs/funcs.c). *)
Definition FUNCS_STAT_MAX := 256.
Definition FUNCS_STAT_NAME_MAX := 513.
Record funcs_stat_t := mk_funcs_stat { fn_name : list byte; fn_count : Z }.
Definition funcs_stat_name (module symbol : list byte) : list byte :=
  snprintf_s FUNCS_STAT_NAME_MAX (module ++ [x21] ++ symbol).
Definition funcs_stat_add (module symbol : list byte) : list funcs_stat_t -> list funcs_stat_t :=
  stat_add fn_name id (fun n => mk_funcs_stat (snprintf_s FUNCS_STAT_NAME_MAX n) 1)
    (fun _ r => mk_funcs_stat (fn_name r) (u64 (fn_count r + 1))) FUNCS_STAT_MAX (funcs_stat_name module symbol).

(** ** Classification *)

Definition suspicious_bins : list (list byte) :=
  map bytes_of ["su"; "magisk"; "busybox"; "mount"; "sh"; "bash"; "getprop"; "setprop"; "setenforce"; "getenforce"]%string.
Definition is_suspicious_bin (path : list byte) : bool :=
  existsb (fun b => bool_decide (b = basename_of path)) suspicious_bins.
Definition rasp_props : list (list byte) :=
  map bytes_of ["ro.debuggable"; "ro.secure"; "ro.build.type"; "ro.build.tags"; "ro.build.fingerprint";
    "ro.build.selinux"; "ro.boot.verifiedbootstate"; "ro.boot.veritymode"; "ro.product.model"; "ro.product.brand";
    "ro.product.device"; "persist.sys.usb.config"; "service.adb.root"; "ro.build.version.release";
    "ro.build.version.sdk"]%string.
Definition is_rasp_prop (name : list byte) : bool := existsb (fun p => bool_decide (p = name)) rasp_props.

Definition MASSDELETE_DETECT_BURST_DETECTED := 1.
Definition MASSDELETE_DETECT_MANAGE_EXT_STORAGE := 2.
Definition MASSDELETE_DETECT_DISTINCT_MIN := 10.
(** [seen]: the paths in front of this one. *)
Fixpoint distinct_from (seen l : list (list byte)) : Z :=
  match l with
  | [] => 0
  | p :: l => (if existsb (fun q => bool_decide (q = p)) seen then 0 else 1) + distinct_from (seen ++ [p]) l
  end.
(** [None]: the loop would read behind the array. *)
Definition burst_distinct_count (paths : list (list byte)) (n : Z) : option Z :=
  if n <=? 0 then Some 0 else
  if zlen paths <? n then None else Some (distinct_from [] (take (Z.to_nat n) paths)).
Definition classify_burst (touch_count distinct_count manage_ext_storage : Z) : Z :=
  Z.lor (if (touch_count >=? MASSDELETE_DETECT_THRESHOLD) && (distinct_count >=? MASSDELETE_DETECT_DISTINCT_MIN)
         then MASSDELETE_DETECT_BURST_DETECTED else 0)
        (if manage_ext_storage =? 1 then MASSDELETE_DETECT_MANAGE_EXT_STORAGE else 0).
Definition ACCESSIBILITY_DETECT_BURST_DETECTED := 1.
Definition ACCESSIBILITY_DETECT_SERVICE_GRANTED := 2.
Definition classify_accessibility (touch_count granted : Z) : Z :=
  Z.lor (if touch_count >=? ACCESSIBILITY_DETECT_THRESHOLD then ACCESSIBILITY_DETECT_BURST_DETECTED else 0)
        (if granted =? 1 then ACCESSIBILITY_DETECT_SERVICE_GRANTED else 0).
