(* ===== verification/Burst.v ===== *)
(** * Burst: per-process burst detection in the kernel

    [record_touch] of src/modules/massdelete_detect.bpf.c and [record_call] of
    src/modules/accessibility_detect.bpf.c are the same routine at two sizes: a
    window per process, a ring of samples, an alert when the count reaches the
    threshold.  [Detector] is that routine, with the reference it implements; the two
    modules instantiate it and add their gates and events. *)

From Stdlib Require Import ZArith Lia.
From stdpp Require Import base list option numbers gmap fin_maps.
From S2P Require Import Prelude Elf SpanStack Correlate Modules Json ModEvents Tally Funcs.

Local Open Scope Z_scope.

(** ** The routine *)

Record burst (A : Type) := mk_burst { b_start : Z; b_count : Z; b_head : Z; b_ring : list A }.
Arguments mk_burst {A}.
Arguments b_start {A}.
Arguments b_count {A}.
Arguments b_head {A}.
Arguments b_ring {A}.

Inductive outcome (A : Type) :=
| Quiet | Unwatched | Dropped
| Alert (count window_ns : Z) (ring : list A).
Arguments Quiet {A}.
Arguments Unwatched {A}.
Arguments Dropped {A}.
Arguments Alert {A}.

Record touch (A : Type) := mk_touch { t_pid : Z; t_now : Z; t_room : bool; t_x : A }.
Arguments mk_touch {A}.
Arguments t_pid {A}.
Arguments t_now {A}.
Arguments t_room {A}.
Arguments t_x {A}.

Section Detector.
Context {A : Type} (zero : A) (ring_len threshold window : Z) (cap : nat).
Implicit Types (st : burst A) (m : gmap Z (burst A)) (t : touch A).

(** One touch on the state of its process; [t_room] is whether the ring buffer has
    space for an event. *)
Definition burst_step t st : burst A * outcome A :=
  let now := t_now t in
  let st := if u64 (now - b_start st) >? window then mk_burst now 0 0 (b_ring st) else st in
  let slot := Z.land (b_head st) (ring_len - 1) in
  let st := mk_burst (b_start st) (u32 (b_count st + 1)) (u32 (b_head st + 1)) (<[Z.to_nat slot := t_x t]> (b_ring st)) in
  if negb (b_count st =? threshold) then (st, Quiet)
  else (mk_burst now 0 0 (b_ring st),
        if t_room t then Alert (b_count st) (u64 (now - b_start st)) (b_ring st) else Dropped).

Definition fresh_burst (now : Z) : burst A := mk_burst now 0 0 (repeat zero (Z.to_nat ring_len)).

(** A process without a state gets one while the map has room. *)
Definition record m t : gmap Z (burst A) * outcome A :=
  match m !! t_pid t with
  | Some st => let '(st, o) := burst_step t st in (<[t_pid t := st]> m, o)
  | None =>
      if (size m <? cap)%nat then
        let '(st, o) := burst_step t (fresh_burst (t_now t)) in (<[t_pid t := st]> m, o)
      else (m, Unwatched)
  end.

Fixpoint record_all m (l : list (touch A)) : gmap Z (burst A) * list (outcome A) :=
  match l with
  | [] => (m, [])
  | t :: l => let '(m, o) := record m t in let '(m, os) := record_all m l in (m, o :: os)
  end.

(** ** The reference: a tumbling window of samples *)

(** [w_samples]: the touches since the window was opened. *)
Record window_state := mk_window { w_start : Z; w_samples : list A }.
Definition window_step t (w : window_state) : window_state * outcome A :=
  let w := if t_now t - w_start w >? window then mk_window (t_now t) [] else w in
  let s := w_samples w ++ [t_x t] in
  if zlen s =? threshold
  then (mk_window (t_now t) [], if t_room t then Alert threshold (t_now t - w_start w) s else Dropped)
  else (mk_window (w_start w) s, Quiet).

Context (Hlen : exists k : Z, 0 <= k <= 31 /\ ring_len = 2 ^ k) (Hthr : 0 < threshold < ring_len)
        (Hwin : 0 <= window).

(** The window's samples are the first slots of the ring. *)
Record implements st (w : window_state) : Prop := {
  im_start : b_start st = w_start w;
  im_count : b_count st = zlen (w_samples w);
  im_head : b_head st = zlen (w_samples w);
  im_len : zlen (b_ring st) = ring_len;
  im_ring : take (length (w_samples w)) (b_ring st) = w_samples w;
  im_below : zlen (w_samples w) < threshold
}.

(** An alert of the routine shows the samples in front of its ring. *)
Definition same_outcome (o o' : outcome A) : Prop :=
  match o, o' with
  | Alert c w r, Alert c' w' s => c = c' /\ w = w' /\ zlen r = ring_len /\ take (Z.to_nat threshold) r = s
  | Quiet, Quiet | Dropped, Dropped => True
  | _, _ => False
  end.

Lemma ring_pos : 0 < ring_len < 2 ^ 32.
Proof. destruct Hlen as (k & Hk & ->). split; [lia|]. apply Z.pow_lt_mono_r; lia. Qed.

Lemma slot_small h : 0 <= h < ring_len -> Z.land h (ring_len - 1) = h.
Proof.
  destruct Hlen as (k & Hk & E). rewrite E. intros Hh.
  replace (2 ^ k - 1) with (Z.ones k) by (rewrite Z.ones_equiv; lia). rewrite Z.land_ones by lia. now apply Z.mod_small.
Qed.

Lemma fresh_implements now : implements (fresh_burst now) (mk_window now []).
Proof.
  pose proof ring_pos. constructor; simpl; auto; unfold zlen; simpl; try lia. rewrite repeat_length. lia.
Qed.

Lemma take_insert_next (r s : list A) x :
  (length s < length r)%nat -> take (length s) r = s -> take (length (s ++ [x])) (<[length s := x]> r) = s ++ [x].
Proof.
  intros Hl Hs. rewrite length_app, Nat.add_1_r. rewrite (take_S_r _ _ x).
  - rewrite take_insert_ge by lia. now rewrite Hs.
  - apply list_lookup_insert_eq. exact Hl.
Qed.

Lemma step_implements t st w :
  implements st w -> 0 <= w_start w <= t_now t -> t_now t < 2 ^ 64 ->
  let '(st', o) := burst_step t st in let '(w', o') := window_step t w in
  implements st' w' /\ same_outcome o o' /\ 0 <= w_start w' <= t_now t.
Proof.
  intros [I1 I2 I3 I4 I5 I6] Hs Hn. pose proof ring_pos as Hp. unfold burst_step, window_step. cbv zeta.
  rewrite I1, u64_small by lia. set (reset := t_now t - w_start w >? window).
  set (st1 := if reset then _ else st). set (w1 := if reset then _ else w).
  assert (I : implements st1 w1 /\ 0 <= w_start w1 <= t_now t).
  { unfold st1, w1. destruct reset; [|split; [constructor; auto|lia]]. split; [|simpl; lia].
    constructor; simpl; auto; unfold zlen; simpl; lia. }
  clearbody st1 w1 reset. clear I1 I2 I3 I4 I5 I6 Hs st w. destruct I as [[I1 I2 I3 I4 I5 I6] Hs].
  pose proof (zlen_nonneg (w_samples w1)) as H0. rewrite I2, I3, !u32_small, slot_small by lia.
  assert (Hz : zlen (w_samples w1 ++ [t_x t]) = zlen (w_samples w1) + 1) by (rewrite zlen_app; reflexivity).
  assert (Hidx : Z.to_nat (zlen (w_samples w1)) = length (w_samples w1)) by (unfold zlen; lia).
  assert (Htake := take_insert_next (b_ring st1) (w_samples w1) (t_x t)). rewrite Hidx.
  assert (Hring : zlen (<[length (w_samples w1) := t_x t]> (b_ring st1)) = ring_len)
    by (unfold zlen in *; now rewrite length_insert).
  cbn [b_count b_start b_head b_ring]. rewrite Hz. destruct (Z.eqb_spec (zlen (w_samples w1) + 1) threshold) as [E|E]; cbn [negb].
  - split; [constructor; cbn; auto; unfold zlen; simpl; lia|]. split; [|simpl; lia].
    destruct (t_room t); [|exact I]. cbn. split; [lia|]. split; [rewrite u64_small; lia|]. split; [exact Hring|].
    replace (Z.to_nat threshold) with (length (w_samples w1 ++ [t_x t])) by (unfold zlen in Hz; lia).
    apply Htake; [unfold zlen in *; lia|exact I5].
  - split; [|split; [exact I|simpl; lia]]. constructor; cbn; auto; try lia.
    apply Htake; [unfold zlen in *; lia|exact I5].
Qed.

(** ** Sequences of touches *)

(** The windows of one process, opened by its first touch. *)
Fixpoint window_run (o : option window_state) (l : list (touch A)) : list (outcome A) :=
  match l with
  | [] => []
  | t :: l => let '(w, r) := window_step t (default (mk_window (t_now t) []) o) in r :: window_run (Some w) l
  end.

(** The clock does not run backwards. *)
Fixpoint clocked (lo : Z) (l : list (touch A)) : Prop :=
  match l with [] => True | t :: l => lo <= t_now t < 2 ^ 64 /\ clocked (t_now t) l end.

Definition of_pid (p : Z) (l : list (touch A)) : list (touch A) := List.filter (fun t => t_pid t =? p) l.
(** The outcomes of the touches of [p]. *)
Definition outs_of (p : Z) (l : list (touch A)) (os : list (outcome A)) : list (outcome A) :=
  map snd (List.filter (fun r => t_pid (fst r) =? p) (zip l os)).

Definition tracks (lo : Z) (o : option (burst A)) (w : option window_state) : Prop :=
  match o, w with
  | Some st, Some w => implements st w /\ 0 <= w_start w <= lo
  | None, None => True
  | _, _ => False
  end.

Lemma tracks_later lo hi o w : lo <= hi -> tracks lo o w -> tracks hi o w.
Proof. unfold tracks. destruct o, w; auto. intros H [H1 H2]. split; [exact H1|lia]. Qed.

(** A touch of a watched process steps its window. *)
Lemma record_own lo m t w P :
  dom m ⊆ P -> t_pid t ∈ P -> (size P <= cap)%nat -> tracks lo (m !! t_pid t) w -> 0 <= lo <= t_now t -> t_now t < 2 ^ 64 ->
  let '(m', o) := record m t in
  let '(w', o') := window_step t (default (mk_window (t_now t) []) w) in
  same_outcome o o' /\ tracks (t_now t) (m' !! t_pid t) (Some w') /\ dom m' ⊆ P.
Proof.
  intros Hd Hp Hc Ht H0 Hn. unfold record. destruct (m !! t_pid t) as [st|] eqn:Em; destruct w as [w|]; try contradiction.
  - destruct Ht as [Hi Hs]. pose proof (step_implements t st w Hi) as H. simpl (default _ _). revert H.
    destruct (burst_step t st) as [st' o], (window_step t w) as [w' o']. intros H.
    destruct H as (H1 & H2 & H3); [lia|lia|]. split; [exact H2|]. rewrite lookup_insert_eq.
    split; [split; auto; lia|]. set_solver.
  - simpl (default _ _). rewrite (proj2 (Nat.ltb_lt _ _)).
    + pose proof (step_implements t (fresh_burst (t_now t)) (mk_window (t_now t) []) (fresh_implements _)) as H. cbn [w_start] in H. revert H.
      destruct (burst_step t (fresh_burst (t_now t))) as [st' o], (window_step t _) as [w' o']. intros H.
      destruct H as (H1 & H2 & H3); [lia|lia|]. split; [exact H2|]. rewrite lookup_insert_eq.
      split; [split; auto; lia|]. set_solver.
    + apply not_elem_of_dom in Em. eapply Nat.lt_le_trans; [|exact Hc]. rewrite <- size_dom.
      apply subset_size. set_solver.
Qed.

Lemma record_other m t p : t_pid t <> p -> fst (record m t) !! p = m !! p.
Proof.
  intros H. unfold record. destruct (m !! t_pid t) as [st|]; [|destruct (_ <? _)%nat; [|reflexivity]];
    destruct (burst_step t _) as [st' o]; simpl; now rewrite lookup_insert_ne.
Qed.
Lemma record_dom m t P : dom m ⊆ P -> t_pid t ∈ P -> dom (fst (record m t)) ⊆ P.
Proof.
  intros Hd Hp. unfold record. destruct (m !! t_pid t) as [st|]; [|destruct (_ <? _)%nat; [|exact Hd]];
    destruct (burst_step t _) as [st' o]; simpl; set_solver.
Qed.

(** With at most [cap] processes, every process is served by windows of its own. *)
Lemma record_all_windows p P l : forall lo m w,
  dom m ⊆ P -> (size P <= cap)%nat -> Forall (fun t => t_pid t ∈ P) l -> 0 <= lo -> clocked lo l ->
  tracks lo (m !! p) w -> Forall2 same_outcome (outs_of p l (snd (record_all m l))) (window_run w (of_pid p l)).
Proof.
  induction l as [|t l IH]; intros lo m w Hd Hc Hl H0 Hk Ht; [constructor|].
  apply list.Forall_cons in Hl as [Hp Hl]. destruct Hk as [Hn Hk]. cbn [record_all].
  pose proof (record_dom m t P Hd Hp) as Hd'. pose proof (record_other m t p) as Ho.
  destruct (record m t) as [m' o] eqn:Er. simpl in Hd', Ho.
  destruct (record_all m' l) as [m2 os] eqn:Ea. unfold outs_of, of_pid. cbn [snd zip_with List.filter fst].
  destruct (Z.eqb_spec (t_pid t) p) as [E|E].
  - cbn [map snd window_run]. subst p. pose proof (record_own lo m t w P Hd Hp Hc Ht) as H. rewrite Er in H. revert H.
    destruct (window_step t _) as [w' o']. intros H. destruct H as (H1 & H2 & H3); [lia|lia|]. constructor; [exact H1|].
    specialize (IH (t_now t) m' (Some w')). rewrite Ea in IH. apply IH; auto. lia.
  - specialize (IH (t_now t) m' w). rewrite Ea in IH. apply IH; auto; [lia|].
    rewrite Ho by exact E. eapply tracks_later; [|exact Ht]. lia.
Qed.

(** *** What an alert of the reference means *)

(** The window holds the last touches, each within its span. *)
Definition holds (w : window_state) (pre : list (touch A)) : Prop :=
  exists old suf, pre = old ++ suf /\ map t_x suf = w_samples w /\
    Forall (fun t => w_start w <= t_now t <= w_start w + window) suf.

(** Touches [l] of one process, the last one of them raising the alert. *)
Definition justified (l : list (touch A)) (c span : Z) (s : list A) : Prop :=
  exists old suf, l = old ++ suf /\ zlen suf = threshold /\ c = threshold /\ s = map t_x suf /\ 0 <= span <= window /\
    Forall (fun t => forall last_t, last suf = Some last_t -> t_now last_t - span <= t_now t <= t_now last_t) suf.

Lemma window_step_holds w pre t :
  holds w pre -> w_start w <= t_now t -> Forall (fun q => t_now q <= t_now t) pre ->
  let '(w', o) := window_step t w in
  holds w' (pre ++ [t]) /\ (w_start w' <= t_now t) /\
  match o with Alert c span s => justified (pre ++ [t]) c span s | _ => True end.
Proof.
  intros (old & suf & -> & Hs & Hf) Hw Hpre. unfold window_step. cbv zeta.
  set (w1 := if _ >? _ then _ else w).
  assert (H1 : exists old1 suf1, old ++ suf = old1 ++ suf1 /\ map t_x suf1 = w_samples w1 /\
    Forall (fun t => w_start w1 <= t_now t <= w_start w1 + window) suf1 /\ w_start w1 <= t_now t <= w_start w1 + window).
  { unfold w1. destruct (_ >? _) eqn:E; b2p.
    - exists (old ++ suf), []. rewrite app_nil_r. repeat split; simpl; auto; lia.
    - exists old, suf. repeat split; auto; lia. }
  clearbody w1. destruct H1 as (old1 & suf1 & E1 & Hs1 & Hf1 & Hb). rewrite E1 in Hpre |- *. clear E1 Hs Hf.
  assert (Hall : Forall (fun q => w_start w1 <= t_now q <= w_start w1 + window) (suf1 ++ [t])) by (apply Forall_app; auto).
  assert (Hmap : map t_x (suf1 ++ [t]) = w_samples w1 ++ [t_x t]) by (rewrite map_app, Hs1; reflexivity).
  destruct (zlen (w_samples w1 ++ [t_x t]) =? threshold) eqn:Et; b2p; (split; [|split; [simpl; lia|]]).
  - exists (old1 ++ suf1 ++ [t]), []. rewrite app_nil_r, <- app_assoc. repeat split; auto.
  - destruct (t_room t); [|exact I]. exists old1, (suf1 ++ [t]). rewrite <- app_assoc.
    assert (zlen (suf1 ++ [t]) = threshold) by (rewrite <- Hmap in Et; unfold zlen in *; now rewrite length_map in Et).
    rewrite Hmap. repeat split; auto; try lia. apply list.Forall_forall. intros q Hq lt. rewrite last_snoc. intros [= <-].
    rewrite Forall_forall in Hall. specialize (Hall q Hq). split; [lia|].
    apply elem_of_app in Hq as [Hq|Hq%list_elem_of_singleton]; [|subst; lia].
    apply Forall_app in Hpre as [_ Hpre]. rewrite Forall_forall in Hpre. now apply Hpre.
  - exists old1, (suf1 ++ [t]). rewrite <- app_assoc. auto.
  - exact I.
Qed.

Lemma window_run_open t l : window_run None (t :: l) = window_run (Some (mk_window (t_now t) [])) (t :: l).
Proof. reflexivity. Qed.

Lemma window_run_justified l : forall w pre lo k c span s,
  holds w pre -> w_start w <= lo -> Forall (fun q => t_now q <= lo) pre -> clocked lo l ->
  window_run (Some w) l !! k = Some (Alert c span s) -> justified (pre ++ take (S k) l) c span s.
Proof.
  induction l as [|t l IH]; intros w pre lo k c span s Hh Hw Hpre Hk; [discriminate|].
  destruct Hk as [Hn Hk]. cbn [window_run]. simpl (default _ _).
  pose proof (window_step_holds w pre t Hh) as H. revert H. destruct (window_step t w) as [w' o]. intros H.
  assert (Hpre' : Forall (fun q => t_now q <= t_now t) pre) by (eapply List.Forall_impl; [|exact Hpre]; simpl; lia).
  destruct H as (H1 & H2 & H3); [lia|exact Hpre'|]. destruct k as [|k]; simpl.
  - intros [= ->]. rewrite take_0. exact H3.
  - intros Hl. change (t :: take (S k) l) with ([t] ++ take (S k) l). rewrite app_assoc.
    apply (IH w' (pre ++ [t]) (t_now t) k c span s); auto.
    apply Forall_app. split; [exact Hpre'|]. repeat constructor; lia.
Qed.

(** *** When the reference must alert *)

Definition fires (o : outcome A) : Prop := match o with Alert _ _ _ | Dropped => True | _ => False end.

(** Inside one window the threshold is reached by counting. *)
Lemma window_fills l : forall w,
  zlen (w_samples w) < threshold -> Forall (fun t => t_now t <= w_start w + window) l ->
  threshold <= zlen (w_samples w) + zlen l -> Exists fires (window_run (Some w) l).
Proof.
  induction l as [|t l IH]; intros w Hc Hl Hz; [unfold zlen in *; simpl in *; lia|].
  apply list.Forall_cons in Hl as [Ht Hl]. cbn [window_run]. simpl (default _ _). unfold window_step. cbv zeta.
  destruct (_ >? _) eqn:E; b2p; [lia|]. rewrite zlen_cons in Hz. rewrite zlen_app, zlen_cons. change (zlen (@nil A)) with 0.
  destruct (Z.eqb_spec (zlen (w_samples w) + (1 + 0)) threshold).
  - apply Exists_cons_hd. destruct (t_room t); exact I.
  - apply Exists_cons_tl, IH; cbn [w_samples w_start]; rewrite ?zlen_app, ?zlen_cons; change (zlen (@nil A)) with 0; auto; lia.
Qed.

(** Twice the threshold, less one, within the span of a window always fires. *)
Lemma window_fires l : forall w lo,
  zlen (w_samples w) < threshold -> clocked lo l -> Forall (fun t => t_now t <= lo + window) l ->
  2 * threshold - 1 <= zlen (w_samples w) + zlen l -> Exists fires (window_run (Some w) l).
Proof.
  induction l as [|t l IH]; intros w lo Hc Hk Hl Hz; [unfold zlen in *; simpl in *; lia|].
  destruct Hk as [Hn Hk]. apply list.Forall_cons in Hl as [Ht Hl].
  assert (Hl' : Forall (fun q => t_now q <= t_now t + window) l) by (eapply List.Forall_impl; [|exact Hl]; simpl; lia).
  cbn [window_run]. simpl (default _ _). unfold window_step. cbv zeta. rewrite zlen_cons in Hz.
  pose proof (zlen_nonneg (w_samples w)). destruct (_ >? _) eqn:E; b2p; cbn [w_samples w_start app].
  - change (zlen [t_x t]) with 1. destruct (Z.eqb_spec 1 threshold).
    + apply Exists_cons_hd. destruct (t_room t); exact I.
    + apply Exists_cons_tl, window_fills; cbn [w_samples w_start]; auto; change (zlen [t_x t]) with 1; lia.
  - rewrite zlen_app. change (zlen [t_x t]) with 1. destruct (Z.eqb_spec (zlen (w_samples w) + 1) threshold).
    + apply Exists_cons_hd. destruct (t_room t); exact I.
    + apply Exists_cons_tl. eapply (IH _ lo); cbn [w_samples]; rewrite ?zlen_app; change (zlen [t_x t]) with 1; auto; try lia.
      clear -Hk Hn. destruct l as [|q l]; [exact I|]. destruct Hk as [H1 H2]. split; [lia|exact H2].
Qed.

(** A block in the middle of a run starts with some window below the threshold. *)
Lemma window_run_app a b : forall w, zlen (w_samples w) < threshold ->
  exists w', zlen (w_samples w') < threshold /\
             window_run (Some w) (a ++ b) = window_run (Some w) a ++ window_run (Some w') b.
Proof.
  induction a as [|t a IH]; intros w Hw; [exists w; auto|]. cbn [app window_run]. simpl (default _ _).
  assert (Hs : zlen (w_samples (fst (window_step t w))) < threshold).
  { unfold window_step. cbv zeta. destruct (Z.eqb_spec (zlen (w_samples (if t_now t - w_start w >? window then mk_window (t_now t) [] else w) ++ [t_x t])) threshold) as [E|E].
    - simpl. change (zlen (@nil A)) with 0. lia.
    - simpl. revert E. rewrite zlen_app. change (zlen [t_x t]) with 1. destruct (_ >? _); simpl; [change (zlen (@nil A)) with 0|]; lia. }
  destruct (window_step t w) as [w1 o]. destruct (IH w1 Hs) as (w' & H1 & ->). exists w'. auto.
Qed.

Lemma length_window_run o l : length (window_run o l) = length l.
Proof. revert o. induction l as [|t l IH]; intros o; [reflexivity|]. cbn [window_run]. destruct (window_step _ _). simpl. now rewrite IH. Qed.

Lemma clocked_app lo a b : clocked lo (a ++ b) -> clocked lo a /\ exists lo', lo <= lo' /\ clocked lo' b /\ Forall (fun t => t_now t <= lo') a.
Proof.
  revert lo. induction a as [|t a IH]; intros lo H; [split; [exact I|]; exists lo; repeat split; auto; lia|].
  destruct H as [H1 H2]. destruct (IH _ H2) as (H3 & lo' & H4 & H5 & H6). split; [split; auto|].
  exists lo'. split; [lia|]. split; [exact H5|]. apply list.Forall_cons. split; [lia|exact H6].
Qed.
Lemma clocked_filter lo p l : clocked lo l -> clocked lo (of_pid p l).
Proof.
  revert lo. induction l as [|t l IH]; intros lo H; [exact I|]. destruct H as [H1 H2]. unfold of_pid. cbn [List.filter].
  destruct (_ =? p); [split; [exact H1|now apply IH]|].
  specialize (IH _ H2). fold (of_pid p l). destruct (of_pid p l) as [|q k]; [exact I|]. destruct IH. split; [lia|assumption].
Qed.

(** *** The routine on a sequence of touches *)

Context (l : list (touch A)) (P : gset Z) (Hcap : (size P <= cap)%nat)
        (HP : Forall (fun t => t_pid t ∈ P) l) (Hclock : clocked 0 l).
Notation outs p := (outs_of p l (snd (record_all ∅ l))).

Lemma run_windows p : Forall2 same_outcome (outs p) (window_run None (of_pid p l)).
Proof.
  apply (record_all_windows p P l 0); auto; [set_solver|lia|]. rewrite lookup_empty. exact I.
Qed.

(** An alert shows the last touches of the process, all of them inside one window. *)
Lemma alerts_justified p k c span r :
  outs p !! k = Some (Alert c span r) ->
  justified (take (S k) (of_pid p l)) c span (take (Z.to_nat threshold) r).
Proof.
  intros H. destruct (Forall2_lookup_l _ _ _ _ _ (run_windows p) H) as (o & Ho & Hs).
  destruct o as [| | |c' w' s]; try contradiction. destruct Hs as (-> & -> & _ & ->).
  pose proof (clocked_filter 0 p l Hclock) as Hk. destruct (of_pid p l) as [|t q]; [discriminate|].
  rewrite window_run_open in Ho. apply (window_run_justified _ _ [] (t_now t)) in Ho; auto; simpl; try lia.
  - exists [], []. repeat split; auto.
  - destruct Hk as [H1 H2]. split; [lia|exact H2].
Qed.

(** A block of touches within the span of a window is not missed. *)
Lemma bursts_fire p a b d lo :
  of_pid p l = a ++ b ++ d -> 2 * threshold - 1 <= zlen b -> Forall (fun t => lo <= t_now t <= lo + window) b ->
  exists k o, (length a <= k < length a + length b)%nat /\ outs p !! k = Some o /\ fires o.
Proof.
  intros E Hz Hb. pose proof (clocked_filter 0 p l Hclock) as Hk. rewrite E in Hk. pose proof Hk as Hk0.
  apply clocked_app in Hk as (_ & lo1 & Hlo1 & Hk & _). apply clocked_app in Hk as (Hk & _).
  assert (Hk' : clocked lo b).
  { destruct b as [|t b]; [exact I|]. apply list.Forall_cons in Hb as [Ht _]. destruct Hk as [H1 H2]. split; [lia|exact H2]. }
  assert (Hw : exists w, zlen (w_samples w) < threshold /\ window_run None (of_pid p l) = window_run (Some w) (a ++ b ++ d)).
  { rewrite E. destruct (a ++ b ++ d) as [|t q] eqn:Eq; [|exists (mk_window (t_now t) []); split; [simpl; change (zlen (@nil A)) with 0; lia|reflexivity]].
    exists (mk_window 0 []). split; [simpl; change (zlen (@nil A)) with 0; lia|reflexivity]. }
  destruct Hw as (w & Hw & Ew). destruct (window_run_app a (b ++ d) w Hw) as (w1 & Hw1 & E1).
  destruct (window_run_app b d w1 Hw1) as (w2 & Hw2 & E2). rewrite E1, E2 in Ew.
  assert (HE : Exists fires (window_run (Some w1) b)).
  { apply (window_fires b w1 lo); auto; [eapply List.Forall_impl; [|exact Hb]; simpl; lia|]. pose proof (zlen_nonneg (w_samples w1)). lia. }
  apply Exists_exists in HE as (o & Hin & Ho). apply list_elem_of_lookup in Hin as (j & Hj).
  assert (Hlt : (j < length b)%nat) by (apply lookup_lt_Some in Hj; now rewrite length_window_run in Hj).
  assert (Hl : window_run None (of_pid p l) !! (length a + j)%nat = Some o).
  { rewrite Ew, lookup_app_r by (rewrite length_window_run; lia). rewrite length_window_run.
    replace (length a + j - length a)%nat with j by lia. rewrite lookup_app_l; [exact Hj|]. now rewrite length_window_run. }
  destruct (Forall2_lookup_r _ _ _ _ _ (run_windows p) Hl) as (o' & Ho' & Hs). exists (length a + j)%nat, o'.
  split; [lia|]. split; [exact Ho'|]. destruct o, o'; try contradiction; exact I.
Qed.
End Detector.

(** A touch in the whole sequence and in that of its process. *)
Lemma outs_index {A} (l : list (touch A)) : forall os i t o,
  length os = length l -> l !! i = Some t -> os !! i = Some o ->
  exists k, outs_of (t_pid t) l os !! k = Some o /\ take (S k) (of_pid (t_pid t) l) = of_pid (t_pid t) (take (S i) l).
Proof.
  induction l as [|q l IH]; intros [|r os] i t o Hlen Hl Ho; try discriminate; simpl in Hlen.
  unfold outs_of, of_pid. cbn [zip_with List.filter fst]. destruct i as [|i].
  - injection Hl as ->. injection Ho as ->. rewrite Z.eqb_refl. exists 0%nat. cbn [take List.filter].
    rewrite Z.eqb_refl, !take_0. auto.
  - destruct (IH os i t o) as (k & H1 & H2); auto. unfold outs_of, of_pid in H1, H2. change (take (S (S i)) (q :: l)) with (q :: take (S i) l). cbn [List.filter].
    destruct (t_pid q =? t_pid t); [|exists k; auto]. exists (S k). split; [exact H1|]. cbn [take]. f_equal. exact H2.
Qed.

Lemma length_record_all {A} (z : A) n th w cap m l : length (snd (record_all z n th w cap m l)) = length l.
Proof.
  revert m. induction l as [|t l IH]; intros m; [reflexivity|]. cbn [record_all].
  destruct (record _ _ _ _ _ m t) as [m' o]. specialize (IH m'). destruct (record_all _ _ _ _ _ m' l). simpl in *. now rewrite IH.
Qed.

(** [path_has_prefix]: the prefixes are shorter than the 32 bytes it looks at and hold
    no NUL, so a shorter path differs at its terminator. *)
Definition path_has_prefix (path prefix : list byte) : bool := is_prefix prefix path.

(** ** Deletes and renames (massdelete_detect.bpf.c) *)

Module MassDelete.

Definition BURST_WINDOW_NS := 10 * 1000000000.
Definition BURST_MAP_CAP : nat := 128.
Definition path_is_interesting (path : list byte) : bool :=
  path_has_prefix path (bytes_of "/storage/emulated/") || path_has_prefix path (bytes_of "/sdcard/").

Record state := mk_state {
  burst_map : gmap Z (burst (list byte)); events_rb : list massdelete_detect_event; drops : Z
}.
Definition start : state := mk_state ∅ [] 0.

Definition step_path := record (A := list byte) [] MASSDELETE_DETECT_RING_LEN MASSDELETE_DETECT_THRESHOLD BURST_WINDOW_NS BURST_MAP_CAP.

Definition record_touch (c : fctx) (path : list byte) (s : state) : state :=
  let now := c_now (f_c c) in
  let '(m, o) := step_path (burst_map s) (mk_touch (c_pid (f_c c)) now (c_reserve (f_c c)) (take 255 path)) in
  match o with
  | Alert count span ring =>
      mk_state m (events_rb s ++ [mk_massdelete
        (mk_hdr MOD_EV_MASSDELETE_DETECT (c_pid (f_c c)) (c_tid (f_c c))) now (f_comm c) count
        (u32 (span / 1000000)) ring (take 255 path)]) (drops s)
  | Dropped => mk_state m (events_rb s) (u64 (drops s + 1))
  | _ => mk_state m (events_rb s) (drops s)
  end.

Section Probes.
Context (target_uids target_pids : gset Z).

(** The shared body: [i] is the register of the path. *)
Definition on_path (i : nat) (c : fctx) (s : state) : state :=
  if gate target_uids target_pids (f_c c) then s else
  match c_str (f_c c) (untag (reg (f_c c) i)) with
  | None => s
  | Some p => if negb (path_is_interesting (take 255 p)) then s else record_touch c (take 255 p) s
  end.
Definition on_renameat := on_path 3.
Definition on_renameat2 := on_path 3.
Definition on_unlinkat := on_path 1.

Inductive probe := Renameat | Renameat2 | Unlinkat.
Definition run_probe (s : state) (h : probe * fctx) : state :=
  match fst h with
  | Renameat => on_renameat (snd h) s
  | Renameat2 => on_renameat2 (snd h) s
  | Unlinkat => on_unlinkat (snd h) s
  end.
Definition run (hits : list (probe * fctx)) : state := foldl run_probe start hits.

(** What a probe hit counts as. *)
Definition path_reg (p : probe) : nat := match p with Unlinkat => 1 | _ => 3 end.
Definition touch_of (h : probe * fctx) : option (touch (list byte)) :=
  let c := f_c (snd h) in
  if gate target_uids target_pids c then None else
  match c_str c (untag (reg c (path_reg (fst h)))) with
  | None => None
  | Some p => if path_is_interesting (take 255 p)
              then Some (mk_touch (c_pid c) (c_now c) (c_reserve c) (take 255 p)) else None
  end.
Definition touches (hits : list (probe * fctx)) : list (touch (list byte)) := omap touch_of hits.

Notation outcomes := (record_all (A := list byte) [] MASSDELETE_DETECT_RING_LEN MASSDELETE_DETECT_THRESHOLD BURST_WINDOW_NS BURST_MAP_CAP).

Lemma run_probe_touch h s :
  match touch_of h with
  | None => run_probe s h = s
  | Some t =>
      let '(m, o) := step_path (burst_map s) t in
      burst_map (run_probe s h) = m /\
      match o with
      | Alert count span ring => exists e, events_rb (run_probe s h) = events_rb s ++ [e] /\ h_pid (md_h e) = t_pid t /\
          md_touch_count e = count /\ md_paths e = ring /\ md_ts_ns e = t_now t /\ md_window_ms e = u32 (span / 1000000)
      | _ => events_rb (run_probe s h) = events_rb s
      end
  end.
Proof.
  assert (E : run_probe s h = on_path (path_reg (fst h)) (snd h) s) by (destruct h as [[] c]; reflexivity). rewrite E.
  unfold touch_of, on_path. destruct (gate _ _ _); [reflexivity|]. destruct (c_str _ _) as [p|]; [|reflexivity].
  destruct (path_is_interesting _); [|reflexivity]. cbn [negb]. unfold record_touch. rewrite take_take, Nat.min_id.
  destruct (step_path _ _) as [m o]. split; [destruct o; reflexivity|]. destruct o; try reflexivity. eexists. repeat split.
Qed.

(** Every event of a run is the alert of one of its touches. *)
Lemma run_events hits s e :
  e ∈ events_rb (foldl run_probe s hits) ->
  e ∈ events_rb s \/
  exists i t c span ring, touches hits !! i = Some t /\
    snd (outcomes (burst_map s) (touches hits)) !! i = Some (Alert c span ring) /\
    h_pid (md_h e) = t_pid t /\ md_touch_count e = c /\ md_paths e = ring /\ md_ts_ns e = t_now t /\ md_window_ms e = u32 (span / 1000000).
Proof.
  revert s. induction hits as [|h hits IH]; intros s He; [now left|]. simpl in He.
  pose proof (run_probe_touch h s) as Hp. unfold touches. cbn [omap list_omap]. fold (omap touch_of hits) (touches hits).
  destruct (touch_of h) as [t|] eqn:Et; [|rewrite Hp in He; exact (IH s He)].
  cbn [record_all]. unfold step_path in Hp.
  destruct (record _ _ _ _ _ (burst_map s) t) as [m o] eqn:Er. destruct Hp as [Hm Ho]. specialize (IH _ He). rewrite Hm in IH.
  destruct (outcomes m (touches hits)) as [m2 os]. cbn [snd] in *.
  assert (Hhere : e ∈ events_rb (run_probe s h) -> e ∈ events_rb s \/ exists c span ring, o = Alert c span ring /\
    h_pid (md_h e) = t_pid t /\ md_touch_count e = c /\ md_paths e = ring /\ md_ts_ns e = t_now t /\ md_window_ms e = u32 (span / 1000000)).
  { destruct o as [| | |c span ring]; try (rewrite Ho; now left). destruct Ho as (e' & -> & H1 & H2 & H3 & H4 & H5).
    intros [H|H%list_elem_of_singleton]%elem_of_app; [now left|]. subst e'. right. exists c, span, ring. auto 10. }
  destruct IH as [H|(i & t' & c & span & ring & H)].
  - destruct (Hhere H) as [H'|(c & span & ring & -> & H')]; [now left|]. right. exists 0%nat, t, c, span, ring. auto.
  - right. exists (S i), t', c, span, ring. exact H.
Qed.
End Probes.

(** The distinct paths of an event, as its user-side handler counts them. *)
Lemma length_remove_dups_snoc (l : list (list byte)) x :
  length (remove_dups (l ++ [x])) = (length (remove_dups l) + if bool_decide (x ∈ l) then 0 else 1)%nat.
Proof.
  case_bool_decide as E.
  - rewrite Nat.add_0_r. apply Permutation_length, NoDup_Permutation; [apply NoDup_remove_dups..|].
    intros y. rewrite !elem_of_remove_dups, elem_of_app, list_elem_of_singleton. naive_solver.
  - transitivity (length (x :: remove_dups l)); [|simpl; lia]. apply Permutation_length, NoDup_Permutation;
      [apply NoDup_remove_dups|apply list.NoDup_cons; split; [now rewrite elem_of_remove_dups|apply NoDup_remove_dups]|].
    intros y. rewrite elem_of_cons, !elem_of_remove_dups, elem_of_app, list_elem_of_singleton. naive_solver.
Qed.
Lemma distinct_from_spec l : forall seen,
  distinct_from seen l = zlen (remove_dups (seen ++ l)) - zlen (remove_dups seen).
Proof.
  induction l as [|x l IH]; intros seen; [rewrite app_nil_r; simpl; lia|]. cbn [distinct_from]. rewrite IH, <- app_assoc.
  cbn [app]. unfold zlen. rewrite length_remove_dups_snoc.
  assert (E : existsb (fun q => bool_decide (q = x)) seen = bool_decide (x ∈ seen)).
  { apply eq_true_iff_eq. rewrite existsb_exists, bool_decide_eq_true. split.
    - intros (y & Hy & ->%bool_decide_eq_true). now apply list_elem_of_In.
    - intros H. exists x. rewrite bool_decide_eq_true. split; [now apply list_elem_of_In|reflexivity]. }
  rewrite E. destruct (bool_decide _); lia.
Qed.

(** C10: a mass-delete alert is a real burst, and its list of paths is exact.  For any
    sequence of probe hits on at most 128 watched processes, every event in the ring
    buffer names a process whose twenty latest gated renames and deletes are the
    first twenty paths of the event, in order; they lie within ten seconds of the
    alert, nothing stale from an earlier window is among them, and the number of
    distinct files the user side computes from the event is the number of distinct
    paths of those twenty. *)
Theorem massdelete_alert_is_a_burst (uids pids P : gset Z) (hits : list (probe * fctx)) (e : massdelete_detect_event)
    (HP : Forall (fun t => t_pid t ∈ P) (touches uids pids hits)) (Hsize : (size P <= BURST_MAP_CAP)%nat)
    (Hclock : clocked 0 (touches uids pids hits))
    (He : e ∈ events_rb (run uids pids hits)) :
  exists i old suf,
    of_pid (h_pid (md_h e)) (take i (touches uids pids hits)) = old ++ suf /\
    zlen suf = MASSDELETE_DETECT_THRESHOLD /\ md_touch_count e = MASSDELETE_DETECT_THRESHOLD /\
    take 20 (md_paths e) = map t_x suf /\
    Forall (fun t => md_ts_ns e - BURST_WINDOW_NS <= t_now t <= md_ts_ns e) suf /\
    md_window_ms e <= 10000 /\
    burst_distinct_count (md_paths e) (md_touch_count e) = Some (zlen (remove_dups (map t_x suf))).
Proof.
  destruct (run_events uids pids hits start e He) as [H|(i & t & c & span & ring & Ht & Ho & E1 & E2 & E3 & E4 & E5)];
    [now apply not_elem_of_nil in H|].
  assert (Hlen : exists k : Z, 0 <= k <= 31 /\ MASSDELETE_DETECT_RING_LEN = 2 ^ k) by (exists 5; split; [lia|reflexivity]).
  assert (Hthr : 0 < MASSDELETE_DETECT_THRESHOLD < MASSDELETE_DETECT_RING_LEN) by (unfold MASSDELETE_DETECT_THRESHOLD, MASSDELETE_DETECT_RING_LEN; lia).
  assert (Hwin : 0 <= BURST_WINDOW_NS) by (unfold BURST_WINDOW_NS; lia).
  destruct (outs_index _ _ _ _ _ (length_record_all _ _ _ _ _ _ _) Ht Ho) as (k & Hk & Htk). rewrite <- E1 in *.
  pose proof (alerts_justified [] _ _ _ BURST_MAP_CAP Hlen Hthr Hwin _ P Hsize HP Hclock _ _ _ _ _ Hk) as HJ.
  pose proof (run_windows [] _ _ _ BURST_MAP_CAP Hlen Hthr Hwin _ P Hsize HP Hclock (h_pid (md_h e))) as HW.
  destruct (Forall2_lookup_l _ _ _ _ _ HW Hk) as ([| | |c' w' s'] & _ & Hs); try contradiction. destruct Hs as (_ & _ & Hr & _).
  rewrite Htk in HJ. destruct HJ as (old & suf & Esuf & Hz & -> & Hmap & Hspan & Hall). exists (S i), old, suf.
  assert (Hlast : last suf = Some t).
  { apply (f_equal last) in Esuf. rewrite last_app in Esuf. destruct (last suf) as [q|] eqn:El.
    - rewrite <- Esuf. erewrite take_S_r by exact Ht. unfold of_pid. rewrite List.filter_app. cbn [List.filter]. rewrite E1, Z.eqb_refl.
      now rewrite last_snoc.
    - apply last_None in El. subst suf. unfold MASSDELETE_DETECT_THRESHOLD in Hz. discriminate. }
  split; [exact Esuf|]. split; [exact Hz|]. split; [exact E2|]. split; [now rewrite E3|]. split.
  { eapply List.Forall_impl; [|exact Hall]. intros q Hq. cbv beta in Hq. specialize (Hq t Hlast). rewrite E4. lia. }
  split.
  { rewrite E5. unfold BURST_WINDOW_NS in Hspan. assert (0 <= span / 1000000 <= 10000) by (split; [apply Z.div_pos; lia|apply Z.div_le_upper_bound; lia]).
    rewrite u32_small; lia. }
  rewrite E2, E3. unfold burst_distinct_count. rewrite (proj2 (Z.leb_gt _ _)) by lia. rewrite Hr.
  rewrite (proj2 (Z.ltb_ge _ _)) by lia. rewrite Hmap, distinct_from_spec. f_equal. simpl. unfold zlen. simpl. lia.
Qed.

(** A hit on the file [n] by process 7 at time [now], on a device with one traced process. *)
Definition demo_ctx (pid now : Z) (path : list byte) : fctx :=
  mk_fctx (mk_ctx 10001 (Z.shiftl pid 32 + pid) 0 0 [0; 0x7000; 0; 0x7000] now true (fun _ => Some path) (fun _ _ => None))
          false [] (bytes_of "app") 1 0 0.
Definition demo_file (n : nat) : list byte := bytes_of "/sdcard/DCIM/" ++ [zb (0x41 + Z.of_nat (n / 2))].
Definition demo_hits (times : list Z) : list (probe * fctx) :=
  imap (fun i now => ((if Nat.even i then Renameat else Unlinkat), demo_ctx 7 now (demo_file i))) times.

Lemma massdelete_alert_is_a_burst_witness :
  let hits := demo_hits (repeat 5 1 ++ repeat 12000000000 20) in
  match events_rb (run {[10001]} ∅ hits) with
  | [e] => burst_distinct_count (md_paths e) (md_touch_count e) = Some 11 /\ h_pid (md_h e) = 7 /\
           exists i old suf, of_pid 7 (take i (touches {[10001]} ∅ hits)) = old ++ suf /\ zlen suf = 20 /\
                             take 20 (md_paths e) = map t_x suf
  | _ => False
  end.
Proof.
  intros hits.
  assert (Hc : match events_rb (run {[10001]} ∅ hits) with
               | [e] => Some (burst_distinct_count (md_paths e) (md_touch_count e), h_pid (md_h e)) | _ => None end
               = Some (Some 11, 7)) by (vm_compute; reflexivity).
  destruct (events_rb (run {[10001]} ∅ hits)) as [|e [|]] eqn:E; [discriminate Hc| |discriminate Hc]. injection Hc as Hd Hpid.
  assert (He : e ∈ events_rb (run {[10001]} ∅ hits)) by (rewrite E; apply elem_of_cons; left; reflexivity).
  destruct (massdelete_alert_is_a_burst {[10001]} ∅ {[7]} hits e) as (i & old & suf & H1 & H2 & _ & H3 & _);
    [|vm_compute; lia| |exact He|].
  - apply (bool_decide_unpack _). vm_compute. exact I.
  - clear E He. vm_compute. repeat (split; [split; [discriminate|reflexivity]|]). exact I.
  - rewrite Hpid in H1. split; [exact Hd|]. split; [exact Hpid|]. exists i, old, suf. auto.
Defined.



(** The window tumbles: after an alert, nineteen deletes at the end of the window and
    nineteen more a nanosecond later stay silent, although the threshold is twenty. *)
Theorem massdelete_split_burst_is_silent :
  let hits := demo_hits (repeat 5 20 ++ repeat 10000000005 19 ++ repeat 10000000006 19) in
  length (events_rb (run {[10001]} ∅ hits)) = 1%nat /\
  zlen (List.filter (fun t => 10000000005 <=? t_now t) (touches {[10001]} ∅ hits)) = 38 /\
  drops (run {[10001]} ∅ hits) = 0.
Proof. vm_compute. auto. Qed.

(** States are never removed: once 128 processes had one, another process can delete
    any number of files without an alert and without a counted drop. *)
Definition crowd : list (probe * fctx) := map (fun n => (Unlinkat, demo_ctx (1000 + Z.of_nat n) 5 (demo_file 0))) (seq 0 128).
Theorem massdelete_crowded_out :
  let s := run {[10001]} ∅ (crowd ++ demo_hits (repeat 100000000000 60)) in
  events_rb s = [] /\ drops s = 0.
Proof. vm_compute. auto. Qed.
End MassDelete.

(** ** Calls to the system server (accessibility_detect.bpf.c) *)

Module Accessibility.

Definition A11Y_WINDOW_NS := 5 * 1000000000.
Definition A11Y_MAP_CAP : nat := 128.

Record state := mk_state { a11y_map : gmap Z (burst Z); events_rb : list accessibility_detect_event; drops : Z }.
Definition start : state := mk_state ∅ [] 0.
(** The fields of the tracepoint the program reads. *)
Record binder_transaction := mk_bt { bt_reply : Z; bt_to_proc : Z; bt_code : Z }.

Definition step_code := record (A := Z) 0 ACCESSIBILITY_DETECT_CODE_RING_LEN ACCESSIBILITY_DETECT_THRESHOLD A11Y_WINDOW_NS A11Y_MAP_CAP.

Definition record_call (c : fctx) (code : Z) (s : state) : state :=
  let now := c_now (f_c c) in
  let '(m, o) := step_code (a11y_map s) (mk_touch (c_pid (f_c c)) now (c_reserve (f_c c)) code) in
  match o with
  | Alert count span ring =>
      mk_state m (events_rb s ++ [mk_a11y
        (mk_hdr MOD_EV_ACCESSIBILITY_DETECT (c_pid (f_c c)) (c_tid (f_c c))) now (f_comm c) count
        (u32 (span / 1000000)) ring]) (drops s)
  | Dropped => mk_state m (events_rb s) (u64 (drops s + 1))
  | _ => mk_state m (events_rb s) (drops s)
  end.

(** [sys_server_pid] is the configured slot, zero when it could not be resolved. *)
Definition on_binder_transaction (uids pids : gset Z) (sys_server_pid : Z) (c : fctx) (tx : binder_transaction) (s : state) : state :=
  if gate uids pids (f_c c) then s else
  if negb (bt_reply tx =? 0) then s else
  if (sys_server_pid =? 0) || negb (bt_to_proc tx =? s32 sys_server_pid) then s else
  record_call c (bt_code tx) s.

Section Calls.
Context (uids pids : gset Z) (sys : Z).

Definition call_of (h : fctx * binder_transaction) : option (touch Z) :=
  let '(c, tx) := h in
  if gate uids pids (f_c c) || negb (bt_reply tx =? 0) || (sys =? 0) || negb (bt_to_proc tx =? s32 sys) then None
  else Some (mk_touch (c_pid (f_c c)) (c_now (f_c c)) (c_reserve (f_c c)) (bt_code tx)).
Definition calls (hits : list (fctx * binder_transaction)) : list (touch Z) := omap call_of hits.
Definition run (hits : list (fctx * binder_transaction)) : state :=
  foldl (fun s h => on_binder_transaction uids pids sys (fst h) (snd h) s) start hits.
Notation outcomes := (record_all (A := Z) 0 ACCESSIBILITY_DETECT_CODE_RING_LEN ACCESSIBILITY_DETECT_THRESHOLD A11Y_WINDOW_NS A11Y_MAP_CAP).

(** The alerts among outcomes, and the number of counted drops. *)
Definition is_alert (o : outcome Z) : bool := match o with Alert _ _ _ => true | _ => false end.
Definition is_drop (o : outcome Z) : bool := match o with Dropped => true | _ => false end.
Definition count_if (f : outcome Z -> bool) (os : list (outcome Z)) : Z := zlen (List.filter f os).

(** A run is the routine on the calls: as many events as alerts, as many drops. *)
Lemma run_counts hits : forall s, in_u 64 (drops s) ->
  let r := foldl (fun s h => on_binder_transaction uids pids sys (fst h) (snd h) s) s hits in
  let os := snd (outcomes (a11y_map s) (calls hits)) in
  zlen (events_rb r) = zlen (events_rb s) + count_if is_alert os /\ drops r = u64 (drops s + count_if is_drop os).
Proof.
  induction hits as [|[c tx] hits IH]; intros s Hd; cbv zeta.
  { simpl. unfold count_if. simpl. change (zlen []) with 0. rewrite !Z.add_0_r, u64_small by exact Hd. auto. }
  unfold calls. cbn [omap list_omap foldl fst snd]. fold (omap call_of hits) (calls hits). unfold call_of, on_binder_transaction at 2 4.
  destruct (gate uids pids (f_c c)); [exact (IH s Hd)|]. destruct (bt_reply tx =? 0); [|exact (IH s Hd)].
  destruct (sys =? 0); [exact (IH s Hd)|]. destruct (bt_to_proc tx =? s32 sys); [|exact (IH s Hd)].
  cbn [orb negb record_all]. unfold record_call, step_code. destruct (record _ _ _ _ _ (a11y_map s) _) as [m o].
  destruct o as [| | |n w r];
    match goal with |- context [foldl _ ?x hits] => specialize (IH x) end; cbn [a11y_map events_rb drops] in IH; cbv zeta in IH;
    (destruct IH as [H1 H2]; [first [exact Hd|apply u64_range]|]);
    destruct (outcomes m (calls hits)) as [m2 os]; cbn [snd] in *; rewrite H1, H2; unfold count_if; cbn [List.filter is_alert is_drop];
    rewrite ?zlen_cons, ?zlen_app, ?zlen_cons; change (zlen []) with 0; unfold u64 in *; (split; [lia|]); try reflexivity.
  rewrite Zplus_mod_idemp_l. f_equal. lia.
Qed.
End Calls.

(** Bursts of calls to the system server are reported.  A run submits one event
    per alert of the windows and counts one drop per alert that found the ring buffer
    full; ninety-nine calls of one process within five seconds always contain one or
    the other. *)
Theorem accessibility_burst_is_reported (uids pids P : gset Z) (sys : Z) (hits : list (fctx * binder_transaction)) (p lo : Z)
    (a b d : list (touch Z))
    (HP : Forall (fun t => t_pid t ∈ P) (calls uids pids sys hits)) (Hsize : (size P <= A11Y_MAP_CAP)%nat)
    (Hclock : clocked 0 (calls uids pids sys hits))
    (Hsplit : of_pid p (calls uids pids sys hits) = a ++ b ++ d) (Hb : 99 <= zlen b)
    (Hspan : Forall (fun t => lo <= t_now t <= lo + A11Y_WINDOW_NS) b) :
  let os := snd (record_all 0 ACCESSIBILITY_DETECT_CODE_RING_LEN ACCESSIBILITY_DETECT_THRESHOLD A11Y_WINDOW_NS A11Y_MAP_CAP ∅
                   (calls uids pids sys hits)) in
  zlen (events_rb (run uids pids sys hits)) = count_if is_alert os /\
  drops (run uids pids sys hits) = u64 (count_if is_drop os) /\
  exists k o, (length a <= k < length a + length b)%nat /\ outs_of p (calls uids pids sys hits) os !! k = Some o /\ fires o.
Proof.
  intros os. destruct (run_counts uids pids sys hits start) as [H1 H2]; [vm_compute; split; [discriminate|reflexivity]|].
  split; [exact H1|]. split; [exact H2|].
  apply (bursts_fire 0 ACCESSIBILITY_DETECT_CODE_RING_LEN ACCESSIBILITY_DETECT_THRESHOLD A11Y_WINDOW_NS A11Y_MAP_CAP) with
    (P := P) (d := d) (lo := lo); auto; [exists 6; split; [lia|reflexivity]|vm_compute; split; reflexivity|vm_compute; discriminate].
Qed.

Lemma accessibility_burst_is_reported_witness :
  let hits := repeat (MassDelete.demo_ctx 7 5 [], mk_bt 0 1200 3) 99 in
  zlen (events_rb (run {[10001]} ∅ 1200 hits)) = 1 /\
  exists k o, (0 <= k < 99)%nat /\ fires o /\
    outs_of 7 (calls {[10001]} ∅ 1200 hits)
      (snd (record_all 0 ACCESSIBILITY_DETECT_CODE_RING_LEN ACCESSIBILITY_DETECT_THRESHOLD A11Y_WINDOW_NS A11Y_MAP_CAP ∅
              (calls {[10001]} ∅ 1200 hits))) !! k = Some o.
Proof.
  intros hits. split; [vm_compute; reflexivity|].
  destruct (accessibility_burst_is_reported {[10001]} ∅ {[7]} 1200 hits 7 0 [] (calls {[10001]} ∅ 1200 hits) [])
    as (_ & _ & k & o & H1 & H2 & H3).
  - apply (bool_decide_unpack _). vm_compute. exact I.
  - vm_compute. lia.
  - vm_compute. repeat (split; [split; [discriminate|reflexivity]|]). exact I.
  - vm_compute. reflexivity.
  - vm_compute. discriminate.
  - apply (bool_decide_unpack _). vm_compute. exact I.
  - exists k, o. split; [split; [lia|exact (proj2 H1)]|]. auto.
Defined.
End Accessibility.
