(* ===== verification/Decode.v ===== *)
(** * Decode: the system-call argument decoders (src/common/decode.c)

    Flag words, enumerations, modes, signals and socket addresses as text.  The
    tables hold the arm64 values of the constants, with every guarded entry present;
    [SIGRTMIN], which the C library computes, and the IPv6 part of [inet_ntop] are
    parameters.  A decoder returns the text it leaves in its buffer of [outsz] bytes. *)

From Stdlib Require Import ZArith Lia.
From stdpp Require Import base list option numbers.
From S2P Require Import Prelude Elf Emit.

Local Open Scope Z_scope.

Definition flagdef : Type := (Z * list byte)%type.
Definition fd (v : Z) (s : String.string) : flagdef := (v, bytes_of s).
Arguments fd v s%_string_scope.

(** ["0x%llx"], ["%llu"] and ["%llo"]. *)
Definition hexs (v : Z) : list byte := jop_text (OpHex v).
Definition decs (v : Z) : list byte := jop_text (OpU64 v).
Definition octs (v : Z) : list byte := num_text (digits 22 8 v) dec_digit.
Definition strn (outsz : Z) (s : list byte) : list byte := snprintf_s outsz s.
Definition pipe : list byte := [x7c].

(** ** The generic formatters *)

(** [pre] is the text up to [pos], [out] the string the buffer holds; a piece that does
    not fit is written but not kept. *)
Fixpoint bits_loop (t : list flagdef) (rem : Z) (pre out : list byte) (first : bool) (outsz : Z) : Z * list byte :=
  match t with
  | [] => (rem, out)
  | (val, name) :: t =>
      if (val =? 0) || negb (Z.land rem val =? val) then bits_loop t rem pre out first outsz
      else
        let s := (if first then [] else pipe) ++ name in
        let out := pre ++ strn (outsz - zlen pre) s in
        let pre := if zlen s <? outsz - zlen pre then pre ++ s else pre in
        bits_loop t (Z.ldiff rem val) pre out false outsz
  end.
Definition bits_str (v : Z) (t : list flagdef) (outsz : Z) : Z * list byte := bits_loop t v [] [] true outsz.

Definition dec_bits (v : Z) (t : list flagdef) (zero : option (list byte)) (outsz : Z) : list byte :=
  let '(rem, buf) := bits_str v t 256 in
  match buf with
  | [] => match zero with
          | Some z => if v =? 0 then strn outsz z else strn outsz (hexs v)
          | None => strn outsz (hexs v)
          end
  | _ => if negb (rem =? 0) then strn outsz (buf ++ pipe ++ hexs rem) else strn outsz buf
  end.

Fixpoint dec_enum (v : Z) (t : list flagdef) (outsz : Z) : list byte :=
  match t with
  | [] => strn outsz (hexs v)
  | (val, name) :: t => if val =? v then strn outsz name else dec_enum v t outsz
  end.

(** ** Tables *)

Definition t_prot : list flagdef :=
  [fd 1 "PROT_READ"; fd 2 "PROT_WRITE"; fd 4 "PROT_EXEC"; fd 8 "PROT_SEM"; fd 0x01000000 "PROT_GROWSDOWN";
   fd 0x02000000 "PROT_GROWSUP"; fd 0x10 "PROT_BTI"].
Definition t_map : list flagdef :=
  [fd 1 "MAP_SHARED"; fd 2 "MAP_PRIVATE"; fd 3 "MAP_SHARED_VALIDATE"; fd 0x10 "MAP_FIXED"; fd 0x20 "MAP_ANONYMOUS";
   fd 0x4000 "MAP_NORESERVE"; fd 0x8000 "MAP_POPULATE"; fd 0x100 "MAP_GROWSDOWN"; fd 0x800 "MAP_DENYWRITE";
   fd 0x2000 "MAP_LOCKED"; fd 0x10000 "MAP_NONBLOCK"; fd 0x20000 "MAP_STACK"; fd 0x40000 "MAP_HUGETLB";
   fd 0x100000 "MAP_FIXED_NOREPLACE"].
Definition O_DIRECTORY := 0x4000.
Definition O_TMPFILE := 0x404000.
Definition t_oflags : list flagdef :=
  [fd 0x40 "O_CREAT"; fd 0x80 "O_EXCL"; fd 0x100 "O_NOCTTY"; fd 0x200 "O_TRUNC"; fd 0x400 "O_APPEND";
   fd 0x800 "O_NONBLOCK"; fd 0x1000 "O_DSYNC"; fd 0x80000 "O_CLOEXEC"; fd O_DIRECTORY "O_DIRECTORY";
   fd 0x8000 "O_NOFOLLOW"; fd 0x10000 "O_DIRECT"; fd 0x20000 "O_LARGEFILE"; fd 0x200000 "O_PATH";
   fd O_TMPFILE "O_TMPFILE"; fd 0x40000 "O_NOATIME"; fd 0x100000 "O_SYNC"].
Definition t_cloexec : list flagdef := [fd 0x80000 "O_CLOEXEC"; fd 0x800 "O_NONBLOCK"; fd 0x10000 "O_DIRECT"].
Definition t_msg : list flagdef :=
  [fd 1 "MSG_OOB"; fd 2 "MSG_PEEK"; fd 4 "MSG_DONTROUTE"; fd 8 "MSG_CTRUNC"; fd 0x20 "MSG_TRUNC"; fd 0x40 "MSG_DONTWAIT";
   fd 0x80 "MSG_EOR"; fd 0x100 "MSG_WAITALL"; fd 0x4000 "MSG_NOSIGNAL"; fd 0x8000 "MSG_MORE";
   fd 0x40000000 "MSG_CMSG_CLOEXEC"].
Definition t_at : list flagdef :=
  [fd 0x100 "AT_SYMLINK_NOFOLLOW"; fd 0x200 "AT_REMOVEDIR"; fd 0x400 "AT_SYMLINK_FOLLOW"; fd 0x800 "AT_NO_AUTOMOUNT";
   fd 0x1000 "AT_EMPTY_PATH"; fd 0x200 "AT_EACCESS"].
Definition t_access : list flagdef := [fd 4 "R_OK"; fd 2 "W_OK"; fd 1 "X_OK"].
Definition t_clone : list flagdef :=
  [fd 0x100 "CLONE_VM"; fd 0x200 "CLONE_FS"; fd 0x400 "CLONE_FILES"; fd 0x800 "CLONE_SIGHAND"; fd 0x2000 "CLONE_PTRACE";
   fd 0x4000 "CLONE_VFORK"; fd 0x8000 "CLONE_PARENT"; fd 0x10000 "CLONE_THREAD"; fd 0x20000 "CLONE_NEWNS";
   fd 0x40000 "CLONE_SYSVSEM"; fd 0x80000 "CLONE_SETTLS"; fd 0x100000 "CLONE_PARENT_SETTID";
   fd 0x200000 "CLONE_CHILD_CLEARTID"; fd 0x800000 "CLONE_UNTRACED"; fd 0x1000000 "CLONE_CHILD_SETTID";
   fd 0x2000000 "CLONE_NEWCGROUP"; fd 0x4000000 "CLONE_NEWUTS"; fd 0x8000000 "CLONE_NEWIPC";
   fd 0x10000000 "CLONE_NEWUSER"; fd 0x20000000 "CLONE_NEWPID"; fd 0x40000000 "CLONE_NEWNET"; fd 0x80000000 "CLONE_IO"].
Definition t_madv : list flagdef :=
  [fd 0 "MADV_NORMAL"; fd 1 "MADV_RANDOM"; fd 2 "MADV_SEQUENTIAL"; fd 3 "MADV_WILLNEED"; fd 4 "MADV_DONTNEED";
   fd 8 "MADV_FREE"; fd 9 "MADV_REMOVE"; fd 10 "MADV_DONTFORK"; fd 11 "MADV_DOFORK"; fd 14 "MADV_HUGEPAGE";
   fd 15 "MADV_NOHUGEPAGE"; fd 16 "MADV_DONTDUMP"; fd 17 "MADV_DODUMP"; fd 18 "MADV_WIPEONFORK";
   fd 19 "MADV_KEEPONFORK"; fd 20 "MADV_COLD"; fd 21 "MADV_PAGEOUT"].
Definition t_whence : list flagdef :=
  [fd 0 "SEEK_SET"; fd 1 "SEEK_CUR"; fd 2 "SEEK_END"; fd 3 "SEEK_DATA"; fd 4 "SEEK_HOLE"].
Definition t_fcntl : list flagdef :=
  [fd 0 "F_DUPFD"; fd 1 "F_GETFD"; fd 2 "F_SETFD"; fd 3 "F_GETFL"; fd 4 "F_SETFL"; fd 5 "F_GETLK"; fd 6 "F_SETLK";
   fd 7 "F_SETLKW"; fd 9 "F_GETOWN"; fd 8 "F_SETOWN"; fd 1030 "F_DUPFD_CLOEXEC"; fd 1031 "F_SETPIPE_SZ";
   fd 1032 "F_GETPIPE_SZ"; fd 1033 "F_ADD_SEALS"; fd 1034 "F_GET_SEALS"; fd 11 "F_GETSIG"; fd 10 "F_SETSIG"].
Definition AF_UNIX := 1.
Definition AF_INET := 2.
Definition AF_INET6 := 10.
Definition t_af : list flagdef :=
  [fd 0 "AF_UNSPEC"; fd AF_UNIX "AF_UNIX"; fd AF_INET "AF_INET"; fd AF_INET6 "AF_INET6"; fd 16 "AF_NETLINK";
   fd 17 "AF_PACKET"; fd 31 "AF_BLUETOOTH"; fd 40 "AF_VSOCK"].
Definition t_socktype : list flagdef :=
  [fd 1 "SOCK_STREAM"; fd 2 "SOCK_DGRAM"; fd 3 "SOCK_RAW"; fd 5 "SOCK_SEQPACKET"; fd 4 "SOCK_RDM"].
Definition t_prctl : list flagdef :=
  [fd 1 "PR_SET_PDEATHSIG"; fd 2 "PR_GET_PDEATHSIG"; fd 3 "PR_GET_DUMPABLE"; fd 4 "PR_SET_DUMPABLE";
   fd 7 "PR_GET_KEEPCAPS"; fd 8 "PR_SET_KEEPCAPS"; fd 15 "PR_SET_NAME"; fd 16 "PR_GET_NAME"; fd 21 "PR_GET_SECCOMP";
   fd 22 "PR_SET_SECCOMP"; fd 23 "PR_CAPBSET_READ"; fd 24 "PR_CAPBSET_DROP"; fd 38 "PR_SET_NO_NEW_PRIVS";
   fd 39 "PR_GET_NO_NEW_PRIVS"; fd 0x59616d61 "PR_SET_PTRACER"; fd 29 "PR_SET_TIMERSLACK"; fd 30 "PR_GET_TIMERSLACK";
   fd 0x53564d41 "PR_SET_VMA"].
Definition t_mfd : list flagdef := [fd 1 "MFD_CLOEXEC"; fd 2 "MFD_ALLOW_SEALING"; fd 4 "MFD_HUGETLB"].
Definition t_mremap : list flagdef := [fd 1 "MREMAP_MAYMOVE"; fd 2 "MREMAP_FIXED"].
Definition sig : list flagdef :=
  [fd 1 "SIGHUP"; fd 2 "SIGINT"; fd 3 "SIGQUIT"; fd 4 "SIGILL"; fd 5 "SIGTRAP"; fd 6 "SIGABRT"; fd 7 "SIGBUS";
   fd 8 "SIGFPE"; fd 9 "SIGKILL"; fd 10 "SIGUSR1"; fd 11 "SIGSEGV"; fd 12 "SIGUSR2"; fd 13 "SIGPIPE"; fd 14 "SIGALRM";
   fd 15 "SIGTERM"; fd 17 "SIGCHLD"; fd 18 "SIGCONT"; fd 19 "SIGSTOP"; fd 20 "SIGTSTP"; fd 21 "SIGTTIN"; fd 22 "SIGTTOU";
   fd 23 "SIGURG"; fd 24 "SIGXCPU"; fd 25 "SIGXFSZ"; fd 26 "SIGVTALRM"; fd 27 "SIGPROF"; fd 28 "SIGWINCH"; fd 29 "SIGIO";
   fd 31 "SIGSYS"].

(** ** Specialised decoders *)

(** Append [s] at the end of [out], [pos] being its length. *)
Definition dec_apnd (out : list byte) (n : Z) (s : list byte) : list byte :=
  if zlen out >=? n then out else out ++ strn (n - zlen out) s.

Definition access_name (v : Z) : list byte :=
  bytes_of (if Z.land v 3 =? 0 then "O_RDONLY" else if Z.land v 3 =? 1 then "O_WRONLY"
            else if Z.land v 3 =? 2 then "O_RDWR" else "O_ACCMODE").
Definition dec_open (v n : Z) : list byte :=
  let acc := access_name v in
  let '(rem, buf) := bits_str (Z.ldiff v 3) t_oflags 256 in
  match buf with
  | [] => if negb (rem =? 0) then strn n (acc ++ pipe ++ hexs rem) else strn n acc
  | _ => if negb (rem =? 0) then strn n (acc ++ pipe ++ buf ++ pipe ++ hexs rem) else strn n (acc ++ pipe ++ buf)
  end.

Definition SOCK_NONBLOCK := 0x800.
Definition SOCK_CLOEXEC := 0x80000.
Definition dec_socktype (v n : Z) : list byte :=
  let flags := Z.lor SOCK_NONBLOCK SOCK_CLOEXEC in
  let b := dec_enum (Z.ldiff v flags) t_socktype 64 in
  let fbuf := if negb (Z.land v SOCK_NONBLOCK =? 0) then dec_apnd [] 64 (bytes_of "|SOCK_NONBLOCK") else [] in
  let fbuf := if negb (Z.land v SOCK_CLOEXEC =? 0) then dec_apnd fbuf 64 (bytes_of "|SOCK_CLOEXEC") else fbuf in
  strn n (b ++ fbuf).

Fixpoint signame (s : Z) (t : list flagdef) : option (list byte) :=
  match t with [] => None | (v, name) :: t => if v =? s then Some name else signame s t end.

Section Decoders.
Context (SIGRTMIN : Z) (inet_ntop6 : list byte -> list byte).

Definition dec_signal (v n : Z) : list byte :=
  match signame v sig with
  | Some s => strn n s
  | None => if (v >=? SIGRTMIN) && (v <=? 64) then strn n (bytes_of "SIGRT" ++ decs (v - SIGRTMIN)) else strn n (decs v)
  end.

Definition dec_clone (v n : Z) : list byte :=
  let '(rem, buf) := bits_str (Z.ldiff v 0xff) t_clone 256 in
  let exitsig := Z.land v 0xff in
  let sigpart := if negb (exitsig =? 0) then dec_signal exitsig 32 else [] in
  let sep out := match out with [] => [] | _ => pipe end in
  let out := match buf with [] => [] | _ => dec_apnd [] n buf end in
  let out := if negb (rem =? 0) then dec_apnd out n (sep out ++ hexs rem) else out in
  let out := match sigpart with [] => out | _ => dec_apnd out n (sep out ++ sigpart) end in
  match out with [] => strn n (bytes_of "0") | _ => out end.

Definition dec_mode (v n : Z) : list byte := strn n ([x30] ++ octs v).

(** ** Dispatch *)

(** How an argument is decoded. *)
Inductive decoder :=
| DOpen | DMode | DBits (t : list flagdef) (zero : option (list byte)) | DEnum (t : list flagdef)
| DSocktype | DClone | DSignal.
Definition run_decoder (d : decoder) (v n : Z) : list byte :=
  match d with
  | DOpen => dec_open v n
  | DMode => dec_mode v n
  | DBits t z => dec_bits v t z n
  | DEnum t => dec_enum v t n
  | DSocktype => dec_socktype v n
  | DClone => dec_clone v n
  | DSignal => dec_signal v n
  end.

Definition zeroed (t : list flagdef) : decoder := DBits t (Some (bytes_of "0")).
Definition prot : decoder := DBits t_prot (Some (bytes_of "PROT_NONE")).
Definition access : decoder := DBits t_access (Some (bytes_of "F_OK")).
(** The switch: system call number, argument index and the decoder of the case. *)
Definition decoders : list (Z * Z * decoder) :=
  [(56, 2, DOpen); (56, 3, DMode); (222, 2, prot); (222, 3, DBits t_map None); (226, 2, prot); (288, 2, prot);
   (216, 3, zeroed t_mremap); (233, 2, DEnum t_madv); (62, 2, DEnum t_whence); (25, 1, DEnum t_fcntl);
   (198, 0, DEnum t_af); (198, 1, DSocktype); (199, 0, DEnum t_af); (199, 1, DSocktype);
   (48, 2, access); (439, 2, access); (439, 3, zeroed t_at); (79, 3, zeroed t_at); (291, 2, zeroed t_at);
   (35, 2, zeroed t_at); (54, 4, zeroed t_at); (37, 4, zeroed t_at); (34, 2, DMode); (53, 2, DMode); (52, 1, DMode);
   (59, 1, zeroed t_cloexec); (24, 2, zeroed t_cloexec); (19, 1, zeroed t_cloexec); (26, 0, zeroed t_cloexec);
   (242, 3, DSocktype); (206, 3, zeroed t_msg); (207, 3, zeroed t_msg); (211, 2, zeroed t_msg); (212, 2, zeroed t_msg);
   (220, 0, DClone); (129, 1, DSignal); (130, 1, DSignal); (131, 2, DSignal); (134, 0, DSignal);
   (279, 1, zeroed t_mfd); (167, 0, DEnum t_prctl)].
Fixpoint find_decoder (nr arg : Z) (l : list (Z * Z * decoder)) : option decoder :=
  match l with
  | [] => None
  | (n, a, d) :: l => if (n =? nr) && (a =? arg) then Some d else find_decoder nr arg l
  end.
Definition flags_decode_arg (nr arg v outsz : Z) : option (list byte) :=
  option_map (fun d => run_decoder d v outsz) (find_decoder nr arg decoders).

(** ** Socket addresses *)

Definition ntohs (p : Z) : Z := Z.lor (Z.shiftl (Z.land p 0xff) 8) (Z.shiftr p 8).
Definition dot : list byte := [x2e].
(** [inet_ntop] of an IPv4 address. *)
Definition inet_ntop4 (a b c d : Z) : list byte := decs a ++ dot ++ decs b ++ dot ++ decs c ++ dot ++ decs d.
(** A C string in a byte array. *)
Fixpoint until_nul (l : list byte) : list byte :=
  match l with [] => [] | c :: l => if bz c =? 0 then [] else c :: until_nul l end.
Definition DECODE_UNIX_PATH_MAX := 64.

(** [None] in the result is the return value 0. *)
Definition decode_sockaddr (sa : list byte) (len outsz : Z) : res (option (list byte)) :=
  if len <? 2 then Ret None else
  fam ← ld_le 2 sa 0;
  if (fam =? AF_INET) && (len >=? 8) then
    port ← ld_le 2 sa 2;
    a ← ld sa 4; b ← ld sa 5; c ← ld sa 6; d ← ld sa 7;
    Ret (Some (strn outsz (inet_ntop4 a b c d ++ [x3a] ++ decs (ntohs port))))
  else if (fam =? AF_INET6) && (len >=? 24) then
    port ← ld_le 2 sa 2;
    if zlen sa <? 24 then Oob else
    Ret (Some (strn outsz ([x5b] ++ inet_ntop6 (slice sa 8 16) ++ bytes_of "]:" ++ decs (ntohs port))))
  else if fam =? AF_UNIX then
    let plen := u32 (len - 2) in
    if plen =? 0 then Ret (Some (strn outsz (bytes_of "unix:<unnamed>"))) else
    first ← ld sa 2;
    if first =? 0 then
      let m := if u32 (plen - 1) <? DECODE_UNIX_PATH_MAX - 1 then u32 (plen - 1) else DECODE_UNIX_PATH_MAX - 1 in
      if zlen sa <? 3 + m then Oob else
      Ret (Some (strn outsz (bytes_of "unix:@" ++ until_nul (slice sa 3 m))))
    else
      let m := if plen <? DECODE_UNIX_PATH_MAX then plen else DECODE_UNIX_PATH_MAX - 1 in
      if zlen sa <? 2 + m then Oob else
      Ret (Some (strn outsz (bytes_of "unix:" ++ until_nul (slice sa 2 m))))
  else Ret (Some (strn outsz (bytes_of "family=" ++ decs fam))).
End Decoders.

(** ** Reading a decoded argument back *)

Fixpoint splits (l : list byte) : list (list byte) :=
  match l with
  | [] => [[]]
  | c :: l => if bz c =? 0x7c then [] :: splits l
              else match splits l with h :: t => (c :: h) :: t | [] => [[c]] end
  end.
Fixpoint name_val (names : list flagdef) (s : list byte) : option Z :=
  match names with
  | [] => None
  | (v, n) :: names => if bool_decide (n = s) then Some v else name_val names s
  end.

(** [extra] reads the tokens that are neither names nor hexadecimal. *)
Section Reader.
Context (extra : list byte -> option Z).
Definition token_val (names : list flagdef) (s : list byte) : option Z :=
  match name_val names s with
  | Some v => Some v
  | None => match read_hex s with Some v => Some v | None => extra s end
  end.
Definition or_tokens (names : list flagdef) (l : list (list byte)) : option Z :=
  foldr (fun s acc => match token_val names s, acc with Some v, Some a => Some (Z.lor v a) | _, _ => None end) (Some 0) l.
Definition read_flags (names : list flagdef) (s : list byte) : option Z := or_tokens names (splits s).

Definition no_pipe (s : list byte) : Prop := Forall (fun c => bz c =? 0x7c = false) s.

Lemma splits_no_pipe s : no_pipe s -> splits s = [s].
Proof. induction 1 as [|c s Hc _ IH]; [reflexivity|]. simpl. now rewrite Hc, IH. Qed.
Lemma splits_app a b : splits (a ++ pipe ++ b) = splits a ++ splits b.
Proof.
  induction a as [|c a IH]; [reflexivity|]. simpl app. cbn [splits]. destruct (bz c =? 0x7c); [simpl; now f_equal|].
  simpl app in IH. rewrite IH. destruct (splits a) as [|h t] eqn:E; [|reflexivity].
  destruct a as [|d a]; simpl in E; [discriminate|]. destruct (bz d =? 0x7c); [discriminate|]. now destruct (splits a).
Qed.
Lemma or_tokens_app names a b :
  or_tokens names (a ++ b) = match or_tokens names a, or_tokens names b with Some x, Some y => Some (Z.lor x y) | _, _ => None end.
Proof.
  induction a as [|s a IH]; simpl; [destruct (or_tokens names b); [now rewrite Z.lor_0_l|reflexivity]|].
  rewrite IH. destruct (token_val names s), (or_tokens names a), (or_tokens names b); auto. now rewrite Z.lor_assoc.
Qed.
Lemma read_flags_app names a b x y :
  read_flags names a = Some x -> read_flags names b = Some y -> read_flags names (a ++ pipe ++ b) = Some (Z.lor x y).
Proof. unfold read_flags. intros Ha Hb. now rewrite splits_app, or_tokens_app, Ha, Hb. Qed.
Lemma read_flags_token names s v : no_pipe s -> token_val names s = Some v -> read_flags names s = Some v.
Proof. intros Hs Ht. unfold read_flags. rewrite splits_no_pipe by exact Hs. simpl. now rewrite Ht, Z.lor_0_r. Qed.

(** A hexadecimal number is no name of the tables: they do not start with a digit. *)
Definition named (names : list flagdef) : Prop := Forall (fun d => match snd d with x30 :: _ => False | _ => True end) names.
Lemma name_val_hex names v : named names -> name_val names (hexs v) = None.
Proof.
  induction 1 as [|[w n] names Hn _ IH]; [reflexivity|]. cbn [name_val]. rewrite bool_decide_false; [exact IH|].
  cbn [snd] in Hn. intros ->. exact Hn.
Qed.
Lemma no_pipe_hex v : in_u 64 v -> no_pipe (hexs v).
Proof.
  intros Hv. destruct (digits_spec 16 16 v) as (l & E & _ & Hd & _); [lia|exact Hv|lia|].
  unfold hexs. cbn [jop_text]. rewrite E. cbn [num_text]. unfold no_pipe. do 2 (apply list.Forall_cons; split; [reflexivity|]).
  apply Forall_reverse, List.Forall_map. eapply List.Forall_impl; [|exact Hd]. intros d Hr. cbv beta in *.
  assert (Hb : 0 <= d < 256) by lia.
  pose (P := fun v => (16 <=? v) || negb (bz (hex_digit v) =? 0x7c)).
  assert (HP : forallb P (map Z.of_nat (seq 0 256)) = true) by (vm_compute; reflexivity).
  pose proof (check_bytes P HP d Hb) as H. unfold P in H. destruct (Z.leb_spec 16 d); [lia|]. now apply negb_true_iff in H.
Qed.
Lemma read_flags_hex names v : named names -> in_u 64 v -> read_flags names (hexs v) = Some v.
Proof.
  intros Hn Hv. apply read_flags_token; [now apply no_pipe_hex|]. unfold token_val. rewrite name_val_hex by exact Hn.
  unfold hexs. now rewrite (proj2 (emits_hex (fun _ _ => true) v Hv)).
Qed.
Lemma zlen_hexs v : in_u 64 v -> zlen (hexs v) <= 18.
Proof.
  intros Hv. destruct (digits_spec 16 16 v) as (l & E & _ & _ & Hl); [lia|exact Hv|lia|].
  unfold hexs. cbn [jop_text]. rewrite E. cbn [num_text]. rewrite zlen_app. change (zlen [x30; x78]) with 2.
  rewrite zlen_digits. unfold zlen. lia.
Qed.

(** Each name of [t] reads as its value. *)
Definition reads (names t : list flagdef) : Prop :=
  Forall (fun d => 0 <= fst d < 2 ^ 64 /\ no_pipe (snd d) /\ snd d <> [] /\ name_val names (snd d) = Some (fst d)) t.

(** A table the decoders and the reader agree on: each name reads as its value, and
    all names together leave the buffer of 256 bytes and the output room for a
    remainder. *)
Record table_ok (names t : list flagdef) (outsz : Z) : Prop := {
  tk_names : named names;
  tk_read : reads names t;
  tk_fits : foldr (fun d n => 1 + zlen (snd d) + n) 0 t < 237;
  tk_out : 256 <= outsz
}.
Definition table_okb (names t : list flagdef) (outsz : Z) : bool :=
  forallb (fun d => match snd d with x30 :: _ => false | _ => true end) names &&
  forallb (fun d => (0 <=? fst d) && (fst d <? 2 ^ 64) && forallb (fun c => negb (bz c =? 0x7c)) (snd d) &&
                    negb (zlen (snd d) =? 0) && bool_decide (name_val names (snd d) = Some (fst d))) t &&
  (foldr (fun d n => 1 + zlen (snd d) + n) 0 t <? 237) && (256 <=? outsz).
Lemma table_okb_spec names t outsz : table_okb names t outsz = true -> table_ok names t outsz.
Proof.
  unfold table_okb. rewrite !andb_true_iff, !forallb_forall. intros [[[H1 H2] H3] H4]. b2p. constructor; auto.
  - apply List.Forall_forall. intros d Hd. specialize (H1 d Hd). destruct (snd d) as [|[]]; auto; discriminate.
  - apply List.Forall_forall. intros d Hd. specialize (H2 d Hd). rewrite !andb_true_iff in H2. destruct H2 as [[[[A B] C] D] E].
    b2p. split; [lia|]. split; [|split; [|now apply bool_decide_eq_true in E]].
    + apply List.Forall_forall. intros c Hc. rewrite forallb_forall in C. now apply negb_true_iff, C.
    + intros E0. rewrite E0 in D. now apply D.
Qed.

Lemma ldiff_lor rem val : Z.land rem val = val -> Z.lor (Z.ldiff rem val) val = rem.
Proof.
  intros H. apply Z.bits_inj'. intros n Hn. rewrite Z.lor_spec, Z.ldiff_spec. apply (f_equal (fun z => Z.testbit z n)) in H.
  rewrite Z.land_spec in H. destruct (Z.testbit rem n), (Z.testbit val n); auto.
Qed.
Lemma ldiff_range rem val : in_u 64 rem -> in_u 64 (Z.ldiff rem val).
Proof.
  unfold in_u. intros H. rewrite <- (Z.mod_small rem (2 ^ 64)) by exact H. rewrite <- Z.land_ones by lia.
  replace (Z.ldiff (Z.land rem (Z.ones 64)) val) with (Z.land (Z.ldiff rem val) (Z.ones 64)).
  - rewrite Z.land_ones by lia. apply Z.mod_pos_bound. lia.
  - apply Z.bits_inj'. intros n Hn. rewrite Z.land_spec, !Z.ldiff_spec, Z.land_spec.
    now destruct (Z.testbit rem n), (Z.testbit val n), (Z.testbit (Z.ones 64) n).
Qed.

(** The room the selected names need. *)
Fixpoint need (rem : Z) (t : list flagdef) : Z :=
  match t with
  | [] => 0
  | (val, name) :: t => if (val =? 0) || negb (Z.land rem val =? val) then need rem t
                        else 1 + zlen name + need (Z.ldiff rem val) t
  end.
Lemma need_bounds rem t : 0 <= need rem t <= foldr (fun d n => 1 + zlen (snd d) + n) 0 t.
Proof.
  revert rem. induction t as [|[val name] t IH]; intros rem; cbn [need foldr snd]; [lia|]. pose proof (zlen_nonneg name).
  destruct (_ || _); [specialize (IH rem)|specialize (IH (Z.ldiff rem val))]; lia.
Qed.

(** The loop keeps what it has named and what is left together equal to the word. *)
Lemma bits_loop_reads names t : forall rem pre first a rem' out,
  named names -> reads names t -> zlen pre + need rem t < 256 -> in_u 64 rem ->
  (first = true /\ pre = [] /\ a = 0 \/ first = false /\ pre <> [] /\ read_flags names pre = Some a) ->
  bits_loop t rem pre pre first 256 = (rem', out) ->
  in_u 64 rem' /\ zlen out <= zlen pre + need rem t /\
  (out = [] /\ pre = [] /\ rem' = rem \/ out <> [] /\ exists b, read_flags names out = Some b /\ Z.lor b rem' = Z.lor a rem).
Proof.
  induction t as [|[val name] t IH]; intros rem pre first a rem' out Hn Ht Hf Hr Ha; cbn [bits_loop need snd] in *.
  { intros [= <- <-]. split; [exact Hr|]. split; [lia|]. destruct Ha as [(_ & -> & _)|(_ & H1 & H2)]; [now left|right]. eauto. }
  apply list.Forall_cons in Ht as [(Hv & Hp & Hne & Hl) Ht]. cbn [fst snd] in *.
  pose proof (zlen_nonneg name). destruct ((val =? 0) || negb (Z.land rem val =? val)) eqn:Ec; [eapply IH; eauto|].
  pose proof (need_bounds (Z.ldiff rem val) t).
  apply orb_false_iff in Ec as [_ Ec]. apply negb_false_iff in Ec. b2p.
  set (s := (if first then [] else pipe) ++ name).
  assert (Hs : zlen s <= 1 + zlen name) by (unfold s; rewrite zlen_app; destruct first; unfold zlen; simpl; lia).
  rewrite (proj2 (Z.ltb_lt (zlen s) _)) by lia.
  assert (Hcut : strn (256 - zlen pre) s = s) by (apply take_ge; unfold zlen in *; lia). rewrite Hcut.
  assert (Htok : read_flags names name = Some val) by (apply read_flags_token; [exact Hp|]; unfold token_val; now rewrite Hl).
  assert (Hpre : pre ++ s <> [] /\ read_flags names (pre ++ s) = Some (Z.lor a val)).
  { unfold s. destruct Ha as [(-> & -> & ->)|(-> & H1 & H2)].
    - simpl. rewrite Z.lor_0_l. auto.
    - split; [destruct pre; [contradiction|discriminate]|]. now apply read_flags_app. }
  intros E. destruct (IH (Z.ldiff rem val) (pre ++ s) false (Z.lor a val) rem' out Hn Ht) as (H1 & H2 & H3);
    [rewrite zlen_app; lia|now apply ldiff_range|right; tauto|exact E|].
  split; [exact H1|]. rewrite zlen_app in H2. split; [lia|]. destruct H3 as [(_ & H3 & _)|(H3 & b & H4 & H5)]; [tauto|].
  right. split; [exact H3|]. exists b. split; [exact H4|]. rewrite H5, <- Z.lor_assoc. f_equal.
  rewrite Z.lor_comm. now apply ldiff_lor.
Qed.

(** The names of a word and what is left of it. *)
Lemma bits_str_reads names t v rem buf :
  named names -> reads names t -> need v t < 256 -> in_u 64 v -> bits_str v t 256 = (rem, buf) ->
  in_u 64 rem /\ zlen buf <= need v t /\
  (buf = [] /\ rem = v \/ buf <> [] /\ exists b, read_flags names buf = Some b /\ Z.lor b rem = v).
Proof.
  intros Hn Ht Hf Hv E. destruct (bits_loop_reads names t v [] true 0 rem buf) as (H1 & H2 & H3); auto.
  split; [exact H1|]. split; [exact H2|]. destruct H3 as [(A & _ & B)|(A & b & B & C)]; [now left|right].
  rewrite Z.lor_0_l in C. eauto.
Qed.

Lemma strn_fits outsz s : zlen s < outsz -> strn outsz s = s.
Proof. intros Hs. apply take_ge. unfold zlen in *. lia. Qed.

Lemma dec_bits_reads names t zero outsz v :
  table_ok names t outsz -> in_u 64 v ->
  (forall z, zero = Some z -> no_pipe z /\ token_val names z = Some 0 /\ zlen z < 256) ->
  read_flags names (dec_bits v t zero outsz) = Some v.
Proof.
  intros [Hn Ht Hf Ho] Hv Hz. unfold dec_bits. destruct (bits_str v t 256) as [rem buf] eqn:E.
  pose proof (need_bounds v t). destruct (bits_str_reads names t v rem buf) as (H1 & H2 & H3); auto; [lia|].
  pose proof (zlen_hexs v Hv). pose proof (zlen_hexs rem H1).
  destruct H3 as [(-> & ->)|(Hb & b & Hr & Hor)].
  - destruct zero as [z|]; [destruct (Z.eqb_spec v 0) as [->|]|].
    + destruct (Hz z eq_refl) as (A & B & C). rewrite strn_fits by lia. now apply read_flags_token.
    + rewrite strn_fits by lia. now apply read_flags_hex.
    + rewrite strn_fits by lia. now apply read_flags_hex.
  - destruct buf as [|c buf]; [contradiction|]. destruct (Z.eqb_spec rem 0) as [->|]; cbn [negb].
    + rewrite strn_fits by lia. rewrite Z.lor_0_r in Hor. now subst.
    + rewrite strn_fits by (rewrite !zlen_app; change (zlen pipe) with 1; lia). rewrite <- Hor.
      apply read_flags_app; [exact Hr|]. now apply read_flags_hex.
Qed.

Lemma dec_enum_reads names t outsz v :
  named names -> reads names t -> Forall (fun d => zlen (snd d) < 64) t -> 64 <= outsz -> in_u 64 v ->
  read_flags names (dec_enum v t outsz) = Some v /\ zlen (dec_enum v t outsz) < 64.
Proof.
  intros Hn Ht Hl Ho Hv. pose proof (zlen_hexs v Hv).
  induction t as [|[val name] t IH]; cbn [dec_enum]; [rewrite strn_fits by lia; split; [now apply read_flags_hex|lia]|].
  apply list.Forall_cons in Ht as [(H1 & H2 & H3 & H4) Ht], Hl as [Hl0 Hl]. cbn [fst snd] in *.
  destruct (Z.eqb_spec val v) as [->|]; [|now apply IH]. rewrite strn_fits by lia. split; [|exact Hl0].
  apply read_flags_token; [exact H2|]. unfold token_val. now rewrite H4.
Qed.
End Reader.

(** Decimal texts: no name, no hexadecimal number, and read back. *)
Definition is_dec (c : byte) : bool := (0x30 <=? bz c) && (bz c <=? 0x39).
Definition lettered (names : list flagdef) : bool :=
  forallb (fun d => match snd d with c :: _ => negb (is_dec c) | [] => false end) names.

Lemma decs_digits v : in_u 64 v -> exists c s, decs v = c :: s /\ Forall (fun c => is_dec c = true) (c :: s) /\ zlen (decs v) <= 24.
Proof.
  intros Hv. destruct (digits_spec 24 10 v) as (l & E & _ & Hd & Hl); [lia|unfold in_u in Hv; simpl; lia|lia|].
  unfold decs. cbn [jop_text]. rewrite E. cbn [num_text].
  assert (Hdig : Forall (fun c => is_dec c = true) (reverse (map dec_digit l))).
  { apply Forall_reverse, List.Forall_map. eapply List.Forall_impl; [|exact Hd]. intros d Hr. cbv beta in *.
    unfold is_dec, dec_digit. rewrite bz_zb_small by lia. now rewrite !(proj2 (Z.leb_le _ _)) by lia. }
  rewrite zlen_digits. destruct (rev_map_nonempty dec_digit l) as (c & s & Ec); [lia|]. rewrite Ec in *.
  exists c, s. unfold zlen. split; [reflexivity|]. split; [exact Hdig|lia].
Qed.
Lemma name_val_lettered names s c r : lettered names = true -> s = c :: r -> is_dec c = true -> name_val names s = None.
Proof.
  intros Hn -> Hc. induction names as [|[v n] names IH]; [reflexivity|]. cbn [lettered forallb snd] in Hn.
  apply andb_true_iff in Hn as [H1 H2]. cbn [name_val]. rewrite bool_decide_false; [now apply IH|].
  intros ->. rewrite Hc in H1. discriminate.
Qed.
Lemma read_hex_dec c s : Forall (fun c => is_dec c = true) (c :: s) -> read_hex (c :: s) = None.
Proof.
  intros H. apply list.Forall_cons in H as [_ H]. destruct s as [|d s]; [now destruct c|].
  apply list.Forall_cons in H as [Hd _]. destruct c; try reflexivity. destruct d; try reflexivity. discriminate.
Qed.
Lemma no_pipe_dec s : Forall (fun c => is_dec c = true) s -> no_pipe s.
Proof. intros H. eapply List.Forall_impl; [|exact H]. intros c Hc. now destruct c. Qed.
Lemma read_decs v : in_u 64 v -> read_dec (decs v) = Some v.
Proof. intros Hv. apply (emits_u64 (fun _ _ => true) v Hv). Qed.

Section Roundtrip.
Context (SIGRTMIN : Z) (HRT : 0 <= SIGRTMIN <= 64).

(** Signals: a name, a real-time signal, or a number. *)
Definition read_sig (s : list byte) : option Z :=
  if bool_decide (take 5 s = bytes_of "SIGRT") then option_map (Z.add SIGRTMIN) (read_dec (drop 5 s)) else read_dec s.

Lemma token_decs names v : lettered names = true -> in_u 64 v -> token_val read_sig names (decs v) = Some v.
Proof.
  intros Hn Hv. destruct (decs_digits v Hv) as (c & s & E & Hd & _). unfold token_val.
  rewrite (name_val_lettered names _ c s Hn E) by (now apply list.Forall_cons in Hd as [? _]). rewrite E, (read_hex_dec c s Hd), <- E.
  unfold read_sig. rewrite bool_decide_false; [now apply read_decs|]. rewrite E. intros H. injection H as -> _.
  apply list.Forall_cons in Hd as [Hd _]. discriminate.
Qed.

(** No name of the table starts like a real-time signal. *)
Definition no_rt (names : list flagdef) : bool := forallb (fun d => negb (bool_decide (take 5 (snd d) = bytes_of "SIGRT"))) names.
Lemma token_rt names v : no_rt names = true -> in_u 64 v -> token_val read_sig names (bytes_of "SIGRT" ++ decs v) = Some (SIGRTMIN + v).
Proof.
  intros Hn Hv. unfold token_val. assert (E : name_val names (bytes_of "SIGRT" ++ decs v) = None).
  { induction names as [|[w n] names IH]; [reflexivity|]. cbn [no_rt forallb snd] in Hn. apply andb_true_iff in Hn as [H1 H2].
    cbn [name_val]. rewrite bool_decide_false; [now apply IH|]. intros ->. now rewrite bool_decide_true in H1. }
  rewrite E. change (read_hex _) with (@None Z). cbn iota. unfold read_sig. rewrite bool_decide_true by reflexivity.
  change (drop 5 (bytes_of "SIGRT" ++ decs v)) with (decs v). rewrite read_decs by exact Hv. reflexivity.
Qed.

Lemma signame_in v t s : signame v t = Some s -> (v, s) ∈ t.
Proof.
  induction t as [|[w n] t IH]; cbn [signame]; [discriminate|]. destruct (Z.eqb_spec w v) as [->|]; [intros [= ->]; now left|].
  intros H. right. now apply IH.
Qed.

(** [names] knows the signals. *)
Definition knows_sigs (names : list flagdef) : bool :=
  lettered names && no_rt names && forallb (fun d => bool_decide (name_val names (snd d) = Some (fst d))) sig.
Lemma sig_short : Forall (fun d => zlen (snd d) <= 9 /\ no_pipe (snd d)) sig.
Proof. repeat (apply List.Forall_cons; [split; [vm_compute; discriminate|repeat constructor]|]). constructor. Qed.

Lemma dec_signal_reads names v n :
  knows_sigs names = true -> 32 <= n -> in_u 64 v ->
  read_flags read_sig names (dec_signal SIGRTMIN v n) = Some v /\ zlen (dec_signal SIGRTMIN v n) <= 29 /\ dec_signal SIGRTMIN v n <> [].
Proof.
  intros Hn Ho Hv. unfold knows_sigs in Hn. rewrite !andb_true_iff, forallb_forall in Hn. destruct Hn as [[H1 H2] H3].
  unfold dec_signal. destruct (signame v sig) as [s|] eqn:E.
  - apply signame_in in E. pose proof sig_short as Hs. rewrite list.Forall_forall in Hs. destruct (Hs _ E) as [Hl Hp]. cbn [snd] in *.
    rewrite strn_fits by lia. apply list_elem_of_In in E. specialize (H3 _ E). apply bool_decide_eq_true in H3. cbn [fst snd] in H3.
    split; [apply read_flags_token; [exact Hp|]; unfold token_val; now rewrite H3|]. split; [lia|]. intros ->.
    clear -E. cbv in E. intuition congruence.
  - destruct ((v >=? SIGRTMIN) && (v <=? 64)) eqn:Ert.
    + b2p. assert (Hd : in_u 64 (v - SIGRTMIN)) by (unfold in_u in *; lia). destruct (decs_digits _ Hd) as (c & s & Ed & Hdig & _).
      assert (Hl : zlen (decs (v - SIGRTMIN)) <= 24) by (destruct (decs_digits _ Hd) as (? & ? & _ & _ & Hq); exact Hq).
      rewrite strn_fits by (rewrite zlen_app; change (zlen (bytes_of "SIGRT")) with 5; lia).
      split; [|split; [rewrite zlen_app; change (zlen (bytes_of "SIGRT")) with 5; lia|discriminate]].
      apply read_flags_token; [apply Forall_app; split; [repeat constructor|rewrite Ed; now apply no_pipe_dec]|].
      rewrite token_rt by auto. f_equal. lia.
    + destruct (decs_digits v Hv) as (c & s & Ed & Hdig & Hl). rewrite strn_fits by lia.
      split; [|split; [lia|rewrite Ed; discriminate]]. apply read_flags_token; [rewrite Ed; now apply no_pipe_dec|]. now apply token_decs.
Qed.

(** ** Open flags, socket types, modes *)

Definition open_names : list flagdef :=
  [fd 0 "O_RDONLY"; fd 1 "O_WRONLY"; fd 2 "O_RDWR"; fd 3 "O_ACCMODE"] ++ t_oflags.

Lemma land_ldiff_lor v m : Z.lor (Z.land v m) (Z.ldiff v m) = v.
Proof.
  apply Z.bits_inj'. intros n Hn. rewrite Z.lor_spec, Z.land_spec, Z.ldiff_spec.
  now destruct (Z.testbit v n), (Z.testbit m n).
Qed.

Lemma access_reads v : read_flags read_sig open_names (access_name v) = Some (Z.land v 3) /\ zlen (access_name v) <= 9.
Proof.
  assert (Hr : 0 <= Z.land v 3 < 4) by (change 3 with (Z.ones 2); rewrite Z.land_ones by lia; apply Z.mod_pos_bound; lia).
  unfold access_name. destruct (Z.eqb_spec (Z.land v 3) 0) as [-> |]; [split; [vm_compute; reflexivity|vm_compute; discriminate]|].
  destruct (Z.eqb_spec (Z.land v 3) 1) as [-> |]; [split; [vm_compute; reflexivity|vm_compute; discriminate]|].
  destruct (Z.eqb_spec (Z.land v 3) 2) as [-> |]; [split; [vm_compute; reflexivity|vm_compute; discriminate]|].
  replace (Z.land v 3) with 3 by lia. split; [vm_compute; reflexivity|vm_compute; discriminate].
Qed.

Lemma dec_open_reads v n : in_u 64 v -> 256 <= n -> read_flags read_sig open_names (dec_open v n) = Some v.
Proof.
  intros Hv Ho. destruct (table_okb_spec open_names t_oflags 256 eq_refl) as [Hn Ht Hf _].
  assert (Hf2 : foldr (fun d n => 1 + zlen (snd d) + n) 0 t_oflags = 148) by (vm_compute; reflexivity).
  unfold dec_open. destruct (bits_str (Z.ldiff v 3) t_oflags 256) as [rem buf] eqn:E.
  pose proof (need_bounds (Z.ldiff v 3) t_oflags).
  destruct (bits_str_reads read_sig open_names t_oflags (Z.ldiff v 3) rem buf) as (H1 & H2 & H3); auto; [lia|now apply ldiff_range|].
  destruct (access_reads v) as [Ha Hla]. pose proof (zlen_hexs rem H1) as Hx. change (zlen pipe) with 1 in *.
  replace (Some v) with (Some (Z.lor (Z.land v 3) (Z.ldiff v 3))) by (now rewrite land_ldiff_lor). destruct H3 as [(-> & ->)|(Hb & b & Hrd & Hor)].
  - destruct (Z.eqb_spec (Z.ldiff v 3) 0) as [E0|]; cbn [negb].
    + rewrite strn_fits by lia. rewrite E0, Z.lor_0_r. exact Ha.
    + rewrite strn_fits by (rewrite !zlen_app; change (zlen pipe) with 1; lia). apply read_flags_app; [exact Ha|]. now apply read_flags_hex.
  - destruct buf as [|c buf]; [contradiction|]. rewrite <- Hor. destruct (Z.eqb_spec rem 0) as [->|]; cbn [negb].
    + rewrite strn_fits by (rewrite !zlen_app; change (zlen pipe) with 1; lia). rewrite Z.lor_0_r. now apply read_flags_app.
    + rewrite strn_fits by (rewrite !zlen_app; change (zlen pipe) with 1; lia). apply read_flags_app; [exact Ha|].
      apply read_flags_app; [exact Hrd|]. now apply read_flags_hex.
Qed.

Definition sock_names : list flagdef := t_socktype ++ [fd SOCK_NONBLOCK "SOCK_NONBLOCK"; fd SOCK_CLOEXEC "SOCK_CLOEXEC"].
Lemma one_bit v k : 0 <= k -> negb (Z.land v (2 ^ k) =? 0) = true -> Z.land v (2 ^ k) = 2 ^ k.
Proof.
  intros Hk H. apply negb_true_iff in H. b2p. destruct (Z.testbit v k) eqn:Et.
  - apply Z.bits_inj'. intros n Hn. rewrite Z.land_spec, Z.pow2_bits_eqb by lia.
    destruct (Z.eqb_spec k n) as [<-|]; [now rewrite Et|apply andb_false_r].
  - exfalso. apply H. apply Z.bits_inj'. intros n Hn. rewrite Z.land_spec, Z.pow2_bits_eqb, Z.bits_0 by lia.
    destruct (Z.eqb_spec k n) as [<-|]; [now rewrite Et|apply andb_false_r].
Qed.
Lemma dec_socktype_reads v n : in_u 64 v -> 256 <= n -> read_flags read_sig sock_names (dec_socktype v n) = Some v.
Proof.
  intros Hv Ho. destruct (table_okb_spec sock_names t_socktype 256 eq_refl) as [Hn Ht _ _].
  set (fl := Z.lor SOCK_NONBLOCK SOCK_CLOEXEC).
  destruct (dec_enum_reads read_sig sock_names t_socktype 64 (Z.ldiff v fl)) as [He Hl]; auto;
    [repeat (apply List.Forall_cons; [vm_compute; reflexivity|]); constructor|lia|now apply ldiff_range|].
  assert (Hsplit : Z.lor (Z.lor (Z.ldiff v fl) (Z.land v SOCK_NONBLOCK)) (Z.land v SOCK_CLOEXEC) = v).
  { rewrite <- (land_ldiff_lor v fl) at 4. unfold fl. apply Z.bits_inj'. intros m Hm.
    rewrite !Z.lor_spec, !Z.land_spec, Z.ldiff_spec, Z.lor_spec.
    now destruct (Z.testbit v m), (Z.testbit SOCK_NONBLOCK m), (Z.testbit SOCK_CLOEXEC m). }
  replace (Some v) with (Some (Z.lor (Z.lor (Z.ldiff v fl) (Z.land v SOCK_NONBLOCK)) (Z.land v SOCK_CLOEXEC))) by (now rewrite Hsplit).
  unfold dec_socktype. fold fl.
  pose proof (one_bit v 11 ltac:(lia)) as B1. pose proof (one_bit v 19 ltac:(lia)) as B2.
  change (2 ^ 11) with SOCK_NONBLOCK in B1. change (2 ^ 19) with SOCK_CLOEXEC in B2.
  assert (T1 : read_flags read_sig sock_names (bytes_of "SOCK_NONBLOCK") = Some SOCK_NONBLOCK) by (vm_compute; reflexivity).
  assert (T2 : read_flags read_sig sock_names (bytes_of "SOCK_CLOEXEC") = Some SOCK_CLOEXEC) by (vm_compute; reflexivity).
  change (dec_apnd [] 64 (bytes_of "|SOCK_NONBLOCK")) with (pipe ++ bytes_of "SOCK_NONBLOCK").
  change (dec_apnd [] 64 (bytes_of "|SOCK_CLOEXEC")) with (pipe ++ bytes_of "SOCK_CLOEXEC").
  change (dec_apnd (pipe ++ bytes_of "SOCK_NONBLOCK") 64 (bytes_of "|SOCK_CLOEXEC")) with
    (pipe ++ bytes_of "SOCK_NONBLOCK" ++ pipe ++ bytes_of "SOCK_CLOEXEC").
  assert (Hz : forall b, negb (b =? 0) = false -> b = 0) by (intros b Hb; apply negb_false_iff in Hb; b2p; exact Hb).
  set (b := dec_enum _ _ _) in *.
  destruct (negb (Z.land v SOCK_NONBLOCK =? 0)) eqn:E1; destruct (negb (Z.land v SOCK_CLOEXEC =? 0)) eqn:E2;
    rewrite strn_fits by (rewrite ?zlen_app; unfold zlen in *; simpl; lia).
  - rewrite B1, B2 by reflexivity. rewrite <- Z.lor_assoc. apply read_flags_app; [exact He|]. now apply read_flags_app.
  - rewrite B1, (Hz _ E2), Z.lor_0_r by reflexivity. now apply read_flags_app.
  - rewrite (Hz _ E1), Z.lor_0_r, B2 by reflexivity. now apply read_flags_app.
  - rewrite (Hz _ E1), (Hz _ E2), !Z.lor_0_r, app_nil_r. exact He.
Qed.

(** ["0%llo"] read as octal. *)
Definition oct_val (c : byte) : option Z :=
  if (0x30 <=? bz c) && (bz c <=? 0x37) then Some (bz c - 0x30) else None.
Definition read_oct (s : list byte) : option Z :=
  match s with x30 :: c :: l => read_num 8 oct_val 0 (c :: l) | _ => None end.
Lemma dec_mode_reads v n : in_u 64 v -> 256 <= n -> read_oct (dec_mode v n) = Some v.
Proof.
  intros Hv Hn. assert (He : forall d, 0 <= d < 8 -> oct_val (dec_digit d) = Some d).
  { intros d Hd. unfold oct_val, dec_digit. rewrite bz_zb_small by lia. rewrite !(proj2 (Z.leb_le _ _)) by lia.
    simpl. f_equal. lia. }
  destruct (digits_spec 22 8 v) as (l & E & Hu & Hd & Hl); [lia|unfold in_u in Hv; simpl; lia|lia|].
  pose proof (read_num_digits 8 oct_val dec_digit l He Hd) as Hr. unfold dec_mode, octs. rewrite E. cbn [num_text].
  rewrite strn_fits.
  - destruct (rev_map_nonempty dec_digit l) as (c & s & Ec); [lia|]. rewrite Ec in *. simpl app. cbn [read_oct].
    now rewrite Hr, Hu.
  - rewrite zlen_app, zlen_digits. unfold zlen. simpl. lia.
Qed.

Lemma dec_apnd_fits out n s : zlen out + zlen s < n -> dec_apnd out n s = out ++ s.
Proof.
  intros H. pose proof (zlen_nonneg s). unfold dec_apnd. rewrite Z.geb_leb, (proj2 (Z.leb_gt _ _)) by lia.
  now rewrite strn_fits by lia.
Qed.
Lemma dec_apnd_nil n s : zlen s < n -> dec_apnd [] n s = s.
Proof. intros H. rewrite dec_apnd_fits; [reflexivity|]. change (zlen (@nil byte)) with 0. lia. Qed.

Definition clone_names : list flagdef := t_clone ++ sig.

(** A text that reads as [a], or nothing at all for 0. *)
Definition part (s : list byte) (a : Z) : Prop :=
  s = [] /\ a = 0 \/ s <> [] /\ read_flags read_sig clone_names s = Some a.
(** What [dec_clone] does with each further part. *)
Lemma part_app n out a s b :
  part out a -> part s b -> zlen out + zlen s + 1 < n ->
  part (match s with [] => out | _ => dec_apnd out n (match out with [] => [] | _ => pipe end ++ s) end) (Z.lor a b) /\
  zlen (match s with [] => out | _ => dec_apnd out n (match out with [] => [] | _ => pipe end ++ s) end) <= zlen out + zlen s + 1.
Proof.
  intros Ho Hs Hn. pose proof (zlen_nonneg out) as Hzo. destruct Hs as [[-> ->]|[Hs Hb]].
  { rewrite Z.lor_0_r. change (zlen (@nil byte)) with 0. split; [exact Ho|lia]. }
  destruct s as [|c s]; [contradiction|]. destruct out as [|o out].
  - destruct Ho as [[_ ->]|[Ho _]]; [|contradiction]. rewrite app_nil_l, dec_apnd_nil by lia.
    rewrite Z.lor_0_l. split; [right; auto|lia].
  - destruct Ho as [[Ho _]|[_ Ho]]; [discriminate|]. rewrite dec_apnd_fits by (rewrite zlen_app; change (zlen pipe) with 1; lia).
    split; [right; split; [discriminate|now apply read_flags_app]|]. rewrite !zlen_app. change (zlen pipe) with 1. lia.
Qed.

Lemma land_ff v : in_u 64 (Z.land v 0xff).
Proof.
  unfold in_u. change 0xff with (Z.ones 8). rewrite Z.land_ones by lia.
  pose proof (Z.mod_pos_bound v (2 ^ 8) eq_refl) as H. change (2 ^ 8) with 256 in *. lia.
Qed.
Lemma dec_clone_reads v n :
  in_u 64 v -> 256 <= n -> need (Z.ldiff v 0xff) t_clone <= 206 -> read_flags read_sig clone_names (dec_clone SIGRTMIN v n) = Some v.
Proof.
  intros Hv Hn Hneed. unfold dec_clone. destruct (bits_str (Z.ldiff v 0xff) t_clone 256) as [rem buf] eqn:E.
  assert (Hr : reads clone_names t_clone /\ named clone_names)
    by (split; repeat (apply List.Forall_cons; [repeat split; try (vm_compute; (discriminate || reflexivity)); repeat constructor|]); constructor).
  destruct Hr as [Hr Hnm]. destruct (bits_str_reads read_sig clone_names t_clone (Z.ldiff v 0xff) rem buf) as (H1 & H2 & H3); auto;
    [lia|now apply ldiff_range|].
  assert (Hx : exists b, part buf b /\ Z.lor b rem = Z.ldiff v 0xff).
  { destruct H3 as [(-> & ->)|(Hb & b & Hb1 & Hb2)]; [exists 0; split; [now left|apply Z.lor_0_l]|exists b; split; [now right|exact Hb2]]. }
  destruct Hx as (b & Hpb & Hor). clear H3.
  assert (Hp1 : part (if negb (rem =? 0) then hexs rem else []) rem).
  { destruct (Z.eqb_spec rem 0) as [->|]; [now left|right]. split; [|now apply read_flags_hex]. discriminate. }
  pose proof (zlen_hexs rem H1) as Hxl.
  pose proof (land_ff v) as Hsg.
  destruct (dec_signal_reads clone_names (Z.land v 0xff) 32 eq_refl ltac:(lia) Hsg) as (S1 & S2 & S3).
  set (sp := if negb (Z.land v 0xff =? 0) then dec_signal SIGRTMIN (Z.land v 0xff) 32 else []).
  assert (Hp2 : part sp (Z.land v 0xff) /\ zlen sp <= 29).
  { unfold sp. destruct (Z.eqb_spec (Z.land v 0xff) 0) as [->|]; cbn [negb]; [split; [now left|change (zlen (@nil byte)) with 0; lia]|].
    split; [now right|lia]. }
  destruct Hp2 as [Hp2 Hpl].
  replace (match buf with [] => [] | _ :: _ => dec_apnd [] n buf end) with buf
    by (destruct buf; [reflexivity|rewrite dec_apnd_nil by lia; reflexivity]).
  set (o1 := if negb (rem =? 0) then dec_apnd buf n (match buf with [] => [] | _ :: _ => pipe end ++ hexs rem) else buf).
  assert (Ho1 : part o1 (Z.lor b rem) /\ zlen o1 <= zlen buf + 19).
  { destruct (part_app n buf b _ rem Hpb Hp1) as [A B]; [destruct (negb _); change (zlen (@nil byte)) with 0; lia|].
    unfold o1. destruct (Z.eqb_spec rem 0) as [->|]; cbn [negb] in *; [split; [exact A|lia]|].
    change (match hexs rem with [] => buf | _ :: _ => ?x end) with x in A, B. split; [exact A|lia]. }
  destruct Ho1 as [Ho1 Ho2]. rewrite Hor in Ho1.
  destruct (part_app n o1 (Z.ldiff v 0xff) sp (Z.land v 0xff) Ho1 Hp2) as [A _]; [lia|].
  rewrite (Z.lor_comm (Z.ldiff v 0xff)), land_ldiff_lor in A. set (o2 := match sp with [] => o1 | _ :: _ => _ end) in *.
  destruct A as [[-> ->]|[Hne A]]; [rewrite strn_fits by (vm_compute zlen; lia); vm_compute; reflexivity|].
  destruct o2; [contradiction|exact A].
Qed.

(** ** Every decoded argument *)

(** The names a decoder may use; ["0"] is read as a number. *)
Definition zero_names (zero : option (list byte)) : list flagdef :=
  match zero with Some z => if bool_decide (z = [x30]) then [] else [(0, z)] | None => [] end.
(** The value a decoded text stands for. *)
Definition read_arg (d : decoder) (s : list byte) : option Z :=
  match d with
  | DOpen => read_flags read_sig open_names s
  | DMode => read_oct s
  | DBits t z => read_flags read_sig (t ++ zero_names z) s
  | DEnum t => read_flags read_sig t s
  | DSocktype => read_flags read_sig sock_names s
  | DClone => read_flags read_sig clone_names s
  | DSignal => read_flags read_sig sig s
  end.
(** The names of a clone word have to fit the buffer of 256 bytes. *)
Definition fits (d : decoder) (v : Z) : Prop :=
  match d with DClone => need (Z.ldiff v 0xff) t_clone <= 206 | _ => True end.

Definition decoder_okb (d : decoder) : bool :=
  match d with
  | DBits t z =>
      table_okb (t ++ zero_names z) t 256 &&
      match z with
      | Some z => forallb (fun c => negb (bz c =? 0x7c)) z && (zlen z <? 256) &&
                  (bool_decide (z = [x30]) && bool_decide (name_val t z = None) ||
                   bool_decide (name_val (t ++ zero_names (Some z)) z = Some 0))
      | None => true
      end
  | DEnum t => table_okb t (take 1 t) 256 && forallb (fun d => table_okb t [d] 256 && (zlen (snd d) <? 64)) t
  | _ => true
  end.
Lemma decoders_ok : forallb (fun x => decoder_okb (snd x)) decoders = true.
Proof. vm_compute. reflexivity. Qed.

Lemma find_decoder_in nr arg l d : find_decoder nr arg l = Some d -> In (nr, arg, d) l.
Proof.
  induction l as [|[[n a] e] l IH]; cbn [find_decoder]; [discriminate|].
  destruct ((n =? nr) && (a =? arg)) eqn:E; [|intros H; right; now apply IH]. b2p. subst. intros [= ->]. now left.
Qed.

Lemma decoder_reads d v n :
  decoder_okb d = true -> in_u 64 v -> 256 <= n -> fits d v -> read_arg d (run_decoder SIGRTMIN d v n) = Some v.
Proof.
  intros Hd Hv Hn Hfit. destruct d as [| |t z|t| | |]; cbn [read_arg run_decoder decoder_okb fits] in *.
  - now apply dec_open_reads.
  - now apply dec_mode_reads.
  - apply andb_true_iff in Hd as [Ht Hz]. destruct (table_okb_spec _ _ _ Ht) as [H1 H2 H3 _].
    apply dec_bits_reads; [constructor; auto|exact Hv|]. intros z' ->. rewrite !andb_true_iff, orb_true_iff, !andb_true_iff in Hz.
    destruct Hz as [[Hp Hl] Hz]. rewrite forallb_forall in Hp. b2p.
    split; [apply List.Forall_forall; intros c Hc; now apply negb_true_iff, Hp|]. split; [|lia]. unfold token_val.
    destruct Hz as [[E1 E2]|E1].
    + apply bool_decide_eq_true in E1, E2. subst z'. unfold zero_names. rewrite bool_decide_true by reflexivity.
      rewrite app_nil_r, E2. reflexivity.
    + apply bool_decide_eq_true in E1. now rewrite E1.
  - apply andb_true_iff in Hd as [H1 H2]. destruct (table_okb_spec _ _ _ H1) as [Hnm _ _ _]. rewrite forallb_forall in H2.
    apply dec_enum_reads; [exact Hnm| | |lia|exact Hv]; apply List.Forall_forall; intros x Hx; specialize (H2 x Hx);
      apply andb_true_iff in H2 as [A B]; b2p; [|exact B].
    destruct (table_okb_spec _ _ _ A) as [_ Hr _ _]. apply list.Forall_cons in Hr as [Hr _]. exact Hr.
  - now apply dec_socktype_reads.
  - now apply dec_clone_reads.
  - apply dec_signal_reads; [reflexivity|lia|exact Hv].
Qed.

(** C12: decoding a system-call argument loses nothing.  For every argument of every
    system call the switch of [flags_decode_arg] has a case for, and every 64-bit value,
    the text it puts into a buffer of 256 bytes or more reads back to exactly that
    value: names stand for their bits, what no name covers is appended in hexadecimal,
    signals and modes read as numbers.  A clone word is bounded by the names that fit. *)
Theorem decoded_argument_reads_back nr arg v outsz d s :
  in_u 64 v -> 256 <= outsz ->
  find_decoder nr arg decoders = Some d -> fits d v ->
  flags_decode_arg SIGRTMIN nr arg v outsz = Some s ->
  read_arg d s = Some v.
Proof.
  intros Hv Hn Hd Hfit. unfold flags_decode_arg. rewrite Hd. intros [= <-].
  apply decoder_reads; auto. apply find_decoder_in in Hd.
  pose proof decoders_ok as H. rewrite forallb_forall in H. exact (H _ Hd).
Qed.
End Roundtrip.

(** The flags of a thread: [clone] with its nine flags and [SIGCHLD]. *)
Lemma decoded_argument_reads_back_witness :
  flags_decode_arg 34 220 0 0x3d0f11 256 =
    Some (bytes_of "CLONE_VM|CLONE_FS|CLONE_FILES|CLONE_SIGHAND|CLONE_THREAD|CLONE_SYSVSEM|CLONE_SETTLS|CLONE_PARENT_SETTID|CLONE_CHILD_CLEARTID|SIGCHLD") /\
  read_arg 34 DClone (bytes_of "CLONE_VM|CLONE_FS|CLONE_FILES|CLONE_SIGHAND|CLONE_THREAD|CLONE_SYSVSEM|CLONE_SETTLS|CLONE_PARENT_SETTID|CLONE_CHILD_CLEARTID|SIGCHLD") = Some 0x3d0f11.
Proof.
  split; [vm_compute; reflexivity|].
  apply (decoded_argument_reads_back 34 ltac:(lia) 220 0 0x3d0f11 256 DClone);
    [unfold in_u; lia|lia|vm_compute; reflexivity|vm_compute; discriminate|vm_compute; reflexivity].
Defined.

(** A word whose names need more than 255 bytes loses some of them without a trace:
    the whole set of clone flags does not read back. *)
Lemma clone_names_dropped :
  match flags_decode_arg 34 220 0 0xffffff00 300 with
  | Some s => bool_decide (read_arg 34 DClone s = Some 0xffffff00)
  | None => true
  end = false.
Proof. vm_compute. reflexivity. Qed.

(** Three names of the tables are never printed: their bits are taken by an entry
    that stands before them. *)
Lemma names_never_printed :
  flags_decode_arg 34 56 2 O_TMPFILE 256 = Some (bytes_of "O_RDONLY|O_DIRECTORY|0x400000") /\
  flags_decode_arg 34 222 3 3 256 = Some (bytes_of "MAP_SHARED|MAP_PRIVATE") /\
  flags_decode_arg 34 439 3 0x200 256 = Some (bytes_of "AT_REMOVEDIR").
Proof. repeat split; vm_compute; reflexivity. Qed.

(** ** Socket addresses *)

(** The numbers of a dotted address with its port. *)
Fixpoint numbers (acc : Z) (l : list byte) : list Z :=
  match l with
  | [] => [acc]
  | c :: l => match dec_val c with Some d => numbers (acc * 10 + d) l | None => acc :: numbers 0 l end
  end.
Lemma numbers_app s k : forall acc w, read_num 10 dec_val acc s = Some w -> numbers acc (s ++ k) = numbers w k.
Proof.
  induction s as [|c s IH]; intros acc w; cbn [read_num]; [intros [= ->]; reflexivity|].
  simpl app. cbn [numbers]. destruct (dec_val c); [apply IH|discriminate].
Qed.
Lemma numbers_decs v k : in_u 64 v -> numbers 0 (decs v ++ k) = numbers v k.
Proof.
  intros Hv. apply numbers_app. pose proof (read_decs v Hv) as H. unfold read_dec in H. destruct (decs v); [discriminate|exact H].
Qed.

(** The text of an IPv4 endpoint reads back. *)
Lemma ntohs_bytes b0 b1 : 0 <= b0 < 256 -> 0 <= b1 < 256 -> ntohs (b0 + 256 * (b1 + 256 * 0)) = 256 * b0 + b1.
Proof.
  intros H0 H1. pose (Q := fun b0 b1 => ntohs (b0 + 256 * (b1 + 256 * 0)) =? 256 * b0 + b1).
  pose (P := fun b0 => forallb (Q b0) (map Z.of_nat (seq 0 256))).
  assert (HP : forallb P (map Z.of_nat (seq 0 256)) = true) by (vm_compute; reflexivity).
  apply Z.eqb_eq. exact (check_bytes (Q b0) (check_bytes P HP b0 H0) b1 H1).
Qed.
Lemma zlen_decs v : in_u 64 v -> zlen (decs v) <= 24.
Proof. intros Hv. destruct (decs_digits v Hv) as (? & ? & _ & _ & H). exact H. Qed.
Lemma inet_text_reads sa outsz :
  128 <= outsz ->
  numbers 0 (strn outsz (inet_ntop4 (byte_at sa 4) (byte_at sa 5) (byte_at sa 6) (byte_at sa 7) ++ [x3a] ++ decs (ntohs (le_at 2 sa 2)))) =
  [byte_at sa 4; byte_at sa 5; byte_at sa 6; byte_at sa 7; 256 * byte_at sa 2 + byte_at sa 3].
Proof.
  intros Ho. assert (Hb : forall i, in_u 64 (byte_at sa i)) by (intros i; pose proof (byte_at_range sa i); unfold in_u; lia).
  pose proof (byte_at_range sa 2) as R2. pose proof (byte_at_range sa 3) as R3.
  cbn [le_at]. change (2 + 1) with 3. rewrite ntohs_bytes by assumption.
  assert (Hp : in_u 64 (256 * byte_at sa 2 + byte_at sa 3)) by (unfold in_u; lia).
  unfold inet_ntop4. rewrite strn_fits.
  - rewrite <- !app_assoc. do 4 (rewrite numbers_decs by apply Hb; simpl app; cbn [numbers]; change (dec_val x2e) with (@None Z);
      change (dec_val x3a) with (@None Z); cbv iota; f_equal).
    rewrite <- (app_nil_r (decs _)), numbers_decs by exact Hp. reflexivity.
  - rewrite !zlen_app. pose proof (zlen_decs _ (Hb 4)). pose proof (zlen_decs _ (Hb 5)). pose proof (zlen_decs _ (Hb 6)).
    pose proof (zlen_decs _ (Hb 7)). pose proof (zlen_decs _ Hp). change (zlen dot) with 1. change (zlen [x3a]) with 1. lia.
Qed.

(** What a decoded address may be: some text that fits the output. *)
Definition rendered (outsz : Z) (r : res (option (list byte))) : Prop := exists s, r = Ret (Some s) /\ zlen s < outsz.
Lemma rendered_strn outsz s : 1 <= outsz -> rendered outsz (Ret (Some (strn outsz s))).
Proof.
  intros Ho. eexists. split; [reflexivity|]. unfold strn, snprintf_s, zlen. rewrite length_take. lia.
Qed.

(** Every branch stays inside the blob. *)
Lemma sockaddr_bounds ntop6 sa len outsz :
  0 <= len <= zlen sa -> in_u 32 len -> 1 <= outsz ->
  (len < 2 -> decode_sockaddr ntop6 sa len outsz = Ret None) /\
  (2 <= len -> rendered outsz (decode_sockaddr ntop6 sa len outsz)).
Proof.
  intros Hl Hu Ho. unfold decode_sockaddr. split; [intros H; now rewrite (proj2 (Z.ltb_lt _ _))|].
  intros H2. rewrite (proj2 (Z.ltb_ge _ _)) by lia. rewrite (ld_le_in 2 sa 0), ret_bind by lia.
  destruct ((le_at 2 sa 0 =? AF_INET) && (len >=? 8)) eqn:E4.
  { b2p. rewrite ld_le_in, ret_bind by lia. rewrite !ld_in, !ret_bind by lia. now apply rendered_strn. }
  destruct ((le_at 2 sa 0 =? AF_INET6) && (len >=? 24)) eqn:E6.
  { b2p. rewrite ld_le_in, ret_bind by lia. rewrite (proj2 (Z.ltb_ge _ _)) by lia. now apply rendered_strn. }
  destruct (le_at 2 sa 0 =? AF_UNIX); [|now apply rendered_strn].
  assert (Eu : u32 (len - 2) = len - 2) by (unfold u32, in_u in *; apply Z.mod_small; lia). rewrite Eu.
  destruct (Z.eqb_spec (len - 2) 0) as [|Hp]; [now apply rendered_strn|]. rewrite ld_in, ret_bind by lia.
  assert (Eu3 : u32 (len - 2 - 1) = len - 3) by (unfold u32, in_u in *; rewrite Z.mod_small by lia; lia). rewrite Eu3.
  unfold DECODE_UNIX_PATH_MAX. destruct (byte_at sa 2 =? 0).
  + rewrite (proj2 (Z.ltb_ge (zlen sa) _)) by (destruct (Z.ltb_spec (len - 3) (64 - 1)); lia). now apply rendered_strn.
  + rewrite (proj2 (Z.ltb_ge (zlen sa) _)) by (destruct (Z.ltb_spec (len - 2) 64); lia). now apply rendered_strn.
Qed.



(** An unknown family is reported as decoded. *)
Lemma sockaddr_unknown_family : decode_sockaddr (fun _ => []) (map zb [16; 0]) 2 128 = Ret (Some (bytes_of "family=16")).
Proof. vm_compute. reflexivity. Qed.
