(* ===== verification/FileAccess.v ===== *)
(** * FileAccess: opened files and their categories
    (src/modules/file_access_classify.c, file_access.bpf.c)

    The kernel programs forward the opens below four directories; user space sorts them
    into categories by their path.  A path is the C string without its terminator. *)

From Stdlib Require Import ZArith Lia.
From stdpp Require Import base list option numbers gmap.
From S2P Require Import Prelude Elf SpanStack Correlate Modules Json ModEvents Tally Funcs Burst.

Local Open Scope Z_scope.

Module FileAccess.

Definition slash : list byte := [x2f].

(** ** Classification *)

(** The text up to the next slash, refused when empty or longer than the buffer. *)
Fixpoint segment (s : list byte) : list byte :=
  match s with [] => [] | c :: s => if bool_decide (c = x2f) then [] else c :: segment s end.
Definition extract_component (s : list byte) (outsz : Z) : option (list byte) :=
  let len := zlen (segment s) in
  if (len =? 0) || (len >=? outsz) then None else Some (segment s).

Definition path_has_component (path comp : list byte) : bool :=
  let needle := slash ++ comp ++ slash in
  ((zlen needle <? 64) && bool_decide (is_Some (strstr path needle)))
  || let plen := zlen path in let clen := zlen comp in
     (plen >? clen + 1) && bool_decide (slice path (plen - clen - 1) 1 = slash)
     && bool_decide (drop (Z.to_nat (plen - clen)) path = comp).

Definition subdirs : list (list byte) :=
  map bytes_of ["DCIM"; "Download"; "Documents"; "WhatsApp"; "Telegram"; "Pictures"]%string.
Definition cred_patterns : list (list byte) :=
  map bytes_of [".keystore"; "wallet"; "id_rsa"; ".pem"; "cookies"; "seed"]%string.

Definition bit (b : bool) (v : Z) : Z := if b then v else 0.
(** The rest of the path after the directory of the per-app data. *)
Definition app_rest (path : list byte) : option (list byte) :=
  if is_prefix (bytes_of "/data/data/") path then Some (drop 11 path)
  else if is_prefix (bytes_of "/data/user/") path then
    let after_user := drop 11 path in
    if strchr_any slash after_user then Some (drop (S (length (segment after_user))) after_user) else None
  else None.
Definition classify_path (path : option (list byte)) (self_pkg : option (list byte)) : Z :=
  match path with
  | None => 0
  | Some path =>
      let ext := is_prefix (bytes_of "/storage/emulated/") path || is_prefix (bytes_of "/sdcard/") path in
      let media := ext && existsb (path_has_component path) subdirs in
      let cred := existsb (fun p => bool_decide (is_Some (strstr (basename_of path) p))) cred_patterns in
      let cat := Z.lor (bit ext FA_EXTERNAL_STORAGE) (bit media FA_MEDIA_SUBDIR) in
      let cat := Z.lor cat (bit cred FA_CREDENTIAL_PATTERN) in
      match app_rest path with
      | None => cat
      | Some rest =>
          match extract_component rest 256 with
          | None => cat
          | Some pkgseg =>
              match self_pkg with
              | None => Z.lor cat FA_UNKNOWN_SELF
              | Some self => Z.lor cat (bit (negb (bool_decide (pkgseg = self))) FA_FOREIGN_APP_DIR)
              end
          end
      end
  end.

Definition O_ACCMODE := 3.
Definition O_CREAT := 0x40.
Definition O_TRUNC := 0x200.
Definition O_APPEND := 0x400.
Definition file_access_decode_flags (flags : Z) (max : nat) : list (list byte) :=
  let acc := Z.land flags O_ACCMODE in
  let all := (if acc =? 1 then bytes_of "O_WRONLY" else if acc =? 2 then bytes_of "O_RDWR" else bytes_of "O_RDONLY") ::
             (if negb (Z.land flags O_CREAT =? 0) then [bytes_of "O_CREAT"] else []) ++
             (if negb (Z.land flags O_TRUNC =? 0) then [bytes_of "O_TRUNC"] else []) ++
             (if negb (Z.land flags O_APPEND =? 0) then [bytes_of "O_APPEND"] else []) in
  take max all.

(** ** The kernel programs *)

Definition path_is_interesting (path : list byte) : bool :=
  path_has_prefix path (bytes_of "/storage/emulated/") || path_has_prefix path (bytes_of "/sdcard/") ||
  path_has_prefix path (bytes_of "/data/data/") || path_has_prefix path (bytes_of "/data/user/").

Record state := mk_state { events_rb : list file_access_event; drops : Z }.

Section Probes.
Context (target_uids target_pids : gset Z).

(** The shared body; [flags] is read after the path was accepted. *)
Definition on_open (flags : Z) (c : fctx) (s : state) : state :=
  if gate target_uids target_pids (f_c c) then s else
  if negb (c_reserve (f_c c)) then mk_state (events_rb s) (u64 (drops s + 1)) else
  match c_str (f_c c) (untag (reg (f_c c) 1)) with
  | None => s
  | Some p =>
      if negb (path_is_interesting (take 255 p)) then s else
      mk_state (events_rb s ++ [mk_file_access (mk_hdr MOD_EV_FILE_ACCESS (c_pid (f_c c)) (c_tid (f_c c)))
                                  (c_now (f_c c)) (f_comm c) (take 255 p) (u32 flags)]) (drops s)
  end.
Definition on_openat (c : fctx) (s : state) : state := on_open (reg (f_c c) 2) c s.
(** [how->flags] is zero when the structure cannot be read. *)
Definition on_openat2 (c : fctx) (s : state) : state :=
  let flags64 := match c_mem (f_c c) (untag (reg (f_c c) 2)) 8 with Some b => le_at 8 b 0 | None => 0 end in
  on_open flags64 c s.
End Probes.

(** ** Paths as their components *)

Fixpoint components (s : list byte) : list (list byte) :=
  match s with
  | [] => [[]]
  | c :: s => if bool_decide (c = x2f) then [] :: components s
              else match components s with h :: t => (c :: h) :: t | [] => [[c]] end
  end.
Fixpoint join (l : list (list byte)) : list byte :=
  match l with [] => [] | [s] => s | s :: l => s ++ slash ++ join l end.
Definition flat (s : list byte) : Prop := x2f ∉ s.

Lemma components_cons s : exists h t, components s = h :: t.
Proof. destruct s as [|c s]; simpl; [eauto|]. destruct (bool_decide _); [eauto|]. destruct (components s); eauto. Qed.
Lemma join_components s : join (components s) = s.
Proof.
  induction s as [|c s IH]; [reflexivity|]. simpl. destruct (components_cons s) as (h & t & E). rewrite E in *.
  destruct (bool_decide_reflect (c = x2f)) as [->|]; [simpl in *; now rewrite IH|].
  destruct t; simpl in *; now rewrite IH.
Qed.
Lemma components_app a b : components (a ++ slash ++ b) = components a ++ components b.
Proof.
  induction a as [|c a IH]; [reflexivity|]. simpl in *. destruct (bool_decide (c = x2f)); [now rewrite IH|].
  rewrite IH. destruct (components_cons a) as (h & t & ->). reflexivity.
Qed.
Lemma components_flat s : flat s -> components s = [s].
Proof.
  unfold flat. induction s as [|c s IH]; intros H; [reflexivity|]. apply not_elem_of_cons in H as [H1 H2]. simpl.
  rewrite bool_decide_false by congruence. now rewrite IH.
Qed.
Lemma components_are_flat s : Forall flat (components s).
Proof.
  unfold flat. induction s as [|c s IH]; [repeat constructor; apply not_elem_of_nil|]. simpl.
  destruct (bool_decide_reflect (c = x2f)); [constructor; [apply not_elem_of_nil|exact IH]|].
  destruct (components_cons s) as (h & t & E). rewrite E in *. apply list.Forall_cons in IH as [Hh Ht]. constructor; [|exact Ht].
  apply not_elem_of_cons. auto.
Qed.
Lemma join_app a b : a <> [] -> b <> [] -> join (a ++ b) = join a ++ slash ++ join b.
Proof.
  intros Ha Hb. induction a as [|x a IH]; [contradiction|]. destruct a as [|y a].
  - destruct b; [contradiction|reflexivity].
  - change (x ++ slash ++ join ((y :: a) ++ b) = (x ++ slash ++ join (y :: a)) ++ slash ++ join b).
    rewrite IH by discriminate. now rewrite <- !app_assoc.
Qed.
Lemma components_split s a b : components s = a ++ b -> a <> [] -> b <> [] -> s = join a ++ slash ++ join b.
Proof. intros E Ha Hb. now rewrite <- (join_components s), E, join_app. Qed.

Lemma is_prefix_iff p s : is_prefix p s = true <-> exists r, s = p ++ r.
Proof.
  revert s. induction p as [|c p IH]; intros s; [split; [eauto|reflexivity]|].
  destruct s as [|d s]; simpl; [split; [discriminate|intros [r H]; discriminate]|].
  rewrite andb_true_iff, IH, bool_decide_eq_true. split; [intros [-> [r ->]]; eauto|intros [r [= -> ->]]; eauto].
Qed.
Lemma strstr_iff t p : is_Some (strstr t p) <-> exists a b, t = a ++ p ++ b.
Proof.
  induction t as [|c t IH].
  - cbn [strstr]. destruct (is_prefix p []) eqn:E.
    + apply is_prefix_iff in E as [r E]. split; [intros _; exists [], r; exact E|eauto].
    + split; [intros [? H]; discriminate|]. intros (a & b & H). destruct a; [|discriminate]. destruct p; discriminate.
  - cbn [strstr]. destruct (is_prefix p (c :: t)) eqn:E.
    + apply is_prefix_iff in E as [r E]. split; [intros _; exists [], r; exact E|eauto].
    + rewrite fmap_is_Some, IH. split; [intros (a & b & ->); exists (c :: a), b; reflexivity|].
      intros (a & b & H). destruct a as [|d a]; [|injection H as -> ->; eauto]. exfalso.
      assert (is_prefix p (c :: t) = true) by (apply is_prefix_iff; eauto). congruence.
Qed.

(** A prefix that ends in a slash is a list of leading components, with more behind. *)
Definition leads (cs : list (list byte)) (p : list (list byte)) : bool :=
  bool_decide (take (length p) cs = p) && bool_decide (drop (length p) cs <> []).
Lemma prefix_leads p s : p <> [] -> Forall flat p -> is_prefix (join p ++ slash) s = leads (components s) p.
Proof.
  intros Hp Hf. assert (Hc : components (join p) = p).
  { clear s. induction p as [|x p IH]; [contradiction|]. apply list.Forall_cons in Hf as [Hx Hf].
    destruct p as [|y p]; [now apply components_flat|]. change (join (x :: y :: p)) with (x ++ slash ++ join (y :: p)).
    rewrite components_app, components_flat, IH by (auto; discriminate). reflexivity. }
  unfold leads. destruct (is_prefix _ _) eqn:E; symmetry.
  - apply is_prefix_iff in E as [r ->]. rewrite <- app_assoc, components_app, Hc, take_app_length, drop_app_length.
    rewrite !bool_decide_true; auto. destruct (components_cons r) as (h & t & ->). discriminate.
  - apply not_true_iff_false. intros H. apply andb_true_iff in H as [H1 H2]. apply bool_decide_eq_true in H1, H2.
    assert (Ht : is_prefix (join p ++ slash) s = true); [|congruence]. apply is_prefix_iff.
    exists (join (drop (length p) (components s))). rewrite <- app_assoc. apply components_split; auto.
    rewrite <- H1 at 1. symmetry. apply take_drop.
Qed.

Lemma has_component_iff path d :
  flat d -> zlen d < 62 -> path <> slash ++ d -> path_has_component path d = true <-> d ∈ drop 1 (components path).
Proof.
  intros Hd Hl Hne. unfold path_has_component. rewrite (proj2 (Z.ltb_lt _ _)) by (rewrite !zlen_app; change (zlen slash) with 1; lia).
  rewrite andb_true_l, orb_true_iff, !andb_true_iff, !bool_decide_eq_true, strstr_iff.
  pose proof (zlen_nonneg d) as Hz. split.
  - intros [(a & b & ->)|[[H1 H2] H3]].
    + rewrite <- !app_assoc, !components_app, (components_flat d Hd). destruct (components_cons a) as (h & t & ->).
      simpl. apply elem_of_app. right. now left.
    + rewrite Z.gtb_ltb in H1. b2p. set (n := Z.to_nat (zlen path - zlen d - 1)) in *.
      assert (E : path = take n path ++ slash ++ d).
      { unfold slice in H2. fold n in H2. change (Z.to_nat 1) with 1%nat in H2.
        assert (H4 : drop 1 (drop n path) = d) by (rewrite drop_drop, <- H3; f_equal; unfold n; lia).
        rewrite <- H2, <- H4. now rewrite !take_drop. }
      rewrite E, components_app, (components_flat d Hd). destruct (components_cons (take n path)) as (h & t & ->).
      simpl. apply elem_of_app. right. now left.
  - intros H. destruct (components_cons path) as (h & t & E). rewrite E in H. apply list_elem_of_split in H as (l1 & l2 & H).
    change (t = l1 ++ d :: l2) in H. subst t. destruct l2 as [|x l2].
    + right. assert (Ep : path = join (h :: l1) ++ slash ++ d) by (apply (components_split path (h :: l1) [d]); auto; discriminate).
      assert (Hn : 0 < zlen (join (h :: l1))).
      { destruct (join (h :: l1)); [contradiction|]. unfold zlen. simpl. lia. }
      rewrite Ep. rewrite !zlen_app. change (zlen slash) with 1. split; [split; [rewrite Z.gtb_ltb; apply Z.ltb_lt; lia|]|].
      * unfold slice. replace (Z.to_nat (zlen (join (h :: l1)) + _ - _ - 1)) with (length (join (h :: l1))) by (unfold zlen; lia).
        now rewrite drop_app_length.
      * rewrite app_assoc. replace (Z.to_nat (zlen (join (h :: l1)) + _ - _)) with (length (join (h :: l1) ++ slash)) by (rewrite length_app; unfold zlen; simpl; lia).
        now rewrite drop_app_length.
    + left. exists (join (h :: l1)), (join (x :: l2)).
      rewrite (components_split path (h :: l1) (d :: x :: l2) E) by discriminate.
      change (join (d :: x :: l2)) with (d ++ slash ++ join (x :: l2)). now rewrite <- !app_assoc.
Qed.

(** The first component of a text, and what follows it. *)
Lemma segment_components r :
  exists t, components r = segment r :: t /\ strchr_any slash r = bool_decide (t <> []) /\
            (t <> [] -> components (drop (S (length (segment r))) r) = t).
Proof.
  induction r as [|c r IH]; [exists []; repeat split; auto; contradiction|]. simpl.
  destruct (bool_decide_reflect (c = x2f)) as [->|Hc].
  - exists (components r). destruct (components_cons r) as (h & t & E). split; [reflexivity|].
    split; [rewrite E; symmetry; apply bool_decide_true; discriminate|]. intros _. simpl. now rewrite drop_0.
  - destruct IH as (t & -> & E2 & E3). exists t. split; [reflexivity|]. split; [|exact E3]. rewrite <- E2. unfold strchr_any. simpl.
    rewrite bool_decide_false by congruence. reflexivity.
Qed.

Lemma basename_last s : basename_of s = List.last (components s) [].
Proof.
  assert (Hf : forall r, strchr_any slash r = false -> flat r).
  { intros r H Hin. apply not_true_iff_false in H. apply H. unfold strchr_any. apply existsb_exists. exists x2f.
    split; [now apply list_elem_of_In|reflexivity]. }
  induction s as [|c s IH]; [reflexivity|]. cbn [basename_of]. destruct (strchr_any [x2f] (c :: s)) eqn:E.
  - cbn [components]. destruct (bool_decide_reflect (c = x2f)) as [->|Hc]; simpl (_ && _).
    + destruct (strchr_any [x2f] s) eqn:Es; cbn [negb]; [rewrite IH; destruct (components_cons s) as (h & t & ->); reflexivity|].
      rewrite components_flat by (now apply Hf). reflexivity.
    + destruct (segment_components s) as (t & E1 & E2 & _). rewrite IH, E1.
      assert (Ht : strchr_any slash s = true).
      { unfold strchr_any in *. simpl in E. rewrite bool_decide_false in E by congruence. exact E. }
      rewrite Ht in E2. symmetry in E2. apply bool_decide_eq_true in E2. destruct t; [contradiction|reflexivity].
  - rewrite components_flat by (now apply Hf). reflexivity.
Qed.

(** ** The categories, by components *)

Definition external (cs : list (list byte)) : bool :=
  leads cs [[]; bytes_of "storage"; bytes_of "emulated"] || leads cs [[]; bytes_of "sdcard"].
(** The package whose directory a path lies in. *)
Definition owner (cs : list (list byte)) : option (list byte) :=
  if leads cs [[]; bytes_of "data"; bytes_of "data"] then cs !! 3%nat
  else if leads cs [[]; bytes_of "data"; bytes_of "user"] then cs !! 4%nat else None.
Definition classify_components (cs : list (list byte)) (self_pkg : option (list byte)) : Z :=
  let cat := Z.lor (bit (external cs) FA_EXTERNAL_STORAGE)
                   (bit (external cs && existsb (fun d => bool_decide (d ∈ cs)) subdirs) FA_MEDIA_SUBDIR) in
  let cat := Z.lor cat (bit (existsb (fun p => bool_decide (is_Some (strstr (List.last cs []) p))) cred_patterns) FA_CREDENTIAL_PATTERN) in
  match owner cs with
  | None => cat
  | Some pkg =>
      if (zlen pkg =? 0) || (zlen pkg >=? 256) then cat
      else match self_pkg with
           | None => Z.lor cat FA_UNKNOWN_SELF
           | Some self => Z.lor cat (bit (negb (bool_decide (pkg = self))) FA_FOREIGN_APP_DIR)
           end
  end.

Lemma flat_names : Forall flat (map bytes_of ["storage"; "emulated"; "sdcard"; "data"; "user"]%string).
Proof. repeat (constructor; [intros H; apply list_elem_of_In in H; cbv in H; intuition discriminate|]). constructor. Qed.

Lemma owner_rest path : owner (components path) = option_map segment (app_rest path).
Proof.
  unfold owner, app_rest. pose proof flat_names as Hf. simpl in Hf. rewrite !list.Forall_cons in Hf.
  destruct Hf as (_ & _ & _ & Hdata & Huser & _). assert (Hn : flat []) by apply not_elem_of_nil.
  rewrite <- !prefix_leads by (try discriminate; repeat constructor; auto).
  change (join [[]; bytes_of "data"; bytes_of "data"] ++ slash) with (bytes_of "/data/data/").
  change (join [[]; bytes_of "data"; bytes_of "user"] ++ slash) with (bytes_of "/data/user/").
  destruct (is_prefix (bytes_of "/data/data/") path) eqn:E1.
  { apply is_prefix_iff in E1 as [r ->]. change (drop 11 (bytes_of "/data/data/" ++ r)) with r.
    change (components (bytes_of "/data/data/" ++ r)) with ([] :: bytes_of "data" :: bytes_of "data" :: components r).
    destruct (segment_components r) as (t & -> & _). reflexivity. }
  destruct (is_prefix (bytes_of "/data/user/") path) eqn:E2; [|reflexivity].
  apply is_prefix_iff in E2 as [r ->]. change (drop 11 (bytes_of "/data/user/" ++ r)) with r.
  change (components (bytes_of "/data/user/" ++ r)) with ([] :: bytes_of "data" :: bytes_of "user" :: components r).
  cbv zeta. destruct (segment_components r) as (t & E & Es & Et). rewrite E, Es. destruct t as [|x t]; [reflexivity|].
  rewrite bool_decide_true by discriminate. simpl option_map.
  destruct (segment_components (drop (S (length (segment r))) r)) as (t' & E' & _). rewrite Et in E' by discriminate.
  injection E' as -> _. reflexivity.
Qed.

Lemma external_prefix path :
  is_prefix (bytes_of "/storage/emulated/") path || is_prefix (bytes_of "/sdcard/") path = external (components path).
Proof.
  unfold external. pose proof flat_names as Hf. simpl in Hf. rewrite !list.Forall_cons in Hf.
  destruct Hf as (H1 & H2 & H3 & _). assert (Hn : flat []) by apply not_elem_of_nil.
  rewrite <- !prefix_leads by (try discriminate; repeat constructor; auto). reflexivity.
Qed.
Lemma subdirs_ok : Forall (fun d => flat d /\ zlen d < 62 /\ d <> []) subdirs.
Proof.
  repeat (constructor; [split; [intros H; apply list_elem_of_In in H; cbv in H; intuition discriminate|split; [reflexivity|discriminate]]|]).
  constructor.
Qed.
(** Below external storage a component is found wherever it stands. *)
Lemma media_component path d :
  external (components path) = true -> d ∈ subdirs -> path_has_component path d = bool_decide (d ∈ components path).
Proof.
  intros He Hd. pose proof subdirs_ok as Hok. rewrite list.Forall_forall in Hok. destruct (Hok d Hd) as (Hf & Hl & Hne).
  assert (Hs : exists x y t, components path = [] :: x :: y :: t).
  { unfold external, leads in He. rewrite orb_true_iff, !andb_true_iff, !bool_decide_eq_true in He.
    destruct (components path) as [|a [|b [|c cs]]]; simpl in He;
      [destruct He as [[H _]|[H _]]; discriminate|destruct He as [[H _]|[H _]]; discriminate| |].
    - destruct He as [[H _]|[_ H]]; [discriminate|contradiction].
    - destruct He as [[H _]|[H _]]; injection H as -> ->; eauto. }
  destruct Hs as (x & y & t & E).
  assert (Hp : path <> slash ++ d).
  { intros ->. change (components (slash ++ d)) with ([] :: components d) in E. rewrite components_flat in E by exact Hf. discriminate. }
  apply Bool.eq_true_iff_eq. rewrite has_component_iff, bool_decide_eq_true, E by auto.
  change (drop 1 ([] :: x :: y :: t)) with (x :: y :: t). rewrite (elem_of_cons (x :: y :: t) d []). split; [now right|]. intros [->|H]; [contradiction|exact H].
Qed.
Lemma media_components path :
  external (components path) && existsb (path_has_component path) subdirs =
  external (components path) && existsb (fun d => bool_decide (d ∈ components path)) subdirs.
Proof.
  destruct (external (components path)) eqn:E; [|reflexivity]. rewrite !andb_true_l.
  assert (H : forall l, l ⊆ subdirs -> existsb (path_has_component path) l = existsb (fun d => bool_decide (d ∈ components path)) l).
  { induction l as [|d l IH]; intros Hl; [reflexivity|]. cbn [existsb]. rewrite IH by (intros y Hy; apply Hl; now right).
    rewrite media_component by (auto; apply Hl; now left). reflexivity. }
  now apply H.
Qed.

(** C32: the categories of an opened file are a function of its path's components.
    The prefix compares, [strstr] searches, suffix compare and 256-byte segment copy of
    [classify_path] compute: external storage by the leading directories, a media
    directory when it is one whole component anywhere in an external path (never part of
    a name), a credential pattern inside the last component only, and the owner of a
    private directory as the component after /data/data or after /data/user/<n>,
    compared with the traced package. *)
Theorem classify_path_by_components path self_pkg :
  classify_path (Some path) self_pkg = classify_components (components path) self_pkg.
Proof.
  unfold classify_path, classify_components. rewrite external_prefix, media_components, basename_last, owner_rest.
  destruct (app_rest path) as [rest|]; [|reflexivity]. simpl option_map. unfold extract_component. cbv zeta.
  destruct ((zlen (segment rest) =? 0) || (zlen (segment rest) >=? 256)); reflexivity.
Qed.

Definition kernel_categories : Z := Z.lor (Z.lor FA_EXTERNAL_STORAGE FA_MEDIA_SUBDIR) (Z.lor FA_FOREIGN_APP_DIR FA_UNKNOWN_SELF).

(** The kernel gate covers every category that depends on the directory. *)
Lemma gate_covers path self_pkg :
  Z.land (classify_path (Some path) self_pkg) kernel_categories <> 0 -> path_is_interesting path = true.
Proof.
  unfold path_is_interesting, path_has_prefix, classify_path, app_rest. intros H. apply not_false_iff_true. intros E.
  rewrite !orb_false_iff in E. destruct E as [[[E1 E2] E3] E4]. rewrite E1, E2, E3, E4 in H. apply H.
  destruct (existsb _ cred_patterns); reflexivity.
Qed.

(** An open the analyzer would flag for its directory reaches it.  If a traced task
    opens a path of at most 255 bytes whose categories include external storage, a media
    directory, a foreign or an undecided private directory, the kernel program submits
    exactly one event with that path, the flags' low 32 bits and the task's ids when the
    ring buffer has room, and counts one drop when it has not. *)
Theorem flagged_open_is_forwarded (uids pids : gset Z) (c : fctx) (s : state) (p : list byte) (self_pkg : option (list byte)) :
  gate uids pids (f_c c) = false ->
  c_str (f_c c) (untag (reg (f_c c) 1)) = Some p -> zlen p <= 255 ->
  Z.land (classify_path (Some p) self_pkg) kernel_categories <> 0 ->
  on_openat uids pids c s =
    if c_reserve (f_c c)
    then mk_state (events_rb s ++ [mk_file_access (mk_hdr MOD_EV_FILE_ACCESS (c_pid (f_c c)) (c_tid (f_c c)))
                                    (c_now (f_c c)) (f_comm c) p (u32 (reg (f_c c) 2))]) (drops s)
    else mk_state (events_rb s) (u64 (drops s + 1)).
Proof.
  intros Hg Hp Hl Hc. unfold on_openat, on_open. rewrite Hg, Hp. destruct (c_reserve (f_c c)); [|reflexivity]. cbn [negb].
  rewrite take_ge by (unfold zlen in Hl; lia). rewrite (gate_covers p self_pkg Hc). reflexivity.
Qed.

Definition demo_open (path : list byte) : fctx :=
  mk_fctx (mk_ctx 10001 (77 * 2 ^ 32 + 78) 0 0 [0; 0x7000; 0x41] 5 true
             (fun a => if a =? 0x7000 then Some path else None) (fun _ _ => None)) true [] (bytes_of "app") 1 0 0.
Lemma flagged_open_is_forwarded_witness :
  on_openat {[10001]} ∅ (demo_open (bytes_of "/data/user/0/com.bank/files/key.pem")) (mk_state [] 0) =
    mk_state [mk_file_access (mk_hdr MOD_EV_FILE_ACCESS 77 78) 5 (bytes_of "app")
                (bytes_of "/data/user/0/com.bank/files/key.pem") 0x41] 0 /\
  classify_path (Some (bytes_of "/data/user/0/com.bank/files/key.pem")) (Some (bytes_of "com.app")) =
    Z.lor FA_CREDENTIAL_PATTERN FA_FOREIGN_APP_DIR.
Proof.
  split; [|vm_compute; reflexivity].
  rewrite (flagged_open_is_forwarded {[10001]} ∅ _ _ (bytes_of "/data/user/0/com.bank/files/key.pem") (Some (bytes_of "com.app")));
    [vm_compute; reflexivity|vm_compute; reflexivity|reflexivity|vm_compute; discriminate|vm_compute; discriminate].
Defined.

(** Access mode 3, which the kernel gives neither reading nor writing, is named a read-only open. *)
Lemma access_mode_3_is_named_rdonly : file_access_decode_flags 3 8 = [bytes_of "O_RDONLY"].
Proof. reflexivity. Qed.
End FileAccess.
