(* ===== verification/Exfil.v ===== *)
(** * Exfil: sensitive reads followed by bulk sends
    (src/modules/exfil_detect.bpf.c, src/common/path_gate.bpf.h)

    The kernel programs arm a process when it opens a sensitive path, follow its
    outbound sockets, add up what it sends and submit an alert at half a megabyte.  The
    bytes a path buffer holds behind its terminator are a parameter: the programs search
    a fixed window of the buffer. *)

From Stdlib Require Import ZArith Lia.
From stdpp Require Import base list option numbers gmap.
From S2P Require Import Prelude Elf SpanStack Correlate Modules Json ModEvents Tally Funcs Burst.

Local Open Scope Z_scope.

Module Exfil.

Definition EXFIL_WINDOW_NS := 30 * 1000000000.
Definition EXFIL_BYTE_THRESHOLD := 512 * 1024.
Definition EXFIL_RECENT_NS := 3 * 1000000000.
Definition EXFIL_MAP_CAP : nat := 128.
Definition SOCK_FDS_CAP : nat := 256.
Definition BPF_AF_INET := 2.
Definition BPF_AF_INET6 := 10.

(** ** The path gate *)

(** The first 48 positions of the buffer; every needle is shorter than 16. *)
Definition path_has_component (buf needle : list byte) : bool :=
  existsb (fun start => is_prefix needle (drop start buf)) (seq 0 48).
Definition media : list (list byte) :=
  map bytes_of ["/DCIM/"; "/Download/"; "/Documents/"; "/WhatsApp/"; "/Telegram/"; "/Pictures/"]%string.
Definition secrets : list (list byte) :=
  map bytes_of [".keystore"; "wallet"; "id_rsa"; ".pem"; "cookies"; "seed"]%string.
Definition path_is_sensitive (buf : list byte) : bool :=
  let under_storage := path_has_prefix buf (bytes_of "/storage/emulated/") || path_has_prefix buf (bytes_of "/sdcard/") in
  let under_data := path_has_prefix buf (bytes_of "/data/data/") || path_has_prefix buf (bytes_of "/data/user/") in
  if negb under_storage && negb under_data then false
  else (under_storage && existsb (path_has_component buf) media) || existsb (path_has_component buf) secrets.

(** ** State *)

Record exfil_state := mk_st {
  window_start_ns : Z; primed : bool; bytes_sent : Z; sample_path : list byte;
  sensitive : list (list byte * Z);  (* sensitive_paths and sensitive_ts_ns *)
  sensitive_path_count : Z; paths_truncated : bool; dest : list byte; dest_len : Z
}.
Record state := mk_state {
  exfil_map : gmap Z exfil_state; sock_fds : gmap Z unit; events_rb : list exfil_detect_event; drops : Z
}.
Definition start : state := mk_state ∅ ∅ [] 0.
Definition exfil_zero : exfil_state :=
  mk_st 0 false 0 [] (repeat ([], 0) (Z.to_nat EXFIL_DETECT_RING_LEN)) 0 false (repeat x00 28) 0.
Definition put_st (p : Z) (st : exfil_state) (s : state) : state :=
  mk_state (<[p := st]> (exfil_map s)) (sock_fds s) (events_rb s) (drops s).
Definition spent (st : exfil_state) : exfil_state :=
  mk_st (window_start_ns st) false 0 (sample_path st) (sensitive st) (sensitive_path_count st) (paths_truncated st) (dest st) (dest_len st).

(** ** Sockets *)

Definition sockaddr_is_loopback (sa : list byte) : bool :=
  let fam := le_at 2 sa 0 in
  if fam =? BPF_AF_INET then byte_at sa 4 =? 127
  else if fam =? BPF_AF_INET6 then forallb (fun i => byte_at sa (8 + Z.of_nat i) =? 0) (seq 0 15) && (byte_at sa 23 =? 1)
  else false.
Definition sock_key (c : fctx) : Z := Z.lor (Z.shiftl (c_pid (f_c c)) 32) (u32 (reg (f_c c) 0)).

(** ** Counting and arming *)

Definition recent (now : Z) (x : list byte * Z) : bool := u64 (now - snd x) <=? EXFIL_RECENT_NS.
Definition alert (c : fctx) (st : exfil_state) : exfil_detect_event :=
  let now := c_now (f_c c) in
  mk_exfil (mk_hdr MOD_EV_EXFIL_DETECT (c_pid (f_c c)) (c_tid (f_c c))) now (f_comm c) (bytes_sent st)
    (u32 (u64 (now - window_start_ns st) / 1000000)) (sample_path st)
    (map (fun x => if recent now x then fst x else []) (sensitive st))
    (zlen (List.filter (recent now) (sensitive st))) (paths_truncated st) (dest st) (dest_len st).

Definition record_bytes (c : fctx) (n : Z) (s : state) : state :=
  let p := c_pid (f_c c) in let now := c_now (f_c c) in
  match exfil_map s !! p with
  | None => s
  | Some st =>
      if u64 (now - window_start_ns st) >? EXFIL_WINDOW_NS then put_st p (spent st) s else
      if negb (primed st) then s else
      let st := mk_st (window_start_ns st) true (u64 (bytes_sent st + n)) (sample_path st) (sensitive st)
                      (sensitive_path_count st) (paths_truncated st) (dest st) (dest_len st) in
      if bytes_sent st <? EXFIL_BYTE_THRESHOLD then put_st p st s else
      if negb (c_reserve (f_c c)) then mk_state (<[p := spent st]> (exfil_map s)) (sock_fds s) (events_rb s) (u64 (drops s + 1)) else
      mk_state (<[p := spent st]> (exfil_map s)) (sock_fds s) (events_rb s ++ [alert c st]) (drops s)
  end.

Definition arm_on_sensitive_read (c : fctx) (path : list byte) (s : state) : state :=
  let p := c_pid (f_c c) in let now := c_now (f_c c) in
  let armed st :=
    let slot := Z.land (sensitive_path_count st) (EXFIL_DETECT_RING_LEN - 1) in
    mk_st (window_start_ns st) true (bytes_sent st) path (<[Z.to_nat slot := (path, now)]> (sensitive st))
      (u32 (sensitive_path_count st + 1)) (paths_truncated st || (sensitive_path_count st >=? EXFIL_DETECT_RING_LEN))
      (dest st) (dest_len st) in
  match exfil_map s !! p with
  | None =>
      if (size (exfil_map s) <? EXFIL_MAP_CAP)%nat then
        put_st p (armed (mk_st now (primed exfil_zero) 0 [] (sensitive exfil_zero) 0 false (dest exfil_zero) 0)) s
      else s
  | Some st =>
      let st := if u64 (now - window_start_ns st) >? EXFIL_WINDOW_NS
                then mk_st now (primed st) 0 (sample_path st) (sensitive st) 0 false (dest st) (dest_len st) else st in
      put_st p (armed st) s
  end.

(** ** The programs *)

Section Probes.
Context (target_uids target_pids : gset Z) (junk : fctx -> list byte).

Definition on_openat (c : fctx) (s : state) : state :=
  if gate target_uids target_pids (f_c c) then s else
  match c_str (f_c c) (untag (reg (f_c c) 1)) with
  | None => s
  | Some p => if path_is_sensitive (take 255 p ++ [x00] ++ junk c) then arm_on_sensitive_read c (take 255 p) s else s
  end.
Definition on_openat2 := on_openat.

Definition on_connect (c : fctx) (s : state) : state :=
  if gate target_uids target_pids (f_c c) then s else
  let cnt := Z.min (Z.land (u32 (reg (f_c c) 2)) 31) 28 in
  if cnt =? 0 then s else
  match c_mem (f_c c) (untag (reg (f_c c) 1)) cnt with
  | None => s
  | Some b =>
      let sa := b ++ repeat x00 (28 - length b) in
      if sockaddr_is_loopback sa then s else
      let p := c_pid (f_c c) in
      let m := match exfil_map s !! p with
               | None => exfil_map s
               | Some st => <[p := mk_st (window_start_ns st) (primed st) (bytes_sent st) (sample_path st) (sensitive st)
                                     (sensitive_path_count st) (paths_truncated st) sa 28]> (exfil_map s)
               end in
      mk_state m (map_update SOCK_FDS_CAP (sock_key c) tt (sock_fds s)) (events_rb s) (drops s)
  end.

(** What a send counts for; [None] when the program returns first. *)
Definition sendto_len (c : fctx) : option Z :=
  let addr := untag (reg (f_c c) 4) in
  let loop := negb (addr =? 0) && match c_mem (f_c c) addr 28 with Some sa => sockaddr_is_loopback sa | None => false end in
  if loop then None else Some (u64 (reg (f_c c) 2)).
Fixpoint iov_sum (fuel : nat) (i : Z) (c : fctx) (total : Z) : Z :=
  match fuel with
  | O => total
  | S fuel =>
      if i >=? u64 (reg (f_c c) 2) then total else
      match c_mem (f_c c) (untag (reg (f_c c) 1) + i * 16) 16 with
      | None => total
      | Some iov => iov_sum fuel (i + 1) c (u64 (total + le_at 8 iov 8))
      end
  end.

Definition on_sendto (c : fctx) (s : state) : state :=
  if gate target_uids target_pids (f_c c) then s else
  match sendto_len c with None => s | Some n => record_bytes c n s end.
Definition on_write (c : fctx) (s : state) : state :=
  if gate target_uids target_pids (f_c c) then s else
  match sock_fds s !! sock_key c with None => s | Some _ => record_bytes c (u64 (reg (f_c c) 2)) s end.
Definition on_writev (c : fctx) (s : state) : state :=
  if gate target_uids target_pids (f_c c) then s else
  match sock_fds s !! sock_key c with None => s | Some _ => record_bytes c (iov_sum 8 0 c 0) s end.
Definition on_close (c : fctx) (s : state) : state :=
  if gate target_uids target_pids (f_c c) then s else
  mk_state (exfil_map s) (delete (sock_key c) (sock_fds s)) (events_rb s) (drops s).

Inductive probe := Openat | Openat2 | Connect | Sendto | Write | Writev | Close.
Definition run_probe (s : state) (h : probe * fctx) : state :=
  match fst h with
  | Openat => on_openat (snd h) s
  | Openat2 => on_openat2 (snd h) s
  | Connect => on_connect (snd h) s
  | Sendto => on_sendto (snd h) s
  | Write => on_write (snd h) s
  | Writev => on_writev (snd h) s
  | Close => on_close (snd h) s
  end.
Definition run (s : state) (hits : list (probe * fctx)) : state := foldl run_probe s hits.

(** ** What the hits were *)

Inductive kind := Open (path : list byte) | Send (n : Z).
Record act := mk_act { a_pid : Z; a_now : Z; a_kind : kind }.
(** What a hit counts as, given the sockets followed so far. *)
Definition act_of (s : state) (h : probe * fctx) : option act :=
  let c := snd h in let mk k := mk_act (c_pid (f_c c)) (c_now (f_c c)) k in
  if gate target_uids target_pids (f_c c) then None else
  match fst h with
  | Openat | Openat2 =>
      match c_str (f_c c) (untag (reg (f_c c) 1)) with
      | None => None
      | Some p => if path_is_sensitive (take 255 p ++ [x00] ++ junk c) then Some (mk (Open (take 255 p))) else None
      end
  | Sendto => (fun n => mk (Send n)) <$> sendto_len c
  | Write => match sock_fds s !! sock_key c with None => None | Some _ => Some (mk (Send (u64 (reg (f_c c) 2)))) end
  | Writev => match sock_fds s !! sock_key c with None => None | Some _ => Some (mk (Send (iov_sum 8 0 c 0))) end
  | Connect | Close => None
  end.
Fixpoint acts (s : state) (hits : list (probe * fctx)) : list act :=
  match hits with
  | [] => []
  | h :: hits => option_list (act_of s h) ++ acts (run_probe s h) hits
  end.
End Probes.

(** ** Every alert has its reads and its bytes *)

Definition own (p : Z) (H : list act) : list act := List.filter (fun a => a_pid a =? p) H.
Definition amount (a : act) : Z := match a_kind a with Send n => n | Open _ => 0 end.
Definition sends (l : list act) : Z := foldr (fun a n => amount a + n) 0 l.
Definition opened (p t : Z) (path : list byte) (l : list act) : Prop := mk_act p t (Open path) ∈ l.

Lemma own_app p a b : own p (a ++ b) = own p a ++ own p b.
Proof. apply List.filter_app. Qed.
Lemma sends_app a b : sends (a ++ b) = sends a + sends b.
Proof. induction a as [|x a IH]; [reflexivity|]. cbn [app sends foldr]. fold (sends (a ++ b)) (sends a). lia. Qed.
Lemma opened_app p t path a b : opened p t path a -> opened p t path (a ++ b).
Proof. intros H. apply elem_of_app. now left. Qed.
Lemma own_in p a l : a ∈ own p l -> a ∈ l.
Proof. unfold own. rewrite !list_elem_of_In, filter_In. tauto. Qed.

(** The acts so far are in clock order and send no negative amount. *)
Definition timed (lo : Z) (H : list act) : Prop := Forall (fun a => 0 <= a_now a <= lo /\ 0 <= amount a) H.

(** What a process' state says of its acts: the window began with a sensitive open, what
    is counted was sent since, the ring holds opens of the process. *)
Record tracked (H : list act) (p : Z) (st : exfil_state) : Prop := {
  tr_window : exists pre path post, own p H = pre ++ mk_act p (window_start_ns st) (Open path) :: post /\
    0 <= bytes_sent st <= sends post /\ Forall (fun a => window_start_ns st <= a_now a) post /\
    exists t, opened p t (sample_path st) (mk_act p (window_start_ns st) (Open path) :: post);
  tr_ring : Forall (fun x => fst x = [] \/ opened p (snd x) (fst x) H) (sensitive st)
}.

(** What an alert means. *)
Definition justified (H : list act) (e : exfil_detect_event) : Prop :=
  let p := h_pid (xf_h e) in let now := xf_ts_ns e in
  (exists pre t0 path post later,
    own p H = pre ++ mk_act p t0 (Open path) :: post ++ later /\
    0 <= now - t0 <= EXFIL_WINDOW_NS /\ xf_window_ms e = (now - t0) / 1000000 /\
    EXFIL_BYTE_THRESHOLD <= xf_bytes_sent e <= sends post /\
    Forall (fun a => t0 <= a_now a <= now) post /\
    exists t, opened p t (xf_sample_path e) (mk_act p t0 (Open path) :: post)) /\
  Forall (fun path => path = [] \/ exists t, now - EXFIL_RECENT_NS <= t <= now /\ opened p t path H) (xf_sensitive_paths e).

Lemma justified_app H K e : justified H e -> justified (H ++ K) e.
Proof.
  intros [(pre & t0 & path & post & later & E & Hr) Hs]. split.
  - exists pre, t0, path, post, (later ++ own (h_pid (xf_h e)) K). split; [|exact Hr]. rewrite own_app, E, <- !app_assoc. simpl.
    now rewrite <- app_assoc.
  - eapply List.Forall_impl; [|exact Hs]. intros x [Hx|(t & Ht & Hx)]; [now left|right]. exists t. split; [exact Ht|now apply opened_app].
Qed.

Lemma tracked_app H p st a :
  window_start_ns st <= a_now a -> 0 <= amount a -> tracked H p st -> tracked (H ++ [a]) p st.
Proof.
  intros Ha Hn [(pre & path & post & E & Hb & Hf & t & Ht) Hr]. split.
  - unfold own. rewrite List.filter_app. fold (own p H). rewrite E. cbn [List.filter]. destruct (a_pid a =? p).
    + exists pre, path, (post ++ [a]). rewrite <- app_assoc. simpl. split; [reflexivity|]. rewrite sends_app. cbn [sends foldr].
      split; [lia|]. split; [apply Forall_app; split; [exact Hf|repeat constructor; exact Ha]|]. exists t.
      change (opened p t (sample_path st) ((mk_act p (window_start_ns st) (Open path) :: post) ++ [a])). now apply opened_app.
    + exists pre, path, post. rewrite app_nil_r. eauto.
  - eapply List.Forall_impl; [|exact Hr]. intros x [Hx|Hx]; [now left|right; now apply opened_app].
Qed.

(** What only the window, the count and the ring decide. *)
Lemma tracked_same H p st st' :
  window_start_ns st' = window_start_ns st -> 0 <= bytes_sent st' <= bytes_sent st ->
  sample_path st' = sample_path st -> sensitive st' = sensitive st -> tracked H p st -> tracked H p st'.
Proof.
  intros E1 E2 E3 E4 [(pre & path & post & E & Hb & Hf & Ht) Hr]. split; [|now rewrite E4].
  exists pre, path, post. rewrite E1, E3. split; [exact E|]. split; [lia|]. auto.
Qed.

Lemma tracked_start H lo p st : timed lo H -> tracked H p st -> 0 <= window_start_ns st <= lo.
Proof.
  intros Ht [(pre & path & post & E & _) _]. assert (Hin : mk_act p (window_start_ns st) (Open path) ∈ H).
  { apply (own_in p). rewrite E. apply elem_of_app. right. now left. }
  unfold timed in Ht. rewrite list.Forall_forall in Ht. exact (proj1 (Ht _ Hin)).
Qed.

(** An open starts a window for the ring it extends. *)
Lemma tracked_open H p now path n cnt tr d dl ring :
  Forall (fun x => fst x = [] \/ opened p (snd x) (fst x) H) ring ->
  tracked (H ++ [mk_act p now (Open path)]) p (mk_st now true 0 path (<[n := (path, now)]> ring) cnt tr d dl).
Proof.
  intros Hr. split.
  - exists (own p H), path, []. rewrite own_app. cbn [own List.filter a_pid]. rewrite Z.eqb_refl. cbn.
    split; [reflexivity|]. split; [lia|]. split; [constructor|]. exists now. now left.
  - apply Forall_insert; [|right; apply elem_of_app; right; now left].
    eapply List.Forall_impl; [|exact Hr]. intros x [Hx|Hx]; [now left|right; now apply opened_app].
Qed.

(** The same in a window that is open already. *)
Lemma tracked_more H p st now path n cnt tr :
  window_start_ns st <= now -> tracked H p st ->
  tracked (H ++ [mk_act p now (Open path)]) p
    (mk_st (window_start_ns st) true (bytes_sent st) path (<[n := (path, now)]> (sensitive st)) cnt tr (dest st) (dest_len st)).
Proof.
  intros Hw Ht. pose proof (tracked_app H p st (mk_act p now (Open path)) Hw (Z.le_refl 0) Ht) as [_ Hr].
  destruct Ht as [(pre & path0 & post & E & Hb & Hf & _) _]. split.
  - exists pre, path0, (post ++ [mk_act p now (Open path)]). rewrite own_app, E. cbn [own List.filter a_pid]. rewrite Z.eqb_refl.
    rewrite <- app_assoc. cbn. split; [reflexivity|]. rewrite sends_app. cbn [sends foldr amount a_kind]. split; [lia|].
    split; [apply Forall_app; split; [exact Hf|repeat constructor; exact Hw]|]. exists now. right. apply elem_of_app. right. now left.
  - apply Forall_insert; [exact Hr|]. right. apply elem_of_app. right. now left.
Qed.

Record invariant (H : list act) (lo : Z) (s : state) : Prop := {
  inv_map : forall p st, exfil_map s !! p = Some st -> tracked H p st;
  inv_time : timed lo H;
  inv_events : Forall (justified H) (events_rb s)
}.

(** One more act, when it leaves every other process as it was. *)
Lemma invariant_put H lo s a p s' :
  invariant H lo s -> lo <= a_now a -> 0 <= amount a -> 0 <= a_now a ->
  (forall q, q <> p -> exfil_map s' !! q = exfil_map s !! q) ->
  (forall st, exfil_map s' !! p = Some st -> tracked (H ++ [a]) p st) ->
  (events_rb s' = events_rb s \/ exists e, events_rb s' = events_rb s ++ [e] /\ justified (H ++ [a]) e) ->
  invariant (H ++ [a]) (a_now a) s'.
Proof.
  intros [Hm Ht He] Hlo Hn H0 Hq Hp Hev. split.
  - intros q st E. destruct (Z.eq_dec q p) as [->|Hne]; [now apply Hp|]. rewrite Hq in E by exact Hne.
    apply tracked_app; [|exact Hn|now apply Hm]. pose proof (tracked_start H lo q st Ht (Hm q st E)). lia.
  - apply Forall_app. split; [eapply List.Forall_impl; [|exact Ht]; intros x Hx; cbv beta in *; lia|repeat constructor; lia].
  - assert (Hold : Forall (justified (H ++ [a])) (events_rb s)) by (eapply List.Forall_impl; [|exact He]; intros x; apply justified_app).
    destruct Hev as [->|(e & -> & Hj)]; [exact Hold|]. apply Forall_app. split; [exact Hold|constructor; [exact Hj|constructor]].
Qed.

(** An alert at the end of the acts of its process. *)
Lemma alert_justified H lo c st n :
  let p := c_pid (f_c c) in let now := c_now (f_c c) in
  tracked H p st -> timed lo H -> lo <= now -> in_u 64 now -> 0 <= n ->
  now - window_start_ns st <= EXFIL_WINDOW_NS ->
  let st' := mk_st (window_start_ns st) true (u64 (bytes_sent st + n)) (sample_path st) (sensitive st)
                   (sensitive_path_count st) (paths_truncated st) (dest st) (dest_len st) in
  EXFIL_BYTE_THRESHOLD <= bytes_sent st' -> justified (H ++ [mk_act p now (Send n)]) (alert c st').
Proof.
  intros p now Hst Ht Hlo Hu Hn Hw st' Hb. pose proof (tracked_start H lo p st Ht Hst) as Hs. unfold in_u in Hu.
  destruct (tracked_app H p st (mk_act p now (Send n))) as [_ Hr]; [simpl; lia|exact Hn|exact Hst|].
  destruct Hst as [(pre & path & post & E & Hb0 & Hf & t & Hsam) _].
  assert (Hle : u64 (bytes_sent st + n) <= bytes_sent st + n) by (apply Z.mod_le; lia). split.
  - exists pre, (window_start_ns st), path, (post ++ [mk_act p now (Send n)]), []. cbn [alert xf_h h_pid xf_ts_ns xf_bytes_sent xf_sample_path xf_window_ms].
    fold p now. rewrite own_app, E, app_nil_r. cbn [own List.filter a_pid]. rewrite Z.eqb_refl, <- app_assoc. cbn [app].
    split; [reflexivity|]. split; [lia|]. split.
    { cbn [window_start_ns st']. rewrite (u64_small (now - window_start_ns st)) by (unfold in_u; lia). apply u32_small. unfold EXFIL_WINDOW_NS in Hw.
      split; [apply Z.div_pos; lia|apply Z.div_lt_upper_bound; lia]. }
    split; [rewrite sends_app; cbn [sends foldr amount a_kind bytes_sent st'] in *; lia|]. split.
    + apply Forall_app. split; [|repeat constructor; simpl; lia]. apply list.Forall_forall. intros a Ha.
      rewrite list.Forall_forall in Hf. specialize (Hf a Ha). split; [exact Hf|].
      assert (Hin : a ∈ H) by (apply (own_in p); rewrite E; apply elem_of_app; right; now right).
      unfold timed in Ht. rewrite list.Forall_forall in Ht. specialize (Ht a Hin). cbv beta in Ht. lia.
    + exists t. change (opened p t (sample_path st) ((mk_act p (window_start_ns st) (Open path) :: post) ++ [mk_act p now (Send n)])).
      now apply opened_app.
  - cbn [alert xf_sensitive_paths xf_ts_ns xf_h h_pid sensitive st']. fold p now. apply List.Forall_map.
    apply list.Forall_forall. intros x Hx. rewrite list.Forall_forall in Hr. destruct (recent now x) eqn:Erec; [|now left].
    destruct (Hr x Hx) as [Hx0|Hx0]; [now left|right]. exists (snd x). split; [|exact Hx0].
    assert (Hts : 0 <= snd x <= now).
    { apply elem_of_app in Hx0 as [Hx0|Hx0]; [|apply list_elem_of_singleton in Hx0; discriminate].
      unfold timed in Ht. rewrite list.Forall_forall in Ht. specialize (Ht _ Hx0). simpl in Ht. lia. }
    unfold recent in Erec. rewrite u64_small in Erec by (unfold in_u; lia). b2p. lia.
Qed.

Lemma invariant_send H lo c n s :
  invariant H lo s -> lo <= c_now (f_c c) -> 0 <= lo -> in_u 64 (c_now (f_c c)) -> 0 <= n ->
  invariant (H ++ [mk_act (c_pid (f_c c)) (c_now (f_c c)) (Send n)]) (c_now (f_c c)) (record_bytes c n s).
Proof.
  intros Hi Hlo H0 Hu Hn. pose proof Hi as [Hm Ht He]. set (p := c_pid (f_c c)). set (now := c_now (f_c c)) in *.
  set (a := mk_act p now (Send n)).
  change (invariant (H ++ [a]) (a_now a) (record_bytes c n s)).
  assert (Hx : forall st, exfil_map s !! p = Some st -> tracked (H ++ [a]) p st /\ 0 <= window_start_ns st <= lo).
  { intros st E. pose proof (tracked_start H lo p st Ht (Hm p st E)). split; [|lia]. apply tracked_app; [simpl; lia|exact Hn|now apply Hm]. }
  unfold record_bytes. fold p now. destruct (exfil_map s !! p) as [st|] eqn:E.
  2: { apply (invariant_put H lo s a p); auto; [simpl; lia|]. intros st E'. congruence. }
  destruct (Hx st eq_refl) as [Hst Hs]. unfold in_u in Hu. rewrite (u64_small (now - window_start_ns st)) by (unfold in_u; lia).
  assert (Hput : forall st' ev d, tracked (H ++ [a]) p st' ->
    (ev = events_rb s \/ exists e, ev = events_rb s ++ [e] /\ justified (H ++ [a]) e) ->
    invariant (H ++ [a]) (a_now a) (mk_state (<[p := st']> (exfil_map s)) (sock_fds s) ev d)).
  { intros st' ev d Hst' Hev. apply (invariant_put H lo s a p); cbn [exfil_map events_rb]; auto; [simpl; lia| |].
    - intros q Hq. now rewrite lookup_insert_ne.
    - intros st2 E2. rewrite lookup_insert_eq in E2. now injection E2 as <-. }
  assert (Hb0 : 0 <= bytes_sent st) by (destruct Hst as [(? & ? & ? & ? & ? & _) _]; lia).
  rewrite Z.gtb_ltb. destruct (Z.ltb_spec EXFIL_WINDOW_NS (now - window_start_ns st)) as [|Hw].
  { apply Hput; [|now left]. eapply tracked_same; [..|exact Hst]; try reflexivity; simpl; lia. }
  destruct (primed st); cbn [negb]; [|apply (invariant_put H lo s a p); auto; [simpl; lia|]; intros st' E'; rewrite E in E'; now injection E' as <-].
  set (st1 := mk_st _ true _ _ _ _ _ _ _). assert (Hst1 : tracked (H ++ [a]) p st1).
  { destruct (Hm p st E) as [(pre & path & post & E1 & Hb & Hf & t & Hsam) _]. destruct Hst as [_ Hr]. split; [|exact Hr].
    exists pre, path, (post ++ [a]). rewrite own_app, E1. cbn [own List.filter a_pid a]. rewrite Z.eqb_refl, <- app_assoc. cbn [app].
    split; [reflexivity|]. rewrite sends_app. cbn [sends foldr amount a_kind a bytes_sent st1 window_start_ns sample_path].
    assert (Hle : 0 <= u64 (bytes_sent st + n) <= bytes_sent st + n) by (split; [apply u64_range|apply Z.mod_le; lia]).
    split; [lia|]. split; [apply Forall_app; split; [exact Hf|repeat constructor; simpl; lia]|]. exists t.
    change (opened p t (sample_path st) ((mk_act p (window_start_ns st) (Open path) :: post) ++ [a])). now apply opened_app. }
  assert (Hsp : tracked (H ++ [a]) p (spent st1)).
  { eapply tracked_same; [..|exact Hst1]; try reflexivity. split; [reflexivity|apply u64_range]. }
  destruct (Z.ltb_spec (bytes_sent st1) EXFIL_BYTE_THRESHOLD) as [|Hthr]; [apply Hput; auto|].
  destruct (c_reserve (f_c c)); cbn [negb]; apply Hput; auto. right. eexists. split; [reflexivity|].
  apply (alert_justified H lo); auto.
Qed.

Lemma invariant_open H lo c path s :
  invariant H lo s -> lo <= c_now (f_c c) -> 0 <= lo -> in_u 64 (c_now (f_c c)) ->
  invariant (H ++ [mk_act (c_pid (f_c c)) (c_now (f_c c)) (Open path)]) (c_now (f_c c)) (arm_on_sensitive_read c path s).
Proof.
  intros Hi Hlo H0 Hu. pose proof Hi as [Hm Ht He]. set (p := c_pid (f_c c)). set (now := c_now (f_c c)) in *.
  set (a := mk_act p now (Open path)). change (invariant (H ++ [a]) (a_now a) (arm_on_sensitive_read c path s)).
  assert (Hput : forall st', tracked (H ++ [a]) p st' -> invariant (H ++ [a]) (a_now a) (put_st p st' s)).
  { intros st' Hst'. apply (invariant_put H lo s a p); 
      [exact Hi|exact Hlo|apply Z.le_refl|unfold a; cbn [a_now]; lia| | |now left].
    - intros q Hq. cbn [put_st exfil_map]. now rewrite lookup_insert_ne.
    - intros st2 E2. cbn [put_st exfil_map] in E2. rewrite lookup_insert_eq in E2. now injection E2 as <-. }
  unfold arm_on_sensitive_read. fold p now. destruct (exfil_map s !! p) as [st|] eqn:E.
  - pose proof (tracked_start H lo p st Ht (Hm p st E)) as Hs. apply Hput. rewrite Z.gtb_ltb.
    destruct (EXFIL_WINDOW_NS <? u64 (now - window_start_ns st)).
    + apply tracked_open. exact (tr_ring _ _ _ (Hm p st E)).
    + apply tracked_more; [lia|now apply Hm].
  - destruct (_ <? _)%nat; [|apply (invariant_put H lo s a p);
      [exact Hi|exact Hlo|apply Z.le_refl|unfold a; cbn [a_now]; lia|reflexivity|congruence|now left]].
    apply Hput, tracked_open. cbn [exfil_zero sensitive]. apply list.Forall_forall. intros x Hx.
    apply list_elem_of_In, repeat_spec in Hx. subst x. now left.
Qed.

Lemma iov_sum_nonneg fuel c : forall i total, 0 <= total -> 0 <= iov_sum fuel i c total.
Proof.
  induction fuel as [|fuel IH]; intros i total Ht; cbn [iov_sum]; [exact Ht|]. destruct (_ >=? _); [exact Ht|].
  destruct (c_mem _ _ _); [apply IH, u64_range|exact Ht].
Qed.

(** Hits in clock order. *)
Fixpoint ticks (lo : Z) (hits : list (probe * fctx)) : Prop :=
  match hits with [] => True | h :: hits => lo <= c_now (f_c (snd h)) < 2 ^ 64 /\ ticks (c_now (f_c (snd h))) hits end.

Section Alerts.
Context (uids pids : gset Z) (junk : fctx -> list byte).
Notation run_probe := (run_probe uids pids junk).
Notation acts := (acts uids pids junk).

Lemma invariant_later H lo hi s : lo <= hi -> invariant H lo s -> invariant H hi s.
Proof.
  intros Hl [Hm Ht He]. split; auto. eapply List.Forall_impl; [|exact Ht]. intros a Ha. cbv beta in *. lia.
Qed.
Lemma invariant_quiet H lo s s' :
  (forall p st, exfil_map s' !! p = Some st -> tracked H p st) -> events_rb s' = events_rb s -> invariant H lo s -> invariant H lo s'.
Proof. intros Hm He [_ Ht Hj]. split; auto. now rewrite He. Qed.

Lemma invariant_step H lo s h :
  invariant H lo s -> 0 <= lo -> lo <= c_now (f_c (snd h)) < 2 ^ 64 ->
  invariant (H ++ option_list (act_of uids pids junk s h)) (c_now (f_c (snd h))) (run_probe s h).
Proof.
  destruct h as [pr c]. cbn [snd]. intros Hi H0 Hlo. assert (Hu : in_u 64 (c_now (f_c c))) by (unfold in_u; lia).
  assert (Hq : invariant (H ++ []) (c_now (f_c c)) s) by (rewrite app_nil_r; eapply invariant_later; [|exact Hi]; lia).
  assert (Hopen : invariant (H ++ option_list (act_of uids pids junk s (Openat, c))) (c_now (f_c c)) (on_openat uids pids junk c s)).
  { unfold act_of, on_openat. cbn [fst snd]. destruct (gate _ _ _); [exact Hq|]. destruct (c_str _ _) as [path|]; [|exact Hq].
    destruct (path_is_sensitive _); [|exact Hq]. now apply invariant_open with (lo := lo). }
  unfold run_probe, act_of in *. cbn [fst snd] in *. destruct pr; try exact Hopen.
  - unfold on_connect. assert (Hg : forall b : bool, (if b then None else @None act) = None) by now intros []. rewrite Hg. cbn [option_list].
    destruct (gate _ _ _); [exact Hq|]. destruct (_ =? 0); [exact Hq|]. destruct (c_mem _ _ _); [|exact Hq].
    destruct (sockaddr_is_loopback _); [exact Hq|]. apply (invariant_quiet _ _ s); [|reflexivity|exact Hq]. cbn [exfil_map].
    destruct (exfil_map s !! c_pid (f_c c)) as [st|] eqn:E; [|apply Hq]. intros p st' E'.
    destruct (Z.eq_dec p (c_pid (f_c c))) as [->|Hne]; [|rewrite lookup_insert_ne in E' by congruence; now apply (inv_map _ _ _ Hq)].
    rewrite lookup_insert_eq in E'. injection E' as <-. pose proof (inv_map _ _ _ Hq _ _ E) as Hst.
    eapply tracked_same; [..|exact Hst]; try reflexivity. cbn [bytes_sent].
    destruct Hst as [(? & ? & ? & _ & ? & _) _]. lia.
  - unfold on_sendto. destruct (gate _ _ _); [exact Hq|]. destruct (sendto_len c) as [n|] eqn:En; [|exact Hq].
    apply invariant_send with (lo := lo); auto; [lia|]. unfold sendto_len in En. destruct (_ && _); [discriminate|].
    injection En as <-. apply u64_range.
  - unfold on_write. destruct (gate _ _ _); [exact Hq|]. destruct (sock_fds s !! _); [|exact Hq].
    apply invariant_send with (lo := lo); auto; [lia|apply u64_range].
  - unfold on_writev. destruct (gate _ _ _); [exact Hq|]. destruct (sock_fds s !! _); [|exact Hq].
    apply invariant_send with (lo := lo); auto; [lia|apply iov_sum_nonneg; lia].
  - unfold on_close. destruct (gate _ _ _); [exact Hq|]. apply (invariant_quiet _ _ s); [|reflexivity|exact Hq]. apply Hq.
Qed.

Lemma invariant_run hits : forall H lo s,
  invariant H lo s -> 0 <= lo -> ticks lo hits -> exists hi, invariant (H ++ acts s hits) hi (run uids pids junk s hits).
Proof.
  induction hits as [|h hits IH]; intros H lo s Hi H0 Ht; cbn [Exfil.acts]; [rewrite app_nil_r; eauto|].
  destruct Ht as [Hh Ht]. destruct (IH _ _ _ (invariant_step H lo s h Hi H0 Hh)) as [hi Hhi]; [lia|exact Ht|].
  exists hi. rewrite app_assoc. exact Hhi.
Qed.
End Alerts.


(** ** Every burst is reported *)

Lemma sends_open p q t path : sends (own p (option_list (Some (mk_act q t (Open path))))) = 0.
Proof. change (option_list (Some (mk_act q t (Open path)))) with [mk_act q t (Open path)]. unfold own. cbn [List.filter a_pid]. now destruct (q =? p). Qed.

(** Process [p] is armed since [t0] and has [b] bytes counted. *)
Definition armed (p t0 b : Z) (s : state) : Prop :=
  exists st, exfil_map s !! p = Some st /\ window_start_ns st = t0 /\ primed st = true /\ bytes_sent st = b.
(** A step that submits an alert of [p] or counts its loss. *)
Definition reports (p : Z) (c : fctx) (s s' : state) : Prop :=
  (exists e, events_rb s' = events_rb s ++ [e] /\ h_pid (xf_h e) = p) \/
  (c_reserve (f_c c) = false /\ events_rb s' = events_rb s /\ drops s' = u64 (drops s + 1)).

Definition within (t0 : Z) (c : fctx) : Prop := t0 <= c_now (f_c c) <= t0 + EXFIL_WINDOW_NS /\ 0 <= t0 /\ in_u 64 (c_now (f_c c)).
Lemma within_fresh t0 c : within t0 c -> u64 (c_now (f_c c) - t0) >? EXFIL_WINDOW_NS = false.
Proof.
  unfold within, in_u. intros (H1 & H2 & H3). rewrite u64_small by (unfold in_u; lia). rewrite Z.gtb_ltb. apply Z.ltb_ge. lia.
Qed.

Lemma armed_send p t0 b c n s :
  armed p t0 b s -> within t0 c -> c_pid (f_c c) = p -> 0 <= b -> 0 <= n -> b + n < 2 ^ 64 ->
  if b + n <? EXFIL_BYTE_THRESHOLD then armed p t0 (b + n) (record_bytes c n s) else reports p c s (record_bytes c n s).
Proof.
  intros (st & E & Hw & Hp & Hb) Hin Hpid H0 Hn Hs. unfold record_bytes. rewrite Hpid, E, Hw, (within_fresh t0 c Hin), Hp. cbn [negb bytes_sent].
  rewrite Hb, u64_small by (unfold in_u; lia). destruct (Z.ltb_spec (b + n) EXFIL_BYTE_THRESHOLD).
  - eexists. cbn [put_st exfil_map]. rewrite lookup_insert_eq. split; [reflexivity|]. auto.
  - destruct (c_reserve (f_c c)) eqn:Er; cbn [negb]; [left; eexists; split; [reflexivity|exact Hpid]|right; auto].
Qed.

Lemma armed_open p t0 b c path s :
  armed p t0 b s -> (c_pid (f_c c) = p -> within t0 c) -> armed p t0 b (arm_on_sensitive_read c path s).
Proof.
  intros (st & E & Hw & Hp & Hb) Hin. unfold arm_on_sensitive_read. destruct (Z.eq_dec (c_pid (f_c c)) p) as [Hpid|Hne].
  - rewrite Hpid, E, Hw, (within_fresh t0 c (Hin Hpid)). eexists. cbn [put_st exfil_map]. rewrite lookup_insert_eq.
    split; [reflexivity|]. auto.
  - assert (Hput : forall x, armed p t0 b (put_st (c_pid (f_c c)) x s))
      by (intros x; exists st; cbn [put_st exfil_map]; rewrite lookup_insert_ne by exact Hne; auto).
    destruct (exfil_map s !! c_pid (f_c c)); [apply Hput|]. destruct (_ <? _)%nat; [apply Hput|]. now exists st.
Qed.

Lemma armed_other p t0 b c n s : armed p t0 b s -> c_pid (f_c c) <> p -> armed p t0 b (record_bytes c n s).
Proof.
  intros (st & E & Hst) Hne. unfold record_bytes. destruct (exfil_map s !! c_pid (f_c c)); [|now exists st].
  destruct (_ >? _); [|destruct (negb _); [|destruct (_ <? _); [|destruct (negb _)]]];
    exists st; cbn [put_st exfil_map]; rewrite ?lookup_insert_ne by exact Hne; auto.
Qed.

Section Bursts.
Context (uids pids : gset Z) (junk : fctx -> list byte).
Notation run_probe := (run_probe uids pids junk).
Notation act_of := (act_of uids pids junk).

(** What a hit adds to the bytes of [p]. *)
Lemma armed_step p t0 b s h :
  armed p t0 b s -> within t0 (snd h) -> 0 <= b -> b + sends (own p (option_list (act_of s h))) < 2 ^ 64 ->
  (armed p t0 (b + sends (own p (option_list (act_of s h)))) (run_probe s h) /\
   0 <= sends (own p (option_list (act_of s h))) /\
   b + sends (own p (option_list (act_of s h))) < Z.max EXFIL_BYTE_THRESHOLD (b + 1)) \/
  (c_pid (f_c (snd h)) = p /\ reports p (snd h) s (run_probe s h)).
Proof.
  destruct h as [pr c]. cbn [snd]. intros Ha Hin H0.
  assert (Hquiet : forall s', armed p t0 b s' -> (armed p t0 (b + 0) s' /\ 0 <= 0 /\ b + 0 < Z.max EXFIL_BYTE_THRESHOLD (b + 1)) \/
                                               (c_pid (f_c c) = p /\ reports p c s s'))
    by (intros s' Hs'; left; rewrite Z.add_0_r; split; [exact Hs'|lia]).
  assert (Hsend : forall n, 0 <= n -> b + sends (own p [mk_act (c_pid (f_c c)) (c_now (f_c c)) (Send n)]) < 2 ^ 64 ->
    (armed p t0 (b + sends (own p [mk_act (c_pid (f_c c)) (c_now (f_c c)) (Send n)])) (record_bytes c n s) /\
     0 <= sends (own p [mk_act (c_pid (f_c c)) (c_now (f_c c)) (Send n)]) /\
     b + sends (own p [mk_act (c_pid (f_c c)) (c_now (f_c c)) (Send n)]) < Z.max EXFIL_BYTE_THRESHOLD (b + 1)) \/
    (c_pid (f_c c) = p /\ reports p c s (record_bytes c n s))).
  { intros n Hn. cbn [own List.filter a_pid]. destruct (Z.eqb_spec (c_pid (f_c c)) p) as [E|E]; cbn [sends foldr amount a_kind].
    - rewrite Z.add_0_r. intros Hs. pose proof (armed_send p t0 b c n s Ha Hin E H0 Hn Hs) as H.
      destruct (Z.ltb_spec (b + n) EXFIL_BYTE_THRESHOLD); [left; split; [exact H|lia]|right; auto].
    - intros _. apply Hquiet. now apply armed_other. }
  unfold Exfil.run_probe, Exfil.act_of. cbn [fst snd].
  assert (Hz : forall b : bool, sends (own p (option_list (if b then None else @None act))) = 0) by now intros [].
  destruct pr; cbn [Exfil.run_probe fst snd].
  1, 2: unfold on_openat2, on_openat; destruct (gate _ _ _); [intros _; now apply Hquiet|];
    destruct (c_str _ _) as [path|]; [|intros _; now apply Hquiet]; destruct (path_is_sensitive _); [|intros _; now apply Hquiet];
    rewrite sends_open; intros _; apply Hquiet; now apply armed_open.
  - rewrite Hz. intros _. apply Hquiet. unfold on_connect. destruct (gate _ _ _); [exact Ha|]. destruct (_ =? 0); [exact Ha|].
    destruct (c_mem _ _ _); [|exact Ha]. destruct (sockaddr_is_loopback _); [exact Ha|]. destruct Ha as (st & E & Hst).
    destruct (Z.eq_dec (c_pid (f_c c)) p) as [->|Hne].
    + unfold armed. cbn [exfil_map]. rewrite E, lookup_insert_eq. eexists. split; [reflexivity|exact Hst].
    + exists st. cbn [exfil_map]. destruct (exfil_map s !! c_pid (f_c c)); rewrite ?lookup_insert_ne by exact Hne; auto.
  - unfold on_sendto. destruct (gate _ _ _); [intros _; now apply Hquiet|]. unfold sendto_len.
    destruct (_ && _); [intros _; now apply Hquiet|]. apply Hsend, u64_range.
  - unfold on_write. destruct (gate _ _ _); [intros _; now apply Hquiet|]. destruct (sock_fds s !! _); [|intros _; now apply Hquiet].
    apply Hsend, u64_range.
  - unfold on_writev. destruct (gate _ _ _); [intros _; now apply Hquiet|]. destruct (sock_fds s !! _); [|intros _; now apply Hquiet].
    apply Hsend, iov_sum_nonneg. lia.
  - rewrite Hz. intros _. apply Hquiet. unfold on_close. destruct (gate _ _ _); [exact Ha|]. exact Ha.
Qed.

Lemma burst_reported p t0 hits : forall b s,
  armed p t0 b s -> 0 <= b < EXFIL_BYTE_THRESHOLD -> Forall (fun h => within t0 (snd h)) hits ->
  EXFIL_BYTE_THRESHOLD <= b + sends (own p (acts uids pids junk s hits)) < 2 ^ 64 ->
  exists l h r, hits = l ++ h :: r /\ c_pid (f_c (snd h)) = p /\
    reports p (snd h) (run uids pids junk s l) (run_probe (run uids pids junk s l) h).
Proof.
  induction hits as [|h hits IH]; intros b s Ha Hb Hin Hs; cbn [acts] in Hs; [simpl in Hs; lia|].
  apply list.Forall_cons in Hin as [Hh Hin]. rewrite own_app, sends_app in Hs.
  assert (Hrest : forall l s', 0 <= sends (own p (acts uids pids junk s' l))).
  { clear. induction l as [|h l IH]; intros s'; cbn [acts]; [reflexivity|]. rewrite own_app, sends_app. specialize (IH (run_probe s' h)).
    enough (0 <= sends (own p (option_list (act_of s' h)))) by lia. clear IH. destruct (act_of s' h) as [a|] eqn:E; [|reflexivity].
    assert (Hn : 0 <= amount a).
    { unfold Exfil.act_of in E. destruct (gate _ _ _); [discriminate|]. destruct (fst h); try discriminate.
      1, 2: destruct (c_str _ _); [|discriminate]; destruct (path_is_sensitive _); [|discriminate]; injection E as <-; apply Z.le_refl.
      - unfold sendto_len in E. destruct (_ && _); [discriminate|]. injection E as <-. apply u64_range.
      - destruct (sock_fds s' !! _); [|discriminate]. injection E as <-. apply u64_range.
      - destruct (sock_fds s' !! _); [|discriminate]. apply (inj Some) in E. rewrite <- E. apply (iov_sum_nonneg 8 (snd h) 0 0). apply Z.le_refl. }
    change (option_list (Some a)) with [a]. unfold own. cbn [List.filter]. destruct (a_pid a =? p); cbn [sends foldr]; lia. }
  specialize (Hrest hits (run_probe s h)).
  destruct (armed_step p t0 b s h Ha Hh) as [(Ha' & Hn & Hlt)|[Hpid Hrep]]; [lia|lia| |].
  - destruct (IH _ _ Ha') as (l & h' & r & -> & Hp & Hr); [lia|exact Hin|lia|]. exists (h :: l), h', r. auto.
  - exists [], h, hits. auto.
Qed.
End Bursts.


(** Process 7: registers, clock and the memory its pointers reach. *)
Definition demo (now : Z) (regs : list Z) (path addr : list byte) : fctx :=
  mk_fctx (mk_ctx 10001 (Z.shiftl 7 32 + 7) 0 0 regs now true (fun a => if a =? 0x7000 then Some path else None)
             (fun a n => if a =? 0x8000 then Some (take (Z.to_nat n) addr) else None)) false [] (bytes_of "app") 1 0 0.
Definition demo_inet : list byte := map zb [2; 0; 1; 0xbb; 93; 184; 216; 34] ++ repeat x00 20.
Definition demo_open (now : Z) : fctx := demo now [0; 0x7000] (bytes_of "/sdcard/DCIM/a.jpg") [].
Definition demo_connect (now len : Z) : probe * fctx := (Connect, demo now [5; 0x8000; len] [] demo_inet).
Definition demo_write (now n : Z) : probe * fctx := (Write, demo now [5; 0; n] [] []).
Definition no_junk (c : fctx) : list byte := [].
Definition watch := run {[10001]} ∅ no_junk start.



(** An address length that is a multiple of 32 is masked to nothing: the socket is not
    followed and a megabyte over it raises no alert, although the kernel accepts the
    longer length. *)
Theorem exfil_long_address_hides_socket :
  let hits len := [(Openat, demo_open 10); demo_connect 20 len; demo_write 30 1000000] in
  length (events_rb (watch (hits 16))) = 1%nat /\ events_rb (watch (hits 128)) = [].
Proof. vm_compute. auto. Qed.

(** Opening another sensitive file does not extend the window: a read at 29 seconds and a
    megabyte two seconds later go unreported because an earlier read began the window. *)
Theorem exfil_late_read_is_missed :
  let s := 1000000000 in
  let tail := [demo_connect (29 * s + 1) 16; demo_write (31 * s) 1000000] in
  length (events_rb (watch ((Openat, demo_open (29 * s)) :: tail))) = 1%nat /\
  events_rb (watch ((Openat, demo_open 0) :: (Openat, demo_open (29 * s)) :: tail)) = [].
Proof. vm_compute. auto. Qed.

(** A length close to 2^64 wraps the counter of a process below the threshold again. *)
Theorem exfil_counter_wraps :
  let hits := [(Openat, demo_open 10); demo_connect 20 16; demo_write 30 500000; demo_write 40 (2 ^ 64 - 500000); demo_write 50 500000] in
  events_rb (watch hits) = [].
Proof. vm_compute. reflexivity. Qed.

(** The search runs past the end of the string: what an earlier path left on the stack
    makes a harmless path sensitive. *)
Theorem exfil_stale_bytes_match :
  path_is_sensitive (bytes_of "/sdcard/a" ++ [x00] ++ bytes_of "wallet") = true /\
  path_is_sensitive (bytes_of "/sdcard/a" ++ [x00]) = false.
Proof. vm_compute. auto. Qed.

(** The reported count is the number of recent ring entries, at most 32, also when more
    paths were opened. *)
Theorem exfil_count_is_not_the_total :
  let hits := repeat (Openat, demo_open 10) 40 ++ [demo_connect 20 16; demo_write 30 1000000] in
  map (fun e => (xf_sensitive_path_count e, xf_paths_truncated e)) (events_rb (watch hits)) = [(32, true)].
Proof. vm_compute. reflexivity. Qed.
End Exfil.
