(* ===== verification/Fileless.v ===== *)
(** * Fileless: anonymous executable mappings and screen-capture sessions
    (src/modules/fileless_detect.bpf.c, fileless_detect.c,
    screencapture_detect_parse.c, screencapture_detect.c, screencapture_detect.bpf.c)

    Two analyzers whose alerts come from a polling thread.  The mmap programs keep the
    executable anonymous mappings of the traced processes as candidates, a prctl that
    names one for ART removes it, and the thread reports those that stay a quarter of a
    second.  The other thread parses what [dumpsys] prints. *)

From Stdlib Require Import ZArith Lia.
From stdpp Require Import base list option numbers gmap.
From S2P Require Import Prelude Elf SpanStack Correlate Modules Json ModEvents Tally Funcs.

Local Open Scope Z_scope.

Module Fileless.

Definition FILELESS_PROT_EXEC := 4.
Definition FILELESS_PR_SET_VMA := 0x53564d41.
Definition FILELESS_PR_SET_VMA_ANON_NAME := 0.
Definition FILELESS_DETECT_GRACE_NS := 250 * 1000000.
Definition FILELESS_DETECT_TAG_LEN := 32.
Definition ENTRY_SCRATCH_CAP : nat := 256.
Definition PENDING_CAP : nat := 1024.

(** ** The kernel programs *)

(** [struct fileless_pending_key]: the process and the address. *)
Notation fileless_pending_key := (Z * Z)%type.
Record fileless_pending_val := mk_val { v_ts_ns : Z; v_size : Z; v_comm : list byte }.
Record fileless_entry_scratch := mk_scratch { sc_len : Z; sc_anon : bool }.
Record state := mk_state {
  entry_scratch : gmap Z fileless_entry_scratch; pending_map : gmap fileless_pending_key fileless_pending_val;
  stats : list fileless_stat_t; emitted : list fileless_detect_event
}.
Definition start : state := mk_state ∅ ∅ [] [].

(** [do_mmap]'s arguments are its own, not the registers of a system call. *)
Record mmap_args := mk_mmap { m_file : Z; m_len : Z; m_prot : Z }.

Section Probes.
Context (uids pids : gset Z).

Definition on_do_mmap_entry (c : fctx) (a : mmap_args) (s : state) : state :=
  if gate uids pids (f_c c) then s else
  if Z.land (m_prot a) FILELESS_PROT_EXEC =? 0 then s else
  mk_state (map_update ENTRY_SCRATCH_CAP (c_id (f_c c)) (mk_scratch (m_len a) (m_file a =? 0)) (entry_scratch s))
    (pending_map s) (stats s) (emitted s).

Definition on_do_mmap_exit (c : fctx) (ret : Z) (s : state) : state :=
  match entry_scratch s !! c_id (f_c c) with
  | None => s
  | Some local =>
      let es := delete (c_id (f_c c)) (entry_scratch s) in
      if negb (sc_anon local) || (ret <=? 0) then mk_state es (pending_map s) (stats s) (emitted s) else
      mk_state es (map_update PENDING_CAP (c_pid (f_c c), u64 ret) (mk_val (c_now (f_c c)) (sc_len local) (f_comm c)) (pending_map s))
        (stats s) (emitted s)
  end.

Definition on_prctl (c : fctx) (s : state) : state :=
  if gate uids pids (f_c c) then s else
  if negb (reg (f_c c) 0 =? FILELESS_PR_SET_VMA) then s else
  if negb (reg (f_c c) 1 =? FILELESS_PR_SET_VMA_ANON_NAME) then s else
  let tag := match c_str (f_c c) (untag (reg (f_c c) 4)) with Some t => take 31 t | None => [] end in
  if negb (is_prefix (bytes_of "dalvik") tag) then s else
  mk_state (entry_scratch s) (delete (c_pid (f_c c), reg (f_c c) 2) (pending_map s)) (stats s) (emitted s).
End Probes.

(** ** The polling thread *)

Definition fileless_emit_one (k : fileless_pending_key) (v : fileless_pending_val) (s : state) : state :=
  let e := mk_fileless (mk_hdr MOD_EV_FILELESS_DETECT (fst k) (fst k)) (v_ts_ns v) (C_TASK_COMM (v_comm v)) (snd k) (v_size v) [] in
  mk_state (entry_scratch s) (pending_map s) (fileless_stat_add (fst k, v_comm v) (stats s)) (emitted s ++ [e]).

(** [bpf_map_get_next_key]: the key after the given one in the map's own order, the
    first one when the given one is not there; [clock n] is the n-th reading. *)
Section Poll.
Context (order : gmap fileless_pending_key fileless_pending_val -> list fileless_pending_key) (clock : nat -> Z).

Fixpoint after (k : fileless_pending_key) (l : list fileless_pending_key) : option (list fileless_pending_key) :=
  match l with [] => None | x :: l => if bool_decide (x = k) then Some l else after k l end.
Definition rest (k : fileless_pending_key) (l : list fileless_pending_key) : list fileless_pending_key := default l (after k l).
Definition mature (now : Z) (v : fileless_pending_val) : bool := u64 (now - v_ts_ns v) >=? FILELESS_DETECT_GRACE_NS.

(** One pass of the inner loop from [key]; [None] when the fuel ran out. *)
Fixpoint walk (fuel n : nat) (key : fileless_pending_key) (s : state) : option state :=
  match fuel with
  | O => None
  | S fuel =>
      match rest key (order (pending_map s)) with
      | [] => Some s
      | next_key :: _ =>
          match pending_map s !! next_key with
          | Some v =>
              if mature (clock n) v then
                let s := fileless_emit_one next_key v s in
                walk fuel (S n) (0, 0)
                  (mk_state (entry_scratch s) (delete next_key (pending_map s)) (stats s) (emitted s))
              else walk fuel (S n) next_key s
          | None => walk fuel n next_key s
          end
      end
  end.
Definition poll_fuel (s : state) : nat := S (size (pending_map s) * S (size (pending_map s)) + size (pending_map s)).
Definition fileless_poll (s : state) : option state := walk (poll_fuel s) 0 (0, 0) s.
End Poll.

(** ** One pass *)

Definition alert_of (kv : fileless_pending_key * fileless_pending_val) : fileless_detect_event :=
  let '(k, v) := kv in
  mk_fileless (mk_hdr MOD_EV_FILELESS_DETECT (fst k) (fst k)) (v_ts_ns v) (C_TASK_COMM (v_comm v)) (snd k) (v_size v) [].

Lemma after_split k a b : k ∉ a -> after k (a ++ k :: b) = Some b.
Proof.
  induction a as [|x a IH]; intros H; simpl; [now rewrite bool_decide_true|]. apply not_elem_of_cons in H as [H1 H2].
  rewrite bool_decide_false by congruence. now apply IH.
Qed.
Lemma after_none k l : k ∉ l -> after k l = None.
Proof.
  induction l as [|x l IH]; intros H; simpl; [reflexivity|]. apply not_elem_of_cons in H as [H1 H2].
  rewrite bool_decide_false by congruence. now apply IH.
Qed.

Section Pass.
Context (order : gmap fileless_pending_key fileless_pending_val -> list fileless_pending_key) (clock : nat -> Z).
Hypothesis order_keys : forall m, order m ≡ₚ (map_to_list m).*1.
Hypothesis clock_up : forall i j, (i <= j)%nat -> clock i <= clock j.
Hypothesis clock_u64 : forall i, in_u 64 (clock i).

Lemma order_NoDup m : NoDup (order m).
Proof. rewrite order_keys. apply NoDup_fst_map_to_list. Qed.
Lemma order_in m k : k ∈ order m <-> is_Some (m !! k).
Proof.
  rewrite order_keys, list_elem_of_fmap. split.
  - intros ([k' v] & -> & H). apply elem_of_map_to_list in H. eauto.
  - intros [v H]. exists (k, v). split; [reflexivity|]. now apply elem_of_map_to_list.
Qed.
Lemma order_size m : length (order m) = size m.
Proof. rewrite order_keys, length_fmap. now rewrite length_map_to_list. Qed.

(** Where the walk stands: what it passed was too young when the pass began. *)
Record walking (n : nat) (done left : list fileless_pending_key) (s : state) : Prop := {
  wk_split : order (pending_map s) = done ++ left;
  wk_zero : pending_map s !! (0, 0) = None;
  wk_young : forall k v, k ∈ done -> pending_map s !! k = Some v -> clock 0 - v_ts_ns v < FILELESS_DETECT_GRACE_NS;
  wk_ts : forall k v, pending_map s !! k = Some v -> 0 <= v_ts_ns v <= clock 0
}.
Definition stands (key : fileless_pending_key) (done : list fileless_pending_key) : Prop :=
  done = [] /\ key = (0, 0) \/ exists d, done = d ++ [key].

Lemma stands_rest n key done left s : walking n done left s -> stands key done -> rest key (order (pending_map s)) = left.
Proof.
  intros [E Hz _ _] [[-> ->]|[d ->]]; unfold rest.
  - rewrite after_none; [now rewrite E|]. intros H. apply order_in in H. destruct H as [w H]. congruence.
  - pose proof (order_NoDup (pending_map s)) as Hn. rewrite E, <- app_assoc in *. cbn [app] in *. rewrite after_split; [reflexivity|].
    apply NoDup_app in Hn as (_ & Hn & _). intros Hk. apply (Hn key Hk). now left.
Qed.

Lemma mature_spec n v : 0 <= v_ts_ns v <= clock 0 -> mature (clock n) v = (FILELESS_DETECT_GRACE_NS <=? clock n - v_ts_ns v).
Proof.
  intros H. pose proof (clock_u64 n) as Hu. pose proof (clock_up 0 n ltac:(lia)). unfold in_u in Hu. unfold mature.
  rewrite u64_small by (unfold in_u; lia). apply Z.geb_leb.
Qed.

(** What a pass from [s] reports, and what it leaves. *)
Record passed (s s' : state) (r : list (fileless_pending_key * fileless_pending_val)) : Prop := {
  ps_emitted : emitted s' = emitted s ++ map alert_of r;
  ps_stats : stats s' = foldl (fun t kv => fileless_stat_add (fst (fst kv), v_comm (snd kv)) t) (stats s) r;
  ps_scratch : entry_scratch s' = entry_scratch s;
  ps_once : NoDup (map fst r);
  ps_real : forall k v, (k, v) ∈ r -> pending_map s !! k = Some v /\ pending_map s' !! k = None /\
            exists i, FILELESS_DETECT_GRACE_NS <= clock i - v_ts_ns v;
  ps_kept : forall k v, pending_map s' !! k = Some v -> pending_map s !! k = Some v;
  ps_all : forall k v, pending_map s !! k = Some v ->
            (k, v) ∈ r \/ pending_map s' !! k = Some v /\ clock 0 - v_ts_ns v < FILELESS_DETECT_GRACE_NS
}.

Lemma passed_report k v s s' r :
  pending_map s !! k = Some v -> (exists i, FILELESS_DETECT_GRACE_NS <= clock i - v_ts_ns v) ->
  passed (mk_state (entry_scratch s) (delete k (pending_map s)) (fileless_stat_add (fst k, v_comm v) (stats s)) (emitted s ++ [alert_of (k, v)])) s' r ->
  passed s s' ((k, v) :: r).
Proof.
  intros Hk Hm [H1 H2 H3 H4 H5 H6 H7]. cbn [entry_scratch pending_map stats emitted] in *.
  assert (Hk' : pending_map s' !! k = None).
  { destruct (pending_map s' !! k) as [w|] eqn:E; [|reflexivity]. apply H6 in E. now rewrite lookup_delete_eq in E. }
  split.
  - rewrite H1, <- app_assoc. reflexivity.
  - exact H2.
  - exact H3.
  - cbn [map fst]. constructor; [|exact H4]. intros Hin. apply list_elem_of_fmap in Hin as ([k' v'] & Ek & Hin). cbn in Ek. subst k'.
    destruct (H5 k v' Hin) as [E _]. now rewrite lookup_delete_eq in E.
  - intros k' v' [[= -> ->]|Hin]%elem_of_cons; [auto|]. destruct (H5 k' v' Hin) as (E & E2 & E3). apply lookup_delete_Some in E as [_ E]. auto.
  - intros k' v' E. apply H6, lookup_delete_Some in E as [_ E]. exact E.
  - intros k' v' E. destruct (decide (k' = k)) as [->|Hne]; [rewrite Hk in E; injection E as <-; left; now left|].
    destruct (H7 k' v') as [Hin|Hr]; [now rewrite lookup_delete_ne|left; now right|now right].
Qed.

Lemma walk_passes N : forall fuel n key done left s,
  walking n done left s -> stands key done -> (size (pending_map s) <= N)%nat ->
  (size (pending_map s) * S N + length left < fuel)%nat ->
  exists s' r, walk order clock fuel n key s = Some s' /\ passed s s' r.
Proof.
  induction fuel as [|fuel IH]; intros n key done left s Hw Hs HN Hf; [lia|]. cbn [walk]. rewrite (stands_rest n key done left s Hw Hs).
  pose proof Hw as [E Hz Hy Hts]. destruct left as [|k left].
  - exists s, []. split; [reflexivity|]. split; auto; try (intros ? ? H; now apply elem_of_nil in H).
    + now rewrite app_nil_r.
    + constructor.
    + intros k v Hk. right. split; [exact Hk|]. apply (Hy k v); [|exact Hk]. assert (Hin : k ∈ order (pending_map s)) by (apply order_in; eauto).
      now rewrite E, app_nil_r in Hin.
  - assert (Hin : k ∈ order (pending_map s)) by (rewrite E; apply elem_of_app; right; now left).
    apply order_in in Hin as [v Hv]. rewrite Hv. pose proof (Hts k v Hv) as Hv0. rewrite (mature_spec n v Hv0).
    destruct (Z.leb_spec FILELESS_DETECT_GRACE_NS (clock n - v_ts_ns v)) as [Hm|Hm].
    + cbn [fileless_emit_one entry_scratch pending_map stats emitted].
      set (s1 := mk_state _ (delete k (pending_map s)) _ _).
      assert (Hsz : size (pending_map s) = S (size (delete k (pending_map s)))).
      { rewrite map_size_delete_Some by eauto. assert (Hne : size (pending_map s) <> 0%nat) by (apply map_size_ne_0_lookup_2 with k; eauto).
        lia. }
      destruct (IH (S n) (0, 0) [] (order (delete k (pending_map s))) s1) as (s' & r & Ew & Hp).
      * split; cbn [pending_map s1]; [reflexivity| | |].
        -- rewrite lookup_delete_None. now right.
        -- intros ? ? H. now apply elem_of_nil in H.
        -- intros k' v' H. apply lookup_delete_Some in H as [_ H]. now apply Hts in H.
      * now left.
      * cbn [pending_map s1]. lia.
      * cbn [pending_map s1]. rewrite order_size, Hsz in *. nia.
      * exists s', ((k, v) :: r). split; [exact Ew|]. apply passed_report; eauto.
    + destruct (IH (S n) k (done ++ [k]) left s) as (s' & r & Ew & Hp); [|right; eauto|exact HN|cbn [length] in Hf; lia|eauto].
      split; auto; [now rewrite <- app_assoc|]. intros k' v' [H|H%list_elem_of_singleton]%elem_of_app Hk'; [now apply (Hy k')|].
      subst k'. rewrite Hv in Hk'. injection Hk' as <-. pose proof (clock_up 0 n ltac:(lia)). lia.
Qed.

(** A pass always ends, within the fuel of [fileless_poll]. *)
Lemma poll_passes s :
  pending_map s !! (0, 0) = None -> (forall k v, pending_map s !! k = Some v -> 0 <= v_ts_ns v <= clock 0) ->
  exists s' r, fileless_poll order clock s = Some s' /\ passed s s' r.
Proof.
  intros Hz Hts. apply (walk_passes (size (pending_map s)) _ 0 (0, 0) [] (order (pending_map s))).
  - split; auto. intros ? ? H. now apply elem_of_nil in H.
  - now left.
  - lia.
  - rewrite order_size. unfold poll_fuel. lia.
Qed.
End Pass.

(** ** What happened to a mapping *)

Inductive hit :=
| Entry (c : fctx) (a : mmap_args) | Exit (c : fctx) (ret : Z) | Prctl (c : fctx) | Poll (clock : nat -> Z).
Inductive happening := Created (k : fileless_pending_key) (v : fileless_pending_val) | Suppressed (k : fileless_pending_key) | Reported (k : fileless_pending_key).

(** The candidate of a key after a history: its last mapping, unless named or reported since. *)
Definition live_step (k : fileless_pending_key) (o : option fileless_pending_val) (x : happening) : option fileless_pending_val :=
  match x with
  | Created k' v => if bool_decide (k' = k) then Some v else o
  | Suppressed k' | Reported k' => if bool_decide (k' = k) then None else o
  end.
Definition live (H : list happening) (k : fileless_pending_key) : option fileless_pending_val := foldl (live_step k) None H.

Section Runs.
Context (order : gmap fileless_pending_key fileless_pending_val -> list fileless_pending_key) (uids pids : gset Z).
Hypothesis order_keys : forall m, order m ≡ₚ (map_to_list m).*1.

Definition step (s : state) (h : hit) : option state :=
  match h with
  | Entry c a => Some (on_do_mmap_entry uids pids c a s)
  | Exit c ret => Some (on_do_mmap_exit c ret s)
  | Prctl c => Some (on_prctl uids pids c s)
  | Poll clock => fileless_poll order clock s
  end.
Fixpoint run (s : state) (hits : list hit) : option state :=
  match hits with [] => Some s | h :: hits => match step s h with Some s => run s hits | None => None end end.

(** What a hit did, told from the programs' conditions; a mapping that finds the table
    of candidates full leaves no trace. *)
Definition happened (s : state) (h : hit) : list happening :=
  match h with
  | Entry _ _ => []
  | Exit c ret =>
      match entry_scratch s !! c_id (f_c c) with
      | Some sc => let k := (c_pid (f_c c), u64 ret) in
                   if sc_anon sc && (0 <? ret) && (bool_decide (is_Some (pending_map s !! k)) || (size (pending_map s) <? PENDING_CAP)%nat)
                   then [Created k (mk_val (c_now (f_c c)) (sc_len sc) (f_comm c))] else []
      | None => []
      end
  | Prctl c =>
      if negb (gate uids pids (f_c c)) && (reg (f_c c) 0 =? FILELESS_PR_SET_VMA) && (reg (f_c c) 1 =? FILELESS_PR_SET_VMA_ANON_NAME) &&
         is_prefix (bytes_of "dalvik") (match c_str (f_c c) (untag (reg (f_c c) 4)) with Some t => take 31 t | None => [] end)
      then [Suppressed (c_pid (f_c c), reg (f_c c) 2)] else []
  | Poll clock =>
      match fileless_poll order clock s with
      | Some s' => map (fun kv => Reported (fst kv)) (map_to_list (pending_map s ∖ pending_map s'))
      | None => []
      end
  end.
Fixpoint history (s : state) (hits : list hit) : list happening :=
  match hits with [] => [] | h :: hits => happened s h ++ match step s h with Some s => history s hits | None => [] end end.

(** Readings of the clock never go back; results of [do_mmap] are 64-bit numbers. *)
Definition good_clock (lo : Z) (clock : nat -> Z) : Prop :=
  lo <= clock 0%nat /\ (forall i j, (i <= j)%nat -> clock i <= clock j) /\ forall i, in_u 64 (clock i).
Fixpoint ticks (lo : Z) (hits : list hit) : Prop :=
  match hits with
  | [] => True
  | Exit c ret :: hits => lo <= c_now (f_c c) < 2 ^ 64 /\ ret < 2 ^ 63 /\ ticks (c_now (f_c c)) hits
  | Poll clock :: hits => good_clock lo clock /\ ticks (clock 0%nat) hits
  | _ :: hits => ticks lo hits
  end.
Fixpoint last_tick (lo : Z) (hits : list hit) : Z :=
  match hits with
  | [] => lo
  | Exit c _ :: hits => last_tick (c_now (f_c c)) hits
  | Poll clock :: hits => last_tick (clock 0%nat) hits
  | _ :: hits => last_tick lo hits
  end.

(** The table of candidates is what the history leaves live. *)
Record tracks (H : list happening) (lo : Z) (s : state) : Prop := {
  tk_live : forall k, pending_map s !! k = live H k;
  tk_zero : pending_map s !! (0, 0) = None;
  tk_ts : forall k v, pending_map s !! k = Some v -> 0 <= v_ts_ns v <= lo
}.
Lemma live_app H K k : live (H ++ K) k = foldl (live_step k) (live H k) K.
Proof. apply foldl_app. Qed.
Lemma live_reported (m : gmap fileless_pending_key fileless_pending_val) k o :
  foldl (live_step k) o (map (fun kv => Reported (fst kv)) (map_to_list m)) = if bool_decide (is_Some (m !! k)) then None else o.
Proof.
  assert (Hg : forall l o, foldl (live_step k) o (map (fun kv : fileless_pending_key * fileless_pending_val => Reported (fst kv)) l) =
                      if bool_decide (k ∈ l.*1) then None else o).
  { induction l as [|[k' v] l IH]; intros o'; [reflexivity|]. cbn [map foldl live_step fst]. rewrite IH. cbn [fmap list_fmap fst].
    destruct (decide (k' = k)) as [->|Hne].
    - rewrite (bool_decide_true (k = k)) by reflexivity. rewrite (bool_decide_true (k ∈ k :: l.*1)) by now left. now destruct (bool_decide _).
    - rewrite (bool_decide_false (k' = k)) by exact Hne. destruct (decide (k ∈ l.*1)).
      + rewrite !bool_decide_true by (try right; assumption). reflexivity.
      + rewrite !bool_decide_false; [reflexivity| |assumption]. intros [->|H]%elem_of_cons; contradiction. }
  rewrite Hg. assert (Hi : k ∈ (map_to_list m).*1 <-> is_Some (m !! k)).
  { rewrite list_elem_of_fmap. split; [intros ([k' v] & -> & H); apply elem_of_map_to_list in H; eauto|].
    intros [v H]. exists (k, v). split; [reflexivity|now apply elem_of_map_to_list]. }
  destruct (decide (is_Some (m !! k))); [now rewrite !bool_decide_true by tauto|now rewrite !bool_decide_false by tauto].
Qed.

Lemma tracks_same H lo hi s s' : lo <= hi -> pending_map s' = pending_map s -> tracks H lo s -> tracks (H ++ []) hi s'.
Proof.
  intros Hl E [H1 H2 H3]. rewrite app_nil_r. split; rewrite E; auto. intros k v Hk. specialize (H3 k v Hk). lia.
Qed.
Lemma tracks_exit H lo c ret s :
  tracks H lo s -> 0 <= lo -> lo <= c_now (f_c c) < 2 ^ 64 -> ret < 2 ^ 63 ->
  tracks (H ++ happened s (Exit c ret)) (c_now (f_c c)) (on_do_mmap_exit c ret s).
Proof.
  intros Ht H0 Hlo Hret. pose proof Ht as [H1 H2 H3]. cbn [happened]. unfold on_do_mmap_exit.
  destruct (entry_scratch s !! _) as [sc|]; [|apply (tracks_same H lo _ s); auto; lia].
  rewrite Z.leb_antisym. destruct (sc_anon sc); cbn [negb orb andb]; [|apply (tracks_same H lo _ s); auto; lia].
  destruct (Z.ltb_spec 0 ret) as [Hr|Hr]; cbn [negb orb andb]; [|apply (tracks_same H lo _ s); auto; lia].
  unfold map_update. set (k := (c_pid (f_c c), u64 ret)).
  destruct (bool_decide _ || _); [|apply (tracks_same H lo _ s); auto; lia]. split; cbn [pending_map].
  - intros k'. rewrite live_app. cbn [foldl live_step]. destruct (decide (k = k')) as [<-|Hne].
    + rewrite lookup_insert_eq, bool_decide_true by reflexivity. reflexivity.
    + rewrite lookup_insert_ne, bool_decide_false by exact Hne. apply H1.
  - rewrite lookup_insert_ne; [exact H2|]. unfold k. intros [= _ E]. rewrite u64_small in E by (unfold in_u; lia). lia.
  - intros k' v' E. apply lookup_insert_Some in E as [[_ <-]|[_ E]]; [cbn [v_ts_ns]; lia|]. specialize (H3 k' v' E). lia.
Qed.
Lemma tracks_prctl H lo c s : tracks H lo s -> tracks (H ++ happened s (Prctl c)) lo (on_prctl uids pids c s).
Proof.
  intros Ht. pose proof Ht as [H1 H2 H3]. cbn [happened]. unfold on_prctl.
  destruct (gate _ _ _); cbn [negb andb]; [apply (tracks_same H lo _ s); auto; lia|].
  destruct (reg (f_c c) 0 =? _); cbn [negb andb]; [|apply (tracks_same H lo _ s); auto; lia].
  destruct (reg (f_c c) 1 =? _); cbn [negb andb]; [|apply (tracks_same H lo _ s); auto; lia].
  destruct (is_prefix _ _); cbn [negb]; [|apply (tracks_same H lo _ s); auto; lia]. split; cbn [pending_map].
  - intros k'. rewrite live_app. cbn [foldl live_step]. destruct (decide ((c_pid (f_c c), reg (f_c c) 2) = k')) as [<-|Hne].
    + rewrite lookup_delete_eq, bool_decide_true by reflexivity. reflexivity.
    + rewrite lookup_delete_ne, bool_decide_false by exact Hne. apply H1.
  - rewrite lookup_delete_None. now right.
  - intros k' v' E. apply lookup_delete_Some in E as [_ E]. now apply (H3 k').
Qed.
Lemma tracks_poll H lo clock s :
  tracks H lo s -> good_clock lo clock ->
  exists s' r, fileless_poll order clock s = Some s' /\ passed clock s s' r /\
               tracks (H ++ happened s (Poll clock)) (clock 0%nat) s'.
Proof.
  intros [H1 H2 H3] (C1 & C2 & C3).
  destruct (poll_passes order clock order_keys C2 C3 s H2) as (s' & r & E & Hp); [intros k v Hk; specialize (H3 k v Hk); lia|].
  exists s', r. split; [exact E|]. split; [exact Hp|]. cbn [happened]. rewrite E. destruct Hp as [_ _ _ _ P5 P6 P7]. split.
  - intros k. rewrite live_app, live_reported, <- H1. destruct (pending_map s' !! k) as [v|] eqn:Ek.
    + rewrite bool_decide_false; [symmetry; now apply P6|]. intros [w Hw]. apply lookup_difference_Some in Hw as [_ Hw]. congruence.
    + destruct (pending_map s !! k) as [v|] eqn:Es; [|now destruct (bool_decide _)]. rewrite bool_decide_true; [reflexivity|].
      exists v. now apply lookup_difference_Some.
  - destruct (pending_map s' !! (0, 0)) as [v|] eqn:Ek; [|reflexivity]. apply P6 in Ek. congruence.
  - intros k v Hk. apply P6 in Hk. specialize (H3 k v Hk). lia.
Qed.

Lemma run_tracks hits : forall H lo s,
  tracks H lo s -> 0 <= lo -> ticks lo hits ->
  exists s', run s hits = Some s' /\ tracks (H ++ history s hits) (last_tick lo hits) s'.
Proof.
  induction hits as [|h hits IH]; intros H lo s Ht H0 Hk; cbn [run history last_tick]; [rewrite app_nil_r; eauto|].
  destruct h as [c a|c ret|c|clock]; cbn [step ticks] in *; rewrite app_assoc.
  - apply IH; auto. apply (tracks_same H lo lo s); [lia| |exact Ht]. unfold on_do_mmap_entry.
    destruct (gate _ _ _); [reflexivity|]. now destruct (_ =? 0).
  - destruct Hk as (K1 & K2 & K3). apply IH; [now apply tracks_exit with (lo := lo)|lia|exact K3].
  - apply IH; auto. now apply tracks_prctl.
  - destruct Hk as [K1 K2]. destruct (tracks_poll H lo clock s Ht K1) as (s' & r & E & _ & Ht'). rewrite E. apply IH; auto.
    destruct K1 as (K1 & _). lia.
Qed.
End Runs.


(** Two threads of process 7 map code; one mapping is named for ART. *)
Definition demo (tid now : Z) (regs : list Z) (name : list byte) : fctx :=
  mk_fctx (mk_ctx 10001 (Z.shiftl 7 32 + tid) 0 0 regs now true (fun _ => Some name) (fun _ _ => None)) false [] (bytes_of "app") 1 0 0.
Definition demo_hits : list hit :=
  [Entry (demo 7 1 [] []) (mk_mmap 0 4096 5); Entry (demo 8 2 [] []) (mk_mmap 0 8192 7); Exit (demo 8 3 [] []) 0x7100;
   Exit (demo 7 4 [] []) 0x7000; Prctl (demo 8 5 [0x53564d41; 0; 0x7100; 8192; 0x9000] (bytes_of "dalvik-jit"))].
Definition keys (m : gmap fileless_pending_key fileless_pending_val) : list fileless_pending_key := (map_to_list m).*1.

(** The thread stops without a last pass: a mapping made in the last quarter of a second
    is never reported. *)
Theorem fileless_last_mapping_is_lost :
  let hits := [Entry (demo 7 1 [] []) (mk_mmap 0 4096 5); Exit (demo 7 1000 [] []) 0x7000; Poll (fun _ => 250000999)] in
  match run keys {[10001]} ∅ start hits with
  | Some s => emitted s = [] /\ size (pending_map s) = 1%nat
  | None => False
  end.
Proof. vm_compute. auto. Qed.
End Fileless.

Module ScreenCapture.

Definition SCREENCAPTURE_DETECT_FGS_TYPE_BIT := 0x20.

(** ** The parser *)

(** The text from the first occurrence on. *)
Definition find_in (hay needle : list byte) : option (list byte) :=
  if (zlen needle =? 0) || (zlen needle >? zlen hay) then None
  else (fun pre => drop (length pre) hay) <$> strstr hay needle.

Definition hex_digit_of (c : byte) : option Z :=
  if (0x30 <=? bz c) && (bz c <=? 0x39) then Some (bz c - 0x30)
  else if (0x61 <=? bz c) && (bz c <=? 0x66) then Some (10 + (bz c - 0x61))
  else if (0x41 <=? bz c) && (bz c <=? 0x46) then Some (10 + (bz c - 0x41)) else None.
Fixpoint hex_loop (v : Z) (p : list byte) : Z :=
  match p with
  | [] => v
  | c :: p => match hex_digit_of c with Some d => hex_loop (u64 (v * 16 + d)) p | None => v end
  end.
Definition parse_hex_mask (p : list byte) : Z :=
  match p with
  | x30 :: x78 :: q | x30 :: x58 :: q => hex_loop 0 q
  | _ => hex_loop 0 p
  end.

(** [atoi]: blanks, a sign, digits; [strtol] saturates and the result is cut to an int. *)
Fixpoint atoi_digits (acc : Z) (p : list byte) : Z :=
  match p with
  | [] => acc
  | c :: p => if (0x30 <=? bz c) && (bz c <=? 0x39) then atoi_digits (acc * 10 + (bz c - 0x30)) p else acc
  end.
Fixpoint atoi (p : list byte) : Z :=
  match p with
  | [] => 0
  | c :: q => if bool_decide (c = x20) || ((9 <=? bz c) && (bz c <=? 13)) then atoi q
              else if bool_decide (c = x2d) then s32 (Z.max (- 2 ^ 63) (- atoi_digits 0 q))
              else if bool_decide (c = x2b) then s32 (Z.min (2 ^ 63 - 1) (atoi_digits 0 q))
              else s32 (Z.min (2 ^ 63 - 1) (atoi_digits 0 p))
  end.

Definition SERVICE_RECORD : list byte := bytes_of "ServiceRecord{".
(** The conditions on one block, and the pid of its process record; [text] goes on to the
    end of the buffer. *)
Definition block_active (pkg blk : list byte) : bool :=
  bool_decide (is_Some (find_in blk pkg)) && bool_decide (is_Some (find_in blk (bytes_of "isForeground=true"))) &&
  match find_in blk (bytes_of "types=0x") with
  | Some types_p => negb (Z.land (parse_hex_mask (drop 6 types_p)) SCREENCAPTURE_DETECT_FGS_TYPE_BIT =? 0)
  | None => false
  end.
Definition block_pid (blk text : list byte) : Z :=
  match find_in blk (bytes_of "ProcessRecord{") with
  | Some pr =>
      match find_in (drop 14 pr) [x20] with
      | Some sp => let pid := atoi (drop (S (length blk - length sp)) text) in if pid >? 0 then pid else -1
      | None => -1
      end
  | None => -1
  end.

(** [text] starts at a block; the result is the return value and the pid. *)
Fixpoint scan (fuel : nat) (pkg text : list byte) : Z * Z :=
  match fuel with
  | O => (0, -1)
  | S fuel =>
      let next := find_in (drop 1 text) SERVICE_RECORD in
      let blk := take (length text - length (default [] next)) text in
      if block_active pkg blk then (1, block_pid blk text)
      else match next with Some text => scan fuel pkg text | None => (0, -1) end
  end.
Definition screencapture_detect_parse_dumpsys (buf pkg : option (list byte)) : Z * Z :=
  match buf, pkg with
  | Some (c :: b), Some (d :: p) =>
      match find_in (c :: b) SERVICE_RECORD with
      | Some text => scan (length (c :: b)) (d :: p) text
      | None => (0, -1)
      end
  | _, _ => (-1, -1)
  end.

(** ** The kernel counter and the polling thread *)

Definition BINDER_COUNT_CAP : nat := 128.
Definition on_binder_transaction (uids pids : gset Z) (sys_server_pid : Z) (c : fctx) (reply to_proc : Z) (m : gmap Z Z) : gmap Z Z :=
  if gate uids pids (f_c c) then m else
  if negb (reply =? 0) then m else
  if (sys_server_pid =? 0) || negb (to_proc =? s32 sys_server_pid) then m else
  match m !! c_pid (f_c c) with
  | Some n => <[c_pid (f_c c) := u64 (n + 1)]> m
  | None => if (size m <? BINDER_COUNT_CAP)%nat then <[c_pid (f_c c) := 1]> m else m
  end.

Inductive mediaproj_state := MP_UNKNOWN | MP_INACTIVE | MP_ACTIVE.
Record state := mk_state {
  g_mp_state : mediaproj_state; binder_count_map : gmap Z Z; stats : list mediaproj_stat_t; emitted : list screencapture_detect_event
}.
Definition start : state := mk_state MP_UNKNOWN ∅ [] [].

Definition mediaproj_emit_one (pid : Z) (comm : list byte) (binder_calls now : Z) (s : state) : state :=
  let e := mk_screencapture (mk_hdr MOD_EV_SCREENCAPTURE_DETECT pid pid) now (C_TASK_COMM comm) binder_calls in
  mk_state (g_mp_state s) (binder_count_map s) (mediaproj_stat_add (pid, comm, binder_calls) (stats s)) (emitted s ++ [e]).

(** What /proc/<pid>/comm says, without its newline; ["?"] when it cannot be read. *)
Definition mediaproj_read_comm (file : option (list byte)) (outsz : nat) : list byte :=
  match file with
  | Some (c :: l) =>
      let out := take (outsz - 1) (c :: l) in
      let line := match strstr out [x0a] with Some pre => pre | None => out end in line
  | _ => bytes_of "?"
  end.

(** One turn of the loop: the package, the output of the command if it ran, the clock and
    the comm files. *)
Record turn := mk_turn { t_out : option (list byte); t_now : Z; t_comm : Z -> option (list byte) }.
Definition mediaproj_poll (pkg : option (list byte)) (t : turn) (s : state) : state :=
  match pkg with
  | None => s
  | Some pkg =>
      let unknown := mk_state MP_UNKNOWN (binder_count_map s) (stats s) (emitted s) in
      match t_out t with
      | None => unknown
      | Some out =>
          let '(active, pid) := screencapture_detect_parse_dumpsys (Some out) (Some pkg) in
          if active <? 0 then unknown else
          let now := if active =? 0 then MP_INACTIVE else MP_ACTIVE in
          let s' :=
            match g_mp_state s, now with
            | MP_ACTIVE, _ | _, MP_INACTIVE | _, MP_UNKNOWN => s
            | _, MP_ACTIVE =>
                if pid >? 0 then
                  mediaproj_emit_one pid (mediaproj_read_comm (t_comm t pid) (Z.to_nat TASK_COMM_LEN)) (default 0 (binder_count_map s !! pid)) (t_now t)
                    (mk_state (g_mp_state s) (delete pid (binder_count_map s)) (stats s) (emitted s))
                else mediaproj_emit_one 0 (bytes_of "?") 0 (t_now t) s
            end in
          mk_state now (binder_count_map s') (stats s') (emitted s')
      end
  end.
Definition run (pkg : option (list byte)) (l : list turn) : state := foldl (fun s t => mediaproj_poll pkg t s) start l.

(** ** Blocks *)

Definition occurs (buf : list byte) (i : nat) : Prop := is_prefix SERVICE_RECORD (drop i buf) = true.
(** From one header to the next, or to the end. *)
Record block (buf : list byte) (i j : nat) : Prop := {
  bl_head : occurs buf i;
  bl_order : (i < j <= length buf)%nat;
  bl_end : j = length buf \/ occurs buf j;
  bl_inside : forall m, (i < m < j)%nat -> ~ occurs buf m
}.
Definition block_text (buf : list byte) (i j : nat) : list byte := take (j - i) (drop i buf).

Lemma strstr_first t p :
  match strstr t p with
  | Some pre => is_prefix p (drop (length pre) t) = true /\ (length pre <= length t)%nat /\
                forall m, (m < length pre)%nat -> is_prefix p (drop m t) = false
  | None => forall m, is_prefix p (drop m t) = false
  end.
Proof.
  induction t as [|c t IH]; cbn [strstr].
  - destruct (is_prefix p []) eqn:E; [repeat split; auto; simpl; lia|]. intros m. now rewrite drop_nil.
  - destruct (is_prefix p (c :: t)) eqn:E; [repeat split; auto; simpl; lia|]. destruct (strstr t p) as [pre|]; cbn [fmap option_fmap option_map length].
    + destruct IH as (H1 & H2 & H3). split; [exact H1|]. split; [lia|]. intros [|m] Hm; [exact E|]. apply H3. lia.
    + intros [|m]; [exact E|apply IH].
Qed.
Lemma occurs_length buf i : occurs buf i -> (i + 14 <= length buf)%nat.
Proof.
  unfold occurs. intros H. assert (Hl : forall p s, is_prefix p s = true -> (length p <= length s)%nat).
  { induction p as [|c p IH]; intros s Hs; simpl; [lia|]. destruct s as [|d s]; [discriminate|]. simpl in Hs.
    apply andb_true_iff in Hs as [_ Hs]. apply IH in Hs. simpl. lia. }
  apply Hl in H. change (length SERVICE_RECORD) with 14%nat in H. rewrite length_drop in H. lia.
Qed.

Lemma find_next buf k :
  match find_in (drop k buf) SERVICE_RECORD with
  | Some t => exists j, t = drop j buf /\ (k <= j)%nat /\ occurs buf j /\ forall m, (k <= m < j)%nat -> ~ occurs buf m
  | None => forall m, (k <= m)%nat -> ~ occurs buf m
  end.
Proof.
  unfold find_in. change (zlen SERVICE_RECORD =? 0) with false. rewrite orb_false_l.
  destruct (Z.gtb_spec (zlen SERVICE_RECORD) (zlen (drop k buf))) as [H|H].
  { intros m Hm Ho. apply occurs_length in Ho. change (zlen SERVICE_RECORD) with 14 in H. unfold zlen in H. rewrite length_drop in H. lia. }
  pose proof (strstr_first (drop k buf) SERVICE_RECORD) as Hs. destruct (strstr _ _) as [pre|]; cbn [fmap option_fmap option_map].
  - destruct Hs as (H1 & H2 & H3). exists (k + length pre)%nat. rewrite drop_drop in *. split; [reflexivity|]. split; [lia|].
    split; [exact H1|]. intros m Hm Ho. specialize (H3 (m - k)%nat ltac:(lia)). rewrite drop_drop in H3.
    replace (k + (m - k))%nat with m in H3 by lia. unfold occurs in Ho. congruence.
  - intros m Hm Ho. specialize (Hs (m - k)%nat). rewrite drop_drop in Hs. replace (k + (m - k))%nat with m in Hs by lia.
    unfold occurs in Ho. congruence.
Qed.

(** The block at a header ends where the scan cuts it. *)
Lemma block_unique buf i j j' : block buf i j -> block buf i j' -> j = j'.
Proof.
  intros [_ O1 E1 N1] [_ O2 E2 N2]. destruct (lt_eq_lt_dec j j') as [[Hlt| ->]|Hlt]; [|reflexivity|].
  - destruct E1 as [->|E1]; [lia|]. exfalso. apply (N2 j); [lia|exact E1].
  - destruct E2 as [->|E2]; [lia|]. exfalso. apply (N1 j'); [lia|exact E2].
Qed.

Lemma scan_spec pkg buf : forall fuel i,
  occurs buf i -> (length buf - i <= fuel)%nat ->
  (fst (scan fuel pkg (drop i buf)) = 1 /\ (exists i' j, (i <= i')%nat /\ block buf i' j /\ block_active pkg (block_text buf i' j) = true)) \/
  (scan fuel pkg (drop i buf) = (0, -1) /\ forall i' j, (i <= i')%nat -> block buf i' j -> block_active pkg (block_text buf i' j) = false).
Proof.
  induction fuel as [|fuel IH]; intros i Ho Hf; pose proof (occurs_length buf i Ho) as Hl; [lia|]. cbn [scan].
  rewrite drop_drop. replace (i + 1)%nat with (S i) by lia. pose proof (find_next buf (S i)) as Hn.
  set (next := find_in (drop (S i) buf) SERVICE_RECORD) in *.
  assert (Hb : exists j, block buf i j /\ take (length (drop i buf) - length (default [] next)) (drop i buf) = block_text buf i j /\
               match next with Some t => t = drop j buf /\ occurs buf j | None => j = length buf end).
  { destruct next as [t|].
    - destruct Hn as (j & -> & H1 & H2 & H3). pose proof (occurs_length buf j H2). exists j. split; [split; [exact Ho|lia|now right|intros m Hm; apply H3; lia]|].
      split; [|auto]. unfold block_text. simpl (default _ _). rewrite !length_drop. f_equal. lia.
    - exists (length buf). split; [split; [exact Ho|lia|now left|intros m Hm; apply Hn; lia]|]. split; [|reflexivity].
      unfold block_text. simpl (default _ _). rewrite length_drop. cbn [length]. f_equal. lia. }
  destruct Hb as (j & Hb & -> & Hj). destruct (block_active pkg (block_text buf i j)) eqn:Ea.
  { left. split; [reflexivity|]. exists i, j. auto. }
  assert (Hfirst : forall i' j', (i <= i')%nat -> block buf i' j' -> (i < i')%nat -> (j <= i')%nat).
  { intros i' j' H1 H2 H3. destruct (Nat.le_gt_cases j i') as [|H4]; [assumption|]. exfalso.
    apply (bl_inside _ _ _ Hb i'); [lia|]. apply (bl_head _ _ _ H2). }
  assert (Hi : forall j', block buf i j' -> block_active pkg (block_text buf i j') = false).
  { intros j' H. now rewrite <- (block_unique buf i j j' Hb H). }
  destruct next as [t|].
  - destruct Hj as [-> Hoj]. pose proof (bl_order _ _ _ Hb). destruct (IH j Hoj) as [(H1 & i' & j' & H2 & H3 & H4)|(H1 & H2)]; [lia| |].
    + left. split; [exact H1|]. exists i', j'. split; [lia|auto].
    + right. split; [exact H1|]. intros i' j' Hle Hbl. destruct (Nat.eq_dec i' i) as [->|]; [now apply Hi|].
      apply H2; [|exact Hbl]. apply (Hfirst i' j'); auto; lia.
  - right. split; [reflexivity|]. intros i' j' Hle Hbl. destruct (Nat.eq_dec i' i) as [->|]; [now apply Hi|]. exfalso.
    pose proof (Hfirst i' j' Hle Hbl ltac:(lia)). pose proof (occurs_length _ _ (bl_head _ _ _ Hbl)). lia.
Qed.

(** C33: the dumpsys parser decides by service blocks.  For a non-empty output and package
    it returns 1 exactly when one of the blocks between two "ServiceRecord{" headers (or
    the last header and the end) names the package, is in the foreground and has the
    media-projection bit in its type mask, and (0, -1) otherwise; only an empty or missing
    input gives -1, and the loop ends on every input. *)
Theorem screencapture_parse_by_blocks (buf pkg : list byte) :
  let r := screencapture_detect_parse_dumpsys (Some buf) (Some pkg) in
  (buf = [] \/ pkg = [] <-> r = (-1, -1)) /\
  (fst r = 1 <-> buf <> [] /\ pkg <> [] /\ exists i j, block buf i j /\ block_active pkg (block_text buf i j) = true) /\
  (fst r <> 1 -> snd r = -1).
Proof.
  cbv zeta. unfold screencapture_detect_parse_dumpsys. destruct buf as [|b buf]; [cbn; split; [tauto|]; split; [|auto]; split; [discriminate|tauto]|].
  destruct pkg as [|p pkg]; [cbn; split; [tauto|]; split; [|auto]; split; [discriminate|tauto]|].
  set (B := b :: buf) in *. set (P := p :: pkg) in *. pose proof (find_next B 0) as Hn. rewrite drop_0 in Hn.
  assert (Hd : forall x y : Z * Z, fst x <> fst y -> x <> y) by congruence.
  destruct (find_in B SERVICE_RECORD) as [t|].
  - destruct Hn as (j0 & -> & _ & Ho & Hfirst). destruct (scan_spec P B (length B) j0 Ho ltac:(lia)) as [(H1 & i & j & _ & H2 & H3)|(H1 & H2)].
    + split; [split; [intros [|]; discriminate|intros H; rewrite H in H1; discriminate]|]. split; [|congruence].
      split; [intros _; split; [discriminate|split; [discriminate|eauto]]|auto].
    + rewrite H1. split; [split; [intros [|]; discriminate|discriminate]|]. split; [|auto]. split; [discriminate|].
      intros (_ & _ & i & j & Hb & Ha). rewrite H2 in Ha; [discriminate| |exact Hb].
      destruct (Nat.le_gt_cases j0 i) as [|Hlt]; [assumption|]. exfalso. apply (Hfirst i); [lia|apply (bl_head _ _ _ Hb)].
  - split; [split; [intros [|]; discriminate|discriminate]|]. split; [|auto]. split; [discriminate|].
    intros (_ & _ & i & j & Hb & _). exfalso. apply (Hn i); [lia|apply (bl_head _ _ _ Hb)].
Qed.

(** ** Sessions *)

Lemma parse_result buf pkg :
  let r := fst (screencapture_detect_parse_dumpsys (Some buf) (Some pkg)) in r = -1 \/ r = 0 \/ r = 1.
Proof.
  unfold screencapture_detect_parse_dumpsys. destruct buf as [|b buf]; [now left|]. destruct pkg as [|p pkg]; [now left|].
  pose proof (find_next (b :: buf) 0) as Hn. rewrite drop_0 in Hn. destruct (find_in (b :: buf) SERVICE_RECORD); [|auto].
  destruct Hn as (j0 & -> & _ & Ho & _).
  destruct (scan_spec (p :: pkg) (b :: buf) (length (b :: buf)) j0 Ho ltac:(lia)) as [(H1 & _)|(H1 & _)]; cbv zeta; rewrite H1; auto.
Qed.

(** What a turn of the loop finds. *)
Definition found (pkg : list byte) (t : turn) : bool :=
  match t_out t with
  | Some out => fst (screencapture_detect_parse_dumpsys (Some out) (Some pkg)) =? 1
  | None => false
  end.
Fixpoint edges (before : bool) (l : list bool) : nat :=
  match l with [] => 0 | b :: l => (if b && negb before then 1 else 0) + edges b l end.

Lemma poll_state pkg t s :
  (match g_mp_state (mediaproj_poll (Some pkg) t s) with MP_ACTIVE => true | _ => false end) = found pkg t /\
  length (emitted (mediaproj_poll (Some pkg) t s)) =
    (length (emitted s) + if found pkg t && negb (match g_mp_state s with MP_ACTIVE => true | _ => false end) then 1 else 0)%nat.
Proof.
  unfold mediaproj_poll, found. destruct (t_out t) as [out|]; [|cbn; split; [reflexivity|lia]].
  pose proof (parse_result out pkg) as H.
  destruct (screencapture_detect_parse_dumpsys (Some out) (Some pkg)) as [active pid]. cbn [fst] in *.
  destruct H as [->|[->| ->]]; cbn [Z.ltb Z.eqb Z.compare]; [cbn; split; [reflexivity|lia]|cbn; destruct (g_mp_state s); cbn; split; try reflexivity; lia|].
  cbn. destruct (g_mp_state s); cbn; split; try reflexivity; try lia; destruct (pid >? 0); cbn; rewrite length_app; simpl; lia.
Qed.

(** One alert per session seen.  The thread emits one event for every turn that finds
    an active session when the turn before did not (or failed), so an uninterrupted run
    of active polls is one alert. *)
Theorem screencapture_one_alert_per_session (pkg : list byte) (l : list turn) :
  length (emitted (run (Some pkg) l)) = edges false (map (found pkg) l).
Proof.
  assert (H : forall l s, length (emitted (foldl (fun s t => mediaproj_poll (Some pkg) t s) s l)) =
    (length (emitted s) + edges (match g_mp_state s with MP_ACTIVE => true | _ => false end) (map (found pkg) l))%nat).
  { clear l. induction l as [|t l IH]; intros s; [simpl; lia|]. cbn [foldl map edges]. rewrite IH.
    destruct (poll_state pkg t s) as [-> ->]. lia. }
  exact (H l start).
Qed.

(** A real block, shortened. *)
Definition demo_dump : list byte :=
  bytes_of "* ServiceRecord{1a u0 com.spy/.Cap} app=ProcessRecord{2b 4242:com.spy/u0a1} isForeground=true types=0x00000020".
Lemma demo_dump_active : screencapture_detect_parse_dumpsys (Some demo_dump) (Some (bytes_of "com.spy")) = (1, 4242).
Proof. vm_compute. reflexivity. Qed.
(** A failed command between two polls reports the same session a second time. *)
Theorem screencapture_session_reported_twice :
  let t o := mk_turn o 5 (fun _ => None) in
  length (emitted (run (Some (bytes_of "com.spy")) [t (Some demo_dump); t None; t (Some demo_dump)])) = 2%nat.
Proof. vm_compute. reflexivity. Qed.
End ScreenCapture.
