(* ===== verification/Analyzers.v ===== *)
(** * Analyzers: the user side of the detection modules
    (the [*_handle_event] callbacks and [*_emit_summary] records of src/modules)

    A callback takes one ring-buffer sample of [sz] bytes, counts it in its table and
    builds its record when a sink is open; a summary is built from the table at the end.
    What they print on the console is left out.  [qsort], called between the two, is a
    parameter of the summaries that are sorted. *)

From Stdlib Require Import ZArith Lia.
From stdpp Require Import base list option numbers sorting.
From S2P Require Import Prelude Elf Emit Modules Json ModEvents Tally Decode FileAccess.

Local Open Scope Z_scope.
#[local] Opaque digits.

(** What the dispatcher hands to the callbacks. *)
Record anubee_mod_ctx := mk_mc { mc_sink : bool; mc_verbose : bool; mc_pkg : option (list byte) }.
(** A table and the records built so far. *)
Definition session (T : Type) : Type := (list T * list (list jop))%type.
Definition emit {T} (mc : anubee_mod_ctx) (t : list T) (out : list (list jop)) (rec : list jop) : session T :=
  (t, if mc_sink mc then out ++ [rec] else out).

(** ** Callbacks *)

Record proc_counts := mk_pc { g_forks : Z; g_exits : Z; g_sig_exits : Z }.
Definition pe_handle_spawn (mc : anubee_mod_ctx) (sz : Z) (e : spawn_event) (s : proc_counts * list (list jop)) :=
  if negb (h_type (sp_h e) =? MOD_EV_SPAWN) || (sz <? 64) then s else
  let '(c, out) := s in
  (mk_pc (u64 (g_forks c + 1)) (g_exits c) (g_sig_exits c), if mc_sink mc then out ++ [mod_emit_spawn e] else out).
Definition pe_handle_exit (mc : anubee_mod_ctx) (sz : Z) (e : proc_exit_event) (s : proc_counts * list (list jop)) :=
  if negb (h_type (pe_h e) =? MOD_EV_PROC_EXIT) || (sz <? 64) then s else
  let '(c, out) := s in
  (mk_pc (g_forks c) (u64 (g_exits c + 1)) (if exit_sig (pe_exit_code e) =? 0 then g_sig_exits c else u64 (g_sig_exits c + 1)),
   if mc_sink mc then out ++ [mod_emit_proc_exit e] else out).

Section Resolver.
(** [sym_resolve], cut to the 320 bytes of its buffer. *)
Context (sym_resolve : Z -> Z -> list byte).
Definition ex_handle_event (mc : anubee_mod_ctx) (sz : Z) (e : execve_event) (s : session exec_stat_t) : session exec_stat_t :=
  if negb (h_type (ex_h e) =? MOD_EV_EXECVE) || (sz <? 1344) then s else
  let '(t, out) := s in
  let syms := map (fun a => if a =? 0 then [] else take 319 (sym_resolve (h_pid (ex_h e)) a))
                  (take (Z.to_nat (Z.min (s32 (ex_stack_depth e)) STACK_DEPTH)) (ex_call_stack e)) in
  emit mc (exec_stat_add (ex_filename e) t) out (mod_emit_execve e syms).
End Resolver.

Definition pr_handle_event (mc : anubee_mod_ctx) (sz : Z) (e : prop_event) (s : session prop_stat_t) : session prop_stat_t :=
  if sz <? 288 then s else
  let '(t, out) := s in
  let ty := h_type (pr_h e) in
  let t := if (ty =? MOD_EV_PROP_GET) || (ty =? MOD_EV_PROP_FIND) then (if pr_is_ret e =? 0 then prop_stat_add (pr_name e) t else t)
           else if ty =? MOD_EV_PROP_READ then prop_stat_add (pr_name e) t else t in
  emit mc t out (mod_emit_prop e).

Definition fa_handle_event (mc : anubee_mod_ctx) (sz : Z) (e : file_access_event) (s : session fa_stat_t) : session fa_stat_t :=
  if negb (h_type (fa_h e) =? MOD_EV_FILE_ACCESS) || (sz <? 320) then s else
  let '(t, out) := s in
  let categories := FileAccess.classify_path (Some (fa_path e)) (mc_pkg mc) in
  emit mc (fa_stat_add (fa_path e, categories) t) out
    (mod_emit_file_access e categories (FileAccess.file_access_decode_flags (fa_flags e) 8)).

(** [None]: the distinct count would read behind the paths of the event. *)
Definition rb_handle_event (mc : anubee_mod_ctx) (manage_ext_storage sz : Z) (e : massdelete_detect_event) (s : session rb_stat_t)
    : option (session rb_stat_t) :=
  if negb (h_type (md_h e) =? MOD_EV_MASSDELETE_DETECT) || (sz <? 8512) then Some s else
  let '(t, out) := s in
  match burst_distinct_count (md_paths e) (s32 (md_touch_count e)) with
  | None => None
  | Some distinct =>
      Some (emit mc (rb_stat_add (mk_rb_arg (h_pid (md_h e)) (md_comm e) (s32 (md_touch_count e)) distinct) t) out
              (mod_emit_massdelete_detect e distinct manage_ext_storage (mc_verbose mc)))
  end.

Definition a11y_handle_event (mc : anubee_mod_ctx) (granted sz : Z) (e : accessibility_detect_event) (s : session a11y_stat_t) : session a11y_stat_t :=
  if negb (h_type (ac_h e) =? MOD_EV_ACCESSIBILITY_DETECT) || (sz <? 320) then s else
  let '(t, out) := s in
  emit mc (a11y_stat_add (h_pid (ac_h e), ac_comm e, s32 (ac_touch_count e)) t) out (mod_emit_accessibility_detect e granted).

Definition eb_handle_event (inet_ntop6 : list byte -> list byte) (mc : anubee_mod_ctx) (sz : Z) (e : exfil_detect_event) (s : session eb_stat_t)
    : res (session eb_stat_t) :=
  if negb (h_type (xf_h e) =? MOD_EV_EXFIL_DETECT) || (sz <? 8560) then Ret s else
  let '(t, out) := s in
  dest_str ← (if xf_dest_len e >? 0 then decode_sockaddr inet_ntop6 (xf_dest e) (xf_dest_len e) 64 else Ret None);
  Ret (emit mc (eb_stat_add (h_pid (xf_h e), xf_comm e, xf_bytes_sent e) t) out (mod_emit_exfil_detect e dest_str (mc_verbose mc))).

(** The settings the analyzers ask for once. *)
Definition rb_check_manage_ext_storage (pkg out : option (list byte)) (before : Z) : Z :=
  match pkg, out with
  | Some _, Some out =>
      let has s := bool_decide (is_Some (strstr out (bytes_of s))) in
      if has "allow"%string then 1 else if has "deny"%string || has "ignore"%string || has "default"%string then 0 else before
  | _, _ => before
  end.
Definition a11y_check_service_granted (pkg out : option (list byte)) (before : Z) : Z :=
  match pkg, out with
  | Some pkg, Some out => if bool_decide (is_Some (strstr out pkg)) then 1 else 0
  | _, _ => before
  end.

(** ** Summaries *)

Definition stype (s : String.string) : list jop := [OpC x7b; opS (String.append "'type':'" (String.append s "'"))].
Arguments stype s%_string_scope.
Definition total {T} (count : T -> Z) (t : list T) : Z := foldl (fun n r => u64 (n + count r)) 0 t.
Definition flagged {T} (f : T -> bool) (t : list T) : Z := zlen (List.filter f t).
Definition close : list jop := [OpC x5d; OpC x7d].

Definition pe_emit_summary (c : proc_counts) : option (list jop) :=
  if (g_forks c =? 0) && (g_exits c =? 0) then None else
  Some (stype "proc_event_summary" ++ [opS ",'forks':"; OpU64 (g_forks c); opS ",'exits':"; OpU64 (g_exits c);
          opS ",'signal_exits':"; OpU64 (g_sig_exits c); OpC x7d]).
Definition ex_row (r : exec_stat_t) : list jop :=
  [opS "{'path':'"; OpEsc (es_path r); opQ; opS ",'count':"; OpU64 (es_count r); opS ",'suspicious':";
   true_false (is_suspicious_bin (es_path r)); OpC x7d].
Definition ex_emit_summary (t : list exec_stat_t) : option (list jop) :=
  match t with
  | [] => None
  | _ => Some (stype "execve_summary" ++
      [opS ",'total_execs':"; OpU64 (total es_count t); opS ",'unique_binaries':"; OpU64 (zlen t);
       opS ",'flagged':"; OpU64 (flagged (fun r => is_suspicious_bin (es_path r)) t); opS ",'binaries':["] ++
      commas (map ex_row t) ++ close)
  end.
Definition pr_row (r : prop_stat_t) : list jop :=
  [opS "{'name':'"; OpEsc (ps_name r); opQ; opS ",'count':"; OpU64 (ps_count r); opS ",'rasp':";
   true_false (is_rasp_prop (ps_name r)); OpC x7d].
Definition pr_emit_summary (t : list prop_stat_t) : option (list jop) :=
  match t with
  | [] => None
  | _ => Some (stype "prop_read_summary" ++
      [opS ",'total':"; OpU64 (total ps_count t); opS ",'unique_props':"; OpU64 (zlen t);
       opS ",'rasp_count':"; OpU64 (flagged (fun r => is_rasp_prop (ps_name r)) t); opS ",'props':["] ++
      commas (map pr_row t) ++ close)
  end.
Definition fa_row (r : fa_stat_t) : list jop :=
  [opS "{'path':'"; OpEsc (fs_path r); opQ; opS ",'count':"; OpU64 (fs_count r); opS ",'categories':["] ++
  commas (map bare (category_names (fs_categories r))) ++ [opS "]}"].
Definition fa_emit_summary (t : list fa_stat_t) : option (list jop) :=
  match t with
  | [] => None
  | _ => Some (stype "file_access_summary" ++
      [opS ",'total':"; OpU64 (total fs_count t); opS ",'unique_paths':"; OpU64 (zlen t);
       opS ",'flagged':"; OpU64 (flagged (fun r => negb (fs_categories r =? 0)) t); opS ",'paths':["] ++
      commas (map fa_row t) ++ close)
  end.

(** The per-process summaries share their shape. *)
Definition per_process {T} (name : String.string) (row : T -> list jop) (t : list T) : option (list jop) :=
  match t with
  | [] => None
  | _ => Some (stype name ++ [opS ",'process_count':"; OpU64 (zlen t); opS ",'processes':["] ++ commas (map row t) ++ close)
  end.
Arguments per_process {T} name%_string_scope row t.
Definition proc_head (pid : Z) (comm : list byte) : list jop := [opS "{'pid':"; OpU64 pid; opS ",'comm':'"; OpEsc comm; opQ].
Definition rb_row (r : rb_stat_t) : list jop :=
  proc_head (rs_pid r) (rs_comm r) ++ [opS ",'bursts':"; OpU64 (rs_burst_count r); opS ",'max_touch_count':"; OpU64 (rs_max_touch_count r);
    opS ",'max_distinct':"; OpI64 (rs_max_distinct r); OpC x7d].
Definition rb_emit_summary : list rb_stat_t -> option (list jop) := per_process "massdelete_detect_summary" rb_row.
Definition eb_row (r : eb_stat_t) : list jop :=
  proc_head (eb_pid r) (eb_comm r) ++ [opS ",'bursts':"; OpU64 (eb_burst_count r); opS ",'max_bytes_sent':"; OpU64 (eb_max_bytes_sent r); OpC x7d].
Definition eb_emit_summary : list eb_stat_t -> option (list jop) := per_process "exfil_detect_summary" eb_row.
Definition a11y_row (r : a11y_stat_t) : list jop :=
  proc_head (as_pid r) (as_comm r) ++ [opS ",'bursts':"; OpU64 (as_burst_count r); opS ",'max_touch_count':"; OpU64 (as_max_touch_count r); OpC x7d].
Definition a11y_emit_summary : list a11y_stat_t -> option (list jop) := per_process "accessibility_detect_summary" a11y_row.
Definition fileless_row (r : fileless_stat_t) : list jop :=
  proc_head (ls_pid r) (ls_comm r) ++ [opS ",'count':"; OpU64 (ls_count r); OpC x7d].
Definition fileless_emit_summary : list fileless_stat_t -> option (list jop) := per_process "fileless_detect_summary" fileless_row.
Definition mediaproj_row (r : mediaproj_stat_t) : list jop :=
  proc_head (ms_pid r) (ms_comm r) ++ [opS ",'sessions':"; OpU64 (ms_sessions r); opS ",'total_binder_calls':"; OpU64 (ms_total_binder_calls r); OpC x7d].
Definition mediaproj_emit_summary : list mediaproj_stat_t -> option (list jop) := per_process "screencapture_detect_summary" mediaproj_row.

(** ** The declared values *)

Definition ex_rowv (r : exec_stat_t) : json :=
  JObj [fld "path" (JStr (es_path r)); fld "count" (jnat (es_count r)); fld "suspicious" (JBool (is_suspicious_bin (es_path r)))].
Definition ex_summary (t : list exec_stat_t) : json :=
  tagged (bytes_of "execve_summary") [fld "total_execs" (jnat (total es_count t)); fld "unique_binaries" (jnat (zlen t));
    fld "flagged" (jnat (flagged (fun r => is_suspicious_bin (es_path r)) t)); fld "binaries" (JArr (map ex_rowv t))].
Definition pr_rowv (r : prop_stat_t) : json :=
  JObj [fld "name" (JStr (ps_name r)); fld "count" (jnat (ps_count r)); fld "rasp" (JBool (is_rasp_prop (ps_name r)))].
Definition pr_summary (t : list prop_stat_t) : json :=
  tagged (bytes_of "prop_read_summary") [fld "total" (jnat (total ps_count t)); fld "unique_props" (jnat (zlen t));
    fld "rasp_count" (jnat (flagged (fun r => is_rasp_prop (ps_name r)) t)); fld "props" (JArr (map pr_rowv t))].
Definition fa_rowv (r : fa_stat_t) : json :=
  JObj [fld "path" (JStr (fs_path r)); fld "count" (jnat (fs_count r)); fld "categories" (JArr (map JStr (category_names (fs_categories r))))].
Definition fa_summary (t : list fa_stat_t) : json :=
  tagged (bytes_of "file_access_summary") [fld "total" (jnat (total fs_count t)); fld "unique_paths" (jnat (zlen t));
    fld "flagged" (jnat (flagged (fun r => negb (fs_categories r =? 0)) t)); fld "paths" (JArr (map fa_rowv t))].
Definition pe_summary (c : proc_counts) : json :=
  tagged (bytes_of "proc_event_summary") [fld "forks" (jnat (g_forks c)); fld "exits" (jnat (g_exits c)); fld "signal_exits" (jnat (g_sig_exits c))].

Definition proc_fields (pid : Z) (comm : list byte) : list (list byte * json) := [fld "pid" (jnat pid); fld "comm" (JStr comm)].
Definition rb_rowv (r : rb_stat_t) : json :=
  JObj (proc_fields (rs_pid r) (rs_comm r) ++ [fld "bursts" (jnat (rs_burst_count r)); fld "max_touch_count" (jnat (rs_max_touch_count r));
    fld "max_distinct" (jint (rs_max_distinct r))]).
Definition eb_rowv (r : eb_stat_t) : json :=
  JObj (proc_fields (eb_pid r) (eb_comm r) ++ [fld "bursts" (jnat (eb_burst_count r)); fld "max_bytes_sent" (jnat (eb_max_bytes_sent r))]).
Definition a11y_rowv (r : a11y_stat_t) : json :=
  JObj (proc_fields (as_pid r) (as_comm r) ++ [fld "bursts" (jnat (as_burst_count r)); fld "max_touch_count" (jnat (as_max_touch_count r))]).
Definition fileless_rowv (r : fileless_stat_t) : json := JObj (proc_fields (ls_pid r) (ls_comm r) ++ [fld "count" (jnat (ls_count r))]).
Definition mediaproj_rowv (r : mediaproj_stat_t) : json :=
  JObj (proc_fields (ms_pid r) (ms_comm r) ++ [fld "sessions" (jnat (ms_sessions r)); fld "total_binder_calls" (jnat (ms_total_binder_calls r))]).
Definition process_summary {T} (name : String.string) (rowv : T -> json) (t : list T) : json :=
  tagged (bytes_of name) [fld "process_count" (jnat (zlen t)); fld "processes" (JArr (map rowv t))].
Arguments process_summary {T} name%_string_scope rowv t.

(** The rows keep the widths of their C types. *)
Definition rb_ok (r : rb_stat_t) : Prop := in_u 32 (rs_pid r) /\ in_u 32 (rs_burst_count r) /\ in_u 32 (rs_max_touch_count r) /\ - 2 ^ 31 <= rs_max_distinct r < 2 ^ 31.
Definition eb_ok (r : eb_stat_t) : Prop := in_u 32 (eb_pid r) /\ in_u 32 (eb_burst_count r) /\ in_u 64 (eb_max_bytes_sent r).
Definition a11y_ok (r : a11y_stat_t) : Prop := in_u 32 (as_pid r) /\ in_u 32 (as_burst_count r) /\ in_u 32 (as_max_touch_count r).
Definition fileless_row_ok (r : fileless_stat_t) : Prop := in_u 32 (ls_pid r) /\ in_u 32 (ls_count r).
Definition mediaproj_ok (r : mediaproj_stat_t) : Prop := in_u 32 (ms_pid r) /\ in_u 32 (ms_sessions r) /\ in_u 64 (ms_total_binder_calls r).

(** A row's operations write its value. *)
Record row_builds {T} (row : T -> list jop) (rowv : T -> json) (ok : T -> Prop) : Prop := {
  rw_text : forall r k, ok r -> tput (row r) k = jput (rowv r) k;
  rw_ops : forall r, ok r -> Forall jop_ok (row r);
  rw_jok : forall r, ok r -> jok (rowv r)
}.
Ltac row_tac := constructor; intros r; [intros k|..]; intros H; [value_text|ops_ok|value_ok].

Lemma rows_text {T} (row : T -> list jop) rowv ok t k k' :
  row_builds row rowv ok -> Forall ok t -> k = x5d :: k' -> tput (commas (map row t)) k = jarr_body (map rowv t) k'.
Proof.
  intros [H1 _ _] Ht ->. erewrite (tput_items row rowv); [reflexivity| |reflexivity]. intros r k Hr. apply H1.
  rewrite list.Forall_forall in Ht. now apply Ht.
Qed.

Definition ex_ok (r : exec_stat_t) : Prop := in_u 32 (es_count r).
Definition pr_ok (r : prop_stat_t) : Prop := in_u 32 (ps_count r).
Definition fa_ok (r : fa_stat_t) : Prop := in_u 32 (fs_count r).

Lemma ex_row_builds : row_builds ex_row ex_rowv ex_ok.
Proof.
  unfold ex_row, ex_rowv, ex_ok, true_false. constructor; intros r; [intros k|..]; intros H; destruct (is_suspicious_bin _);
    [value_text|value_text|ops_ok|ops_ok|value_ok|value_ok].
Qed.
Lemma pr_row_builds : row_builds pr_row pr_rowv pr_ok.
Proof.
  unfold pr_row, pr_rowv, pr_ok, true_false. constructor; intros r; [intros k|..]; intros H; destruct (is_rasp_prop _);
    [value_text|value_text|ops_ok|ops_ok|value_ok|value_ok].
Qed.
Lemma fa_row_builds : row_builds fa_row fa_rowv fa_ok.
Proof.
  unfold fa_row, fa_rowv, fa_ok. constructor; intros r; [intros k|..]; intros H; [|ops_ok|value_ok].
  rewrite !tput_app. erewrite (tput_items bare JStr); [value_text| |reflexivity]. intros s q Hs. eapply bare_text, plain_category, Hs.
Qed.
Lemma rb_row_builds : row_builds rb_row rb_rowv rb_ok.
Proof.
  unfold rb_row, rb_rowv, rb_ok. constructor; intros r; [intros k|..]; intros (H1 & H2 & H3 & H4); [|ops_ok|value_ok].
  - unfold proc_fields. cbn [app]. rewrite jput_obj. cbn [jmore app fst snd fld proc_head tput foldr].
    rewrite i64_text by lia. reflexivity.
Qed.
Lemma eb_row_builds : row_builds eb_row eb_rowv eb_ok.
Proof. unfold eb_row, eb_rowv, eb_ok, proc_head, proc_fields. constructor; intros r; [intros k|..]; intros (H1 & H2 & H3); [value_text|ops_ok|value_ok]. Qed.
Lemma a11y_row_builds : row_builds a11y_row a11y_rowv a11y_ok.
Proof. unfold a11y_row, a11y_rowv, a11y_ok, proc_head, proc_fields. constructor; intros r; [intros k|..]; intros (H1 & H2 & H3); [value_text|ops_ok|value_ok]. Qed.
Lemma fileless_row_builds : row_builds fileless_row fileless_rowv fileless_row_ok.
Proof. unfold fileless_row, fileless_rowv, fileless_row_ok, proc_head, proc_fields. constructor; intros r; [intros k|..]; intros (H1 & H2); [value_text|ops_ok|value_ok]. Qed.
Lemma mediaproj_row_builds : row_builds mediaproj_row mediaproj_rowv mediaproj_ok.
Proof. unfold mediaproj_row, mediaproj_rowv, mediaproj_ok, proc_head, proc_fields. constructor; intros r; [intros k|..]; intros (H1 & H2 & H3); [value_text|ops_ok|value_ok]. Qed.

Lemma total_range {T} (count : T -> Z) t : in_u 64 (total count t).
Proof.
  unfold total. assert (H : forall t n, in_u 64 n -> in_u 64 (foldl (fun n r => u64 (n + count r)) n t)).
  { clear t. induction t as [|r t IH]; intros n Hn; [exact Hn|]. apply IH, u64_range. }
  apply H. unfold in_u. lia.
Qed.
(** Tables are far smaller than their counters. *)
Definition small {T} (t : list T) : Prop := zlen t <= 1024.
Lemma flagged_range {T} (f : T -> bool) t : small t -> in_u 64 (flagged f t).
Proof. unfold small, flagged, zlen, in_u. pose proof (filter_length_le f t). lia. Qed.

(** The common proof: the numbers are in range, the rows are the array. *)
Ltac summary_proof t row rowv ok RB :=
  let r := fresh "r" in let t' := fresh "t'" in let Ht := fresh "Ht" in let Hs := fresh "Hs" in let E := fresh "E" in
  intros Ht Hs; destruct t as [|r t']; [discriminate|]; set (t := r :: t') in *; intros E; apply (inj Some) in E; rewrite <- E; clear E; clearbody t;
  unfold small in Hs; pose proof (zlen_nonneg t); assert (in_u 64 (zlen t)) by range;
  destruct RB as [R1 R2 R3]; pose proof Ht as Hall; rewrite list.Forall_forall in Hall;
  constructor;
    [rewrite text_tput, !tput_app; erewrite (rows_text row rowv ok); [value_text|now split|exact Ht|reflexivity]
    |repeat first [apply commas_ok; intros; apply R2; now apply Hall | apply Forall_app; split | apply list.Forall_cons; split
                  | apply List.Forall_nil | exact I | solve [cbn [jop_ok]; range]]
    |value_ok; auto|now left].

Lemma ex_summary_builds t ops : Forall ex_ok t -> small t -> ex_emit_summary t = Some ops -> builds ops (ex_summary t) [].
Proof.
  unfold ex_emit_summary, ex_summary. intros Hok Hs. pose proof (total_range es_count t). pose proof (flagged_range (fun r => is_suspicious_bin (es_path r)) t Hs).
  revert H H0 Hok Hs. generalize (total es_count t) (flagged (fun r => is_suspicious_bin (es_path r)) t). intros n f Hn Hf.
  summary_proof t ex_row ex_rowv ex_ok ex_row_builds.
Qed.
Lemma pr_summary_builds t ops : Forall pr_ok t -> small t -> pr_emit_summary t = Some ops -> builds ops (pr_summary t) [].
Proof.
  unfold pr_emit_summary, pr_summary. intros Hok Hs. pose proof (total_range ps_count t). pose proof (flagged_range (fun r => is_rasp_prop (ps_name r)) t Hs).
  revert H H0 Hok Hs. generalize (total ps_count t) (flagged (fun r => is_rasp_prop (ps_name r)) t). intros n f Hn Hf.
  summary_proof t pr_row pr_rowv pr_ok pr_row_builds.
Qed.
Lemma fa_summary_builds t ops : Forall fa_ok t -> small t -> fa_emit_summary t = Some ops -> builds ops (fa_summary t) [].
Proof.
  unfold fa_emit_summary, fa_summary. intros Hok Hs. pose proof (total_range fs_count t). pose proof (flagged_range (fun r => negb (fs_categories r =? 0)) t Hs).
  revert H H0 Hok Hs. generalize (total fs_count t) (flagged (fun r => negb (fs_categories r =? 0)) t). intros n f Hn Hf.
  summary_proof t fa_row fa_rowv fa_ok fa_row_builds.
Qed.
Lemma rb_summary_builds t ops : Forall rb_ok t -> small t -> rb_emit_summary t = Some ops ->
  builds ops (process_summary "massdelete_detect_summary" rb_rowv t) [].
Proof. unfold rb_emit_summary, per_process, process_summary. summary_proof t rb_row rb_rowv rb_ok rb_row_builds. Qed.
Lemma eb_summary_builds t ops : Forall eb_ok t -> small t -> eb_emit_summary t = Some ops ->
  builds ops (process_summary "exfil_detect_summary" eb_rowv t) [].
Proof. unfold eb_emit_summary, per_process, process_summary. summary_proof t eb_row eb_rowv eb_ok eb_row_builds. Qed.
Lemma a11y_summary_builds t ops : Forall a11y_ok t -> small t -> a11y_emit_summary t = Some ops ->
  builds ops (process_summary "accessibility_detect_summary" a11y_rowv t) [].
Proof. unfold a11y_emit_summary, per_process, process_summary. summary_proof t a11y_row a11y_rowv a11y_ok a11y_row_builds. Qed.
Lemma fileless_summary_builds t ops : Forall fileless_row_ok t -> small t -> fileless_emit_summary t = Some ops ->
  builds ops (process_summary "fileless_detect_summary" fileless_rowv t) [].
Proof. unfold fileless_emit_summary, per_process, process_summary. summary_proof t fileless_row fileless_rowv fileless_row_ok fileless_row_builds. Qed.
Lemma mediaproj_summary_builds t ops : Forall mediaproj_ok t -> small t -> mediaproj_emit_summary t = Some ops ->
  builds ops (process_summary "screencapture_detect_summary" mediaproj_rowv t) [].
Proof. unfold mediaproj_emit_summary, per_process, process_summary. summary_proof t mediaproj_row mediaproj_rowv mediaproj_ok mediaproj_row_builds. Qed.
Lemma pe_summary_builds c ops :
  in_u 64 (g_forks c) -> in_u 64 (g_exits c) -> in_u 64 (g_sig_exits c) -> pe_emit_summary c = Some ops -> builds ops (pe_summary c) [].
Proof.
  intros H1 H2 H3. unfold pe_emit_summary. destruct (_ && _); [discriminate|]. intros E. apply (inj Some) in E. subst ops.
  constructor; [rewrite text_tput; value_text|ops_ok|value_ok|now left].
Qed.

(** ** The tally is exact *)

Definition count_of (k : list byte) (l : list (list byte)) : Z := zlen (List.filter (fun x => bool_decide (x = k)) l).
Definition sum (l : list Z) : Z := foldr Z.add 0 l.

Lemma count_snoc k l x : count_of k (l ++ [x]) = count_of k l + (if bool_decide (x = k) then 1 else 0).
Proof. unfold count_of. rewrite List.filter_app, zlen_app. cbn [List.filter]. now destruct (bool_decide (x = k)). Qed.
Lemma count_nonneg k l : 0 <= count_of k l.
Proof. apply zlen_nonneg. Qed.
Lemma count_le k l : count_of k l <= zlen l.
Proof. unfold count_of, zlen. pose proof (filter_length_le (fun x => bool_decide (x = k)) l). lia. Qed.
Lemma count_none k l : k ∉ l -> count_of k l = 0.
Proof.
  intros H. unfold count_of. destruct (List.filter _ l) as [|y r] eqn:Ef; [reflexivity|].
  assert (Hy : In y (List.filter (fun z => bool_decide (z = k)) l)) by (rewrite Ef; now left).
  apply filter_In in Hy as [Hy1 Hy2]. apply bool_decide_eq_true in Hy2. subst y. exfalso. apply H. now apply list_elem_of_In.
Qed.
Lemma sum_app a b : sum (a ++ b) = sum a + sum b.
Proof. induction a as [|x a IH]; [reflexivity|]. cbn [app sum foldr]. fold (sum (a ++ b)) (sum a). lia. Qed.
Lemma sum_perm a b : a ≡ₚ b -> sum a = sum b.
Proof. induction 1; cbn [sum foldr]; fold (sum l) || idtac; unfold sum in *; simpl; lia. Qed.
Lemma total_sum {T} (count : T -> Z) t : total count t = u64 (sum (map count t)).
Proof.
  unfold total. assert (H : forall t n, foldl (fun n r => u64 (n + count r)) (u64 n) t = u64 (n + sum (map count t))).
  { clear t. induction t as [|r t IH]; intros n; cbn [foldl map sum foldr]; [now rewrite Z.add_0_r|]. fold (sum (map count t)).
    replace (u64 (u64 n + count r)) with (u64 (n + count r)) by (unfold u64; now rewrite Zplus_mod_idemp_l).
    rewrite IH. f_equal. lia. }
  exact (H t 0).
Qed.

(** One more event adds one to the row of its key. *)
Lemma sum_bump (f : list byte -> Z) ks x :
  NoDup ks -> x ∈ ks -> sum (map (fun k => f k + if bool_decide (x = k) then 1 else 0) ks) = sum (map f ks) + 1.
Proof.
  induction ks as [|k ks IH]; intros Hn Hx; [now apply elem_of_nil in Hx|]. apply list.NoDup_cons in Hn as [Hk Hn].
  cbn [map sum foldr]. fold (sum (map f ks)). destruct (decide (x = k)) as [->|Hne].
  - rewrite bool_decide_true by reflexivity. replace (foldr Z.add 0 _) with (sum (map f ks)); [lia|]. unfold sum. f_equal.
    apply map_ext_in. intros q Hq. rewrite bool_decide_false; [lia|]. intros ->. apply Hk. now apply list_elem_of_In.
  - rewrite bool_decide_false by exact Hne. apply elem_of_cons in Hx as [->|Hx]; [contradiction|]. unfold sum in IH. rewrite (IH Hn Hx). unfold sum. lia.
Qed.
Lemma first_seen_in (names : list (list byte)) x : x ∈ first_seen id names <-> x ∈ names.
Proof.
  induction names as [|e l IH] using rev_ind; [reflexivity|]. rewrite first_seen_snoc. cbn [id].
  rewrite elem_of_app, list_elem_of_singleton. case_decide as H.
  - rewrite IH. split; [now left|]. intros [Hx| ->]; [exact Hx|]. now apply IH.
  - rewrite elem_of_app, list_elem_of_singleton, IH. reflexivity.
Qed.
Lemma counts_sum (names : list (list byte)) : sum (map (fun k => count_of k names) (first_seen id names)) = zlen names.
Proof.
  induction names as [|x l IH] using rev_ind; [reflexivity|]. rewrite first_seen_snoc, zlen_app. change (zlen [x]) with 1. cbn [id].
  assert (Hmap : forall ks, map (fun k => count_of k (l ++ [x])) ks = map (fun k => count_of k l + if bool_decide (x = k) then 1 else 0) ks)
    by (intros ks; apply map_ext; intros k; apply count_snoc).
  case_decide as H.
  - rewrite Hmap, sum_bump, IH; [reflexivity|apply first_seen_nodup|exact H].
  - rewrite map_app, sum_app. cbn [map sum foldr]. rewrite count_snoc, bool_decide_true by reflexivity.
    rewrite count_none by (rewrite <- first_seen_in; exact H). replace (sum (map _ _)) with (zlen l); [lia|]. rewrite <- IH at 1. f_equal. rewrite Hmap. apply map_ext_in.
    intros k Hk. rewrite bool_decide_false; [lia|]. intros ->. apply H. now apply list_elem_of_In.
Qed.

Section Exec.
Context (sym_resolve : Z -> Z -> list byte) (mc : anubee_mod_ctx).
Definition ex_run (l : list execve_event) : session exec_stat_t :=
  foldl (fun s e => ex_handle_event sym_resolve mc 1344 e s) ([], []) l.
(** A sample of the kernel program: its file name is a string of at most 127 bytes. *)
Definition ex_event (e : execve_event) : Prop := h_type (ex_h e) = MOD_EV_EXECVE /\ zlen (ex_filename e) < 128.

Lemma ex_handle_valid e s :
  h_type (ex_h e) = MOD_EV_EXECVE ->
  fst (ex_handle_event sym_resolve mc 1344 e s) = exec_stat_add (ex_filename e) (fst s) /\
  length (snd (ex_handle_event sym_resolve mc 1344 e s)) = length (if mc_sink mc then snd s ++ [[]] else snd s).
Proof.
  intros He. unfold ex_handle_event. rewrite He, Z.eqb_refl. cbn [negb orb]. change (1344 <? 1344) with false. cbv iota.
  destruct s as [t out]. unfold emit. cbn [fst snd]. split; [reflexivity|]. destruct (mc_sink mc); [|reflexivity].
  now rewrite !length_app.
Qed.
Lemma ex_run_table l : Forall ex_event l -> fst (ex_run l) = foldl (fun t p => exec_stat_add p t) [] (map ex_filename l).
Proof.
  induction l as [|e l IH] using rev_ind; intros H; [reflexivity|]. apply Forall_app in H as [Hl He].
  apply list.Forall_cons in He as [[He _] _]. unfold ex_run in *. rewrite map_app, !foldl_app. cbn [foldl map]. rewrite <- (IH Hl).
  now apply ex_handle_valid.
Qed.
Lemma ex_run_out l : Forall ex_event l -> mc_sink mc = true -> length (snd (ex_run l)) = length l.
Proof.
  intros H Hs. induction l as [|e l IH] using rev_ind; [reflexivity|]. apply Forall_app in H as [Hl He].
  apply list.Forall_cons in He as [[He _] _]. unfold ex_run in *. rewrite foldl_app, length_app. cbn [foldl length]. rewrite <- (IH Hl).
  rewrite (proj2 (ex_handle_valid e _ He)), Hs, length_app. simpl. lia.
Qed.

Definition exec_fresh (p : list byte) : exec_stat_t := mk_exec_stat p 1.
Definition exec_hit (p : list byte) (r : exec_stat_t) : exec_stat_t := mk_exec_stat (es_path r) (u32_inc (es_count r)).
Notation row := (row id exec_fresh exec_hit).
(** Names that fit are stored as they are. *)
Lemma exec_adds_short names :
  Forall (fun p => zlen p < 128) names -> forall t,
  foldl (fun t p => exec_stat_add p t) t names = foldl (fun t p => stat_add es_path id exec_fresh exec_hit EXEC_STAT_MAX p t) t names.
Proof.
  induction 1 as [|p l Hp _ IH]; intros t; [reflexivity|]. cbn [foldl]. rewrite IH. f_equal.
  unfold exec_stat_add, stat_add. fold exec_hit. change (fun _ r => mk_exec_stat (es_path r) (u32_inc (es_count r))) with exec_hit.
  destruct (bump es_path id exec_hit p t); [reflexivity|]. destruct (_ >=? _); [reflexivity|].
  unfold exec_fresh, snprintf_s. rewrite take_ge by (unfold zlen in Hp; lia). reflexivity.
Qed.
Lemma exec_row k names :
  Forall (fun p => zlen p < 128) names -> k ∈ names -> row k names = Some (mk_exec_stat k (u32 (count_of k names))).
Proof.
  induction names as [|x l IH] using rev_ind; intros Hl Hk; [now apply elem_of_nil in Hk|].
  apply Forall_app in Hl as [Hl Hx]. apply list.Forall_cons in Hx as [Hx _]. rewrite row_snoc, count_snoc. cbn [id].
  destruct (decide (x = k)) as [->|Hne].
  - rewrite bool_decide_true by reflexivity. destruct (decide (k ∈ l)) as [Hin|Hout].
    + rewrite (IH Hl Hin). unfold exec_hit. cbn [es_path es_count]. unfold u32_inc, u32. now rewrite Zplus_mod_idemp_l.
    + rewrite row_none by (rewrite first_seen_in; exact Hout).
      now rewrite count_none.
  - rewrite bool_decide_false by exact Hne. rewrite Z.add_0_r. apply IH; [exact Hl|]. apply elem_of_app in Hk as [Hk|Hk]; [exact Hk|].
    apply list_elem_of_singleton in Hk. congruence.
Qed.
End Exec.

(** The execve summary is exact.  After any number of execve samples (fewer than
    2^32) of at most 256 different binaries, one record per sample has been built, and
    the table in whatever order [qsort] leaves it gives a summary whose total is the
    number of samples, with one row per binary that was run and the number of its runs;
    the record is the JSON text of those values. *)
Theorem exec_summary_is_exact (sym_resolve : Z -> Z -> list byte) (mc : anubee_mod_ctx) (l : list execve_event)
    (sorted : list exec_stat_t) (ops : list jop) :
  Forall ex_event l -> zlen l < 2 ^ 32 -> (length (first_seen id (map ex_filename l)) <= 256)%nat -> mc_sink mc = true ->
  sorted ≡ₚ fst (ex_run sym_resolve mc l) -> ex_emit_summary sorted = Some ops ->
  length (snd (ex_run sym_resolve mc l)) = length l /\
  total es_count sorted = zlen l /\
  (forall k, k ∈ map es_path sorted <-> k ∈ map ex_filename l) /\ NoDup (map es_path sorted) /\
  (forall r, r ∈ sorted -> es_count r = count_of (es_path r) (map ex_filename l)) /\
  jparse (text ops) = Some (ex_summary sorted).
Proof.
  intros Hl Hlen Hcap Hsink Hperm Hops. set (names := map ex_filename l) in *.
  assert (Hshort : Forall (fun p => zlen p < 128) names).
  { apply List.Forall_map. eapply List.Forall_impl; [|exact Hl]. intros e [_ He]. exact He. }
  assert (Hzn : zlen names = zlen l) by (unfold names, zlen; now rewrite length_map).
  assert (Ht : fst (ex_run sym_resolve mc l) = map (fun k => mk_exec_stat k (count_of k names)) (first_seen id names)).
  { apply (inj (fmap Some)). rewrite ex_run_table by exact Hl. fold names. rewrite exec_adds_short by exact Hshort.
    destruct (stats_are_groups es_path id exec_fresh exec_hit EXEC_STAT_MAX (fun _ => eq_refl) (fun _ _ => eq_refl) names) as [_ Hr];
      [unfold EXEC_STAT_MAX; lia|]. change (Z.to_nat EXEC_STAT_MAX) with 256%nat in Hr. rewrite take_ge in Hr by exact Hcap.
    change (map Some (foldl (fun t p => stat_add es_path id exec_fresh exec_hit EXEC_STAT_MAX p t) [] names) =
            map Some (map (fun k => mk_exec_stat k (count_of k names)) (first_seen id names))).
    rewrite Hr, map_map. apply map_ext_in. intros k Hk. apply list_elem_of_In in Hk.
    rewrite exec_row; [|exact Hshort|now apply first_seen_in]. unfold u32. rewrite Z.mod_small; [reflexivity|].
    pose proof (count_le k names). pose proof (count_nonneg k names). lia. }
  rewrite Ht in Hperm. assert (Hpath : map es_path sorted ≡ₚ first_seen id names).
  { rewrite Hperm. change (map es_path (map (fun k => mk_exec_stat k (count_of k names)) (first_seen id names)) ≡ₚ first_seen id names).
    rewrite map_map. cbn [es_path]. now rewrite map_id. }
  assert (Hcnt : forall r, r ∈ sorted -> es_count r = count_of (es_path r) names).
  { intros r Hr. rewrite Hperm in Hr. apply list_elem_of_In, in_map_iff in Hr as (k & <- & _). reflexivity. }
  split; [now apply ex_run_out|]. split.
  { rewrite total_sum. assert (Hs : sum (map es_count sorted) = zlen l).
    { rewrite <- Hzn, <- counts_sum. apply sum_perm. rewrite Hperm.
      change (map es_count (map (fun k => mk_exec_stat k (count_of k names)) (first_seen id names)) ≡ₚ map (fun k => count_of k names) (first_seen id names)).
      now rewrite map_map. }
    rewrite Hs. apply u64_small. unfold in_u. pose proof (zlen_nonneg l). lia. }
  split; [intros k; rewrite Hpath; apply first_seen_in|]. split; [rewrite Hpath; apply first_seen_nodup|]. split; [exact Hcnt|].
  eapply builds_reads, ex_summary_builds; [| |exact Hops].
  - apply list.Forall_forall. intros r Hr. unfold ex_ok, in_u. rewrite (Hcnt r Hr). pose proof (count_le (es_path r) names).
    pose proof (count_nonneg (es_path r) names). lia.
  - unfold small, zlen. rewrite <- (length_map es_path), Hpath. lia.
Qed.

Definition demo_exec (name : String.string) : execve_event :=
  mk_execve (mk_hdr MOD_EV_EXECVE 7 7) 5 0 0 (bytes_of "sh") (bytes_of name) [] [].
Lemma exec_summary_is_exact_witness :
  let l := map demo_exec ["/bin/su"; "/bin/ls"; "/bin/su"]%string in
  total es_count [mk_exec_stat (bytes_of "/bin/ls") 1; mk_exec_stat (bytes_of "/bin/su") 2] = zlen l.
Proof.
  intros l.
  destruct (exec_summary_is_exact (fun _ _ => []) (mk_mc true false None) l
    [mk_exec_stat (bytes_of "/bin/ls") 1; mk_exec_stat (bytes_of "/bin/su") 2]
    (default [] (ex_emit_summary [mk_exec_stat (bytes_of "/bin/ls") 1; mk_exec_stat (bytes_of "/bin/su") 2]))) as (_ & H & _).
  - repeat constructor.
  - vm_compute. reflexivity.
  - vm_compute. lia.
  - reflexivity.
  - vm_compute. apply perm_swap.
  - reflexivity.
  - exact H.
Defined.
