(* ===== verification/Managed.v ===== *)
(** * Managed: Java frame chains and their cache (src/common/managed_frame.c)

    The chain builder writes a JSON array of method names into a bounded fragment; the
    fragments are cached by stack id and later put into records without any escaping.
    Symbols are C strings; a NULL name is the empty one. *)

From Stdlib Require Import ZArith Lia.
From stdpp Require Import base list option numbers gmap.
From S2P Require Import Prelude Elf Emit Modules Json.

Local Open Scope Z_scope.
#[local] Opaque digits.

Definition contains (sym : list byte) (s : String.string) : bool := bool_decide (is_Some (strstr sym (bytes_of s))).
Arguments contains sym s%_string_scope.

(** What follows the last '!'. *)
Fixpoint after_bang (s : list byte) : option (list byte) :=
  match s with
  | [] => None
  | c :: s => match after_bang s with
              | Some r => Some r
              | None => if bool_decide (c = x21) then Some s else None
              end
  end.
Definition managed_method (sym : list byte) : option (list byte) :=
  if contains sym "art_jni_trampoline" then None
  else if negb (contains sym ".oat!") && negb (contains sym ".odex!") && negb (contains sym ".vdex!") then None
  else after_bang sym.
Definition anubee_is_interp_frame (sym : list byte) : bool :=
  contains sym "ToInterpreterBridge" || contains sym "nterp_helper" || contains sym "ExecuteNterpImpl" ||
  contains sym "ExecuteSwitchImpl" || contains sym "artInterpreterToCompiledCodeBridge".

Definition MAXM : nat := 128.
Definition some_text (s : list byte) : bool := match s with [] => false | _ => true end.
(** The methods, innermost first. *)
Definition methods (syms nterp_names : list (list byte)) : list (list byte) :=
  take MAXM (omap managed_method syms ++ List.filter some_text nterp_names).

Section Build.
Context (realloc_ok : nat -> Z -> bool) (cap : Z).

(** [j.len = save] *)
Definition rollback (save : nat) (j : jbuf) : jbuf := mk_jbuf (option_map (take save) (j_b j)) (j_cap j) (j_err j) (j_try j).
Definition quoted_name (s : list byte) : list jop := [OpC x22; OpEsc s; OpC x22].
Fixpoint chain_loop (l : list (list byte)) (emitted : nat) (j : jbuf) : res (jbuf * nat * bool) :=
  match l with
  | [] => Ret (j, emitted, false)
  | s :: l =>
      let save := length (jbytes j) in
      j ← build realloc_ok ((if (0 <? emitted)%nat then [OpC x2c] else []) ++ quoted_name s) j;
      let reserve := match l with [] => 2 | _ => 6 + 2 end in
      if j_err j || (jlen j + reserve >? cap) then Ret (rollback save j, emitted, true)
      else chain_loop l (S emitted) j
  end.

(** The fragment and the number of methods; [None] leaves the output untouched. *)
Definition anubee_managed_chain_build (syms nterp_names : list (list byte)) : res (option (list byte * nat)) :=
  match methods syms nterp_names with
  | [] => Ret None
  | m =>
      j ← jb_c realloc_ok x5b (mk_jbuf None 0 false 0);
      r ← chain_loop m 0 j;
      let '(j, emitted, truncated) := r in
      if (emitted =? 0)%nat then Ret None else
      j ← (if truncated : bool then jb_s realloc_ok (js ",'...'") j else Ret j);
      j ← jb_c realloc_ok x5d j;
      match j_b j with
      | Some b => if j_err j || (jlen j + 1 >? cap) then Ret None else Ret (Some (b, emitted))
      | None => Ret None
      end
  end.
End Build.

(** ** The cache *)

Definition JC_SLOTS := 8192.
Definition JC_FRAG := 512.
(** The used slots: the id and the fragment. *)
Notation jcache := (gmap Z (Z * list byte)).
Definition slot (id : Z) : Z := Z.land id (JC_SLOTS - 1).
Definition anubee_jcache_put (id : Z) (frag : option (list byte)) (m : jcache) : jcache :=
  match frag with
  | None => m
  | Some frag => if zlen frag + 1 >? JC_FRAG then m else <[slot id := (id, frag)]> m
  end.
Definition anubee_jcache_get (id cap : Z) (m : jcache) : option (list byte) :=
  match m !! slot id with
  | Some (i, frag) => if (i =? id) && (zlen frag + 1 <=? cap) then Some frag else None
  | None => None
  end.
Definition anubee_jcache_reset (m : jcache) : jcache := ∅.

(** ** The fragment is a JSON array *)

(** The text of the first names, without the closing bracket. *)
Definition chain_text (l : list (list byte)) : list byte := x5b :: text (commas (map quoted_name l)).
Lemma chain_text_snoc l s : chain_text (l ++ [s]) = chain_text l ++ text ((if (0 <? length l)%nat then [OpC x2c] else []) ++ quoted_name s).
Proof.
  unfold chain_text. rewrite map_app. destruct l as [|a l]; [reflexivity|]. cbn [map app commas length Nat.ltb Nat.leb].
  rewrite flat_map_app. unfold text. rewrite !flat_map_app. cbn [flat_map]. now rewrite !app_nil_r, <- !app_assoc.
Qed.
Lemma chain_json l : chain_text l ++ [x5d] = jput (JArr (map JStr l)) [].
Proof.
  unfold chain_text. rewrite text_tput, jput_JArr. cbn [app]. f_equal.
  assert (Ht : forall ops k, tput ops [] ++ k = tput ops k).
  { induction ops as [|o ops IH]; intros k; [reflexivity|]. rewrite !tput_cons, <- app_assoc. f_equal. apply IH. }
  rewrite Ht. apply tput_items; [|reflexivity]. intros s k _. reflexivity.
Qed.
Lemma chain_len l : 1 <= zlen (chain_text l).
Proof. unfold chain_text. rewrite zlen_cons. pose proof (zlen_nonneg (text (commas (map quoted_name l)))). lia. Qed.

Lemma chain_text_le a b : zlen (chain_text a) <= zlen (chain_text (a ++ b)).
Proof.
  induction b as [|x b IH] using rev_ind; [rewrite app_nil_r; lia|].
  rewrite app_assoc, (chain_text_snoc (a ++ b) x), zlen_app. etransitivity; [exact IH|].
  match goal with |- _ <= _ + zlen ?t => pose proof (zlen_nonneg t) end. lia.
Qed.

Definition dots : list byte := bytes_of "...".
(** What the fragment lists: all names, or the first of them and a mark. *)
Definition shown (m : list (list byte)) (n : nat) : list (list byte) := take n m ++ (if (n <? length m)%nat then [dots] else []).

Section Chain.
Context (realloc_ok : nat -> Z -> bool) (cap : Z) (Hcap : cap <= 2 ^ 60).
Notation loop := (chain_loop realloc_ok cap).

(** The buffer holds the first names, or memory ran out. *)
Record chain_at (l : list (list byte)) (j : jbuf) : Prop := {
  ch_ok : jb_ok j;
  ch_err : j_err j = false;
  ch_text : jbytes j = chain_text l
}.
Lemma rollback_ok n j : jb_ok j -> jb_ok (rollback n j) /\ jlen (rollback n j) <= Z.of_nat n.
Proof.
  intros [H1 H2 H3]. unfold rollback, jlen, jbytes in *. cbn [j_b j_cap]. destruct (j_b j) as [b|]; cbn [option_map default] in *.
  - simpl in *. split; [split; unfold jlen, jbytes; cbn [j_b j_cap]; simpl; [discriminate| |exact H3]|]; unfold zlen in *; rewrite length_take; lia.
  - simpl. split; [split; unfold jlen, jbytes; cbn [j_b j_cap]; simpl; auto|unfold zlen; simpl; lia].
Qed.
Lemma rollback_at l j j1 t :
  chain_at l j -> appended j j1 t -> j_err j1 = false -> chain_at l (rollback (length (jbytes j)) j1).
Proof.
  intros [H1 H2 H3] [Hj Ha] He. rewrite H2, He in Ha. unfold rollback. destruct Hj as [N1 N2 N3].
  assert (Hb : jbytes (mk_jbuf (option_map (take (length (jbytes j))) (j_b j1)) (j_cap j1) (j_err j1) (j_try j1)) = chain_text l).
  { unfold jbytes in *. cbn [j_b]. destruct (j_b j1) as [b|]; simpl in *; [rewrite Ha, take_app_length; exact H3|].
    rewrite H3 in Ha. destruct (chain_text l) eqn:E; [reflexivity|discriminate]. }
  split; [|exact He|exact Hb]. split; cbn [j_b j_cap].
  - destruct (j_b j1); [discriminate|auto].
  - unfold jlen. rewrite Hb. unfold jlen in N2. rewrite Ha, H3, zlen_app in N2. pose proof (zlen_nonneg t). cbn [j_cap]. lia.
  - exact N3.
Qed.

(** Room for what may still have to be written behind the first names. *)
Definition room (done l : list (list byte)) : Prop :=
  done = [] \/ zlen (chain_text done) + match l with [] => 2 | _ => 8 end <= cap.
Definition short (s : list byte) : Prop := 1 + zlen (text (quoted_name s)) <= 2 ^ 60.
Lemma sep_len (b : bool) s : zlen (text ((if b then [OpC x2c] else []) ++ quoted_name s)) <= 1 + zlen (text (quoted_name s)).
Proof.
  unfold text. rewrite flat_map_app, zlen_app. pose proof (zlen_nonneg (flat_map jop_text (quoted_name s))). destruct b; unfold zlen; simpl; lia.
Qed.
Lemma room_len done l : room done l -> 2 <= cap -> zlen (chain_text done) <= 2 ^ 60.
Proof.
  intros [->|H] Hc; [change (zlen (chain_text [])) with 1; lia|]. destruct l; lia.
Qed.

Lemma loop_spec l : forall done j,
  2 <= cap -> chain_at done j -> room done l -> Forall short l ->
  exists j' n tr, loop l (length done) j = Ret (j', n, tr) /\
    (length done <= n <= length done + length l)%nat /\
    (j_err j' = true /\ (exists i z, realloc_ok i z = false) /\ jb_ok j' /\ jlen j' <= 2 ^ 60 \/
     chain_at (take n (done ++ l)) j' /\ tr = (n <? length (done ++ l))%nat /\
     (n = 0%nat \/ zlen (chain_text (take n (done ++ l))) + (if tr then 8 else 2) <= cap) /\
     (tr = true -> cap < zlen (chain_text (done ++ l)) + 8)).
Proof.
  induction l as [|s l IH]; intros done j Hc Ha Hr Hs; cbn [chain_loop].
  { exists j, (length done), false. rewrite app_nil_r. split; [reflexivity|]. split; [simpl; lia|]. right. rewrite firstn_all, Nat.ltb_irrefl.
    split; [exact Ha|]. split; [reflexivity|]. split; [|discriminate]. destruct Hr as [->|Hr]; [now left|right; exact Hr]. }
  apply list.Forall_cons in Hs as [Hs Hl]. pose proof Ha as [A1 A2 A3]. pose proof (room_len done (s :: l) Hr Hc) as Hlen.
  pose proof (sep_len (0 <? length done)%nat s) as Hsep. unfold short in Hs.
  destruct (emits_build realloc_ok ((if (0 <? length done)%nat then [OpC x2c] else []) ++ quoted_name s)) with (j := j)
    as (j1 & -> & Happ & Hbl); [destruct (0 <? length done)%nat; repeat constructor|exact A1| |].
  { unfold jlen. rewrite A3. unfold LIM in *. lia. }
  rewrite ret_bind. set (sep := text ((if (0 <? length done)%nat then [OpC x2c] else []) ++ quoted_name s)) in *.
  destruct (j_err j1) eqn:Ee; cbn [orb].
  { exists (rollback (length (jbytes j)) j1), (length done), true. split; [reflexivity|]. split; [simpl; lia|]. left. split; [exact Ee|].
    split; [destruct (Hbl Ee); [congruence|assumption]|]. destruct (rollback_ok (length (jbytes j)) j1 (proj1 Happ)) as [R1 R2].
    split; [exact R1|]. etransitivity; [exact R2|]. rewrite A3. exact Hlen. }
  assert (Htext : jbytes j1 = chain_text (done ++ [s])).
  { destruct Happ as [_ Happ]. rewrite A2, Ee in Happ. rewrite Happ, A3, chain_text_snoc. reflexivity. }
  assert (Hgrow : zlen (chain_text (done ++ [s])) <= zlen (chain_text (done ++ s :: l))).
  { replace (done ++ s :: l) with ((done ++ [s]) ++ l) by (now rewrite <- app_assoc). apply chain_text_le. }
  unfold jlen. rewrite Htext, Z.gtb_ltb.
  destruct (Z.ltb_spec cap (zlen (chain_text (done ++ [s])) + match l with [] => 2 | _ => 6 + 2 end)) as [Hover|Hfit].
  - exists (rollback (length (jbytes j)) j1), (length done), true. split; [reflexivity|]. split; [simpl; lia|]. right.
    rewrite take_app_length. split; [eapply rollback_at; eauto|]. split; [symmetry; apply Nat.ltb_lt; rewrite length_app; simpl; lia|].
    split; [destruct Hr as [->|Hr]; [now left|right; exact Hr]|]. intros _. destruct l; lia.
  - destruct (IH (done ++ [s]) j1) as (j' & n & tr & E & Hn & Hres); [exact Hc|split; [exact (proj1 Happ)|exact Ee|exact Htext]| |exact Hl|].
    { right. destruct l; lia. }
    rewrite length_app in E, Hn. cbn [length] in E, Hn. replace (length done + 1)%nat with (S (length done)) in E, Hn by lia.
    rewrite E. exists j', n, tr. split; [reflexivity|]. split; [simpl; lia|]. rewrite <- app_assoc in Hres. exact Hres.
Qed.

(** The closing bracket behind the mark, if any. *)
Lemma finish (tr : bool) j :
  jb_ok j -> jlen j + 7 <= LIM ->
  exists j1 j2, (if tr then jb_s realloc_ok (js ",'...'") j else Ret j) = Ret j1 /\ jb_c realloc_ok x5d j1 = Ret j2 /\
    appended j j2 ((if tr then js ",'...'" else []) ++ [x5d]) /\ blamed realloc_ok j j2.
Proof.
  intros Hj Hl. assert (H1 : exists j1, (if tr then jb_s realloc_ok (js ",'...'") j else Ret j) = Ret j1 /\
    appended j j1 (if tr then js ",'...'" else []) /\ blamed realloc_ok j j1).
  { destruct tr; [|exists j; split; [reflexivity|]; split; [now apply appended_refl|now left]].
    apply emits_raw; [exact Hj|]. change (zlen (js ",'...'")) with 6. lia. }
  destruct H1 as (j1 & E1 & A1 & B1). pose proof (appended_len _ _ _ Hj A1) as Hl1.
  destruct (emits_c realloc_ok x5d j1 (proj1 A1)) as (j2 & E2 & A2 & B2).
  { change (zlen [x5d]) with 1. assert (zlen (if tr then js ",'...'" else []) <= 6) by (destruct tr; vm_compute; discriminate). lia. }
  exists j1, j2. split; [exact E1|]. split; [exact E2|]. split; [eapply appended_trans; eauto|]. intros He. destruct (B2 He); auto.
Qed.

(** The whole builder. *)
Lemma chain_build_spec syms nterp :
  2 <= cap -> Forall short (methods syms nterp) ->
  exists o, anubee_managed_chain_build realloc_ok cap syms nterp = Ret o /\
    match o with
    | Some (frag, n) => frag = jput (JArr (map JStr (shown (methods syms nterp) n))) [] /\ zlen frag < cap /\
                        (0 < n <= length (methods syms nterp))%nat /\
                        ((n < length (methods syms nterp))%nat -> cap < zlen (chain_text (methods syms nterp)) + 8)
    | None => methods syms nterp = [] \/ (exists i z, realloc_ok i z = false) \/ cap < zlen (chain_text (methods syms nterp)) + 8
    end.
Proof.
  intros Hc Hs. unfold anubee_managed_chain_build. destruct (methods syms nterp) as [|s0 m0]; [exists None; auto|].
  set (m := s0 :: m0) in *.
  assert (J0 : jb_ok (mk_jbuf None 0 false 0)) by (split; [reflexivity|vm_compute; discriminate|reflexivity]).
  destruct (emits_c realloc_ok x5b (mk_jbuf None 0 false 0) J0) as (j & -> & Happ & Hbl); [vm_compute; discriminate|]. rewrite ret_bind.
  destruct (j_err j) eqn:Ee.
  { assert (Hf : exists i z, realloc_ok i z = false) by (destruct (Hbl Ee); [discriminate|assumption]).
    assert (Hloop : exists j' n tr, loop m 0 j = Ret (j', n, tr) /\ n = 0%nat).
    { unfold m. cbn [chain_loop Nat.ltb Nat.leb app].
      destruct (emits_build realloc_ok (quoted_name s0)) with (j := j) as (j1 & -> & [_ H1] & _); [repeat constructor|exact (proj1 Happ)| |].
      - pose proof (appended_len _ _ _ J0 Happ) as Hl. change (jlen (mk_jbuf None 0 false 0)) with 0 in Hl. change (zlen [x5b]) with 1 in Hl.
        apply list.Forall_cons in Hs as [Hs _]. unfold short in Hs. unfold LIM in *. lia.
      - rewrite ret_bind. rewrite Ee in H1. subst j1. rewrite Ee. cbn [orb]. eauto. }
    destruct Hloop as (j' & n & tr & -> & ->). rewrite ret_bind. exists None. auto. }
  assert (Hat : chain_at [] j).
  { split; [exact (proj1 Happ)|exact Ee|]. destruct Happ as [_ H]. cbn [j_err] in H. rewrite Ee in H. exact H. }
  destruct (loop_spec m [] j Hc Hat (or_introl eq_refl) Hs) as (j' & n & tr & E & Hn & Hres). cbn [length app] in *. rewrite E, ret_bind.
  destruct n as [|n]; cbn [Nat.eqb].
  { exists None. split; [reflexivity|]. destruct Hres as [(_ & Hf & _)|(_ & Htr & _ & Hov)]; [now right; left|]. right. right. apply Hov. now rewrite Htr. }
  assert (Hb : jb_ok j' /\ jlen j' + 7 <= LIM).
  { destruct Hres as [(_ & _ & H1 & H2)|([H1 _ Ht] & _ & [Hz|Hr] & _)]; [|discriminate Hz|].
    - split; [exact H1|]. unfold LIM. lia.
    - split; [exact H1|]. unfold jlen. rewrite Ht. unfold LIM. destruct tr; lia. }
  destruct (finish tr j' (proj1 Hb) (proj2 Hb)) as (j1 & j2 & -> & E2 & [Hj2 A2] & B2). rewrite ret_bind, E2, ret_bind.
  destruct Hres as [(He & Hf & _)|(Hat' & Htr & [Hz|Hr] & Hov)]; [|discriminate Hz|].
  { rewrite He in A2. subst j2. exists None. rewrite He. cbn [orb]. split; [now destruct (j_b j')|auto]. }
  destruct Hat' as [_ He Ht]. rewrite He in A2. destruct (j_err j2) eqn:Ee2.
  { exists None. cbn [orb]. split; [now destruct (j_b j2)|]. right. left. destruct (B2 Ee2); [congruence|assumption]. }
  assert (Hfrag : jbytes j2 = jput (JArr (map JStr (shown m (S n)))) []).
  { rewrite A2, Ht, <- chain_json. unfold shown. rewrite <- Htr. destruct tr; [|now rewrite !app_nil_r].
    rewrite chain_text_snoc, <- app_assoc. f_equal. }
  assert (Hlen : zlen (jbytes j2) < cap).
  { rewrite A2, Ht, !zlen_app. change (zlen [x5d]) with 1. destruct tr; [change (zlen (js ",'...'")) with 6|change (zlen (@nil byte)) with 0]; lia. }
  unfold jlen. destruct (j_b j2) as [b|] eqn:Eb; unfold jbytes in Hfrag, Hlen; rewrite Eb in Hfrag, Hlen; simpl in Hfrag, Hlen.
  - exists (Some (b, S n)). unfold jbytes. rewrite Eb. simpl (default _ _). rewrite Z.gtb_ltb, (proj2 (Z.ltb_ge _ _)) by lia. cbn [orb].
    split; [reflexivity|]. split; [exact Hfrag|]. split; [exact Hlen|]. split; [lia|]. intros Hlt. apply Hov. rewrite Htr. now apply Nat.ltb_lt.
  - exfalso. discriminate Hfrag.
Qed.
End Chain.

(** ** Chains under their stack ids *)

(** A walked stack: its id, the buffer the engine offers, the names, and which allocations succeed. *)
Record walked := mk_walked { w_id : Z; w_cap : Z; w_syms : list (list byte); w_nterp : list (list byte); w_ok : nat -> Z -> bool }.
Definition w_chain (w : walked) : res (option (list byte * nat)) := anubee_managed_chain_build (w_ok w) (w_cap w) (w_syms w) (w_nterp w).
Definition w_methods (w : walked) : list (list byte) := methods (w_syms w) (w_nterp w).
Definition w_good (w : walked) : Prop := 2 <= w_cap w <= JC_FRAG /\ Forall short (w_methods w).

(** [if (anubee_managed_chain(...) > 0) anubee_jcache_put(s->stack_id, frag);] *)
Definition store_chain (w : walked) (m : jcache) : res jcache :=
  r ← w_chain w;
  Ret (match r with Some (frag, _) => anubee_jcache_put (w_id w) (Some frag) m | None => m end).
Fixpoint store_all (l : list walked) (m : jcache) : res jcache :=
  match l with
  | [] => Ret m
  | w :: l => m ← store_chain w m; store_all l m
  end.
Lemma store_all_snoc l w m : store_all (l ++ [w]) m = (m ← store_all l m; store_chain w m).
Proof.
  revert m. induction l as [|a l IH]; intros m; cbn [app store_all].
  - rewrite ret_bind. now destruct (store_chain w m).
  - destruct (store_chain a m); [|reflexivity..]. rewrite !ret_bind. apply IH.
Qed.
Lemma store_chain_other w m m' k : store_chain w m = Ret m' -> slot (w_id w) <> k -> m' !! k = m !! k.
Proof.
  unfold store_chain. destruct (w_chain w) as [[[frag n]|]| | |]; try discriminate; intros [= <-] Hk; [|reflexivity].
  cbn [anubee_jcache_put]. destruct (zlen frag + 1 >? JC_FRAG); [reflexivity|now apply lookup_insert_ne].
Qed.
(** The slot of a stack stays as it was left when no later stack shares it. *)
Lemma store_all_keeps l1 w l2 frag n m :
  store_all (l1 ++ w :: l2) ∅ = Ret m -> w_chain w = Ret (Some (frag, n)) -> zlen frag < JC_FRAG ->
  Forall (fun w' => slot (w_id w') <> slot (w_id w)) l2 -> m !! slot (w_id w) = Some (w_id w, frag).
Proof.
  intros E Hc Hl Ho. revert m E Ho. induction l2 as [|w' l2 IH] using rev_ind; intros m E Ho; revert E.
  - rewrite store_all_snoc. destruct (store_all l1 ∅) as [m0| | |]; try discriminate. rewrite ret_bind. unfold store_chain. rewrite Hc, ret_bind.
    cbn [anubee_jcache_put]. rewrite Z.gtb_ltb, (proj2 (Z.ltb_ge _ _)) by lia. intros [= <-]. apply lookup_insert_eq.
  - apply list.Forall_app in Ho as [Ho Hw']. apply list.Forall_cons in Hw' as [Hw' _]. replace (l1 ++ w :: l2 ++ [w']) with ((l1 ++ w :: l2) ++ [w']) by (now rewrite <- app_assoc). rewrite store_all_snoc.
    destruct (store_all (l1 ++ w :: l2) ∅) as [m0| | |]; try discriminate. rewrite ret_bind. intros E.
    rewrite (store_chain_other _ _ _ _ E Hw'). now apply IH.
Qed.

Lemma strings_jok l : jok (JArr (map JStr l)).
Proof. cbn [jok]. induction l; simpl; auto. Qed.
(** The fragment of one good stack. *)
Lemma w_chain_spec w : w_good w ->
  exists o, w_chain w = Ret o /\
    match o with
    | Some (frag, n) => jparse frag = Some (JArr (map JStr (shown (w_methods w) n))) /\ zlen frag < JC_FRAG /\
        (0 < n <= length (w_methods w))%nat /\ ((n < length (w_methods w))%nat -> w_cap w < zlen (chain_text (w_methods w)) + 8)
    | None => True
    end.
Proof.
  intros [Hc Hs]. assert (Hb : w_cap w <= 2 ^ 60) by (unfold JC_FRAG in Hc; lia).
  destruct (chain_build_spec (w_ok w) (w_cap w) Hb (w_syms w) (w_nterp w) (proj1 Hc) Hs) as (o & E & H). exists o. split; [exact E|].
  destruct o as [[frag n]|]; [|exact I]. destruct H as (-> & H2 & H3 & H4). split; [|unfold w_methods; repeat split; auto; lia].
  apply jparse_put; [apply strings_jok|constructor].
Qed.

(** What the cache holds under an id: the fragment of the last stack whose chain was put into that slot. *)
Definition holds (l : list walked) (k : Z) (e : option (Z * list byte)) : Prop :=
  match e with
  | Some (i, frag) => exists l1 w l2 n, l = l1 ++ w :: l2 /\ w_id w = i /\ slot i = k /\ w_chain w = Ret (Some (frag, n)) /\
                      Forall (fun w' => slot (w_id w') = k -> w_chain w' = Ret None) l2
  | None => Forall (fun w => slot (w_id w) = k -> w_chain w = Ret None) l
  end.
Lemma store_all_holds l : Forall w_good l -> exists m, store_all l ∅ = Ret m /\ forall k, holds l k (m !! k).
Proof.
  induction l as [|w l IH] using rev_ind; intros H.
  { exists ∅. split; [reflexivity|]. intros k. rewrite lookup_empty. constructor. }
  apply list.Forall_app in H as [Hl Hw]. apply list.Forall_cons in Hw as [Hw _]. destruct (IH Hl) as (m & E & Hm).
  destruct (w_chain_spec w Hw) as (o & Ew & Ho). rewrite store_all_snoc, E, ret_bind. unfold store_chain. rewrite Ew, ret_bind.
  eexists. split; [reflexivity|]. intros k.
  assert (Hskip : (slot (w_id w) = k -> o = None) -> holds (l ++ [w]) k (m !! k)).
  { intros Hn. assert (Hnew : Forall (fun w' => slot (w_id w') = k -> w_chain w' = Ret None) [w]).
    { constructor; [|constructor]. intros Hk. rewrite Ew. now rewrite (Hn Hk). }
    specialize (Hm k). destruct (m !! k) as [[i frag]|]; [|now apply list.Forall_app].
    destruct Hm as (l1 & w1 & l2 & n & -> & H1 & H2 & H3 & H4). exists l1, w1, (l2 ++ [w]), n.
    rewrite <- app_assoc. repeat split; auto. now apply list.Forall_app. }
  destruct o as [[frag n]|]; [|now apply Hskip]. destruct Ho as (_ & Hlen & _). cbn [anubee_jcache_put].
  rewrite Z.gtb_ltb, (proj2 (Z.ltb_ge _ _)) by lia. destruct (decide (slot (w_id w) = k)) as [<-|Hk].
  - rewrite lookup_insert_eq. exists l, w, [], n. repeat split; auto.
  - rewrite lookup_insert_ne by exact Hk. apply Hskip. tauto.
Qed.

(** C15: The java_stack of a record is its own stack's: after any walked stacks,
    whatever allocations failed, the fragment the cache returns for an id reads as a JSON
    array; it comes from the last stack with that id whose chain was built; it lists that
    stack's methods in order, all of them or a non-empty innermost part and the mark "...",
    the latter only when the buffer was too small; it fits the reader's buffer.  The chain
    of a stack is found again as long as its slot is not taken by a later one. *)
Theorem java_stack_is_its_own l :
  Forall w_good l ->
  exists m, store_all l ∅ = Ret m /\
    (forall id cap frag, anubee_jcache_get id cap m = Some frag ->
       zlen frag < cap /\
       exists l1 w l2 n, l = l1 ++ w :: l2 /\ w_id w = id /\
         Forall (fun w' => w_id w' = id -> w_chain w' = Ret None) l2 /\
         jparse frag = Some (JArr (map JStr (shown (w_methods w) n))) /\ (0 < n <= length (w_methods w))%nat /\
         ((n < length (w_methods w))%nat -> w_cap w < zlen (chain_text (w_methods w)) + 8)) /\
    (forall l1 w l2 frag n, l = l1 ++ w :: l2 -> w_chain w = Ret (Some (frag, n)) ->
       Forall (fun w' => slot (w_id w') <> slot (w_id w)) l2 ->
       anubee_jcache_get (w_id w) JC_FRAG m = Some frag).
Proof.
  intros H. destruct (store_all_holds l H) as (m & E & Hm). exists m. split; [exact E|]. split.
  - intros id cap frag. unfold anubee_jcache_get. specialize (Hm (slot id)). destruct (m !! slot id) as [[i f]|]; [|discriminate].
    destruct (Z.eqb_spec i id) as [->|]; [|discriminate]. destruct (Z.leb_spec (zlen f + 1) cap); [|discriminate]. cbn [andb].
    intros E1. apply (inj Some) in E1. subst f. destruct Hm as (l1 & w & l2 & n & -> & Hid & _ & Hc & Hl2).
    split; [lia|]. exists l1, w, l2, n. split; [reflexivity|]. split; [exact Hid|].
    split; [eapply Forall_impl; [exact Hl2|]; intros w' Hw' Ei; apply Hw'; now rewrite Ei|].
    apply list.Forall_app in H as [_ H]. apply list.Forall_cons in H as [H _].
    destruct (w_chain_spec w H) as (o & Eo & Ho). rewrite Hc in Eo. injection Eo as <-. tauto.
  - intros l1 w l2 frag n -> Hc Hl2. specialize (Hm (slot (w_id w))).
    assert (Hw : w_good w) by (apply list.Forall_app in H as [_ H]; now apply list.Forall_cons in H as [H _]).
    destruct (w_chain_spec w Hw) as (o & Eo & Ho). rewrite Hc in Eo. injection Eo as <-. destruct Ho as (_ & Hlen & _).
    unfold anubee_jcache_get. rewrite (store_all_keeps _ _ _ _ _ _ E Hc Hlen Hl2), Z.eqb_refl, (proj2 (Z.leb_le _ _)) by lia. reflexivity.
Qed.

(** Two walked stacks, the second with a smaller buffer. *)
Definition demo_stacks : list walked :=
  [ mk_walked 7 512 [bytes_of "libart.so!art_quick+12"; bytes_of "boot.oat!android.os.Binder.call"; bytes_of "boot.oat!art_jni_trampoline"]
      [bytes_of "com.x.Main.run"] (fun _ _ => true);
    mk_walked 5 30 [bytes_of "base.odex!com.x.Main.run"; bytes_of "base.odex!com.x.Main.loop"] [] (fun _ _ => true) ].
Lemma java_stack_is_its_own_witness :
  Forall w_good demo_stacks /\
  (exists m, store_all demo_stacks ∅ = Ret m /\
     anubee_jcache_get 7 512 m = Some (js "['android.os.Binder.call','com.x.Main.run']") /\
     anubee_jcache_get 5 208 m = Some (js "['com.x.Main.run','...']") /\ anubee_jcache_get 8199 512 m = None) /\
  exists m, store_all demo_stacks ∅ = Ret m /\ anubee_jcache_get 7 JC_FRAG m = Some (js "['android.os.Binder.call','com.x.Main.run']").
Proof.
  assert (Hg : Forall w_good demo_stacks) by (repeat constructor; vm_compute; discriminate).
  split; [exact Hg|]. split; [eexists; split; [vm_compute; reflexivity|]; vm_compute; auto|].
  destruct (java_stack_is_its_own demo_stacks Hg) as (m & E & _ & Hf). exists m. split; [exact E|].
  refine (Hf [] _ _ _ 2%nat eq_refl _ _); [vm_compute; reflexivity|]. repeat constructor. vm_compute. discriminate.
Defined.
