(* ===== verification/Records.v ===== *)
(** * Records: the trace records of the engines

    One builder per record: src/correlate/corr_emit.c, src/funcs/funcs_emit.c,
    src/common/stack_snapshot.c, src/dump/dump_emit.c, src/common/lib_trace.c,
    src/common/coverage.c, the record of src/syscalls/syscalls.c and the unwound stack of
    src/common/symbolize.c.  A builder is the list of the appends it makes; those that
    render descriptors also thread the descriptor cache.  Beside each builder stand the
    value the schema declares and the proof that the builder writes it. *)

From Stdlib Require Import ZArith Lia.
From stdpp Require Import base list option numbers gmap.
From S2P Require Import Correlate Funcs SysTables Syscalls Probe Caches Decode Managed Prelude Elf Emit Json ModEvents.

Local Open Scope Z_scope.
#[local] Opaque digits.

(** ** Shared pieces *)

Definition hexq (v : Z) : list jop := [opQ; OpHex v; opQ].
(** The [n] slots of an array. *)
Definition slots (n : nat) (args : list Z) : list Z := map (fun i => nth i args 0) (seq 0 n).
Lemma slots_range n args v : Forall (in_u 64) args -> v ∈ slots n args -> in_u 64 v.
Proof.
  intros H Hv. apply list_elem_of_In in Hv. apply in_map_iff in Hv as (i & <- & _).
  destruct (nth_in_or_default i args 0) as [Hi| ->]; [|unfold in_u; lia]. rewrite List.Forall_forall in H. auto.
Qed.
Lemma hexq_text v k : in_u 64 v -> tput (hexq v) k = jput (jhex v) k.
Proof. intros H. now rewrite jput_hex. Qed.
Lemma nth_hex i args : Forall (in_u 64) args -> jop_ok (OpHex (nth i args 0)).
Proof.
  intros H. cbn [jop_ok]. destruct (nth_in_or_default i args 0) as [Hi| ->]; [|lia]. rewrite List.Forall_forall in H. exact (H _ Hi).
Qed.

(** ["<i>":"<text>"], the members of the argument objects. *)
Definition arg_ops (a : Z * list byte) : list jop := [opQ; OpU64 (fst a); opS "':'"; OpEsc (snd a); opQ].
Definition arg_member (a : Z * list byte) : list byte * json := (jop_text (OpU64 (fst a)), JStr (snd a)).
Definition args_value (l : list (Z * list byte)) : json := JObj (map arg_member l).
Lemma arg_text a k : in_u 64 (fst a) -> tput (arg_ops a) k = jkey (fst (arg_member a)) (x3a :: jput (snd (arg_member a)) k).
Proof. intros H. unfold arg_ops, arg_member, jkey. cbn [fst snd]. now rewrite esc_dec. Qed.
Definition args_in (l : list (Z * list byte)) : Prop := Forall (fun a => in_u 64 (fst a)) l.
Lemma args_jok l : jok (args_value l).
Proof. apply jok_obj. intros; exact I. Qed.

(** ** Dump records *)

Definition dump_emit_module (module path : list byte) (base pid : Z) (raw : bool) : list jop :=
  head TRACE_DUMP ++
  [opS ",'module':'"; OpEsc module; opQ; opS ",'path':'"; OpEsc path; opQ; opS ",'base':'"; OpHex base; opQ;
   opS ",'pid':"; OpU64 (u64 pid); opS ",'raw':"; true_false raw; OpC x7d].
Definition jb_str_or_null (key : String.string) (v : option (list byte)) : list jop :=
  [opS ",'"; OpS (bytes_of key); opS "':"] ++ match v with Some v => [opQ; OpEsc v; opQ] | None => [opS "null"] end.
Arguments jb_str_or_null key%_string_scope.
Definition dump_emit_modcmp (module path : list byte) (base pid : Z) (state : list byte) (mem_sha256 file_sha256 : option (list byte))
  : list jop :=
  head TRACE_MODCMP ++
  [opS ",'module':'"; OpEsc module; opQ; opS ",'path':'"; OpEsc path; opQ; opS ",'base':'"; OpHex base; opQ;
   opS ",'pid':"; OpU64 (u64 pid); opS ",'state':'"; OpEsc state; opQ] ++
  jb_str_or_null "mem_sha256" mem_sha256 ++ jb_str_or_null "file_sha256" file_sha256 ++ [OpC x7d].

Definition str_or_null (v : option (list byte)) : json := match v with Some v => JStr v | None => JNull end.
Definition dump_value (module path : list byte) (base pid : Z) (raw : bool) : json :=
  obj TRACE_DUMP [fld "module" (JStr module); fld "path" (JStr path); fld "base" (jhex base); fld "pid" (jnat (u64 pid)); fld "raw" (JBool raw)].
Definition modcmp_value (module path : list byte) (base pid : Z) (state : list byte) (m f : option (list byte)) : json :=
  obj TRACE_MODCMP [fld "module" (JStr module); fld "path" (JStr path); fld "base" (jhex base); fld "pid" (jnat (u64 pid));
    fld "state" (JStr state); fld "mem_sha256" (str_or_null m); fld "file_sha256" (str_or_null f)].

Lemma builds_dump module path base pid raw :
  in_u 64 base -> builds (dump_emit_module module path base pid raw) (dump_value module path base pid raw) [].
Proof.
  intros Hb. pose proof (u64_range pid). unfold dump_emit_module, dump_value, true_false.
  destruct raw; (constructor; [rewrite text_tput; value_text|ops_ok|value_ok|now left]).
Qed.
Lemma builds_modcmp module path base pid state m f :
  in_u 64 base -> builds (dump_emit_modcmp module path base pid state m f) (modcmp_value module path base pid state m f) [].
Proof.
  intros Hb. pose proof (u64_range pid). unfold dump_emit_modcmp, modcmp_value, jb_str_or_null, str_or_null.
  destruct m, f; (constructor; [rewrite text_tput; value_text|ops_ok|value_ok|now left]).
Qed.

(** ** Library records *)

Record apk_so_ref := mk_so_ref { so_name : list byte; so_data_start : Z; so_size : Z }.

(** [soname]: the empty name for a NULL or empty one. *)
Definition libtrace_lib (e : lib_map_event) (fullpath soname : list byte) : list jop :=
  [opS "{'type':'lib','pid':"; OpU64 (lm_pid e); opS ",'tid':"; OpU64 (lm_tid e); opS ",'ppid':"; OpI64 (lm_ppid e);
   opS ",'library':'"; OpEsc fullpath; opQ; opS ",'start':'"; OpHex (lm_start e); opQ; opS ",'end':'"; OpHex (lm_end e); opQ;
   opS ",'pgoff':"; OpU64 (lm_pgoff e); opS ",'inode':"; OpU64 (lm_inode e)] ++
  (match soname with [] => [] | s => [opS ",'soname':'"; OpEsc s; opQ] end) ++ [OpC x7d].
Definition libtrace_unlib (e : lib_unmap_event) : list jop :=
  [opS "{'type':'unlib','pid':"; OpU64 (lu_pid e); opS ",'tid':"; OpU64 (lu_tid e);
   opS ",'start':'"; OpHex (lu_start e); opQ; opS ",'end':'"; OpHex (lu_end e); opQ; OpC x7d].
Definition libtrace_packed (apk_path : list byte) (ref : apk_so_ref) : list jop :=
  [opS "{'type':'lib_packed','apk':'"; OpEsc apk_path; opQ; opS ",'soname':'"; OpEsc (so_name ref); opQ;
   opS ",'offset':"; OpU64 (so_data_start ref); opS ",'size':"; OpU64 (so_size ref); OpC x7d].

Definition lib_value (e : lib_map_event) (fullpath soname : list byte) : json :=
  obj TRACE_LIB ([fld "pid" (jnat (lm_pid e)); fld "tid" (jnat (lm_tid e)); fld "ppid" (jint (lm_ppid e));
    fld "library" (JStr fullpath); fld "start" (jhex (lm_start e)); fld "end" (jhex (lm_end e)); fld "pgoff" (jnat (lm_pgoff e));
    fld "inode" (jnat (lm_inode e))] ++ match soname with [] => [] | s => [fld "soname" (JStr s)] end).
Definition unlib_value (e : lib_unmap_event) : json :=
  obj TRACE_UNLIB [fld "pid" (jnat (lu_pid e)); fld "tid" (jnat (lu_tid e)); fld "start" (jhex (lu_start e)); fld "end" (jhex (lu_end e))].
Definition packed_value (apk_path : list byte) (ref : apk_so_ref) : json :=
  tagged (bytes_of "lib_packed") [fld "apk" (JStr apk_path); fld "soname" (JStr (so_name ref));
    fld "offset" (jnat (so_data_start ref)); fld "size" (jnat (so_size ref))].

Definition lib_ok (e : lib_map_event) : Prop :=
  in_u 32 (lm_pid e) /\ in_u 32 (lm_tid e) /\ - 2 ^ 31 <= lm_ppid e < 2 ^ 31 /\ in_u 64 (lm_start e) /\ in_u 64 (lm_end e) /\
  in_u 64 (lm_pgoff e) /\ in_u 64 (lm_inode e).
Definition unlib_ok (e : lib_unmap_event) : Prop :=
  in_u 32 (lu_pid e) /\ in_u 32 (lu_tid e) /\ in_u 64 (lu_start e) /\ in_u 64 (lu_end e).
Definition packed_ok (ref : apk_so_ref) : Prop := in_u 64 (so_data_start ref) /\ in_u 64 (so_size ref).

(** A signed number among the fields. *)
Ltac with_int := unfold tagged; cbn [app]; rewrite ?jput_obj; cbn [jmore app fst snd fld];
  rewrite ?jput_hex by range; rewrite <- ?i64_text by range; reflexivity.
Lemma jint_ok v : - 2 ^ 63 <= v < 2 ^ 63 -> jok (jint v).
Proof. intros H. cbn [jint jok]. lia. Qed.

Lemma builds_lib e path soname : lib_ok e -> builds (libtrace_lib e path soname) (lib_value e path soname) [].
Proof.
  intros (H1 & H2 & H3 & H4 & H5 & H6 & H7). unfold libtrace_lib, lib_value.
  destruct soname; (constructor; [rewrite text_tput; with_int|ops_ok|value_ok|now left]).
Qed.
Lemma builds_unlib e : unlib_ok e -> builds (libtrace_unlib e) (unlib_value e) [].
Proof.
  intros (H1 & H2 & H3 & H4). constructor; [rewrite text_tput; unfold unlib_value; value_text|ops_ok|value_ok|now left].
Qed.
Lemma builds_packed p r : packed_ok r -> builds (libtrace_packed p r) (packed_value p r) [].
Proof.
  intros (H1 & H2). constructor; [rewrite text_tput; unfold packed_value; value_text|ops_ok|value_ok|now left].
Qed.

(** ** Correlate records *)

Definition emit_hex_args (args : list Z) (n : nat) : list jop :=
  [opS ",'args':["] ++ commas (map hexq (slots n args)) ++ [OpC x5d].
Definition corr_emit_func (e : corr_func_event) : list jop :=
  head TRACE_FUNC ++
  [opS ",'span':"; OpU64 (fe_span e); opS ",'parent_span':"; OpU64 (fe_parent e); opS ",'pid':"; OpU64 (fe_pid e);
   opS ",'tid':"; OpU64 (fe_tid e); opS ",'entry_addr':'"; OpHex (fe_addr e); opQ; opS ",'ktime':"; OpU64 (fe_ktime e)] ++
  emit_hex_args (fe_args e) CORR_NUM_ARGS ++ [OpC x7d].
Definition corr_emit_return (e : corr_return_event) : list jop :=
  head TRACE_RETURN ++
  [opS ",'span':"; OpU64 (re_span e); opS ",'pid':"; OpU64 (re_pid e); opS ",'tid':"; OpU64 (re_tid e);
   opS ",'entry_addr':'"; OpHex (re_addr e); opQ; opS ",'retval':'"; OpHex (re_retval e); opQ;
   opS ",'elapsed_ns':"; OpU64 (re_elapsed e); opS ",'ktime':"; OpU64 (re_ktime e); OpC x7d].
(** [dec]: the decoded arguments, the empty text for none. *)
Definition corr_syscall_ops (e : corr_syscall_event) (name : list byte) (dec : list (list byte)) : list jop :=
  head TRACE_SYSCALL ++
  [opS ",'span':"; OpU64 (se_span e); opS ",'pid':"; OpU64 (se_pid e); opS ",'tid':"; OpU64 (se_tid e);
   opS ",'ktime':"; OpU64 (se_ktime e); opS ",'nr':"; OpU64 (se_nr e); opS ",'syscall':'"; OpEsc name; opQ] ++
  emit_hex_args (se_args e) CORR_SYS_ARGS ++
  [opS ",'decoded':["] ++ commas (map quoted dec) ++ [OpC x5d; OpC x7d].

Definition hexes (n : nat) (args : list Z) : json := JArr (map jhex (slots n args)).
Definition func_value (e : corr_func_event) : json :=
  obj TRACE_FUNC [fld "span" (jnat (fe_span e)); fld "parent_span" (jnat (fe_parent e)); fld "pid" (jnat (fe_pid e));
    fld "tid" (jnat (fe_tid e)); fld "entry_addr" (jhex (fe_addr e)); fld "ktime" (jnat (fe_ktime e));
    fld "args" (hexes CORR_NUM_ARGS (fe_args e))].
Definition corr_return_value (e : corr_return_event) : json :=
  obj TRACE_RETURN [fld "span" (jnat (re_span e)); fld "pid" (jnat (re_pid e)); fld "tid" (jnat (re_tid e));
    fld "entry_addr" (jhex (re_addr e)); fld "retval" (jhex (re_retval e)); fld "elapsed_ns" (jnat (re_elapsed e));
    fld "ktime" (jnat (re_ktime e))].
Definition corr_syscall_value (e : corr_syscall_event) (name : list byte) (dec : list (list byte)) : json :=
  obj TRACE_SYSCALL [fld "span" (jnat (se_span e)); fld "pid" (jnat (se_pid e)); fld "tid" (jnat (se_tid e));
    fld "ktime" (jnat (se_ktime e)); fld "nr" (jnat (se_nr e)); fld "syscall" (JStr name);
    fld "args" (hexes CORR_SYS_ARGS (se_args e)); fld "decoded" (JArr (map JStr dec))].

Definition func_ok (e : corr_func_event) : Prop :=
  in_u 64 (fe_span e) /\ in_u 64 (fe_parent e) /\ in_u 32 (fe_pid e) /\ in_u 32 (fe_tid e) /\ in_u 64 (fe_addr e) /\
  in_u 64 (fe_ktime e) /\ Forall (in_u 64) (fe_args e).
Definition corr_return_ok (e : corr_return_event) : Prop :=
  in_u 64 (re_span e) /\ in_u 32 (re_pid e) /\ in_u 32 (re_tid e) /\ in_u 64 (re_addr e) /\ in_u 64 (re_retval e) /\
  in_u 64 (re_elapsed e) /\ in_u 64 (re_ktime e).
Definition corr_syscall_ok (e : corr_syscall_event) : Prop :=
  in_u 64 (se_span e) /\ in_u 32 (se_pid e) /\ in_u 32 (se_tid e) /\ in_u 64 (se_ktime e) /\ in_u 64 (se_nr e) /\
  Forall (in_u 64) (se_args e).

(** Arrays of hexadecimal texts. *)
Ltac hex_items := erewrite (tput_items hexq jhex); [|intros ? ? ?; apply hexq_text; eapply slots_range; eauto|reflexivity].
Ltac hex_ops := now apply nth_hex.

Lemma builds_func e : func_ok e -> builds (corr_emit_func e) (func_value e) [].
Proof.
  intros (H1 & H2 & H3 & H4 & H5 & H6 & H7). unfold corr_emit_func, emit_hex_args, func_value, hexes.
  constructor; [|ops_ok; hex_ops|value_ok|now left]. rewrite text_tput, !tput_app. hex_items. value_text.
Qed.
Lemma builds_corr_return e : corr_return_ok e -> builds (corr_emit_return e) (corr_return_value e) [].
Proof.
  intros (H1 & H2 & H3 & H4 & H5 & H6 & H7).
  constructor; [rewrite text_tput; unfold corr_return_value; value_text|ops_ok|value_ok|now left].
Qed.
Lemma builds_corr_syscall e name dec : corr_syscall_ok e -> builds (corr_syscall_ops e name dec) (corr_syscall_value e name dec) [].
Proof.
  intros (H1 & H2 & H3 & H4 & H5 & H6). unfold corr_syscall_ops, emit_hex_args, corr_syscall_value, hexes.
  constructor; [|ops_ok; hex_ops|value_ok|now left]. rewrite text_tput, !tput_app. hex_items.
  erewrite (tput_items quoted JStr); [|reflexivity|reflexivity]. value_text.
Qed.

(** ** Stack snapshots *)

Lemma plain_sextet v k : safe_char (sextet v k) = true.
Proof.
  unfold sextet. change 63 with (Z.ones 6). rewrite Z.land_ones by lia. pose proof (Z.mod_pos_bound (Z.shiftr v k) (2 ^ 6)) as Hb.
  assert (Hd : 0 <= Z.shiftr v k mod 2 ^ 6 < 256) by lia. revert Hb Hd. generalize (Z.shiftr v k mod 2 ^ 6). intros d Hb Hd.
  pose (P := fun v => (64 <=? v) || safe_char (e64 v)).
  assert (HP : forallb P (map Z.of_nat (seq 0 256)) = true) by (vm_compute; reflexivity).
  pose proof (check_bytes P HP d Hd) as H. unfold P in H. destruct (Z.leb_spec 64 d); [lia|exact H].
Qed.
Lemma plain_b64 p : plain (b64 p).
Proof.
  enough (H : forall n p, (length p <= n)%nat -> plain (b64 p)) by (eapply H; reflexivity).
  clear p. induction n as [|n IH]; intros [|a [|b [|c p]]] Hn; simpl in Hn; try lia; cbn [b64]; try constructor;
    try apply plain_sextet; repeat (constructor; [first [apply plain_sextet|reflexivity]|]); try constructor. apply IH. lia.
Qed.
Lemma jput_b64 p k : jput (JStr (b64 p)) k = x22 :: b64 p ++ x22 :: k.
Proof. cbn [jput]. unfold jkey. now rewrite (esc_plain _ (plain_b64 p)). Qed.

Definition stack_len (k : stack_record) : Z := zlen (k_snap k).
Definition anubee_stack_snapshot_emit_json (k : stack_record) : list jop :=
  [opS "{'type':'stack','pid':"; OpU64 (k_pid k); opS ",'tid':"; OpU64 (k_tid k); opS ",'stack_id':"; OpU64 (k_sid k);
   opS ",'pc':'"; OpHex (k_pc k); opQ; opS ",'sp':'"; OpHex (k_sp k); opQ; opS ",'fp':'"; OpHex (k_fp k); opQ;
   opS ",'lr':'"; OpHex (k_lr k); opQ; opS ",'regs':["] ++ commas (map hexq (slots ANUBEE_SNAP_NREG (k_regs k))) ++
  [OpC x5d; opS ",'tls_base':'"; OpHex (k_tls k); opQ; opS ",'snap_len':"; OpU64 (stack_len k);
   opS ",'truncated':"; OpU64 (if k_truncated k then 1 else 0); opS ",'snapshot':'"] ++
  (if stack_len k <=? ANUBEE_SNAP_MAX then [OpB64 (k_snap k)] else []) ++ [OpS (js "'}" ++ [x0a])].
Definition stack_value (k : stack_record) : json :=
  obj TRACE_STACK [fld "pid" (jnat (k_pid k)); fld "tid" (jnat (k_tid k)); fld "stack_id" (jnat (k_sid k));
    fld "pc" (jhex (k_pc k)); fld "sp" (jhex (k_sp k)); fld "fp" (jhex (k_fp k)); fld "lr" (jhex (k_lr k));
    fld "regs" (hexes ANUBEE_SNAP_NREG (k_regs k)); fld "tls_base" (jhex (k_tls k)); fld "snap_len" (jnat (stack_len k));
    fld "truncated" (jnat (if k_truncated k then 1 else 0)); fld "snapshot" (JStr (b64 (k_snap k)))].
Definition stack_ok (k : stack_record) : Prop :=
  (in_u 32 (k_pid k) /\ in_u 32 (k_tid k) /\ in_u 64 (k_sid k) /\ in_u 64 (k_pc k)) /\
  (in_u 64 (k_sp k) /\ in_u 64 (k_fp k) /\ in_u 64 (k_lr k) /\ Forall (in_u 64) (k_regs k)) /\
  in_u 64 (k_tls k) /\ stack_len k <= ANUBEE_SNAP_MAX.
Lemma builds_stack k : stack_ok k -> builds (anubee_stack_snapshot_emit_json k) (stack_value k) [x0a].
Proof.
  intros ((H1 & H2 & H3 & H4) & (H5 & H6 & H7 & H8) & H9 & H10). unfold anubee_stack_snapshot_emit_json, stack_value, hexes.
  rewrite (proj2 (Z.leb_le _ _)) by exact H10. assert (in_u 64 (stack_len k)).
  { pose proof (zlen_nonneg (k_snap k)). unfold stack_len, ANUBEE_SNAP_MAX in *. range. }
  constructor; [|ops_ok; try hex_ops|value_ok; destruct (k_truncated k); lia|now right].
  rewrite text_tput, !tput_app. hex_items. unfold tagged. rewrite ?jput_obj. cbn [jmore app fst snd fld].
  rewrite jput_b64. value_text.
Qed.

(** ** Coverage *)

Definition ANUBEE_CFI_STOP_N : nat := 10.
Definition CFI_OK_I := 0.
Definition CFI_SNAP_PC_ZERO_I := 7.
Definition k_stop_name : list String.string :=
  ["ok"; "no_fde"; "ra_readfault"; "bad_cfa_reg"; "ra_undef"; "ra_zero"; "run_fail"; "snap_pc_zero"; "snap_no_mapping";
   "snap_cfi_get_null"]%string.
Definition anubee_cfi_stop_name (reason : Z) : list byte :=
  if (reason <? 0) || (reason >=? Z.of_nat ANUBEE_CFI_STOP_N) then bytes_of "unknown"
  else bytes_of (nth (Z.to_nat reason) k_stop_name "unknown"%string).
Definition anubee_cfi_stop_is_blind (reason : Z) : bool := negb (reason =? CFI_OK_I) && negb (reason =? CFI_SNAP_PC_ZERO_I).

Record anubee_coverage := mk_cov {
  cv_engine : option (list byte); cv_exempt : bool; cv_exempt_reason : option (list byte);
  cv_snaps_total : Z; cv_snaps_truncated : Z; cv_cfi_walks : Z; cv_cfi_stop : list Z; cv_ring_drops : Z; cv_queue_drops : Z;
  cv_managed_naming_off : bool; cv_prearm_drops : Z; cv_depth_capped : Z; cv_decode_partial : bool;
  cv_spans_opened : Z; cv_returns_captured : Z; cv_returns_mode : bool
}.
Definition nz (v : Z) : bool := negb (v =? 0).
(** The blind stop reasons that were seen, with their counts. *)
Definition blind_stops (c : anubee_coverage) : list (Z * Z) :=
  List.filter (fun s => nz (snd s) && anubee_cfi_stop_is_blind (fst s))
    (map (fun i => (Z.of_nat i, nth i (cv_cfi_stop c) 0)) (seq 0 ANUBEE_CFI_STOP_N)).
Definition cov_degraded (c : anubee_coverage) : bool :=
  nz (cv_snaps_truncated c) || nz (cv_ring_drops c) || nz (cv_queue_drops c) || cv_managed_naming_off c ||
  nz (cv_prearm_drops c) || nz (cv_depth_capped c) || cv_decode_partial c ||
  (cv_returns_mode c && (cv_returns_captured c <? cv_spans_opened c)) || match blind_stops c with [] => false | _ => true end.

Definition stop_ops (s : Z * Z) : list jop := [opQ; OpS (anubee_cfi_stop_name (fst s)); opS "':"; OpU64 (snd s)].
Definition returns_ops (c : anubee_coverage) : list jop :=
  if cv_returns_mode c then
    [opS ",'returns':{'spans':"; OpU64 (cv_spans_opened c); opS ",'captured':"; OpU64 (cv_returns_captured c); OpC x7d]
  else [].
Definition cov_engine (c : anubee_coverage) : list byte := default (bytes_of "?") (cv_engine c).
Definition newline_end (s : String.string) : jop := OpS (js s ++ [x0a]).
Arguments newline_end s%_string_scope.
(** The members of a degraded run. *)
Definition cov_signals (c : anubee_coverage) : list jop :=
  (if nz (cv_snaps_total c) || nz (cv_snaps_truncated c)
   then [opS ",'snaps':{'total':"; OpU64 (cv_snaps_total c); opS ",'truncated':"; OpU64 (cv_snaps_truncated c); OpC x7d] else []) ++
  (if nz (cv_cfi_walks c)
   then [opS ",'cfi':{'walks':"; OpU64 (cv_cfi_walks c); opS ",'stops':{"] ++ commas (map stop_ops (blind_stops c)) ++ [opS "}}"]
   else []) ++
  (if nz (cv_ring_drops c) || nz (cv_queue_drops c)
   then [opS ",'drops':{'ring':"; OpU64 (cv_ring_drops c); opS ",'queue':"; OpU64 (cv_queue_drops c); OpC x7d] else []) ++
  (if cv_managed_naming_off c then [opS ",'managed_naming_off':true"] else []) ++
  (if nz (cv_prearm_drops c) then [opS ",'prearm_drops':"; OpU64 (cv_prearm_drops c)] else []) ++
  (if nz (cv_depth_capped c) then [opS ",'depth_capped':"; OpU64 (cv_depth_capped c)] else []) ++
  (if cv_decode_partial c then [opS ",'decode_partial':true"] else []) ++ returns_ops c.
Definition cov_build_json (c : anubee_coverage) (degraded : bool) : list jop :=
  [opS "{'type':'coverage','engine':'"; OpEsc (cov_engine c); opQ] ++
  (if negb degraded then [opS ",'clean':true"] ++ returns_ops c else cov_signals c) ++ [newline_end "}"].
(** What the report appends to the sink's buffer. *)
Definition coverage_record (c : anubee_coverage) : list jop :=
  if cv_exempt c then
    [opS "{'type':'coverage','engine':'"; OpEsc (cov_engine c); opS "','exempt':true,'reason':'";
     OpEsc (default (bytes_of "no coverage surface") (cv_exempt_reason c)); newline_end "'}"]
  else cov_build_json c (cov_degraded c).

Definition opt_fld (b : bool) (k : String.string) (v : json) : list (list byte * json) := if b then [fld k v] else [].
Arguments opt_fld b k%_string_scope.
Definition returns_fld (c : anubee_coverage) : list (list byte * json) :=
  opt_fld (cv_returns_mode c) "returns" (JObj [fld "spans" (jnat (cv_spans_opened c)); fld "captured" (jnat (cv_returns_captured c))]).
Definition stop_member (s : Z * Z) : list byte * json := (anubee_cfi_stop_name (fst s), jnat (snd s)).
Definition signals (c : anubee_coverage) : list (list byte * json) :=
  opt_fld (nz (cv_snaps_total c) || nz (cv_snaps_truncated c)) "snaps"
    (JObj [fld "total" (jnat (cv_snaps_total c)); fld "truncated" (jnat (cv_snaps_truncated c))]) ++
  opt_fld (nz (cv_cfi_walks c)) "cfi" (JObj [fld "walks" (jnat (cv_cfi_walks c)); fld "stops" (JObj (map stop_member (blind_stops c)))]) ++
  opt_fld (nz (cv_ring_drops c) || nz (cv_queue_drops c)) "drops"
    (JObj [fld "ring" (jnat (cv_ring_drops c)); fld "queue" (jnat (cv_queue_drops c))]) ++
  opt_fld (cv_managed_naming_off c) "managed_naming_off" (JBool true) ++
  opt_fld (nz (cv_prearm_drops c)) "prearm_drops" (jnat (cv_prearm_drops c)) ++
  opt_fld (nz (cv_depth_capped c)) "depth_capped" (jnat (cv_depth_capped c)) ++
  opt_fld (cv_decode_partial c) "decode_partial" (JBool true) ++ returns_fld c.
Definition coverage_value (c : anubee_coverage) : json :=
  tagged (bytes_of "coverage") (fld "engine" (JStr (cov_engine c)) ::
    if cv_exempt c then [fld "exempt" (JBool true); fld "reason" (JStr (default (bytes_of "no coverage surface") (cv_exempt_reason c)))]
    else if cov_degraded c then signals c else fld "clean" (JBool true) :: returns_fld c).

Definition coverage_ok (c : anubee_coverage) : Prop :=
  (in_u 64 (cv_snaps_total c) /\ in_u 64 (cv_snaps_truncated c) /\ in_u 64 (cv_cfi_walks c) /\ Forall (in_u 64) (cv_cfi_stop c)) /\
  (in_u 64 (cv_ring_drops c) /\ in_u 64 (cv_queue_drops c) /\ in_u 64 (cv_prearm_drops c) /\ in_u 64 (cv_depth_capped c)) /\
  in_u 64 (cv_spans_opened c) /\ in_u 64 (cv_returns_captured c).

Lemma blind_stops_in c s : Forall (in_u 64) (cv_cfi_stop c) -> s ∈ blind_stops c -> in_u 64 (snd s) /\ plain (anubee_cfi_stop_name (fst s)).
Proof.
  intros H Hs. apply list_elem_of_In, filter_In in Hs as [Hs _]. apply in_map_iff in Hs as (i & <- & Hi%in_seq). cbn [fst snd]. split.
  - destruct (nth_in_or_default i (cv_cfi_stop c) 0) as [Hn| ->]; [|unfold in_u; lia]. rewrite List.Forall_forall in H. auto.
  - unfold ANUBEE_CFI_STOP_N in Hi. do 10 (destruct i as [|i]; [repeat constructor|]). lia.
Qed.
Lemma stop_text c s k : Forall (in_u 64) (cv_cfi_stop c) -> s ∈ blind_stops c ->
  tput (stop_ops s) k = jkey (fst (stop_member s)) (x3a :: jput (snd (stop_member s)) k).
Proof.
  intros H Hs. destruct (blind_stops_in c s H Hs) as [_ Hp]. unfold stop_ops, stop_member, jkey. cbn [fst snd].
  rewrite (esc_plain _ Hp). reflexivity.
Qed.

(** Members behind the first, in front of [k]. *)
Definition jmid (l : list (list byte * json)) (k : list byte) : list byte :=
  foldr (fun m k => x2c :: jkey (fst m) (x3a :: jput (snd m) k)) k l.
Lemma jmid_app a b k : jmid (a ++ b) k = jmid a (jmid b k).
Proof. apply foldr_app. Qed.
Lemma jmid_more l k : jmore l k = jmid l (x7d :: k).
Proof. induction l as [|m l IH]; [reflexivity|]. cbn [jmore jmid foldr]. fold (jmid l (x7d :: k)). now rewrite <- IH. Qed.
Lemma tagged_mid t l k : jput (tagged t l) k = x7b :: jkey (bytes_of "type") (x3a :: jput (JStr t) (jmid l (x7d :: k))).
Proof. unfold tagged. rewrite jput_obj, jmid_more. reflexivity. Qed.
(** The piece of a builder that writes the members [l]. *)
Definition writes (ops : list jop) (l : list (list byte * json)) : Prop :=
  (forall k, tput ops k = jmid l k) /\ Forall jop_ok ops /\ Forall (fun m => jok (snd m)) l.
Lemma writes_app o1 l1 o2 l2 : writes o1 l1 -> writes o2 l2 -> writes (o1 ++ o2) (l1 ++ l2).
Proof.
  intros (H1 & H2 & H3) (G1 & G2 & G3). split; [intros k; now rewrite tput_app, jmid_app, G1, H1|].
  split; apply Forall_app; auto.
Qed.
Lemma writes_if (b : bool) ops key v : writes ops [fld key v] -> writes (if b then ops else []) (opt_fld b key v).
Proof. destruct b; [auto|]. intros _. repeat constructor. Qed.
Lemma jok_members l : Forall (fun m => jok (snd m)) l -> jok (JObj l).
Proof. induction 1; simpl; auto. Qed.
(** A record: its first members, the pieces, the end. *)
Definition starts (pre : list jop) (t : list byte) (l : list (list byte * json)) : Prop :=
  (forall k, tput pre k = x7b :: jkey (bytes_of "type") (x3a :: jput (JStr t) (jmid l k))) /\
  Forall jop_ok pre /\ Forall (fun m => jok (snd m)) l.
Lemma builds_pieces pre t l0 ops l tail e :
  starts pre t l0 -> writes ops l -> (forall k, tput tail k = x7d :: e ++ k) -> Forall jop_ok tail -> line_end e ->
  builds (pre ++ ops ++ tail) (tagged t (l0 ++ l)) e.
Proof.
  intros (P1 & P2 & P3) (H1 & H2 & H3) Ht Hto He. constructor; [| | |exact He].
  - rewrite text_tput, !tput_app, Ht, H1, P1, tagged_mid, app_nil_r, jmid_app. reflexivity.
  - apply Forall_app. split; [exact P2|]. now apply Forall_app.
  - apply jok_members. constructor; [exact I|]. now apply Forall_app.
Qed.
Ltac piece := split; [intros; reflexivity|split; [ops_ok|repeat constructor; value_ok]].

Lemma returns_writes c : coverage_ok c -> writes (returns_ops c) (returns_fld c).
Proof. intros (_ & _ & H1 & H2). apply writes_if. piece. Qed.
Lemma cfi_writes c : coverage_ok c ->
  writes ([opS ",'cfi':{'walks':"; OpU64 (cv_cfi_walks c); opS ",'stops':{"] ++ commas (map stop_ops (blind_stops c)) ++ [opS "}}"])
    [fld "cfi" (JObj [fld "walks" (jnat (cv_cfi_walks c)); fld "stops" (JObj (map stop_member (blind_stops c)))])].
Proof.
  intros ((_ & _ & Hw & Hs) & _). split; [|split].
  - intros k. rewrite !tput_app. erewrite (tput_members stop_ops stop_member); [|intros; eapply stop_text; eauto|reflexivity].
    cbn [jmid foldr fst snd fld]. rewrite jput_obj. cbn [jmore fst snd fld]. rewrite jput_JObj. reflexivity.
  - apply Forall_app. split; [ops_ok|]. apply Forall_app. split; [|ops_ok]. apply commas_ok. intros s Hin.
    destruct (blind_stops_in c s Hs Hin). ops_ok.
  - constructor; [|constructor]. cbn [snd fld jok foldr]. split; [exact Hw|]. split; [|exact I].
    apply jok_obj. intros s Hin. destruct (blind_stops_in c s Hs Hin). range.
Qed.
Lemma signals_writes c : coverage_ok c -> writes (cov_signals c) (signals c).
Proof.
  intros Hok. pose proof Hok as ((H1 & H2 & H3 & H4) & (H5 & H6 & H7 & H8) & H9). unfold cov_signals, signals.
  repeat apply writes_app; try apply writes_if; try (now apply returns_writes); try (now apply cfi_writes); piece.
Qed.
Lemma builds_coverage c : coverage_ok c -> builds (coverage_record c) (coverage_value c) [x0a].
Proof.
  intros Hok. unfold coverage_record, coverage_value, cov_build_json.
  assert (Hs : starts [opS "{'type':'coverage','engine':'"; OpEsc (cov_engine c); opQ] (bytes_of "coverage") [fld "engine" (JStr (cov_engine c))]) by piece.
  destruct (cv_exempt c); [constructor; [rewrite text_tput; reflexivity|ops_ok|value_ok|now right]|].
  destruct (cov_degraded c); cbn [negb].
  - apply (builds_pieces _ _ _ _ _ _ _ Hs (signals_writes c Hok)); [reflexivity|ops_ok|now right].
  - refine (builds_pieces _ _ _ _ (fld "clean" (JBool true) :: returns_fld c) _ _ Hs _ _ _ _); [|reflexivity|ops_ok|now right].
    apply (writes_app _ [fld "clean" (JBool true)]); [piece|now apply returns_writes].
Qed.

(** The value under a key. *)
Fixpoint member (k : String.string) (l : list (list byte * json)) : option json :=
  match l with
  | [] => None
  | (s, v) :: l => if decide (s = bytes_of k) then Some v else member k l
  end.
Arguments member k%_string_scope.
Lemma member_app k a b : member k (a ++ b) = match member k a with Some v => Some v | None => member k b end.
Proof. induction a as [|[s v] a IH]; [reflexivity|]. cbn [app member]. now destruct (decide _). Qed.
Lemma member_opt k b k' v : member k (opt_fld b k' v) = if b && bool_decide (bytes_of k' = bytes_of k) then Some v else None.
Proof. destruct b; [|reflexivity]. cbn [opt_fld member fld]. case_decide; [now rewrite bool_decide_true|now rewrite bool_decide_false]. Qed.
Ltac lookup := unfold signals, returns_fld; rewrite !member_app, !member_opt;
  repeat (rewrite bool_decide_true by (vm_compute; reflexivity) || rewrite bool_decide_false by (vm_compute; discriminate));
  rewrite ?andb_false_r, ?andb_true_r.

Lemma nz_false v : nz v = false <-> v = 0.
Proof. unfold nz. destruct (Z.eqb_spec v 0); simpl; split; intros; auto; try lia; discriminate. Qed.
Lemma filter_none {A} (f : A -> bool) l : (forall a, In a l -> f a = false) -> List.filter f l = [].
Proof. intros H. induction l as [|a l IH]; [reflexivity|]. cbn [List.filter]. rewrite H by now left. apply IH. intros; apply H; now right. Qed.
(** No blind stop was counted. *)
Lemma blind_stops_nil c :
  blind_stops c = [] <-> forall i n, cv_cfi_stop c !! i = Some n -> (i < 10)%nat -> n <> 0 -> i = 0%nat \/ i = 7%nat.
Proof.
  unfold blind_stops. split.
  - intros E i n Hi Hlt Hn. pose proof (nth_lookup_Some _ _ 0 _ Hi) as Hnth.
    assert (Hin : ~ In (Z.of_nat i, n) []) by auto. rewrite <- E in Hin. rewrite filter_In, in_map_iff in Hin.
    destruct (decide (i = 0%nat)); [auto|]. destruct (decide (i = 7%nat)); [auto|]. exfalso. apply Hin. split.
    + exists i. rewrite Hnth. split; [reflexivity|]. apply in_seq. unfold ANUBEE_CFI_STOP_N. lia.
    + cbn [fst snd]. unfold nz, anubee_cfi_stop_is_blind, CFI_OK_I, CFI_SNAP_PC_ZERO_I. rewrite !(proj2 (Z.eqb_neq _ _)) by lia. reflexivity.
  - intros H. apply filter_none. intros [i n] Hin. apply in_map_iff in Hin as (k & [= <- <-] & Hk%in_seq). cbn [fst snd].
    unfold nz. destruct (Z.eqb_spec (nth k (cv_cfi_stop c) 0) 0) as [|Hn]; [reflexivity|]. cbn [negb andb].
    destruct (cv_cfi_stop c !! k) as [n|] eqn:E; [|apply lookup_ge_None, (nth_overflow _ 0) in E; contradiction].
    rewrite (nth_lookup_Some _ _ _ _ E) in Hn. unfold ANUBEE_CFI_STOP_N in Hk. destruct (H k n E) as [-> | ->]; [lia|exact Hn|reflexivity|reflexivity].
Qed.
Lemma not_degraded c : cov_degraded c = false <->
  cv_snaps_truncated c = 0 /\ cv_ring_drops c = 0 /\ cv_queue_drops c = 0 /\ cv_managed_naming_off c = false /\
  cv_prearm_drops c = 0 /\ cv_depth_capped c = 0 /\ cv_decode_partial c = false /\
  (cv_returns_mode c = true -> cv_spans_opened c <= cv_returns_captured c) /\
  (forall i n, cv_cfi_stop c !! i = Some n -> (i < 10)%nat -> n <> 0 -> i = 0%nat \/ i = 7%nat).
Proof.
  rewrite <- blind_stops_nil. unfold cov_degraded. rewrite !orb_false_iff, !nz_false.
  assert (Hr : cv_returns_mode c && (cv_returns_captured c <? cv_spans_opened c) = false <->
               (cv_returns_mode c = true -> cv_spans_opened c <= cv_returns_captured c)).
  { destruct (cv_returns_mode c); simpl; [rewrite Z.ltb_ge; tauto|]. split; [discriminate|reflexivity]. }
  assert (Hb : match blind_stops c with [] => false | _ => true end = false <-> blind_stops c = []) by (destruct (blind_stops c); split; congruence).
  rewrite Hr, Hb. tauto.
Qed.

(** C16: degradation is never silent.  For an engine that has a coverage surface, the
    record of the run reads back as a coverage object of that engine; it says "clean"
    exactly when nothing was truncated, dropped, capped, left undecoded, unnamed or
    unreturned and no unwind stopped blind; otherwise it carries the count of every
    signal that is not zero, and of every blind stop under its own name. *)
Theorem coverage_is_never_silent c :
  coverage_ok c -> cv_exempt c = false -> (blind_stops c <> [] -> cv_cfi_walks c <> 0) ->
  exists l, jparse (text (coverage_record c)) = Some (tagged (bytes_of "coverage") (fld "engine" (JStr (cov_engine c)) :: l)) /\
    (member "clean" l = Some (JBool true) <->
       cv_snaps_truncated c = 0 /\ cv_ring_drops c = 0 /\ cv_queue_drops c = 0 /\ cv_managed_naming_off c = false /\
       cv_prearm_drops c = 0 /\ cv_depth_capped c = 0 /\ cv_decode_partial c = false /\
       (cv_returns_mode c = true -> cv_spans_opened c <= cv_returns_captured c) /\
       (forall i n, cv_cfi_stop c !! i = Some n -> (i < 10)%nat -> n <> 0 -> i = 0%nat \/ i = 7%nat)) /\
    (member "clean" l = None ->
       (cv_snaps_truncated c <> 0 -> member "snaps" l =
          Some (JObj [fld "total" (jnat (cv_snaps_total c)); fld "truncated" (jnat (cv_snaps_truncated c))])) /\
       (nz (cv_ring_drops c) || nz (cv_queue_drops c) = true -> member "drops" l =
          Some (JObj [fld "ring" (jnat (cv_ring_drops c)); fld "queue" (jnat (cv_queue_drops c))])) /\
       (cv_managed_naming_off c = true -> member "managed_naming_off" l = Some (JBool true)) /\
       (cv_prearm_drops c <> 0 -> member "prearm_drops" l = Some (jnat (cv_prearm_drops c))) /\
       (cv_depth_capped c <> 0 -> member "depth_capped" l = Some (jnat (cv_depth_capped c))) /\
       (cv_decode_partial c = true -> member "decode_partial" l = Some (JBool true)) /\
       (blind_stops c <> [] -> member "cfi" l =
          Some (JObj [fld "walks" (jnat (cv_cfi_walks c)); fld "stops" (JObj (map stop_member (blind_stops c)))])) /\
       (cv_returns_mode c = true -> member "returns" l =
          Some (JObj [fld "spans" (jnat (cv_spans_opened c)); fld "captured" (jnat (cv_returns_captured c))]))).
Proof.
  intros Hok He Hw. exists (if cov_degraded c then signals c else fld "clean" (JBool true) :: returns_fld c).
  split; [|split].
  - pose proof (builds_reads _ _ _ (builds_coverage c Hok)) as H. unfold coverage_value in H. rewrite He in H. exact H.
  - rewrite <- not_degraded. destruct (cov_degraded c); [|split; reflexivity]. split; [|discriminate].
    intros H. exfalso. revert H. lookup. discriminate.
  - intros Hn. destruct (cov_degraded c); [|discriminate Hn]. clear Hn.
    assert (Hz : forall v, v <> 0 -> nz v = true) by (intros v Hv; unfold nz; now rewrite (proj2 (Z.eqb_neq _ _))).
    repeat split; intros H; try (specialize (Hw H); apply Hz in Hw); lookup; try apply Hz in H;
      try (match type of Hw with _ = true => rewrite Hw end); rewrite ?H, ?orb_true_r; try reflexivity.
Qed.

Definition demo_coverage : anubee_coverage :=
  mk_cov (Some (bytes_of "syscalls")) false None 9 2 9 [3; 4; 0; 0; 0; 0; 0; 2; 0; 0] 0 5 false 0 1 false 0 0 false.
Lemma coverage_is_never_silent_witness :
  text (coverage_record demo_coverage) = js "{'type':'coverage','engine':'syscalls','snaps':{'total':9,'truncated':2},'cfi':{'walks':9,'stops':{'no_fde':4}},'drops':{'ring':0,'queue':5},'depth_capped':1}" ++ [x0a] /\
  exists l, jparse (text (coverage_record demo_coverage)) = Some (tagged (bytes_of "coverage") (fld "engine" (jstr "syscalls") :: l)) /\
    member "clean" l = None /\ member "depth_capped" l = Some (jnat 1).
Proof.
  split; [vm_compute; reflexivity|].
  destruct (coverage_is_never_silent demo_coverage) as (l & H1 & H2 & H3);
    [repeat split; try (simpl; lia); repeat constructor; unfold in_u; simpl; lia|reflexivity|discriminate|].
  exists l. split; [exact H1|]. assert (Hn : member "clean" l = None).
  { vm_compute in H1. injection H1 as <-. reflexivity. }
  split; [exact Hn|]. apply (H3 Hn). discriminate.
Defined.
