(* ===== verification/ArgRecords.v ===== *)
(** * ArgRecords: records with decoded arguments

    The records whose arguments are rendered for the reader: correlate's syscall
    (src/correlate/corr_emit.c), the call and return of the function engine
    (src/funcs/funcs_emit.c), the syscall engine's record (src/syscalls/syscalls.c) and the
    unwound stack (src/common/symbolize.c).  Descriptors go through the cache of Caches,
    socket addresses and flags through Decode, managed chains through Managed. *)

From Stdlib Require Import ZArith Lia.
From stdpp Require Import base list option numbers gmap.
From S2P Require Import Correlate Funcs SysTables Syscalls Probe Caches Decode Managed Prelude Emit Json ModEvents Records.

Local Open Scope Z_scope.
#[local] Opaque digits.

Notation fdcache := (htab fdc_key (list byte)).

(** ** Rendering a descriptor never fails *)

(** Entries stay inside the table; closing descriptors may break the probe chains. *)
Definition fdc_wf (t : fdcache) : Prop :=
  h_cap t = 0 \/
  (exists w, 0 <= w /\ h_cap t = 2 ^ w) /\ 2 <= h_cap t /\ (forall i e, h_slots t !! i = Some e -> 0 <= i < h_cap t).

Lemma grow_wf calloc_ok t : fdc_wf t -> h_cap t <> 0 -> exists t', grow_htab calloc_ok t = Ret t' /\ fdc_wf t' /\ h_cap t' <> 0.
Proof.
  intros [?|((w & Hw & Ec) & H2 & Hr)] H0; [contradiction|]. unfold grow_htab.
  destruct (calloc_ok (h_cap t * 2)); [|exists t; split; [reflexivity|]; split; [right; eauto|exact H0]].
  assert (Hc2 : exists w, 0 <= w /\ h_cap t * 2 = 2 ^ w).
  { exists (w + 1). split; [lia|]. rewrite Ec, Z.pow_add_r by lia. reflexivity. }
  destruct (rehash_spec (Z.to_nat (h_cap t)) 0 (h_slots t) ∅ (h_cap t * 2)) as (ns & E & H1 & _).
  { now apply empty_chained. }
  { rewrite below_empty; [|intros j e Hj; apply Hr in Hj; lia]. constructor; auto. }
  { lia. } { lia. } { rewrite map_size_empty. lia. }
  rewrite E, ret_bind. eexists. split; [reflexivity|]. cbn [h_cap]. split; [|lia]. right. cbn [h_cap h_slots].
  split; [exact Hc2|]. split; [lia|]. apply (ch_range _ _ H1).
Qed.

Lemma put_wf calloc_ok t pid fd path : fdc_wf t -> exists t', fdc_put calloc_ok t pid fd path = Ret t' /\ fdc_wf t'.
Proof.
  intros Hw. unfold fdc_put.
  assert (Hs : forall t, fdc_wf t -> h_cap t <> 0 -> exists t', (t ← (if loaded t then grow_htab calloc_ok t else Ret t);
      match fdc_slot t pid fd with
      | Some (i, r) => Ret (store t i (bool_decide (r = None)) (mk_fdc_key pid fd) (snprintf_s 256 path))
      | None => Ret t
      end) = Ret t' /\ fdc_wf t').
  { clear t Hw. intros t Hw H0.
    assert (Hg : exists t1, (if loaded t then grow_htab calloc_ok t else Ret t) = Ret t1 /\ fdc_wf t1 /\ h_cap t1 <> 0).
    { destruct (loaded t); [now apply grow_wf|eauto]. }
    destruct Hg as (t1 & -> & Hw1 & H1). rewrite ret_bind. unfold fdc_slot. rewrite (proj2 (Z.eqb_neq _ _)) by exact H1.
    destruct Hw1 as [?|(Hp & H2 & Hr)]; [contradiction|].
    pose proof (probe_spec (Z.to_nat (h_cap t1)) (h_slots t1) (h_cap t1) (key_is (mk_fdc_key pid fd))
      (home (h_cap t1 - 1) (mk_fdc_key pid fd)) Hp (home_range _ _ Hp)) as Hps. unfold probe_key.
    destruct (probe _ _ _ _ _) as [[i r]|]; [|exists t1; split; [reflexivity|right; auto]].
    eexists. split; [reflexivity|]. right. cbn [store h_cap h_slots]. split; [exact Hp|]. split; [exact H2|].
    intros j e. destruct (decide (i = j)) as [->|Hn]; [|rewrite lookup_insert_ne by exact Hn; apply Hr].
    intros _. destruct Hps as (d & Hd & -> & _). apply Z.mod_pos_bound. lia. }
  destruct (Z.eqb_spec (h_cap t) 0) as [_|H0]; [|apply Hs; auto].
  destruct (calloc_ok (2 ^ 12)); [|exists no_htab; split; [reflexivity|now left]].
  apply Hs; [|discriminate]. right. cbn [calloc_htab h_cap h_slots]. split; [exists 12; split; [lia|reflexivity]|]. split; [lia|].
  intros i e Hi. now rewrite lookup_empty in Hi.
Qed.

Lemma dec_text_total v : - 2 ^ 63 <= v < 2 ^ 63 -> exists d, dec_text v = Ret d.
Proof.
  intros Hv. unfold dec_text. destruct (digits_spec 20 10 (Z.abs v)) as (l & E & _); [lia|simpl; lia|lia|]. rewrite E, ret_bind. eauto.
Qed.
Lemma s32_range v : - 2 ^ 31 <= Caches.s32 v < 2 ^ 31.
Proof. unfold Caches.s32, u32. pose proof (Z.mod_pos_bound v (2 ^ 32)). case_match; lia. Qed.

Lemma render_fd_total calloc_ok readlink t pid v outsz : fdc_wf t ->
  exists s t', render_fd calloc_ok readlink t pid v outsz = Ret (s, t') /\ fdc_wf t'.
Proof.
  intros Hw. unfold render_fd. pose proof (s32_range v) as Hr. generalize dependent (Caches.s32 v). intros fd Hr.
  destruct (dec_text_total fd) as [d Ed]; [lia|]. unfold fd_text. rewrite Ed.
  destruct (fd =? -100); [eauto|]. destruct (fd <? 0); [rewrite ret_bind; eauto|].
  assert (Hmiss : exists s t', (if zlen (readlink pid fd) =? 0 then s ← (d0 ← Ret d; Ret (bytes_of "fd=" ++ d0 ++ [])); Ret (snprintf_s outsz s, t)
    else t ← fdc_put calloc_ok t pid fd (readlink pid fd);
      s ← (d0 ← Ret d; Ret (bytes_of "fd=" ++ d0 ++ bytes_of " <" ++ readlink pid fd ++ bytes_of ">")); Ret (snprintf_s outsz s, t)) = Ret (s, t') /\ fdc_wf t').
  { destruct (zlen _ =? 0); [rewrite !ret_bind; eauto|].
    destruct (put_wf calloc_ok t pid fd (readlink pid fd) Hw) as (t' & -> & Hw'). rewrite !ret_bind. eauto. }
  destruct (fdc_slot t pid fd) as [[i [e|]]|]; [rewrite !ret_bind; eauto|exact Hmiss|exact Hmiss].
Qed.

(** ** Pieces *)

Lemma writes_nil : writes [] [].
Proof. repeat constructor. Qed.
Lemma writes_arr {A} op key (f : A -> list jop) (v : A -> json) l :
  jop_text op = x2c :: jkey (bytes_of key) [x3a; x5b] -> jop_ok op ->
  (forall a, a ∈ l -> (forall k, tput (f a) k = jput (v a) k) /\ Forall jop_ok (f a) /\ jok (v a)) ->
  writes ([op] ++ commas (map f l) ++ [OpC x5d]) [fld key (JArr (map v l))].
Proof.
  intros Ho Hj H. split; [|split].
  - intros k. rewrite !tput_app. erewrite (tput_items f v); [|intros a k' Ha; now apply H|reflexivity].
    cbn [tput foldr jmid fst snd fld]. rewrite Ho, jput_JArr. unfold jkey. rewrite <- !app_comm_cons, <- app_assoc. reflexivity.
  - apply Forall_app. split; [now repeat constructor|]. apply Forall_app. split; [|repeat constructor]. apply commas_ok. intros; now apply H.
  - constructor; [|constructor]. apply jok_arr. intros; now apply H.
Qed.
Lemma writes_args op key l :
  jop_text op = x2c :: jkey (bytes_of key) [x3a; x7b] -> jop_ok op -> args_in l ->
  writes ([op] ++ commas (map arg_ops l) ++ [OpC x7d]) [fld key (args_value l)].
Proof.
  intros Ho Hj H. unfold args_in in H. rewrite list.Forall_forall in H. split; [|split].
  - intros k. rewrite !tput_app. erewrite (tput_members arg_ops arg_member); [|intros a k' Ha; apply arg_text; now apply H|reflexivity].
    cbn [tput foldr jmid fst snd fld]. unfold args_value. rewrite Ho, jput_JObj. unfold jkey.
    rewrite <- !app_comm_cons, <- app_assoc. reflexivity.
  - apply Forall_app. split; [now repeat constructor|]. apply Forall_app. split; [|repeat constructor]. apply commas_ok.
    intros a Ha. specialize (H a Ha). ops_ok.
  - constructor; [|constructor]. apply args_jok.
Qed.
Lemma writes_hexes op key n args :
  jop_text op = x2c :: jkey (bytes_of key) [x3a; x5b] -> jop_ok op -> Forall (in_u 64) args ->
  writes ([op] ++ commas (map hexq (slots n args)) ++ [OpC x5d]) [fld key (hexes n args)].
Proof.
  intros Ho Hj H. apply writes_arr; [exact Ho|exact Hj|]. intros v Hv. pose proof (slots_range _ _ _ H Hv).
  split; [intros; now apply hexq_text|]. split; [ops_ok|exact I].
Qed.
Lemma builds_same ops ops' v e : builds ops' v e -> text ops = text ops' -> Forall jop_ok ops -> builds ops v e.
Proof. intros [H1 H2 H3 H4] Ht Ho. constructor; auto. now rewrite Ht. Qed.
(** A piece with hexadecimal or signed numbers. *)
Ltac num_piece := split; [intros; cbn [jmid foldr fst snd fld]; rewrite ?jput_hex by range; rewrite <- ?i64_text by range; reflexivity
  |split; [ops_ok|repeat constructor; value_ok]].

(** Effects in order: a list rendered through the cache. *)
Fixpoint render_all {A B} (f : A -> fdcache -> res (B * fdcache)) (l : list A) (t : fdcache) : res (list B * fdcache) :=
  match l with
  | [] => Ret ([], t)
  | a :: l => '(b, t) ← f a t; '(r, t) ← render_all f l t; Ret (b :: r, t)
  end.
Lemma render_all_total {A B} (f : A -> fdcache -> res (B * fdcache)) (P : A -> B -> Prop) l t :
  fdc_wf t -> (forall a t, a ∈ l -> fdc_wf t -> exists b t', f a t = Ret (b, t') /\ fdc_wf t' /\ P a b) ->
  exists r t', render_all f l t = Ret (r, t') /\ fdc_wf t' /\ Forall2 P l r.
Proof.
  revert t. induction l as [|a l IH]; intros t Hw H; cbn [render_all]; [exists [], t; auto|].
  destruct (H a t) as (b & t1 & -> & Hw1 & Hb); [now left|exact Hw|]. rewrite ret_bind.
  destruct (IH t1 Hw1) as (r & t2 & -> & Hw2 & Hr); [intros; apply H; auto; now right|]. rewrite ret_bind. exists (b :: r), t2. auto.
Qed.

Section Rendered.
Context (calloc_ok : Z -> bool) (readlink : Z -> Z -> list byte) (SIGRTMIN : Z) (ntop6 : list byte -> list byte).
Notation render := (render_fd calloc_ok readlink).
Notation sockaddr := (decode_sockaddr ntop6).
Notation flags := (flags_decode_arg SIGRTMIN).

(** ** Correlate's syscall *)

Definition se_string (e : corr_syscall_event) (i : nat) : list byte := default [] (nth i (se_str e) None).
Definition corr_decode_arg (e : corr_syscall_event) (fdmask sockidx decsz : Z) (i : nat) (t : fdcache)
  : res (option (list byte) * fdcache) :=
  if (i <? CORR_STR_SLOTS)%nat && Z.testbit (se_str_present e) (Z.of_nat i) then
    Ret (Some (snprintf_s decsz (take (Z.to_nat (decsz - 1)) (se_string e i))), t)
  else if Z.testbit fdmask (Z.of_nat i) then
    '(s, t) ← render t (s32 (se_pid e)) (nth i (se_args e) 0) decsz;
    Ret (Some s, t)
  else
    s ← (if (Z.of_nat i =? sockidx) && (se_sock_len e >? 0) then sockaddr (se_sock e) (se_sock_len e) decsz else Ret None);
    match s with
    | Some s => Ret (Some s, t)
    | None => Ret (flags (s64 (se_nr e)) (Z.of_nat i) (nth i (se_args e) 0) decsz, t)
    end.
Definition corr_emit_syscall (e : corr_syscall_event) (name : list byte) (fdmask sockidx : Z) (t : fdcache) : res (list jop * fdcache) :=
  '(dec, t) ← render_all (corr_decode_arg e fdmask sockidx 300) (seq 0 CORR_SYS_ARGS) t;
  Ret (corr_syscall_ops e name (map (default []) dec), t).

(** The captured socket address is there as far as its length says. *)
Definition sock_in (sock : list byte) (len : Z) : Prop := 0 <= len <= zlen sock /\ in_u 32 len.
Lemma sockaddr_total sock len outsz : sock_in sock len -> 1 <= outsz -> exists s, sockaddr sock len outsz = Ret s.
Proof.
  intros [H1 H2] Ho. destruct (sockaddr_bounds ntop6 sock len outsz H1 H2 Ho) as [Hlo Hhi].
  destruct (Z.ltb_spec len 2); [rewrite Hlo by assumption; eauto|]. destruct (Hhi ltac:(lia)) as (s & -> & _). eauto.
Qed.
Lemma corr_syscall_total e name fdmask sockidx t :
  fdc_wf t -> sock_in (se_sock e) (se_sock_len e) ->
  exists dec t', corr_emit_syscall e name fdmask sockidx t = Ret (corr_syscall_ops e name dec, t') /\ fdc_wf t'.
Proof.
  intros Hw Hs. unfold corr_emit_syscall.
  destruct (render_all_total (corr_decode_arg e fdmask sockidx 300) (fun _ _ => True) (seq 0 CORR_SYS_ARGS) t Hw) as (r & t' & -> & Hw' & _).
  { clear t Hw. intros i t _ Hw. unfold corr_decode_arg. destruct (_ && _); [eauto|]. destruct (Z.testbit fdmask _).
    - destruct (render_fd_total calloc_ok readlink t (s32 (se_pid e)) (nth i (se_args e) 0) 300 Hw) as (s & t' & -> & Hw'). rewrite ret_bind. eauto.
    - assert (Hd : exists s, (if (Z.of_nat i =? sockidx) && (se_sock_len e >? 0) then sockaddr (se_sock e) (se_sock_len e) 300 else Ret None) = Ret s)
        by (case_match; [apply sockaddr_total; [exact Hs|lia]|eauto]).
      destruct Hd as (s & ->). rewrite ret_bind. destruct s; eauto. }
  rewrite ret_bind. eauto.
Qed.

(** ** Function calls and returns *)

Definition ARG_STR := 0.
Definition ARG_FD := 3.
Definition ARG_SOCKADDR := 4.
(** What the emitters read of a probe target. *)
Record probe_target := mk_probe_target { pt_offset : Z; pt_arg_count : Z; pt_arg_types : list Z; pt_ret_type : Z }.
(** The arguments [0 .. arg_count) with the type [ty], at most [max] of them. *)
Definition typed_args (tg : probe_target) (ty : Z) (max : nat) : list nat :=
  List.filter (fun i => nth i (pt_arg_types tg) 0 =? ty) (seq 0 (min (Z.to_nat (pt_arg_count tg)) max)).
Definition is_str (e : event) (i : nat) : bool := fst (nth i (e_strs e) (false, None)).
Definition str_of (e : event) (i : nat) : list byte := default [] (snd (nth i (e_strs e) (false, None))).

(** [string_args] and [out_args]: the texts sit [shift] slots further. *)
Definition string_args (e : event) (tg : probe_target) (max shift : nat) : list (Z * list byte) :=
  map (fun i => (Z.of_nat i, str_of e (i + shift))) (List.filter (fun i => is_str e (i + shift)) (typed_args tg ARG_STR max)).
Definition fd_args (e : event) (tg : probe_target) (t : fdcache) : res (list (Z * list byte) * fdcache) :=
  render_all (fun i t => '(s, t) ← render t (s32 (e_pid e)) (nth i (e_args e) 0) 320; Ret ((Z.of_nat i, s), t)) (typed_args tg ARG_FD NUM_ARGS) t.
(** [stale]: what the event's memory holds where the program wrote nothing. *)
Fixpoint sock_args_of (stale : nat -> list byte) (e : event) (l : list nat) : res (list (Z * list byte)) :=
  match l with
  | [] => Ret []
  | i :: l =>
      s ← sockaddr (default (stale i) (nth i (e_sock e) None)) SOCK_ADDR_MAX 128;
      r ← sock_args_of stale e l;
      Ret (match s with Some s => (Z.of_nat i, s) :: r | None => r end)
  end.

Definition backtrace (e : event) : list (Z * Z) := live_frames 0 (take Funcs.STACK_DEPTH (e_stack e)).
Definition offset_ops (target : option probe_target) : list jop :=
  match target with Some tg => [opS ",'offset':"; OpU64 (pt_offset tg)] | None => [] end.
Definition backtrace_ops (e : event) (syms : list (list byte)) : list jop :=
  [opS ",'backtrace':["] ++ commas (map (frame_ops syms) (backtrace e)) ++ [OpC x5d].
Definition args_ops (key : String.string) (l : list (Z * list byte)) : list jop := [opS key] ++ commas (map arg_ops l) ++ [OpC x7d].
Arguments args_ops key%_string_scope.
(** The stack id and the cached managed chain, which is JSON already. *)
Definition stack_id_ops (sid : Z) (java_stack : option (list byte)) : list jop :=
  if sid =? 0 then [] else
  [opS ",'stack_id':"; OpU64 sid] ++ match java_stack with Some js => [opS ",'java_stack':"; OpS js] | None => [] end.

(** [decoded]: the strings, descriptors and addresses of a target with a known signature. *)
Definition call_ops (e : event) (module symbol : list byte) (target : option probe_target) (java_stack : option (list byte))
    (syms : list (list byte)) (decoded : option (list (Z * list byte) * list (Z * list byte) * list (Z * list byte))) : list jop :=
  head TRACE_CALL ++
  ([opS ",'id':"; OpU64 (e_span e); opS ",'pid':"; OpU64 (e_pid e); opS ",'tid':"; OpU64 (e_tid e); opS ",'ppid':"; OpI64 (e_ppid e);
    opS ",'module':'"; OpEsc module; opQ; opS ",'symbol':'"; OpEsc symbol; opQ; opS ",'entry_addr':'"; OpHex (e_entry e); opQ;
    opS ",'ktime':"; OpU64 (e_ktime e)] ++
   offset_ops target ++ ([opS ",'args':["] ++ commas (map hexq (slots NUM_ARGS (e_args e))) ++ [OpC x5d]) ++
   stack_id_ops (default 0 (e_stack_id e)) java_stack ++ backtrace_ops e syms ++
   match decoded with
   | Some (strs, fds, socks) => args_ops ",'string_args':{" strs ++ args_ops ",'fd_args':{" fds ++ args_ops ",'sock_args':{" socks
   | None => []
   end) ++ [OpC x7d].
Definition funcs_emit_call (stale : nat -> list byte) (e : event) (module symbol : list byte) (target : option probe_target)
    (java_stack : option (list byte)) (syms : list (list byte)) (t : fdcache) : res (list jop * fdcache) :=
  match target with
  | Some tg =>
      if pt_arg_count tg <? 0 then Ret (call_ops e module symbol target java_stack syms None, t) else
      '(fds, t) ← fd_args e tg t;
      socks ← sock_args_of stale e (typed_args tg ARG_SOCKADDR NUM_ARGS);
      Ret (call_ops e module symbol target java_stack syms (Some (string_args e tg NUM_ARGS 0, fds, socks)), t)
  | None => Ret (call_ops e module symbol target java_stack syms None, t)
  end.

(** The retval of an event is the register; a return event always has one. *)
Definition funcs_emit_return (e : event) (module symbol : list byte) (target : option probe_target) (syms : list (list byte)) : list jop :=
  head TRACE_RETURN ++
  ([opS ",'id':"; OpU64 (e_span e); opS ",'pid':"; OpU64 (e_pid e); opS ",'tid':"; OpU64 (e_tid e);
    opS ",'module':'"; OpEsc module; opQ; opS ",'symbol':'"; OpEsc symbol; opQ] ++
   offset_ops target ++
   [opS ",'retval':"; OpI64 (s64 (default 0 (e_retval e))); opS ",'elapsed_ns':"; OpU64 (default 0 (e_elapsed e));
    opS ",'ktime':"; OpU64 (e_ktime e)] ++
   backtrace_ops e syms ++
   match target with
   | Some tg =>
       (if (pt_ret_type tg =? ARG_STR) && is_str e 0 then [opS ",'retval_str':'"; OpEsc (str_of e 0); opQ] else []) ++
       (if pt_arg_count tg >=? 0 then args_ops ",'out_args':{" (string_args e tg (NUM_ARGS - 1) 1) else [])
   | None => []
   end) ++ [OpC x7d].

(** *** The declared values *)

Definition offset_fld (target : option probe_target) : list (list byte * json) :=
  match target with Some tg => [fld "offset" (jnat (pt_offset tg))] | None => [] end.
Definition java_value (l : list (list byte)) : json := JArr (map JStr l).
Definition stack_id_fld (sid : Z) (java : option (list (list byte))) : list (list byte * json) :=
  if sid =? 0 then [] else fld "stack_id" (jnat sid) :: match java with Some l => [fld "java_stack" (java_value l)] | None => [] end.
Definition backtrace_fld (e : event) (syms : list (list byte)) : list byte * json :=
  fld "backtrace" (JArr (map (frame_value syms) (backtrace e))).
Definition call_value (e : event) (module symbol : list byte) (target : option probe_target) (java : option (list (list byte)))
    (syms : list (list byte)) (decoded : option (list (Z * list byte) * list (Z * list byte) * list (Z * list byte))) : json :=
  obj TRACE_CALL ([] ++ [fld "id" (jnat (e_span e)); fld "pid" (jnat (e_pid e)); fld "tid" (jnat (e_tid e)); fld "ppid" (jint (e_ppid e));
     fld "module" (JStr module); fld "symbol" (JStr symbol); fld "entry_addr" (jhex (e_entry e)); fld "ktime" (jnat (e_ktime e))] ++
    offset_fld target ++ [fld "args" (hexes NUM_ARGS (e_args e))] ++ stack_id_fld (default 0 (e_stack_id e)) java ++ [backtrace_fld e syms] ++
    match decoded with
    | Some (strs, fds, socks) => [fld "string_args" (args_value strs); fld "fd_args" (args_value fds); fld "sock_args" (args_value socks)]
    | None => []
    end).
Definition return_value (e : event) (module symbol : list byte) (target : option probe_target) (syms : list (list byte)) : json :=
  obj TRACE_RETURN ([] ++ [fld "id" (jnat (e_span e)); fld "pid" (jnat (e_pid e)); fld "tid" (jnat (e_tid e));
     fld "module" (JStr module); fld "symbol" (JStr symbol)] ++ offset_fld target ++
    [fld "retval" (jint (s64 (default 0 (e_retval e)))); fld "elapsed_ns" (jnat (default 0 (e_elapsed e))); fld "ktime" (jnat (e_ktime e))] ++
    [backtrace_fld e syms] ++
    match target with
    | Some tg => opt_fld ((pt_ret_type tg =? ARG_STR) && is_str e 0) "retval_str" (JStr (str_of e 0)) ++
                 opt_fld (pt_arg_count tg >=? 0) "out_args" (args_value (string_args e tg (NUM_ARGS - 1) 1))
    | None => []
    end).
Definition event_ok (e : event) : Prop :=
  (in_u 64 (e_span e) /\ in_u 32 (e_pid e) /\ in_u 32 (e_tid e) /\ - 2 ^ 31 <= e_ppid e < 2 ^ 31 /\ in_u 64 (e_entry e)) /\
  (in_u 64 (e_ktime e) /\ Forall (in_u 64) (e_args e) /\ Forall (in_u 64) (e_stack e)) /\
  in_u 64 (default 0 (e_stack_id e)) /\ in_u 64 (default 0 (e_elapsed e)).
Definition target_ok (target : option probe_target) : Prop := match target with Some tg => in_u 64 (pt_offset tg) | None => True end.
Definition java_frag (java : option (list (list byte))) : option (list byte) := option_map (fun l => jput (java_value l) []) java.

Lemma writes_offset target : target_ok target -> writes (offset_ops target) (offset_fld target).
Proof. destruct target as [tg|]; intros H; [|apply writes_nil]. unfold target_ok in H. piece. Qed.
Lemma writes_backtrace e syms : Forall (in_u 64) (e_stack e) -> writes (backtrace_ops e syms) [backtrace_fld e syms].
Proof.
  intros Hs. apply writes_arr; [reflexivity|exact I|]. intros f Hf. unfold backtrace in Hf.
  apply live_frames_in in Hf as (H1 & H2 & H3); [|lia]. assert (Hv : in_u 64 (snd f)).
  { rewrite List.Forall_forall in Hs. apply Hs. rewrite <- (take_drop Funcs.STACK_DEPTH (e_stack e)). apply in_or_app. now left. }
  assert (Hi : in_u 64 (fst f)) by (unfold zlen in H1; rewrite length_take in H1; unfold Funcs.STACK_DEPTH in H1; range).
  split; [intros; now apply frame_text|]. split; [|now apply frame_jok]. unfold frame_ops. ops_ok.
Qed.
Lemma writes_stack_id sid java : in_u 64 sid -> writes (stack_id_ops sid (java_frag java)) (stack_id_fld sid java).
Proof.
  intros H. unfold stack_id_ops, stack_id_fld. destruct (sid =? 0); [apply writes_nil|].
  destruct java as [l|]; cbn [java_frag option_map]; [|piece].
  split; [|split; [ops_ok|constructor; [exact H|constructor; [apply strings_jok|constructor]]]].
  intros k. cbn [jmid foldr fst snd fld tput app jop_text]. rewrite (jput_app (java_value l) k). reflexivity.
Qed.
Lemma writes_args_ops key op l :
  jop_text (opS op) = x2c :: jkey (bytes_of key) [x3a; x7b] -> args_in l -> writes (args_ops op l) [fld key (args_value l)].
Proof. intros Ho Hl. now apply writes_args. Qed.

Definition decoded_in (decoded : option (list (Z * list byte) * list (Z * list byte) * list (Z * list byte))) : Prop :=
  match decoded with Some (strs, fds, socks) => args_in strs /\ args_in fds /\ args_in socks | None => True end.
Lemma head_starts t : starts (head t) (type_name t) [].
Proof.
  split; [|split; [ops_ok|constructor]]. intros k. unfold head. destruct t; reflexivity.
Qed.
Lemma builds_call e module symbol target java syms decoded :
  event_ok e -> target_ok target -> decoded_in decoded ->
  builds (call_ops e module symbol target (java_frag java) syms decoded) (call_value e module symbol target java syms decoded) [].
Proof.
  intros ((H1 & H2 & H3 & H4 & H5) & (H6 & H7 & H8) & H9 & H10) Ht Hd. unfold call_ops, call_value.
  apply builds_pieces; [apply head_starts| |reflexivity|ops_ok|now left].
  repeat apply writes_app; [num_piece|now apply writes_offset|apply writes_hexes; [reflexivity|exact I|exact H7]|now apply writes_stack_id
    |now apply writes_backtrace|].
  destruct decoded as [[[strs fds] socks]|]; [|apply writes_nil]. destruct Hd as (D1 & D2 & D3).
  apply (writes_app _ [_] _ [_; _]); [now apply writes_args_ops|]. apply (writes_app _ [_] _ [_]); now apply writes_args_ops.
Qed.
Lemma typed_args_lt tg ty max i : i ∈ typed_args tg ty max -> (i < max)%nat.
Proof. intros Hi. apply list_elem_of_In, filter_In in Hi as [Hi%in_seq _]. lia. Qed.
Lemma string_args_in e tg max shift : (max <= 8)%nat -> args_in (string_args e tg max shift).
Proof.
  intros Hm. apply List.Forall_forall. intros a Ha. apply in_map_iff in Ha as (i & <- & [Hi _]%filter_In).
  apply list_elem_of_In, typed_args_lt in Hi. unfold in_u. simpl. lia.
Qed.
Lemma builds_return e module symbol target syms :
  event_ok e -> target_ok target -> builds (funcs_emit_return e module symbol target syms) (return_value e module symbol target syms) [].
Proof.
  intros ((H1 & H2 & H3 & H4 & H5) & (H6 & H7 & H8) & H9 & H10) Ht. unfold funcs_emit_return, return_value.
  pose proof (s64_range (default 0 (e_retval e))) as Hr. revert Hr H10. generalize (s64 (default 0 (e_retval e))) (default 0 (e_elapsed e)). intros rv el Hr Hl.
  apply builds_pieces; [apply head_starts| |reflexivity|ops_ok|now left].
  repeat apply writes_app; [num_piece|now apply writes_offset|num_piece|now apply writes_backtrace|].
  destruct target as [tg|]; [|apply writes_nil]. apply writes_app; apply writes_if; [piece|].
  apply writes_args_ops; [reflexivity|]. apply string_args_in. unfold NUM_ARGS. lia.
Qed.
(** The emitter always returns, and its record is the declared one. *)
Lemma funcs_call_total stale e module symbol target java syms t :
  fdc_wf t -> event_ok e -> target_ok target -> (forall i, zlen (stale i) = SOCK_ADDR_MAX) ->
  Forall (fun s => match s with Some b => zlen b = SOCK_ADDR_MAX | None => True end) (e_sock e) ->
  exists ops decoded t', funcs_emit_call stale e module symbol target (java_frag java) syms t = Ret (ops, t') /\ fdc_wf t' /\ builds ops (call_value e module symbol target java syms decoded) [].
Proof.
  intros Hw He Ht Hst Hsk. unfold funcs_emit_call.
  destruct target as [tg|]; [destruct (pt_arg_count tg <? 0)|]; try (do 3 eexists; split; [reflexivity|]; split; [exact Hw|]; now apply builds_call).
  destruct (render_all_total (fun i t => '(s, t) ← render t (s32 (e_pid e)) (nth i (e_args e) 0) 320; Ret ((Z.of_nat i, s), t))
    (fun i a => fst a = Z.of_nat i) (typed_args tg ARG_FD NUM_ARGS) t Hw) as (fds & t1 & Ef & Hw1 & Hf).
  { clear t Hw. intros i t _ Hw. destruct (render_fd_total calloc_ok readlink t (s32 (e_pid e)) (nth i (e_args e) 0) 320 Hw) as (s & t' & -> & Hw').
    rewrite ret_bind. eauto. }
  unfold fd_args. rewrite Ef, ret_bind.
  assert (Hsocks : forall l, (forall i, i ∈ l -> (i < 8)%nat) -> exists r, sock_args_of stale e l = Ret r /\ args_in r).
  { induction l as [|i l IH]; intros Hl; [exists []; repeat constructor|]. cbn [sock_args_of].
    destruct (sockaddr_total (default (stale i) (nth i (e_sock e) None)) SOCK_ADDR_MAX 128) as [s ->]; [|lia|].
    - split; [|unfold in_u, SOCK_ADDR_MAX; lia]. split; [unfold SOCK_ADDR_MAX; lia|]. rewrite List.Forall_forall in Hsk.
      destruct (nth_in_or_default i (e_sock e) None) as [Hi| ->]; [|simpl; rewrite Hst; lia].
      specialize (Hsk _ Hi). destruct (nth i (e_sock e) None); simpl; [rewrite Hsk|rewrite Hst]; lia.
    - rewrite ret_bind. destruct IH as (r & -> & Hr); [intros; apply Hl; now right|]. rewrite ret_bind. eexists. split; [reflexivity|].
      destruct s; [|exact Hr]. constructor; [|exact Hr]. specialize (Hl i ltac:(now left)). unfold in_u. simpl. lia. }
  destruct (Hsocks (typed_args tg ARG_SOCKADDR NUM_ARGS)) as (socks & -> & Hs); [intros i Hi; exact (typed_args_lt _ _ _ _ Hi)|].
  rewrite ret_bind. do 3 eexists. split; [reflexivity|]. split; [exact Hw1|]. apply builds_call; [exact He|exact Ht|].
  split; [apply string_args_in; unfold NUM_ARGS; lia|]. split; [|exact Hs]. eapply Forall2_Forall_r; [exact Hf|].
  apply list.Forall_forall. intros i Hi a ->. apply typed_args_lt in Hi. unfold in_u, NUM_ARGS in *. lia.
Qed.

(** ** The syscall engine's record *)

Definition sv_string (e : syscalls_syscall_event) (i : nat) : option (list byte) :=
  if (i <? CORR_STR_SLOTS)%nat && Z.testbit (sv_str_present e) (Z.of_nat i) then Some (default [] (nth i (sv_str e) None)) else None.
Definition sv_string_args (e : syscalls_syscall_event) : list (Z * list byte) :=
  omap (fun i => option_map (pair (Z.of_nat i)) (sv_string e i)) (seq 0 CORR_STR_SLOTS).
Definition sv_fd_args (e : syscalls_syscall_event) (fdm : Z) (t : fdcache) : res (list (Z * list byte) * fdcache) :=
  render_all (fun i t => '(s, t) ← render t (s32 (sv_pid e)) (nth i (sv_args e) 0) 320; Ret ((Z.of_nat i, s), t))
    (List.filter (fun i => Z.testbit fdm (Z.of_nat i)) (seq 0 (Z.to_nat SYSC_SYSCALL_NARGS))) t.
Definition sv_decoded_args (e : syscalls_syscall_event) (fdm nargs : Z) : list (Z * list byte) :=
  omap (fun i => if bool_decide (is_Some (sv_string e i)) || Z.testbit fdm (Z.of_nat i) then None
                 else option_map (pair (Z.of_nat i)) (flags (s64 (sv_nr e)) (Z.of_nat i) (nth i (sv_args e) 0) 256))
    (if sv_compat e then [] else seq 0 (Z.to_nat nargs)).
(** The frames with their names, up to the first zero or the JNI boundary. *)
Fixpoint sv_frames (resolve : Z -> list byte) (i : Z) (l : list Z) : list (Z * Z * list byte) :=
  match l with
  | [] => []
  | a :: l => if a =? 0 then [] else
      (i, a, resolve a) :: if contains (resolve a) "jni_trampoline" then [] else sv_frames resolve (i + 1) l
  end.
Definition sv_frame_ops (f : Z * Z * list byte) : list jop :=
  let '(i, a, sym) := f in
  [opS "{'frame':"; OpU64 i; opS ",'addr':'"; OpHex a; opS "','symbol':'"; OpEsc sym; opQ] ++
  (if anubee_is_interp_frame sym then [opS ",'java':'interpreted (managed frame elided)'"] else []) ++
  (if contains sym "jni_trampoline" then [opS ",'fp_unwind_end':'jni-trampoline (managed caller in cfi_stack)'"] else []) ++ [OpC x7d].

Definition svc_ops (e : syscalls_syscall_event) (id : Z) (ret : option Z) (name : list byte) (nargs : Z)
    (strs fds decs : list (Z * list byte)) (sock java_stack : option (list byte)) (frames : list (Z * Z * list byte)) : list jop :=
  [OpC x7b; opS "'type':'syscall',"; opS "'id':"; OpU64 id; opS ",'pid':"; OpU64 (sv_pid e); opS ",'tid':"; OpU64 (sv_tid e);
   opS ",'syscall_nr':"; OpU64 (sv_nr e); opS ",'syscall':'"; OpS name; opQ; opS ",'ktime':"; OpU64 (sv_ktime e); opS ",'args':["] ++
  commas (map hexq (slots (Z.to_nat nargs) (sv_args e))) ++
  [opS "],'retval':"; match ret with Some r => OpI64 r | None => opS "null" end; opS ",'string_args':{"] ++
  commas (map arg_ops strs) ++ [opS "},'fd_args':{"] ++ commas (map arg_ops fds) ++ [opS "},'decoded_args':{"] ++
  commas (map arg_ops decs) ++ [OpC x7d] ++
  (match sock with Some s => [opS ",'sock_addr':'"; OpEsc s; opQ] | None => [] end) ++
  stack_id_ops (sv_stack_id e) java_stack ++ [opS ",'backtrace':["] ++ commas (map sv_frame_ops frames) ++ [opS "]}"].
(** [java]: what the managed-chain cache answers for the stack id; [resolve]: the symbolizer's
    answer for an address. *)
Definition json_emit (ix : anubee_sysindex) (tb : arg_tables) (counts fds : list (Z * Z)) (java : option (list byte))
    (resolve : Z -> list byte) (e : syscalls_syscall_event) (id : Z) (ret : option Z) (t : fdcache) : res (list jop * fdcache) :=
  let nargs := if sv_compat e then SYSC_SYSCALL_NARGS else arg_count_cached tb counts (sv_nr e) in
  let fdm := if sv_compat e then 0 else arg_fd_mask_cached tb fds (sv_nr e) in
  '(fda, t) ← sv_fd_args e fdm t;
  sock ← (if sv_sock_len e >? 0 then sockaddr (sv_sock e) (sv_sock_len e) 128 else Ret None);
  Ret (svc_ops e id ret (sysname ix (sv_nr e) (sv_compat e)) nargs (sv_string_args e) fda (sv_decoded_args e fdm nargs) sock
         java (sv_frames resolve 0 (take SYSC_MAX_STACK_DEPTH (sv_stack e))), t).

Definition sv_frame_value (f : Z * Z * list byte) : json :=
  let '(i, a, sym) := f in
  JObj ([fld "frame" (jnat i); fld "addr" (jhex a); fld "symbol" (JStr sym)] ++
    opt_fld (anubee_is_interp_frame sym) "java" (jstr "interpreted (managed frame elided)") ++
    opt_fld (contains sym "jni_trampoline") "fp_unwind_end" (jstr "jni-trampoline (managed caller in cfi_stack)")).
Definition svc_value (e : syscalls_syscall_event) (id : Z) (ret : option Z) (name : list byte) (nargs : Z)
    (strs fds decs : list (Z * list byte)) (sock : option (list byte)) (java : option (list (list byte)))
    (frames : list (Z * Z * list byte)) : json :=
  obj TRACE_SYSCALL ([fld "id" (jnat id); fld "pid" (jnat (sv_pid e)); fld "tid" (jnat (sv_tid e)); fld "syscall_nr" (jnat (sv_nr e));
     fld "syscall" (JStr name); fld "ktime" (jnat (sv_ktime e))] ++
    [fld "args" (hexes (Z.to_nat nargs) (sv_args e))] ++
    [fld "retval" (match ret with Some r => jint r | None => JNull end)] ++ [fld "string_args" (args_value strs)] ++
    [fld "fd_args" (args_value fds)] ++ [fld "decoded_args" (args_value decs)] ++
    (match sock with Some s => [fld "sock_addr" (JStr s)] | None => [] end) ++ stack_id_fld (sv_stack_id e) java ++
    [fld "backtrace" (JArr (map sv_frame_value frames))]).

Definition svc_ok (e : syscalls_syscall_event) (id : Z) (ret : option Z) : Prop :=
  (in_u 64 id /\ in_u 32 (sv_pid e) /\ in_u 32 (sv_tid e) /\ in_u 64 (sv_nr e) /\ in_u 64 (sv_ktime e)) /\
  (Forall (in_u 64) (sv_args e) /\ Forall (in_u 64) (sv_stack e) /\ in_u 64 (sv_stack_id e)) /\
  match ret with Some r => - 2 ^ 63 <= r < 2 ^ 63 | None => True end.
Definition frames_in (l : list (Z * Z * list byte)) : Prop := Forall (fun f => in_u 64 (fst (fst f)) /\ in_u 64 (snd (fst f))) l.

Lemma sv_frame_spec f : in_u 64 (fst (fst f)) /\ in_u 64 (snd (fst f)) ->
  (forall k, tput (sv_frame_ops f) k = jput (sv_frame_value f) k) /\ Forall jop_ok (sv_frame_ops f) /\ jok (sv_frame_value f).
Proof.
  destruct f as [[i a] sym]. cbn [fst snd]. intros [H1 H2]. unfold sv_frame_ops, sv_frame_value.
  destruct (anubee_is_interp_frame sym), (contains sym "jni_trampoline"); cbn [opt_fld];
    (split; [intros k; value_text|split; [ops_ok|value_ok]]).
Qed.
Lemma builds_svc e id ret name nargs strs fds decs sock java frames :
  svc_ok e id ret -> plain name -> args_in strs -> args_in fds -> args_in decs -> frames_in frames ->
  builds (svc_ops e id ret name nargs strs fds decs sock (java_frag java) frames)
         (svc_value e id ret name nargs strs fds decs sock java frames) [].
Proof.
  intros ((H1 & H2 & H3 & H4 & H5) & (H6 & H7 & H8) & Hret) Hn Hs Hf Hd Hfr.
  unfold frames_in in Hfr. rewrite list.Forall_forall in Hfr.
  assert (Hstart : starts [OpC x7b; opS "'type':'syscall',"; opS "'id':"; OpU64 id; opS ",'pid':"; OpU64 (sv_pid e); opS ",'tid':"; OpU64 (sv_tid e);
      opS ",'syscall_nr':"; OpU64 (sv_nr e); opS ",'syscall':'"; OpS name; opQ; opS ",'ktime':"; OpU64 (sv_ktime e)] (type_name TRACE_SYSCALL)
      [fld "id" (jnat id); fld "pid" (jnat (sv_pid e)); fld "tid" (jnat (sv_tid e)); fld "syscall_nr" (jnat (sv_nr e));
       fld "syscall" (JStr name); fld "ktime" (jnat (sv_ktime e))]).
  { split; [|split; [ops_ok|repeat constructor; value_ok]]. intros k. cbn [jmid foldr fst snd fld jput]. unfold jkey.
    rewrite (esc_plain name Hn). reflexivity. }
  eapply builds_same.
  - apply (builds_pieces _ _ _
      (([opS ",'args':["] ++ commas (map hexq (slots (Z.to_nat nargs) (sv_args e))) ++ [OpC x5d]) ++
       [opS ",'retval':"; match ret with Some r => OpI64 r | None => opS "null" end] ++
       args_ops ",'string_args':{" strs ++ args_ops ",'fd_args':{" fds ++ args_ops ",'decoded_args':{" decs ++
       (match sock with Some s => [opS ",'sock_addr':'"; OpEsc s; opQ] | None => [] end) ++ stack_id_ops (sv_stack_id e) (java_frag java) ++
       ([opS ",'backtrace':["] ++ commas (map sv_frame_ops frames) ++ [OpC x5d])) _ [OpC x7d] [] Hstart); [|reflexivity|ops_ok|now left].
    repeat apply writes_app; [apply writes_hexes; [reflexivity|exact I|exact H6]| |now apply writes_args_ops|now apply writes_args_ops
      |now apply writes_args_ops| |now apply writes_stack_id|apply writes_arr; [reflexivity|exact I|]].
    + destruct ret as [r|]; [num_piece|piece].
    + destruct sock; [piece|apply writes_nil].
    + intros f Hin. apply sv_frame_spec. now apply Hfr.
  - unfold svc_ops, args_ops. rewrite !text_tput, !tput_app. reflexivity.
  - unfold args_in in *. rewrite list.Forall_forall in Hs, Hf, Hd. unfold svc_ops, stack_id_ops. ops_ok;
      match goal with
      | H : ?a ∈ slots _ _ |- _ => exact (slots_range _ _ _ H6 H)
      | H : ?f ∈ frames |- _ => exact (proj1 (proj2 (sv_frame_spec _ (Hfr _ H))))
      | H : ?a ∈ strs |- _ => exact (Hs _ H)
      | H : ?a ∈ fds |- _ => exact (Hf _ H)
      | H : ?a ∈ decs |- _ => exact (Hd _ H)
      end.
Qed.

Lemma omap_index {B} (g : nat -> option B) (l : list nat) (a : Z * B) : a ∈ omap (fun i => option_map (pair (Z.of_nat i)) (g i)) l -> exists i, i ∈ l /\ fst a = Z.of_nat i.
Proof. intros (i & Hi & Ha)%list_elem_of_omap. exists i. split; [exact Hi|]. destruct (g i); [injection Ha as <-; reflexivity|discriminate]. Qed.
Lemma seq_small n i : i ∈ seq 0 n -> Z.of_nat n < 2 ^ 64 -> in_u 64 (Z.of_nat i).
Proof. intros Hi%elem_of_seq Hn. unfold in_u. lia. Qed.
Lemma sv_frames_in resolve i l : 0 <= i -> Forall (in_u 64) l -> i + zlen l < 2 ^ 64 -> frames_in (sv_frames resolve i l).
Proof.
  intros Hi Hl. revert i Hi. induction Hl as [|a l Ha Hl IH]; intros i Hi Hb; cbn [sv_frames]; [constructor|].
  rewrite zlen_cons in Hb. pose proof (zlen_nonneg l). destruct (a =? 0); [constructor|]. constructor.
  - cbn [fst snd]. split; [unfold in_u; lia|exact Ha].
  - case_match; [constructor|]. apply IH; lia.
Qed.
(** The record of a syscall is always built, and is the declared one. *)
Lemma svc_total ix tb counts rows java resolve e id ret t :
  fdc_wf t -> svc_ok e id ret -> sock_in (sv_sock e) (sv_sock_len e) -> plain (sysname ix (sv_nr e) (sv_compat e)) ->
  arg_count_cached tb counts (sv_nr e) <= SYSC_SYSCALL_NARGS ->
  exists ops v t', json_emit ix tb counts rows (java_frag java) resolve e id ret t = Ret (ops, t') /\ fdc_wf t' /\
    builds ops v [] /\ exists l, v = obj TRACE_SYSCALL l.
Proof.
  intros Hw Hok Hs Hn Ha. unfold json_emit, sv_fd_args. cbv zeta.
  set (fdm := if sv_compat e then 0 else _). set (nargs := if sv_compat e then _ else _).
  assert (Hna : nargs <= 6) by (unfold nargs, SYSC_SYSCALL_NARGS in *; case_match; lia).
  edestruct (render_all_total (fun i t => '(s, t) ← render t (s32 (sv_pid e)) (nth i (sv_args e) 0) 320; Ret ((Z.of_nat i, s), t))
    (fun i a => fst a = Z.of_nat i)) as (fda & t1 & -> & Hw1 & Hf); [exact Hw| |].
  { clear t Hw. intros i t _ Hw. destruct (render_fd_total calloc_ok readlink t (s32 (sv_pid e)) (nth i (sv_args e) 0) 320 Hw) as (s & t' & -> & Hw').
    rewrite ret_bind. eauto. }
  rewrite ret_bind.
  assert (Hd : exists s, (if sv_sock_len e >? 0 then sockaddr (sv_sock e) (sv_sock_len e) 128 else Ret None) = Ret s)
    by (case_match; [apply sockaddr_total; [exact Hs|lia]|eauto]).
  destruct Hd as (sock & ->). rewrite ret_bind. do 3 eexists. split; [reflexivity|]. split; [exact Hw1|]. split; [|eexists; reflexivity].
  apply builds_svc; [exact Hok|exact Hn| | | |].
  - apply list.Forall_forall. intros a (i & Hi & ->)%omap_index. eapply seq_small; [exact Hi|reflexivity].
  - eapply Forall2_Forall_r; [exact Hf|]. apply list.Forall_forall. intros i Hi a ->.
    apply list_elem_of_In, filter_In in Hi as [Hi%list_elem_of_In _]. eapply seq_small; [exact Hi|reflexivity].
  - apply list.Forall_forall. intros a (i & Hi & E)%list_elem_of_omap. destruct (_ || _); [discriminate|].
    destruct (flags _ _ _ _); [|discriminate]. injection E as <-. cbn [fst]. case_match; [now apply not_elem_of_nil in Hi|].
    eapply seq_small; [exact Hi|]. lia.
  - destruct Hok as (_ & (_ & Hst & _) & _). apply sv_frames_in; [lia|now apply Forall_take|].
    unfold zlen. rewrite length_take. unfold SYSC_MAX_STACK_DEPTH. lia.
Qed.
End Rendered.

(** ** The unwound stack *)

(** The fields of [struct cfi_step_diag] printed for a frame; the reasons and kinds as numbers. *)
Record step_diag := mk_step_diag {
  sd_module_pc : Z; sd_load_base : Z; sd_elf_off : Z; sd_fde_found : Z; sd_fde_pc_lo : Z; sd_fde_pc_hi : Z; sd_cfa_reg : Z; sd_cfa : Z;
  sd_ra_kind : Z; sd_ra_slot : Z; sd_ra_value : Z; sd_stop_reason : Z; sd_path : list byte
}.
Definition frame_kind (sym : list byte) : String.string :=
  (if contains sym "art_jni_trampoline" then "jni-trampoline"
   else if contains sym ".oat!" || contains sym ".odex!" || contains sym ".vdex!" then "managed"
   else if anubee_is_interp_frame sym then "interp" else "native")%string.
Definition diag_ops (d : step_diag) : list jop :=
  [opS ",'module_pc':'"; OpHex (sd_module_pc d); opS "','load_base':'"; OpHex (sd_load_base d); opS "','elf_off':'"; OpHex (sd_elf_off d);
   opS "','fde_found':"; OpU64 (sd_fde_found d); opS ",'fde_pc_lo':'"; OpHex (sd_fde_pc_lo d); opS "','fde_pc_hi':'"; OpHex (sd_fde_pc_hi d);
   opS "','cfa_reg':"; OpU64 (sd_cfa_reg d); opS ",'cfa':'"; OpHex (sd_cfa d); opS "','ra_kind':"; OpU64 (sd_ra_kind d);
   opS ",'ra_slot':'"; OpHex (sd_ra_slot d); opS "','ra_value':'"; OpHex (sd_ra_value d); opS "','stop_reason':"; OpU64 (sd_stop_reason d);
   opS ",'diag_path':'"; OpEsc (sd_path d); opQ].
Record walk_frame := mk_walk_frame { wf_index : Z; wf_pc : Z; wf_sym : list byte; wf_diag : option step_diag }.
Definition walk_ops (f : walk_frame) : list jop :=
  [opS "{'frame':"; OpU64 (wf_index f); opS ",'addr':'"; OpHex (wf_pc f); opS "','symbol':'"; OpEsc (wf_sym f); opQ;
   OpS (js ",'kind':'" ++ bytes_of (frame_kind (wf_sym f)) ++ [x22])] ++
  match wf_diag f with Some d => diag_ops d | None => [] end ++ [OpC x7d].
Definition interp_ops (f : Z * list byte) : list jop :=
  [opS "{'frame':"; OpU64 (fst f); opS ",'addr':'0x0','symbol':'"; OpEsc (snd f); opS "','kind':'interp'}"].
(** The interpreted methods above the last frame, by the interpreter it stands for. *)
Definition interp_names (frames : list walk_frame) (nterp shadow : list (list byte)) : list (list byte) :=
  match last frames with
  | None => []
  | Some f => if contains (wf_sym f) "nterp_helper" then nterp else if contains (wf_sym f) "ExecuteSwitchImpl" then shadow else []
  end.
Definition numbered (n : nat) (l : list (list byte)) : list (Z * list byte) := imap (fun i s => (Z.of_nat (n + i), s)) l.
Definition anubee_emit_cfi_stack_json (pid tid sid : Z) (frames : list walk_frame) (nterp shadow : list (list byte)) : list jop :=
  [opS "{'type':'cfi_stack','pid':"; OpU64 pid; opS ",'tid':"; OpU64 tid; opS ",'stack_id':"; OpU64 sid; opS ",'cfi_backtrace':["] ++
  commas (map walk_ops frames) ++
  flat_map (fun f => OpC x2c :: interp_ops f) (numbered (length frames) (interp_names frames nterp shadow)) ++ [OpS (js "]}" ++ [x0a])].

Definition diag_flds (d : step_diag) : list (list byte * json) :=
  [fld "module_pc" (jhex (sd_module_pc d)); fld "load_base" (jhex (sd_load_base d)); fld "elf_off" (jhex (sd_elf_off d));
   fld "fde_found" (jnat (sd_fde_found d)); fld "fde_pc_lo" (jhex (sd_fde_pc_lo d)); fld "fde_pc_hi" (jhex (sd_fde_pc_hi d));
   fld "cfa_reg" (jnat (sd_cfa_reg d)); fld "cfa" (jhex (sd_cfa d)); fld "ra_kind" (jnat (sd_ra_kind d)); fld "ra_slot" (jhex (sd_ra_slot d));
   fld "ra_value" (jhex (sd_ra_value d)); fld "stop_reason" (jnat (sd_stop_reason d)); fld "diag_path" (JStr (sd_path d))].
Definition walk_value (f : walk_frame) : json :=
  JObj (fld "frame" (jnat (wf_index f)) :: [fld "addr" (jhex (wf_pc f)); fld "symbol" (JStr (wf_sym f)); fld "kind" (jstr (frame_kind (wf_sym f)))] ++
        match wf_diag f with Some d => diag_flds d | None => [] end).
Definition interp_value (f : Z * list byte) : json :=
  JObj [fld "frame" (jnat (fst f)); fld "addr" (jstr "0x0"); fld "symbol" (JStr (snd f)); fld "kind" (jstr "interp")].
Definition cfi_stack_value (pid tid sid : Z) (frames : list walk_frame) (nterp shadow : list (list byte)) : json :=
  tagged (bytes_of "cfi_stack") ([fld "pid" (jnat pid); fld "tid" (jnat tid); fld "stack_id" (jnat sid)] ++
    [fld "cfi_backtrace" (JArr (map walk_value frames ++ map interp_value (numbered (length frames) (interp_names frames nterp shadow))))]).

Definition diag_ok (d : step_diag) : Prop :=
  Forall (in_u 64) [sd_module_pc d; sd_load_base d; sd_elf_off d; sd_fde_found d; sd_fde_pc_lo d; sd_fde_pc_hi d; sd_cfa_reg d; sd_cfa d;
    sd_ra_kind d; sd_ra_slot d; sd_ra_value d; sd_stop_reason d].
Definition walk_ok (f : walk_frame) : Prop :=
  in_u 64 (wf_index f) /\ in_u 64 (wf_pc f) /\ match wf_diag f with Some d => diag_ok d | None => True end.

Lemma jput_kind sym k : jput (jstr (frame_kind sym)) k = x22 :: bytes_of (frame_kind sym) ++ x22 :: k.
Proof. unfold frame_kind. repeat case_match; reflexivity. Qed.
Ltac diag_facts H := unfold diag_ok in H; rewrite !list.Forall_cons in H; destruct_and!.
Lemma walk_spec f : walk_ok f ->
  (forall k, tput (walk_ops f) k = jput (walk_value f) k) /\ Forall jop_ok (walk_ops f) /\ jok (walk_value f).
Proof.
  intros (H1 & H2 & H3). unfold walk_ops, walk_value. split; [|split].
  - intros k. rewrite jput_obj, jmid_more, jmid_app.
    assert (Hd : forall k, tput (match wf_diag f with Some d => diag_ops d | None => [] end) k = jmid (match wf_diag f with Some d => diag_flds d | None => [] end) k).
    { clear k. intros k. destruct (wf_diag f) as [d|]; [|reflexivity]. diag_facts H3. unfold diag_flds. cbn [jmid foldr fst snd fld].
      rewrite ?jput_hex by range. reflexivity. }
    rewrite !tput_app, Hd. cbn [jmid foldr fst snd fld]. rewrite jput_kind, jput_hex by range.
    change (tput [OpC x7d] k) with (x7d :: k). fold (jmid (match wf_diag f with Some d => diag_flds d | None => [] end) (x7d :: k)).
    generalize (jmid (match wf_diag f with Some d => diag_flds d | None => [] end) (x7d :: k)). intros r.
    assert (Hkind : forall s, jop_text (OpS (js ",'kind':'" ++ s ++ [x22])) ++ r = js ",'kind':'" ++ s ++ x22 :: r)
      by (intros s; cbn [jop_text]; now rewrite <- !app_assoc).
    cbn [tput foldr]. rewrite Hkind. reflexivity.
  - unfold diag_ops. destruct (wf_diag f) as [d|]; [diag_facts H3|]; ops_ok.
  - unfold diag_flds. destruct (wf_diag f) as [d|]; [diag_facts H3|]; value_ok.
Qed.
Definition item_ops (x : walk_frame + Z * list byte) : list jop := match x with inl f => walk_ops f | inr f => interp_ops f end.
Definition item_value (x : walk_frame + Z * list byte) : json := match x with inl f => walk_value f | inr f => interp_value f end.
Lemma commas_app l r : l <> [] -> commas (l ++ r) = commas l ++ flat_map (fun y => OpC x2c :: y) r.
Proof. destruct l as [|x l]; [done|]. intros _. cbn [app commas]. now rewrite flat_map_app, app_assoc. Qed.
Lemma builds_cfi_stack pid tid sid frames nterp shadow :
  in_u 32 pid -> in_u 32 tid -> in_u 64 sid -> Forall walk_ok frames ->
  Z.of_nat (length frames + length (interp_names frames nterp shadow)) < 2 ^ 64 ->
  builds (anubee_emit_cfi_stack_json pid tid sid frames nterp shadow) (cfi_stack_value pid tid sid frames nterp shadow) [x0a].
Proof.
  intros H1 H2 H3 Hf Hn. unfold anubee_emit_cfi_stack_json, cfi_stack_value.
  set (names := numbered (length frames) (interp_names frames nterp shadow)).
  set (items := map inl frames ++ map inr names : list (walk_frame + Z * list byte)).
  assert (Hitems : commas (map walk_ops frames) ++ flat_map (fun f => OpC x2c :: interp_ops f) names = commas (map item_ops items)).
  { unfold items. rewrite map_app, !map_map. destruct frames as [|f l]; [reflexivity|].
    rewrite commas_app by discriminate. f_equal. rewrite flat_map_concat_map, flat_map_concat_map, map_map. reflexivity. }
  assert (Hvals : map walk_value frames ++ map interp_value names = map item_value items) by (unfold items; now rewrite map_app, !map_map).
  rewrite Hvals. assert (Hnames : Forall (fun f => in_u 64 (fst f)) names).
  { apply list.Forall_forall. intros f (i & Hi)%list_elem_of_lookup. apply list_lookup_imap_Some in Hi as (s & Hs & ->). cbn [fst].
    apply lookup_lt_Some in Hs. unfold in_u. lia. }
  assert (Hspec : forall x, x ∈ items -> (forall k, tput (item_ops x) k = jput (item_value x) k) /\ Forall jop_ok (item_ops x) /\ jok (item_value x)).
  { intros x [Hx|Hx]%elem_of_app; apply list_elem_of_fmap in Hx as (f & -> & Hin).
    - rewrite list.Forall_forall in Hf. apply walk_spec, Hf, Hin.
    - rewrite list.Forall_forall in Hnames. specialize (Hnames _ Hin). cbn [item_ops item_value]. unfold interp_ops, interp_value.
      split; [intros; reflexivity|split; [ops_ok|value_ok]]. }
  assert (Hs : starts [opS "{'type':'cfi_stack','pid':"; OpU64 pid; opS ",'tid':"; OpU64 tid; opS ",'stack_id':"; OpU64 sid] (bytes_of "cfi_stack")
    [fld "pid" (jnat pid); fld "tid" (jnat tid); fld "stack_id" (jnat sid)]) by piece.
  eapply builds_same.
  - apply (builds_pieces _ _ _ ([opS ",'cfi_backtrace':["] ++ commas (map item_ops items) ++ [OpC x5d]) _ [OpS (js "}" ++ [x0a])] [x0a] Hs);
      [apply writes_arr; [reflexivity|exact I|exact Hspec]|reflexivity|ops_ok|now right].
  - rewrite (app_assoc (commas (map walk_ops frames))), Hitems, !text_tput, !tput_app. reflexivity.
  - rewrite (app_assoc (commas (map walk_ops frames))), Hitems. repeat (apply Forall_app; split); [ops_ok|apply commas_ok; intros; now apply Hspec|ops_ok].
Qed.
