(* ===== verification/Trace.v ===== *)
(** * Trace: whole sessions and the files they leave

    What the engines do with the records of ModEvents, Analyzers, Records and ArgRecords:
    every event is built in the sink's buffer and emitted; stack snapshots of the syscall
    engine are built in the same buffer and written to the sidecar file, and the chain of
    their managed frames goes to the cache from which later records take it; the coverage
    report comes last.  The theorems say what a reader finds in the files of any session. *)

From Stdlib Require Import ZArith Lia.
From stdpp Require Import base list option numbers gmap.
From S2P Require Import Correlate Funcs SysTables Syscalls Probe Caches Decode Managed Tally Analyzers Prelude Emit Json ModEvents Records ArgRecords.

Local Open Scope Z_scope.
#[local] Opaque digits.

(** ** The summaries of the engines *)

Definition stat_ops (r : list byte * Z) : list jop :=
  [opS "{'name':'"; OpEsc (fst r); opQ; opS ",'count':"; OpU64 (snd r); OpC x7d].
Definition stat_value (r : list byte * Z) : json := JObj [fld "name" (JStr (fst r)); fld "count" (jnat (snd r))].
(** The two engines print the same record under different names. *)
Definition stats_ops (head unique rows : String.string) (t : list (list byte * Z)) : option (list jop) :=
  match t with
  | [] => None
  | _ => Some ([OpC x7b; opS head; opS ",'total_calls':"; OpU64 (total snd t); opS unique; OpU64 (zlen t); opS rows] ++
               commas (map stat_ops t) ++ [opS "]}"])
  end.
Arguments stats_ops head%_string_scope unique%_string_scope rows%_string_scope.
Definition sysc_emit_summary : list (list byte * Z) -> option (list jop) :=
  stats_ops "'type':'syscalls_summary'" ",'unique_syscalls':" ",'syscalls':[".
Definition funcs_emit_summary : list (list byte * Z) -> option (list jop) :=
  stats_ops "'type':'funcs_summary'" ",'unique_symbols':" ",'symbols':[".
Record corr_sums := mk_corr_sums { g_sum_spans_opened : Z; g_sum_syscalls_captured : Z; g_sum_returns_captured : Z }.
Definition corr_emit_summary (c : corr_sums) : option (list jop) :=
  if (g_sum_spans_opened c =? 0) && (g_sum_syscalls_captured c =? 0) && (g_sum_returns_captured c =? 0) then None else
  Some [OpC x7b; opS "'type':'correlate_summary'"; opS ",'spans_opened':"; OpU64 (g_sum_spans_opened c);
        opS ",'syscalls_captured':"; OpU64 (g_sum_syscalls_captured c); opS ",'returns_captured':"; OpU64 (g_sum_returns_captured c); OpC x7d].

Definition stats_ok (t : list (list byte * Z)) : Prop := Forall (fun r => in_u 64 (snd r)) t /\ zlen t < 2 ^ 64.
Definition corr_sums_ok (c : corr_sums) : Prop :=
  in_u 64 (g_sum_spans_opened c) /\ in_u 64 (g_sum_syscalls_captured c) /\ in_u 64 (g_sum_returns_captured c).
Definition stats_value (type unique rows : String.string) (t : list (list byte * Z)) : json :=
  tagged (bytes_of type) [fld "total_calls" (jnat (total snd t)); fld unique (jnat (zlen t)); fld rows (JArr (map stat_value t))].
Arguments stats_value type%_string_scope unique%_string_scope rows%_string_scope.
Lemma stat_spec r : in_u 64 (snd r) ->
  (forall k, tput (stat_ops r) k = jput (stat_value r) k) /\ Forall jop_ok (stat_ops r) /\ jok (stat_value r).
Proof. intros H. unfold stat_ops, stat_value. split; [intros; reflexivity|split; [ops_ok|value_ok]]. Qed.
Lemma stats_builds head unique rows type ku kr t ops :
  stats_ok t -> stats_ops head unique rows t = Some ops ->
  jop_text (opS head) = jkey (bytes_of "type") (x3a :: jkey (bytes_of type) []) ->
  jop_text (opS unique) = x2c :: jkey (bytes_of ku) [x3a] -> jop_text (opS rows) = x2c :: jkey (bytes_of kr) [x3a; x5b] ->
  builds ops (stats_value type ku kr t) [].
Proof.
  intros [Hr Hl] E H1 H2 H3. rewrite list.Forall_forall in Hr. assert (Ht : in_u 64 (total snd t)) by apply total_range.
  assert (Hz : in_u 64 (zlen t)) by (pose proof (zlen_nonneg t); unfold in_u; lia).
  assert (Eo : ops = [OpC x7b; opS head; opS ",'total_calls':"; OpU64 (total snd t); opS unique; OpU64 (zlen t); opS rows] ++
               commas (map stat_ops t) ++ [opS "]}"]) by (destruct t; [discriminate|]; apply (inj Some) in E; now rewrite <- E).
  clear E. revert Ht Hz Eo. unfold stats_value. generalize (total snd t) (zlen t). intros n z Hn Hz ->.
  constructor; [| |value_ok|now left].
  - rewrite text_tput, !tput_app. erewrite (tput_items stat_ops stat_value); [|intros a k Ha; apply stat_spec; now apply Hr|reflexivity].
    unfold tagged. rewrite jput_obj. cbn [jmore fst snd fld]. rewrite jput_JArr. cbn [tput foldr]. rewrite H1, H2, H3.
    unfold jkey. cbn [app]. repeat (rewrite <- app_assoc || rewrite <- app_comm_cons). reflexivity.
  - ops_ok; apply stat_spec; now apply Hr.
  - apply stat_spec; now apply Hr.
Qed.
Definition corr_sums_value (c : corr_sums) : json :=
  tagged (bytes_of "correlate_summary") [fld "spans_opened" (jnat (g_sum_spans_opened c));
    fld "syscalls_captured" (jnat (g_sum_syscalls_captured c)); fld "returns_captured" (jnat (g_sum_returns_captured c))].
Lemma corr_summary_builds c ops : corr_sums_ok c -> corr_emit_summary c = Some ops -> builds ops (corr_sums_value c) [].
Proof.
  intros (H1 & H2 & H3). unfold corr_emit_summary. destruct (_ && _); [discriminate|]. intros E. apply (inj Some) in E. subst ops.
  constructor; [rewrite text_tput; unfold corr_sums_value; value_text|ops_ok|value_ok|now left].
Qed.

(** ** Events *)

Inductive ev :=
| Spawn (e : spawn_event) | ProcExit (e : proc_exit_event) | Execve (e : execve_event) (syms : list (list byte)) | PropRead (e : prop_event)
| FileAccess (e : file_access_event) (categories : Z) (flag_strs : list (list byte))
| MassDelete (e : massdelete_detect_event) (distinct manage : Z) (verbose : bool)
| ExfilDetect (e : exfil_detect_event) (dest : option (list byte)) (verbose : bool)
| A11yDetect (e : accessibility_detect_event) (granted : Z) | FilelessDetect (e : fileless_detect_event)
| ScreenCapture (e : screencapture_detect_event)
| ExSummary (t : list exec_stat_t) | PrSummary (t : list prop_stat_t) | FaSummary (t : list fa_stat_t) | PeSummary (c : proc_counts)
| RbSummary (t : list rb_stat_t) | EbSummary (t : list eb_stat_t) | A11ySummary (t : list a11y_stat_t)
| FilelessSummary (t : list fileless_stat_t) | MediaprojSummary (t : list mediaproj_stat_t)
| SyscSummary (t : list (list byte * Z)) | FuncsSummary (t : list (list byte * Z)) | CorrSummary (c : corr_sums)
| CorrFunc (e : corr_func_event) | CorrReturn (e : corr_return_event)
| CorrSyscall (e : corr_syscall_event) (name : list byte) (fdmask sockidx : Z)
| Call (e : event) (module symbol : list byte) (target : option probe_target) (syms : list (list byte))
| Return (e : event) (module symbol : list byte) (target : option probe_target) (syms : list (list byte))
| Syscall (e : syscalls_syscall_event) (id : Z) (ret : option Z)
| DumpModule (module path : list byte) (base pid : Z) (raw : bool)
| Modcmp (module path : list byte) (base pid : Z) (state : list byte) (mem file : option (list byte))
| Lib (e : lib_map_event) (path soname : list byte) | Unlib (e : lib_unmap_event) | LibPacked (apk : list byte) (ref : apk_so_ref).

(** The discriminator each kind of record declares. *)
Definition type_of (v : ev) : list byte :=
  match v with
  | Spawn _ => type_name TRACE_SPAWN | ProcExit _ => type_name TRACE_PROC_EXIT | Execve _ _ => type_name TRACE_EXECVE
  | PropRead _ => type_name TRACE_PROP | FileAccess _ _ _ => type_name TRACE_FILE_ACCESS
  | MassDelete _ _ _ _ => type_name TRACE_MASSDELETE_DETECT | ExfilDetect _ _ _ => type_name TRACE_EXFIL_DETECT
  | A11yDetect _ _ => type_name TRACE_ACCESSIBILITY_DETECT | FilelessDetect _ => type_name TRACE_FILELESS_DETECT
  | ScreenCapture _ => type_name TRACE_SCREENCAPTURE_DETECT
  | ExSummary _ => bytes_of "execve_summary" | PrSummary _ => bytes_of "prop_read_summary" | FaSummary _ => bytes_of "file_access_summary"
  | PeSummary _ => bytes_of "proc_event_summary" | RbSummary _ => bytes_of "massdelete_detect_summary"
  | EbSummary _ => bytes_of "exfil_detect_summary" | A11ySummary _ => bytes_of "accessibility_detect_summary"
  | FilelessSummary _ => bytes_of "fileless_detect_summary" | MediaprojSummary _ => bytes_of "screencapture_detect_summary"
  | SyscSummary _ => bytes_of "syscalls_summary" | FuncsSummary _ => bytes_of "funcs_summary" | CorrSummary _ => bytes_of "correlate_summary"
  | CorrFunc _ => type_name TRACE_FUNC | CorrReturn _ => type_name TRACE_RETURN | CorrSyscall _ _ _ _ => type_name TRACE_SYSCALL
  | Call _ _ _ _ _ => type_name TRACE_CALL | Return _ _ _ _ _ => type_name TRACE_RETURN | Syscall _ _ _ => type_name TRACE_SYSCALL
  | DumpModule _ _ _ _ _ => type_name TRACE_DUMP | Modcmp _ _ _ _ _ _ _ => type_name TRACE_MODCMP
  | Lib _ _ _ => type_name TRACE_LIB | Unlib _ => type_name TRACE_UNLIB | LibPacked _ _ => bytes_of "lib_packed"
  end.

(** What stands around the session. *)
Record env := mk_env {
  calloc_ok : Z -> bool; readlink : Z -> Z -> list byte; SIGRTMIN : Z; ntop6 : list byte -> list byte; stale : nat -> list byte;
  sysindex : anubee_sysindex; tables : arg_tables; counts : list (Z * Z); fd_rows : list (Z * Z); resolve : Z -> list byte
}.
Definition JAVA_BUF := 208.

Section Session.
Context (E : env) (realloc_ok : nat -> Z -> bool).

Definition emit_ops (jc : jcache) (v : ev) (t : fdcache) : res (option (list jop) * fdcache) :=
  let pure ops := Ret (Some ops, t) in
  let some (r : res (list jop * fdcache)) := '(ops, t) ← r; Ret (Some ops, t) in
  match v with
  | Spawn e => pure (mod_emit_spawn e) | ProcExit e => pure (mod_emit_proc_exit e) | Execve e syms => pure (mod_emit_execve e syms)
  | PropRead e => pure (mod_emit_prop e) | FileAccess e c f => pure (mod_emit_file_access e c f)
  | MassDelete e d m b => pure (mod_emit_massdelete_detect e d m b) | ExfilDetect e d b => pure (mod_emit_exfil_detect e d b)
  | A11yDetect e g => pure (mod_emit_accessibility_detect e g) | FilelessDetect e => pure (mod_emit_fileless_detect e)
  | ScreenCapture e => pure (mod_emit_screencapture_detect e)
  | ExSummary s => Ret (ex_emit_summary s, t) | PrSummary s => Ret (pr_emit_summary s, t) | FaSummary s => Ret (fa_emit_summary s, t)
  | PeSummary c => Ret (pe_emit_summary c, t) | RbSummary s => Ret (rb_emit_summary s, t) | EbSummary s => Ret (eb_emit_summary s, t)
  | A11ySummary s => Ret (a11y_emit_summary s, t) | FilelessSummary s => Ret (fileless_emit_summary s, t)
  | MediaprojSummary s => Ret (mediaproj_emit_summary s, t) | SyscSummary s => Ret (sysc_emit_summary s, t)
  | FuncsSummary s => Ret (funcs_emit_summary s, t) | CorrSummary c => Ret (corr_emit_summary c, t)
  | CorrFunc e => pure (corr_emit_func e) | CorrReturn e => pure (corr_emit_return e)
  | CorrSyscall e name fdmask sockidx => some (corr_emit_syscall (calloc_ok E) (readlink E) (SIGRTMIN E) (ntop6 E) e name fdmask sockidx t)
  | Call e m s tg syms => some (funcs_emit_call (calloc_ok E) (readlink E) (ntop6 E) (stale E) e m s tg
                                  (anubee_jcache_get (default 0 (e_stack_id e)) JAVA_BUF jc) syms t)
  | Return e m s tg syms => pure (funcs_emit_return e m s tg syms)
  | Syscall e id ret => some (json_emit (calloc_ok E) (readlink E) (SIGRTMIN E) (ntop6 E) (sysindex E) (tables E) (counts E) (fd_rows E)
                                (anubee_jcache_get (sv_stack_id e) JAVA_BUF jc) (resolve E) e id ret t)
  | DumpModule m p b pid raw => pure (dump_emit_module m p b pid raw) | Modcmp m p b pid s x y => pure (dump_emit_modcmp m p b pid s x y)
  | Lib e p s => pure (libtrace_lib e p s) | Unlib e => pure (libtrace_unlib e) | LibPacked p r => pure (libtrace_packed p r)
  end.

(** The fields have the widths of their C types, captured addresses are complete, and the
    texts that are printed bare need no escape. *)
Definition good (v : ev) : Prop :=
  match v with
  | Spawn e => spawn_ok e | ProcExit e => proc_exit_ok e | Execve e _ => execve_ok e | PropRead e => prop_ok e
  | FileAccess e _ f => file_access_ok e f | MassDelete e _ _ _ => massdelete_ok e | ExfilDetect e _ _ => exfil_ok e
  | A11yDetect e _ => accessibility_ok e | FilelessDetect e => fileless_ok e | ScreenCapture e => screencapture_ok e
  | ExSummary t => Forall ex_ok t /\ small t | PrSummary t => Forall pr_ok t /\ small t | FaSummary t => Forall fa_ok t /\ small t
  | PeSummary c => in_u 64 (g_forks c) /\ in_u 64 (g_exits c) /\ in_u 64 (g_sig_exits c)
  | RbSummary t => Forall rb_ok t /\ small t | EbSummary t => Forall eb_ok t /\ small t | A11ySummary t => Forall a11y_ok t /\ small t
  | FilelessSummary t => Forall fileless_row_ok t /\ small t | MediaprojSummary t => Forall mediaproj_ok t /\ small t
  | SyscSummary t | FuncsSummary t => stats_ok t | CorrSummary c => corr_sums_ok c
  | CorrFunc e => func_ok e | CorrReturn e => corr_return_ok e
  | CorrSyscall e _ _ _ => corr_syscall_ok e /\ sock_in (se_sock e) (se_sock_len e)
  | Call e _ _ tg _ => event_ok e /\ target_ok tg /\ (forall i, zlen (stale E i) = SOCK_ADDR_MAX) /\
                       Forall (fun s => match s with Some b => zlen b = SOCK_ADDR_MAX | None => True end) (e_sock e)
  | Return e _ _ tg _ => event_ok e /\ target_ok tg
  | Syscall e id ret => svc_ok e id ret /\ sock_in (sv_sock e) (sv_sock_len e) /\ plain (sysname (sysindex E) (sv_nr e) (sv_compat e)) /\
                        arg_count_cached (tables E) (counts E) (sv_nr e) <= SYSC_SYSCALL_NARGS
  | DumpModule _ _ b _ _ | Modcmp _ _ b _ _ _ _ => in_u 64 b
  | Lib e _ _ => lib_ok e | Unlib e => unlib_ok e | LibPacked _ r => packed_ok r
  end.

(** Every cached fragment is an array of names. *)
Definition jc_ok (jc : jcache) : Prop :=
  forall k i frag, jc !! k = Some (i, frag) -> exists l, frag = jput (java_value l) [].
Lemma jc_get jc id cap : jc_ok jc -> exists java, anubee_jcache_get id cap jc = java_frag java.
Proof.
  intros H. unfold anubee_jcache_get. destruct (jc !! slot id) as [[i frag]|] eqn:El; [|now exists None].
  destruct (_ && _); [|now exists None]. destruct (H _ _ _ El) as [l ->]. now exists (Some l).
Qed.

Definition recorded (t : list byte) (ops : list jop) (r : json * list byte) : Prop :=
  builds ops (fst r) (snd r) /\ exists l, fst r = tagged t l.
Lemma emit_good jc v t : jc_ok jc -> good v -> fdc_wf t ->
  exists o t', emit_ops jc v t = Ret (o, t') /\ fdc_wf t' /\ match o with Some ops => exists r, recorded (type_of v) ops r | None => True end.
Proof.
  intros Hj Hg Hw.
  assert (Hpure : forall ops val e, builds ops val e -> (exists l, val = tagged (type_of v) l) ->
    exists o t', (Ret (Some ops, t) : res (option (list jop) * fdcache)) = Ret (o, t') /\ fdc_wf t' /\ match o with Some ops => exists r, recorded (type_of v) ops r | None => True end).
  { intros ops val e H1 H2. exists (Some ops), t. split; [reflexivity|]. split; [exact Hw|]. now exists (val, e). }
  assert (Hopt : forall o val, (forall ops, o = Some ops -> builds ops val []) -> (exists l, val = tagged (type_of v) l) ->
    exists o' t', (Ret (o, t) : res (option (list jop) * fdcache)) = Ret (o', t') /\ fdc_wf t' /\ match o' with Some ops => exists r, recorded (type_of v) ops r | None => True end).
  { intros o val H1 H2. exists o, t. split; [reflexivity|]. split; [exact Hw|]. destruct o as [ops|]; [|exact I]. exists (val, []). split; [now apply H1|exact H2]. }
  destruct v; cbn [emit_ops good] in *;
    try (eapply Hpure; [|eexists; reflexivity]; eauto using builds_spawn, builds_proc_exit, builds_execve, builds_prop, builds_file_access,
      builds_massdelete, builds_exfil, builds_accessibility, builds_fileless, builds_screencapture, builds_func, builds_corr_return,
      builds_dump, builds_modcmp, builds_lib, builds_unlib, builds_packed; fail);
    try (eapply Hopt; [|eexists; reflexivity]; destruct Hg; eauto using ex_summary_builds, pr_summary_builds, fa_summary_builds, rb_summary_builds,
      eb_summary_builds, a11y_summary_builds, fileless_summary_builds, mediaproj_summary_builds; fail).
  - eapply Hopt; [|eexists; reflexivity]. destruct Hg as (H1 & H2 & H3). intros ops. now apply pe_summary_builds.
  - eapply Hopt; [|eexists; reflexivity]. intros ops Ho. now apply (stats_builds _ _ _ "syscalls_summary"%string "unique_syscalls"%string "syscalls"%string _ _ Hg Ho).
  - eapply Hopt; [|eexists; reflexivity]. intros ops Ho. now apply (stats_builds _ _ _ "funcs_summary"%string "unique_symbols"%string "symbols"%string _ _ Hg Ho).
  - eapply Hopt; [|eexists; reflexivity]. intros ops. now apply corr_summary_builds.
  - destruct Hg as [H1 H2]. destruct (corr_syscall_total (calloc_ok E) (readlink E) (SIGRTMIN E) (ntop6 E) e name fdmask sockidx t Hw H2) as (dec & t' & -> & Hw').
    rewrite ret_bind. do 2 eexists. split; [reflexivity|]. split; [exact Hw'|]. eexists (_, _). split; [now apply builds_corr_syscall|]. eexists. reflexivity.
  - destruct Hg as (H1 & H2 & H3 & H4). destruct (jc_get jc (default 0 (e_stack_id e)) JAVA_BUF Hj) as [java ->].
    destruct (funcs_call_total (calloc_ok E) (readlink E) (ntop6 E) (stale E) e module symbol target java syms t Hw H1 H2 H3 H4) as (ops & d & t' & -> & Hw' & Hb).
    rewrite ret_bind. do 2 eexists. split; [reflexivity|]. split; [exact Hw'|]. eexists (_, _). split; [exact Hb|]. eexists. reflexivity.
  - destruct Hg. eapply Hpure; [now apply builds_return|]. eexists. reflexivity.
  - destruct Hg as (H1 & H2 & H3 & H4). destruct (jc_get jc (sv_stack_id e) JAVA_BUF Hj) as [java ->].
    destruct (svc_total (calloc_ok E) (readlink E) (SIGRTMIN E) (ntop6 E) (sysindex E) (tables E) (counts E) (fd_rows E) java (resolve E) e id ret t Hw H1 H2 H3 H4)
      as (ops & val & t' & -> & Hw' & Hb & Hl).
    rewrite ret_bind. do 2 eexists. split; [reflexivity|]. split; [exact Hw'|]. exists (val, []). split; [exact Hb|exact Hl].
Qed.

(** ** Sessions *)

(** One step: an event, a snapshot with its unwound frames and managed chain, the coverage
    report.  [io]: the outcomes of the write and of the flush. *)
Inductive action :=
| Emit (io : option Z * option Z) (v : ev)
| Stack (k : stack_record) (frames : list walk_frame) (nterp shadow : list (list byte)) (w : walked)
| Coverage (io : option Z * option Z) (c : anubee_coverage).

(** The callers that set [len] to 0 before they build. *)
Definition resets (v : ev) : bool :=
  match v with
  | Spawn _ | ProcExit _ | Execve _ _ | PropRead _ | FileAccess _ _ _ | MassDelete _ _ _ _ | ExfilDetect _ _ _ | A11yDetect _ _
  | FilelessDetect _ | ScreenCapture _ | CorrFunc _ | CorrReturn _ | CorrSyscall _ _ _ _ => false
  | _ => true
  end.
Record session := mk_session { s_sink : sink; s_fdc : fdcache; s_jc : jcache; g_stacks : option (list byte) }.
Definition with_jb (s : sink) (j : jbuf) : sink := mk_sink (sk_file s) j (sk_count s) (sk_jsonl s) (sk_since s) (sk_werr s).
(** [j->len = 0] *)
Definition zeroed (s : sink) : sink := with_jb s (rollback 0 (sk_jb s)).
Definition cleared (b : bool) (s : sink) : sink := if b then zeroed s else s.

(** Build a record in the sink's buffer and write what is there to the sidecar. *)
Definition side_record (ops : list jop) (s : sink) (f : list byte) : res (sink * list byte) :=
  j ← build realloc_ok ops (sk_jb (zeroed s));
  Ret (with_jb s j, f ++ jbytes j).
Definition json_emit_stack (k : stack_record) (frames : list walk_frame) (nterp shadow : list (list byte)) (w : walked) (x : session) : res session :=
  match g_stacks x with
  | None => Ret x
  | Some f =>
      '(s, f) ← side_record (anubee_stack_snapshot_emit_json k) (s_sink x) f;
      match frames with
      | [] => Ret (mk_session s (s_fdc x) (s_jc x) (Some f))
      | _ =>
          '(s, f) ← side_record (anubee_emit_cfi_stack_json (k_pid k) (k_tid k) (k_sid k) frames nterp shadow) s f;
          jc ← store_chain w (s_jc x);
          Ret (mk_session s (s_fdc x) jc (Some f))
      end
  end.
Definition step (a : action) (x : session) : res session :=
  match a with
  | Emit io v =>
      '(o, t) ← emit_ops (s_jc x) v (s_fdc x);
      match o with
      | None => Ret (mk_session (s_sink x) t (s_jc x) (g_stacks x))
      | Some ops =>
          s ← put_record realloc_ok io ops (cleared (resets v) (s_sink x));
          Ret (mk_session s t (s_jc x) (g_stacks x))
      end
  | Stack k frames nterp shadow w => json_emit_stack k frames nterp shadow w x
  | Coverage io c =>
      s ← put_record realloc_ok io (coverage_record c) (cleared (cv_exempt c) (s_sink x));
      Ret (mk_session s (s_fdc x) (s_jc x) (g_stacks x))
  end.
Fixpoint run (l : list action) (x : session) : res session :=
  match l with
  | [] => Ret x
  | a :: l => x ← step a x; run l x
  end.

(** *** What a session is expected to leave *)

Definition silent (v : ev) : bool := match emit_ops ∅ v no_htab with Ret (None, _) => true | _ => false end.
Definition speaks (a : action) : bool := match a with Emit _ v => negb (silent v) | Stack _ _ _ _ _ => false | Coverage _ _ => true end.
(** The value [r] is the record of the step. *)
Definition says (a : action) (r : json * list byte) : Prop :=
  match a with
  | Emit _ v => exists jc t ops t', emit_ops jc v t = Ret (Some ops, t') /\ recorded (type_of v) ops r
  | Stack _ _ _ _ _ => False
  | Coverage _ c => r = (coverage_value c, [x0a])
  end.
Definition side_values (a : action) : list json :=
  match a with
  | Stack k frames nterp shadow _ =>
      stack_value k :: match frames with [] => [] | _ => [cfi_stack_value (k_pid k) (k_tid k) (k_sid k) frames nterp shadow] end
  | _ => []
  end.
Definition good_action (a : action) : Prop :=
  match a with
  | Emit _ v => good v
  | Stack k frames nterp shadow w =>
      stack_ok k /\ Forall walk_ok frames /\ Z.of_nat (length frames + length (interp_names frames nterp shadow)) < 2 ^ 64 /\ w_good w
  | Coverage _ c => coverage_ok c
  end.
(** No record comes near the limit of the buffer. *)
Definition fits (a : action) : Prop :=
  match a with
  | Emit _ v => forall jc t ops t', emit_ops jc v t = Ret (Some ops, t') -> zlen (text ops) <= LIM
  | Stack k frames nterp shadow _ => zlen (text (anubee_stack_snapshot_emit_json k)) <= LIM /\
      zlen (text (anubee_emit_cfi_stack_json (k_pid k) (k_tid k) (k_sid k) frames nterp shadow)) <= LIM
  | Coverage _ c => zlen (text (coverage_record c)) <= LIM
  end.
(** After a snapshot the buffer holds its text until a step clears it. *)
Definition clears (a : action) : bool := match a with Emit _ v => resets v | Stack _ _ _ _ _ => true | Coverage _ c => cv_exempt c end.
Definition soiled (dirty : bool) (a : action) : bool :=
  match a with Emit _ v => dirty && silent v | Stack _ _ _ _ _ => true | Coverage _ _ => false end.
Fixpoint ordered (dirty : bool) (l : list action) : Prop :=
  match l with
  | [] => True
  | a :: l => (dirty = true -> clears a = true) /\ ordered (soiled dirty a) l
  end.

Lemma silent_spec jc v t o t' : emit_ops jc v t = Ret (o, t') -> silent v = bool_decide (o = None).
Proof.
  assert (Hs : forall (r r0 : res (list jop * fdcache)), ('(ops, t) ← r; Ret (Some ops, t)) = Ret (o, t') ->
    match ('(ops, t) ← r0; Ret (Some ops, t)) with Ret (None, _) => true | _ => false end = bool_decide (o = None)).
  { intros r r0. destruct r as [[ops u]| | |]; try discriminate. rewrite ret_bind. intros [= <- _].
    destruct r0 as [[ops0 u0]| | |]; reflexivity. }
  unfold silent. destruct v; cbn [emit_ops]; try (intros [= <- <-]; reflexivity); try apply Hs;
    intros [= <- <-]; case_match; reflexivity.
Qed.

(** ** The invariant of a session *)

Definition mem_ok : Prop := forall n z, realloc_ok n z = true.
Definition texts (log : list (action * (json * list byte))) : list (list byte) := map (fun p => rec_text (snd p)) log.
Record inv (jsonl : bool) (log : list (action * (json * list byte))) (side : list json) (dirty : bool) (x : session) : Prop := {
  in_sink : sink_at (zeroed (s_sink x)) jsonl (texts log);
  in_jb : jb_ok (sk_jb (s_sink x));
  in_clean : dirty = false -> jbytes (sk_jb (s_sink x)) = [];
  in_fdc : fdc_wf (s_fdc x);
  in_jc : jc_ok (s_jc x);
  in_mem : mem_ok -> j_err (sk_jb (s_sink x)) = false /\ g_stacks x = Some (flat_map (fun v => jput v [x0a]) side);
  in_side : is_Some (g_stacks x)
}.

Lemma zero_ok j : jb_ok j -> jb_ok (rollback 0 j) /\ jbytes (rollback 0 j) = [].
Proof.
  intros H. split; [apply (rollback_ok 0 j H)|]. unfold rollback, jbytes. cbn [j_b]. destruct (j_b j); reflexivity.
Qed.
Lemma zeroed_at s jsonl kept : sink_at s jsonl kept -> sink_at (zeroed s) jsonl kept.
Proof. intros [H1 H2 H3 H4 H5]. destruct (zero_ok _ H4). constructor; auto. Qed.
Lemma cleared_at jsonl log side dirty x (b : bool) :
  inv jsonl log side dirty x -> (dirty = true -> b = true) -> sink_at (cleared b (s_sink x)) jsonl (texts log).
Proof.
  intros [Hs Hj Hc _ _ _ _] Hb. destruct b; [exact Hs|]. destruct Hs as [H1 H2 H3 H4 H5]. constructor; auto.
  apply Hc. destruct dirty; [discriminate (Hb eq_refl)|reflexivity].
Qed.
Lemma cleared_err b s : j_err (sk_jb (cleared b s)) = j_err (sk_jb s).
Proof. now destruct b. Qed.

Lemma jput_nonempty v e : jok v -> jput v e <> [].
Proof. intros H E1. pose proof (jsize_len v e H) as Hl. rewrite E1 in Hl. destruct v; simpl in Hl; lia. Qed.

(** Putting one record. *)
Lemma put_spec jsonl log side dirty x io ops r (b : bool) a :
  inv jsonl log side dirty x -> (dirty = true -> b = true) -> builds ops (fst r) (snd r) -> zlen (text ops) <= LIM -> zlen log < 2 ^ 64 - 1 ->
  exists s' new, put_record realloc_ok io ops (cleared b (s_sink x)) = Ret s' /\
    (new = [(a, r)] \/ new = []) /\ (mem_ok -> new = [(a, r)]) /\
    forall t jc, fdc_wf t -> jc_ok jc -> inv jsonl (log ++ new) side false (mk_session s' t jc (g_stacks x)).
Proof.
  intros Hi Hb [Ht Ho Hk _] HL Hn. pose proof (cleared_at _ _ _ _ _ b Hi Hb) as Hs.
  assert (Hne : text ops <> []) by (rewrite Ht; now apply jput_nonempty).
  destruct (put_record_spec realloc_ok io ops (cleared b (s_sink x)) jsonl (texts log) Hs Ho HL Hne) as (s' & E1 & Hres).
  { unfold texts, zlen in *. now rewrite length_map. }
  exists s'. destruct Hi as [_ _ _ _ _ Hm Hsd]. rewrite cleared_err in Hres.
  assert (Hmk : forall log' t jc, sink_at s' jsonl (texts log') -> (mem_ok -> j_err (sk_jb s') = false) -> fdc_wf t -> jc_ok jc ->
    inv jsonl log' side false (mk_session s' t jc (g_stacks x))).
  { intros log' t jc Hat He Hf Hjc. constructor; cbn [s_sink s_fdc s_jc g_stacks]; auto; [now apply zeroed_at|apply Hat|intros _; apply Hat|].
    intros M. split; [now apply He|]. now apply Hm. }
  destruct Hres as [[Hat He]|[Hat Hwhy]].
  - exists [(a, r)]. split; [exact E1|]. split; [now left|]. split; [auto|]. intros t jc Hf Hjc. apply Hmk; auto.
    unfold texts. rewrite map_app. cbn [map snd]. unfold rec_text. now rewrite <- Ht.
  - exists []. rewrite app_nil_r. split; [exact E1|]. split; [now right|]. assert (Hno : ~ mem_ok).
    { intros M. destruct Hwhy as [Hw|(n & z & Hw)]; [destruct (Hm M) as [E2 _]; congruence|]. rewrite (M n z) in Hw. discriminate. }
    split; [intros M; contradiction|]. intros t jc Hf Hjc. apply Hmk; auto. intros M; contradiction.
Qed.

(** A record of the sidecar. *)
Lemma side_spec ops v s f jsonl kept :
  sink_at (zeroed s) jsonl kept -> jb_ok (sk_jb s) -> builds ops v [x0a] -> zlen (text ops) <= LIM ->
  exists s' f', side_record ops s f = Ret (s', f') /\ sink_at (zeroed s') jsonl kept /\ jb_ok (sk_jb s') /\
    (mem_ok -> j_err (sk_jb s) = false -> j_err (sk_jb s') = false /\ f' = f ++ jput v [x0a]).
Proof.
  intros Hs Hj [Ht Ho _ _] HL. unfold side_record. destruct (zero_ok _ Hj) as [Hz Hz0].
  destruct (emits_build realloc_ok ops Ho (rollback 0 (sk_jb s)) Hz) as (j & E1 & [Hj' Ha] & Hb).
  { unfold jlen. rewrite Hz0. change (zlen (@nil byte)) with 0. lia. }
  change (sk_jb (zeroed s)) with (rollback 0 (sk_jb s)). rewrite E1, ret_bind. do 2 eexists. split; [reflexivity|].
  split; [destruct Hs as [H1 H2 H3 H4 H5]; destruct (zero_ok _ Hj'); constructor; auto|]. split; [exact Hj'|].
  intros M He. assert (Ee : j_err j = false).
  { destruct (j_err j) eqn:Ej; [|reflexivity]. destruct (Hb Ej) as [Hc|(n & z & Hc)]; [cbn [rollback j_err] in Hc; congruence|].
    rewrite (M n z) in Hc. discriminate. }
  split; [exact Ee|]. cbn [rollback j_err] in Ha. rewrite He, Ee, Hz0 in Ha. rewrite Ha, <- Ht. reflexivity.
Qed.
Lemma store_ok w jc : w_good w -> jc_ok jc -> exists jc', store_chain w jc = Ret jc' /\ jc_ok jc'.
Proof.
  intros [Hc Hs] Hj. assert (Hb : w_cap w <= 2 ^ 60) by (unfold JC_FRAG in Hc; lia).
  destruct (chain_build_spec (w_ok w) (w_cap w) Hb (w_syms w) (w_nterp w) (proj1 Hc) Hs) as (o & E1 & H).
  unfold store_chain, w_chain. rewrite E1, ret_bind. eexists. split; [reflexivity|]. destruct o as [[frag n]|]; [|exact Hj].
  destruct H as [-> _]. cbn [anubee_jcache_put]. destruct (_ >? _); [exact Hj|]. intros k i frag. destruct (decide (slot (w_id w) = k)) as [<-|Hn].
  - rewrite lookup_insert_eq. intros [= <- <-]. now eexists.
  - rewrite lookup_insert_ne by exact Hn. apply Hj.
Qed.

Lemma stack_spec jsonl log side dirty x k frames nterp shadow w :
  inv jsonl log side dirty x -> good_action (Stack k frames nterp shadow w) -> fits (Stack k frames nterp shadow w) ->
  exists x', json_emit_stack k frames nterp shadow w x = Ret x' /\ inv jsonl log (side ++ side_values (Stack k frames nterp shadow w)) true x'.
Proof.
  intros [Hs Hj Hc Hf Hjc Hm [f Hsd]] (G1 & G2 & G3 & G4) [F1 F2]. unfold json_emit_stack. rewrite Hsd.
  destruct (side_spec _ _ (s_sink x) f jsonl (texts log) Hs Hj (builds_stack k G1) F1) as (s1 & f1 & -> & S1 & J1 & M1). rewrite ret_bind.
  assert (Hm1 : mem_ok -> j_err (sk_jb s1) = false /\ f1 = flat_map (fun v => jput v [x0a]) (side ++ [stack_value k])).
  { intros M. destruct (Hm M) as [He Hf']. destruct (M1 M He) as [He1 ->]. split; [exact He1|].
    rewrite flat_map_app. cbn [flat_map]. rewrite app_nil_r. f_equal. congruence. }
  assert (Hmk : forall s' f' jc' side', sink_at (zeroed s') jsonl (texts log) -> jb_ok (sk_jb s') -> jc_ok jc' ->
    (mem_ok -> j_err (sk_jb s') = false /\ f' = flat_map (fun v => jput v [x0a]) side') ->
    inv jsonl log side' true (mk_session s' (s_fdc x) jc' (Some f'))).
  { intros s' f' jc' side' A1 A2 A3 A4. constructor; cbn [s_sink s_fdc s_jc g_stacks]; auto; try discriminate.
    intros M. destruct (A4 M) as [B1 ->]. auto. }
  destruct frames as [|w0 fr]; [eexists; split; [reflexivity|]; now apply Hmk|].
  pose proof G1 as ((P1 & P2 & P3 & _) & _).
  destruct (side_spec _ _ s1 f1 jsonl (texts log) S1 J1 (builds_cfi_stack _ _ _ _ _ _ P1 P2 P3 G2 G3) F2) as (s2 & f2 & -> & S2 & J2 & M2). rewrite ret_bind.
  destruct (store_ok w (s_jc x) G4 Hjc) as (jc' & -> & Hjc'). rewrite ret_bind. eexists. split; [reflexivity|]. apply Hmk; auto.
  intros M. destruct (Hm1 M) as [He1 ->]. destruct (M2 M He1) as [He2 ->]. split; [exact He2|].
  cbn [side_values]. rewrite !flat_map_app. cbn [flat_map]. now rewrite !app_nil_r, <- app_assoc.
Qed.

(** What one put adds to the log. *)
Definition added (a : action) (new : list (action * (json * list byte))) : Prop :=
  map fst new `sublist_of` [a] /\ Forall (fun p => says (fst p) (snd p) /\ rec_good (snd p) /\ line_end (snd (snd p))) new /\
  (mem_ok -> map fst new = if speaks a then [a] else []).
Lemma added_one a r new ops :
  new = [(a, r)] \/ new = [] -> (mem_ok -> new = [(a, r)]) -> speaks a = true -> says a r -> builds ops (fst r) (snd r) -> added a new.
Proof.
  intros Hn Hm Hs Hr [_ _ Hk He]. split; [|split].
  - destruct Hn as [-> | ->]; [reflexivity|apply sublist_nil_l].
  - destruct Hn as [-> | ->]; [|constructor]. constructor; [|constructor]. cbn [fst snd]. split; [exact Hr|]. split; [|exact He].
    split; [exact Hk|now apply line_end_blank].
  - intros M. rewrite (Hm M), Hs. reflexivity.
Qed.
Lemma added_none a : speaks a = false -> added a [].
Proof. intros H. split; [apply sublist_nil_l|]. split; [constructor|]. now rewrite H. Qed.

(** One step of a session. *)
Lemma step_spec jsonl log side dirty x a :
  inv jsonl log side dirty x -> good_action a -> fits a -> (dirty = true -> clears a = true) -> zlen log < 2 ^ 64 - 1 ->
  exists x' new, step a x = Ret x' /\ inv jsonl (log ++ new) (side ++ side_values a) (soiled dirty a) x' /\ added a new.
Proof.
  intros Hi Hg Hf Hd Hn. destruct a as [io v|k frames nterp shadow w|io c].
  - cbn [step clears good_action fits soiled side_values] in *. rewrite app_nil_r.
    destruct (emit_good (s_jc x) v (s_fdc x) (in_jc _ _ _ _ _ Hi) Hg (in_fdc _ _ _ _ _ Hi)) as (o & t & Ee & Hw & Ho).
    rewrite Ee, ret_bind. pose proof (silent_spec _ _ _ _ _ Ee) as Hsil. destruct o as [ops|].
    + destruct Ho as (r & Hr). pose proof Hr as [Hb _]. rewrite bool_decide_false in Hsil by discriminate.
      destruct (put_spec jsonl log side dirty x io ops r (resets v) (Emit io v) Hi Hd Hb (Hf _ _ _ _ Ee) Hn) as (s' & new & -> & Hl & Hm & Hinv).
      rewrite ret_bind. do 2 eexists. split; [reflexivity|]. rewrite Hsil, andb_false_r. split; [apply Hinv; [exact Hw|apply Hi]|].
      eapply added_one; [exact Hl|exact Hm|cbn [speaks]; now rewrite Hsil| |exact Hb]. now exists (s_jc x), (s_fdc x), ops, t.
    + rewrite bool_decide_true in Hsil by reflexivity. do 2 eexists. split; [reflexivity|]. rewrite Hsil, andb_true_r.
      split; [|apply added_none; cbn [speaks]; now rewrite Hsil]. rewrite app_nil_r. destruct Hi. constructor; auto.
  - destruct (stack_spec jsonl log side dirty x k frames nterp shadow w Hi Hg Hf) as (x' & E1 & Hinv). exists x', []. rewrite app_nil_r.
    split; [exact E1|]. split; [exact Hinv|now apply added_none].
  - cbn [step clears good_action fits soiled side_values] in *. rewrite app_nil_r.
    destruct (put_spec jsonl log side dirty x io (coverage_record c) (coverage_value c, [x0a]) (cv_exempt c) (Coverage io c) Hi Hd (builds_coverage c Hg) Hf Hn)
      as (s' & new & -> & Hl & Hm & Hinv).
    rewrite ret_bind. do 2 eexists. split; [reflexivity|]. split; [apply Hinv; apply Hi|].
    eapply added_one; [exact Hl|exact Hm|reflexivity|reflexivity|now apply (builds_coverage c)].
Qed.

Lemma run_spec jsonl l : forall log side dirty x,
  inv jsonl log side dirty x -> Forall good_action l -> Forall fits l -> ordered dirty l -> zlen log + zlen l < 2 ^ 64 ->
  exists x' new d, run l x = Ret x' /\ inv jsonl (log ++ new) (side ++ flat_map side_values l) d x' /\
    map fst new `sublist_of` l /\ Forall (fun p => says (fst p) (snd p) /\ rec_good (snd p) /\ line_end (snd (snd p))) new /\
    (mem_ok -> map fst new = List.filter speaks l).
Proof.
  induction l as [|a l IH]; intros log side dirty x Hi Hg Hf Ho Hn; cbn [run].
  { exists x, [], dirty. cbn [flat_map]. rewrite !app_nil_r. split; [reflexivity|]. split; [exact Hi|]. repeat constructor. }
  apply list.Forall_cons in Hg as [Ga Gl]. apply list.Forall_cons in Hf as [Fa Fl]. destruct Ho as [Oa Ol]. rewrite zlen_cons in Hn.
  pose proof (zlen_nonneg l). destruct (step_spec jsonl log side dirty x a Hi Ga Fa Oa) as (x1 & n1 & -> & I1 & S1 & R1 & M1); [lia|].
  rewrite ret_bind. assert (Hlen : zlen n1 <= 1).
  { apply sublist_length in S1. unfold zlen. rewrite length_map in S1. simpl in S1. lia. }
  destruct (IH _ _ _ x1 I1 Gl Fl Ol) as (x2 & n2 & d & E2 & I2 & S2 & R2 & M2); [rewrite zlen_app; lia|].
  exists x2, (n1 ++ n2), d. split; [exact E2|]. cbn [flat_map]. rewrite !app_assoc. split; [exact I2|].
  split; [rewrite map_app; change (a :: l) with ([a] ++ l); now apply sublist_app|]. split; [now apply Forall_app|].
  intros M. rewrite map_app, (M1 M), (M2 M). cbn [List.filter]. now destruct (speaks a).
Qed.
End Session.

(** ** The files of a session *)

(** The session at the start: an open sink, empty caches and an empty sidecar. *)
Definition start (jsonl : bool) (s : sink) : session := mk_session (snd (anubee_sink_open true jsonl s)) no_htab ∅ (Some []).
Definition empty_buffer : jbuf := mk_jbuf None 0 false 0.
Lemma start_inv ro jsonl s : sk_jb s = empty_buffer -> inv ro jsonl [] [] false (start jsonl s).
Proof.
  intros Hs. assert (Hj : jb_ok empty_buffer) by (split; [reflexivity|vm_compute; discriminate|reflexivity]).
  assert (Hb : sk_jb (snd (anubee_sink_open true jsonl s)) = empty_buffer) by exact Hs.
  constructor; cbn [start s_sink s_fdc s_jc g_stacks]; rewrite ?Hb; auto.
  - destruct (zero_ok _ Hj). constructor; cbn; rewrite ?Hs; auto. now rewrite app_nil_r.
  - now left.
  - intros k i frag Hk. now rewrite lookup_empty in Hk.
Qed.
Lemma side_jok E l : Forall (good_action E) l -> Forall jok (flat_map side_values l).
Proof.
  induction 1 as [|a l Ha _ IH]; [constructor|]. cbn [flat_map]. apply Forall_app. split; [|exact IH].
  destruct a as [io v|k frames nterp shadow w|io c]; try constructor; cbn [side_values good_action] in *.
  - destruct Ha as (G1 & _). apply (builds_stack k G1).
  - destruct frames as [|f0 fr]; [constructor|]. destruct Ha as (((P1 & P2 & P3 & _) & _) & G2 & G3 & _). constructor; [|constructor].
    now apply (builds_cfi_stack (k_pid k) (k_tid k) (k_sid k) (f0 :: fr) nterp shadow).
Qed.
Lemma side_reads l : Forall jok l -> read_lines (flat_map (fun v => jput v [x0a]) l) = map Some l.
Proof.
  intros H. assert (Et : flat_map (fun v => jput v [x0a]) l = sink_text true (map rec_text (map (fun v => (v, [])) l))).
  { unfold sink_text. rewrite app_nil_r. cbn [app]. generalize true at 2. induction l as [|v l IH]; intros first; [reflexivity|].
    cbn [flat_map map frame_from]. apply list.Forall_cons in H as [_ H]. rewrite (IH H false). unfold rec_text at 2. cbn [fst snd].
    now rewrite (jput_app v [x0a]), <- app_assoc. }
  rewrite Et, read_lines_text; [now rewrite map_map|]. apply List.Forall_map. eapply List.Forall_impl; [|exact H]. intros v Hv. split; [exact Hv|now left].
Qed.


(** *** A session *)

Definition demo_env : env :=
  mk_env (fun _ => true) (fun _ _ => bytes_of "/dev/null") 34 (fun _ => []) (fun _ => replicate 28 x00)
    (anubee_sysindex_build [(63, bytes_of "read")]) (build_arg_tables [(63, 3)] [(63, 1)] []) [(63, 3)] [(63, 1)] (fun _ => bytes_of "libc.so!read").
Definition demo_stack : stack_record := mk_stack_record 7 8 99 0x1000 0x2000 0 0 (replicate 31 5) 0 (bytes_of "abc") false.
Definition demo_walk : list walk_frame := [mk_walk_frame 0 0x1000 (bytes_of "boot.oat!a.B.c") None; mk_walk_frame 1 0x2000 (bytes_of "libart.so!ExecuteNterpImpl") None].
Definition demo_walked : walked := mk_walked 99 JAVA_BUF (map wf_sym demo_walk) [] (fun _ _ => true).
Definition demo_syscall : syscalls_syscall_event :=
  mk_svc_event 7 8 63 1234 false [3; 0x7f00; 16; 0; 0; 0] 99 [0x1000; 0x2000] 0 (replicate 4 None) 0 [].
Definition demo_session : list action :=
  [ Stack demo_stack demo_walk [] [] demo_walked; Emit (None, None) (Syscall demo_syscall 1 (Some (-11)));
    Emit (None, None) (SyscSummary [(bytes_of "read", 1)]); Coverage (None, None) demo_coverage ].
Definition fresh_sink : sink := mk_sink None empty_buffer 0 false 0 0.

(** The closed file and the sidecar of a session. *)
Definition files (E : env) (ro : nat -> Z -> bool) (jsonl : bool) (l : list action) : option (list byte * list byte) :=
  match run E ro l (start jsonl fresh_sink) with
  | Ret x => match fst (anubee_sink_close None None (s_sink x)), g_stacks x with Some f, Some g => Some (f, g) | _, _ => None end
  | _ => None
  end.
Definition types_in (o : option (list json)) : option (list (option json)) :=
  option_map (map (fun v => match v with JObj l => member "type" l | _ => None end)) o.

(** The syscall takes its managed chain from the snapshot before it. *)
Example demo_session_files :
  match files demo_env (fun _ _ => true) false demo_session with
  | Some (f, g) => types_in (read_file f) = Some (map (fun t => Some (jstr t)) ["syscall"; "syscalls_summary"; "coverage"]%string) /\
      types_in (mapM id (read_lines g)) = Some (map (fun t => Some (jstr t)) ["stack"; "cfi_stack"]%string) /\
      match read_file f with Some (JObj l :: _) => member "java_stack" l = Some (JArr [jstr "a.B.c"]) | _ => False end
  | None => False
  end.
Proof. vm_compute. auto. Qed.

(** The same without a descriptor and a stack id. *)
Definition plain_env : env :=
  mk_env (fun _ => true) (fun _ _ => []) 34 (fun _ => []) (fun _ => replicate 28 x00)
    (anubee_sysindex_build [(63, bytes_of "read")]) (build_arg_tables [(63, 3)] [] []) [(63, 3)] [] (fun _ => bytes_of "libc.so!read").
Definition plain_syscall : syscalls_syscall_event := mk_svc_event 7 8 63 1234 false [3; 0x7f00; 16; 0; 0; 0] 0 [0x1000] 0 (replicate 4 None) 0 [].
Definition plain_session : list action :=
  [ Stack demo_stack demo_walk [] [] demo_walked; Emit (None, None) (Syscall plain_syscall 1 None); Coverage (None, None) demo_coverage ].
Ltac nums := repeat match goal with |- _ /\ _ => split end; try (apply List.Forall_forall; intros ? Hin; cbn in Hin; intuition subst); unfold in_u; try lia.
Lemma demo_stack_ok : stack_ok demo_stack.
Proof. unfold stack_ok, stack_len, demo_stack, ANUBEE_SNAP_MAX. cbn [k_pid k_tid k_sid k_pc k_sp k_fp k_lr k_regs k_tls k_snap]. nums. vm_compute. discriminate. Qed.
Lemma demo_coverage_ok : coverage_ok demo_coverage.
Proof. unfold coverage_ok, demo_coverage. cbn [cv_snaps_total cv_snaps_truncated cv_cfi_walks cv_cfi_stop cv_ring_drops cv_queue_drops cv_prearm_drops cv_depth_capped cv_spans_opened cv_returns_captured]. nums. Qed.
Lemma demo_walk_ok : Forall walk_ok demo_walk.
Proof. repeat constructor; cbn [wf_index wf_pc]; lia. Qed.
Lemma demo_walked_ok : w_good demo_walked.
Proof. split; [vm_compute; split; discriminate|]. apply (bool_decide_unpack _). vm_compute. exact I. Qed.
Lemma plain_syscall_good : good plain_env (Syscall plain_syscall 1 None).
Proof.
  cbn [good]. split; [|split; [|split]].
  - unfold svc_ok, plain_syscall. cbn [sv_pid sv_tid sv_nr sv_ktime sv_args sv_stack sv_stack_id]. nums.
  - unfold sock_in, plain_syscall. cbn [sv_sock sv_sock_len]. change (zlen (@nil byte)) with 0. nums.
  - repeat constructor.
  - vm_compute. discriminate.
Qed.
Lemma plain_session_fits : Forall (fits plain_env) plain_session.
Proof.
  repeat apply List.Forall_cons; try apply List.Forall_nil; cbn [fits].
  - split; vm_compute; discriminate.
  - intros jc t ops t'.
    assert (H : emit_ops plain_env jc (Syscall plain_syscall 1 None) t =
                Ret (match emit_ops plain_env ∅ (Syscall plain_syscall 1 None) no_htab with Ret (o, _) => o | _ => None end, t)) by (vm_compute; reflexivity).
    rewrite H. intros H1. apply (f_equal (fun r => match r with Ret (Some o, _) => zlen (text o) | _ => 0 end)) in H1. rewrite <- H1. vm_compute. discriminate.
  - vm_compute. discriminate.
Qed.

(** *** Where the files break *)

(** The coverage report does not clear the buffer.  When the last thing the syscall engine
    built there is a snapshot (its syscall still waits for the return), the report is
    appended to the snapshot's text and both go to the main file: the array does not
    parse any more. *)
Theorem coverage_after_snapshot_breaks_file :
  match files plain_env (fun _ _ => true) false [Stack demo_stack [] [] [] demo_walked; Coverage (None, None) demo_coverage] with
  | Some (f, _) => read_file f = None /\ exists p q, f = p ++ text (anubee_stack_snapshot_emit_json demo_stack) ++ text (coverage_record demo_coverage) ++ q
  | None => False
  end.
Proof.
  set (r := files _ _ _ _). vm_compute in r. subst r. split; [vm_compute; reflexivity|]. exists [x5b; x0a; x20; x20], [x0a; x5d; x0a]. vm_compute. reflexivity.
Qed.
Definition big_stack : stack_record := mk_stack_record 7 8 99 0x1000 0x2000 0 0 (replicate 31 5) 0 (replicate 8192 x61) false.
(** When memory runs out while a snapshot is built, what fits is still written: the line of
    the sidecar is cut and has no end. *)
Theorem sidecar_keeps_cut_record :
  let ro := fun (n : nat) (_ : Z) => negb (n =? 1)%nat in
  match files plain_env ro false [Stack big_stack [] [] [] demo_walked] with
  | Some (_, g) => read_lines g = [None] /\ last g <> Some x0a /\ 0 < zlen g < zlen (text (anubee_stack_snapshot_emit_json big_stack))
  | None => False
  end.
Proof.
  cbv zeta. set (r := files _ _ _ _). vm_compute in r. subst r. split; [vm_compute; reflexivity|]. split; [vm_compute; discriminate|].
  vm_compute. split; reflexivity.
Qed.
(** An address the probe did not capture is decoded from what the event's memory held before:
    a call with a null address reports the address of an earlier event. *)
Definition null_sock_event : event :=
  mk_event 7 8 0x5000 0 None 1 None 1 false [] (replicate 8 0) (replicate 8 (false, None)) (replicate 8 None) [] (Some 0) 1.
Definition sock_target : probe_target := mk_probe_target 16 1 [ARG_SOCKADDR] 1.
Theorem null_sockaddr_shows_stale :
  let old := map zb [2; 0; 0x1f; 0x90; 127; 0; 0; 1] ++ replicate 20 x00 in
  sock_args_of (fun _ => []) (fun _ => old) null_sock_event (typed_args sock_target ARG_SOCKADDR NUM_ARGS) = Ret [(0, bytes_of "127.0.0.1:8080")] /\
  nth 0 (e_args null_sock_event) 1 = 0.
Proof. split; vm_compute; reflexivity. Qed.
