(* ===== verification/SymApk.v ===== *)
(** * SymApk: libraries mapped straight out of an APK

    The ZIP reader of src/common/sym_apk.c: the backward scan for the end record, the
    walk over the central directory, the local header that gives the start of the
    data, the cache of eight archives, and the two questions asked of it: which
    library starts at an offset ([apk_so_name]) and which libraries an archive holds
    ([apk_list_sos]).  A file is its length and its [pread]; a hypothesis that the
    file is a ZIP archive describes the directory as a list of members laid out in
    the bytes, whatever lies between them. *)

From Stdlib Require Import ZArith Lia.
From stdpp Require Import base list option numbers sets.
From S2P Require Import Prelude Elf Modules Emit SymElf Symbolize Decode.

Local Open Scope Z_scope.

Definition APK_SO_MAX := 32.
Definition APK_CACHE_MAX := 8.

Record apk_so_entry := mk_so { so_name : list byte; so_data_start : Z; so_size : Z }.
Record apk_cache := mk_apk { apk_path : list byte; apk_entries : list apk_so_entry }.

(** An open file: where [lseek] finds its end, and [pread], nothing on an error. *)
Record apk_file := mk_apkf { af_size : Z; af_pread : Z -> Z -> option (list byte) }.

Definition EOCD_SIG : list byte := [x50; x4b; x05; x06].
Definition CDE_SIG : list byte := [x50; x4b; x01; x02].
Definition LFH_SIG : list byte := [x50; x4b; x03; x04].
Definition has_sig (sig b : list byte) : bool := bool_decide (take 4 b = sig).

Definition ends_with (suf s : list byte) : bool := bool_decide (drop (length s - length suf) s = suf).

(** [r] succeeded or returned its error; other outcomes pass through. *)
Definition on_read {A B} (r : res A) (ok : A -> res B) (ko : res B) : res B :=
  match r with Ret a => ok a | Fail => ko | Oob => Oob | NoFuel => NoFuel end.

Section Parse.
Context (f : apk_file).

Definition rd (n off : Z) : res (list byte) := pread_all (fun n off => default [] (af_pread f n off)) (S (Z.to_nat n)) n off.

Fixpoint find_eocd (fuel : nat) (p limit : Z) : res (option (list byte)) :=
  match fuel with
  | O => NoFuel
  | S fuel =>
      if p <? limit then Ret None else
      on_read (rd 4 p)
        (fun b =>
           if has_sig EOCD_SIG b
           then on_read (rd 22 p) (fun b => Ret (Some b)) (find_eocd fuel (p - 1) limit)
           else find_eocd fuel (p - 1) limit)
        (Ret None)
  end.

(** A name the walk keeps: a shared library under lib/. *)
Definition is_lib_so (fname : list byte) : bool :=
  is_prefix (bytes_of "lib/") fname &&
  negb (zlen (basename_of fname) <? 4) && ends_with (bytes_of ".so") (basename_of fname).

(** The start of the data, from the local header. *)
Definition local_start (lhdr_off : Z) : res (option Z) :=
  on_read (rd 30 lhdr_off)
    (fun lfh => if has_sig LFH_SIG lfh then Ret (Some (lhdr_off + 30 + le_at 2 lfh 26 + le_at 2 lfh 28)) else Ret None)
    (Ret None).

(** [todo] entries are left of the count in the end record. *)
Fixpoint cd_loop (todo : nat) (cpos : Z) (acc : list apk_so_entry) : res (list apk_so_entry) :=
  match todo with
  | O => Ret acc
  | S todo =>
      if zlen acc >=? APK_SO_MAX then Ret acc else
      on_read (rd 46 cpos)
        (fun cde =>
           if negb (has_sig CDE_SIG cde) then Ret acc else
           let cpos := cpos + 46 in
           let fname_len := le_at 2 cde 28 in
           match af_pread f (if fname_len <? 255 then fname_len else 255) cpos with
           | None => Ret acc
           | Some nm =>
               let fname := until_nul nm in
               let cpos := cpos + fname_len + le_at 2 cde 30 + le_at 2 cde 32 in
               if negb (le_at 2 cde 10 =? 0) || negb (is_lib_so fname) then cd_loop todo cpos acc else
               s ← local_start (le_at 4 cde 42);
               match s with
               | None => cd_loop todo cpos acc
               | Some start => cd_loop todo cpos (acc ++ [mk_so (snprintf_s 256 (basename_of fname)) start (le_at 4 cde 20)])
               end
           end)
        (Ret acc)
  end.

(** The entries, [None] where the function gives up before it takes a cache slot. *)
Definition parse_entries : res (option (list apk_so_entry)) :=
  let fsize := af_size f in
  if fsize <? 22 then Ret None else
  let limit := if fsize - 22 - 65535 <? 0 then 0 else fsize - 22 - 65535 in
  e ← find_eocd (Z.to_nat 65537) (fsize - 22) limit;
  match e with
  | None => Ret None
  | Some buf => l ← cd_loop (Z.to_nat (le_at 2 buf 10)) (le_at 4 buf 16) []; Ret (Some l)
  end.
End Parse.

Section Cache.
(** [open_apk]: what opening a path gives. *)
Context (open_apk : list byte -> option apk_file).

Definition apk_parse (path : list byte) (g : list apk_cache) : res (option apk_cache * list apk_cache) :=
  if zlen g >=? APK_CACHE_MAX then Ret (None, g) else
  match open_apk path with
  | None => Ret (None, g)
  | Some f =>
      l ← parse_entries f;
      match l with
      | None => Ret (None, g)
      | Some l => let c := mk_apk (snprintf_s MAX_PATH_LEN path) l in Ret (Some c, g ++ [c])
      end
  end.

Definition apk_get (path : list byte) (g : list apk_cache) : res (option apk_cache * list apk_cache) :=
  match List.find (fun c => bool_decide (apk_path c = path)) g with
  | Some c => Ret (Some c, g)
  | None => apk_parse path g
  end.

Definition apk_so_name (path : list byte) (elf_off : Z) (g : list apk_cache) : res (option (list byte) * list apk_cache) :=
  if (zlen path <? 4) || negb (ends_with (bytes_of ".apk") path) then Ret (None, g) else
  r ← apk_get path g;
  match r with
  | (None, g) => Ret (None, g)
  | (Some c, g) => Ret (so_name <$> List.find (fun e => so_data_start e =? elf_off) (apk_entries c), g)
  end.

Definition apk_list_sos (path : list byte) (max : nat) (g : list apk_cache) : res (list apk_so_entry * list apk_cache) :=
  r ← apk_get path g;
  match r with
  | (None, g) => Ret ([], g)
  | (Some c, g) => Ret (take max (map (fun e => mk_so (snprintf_s 256 (so_name e)) (so_data_start e) (so_size e)) (apk_entries c)), g)
  end.
End Cache.

(** ** ZIP archives *)

(** One member of the directory; [m_extra] and [m_cmt] are the lengths of what follows its name. *)
Record member := mk_member {
  m_name : list byte; m_method : Z; m_comp : Z; m_extra : Z; m_cmt : Z; m_lhdr : Z }.

(** The central directory in the bytes of a file, from [pos]. *)
Fixpoint directory (file : list byte) (pos : Z) (ms : list member) : Prop :=
  match ms with
  | [] => True
  | m :: ms =>
      pos + 46 <= zlen file /\ slice file pos 4 = CDE_SIG /\
      le_at 2 file (pos + 10) = m_method m /\ le_at 4 file (pos + 20) = m_comp m /\
      le_at 2 file (pos + 28) = zlen (m_name m) /\ le_at 2 file (pos + 30) = m_extra m /\
      le_at 2 file (pos + 32) = m_cmt m /\ le_at 4 file (pos + 42) = m_lhdr m /\
      slice file (pos + 46) (zlen (m_name m)) = m_name m /\
      directory file (pos + 46 + zlen (m_name m) + m_extra m + m_cmt m) ms
  end.

Definition packed (m : member) : bool := (m_method m =? 0) && is_lib_so (m_name m).
(** Where the bytes of a member begin. *)
Definition data_start (file : list byte) (m : member) : Z :=
  m_lhdr m + 30 + le_at 2 file (m_lhdr m + 26) + le_at 2 file (m_lhdr m + 28).
Definition member_ok (file : list byte) (m : member) : Prop :=
  zlen (m_name m) <= 255 /\ Forall (fun c => bz c <> 0) (m_name m) /\
  (packed m = true -> m_lhdr m + 30 <= zlen file /\ slice file (m_lhdr m) 4 = LFH_SIG).

(** A file with its end record at [e], the last one in it. *)
Record is_zip (file : list byte) (e : Z) (ms : list member) : Prop := {
  z_end : 0 <= e /\ e + 22 <= zlen file /\ zlen file - 22 - e <= 65535;
  z_sig : slice file e 4 = EOCD_SIG;
  z_last : forall p, e < p -> p + 22 <= zlen file -> slice file p 4 <> EOCD_SIG;
  z_count : le_at 2 file (e + 10) = zlen ms;
  z_dir : directory file (le_at 4 file (e + 16)) ms;
  z_ok : Forall (member_ok file) ms
}.

(** [pread] and [lseek] on a regular file. *)
Class ApkFile (f : apk_file) (file : list byte) : Prop := {
  ap_size : af_size f = zlen file;
  ap_read : forall n off, 0 <= n -> 0 <= off -> af_pread f n off = Some (slice file off n)
}.

Definition entry_of (file : list byte) (m : member) : apk_so_entry :=
  mk_so (basename_of (m_name m)) (data_start file m) (m_comp m).
(** The libraries an archive is known by. *)
Definition libraries (file : list byte) (ms : list member) : list apk_so_entry :=
  take (Z.to_nat APK_SO_MAX) (map (entry_of file) (List.filter packed ms)).

(** ** Reading *)

#[export] Instance apk_pread f file `{!ApkFile f file} : PreadFile (fun n off => default [] (af_pread f n off)) file.
Proof.
  split. intros n off Hn Ho. exists (Z.min n (Z.max 0 (zlen file - off))). rewrite ap_read by lia. cbn [default].
  split; [lia|]. split; [|split; [lia|lia]]. unfold slice, zlen in *.
  destruct (Z.le_gt_cases (off + n) (Z.of_nat (length file))).
  - rewrite Z.min_l by lia. reflexivity.
  - destruct (Z.le_gt_cases off (Z.of_nat (length file))).
    + rewrite Z.min_r by lia. rewrite !take_ge; [reflexivity| |]; rewrite length_drop; lia.
    + rewrite drop_ge by lia. now rewrite !take_nil.
Qed.

Lemma rd_spec f file n off : ApkFile f file -> 0 < n -> 0 <= off ->
  rd f n off = if off + n <=? zlen file then Ret (slice file off n) else Fail.
Proof.
  intros Hf Hn Ho. unfold rd. rewrite (pread_all_spec _ file) by (try apply apk_pread; auto; lia).
  rewrite (proj2 (Z.eqb_neq n 0)) by lia. reflexivity.
Qed.

Lemma sig_of_slice file off n sig : 4 <= n -> has_sig sig (slice file off n) = bool_decide (slice file off 4 = sig).
Proof. intros H. unfold has_sig, slice. rewrite take_take. replace (4 `min` Z.to_nat n)%nat with 4%nat by lia. reflexivity. Qed.

Lemma until_nul_all l : Forall (fun c => bz c <> 0) l -> until_nul l = l.
Proof. induction 1 as [|c l Hc _ IH]; cbn [until_nul]; [reflexivity|]. now rewrite (proj2 (Z.eqb_neq _ _) Hc), IH. Qed.

Lemma basename_short p : zlen (basename_of p) <= zlen p.
Proof.
  induction p as [|c p IH]; cbn [basename_of]; [lia|]. rewrite zlen_cons in *.
  destruct (strchr_any _ _); [|rewrite zlen_cons; lia]. destruct (_ && _); lia.
Qed.

Section Archive.
Context (f : apk_file) (file : list byte) `{!ApkFile f file}.

Lemma find_eocd_spec e ms fuel p limit :
  is_zip file e ms -> limit <= e <= p -> 0 <= limit -> p + 22 <= zlen file -> p - e < Z.of_nat fuel ->
  find_eocd f fuel p limit = Ret (Some (slice file e 22)).
Proof.
  intros Hz. revert p. induction fuel as [|fuel IH]; intros p Hp Hl Hs Hfu; [lia|]. cbn [find_eocd].
  rewrite (proj2 (Z.ltb_ge _ _)) by lia. rewrite (rd_spec f file) by (auto; lia).
  rewrite (proj2 (Z.leb_le _ _)) by lia. cbn [on_read]. rewrite sig_of_slice by lia.
  destruct (decide (p = e)) as [->|Hne].
  - rewrite bool_decide_eq_true_2 by apply (z_sig _ _ _ Hz). rewrite (rd_spec f file) by (auto; lia).
    rewrite (proj2 (Z.leb_le _ _)) by lia. reflexivity.
  - rewrite bool_decide_eq_false_2 by (apply (z_last _ _ _ Hz); lia). apply IH; lia.
Qed.

Lemma local_start_spec m : 0 <= m_lhdr m -> m_lhdr m + 30 <= zlen file -> slice file (m_lhdr m) 4 = LFH_SIG ->
  local_start f (m_lhdr m) = Ret (Some (data_start file m)).
Proof.
  intros H0 H1 H2. unfold local_start. rewrite (rd_spec f file) by (auto; lia).
  rewrite (proj2 (Z.leb_le _ _)) by lia. cbn [on_read]. rewrite sig_of_slice by lia.
  rewrite bool_decide_eq_true_2 by exact H2. unfold data_start. rewrite !le_at_slice by lia. reflexivity.
Qed.

Lemma cd_loop_spec ms : forall pos acc,
  0 <= pos -> directory file pos ms -> Forall (member_ok file) ms -> zlen acc <= APK_SO_MAX ->
  cd_loop f (length ms) pos acc = Ret (take (Z.to_nat APK_SO_MAX) (acc ++ map (entry_of file) (List.filter packed ms))).
Proof.
  induction ms as [|m ms IH]; intros pos acc Hp Hd Hok Ha; cbn [cd_loop length List.filter map].
  { rewrite app_nil_r, take_ge; [reflexivity|]. unfold zlen in Ha. lia. }
  destruct (Z.geb_spec (zlen acc) APK_SO_MAX) as [Hge|Hlt].
  { f_equal. rewrite take_app_le by (unfold zlen in *; lia). rewrite take_ge; [reflexivity|unfold zlen in *; lia]. }
  destruct Hd as (Hin & Hsig & Hm & Hc & Hn & Hx & Hcm & Hl & Hnm & Hd).
  apply list.Forall_cons in Hok as [(Hn255 & Hnul & Hlocal) Hok].
  rewrite (rd_spec f file) by (auto; lia). rewrite (proj2 (Z.leb_le _ _)) by lia. cbn [on_read].
  rewrite sig_of_slice, bool_decide_eq_true_2 by (auto; lia). cbn [negb]. rewrite !le_at_slice by lia.
  rewrite Hm, Hc, Hn, Hx, Hcm, Hl.
  assert (Hr : (if zlen (m_name m) <? 255 then zlen (m_name m) else 255) = zlen (m_name m)) by (destruct (Z.ltb_spec (zlen (m_name m)) 255); lia).
  pose proof (zlen_nonneg (m_name m)). rewrite Hr, ap_read, Hnm, until_nul_all by (auto; lia).
  pose proof (le_at_range 2 file (pos + 30)). pose proof (le_at_range 2 file (pos + 32)). pose proof (le_at_range 4 file (pos + 42)).
  assert (Hnext : 0 <= pos + 46 + zlen (m_name m) + m_extra m + m_cmt m) by lia.
  unfold packed at 1. destruct (Z.eqb_spec (m_method m) 0) as [E0|E0]; cbn [negb orb andb]; [|now apply IH].
  destruct (is_lib_so (m_name m)) eqn:El; cbn [negb]; [|now apply IH].
  destruct Hlocal as [Hl1 Hl2]; [unfold packed; rewrite E0, El; reflexivity|].
  rewrite local_start_spec, ret_bind by (auto; lia). unfold APK_SO_MAX in *. rewrite IH; auto.
  - cbn [map]. rewrite <- app_assoc. unfold entry_of at 2. unfold snprintf_s. rewrite (take_ge (basename_of _)); [reflexivity|].
    pose proof (basename_short (m_name m)). unfold zlen in *. lia.
  - rewrite zlen_app. unfold zlen at 2. simpl. lia.
Qed.

Lemma parse_entries_spec e ms : is_zip file e ms -> parse_entries f = Ret (Some (libraries file ms)).
Proof.
  intros Hz. pose proof (z_end _ _ _ Hz). unfold parse_entries. rewrite ap_size.
  rewrite (proj2 (Z.ltb_ge _ _)) by lia.
  rewrite (find_eocd_spec e ms) by (auto; destruct (Z.ltb_spec (zlen file - 22 - 65535) 0); lia). rewrite ret_bind.
  rewrite !le_at_slice by lia. rewrite (z_count _ _ _ Hz). replace (Z.to_nat (zlen ms)) with (length ms) by (unfold zlen; lia).
  rewrite cd_loop_spec; [reflexivity| |apply Hz|apply Hz|unfold zlen, APK_SO_MAX; simpl; lia].
  pose proof (le_at_range 4 file (e + 16)). lia.
Qed.
End Archive.

(** ** Any file *)

Section AnyFile.
Context (f : apk_file) (file : list byte) `{!ApkFile f file}.

Lemma on_read_total {A} n off (ok : list byte -> res A) (ko : res A) (P : A -> Prop) :
  0 < n -> 0 <= off -> (forall b, exists a, ok b = Ret a /\ P a) -> (exists a, ko = Ret a /\ P a) ->
  exists a, on_read (rd f n off) ok ko = Ret a /\ P a.
Proof. intros Hn Ho H1 H2. rewrite (rd_spec f file) by auto. destruct (_ <=? _); cbn [on_read]; auto. Qed.

Lemma find_eocd_total fuel p limit :
  0 <= limit -> Z.max 0 (p - limit + 1) < Z.of_nat fuel -> exists a, find_eocd f fuel p limit = Ret a /\ True.
Proof.
  intros Hl. revert p. induction fuel as [|fuel IH]; intros p Hf; [lia|]. cbn [find_eocd].
  destruct (Z.ltb_spec p limit); [eauto|]. apply on_read_total; [lia|lia| |eauto]. intros b.
  destruct (has_sig _ _); [apply on_read_total; [lia|lia|eauto|]|]; apply IH; lia.
Qed.

Lemma cd_loop_total todo : forall cpos acc, 0 <= cpos -> zlen acc <= APK_SO_MAX ->
  exists l, cd_loop f todo cpos acc = Ret l /\ zlen l <= APK_SO_MAX.
Proof.
  induction todo as [|todo IH]; intros cpos acc Hc Ha; cbn [cd_loop]; [eauto|].
  destruct (Z.geb_spec (zlen acc) APK_SO_MAX); [eauto|]. apply on_read_total; [lia|lia| |eauto]. intros cde.
  destruct (negb _); [eauto|]. cbv zeta. pose proof (le_at_range 2 cde 28). pose proof (le_at_range 2 cde 30).
  pose proof (le_at_range 2 cde 32). pose proof (le_at_range 4 cde 42).
  rewrite ap_read by (destruct (le_at 2 cde 28 <? 255); lia). destruct (_ || _); [apply IH; lia|]. unfold local_start.
  destruct (on_read_total 30 (le_at 4 cde 42)
    (fun lfh => if has_sig LFH_SIG lfh then Ret (Some (le_at 4 cde 42 + 30 + le_at 2 lfh 26 + le_at 2 lfh 28)) else Ret None)
    (Ret None) (fun _ => True)) as (o & -> & _); [lia|lia|intros b; destruct (has_sig _ _); eauto|eauto|].
  rewrite ret_bind. destruct o as [z|]; apply IH; try lia. rewrite zlen_app. unfold zlen at 2. simpl. lia.
Qed.

Lemma parse_entries_total : exists o, parse_entries f = Ret o /\ (forall l, o = Some l -> zlen l <= APK_SO_MAX).
Proof.
  unfold parse_entries. destruct (_ <? 22); [eexists; split; [reflexivity|discriminate]|].
  destruct (find_eocd_total (Z.to_nat 65537) (af_size f - 22) (if af_size f - 22 - 65535 <? 0 then 0 else af_size f - 22 - 65535)) as (o & -> & _);
    [destruct (Z.ltb_spec (af_size f - 22 - 65535) 0); lia..|].
  rewrite ret_bind. destruct o as [b|]; [|eexists; split; [reflexivity|discriminate]].
  destruct (cd_loop_total (Z.to_nat (le_at 2 b 10)) (le_at 4 b 16) []) as (l & -> & Hl);
    [pose proof (le_at_range 4 b 16); lia|unfold zlen, APK_SO_MAX; simpl; lia|].
  rewrite ret_bind. eexists. split; [reflexivity|]. now intros ? [= <-].
Qed.
End AnyFile.

(** ** Questions *)

Inductive query := NameAt (path : list byte) (elf_off : Z) | ListSos (path : list byte) (max : nat).
Definition q_path (q : query) : list byte := match q with NameAt p _ | ListSos p _ => p end.

Section Queries.
Context (open_apk : list byte -> option apk_file).

Definition ask (g : list apk_cache) (q : query) : res (list apk_cache) :=
  match q with
  | NameAt p o => r ← apk_so_name open_apk p o g; Ret (snd r)
  | ListSos p n => r ← apk_list_sos open_apk p n g; Ret (snd r)
  end.
Fixpoint ask_all (g : list apk_cache) (l : list query) : res (list apk_cache) :=
  match l with [] => Ret g | q :: l => g ← ask g q; ask_all g l end.

(** The cache after questions about [asked]: each slot holds the entries of its own file. *)
Record cached (asked : list (list byte)) (g : list apk_cache) : Prop := {
  g_slot : forall c, c ∈ g -> exists f, open_apk (apk_path c) = Some f /\ parse_entries f = Ret (Some (apk_entries c));
  g_paths : NoDup (map apk_path g);
  g_asked : map apk_path g ⊆ asked;
  g_room : zlen g <= APK_CACHE_MAX
}.

Context (opens : forall p f, open_apk p = Some f -> exists file, ApkFile f file).

(** What a path answers: its own entries, if it is in the cache or finds room. *)
Definition answers (p : list byte) (g : list apk_cache) : res (option (list apk_so_entry)) :=
  if decide (p ∈ map apk_path g \/ zlen g < APK_CACHE_MAX)
  then match open_apk p with Some f => parse_entries f | None => Ret None end else Ret None.

Lemma find_path p g : List.find (fun c => bool_decide (apk_path c = p)) g = None <-> ~ p ∈ map apk_path g.
Proof.
  induction g as [|c g IH]; cbn [List.find map]; [split; [intros _ []%not_elem_of_nil|reflexivity]|].
  destruct (bool_decide_reflect (apk_path c = p)) as [<-|Hne].
  - split; [discriminate|]. intros []. apply list_elem_of_here.
  - rewrite IH, elem_of_cons. naive_solver.
Qed.

Lemma apk_get_spec asked p g : cached asked g -> zlen p < MAX_PATH_LEN ->
  exists o g', apk_get open_apk p g = Ret (o, g') /\ cached (p :: asked) g' /\ answers p g = Ret (apk_entries <$> o).
Proof.
  intros [H1 H2 H3 H4] Hp. unfold apk_get, answers.
  destruct (List.find _ g) as [c|] eqn:E.
  - apply List.find_some in E as [Hc Hpc%bool_decide_eq_true]. apply list_elem_of_In in Hc. exists (Some c), g.
    split; [reflexivity|]. split; [split; auto; set_solver|].
    rewrite decide_True by (left; rewrite <- Hpc; now apply list_elem_of_fmap_2). destruct (H1 c Hc) as (f & Hf & Hpe).
    rewrite <- Hpc, Hf, Hpe. reflexivity.
  - apply find_path in E. unfold apk_parse. destruct (Z.geb_spec (zlen g) APK_CACHE_MAX) as [Hfull|Hroom].
    + exists None, g. split; [reflexivity|]. split; [split; auto; set_solver|]. rewrite decide_False by (intros [?|?]; [auto|lia]). reflexivity.
    + rewrite decide_True by auto. destruct (open_apk p) as [f|] eqn:Ef; [|exists None, g; split; [reflexivity|split; [split; auto; set_solver|reflexivity]]].
      destruct (opens p f Ef) as [file Hfile]. destruct (parse_entries_total f file) as (o & Eo & _). rewrite Eo, ret_bind.
      destruct o as [l|]; [|exists None, g; split; [reflexivity|split; [split; auto; set_solver|reflexivity]]].
      assert (Hcut : snprintf_s MAX_PATH_LEN p = p) by (unfold snprintf_s; apply take_ge; unfold zlen, MAX_PATH_LEN in *; lia).
      rewrite Hcut. exists (Some (mk_apk p l)), (g ++ [mk_apk p l]). split; [reflexivity|]. split; [|reflexivity]. split.
      * intros c [Hc| ->%list_elem_of_singleton]%elem_of_app; [auto|eauto].
      * rewrite map_app. apply NoDup_app. split; [exact H2|]. split; [|apply NoDup_singleton]. cbn. set_solver.
      * rewrite map_app. cbn. set_solver.
      * rewrite zlen_app. unfold zlen at 2. simpl. lia.
Qed.

Lemma ask_all_cached l : forall asked g, cached asked g -> Forall (fun q => zlen (q_path q) < MAX_PATH_LEN) l ->
  exists g', ask_all g l = Ret g' /\ cached (reverse (map q_path l) ++ asked) g'.
Proof.
  induction l as [|q l IH]; intros asked g Hg Hl; cbn [ask_all map]; [eauto|].
  apply list.Forall_cons in Hl as [Hq Hl].
  assert (Hstep : exists g', ask g q = Ret g' /\ cached (q_path q :: asked) g').
  { destruct (apk_get_spec asked (q_path q) g Hg Hq) as (o & g' & E & Hg' & _).
    destruct q as [p n|p n]; cbn [ask q_path] in *.
    - unfold apk_so_name. destruct (_ || _).
      + exists g. split; [reflexivity|]. destruct Hg. split; auto. set_solver.
      + rewrite E, !ret_bind. destruct o; rewrite ret_bind; eauto.
    - unfold apk_list_sos. rewrite E, !ret_bind. destruct o; rewrite ret_bind; eauto. }
  destruct Hstep as (g' & -> & Hg'). rewrite ret_bind. destruct (IH _ _ Hg' Hl) as (g'' & E & Hg''). exists g''. split; [exact E|].
  rewrite reverse_cons, <- app_assoc. exact Hg''.
Qed.

(** Fewer than eight paths asked for leave a free slot. *)
Lemma cached_room asked g : cached asked g -> zlen (remove_dups asked) < APK_CACHE_MAX -> zlen g < APK_CACHE_MAX.
Proof.
  intros [_ H2 H3 _] Hn. assert (Hle : (length (map apk_path g) <= length (remove_dups asked))%nat).
  { apply submseteq_length, NoDup_submseteq; [exact H2|]. intros x Hx. apply elem_of_remove_dups. now apply H3. }
  rewrite length_map in Hle. unfold zlen in *. lia.
Qed.
End Queries.

(** Names of members fit the buffers they are copied into. *)
Lemma libraries_names file e ms : is_zip file e ms ->
  map (fun s => mk_so (snprintf_s 256 (so_name s)) (so_data_start s) (so_size s)) (libraries file ms) = libraries file ms.
Proof.
  intros Hz. pose proof (z_ok _ _ _ Hz) as Hok. unfold libraries. rewrite <- firstn_map. f_equal. rewrite map_map.
  induction ms as [|m ms IH] in Hok |- *; [reflexivity|]. apply list.Forall_cons in Hok as [(Hl & _) Hok]. cbn [List.filter].
  destruct (packed m); [|now apply IH]. cbn [map]. f_equal; [|now apply IH]. unfold entry_of. cbn [so_name so_data_start so_size]. f_equal.
  pose proof (basename_short (m_name m)). unfold snprintf_s. apply take_ge. unfold zlen in *. lia.
Qed.


(** A small archive: a text member, a stored library, a compressed one. *)
Definition demo_local (name extra data : list byte) : list byte :=
  LFH_SIG ++ repeat x00 22 ++ le_bytes 2 (zlen name) ++ le_bytes 2 (zlen extra) ++ name ++ extra ++ data.
Definition demo_central (name : list byte) (method size off : Z) : list byte :=
  CDE_SIG ++ repeat x00 6 ++ le_bytes 2 method ++ repeat x00 8 ++ le_bytes 4 size ++ repeat x00 4 ++
  le_bytes 2 (zlen name) ++ le_bytes 2 0 ++ le_bytes 2 0 ++ repeat x00 8 ++ le_bytes 4 off ++ name.
Definition demo_names : list (list byte) := [bytes_of "a.txt"; bytes_of "lib/arm64-v8a/libx.so"; bytes_of "lib/arm64-v8a/liby.so"].
Definition demo_zip : list byte :=
  demo_local (bytes_of "a.txt") [] [x41] ++
  demo_local (bytes_of "lib/arm64-v8a/libx.so") [x00; x00; x00] (repeat x7f 8) ++
  demo_local (bytes_of "lib/arm64-v8a/liby.so") [] (repeat x7f 4) ++
  demo_central (bytes_of "a.txt") 0 1 0 ++ demo_central (bytes_of "lib/arm64-v8a/libx.so") 0 8 36 ++
  demo_central (bytes_of "lib/arm64-v8a/liby.so") 8 4 98 ++
  EOCD_SIG ++ repeat x00 6 ++ le_bytes 2 3 ++ repeat x00 4 ++ le_bytes 4 153 ++ le_bytes 2 0.
Definition demo_members : list member :=
  [mk_member (bytes_of "a.txt") 0 1 0 0 0; mk_member (bytes_of "lib/arm64-v8a/libx.so") 0 8 0 0 36;
   mk_member (bytes_of "lib/arm64-v8a/liby.so") 8 4 0 0 98].
Definition demo_apk (bytes : list byte) : apk_file := mk_apkf (zlen bytes) (fun n off => Some (slice bytes off n)).
#[export] Instance demo_apk_file bytes : ApkFile (demo_apk bytes) bytes.
Proof. split; [reflexivity|]. intros. reflexivity. Qed.
Lemma demo_is_zip : is_zip demo_zip 338 demo_members.
Proof.
  split.
  - vm_compute. repeat split; discriminate.
  - reflexivity.
  - intros p H1 H2. exfalso. vm_compute (zlen demo_zip) in H2. lia.
  - reflexivity.
  - vm_compute. repeat split; discriminate.
  - repeat constructor; vm_compute; try discriminate; auto.
Qed.
Definition demo_open_apk (p : list byte) : option apk_file := if ends_with (bytes_of ".apk") p then Some (demo_apk demo_zip) else None.

(** An archive of [n] stored libraries without data, 43 bytes apart. *)
Definition many_libs (n : nat) : list byte :=
  flat_map (fun _ => demo_local (bytes_of "lib/a/libz.so") [] []) (seq 0 n) ++
  flat_map (fun i => demo_central (bytes_of "lib/a/libz.so") 0 0 (43 * Z.of_nat i)) (seq 0 n) ++
  EOCD_SIG ++ repeat x00 6 ++ le_bytes 2 (Z.of_nat n) ++ repeat x00 4 ++ le_bytes 4 (43 * Z.of_nat n) ++ le_bytes 2 0.
(** Only 32 libraries of an archive are kept: the next one has no name. *)
Theorem apk_33rd_library_is_unnamed :
  let open p := Some (demo_apk (many_libs 33)) in
  apk_so_name open (bytes_of "/a.apk") (43 * 31 + 43) [] ≫= (fun r => Ret (fst r)) = Ret (Some (bytes_of "libz.so")) /\
  apk_so_name open (bytes_of "/a.apk") (43 * 32 + 43) [] ≫= (fun r => Ret (fst r)) = Ret None.
Proof. vm_compute. auto. Qed.
(** Only eight archives are kept, and none is ever dropped: a ninth is never read. *)
Theorem apk_ninth_archive_is_unread :
  let path i := bytes_of "/split" ++ [zb (48 + Z.of_nat i)] ++ bytes_of ".apk" in
  (g ← ask_all demo_open_apk [] (map (fun i => NameAt (path i) 90) (seq 0 8));
   r ← apk_so_name demo_open_apk (path 8%nat) 90 g; Ret (fst r)) = Ret None.
Proof. vm_compute. reflexivity. Qed.
