(* ===== verification/SymJit.v ===== *)
(** * SymJit: names of JIT-compiled methods (src/common/sym_jit.c)

    ART publishes one small ELF image per compiled method in a linked list of the
    target's memory.  [art_refresh] copies the list out under ART's sequence lock,
    [jit_ingest_elf] turns the symbols of an image into address ranges with names in
    an arena, [jit_lookup] finds the range of an address and [jit_resolve] ties them
    together per process.  The n-th call of [proc_mem_read] sees the memory of the
    n-th moment ([mem_pread]), so the writer runs between any two calls.  Allocation
    outcomes, the clock, files and the bytes of fresh heap memory are arguments. *)

From Stdlib Require Import ZArith Lia.
From Stdlib Require Import Sorted Permutation.
From stdpp Require Import base list option numbers sorting.
From S2P Require Import Prelude Elf ProcMem Modules Emit SymElf Procmaps Symbolize.

Local Open Scope Z_scope.

Definition JIT_MAX_ENTRIES : nat := Z.to_nat 65536.
Definition JIT_MAX_SYMFILE := 64 * 2 ^ 20.
Definition JIT_DESC_BYTES := 48.
Definition JD_VERSION := 0.
Definition JD_HEAD := 16.
Definition JD_SEQLOCK := 36.
Definition JCE_BYTES := 32.
Definition JCE_NEXT := 0.
Definition JCE_SYMADDR := 16.
Definition JCE_SYMSIZE := 24.
Definition STT_NOTYPE := 0.
Definition STT_FUNC := 2.

Record jit_entry := mk_je { je_start : Z; je_end : Z; je_off : Z }.
(** [jm_arena] is the filled part of the arena, [None] before its first allocation. *)
Record jit_map := mk_jm { jm_e : list jit_entry; jm_cap : Z; jm_arena : option (list byte); jm_acap : Z }.
Definition jit_map0 : jit_map := mk_jm [] 0 None 0.

(** [located]: 0 unknown, 1 found, -1 given up. *)
Record art_ctx := mk_art {
  a_pid : Z; a_memfd : bool; a_located : Z; a_desc_va : Z; a_last_head : Z; a_last_seqlock : Z; a_next_refresh_ms : Z;
  a_jit : jit_map }.

Section Map.
Context (alloc_ok : Z -> bool).

(** [name]: the string the caller points at, read when [strlen] reads it.  After the
    first allocation the code is that of [arena_add] in sym_elf.c. *)
Definition jit_arena_add (jm : jit_map) (name : res (list byte)) : res (Z * jit_map) :=
  match (match jm_arena jm with
         | Some s => Some (s, jm_acap jm)
         | None => if alloc_ok 8192 then Some ([x00], 8192) else None
         end) with
  | None => Ret (0, mk_jm (jm_e jm) (jm_cap jm) None 0)
  | Some (str, cap) =>
      name ← name;
      '(off, ds) ← arena_add alloc_ok (mk_dynsym (Some str) cap [] false) name;
      Ret (off, mk_jm (jm_e jm) (jm_cap jm) (ds_str ds) (ds_strcap ds))
  end.

(** A C string at [p] of [buf]: [Oob] when no terminator comes before the end. *)
Definition c_string (buf : list byte) (p : Z) : res (list byte) :=
  r ← find_nul (Z.to_nat (zlen buf - p)) buf p;
  match r with Some s => Ret s | None => Oob end.

Definition sizeof_jit_entry := 24.
Definition jit_add (jm : jit_map) (start size : Z) (buf : list byte) (p : Z) : res jit_map :=
  if start =? 0 then Ret jm else
  c ← ld buf p;
  if c =? 0 then Ret jm else
  match (if zlen (jm_e jm) =? jm_cap jm
         then let nc := if jm_cap jm =? 0 then 256 else jm_cap jm * 2 in
              if alloc_ok (nc * sizeof_jit_entry) then Some nc else None
         else Some (jm_cap jm)) with
  | None => Ret jm
  | Some cap =>
      '(off, jm) ← jit_arena_add (mk_jm (jm_e jm) cap (jm_arena jm) (jm_acap jm)) (c_string buf p);
      if off =? 0 then Ret jm else
      Ret (mk_jm (jm_e jm ++ [mk_je start (if size =? 0 then u64 (start + 1) else u64 (start + size)) off]) (jm_cap jm)
             (jm_arena jm) (jm_acap jm))
  end.

Definition jit_reset (jm : jit_map) : jit_map :=
  mk_jm [] (jm_cap jm) (take 1 <$> jm_arena jm) (jm_acap jm).

(** A symbol the loop keeps. *)
Definition is_jit_sym (es : Elf64_Sym) (strsize : Z) : bool :=
  negb ((st_value es =? 0) || (st_shndx es =? 0) || (st_name es =? 0)) &&
  (let t := Z.land (st_info es) 0xf in (t =? STT_FUNC) || (t =? STT_NOTYPE)) && negb (st_name es >=? strsize).

Fixpoint jit_syms (n : nat) (buf : list byte) (symoff entsize stroff strsize k : Z) (jm : jit_map) : res jit_map :=
  match n with
  | O => Ret jm
  | S n =>
      b ← memcpy_in buf (u64 (symoff + k * entsize)) sizeof_Sym;
      let es := sym_of b in
      jm ← (if is_jit_sym es strsize then jit_add jm (st_value es) (st_size es) buf (u64 (stroff + st_name es)) else Ret jm);
      jit_syms n buf symoff entsize stroff strsize (k + 1) jm
  end.

Definition is_symtab (sec : Elf64_Shdr) (shnum : Z) : bool :=
  ((sh_type sec =? SHT_SYMTAB) || (sh_type sec =? SHT_DYNSYM)) && negb (sh_link sec >=? shnum) && negb (sh_entsize sec =? 0).

Fixpoint jit_sections (n : nat) (buf : list byte) (len : Z) (eh : Elf64_Ehdr) (i : Z) (jm : jit_map) : res jit_map :=
  match n with
  | O => Ret jm
  | S n =>
      b ← memcpy_in buf (u64 (e_shoff eh + i * e_shentsize eh)) sizeof_Shdr;
      let sec := shdr_of b in
      let next := jit_sections n buf len eh (i + 1) in
      if negb (is_symtab sec (e_shnum eh)) then next jm else
      b ← memcpy_in buf (u64 (e_shoff eh + sh_link sec * e_shentsize eh)) sizeof_Shdr;
      let str := shdr_of b in
      if (u64 (sh_offset sec + sh_size sec) >? len) || (u64 (sh_offset str + sh_size str) >? len) then next jm else
      jm ← jit_syms (Z.to_nat (sh_size sec / sh_entsize sec)) buf (sh_offset sec) (sh_entsize sec) (sh_offset str) (sh_size str) 0 jm;
      next jm
  end.

(** [buf]: the scratch buffer, of which [len] bytes are the image. *)
Definition jit_ingest_elf (jm : jit_map) (buf : list byte) (len : Z) : res jit_map :=
  if len <? sizeof_Ehdr then Ret jm else
  b ← memcpy_in buf 0 sizeof_Ehdr;
  let eh := ehdr_of b in
  if negb (elf_magic_ok eh) || negb (elf_class eh =? ELFCLASS64) then Ret jm else
  if (e_shoff eh =? 0) || (e_shnum eh =? 0) || (e_shentsize eh <? sizeof_Shdr) then Ret jm else
  if u64 (e_shoff eh + e_shnum eh * e_shentsize eh) >? len then Ret jm else
  jit_sections (Z.to_nat (e_shnum eh)) buf len eh 0 jm.
End Map.

Fixpoint jit_upper (fuel : nat) (l : list jit_entry) (addr : Z) (lo hi : nat) : res nat :=
  match fuel with
  | O => NoFuel
  | S fuel =>
      if negb (Nat.ltb lo hi) then Ret lo else
      let mid := ((lo + hi) / 2)%nat in
      match l !! mid with
      | None => Oob
      | Some e => if je_start e <=? addr then jit_upper fuel l addr (S mid) hi else jit_upper fuel l addr lo mid
      end
  end.

(** The name and the distance from the start. *)
Definition jit_lookup (jm : jit_map) (addr : Z) : res (option (list byte * Z)) :=
  if zlen (jm_e jm) =? 0 then Ret None else
  lo ← jit_upper (S (length (jm_e jm))) (jm_e jm) addr 0 (length (jm_e jm));
  match lo with
  | O => Ret None
  | S k =>
      match jm_e jm !! k with
      | None => Oob
      | Some je =>
          if addr >=? je_end je then Ret None else
          match cname (drop (Z.to_nat (je_off je)) (default [] (jm_arena jm))) with
          | Some n => Ret (Some (n, addr - je_start je))
          | None => Oob
          end
      end
  end.

(** ** Finding the descriptor *)

Section Dynsym.
Context (alloc_ok : Z -> bool) (open_module : list byte -> Z -> Z -> Z -> option modfile).

(** The first symbol called [name] ([name] carries its terminator). *)
Fixpoint named_value (n : nat) (symbuf : list byte) (entsize : Z) (strbuf : list byte) (k : Z) (name : list byte) : res Z :=
  match n with
  | O => Ret 0
  | S n =>
      b ← memcpy_in symbuf (k * entsize) sizeof_Sym;
      let es := sym_of b in
      let next := named_value n symbuf entsize strbuf (k + 1) name in
      if (st_name es =? 0) || (st_name es >=? zlen strbuf) then next else
      same ← strcmp_at strbuf (st_name es) name;
      if same : bool then Ret (st_value es) else next
  end.

Fixpoint dynsym_sections (n : nat) (pread : Z -> Z -> list byte) (sh : list byte) (shnum elf_off i : Z) (name : list byte) : res Z :=
  match n with
  | O => Ret 0
  | S n =>
      b ← memcpy_in sh (i * sizeof_Shdr) sizeof_Shdr;
      let ss := shdr_of b in
      let next := dynsym_sections n pread sh shnum elf_off (i + 1) name in
      if negb (sh_type ss =? SHT_DYNSYM) || (sh_link ss >=? shnum) || (sh_entsize ss =? 0) then next else
      b ← memcpy_in sh (sh_link ss * sizeof_Shdr) sizeof_Shdr;
      let st := shdr_of b in
      if (sh_size ss =? 0) || (sh_size st =? 0) || (sh_size ss >? SECTION_MAX) || (sh_size st >? SECTION_MAX) then next else
      strbuf ← read_block alloc_ok pread (sh_size st) (elf_off + sh_offset st);
      symbuf ← read_block alloc_ok pread (sh_size ss) (elf_off + sh_offset ss);
      match strbuf, symbuf with
      | Some strbuf, Some symbuf =>
          v ← named_value (Z.to_nat (sh_size ss / sh_entsize ss)) symbuf (sh_entsize ss) strbuf 0 name;
          if v =? 0 then next else Ret v
      | _, _ => next
      end
  end.

Definition elf_dynsym_value (path : list byte) (elf_off pid vstart vend : Z) (name : list byte) : res Z :=
  match open_module path pid vstart vend with
  | None => Ret 0
  | Some f =>
      match pread_all (f_pread f) (S (Z.to_nat sizeof_Ehdr)) sizeof_Ehdr (s64 elf_off) with
      | Fail => Ret 0
      | Oob => Oob
      | NoFuel => NoFuel
      | Ret b =>
          let eh := ehdr_of b in
          if negb (elf_magic_ok eh) || negb (elf_class eh =? ELFCLASS64) then Ret 0 else
          if (e_shoff eh =? 0) || (e_shnum eh =? 0) || negb (e_shentsize eh =? sizeof_Shdr) then Ret 0 else
          sh ← read_block alloc_ok (f_pread f) (e_shnum eh * e_shentsize eh) (elf_off + e_shoff eh);
          match sh with
          | None => Ret 0
          | Some sh => dynsym_sections (Z.to_nat (e_shnum eh)) (f_pread f) sh (e_shnum eh) elf_off 0 name
          end
      end
  end.

Definition LIBART : list byte := bytes_of "libart.so".
Definition JIT_DESCRIPTOR : list byte := bytes_of "__jit_debug_descriptor" ++ [x00].

Definition set_located (l va : Z) (ac : art_ctx) : art_ctx :=
  mk_art (a_pid ac) (a_memfd ac) l va (a_last_head ac) (a_last_seqlock ac) (a_next_refresh_ms ac) (a_jit ac).

Definition art_locate (pm : procmaps) (ac : art_ctx) : res art_ctx :=
  if negb (a_located ac =? 0) then Ret ac else
  match list_find (fun m => basename_of (path m) = LIBART) (pm_m pm) with
  | None => Ret ac
  | Some (i, m) =>
      '(load_base, elf_off, base_end) ← module_base pm i;
      val ← elf_dynsym_value (path m) elf_off (a_pid ac) load_base base_end JIT_DESCRIPTOR;
      Ret (if val =? 0 then set_located (-1) 0 ac else set_located 1 (u64 (val + load_base)) ac)
  end.
End Dynsym.

(** ** Reading the list *)

Section Refresh.
Context (alloc_ok : Z -> bool) (junk : nat -> byte) (qsort : list jit_entry -> list jit_entry).
(** [mem_open n pid]: opening the memory of a process at moment [n];
    [mem_pread n pid]: [pread] on it at moment [n]. *)
Context (mem_open : nat -> Z -> bool) (mem_pread : nat -> Z -> Z -> Z -> list byte).

(** The scratch buffer grows by doubling from 64 KiB; new bytes hold what the heap held. *)
Definition jit_scratch_ensure (n : Z) (sc : list byte) : res (option (list byte)) :=
  if n <=? zlen sc then Ret (Some sc) else
  match grow 64 (if zlen sc =? 0 then 64 * 2 ^ 10 else zlen sc) n with
  | None => NoFuel
  | Some nc =>
      if alloc_ok nc then Ret (Some (sc ++ map junk (seq (length sc) (Z.to_nat nc - length sc)))) else Ret None
  end.

(** The state of a walk: the moment, the scratch buffer, the map. *)
Record walk_st := mk_w { w_now : nat; w_scratch : list byte; w_jit : jit_map }.

Definition entry_image (pid symaddr symsize : Z) (w : walk_st) : res walk_st :=
  if (symaddr =? 0) || (symsize <? sizeof_Ehdr) || (symsize >? JIT_MAX_SYMFILE) then Ret w else
  sc ← jit_scratch_ensure symsize (w_scratch w);
  match sc with
  | None => Ret w
  | Some sc =>
      '(got, sc) ← proc_mem_read (mem_pread (w_now w) pid) symaddr sc symsize;
      jm ← (if got >=? sizeof_Ehdr then jit_ingest_elf alloc_ok (w_jit w) sc symsize else Ret (w_jit w));
      Ret (mk_w (S (w_now w)) sc jm)
  end.

Fixpoint walk_list (guard : nat) (pid entry : Z) (w : walk_st) : res walk_st :=
  match guard with
  | O => Ret w
  | S guard =>
      if entry =? 0 then Ret w else
      '(got, ce) ← proc_mem_read (mem_pread (w_now w) pid) entry (repeat x00 32) JCE_BYTES;
      let w := mk_w (S (w_now w)) (w_scratch w) (w_jit w) in
      if negb (got =? JCE_BYTES) then Ret w else
      w ← entry_image pid (le_at 8 ce JCE_SYMADDR) (le_at 8 ce JCE_SYMSIZE) w;
      walk_list guard pid (le_at 8 ce JCE_NEXT) w
  end.

(** The descriptor at one moment, nothing when it cannot be read in full. *)
Definition read_desc (now : nat) (pid va : Z) : res (option (list byte)) :=
  '(got, d) ← proc_mem_read (mem_pread now pid) va (repeat x00 48) JIT_DESC_BYTES;
  Ret (if got =? JIT_DESC_BYTES then Some d else None).

Definition set_jit (jm : jit_map) (ac : art_ctx) : art_ctx :=
  mk_art (a_pid ac) (a_memfd ac) (a_located ac) (a_desc_va ac) (a_last_head ac) (a_last_seqlock ac) (a_next_refresh_ms ac) jm.
Definition sorted_map (jm : jit_map) : jit_map :=
  mk_jm (if zlen (jm_e jm) =? 0 then jm_e jm else qsort (jm_e jm)) (jm_cap jm) (jm_arena jm) (jm_acap jm).
Definition publish (seq head : Z) (ac : art_ctx) : art_ctx :=
  mk_art (a_pid ac) (a_memfd ac) (a_located ac) (a_desc_va ac) head seq (a_next_refresh_ms ac) (sorted_map (a_jit ac)).

(** The flag says that the map was published. *)
Fixpoint attempts (n : nat) (ac : art_ctx) (now : nat) (sc : list byte) : res (art_ctx * nat * list byte * bool) :=
  match n with
  | O => Ret (ac, now, sc, false)
  | S n =>
      d ← read_desc now (a_pid ac) (a_desc_va ac);
      match d with
      | None => Ret (ac, S now, sc, false)
      | Some d =>
          let s1 := le_at 4 d JD_SEQLOCK in
          if negb (Z.land s1 1 =? 0) then attempts n ac (S now) sc else
          let head := le_at 8 d JD_HEAD in
          w ← walk_list JIT_MAX_ENTRIES (a_pid ac) head (mk_w (S now) sc (jit_reset (a_jit ac)));
          let ac := set_jit (w_jit w) ac in
          d2 ← read_desc (w_now w) (a_pid ac) (a_desc_va ac);
          match d2 with
          | None => Ret (ac, S (w_now w), w_scratch w, false)
          | Some d2 =>
              if le_at 4 d2 JD_SEQLOCK =? s1 then Ret (publish s1 head ac, S (w_now w), w_scratch w, true)
              else attempts n ac (S (w_now w)) (w_scratch w)
          end
      end
  end.

Definition with_memfd (ac : art_ctx) : art_ctx :=
  mk_art (a_pid ac) true (a_located ac) (a_desc_va ac) (a_last_head ac) (a_last_seqlock ac) (a_next_refresh_ms ac) (a_jit ac).

Definition art_refresh (ac : art_ctx) (now : nat) (sc : list byte) : res (art_ctx * nat * list byte * bool) :=
  if negb (a_located ac =? 1) || (a_desc_va ac =? 0) then Ret (ac, now, sc, false) else
  if negb (a_memfd ac) && negb (mem_open now (a_pid ac))
  then Ret (set_located (-1) (a_desc_va ac) ac, now, sc, false) else
  let ac := with_memfd ac in
  d ← read_desc now (a_pid ac) (a_desc_va ac);
  match d with
  | None => Ret (ac, S now, sc, false)
  | Some d =>
      if negb (le_at 4 d JD_VERSION =? 1) then Ret (set_located (-1) (a_desc_va ac) ac, S now, sc, false) else
      let seq := le_at 4 d JD_SEQLOCK in
      let head := le_at 8 d JD_HEAD in
      if (Z.land seq 1 =? 0) && (seq =? a_last_seqlock ac) && (head =? a_last_head ac) && negb (zlen (jm_e (a_jit ac)) =? 0)
      then Ret (ac, S now, sc, false) else
      attempts 4 ac (S now) sc
  end.
End Refresh.

(** ** Resolving *)

Record jit_state := mk_js { g_art : list art_ctx; g_jit_scratch : list byte; js_now : nat; js_pm : pm_state }.

Definition art_ctx0 (pid : Z) : art_ctx := mk_art pid false 0 0 0 0 0 jit_map0.
Definition sizeof_art_ctx := 88.

Section Resolve.
Context (alloc_ok : Z -> bool) (junk : nat -> byte) (qsort : list jit_entry -> list jit_entry).
Context (mem_open : nat -> Z -> bool) (mem_pread : nat -> Z -> Z -> Z -> list byte).
Context (clk : nat -> Z) (proc_maps : nat -> Z -> maps_read) (open_module : list byte -> Z -> Z -> Z -> option modfile).

Definition art_get (pid : Z) (l : list art_ctx) : option nat * list art_ctx :=
  match list_find (fun ac => a_pid ac = pid) l with
  | Some (i, _) => (Some i, l)
  | None => if alloc_ok ((zlen l + 1) * sizeof_art_ctx) then (Some (length l), l ++ [art_ctx0 pid]) else (None, l)
  end.

Definition art_reset (ac : art_ctx) : art_ctx := mk_art (a_pid ac) false 0 0 0 0 0 (jit_reset (a_jit ac)).
Definition jit_reset_pid (pid : Z) (l : list art_ctx) : list art_ctx :=
  map (fun ac => if a_pid ac =? pid then art_reset ac else ac) l.

Definition set_next (t : Z) (ac : art_ctx) : art_ctx :=
  mk_art (a_pid ac) (a_memfd ac) (a_located ac) (a_desc_va ac) (a_last_head ac) (a_last_seqlock ac) t (a_jit ac).

(** Locate and refresh, at most once per interval. *)
Definition art_update (i : nat) (ac : art_ctx) (st : jit_state) : res (art_ctx * jit_state) :=
  let t := clk (tick (js_pm st)) in
  let st := mk_js (g_art st) (g_jit_scratch st) (js_now st) (mk_pms (g_pm (js_pm st)) (S (tick (js_pm st)))) in
  if t <? a_next_refresh_ms ac then Ret (ac, st) else
  let ac := set_next (t + REFRESH_MS) ac in
  '(ac, st) ← (if a_located ac =? 1 then Ret (ac, st) else
               let '(slot, ev, pms) := pm_get alloc_ok clk proc_maps (js_pm st) (a_pid ac) in
               let arts := match ev with Some old => jit_reset_pid old (g_art st) | None => g_art st end in
               let st := mk_js arts (g_jit_scratch st) (js_now st) pms in
               match slot ≫= (fun k => g_pm pms !! k) with
               | None => Ret (ac, st)
               | Some pm => ac ← art_locate alloc_ok open_module pm ac; Ret (ac, st)
               end);
  '(ac, now, sc, _) ← art_refresh alloc_ok junk qsort mem_open mem_pread ac (js_now st) (g_jit_scratch st);
  Ret (ac, mk_js (g_art st) sc now (js_pm st)).

Definition jit_text (nm : list byte) (delta : Z) : res (list byte) :=
  if delta =? 0 then Ret (bytes_of "[JIT]!" ++ nm) else plus_off (bytes_of "[JIT]!" ++ nm) delta.

Definition jit_resolve (pid addr outsz : Z) (st : jit_state) : res (option (list byte) * jit_state) :=
  match art_get pid (g_art st) with
  | (None, l) => Ret (None, mk_js l (g_jit_scratch st) (js_now st) (js_pm st))
  | (Some i, l) =>
      match l !! i with
      | None => Oob
      | Some ac =>
          '(ac, st) ← art_update i ac (mk_js l (g_jit_scratch st) (js_now st) (js_pm st));
          let st := mk_js (<[i := ac]> (g_art st)) (g_jit_scratch st) (js_now st) (js_pm st) in
          r ← jit_lookup (a_jit ac) addr;
          match r with
          | None => Ret (None, st)
          | Some (nm, delta) => s ← jit_text nm delta; Ret (Some (snprintf_s outsz s), st)
          end
      end
  end.
End Resolve.

(** ** What an image names *)

Definition range_end (start size : Z) : Z := if size =? 0 then u64 (start + 1) else u64 (start + size).

(** Start, end and name of the code symbols of a table. *)
Fixpoint jit_wanted (n : nat) (img : list byte) (symoff entsize stroff strsize k : Z) : list (Z * Z * option (list byte)) :=
  match n with
  | O => []
  | S n =>
      let es := sym_of (slice img (symoff + k * entsize) sizeof_Sym) in
      let rest := jit_wanted n img symoff entsize stroff strsize (k + 1) in
      if is_jit_sym es strsize then
        match cname (slice img (stroff + st_name es) (strsize - st_name es)) with
        | Some ((_ :: _) as name) => (st_value es, range_end (st_value es) (st_size es), Some name) :: rest
        | _ => rest
        end
      else rest
  end.

Definition section (img : list byte) (i : Z) : Elf64_Shdr :=
  let eh := ehdr_of (slice img 0 sizeof_Ehdr) in shdr_of (slice img (e_shoff eh + i * e_shentsize eh) sizeof_Shdr).
Definition section_codes (img : list byte) (i : Z) : list (Z * Z * option (list byte)) :=
  let eh := ehdr_of (slice img 0 sizeof_Ehdr) in
  let sec := section img i in let str := section img (sh_link sec) in
  if is_symtab sec (e_shnum eh)
  then jit_wanted (Z.to_nat (sh_size sec / sh_entsize sec)) img (sh_offset sec) (sh_entsize sec) (sh_offset str) (sh_size str) 0
  else [].
Fixpoint codes_from (n : nat) (img : list byte) (i : Z) : list (Z * Z * option (list byte)) :=
  match n with O => [] | S n => section_codes img i ++ codes_from n img (i + 1) end.
Definition image_codes (img : list byte) : list (Z * Z * option (list byte)) :=
  codes_from (Z.to_nat (e_shnum (ehdr_of (slice img 0 sizeof_Ehdr)))) img 0.

(** A symbol table of an image: inside it, entries of full size, names terminated. *)
Definition table_ok (img : list byte) (i : Z) : Prop :=
  let eh := ehdr_of (slice img 0 sizeof_Ehdr) in
  let sec := section img i in let str := section img (sh_link sec) in
  is_symtab sec (e_shnum eh) = true ->
  sizeof_Sym <= sh_entsize sec /\ sh_offset sec + sh_size sec <= zlen img /\ sh_offset str + sh_size str <= zlen img /\
  (sh_size str <> 0 -> byte_at img (sh_offset str + sh_size str - 1) = 0).

Record image_ok (img : list byte) : Prop := {
  im_size : sizeof_Ehdr <= zlen img <= JIT_MAX_SYMFILE;
  im_magic : elf_magic_ok (ehdr_of (slice img 0 sizeof_Ehdr)) = true;
  im_class : elf_class (ehdr_of (slice img 0 sizeof_Ehdr)) = ELFCLASS64;
  im_table : let eh := ehdr_of (slice img 0 sizeof_Ehdr) in
             e_shoff eh <> 0 /\ e_shnum eh <> 0 /\ sizeof_Shdr <= e_shentsize eh /\
             e_shoff eh + e_shnum eh * e_shentsize eh <= zlen img;
  im_secs : forall i, 0 <= i < e_shnum (ehdr_of (slice img 0 sizeof_Ehdr)) -> table_ok img i
}.

(** ** The map as an arena of names *)

Definition ds_of (jm : jit_map) : dynsym :=
  mk_dynsym (jm_arena jm) (jm_acap jm) (map (fun e => mk_sym (je_start e) (je_end e) (je_off e)) (jm_e jm)) false.
Definition jviews (jm : jit_map) : list (Z * Z * option (list byte)) := map (view (ds_of jm)) (ds_s (ds_of jm)).
Definition names_room (l : list (Z * Z * option (list byte))) : Z :=
  foldr (fun v s => zlen (default [] (snd v)) + 4 + s) 0 l.

(** Bytes of names and entries. *)
Definition load (jm : jit_map) : Z := zlen (arena (ds_of jm)) + zlen (jm_e jm).

(** [jm'] is [jm] with the ranges [new] added. *)
Record jit_added (jm jm' : jit_map) (new : list (Z * Z * option (list byte))) : Prop := {
  ja_ok : arena_ok (ds_of jm');
  ja_views : jviews jm' = jviews jm ++ new;
  ja_len : load jm' <= load jm + names_room new
}.

Lemma names_room_app l k : names_room (l ++ k) = names_room l + names_room k.
Proof. induction l as [|v l IH]; cbn [names_room foldr app]; [reflexivity|]. fold (names_room (l ++ k)). fold (names_room l). lia. Qed.
Lemma names_room_nonneg l : 0 <= names_room l.
Proof. induction l as [|v l IH]; cbn [names_room foldr]; [lia|]. fold (names_room l). pose proof (zlen_nonneg (default [] (snd v))). lia. Qed.
Lemma jit_added_refl jm : arena_ok (ds_of jm) -> jit_added jm jm [].
Proof. intros H. split; [exact H|now rewrite app_nil_r|simpl; lia]. Qed.
Lemma jit_added_trans a b c l k : jit_added a b l -> jit_added b c k -> jit_added a c (l ++ k).
Proof. intros [? V1 L1] [? V2 L2]. split; auto; [now rewrite V2, V1, app_assoc|]. rewrite names_room_app. lia. Qed.

(** [arena_add] does not look at the symbols. *)
Lemma arena_add_syms alloc_ok s c l b name :
  arena_add alloc_ok (mk_dynsym s c l b) name =
  ('(off, ds) ← arena_add alloc_ok (mk_dynsym s c [] false) name; Ret (off, mk_dynsym (ds_str ds) (ds_strcap ds) l b)).
Proof.
  unfold arena_add. cbn [ds_str ds_strcap ds_s ds_ok].
  destruct (match s with Some s => Some (s, c) | None => if alloc_ok 4096 then Some ([x00], 4096) else None end) as [[str cap]|]; [|reflexivity].
  cbv zeta. destruct (if _ >? _ then _ else _) as [cap'| | |]; [|reflexivity..]. destruct (_ <=? cap'); reflexivity.
Qed.

Lemma slice_app_in (img tl : list byte) off n : 0 <= off -> 0 <= n -> off + n <= zlen img -> slice (img ++ tl) off n = slice img off n.
Proof. intros. unfold slice, zlen in *. rewrite drop_app_le by lia. rewrite take_app_le by (rewrite length_drop; lia). reflexivity. Qed.
Lemma drop_slice (img tl : list byte) off n :
  0 <= off -> 0 <= n -> off + n <= zlen img -> exists k, drop (Z.to_nat off) (img ++ tl) = slice img off n ++ k.
Proof.
  intros. unfold slice, zlen in *. exists (drop (Z.to_nat n) (drop (Z.to_nat off) img) ++ tl).
  rewrite drop_app_le by lia. rewrite app_assoc, take_drop. reflexivity.
Qed.
Lemma cname_terminated l : 0 < zlen l -> byte_at l (zlen l - 1) = 0 -> exists s, cname l = Some s.
Proof.
  induction l as [|b l IH]; [unfold zlen; simpl; lia|]. intros _ H. cbn [cname]. destruct (Z.eqb_spec (bz b) 0) as [|Hb]; [eauto|].
  rewrite zlen_cons in H. destruct l as [|b' l].
  { exfalso. apply Hb. exact H. }
  destruct IH as [s ->]; [rewrite zlen_cons; pose proof (zlen_nonneg l); lia| |eauto].
  rewrite <- H. change (b :: b' :: l) with ([b] ++ b' :: l). pose proof (zlen_nonneg l). change (zlen [b]) with 1 in *.
  rewrite (byte_at_app_r [b]) by (change (zlen [b]) with 1; rewrite zlen_cons; lia). f_equal. change (zlen [b]) with 1. lia.
Qed.
Lemma cname_first l s : cname l = Some s -> (s = [] <-> byte_at l 0 = 0).
Proof.
  destruct l as [|b l]; cbn [cname]; [discriminate|]. change (byte_at (b :: l) 0) with (bz b).
  destruct (Z.eqb_spec (bz b) 0) as [E|E].
  - intros [= <-]. tauto.
  - destruct (cname l); [|discriminate]. intros [= <-]. split; [discriminate|contradiction].
Qed.

(** Below the limit of the heap every allocation of the arena succeeds. *)
Lemma arena_add_heap alloc_ok ds name : (forall z, alloc_ok z = (z <? 2 ^ 62)) -> arena_ok ds -> ds_str ds <> None ->
  zlen (arena ds) + zlen name + 2 < 2 ^ 32 -> arena_add alloc_ok ds name = arena_add (fun _ => true) ds name.
Proof.
  intros heap [_ A2 A3 _] Hs Hr. unfold arena_add, arena in *. destruct (ds_str ds) as [str|]; [|contradiction]. cbn [default] in Hr. unfold id in Hr.
  specialize (A2 str eq_refl). cbv zeta. destruct (zlen str + (zlen name + 1) >? ds_strcap ds) eqn:Eg; [|reflexivity]. b2p. pose proof (zlen_nonneg name).
  destruct (grow_spec 64 (u64 (ds_strcap ds * 2)) (zlen str + (zlen name + 1))) as (nc & -> & Hnc & _); [rewrite u64_small; lia|unfold LIM; lia| |lia|].
  { rewrite u64_small by lia. assert (2 ^ 62 <= ds_strcap ds * 2 * 2 ^ (Z.of_nat 64 - 1)) by (simpl; lia). lia. }
  now rewrite heap, (proj2 (Z.ltb_lt _ _)) by lia.
Qed.

Section Ingest.
Context (alloc_ok : Z -> bool) (heap : forall z, alloc_ok z = (z <? 2 ^ 62)).

Lemma c_string_spec buf p img stroff strsize name :
  0 <= p -> p + 1 <= zlen buf -> cname (slice img stroff strsize) = Some name ->
  (exists k, drop (Z.to_nat p) buf = slice img stroff strsize ++ k) -> c_string buf p = Ret name.
Proof.
  intros Hp Hl Hn [k Hk]. unfold c_string. rewrite find_nul_spec by lia. rewrite ret_bind.
  assert (E : slice buf p (Z.of_nat (Z.to_nat (zlen buf - p))) = drop (Z.to_nat p) buf).
  { unfold slice. apply take_ge. rewrite length_drop. unfold zlen. lia. }
  rewrite E, Hk, (cname_app _ k name Hn). reflexivity.
Qed.

(** The stored symbol, seen as an entry of the map. *)
Lemma stored_added jm cap ds1 ds3 start en off name k :
  arena_ok (ds_of jm) -> ds1 = mk_dynsym (ds_str ds1) (ds_strcap ds1) (ds_s (ds_of jm)) false ->
  arena ds1 = arena (ds_of jm) ++ k -> zlen k <= 1 ->
  added ds1 (mk_dynsym (ds_str ds3) (ds_strcap ds3) (ds_s (ds_of jm) ++ [mk_sym start en off]) false) [(start, en, Some name)] (zlen name + 2) ->
  jit_added jm (mk_jm (jm_e jm ++ [mk_je start en off]) cap (ds_str ds3) (ds_strcap ds3)) [(start, en, Some name)].
Proof.
  intros Hok Hds Har Hk1 [A1 _ A3 A4].
  assert (Eds : ds_of (mk_jm (jm_e jm ++ [mk_je start en off]) cap (ds_str ds3) (ds_strcap ds3)) =
    mk_dynsym (ds_str ds3) (ds_strcap ds3) (ds_s (ds_of jm) ++ [mk_sym start en off]) false).
  { unfold ds_of. cbn [jm_e jm_arena jm_acap ds_s]. now rewrite map_app. }
  split.
  - rewrite Eds. exact A1.
  - unfold jviews. rewrite Eds. etransitivity; [exact A3|]. f_equal. rewrite Hds at 2. cbn [ds_s].
    eapply (views_mono (ds_of jm) ds1 k); [exact Har|apply Hok].
  - unfold load. rewrite Eds. cbn [jm_e]. rewrite zlen_app. rewrite Har, zlen_app in A4.
    cbn [names_room foldr snd default]. unfold id. change (zlen [mk_je start en off]) with 1. lia.
Qed.

Lemma jit_add_spec jm start size buf p name :
  arena_ok (ds_of jm) -> start <> 0 -> name <> [] -> 0 <= p < zlen buf -> c_string buf p = Ret name -> ~ In x00 name ->
  byte_at buf p <> 0 -> load jm + zlen name + 4 < 2 ^ 32 ->
  exists jm', jit_add alloc_ok jm start size buf p = Ret jm' /\ jit_added jm jm' [(start, range_end start size, Some name)].
Proof.
  intros Hok Hs Hn Hp Hc Hnul Hb Hroom. unfold jit_add. rewrite (proj2 (Z.eqb_neq _ _) Hs), ld_in, ret_bind by lia.
  rewrite (proj2 (Z.eqb_neq _ _) Hb). unfold load in Hroom. pose proof (zlen_nonneg (arena (ds_of jm))). pose proof (zlen_nonneg name). pose proof (zlen_nonneg (jm_e jm)).
  assert (Hcap : exists cap, (if zlen (jm_e jm) =? jm_cap jm then
      (let nc := if jm_cap jm =? 0 then 256 else jm_cap jm * 2 in if alloc_ok (nc * sizeof_jit_entry) then Some nc else None)
      else Some (jm_cap jm)) = Some cap).
  { destruct (Z.eqb_spec (zlen (jm_e jm)) (jm_cap jm)) as [E|]; [|eauto]. cbv zeta. rewrite heap, (proj2 (Z.ltb_lt _ _)); [eauto|].
    unfold sizeof_jit_entry. destruct (jm_cap jm =? 0); lia. }
  cbv zeta in Hcap |- *. destruct Hcap as [cap ->]. unfold jit_arena_add. cbn [jm_arena jm_acap jm_e jm_cap]. rewrite (heap 8192). cbn [Z.ltb Z.compare].
  change (8192 <? 2 ^ 62) with true. cbv iota.
  set (o := match jm_arena jm with Some s => Some (s, jm_acap jm) | None => Some ([x00], 8192) end).
  assert (Ho : exists str acap, o = Some (str, acap) /\
     arena_ok (mk_dynsym (Some str) acap (ds_s (ds_of jm)) false) /\ (exists k, str = arena (ds_of jm) ++ k /\ zlen k <= 1) ).
  { unfold o. destruct Hok as [A1 A2 A3 A4]. unfold arena in *. cbn [ds_of ds_str ds_strcap ds_s] in *. destruct (jm_arena jm) as [s|].
    - exists s, (jm_acap jm). split; [reflexivity|]. split; [split; auto; discriminate|]. exists []. rewrite app_nil_r. split; [reflexivity|unfold zlen; simpl; lia].
    - exists [x00], 8192. split; [reflexivity|]. rewrite (A1 eq_refl). split; [|exists [x00]; split; [reflexivity|unfold zlen; simpl; lia]].
      split; cbn [ds_str ds_strcap ds_s]; [discriminate|intros s [= <-]; unfold zlen; simpl; lia|lia|constructor]. }
  destruct Ho as (str & acap & -> & Hok1 & k & Hk & Hk1). rewrite Hc, ret_bind.
  set (ds1 := mk_dynsym (Some str) acap (ds_s (ds_of jm)) false) in *.
  assert (Har : arena ds1 = arena (ds_of jm) ++ k) by exact Hk.
  destruct (store_symbol (fun _ => true) ds1 name start (range_end start size) Hok1) as (off & ds2 & E & Hst); [rewrite Har, zlen_app; lia|exact Hnul|].
  rewrite <- (arena_add_heap alloc_ok ds1 name heap Hok1) in E; [|discriminate|rewrite Har, zlen_app; lia].
  unfold ds1 in E. rewrite arena_add_syms in E.
  destruct (arena_add alloc_ok (mk_dynsym (Some str) acap [] false) name) as [[off' ds3]| | |]; [|discriminate E..].
  rewrite ret_bind in E. injection E as -> <-. rewrite !ret_bind. destruct (Z.eqb_spec off 0) as [->|Hoff]; [destruct Hst as [_ []]; reflexivity|].
  cbn [jm_e jm_cap jm_arena jm_acap]. eexists. split; [reflexivity|].
  apply (stored_added jm _ ds1 ds3 start (range_end start size) off name k); auto.
Qed.

Lemma jit_syms_spec img tl symoff entsize stroff strsize :
  0 <= symoff -> sizeof_Sym <= entsize -> 0 <= stroff -> 0 <= strsize -> stroff + strsize <= zlen img -> zlen img < 2 ^ 63 ->
  (strsize <> 0 -> byte_at img (stroff + strsize - 1) = 0) ->
  forall n k jm, 0 <= k -> symoff + (k + Z.of_nat n) * entsize <= zlen img -> arena_ok (ds_of jm) ->
  load jm + names_room (jit_wanted n img symoff entsize stroff strsize k) < 2 ^ 32 ->
  exists jm', jit_syms alloc_ok n (img ++ tl) symoff entsize stroff strsize k jm = Ret jm' /\
    jit_added jm jm' (jit_wanted n img symoff entsize stroff strsize k).
Proof.
  unfold sizeof_Sym. intros Hs He Ht Hsz Htl Hl Hz. induction n as [|n IH]; intros k jm Hk Hend Hok Hroom; cbn [jit_syms jit_wanted].
  { eexists. split; [reflexivity|]. now apply jit_added_refl. }
  unfold sizeof_Sym. pose proof (zlen_app img tl) as Hlen. pose proof (zlen_nonneg tl).
  assert (Hk1 : symoff + k * entsize + 24 <= zlen img) by nia. assert (Hk0 : 0 <= symoff + k * entsize) by nia.
  rewrite u64_small, memcpy_in_ok, slice_app_in, ret_bind by lia. cbv zeta. cbn [jit_wanted] in Hroom. unfold sizeof_Sym in Hroom. cbv zeta in Hroom.
  set (es := sym_of (slice img (symoff + k * entsize) 24)) in *. assert (Hn0 : 0 <= st_name es) by apply (le_at_range 4).
  assert (Hnext : forall jm1 l, jit_added jm jm1 l -> load jm + names_room (l ++ jit_wanted n img symoff entsize stroff strsize (k + 1)) < 2 ^ 32 ->
    exists jm', jit_syms alloc_ok n (img ++ tl) symoff entsize stroff strsize (k + 1) jm1 = Ret jm' /\
      jit_added jm jm' (l ++ jit_wanted n img symoff entsize stroff strsize (k + 1))).
  { intros jm1 l Hadd Hr. rewrite names_room_app in Hr. pose proof (ja_len _ _ _ Hadd).
    destruct (IH (k + 1) jm1) as (jm' & E & Hadd'); [lia|lia|apply Hadd|lia|]. exists jm'. split; [exact E|]. eapply jit_added_trans; eauto. }
  destruct (is_jit_sym es strsize) eqn:Ej; [|rewrite ret_bind; apply (Hnext jm []); [now apply jit_added_refl|exact Hroom]].
  unfold is_jit_sym in Ej. apply andb_true_iff in Ej as [[Ej1 _]%andb_true_iff Ej3]. rewrite negb_true_iff in Ej1, Ej3.
  rewrite !orb_false_iff in Ej1. destruct Ej1 as [[Hv _] _]. b2p.
  set (p := stroff + st_name es) in *. assert (Hp : p + (strsize - st_name es) <= zlen img) by lia.
  destruct (cname_terminated (slice img p (strsize - st_name es))) as [name Hname];
    [rewrite zlen_slice by lia; lia|rewrite zlen_slice, byte_at_slice by lia; replace (p + (strsize - st_name es - 1)) with (stroff + strsize - 1) by lia; apply Hz; lia|].
  rewrite Hname in *. rewrite (u64_small p) by lia.
  assert (Hb : byte_at (img ++ tl) p = byte_at (slice img p (strsize - st_name es)) 0).
  { rewrite byte_at_slice, Z.add_0_r by lia. apply byte_at_app_l. lia. }
  pose proof (cname_first _ _ Hname) as Hfirst. rewrite <- Hb in Hfirst. destruct (cname_nonul _ _ Hname) as [Hnul _].
  destruct name as [|c name].
  - unfold jit_add. rewrite (proj2 (Z.eqb_neq _ _) Hv), ld_in, ret_bind by lia. rewrite (proj1 Hfirst eq_refl). cbn [Z.eqb]. rewrite ret_bind.
    apply (Hnext jm []); [now apply jit_added_refl|exact Hroom].
  - destruct (jit_add_spec jm (st_value es) (st_size es) (img ++ tl) p (c :: name)) as (jm1 & -> & Hadd); [exact Hok|exact Hv|discriminate|lia| |exact Hnul| | |].
    + eapply c_string_spec; [lia|lia|exact Hname|]. apply drop_slice; lia.
    + intros E0. now apply Hfirst in E0.
    + cbn [names_room foldr] in Hroom. fold (names_room (jit_wanted n img symoff entsize stroff strsize (k + 1))) in Hroom. cbn [snd default] in Hroom. unfold id in Hroom.
      pose proof (names_room_nonneg (jit_wanted n img symoff entsize stroff strsize (k + 1))). lia.
    + rewrite ret_bind. apply (Hnext jm1 [_]); [exact Hadd|exact Hroom].
Qed.

Lemma section_codes_spec img tl i jm :
  image_ok img -> 0 <= i < e_shnum (ehdr_of (slice img 0 sizeof_Ehdr)) -> arena_ok (ds_of jm) ->
  load jm + names_room (section_codes img i) < 2 ^ 32 ->
  forall n, exists jm', jit_sections alloc_ok (S n) (img ++ tl) (zlen img) (ehdr_of (slice img 0 sizeof_Ehdr)) i jm =
      jit_sections alloc_ok n (img ++ tl) (zlen img) (ehdr_of (slice img 0 sizeof_Ehdr)) (i + 1) jm' /\
    jit_added jm jm' (section_codes img i).
Proof.
  intros [Him1 _ _ Him4 Him5] Hi Hok Hroom n. specialize (Him5 i Hi). unfold table_ok, section_codes in *. cbv zeta in *.
  set (eh := ehdr_of (slice img 0 sizeof_Ehdr)) in *. unfold sizeof_Shdr, sizeof_Ehdr, JIT_MAX_SYMFILE in *. destruct Him4 as (Ho & Hnum & Hes & Hend).
  pose proof (zlen_app img tl) as Hlen. pose proof (zlen_nonneg tl).
  assert (Hsh : 0 <= e_shoff eh) by apply (le_at_range 8).
  assert (Hsec : forall j, 0 <= j < e_shnum eh -> 0 <= e_shoff eh + j * e_shentsize eh /\ e_shoff eh + j * e_shentsize eh + 64 <= zlen img) by (intros; nia).
  cbn [jit_sections]. destruct (Hsec i Hi). unfold sizeof_Shdr. rewrite u64_small, memcpy_in_ok, slice_app_in, ret_bind by lia. cbv zeta.
  assert (Ei : shdr_of (slice img (e_shoff eh + i * e_shentsize eh) 64) = section img i) by reflexivity. rewrite Ei.
  destruct (is_symtab (section img i) (e_shnum eh)) eqn:Es; cbn [negb]; [|eexists; split; [reflexivity|now apply jit_added_refl]].
  destruct (Him5 eq_refl) as (Ht1 & Ht2 & Ht3 & Ht4).
  assert (Hlink : 0 <= sh_link (section img i) < e_shnum eh).
  { unfold is_symtab in Es. apply andb_true_iff in Es as [[_ Es]%andb_true_iff _]. rewrite negb_true_iff in Es. b2p. split; [apply (le_at_range 4)|lia]. }
  destruct (Hsec _ Hlink). rewrite (u64_small (e_shoff eh + _)), memcpy_in_ok, slice_app_in, ret_bind by lia.
  assert (El : shdr_of (slice img (e_shoff eh + sh_link (section img i) * e_shentsize eh) 64) = section img (sh_link (section img i))) by reflexivity.
  rewrite El. set (sec := section img i) in *. set (str := section img (sh_link sec)) in *.
  assert (0 <= sh_offset sec /\ 0 <= sh_size sec /\ 0 <= sh_offset str /\ 0 <= sh_size str) as (? & ? & ? & ?)
    by (repeat split; apply (le_at_range 8)).
  rewrite !u64_small by lia.
  replace ((sh_offset sec + sh_size sec >? zlen img) || (sh_offset str + sh_size str >? zlen img)) with false
    by (symmetry; rewrite orb_false_iff, !Z.gtb_ltb, !Z.ltb_ge; lia).
  unfold sizeof_Sym in Ht1.
  destruct (jit_syms_spec img tl (sh_offset sec) (sh_entsize sec) (sh_offset str) (sh_size str)) with
    (n := Z.to_nat (sh_size sec / sh_entsize sec)) (k := 0) (jm := jm) as (jm' & E & Hadd); auto; try lia.
  { rewrite Z2Nat.id by (apply Z.div_pos; lia). pose proof (Z.mul_div_le (sh_size sec) (sh_entsize sec)). lia. }
  exists jm'. rewrite E, ret_bind. auto.
Qed.

Lemma jit_sections_spec img tl n : image_ok img -> forall i jm,
  0 <= i -> i + Z.of_nat n = e_shnum (ehdr_of (slice img 0 sizeof_Ehdr)) -> arena_ok (ds_of jm) ->
  load jm + names_room (codes_from n img i) < 2 ^ 32 ->
  exists jm', jit_sections alloc_ok n (img ++ tl) (zlen img) (ehdr_of (slice img 0 sizeof_Ehdr)) i jm = Ret jm' /\
    jit_added jm jm' (codes_from n img i).
Proof.
  intros Him. induction n as [|n IH]; intros i jm Hi Hn Hok Hroom; cbn [codes_from] in *; [eexists; split; [reflexivity|now apply jit_added_refl]|].
  rewrite names_room_app in Hroom. pose proof (names_room_nonneg (codes_from n img (i + 1))).
  destruct (section_codes_spec img tl i jm Him ltac:(lia) Hok ltac:(lia) n) as (jm1 & -> & Hadd). pose proof (ja_len _ _ _ Hadd).
  destruct (IH (i + 1) jm1) as (jm' & -> & Hadd'); [lia|lia|apply Hadd|lia|]. eexists. split; [reflexivity|]. eapply jit_added_trans; eauto.
Qed.

(** An image in the scratch buffer adds exactly its code symbols. *)
Lemma jit_ingest_spec img tl jm : image_ok img -> arena_ok (ds_of jm) ->
  load jm + names_room (image_codes img) < 2 ^ 32 ->
  exists jm', jit_ingest_elf alloc_ok jm (img ++ tl) (zlen img) = Ret jm' /\ jit_added jm jm' (image_codes img).
Proof.
  intros Him Hok Hroom. pose proof Him as [H1 H2 H3 H4 _]. cbv zeta in H4. unfold jit_ingest_elf.
  pose proof (zlen_app img tl). pose proof (zlen_nonneg tl). unfold sizeof_Ehdr, sizeof_Shdr, JIT_MAX_SYMFILE in *.
  rewrite (proj2 (Z.ltb_ge _ _)), memcpy_in_ok, slice_app_in, ret_bind by lia. cbv zeta. rewrite H2, H3. cbn [negb orb Z.eqb].
  destruct H4 as (Ha & Hb & Hc & Hd). set (eh := ehdr_of (slice img 0 64)) in *.
  assert (0 <= e_shoff eh /\ 0 <= e_shnum eh) as [? ?] by (split; [apply (le_at_range 8)|apply (le_at_range 2)]).
  assert (Hm : 0 <= e_shnum eh * e_shentsize eh) by (apply Z.mul_nonneg_nonneg; lia).
  rewrite (proj2 (Z.eqb_neq _ _) Ha), (proj2 (Z.eqb_neq _ _) Hb), (proj2 (Z.ltb_ge _ _) Hc). cbn [orb].
  rewrite u64_small by lia. rewrite Z.gtb_ltb, (proj2 (Z.ltb_ge _ _)) by lia. rewrite Pos.eqb_refl || idtac. cbn [negb].
  apply (jit_sections_spec img tl); [exact Him|lia|unfold sizeof_Ehdr; fold eh; lia|exact Hok|exact Hroom].
Qed.
End Ingest.

(** ** The list in memory *)

(** [m] holds [bs] at [a]. *)
Definition holds (m : Z -> option byte) (a : Z) (bs : list byte) : Prop :=
  0 < a /\ a + zlen bs <= 2 ^ 64 /\ forall i b, bs !! i = Some b -> m (a + Z.of_nat i) = Some b.

(** The linked list at [p] and the images its entries point at. *)
Fixpoint jit_list (m : Z -> option byte) (p : Z) (imgs : list (list byte)) : Prop :=
  match imgs with
  | [] => p = 0
  | img :: imgs =>
      exists ce, zlen ce = JCE_BYTES /\ holds m p ce /\ le_at 8 ce JCE_SYMSIZE = zlen img /\
        holds m (le_at 8 ce JCE_SYMADDR) img /\ image_ok img /\ jit_list m (le_at 8 ce JCE_NEXT) imgs
  end.
Definition all_codes (imgs : list (list byte)) : list (Z * Z * option (list byte)) := flat_map image_codes imgs.

Definition within_mem (m1 m2 : Z -> option byte) : Prop := forall a b, m1 a = Some b -> m2 a = Some b.

Lemma holds_within m1 m2 a bs : within_mem m1 m2 -> holds m1 a bs -> holds m2 a bs.
Proof. intros Hm (H1 & H2 & H3). split; [exact H1|]. split; [exact H2|]. intros i b Hb. now apply Hm, H3. Qed.

(** Reading a range that memory holds. *)
Lemma read_held pread m a bs dst :
  PreadOf pread m -> holds m a bs -> zlen bs <= zlen dst ->
  proc_mem_read pread a dst (zlen bs) = Ret (zlen bs, bs ++ drop (length bs) dst).
Proof.
  intros Hp (H1 & H2 & H3) Hd. pose proof (zlen_nonneg bs).
  destruct (proc_mem_read_spec pread m a dst (zlen bs)) as (dst' & E & [F1 F2 F3]); [lia..|]. rewrite E.
  assert (Hr : readable m a (Z.to_nat (zlen bs)) = zlen bs).
  { rewrite readable_some; [lia|]. intros k Hk. destruct (lookup_lt_is_Some_2 bs (Z.to_nat k)) as [b Hb]; [unfold zlen in Hk; lia|].
    specialize (H3 _ _ Hb). rewrite Z2Nat.id in H3 by lia. eauto. }
  rewrite Hr. do 2 f_equal. apply bytes_ext.
  - rewrite F1, zlen_app. unfold zlen in *. rewrite length_drop. lia.
  - intros i Hi. destruct (Z.ltb_spec i (zlen bs)).
    + rewrite F2, byte_at_app_l by lia. destruct (lookup_lt_is_Some_2 bs (Z.to_nat i)) as [b Hb]; [unfold zlen in *; lia|].
      pose proof (H3 _ _ Hb) as Hm. rewrite Z2Nat.id in Hm by lia. rewrite Hm. unfold byte_at. now rewrite Hb.
    + rewrite F3, byte_at_app_r by lia. unfold byte_at. rewrite lookup_drop. unfold zlen in *.
      replace (length bs + Z.to_nat (i - Z.of_nat (length bs)))%nat with (Z.to_nat i) by lia. reflexivity.
Qed.

Section Walk.
Context (alloc_ok : Z -> bool) (heap : forall z, alloc_ok z = (z <? 2 ^ 62)) (junk : nat -> byte).
Context (mem_pread : nat -> Z -> Z -> Z -> list byte) (pid : Z) (ms : nat -> Z -> option byte).
Context (preads : forall n, PreadOf (mem_pread n pid) (ms n)).

Lemma ensure_spec n sc : 0 < n <= JIT_MAX_SYMFILE -> exists sc', jit_scratch_ensure alloc_ok junk n sc = Ret (Some sc') /\ n <= zlen sc'.
Proof.
  unfold JIT_MAX_SYMFILE. intros Hn. unfold jit_scratch_ensure. destruct (Z.leb_spec n (zlen sc)); [eauto|].
  assert (Hg : exists nc, grow 64 (if zlen sc =? 0 then 64 * 2 ^ 10 else zlen sc) n = Some nc /\ n <= nc < 2 ^ 62 /\ 0 < nc).
  { apply grow_spec; [destruct (Z.eqb_spec (zlen sc) 0); pose proof (zlen_nonneg sc); lia|unfold LIM; lia| |lia].
    assert (2 ^ 26 <= 1 * 2 ^ (Z.of_nat 64 - 1)) by (simpl; lia).
    destruct (Z.eqb_spec (zlen sc) 0); pose proof (zlen_nonneg sc); [simpl; lia|]. assert (1 <= zlen sc) by lia.
    apply Z.le_trans with (1 * 2 ^ (Z.of_nat 64 - 1)); [lia|]. apply Z.mul_le_mono_nonneg_r; [simpl; lia|lia]. }
  destruct Hg as (nc & -> & Hnc & _). rewrite heap, (proj2 (Z.ltb_lt _ _)) by lia. eexists. split; [reflexivity|].
  rewrite zlen_app. unfold zlen in *. rewrite length_map, length_seq. lia.
Qed.

Lemma entry_image_spec m img a w :
  holds m a img -> image_ok img -> within_mem m (ms (w_now w)) -> arena_ok (ds_of (w_jit w)) ->
  load (w_jit w) + names_room (image_codes img) < 2 ^ 32 ->
  exists w', entry_image alloc_ok junk mem_pread pid a (zlen img) w = Ret w' /\ w_now w' = S (w_now w) /\
    jit_added (w_jit w) (w_jit w') (image_codes img).
Proof.
  intros Hh Him Hm Hok Hroom. pose proof (im_size _ Him) as Hsz. pose proof Hh as (Ha & _).
  unfold entry_image. rewrite (proj2 (Z.eqb_neq a 0)), (proj2 (Z.ltb_ge _ _)), Z.gtb_ltb, (proj2 (Z.ltb_ge _ _)) by lia. cbn [orb].
  unfold sizeof_Ehdr in *. destruct (ensure_spec (zlen img) (w_scratch w)) as (sc & -> & Hsc); [lia|]. rewrite ret_bind.
  rewrite (read_held _ (ms (w_now w)) a img sc (preads _) (holds_within _ _ _ _ Hm Hh) Hsc), ret_bind.
  rewrite (proj2 (Z.geb_le _ _)) by lia.
  destruct (jit_ingest_spec alloc_ok heap img (drop (length img) sc) (w_jit w) Him Hok Hroom) as (jm & -> & Hadd). rewrite ret_bind.
  eexists. split; [reflexivity|]. auto.
Qed.

(** Whatever memory holds, an image that is read takes one moment. *)
Lemma entry_image_now a sz w w' : 0 < a -> sizeof_Ehdr <= sz <= JIT_MAX_SYMFILE ->
  entry_image alloc_ok junk mem_pread pid a sz w = Ret w' -> w_now w' = S (w_now w).
Proof.
  intros Ha Hs. unfold entry_image. rewrite (proj2 (Z.eqb_neq a 0)), (proj2 (Z.ltb_ge _ _)), Z.gtb_ltb, (proj2 (Z.ltb_ge _ _)) by lia. cbn [orb].
  unfold sizeof_Ehdr in *. destruct (ensure_spec sz (w_scratch w)) as (sc & -> & Hsc); [lia|]. rewrite ret_bind.
  destruct (proc_mem_read _ _ _ _) as [[got sc']| | |]; [|discriminate..]. rewrite ret_bind.
  destruct (if got >=? 64 then _ else _) as [jm| | |]; [|discriminate..]. rewrite ret_bind. now intros [= <-].
Qed.

Notation walk := (walk_list alloc_ok junk mem_pread).
Notation image := (entry_image alloc_ok junk mem_pread).

Lemma entry_image_mono a sz w w' : image pid a sz w = Ret w' -> (w_now w <= w_now w')%nat.
Proof.
  unfold entry_image. destruct (_ || _); [intros [= <-]; lia|].
  destruct (jit_scratch_ensure _ _ _ _) as [[sc|]| | |]; [|intros [= <-]; lia|discriminate..]. rewrite ret_bind.
  destruct (proc_mem_read _ _ _ _) as [[got sc']| | |]; [|discriminate..]. rewrite ret_bind.
  destruct (if got >=? _ then _ else _) as [jm| | |]; [|discriminate..]. rewrite ret_bind. intros [= <-]. simpl. lia.
Qed.
Lemma walk_mono guard : forall p w w', walk guard pid p w = Ret w' -> (w_now w <= w_now w')%nat.
Proof.
  induction guard as [|guard IH]; intros p w w'; cbn [walk_list]; [intros [= <-]; lia|]. destruct (p =? 0); [intros [= <-]; lia|].
  destruct (proc_mem_read _ _ _ _) as [[got ce]| | |]; [|discriminate..]. rewrite ret_bind. destruct (negb _); [intros [= <-]; simpl; lia|].
  destruct (image _ _ _ _) as [w1| | |] eqn:E; [|discriminate..]. rewrite ret_bind. intros H.
  apply entry_image_mono in E. apply IH in H. simpl in E. lia.
Qed.
Lemma walk_moves guard p w w' : p <> 0 -> walk (S guard) pid p w = Ret w' -> (w_now w < w_now w')%nat.
Proof.
  intros Hp. cbn [walk_list]. rewrite (proj2 (Z.eqb_neq _ _) Hp).
  destruct (proc_mem_read _ _ _ _) as [[got ce]| | |]; [|discriminate..]. rewrite ret_bind. destruct (negb _); [intros [= <-]; simpl; lia|].
  destruct (image _ _ _ _) as [w1| | |] eqn:E; [|discriminate..]. rewrite ret_bind. intros H.
  apply entry_image_mono in E. apply walk_mono in H. simpl in E. lia.
Qed.

(** An entry that memory holds is read as it is. *)
Lemma walk_entry m p ce guard w : zlen ce = JCE_BYTES -> holds m p ce -> within_mem m (ms (w_now w)) ->
  walk (S guard) pid p w =
  (w ← image pid (le_at 8 ce JCE_SYMADDR) (le_at 8 ce JCE_SYMSIZE) (mk_w (S (w_now w)) (w_scratch w) (w_jit w));
   walk guard pid (le_at 8 ce JCE_NEXT) w).
Proof.
  intros Hl Hh Hm. cbn [walk_list]. pose proof Hh as (Hp & _). rewrite (proj2 (Z.eqb_neq p 0)) by lia. rewrite <- Hl.
  rewrite (read_held _ (ms (w_now w)) p ce _ (preads _) (holds_within _ _ _ _ Hm Hh)); [|rewrite Hl; vm_compute; discriminate].
  rewrite ret_bind, Z.eqb_refl. cbn [negb]. rewrite drop_ge, app_nil_r; [reflexivity|]. rewrite repeat_length. unfold zlen, JCE_BYTES in Hl. lia.
Qed.

(** A walk over memory that did not change adds the symbols of every image. *)
Lemma walk_sound m imgs : forall guard p w w',
  jit_list m p imgs -> (length imgs <= guard)%nat -> arena_ok (ds_of (w_jit w)) ->
  load (w_jit w) + names_room (all_codes imgs) < 2 ^ 32 ->
  walk guard pid p w = Ret w' -> (forall n, (w_now w <= n < w_now w')%nat -> within_mem m (ms n)) ->
  jit_added (w_jit w) (w_jit w') (all_codes imgs).
Proof.
  induction imgs as [|img imgs IH]; intros guard p w w' Hl Hg Hok Hroom Hw Hst.
  { cbn [jit_list] in Hl. subst p. destruct guard; injection Hw as <-; now apply jit_added_refl. }
  destruct guard as [|guard]; [simpl in Hg; lia|]. destruct Hl as (ce & Hce & Hh & Hsz & Himg & Him & Hl).
  cbn [all_codes flat_map] in *. fold (all_codes imgs) in *. rewrite names_room_app in Hroom. pose proof (names_room_nonneg (all_codes imgs)).
  pose proof Hh as (Hp & _). pose proof (walk_moves guard p w w' ltac:(lia) Hw) as Hmove.
  rewrite (walk_entry m p ce guard w Hce Hh (Hst (w_now w) ltac:(lia))), Hsz in Hw.
  destruct (image _ _ _ _) as [w1| | |] eqn:E1 in Hw; [|discriminate Hw..]. rewrite ret_bind in Hw.
  pose proof (entry_image_now _ _ _ _ ltac:(apply Himg) (im_size _ Him) E1) as Hnow. apply walk_mono in Hw as Hlate. simpl in Hnow.
  destruct (entry_image_spec m img (le_at 8 ce JCE_SYMADDR) (mk_w (S (w_now w)) (w_scratch w) (w_jit w))) as (w1' & E & _ & Hadd);
    [exact Himg|exact Him|apply Hst; simpl; lia|exact Hok|simpl; lia|]. rewrite E in E1. injection E1 as ->. simpl in Hadd.
  eapply jit_added_trans; [exact Hadd|]. pose proof (ja_len _ _ _ Hadd). eapply (IH guard); [exact Hl|simpl in Hg; lia|apply Hadd|lia|exact Hw|].
  intros n Hn. apply Hst. lia.
Qed.

(** Over memory that does not change the walk ends. *)
Lemma walk_returns m imgs : forall guard p w,
  jit_list m p imgs -> arena_ok (ds_of (w_jit w)) ->
  load (w_jit w) + names_room (all_codes imgs) < 2 ^ 32 ->
  (forall n, (w_now w <= n)%nat -> within_mem m (ms n)) -> exists w', walk guard pid p w = Ret w'.
Proof.
  induction imgs as [|img imgs IH]; intros guard p w Hl Hok Hroom Hst.
  { cbn [jit_list] in Hl. subst p. destruct guard; eauto. }
  destruct guard as [|guard]; [eauto|]. destruct Hl as (ce & Hce & Hh & Hsz & Himg & Him & Hl).
  cbn [all_codes flat_map] in *. fold (all_codes imgs) in *. rewrite names_room_app in Hroom. pose proof (names_room_nonneg (all_codes imgs)).
  rewrite (walk_entry m p ce guard w Hce Hh (Hst (w_now w) ltac:(lia))), Hsz.
  destruct (entry_image_spec m img (le_at 8 ce JCE_SYMADDR) (mk_w (S (w_now w)) (w_scratch w) (w_jit w))) as (w1 & -> & Hnow & Hadd);
    [exact Himg|exact Him|apply Hst; simpl; lia|exact Hok|simpl; lia|]. rewrite ret_bind. simpl in Hnow, Hadd. pose proof (ja_len _ _ _ Hadd).
  apply IH; [exact Hl|apply Hadd|lia|]. intros n Hn. apply Hst. lia.
Qed.
End Walk.

(** ** Whatever memory holds *)

(** A map that [jit_reset] can start from. *)
Definition sane (jm : jit_map) : Prop := jm_acap jm < 2 ^ 62 /\ forall s, jm_arena jm = Some s -> 0 < zlen s <= jm_acap jm.

Lemma reset_ok jm : sane jm -> arena_ok (ds_of (jit_reset jm)) /\ load (jit_reset jm) <= 1.
Proof.
  destruct jm as [e c [str|] ac]; unfold sane, load, arena, ds_of, jit_reset; cbn [jm_e jm_cap jm_arena jm_acap]; intros [A3 A2].
  - specialize (A2 str eq_refl). destruct str as [|b str]; [unfold zlen in A2; simpl in A2; lia|]. rewrite zlen_cons in A2. pose proof (zlen_nonneg str).
    split; [|unfold zlen; simpl; lia]. constructor; cbn; [discriminate| |exact A3|constructor].
    intros ? [= <-]. unfold zlen. simpl. lia.
  - split; [|unfold zlen; simpl; lia]. constructor; cbn; [reflexivity|discriminate|exact A3|constructor].
Qed.

Section AnyMemory.
Context (alloc_ok : Z -> bool) (heap : forall z, alloc_ok z = (z <? 2 ^ 62)) (junk : nat -> byte).
Context (mem_pread : nat -> Z -> Z -> Z -> list byte).

Lemma arena_add_sane str cap name off ds : zlen str <= cap -> 0 < zlen str -> cap < 2 ^ 62 ->
  arena_add alloc_ok (mk_dynsym (Some str) cap [] false) name = Ret (off, ds) ->
  ds_strcap ds < 2 ^ 62 /\ forall s, ds_str ds = Some s -> 0 < zlen s <= ds_strcap ds.
Proof.
  intros H1 H0 H2. unfold arena_add. cbn [ds_str ds_strcap ds_s ds_ok]. cbv zeta. pose proof (zlen_nonneg name).
  destruct (if _ >? cap then _ else _) as [cap'| | |] eqn:E; [| |discriminate..].
  - destruct (Z.leb_spec (zlen str + (zlen name + 1)) cap'); [|discriminate]. intros [= <- <-]. cbn [ds_str ds_strcap]. split.
    + destruct (_ >? _) in E; [|congruence]. destruct (grow _ _ _) as [nc|]; [|discriminate]. rewrite heap in E.
      destruct (Z.ltb_spec nc (2 ^ 62)); [|discriminate]. now injection E as <-.
    + intros s [= <-]. rewrite !zlen_app. change (zlen [x00]) with 1. lia.
  - intros [= <- <-]. cbn [ds_str ds_strcap]. split; [exact H2|]. intros s [= <-]. lia.
Qed.

Lemma jit_add_sane jm start size buf p jm' : sane jm -> jit_add alloc_ok jm start size buf p = Ret jm' -> sane jm'.
Proof.
  intros [A3 A2] H. unfold jit_add in H. destruct (start =? 0); [injection H as <-; now split|].
  destruct (ld buf p) as [c| | |]; [|discriminate H..]. rewrite ret_bind in H. destruct (c =? 0); [injection H as <-; now split|].
  destruct (if zlen (jm_e jm) =? jm_cap jm then _ else _) as [cap|] in H; [|injection H as <-; now split].
  unfold jit_arena_add in H. cbn [jm_arena jm_acap jm_e jm_cap] in H.
  destruct (match jm_arena jm with Some s => _ | None => _ end) as [[str acap]|] eqn:Es in H.
  2:{ rewrite ret_bind in H. cbn [Z.eqb] in H. injection H as <-. split; cbn [jm_arena jm_acap]; [lia|discriminate]. }
  assert (Hs : zlen str <= acap /\ 0 < zlen str /\ acap < 2 ^ 62).
  { destruct (jm_arena jm) as [s|]; [injection Es as <- <-; specialize (A2 s eq_refl); lia|]. rewrite heap in Es.
    change (8192 <? 2 ^ 62) with true in Es. injection Es as <- <-. unfold zlen; simpl; lia. }
  destruct (c_string buf p) as [name| | |]; [|discriminate H..]. rewrite ret_bind in H.
  destruct (arena_add alloc_ok (mk_dynsym (Some str) acap [] false) name) as [[off ds]| | |] eqn:E; [|discriminate H..].
  rewrite !ret_bind in H. apply arena_add_sane in E; [|lia..]. destruct (off =? 0); injection H as <-; exact E.
Qed.

Lemma jit_syms_sane n buf a b c d : forall k jm jm', sane jm -> jit_syms alloc_ok n buf a b c d k jm = Ret jm' -> sane jm'.
Proof.
  induction n as [|n IH]; intros k jm jm' Hs; cbn [jit_syms]; [now intros [= <-]|].
  destruct (memcpy_in _ _ _) as [bs| | |]; [|discriminate..]. rewrite ret_bind. cbv zeta.
  destruct (if is_jit_sym _ _ then _ else _) as [jm1| | |] eqn:E; [|discriminate..]. rewrite ret_bind. apply IH.
  destruct (is_jit_sym _ _); [now apply jit_add_sane in E|now injection E as <-].
Qed.
Lemma jit_sections_sane n buf len eh : forall i jm jm', sane jm -> jit_sections alloc_ok n buf len eh i jm = Ret jm' -> sane jm'.
Proof.
  induction n as [|n IH]; intros i jm jm' Hs; cbn [jit_sections]; [now intros [= <-]|].
  destruct (memcpy_in _ _ _) as [bs| | |]; [|discriminate..]. rewrite ret_bind. cbv zeta. destruct (negb _); [now apply IH|].
  destruct (memcpy_in _ _ _) as [bs'| | |]; [|discriminate..]. rewrite ret_bind. destruct (_ || _); [now apply IH|].
  destruct (jit_syms _ _ _ _ _ _ _ _ _) as [jm1| | |] eqn:E; [|discriminate..]. rewrite ret_bind. apply IH. now apply jit_syms_sane in E.
Qed.
Lemma jit_ingest_sane jm buf len jm' : sane jm -> jit_ingest_elf alloc_ok jm buf len = Ret jm' -> sane jm'.
Proof.
  intros Hs. unfold jit_ingest_elf. destruct (len <? _); [now intros [= <-]|]. destruct (memcpy_in _ _ _); [|discriminate..]. rewrite ret_bind. cbv zeta.
  destruct (_ || _); [now intros [= <-]|]. destruct (_ || _); [now intros [= <-]|]. destruct (_ >? _); [now intros [= <-]|]. now apply jit_sections_sane.
Qed.
Lemma entry_image_sane pid a sz w w' : sane (w_jit w) -> entry_image alloc_ok junk mem_pread pid a sz w = Ret w' -> sane (w_jit w').
Proof.
  intros Hs. unfold entry_image. destruct (_ || _); [now intros [= <-]|].
  destruct (jit_scratch_ensure _ _ _ _) as [[sc|]| | |]; [|now intros [= <-]|discriminate..]. rewrite ret_bind.
  destruct (proc_mem_read _ _ _ _) as [[got sc']| | |]; [|discriminate..]. rewrite ret_bind.
  destruct (if got >=? _ then _ else _) as [jm| | |] eqn:E; [|discriminate..]. rewrite ret_bind. intros [= <-]. cbn [w_jit].
  destruct (got >=? _); [now apply jit_ingest_sane in E|now injection E as <-].
Qed.
Lemma walk_sane guard pid : forall p w w', sane (w_jit w) -> walk_list alloc_ok junk mem_pread guard pid p w = Ret w' -> sane (w_jit w').
Proof.
  induction guard as [|guard IH]; intros p w w' Hs; cbn [walk_list]; [now intros [= <-]|]. destruct (p =? 0); [now intros [= <-]|].
  destruct (proc_mem_read _ _ _ _) as [[got ce]| | |]; [|discriminate..]. rewrite ret_bind. cbv zeta. destruct (negb _); [now intros [= <-]|].
  destruct (entry_image _ _ _ _ _ _ _) as [w1| | |] eqn:E; [|discriminate..]. rewrite ret_bind. apply IH. now apply entry_image_sane in E.
Qed.
End AnyMemory.

(** ** The sequence lock *)

(** What ART's writer keeps: [desc n] is the descriptor at moment [n], [owned n] the
    memory the lock guards and [imgs n] the list in it.  While the sequence number is
    even the list is whole, and between two moments with the same even number nothing
    the lock guards changes. *)
Record seqlock (va : Z) (ms owned : nat -> Z -> option byte) (desc : nat -> list byte) (imgs : nat -> list (list byte)) : Prop := {
  sl_desc : forall n, zlen (desc n) = JIT_DESC_BYTES /\ holds (ms n) va (desc n);
  sl_owned : forall n, within_mem (owned n) (ms n);
  sl_list : forall n, Z.land (le_at 4 (desc n) JD_SEQLOCK) 1 = 0 ->
    jit_list (owned n) (le_at 8 (desc n) JD_HEAD) (imgs n) /\ (length (imgs n) <= JIT_MAX_ENTRIES)%nat /\
    1 + names_room (all_codes (imgs n)) < 2 ^ 32;
  sl_still : forall i n j, (i <= n <= j)%nat -> le_at 4 (desc i) JD_SEQLOCK = le_at 4 (desc j) JD_SEQLOCK ->
    Z.land (le_at 4 (desc i) JD_SEQLOCK) 1 = 0 -> owned n = owned i /\ imgs n = imgs i
}.

Definition je_le (a b : jit_entry) : Prop := je_start a <= je_start b.
(** The map lists exactly [codes], by address. *)
Definition map_of (jm : jit_map) (codes : list (Z * Z * option (list byte))) : Prop :=
  StronglySorted je_le (jm_e jm) /\ Permutation (jviews jm) codes /\ arena_ok (ds_of jm).

Section Lock.
Context (alloc_ok : Z -> bool) (heap : forall z, alloc_ok z = (z <? 2 ^ 62)) (junk : nat -> byte).
Context (qsort : list jit_entry -> list jit_entry) (qsort_ok : forall l, Permutation l (qsort l) /\ StronglySorted je_le (qsort l)).
Context (mem_open : nat -> Z -> bool) (mem_pread : nat -> Z -> Z -> Z -> list byte) (pid va : Z) (ms owned : nat -> Z -> option byte).
Context (desc : nat -> list byte) (imgs : nat -> list (list byte)).
Context (preads : forall n, PreadOf (mem_pread n pid) (ms n)) (lock : seqlock va ms owned desc imgs).

Notation seq_at n := (le_at 4 (desc n) JD_SEQLOCK).

Lemma read_desc_spec n : read_desc mem_pread n pid va = Ret (Some (desc n)).
Proof.
  destruct (sl_desc _ _ _ _ _ lock n) as [Hl Hh]. unfold read_desc. rewrite <- Hl.
  rewrite (read_held _ (ms n) va (desc n) _ (preads n) Hh); [|rewrite Hl; vm_compute; discriminate].
  rewrite ret_bind, Z.eqb_refl, drop_ge, app_nil_r; [reflexivity|]. rewrite repeat_length. unfold zlen, JIT_DESC_BYTES in Hl. lia.
Qed.

Lemma sorted_map_of jm jm0 codes : jit_added jm0 jm codes -> jviews jm0 = [] -> map_of (sorted_map qsort jm) codes.
Proof.
  intros [H1 H2 _] H0. rewrite H0 in H2. cbn [app] in H2. unfold map_of, sorted_map. cbn [jm_e].
  destruct (qsort_ok (jm_e jm)) as [Hp Hs]. destruct (Z.eqb_spec (zlen (jm_e jm)) 0) as [E|E].
  - assert (Hnil : jm_e jm = []) by (destruct (jm_e jm); [reflexivity|rewrite zlen_cons in E; pose proof (zlen_nonneg l); lia]).
    destruct jm as [e c a ac]. cbn [jm_e jm_cap jm_arena jm_acap] in *. subst e. split; [constructor|]. split; [now rewrite H2|exact H1].
  - split; [exact Hs|]. destruct jm as [e c a ac]. cbn [jm_e jm_cap jm_arena jm_acap] in *. split.
    + rewrite <- H2. unfold jviews, ds_of. cbn [ds_s jm_e jm_arena jm_acap]. rewrite !map_map.
      etransitivity; [apply Permutation_map; symmetry; exact Hp|]. apply Permutation_refl'. apply map_ext. reflexivity.
    + destruct H1 as [A1 A2 A3 A4]. split; cbn [ds_of ds_str ds_strcap ds_s jm_e jm_arena jm_acap] in *; auto.
      * intros H. specialize (A1 H). apply map_eq_nil in A1. subst e. apply Permutation_nil in Hp. now rewrite Hp.
      * unfold arena in *. cbn [ds_str] in *. apply List.Forall_forall. intros x Hx. rewrite List.Forall_forall in A4. apply A4.
        eapply Permutation_in; [symmetry; apply Permutation_map; exact Hp|exact Hx].
Qed.

(** The state a moment [t] was published for. *)
Definition published_at (t : nat) (ac : art_ctx) : Prop :=
  Z.land (seq_at t) 1 = 0 /\ a_last_seqlock ac = seq_at t /\ a_last_head ac = le_at 8 (desc t) JD_HEAD /\
  map_of (a_jit ac) (all_codes (imgs t)).

Lemma attempts_sound n : forall ac now sc ac' now' sc',
  a_pid ac = pid -> a_desc_va ac = va -> sane (a_jit ac) ->
  attempts alloc_ok junk qsort mem_pread n ac now sc = Ret (ac', now', sc', true) ->
  exists t, (now <= t < now')%nat /\ published_at t ac'.
Proof.
  induction n as [|n IH]; intros ac now sc ac' now' sc' Hpid Hva Hok; cbn [attempts]; [discriminate|].
  rewrite Hpid, Hva, read_desc_spec, ret_bind. destruct (Z.eqb_spec (Z.land (seq_at now) 1) 0) as [Hev|Hodd]; cbn [negb].
  2:{ intros H. destruct (IH _ _ _ _ _ _ Hpid Hva Hok H) as (t & Ht & Hp). exists t. split; [lia|exact Hp]. }
  destruct (walk_list _ _ _ _ _ _ _) as [w| | |] eqn:Ew; [|discriminate..]. rewrite ret_bind. cbv zeta. cbn [a_pid a_desc_va set_jit].
  rewrite Hpid, Hva, read_desc_spec, ret_bind. destruct (reset_ok _ Hok) as [Hrok Hr1].
  pose proof (walk_mono alloc_ok junk mem_pread pid _ _ _ _ Ew) as Hmono. simpl in Hmono.
  destruct (Z.eqb_spec (seq_at (w_now w)) (seq_at now)) as [Es|Es].
  - intros [= <- <- <-]. exists now. split; [lia|]. destruct (sl_list _ _ _ _ _ lock now Hev) as (Hl & Hlen & Hroom).
    split; [exact Hev|]. cbn [publish a_last_seqlock a_last_head a_jit set_jit]. split; [reflexivity|]. split; [reflexivity|].
    apply (sorted_map_of (w_jit w) (jit_reset (a_jit ac))); [|reflexivity].
    apply (walk_sound alloc_ok heap junk mem_pread pid ms preads (owned now) (imgs now) JIT_MAX_ENTRIES (le_at 8 (desc now) JD_HEAD)
      (mk_w (S now) sc (jit_reset (a_jit ac))) w); [exact Hl|exact Hlen|exact Hrok|simpl; lia|exact Ew|].
    intros k Hk. destruct (sl_still _ _ _ _ _ lock now k (w_now w)) as [<- _]; [simpl in Hk; lia|auto|exact Hev|]. apply (sl_owned _ _ _ _ _ lock).
  - intros H. assert (Hsane : sane (a_jit (set_jit (w_jit w) ac))).
    { eapply walk_sane; [exact heap| |exact Ew]. destruct Hok as [A3 A2]. split; [exact A3|]. cbn [w_jit jit_reset jm_arena jm_acap].
      destruct (jm_arena (a_jit ac)) as [[|c s]|]; [specialize (A2 [] eq_refl); unfold zlen in A2; simpl in A2; lia| |discriminate].
      specialize (A2 _ eq_refl). rewrite zlen_cons in A2. pose proof (zlen_nonneg s). intros ? [= <-]. unfold zlen at 1 2. simpl. lia. }
    destruct (IH (set_jit (w_jit w) ac) _ _ _ _ _ Hpid Hva Hsane H) as (t & Ht & Hp). exists t. split; [lia|exact Hp].
Qed.

(** With no writer around, the first attempt publishes. *)
Lemma attempts_publish n ac now sc :
  a_pid ac = pid -> a_desc_va ac = va -> sane (a_jit ac) ->
  (forall k, (now <= k)%nat -> seq_at k = seq_at now) -> Z.land (seq_at now) 1 = 0 ->
  exists ac' now' sc', attempts alloc_ok junk qsort mem_pread (S n) ac now sc = Ret (ac', now', sc', true).
Proof.
  intros Hpid Hva Hs Hst Hev. cbn [attempts]. rewrite Hpid, Hva, read_desc_spec, ret_bind, Hev. cbn [negb Z.eqb].
  destruct (sl_list _ _ _ _ _ lock now Hev) as (Hl & Hlen & Hroom). destruct (reset_ok _ Hs) as [Hrok Hr1].
  destruct (walk_returns alloc_ok heap junk mem_pread pid ms preads (owned now) (imgs now) JIT_MAX_ENTRIES (le_at 8 (desc now) JD_HEAD)
    (mk_w (S now) sc (jit_reset (a_jit ac)))) as [w Ew]; [exact Hl|exact Hrok|simpl; lia| |].
  { intros k Hk. simpl in Hk. destruct (sl_still _ _ _ _ _ lock now k k) as [<- _]; [lia|symmetry; apply Hst; lia|exact Hev|]. apply (sl_owned _ _ _ _ _ lock). }
  rewrite Ew, ret_bind. cbv zeta. cbn [a_pid a_desc_va set_jit]. rewrite Hpid, Hva, read_desc_spec, ret_bind.
  apply walk_mono in Ew. simpl in Ew. rewrite Hst by lia. rewrite Z.eqb_refl. eauto.
Qed.

(** A map nothing was published to, or that of an earlier moment. *)
Definition known (now : nat) (ac : art_ctx) : Prop :=
  sane (a_jit ac) /\ (jm_e (a_jit ac) = [] \/ exists t, (t <= now)%nat /\ published_at t ac).

Lemma refresh_sound ac now sc ac' now' sc' :
  a_pid ac = pid -> a_desc_va ac = va -> sane (a_jit ac) ->
  art_refresh alloc_ok junk qsort mem_open mem_pread ac now sc = Ret (ac', now', sc', true) ->
  exists t, (now <= t < now')%nat /\ published_at t ac'.
Proof.
  intros Hpid Hva Hs. unfold art_refresh. destruct (_ || _); [discriminate|]. destruct (_ && _); [discriminate|]. cbv zeta.
  cbn [a_pid a_desc_va with_memfd]. rewrite Hpid, Hva, read_desc_spec, ret_bind. destruct (negb _); [discriminate|]. destruct (_ && _); [discriminate|].
  intros H. apply attempts_sound in H as (t & Ht & Hp); [|assumption..]. exists t. split; [lia|exact Hp].
Qed.

Lemma refresh_current ac now sc :
  a_pid ac = pid -> a_desc_va ac = va -> va <> 0 -> a_located ac = 1 -> a_memfd ac || mem_open now pid = true ->
  le_at 4 (desc now) JD_VERSION = 1 -> known now ac ->
  (forall k, (now <= k)%nat -> seq_at k = seq_at now) -> Z.land (seq_at now) 1 = 0 ->
  exists ac' now' sc' b, art_refresh alloc_ok junk qsort mem_open mem_pread ac now sc = Ret (ac', now', sc', b) /\
    map_of (a_jit ac') (all_codes (imgs now)).
Proof.
  intros Hpid Hva Hva0 Hloc Hfd Hver [Hs Hkn] Hst Hev. unfold art_refresh. rewrite Hloc, Hva, (proj2 (Z.eqb_neq _ _) Hva0), Hpid. cbn [negb Z.eqb orb Pos.eqb].
  assert (Hopen : negb (a_memfd ac) && negb (mem_open now pid) = false) by (destruct (a_memfd ac), (mem_open now pid); auto).
  rewrite Hopen. cbv zeta. cbn [a_pid a_desc_va with_memfd a_last_seqlock a_last_head a_jit]. rewrite Hpid, Hva, read_desc_spec, ret_bind, Hver, Hev.
  cbn [negb Z.eqb Pos.eqb andb].
  destruct ((seq_at now =? a_last_seqlock ac) && (le_at 8 (desc now) JD_HEAD =? a_last_head ac) && negb (zlen (jm_e (a_jit ac)) =? 0)) eqn:Ek.
  - exists (with_memfd ac), (S now), sc, false. split; [reflexivity|]. cbn [a_jit with_memfd].
    apply andb_true_iff in Ek as [[E1 _]%andb_true_iff E3]. apply Z.eqb_eq in E1.
    destruct Hkn as [Hnil|(t & Ht & Hevt & Hseq & _ & Hmap)]; [rewrite Hnil in E3; discriminate|].
    destruct (sl_still _ _ _ _ _ lock t now now) as [_ ->]; [lia|congruence|exact Hevt|exact Hmap].
  - assert (Hst' : forall k, (S now <= k)%nat -> seq_at k = seq_at (S now)) by (intros; rewrite (Hst k), (Hst (S now)) by lia; reflexivity).
    destruct (attempts_publish 3 (with_memfd ac) (S now) sc) as (ac' & now' & sc' & E); auto; [now rewrite (Hst (S now)) by lia|].
    exists ac', now', sc', true. split; [exact E|]. apply attempts_sound in E as (t & Ht & Hevt & _ & _ & Hmap); [|assumption..].
    destruct (sl_still _ _ _ _ _ lock now t t) as [_ <-]; [lia|symmetry; apply Hst; lia|exact Hev|exact Hmap].
Qed.
End Lock.

(** ** Lookup *)

Lemma sorted_order l i j a b : StronglySorted je_le l -> l !! i = Some a -> l !! j = Some b -> (i < j)%nat -> je_start a <= je_start b.
Proof.
  intros Hs. revert i j. induction Hs as [|x l Hs IH Hx]; intros i j; [now rewrite lookup_nil|].
  destruct i, j; cbn; intros Ha Hb Hij; try lia; [|eapply IH; eauto; lia].
  injection Ha as <-. rewrite List.Forall_forall in Hx. apply Hx. apply list_elem_of_In. eapply list_elem_of_lookup_2; eauto.
Qed.
Lemma jit_upper_spec fuel l addr lo hi :
  StronglySorted je_le l -> (lo <= hi <= length l)%nat -> (hi - lo < fuel)%nat ->
  (forall i e, l !! i = Some e -> (i < lo)%nat -> je_start e <= addr) ->
  (forall i e, l !! i = Some e -> (hi <= i)%nat -> addr < je_start e) ->
  exists k, jit_upper fuel l addr lo hi = Ret k /\ (k <= length l)%nat /\
    (forall i e, l !! i = Some e -> (i < k)%nat -> je_start e <= addr) /\
    (forall i e, l !! i = Some e -> (k <= i)%nat -> addr < je_start e).
Proof.
  intros Hs. revert lo hi. induction fuel as [|fuel IH]; intros lo hi Hb Hf Hlo Hhi; [lia|]. cbn [jit_upper].
  destruct (Nat.ltb_spec lo hi) as [Hlt|Hge]; cbn [negb].
  2:{ exists lo. assert (lo = hi) by lia. subst. split; [reflexivity|]. split; [lia|]. auto. }
  set (mid := ((lo + hi) / 2)%nat). assert (Hm : (lo <= mid < hi)%nat).
  { pose proof (Nat.div_mod_eq (lo + hi) 2). pose proof (Nat.mod_upper_bound (lo + hi) 2). subst mid. lia. }
  clearbody mid. destruct (lookup_lt_is_Some_2 l mid) as [m Em]; [lia|]. rewrite Em.
  destruct (je_start m <=? addr) eqn:E; b2p; apply IH; try lia; auto.
  - intros i e Hi Hle. destruct (decide (i = mid)) as [->|]; [congruence|]. pose proof (sorted_order l i mid e m Hs Hi Em). lia.
  - intros i e Hi Hle. destruct (decide (i = mid)) as [->|]; [congruence|]. pose proof (sorted_order l mid i m e Hs Em Hi). lia.
Qed.

(** The answer for an address: the range with the greatest start at or below it, if it reaches that far. *)
Definition answers_from (codes : list (Z * Z * option (list byte))) (addr : Z) (r : option (list byte * Z)) : Prop :=
  match r with
  | Some (n, d) => exists s e, In (s, e, Some n) codes /\ s <= addr < e /\ d = addr - s /\
                     forall v, In v codes -> fst (fst v) <= addr -> fst (fst v) <= s
  | None => forall s e n, In (s, e, n) codes -> s <= addr ->
              exists s' e' n', In (s', e', n') codes /\ s <= s' <= addr /\ e' <= addr
  end.

Lemma jit_lookup_spec jm codes addr : map_of jm codes -> exists r, jit_lookup jm addr = Ret r /\ answers_from codes addr r.
Proof.
  intros (Hs & Hp & [_ _ _ Hnames]). unfold jit_lookup.
  assert (Hview : forall v, In v codes <-> exists k e, jm_e jm !! k = Some e /\ v = (je_start e, je_end e, cname (drop (Z.to_nat (je_off e)) (default [] (jm_arena jm))))).
  { intros v. split.
    - intros Hv. apply (Permutation_in (l' := jviews jm)) in Hv; [|now symmetry]. unfold jviews in Hv. cbn [ds_of ds_s] in Hv.
      rewrite map_map in Hv. apply in_map_iff in Hv as (e & <- & He). apply list_elem_of_In, list_elem_of_lookup in He as [k Hk]. exists k, e. auto.
    - intros (k & e & Hk & ->). apply (Permutation_in (l := jviews jm)); [exact Hp|]. unfold jviews. cbn [ds_of ds_s]. rewrite map_map. apply in_map_iff.
      exists e. split; [reflexivity|]. apply list_elem_of_In. eapply list_elem_of_lookup_2; eauto. }
  destruct (Z.eqb_spec (zlen (jm_e jm)) 0) as [E0|E0].
  { exists None. split; [reflexivity|]. intros s e n Hin _. apply Hview in Hin as (k & e' & Hk & _). apply lookup_lt_Some in Hk. unfold zlen in E0. lia. }
  destruct (jit_upper_spec (S (length (jm_e jm))) (jm_e jm) addr 0 (length (jm_e jm)) Hs) as (k & -> & Hk & Hlo & Hhi); [lia|lia|lia| |].
  { intros i e Hi Hle. apply lookup_lt_Some in Hi. lia. }
  rewrite ret_bind. destruct k as [|k].
  { exists None. split; [reflexivity|]. intros s e n Hin Hle. apply Hview in Hin as (i & e' & Hi & [= -> -> _]). specialize (Hhi i e' Hi). lia. }
  destruct (lookup_lt_is_Some_2 (jm_e jm) k) as [je Eje]; [lia|]. rewrite Eje. pose proof (Hlo k je Eje ltac:(lia)) as Hje.
  assert (Hmax : forall v, In v codes -> fst (fst v) <= addr -> fst (fst v) <= je_start je).
  { intros v Hv Hle. apply Hview in Hv as (i & e & Hi & ->). cbn [fst] in *. destruct (Nat.lt_trichotomy i k) as [Hlt|[->|Hgt]].
    - exact (sorted_order _ _ _ _ _ Hs Hi Eje Hlt).
    - rewrite Eje in Hi. injection Hi as ->. lia.
    - specialize (Hhi i e Hi). lia. }
  rewrite List.Forall_forall in Hnames. destruct (Hnames (mk_sym (je_start je) (je_end je) (je_off je))) as [n Hn].
  { cbn [ds_of ds_s]. apply in_map_iff. exists je. split; [reflexivity|]. apply list_elem_of_In. eapply list_elem_of_lookup_2; eauto. }
  unfold arena in Hn. cbn [name_off ds_of ds_str] in Hn.
  assert (Hin : In (je_start je, je_end je, Some n) codes) by (apply Hview; exists k, je; rewrite Hn; auto).
  destruct (Z.geb_spec addr (je_end je)) as [Hge|Hlt].
  - exists None. split; [reflexivity|]. intros s e m Hin' Hle. exists (je_start je), (je_end je), (Some n). split; [exact Hin|].
    split; [|lia]. pose proof (Hmax _ Hin' Hle). cbn [fst] in *. lia.
  - rewrite Hn. eexists. split; [reflexivity|]. exists (je_start je), (je_end je). split; [exact Hin|]. split; [lia|]. auto.
Qed.

(** A name for JIT code comes from one consistent state of ART's list.  For a writer
    that keeps its sequence lock and any interleaving of it with the reads: whenever
    [art_refresh] publishes, the map lists exactly the code symbols of every image that
    was in the list at one moment of the call with an even sequence number; when no
    write falls into the call it returns, however the list looks, with the map of the
    current list, newly built or kept; and [jit_lookup] in such a map answers with the
    range of greatest start at or below the address, if it covers the address. *)
Theorem jit_map_is_a_snapshot alloc_ok junk qsort mem_open mem_pread pid va ms owned desc imgs ac now sc :
  (forall z, alloc_ok z = (z <? 2 ^ 62)) -> (forall l, Permutation l (qsort l) /\ StronglySorted je_le (qsort l)) ->
  (forall n, PreadOf (mem_pread n pid) (ms n)) -> seqlock va ms owned desc imgs ->
  a_pid ac = pid -> a_desc_va ac = va -> va <> 0 -> a_located ac = 1 -> a_memfd ac || mem_open now pid = true ->
  known desc imgs now ac ->
  (forall ac' now' sc', art_refresh alloc_ok junk qsort mem_open mem_pread ac now sc = Ret (ac', now', sc', true) ->
     exists t, (now <= t < now')%nat /\ Z.land (le_at 4 (desc t) JD_SEQLOCK) 1 = 0 /\ map_of (a_jit ac') (all_codes (imgs t)) /\
       forall addr, exists r, jit_lookup (a_jit ac') addr = Ret r /\ answers_from (all_codes (imgs t)) addr r) /\
  (le_at 4 (desc now) JD_VERSION = 1 -> Z.land (le_at 4 (desc now) JD_SEQLOCK) 1 = 0 ->
   (forall k, (now <= k)%nat -> le_at 4 (desc k) JD_SEQLOCK = le_at 4 (desc now) JD_SEQLOCK) ->
   exists ac' now' sc' b, art_refresh alloc_ok junk qsort mem_open mem_pread ac now sc = Ret (ac', now', sc', b) /\
     map_of (a_jit ac') (all_codes (imgs now)) /\
     forall addr, exists r, jit_lookup (a_jit ac') addr = Ret r /\ answers_from (all_codes (imgs now)) addr r).
Proof.
  intros heap Hq Hpr Hlock Hpid Hva Hva0 Hloc Hfd Hkn. split.
  - intros ac' now' sc' E. destruct (refresh_sound alloc_ok heap junk qsort Hq mem_open mem_pread pid va ms owned desc imgs Hpr Hlock _ _ _ _ _ _ Hpid Hva (proj1 Hkn) E)
      as (t & Ht & Hev & _ & _ & Hmap). exists t. split; [exact Ht|]. split; [exact Hev|]. split; [exact Hmap|]. intros addr. now apply jit_lookup_spec.
  - intros Hver Hev Hst. destruct (refresh_current alloc_ok heap junk qsort Hq mem_open mem_pread pid va ms owned desc imgs Hpr Hlock ac now sc)
      as (ac' & now' & sc' & b & E & Hmap); auto. exists ac', now', sc', b. split; [exact E|]. split; [exact Hmap|]. intros addr. now apply jit_lookup_spec.
Qed.

(** ** An example *)

Definition pad (n : nat) (l : list byte) : list byte := take n (l ++ repeat x00 n).
Definition elf_header (shoff shnum : Z) : list byte :=
  [x7f; x45; x4c; x46; x02] ++ repeat x00 35 ++ le_bytes 8 shoff ++ repeat x00 10 ++ le_bytes 2 64 ++ le_bytes 2 shnum ++ le_bytes 2 0.
Definition elf_section (type off size link entsize : Z) : list byte :=
  le_bytes 4 0 ++ le_bytes 4 type ++ repeat x00 16 ++ le_bytes 8 off ++ le_bytes 8 size ++ le_bytes 4 link ++ le_bytes 4 0 ++ le_bytes 8 0 ++ le_bytes 8 entsize.
Definition elf_symbol (name value size : Z) : list byte :=
  le_bytes 4 name ++ [x02; x00] ++ le_bytes 2 1 ++ le_bytes 8 value ++ le_bytes 8 size.
(** One symbol table and its strings; [entsize] and [strs] as given. *)
Definition demo_image (syms : list byte) (entsize : Z) (strs : list byte) : list byte :=
  elf_header 64 2 ++ elf_section 2 192 (zlen syms) 1 entsize ++ elf_section 3 (192 + zlen syms) (zlen strs) 0 0 ++ syms ++ strs.
Definition demo_strs : list byte := [x00] ++ bytes_of "java.lang.A.run" ++ [x00].
Definition demo_img : list byte := demo_image (elf_symbol 1 0x7000 0x40) 24 demo_strs.
Definition demo_desc (seq head : Z) : list byte :=
  le_bytes 4 1 ++ repeat x00 12 ++ le_bytes 8 head ++ repeat x00 12 ++ le_bytes 4 seq ++ repeat x00 8.
Definition demo_entry (next symaddr symsize : Z) : list byte := le_bytes 8 next ++ le_bytes 8 0 ++ le_bytes 8 symaddr ++ le_bytes 8 symsize.

(** Three pages: the descriptor, one entry, its image. *)
Definition demo_pages (seq : Z) : list byte :=
  pad 4096 (demo_desc seq 0x2000) ++ pad 4096 (demo_entry 0 0x3000 (zlen demo_img)) ++ pad 4096 demo_img.
Definition page_mem (pages : list byte) (a : Z) : option byte := if 0x1000 <=? a then pages !! Z.to_nat (a - 0x1000) else None.
Definition page_pread (pages : list byte) (a n : Z) : list byte := if 0x1000 <=? a then slice pages (a - 0x1000) n else [].

Lemma page_preads pages : zlen pages mod PROC_MEM_PAGE = 0 -> PreadOf (page_pread pages) (page_mem pages).
Proof.
  unfold PROC_MEM_PAGE. intros Hpg. split.
  - intros a n k Hn Hp Hnil Hk. unfold page_pread, page_mem, PROC_MEM_PAGE in *. destruct (Z.leb_spec 0x1000 a) as [Ha|Ha].
    + rewrite (proj2 (Z.leb_le _ _)) by lia. apply lookup_ge_None_2. apply (f_equal zlen) in Hnil. unfold slice, zlen in *.
      rewrite length_take, length_drop in Hnil. simpl in Hnil. Z.div_mod_to_equations. lia.
    + destruct (Z.leb_spec 0x1000 (a + k)) as [Hb|]; [|reflexivity]. Z.div_mod_to_equations. lia.
  - intros a n Hn Hp. unfold page_pread, page_mem. destruct (Z.leb_spec 0x1000 a) as [Ha|Ha]; [|split; [unfold zlen; simpl; lia|intros k b Hk; rewrite lookup_nil in Hk; discriminate]].
    split; [unfold slice, zlen; rewrite length_take; lia|]. intros k b Hk. rewrite (proj2 (Z.leb_le _ _)) by lia. unfold slice in Hk.
    rewrite lookup_take_Some, lookup_drop in Hk. destruct Hk as [Hk _]. rewrite <- Hk. f_equal. lia.
Qed.

#[local] Instance je_le_dec : RelDecision je_le.
Proof. intros a b. unfold je_le. apply _. Defined.
#[local] Instance je_le_trans : Transitive je_le.
Proof. intros a b c. unfold je_le. lia. Qed.
#[local] Instance je_le_total : Total je_le.
Proof. intros a b. unfold je_le. lia. Qed.
Definition demo_qsort (l : list jit_entry) : list jit_entry := merge_sort je_le l.
Lemma demo_qsort_ok l : Permutation l (demo_qsort l) /\ StronglySorted je_le (demo_qsort l).
Proof. split; [symmetry; apply merge_sort_Permutation|apply (StronglySorted_merge_sort je_le)]. Qed.

Definition demo_ac : art_ctx := mk_art 7 true 1 0x1000 0 0 0 jit_map0.
Definition demo_alloc (z : Z) : bool := z <? 2 ^ 62.
Lemma demo_img_ok : image_ok demo_img.
Proof.
  split; [vm_compute; split; discriminate|reflexivity|reflexivity|vm_compute; repeat split; discriminate|].
  intros i Hi. change (e_shnum (ehdr_of (slice demo_img 0 sizeof_Ehdr))) with 2 in Hi.
  assert (i = 0 \/ i = 1) as [-> | ->] by lia; intros H; [|vm_compute in H; discriminate].
  vm_compute. repeat split; try discriminate; reflexivity.
Qed.
Lemma holds_pages pages a bs : 0x1000 <= a -> a + zlen bs <= 2 ^ 64 -> slice pages (a - 0x1000) (zlen bs) = bs -> holds (page_mem pages) a bs.
Proof.
  intros Ha Hb Hs. split; [lia|]. split; [exact Hb|]. intros i b Hi. unfold page_mem. rewrite (proj2 (Z.leb_le _ _)) by lia.
  rewrite <- Hs in Hi. unfold slice in Hi. rewrite lookup_take_Some, lookup_drop in Hi. destruct Hi as [Hi _]. rewrite <- Hi. f_equal. lia.
Qed.
Lemma demo_lock : seqlock 0x1000 (fun _ => page_mem (demo_pages 4)) (fun _ => page_mem (demo_pages 4)) (fun _ => demo_desc 4 0x2000) (fun _ => [demo_img]).
Proof.
  split.
  - intros n. split; [reflexivity|]. apply holds_pages; [lia|vm_compute; discriminate|vm_compute; reflexivity].
  - intros n a b H. exact H.
  - intros n _. split; [|split; [apply Nat2Z.inj_le; unfold JIT_MAX_ENTRIES; rewrite Z2Nat.id; simpl; lia|vm_compute; reflexivity]].
    exists (demo_entry 0 0x3000 (zlen demo_img)). split; [reflexivity|].
    split; [apply holds_pages; [vm_compute; discriminate|vm_compute; discriminate|vm_compute; reflexivity]|].
    split; [reflexivity|]. split; [apply holds_pages; [vm_compute; discriminate|vm_compute; discriminate|vm_compute; reflexivity]|].
    split; [exact demo_img_ok|reflexivity].
  - auto.
Qed.
Lemma jit_map_is_a_snapshot_witness :
  exists ac' now' sc' b,
    art_refresh demo_alloc (fun _ => x00) demo_qsort (fun _ _ => true) (fun _ _ => page_pread (demo_pages 4)) demo_ac 0 [] = Ret (ac', now', sc', b) /\
    exists r, jit_lookup (a_jit ac') 0x7004 = Ret r /\ answers_from [(0x7000, 0x7040, Some (bytes_of "java.lang.A.run"))] 0x7004 r.
Proof.
  destruct (jit_map_is_a_snapshot demo_alloc (fun _ => x00) demo_qsort (fun _ _ => true) (fun _ _ => page_pread (demo_pages 4)) 7 0x1000
    (fun _ => page_mem (demo_pages 4)) (fun _ => page_mem (demo_pages 4)) (fun _ => demo_desc 4 0x2000) (fun _ => [demo_img]) demo_ac 0 [])
    as [_ (ac' & now' & sc' & b & E & _ & Hl)].
  - reflexivity.
  - apply demo_qsort_ok.
  - intros n. apply page_preads. vm_compute. reflexivity.
  - exact demo_lock.
  - reflexivity.
  - reflexivity.
  - discriminate.
  - reflexivity.
  - reflexivity.
  - split; [|left; reflexivity]. split; [vm_compute; reflexivity|discriminate].
  - reflexivity.
  - reflexivity.
  - reflexivity.
  - exists ac', now', sc', b. split; [exact E|]. exact (Hl 0x7004).
Defined.

(** The comment promises that a half-modified list is never published, but a map that
    was read while the writer was busy stays in place when the four attempts are used
    up: nothing is published here, and the name is answered all the same. *)
Theorem jit_torn_map_is_used :
  let busy n (_ : Z) := page_pread (demo_pages (2 * Z.of_nat n)) in
  match art_refresh demo_alloc (fun _ => x00) demo_qsort (fun _ _ => true) busy demo_ac 0 [] with
  | Ret (ac, _, _, published) => published = false /\ a_last_seqlock ac = 0 /\ jit_lookup (a_jit ac) 0x7000 = Ret (Some (bytes_of "java.lang.A.run", 0))
  | _ => False
  end.
Proof. vm_compute. auto. Qed.

(** Images are the target's: a section table whose offset wraps, entries smaller than a
    symbol and a name without a terminator all take the reader out of its buffer. *)
Theorem jit_image_is_overread :
  let ingest img := jit_ingest_elf demo_alloc jit_map0 img (zlen img) in
  ingest (elf_header (2 ^ 64 - 64) 1) = Oob /\
  ingest (demo_image (elf_symbol 1 0x7000 0x40) 1 []) = Oob /\
  ingest (demo_image (elf_symbol 1 0x7000 0x40) 24 (x00 :: bytes_of "run")) = Oob.
Proof. vm_compute. auto. Qed.
