(* ===== verification/Art.v ===== *)
(** * Art: names of interpreted Java frames

    The walkers over ART's structures in the memory of the target:
    src/common/art_nterp.c (the chain from an ArtMethod to its DEX method, the cache of
    parsed DEX images, the scan of a captured stack for frames of the nterp
    interpreter) and src/common/art_shadow.c (the managed stack of a thread and its
    shadow frames).  [rd va n] is the injected reader: the [n] bytes at [va], or
    nothing when fewer could be read.  The layout offsets are the record of
    art_buildid.h.  DEX images are those of Dex. *)

From Stdlib Require Import ZArith Lia.
From Stdlib Require Import Sorted Permutation.
From stdpp Require Import base list option numbers.
From S2P Require Import Prelude Elf ProcMem Modules Emit Json Decode Dex Symbolize.

Local Open Scope Z_scope.

Record art_offsets := mk_offs {
  tls_thread_slot : Z; managed_stack : Z; ms_link : Z; ms_top_shadow : Z; sf_link : Z; sf_method : Z; sf_dex_pc_ptr : Z;
  artm_declclass : Z; artm_dexidx : Z; class_dexcache : Z; dexcache_dexfile : Z; dexfile_begin : Z; dexfile_datasize : Z }.

Definition ART_PTR_UNTAG (p : Z) : Z := Z.land p 0x00FFFFFFFFFFFFFF.
Definition NTERP_SCAN_SLOTS : nat := 1025.   (* offsets 0, 8, .., NTERP_SCAN_WIN = 8192 *)
Definition NTERP_CORROB_SLOTS : nat := 65.   (* 0, 8, .., NTERP_CORROB_SPAN = 512 *)
Definition DEX_CACHE_CAP := 64.
Definition MAX_SEG : nat := 8.
Definition MAX_SF : nat := 64.

(** The production reader. *)
Definition pm_reader (pread : Z -> Z -> list byte) (va n : Z) : res (option (list byte)) :=
  '(got, b) ← proc_mem_read pread va (repeat x00 (Z.to_nat n)) n;
  Ret (if got =? n then Some b else None).

(** Cached images by [begin_], oldest first. *)
Definition dex_cache := list (Z * dex_method_map).
Definition cache_find (begin : Z) (g : dex_cache) : option dex_method_map :=
  snd <$> List.find (fun e => fst e =? begin) g.

(** Teardown between tests; production never calls it. *)
Definition art_nterp_cache_reset (g : dex_cache) : dex_cache := [].

Section Walkers.
Context (rd : Z -> Z -> option (list byte)) (alloc_ok : Z -> bool) (qsort : list method_range -> list method_range).

Definition rd_u32 (va : Z) : option Z := (fun b => le_at 4 b 0) <$> rd (u64 va) 4.
Definition rd_u64 (va : Z) : option Z := (fun b => le_at 8 b 0) <$> rd (u64 va) 8.

(** What the image at [begin] parses to. *)
Definition dex_image (begin size : Z) : res (option dex_method_map) :=
  if negb (alloc_ok size) then Ret None else
  match rd begin size with
  | None => Ret None
  | Some img =>
      match dex_map_build alloc_ok qsort img with
      | Ret m => Ret (Some m)
      | Fail => Ret None
      | Oob => Oob
      | NoFuel => NoFuel
      end
  end.

(** The second locked step: the image may have been inserted since the first. *)
Definition dexmap_insert (begin : Z) (m : dex_method_map) (g : dex_cache) : dex_method_map * dex_cache :=
  match cache_find begin g with
  | Some winner => (winner, g)
  | None => (m, (if zlen g =? DEX_CACHE_CAP then drop 1 g else g) ++ [(begin, m)])
  end.

Definition dexmap_get (begin size : Z) (g : dex_cache) : res (option dex_method_map * dex_cache) :=
  match cache_find begin g with
  | Some m => Ret (Some m, g)
  | None =>
      m ← dex_image begin size;
      match m with
      | None => Ret (None, g)
      | Some m => let '(m, g) := dexmap_insert begin m g in Ret (Some m, g)
      end
  end.

(** The DexFile an ArtMethod belongs to: method index, image start and size. *)
Definition art_method_file (o : art_offsets) (artmethod : Z) : option (Z * Z * Z) :=
  if (artmethod <? 0x1000) || negb (Z.land artmethod 7 =? 0) then None else
  decl ← rd_u32 (artmethod + artm_declclass o);
  if decl =? 0 then None else
  midx ← rd_u32 (artmethod + artm_dexidx o);
  dcref ← rd_u32 (decl + class_dexcache o);
  if dcref =? 0 then None else
  dexfile ← rd_u64 (dcref + dexcache_dexfile o);
  if dexfile =? 0 then None else
  let dexfile := ART_PTR_UNTAG dexfile in
  begin ← rd_u64 (dexfile + dexfile_begin o);
  if begin =? 0 then None else
  let begin := ART_PTR_UNTAG begin in
  dsize ← rd_u64 (dexfile + dexfile_datasize o);
  if (dsize <? 0x70) || (dsize >? 64 * 2 ^ 20) then None else
  Some (midx, begin, dsize).

Definition art_method_chase (o : art_offsets) (artmethod : Z) (g : dex_cache)
  : res (option (Z * Z * dex_method_map) * dex_cache) :=
  match art_method_file o artmethod with
  | None => Ret (None, g)
  | Some (midx, begin, dsize) =>
      '(m, g) ← dexmap_get begin dsize g;
      Ret (option_map (fun m => (midx, begin, m)) m, g)
  end.

Definition art_method_resolve (o : art_offsets) (artmethod outsz : Z) (g : dex_cache) : res (option (list byte) * dex_cache) :=
  '(c, g) ← art_method_chase o artmethod g;
  match c with
  | None => Ret (None, g)
  | Some (midx, _, m) => s ← dex_name_by_index m midx outsz; Ret (s, g)
  end.

(** ** The nterp scan *)

(** A position of [addr] in the captured stack: below it, past its end, or a word. *)
Inductive slot := Below | Past | Word (v : Z).
Definition stack_word (stack : list byte) (stack_base addr : Z) : res slot :=
  if addr <? stack_base then Ret Below else
  let so := addr - stack_base in
  if u64 (so + 8) >? zlen stack then Ret Past else
  v ← ld_le 8 stack so; Ret (Word v).

(** A live dex_pc of the method: the code unit it points at. *)
Definition dex_pc (m : dex_method_map) (begin midx v : Z) : res (option Z) :=
  if v <? begin then Ret None else
  let rel := v - begin in
  if rel >? 0xffffffff then Ret None else
  r ← dex_lookup_range m rel;
  Ret (match r with
       | Some (rmidx, rinsns) => if rmidx =? midx then Some (u32 (rel - rinsns) / 2) else None
       | None => None
       end).

Fixpoint corroborate (n : nat) (stack : list byte) (stack_base va : Z) (m : dex_method_map) (begin midx : Z) : res (option Z) :=
  match n with
  | O => Ret None
  | S n =>
      s ← stack_word stack stack_base (u64 va);
      match s with
      | Past => Ret None
      | Below => corroborate n stack stack_base (va + 8) m begin midx
      | Word v =>
          p ← dex_pc m begin midx v;
          match p with
          | Some pc => Ret (Some pc)
          | None => corroborate n stack stack_base (va + 8) m begin midx
          end
      end
  end.

Definition with_pc (nm : list byte) (pc : Z) : list byte := nm ++ bytes_of "+" ++ hexs pc.

Fixpoint pick_loop (n : nat) (o : art_offsets) (stack : list byte) (stack_base va : Z) (fallback : option (list byte)) (outsz : Z) (g : dex_cache)
  : res (option (list byte) * dex_cache) :=
  let finish := match fallback with Some f => Some (snprintf_s outsz (f ++ bytes_of "?")) | None => None end in
  match n with
  | O => Ret (finish, g)
  | S n =>
      s ← stack_word stack stack_base (u64 va);
      match s with
      | Past => Ret (finish, g)
      | Below => pick_loop n o stack stack_base (va + 8) fallback outsz g
      | Word cand =>
          '(c, g) ← art_method_chase o cand g;
          match c with
          | None => pick_loop n o stack stack_base (va + 8) fallback outsz g
          | Some (midx, begin, m) =>
              p ← corroborate NTERP_CORROB_SLOTS stack stack_base (u64 va) m begin midx;
              match p with
              | Some pc =>
                  nm ← dex_name_by_index m midx 256;
                  match nm with
                  | Some nm => Ret (Some (snprintf_s outsz (with_pc nm pc)), g)
                  | None => pick_loop n o stack stack_base (va + 8) fallback outsz g
                  end
              | None =>
                  fb ← (match fallback with Some f => Ret (Some f) | None => dex_name_by_index m midx 256 end);
                  pick_loop n o stack stack_base (va + 8) fb outsz g
              end
          end
      end
  end.
(** [None] is the return value 0. *)
Definition nterp_pick (o : art_offsets) (stack : list byte) (stack_base nterp_sp outsz : Z) (g : dex_cache) : res (option (list byte) * dex_cache) :=
  if outsz =? 0 then Ret (None, g) else pick_loop NTERP_SCAN_SLOTS o stack stack_base nterp_sp None outsz g.

(** [acc]: the names written so far. *)
Fixpoint chain_scan (n : nat) (o : art_offsets) (stack : list byte) (stack_base va last_art : Z) (max_frames : nat) (acc : list (list byte)) (g : dex_cache)
  : res (list (list byte) * dex_cache) :=
  match n with
  | O => Ret (acc, g)
  | S n =>
      if (max_frames <=? length acc)%nat then Ret (acc, g) else
      let next := chain_scan n o stack stack_base (va + 8) in
      s ← stack_word stack stack_base (u64 va);
      match s with
      | Past => Ret (acc, g)
      | Below => next last_art max_frames acc g
      | Word cand =>
          if cand =? last_art then next last_art max_frames acc g else
          '(c, g) ← art_method_chase o cand g;
          match c with
          | None => next last_art max_frames acc g
          | Some (midx, begin, m) =>
              p ← corroborate NTERP_CORROB_SLOTS stack stack_base (u64 va) m begin midx;
              match p with
              | None => next last_art max_frames acc g
              | Some pc =>
                  nm ← dex_name_by_index m midx 240;
                  match nm with
                  | None => next last_art max_frames acc g
                  | Some nm => next cand max_frames (acc ++ [snprintf_s 256 (with_pc nm pc)]) g
                  end
              end
          end
      end
  end.
Definition nterp_chain_pick (o : art_offsets) (stack : list byte) (stack_base nterp_sp : Z) (max_frames : nat) (g : dex_cache)
  : res (list (list byte) * dex_cache) :=
  if (max_frames =? 0)%nat then Ret ([], g) else chain_scan NTERP_SCAN_SLOTS o stack stack_base nterp_sp 0 max_frames [] g.

(** ** Shadow frames *)

(** The name of one frame, when its method resolves. *)
Definition shadow_name (o : art_offsets) (sf : Z) (g : dex_cache) : res (option (list byte) * dex_cache) :=
  match rd_u64 (sf + sf_method o) with
  | None => Ret (None, g)
  | Some method =>
      '(c, g) ← art_method_chase o (ART_PTR_UNTAG method) g;
      match c with
      | None => Ret (None, g)
      | Some (midx, begin, m) =>
          nm ← dex_name_by_index m midx 240;
          match nm with
          | None | Some [] => Ret (None, g)
          | Some nm =>
              pc ← (match rd_u64 (sf + sf_dex_pc_ptr o) with
                    | Some dpp => dex_pc m begin midx (ART_PTR_UNTAG dpp)
                    | None => Ret None
                    end);
              Ret (Some (snprintf_s 256 (match pc with Some pc => with_pc nm pc | None => nm end)), g)
          end
      end
  end.

(** The frames of one segment. *)
Fixpoint shadow_frames (n : nat) (o : art_offsets) (sf : Z) (max_frames : nat) (acc : list (list byte)) (g : dex_cache)
  : res (list (list byte) * dex_cache) :=
  match n with
  | O => Ret (acc, g)
  | S n =>
      if (sf =? 0) || (max_frames <=? length acc)%nat then Ret (acc, g) else
      '(nm, g) ← shadow_name o sf g;
      let acc := match nm with Some nm => acc ++ [nm] | None => acc end in
      match rd_u64 (sf + sf_link o) with
      | None => Ret (acc, g)
      | Some nsf => if ART_PTR_UNTAG nsf =? sf then Ret (acc, g) else shadow_frames n o (ART_PTR_UNTAG nsf) max_frames acc g
      end
  end.

Fixpoint shadow_segments (n : nat) (o : art_offsets) (ms : Z) (max_frames : nat) (acc : list (list byte)) (g : dex_cache)
  : res (list (list byte) * dex_cache) :=
  match n with
  | O => Ret (acc, g)
  | S n =>
      if (ms =? 0) || (max_frames <=? length acc)%nat then Ret (acc, g) else
      match rd_u64 (ms + ms_top_shadow o) with
      | None => Ret (acc, g)
      | Some sf =>
          '(acc, g) ← shadow_frames MAX_SF o (ART_PTR_UNTAG sf) max_frames acc g;
          match rd_u64 (ms + ms_link o) with
          | None => Ret (acc, g)
          | Some nms => if ART_PTR_UNTAG nms =? ms then Ret (acc, g) else shadow_segments n o (ART_PTR_UNTAG nms) max_frames acc g
          end
      end
  end.

Definition shadow_frame_pick (o : art_offsets) (tls_base : Z) (max_frames : nat) (g : dex_cache) : res (list (list byte) * dex_cache) :=
  if (max_frames =? 0)%nat || (tls_base =? 0) then Ret ([], g) else
  match rd_u64 (tls_base + tls_thread_slot o) with
  | None => Ret ([], g)
  | Some thread =>
      let thread := ART_PTR_UNTAG thread in
      if thread =? 0 then Ret ([], g) else
      shadow_segments MAX_SEG o (u64 (thread + managed_stack o)) max_frames [] g
  end.
End Walkers.

(** The reader over the memory file of a process, and the entry points on it: [offs]
    is the offset table of the process's runtime (art_buildid_offsets), [mem] its open
    memory file. *)
Definition reader_of (pread : Z -> Z -> list byte) (va n : Z) : option (list byte) :=
  match pm_reader pread va n with Ret o => o | _ => None end.

Section Entries.
Context (alloc_ok : Z -> bool) (qsort : list method_range -> list method_range).
Context (offs : option art_offsets) (mem : option (Z -> Z -> list byte)).

Definition nterp_name (snap : list byte) (snap_sp nterp_sp outsz : Z) (g : dex_cache) : res (option (list byte) * dex_cache) :=
  if outsz =? 0 then Ret (None, g) else
  match offs, mem with
  | Some o, Some pread => nterp_pick (reader_of pread) alloc_ok qsort o snap snap_sp nterp_sp outsz g
  | _, _ => Ret (None, g)
  end.
Definition nterp_chain (snap : list byte) (snap_sp nterp_sp : Z) (max_frames : nat) (g : dex_cache) : res (list (list byte) * dex_cache) :=
  if (max_frames =? 0)%nat then Ret ([], g) else
  match offs, mem with
  | Some o, Some pread => nterp_chain_pick (reader_of pread) alloc_ok qsort o snap snap_sp nterp_sp max_frames g
  | _, _ => Ret ([], g)
  end.
Definition shadow_frame_chain (tls_base : Z) (max_frames : nat) (g : dex_cache) : res (list (list byte) * dex_cache) :=
  match offs, mem with
  | Some o, Some pread => if tls_base =? 0 then Ret ([], g) else shadow_frame_pick (reader_of pread) alloc_ok qsort o tls_base max_frames g
  | _, _ => Ret ([], g)
  end.
End Entries.

(** ** Total lookups *)

Lemma bind_not_fail {A B} (r : res A) (f : A -> res B) : r <> Fail -> (forall a, f a <> Fail) -> r ≫= f <> Fail.
Proof. destruct r; simpl; auto; discriminate. Qed.
Lemma ld_not_fail buf i : ld buf i <> Fail.
Proof. unfold ld. destruct (_ && _); [destruct (_ !! _)|]; discriminate. Qed.
Lemma ld_le_not_fail n buf i : ld_le n buf i <> Fail.
Proof.
  revert i. induction n as [|n IH]; intros i; [discriminate|]. cbn [ld_le].
  apply bind_not_fail; [apply ld_not_fail|]. intros b. apply bind_not_fail; [apply IH|discriminate].
Qed.
Lemma uleb_go_not_fail n img len pos shift r : uleb_go n img len pos shift r <> Fail.
Proof.
  revert pos shift r. induction n as [|n IH]; intros pos shift r; [discriminate|]. cbn [uleb_go].
  destruct (_ >=? _); [discriminate|]. apply bind_not_fail; [apply ld_not_fail|]. intros b. cbv zeta. destruct (_ =? _); [discriminate|apply IH].
Qed.
Lemma copy_string_not_fail n img len pos outsz out : copy_string n img len pos outsz out <> Fail.
Proof.
  revert pos out. induction n as [|n IH]; intros pos out; [discriminate|]. cbn [copy_string].
  destruct (negb _); [discriminate|]. apply bind_not_fail; [apply ld_not_fail|]. intros c.
  destruct (_ =? _); [discriminate|]. destruct (_ >=? _); [discriminate|apply IH].
Qed.
Lemma dex_string_not_fail m idx outsz : dex_string m idx outsz <> Fail.
Proof.
  unfold dex_string, Dex.rd_u32. destruct (_ >=? _); [discriminate|]. apply bind_not_fail; [apply ld_le_not_fail|]. intros d.
  destruct (_ >=? _); [discriminate|]. apply bind_not_fail; [apply uleb_go_not_fail|].
  intros [[u|] pos]; [apply copy_string_not_fail|discriminate].
Qed.

(** The name of a method, as a total function. *)
Definition name_of (m : dex_method_map) (midx outsz : Z) : option (list byte) :=
  match method_idx_to_name m midx outsz with Ret s => s | _ => None end.

Lemma dex_name_total m midx outsz : dex_wf m -> 0 <= midx -> 0 < outsz -> dex_name_by_index m midx outsz = Ret (name_of m midx outsz).
Proof.
  intros Hw Hi Ho. unfold dex_name_by_index, name_of. rewrite (proj2 (Z.eqb_neq outsz 0)) by lia.
  pose proof (method_idx_to_name_spec m midx outsz Hw Hi Ho) as Hs.
  assert (Hf : method_idx_to_name m midx outsz <> Fail).
  { unfold method_idx_to_name, rd_u16, Dex.rd_u32. destruct (_ >=? _); [discriminate|]. cbv zeta.
    do 2 (apply bind_not_fail; [apply ld_le_not_fail|]; intros ?).
    apply bind_not_fail; [apply dex_string_not_fail|]. intros [name|]; [|discriminate].
    destruct (_ >=? _); [discriminate|]. apply bind_not_fail; [apply ld_le_not_fail|]. intros d.
    apply bind_not_fail; [apply dex_string_not_fail|]. intros [desc|]; [|discriminate].
    destruct (_ || _); [discriminate|]. destruct (append_checked _ _ _); discriminate. }
  destruct (method_idx_to_name m midx outsz); [reflexivity|now destruct Hf|destruct Hs|destruct Hs].
Qed.

(** The bytecode range that holds the address [v], when it is a range of the method:
    the code unit of [v] in it. *)
Definition pc_of (m : dex_method_map) (begin midx v : Z) : option Z :=
  if (v <? begin) || (v - begin >? 0xffffffff) then None else
  match List.find (in_range (v - begin)) (ranges m) with
  | Some r => if mr_idx r =? midx then Some ((v - begin - mr_start r) / 2) else None
  | None => None
  end.

Lemma dex_pc_spec m begin midx v : dex_wf m -> dlen m < 2 ^ 32 -> dex_pc m begin midx v = Ret (pc_of m begin midx v).
Proof.
  intros Hw Hl. unfold dex_pc, pc_of. destruct (v <? begin) eqn:E; [reflexivity|]. cbv zeta. simpl orb.
  destruct (_ >? _) eqn:E1; [reflexivity|]. b2p. unfold dex_lookup_range. rewrite find_range_find, !ret_bind by auto.
  destruct (List.find _ _) as [r|] eqn:Ef; [|reflexivity]. simpl. destruct (_ =? _); [|reflexivity].
  apply List.find_some in Ef as [Hin Hr%in_range_spec]. pose proof (dw_rng _ Hw) as HR. rewrite List.Forall_forall in HR.
  destruct (HR _ Hin) as [_ H0]. specialize (H0 Hl). rewrite u32_small by lia. reflexivity.
Qed.

(** A written frame is the whole text: the name of at most 239 bytes and the code unit
    leave room in the slot of 256. *)
Lemma hexs_short v : 0 <= v < 2 ^ 32 -> zlen (hexs v) <= 10.
Proof.
  intros Hv. destruct (digits_spec 8 16 v) as (l & E & _ & _ & Hl); [lia|simpl; lia|lia|].
  unfold hexs. cbn [jop_text]. change 16%nat with (8 + 8)%nat. rewrite (digits_more 8 8 _ _ _ E). cbn [num_text]. rewrite zlen_app, zlen_digits.
  change (zlen [x30; x78]) with 2. unfold zlen. lia.
Qed.

(** ** What the walkers compute *)

(** The 64-bit word of the captured stack at an address. *)
Definition word_at (stack : list byte) (stack_base addr : Z) : option Z :=
  if (stack_base <=? addr) && (addr - stack_base + 8 <=? zlen stack) then Some (le_at 8 stack (addr - stack_base)) else None.
Fixpoint addrs (n : nat) (va : Z) : list Z := match n with O => [] | S n => va :: addrs n (va + 8) end.

(** Successive frames of the same method are one. *)
Fixpoint distinct_frames (last : Z) (l : list (Z * list byte)) : list (list byte) :=
  match l with
  | [] => []
  | (c, nm) :: l => if c =? last then distinct_frames last l else nm :: distinct_frames c l
  end.

(** Pointers linked through the word at offset [link], up to a null one. *)
Fixpoint linked (next : Z -> option Z) (p : Z) (l : list Z) : Prop :=
  match l with
  | [] => p = 0
  | q :: l => p = q /\ q <> 0 /\ exists r, next q = Some r /\ ART_PTR_UNTAG r <> q /\ linked next (ART_PTR_UNTAG r) l
  end.

Section Spec.
Context (rd : Z -> Z -> option (list byte)) (alloc_ok : Z -> bool) (qsort : list method_range -> list method_range) (o : art_offsets).

Notation method_file := (art_method_file rd o).
Notation image := (dex_image rd alloc_ok qsort).

(** The method an address stands for, straight from the memory of the target. *)
Definition chase (a : Z) : option (Z * Z * dex_method_map) :=
  match method_file a with
  | Some (midx, begin, size) =>
      match image begin size with Ret (Some m) => Some (midx, begin, m) | _ => None end
  | None => None
  end.

(** The target: a reader that delivers the bytes it was asked for, a library sort, and
    one size per DEX image. *)
Record target_ok : Prop := {
  t_reads : forall va n b, rd va n = Some b -> zlen b = n;
  t_sort : forall l, Permutation l (qsort l);
  t_files : forall a b midx midx' begin s s',
    method_file a = Some (midx, begin, s) -> method_file b = Some (midx', begin, s') -> s = s' }.

(** Cached images are those of this target. *)
Definition coherent (g : dex_cache) : Prop :=
  forall begin m, In (begin, m) g -> forall a midx size, method_file a = Some (midx, begin, size) -> image begin size = Ret (Some m).

(** The code unit the frame at [va] is at: the first word above that points into the
    bytecode of its method. *)
Definition live_pc (stack : list byte) (stack_base : Z) (n : nat) (va : Z) (m : dex_method_map) (begin midx : Z) : option Z :=
  head (omap (pc_of m begin midx) (omap (word_at stack stack_base) (addrs n va))).

(** The interpreted frame at an address of the stack: method and text. *)
Definition frame_at (stack : list byte) (stack_base namesz va : Z) : option (Z * list byte) :=
  match word_at stack stack_base va with
  | None => None
  | Some cand =>
      match chase cand with
      | None => None
      | Some (midx, begin, m) =>
          match live_pc stack stack_base NTERP_CORROB_SLOTS va m begin midx, name_of m midx namesz with
          | Some pc, Some nm => Some (cand, with_pc nm pc)
          | _, _ => None
          end
      end
  end.
Definition bare_at (stack : list byte) (stack_base namesz va : Z) : option (list byte) :=
  match word_at stack stack_base va with
  | None => None
  | Some cand => match chase cand with Some (midx, _, m) => name_of m midx namesz | None => None end
  end.

(** The text of a shadow frame. *)
Definition shadow_text (sf : Z) : option (list byte) :=
  match rd_u64 rd (sf + sf_method o) with
  | None => None
  | Some method =>
      match chase (ART_PTR_UNTAG method) with
      | None => None
      | Some (midx, begin, m) =>
          match name_of m midx 240 with
          | None | Some [] => None
          | Some nm =>
              match rd_u64 rd (sf + sf_dex_pc_ptr o) with
              | Some dpp => match pc_of m begin midx (ART_PTR_UNTAG dpp) with Some pc => Some (with_pc nm pc) | None => Some nm end
              | None => Some nm
              end
          end
      end
  end.

(** A thread's managed stack: each segment with its frames, innermost first. *)
Definition segment (s : Z * list Z) : Prop :=
  exists top, rd_u64 rd (fst s + ms_top_shadow o) = Some top /\
    linked (fun p => rd_u64 rd (p + sf_link o)) (ART_PTR_UNTAG top) (snd s) /\ (length (snd s) <= MAX_SF)%nat.
Definition managed (thread : Z) (segs : list (Z * list Z)) : Prop :=
  linked (fun p => rd_u64 rd (p + ms_link o)) (u64 (thread + managed_stack o)) (map fst segs) /\
  Forall segment segs /\ (length segs <= MAX_SEG)%nat.

Context (T : target_ok).

Lemma image_spec begin size : 0x70 <= size <= 64 * 2 ^ 20 ->
  exists x, image begin size = Ret x /\ forall m, x = Some m -> dex_wf m /\ dlen m < 2 ^ 32.
Proof.
  intros Hs. unfold dex_image. destruct (negb _); [eexists; split; [reflexivity|discriminate]|].
  destruct (rd begin size) as [img|] eqn:E; [|eexists; split; [reflexivity|discriminate]].
  apply (t_reads T) in E. pose proof (dex_map_build_wf alloc_ok qsort img (t_sort T) ltac:(lia)) as H.
  destruct (dex_map_build alloc_ok qsort img) as [m| | |]; try destruct H as [Hw Hi]; try contradiction; eexists; (split; [reflexivity|]); try discriminate.
  intros m' [= <-]. split; [exact Hw|]. rewrite (dw_len _ Hw), Hi. lia.
Qed.

Lemma rd_u32_range va v : rd_u32 rd va = Some v -> 0 <= v < 2 ^ 32.
Proof. unfold rd_u32. destruct (rd _ _) as [b|]; [|discriminate]. intros [= <-]. apply (le_at_range 4). Qed.

Lemma method_file_spec a midx begin size : method_file a = Some (midx, begin, size) ->
  0 <= midx < 2 ^ 32 /\ 0x70 <= size <= 64 * 2 ^ 20 /\ 0x1000 <= a.
Proof.
  unfold art_method_file. destruct (_ || _) eqn:E; [discriminate|]. b2p.
  destruct (rd_u32 rd (a + artm_declclass o)); simpl; [|discriminate]. destruct (_ =? 0); [discriminate|].
  destruct (rd_u32 rd (a + artm_dexidx o)) eqn:Ei; simpl; [|discriminate]. apply rd_u32_range in Ei.
  do 3 (match goal with |- context [mbind _ ?x] => destruct x end; simpl; [|discriminate]; destruct (_ =? 0); [discriminate|]).
  match goal with |- context [mbind _ ?x] => destruct x end; simpl; [|discriminate].
  destruct (_ || _) eqn:E1; [discriminate|]. b2p. intros [= <- _ <-]. lia.
Qed.

Lemma chase_wf a midx begin m : chase a = Some (midx, begin, m) -> dex_wf m /\ dlen m < 2 ^ 32 /\ 0 <= midx.
Proof.
  unfold chase. destruct (method_file a) as [[[i b] s]|] eqn:E; [|discriminate]. apply method_file_spec in E as (Hi & Hs & _).
  destruct (image_spec b s Hs) as (x & -> & Hx). destruct x as [m'|]; [|discriminate]. intros [= -> -> ->].
  destruct (Hx m eq_refl). split; [auto|]. split; [auto|lia].
Qed.

Lemma cache_find_in begin g m : cache_find begin g = Some m -> In (begin, m) g.
Proof.
  unfold cache_find. destruct (List.find _ g) as [[b m']|] eqn:E; [|discriminate]. intros [= <-].
  apply List.find_some in E as [H Hb]. simpl in Hb. b2p. now subst.
Qed.

Lemma insert_coherent begin m g a midx size : coherent g -> cache_find begin g = None ->
  method_file a = Some (midx, begin, size) -> image begin size = Ret (Some m) ->
  exists g', dexmap_insert begin m g = (m, g') /\ coherent g'.
Proof.
  intros Hg Hn Hf Hi. unfold dexmap_insert. rewrite Hn. eexists. split; [reflexivity|].
  intros b m' [H|[[= <- <-]|[]]]%in_app_or a' midx' size' Hf'.
  - apply (Hg b m') with a' midx'; [|exact Hf']. destruct (_ =? _); [|exact H]. destruct g; [destruct H|now right].
  - now rewrite (t_files T _ _ _ _ _ _ _ Hf' Hf).
Qed.

Lemma chase_spec a g : coherent g -> exists g', art_method_chase rd alloc_ok qsort o a g = Ret (chase a, g') /\ coherent g'.
Proof.
  intros Hg. unfold art_method_chase, chase. destruct (method_file a) as [[[midx begin] size]|] eqn:Hf; [|eauto].
  unfold dexmap_get. destruct (cache_find begin g) as [m|] eqn:Ec.
  - apply cache_find_in in Ec. rewrite (Hg _ _ Ec _ _ _ Hf). simpl. eauto.
  - destruct (method_file_spec _ _ _ _ Hf) as (_ & Hs & _). destruct (image_spec begin size Hs) as (x & Hx & _). rewrite Hx.
    destruct x as [m|]; simpl; [|eauto]. destruct (insert_coherent begin m g a midx size Hg Ec Hf Hx) as (g' & -> & Hg'). simpl. eauto.
Qed.

(** ** The scan of the captured stack *)

Context (stack : list byte) (stack_base : Z) (Hb : 8 <= stack_base).
Notation word := (word_at stack stack_base).

Lemma stack_word_spec va : 0 <= va < 2 ^ 64 ->
  exists s, stack_word stack stack_base (u64 va) = Ret s /\
    match s with
    | Below => word va = None
    | Past => stack_base <= va /\ zlen stack < va - stack_base + 8
    | Word v => word va = Some v
    end.
Proof.
  intros Hv. rewrite u64_small by lia. unfold stack_word, word_at. destruct (va <? stack_base) eqn:E; b2p.
  { eexists. split; [reflexivity|]. cbn. rewrite (proj2 (Z.leb_gt _ _)) by lia. reflexivity. }
  cbv zeta. rewrite u64_small by lia. rewrite (proj2 (Z.leb_le stack_base va)) by lia. destruct (_ >? _) eqn:E1; b2p.
  { eexists. split; [reflexivity|]. cbn. lia. }
  rewrite ld_le_in, ret_bind by (simpl; lia). eexists. split; [reflexivity|]. cbn [andb]. rewrite (proj2 (Z.leb_le _ _)) by lia. reflexivity.
Qed.

Lemma past_none {B} (f : Z -> option B) n va : (forall a, word a = None -> f a = None) ->
  stack_base <= va -> zlen stack < va - stack_base + 8 -> omap f (addrs n va) = [].
Proof.
  intros Hf. revert va. induction n as [|n IH]; intros va H0 H1; [reflexivity|]. cbn [addrs]. simpl omap.
  rewrite Hf, IH by lia || (unfold word_at; rewrite (proj2 (Z.leb_gt (_ + 8) _)), andb_false_r by lia; reflexivity). reflexivity.
Qed.

Lemma corroborate_spec m begin midx n va : dex_wf m -> dlen m < 2 ^ 32 -> 0 <= va -> va + 8 * Z.of_nat n <= 2 ^ 64 ->
  corroborate n stack stack_base va m begin midx = Ret (live_pc stack stack_base n va m begin midx).
Proof.
  intros Hw Hl. unfold live_pc. revert va. induction n as [|n IH]; intros va H0 H1; [reflexivity|]. cbn [corroborate].
  destruct (stack_word_spec va ltac:(lia)) as (s & -> & Hs). rewrite ret_bind. destruct s as [| |v].
  - rewrite IH by lia. cbn [addrs]. simpl omap. now rewrite Hs.
  - now rewrite (past_none word) by (auto; tauto).
  - rewrite dex_pc_spec, ret_bind by auto. cbn [addrs]. simpl omap. rewrite Hs. simpl omap.
    destruct (pc_of _ _ _ _); [reflexivity|]. now rewrite IH by lia.
Qed.

Lemma frame_at_none sz va : word va = None -> frame_at stack stack_base sz va = None.
Proof. unfold frame_at. now intros ->. Qed.
Lemma bare_at_none sz va : word va = None -> bare_at stack stack_base sz va = None.
Proof. unfold bare_at. now intros ->. Qed.

Lemma pc_of_range m begin midx v pc : dex_wf m -> dlen m < 2 ^ 32 -> pc_of m begin midx v = Some pc -> 0 <= pc < 2 ^ 32.
Proof.
  intros Hw Hl. unfold pc_of. destruct (_ || _) eqn:E; [discriminate|]. b2p.
  destruct (List.find _ _) as [r|] eqn:Ef; [|discriminate]. destruct (_ =? _); [|discriminate]. intros [= <-].
  apply List.find_some in Ef as [Hin Hr%in_range_spec]. pose proof (dw_rng _ Hw) as HR. rewrite List.Forall_forall in HR.
  destruct (HR _ Hin) as [_ Hx]. specialize (Hx Hl). split; [apply Z.div_pos; lia|]. apply Z.div_lt_upper_bound; lia.
Qed.

Lemma live_pc_range m begin midx n va pc : dex_wf m -> dlen m < 2 ^ 32 ->
  live_pc stack stack_base n va m begin midx = Some pc -> 0 <= pc < 2 ^ 32.
Proof.
  intros Hw Hl H. unfold live_pc in H. apply head_Some_elem_of in H. apply list_elem_of_omap in H as (v & _ & Hv).
  eapply pc_of_range; eauto.
Qed.

Lemma name_of_short m midx sz nm : dex_wf m -> 0 <= midx -> 0 < sz -> name_of m midx sz = Some nm -> zlen nm < sz.
Proof.
  intros Hw Hi Hz. unfold name_of. pose proof (method_idx_to_name_spec m midx sz Hw Hi Hz) as H.
  destruct (method_idx_to_name m midx sz); try discriminate. intros ->. apply H.
Qed.

(** The slot of 256 bytes holds the frame. *)
Lemma frame_whole m midx nm pc : dex_wf m -> 0 <= midx -> name_of m midx 240 = Some nm -> 0 <= pc < 2 ^ 32 ->
  snprintf_s 256 (with_pc nm pc) = with_pc nm pc.
Proof.
  intros Hw Hi Hn Hp. apply snprintf_whole. unfold with_pc. rewrite !zlen_app. pose proof (hexs_short pc Hp).
  pose proof (name_of_short m midx 240 nm Hw Hi ltac:(lia) Hn). change (zlen (bytes_of "+")) with 1. lia.
Qed.

Notation frames n va := (omap (frame_at stack stack_base 240) (addrs n va)).

Lemma chain_scan_spec max n va last acc g : coherent g -> (length acc <= max)%nat -> 0 <= va -> va + 8 * Z.of_nat n + 512 <= 2 ^ 64 ->
  exists g', chain_scan rd alloc_ok qsort n o stack stack_base va last max acc g =
      Ret (take max (acc ++ distinct_frames last (frames n va)), g') /\ coherent g'.
Proof.
  revert va last acc g. induction n as [|n IH]; intros va last acc g Hg Ha H0 H1.
  { exists g. cbn. now rewrite app_nil_r, take_ge by exact Ha. }
  cbn [chain_scan addrs]. destruct (Nat.leb_spec max (length acc)) as [Hm|Hm].
  { exists g. rewrite take_app_le, take_ge by lia. auto. }
  cbv zeta. destruct (stack_word_spec va ltac:(lia)) as (s & -> & Hs). rewrite ret_bind. simpl omap. destruct s as [| |cand].
  - rewrite frame_at_none by exact Hs. apply IH; auto; lia.
  - exists g. rewrite frame_at_none, past_none by (try apply frame_at_none; unfold word_at; try (rewrite (proj2 (Z.leb_gt (_ + 8) _)), andb_false_r by lia; reflexivity); lia).
    cbn. now rewrite app_nil_r, take_ge by lia.
  - unfold frame_at at 1. rewrite Hs. destruct (cand =? last) eqn:El.
    { b2p. subst. destruct (chase last) as [[[midx begin] m]|]; [|apply IH; auto; lia].
      destruct (live_pc _ _ _ _ _ _ _); [|apply IH; auto; lia]. destruct (name_of _ _ _); [|apply IH; auto; lia].
      cbn [distinct_frames]. rewrite Z.eqb_refl. apply IH; auto; lia. }
    destruct (chase_spec cand g Hg) as (g1 & -> & Hg1). rewrite ret_bind. destruct (chase cand) as [[[midx begin] m]|] eqn:Ec; [|apply IH; auto; lia].
    destruct (chase_wf _ _ _ _ Ec) as (Hw & Hl & Hi). rewrite u64_small, corroborate_spec, ret_bind by (auto; unfold NTERP_CORROB_SLOTS; lia).
    destruct (live_pc _ _ _ _ _ _ _) as [pc|] eqn:Ep; [|apply IH; auto; lia]. apply live_pc_range in Ep; [|exact Hw|exact Hl].
    rewrite dex_name_total, ret_bind by (auto; lia). destruct (name_of _ _ _) as [nm|] eqn:En; [|apply IH; auto; lia].
    rewrite (frame_whole _ _ _ _ Hw Hi En Ep). cbn [distinct_frames]. rewrite El.
    destruct (IH (va + 8) cand (acc ++ [with_pc nm pc]) g1) as (g2 & E2 & Hg2); [auto|rewrite length_app; cbn; lia|lia|lia|].
    exists g2. rewrite E2, <- app_assoc. auto.
Qed.

(** The first frame, or else the first name that no bytecode address stands by. *)
Definition pick_of (n : nat) (va outsz : Z) (fallback : option (list byte)) : option (list byte) :=
  match head (omap (frame_at stack stack_base 256) (addrs n va)) with
  | Some (_, nm) => Some (snprintf_s outsz nm)
  | None =>
      match fallback, head (omap (bare_at stack stack_base 256) (addrs n va)) with
      | Some f, _ | None, Some f => Some (snprintf_s outsz (f ++ bytes_of "?"))
      | None, None => None
      end
  end.

Lemma pick_loop_spec n va fallback outsz g : coherent g -> 0 <= va -> va + 8 * Z.of_nat n + 512 <= 2 ^ 64 ->
  exists g', pick_loop rd alloc_ok qsort n o stack stack_base va fallback outsz g = Ret (pick_of n va outsz fallback, g') /\ coherent g'.
Proof.
  unfold pick_of. revert va fallback g. induction n as [|n IH]; intros va fallback g Hg H0 H1.
  { exists g. cbn. destruct fallback; auto. }
  cbn [pick_loop addrs]. cbv zeta. destruct (stack_word_spec va ltac:(lia)) as (s & -> & Hs). rewrite ret_bind. simpl omap. destruct s as [| |cand].
  - rewrite frame_at_none, bare_at_none by exact Hs. apply IH; auto; lia.
  - assert (Hn : word va = None) by (unfold word_at; rewrite (proj2 (Z.leb_gt (_ + 8) _)), andb_false_r by lia; reflexivity).
    exists g. rewrite frame_at_none, bare_at_none, !past_none by (auto using frame_at_none, bare_at_none; lia). cbn. destruct fallback; auto.
  - unfold frame_at at 1, bare_at at 1. rewrite Hs. destruct (chase_spec cand g Hg) as (g1 & -> & Hg1). rewrite ret_bind.
    destruct (chase cand) as [[[midx begin] m]|] eqn:Ec; [|apply IH; auto; lia].
    destruct (chase_wf _ _ _ _ Ec) as (Hw & Hl & Hi). rewrite u64_small, corroborate_spec, ret_bind by (auto; unfold NTERP_CORROB_SLOTS; lia).
    assert (HN := dex_name_total m midx 256 Hw Hi ltac:(lia)).
    destruct (live_pc _ _ _ _ _ _ _) as [pc|].
    + rewrite HN, ret_bind. destruct (name_of _ _ _) as [nm|]; [exists g1; auto|]. apply IH; auto; lia.
    + destruct fallback as [f|].
      * rewrite ret_bind. destruct (IH (va + 8) (Some f) g1) as (g2 & E2 & Hg2); [auto|lia|lia|]. exists g2. rewrite E2. split; [|exact Hg2].
        destruct (name_of _ _ _); [cbn [head]|]; reflexivity.
      * rewrite HN, ret_bind. destruct (IH (va + 8) (name_of m midx 256) g1) as (g2 & E2 & Hg2); [auto|lia|lia|]. exists g2. rewrite E2. split; [|exact Hg2].
        destruct (name_of _ _ _); [cbn [head]|]; reflexivity.
Qed.

(** ** The managed stack *)

Lemma shadow_name_spec sf g : coherent g -> exists g', shadow_name rd alloc_ok qsort o sf g = Ret (shadow_text sf, g') /\ coherent g'.
Proof.
  intros Hg. unfold shadow_name, shadow_text. destruct (rd_u64 rd (sf + sf_method o)) as [method|]; [|eauto].
  destruct (chase_spec (ART_PTR_UNTAG method) g Hg) as (g1 & -> & Hg1). rewrite ret_bind.
  destruct (chase _) as [[[midx begin] m]|] eqn:Ec; [|eauto]. destruct (chase_wf _ _ _ _ Ec) as (Hw & Hl & Hi).
  rewrite dex_name_total, ret_bind by (auto; lia). destruct (name_of m midx 240) as [[|c nm]|] eqn:En; [eauto| |eauto].
  pose proof (name_of_short m midx 240 _ Hw Hi ltac:(lia) En). exists g1. split; [|exact Hg1].
  destruct (rd_u64 rd (sf + sf_dex_pc_ptr o)) as [dpp|].
  - rewrite dex_pc_spec, ret_bind by auto. destruct (pc_of _ _ _ _) as [pc|] eqn:Ep.
    + now rewrite (frame_whole _ _ _ _ Hw Hi En (pc_of_range _ _ _ _ _ Hw Hl Ep)).
    + now rewrite snprintf_whole by lia.
  - rewrite ret_bind, snprintf_whole by lia. reflexivity.
Qed.

Lemma take_full {A} n (l k : list A) : (n <= length l)%nat -> (length l <= n)%nat -> take n (l ++ k) = l.
Proof. intros H1 H2. rewrite take_app_le, take_ge by lia. reflexivity. Qed.

Lemma shadow_frames_spec max l n sf acc g : coherent g -> (length acc <= max)%nat -> (length l <= n)%nat ->
  linked (fun p => rd_u64 rd (p + sf_link o)) sf l ->
  exists g', shadow_frames rd alloc_ok qsort n o sf max acc g = Ret (take max (acc ++ omap shadow_text l), g') /\ coherent g'.
Proof.
  revert n sf acc g. induction l as [|q l IH]; intros n sf acc g Hg Ha Hn Hl.
  { exists g. cbn in Hl. subst sf. rewrite app_nil_r, take_ge by exact Ha. destruct n; auto. }
  destruct Hl as (-> & Hq & r & Hr & Hne & Hl). destruct n as [|n]; [cbn in Hn; lia|]. cbn [shadow_frames length] in *.
  rewrite (proj2 (Z.eqb_neq q 0)) by exact Hq. cbn [orb]. destruct (Nat.leb_spec max (length acc)) as [Hm|Hm].
  { exists g. now rewrite take_full by lia. }
  destruct (shadow_name_spec q g Hg) as (g1 & -> & Hg1). rewrite ret_bind. cbv zeta. rewrite Hr, (proj2 (Z.eqb_neq _ q)) by exact Hne.
  simpl omap. destruct (shadow_text q) as [t|].
  - destruct (IH n (ART_PTR_UNTAG r) (acc ++ [t]) g1) as (g2 & E & Hg2); [auto|rewrite length_app; cbn; lia|lia|exact Hl|].
    exists g2. rewrite E, <- app_assoc. auto.
  - apply IH; auto; lia.
Qed.

Lemma shadow_segments_spec max segs n ms acc g : coherent g -> (length acc <= max)%nat -> (length segs <= n)%nat ->
  linked (fun p => rd_u64 rd (p + ms_link o)) ms (map fst segs) -> Forall segment segs ->
  exists g', shadow_segments rd alloc_ok qsort n o ms max acc g = Ret (take max (acc ++ omap shadow_text (concat (map snd segs))), g') /\ coherent g'.
Proof.
  revert n ms acc g. induction segs as [|[q fs] segs IH]; intros n ms acc g Hg Ha Hn Hl Hs.
  { exists g. cbn in Hl. subst ms. cbn [map concat]. simpl omap. rewrite app_nil_r, take_ge by exact Ha. destruct n; auto. }
  destruct Hl as (-> & Hq & r & Hr & Hne & Hl). inversion Hs as [|? ? (top & Ht & Hf & Hfn) Hs']; subst. cbn [fst snd] in *.
  destruct n as [|n]; [cbn in Hn; lia|]. cbn [shadow_segments length map concat] in *.
  rewrite (proj2 (Z.eqb_neq q 0)) by exact Hq. cbn [orb]. destruct (Nat.leb_spec max (length acc)) as [Hm|Hm].
  { exists g. now rewrite take_full by lia. }
  rewrite Ht. destruct (shadow_frames_spec max fs MAX_SF _ acc g Hg Ha Hfn Hf) as (g1 & -> & Hg1). rewrite ret_bind, Hr, (proj2 (Z.eqb_neq _ q)) by exact Hne.
  destruct (IH n (ART_PTR_UNTAG r) (take max (acc ++ omap shadow_text fs)) g1) as (g2 & -> & Hg2); [auto|rewrite length_take; lia|lia|exact Hl|exact Hs'|].
  exists g2. split; [|exact Hg2]. f_equal. f_equal. rewrite omap_app, app_assoc. cbn [snd]. generalize (acc ++ omap shadow_text fs) as l. intros l.
  generalize (omap shadow_text (concat (map snd segs))) as k. intros k.
  destruct (Nat.le_gt_cases max (length l)) as [Hx|Hx]; [|now rewrite (take_ge l) by lia].
  rewrite !take_app_le by (rewrite ?length_take; lia). rewrite take_take. f_equal. lia.
Qed.
End Spec.


(** A target with one method of the DEX file of [demo_dex], its frame on the stack and
    two shadow frames of it. *)
Definition demo_offs : art_offsets := mk_offs 0x38 0xA8 0x08 0x10 0x00 0x08 0x18 0x00 0x08 0x10 0x10 0x08 0x20.
Definition demo_reads : list (Z * list byte) :=
  [(0x1000, le_bytes 4 0x2000); (0x1008, le_bytes 4 0); (0x2010, le_bytes 4 0x3000);
   (0x3010, le_bytes 8 0xb400000000004000); (0x4008, le_bytes 8 0x10000); (0x4020, le_bytes 8 206); (0x10000, demo_dex);
   (0x9038, le_bytes 8 0x8000); (0x80b0, le_bytes 8 0); (0x80b8, le_bytes 8 0x6000);
   (0x6000, le_bytes 8 0x6100); (0x6008, le_bytes 8 0x1000); (0x6018, le_bytes 8 0x100c0);
   (0x6100, le_bytes 8 0); (0x6108, le_bytes 8 0x1000); (0x6118, le_bytes 8 0)].
Definition demo_rd (va n : Z) : option (list byte) :=
  match List.find (fun e => (fst e =? va) && (zlen (snd e) =? n)) demo_reads with Some e => Some (snd e) | None => None end.
Definition demo_frames : list byte := le_bytes 8 7 ++ le_bytes 8 0x1000 ++ le_bytes 8 0x1000 ++ le_bytes 8 0x100c2 ++ le_bytes 8 0.

Lemma demo_rd_spec va n b : demo_rd va n = Some b -> zlen b = n /\ In b (map snd demo_reads).
Proof.
  unfold demo_rd. destruct (List.find _ _) as [e|] eqn:E; [|discriminate]. intros [= <-].
  apply List.find_some in E as [Hin He]. b2p. split; [assumption|now apply in_map].
Qed.

Lemma demo_u64 va v : rd_u64 demo_rd va = Some v -> In v (map (fun e => le_at 8 (snd e) 0) demo_reads).
Proof.
  unfold rd_u64. destruct (demo_rd _ _) as [b|] eqn:E; [|discriminate]. intros [= <-].
  apply demo_rd_spec in E as [_ (e & <- & Hin)%in_map_iff]. exact (in_map (fun e => le_at 8 (snd e) 0) _ _ Hin).
Qed.

Lemma demo_size dexfile begin size : In dexfile (map (fun e => le_at 8 (snd e) 0) demo_reads) ->
  rd_u64 demo_rd (ART_PTR_UNTAG dexfile + 8) = Some begin -> rd_u64 demo_rd (ART_PTR_UNTAG dexfile + 32) = Some size ->
  0x70 <= size -> size = 206.
Proof.
  intros Hin H1 H2. revert H1 H2. repeat (destruct Hin as [<-|Hin]; [vm_compute; try discriminate; intros _ [= <-]; congruence|]). destruct Hin.
Qed.

Lemma demo_file a midx begin size : art_method_file demo_rd demo_offs a = Some (midx, begin, size) -> size = 206.
Proof.
  unfold art_method_file. destruct (_ || _); [discriminate|].
  destruct (rd_u32 demo_rd (a + artm_declclass demo_offs)) as [d|]; simpl; [|discriminate]. destruct (d =? 0); [discriminate|].
  destruct (rd_u32 demo_rd (a + _)); simpl; [|discriminate]. destruct (rd_u32 demo_rd (d + _)) as [c|]; simpl; [|discriminate]. destruct (c =? 0); [discriminate|].
  destruct (rd_u64 demo_rd (c + _)) as [f|] eqn:Ef; simpl; [|discriminate]. destruct (f =? 0); [discriminate|]. apply demo_u64 in Ef.
  destruct (rd_u64 demo_rd (_ + 8)) as [b|] eqn:E1; simpl; [|discriminate]. destruct (b =? 0); [discriminate|].
  destruct (rd_u64 demo_rd (_ + 32)) as [s|] eqn:E2; simpl; [|discriminate]. destruct (_ || _) eqn:E3; [discriminate|]. b2p.
  intros [= _ _ <-]. eapply demo_size; eauto.
Qed.

Lemma demo_target : target_ok demo_rd sort_ranges demo_offs.
Proof.
  constructor; [intros va n b H; apply (demo_rd_spec _ _ _ H)|exact sort_ranges_perm|].
  intros a b m m' bg s s' H1 H2. now rewrite (demo_file _ _ _ _ H1), (demo_file _ _ _ _ H2).
Qed.


(** A second process with another DEX file, of a class [a.B] with a method [n], at the
    same address. *)
Definition other_dex : list byte := take 197 demo_dex ++ [x6e] ++ drop 198 demo_dex.
Definition other_rd (va n : Z) : option (list byte) :=
  if (va =? 0x10000) && (n =? 206) then Some other_dex else demo_rd va n.

(** The cache of parsed images is keyed by the address of the image alone: once a
    method of the first process was named, the method of the second one is reported
    under the first one's name. *)
Lemma image_cache_crosses_processes :
  exists g,
    shadow_frame_pick demo_rd (fun _ => true) sort_ranges demo_offs 0x9000 1 [] = Ret ([bytes_of "a.B.m+0x0"], g) /\
    shadow_frame_pick other_rd (fun _ => true) sort_ranges demo_offs 0x9000 1 [] = Ret ([bytes_of "a.B.n+0x0"], [(0x10000, mk_dex other_dex 206 112 2 120 1 124 1 [mk_range 192 196 0])]) /\
    shadow_frame_pick other_rd (fun _ => true) sort_ranges demo_offs 0x9000 1 g = Ret ([bytes_of "a.B.m+0x0"], g).
Proof. exists [(0x10000, demo_map)]. vm_compute. auto. Qed.

(** Without a bytecode address beside it, the method's name is written with a question
    mark. *)
Lemma unconfirmed_name_is_marked :
  nterp_pick demo_rd (fun _ => true) sort_ranges demo_offs (le_bytes 8 0x1000) 0x7000 0x7000 64 [] =
    Ret (Some (bytes_of "a.B.m?"), [(0x10000, demo_map)]).
Proof. vm_compute. reflexivity. Qed.
