(* ===== verification/Dump.v ===== *)
(** * Dump: the dump engine (src/dump/dump.c, src/dump/dump_args.c)

    Argument rules, the record of processes and of modules already dumped, the handler
    of library-map events and the run phase with its three triggers; the path resolver
    of src/common/lib_trace.c with its cache; [dump_one_at], [dump_write_cb] and the
    walks of src/dump/rebuild.c.  What the kernel shows at a point of the run (the maps
    of a process, whether its memory opens) comes with the event, respectively is an
    argument of the run; [dump_out pid base] is the outcome of rebuilding one module
    (return code and covered end), the subject of Image. *)

From Stdlib Require Import ZArith Lia.
From stdpp Require Import base list option numbers.
From S2P Require Import Prelude Elf Modules Emit Decode ProbeSpec.

Local Open Scope Z_scope.

(** ** Arguments *)

Record dump_trigger := mk_trig { t_now : bool; t_check : bool; t_on_map : bool; t_has_pkg : bool; t_ntgt : Z; t_npat : Z; t_nbase : Z }.

(** [None] when the combination is valid, else the message. *)
Definition dump_args_check (t : dump_trigger) : option (list byte) :=
  if (t_ntgt t >? 0) && t_has_pkg t then Some (bytes_of "specify exactly one of -p or -P")
  else if (t_ntgt t =? 0) && negb (t_has_pkg t) then Some (bytes_of "specify -P PACKAGE or -p PID[,PID...]")
  else if (t_npat t =? 0) && (t_nbase t =? 0) then Some (bytes_of "at least one library pattern (-l) or --base ADDR is required")
  else if t_now t && t_has_pkg t then Some (bytes_of "--now requires -p PID (with -P the app has not launched yet)")
  else if t_now t && t_on_map t then Some (bytes_of "--now and --on-map are mutually exclusive triggers")
  else if negb (t_nbase t =? 0) && negb (t_now t) then Some (bytes_of "--base requires --now")
  else if t_check t && negb (t_now t) then Some (bytes_of "--check requires --now")
  else None.

(** The digits of a number and what follows them. *)
Fixpoint read_number (base acc : Z) (s : list byte) : Z * list byte :=
  match s with
  | [] => (acc, [])
  | c :: r => if digit_val c <? base then read_number base (acc * base + digit_val c) r else (acc, s)
  end.
(** [strtoull(s, &end, 0)] of a text that starts with a digit: the value, not yet
    bounded, and the text at [end]. *)
Definition strtoull0 (s : list byte) : Z * list byte :=
  match s with
  | x30 :: x78 :: c :: r | x30 :: x58 :: c :: r =>
      if digit_val c <? 16 then read_number 16 0 (c :: r) else (0, drop 1 s)
  | x30 :: r => read_number 8 0 r
  | _ => read_number 10 0 s
  end.
Definition dump_parse_base (arg : list byte) : option Z :=
  match arg with
  | [] => None
  | c :: _ =>
      if negb ((0x30 <=? bz c) && (bz c <=? 0x39)) then None else
      let '(v, rest) := strtoull0 arg in
      match rest with
      | _ :: _ => None
      | [] => if v >? ULONG_MAX then None else Some v
      end
  end.

(** The patterns at the end of the command line: those of -l, the positional one, and
    when there are none the library specifications of the spec file. *)
Definition dump_patterns (l : list (list byte)) (pos : option (list byte)) (specs : list custom_probe_spec_t) : list (list byte) :=
  let ps := take 64 l in
  let ps := match pos with Some p => if zlen ps <? 64 then ps ++ [p] else ps | None => ps end in
  match ps with [] => take 64 (map sp_mod (List.filter (fun s => bool_decide (sp_kind s = SPEC_KIND_LIB)) specs)) | _ => ps end.
(** The specifications of other engines, named in a warning. *)
Definition ignored_specs (specs : list custom_probe_spec_t) : list custom_probe_spec_t :=
  List.filter (fun s => negb (bool_decide (sp_kind s = SPEC_KIND_LIB))) specs.

(** ** Paths of mapped libraries (lib_trace.c) *)

Definition path_cache := list (Z * list (list byte * list byte)).
Definition PATH_CACHE_PIDS := 16.
Definition PATH_CACHE_NAMES := 256.

Definition find_path_in_maps (maps : option (list anubee_map_line)) (addr outsz : Z) : option (list byte) :=
  match maps with
  | None => None
  | Some m => option_map (fun l => snprintf_s outsz (path l)) (List.find (fun l => start l =? addr) m)
  end.

Definition path_cache_find_pid (pid : Z) (c : path_cache) : option (list (list byte * list byte)) :=
  option_map snd (List.find (fun e => fst e =? pid) c).

(** One name of one process: replaced, appended, or dropped when the table is full. *)
Fixpoint put_name (bn full : list byte) (room : bool) (l : list (list byte * list byte)) : list (list byte * list byte) :=
  match l with
  | [] => if room then [(take 127 bn, take 255 full)] else []
  | e :: l => if bool_decide (fst e = bn) then (fst e, take 255 full) :: l else e :: put_name bn full room l
  end.
Definition path_cache_put (pid : Z) (bn full : list byte) (c : path_cache) : path_cache :=
  let put l := put_name bn full (zlen l <? PATH_CACHE_NAMES) l in
  match path_cache_find_pid pid c with
  | Some _ => map (fun e => if fst e =? pid then (fst e, put (snd e)) else e) c
  | None => if zlen c >=? PATH_CACHE_PIDS then c else c ++ [(pid, put [])]
  end.
Definition path_cache_lookup (pid : Z) (bn : list byte) (outsz : Z) (c : path_cache) : option (list byte) :=
  match path_cache_find_pid pid c with
  | None => None
  | Some l => option_map (fun e => snprintf_s outsz (snd e)) (List.find (fun e => bool_decide (fst e = bn)) l)
  end.

Definition anubee_libtrace_resolve_path (maps : option (list anubee_map_line)) (pid addr : Z) (name : list byte) (outsz : Z) (c : path_cache)
  : option (list byte) * path_cache :=
  match find_path_in_maps maps addr outsz with
  | Some p => (Some p, path_cache_put pid (basename_of p) p c)
  | None => (match name with [] => None | _ => path_cache_lookup pid name outsz c end, c)
  end.

(** ** The engine *)

(** A record of the ring buffer: its size and type, and the map event it holds when it
    is one, with the maps of the process as the resolver and then the dump find them,
    and whether its memory file opens. *)
Record lib_map_event := mk_lib {
  le_pid : Z; le_start : Z; le_name : list byte; le_maps : option (list anubee_map_line); le_dump_maps : option (list anubee_map_line); le_mem : bool }.
Record ring_record := mk_ring { rr_size : Z; rr_type : Z; rr_map : lib_map_event }.
Definition LIB_EV_MAP := 2.
Definition sizeof_lib_event_header := 16.
Definition sizeof_lib_map_event := 192.

(** What is done with a module: rebuilt into a file under a name, or compared. *)
Inductive action := Write (pid base : Z) (name : list byte) | Compare (pid base : Z) (path : list byte).

Record dump_state := mk_ds {
  g_pids : list Z; g_pids_cap : Z; g_seen : list (Z * Z); g_seen_cap : Z; g_pat_hit : list bool; g_paths : path_cache; g_done : list action }.
Definition dump_state0 : dump_state := mk_ds [] 0 [] 0 (repeat false 64) [] [].

(** The module a mapping address belongs to: the base that is rebuilt. *)
Definition dump_one_at (maps : option (list anubee_map_line)) (memfd : bool) (addr : Z) : res (option Z) :=
  match maps with
  | None => Ret None
  | Some m =>
      match list_find (fun l => start l <= addr < end_ l) m with
      | None => Ret None
      | Some (hit, _) => base ← load_base_of m hit; Ret (if memfd then Some base else None)
      end
  end.

Section Engine.
Context (fnmatch : list byte -> list byte -> bool) (alloc_ok : Z -> bool) (dump_out : Z -> Z -> Z * Z).

(** Growth of an array of [n] elements of capacity [cap]: the capacity, when there is
    room for one more. *)
Definition room (n cap size : Z) : option Z :=
  if n =? cap then
    let nc := if cap =? 0 then 16 else cap * 2 in
    if alloc_ok (nc * size) then Some nc else None
  else Some cap.

Definition note_pid (pid : Z) (s : dump_state) : dump_state :=
  if bool_decide (pid ∈ g_pids s) then s else
  match room (zlen (g_pids s)) (g_pids_cap s) 4 with
  | None => s
  | Some cap => mk_ds (g_pids s ++ [pid]) cap (g_seen s) (g_seen_cap s) (g_pat_hit s) (g_paths s) (g_done s)
  end.
Definition seen_add (pid addr : Z) (s : dump_state) : bool * dump_state :=
  if bool_decide ((pid, addr) ∈ g_seen s) then (false, s) else
  match room (zlen (g_seen s)) (g_seen_cap s) 16 with
  | None => (false, s)
  | Some cap => (true, mk_ds (g_pids s) (g_pids_cap s) (g_seen s ++ [(pid, addr)]) cap (g_pat_hit s) (g_paths s) (g_done s))
  end.

Definition handle_event (on_map : bool) (patterns : list (list byte)) (r : ring_record) (s : dump_state) : res dump_state :=
  if rr_size r <? sizeof_lib_event_header then Ret s else
  if negb (rr_type r =? LIB_EV_MAP) then Ret s else
  if rr_size r <? sizeof_lib_map_event then Ret s else
  let e := rr_map r in
  if negb on_map then Ret (note_pid (le_pid e) s) else
  let '(p, paths) := anubee_libtrace_resolve_path (le_maps e) (le_pid e) (le_start e) (le_name e) 256 (g_paths s) in
  let full := default (le_name e) p in
  let '(hit, hits) := dump_name_matches_any_track fnmatch patterns full (g_pat_hit s) in
  let s := mk_ds (g_pids s) (g_pids_cap s) (g_seen s) (g_seen_cap s) hits paths (g_done s) in
  if negb hit then Ret s else
  let '(fresh, s) := seen_add (le_pid e) (le_start e) s in
  if negb fresh then Ret s else
  base ← dump_one_at (le_dump_maps e) (le_mem e) (le_start e);
  Ret (mk_ds (g_pids s) (g_pids_cap s) (g_seen s) (g_seen_cap s) (g_pat_hit s) (g_paths s)
    (g_done s ++ match base with Some b => [Write (le_pid e) b full] | None => [] end)).

Fixpoint handle_events (on_map : bool) (patterns : list (list byte)) (l : list ring_record) (s : dump_state) : res dump_state :=
  match l with
  | [] => Ret s
  | r :: l => s ← handle_event on_map patterns r s; handle_events on_map patterns l s
  end.

(** ** The run *)

Definition dump_write_cb (pid base : Z) (path : list byte) (file_off : Z) (c : list action) : Z * Z * list action :=
  let '(rc, fin) := dump_out pid base in (rc, fin, c ++ [Write pid base path]).
Definition check_cb (pid base : Z) (path : list byte) (file_off : Z) (c : list action) : Z * Z * list action :=
  (0, 0, c ++ [Compare pid base path]).

(** The walk over the modules of each process, and the count of the handled ones. *)
Fixpoint walk_pids (check : bool) (maps : Z -> option (list anubee_map_line)) (mem : Z -> bool) (sel : dump_sel) (pids : list Z)
    (hits : list bool) (done : list action) (total : Z) : res (list bool * list action * Z) :=
  match pids with
  | [] => Ret (hits, done, total)
  | pid :: pids =>
      '(r, w) ← dump_walk_pid_modules fnmatch (if check then check_cb pid else dump_write_cb pid) (maps pid) (mem pid) sel hits done;
      walk_pids check maps mem sel pids (whit w) (ctx w) (if r >? 0 then total + r else total)
  end.

Record dump_config := mk_cfg { c_now : bool; c_check : bool; c_on_map : bool; c_pats : list (list byte); c_bases : list Z; c_tgts : list Z }.

Definition dump_run (cfg : dump_config) (maps : Z -> option (list anubee_map_line)) (mem : Z -> bool) (s : dump_state) : res (dump_state * Z) :=
  let finish := fun '(hits, done, total) => Ret (mk_ds (g_pids s) (g_pids_cap s) (g_seen s) (g_seen_cap s) hits (g_paths s) done, total) in
  if c_now cfg then
    r ← walk_pids (c_check cfg) maps mem (mk_sel (c_pats cfg) (c_bases cfg)) (take 64 (c_tgts cfg)) (g_pat_hit s) (g_done s) 0;
    finish r
  else if c_on_map cfg then Ret (s, 0)
  else
    r ← walk_pids false maps mem (mk_sel (c_pats cfg) []) (g_pids s) (g_pat_hit s) (g_done s) 0;
    finish r.

(** The patterns the final report names. *)
Definition never_matched (patterns : list (list byte)) (hits : list bool) : list (list byte) :=
  map fst (List.filter (fun x => negb (snd x)) (take 64 (zip patterns hits))).

(** The end of a run: the tables are released. *)
Definition dump_teardown (s : dump_state) : dump_state :=
  mk_ds [] 0 [] 0 (g_pat_hit s) (g_paths s) (g_done s).

(** A run: under --now no event is received. *)
Definition dump_session (cfg : dump_config) (events : list ring_record) (maps : Z -> option (list anubee_map_line)) (mem : Z -> bool)
  : res (dump_state * Z) :=
  s ← (if c_now cfg then Ret dump_state0 else handle_events (c_on_map cfg) (c_pats cfg) events dump_state0);
  '(s, total) ← dump_run cfg maps mem s;
  Ret (dump_teardown s, total).
End Engine.

(** ** What a run does *)

(** The map events among the records of the ring buffer. *)
Definition map_event (r : ring_record) : option lib_map_event :=
  if (sizeof_lib_map_event <=? rr_size r) && (rr_type r =? LIB_EV_MAP) then Some (rr_map r) else None.

(** Each map event with the name its library is known by. *)
Fixpoint named (c : path_cache) (l : list lib_map_event) : list (lib_map_event * list byte) :=
  match l with
  | [] => []
  | e :: l =>
      let '(p, c) := anubee_libtrace_resolve_path (le_maps e) (le_pid e) (le_start e) (le_name e) 256 c in
      (e, default (le_name e) p) :: named c l
  end.

Section Spec.
Context (fnmatch : list byte -> list byte -> bool).
Notation matches := (dump_name_matches fnmatch).

Definition any_match (patterns : list (list byte)) (name : list byte) : bool := existsb (fun p => matches p name) patterns.

(** The mapping an event is about. *)
Definition mapping (x : lib_map_event * list byte) : Z * Z := (le_pid (fst x), le_start (fst x)).
(** The module behind an address is rebuilt when its process can be read. *)
Definition map_write (x : lib_map_event * list byte) : list action :=
  match dump_one_at (le_dump_maps (fst x)) (le_mem (fst x)) (le_start (fst x)) with
  | Ret (Some b) => [Write (le_pid (fst x)) b (snd x)]
  | _ => []
  end.
Definition on_map_writes (patterns : list (list byte)) (l : list (lib_map_event * list byte)) : list action :=
  concat (map map_write (firsts_by mapping [] (List.filter (fun x => any_match patterns (snd x)) l))).

(** Patterns that match none of the names. *)
Definition unmatched (patterns names : list (list byte)) : list (list byte) :=
  List.filter (fun p => negb (existsb (fun n => matches p n) names)) patterns.

(** ** The tracker *)

Definition track (patterns : list (list byte)) (hits : list bool) (name : list byte) : list bool :=
  snd (dump_name_matches_any_track fnmatch patterns name hits).

Lemma track_fst patterns name hits : fst (dump_name_matches_any_track fnmatch patterns name hits) = any_match patterns name.
Proof. apply track_verdict. Qed.
Lemma track_length patterns name hits : length (track patterns hits name) = length hits.
Proof.
  unfold track. revert hits. induction patterns as [|p ps IH]; intros [|h hits]; try reflexivity.
  - cbn. specialize (IH []). destruct (dump_name_matches_any_track _ _ _ _). reflexivity.
  - cbn. specialize (IH hits). destruct (dump_name_matches_any_track _ _ _ _). cbn in *. congruence.
Qed.
Lemma track_cons p ps h hits name : track (p :: ps) (h :: hits) name = (matches p name || h) :: track ps hits name.
Proof. unfold track. cbn. destruct (dump_name_matches_any_track _ _ _ _). reflexivity. Qed.

Lemma fold_track_cons p ps names h hits : fold_left (track (p :: ps)) names (h :: hits) =
  (existsb (fun n => matches p n) names || h) :: fold_left (track ps) names hits.
Proof.
  revert h hits. induction names as [|n names IH]; intros h hits; [reflexivity|]. cbn [fold_left existsb]. rewrite track_cons, IH.
  f_equal. destruct (matches p n), (existsb _ names), h; reflexivity.
Qed.

Lemma never_matched_spec patterns names n : (length patterns <= n <= 64)%nat ->
  never_matched patterns (fold_left (track patterns) names (repeat false n)) = unmatched patterns names.
Proof.
  intros Hn. unfold never_matched, unmatched. rewrite take_ge by (rewrite length_zip_with; lia). destruct Hn as [Hn _]. revert n Hn.
  induction patterns as [|p ps IH]; intros n Hn; [now destruct (fold_left _ _ _)|]. destruct n as [|n]; [cbn in Hn; lia|].
  cbn [repeat]. rewrite fold_track_cons, orb_false_r. cbn [zip zip_with List.filter snd].
  destruct (existsb _ names); cbn [negb map fst]; rewrite IH by (cbn in Hn; lia); reflexivity.
Qed.
End Spec.

Lemma dump_one_at_total maps memfd addr : exists x, dump_one_at maps memfd addr = Ret x.
Proof.
  unfold dump_one_at. destruct maps as [m|]; [|eauto]. destruct (list_find _ m) as [[i l]|] eqn:E; [|eauto].
  apply list_find_Some in E as (Hi & _ & _). apply lookup_lt_Some in Hi.
  destruct (load_base_total m i Hi) as [[b ->] _]. rewrite ret_bind. eauto.
Qed.

Section EngineSpec.
Context (fnmatch : list byte -> list byte -> bool) (alloc_ok : Z -> bool) (Halloc : forall n, alloc_ok n = true).

Lemma room_ok n cap size : exists c, room alloc_ok n cap size = Some c.
Proof. unfold room. destruct (_ =? _); [|eauto]. cbv zeta. rewrite Halloc. eauto. Qed.

(** A record that is not a whole map event is ignored. *)
Lemma handle_event_cases on_map patterns r s :
  (map_event r = None /\ handle_event fnmatch alloc_ok on_map patterns r s = Ret s) \/
  (map_event r = Some (rr_map r) /\ (rr_size r <? sizeof_lib_event_header) = false /\ (rr_type r =? LIB_EV_MAP) = true /\ (rr_size r <? sizeof_lib_map_event) = false).
Proof.
  unfold handle_event, map_event. destruct (rr_size r <? sizeof_lib_event_header) eqn:E1.
  { left. b2p. unfold sizeof_lib_event_header in E1. rewrite (proj2 (Z.leb_gt _ _)) by (unfold sizeof_lib_map_event; lia). auto. }
  destruct (rr_type r =? LIB_EV_MAP); [|left; now rewrite andb_false_r]. cbn [negb].
  destruct (rr_size r <? sizeof_lib_map_event) eqn:E3; b2p.
  - left. rewrite (proj2 (Z.leb_gt _ _)) by exact E3. auto.
  - right. rewrite (proj2 (Z.leb_le _ _)) by exact E3. auto.
Qed.

Lemma handle_on_exit patterns l s :
  exists s', handle_events fnmatch alloc_ok false patterns l s = Ret s' /\
    g_pids s' = g_pids s ++ firsts_by (fun p : Z => p) (g_pids s) (map le_pid (omap map_event l)) /\ g_done s' = g_done s /\ g_pat_hit s' = g_pat_hit s.
Proof.
  revert s. induction l as [|r l IH]; intros s; cbn [handle_events]; simpl omap.
  { exists s. cbn. now rewrite app_nil_r. }
  destruct (handle_event_cases false patterns r s) as [[Hm ->]|(Hm & H1 & H2 & H3)]; rewrite Hm.
  { apply IH. }
  unfold handle_event. rewrite H1, H2, H3. cbv zeta. cbn [negb]. rewrite ret_bind. cbn [map firsts_by]. unfold note_pid.
  destruct (bool_decide_reflect (le_pid (rr_map r) ∈ g_pids s)); [apply IH|].
  destruct (room_ok (zlen (g_pids s)) (g_pids_cap s) 4) as (c & ->).
  destruct (IH (mk_ds (g_pids s ++ [le_pid (rr_map r)]) c (g_seen s) (g_seen_cap s) (g_pat_hit s) (g_paths s) (g_done s))) as (s' & E & Hp & Hd & Hh).
  exists s'. rewrite E, Hp. cbn [g_pids g_done g_pat_hit] in *. rewrite <- app_assoc. auto.
Qed.

Lemma handle_on_map patterns l s : let ns := named (g_paths s) (omap map_event l) in
  exists s', handle_events fnmatch alloc_ok true patterns l s = Ret s' /\
    g_done s' = g_done s ++ concat (map map_write (firsts_by mapping (g_seen s) (List.filter (fun x => any_match fnmatch patterns (snd x)) ns))) /\
    g_pat_hit s' = fold_left (track fnmatch patterns) (map snd ns) (g_pat_hit s).
Proof.
  revert s. induction l as [|r l IH]; intros s; cbv zeta; cbn [handle_events]; simpl omap.
  { exists s. cbn. now rewrite app_nil_r. }
  destruct (handle_event_cases true patterns r s) as [[Hm ->]|(Hm & H1 & H2 & H3)]; rewrite Hm.
  { apply IH. }
  unfold handle_event. rewrite H1, H2, H3. cbv zeta. cbn [negb]. set (e := rr_map r). cbn [named].
  destruct (anubee_libtrace_resolve_path _ _ _ _ _ _) as [p paths]. pose proof (track_fst fnmatch patterns (default (le_name e) p) (g_pat_hit s)) as Hv.
  cbn [map fold_left List.filter snd]. unfold track at 2. destruct (dump_name_matches_any_track _ _ _ _) as [hit hits]. cbn [fst snd] in *. subst hit.
  destruct (any_match _ _ _); cbn [negb]; [|exact (IH (mk_ds _ _ _ _ _ _ _))].
  unfold seen_add. cbn [g_seen g_pids g_pids_cap g_seen_cap g_pat_hit g_paths g_done firsts_by].
  change (mapping (e, default (le_name e) p)) with (le_pid e, le_start e).
  destruct (bool_decide_reflect ((le_pid e, le_start e) ∈ g_seen s)); cbn [negb]; [exact (IH (mk_ds _ _ _ _ _ _ _))|].
  destruct (room_ok (zlen (g_seen s)) (g_seen_cap s) 16) as (c & ->). cbn [negb].
  destruct (dump_one_at_total (le_dump_maps e) (le_mem e) (le_start e)) as (x & Hx). rewrite Hx, !ret_bind.
  cbn [g_seen g_pids g_pids_cap g_seen_cap g_pat_hit g_paths g_done].
  match goal with |- context [handle_events _ _ _ _ _ ?s1] => destruct (IH s1) as (s' & E & Hd & Hh) end. exists s'. rewrite E, Hd. split; [reflexivity|]. split; [|exact Hh].
  cbn [g_seen g_paths g_done map concat]. unfold map_write at 2. cbn [fst snd]. rewrite Hx, <- app_assoc. destruct x; reflexivity.
Qed.
End EngineSpec.

(** ** The walks *)

Section WalkSpec.
Context (fnmatch : list byte -> list byte -> bool) (dump_out : Z -> Z -> Z * Z).

Definition some_name (s : list byte) : bool := match s with [] => false | _ => true end.

(** The callbacks log what they do. *)
Definition log_cb (out : Z -> Z * Z) (act : Z -> list byte -> action) (base : Z) (p : list byte) (file_off : Z) (c : list action) : Z * Z * list action :=
  let '(rc, fin) := out base in (rc, fin, c ++ [act base p]).
Lemma write_cb_log pid : dump_write_cb dump_out pid = log_cb (dump_out pid) (Write pid).
Proof. reflexivity. Qed.
Lemma check_cb_log pid : check_cb pid = log_cb (fun _ => (0, 0)) (Compare pid).
Proof. reflexivity. Qed.

Context (out : Z -> Z * Z) (act : Z -> list byte -> action) (m : list anubee_map_line) (sel : dump_sel).

(** Two walks at the same point: neither the tracker nor what was logged before matters. *)
Record same_walk (pre : list action) (w0 w1 : @walk (list action)) : Prop := {
  sw_done : done_bases w1 = done_bases w0; sw_cov : cov w1 = cov w0; sw_ok : ok w1 = ok w0; sw_ctx : ctx w1 = pre ++ ctx w0 }.

(** The tracker after the entry [i]. *)
Definition hits_after (i : nat) (hits : list bool) : list bool :=
  match m !! i with
  | Some l => match path l with [] => hits | _ => snd (dump_sel_matches_seg fnmatch sel (path l) (start l) (end_ l) hits) end
  | None => hits
  end.

Lemma walk_step_same pre w0 w1 i : (i < length m)%nat -> same_walk pre w0 w1 ->
  exists w0' w1', walk_step fnmatch (log_cb out act) m sel w0 i = Ret w0' /\ walk_step fnmatch (log_cb out act) m sel w1 i = Ret w1' /\
    same_walk pre w0' w1' /\ whit w1' = hits_after i (whit w1).
Proof.
  intros Hi [H1 H2 H3 H4]. unfold walk_step, hits_after. destruct (lookup_lt_is_Some_2 m i Hi) as [l Hl]. rewrite Hl.
  destruct (path l) as [|c p] eqn:Ep; [exists w0, w1; repeat split; auto|]. rewrite <- Ep. clear Ep.
  destruct (load_base_total m i Hi) as [[b ->] [o ->]]. rewrite !ret_bind.
  pose proof (sel_verdict fnmatch sel l (whit w0)) as V0. pose proof (sel_verdict fnmatch sel l (whit w1)) as V1.
  destruct (dump_sel_matches_seg _ _ _ _ _ (whit w0)) as [v0 h0], (dump_sel_matches_seg _ _ _ _ _ (whit w1)) as [v1 h1]. cbn [fst snd] in *. subst v0 v1.
  destruct (selected _ _ _); cbn [negb]; [|eexists _, _; repeat split; auto].
  assert (Hs : walk_skip w1 b = walk_skip w0 b) by (unfold walk_skip; now rewrite H1, H2). rewrite Hs.
  destruct (walk_skip w0 b); [eexists _, _; repeat split; auto|]. unfold log_cb. destruct (out b) as [rc fin]. rewrite H1, H2, H3, H4.
  destruct (rc =? 0); eexists _, _; repeat split; cbn; auto using app_assoc.
Qed.

Lemma walk_from_same pre n i w0 w1 : (i + n <= length m)%nat -> same_walk pre w0 w1 ->
  exists w0' w1', walk_from fnmatch (log_cb out act) m sel n i w0 = Ret w0' /\ walk_from fnmatch (log_cb out act) m sel n i w1 = Ret w1' /\
    same_walk pre w0' w1' /\ whit w1' = fold_left (fun h k => hits_after k h) (seq i n) (whit w1).
Proof.
  revert i w0 w1. induction n as [|n IH]; intros i w0 w1 Hi Hs; [exists w0, w1; auto|]. cbn [walk_from seq fold_left].
  destruct (walk_step_same pre w0 w1 i ltac:(lia) Hs) as (a & b & -> & -> & Hab & <-). rewrite !ret_bind. apply IH; [lia|exact Hab].
Qed.

(** With patterns alone the tracker sees the name of every mapping. *)
Lemma hits_track n i hits : bases sel = [] -> (i + n <= length m)%nat ->
  fold_left (fun h k => hits_after k h) (seq i n) hits =
  fold_left (track fnmatch (pats sel)) (List.filter some_name (map path (take n (drop i m)))) hits.
Proof.
  intros Hb. revert i hits. induction n as [|n IH]; intros i hits Hi; [reflexivity|]. cbn [seq fold_left]. rewrite IH by lia.
  destruct (lookup_lt_is_Some_2 m i ltac:(lia)) as [l Hl]. rewrite (drop_S _ _ _ Hl). cbn [take map List.filter]. unfold hits_after. rewrite Hl.
  destruct (path l) as [|c p] eqn:Ep; [reflexivity|]. cbn [some_name fold_left]. f_equal.
  unfold dump_sel_matches_seg, track. rewrite Hb. cbn [existsb]. destruct (pats sel) as [|q qs]; [reflexivity|].
  rewrite (proj2 (Z.ltb_lt _ _)) by (unfold zlen; cbn; lia). reflexivity.
Qed.
End WalkSpec.

Section RunSpec.
Context (fnmatch : list byte -> list byte -> bool) (dump_out : Z -> Z -> Z * Z).
Context (maps : Z -> option (list anubee_map_line)) (mem : Z -> bool).

(** What a walk over one process does, on its own. *)
Definition modules_of (check : bool) (sel : dump_sel) (pid : Z) : list action :=
  match dump_walk_pid_modules fnmatch (if check then check_cb pid else dump_write_cb dump_out pid) (maps pid) (mem pid) sel [] [] with
  | Ret (_, w) => ctx w
  | _ => []
  end.
(** The names a walk over one process compares with the patterns. *)
Definition names_of (pid : Z) : list (list byte) :=
  match maps pid with Some m => if mem pid then List.filter some_name (map path m) else [] | None => [] end.

Lemma walk_pid_spec (check : bool) (sel : dump_sel) (pid : Z) hits done :
  exists r w, dump_walk_pid_modules fnmatch (if check then check_cb pid else dump_write_cb dump_out pid) (maps pid) (mem pid) sel hits done = Ret (r, w) /\
    ctx w = done ++ modules_of check sel pid /\ (bases sel = [] -> whit w = fold_left (track fnmatch (pats sel)) (names_of pid) hits).
Proof.
  unfold modules_of, names_of, dump_walk_pid_modules. destruct (maps pid) as [m|]; [|eexists _, _; rewrite app_nil_r; auto].
  destruct (mem pid); cbn [negb]; [|eexists _, _; rewrite app_nil_r; auto].
  assert (H : exists out act, (if check then check_cb pid else dump_write_cb dump_out pid) = log_cb out act)
    by (destruct check; eexists _, _; [apply check_cb_log|apply write_cb_log]).
  destruct H as (out & act & ->).
  destruct (walk_from_same fnmatch out act m sel done (length m) 0 (mk_walk [] [] 0 [] []) (mk_walk [] [] 0 hits done)) as (a & b & -> & -> & [_ _ _ Hc] & Hh);
    [lia|constructor; cbn; auto using app_nil_r|]. rewrite !ret_bind.
  eexists _, _. split; [reflexivity|]. split; [exact Hc|]. intros Hb. rewrite Hh. cbn [whit].
  rewrite hits_track, drop_0, take_ge by (auto; lia). reflexivity.
Qed.

Lemma walk_pids_spec check sel pids hits done total :
  exists hits' total', walk_pids fnmatch dump_out check maps mem sel pids hits done total = Ret (hits', done ++ concat (map (modules_of check sel) pids), total') /\
    (bases sel = [] -> hits' = fold_left (track fnmatch (pats sel)) (concat (map names_of pids)) hits).
Proof.
  revert hits done total. induction pids as [|pid pids IH]; intros hits done total; cbn [walk_pids map concat].
  { eexists _, _. rewrite app_nil_r. auto. }
  destruct (walk_pid_spec check sel pid hits done) as (r & w & -> & Hc & Hh). rewrite ret_bind.
  destruct (IH (whit w) (ctx w) (if r >? 0 then total + r else total)) as (h & t & -> & Hh'). eexists _, _. rewrite Hc, <- app_assoc. split; [reflexivity|].
  intros Hb. rewrite Hh', Hh, fold_left_app by exact Hb. reflexivity.
Qed.
End RunSpec.

(** ** Names *)

(** A cached path belongs to the name it is stored under. *)
Definition own_name (x : list byte * list byte) : Prop := fst x = take 127 (basename_of (snd x)) /\ zlen (snd x) <= 255.
Definition cache_ok (c : path_cache) : Prop := Forall (fun e => Forall own_name (snd e)) c.

Lemma put_name_ok full rm l : zlen full <= 255 -> Forall own_name l -> Forall own_name (put_name (basename_of full) full rm l).
Proof.
  intros Hf. assert (E : take 255 full = full) by (apply take_ge; unfold zlen in Hf; lia).
  induction l as [|e l IH]; intros Hl; cbn [put_name]; rewrite ?E.
  { destruct rm; constructor; [split; [reflexivity|exact Hf]|constructor]. }
  inversion Hl as [|? ? He Hl']; subst. destruct (bool_decide_reflect (fst e = basename_of full)) as [Hb|Hb]; constructor; auto.
  destruct He as [He _]. split; [|exact Hf]. cbn [fst snd]. rewrite Hb. symmetry. apply take_ge. rewrite <- Hb, He, length_take. lia.
Qed.

Lemma cache_put_ok pid full c : zlen full <= 255 -> cache_ok c -> cache_ok (path_cache_put pid (basename_of full) full c).
Proof.
  intros Hf Hc. unfold path_cache_put. destruct (path_cache_find_pid pid c).
  - apply Forall_map. eapply list.Forall_impl; [exact Hc|]. intros [q ns] Hl. cbn [fst snd compose]. destruct (q =? pid); cbn [snd] in *; auto using put_name_ok.
  - destruct (_ >=? _); [exact Hc|]. apply Forall_app. split; [exact Hc|]. constructor; [|constructor]. cbn [snd]. now apply put_name_ok.
Qed.

Lemma find_forall {A} (P : A -> Prop) f l x : Forall P l -> List.find f l = Some x -> P x /\ f x = true.
Proof. rewrite List.Forall_forall. intros H E. apply List.find_some in E as [Hin Hf]. auto. Qed.

(** The name of an event: the path of the mapping it reports, or else a path of the
    same process with the reported base name, or else that base name. *)
Definition named_ok (x : lib_map_event * list byte) : Prop :=
  let e := fst x in
  (exists m l, le_maps e = Some m /\ In l m /\ start l = le_start e /\ snd x = take 255 (path l)) \/
  take 127 (basename_of (snd x)) = le_name e \/ snd x = le_name e.

Lemma resolve_ok e c p c' : cache_ok c -> anubee_libtrace_resolve_path (le_maps e) (le_pid e) (le_start e) (le_name e) 256 c = (p, c') ->
  cache_ok c' /\ named_ok (e, default (le_name e) p).
Proof.
  intros Hc. unfold anubee_libtrace_resolve_path, find_path_in_maps, named_ok. cbn [fst snd].
  assert (Hlook : forall c', (match le_name e with [] => None | _ => path_cache_lookup (le_pid e) (le_name e) 256 c end, c) = (p, c') ->
    cache_ok c' /\ (take 127 (basename_of (default (le_name e) p)) = le_name e \/ default (le_name e) p = le_name e)).
  { intros c0 [= <- <-]. split; [exact Hc|]. destruct (le_name e) as [|b bs] eqn:En; [auto|]. rewrite <- En. unfold path_cache_lookup, path_cache_find_pid.
    destruct (List.find _ c) as [[q l]|] eqn:E; [|auto]. apply (find_forall _ _ _ _ Hc) in E as [Hl _]. cbn [option_map snd] in *.
    destruct (List.find _ l) as [[n f]|] eqn:E2; [|auto]. apply (find_forall _ _ _ _ Hl) in E2 as [Ho Hn]. cbn [option_map default snd fst] in *.
    apply bool_decide_eq_true in Hn. destruct Ho as [Ho Hs]. cbn [fst snd] in *. left. rewrite snprintf_whole by lia.
    cbn [id]. congruence. }
  destruct (le_maps e) as [m|]; [|intros H; destruct (Hlook _ H); auto].
  destruct (List.find _ m) as [l|] eqn:E; cbn [option_map]; [|intros H; destruct (Hlook _ H); auto].
  apply List.find_some in E as [Hin Hs]. b2p. intros [= <- <-]. split; [|left; exists m, l; auto].
  apply cache_put_ok; [|exact Hc]. unfold snprintf_s, zlen. rewrite length_take. lia.
Qed.

Lemma named_all_ok l c : cache_ok c -> Forall named_ok (named c l).
Proof.
  revert c. induction l as [|e l IH]; intros c Hc; cbn [named]; [constructor|].
  destruct (anubee_libtrace_resolve_path _ _ _ _ _ _) as [p c'] eqn:E. destruct (resolve_ok e c p c' Hc E). constructor; auto.
Qed.

(** ** Arguments *)

(** The trigger of a run; [pkg]: a package was given. *)
Definition trigger_of (cfg : dump_config) (pkg : bool) : dump_trigger :=
  mk_trig (c_now cfg) (c_check cfg) (c_on_map cfg) pkg (zlen (c_tgts cfg)) (zlen (c_pats cfg)) (zlen (c_bases cfg)).

Lemma args_check_spec cfg pkg : dump_args_check (trigger_of cfg pkg) = None ->
  (c_tgts cfg = [] <-> pkg = true) /\ (c_pats cfg <> [] \/ c_bases cfg <> []) /\
  (c_now cfg = true -> c_tgts cfg <> [] /\ c_on_map cfg = false) /\ (c_bases cfg <> [] -> c_now cfg = true) /\ (c_check cfg = true -> c_now cfg = true).
Proof.
  assert (Hz : forall {A} (l : list A), (zlen l =? 0) = match l with [] => true | _ => false end) by (intros A [|? ?]; reflexivity).
  assert (Hg : forall {A} (l : list A), (zlen l >? 0) = match l with [] => false | _ => true end) by (intros A [|? ?]; reflexivity).
  unfold dump_args_check, trigger_of. cbn [t_now t_check t_on_map t_has_pkg t_ntgt t_npat t_nbase]. rewrite !Hz, Hg.
  destruct (c_tgts cfg), pkg, (c_pats cfg), (c_bases cfg), (c_now cfg), (c_on_map cfg), (c_check cfg); cbn; try discriminate; intros _; intuition discriminate.
Qed.

Lemma read_number_digits base acc s : Forall (fun c => digit_val c <? base = true) s -> read_number base acc s = (read_digits base acc s, []).
Proof.
  revert acc. induction s as [|c s IH]; intros acc Hs; [reflexivity|]. inversion Hs as [|? ? Hc Hs']; subst. cbn. rewrite Hc. now apply IH.
Qed.

(** Every address, printed in hexadecimal, reads back as a base. *)
Lemma parse_base_hex b : 0 <= b < 2 ^ 64 -> dump_parse_base (hexs b) = Some b.
Proof.
  intros Hb. destruct (hex_shape b Hb) as (c & r & E & Hd & Hr & _). unfold hexs. rewrite E.
  cbn [dump_parse_base]. change ((0x30 <=? bz x30) && (bz x30 <=? 0x39)) with true. cbn [negb].
  unfold strtoull0. inversion Hd as [|? ? Hc _]; subst. rewrite Hc, (read_number_digits 16 0 (c :: r) Hd).
  unfold ULONG_MAX. rewrite Z.gtb_ltb, (proj2 (Z.ltb_ge _ _)) by lia. reflexivity.
Qed.


(** Two mappings of one library of process 7, the second executable one above a gap, and
    another library. *)
Definition demo_maps : list anubee_map_line :=
  [mk_line 0x1000 0x2000 0 true (bytes_of "/d/libx.so"); mk_line 0x2000 0x3000 0x1000 true (bytes_of "/d/libx.so");
   mk_line 0x8000 0x9000 0 true (bytes_of "/d/liby.so")].
Definition demo_event (addr : Z) (name : list byte) (m : option (list anubee_map_line)) : ring_record :=
  mk_ring 192 LIB_EV_MAP (mk_lib 7 addr name m m true).
Definition demo_records : list ring_record :=
  [demo_event 0x1000 (bytes_of "libx.so") (Some demo_maps); mk_ring 24 3 (mk_lib 0 0 [] None None false);
   demo_event 0x8000 (bytes_of "liby.so") (Some demo_maps); demo_event 0x1000 (bytes_of "libx.so") (Some demo_maps)].
Definition demo_cfg (on_map : bool) : dump_config := mk_cfg false false on_map [bytes_of "libx"; bytes_of "libz"] [] [].


(** The modules dumped on map are remembered by the address of the mapping, not by the
    module: a library with two executable mappings is rebuilt twice from the same base. *)
Lemma two_mappings_dumped_twice :
  exists s, handle_events (fun _ _ => false) (fun _ => true) true [bytes_of "libx"]
      [demo_event 0x1000 (bytes_of "libx.so") (Some demo_maps); demo_event 0x2000 (bytes_of "libx.so") (Some demo_maps)] dump_state0 = Ret s /\
    g_done s = [Write 7 0x1000 (bytes_of "/d/libx.so"); Write 7 0x1000 (bytes_of "/d/libx.so")].
Proof. eexists. split; [vm_compute; reflexivity|reflexivity]. Qed.

(** And the memory of an unmapped library is not cleared: another matching library that
    is mapped at the address of an earlier one is never dumped. *)
Lemma reused_address_not_dumped :
  let m2 := Some [mk_line 0x1000 0x2000 0 true (bytes_of "/d/libxx.so")] in
  exists s, handle_events (fun _ _ => false) (fun _ => true) true [bytes_of "libx"]
      [demo_event 0x1000 (bytes_of "libx.so") (Some demo_maps); mk_ring 32 3 (mk_lib 7 0x1000 [] None None false);
       demo_event 0x1000 (bytes_of "libxx.so") m2] dump_state0 = Ret s /\
    g_done s = [Write 7 0x1000 (bytes_of "/d/libx.so")].
Proof. eexists. split; [vm_compute; reflexivity|reflexivity]. Qed.

(** Signs, blanks, trailing text and numbers above 64 bits are no base address. *)
Example bases_refused : map dump_parse_base
    [bytes_of "-1"; bytes_of "+1"; bytes_of " 0x1"; bytes_of "0x10z"; bytes_of "0x"; bytes_of "18446744073709551616"; []; bytes_of "0x7281a0000"] =
  [None; None; None; None; None; None; None; Some 0x7281a0000].
Proof. vm_compute. reflexivity. Qed.
