(* ===== verification/Attach.v ===== *)
(** * Attach: from specifications to attached probes

    The user side of the two probing engines between a loaded file and its probes:
    [apply_custom_specs_for_file] and [attach_one_custom_target] of src/funcs/funcs.c,
    [attach_uprobes_for_pid] and [attach_custom_spec_target] of
    src/correlate/correlate.c.  Matching and resolution of specifications are those of
    ProbeSpec, the registry that of Registry; whether the kernel accepts a probe is part
    of the loaded file. *)

From Stdlib Require Import ZArith Lia.
From stdpp Require Import base list option numbers gmap.
From S2P Require Import Prelude Elf Modules Probe Registry ProbeSpec.

Local Open Scope Z_scope.

(** A file that was mapped: its path, what libelf sees in it, the bounds of the mapping,
    and whether the kernel accepts an entry probe by path, one through the process's
    map_files entry (when that exists), and a return probe. *)
Record loaded := mk_loaded {
  lf_path : list byte; lf_elf : option elf_view; lf_start : Z; lf_end : Z;
  lf_by_path : target -> bool; lf_map_files : option (target -> bool); lf_ret : target -> bool }.

(** A target with its links. *)
Record probe_t := mk_probe { p_tgt : target; p_link : bool; p_ret : bool }.

Section Attach.
Context (fnmatch : list byte -> list byte -> bool) (regcomp : list byte -> bool) (regexec : list byte -> list byte -> bool).

(** ** The function engine *)

Definition wants_return (t : target) : bool := negb (bool_decide (t_ret t = ARG_NONE)) || t_ret_only t.

(** The links of a new target; with [resolve_syms] nothing is attached. *)
Definition link_target (resolve_syms : bool) (f : loaded) (t : target) : probe_t :=
  if resolve_syms then mk_probe t false false else
  let link :=
    if lf_by_path f t then true
    else if negb (lf_start f =? 0) && negb (lf_end f =? 0)
    then match lf_map_files f with Some a => a t | None => false end
    else false in
  mk_probe t link (wants_return t && lf_ret f t).

Definition attach_one_custom_target (resolve_syms : bool) (f : loaded) (t : target) (ps : list probe_t) : list probe_t :=
  if is_duplicate (map p_tgt ps) (lf_path f) (t_off t) then ps else ps ++ [link_target resolve_syms f t].

(** While there is room for [max] targets. *)
Fixpoint attach_matches (resolve_syms : bool) (max : nat) (f : loaded) (l : list target) (ps : list probe_t) : list probe_t :=
  match l with
  | [] => ps
  | t :: l => if (length ps <? max)%nat then attach_matches resolve_syms max f l (attach_one_custom_target resolve_syms f t ps) else ps
  end.

(** [s] is the index of the first specification of the list. *)
Fixpoint apply_specs (resolve_syms : bool) (max : nat) (f : loaded) (s : nat) (specs : list custom_probe_spec_t) (ps : list probe_t) (resolved : list bool)
  : list probe_t * list bool :=
  match specs with
  | [] => (ps, resolved)
  | spec :: specs =>
      if negb (length ps <? max)%nat then (ps, resolved) else
      let next := apply_specs resolve_syms max f (S s) specs in
      if negb (bool_decide (sp_kind spec = SPEC_KIND_FUNCS)) then next ps resolved else
      if negb (custom_spec_matches_path fnmatch regcomp regexec spec (lf_path f)) then next ps resolved else
      if pm_is_regex (sp_func spec) then
        let cap := Nat.min (max - length ps) 256 in
        match resolve_custom_spec_matches_for_path regcomp regexec (lf_elf f) (lf_path f) spec cap with
        | None | Some [] => next ps resolved
        | Some l => next (attach_matches resolve_syms max f l ps) (<[s := true]> resolved)
        end
      else
        match resolve_custom_spec_for_path (lf_elf f) (lf_path f) spec with
        | None => next ps resolved
        | Some t => next (attach_one_custom_target resolve_syms f t ps) (<[s := true]> resolved)
        end
  end.
Definition apply_custom_specs_for_file (resolve_syms : bool) (max : nat) (specs : list custom_probe_spec_t) (st : list probe_t * list bool) (f : loaded)
  : list probe_t * list bool := apply_specs resolve_syms max f 0 specs (fst st) (snd st).

(** The specifications the end-of-run report names: those of functions that never
    resolved. *)
Definition never_resolved (specs : list custom_probe_spec_t) (resolved : list bool) : list custom_probe_spec_t :=
  map fst (List.filter (fun x => bool_decide (sp_kind (fst x) = SPEC_KIND_FUNCS) && negb (snd x)) (zip specs resolved)).

(** ** The correlate engine *)

Record corr_attach := mk_ca { ca_done : list (list byte * Z); ca_probes : list probe_t; ca_registry : registry; ca_attached : Z }.
Definition CORR_DEDUP_CAP : nat := 256.

Definition registered (t : target) : probe_target_t := mk_target (t_path t) (t_func t) (t_off t) 0.

Definition attach_custom_spec_target (returns : bool) (f : loaded) (t : target) (a : corr_attach) : corr_attach :=
  if bool_decide ((lf_path f, t_off t) ∈ ca_done a) then a else
  let done := if (length (ca_done a) <? CORR_DEDUP_CAP)%nat then ca_done a ++ [(copy_str (lf_path f) 256, t_off t)] else ca_done a in
  if lf_by_path f t then
    mk_ca done (ca_probes a ++ [mk_probe t true (returns && lf_ret f t)]) (snd (target_registry_add (ca_registry a) (registered t))) (ca_attached a + 1)
  else mk_ca done (ca_probes a ++ [mk_probe t false false]) (ca_registry a) (ca_attached a).

Fixpoint corr_targets (returns : bool) (f : loaded) (l : list target) (a : corr_attach) : corr_attach :=
  match l with
  | [] => a
  | t :: l => corr_targets returns f l (attach_custom_spec_target returns f t a)
  end.

Fixpoint corr_specs (returns : bool) (f : loaded) (s : nat) (specs : list custom_probe_spec_t) (a : corr_attach) (resolved : list bool) : corr_attach * list bool :=
  match specs with
  | [] => (a, resolved)
  | spec :: specs =>
      let next := corr_specs returns f (S s) specs in
      if negb (bool_decide (sp_kind spec = SPEC_KIND_FUNCS)) then next a resolved else
      if negb (custom_spec_matches_path fnmatch regcomp regexec spec (lf_path f)) then next a resolved else
      if pm_is_regex (sp_func spec) then
        match resolve_custom_spec_matches_for_path regcomp regexec (lf_elf f) (lf_path f) spec 256 with
        | None | Some [] => next a resolved
        | Some l => next (corr_targets returns f l a) (<[s := true]> resolved)
        end
      else
        match resolve_custom_spec_for_path (lf_elf f) (lf_path f) spec with
        | None => next a resolved
        | Some t => next (attach_custom_spec_target returns f t a) (<[s := true]> resolved)
        end
  end.

(** The executable, file-backed lines of the process's maps. *)
Definition corr_line (l : anubee_map_line) : bool := exec l && bool_decide (head (path l) = Some x2f).
Fixpoint corr_lines (returns : bool) (specs : list custom_probe_spec_t) (load : anubee_map_line -> loaded) (maps : list anubee_map_line)
    (a : corr_attach) (resolved : list bool) : corr_attach * list bool :=
  match maps with
  | [] => (a, resolved)
  | l :: maps =>
      if corr_line l then
        let '(a, resolved) := corr_specs returns (load l) 0 specs a resolved in corr_lines returns specs load maps a resolved
      else corr_lines returns specs load maps a resolved
  end.
(** [None]: the maps cannot be opened. *)
Definition attach_uprobes_for_pid (returns : bool) (specs : list custom_probe_spec_t) (load : anubee_map_line -> loaded) (maps : option (list anubee_map_line))
    (g : registry) (resolved : list bool) : option (corr_attach * list bool) :=
  match maps with
  | None => None
  | Some m => Some (corr_lines returns specs load m (mk_ca [] [] g 0) resolved)
  end.

(** ** What is asked for *)

(** The targets a specification names in a file; a regular expression at most 256. *)
Definition spec_targets (f : loaded) (spec : custom_probe_spec_t) : list target :=
  if bool_decide (sp_kind spec = SPEC_KIND_FUNCS) && custom_spec_matches_path fnmatch regcomp regexec spec (lf_path f) then
    if pm_is_regex (sp_func spec) then default [] (resolve_custom_spec_matches_for_path regcomp regexec (lf_elf f) (lf_path f) spec 256)
    else match resolve_custom_spec_for_path (lf_elf f) (lf_path f) spec with Some t => [t] | None => [] end
  else [].
Definition file_targets (specs : list custom_probe_spec_t) (f : loaded) : list (loaded * target) :=
  map (pair f) (concat (map (spec_targets f) specs)).
Definition all_targets_of (specs : list custom_probe_spec_t) (files : list loaded) : list (loaded * target) :=
  concat (map (file_targets specs) files).
(** A probed place: file and offset. *)
Definition place (x : loaded * target) : list byte * Z := (lf_path (fst x), t_off (snd x)).

Definition some_target (l : list target) : bool := match l with [] => false | _ => true end.
(** A specification found a target in one of the files. *)
Definition found (files : list loaded) (spec : custom_probe_spec_t) : bool := existsb (fun f => some_target (spec_targets f spec)) files.

(** ** Shared facts *)

Lemma copy_whole s : zlen s <= 255 -> copy_str s 256 = s.
Proof. unfold copy_str, zlen. intros H. apply take_ge. lia. Qed.

Lemma spec_targets_path f spec : zlen (lf_path f) <= 255 -> Forall (fun t => t_path t = lf_path f) (spec_targets f spec).
Proof.
  intros Hp. unfold spec_targets. destruct (_ && _); [|constructor]. destruct (pm_is_regex _).
  - unfold resolve_custom_spec_matches_for_path. destruct (lf_elf f); cbn; [|constructor]. apply Forall_map, List.Forall_forall.
    intros x _. apply copy_whole, Hp.
  - unfold resolve_custom_spec_for_path. destruct (0 <? _); cbn; [constructor; [apply copy_whole, Hp|constructor]|].
    destruct (lf_elf f); cbn; [|constructor]. destruct (first_match _ _ _); cbn; constructor; [apply copy_whole, Hp|constructor].
Qed.

(** The marks of one file over the specifications from index [s] on. *)
Fixpoint mark (f : loaded) (s : nat) (specs : list custom_probe_spec_t) (res : list bool) : list bool :=
  match specs with
  | [] => res
  | spec :: specs => mark f (S s) specs (if some_target (spec_targets f spec) then <[s := true]> res else res)
  end.

Lemma mark_length f s specs res : length (mark f s specs res) = length res.
Proof. revert s res. induction specs as [|spec specs IH]; intros s res; [reflexivity|]. cbn. rewrite IH. destruct (some_target _); [apply length_insert|reflexivity]. Qed.

Lemma mark_lookup f s specs res i : mark f s specs res !! i =
  (fun b => b || ((s <=? i)%nat && match specs !! (i - s)%nat with Some spec => some_target (spec_targets f spec) | None => false end)) <$> res !! i.
Proof.
  revert s res. induction specs as [|spec specs IH]; intros s res; cbn [mark].
  { rewrite lookup_nil, andb_false_r. destruct (res !! i) as [b|]; cbn; [now rewrite orb_false_r|reflexivity]. }
  rewrite IH. destruct (Nat.eq_dec i s) as [->|Hne].
  - rewrite Nat.sub_diag, Nat.leb_refl, (proj2 (Nat.leb_gt (S s) s)) by lia. cbn [lookup list_lookup andb].
    destruct (some_target (spec_targets f spec)).
    + destruct (decide (s < length res)%nat) as [Hl|Hl].
      * rewrite list_lookup_insert_eq by exact Hl. destruct (lookup_lt_is_Some_2 res s Hl) as [b ->]. cbn. now rewrite !orb_true_r.
      * rewrite !lookup_ge_None_2 by (rewrite ?length_insert; lia). reflexivity.
    + destruct (res !! s) as [b|]; cbn; [now rewrite !orb_false_r|reflexivity].
  - assert (E : (if some_target (spec_targets f spec) then <[s:=true]> res else res) !! i = res !! i)
      by (destruct (some_target _); [now rewrite list_lookup_insert_ne by auto|reflexivity]).
    rewrite E. destruct (Nat.leb_spec s i) as [Hi|Hi].
    + rewrite (proj2 (Nat.leb_le (S s) i)) by lia. replace (i - s)%nat with (S (i - S s)) by lia. reflexivity.
    + rewrite (proj2 (Nat.leb_gt (S s) i)) by lia. reflexivity.
Qed.

(** The report after a sequence of files. *)
Lemma never_resolved_spec specs files : (length specs <= 64)%nat ->
  never_resolved specs (fold_left (fun res f => mark f 0 specs res) files (replicate 64 false)) =
  List.filter (fun spec => bool_decide (sp_kind spec = SPEC_KIND_FUNCS) && negb (found files spec)) specs.
Proof.
  intros Hn.
  assert (H : forall res, length res = 64%nat -> forall i, fold_left (fun res f => mark f 0 specs res) files res !! i =
    (fun b => b || match specs !! i with Some spec => found files spec | None => false end) <$> res !! i).
  { unfold found. induction files as [|f files IH]; intros res Hl i; cbn [fold_left existsb].
    - destruct (res !! i) as [b|]; cbn; [|reflexivity]. destruct (specs !! i); now rewrite orb_false_r.
    - rewrite IH by (now rewrite mark_length). rewrite mark_lookup, Nat.sub_0_r. cbn [Nat.leb andb]. destruct (res !! i) as [b|]; cbn; [|reflexivity].
      destruct (specs !! i); [now rewrite orb_assoc|now rewrite !orb_false_r]. }
  assert (Hz : zip specs (fold_left (fun res f => mark f 0 specs res) files (replicate 64 false)) = map (fun spec => (spec, found files spec)) specs).
  { apply list_eq. intros i. rewrite lookup_zip_with, H by reflexivity. rewrite list_lookup_fmap. destruct (specs !! i) as [spec|] eqn:E; [|reflexivity].
    apply lookup_lt_Some in E. rewrite (lookup_replicate_2 64 false i) by lia. reflexivity. }
  unfold never_resolved. rewrite Hz. clear. induction specs as [|spec specs IH]; [reflexivity|]. cbn [map List.filter fst snd].
  destruct (bool_decide _ && _); cbn [map fst]; now rewrite IH.
Qed.

(** ** The function engine *)

Definition places (ps : list probe_t) : list (list byte * Z) := map (fun p => (t_path (p_tgt p), t_off (p_tgt p))) ps.
Definition at_file (f : loaded) (t : target) : list byte * Z := (lf_path f, t_off t).

Lemma dup_places ps p off : is_duplicate (map p_tgt ps) p off = bool_decide ((p, off) ∈ places ps).
Proof.
  unfold is_duplicate, places. induction ps as [|q ps IH]; [reflexivity|]. cbn [map existsb]. rewrite IH. apply eq_bool_prop_intro.
  rewrite orb_True, andb_True, !bool_decide_spec, elem_of_cons. rewrite Is_true_true, Z.eqb_eq.
  split; [intros [[H1 H2]|H]; [left; congruence|auto]|intros [H|H]; [left; split; congruence|auto]].
Qed.

Lemma link_tgt rs f t : p_tgt (link_target rs f t) = t.
Proof. unfold link_target. destruct rs; reflexivity. Qed.

Definition new_probes (rs : bool) (f : loaded) (l : list target) (ps : list probe_t) : list probe_t :=
  ps ++ map (link_target rs f) (firsts_by (at_file f) (places ps) l).

Lemma places_new rs f l ps : Forall (fun t => t_path t = lf_path f) l ->
  places (new_probes rs f l ps) = places ps ++ map (at_file f) (firsts_by (at_file f) (places ps) l).
Proof.
  intros Hl. unfold new_probes, places at 1. rewrite map_app, map_map. f_equal. apply map_ext_in. intros t Ht.
  rewrite link_tgt. unfold at_file. f_equal. rewrite List.Forall_forall in Hl. apply Hl.
  apply list_elem_of_In, (proj2 (proj2 (firsts_by_spec (at_file f) (places ps) l))), list_elem_of_In, Ht.
Qed.

Lemma attach_one_new rs f t ps : attach_one_custom_target rs f t ps = new_probes rs f [t] ps.
Proof.
  unfold attach_one_custom_target, new_probes. rewrite dup_places. cbn [firsts_by]. change (lf_path f, t_off t) with (at_file f t).
  destruct (bool_decide _); cbn [map]; [now rewrite app_nil_r|reflexivity].
Qed.

Lemma new_probes_app rs f l k ps : Forall (fun t => t_path t = lf_path f) l ->
  new_probes rs f (l ++ k) ps = new_probes rs f k (new_probes rs f l ps).
Proof.
  intros Hl. unfold new_probes at 1 2. rewrite firsts_by_app, map_app, (places_new _ _ _ _ Hl). unfold new_probes. now rewrite <- app_assoc.
Qed.
Lemma new_probes_length rs f l ps : (length ps <= length (new_probes rs f l ps))%nat.
Proof. unfold new_probes. rewrite length_app. lia. Qed.

Lemma attach_matches_new rs max f l ps : Forall (fun t => t_path t = lf_path f) l -> (length (new_probes rs f l ps) < max)%nat ->
  attach_matches rs max f l ps = new_probes rs f l ps.
Proof.
  revert ps. induction l as [|t l IH]; intros ps Hl Hn; [unfold new_probes; cbn; now rewrite app_nil_r|].
  inversion Hl as [|? ? Ht Hl']; subst. cbn [attach_matches]. change (t :: l) with ([t] ++ l) in *.
  rewrite new_probes_app in * by (constructor; [exact Ht|constructor]). rewrite attach_one_new.
  pose proof (new_probes_length rs f [t] ps). pose proof (new_probes_length rs f l (new_probes rs f [t] ps)).
  rewrite (proj2 (Nat.ltb_lt _ _)) by lia. apply IH; auto.
Qed.

(** One specification: the targets it names, each place once. *)
Lemma apply_specs_cons rs max f s spec specs ps res : zlen (lf_path f) <= 255 ->
  (length (new_probes rs f (spec_targets f spec) ps) + 256 <= max)%nat ->
  apply_specs rs max f s (spec :: specs) ps res =
  apply_specs rs max f (S s) specs (new_probes rs f (spec_targets f spec) ps) (if some_target (spec_targets f spec) then <[s := true]> res else res).
Proof.
  intros Hp Hm. pose proof (new_probes_length rs f (spec_targets f spec) ps) as Hl. pose proof (spec_targets_path f spec Hp) as HT.
  assert (Hnil : new_probes rs f [] ps = ps) by (unfold new_probes; cbn; apply app_nil_r).
  cbn [apply_specs]. rewrite (proj2 (Nat.ltb_lt _ _)) by lia. cbn [negb]. unfold spec_targets in *.
  destruct (bool_decide (sp_kind spec = _)); cbn [negb andb] in *; [|now rewrite Hnil].
  destruct (custom_spec_matches_path _ _ _ _ _); cbn [negb] in *; [|now rewrite Hnil]. destruct (pm_is_regex _).
  - rewrite Nat.min_r by lia. destruct (resolve_custom_spec_matches_for_path _ _ _ _ _ _) as [[|t l]|]; cbn [default from_option id some_target] in *; [now rewrite Hnil| |now rewrite Hnil].
    rewrite attach_matches_new; [reflexivity|exact HT|cbn in *; lia].
  - destruct (resolve_custom_spec_for_path _ _ _) as [t|]; cbn [some_target]; [now rewrite attach_one_new|now rewrite Hnil].
Qed.

Lemma apply_specs_new rs max f s specs ps res : zlen (lf_path f) <= 255 ->
  (length (new_probes rs f (concat (map (spec_targets f) specs)) ps) + 256 <= max)%nat ->
  apply_specs rs max f s specs ps res = (new_probes rs f (concat (map (spec_targets f) specs)) ps, mark f s specs res).
Proof.
  intros Hp. revert s ps res. induction specs as [|spec specs IH]; intros s ps res Hm.
  { cbn. unfold new_probes. cbn. now rewrite app_nil_r. }
  cbn [map concat] in *. rewrite new_probes_app in * by (now apply spec_targets_path).
  pose proof (new_probes_length rs f (concat (map (spec_targets f) specs)) (new_probes rs f (spec_targets f spec) ps)).
  rewrite apply_specs_cons by (auto; lia). rewrite IH by exact Hm. reflexivity.
Qed.

(** The probes of a sequence of files. *)
Definition linked_probes (rs : bool) (l : list (loaded * target)) : list probe_t := map (fun x => link_target rs (fst x) (snd x)) l.

Lemma firsts_pair f seen l : firsts_by place seen (map (pair f) l) = map (pair f) (firsts_by (at_file f) seen l).
Proof.
  revert seen. induction l as [|t l IH]; intros seen; [reflexivity|]. cbn [map firsts_by]. change (place (f, t)) with (at_file f t).
  destruct (bool_decide _); [apply IH|]. cbn [map]. now rewrite IH.
Qed.

Lemma file_new rs specs f ps : new_probes rs f (concat (map (spec_targets f) specs)) ps = ps ++ linked_probes rs (firsts_by place (places ps) (file_targets specs f)).
Proof. unfold new_probes, linked_probes, file_targets. rewrite firsts_pair, map_map. reflexivity. Qed.

Lemma specs_targets_path f specs : zlen (lf_path f) <= 255 -> Forall (fun t => t_path t = lf_path f) (concat (map (spec_targets f) specs)).
Proof. intros Hp. induction specs as [|spec specs IH]; cbn; [constructor|]. apply Forall_app. split; [now apply spec_targets_path|exact IH]. Qed.

Lemma apply_files rs max specs files ps res : Forall (fun f => zlen (lf_path f) <= 255) files ->
  (length ps + length (firsts_by place (places ps) (all_targets_of specs files)) + 256 <= max)%nat ->
  fold_left (apply_custom_specs_for_file rs max specs) files (ps, res) =
  (ps ++ linked_probes rs (firsts_by place (places ps) (all_targets_of specs files)), fold_left (fun res f => mark f 0 specs res) files res).
Proof.
  unfold all_targets_of. revert ps res. induction files as [|f files IH]; intros ps res Hf Hm; [cbn; now rewrite app_nil_r|].
  inversion Hf as [|? ? Hp Hf']; subst. cbn [fold_left map concat] in *. unfold apply_custom_specs_for_file at 2. cbn [fst snd].
  rewrite firsts_by_app, length_app in Hm.
  assert (HP : places (new_probes rs f (concat (map (spec_targets f) specs)) ps) = places ps ++ map place (firsts_by place (places ps) (file_targets specs f))).
  { rewrite places_new by now apply specs_targets_path. unfold file_targets. now rewrite firsts_pair, map_map. }
  assert (HL : length (new_probes rs f (concat (map (spec_targets f) specs)) ps) = (length ps + length (firsts_by place (places ps) (file_targets specs f)))%nat)
    by (rewrite file_new, length_app; unfold linked_probes; now rewrite length_map).
  rewrite apply_specs_new by (auto; lia). rewrite IH by (auto; rewrite HL, HP; lia).
  rewrite HP, file_new, firsts_by_app. unfold linked_probes. now rewrite map_app, <- app_assoc.
Qed.

(** ** The correlate engine *)

Section Corr.
Context (returns : bool).

Definition corr_step (a : corr_attach) (x : loaded * target) : corr_attach := attach_custom_spec_target returns (fst x) (snd x) a.

Lemma corr_targets_fold f l a : corr_targets returns f l a = fold_left corr_step (map (pair f) l) a.
Proof. revert a. induction l as [|t l IH]; intros a; [reflexivity|]. cbn. apply IH. Qed.

Lemma corr_specs_fold f s specs a res : corr_specs returns f s specs a res = (fold_left corr_step (file_targets specs f) a, mark f s specs res).
Proof.
  unfold file_targets. revert s a res. induction specs as [|spec specs IH]; intros s a res; [reflexivity|].
  cbn [corr_specs map concat mark]. rewrite map_app, fold_left_app. destruct (spec_targets f spec) as [|t0 l0] eqn:HT; unfold spec_targets in HT; cbn [some_target].
  all: destruct (bool_decide (sp_kind spec = _)); cbn [negb andb] in *; [|first [discriminate|apply IH]].
  all: destruct (custom_spec_matches_path _ _ _ _ _); cbn [negb] in *; [|first [discriminate|apply IH]].
  all: destruct (pm_is_regex _).
  all: try (destruct (resolve_custom_spec_matches_for_path _ _ _ _ _ _) as [[|t l]|]; cbn in HT; try discriminate; [apply IH..]).
  - destruct (resolve_custom_spec_for_path _ _ _) as [t|]; [discriminate|apply IH].
  - destruct (resolve_custom_spec_matches_for_path _ _ _ _ _ _) as [[|t l]|]; try discriminate. injection HT as -> ->. rewrite corr_targets_fold. apply IH.
  - destruct (resolve_custom_spec_for_path _ _ _) as [t|]; [|discriminate]. injection HT as -> <-. apply IH.
Qed.

Lemma corr_lines_fold specs load maps a res : corr_lines returns specs load maps a res =
  (fold_left corr_step (all_targets_of specs (map load (List.filter corr_line maps))) a,
   fold_left (fun res f => mark f 0 specs res) (map load (List.filter corr_line maps)) res).
Proof.
  unfold all_targets_of. revert a res. induction maps as [|l maps IH]; intros a res; [reflexivity|]. cbn [corr_lines List.filter].
  destruct (corr_line l); [|apply IH]. rewrite corr_specs_fold, IH. cbn [map concat fold_left]. now rewrite fold_left_app.
Qed.

(** A place probed: the links, and what is registered. *)
Definition corr_probe (x : loaded * target) : probe_t :=
  let '(f, t) := x in if lf_by_path f t then mk_probe t true (returns && lf_ret f t) else mk_probe t false false.
Definition accepted (l : list (loaded * target)) : list (loaded * target) := List.filter (fun x => lf_by_path (fst x) (snd x)) l.
Definition corr_after (a : corr_attach) (l : list (loaded * target)) : corr_attach :=
  mk_ca (ca_done a ++ map place l) (ca_probes a ++ map corr_probe l)
    (mk_reg (target_registry (ca_registry a) ++ map (fun x => registered (snd x)) (accepted l)) (retired_targets (ca_registry a)) (pt_hash (ca_registry a)))
    (ca_attached a + zlen (accepted l)).

Lemma corr_after_nil a : corr_after a [] = a.
Proof. destruct a as [d p [r1 r2 r3] n]. unfold corr_after. cbn. rewrite !app_nil_r. f_equal. unfold zlen. cbn. lia. Qed.
Lemma corr_after_app a l k : corr_after (corr_after a l) k = corr_after a (l ++ k).
Proof.
  unfold corr_after, accepted. cbn [ca_done ca_probes ca_registry ca_attached target_registry retired_targets pt_hash].
  rewrite List.filter_app, !map_app, zlen_app, !app_assoc. f_equal. lia.
Qed.

Definition fits (a : corr_attach) (n : nat) : Prop :=
  (length (ca_done a) + n <= CORR_DEDUP_CAP)%nat /\ zlen (target_registry (ca_registry a)) + Z.of_nat n <= TARGET_REGISTRY_CAP.

Lemma corr_step_new a x : zlen (lf_path (fst x)) <= 255 -> fits a (length (firsts_by place (ca_done a) [x])) ->
  corr_step a x = corr_after a (firsts_by place (ca_done a) [x]).
Proof.
  destruct x as [f t]. cbn [fst]. intros Hp. unfold corr_step, attach_custom_spec_target. cbn [firsts_by fst snd]. change (lf_path f, t_off t) with (place (f, t)).
  destruct (bool_decide _); [now rewrite corr_after_nil|]. cbn [length]. intros [H1 H2]. rewrite (proj2 (Nat.ltb_lt _ _)) by lia.
  rewrite (copy_whole _ Hp). unfold corr_after, accepted. cbn [List.filter fst snd map]. unfold corr_probe. destruct (lf_by_path f t).
  - unfold target_registry_add. rewrite (proj2 (Z.ltb_lt _ _)) by lia. reflexivity.
  - cbn [map]. rewrite app_nil_r. destruct (ca_registry a). cbn. f_equal. unfold zlen. cbn. lia.
Qed.

Lemma corr_fold_new l a : Forall (fun x => zlen (lf_path (fst x)) <= 255) l -> fits a (length (firsts_by place (ca_done a) l)) ->
  fold_left corr_step l a = corr_after a (firsts_by place (ca_done a) l).
Proof.
  revert a. induction l as [|x l IH]; intros a Hl Hf; [now rewrite corr_after_nil|]. inversion Hl as [|? ? Hx Hl']; subst. cbn [fold_left].
  change (x :: l) with ([x] ++ l) in *. rewrite firsts_by_app in *. rewrite length_app in Hf. destruct Hf as [H1 H2].
  rewrite corr_step_new by (auto; split; lia). set (n := firsts_by place (ca_done a) [x]) in *.
  rewrite <- corr_after_app. change (ca_done a ++ map place n) with (ca_done (corr_after a n)) in *. apply IH; [exact Hl'|].
  split; unfold corr_after in *; cbn [ca_done ca_registry target_registry] in *; rewrite ?length_app, ?zlen_app, ?length_map; [lia|].
  unfold accepted, zlen. rewrite length_map. pose proof (List.filter_length_le (fun x => lf_by_path (fst x) (snd x)) n). unfold zlen in H2. lia.
Qed.
End Corr.

Lemma files_targets_path specs files : Forall (fun f => zlen (lf_path f) <= 255) files -> Forall (fun x => zlen (lf_path (fst x)) <= 255) (all_targets_of specs files).
Proof.
  unfold all_targets_of. induction 1 as [|f files Hf _ IH]; cbn; [constructor|]. apply Forall_app. split; [|exact IH].
  unfold file_targets. apply Forall_map, List.Forall_forall. intros t _. exact Hf.
Qed.
End Attach.


(** A library with three functions; one specification by offset, one by regular
    expression, and one for another engine. *)
Definition demo_regexec (re text : list byte) : bool := bool_decide (is_Some (strstr text re)).
Definition demo_view : elf_view :=
  mk_view (Some [(1, mk_seg 0 0 0x1000)]) [(0x100, Some (bytes_of "get_a")); (0x200, Some (bytes_of "put")); (0x300, Some (bytes_of "get_b"))].
Definition demo_spec (kind : spec_kind_t) (func : list byte) (off : Z) : custom_probe_spec_t :=
  mk_spec kind false (bytes_of "libx.so") func off None ARG_NONE false.
Definition demo_specs : list custom_probe_spec_t :=
  [demo_spec SPEC_KIND_FUNCS (bytes_of "open") 0x100; demo_spec SPEC_KIND_LIB [] 0; demo_spec SPEC_KIND_FUNCS (bytes_of "/get_/") 0;
   demo_spec SPEC_KIND_FUNCS (bytes_of "gone") 0].
Definition demo_file (ok : bool) : loaded :=
  mk_loaded (bytes_of "/d/libx.so") (Some demo_view) 0x7000 0x8000 (fun _ => ok) None (fun _ => ok).
Definition demo_lines : list anubee_map_line := [mk_line 0x7000 0x8000 0 true (bytes_of "/d/libx.so"); mk_line 0x9000 0xa000 0 true (bytes_of "[vdso]")].
Definition demo_load (l : anubee_map_line) : loaded := mk_loaded (path l) (Some demo_view) (start l) (end_ l) (fun _ => true) None (fun _ => true).


(** A target whose probe the kernel refused stays in the table without a link, and the
    duplicate check then skips it: when the library is loaded again, and could be
    probed, nothing is attached. *)
Lemma missed_target_never_retried :
  exists ps resolved,
    fold_left (apply_custom_specs_for_file (fun _ _ => false) (fun _ => true) demo_regexec false 4096 demo_specs) [demo_file false; demo_file true] ([], replicate 64 false) = (ps, resolved) /\
    map (fun p => (t_off (p_tgt p), p_link p)) ps = [(0x100, false); (0x300, false)].
Proof. eexists _, _. split; [reflexivity|]. vm_compute. reflexivity. Qed.
