(* ===== verification/ArtBuild.v ===== *)
(** * ArtBuild: which runtime is this? (src/common/art_buildid.c)

    The layout of ART's structures is selected by the BuildID of the running libart.so:
    a table of known builds, an override file of the user, the scan of the ELF notes of
    the library, and the answer kept for the last process asked about.  Files are their
    bytes; C strings are byte lists without terminator. *)

From Stdlib Require Import ZArith Lia.
From Stdlib Require Import Permutation.
From stdpp Require Import base list option numbers.
From S2P Require Import Prelude Elf Modules Emit Decode ProbeSpec Art.

Local Open Scope Z_scope.

(** ** Known builds *)

Definition k_offsets : art_offsets := mk_offs 0x38 0xA8 0x08 0x10 0x00 0x08 0x18 0x00 0x08 0x10 0x10 0x08 0x20.
Definition k_table : list (list byte * art_offsets) :=
  [(bytes_of "1f156fc62660d075a8d675db850b95d5", k_offsets); (bytes_of "cecb684d19b4f44ee3cbd66142c315f4", k_offsets)].
Definition art_offsets_for_buildid (hexid : list byte) : option art_offsets :=
  option_map snd (List.find (fun r => bool_decide (hexid = fst r)) k_table).

(** ** The override file *)

Definition is_blank (c : byte) : bool := bool_decide (c = x20) || bool_decide (c = x09).
Fixpoint trim_left (s : list byte) : list byte :=
  match s with c :: r => if is_blank c then trim_left r else s | [] => [] end.
Definition trim_right (s : list byte) : list byte :=
  let fix go s := match s with c :: r => if is_blank c || bool_decide (c = x0d) then go r else s | [] => [] end in
  reverse (go (reverse s)).
(** [trim] of a text that is not empty; both ends. *)
Definition trim (s : list byte) : list byte := trim_right (trim_left s).

Definition keys : list (list byte) := map bytes_of
  ["tls_thread_slot"; "managed_stack"; "ms_link"; "ms_top_shadow"; "sf_link"; "sf_method"; "sf_dex_pc_ptr";
   "artm_declclass"; "artm_dexidx"; "class_dexcache"; "dexcache_dexfile"; "dexfile_begin"; "dexfile_datasize"]%string.

(** [strtoull(val, &end, 0)] with nothing left: the value, clamped; no digits, or text
    after them, is a bad number. *)
Fixpoint number (base acc : Z) (some : bool) (s : list byte) : option Z :=
  match s with
  | [] => if some then Some acc else None
  | c :: r => if digit_val c <? base then number base (acc * base + digit_val c) true r else None
  end.
Definition number0 (s : list byte) : option Z :=
  match s with
  | x30 :: x78 :: c :: r | x30 :: x58 :: c :: r => if digit_val c <? 16 then number 16 0 false (c :: r) else None
  | x30 :: r => number 8 0 true r
  | _ => number 10 0 false s
  end.
Definition strtoull_all (s : list byte) : option Z :=
  match skip_space_class s with
  | x2d :: r => option_map (fun v => if v >? ULONG_MAX then ULONG_MAX else u64 (- v)) (number0 r)
  | x2b :: r => option_map (Z.min ULONG_MAX) (number0 r)
  | r => option_map (Z.min ULONG_MAX) (number0 r)
  end.

(** What the lines up to here have set. *)
Record parsed := mk_parsed { ps_bid : option (list byte); ps_vals : list (option Z) }.
Definition parsed0 : parsed := mk_parsed None (replicate 13 None).

(** One line.  The value starts behind the '=': ending the key with a terminator leaves
    nothing for the second trim to look at, so blanks in front of it stay. *)
Definition parse_line (bidsz : Z) (line : list byte) (p : parsed) : option parsed :=
  let ls := trim (take 255 line) in
  match ls with
  | [] | x23 :: _ => Some p
  | _ =>
      match cut x3d ls with
      | None => None
      | Some (k, val) =>
          let key := trim k in
          if bool_decide (key = bytes_of "buildid") then Some (mk_parsed (Some (snprintf_s bidsz val)) (ps_vals p)) else
          match list_find (fun x => x = key) keys with
          | None => None
          | Some (hit, _) =>
              match strtoull_all val with
              | None => None
              | Some v => Some (mk_parsed (ps_bid p) (<[hit := Some v]> (ps_vals p)))
              end
          end
      end
  end.

Fixpoint lines_of (text cur : list byte) : list (list byte) :=
  match text with
  | [] => match cur with [] => [] | _ => [cur] end
  | c :: text => if bool_decide (c = x0a) then cur :: lines_of text [] else lines_of text (cur ++ [c])
  end.
Fixpoint parse_lines (bidsz : Z) (ls : list (list byte)) (p : parsed) : option parsed :=
  match ls with
  | [] => Some p
  | l :: ls => p ← parse_line bidsz l p; parse_lines bidsz ls p
  end.

Definition offsets_of (vals : list (option Z)) : option art_offsets :=
  match vals with
  | [Some a; Some b; Some c; Some d; Some e; Some f; Some g; Some h; Some i; Some j; Some k; Some l; Some m] =>
      Some (mk_offs a b c d e f g h i j k l m)
  | _ => None
  end.
Definition art_offsets_parse (text : list byte) (bidsz : Z) : option (list byte * art_offsets) :=
  p ← parse_lines bidsz (lines_of text []) parsed0;
  match ps_bid p, offsets_of (ps_vals p) with
  | Some id, Some o => Some (id, o)
  | _, _ => None
  end.

(** ** The BuildID of a file *)

(** [fseek] and a complete [fread]. *)
Definition fread_at (file : list byte) (pos n : Z) : option (list byte) :=
  if s64 pos <? 0 then None else if s64 pos + n <=? zlen file then Some (slice file (s64 pos) n) else None.
Definition align4 (n : Z) : Z := Z.land (u32 (n + 3)) 0xfffffffc.
Definition hex2 (b : byte) : list byte := [hex_digit (bz b / 16); hex_digit (bz b mod 16)].

(** The notes of a section; [None] in it: no BuildID that fits [outsz]. *)
Fixpoint note_loop (fuel : nat) (nb : list byte) (size p outsz : Z) : res (option (list byte)) :=
  match fuel with
  | O => NoFuel
  | S fuel =>
      if p + 12 >? size then Ret None else
      namesz ← ld_le 4 nb p;
      descsz ← ld_le 4 nb (p + 4);
      type ← ld_le 4 nb (p + 8);
      let desc_off := p + 12 + align4 namesz in
      if (type =? 3) && (descsz >? 0) && (desc_off + descsz <=? size) then
        if u32 (u32 (descsz * 2) + 1) >? outsz then Ret None else
        d ← memcpy_in nb desc_off descsz;
        Ret (Some (concat (map hex2 d)))
      else note_loop fuel nb size (desc_off + align4 descsz) outsz
  end.

Fixpoint section_loop (n : nat) (file : list byte) (shoff shentsize i outsz : Z) : res (option (list byte)) :=
  match n with
  | O => Ret None
  | S n =>
      match fread_at file (u64 (shoff + i * shentsize)) (Z.min shentsize 64) with
      | None => Ret None
      | Some sh =>
          type ← ld_le 4 sh 4;
          if negb (type =? 7) then section_loop n file shoff shentsize (i + 1) outsz else
          off ← ld_le 8 sh 0x18;
          size ← ld_le 8 sh 0x20;
          if (size =? 0) || (size >? 4096) then section_loop n file shoff shentsize (i + 1) outsz else
          match fread_at file off size with
          | None => Ret None
          | Some nb =>
              r ← note_loop (S (Z.to_nat size)) nb size 0 outsz;
              match r with
              | Some hex => Ret (Some hex)
              | None => section_loop n file shoff shentsize (i + 1) outsz
              end
          end
      end
  end.
Definition read_build_id_hex (file : option (list byte)) (outsz : Z) : res (option (list byte)) :=
  match file with
  | None => Ret None
  | Some file =>
      match fread_at file 0 64 with
      | None => Ret None
      | Some e =>
          magic ← memcpy_in e 0 4;
          if negb (bool_decide (magic = [x7f; x45; x4c; x46])) then Ret None else
          shoff ← ld_le 8 e 0x28;
          shentsize ← ld_le 2 e 0x3a;
          shnum ← ld_le 2 e 0x3c;
          if shentsize <? 0x28 then Ret None else
          section_loop (Z.to_nat shnum) file shoff shentsize 0 outsz
      end
  end.

(** ** The gate *)

(** The C string at the start of a buffer. *)
Fixpoint c_text (s : list byte) : list byte :=
  match s with c :: r => if bool_decide (c = x00) then [] else c :: c_text r | [] => [] end.

(** Once per run: the override file, when the variable is set and it parses. *)
Definition override_of (env : option (option (list byte))) : option (list byte * art_offsets) :=
  match env with
  | Some (Some text) => art_offsets_parse (c_text (take 4095 text)) 64
  | _ => None
  end.
Definition override_lookup (ov : option (list byte * art_offsets)) (target_hex : list byte) : option art_offsets :=
  match ov with
  | Some (id, o) => if bool_decide (id = target_hex) then Some o else None
  | None => None
  end.

(** The answer for the last process, and whether naming was reported as disabled. *)
Record gate := mk_gate { cache_pid : Z; cache_off : option art_offsets; g_naming_disabled : bool }.
Definition gate0 : gate := mk_gate (-2) None false.

Definition is_libart (l : anubee_map_line) : bool := bool_decide (is_Some (strstr (path l) (bytes_of "/libart.so"))).

(** [maps]: the parsed lines of the process's maps, when they open. *)
Definition art_buildid_offsets (ov : option (list byte * art_offsets)) (maps : Z -> option (list anubee_map_line)) (files : list byte -> option (list byte))
    (pid : Z) (g : gate) : res (option art_offsets * gate) :=
  if pid =? cache_pid g then Ret (cache_off g, g) else
  hex ← (match maps pid with
         | None => Ret None
         | Some m =>
             match List.find is_libart m with
             | None => Ret None
             | Some l => read_build_id_hex (files (snprintf_s 256 (path l))) 64
             end
         end);
  let o := match hex with
           | Some hex => match override_lookup ov hex with Some o => Some o | None => art_offsets_for_buildid hex end
           | None => None
           end in
  Ret (o, mk_gate pid o (g_naming_disabled g || match o, hex with None, Some (_ :: _) => true | _, _ => false end)).

(** ** Lines *)

Definition text_of (ls : list (list byte)) : list byte := concat (map (fun l => l ++ [x0a]) ls).

Lemma lines_of_line l text cur : x0a ∉ l -> lines_of (l ++ x0a :: text) cur = (cur ++ l) :: lines_of text [].
Proof.
  revert cur. induction l as [|c l IH]; intros cur Hl; cbn [app lines_of].
  - rewrite bool_decide_true by reflexivity. now rewrite app_nil_r.
  - apply not_elem_of_cons in Hl as [Hc Hl]. rewrite bool_decide_false by congruence. rewrite IH by exact Hl. now rewrite <- app_assoc.
Qed.

Lemma lines_of_text ls : Forall (fun l => x0a ∉ l) ls -> lines_of (text_of ls) [] = ls.
Proof.
  unfold text_of. induction 1 as [|l ls Hl _ IH]; [reflexivity|]. cbn [map concat]. rewrite <- app_assoc. cbn [app].
  rewrite lines_of_line by exact Hl. now rewrite IH.
Qed.

(** A text with something that is not blank at both ends. *)
Lemma trim_id a s z : is_blank a = false -> is_blank z = false -> z <> x0d -> trim (a :: s ++ [z]) = a :: s ++ [z].
Proof.
  intros Ha Hz Hr. unfold trim. cbn [trim_left]. rewrite Ha. unfold trim_right. change (a :: s ++ [z]) with ((a :: s) ++ [z]).
  rewrite reverse_snoc, Hz, bool_decide_false by exact Hr. cbn [orb]. now rewrite reverse_cons, reverse_involutive.
Qed.

(** ** The lines of an override file *)

(** What a line sets. *)
Inductive setting := Ignored | BuildId (id : list byte) | Offset (i : nat) (v : Z).
Definition set_one (p : parsed) (d : setting) : parsed :=
  match d with
  | Ignored => p
  | BuildId id => mk_parsed (Some id) (ps_vals p)
  | Offset i v => mk_parsed (ps_bid p) (<[i := Some v]> (ps_vals p))
  end.
Definition sets (bidsz : Z) (l : list byte) (d : setting) : Prop := forall p, parse_line bidsz l p = Some (set_one p d).

Lemma parse_lines_sets bidsz ls ds p : Forall2 (sets bidsz) ls ds -> parse_lines bidsz ls p = Some (fold_left set_one ds p).
Proof. intros H. revert p. induction H as [|l d ls ds Hl _ IH]; intros p; [reflexivity|]. cbn. rewrite Hl. cbn. apply IH. Qed.

(** The last word on a slot, when all agree. *)
Lemma set_vals ds p i v : (i < length (ps_vals p))%nat -> ps_vals p !! i = Some (Some v) \/ Offset i v ∈ ds -> (forall w, Offset i w ∈ ds -> w = v) ->
  ps_vals (fold_left set_one ds p) !! i = Some (Some v).
Proof.
  revert p. induction ds as [|d ds IH]; intros p Hi Hv Hu; cbn [fold_left]; [destruct Hv as [H|H]; [exact H|inversion H]|].
  assert (Hu' : forall w, Offset i w ∈ ds -> w = v) by (intros w Hw; apply Hu; now right).
  destruct d as [|id|j w]; cbn [set_one] in *.
  - apply IH; auto. destruct Hv as [H|H]; [auto|]. apply elem_of_cons in H as [H|H]; [discriminate|auto].
  - apply IH; auto. destruct Hv as [H|H]; [auto|]. apply elem_of_cons in H as [H|H]; [discriminate|auto].
  - apply IH; cbn [ps_vals]; [rewrite length_insert; exact Hi| |exact Hu'].
    destruct (decide (j = i)) as [->|Hne]; [left; rewrite list_lookup_insert_eq by exact Hi; now rewrite (Hu w) by now left|].
    rewrite list_lookup_insert_ne by exact Hne. destruct Hv as [H|H]; [auto|]. apply elem_of_cons in H as [[= <- <-]|H]; [contradiction|auto].
Qed.
Lemma set_bid ds p id : ps_bid p = Some id \/ BuildId id ∈ ds -> (forall w, BuildId w ∈ ds -> w = id) -> ps_bid (fold_left set_one ds p) = Some id.
Proof.
  revert p. induction ds as [|d ds IH]; intros p Hv Hu; cbn [fold_left]; [destruct Hv as [H|H]; [exact H|inversion H]|].
  assert (Hu' : forall w, BuildId w ∈ ds -> w = id) by (intros w Hw; apply Hu; now right).
  destruct d as [|w|j v]; cbn [set_one]; apply IH; auto; cbn [ps_bid].
  - destruct Hv as [H|H]; [auto|]. apply elem_of_cons in H as [H|H]; [discriminate|auto].
  - left. now rewrite (Hu w) by now left.
  - destruct Hv as [H|H]; [auto|]. apply elem_of_cons in H as [H|H]; [discriminate|auto].
Qed.
Lemma set_length ds p : length (ps_vals (fold_left set_one ds p)) = length (ps_vals p).
Proof. revert p. induction ds as [|d ds IH]; intros p; cbn [fold_left]; [reflexivity|]. rewrite IH. destruct d; cbn; auto using length_insert. Qed.

Lemma number_digits base acc b s : Forall (fun c => digit_val c <? base = true) s -> b = true \/ s <> [] -> number base acc b s = Some (read_digits base acc s).
Proof.
  revert acc b. induction s as [|c s IH]; intros acc b Hs Hb; [destruct Hb as [->|[]]; reflexivity|].
  inversion Hs as [|? ? Hc Hs']; subst. cbn. rewrite Hc. apply IH; auto.
Qed.

Lemma strtoull_hex v : 0 <= v < 2 ^ 64 -> strtoull_all (hexs v) = Some v.
Proof.
  intros Hv. destruct (hex_shape v Hv) as (c & r & E & Hd & Hr & _). unfold hexs, strtoull_all. rewrite E.
  cbn [skip_space_class]. change (is_space x30) with false. cbn iota. unfold number0. inversion Hd as [|? ? Hc _]; subst. rewrite Hc.
  rewrite number_digits by (auto; right; discriminate). cbn [option_map]. unfold ULONG_MAX. f_equal. lia.
Qed.

(** A hexadecimal digit ends no line, no key and no trimming. *)
Definition plain_char (c : byte) : bool := negb (is_blank c) && negb (bool_decide (c = x0d)) && negb (bool_decide (c = x0a)).
Lemma digit_plain c : digit_val c <? 16 = true -> plain_char c = true.
Proof. destruct c; vm_compute; congruence. Qed.
Lemma plain_spec c : plain_char c = true -> is_blank c = false /\ c <> x0d /\ c <> x0a.
Proof. unfold plain_char. intros H. b2p. split; [assumption|]. split; eapply bool_decide_eq_false_1; eassumption. Qed.

Definition key_ok (i : nat) (k : list byte) : bool :=
  forallb plain_char k && negb (has_char x3d k) && bool_decide (trim k = k) && negb (bool_decide (k = bytes_of "buildid")) &&
  bool_decide (list_find (fun x => x = k) keys = Some (i, k)) && (zlen k <=? 20) && negb (bool_decide (head k = Some x23)) && negb (bool_decide (k = [])).
Lemma keys_ok i k : keys !! i = Some k -> key_ok i k = true.
Proof. do 13 (destruct i as [|i]; [intros [= <-]; vm_compute; reflexivity|]). discriminate. Qed.

Lemma has_char_in c s : has_char c s = false -> c ∉ s.
Proof.
  unfold has_char. induction s as [|x s IH]; intros H; [intros Hx; inversion Hx|]. cbn in H. apply orb_false_iff in H as [H1 H2].
  apply not_elem_of_cons. split; [intros ->; now rewrite bool_decide_true in H1|auto].
Qed.

Lemma trim_plain l : Forall (fun c => plain_char c = true) l -> l <> [] -> trim l = l.
Proof.
  intros Hl Hn. destruct l as [|a s]; [contradiction|]. inversion Hl as [|? ? Ha Hs]; subst. apply plain_spec in Ha as (Ha & _ & _).
  destruct s as [|z s _] using rev_ind.
  - unfold trim. cbn [trim_left]. rewrite Ha. inversion Hl as [|? ? Hp _]; subst. apply plain_spec in Hp as (_ & Hd & _). unfold trim_right.
    change (reverse [a]) with [a]. cbv beta iota. rewrite Ha, bool_decide_false by exact Hd. reflexivity.
  - apply Forall_app in Hs as [_ Hz]. inversion Hz as [|? ? Hz' _]; subst. apply plain_spec in Hz' as (Hz1 & Hz2 & _). now apply trim_id.
Qed.

(** A line made of plain characters, with an '=' after the key. *)
Lemma parse_plain bidsz key val p : Forall (fun c => plain_char c = true) (key ++ x3d :: val) -> x3d ∉ key -> trim key = key -> head key <> Some x23 -> key <> [] ->
  zlen key + zlen val <= 254 ->
  parse_line bidsz (key ++ x3d :: val) p =
    if bool_decide (key = bytes_of "buildid") then Some (mk_parsed (Some (snprintf_s bidsz val)) (ps_vals p)) else
    match list_find (fun x => x = key) keys with
    | None => None
    | Some (hit, _) => match strtoull_all val with None => None | Some v => Some (mk_parsed (ps_bid p) (<[hit := Some v]> (ps_vals p))) end
    end.
Proof.
  intros Hp Hk Ht Hh Hn Hl. unfold parse_line. rewrite take_ge by (rewrite length_app; unfold zlen in Hl; cbn; lia).
  assert (Hne : key ++ x3d :: val <> []) by (destruct key; discriminate).
  rewrite (trim_plain _ Hp Hne), (cut_app x3d key val Hk), Ht.
  destruct key as [|c key]; [contradiction|]. cbn [app]. cbn in Hh. destruct c; try reflexivity. now elim Hh.
Qed.

Lemma offset_line i k v : keys !! i = Some k -> 0 <= v < 2 ^ 64 -> sets 64 (k ++ x3d :: hexs v) (Offset i v) /\ x0a ∉ (k ++ x3d :: hexs v).
Proof.
  intros Hk Hv. pose proof (keys_ok i k Hk) as H. unfold key_ok in H. b2p. repeat match goal with H : bool_decide _ = _ |- _ => apply bool_decide_eq_true in H || apply bool_decide_eq_false in H end.
  destruct (hex_shape v Hv) as (c & r & E & Hd & _ & Hlen).
  assert (HF : Forall (fun c => plain_char c = true) (k ++ x3d :: hexs v)).
  { apply Forall_app. split; [apply List.Forall_forall, List.forallb_forall; assumption|]. unfold hexs. rewrite E. do 3 (constructor; [reflexivity|]).
    eapply list.Forall_impl; [exact Hd|]. apply digit_plain. }
  split.
  - intros p. rewrite parse_plain; auto; [|apply has_char_in; assumption|].
    + rewrite bool_decide_false by assumption. rewrite H3, strtoull_hex by exact Hv. reflexivity.
    + unfold hexs. rewrite E, !zlen_cons in *. lia.
  - intros Hx. rewrite list.Forall_forall in HF. apply HF in Hx. discriminate.
Qed.

Definition fields (o : art_offsets) : list Z :=
  [tls_thread_slot o; managed_stack o; ms_link o; ms_top_shadow o; sf_link o; sf_method o; sf_dex_pc_ptr o;
   artm_declclass o; artm_dexidx o; class_dexcache o; dexcache_dexfile o; dexfile_begin o; dexfile_datasize o].
Definition offset_lines (o : art_offsets) : list (list byte) := zip_with (fun k v => k ++ x3d :: hexs v) keys (fields o).
Definition id_line (id : list byte) : list byte := bytes_of "buildid" ++ x3d :: id.
(** Blank and comment lines. *)
Definition ignorable (l : list byte) : Prop := x0a ∉ l /\ (trim (take 255 l) = [] \/ head (trim (take 255 l)) = Some x23).
(** A BuildID as the note scan prints it. *)
Definition hex_id (id : list byte) : Prop := Forall (fun c => digit_val c <? 16 = true) id /\ zlen id <= 63.

Lemma offset_lines_set o : Forall (fun v => 0 <= v < 2 ^ 64) (fields o) ->
  Forall2 (sets 64) (offset_lines o) (imap Offset (fields o)) /\ Forall (fun l => x0a ∉ l) (offset_lines o).
Proof.
  intros Hf. rewrite list.Forall_forall in Hf. unfold offset_lines.
  assert (H : forall i k v, keys !! i = Some k -> fields o !! i = Some v -> sets 64 (k ++ x3d :: hexs v) (Offset i v) /\ x0a ∉ (k ++ x3d :: hexs v))
    by (intros i k v Hk Hv; apply offset_line; [exact Hk|]; apply Hf, list_elem_of_lookup; eauto).
  split.
  - apply Forall2_same_length_lookup. split; [rewrite length_zip_with, length_imap; reflexivity|]. intros i l d Hl Hd.
    apply lookup_zip_with_Some in Hl as (k & v & -> & Hk & Hv). rewrite list_lookup_imap, Hv in Hd. injection Hd as <-. now apply H.
  - apply list.Forall_lookup. intros i l Hl. apply lookup_zip_with_Some in Hl as (k & v & -> & Hk & Hv). now apply (H i).
Qed.

Lemma id_line_sets id : hex_id id -> sets 64 (id_line id) (BuildId id) /\ x0a ∉ id_line id.
Proof.
  intros [Hd Hl].
  assert (HF : Forall (fun c => plain_char c = true) (id_line id)).
  { unfold id_line. apply Forall_app. split; [apply List.Forall_forall, List.forallb_forall; vm_compute; reflexivity|].
    constructor; [reflexivity|]. eapply list.Forall_impl; [exact Hd|]. apply digit_plain. }
  split.
  - intros p. unfold id_line in *. rewrite parse_plain; auto; try (vm_compute; reflexivity || congruence).
    + rewrite bool_decide_true by reflexivity. rewrite snprintf_whole by lia. reflexivity.
    + apply has_char_in. vm_compute. reflexivity.
    + change (zlen (bytes_of "buildid")) with 7. lia.
  - intros Hx. rewrite list.Forall_forall in HF. apply HF in Hx. discriminate.
Qed.

Lemma ignorable_sets l : ignorable l -> sets 64 l Ignored.
Proof.
  intros [_ H] p. unfold parse_line. cbv zeta. destruct H as [H|H]; [now rewrite H|].
  destruct (trim (take 255 l)) as [|c s]; [reflexivity|]. injection H as ->. reflexivity.
Qed.

(** What the file says, in whatever order. *)
Lemma settings_read o id ds extra : Permutation ((BuildId id :: imap Offset (fields o)) ++ replicate extra Ignored) ds ->
  ps_bid (fold_left set_one ds parsed0) = Some id /\ ps_vals (fold_left set_one ds parsed0) = map Some (fields o).
Proof.
  intros HP. assert (Hin : forall d, d ∈ ds -> d = BuildId id \/ (exists i v, d = Offset i v /\ fields o !! i = Some v) \/ d = Ignored).
  { intros d Hd. rewrite <- HP in Hd. apply elem_of_app in Hd as [Hd|Hd]; [|apply elem_of_replicate in Hd as [-> _]; auto].
    apply elem_of_cons in Hd as [->|Hd]; [auto|]. apply elem_of_lookup_imap_1 in Hd as (i & v & -> & Hv). right; left; eauto. }
  split.
  - apply set_bid; [right; rewrite <- HP; now left|]. intros w Hw. apply Hin in Hw as [[= ->]|[(i & v & Hx & _)|Hx]]; [reflexivity|discriminate|discriminate].
  - apply list_eq. intros i. destruct (decide (i < 13)%nat) as [Hi|Hi].
    + destruct (lookup_lt_is_Some_2 (fields o) i Hi) as [v Hv]. rewrite list_lookup_fmap, Hv. cbn [fmap option_fmap option_map].
      apply set_vals; [exact Hi| |].
      * right. rewrite <- HP. apply elem_of_app. left. right. now apply elem_of_lookup_imap_2.
      * intros w Hw. apply Hin in Hw as [Hw|[(j & v' & [= -> ->] & Hv')|Hw]]; [discriminate|congruence|discriminate].
    + rewrite !lookup_ge_None_2; [reflexivity|rewrite length_map; cbn; lia|rewrite set_length; cbn; lia].
Qed.

Lemma parse_offsets o id extra ls : Forall (fun v => 0 <= v < 2 ^ 64) (fields o) -> hex_id id -> Forall ignorable extra ->
  Permutation ((id_line id :: offset_lines o) ++ extra) ls -> art_offsets_parse (text_of ls) 64 = Some (id, o).
Proof.
  intros Hf Hid Hx HP. destruct (offset_lines_set o Hf) as [HS HN]. destruct (id_line_sets id Hid) as [HI HIN].
  assert (H2 : Forall2 (sets 64) ((id_line id :: offset_lines o) ++ extra) ((BuildId id :: imap Offset (fields o)) ++ replicate (length extra) Ignored)).
  { apply Forall2_app; [constructor; assumption|]. clear HP. induction Hx as [|l extra Hl _ IH]; [constructor|]. constructor; [now apply ignorable_sets|exact IH]. }
  destruct (Permutation_Forall2 HP H2) as (ds & HPd & HF). unfold art_offsets_parse. rewrite lines_of_text.
  - rewrite (parse_lines_sets _ _ _ _ HF). cbn [mbind option_bind]. destruct (settings_read o id ds _ HPd) as [-> ->]. destruct o. reflexivity.
  - rewrite <- HP. apply Forall_app. split; [constructor; assumption|]. eapply list.Forall_impl; [exact Hx|]. intros l [Hl _]. exact Hl.
Qed.

(** ** The note scan *)

Lemma align4_nonneg n : 0 <= align4 n.
Proof. apply Z.land_nonneg. right. lia. Qed.

Lemma hex2_length d : zlen (concat (map hex2 d)) = 2 * zlen d.
Proof. induction d as [|b d IH]; [reflexivity|]. cbn [map concat]. rewrite zlen_app, IH, zlen_cons. change (zlen (hex2 b)) with 2. lia. Qed.

Definition id_fits (outsz : Z) (r : option (list byte)) : Prop := forall h, r = Some h -> 0 < zlen h < outsz.

Lemma note_loop_total fuel nb size p outsz : zlen nb = size -> size <= 4096 -> 0 <= p -> (Z.to_nat (size - p) < fuel)%nat ->
  exists r, note_loop fuel nb size p outsz = Ret r /\ id_fits outsz r.
Proof.
  intros Hn Hs. revert p. induction fuel as [|fuel IH]; intros p Hp Hf; [lia|]. cbn [note_loop].
  destruct (_ >? _) eqn:E; b2p; [exists None; split; [reflexivity|discriminate]|].
  rewrite !ld_le_in, !ret_bind by (simpl; lia). cbv zeta. pose proof (le_at_range 4 nb p). pose proof (le_at_range 4 nb (p + 4)).
  set (ns := le_at 4 nb p) in *. set (dsz := le_at 4 nb (p + 4)) in *. pose proof (align4_nonneg ns). pose proof (align4_nonneg dsz).
  destruct (_ && _) eqn:E1; [|apply IH; lia]. b2p.
  rewrite (u32_small (dsz * 2)), u32_small by lia. destruct (_ >? outsz) eqn:E2; b2p; [exists None; split; [reflexivity|discriminate]|].
  rewrite memcpy_in_ok, ret_bind by lia. eexists. split; [reflexivity|]. intros h [= <-]. rewrite hex2_length, zlen_slice by lia. lia.
Qed.

Lemma section_loop_total n file shoff es i outsz : 0x28 <= es -> exists r, section_loop n file shoff es i outsz = Ret r /\ id_fits outsz r.
Proof.
  intros He. revert i. induction n as [|n IH]; intros i; [exists None; split; [reflexivity|discriminate]|]. cbn [section_loop].
  assert (HR : forall pos m b, 0 <= m -> fread_at file pos m = Some b -> zlen b = m).
  { unfold fread_at. intros pos m b Hm. destruct (_ <? 0) eqn:E; [discriminate|]. destruct (_ <=? _) eqn:E1; [|discriminate]. b2p. intros [= <-]. apply zlen_slice; lia. }
  destruct (fread_at file _ _) as [sh|] eqn:Eh; [|exists None; split; [reflexivity|discriminate]]. apply HR in Eh; [|lia].
  rewrite !ld_le_in by (simpl; lia). rewrite ret_bind. destruct (negb _); [apply IH|]. rewrite !ret_bind.
  pose proof (le_at_range 8 sh 32). destruct (_ || _) eqn:Es; [apply IH|]. b2p.
  destruct (fread_at file _ (le_at 8 sh 32)) as [nb|] eqn:Eb; [|exists None; split; [reflexivity|discriminate]]. apply HR in Eb; [|lia].
  destruct (note_loop_total (S (Z.to_nat (le_at 8 sh 32))) nb (le_at 8 sh 32) 0 outsz Eb) as (r & -> & Hr); [lia|lia|lia|].
  rewrite ret_bind. destruct r as [h|]; [exists (Some h); auto|apply IH].
Qed.

Lemma read_build_id_total file outsz : exists r, read_build_id_hex file outsz = Ret r /\ id_fits outsz r.
Proof.
  unfold read_build_id_hex. destruct file as [file|]; [|exists None; split; [reflexivity|discriminate]].
  unfold fread_at. destruct (s64 0 <? 0); [exists None; split; [reflexivity|discriminate]|]. change (s64 0) with 0.
  destruct (0 + 64 <=? zlen file) eqn:E; b2p; [|exists None; split; [reflexivity|discriminate]].
  assert (Hl : zlen (slice file 0 64) = 64) by (apply zlen_slice; lia).
  rewrite memcpy_in_ok, ret_bind by lia. destruct (negb _); [exists None; split; [reflexivity|discriminate]|].
  rewrite !ld_le_in, !ret_bind by (simpl; lia). destruct (_ <? 0x28) eqn:E1; b2p; [exists None; split; [reflexivity|discriminate]|].
  now apply section_loop_total.
Qed.

(** ** The gate *)

(** The BuildID of a process's runtime: that of the first mapped libart.so. *)
Definition runtime_id (maps : Z -> option (list anubee_map_line)) (files : list byte -> option (list byte)) (pid : Z) : option (list byte) :=
  match maps pid with
  | None => None
  | Some m =>
      match List.find is_libart m with
      | None => None
      | Some l => match read_build_id_hex (files (snprintf_s 256 (path l))) 64 with Ret r => r | _ => None end
      end
  end.
(** The layout it stands for: the override's, else the table's. *)
Definition layout_of (ov : option (list byte * art_offsets)) (id : option (list byte)) : option art_offsets :=
  match id with
  | None => None
  | Some id => match override_lookup ov id with Some o => Some o | None => art_offsets_for_buildid id end
  end.
(** The kept answer belongs to the kept process. *)
Definition gate_ok (ov : option (list byte * art_offsets)) (maps : Z -> option (list anubee_map_line)) (files : list byte -> option (list byte)) (g : gate) : Prop :=
  cache_pid g = -2 \/ cache_off g = layout_of ov (runtime_id maps files (cache_pid g)).

Lemma gate_answers ov maps files pid g : gate_ok ov maps files g -> pid <> -2 ->
  exists g', art_buildid_offsets ov maps files pid g = Ret (layout_of ov (runtime_id maps files pid), g') /\ gate_ok ov maps files g' /\
    (g_naming_disabled g' = true <-> g_naming_disabled g = true \/
      (pid <> cache_pid g /\ exists id, runtime_id maps files pid = Some id /\ layout_of ov (Some id) = None)).
Proof.
  intros Hg Hp. unfold art_buildid_offsets. destruct (pid =? cache_pid g) eqn:E; b2p.
  { subst pid. destruct Hg as [Hg|Hg]; [contradiction|]. exists g. rewrite <- Hg. split; [reflexivity|]. split; [right; exact Hg|]. split; [auto|]. intros [H|[[] _]]; [exact H|reflexivity]. }
  assert (HR : (match maps pid with None => Ret None | Some m => match List.find is_libart m with None => Ret None
      | Some l => read_build_id_hex (files (snprintf_s 256 (path l))) 64 end end) = Ret (runtime_id maps files pid) /\ id_fits 64 (runtime_id maps files pid)).
  { unfold runtime_id. destruct (maps pid) as [m|]; [|split; [reflexivity|discriminate]]. destruct (List.find is_libart m) as [l|]; [|split; [reflexivity|discriminate]].
    destruct (read_build_id_total (files (snprintf_s 256 (path l))) 64) as (r & -> & Hr). auto. }
  destruct HR as [-> Hid]. rewrite ret_bind. cbv zeta. eexists. split; [reflexivity|]. split; [right; reflexivity|]. cbn [g_naming_disabled].
  rewrite orb_true_iff. unfold layout_of. destruct (runtime_id maps files pid) as [id|]; [|split; [intros [H|H]; [auto|discriminate]|intros [H|(_ & i & Hi & _)]; [auto|discriminate]]].
  specialize (Hid id eq_refl). destruct id as [|c id]; [unfold zlen in Hid; cbn in Hid; lia|].
  destruct (match override_lookup ov (c :: id) with Some o => Some o | None => art_offsets_for_buildid (c :: id) end) eqn:Eo.
  - split; [intros [H|H]; [auto|discriminate]|]. intros [H|(_ & i & [= <-] & Hi)]; [auto|congruence].
  - split; [intros [H|_]; [auto|]; right; split; [exact E|exists (c :: id); auto]|]. intros [H|_]; auto.
Qed.

(** A sequence of questions. *)
Fixpoint ask_pids (ov : option (list byte * art_offsets)) (maps : Z -> option (list anubee_map_line)) (files : list byte -> option (list byte)) (pids : list Z) (g : gate)
  : res (list (option art_offsets) * gate) :=
  match pids with
  | [] => Ret ([], g)
  | pid :: pids =>
      '(o, g) ← art_buildid_offsets ov maps files pid g;
      '(os, g) ← ask_pids ov maps files pids g;
      Ret (o :: os, g)
  end.

(** A process whose runtime is readable and unknown. *)
Definition unknown_runtime (ov : option (list byte * art_offsets)) (maps : Z -> option (list anubee_map_line)) (files : list byte -> option (list byte)) (pid : Z) : Prop :=
  exists id, runtime_id maps files pid = Some id /\ layout_of ov (Some id) = None.

Lemma gate_asked ov maps files pids g : gate_ok ov maps files g -> (cache_pid g <> -2 -> unknown_runtime ov maps files (cache_pid g) -> g_naming_disabled g = true) ->
  Forall (fun pid => 0 <= pid) pids ->
  exists g', ask_pids ov maps files pids g = Ret (map (fun pid => layout_of ov (runtime_id maps files pid)) pids, g') /\
    (g_naming_disabled g' = true <-> g_naming_disabled g = true \/ exists pid, pid ∈ pids /\ unknown_runtime ov maps files pid).
Proof.
  intros Hg Hd Hp. revert g Hg Hd. induction Hp as [|pid pids Hpid _ IH]; intros g Hg Hd; cbn [ask_pids map].
  { exists g. split; [reflexivity|]. split; [auto|]. intros [H|(pid & H & _)]; [exact H|inversion H]. }
  destruct (gate_answers ov maps files pid g Hg ltac:(lia)) as (g1 & E1 & Hg1 & Hn1). rewrite E1, ret_bind.
  assert (Hc : cache_pid g1 = pid).
  { unfold art_buildid_offsets in E1. destruct (pid =? cache_pid g) eqn:E; b2p; [injection E1 as _ <-; auto|].
    apply bind_ret in E1 as (h & _ & [= _ <-]). reflexivity. }
  assert (Hd1 : unknown_runtime ov maps files pid -> g_naming_disabled g1 = true).
  { intros Hu. apply Hn1. destruct (decide (pid = cache_pid g)) as [->|Hne]; [left; apply Hd; [lia|exact Hu]|right; auto]. }
  destruct (IH g1 Hg1) as (g2 & E2 & Hn2); [rewrite Hc; auto|]. rewrite E2, ret_bind. exists g2. split; [reflexivity|].
  rewrite Hn2, Hn1. split.
  - intros [[H|(_ & Hu)]|(q & Hq & Hu)]; [auto|right; exists pid; split; [now left|exact Hu]|right; exists q; split; [now right|exact Hu]].
  - intros [H|(q & Hq & Hu)]; [auto|]. apply elem_of_cons in Hq as [->|Hq]; [left; apply Hn1; auto|eauto].
Qed.


(** A library with one note section, and an override for its BuildID. *)
Definition demo_note : list byte := le_bytes 4 4 ++ le_bytes 4 2 ++ le_bytes 4 3 ++ bytes_of "GNU" ++ [x00] ++ [xab; xcd; x00; x00].
Definition demo_lib : list byte :=
  [x7f; x45; x4c; x46] ++ repeat x00 36 ++ le_bytes 8 64 ++ repeat x00 10 ++ le_bytes 2 64 ++ le_bytes 2 1 ++ le_bytes 2 0 ++
  (le_bytes 4 0 ++ le_bytes 4 7 ++ repeat x00 16 ++ le_bytes 8 128 ++ le_bytes 8 20 ++ repeat x00 24) ++ demo_note.
Definition demo_art_maps (pid : Z) : option (list anubee_map_line) :=
  if pid =? 5 then Some [mk_line 0x1000 0x2000 0 true (bytes_of "/apex/libart.so")] else None.
Definition demo_override : list (list byte) := bytes_of "# Pixel" :: [] :: id_line (bytes_of "abcd") :: offset_lines k_offsets.


(** A blank behind the '=' of the BuildID is kept: the file parses, but its BuildID never
    equals one that was read. *)
Lemma spaced_build_id_never_matches :
  exists id, art_offsets_parse (text_of ((bytes_of "buildid = abcd") :: offset_lines k_offsets)) 64 = Some (id, k_offsets) /\ id = bytes_of " abcd" /\
    override_lookup (Some (id, k_offsets)) (bytes_of "abcd") = None.
Proof. exists (bytes_of " abcd"). vm_compute. auto. Qed.

(** The answer for a process that has not mapped its runtime yet is kept: asked again
    after the library is there, nothing is named. *)
Lemma early_miss_is_kept :
  exists g, art_buildid_offsets None (fun _ => None) (fun _ => Some demo_lib) 5 gate0 = Ret (None, g) /\
    art_buildid_offsets (Some (bytes_of "abcd", k_offsets)) demo_art_maps (fun _ => Some demo_lib) 5 g = Ret (None, g) /\
    layout_of (Some (bytes_of "abcd", k_offsets)) (runtime_id demo_art_maps (fun _ => Some demo_lib) 5) = Some k_offsets.
Proof. eexists. split; [vm_compute; reflexivity|]. split; vm_compute; reflexivity. Qed.
